(* ===== verification/_CoqProject ===== *)
-Q . S2P
Prelude.v
Types.v
Codec.v
Wal.v
Memtable.v
Manifest.v
Text.v
Wide.v
Canonical.v
Segment.v
Metadata.v
SegmentFile.v
Packing.v
Encoding.v
Frames.v
Merge.v
Compaction.v
Snapshot.v
Store.v
Recovery.v
StoreInvariant.v
Replica.v
LogState.v
Durability.v
Reopen.v
Packets.v
Messages.v
Parameters.v
Statements.v
Connection.v
Binlog.v
Placement.v
Charset.v
Json.v
RowValues.v
