(* ===== verification/Prelude.v ===== *)
(** * Pintail: a verification development

    Pintail keeps analytical copies of the tables of a source database.  This library
    models its storage engine, [src/crates/pintail-store], with the value model it stores,
    [src/crates/pintail-types]; the protocol its clients speak,
    [src/crates/pintail-protocol], with the split of their requests into statements; and
    the parts of [src/crates/pintail-cdc] that place and read the row images of a source.
    Changes of the source arrive in batches of rows, each
    with a key, a version and a delete mark.  A batch is appended to the table's
    write-ahead log and applied to its memtable; a full memtable is flushed into an
    immutable segment file and the manifest that lists the segments is replaced; a
    compaction merges segments; replaced files are removed once no reader holds them.
    Readers merge the segments and the memtable, the highest version of a key winning.
    A client connects, is greeted and logs in, and sends commands in packets; a handler
    answers each, and the connection frames what it answered.

    ** The files

    - [Prelude]: byte strings, machine-width arithmetic, the [result] monad, ordered
      types and maps as sorted association lists, shared tactics and lemmas.
    - [Types]: [pintail-types] [value.rs], [row.rs], [schema.rs] - values, their order,
      keys, rows, schemas and their validation.
    - [Codec]: [codec.rs] - the byte encoding of keys, values and rows.
    - [Wal]: [wal.rs] - the log, its append with rollback, its recovery.
    - [Memtable]: [memtable.rs] - the unflushed rows.
    - [Manifest]: [manifest.rs] and the schema fingerprint of [segment/mod.rs].
    - [Metadata]: what a segment's manifest entry is made of fits the manifest's format.
    - [Text], [Wide], [Canonical]: decimal text, the 512-bit integers of [wide.rs], the
      date, time and decimal text of [canonical.rs].
    - [Segment]: [segment/mod.rs] - native units, bloom filter, column summaries and the
      skipping of segments.
    - [SegmentFile]: [segment/mod.rs] - a segment's columns of cells, written and read
      back under the same or a later schema, and the type changes
      [pintail-probe/src/lib.rs] lets a table take in place.
    - [Packing]: [segment/encoding.rs] and [src/crates/pintail-simd] - integers packed at a
      bit width, the portable and AVX2 kernels that unpack them, and the plain, typed,
      delta and selected decoders of a packed payload.
    - [Encoding]: [segment/encoding.rs] - the choice of a block's encoding, the plain,
      dictionary, run-length, bit-packed and delta payloads, narrowed dictionaries, the
      dictionary a column shares between its blocks, the bound on decoded bytes.
    - [Frames]: [segment/encoding.rs] - the compression of a block, whole or in frames.
    - [Merge]: [store/mod.rs], [run_background_merge] and the loop of [compact].
    - [Compaction]: [store/mod.rs], [compaction_plan] and what it calls,
      [merge_drops_tombstones].
    - [Snapshot]: [store/snapshot.rs] - scans, value pruning, folds and bounds.
    - [Store]: [store/mod.rs], [TableStore] and its operations.
    - [Recovery]: [store/mod.rs], [open_with_wal] and what it calls.
    - [StoreInvariant]: the invariant of [TableStore], and flush, compaction and reclaim.
    - [Replica]: a table fed by a change stream, against its specification.
    - [LogState]: the log of a table as batches flushed and fresh, under appends that
      fail, losses of power, resets and openings.
    - [Durability]: a running table and its disk, and what each operation leaves of them
      when it succeeds, fails or is killed.
    - [Reopen]: [open_with_wal] on a disk left so, and histories of a table that is
      stopped and opened again, against their specification.
    - [Packets]: [pintail-protocol] [packet.rs] - packets over a transport that delivers
      any pieces, reading ahead, length-encoded integers.
    - [Messages]: [types.rs], [handshake.rs], [command.rs], [resultset.rs] - greeting,
      login response, passwords, commands, result packets, text and binary rows.
    - [Parameters]: [value.rs] - the bound parameters of a prepared statement.
    - [Statements]: [pintail-sql] [request.rs], [mode.rs] and the executable comments of
      [lib.rs] - where a statement of a request ends, under each SQL mode.
    - [Connection]: [pintail-protocol] [server.rs] - login and the serving of commands,
      with the handler as a class of operations on a state of its own.
    - [Binlog]: [pintail-cdc] [gtid.rs] and [event.rs] - sets of transactions, and the
      check of the header of a compressed transaction.
    - [Placement]: [decoder.rs] - how the columns of a row image find those of a schema.
    - [Charset], [Json]: [pintail-types] [charset.rs] and [json.rs].
    - [RowValues]: [pintail-cdc] [rowimage.rs] - the packed decimals, dates, times and
      integers of a row image.

    ** How the code is modelled

    A function of the code is a function here, with its checks and early returns; errors
    are values of [result].  Integers are [Z] with their width's overflow, saturation or
    wrap-around written out.  An operation of the store has type [Table A], a function
    from the store to a result and the store it leaves, also when it fails.  What the
    outside does - how each filesystem call ends, the free space, the readers that hold
    a manifest - is an argument of the operation, so a theorem over all arguments is one
    over all failures.  Ordered maps of the code are association lists sorted by key.
    The hash [xxh3_64] of the log, the manifest and the bloom filter is a class
    [Checksum] whose only law is its range; the sketches the block encoder collects, the
    sizes of Rust's types and the bytes of a file are the classes [BlockSketches],
    [Layout] and [FileBytes].  The compressors [lz4_flex] and [zstd] are the class
    [Compressors], whose laws say that they restore what they compressed; the processor
    is the class [Machine].  Each has an instance with which the examples compute.
    A connection is a computation of type [Io], over a transport whose deliveries and
    acceptances, failures included, are part of its state.  The digests of passwords are
    the class [Digests], the handler of a connection the class [Handler] with the laws
    [LawfulHandler], the strings and numbers of the JSON library the class [JsonLibrary]
    with the laws [LawfulJson], and the calendar the class [Calendar].

    ** What is proved

    - Durability: [Wal.wal_durability] for every history of appends, failed calls and
      crashes; [Wal.scan_log_refines_entries] and [Wal.recover_after_crash] for recovery;
      [Manifest.publish_atomic] for the manifest.
    - Round trips: rows, log batches, manifests, segments, dates, times and decimals;
      decoders accept arbitrary bytes only as the encoding of what they return.
    - Packed integers: [Packing.packed_roundtrip]; every kernel, on every processor,
      returns the bits of the stream ([Packing.unpack_kernels_exact]), no assertion of a
      kernel fails under a decoder, and the decoders that drop per-value checks return
      what the checks would ([Packing.typed_decodes_checked],
      [Packing.delta_decodes_checked], [Packing.selected_groups_exact]).
    - Blocks: every encoding is read back ([Encoding.payload_roundtrip]), integer blocks
      are never refused ([Encoding.integer_blocks_written]), narrowing codes changes
      nothing a reader sees, the blocks of a column share one dictionary, decoded text
      stays inside its bound, and what is compressed is restored
      ([Frames.stored_block_roundtrip]).
    - Arithmetic: wide integers are exact or refuse; decimal rounding is half away from
      zero.
    - Reading: a scan is the latest row of each key, and the shortcuts - bloom filters,
      key ranges, column summaries, value pruning, folds over summaries, a lone segment
      read without merging - change no answer.
    - Compaction: plans are sound, the merge ends and writes exactly the winners, and
      [StoreInvariant.compact_keeps_visible] puts them together with the manifest swap.
    - Refinement: [Replica.replica_refines_stream] - a table under any history of
      operations and failures is the fold of the changes it took.
    - Restarts: [Reopen.table_survives_restarts] - the same for a table that is also
      killed in the middle of its operations, loses power and is opened again, against a
      specification that says which batches are on disk for good;
      [Reopen.checkpoint_outlives_power_loss] for what a checkpoint saw,
      [Reopen.stopped_table_opens] that the opening succeeds when the filesystem does.
    - Protocol: payloads arrive whole and in order ([Packets.packets_roundtrip]), messages
      and rows are read back by a client's definitions, parameters are bound exactly
      ([Parameters.parameters_bound_exactly]), a request is split where its grammar says
      ([Statements.statements_split]), serving a command refines a dialogue of payloads
      ([Connection.commands_served]), a client stays in step over several results
      ([Connection.client_stays_in_step]) and a login is the handler's decision
      ([Connection.login_decided]).
    - Sources: sets of transactions hold exactly the ids put in and survive their text
      ([Binlog.gtid_sets_exact], [Binlog.gtid_text_roundtrip]); row images are placed in
      the only way or not at all ([Placement.types_place_uniquely],
      [Placement.alignments_sound]); packed values read back as what was packed
      ([RowValues.packed_decimals_read], [RowValues.packed_datetimes_read],
      [RowValues.packed_dates_read], [RowValues.stored_integers_read]).
    - Text: a character set replaces only what it does not have
      ([Charset.charsets_replace_only]) and a printed JSON document is a fixed point of
      reading and printing ([Json.documents_settle]).
    - Deviations: [Wal.torn_header_refused], [Wide.long_zero_fraction_refused],
      [Canonical.second_sign_accepted], [Packets.cut_header_reads_as_close],
      [Parameters.time_days_wrap], [Parameters.midnight_not_shortest],
      [Json.nesting_bound_is_one_more], [RowValues.zero_image_declined],
      [StoreInvariant.StoreExamples.equal_versions_reordered],
      [Reopen.ReopenExamples.resent_batch_lost] and
      [Reopen.ReopenExamples.torn_log_refused] state what the code does where its
      documentation or its readers expect something else.

    ** Bounds and fuel

    Loops that are not structural take a counter that cannot run out.  The record walk
    of the log has the length of the file, every record being longer than a byte
    ([Wal]).  The merge has the rows of its inputs, every turn taking one
    ([Merge.merge_terminates]).  The closures of the planner have the number of
    segments, every turn that continues adding one ([Compaction.reached_by_closure]).
    The refill loop of the bit reader has nine turns, every turn adding at least a byte to
    fewer than 64 bits, and the loops over groups and chunks have the number of groups or
    values, every turn taking one at least ([Packing]).  The split of a payload into
    frames has its bytes, every value taking four at least ([Frames]).
    The division of [Wide] has the bits of its operand, and the text loops the text's
    length.  The loops of [Packets] have the bytes still due, the query loop the bytes of
    the request ([Connection.query_loop_ends]), and the JSON parser twice the bytes of its
    text, every second call taking one ([Json.parse_ends]).

    ** Not modelled

    - How a segment file lays its blocks out - headers, null bitmaps, footer - with the
      streaming decoders of [segment/mod.rs] and the cache of [segment/block_cache.rs]:
      a segment is its columns of cells, and [Encoding] and [Frames] are about the payload
      of one block.  Of [segment/encoding.rs], [compare_cells] and [hll_registers].  A
      decoder that fails leaves its caller's vector partly filled; [Packing] returns the
      error alone.  Of [pintail-simd], the comparison, aggregation and translation
      kernels, and machines other than x86-64.
    - The columnar scans and side indexes ([store/scan.rs], [store/layer.rs],
      [store/side_index.rs]), which answer what the modelled scans define by other paths.
    - The thread of a background merge: its loop, its reservation of identifiers and its
      publication are modelled, the handing over between threads is not.  Segment
      upgrades and directory renames.
    - In the histories of [Reopen]: a loss of power takes unsynchronized bytes of the
      log, but does not undo a rename or a shortening of a file; the table is not
      transactional and its schema does not change; a table does not go on after the
      calls [steady] names fail, since the disk is then ahead of the memory (the findings
      on [publish_staged] and [flush], and [Reopen.ReopenExamples.torn_log_refused]); a
      header of the log written in part is [Wal.torn_header_refused].
    - Thread pools, pacing and notification ([ingest_pool.rs], [maintenance.rs],
      [publication.rs]) and the log shared by several tables ([database.rs]).
    - Of [pintail-cdc], the plan that frames the values of a row image and the conversion
      of values the binlog library has decoded ([rowimage.rs] past its packed forms,
      [decoder.rs] past its placement), the reading of a live source and the statements
      that change its tables ([lib.rs], [ddl.rs], [added_fill.rs], [narrowing.rs]).  The
      texts of floating-point numbers.
    - Of [pintail-protocol], the bytes of TLS between the two phases of a login.
    - The rest of the repository: other readers of a live source ([pintail-poll],
      [pintail-snapshot], most of [pintail-probe]), the SQL front end and its execution
      ([pintail-sql] past [Statements], [pintail-exec], [pintail-catalog],
      [pintail-write]), servers and operations ([pintail-wire], [pintail-api],
      [pintail-meta], [pintail-backup], [pintail-telemetry], [pintail-log],
      [pintail-failpoint], [pintail]). *)

From Stdlib Require Import ZArith Lia Sorted.
From stdpp Require Import prelude list.
From coqutil Require Import Byte Word.LittleEndianList.

#[local] Open Scope Z_scope.

(** ** Results *)

(** Rust's [Result<A, E>]: fallible code returns [Ok] or [Err]. *)
Inductive result (E A : Type) : Type :=
| Ok (a : A)
| Err (e : E).

Arguments Ok {E A} a.
Arguments Err {E A} e.

#[export] Instance result_ret {E} : MRet (result E) := fun A a => Ok a.
#[export] Instance result_bind {E} : MBind (result E) :=
  fun A B f r => match r with Ok a => f a | Err e => Err e end.

(** [map_err]: the [?] operator after [.map_err(f)]. *)
Definition map_err {E F A} (f : E -> F) (r : result E A) : result F A :=
  match r with Ok a => Ok a | Err e => Err (f e) end.

(** [guard_or b e]: an early return [Err(e)] unless the condition holds. *)
Definition guard_or {E} (b : bool) (e : E) : result E unit :=
  if b then Ok tt else Err e.

(** [Option::ok_or]. *)
Definition ok_or {E A} (o : option A) (e : E) : result E A :=
  match o with Some a => Ok a | None => Err e end.

(** [result_to_option]: [Result::ok]. *)
Definition result_ok {E A} (r : result E A) : option A :=
  match r with Ok a => Some a | Err _ => None end.

(** [foldM] over a list with early return, a [for] loop whose body uses [?]. *)
Fixpoint fold_result {E A S} (f : S -> A -> result E S) (s : S) (l : list A) : result E S :=
  match l with
  | [] => Ok s
  | a :: l => s ← f s a; fold_result f s l
  end.

(** A [map] whose body is fallible, collected into [Result<Vec<_>, _>]. *)
Fixpoint map_result {E A B} (f : A -> result E B) (l : list A) : result E (list B) :=
  match l with
  | [] => Ok []
  | a :: l => b ← f a; bs ← map_result f l; Ok (b :: bs)
  end.

Lemma map_result_lookup {A B E} (f : A -> result E B) (l : list A) (ys : list B) :
  length l = length ys -> (forall i a y, l !! i = Some a -> ys !! i = Some y -> f a = Ok y) -> map_result f l = Ok ys.
Proof.
  revert ys; induction l as [|a l IH]; intros [|y ys] El Hf; try easy. cbn [map_result]. unfold mbind, result_bind.
  rewrite (Hf O a y eq_refl eq_refl), (IH ys); [easy|now injection El|]. intros i. exact (Hf (S i)).
Qed.

Lemma map_result_same {A E} (f : A -> result E A) l : Forall (fun a => f a = Ok a) l -> map_result f l = Ok l.
Proof. induction 1 as [|a l Ha _ IH]; [easy|]. cbn [map_result]. unfold mbind, result_bind. now rewrite Ha, IH. Qed.

Lemma fold_result_app {A B E} (f : A -> B -> result E A) a l1 l2 :
  fold_result f a (l1 ++ l2) = (a ← fold_result f a l1; fold_result f a l2).
Proof.
  revert a; induction l1 as [|b l1 IH]; intros a; [easy|]. cbn [app fold_result]. unfold mbind, result_bind in *. destruct (f a b); [apply IH|easy].
Qed.

(** ** Machine integers, kept as [Z] with their ranges *)

Definition u8_max : Z := 2 ^ 8 - 1.
Definition u32_max : Z := 2 ^ 32 - 1.
Definition u64_max : Z := 2 ^ 64 - 1.
Definition i64_min : Z := - 2 ^ 63.
Definition i64_max : Z := 2 ^ 63 - 1.
Definition i128_min : Z := - 2 ^ 127.
Definition i128_max : Z := 2 ^ 127 - 1.

Definition in_unsigned (w z : Z) : bool := (0 <=? z) && (z <? 2 ^ w).
Definition in_signed (w z : Z) : bool := (- 2 ^ (w - 1) <=? z) && (z <? 2 ^ (w - 1)).

Definition is_u8 : Z -> bool := in_unsigned 8.
Definition is_u16 : Z -> bool := in_unsigned 16.
Definition is_u32 : Z -> bool := in_unsigned 32.
Definition is_u64 : Z -> bool := in_unsigned 64.
Definition is_i32 : Z -> bool := in_signed 32.
Definition is_i64 : Z -> bool := in_signed 64.
Definition is_i128 : Z -> bool := in_signed 128.

(** Two's complement reading of a [w]-bit pattern. *)
Definition signed (w z : Z) : Z := if z <? 2 ^ (w - 1) then z else z - 2 ^ w.

(** [saturating_add], [saturating_mul], [saturating_sub], [wrapping_add] and [checked_add] on an
    unsigned [w]-bit integer. *)
Definition sat_add (w a b : Z) : Z := Z.min (2 ^ w - 1) (a + b).
Definition sat_mul (w a b : Z) : Z := Z.min (2 ^ w - 1) (a * b).
Definition sat_sub (a b : Z) : Z := Z.max 0 (a - b).
Definition wrap_add (w a b : Z) : Z := (a + b) mod 2 ^ w.
Definition checked_add (w a b : Z) : option Z :=
  if a + b <? 2 ^ w then Some (a + b) else None.

(** The checked operations on [i128], [None] when the result does not fit. *)
Definition checked_i128 (z : Z) : option Z := if is_i128 z then Some z else None.

(** ** Slices *)

Definition len {A} (l : list A) : Z := Z.of_nat (length l).

(** [slice.get(s..e)]. *)
Definition get_range {A} (l : list A) (s e : Z) : option (list A) :=
  if (0 <=? s) && (s <=? e) && (e <=? len l)
  then Some (take (Z.to_nat (e - s)) (drop (Z.to_nat s) l))
  else None.

(** Little-endian bytes of the low [n] bytes of [z], and back. *)
Definition to_le (n : nat) (z : Z) : list byte := le_split n z.
Definition from_le (l : list byte) : Z := le_combine l.
Arguments to_le : simpl never.
Arguments from_le : simpl never.

(** ** Total orders: Rust's [Ord], with the comparison the derive gives *)

Class Ordered (A : Type) : Type := {
  cmp : A -> A -> comparison;
  cmp_eq : forall x y, cmp x y = Eq <-> x = y;
  cmp_flip : forall x y, cmp y x = CompOpp (cmp x y);
  cmp_lt_trans : forall x y z, cmp x y = Lt -> cmp y z = Lt -> cmp x z = Lt
}.

Definition olt {A} `{Ordered A} (x y : A) : Prop := cmp x y = Lt.
Definition ole {A} `{Ordered A} (x y : A) : Prop := cmp x y <> Gt.
Definition oltb {A} `{Ordered A} (x y : A) : bool :=
  match cmp x y with Lt => true | _ => false end.
Definition oleb {A} `{Ordered A} (x y : A) : bool :=
  match cmp x y with Gt => false | _ => true end.
Definition oeqb {A} `{Ordered A} (x y : A) : bool :=
  match cmp x y with Eq => true | _ => false end.

(** Lexicographic order of slices, strings and vectors. *)
Fixpoint list_cmp {A} (c : A -> A -> comparison) (xs ys : list A) : comparison :=
  match xs, ys with
  | [], [] => Eq
  | [], _ :: _ => Lt
  | _ :: _, [] => Gt
  | x :: xs, y :: ys => match c x y with Eq => list_cmp c xs ys | r => r end
  end.

(** ** Ordered maps: [BTreeMap] as its sorted list of entries *)

Section ordered_map.
Context {K V : Type} `{Ordered K}.

Definition omap_sorted (m : list (K * V)) : Prop := StronglySorted olt (map fst m).

Fixpoint omap_get (k : K) (m : list (K * V)) : option V :=
  match m with
  | [] => None
  | (k', v) :: m => match cmp k k' with Eq => Some v | _ => omap_get k m end
  end.

Fixpoint omap_insert (k : K) (v : V) (m : list (K * V)) : list (K * V) :=
  match m with
  | [] => [(k, v)]
  | (k', v') :: m' =>
      match cmp k k' with
      | Lt => (k, v) :: m
      | Eq => (k, v) :: m'
      | Gt => (k', v') :: omap_insert k v m'
      end
  end.

End ordered_map.

(** ** Tactics *)

(** Case analysis on every boolean integer comparison in sight. *)
Ltac zcases :=
  repeat match goal with
  | H : context [Z.leb ?a ?b] |- _ => destruct (Z.leb_spec a b)
  | H : context [Z.ltb ?a ?b] |- _ => destruct (Z.ltb_spec a b)
  | H : context [Z.eqb ?a ?b] |- _ => destruct (Z.eqb_spec a b)
  | |- context [Z.leb ?a ?b] => destruct (Z.leb_spec a b)
  | |- context [Z.ltb ?a ?b] => destruct (Z.ltb_spec a b)
  | |- context [Z.eqb ?a ?b] => destruct (Z.eqb_spec a b)
  end.

(** Boolean connectives to propositional ones, then the comparisons. *)
Ltac zbool :=
  repeat match goal with
  | H : _ && _ = true |- _ => apply andb_prop in H; destruct H
  | H : _ || _ = false |- _ => apply orb_false_elim in H; destruct H
  | H : negb _ = true |- _ => apply negb_true_iff in H
  | H : negb _ = false |- _ => apply negb_false_iff in H
  | H : Z.leb _ _ = true |- _ => apply Z.leb_le in H
  | H : Z.leb _ _ = false |- _ => apply Z.leb_gt in H
  | H : Z.ltb _ _ = true |- _ => apply Z.ltb_lt in H
  | H : Z.ltb _ _ = false |- _ => apply Z.ltb_ge in H
  | H : Z.eqb _ _ = true |- _ => apply Z.eqb_eq in H
  | H : Z.eqb _ _ = false |- _ => apply Z.eqb_neq in H
  end.

(** Break the scrutinee of a [match] in a hypothesis or in the goal. *)
Ltac break_match_in H :=
  match type of H with
  | context [match ?x with _ => _ end] =>
      lazymatch x with
      | context [match _ with _ => _ end] => fail
      | _ => let E := fresh "E" in destruct x eqn:E
      end
  end.
Ltac break_match_goal :=
  match goal with
  | |- context [match ?x with _ => _ end] =>
      lazymatch x with
      | context [match _ with _ => _ end] => fail
      | _ => let E := fresh "E" in destruct x eqn:E
      end
  end.

(** Division and modulo by constants, for [lia]. *)
Ltac dlia := Z.to_euclidean_division_equations; lia.

Create HintDb pintail discriminated.

(** ** Lemmas on machine integers *)

Lemma in_unsigned_spec w z : in_unsigned w z = true <-> 0 <= z < 2 ^ w.
Proof. unfold in_unsigned. rewrite andb_true_iff, Z.leb_le, Z.ltb_lt. tauto. Qed.

Lemma in_signed_spec w z : in_signed w z = true <-> - 2 ^ (w - 1) <= z < 2 ^ (w - 1).
Proof. unfold in_signed. rewrite andb_true_iff, Z.leb_le, Z.ltb_lt. tauto. Qed.

Lemma signed_mod w z : 0 < w -> in_signed w z = true -> signed w (z mod 2 ^ w) = z.
Proof.
  intros Hw [Hl Hu]%in_signed_spec. unfold signed.
  assert (Hp : 2 ^ w = 2 * 2 ^ (w - 1)).
  { rewrite <- Z.pow_succ_r by lia. f_equal. lia. }
  assert (0 < 2 ^ (w - 1)) by (apply Z.pow_pos_nonneg; lia).
  destruct (Z.le_gt_cases 0 z).
  - rewrite Z.mod_small by lia. zcases; lia.
  - replace (z mod 2 ^ w) with (z + 2 ^ w).
    + zcases; lia.
    + rewrite <- (Z.mod_small (z + 2 ^ w) (2 ^ w)) by lia.
      rewrite <- (Z.mul_1_l (2 ^ w)) at 1. rewrite Z.mod_add by lia. reflexivity.
Qed.

Lemma signed_range w z : 0 < w -> 0 <= z < 2 ^ w -> in_signed w (signed w z) = true.
Proof.
  intros Hw Hz. apply in_signed_spec. unfold signed.
  assert (Hp : 2 ^ w = 2 * 2 ^ (w - 1)).
  { rewrite <- Z.pow_succ_r by lia. f_equal. lia. }
  zcases; lia.
Qed.

(** ** Lemmas on slices *)

Lemma len_nil {A} : len (@nil A) = 0.
Proof. reflexivity. Qed.
Lemma len_cons {A} (x : A) l : len (x :: l) = 1 + len l.
Proof. unfold len. simpl length. lia. Qed.
Lemma len_app {A} (l k : list A) : len (l ++ k) = len l + len k.
Proof. unfold len. rewrite length_app. lia. Qed.
Lemma len_nonneg {A} (l : list A) : 0 <= len l.
Proof. unfold len. lia. Qed.
Lemma len_to_le n z : len (to_le n z) = Z.of_nat n.
Proof. unfold len, to_le. now rewrite length_le_split. Qed.
Lemma len_map {A B} (f : A -> B) l : len (map f l) = len l.
Proof. unfold len. now rewrite length_map. Qed.

Create Rewrite HintDb len.
#[export] Hint Rewrite @len_nil @len_cons @len_app len_to_le @len_map : len.

(** Arithmetic on lengths: rewrite with the length database, then [lia]. *)
Ltac len_lia :=
  autorewrite with len in *;
  repeat match goal with
  | |- context [len ?l] =>
      lazymatch goal with
      | H : 0 <= len l |- _ => fail
      | _ => pose proof (len_nonneg l)
      end
  | _ : context [len ?l] |- _ =>
      lazymatch goal with
      | H : 0 <= len l |- _ => fail
      | _ => pose proof (len_nonneg l)
      end
  end; lia.

Lemma get_range_app {A} (pre x post : list A) s e :
  s = len pre -> e = len pre + len x ->
  get_range (pre ++ x ++ post) s e = Some x.
Proof.
  intros -> ->. unfold get_range.
  replace (_ && _ && _) with true.
  - f_equal. replace (Z.to_nat (len pre + len x - len pre)) with (length x)
      by (unfold len; lia).
    unfold len. rewrite Nat2Z.id, drop_app_length, take_app_length. reflexivity.
  - symmetry. rewrite !andb_true_iff, !Z.leb_le. len_lia.
Qed.

Lemma get_range_Some {A} (l x : list A) s e :
  get_range l s e = Some x ->
  exists pre post, l = pre ++ x ++ post /\ len pre = s /\ len x = e - s.
Proof.
  unfold get_range. destruct (_ && _) eqn:E; intros [= <-]. zbool.
  exists (take (Z.to_nat s) l), (drop (Z.to_nat (e - s)) (drop (Z.to_nat s) l)).
  rewrite !take_drop. repeat split.
  - unfold len in *. rewrite length_take. lia.
  - unfold len in *. rewrite length_take, length_drop. lia.
Qed.

Lemma get_range_None {A} (l : list A) s e :
  get_range l s e = None <-> ~ (0 <= s <= e /\ e <= len l).
Proof.
  unfold get_range. destruct (_ && _) eqn:E.
  - zbool. split; [discriminate | lia].
  - split; [|reflexivity]. intros _ [? ?].
    rewrite !andb_false_iff, !Z.leb_gt in E. lia.
Qed.

Lemma from_to_le n z : from_le (to_le n z) = z mod 2 ^ (8 * Z.of_nat n).
Proof. unfold from_le, to_le. rewrite le_combine_split. f_equal. f_equal. lia. Qed.

Lemma from_le_range l : 0 <= from_le l < 2 ^ (8 * len l).
Proof. unfold from_le, len. apply le_combine_bound. Qed.

Lemma to_from_le l n : len l = Z.of_nat n -> to_le n (from_le l) = l.
Proof.
  unfold to_le, from_le, len. intros E.
  assert (n = length l) as -> by lia. apply split_le_combine.
Qed.

Lemma low_bits_high a k j : 0 <= a < 2 ^ k -> 0 <= k <= j -> Z.testbit a j = false.
Proof. intros Ha Hj. rewrite <- (Z.mod_small a (2 ^ k)) by lia. apply Z.mod_pow2_bits_high. lia. Qed.

Lemma lor_above a b k : 0 <= k -> 0 <= a < 2 ^ k -> Z.lor a (Z.shiftl b k) = a + b * 2 ^ k.
Proof.
  intros Hk Ha. rewrite <- Z.shiftl_mul_pow2 by lia.
  assert (E : Z.land a (Z.shiftl b k) = 0).
  { apply Z.bits_inj'. intros j Hj. rewrite Z.land_spec, Z.bits_0. destruct (Z.lt_ge_cases j k).
    - rewrite Z.shiftl_spec_low by lia. apply andb_false_r.
    - rewrite (low_bits_high a k j) by lia. reflexivity. }
  rewrite Z.add_nocarry_lxor by exact E. symmetry. now apply Z.lxor_lor.
Qed.

Lemma from_le_app a b : from_le (a ++ b) = from_le a + 2 ^ (8 * len a) * from_le b.
Proof. unfold from_le, len. rewrite le_combine_app, lor_above; [rewrite (Z.mul_comm 8); lia|lia|]. rewrite Z.mul_comm. apply le_combine_bound. Qed.

Lemma from_le_zeros n : from_le (replicate n Byte.x00) = 0.
Proof. induction n as [|n IH]; [reflexivity|]. change (replicate (S n) Byte.x00) with ([Byte.x00] ++ replicate n Byte.x00). rewrite from_le_app, IH. reflexivity. Qed.

(** ** Lemmas on orders *)

Section ordered_lemmas.
Context {A : Type} `{Ordered A}.

Lemma cmp_refl (x : A) : cmp x x = Eq.
Proof. now apply cmp_eq. Qed.

Lemma olt_irrefl (x : A) : ~ olt x x.
Proof. unfold olt. rewrite cmp_refl. discriminate. Qed.

Lemma cmp_gt_lt (x y : A) : cmp x y = Gt <-> cmp y x = Lt.
Proof. rewrite (cmp_flip x y). destruct (cmp x y); simpl; split; congruence. Qed.

Lemma olt_total (x y : A) : olt x y \/ x = y \/ olt y x.
Proof.
  unfold olt. destruct (cmp x y) eqn:E; auto.
  - right; left. now apply cmp_eq.
  - right; right. now apply cmp_gt_lt.
Qed.

Lemma ole_lt_eq (x y : A) : ole x y <-> olt x y \/ x = y.
Proof.
  unfold ole, olt. destruct (cmp x y) eqn:E; split; try tauto; try congruence.
  - right. now apply cmp_eq.
  - intros [?| ->]; [congruence | now rewrite cmp_refl in E].
Qed.

Lemma ole_refl (x : A) : ole x x.
Proof. apply ole_lt_eq. now right. Qed.

Lemma ole_trans (x y z : A) : ole x y -> ole y z -> ole x z.
Proof.
  rewrite !ole_lt_eq. intros [?| ->] [?| ->]; auto. left. eapply cmp_lt_trans; eauto.
Qed.

Lemma ole_lt_trans (x y z : A) : ole x y -> olt y z -> olt x z.
Proof. rewrite !ole_lt_eq. intros [?| ->] ?; auto. eapply cmp_lt_trans; eauto. Qed.

Lemma olt_le_trans (x y z : A) : olt x y -> ole y z -> olt x z.
Proof. rewrite !ole_lt_eq. intros ? [?| <-]; auto. eapply cmp_lt_trans; eauto. Qed.

Lemma olt_not_le (x y : A) : olt x y <-> ~ ole y x.
Proof.
  unfold olt, ole. rewrite <- (cmp_gt_lt y x).
  destruct (cmp y x); split; try congruence; intros []; congruence.
Qed.

Lemma oltb_spec (x y : A) : oltb x y = true <-> olt x y.
Proof. unfold oltb, olt. destruct (cmp x y); split; congruence. Qed.

Lemma oleb_spec (x y : A) : oleb x y = true <-> ole x y.
Proof. unfold oleb, ole. destruct (cmp x y); split; congruence. Qed.

Lemma oeqb_spec (x y : A) : oeqb x y = true <-> x = y.
Proof. rewrite <- cmp_eq. unfold oeqb. destruct (cmp x y); split; congruence. Qed.

Lemma oltb_false (x y : A) : oltb x y = false <-> ole y x.
Proof. rewrite <- not_true_iff_false, oltb_spec, olt_not_le. split; [|tauto]. unfold ole. destruct (cmp y x); congruence || tauto. Qed.

Lemma oleb_false (x y : A) : oleb x y = false <-> olt y x.
Proof. now rewrite <- not_true_iff_false, oleb_spec, olt_not_le. Qed.

Lemma olt_le (x y : A) : olt x y -> ole x y.
Proof. rewrite ole_lt_eq. now left. Qed.

Lemma ole_antisym (x y : A) : ole x y -> ole y x -> x = y.
Proof. rewrite ole_lt_eq. intros [G|G] Hy; [|easy]. now apply olt_not_le in G. Qed.

Lemma ole_total (x y : A) : ole x y \/ ole y x.
Proof. destruct (oleb x y) eqn:E; [left; now apply oleb_spec|right; apply olt_le; now apply oleb_false]. Qed.

End ordered_lemmas.

#[export] Hint Resolve ole_refl cmp_refl : pintail.

(** A type with a total order has decidable equality. *)
Definition ordered_eq_dec {A} `{Ordered A} : EqDecision A.
Proof.
  intros x y. destruct (cmp x y) eqn:E.
  - left. now apply cmp_eq.
  - right. intros ->. now rewrite cmp_refl in E.
  - right. intros ->. now rewrite cmp_refl in E.
Defined.

#[export] Instance Z_ordered : Ordered Z.
Proof.
  refine {| cmp := Z.compare |}.
  - apply Z.compare_eq_iff.
  - intros. apply Z.compare_antisym.
  - intros x y z. rewrite !Z.compare_lt_iff. lia.
Defined.

Definition byte_cmp (a b : byte) : comparison := Z.compare (byte.unsigned a) (byte.unsigned b).

#[export] Instance byte_ordered : Ordered byte.
Proof.
  refine {| cmp := byte_cmp |}; unfold byte_cmp.
  - intros x y. rewrite Z.compare_eq_iff. split; [apply byte.unsigned_inj | congruence].
  - intros. apply Z.compare_antisym.
  - intros x y z. rewrite !Z.compare_lt_iff. lia.
Defined.

Lemma list_cmp_eq {A} `{Ordered A} (xs ys : list A) : list_cmp cmp xs ys = Eq <-> xs = ys.
Proof.
  revert ys; induction xs as [|x xs IH]; intros [|y ys]; simpl; try easy.
  destruct (cmp x y) eqn:E.
  - apply cmp_eq in E as ->. rewrite IH. split; congruence.
  - split; [discriminate|]. intros [= -> ->]. now rewrite cmp_refl in E.
  - split; [discriminate|]. intros [= -> ->]. now rewrite cmp_refl in E.
Qed.

Lemma list_cmp_flip {A} `{Ordered A} (xs ys : list A) :
  list_cmp cmp ys xs = CompOpp (list_cmp cmp xs ys).
Proof.
  revert ys; induction xs as [|x xs IH]; intros [|y ys]; simpl; try easy.
  rewrite (cmp_flip x y). destruct (cmp x y); simpl; auto.
Qed.

Lemma list_cmp_lt_trans {A} `{Ordered A} (xs ys zs : list A) :
  list_cmp cmp xs ys = Lt -> list_cmp cmp ys zs = Lt -> list_cmp cmp xs zs = Lt.
Proof.
  revert ys zs; induction xs as [|x xs IH]; intros [|y ys] [|z zs]; simpl; try easy.
  destruct (cmp x y) eqn:E1, (cmp y z) eqn:E2; try discriminate; intros H1 H2.
  - apply cmp_eq in E1 as ->, E2 as ->. rewrite cmp_refl. eauto.
  - apply cmp_eq in E1 as ->. now rewrite E2.
  - apply cmp_eq in E2 as ->. now rewrite E1.
  - now rewrite (cmp_lt_trans x y z).
Qed.

#[export] Instance list_ordered {A} `{Ordered A} : Ordered (list A) := {|
  cmp := list_cmp cmp;
  cmp_eq := list_cmp_eq;
  cmp_flip := list_cmp_flip;
  cmp_lt_trans := list_cmp_lt_trans
|}.

(** An injective map into an ordered type transports the order. *)
Definition ordered_by {A B} `{Ordered B} (c : A -> A -> comparison) (f : A -> B)
    (finj : forall x y, f x = f y -> x = y)
    (fcmp : forall x y, c x y = cmp (f x) (f y)) : Ordered A.
Proof.
  refine {| cmp := c |}.
  - intros x y. rewrite fcmp, cmp_eq. split; [apply finj | congruence].
  - intros x y. rewrite !fcmp. apply cmp_flip.
  - intros x y z. rewrite !fcmp. apply cmp_lt_trans.
Defined.

(** ** Lemmas on ordered maps *)

Section ordered_map_lemmas.
Context {K V : Type} `{Ordered K}.
Implicit Types (m : list (K * V)) (k : K) (v : V).

Lemma omap_get_insert_eq k v m : omap_get k (omap_insert k v m) = Some v.
Proof.
  induction m as [|[k' v'] m IH]; simpl; [now rewrite cmp_refl|].
  destruct (cmp k k') eqn:E; simpl; rewrite ?cmp_refl, ?E; auto.
Qed.

Lemma omap_get_insert_ne k k' v m :
  k <> k' -> omap_get k' (omap_insert k v m) = omap_get k' m.
Proof.
  intros Hne. assert (forall a b : K, a <> b -> cmp a b <> Eq) as Hn
    by (intros a b ? ?%cmp_eq; congruence).
  induction m as [|[k0 v0] m IH]; simpl.
  - specialize (Hn k' k). destruct (cmp k' k); try easy. now destruct Hn.
  - destruct (cmp k k0) eqn:E; simpl.
    + apply cmp_eq in E as ->. specialize (Hn k' k0). destruct (cmp k' k0); try easy.
      now destruct Hn.
    + specialize (Hn k' k). destruct (cmp k' k); try easy. now destruct Hn.
    + destruct (cmp k' k0); auto.
Qed.

Lemma omap_get_insert k k' v m :
  omap_get k' (omap_insert k v m) =
    match cmp k' k with Eq => Some v | _ => omap_get k' m end.
Proof.
  destruct (cmp k' k) eqn:E.
  - apply cmp_eq in E as ->. apply omap_get_insert_eq.
  - apply omap_get_insert_ne. intros ->. now rewrite cmp_refl in E.
  - apply omap_get_insert_ne. intros ->. now rewrite cmp_refl in E.
Qed.

Lemma omap_get_In k v m : omap_get k m = Some v -> In (k, v) m.
Proof.
  induction m as [|[k' v'] m IH]; simpl; [discriminate|].
  destruct (cmp k k') eqn:E; auto. intros [= ->]. apply cmp_eq in E as ->. auto.
Qed.

Lemma omap_insert_In k v m kv :
  In kv (omap_insert k v m) -> kv = (k, v) \/ In kv m.
Proof.
  induction m as [|[k' v'] m IH]; simpl; [intuition|].
  destruct (cmp k k'); simpl; intuition.
Qed.

Lemma omap_insert_sorted k v m : omap_sorted m -> omap_sorted (omap_insert k v m).
Proof.
  unfold omap_sorted. induction m as [|[k' v'] m IH]; simpl; intros Hs.
  - repeat constructor.
  - inv Hs. destruct (cmp k k') eqn:E; simpl.
    + apply cmp_eq in E as ->. now constructor.
    + constructor; [now constructor|]. constructor; [exact E|].
      eapply Forall_impl; [eassumption|]. intros. eapply cmp_lt_trans; eauto.
    + constructor; auto. apply Forall_forall. intros x [[a b] [<- Hin]]%list_elem_of_In%in_map_iff.
      apply omap_insert_In in Hin as [[= -> ->]|Hin].
      * now apply cmp_gt_lt.
      * eapply List.Forall_forall; [eassumption|]. apply in_map_iff. now exists (a, b).
Qed.

Lemma omap_sorted_lt_get k m :
  Forall (olt k) (map fst m) -> omap_get k m = None.
Proof.
  induction m as [|[k' v'] m IH]; simpl; [easy|]. intros Hf. inv Hf.
  unfold olt in *. rewrite H2. auto.
Qed.

Lemma omap_In_get k v m : omap_sorted m -> In (k, v) m -> omap_get k m = Some v.
Proof.
  unfold omap_sorted. induction m as [|[k' v'] m IH]; simpl; [easy|].
  intros Hs Hin. inv Hs. destruct Hin as [[= -> ->]|Hin].
  - now rewrite cmp_refl.
  - assert (olt k' k) as Hlt.
    { eapply List.Forall_forall; [eassumption|]. apply in_map_iff. now exists (k, v). }
    apply cmp_gt_lt in Hlt. rewrite Hlt. auto.
Qed.

(** Sorted maps that agree on every key are the same list. *)
Lemma omap_ext m1 m2 :
  omap_sorted m1 -> omap_sorted m2 ->
  (forall k, omap_get k m1 = omap_get k m2) -> m1 = m2.
Proof.
  unfold omap_sorted. revert m2. induction m1 as [|[k1 v1] m1 IH]; intros [|[k2 v2] m2] H1 H2 Hg.
  - reflexivity.
  - specialize (Hg k2). simpl in Hg. now rewrite cmp_refl in Hg.
  - specialize (Hg k1). simpl in Hg. now rewrite cmp_refl in Hg.
  - simpl in H1, H2. inv H1; inv H2.
    assert (k1 = k2) as <-.
    { pose proof (Hg k1) as G1. pose proof (Hg k2) as G2. simpl in G1, G2.
      rewrite cmp_refl in G1, G2. destruct (cmp k1 k2) eqn:E.
      - now apply cmp_eq.
      - rewrite omap_sorted_lt_get in G1; [discriminate|].
        eapply Forall_impl; [eassumption|]. intros. eapply cmp_lt_trans; eauto.
      - apply cmp_gt_lt in E. rewrite E, omap_sorted_lt_get in G2; [discriminate|].
        eapply Forall_impl; [eassumption|]. intros. eapply cmp_lt_trans; eauto. }
    pose proof (Hg k1) as G. simpl in G. rewrite cmp_refl in G. injection G as ->.
    f_equal. apply IH; auto. intros k. specialize (Hg k). simpl in Hg.
    destruct (cmp k k1) eqn:E; auto. apply cmp_eq in E as ->.
    now rewrite !omap_sorted_lt_get.
Qed.

End ordered_map_lemmas.

#[export] Hint Resolve omap_insert_sorted : pintail.
