(* ===== verification/Types.v ===== *)
(** * The shared data model ([src/crates/pintail-types])

    [DataType], [Value], [KeyPart], [PrimaryKey], [StoredRow], [Column] and
    [TableSchema] as the crate declares them, with their validation.  A Rust
    [String] is its UTF-8 bytes; [utf8_valid] is the check [String] carries.
    Integers are [Z]; the [*_wf] predicates state the ranges the Rust types
    enforce. *)

From Stdlib Require Import ZArith Lia.
From stdpp Require Import prelude list.
From coqutil Require Import Byte.
From S2P Require Import Prelude.

#[local] Open Scope Z_scope.

(** ** Strings *)

Abbreviation str := (list byte).

Definition byte_in (lo hi : Z) (b : byte) : bool :=
  (lo <=? byte.unsigned b) && (byte.unsigned b <=? hi).

(** A UTF-8 continuation byte. *)
Definition utf8_cont (b : byte) : bool := byte_in 128 191 b.

(** The acceptance condition of [String::from_utf8]: no overlong forms, no
    surrogates, nothing above U+10FFFF. *)
Fixpoint utf8_valid (bs : list byte) : bool :=
  match bs with
  | [] => true
  | b0 :: r =>
      if byte_in 0 127 b0 then utf8_valid r
      else if byte_in 194 223 b0 then
        match r with b1 :: r => utf8_cont b1 && utf8_valid r | _ => false end
      else if byte_in 224 239 b0 then
        match r with
        | b1 :: b2 :: r =>
            (if byte_in 224 224 b0 then byte_in 160 191 b1
             else if byte_in 237 237 b0 then byte_in 128 159 b1
             else utf8_cont b1) && utf8_cont b2 && utf8_valid r
        | _ => false
        end
      else if byte_in 240 244 b0 then
        match r with
        | b1 :: b2 :: b3 :: r =>
            (if byte_in 240 240 b0 then byte_in 144 191 b1
             else if byte_in 244 244 b0 then byte_in 128 143 b1
             else utf8_cont b1) && utf8_cont b2 && utf8_cont b3 && utf8_valid r
        | _ => false
        end
      else false
  end.

(** ** Logical types *)

Inductive DataType : Type :=
| DBoolean
| DInt8 | DInt16 | DInt32 | DInt64
| DUInt8 | DUInt16 | DUInt32 | DUInt64
| DFloat32 | DFloat64
| DDecimal (precision scale : Z)
| DDate32
| DDateTime64 (fsp : Z)
| DTime64 (fsp : Z)
| DYear
| DUtf8
| DBinary
| DJson.

#[export] Instance DataType_eq_dec : EqDecision DataType.
Proof. solve_decision. Defined.

Definition storage_type (t : DataType) : DataType :=
  match t with
  | DBoolean => DBoolean
  | DInt8 | DInt16 | DInt32 | DInt64 => DInt64
  | DUInt8 | DUInt16 | DUInt32 | DUInt64 | DYear => DUInt64
  | DFloat32 | DFloat64 => DFloat64
  | DDecimal _ _ | DDate32 | DDateTime64 _ | DTime64 _ | DUtf8 | DJson => DUtf8
  | DBinary => DBinary
  end.

Definition is_valid (t : DataType) : bool :=
  match t with
  | DDecimal precision scale =>
      (0 <? precision) && (precision <=? 65) && (scale <=? 30) && (scale <=? precision)
  | DDateTime64 fsp | DTime64 fsp => fsp <=? 6
  | _ => true
  end.

Definition accepts (t physical : DataType) : bool := bool_decide (storage_type t = physical).

(** The [u8] parameters a [DataType] holds. *)
Definition DataType_wf (t : DataType) : bool :=
  match t with
  | DDecimal precision scale => is_u8 precision && is_u8 scale
  | DDateTime64 fsp | DTime64 fsp => is_u8 fsp
  | _ => true
  end.

(** ** Values *)

Record DecimalQuotient : Type := {
  dq_label : str;
  dq_units : Z;
  dq_count : Z;
  dq_scale : Z
}.

Inductive Value : Type :=
| VNull
| VBoolean (b : bool)
| VInt64 (i : Z)
| VUInt64 (u : Z)
| VFloat64 (bits : Z)
| VUtf8 (s : str)
| VBinary (bs : list byte)
| VDecimalAverage (q : DecimalQuotient)
| VEnum (index : Z) (label : str).

Definition data_type (v : Value) : option DataType :=
  match v with
  | VNull => None
  | VBoolean _ => Some DBoolean
  | VInt64 _ => Some DInt64
  | VUInt64 _ => Some DUInt64
  | VFloat64 _ => Some DFloat64
  | VUtf8 _ | VEnum _ _ | VDecimalAverage _ => Some DUtf8
  | VBinary _ => Some DBinary
  end.

Definition text (v : Value) : option str :=
  match v with
  | VUtf8 s => Some s
  | VEnum _ label => Some label
  | VDecimalAverage q => Some (dq_label q)
  | _ => None
  end.

Definition enum_index (v : Value) : option Z :=
  match v with VEnum index _ => Some index | _ => None end.

(** [ValueKey]: what equality, hashing and ordering of values read. *)
Inductive ValueKey : Type :=
| KNull
| KBoolean (b : bool)
| KInt64 (i : Z)
| KUInt64 (u : Z)
| KFloat64 (bits : Z)
| KUtf8 (s : str)
| KBinary (bs : list byte)
| KEnum (index : Z) (label : str).

Definition value_key (v : Value) : ValueKey :=
  match v with
  | VNull => KNull
  | VBoolean b => KBoolean b
  | VInt64 i => KInt64 i
  | VUInt64 u => KUInt64 u
  | VFloat64 bits => KFloat64 bits
  | VUtf8 s => KUtf8 s
  | VDecimalAverage q => KUtf8 (dq_label q)
  | VBinary bs => KBinary bs
  | VEnum index label => KEnum index label
  end.

(** The integer [f64::total_cmp] compares: the bits as [i64], the magnitude
    bits of a negative number flipped. *)
Definition total_order_key (bits : Z) : Z :=
  let left := signed 64 bits in
  Z.lxor left (Z.shiftr (Z.shiftr left 63 mod 2 ^ 64) 1).

Definition total_cmp (a b : Z) : comparison :=
  Z.compare (total_order_key a) (total_order_key b).

(** The position of a [ValueKey] variant, which the derived order compares first. *)
Definition key_variant (k : ValueKey) : Z :=
  match k with
  | KNull => 0 | KBoolean _ => 1 | KInt64 _ => 2 | KUInt64 _ => 3
  | KFloat64 _ => 4 | KUtf8 _ => 5 | KBinary _ => 6 | KEnum _ _ => 7
  end.

Definition key_cmp (a b : ValueKey) : comparison :=
  match a, b with
  | KBoolean x, KBoolean y => Z.compare (Z.b2z x) (Z.b2z y)
  | KInt64 x, KInt64 y => Z.compare x y
  | KUInt64 x, KUInt64 y => Z.compare x y
  | KFloat64 x, KFloat64 y => total_cmp x y
  | KUtf8 x, KUtf8 y => cmp x y
  | KBinary x, KBinary y => cmp x y
  | KEnum i x, KEnum j y => match Z.compare i j with Eq => cmp x y | r => r end
  | _, _ => Z.compare (key_variant a) (key_variant b)
  end.

Definition value_cmp (a b : Value) : comparison := key_cmp (value_key a) (value_key b).

(** [PartialEq for Value]: equality of the keys. *)
#[export] Instance ValueKey_eq_dec : EqDecision ValueKey.
Proof.
  pose proof (@ordered_eq_dec byte _). pose proof (@ordered_eq_dec (list byte) _).
  solve_decision.
Defined.

Definition value_eqb (a b : Value) : bool := bool_decide (value_key a = value_key b).

(** The ranges a [Value] carries by its type. *)
Definition value_wf (v : Value) : bool :=
  match v with
  | VInt64 i => is_i64 i
  | VUInt64 u => is_u64 u
  | VFloat64 bits => is_u64 bits
  | VUtf8 s => utf8_valid s
  | VDecimalAverage q => utf8_valid (dq_label q) && is_i128 (dq_units q)
      && is_u64 (dq_count q) && is_u8 (dq_scale q)
  | VEnum index label => is_u64 index && utf8_valid label
  | _ => true
  end.

(** ** Keys and rows *)

Inductive KeyPart : Type :=
| PInt64 (i : Z)
| PUInt64 (u : Z)
| PUtf8 (s : str)
| PBinary (bs : list byte).

(** The derived order: variant first, then the payload. *)
Definition key_part_cmp (a b : KeyPart) : comparison :=
  match a, b with
  | PInt64 x, PInt64 y => Z.compare x y
  | PUInt64 x, PUInt64 y => Z.compare x y
  | PUtf8 x, PUtf8 y => cmp x y
  | PBinary x, PBinary y => cmp x y
  | PInt64 _, _ => Lt
  | _, PInt64 _ => Gt
  | PUInt64 _, _ => Lt
  | _, PUInt64 _ => Gt
  | PUtf8 _, _ => Lt
  | _, PUtf8 _ => Gt
  end.

(** A composite key: its parts, compared lexicographically. *)
Definition PrimaryKey : Type := list KeyPart.

Definition key_part_wf (p : KeyPart) : bool :=
  match p with
  | PInt64 i => is_i64 i
  | PUInt64 u => is_u64 u
  | PUtf8 s => utf8_valid s
  | PBinary _ => true
  end.

(** What [PrimaryKey::new] lets through. *)
Definition primary_key_wf (k : PrimaryKey) : bool :=
  negb (bool_decide (k = [])) && forallb key_part_wf k.

Record StoredRow : Type := {
  row_key : PrimaryKey;
  row_values : list Value;
  row_version : Z;
  row_deleted : bool
}.

Definition stored_row_wf (r : StoredRow) : bool :=
  primary_key_wf (row_key r) && forallb value_wf (row_values r) && is_u64 (row_version r).

(** ** Columns and schemas *)

Inductive KeyMode : Type := KMPrimary | KMUnique | KMAppendRowId.

#[export] Instance KeyMode_eq_dec : EqDecision KeyMode.
Proof. solve_decision. Defined.

Record Column : Type := {
  col_id : Z;
  col_name : str;
  col_data_type : DataType;
  col_nullable : bool;
  col_collation : option str;
  col_enum_labels : option (list str);
  col_set_members : option (list str);
  col_geometry : bool;
  col_timestamp : bool;
  col_binary_width : option Z;
  col_bit_width : option Z;
  col_float_decimals : option Z;
  col_absent_fill : option Value
}.

Record TableSchema : Type := {
  schema_version : Z;
  schema_columns : list Column;
  schema_key_mode : KeyMode
}.

Inductive SchemaError : Type :=
| EmptySchema
| EmptyPrimaryKey
| EmptyColumnName
| DuplicateColumnId (id : Z)
| ReservedColumnId (id : Z)
| DuplicateColumnName (name : str)
| InvalidDataType (column : str) (data_type : DataType)
| WrongArity (expected actual : Z)
| NullInRequiredColumn (column : str)
| WrongType (column : str) (expected actual : DataType).

(** [PrimaryKey::new]. *)
Definition primary_key_new (parts : list KeyPart) : result SchemaError PrimaryKey :=
  match parts with [] => Err EmptyPrimaryKey | _ => Ok parts end.

Definition column_new (id : Z) (name : str) (t : DataType) (nullable : bool) : Column := {|
  col_id := id; col_name := name; col_data_type := t; col_nullable := nullable;
  col_collation := None; col_enum_labels := None; col_set_members := None;
  col_geometry := false; col_timestamp := false; col_binary_width := None;
  col_bit_width := None; col_float_decimals := None; col_absent_fill := None
|}.

(** [with_absent_fill]: a NULL fill is no fill. *)
Definition with_absent_fill (c : Column) (fill : option Value) : Column := {|
  col_id := col_id c; col_name := col_name c; col_data_type := col_data_type c;
  col_nullable := col_nullable c; col_collation := col_collation c;
  col_enum_labels := col_enum_labels c; col_set_members := col_set_members c;
  col_geometry := col_geometry c; col_timestamp := col_timestamp c;
  col_binary_width := col_binary_width c; col_bit_width := col_bit_width c;
  col_float_decimals := col_float_decimals c;
  col_absent_fill := match fill with Some VNull => None | _ => fill end
|}.

Definition readable_when_absent (c : Column) : bool :=
  col_nullable c || match col_absent_fill c with Some _ => true | None => false end.

(** [HashSet::insert] as a membership test over what was inserted before. *)
Definition seen {A} `{Ordered A} (x : A) (l : list A) : bool := existsb (oeqb x) l.

(** The loop of [TableSchema::with_key_mode], with the two hash sets. *)
Fixpoint check_columns (ids : list Z) (names : list str) (columns : list Column)
    : result SchemaError unit :=
  match columns with
  | [] => Ok tt
  | c :: columns =>
      if negb (is_valid (col_data_type c)) then
        Err (InvalidDataType (col_name c) (col_data_type c))
      else if bool_decide (col_name c = []) then Err EmptyColumnName
      else if seen (col_id c) ids then Err (DuplicateColumnId (col_id c))
      else if u32_max - 2 <=? col_id c then Err (ReservedColumnId (col_id c))
      else if seen (col_name c) names then Err (DuplicateColumnName (col_name c))
      else check_columns (col_id c :: ids) (col_name c :: names) columns
  end.

Definition with_key_mode (version : Z) (columns : list Column) (key_mode : KeyMode)
    : result SchemaError TableSchema :=
  match columns with
  | [] => Err EmptySchema
  | _ =>
      _ ← check_columns [] [] columns;
      Ok {| schema_version := version; schema_columns := columns; schema_key_mode := key_mode |}
  end.

Definition table_schema_new (version : Z) (columns : list Column) : result SchemaError TableSchema :=
  with_key_mode version columns KMPrimary.

(** One step of the loop of [validate_row]. *)
Definition check_value (c : Column) (v : Value) : result SchemaError unit :=
  match data_type v with
  | None => if negb (col_nullable c) then Err (NullInRequiredColumn (col_name c)) else Ok tt
  | Some actual =>
      if negb (accepts (col_data_type c) actual)
      then Err (WrongType (col_name c) (col_data_type c) actual) else Ok tt
  end.

Definition validate_row (schema : TableSchema) (row : StoredRow) : result SchemaError unit :=
  if negb (len (row_values row) =? len (schema_columns schema)) then
    Err (WrongArity (len (schema_columns schema)) (len (row_values row)))
  else
    fold_result (fun _ cv => check_value cv.1 cv.2) tt
      (zip (schema_columns schema) (row_values row)).

(** ** Retained sizes *)

(** [size_of] of the Rust types the estimates count, which the compiler chooses. *)
Class Layout : Type := {
  size_of_StoredRow : Z;
  size_of_Value : Z;
  size_of_DecimalQuotient : Z;
  size_of_StoredRow_pos : 0 < size_of_StoredRow;
  size_of_Value_pos : 0 < size_of_Value;
  size_of_DecimalQuotient_pos : 0 < size_of_DecimalQuotient
}.

Definition key_part_heap_bytes (p : KeyPart) : Z :=
  match p with PUtf8 s => len s | PBinary bs => len bs | _ => 0 end.

Definition primary_key_heap_bytes (k : PrimaryKey) : Z :=
  foldr Z.add 0 (map key_part_heap_bytes k).

Definition value_heap_bytes `{Layout} (v : Value) : Z :=
  match v with
  | VUtf8 s => len s
  | VEnum _ label => len label
  | VDecimalAverage q => len (dq_label q) + size_of_DecimalQuotient
  | VBinary bs => len bs
  | _ => 0
  end.

Definition estimated_bytes `{Layout} (r : StoredRow) : Z :=
  size_of_StoredRow + primary_key_heap_bytes (row_key r)
    + foldr Z.add 0 (map value_heap_bytes (row_values r))
    + len (row_values r) * size_of_Value.

(** ** Lemmas *)

Definition key_part_code (p : KeyPart) : list (list Z) :=
  match p with
  | PInt64 x => [[0]; [x]]
  | PUInt64 x => [[1]; [x]]
  | PUtf8 s => [[2]; map byte.unsigned s]
  | PBinary s => [[3]; map byte.unsigned s]
  end.

Lemma map_unsigned_inj (x y : list byte) : map byte.unsigned x = map byte.unsigned y -> x = y.
Proof.
  revert y; induction x as [|a x IH]; intros [|b y]; simpl; try easy.
  intros [= ?%byte.unsigned_inj ?]. f_equal; auto.
Qed.

Lemma list_cmp_bytes (x y : list byte) :
  list_cmp byte_cmp x y = list_cmp Z.compare (map byte.unsigned x) (map byte.unsigned y).
Proof.
  revert y; induction x as [|a x IH]; intros [|b y]; simpl; auto.
  unfold byte_cmp. now rewrite IH.
Qed.

#[export] Instance KeyPart_ordered : Ordered KeyPart.
Proof.
  refine (ordered_by key_part_cmp key_part_code _ _).
  - intros [] []; simpl; intros E; inv E; try reflexivity; f_equal; now apply map_unsigned_inj.
  - intros [] []; simpl; try reflexivity; try (destruct (_ ?= _); reflexivity);
      rewrite list_cmp_bytes; destruct (list_cmp _ _ _); reflexivity.
Defined.

#[export] Instance PrimaryKey_ordered : Ordered PrimaryKey := list_ordered.

#[export] Instance KeyPart_eq_dec : EqDecision KeyPart := ordered_eq_dec.
#[export] Instance PrimaryKey_eq_dec : EqDecision PrimaryKey := ordered_eq_dec.
#[export] Instance byte_eq_dec' : EqDecision byte := ordered_eq_dec.

Lemma storage_type_idemp t : storage_type (storage_type t) = storage_type t.
Proof. now destruct t. Qed.

Lemma data_type_storage v t : data_type v = Some t -> storage_type t = t.
Proof. destruct v; simpl; intros [= <-]; reflexivity. Qed.

Lemma seen_In {A} `{Ordered A} (x : A) l : seen x l = true <-> In x l.
Proof.
  unfold seen. rewrite existsb_exists. split.
  - intros (y & Hy & ->%oeqb_spec). exact Hy.
  - intros. exists x. split; [easy|]. now apply oeqb_spec.
Qed.

(** A column list a schema may carry. *)
Definition column_ok (c : Column) : Prop :=
  is_valid (col_data_type c) = true /\ col_name c <> [] /\ col_id c < u32_max - 2.

Lemma fresh_columns_cons id name ids names columns :
  Forall (fun c => ~ In (col_id c) (id :: ids) /\ ~ In (col_name c) (name :: names)) columns <->
    (id ∉ map col_id columns) /\ (name ∉ map col_name columns) /\
    Forall (fun c => ~ In (col_id c) ids /\ ~ In (col_name c) names) columns.
Proof.
  induction columns as [|c cs IH]; simpl.
  { split; [|constructor]. intros _. repeat split; [apply not_elem_of_nil..|constructor]. }
  rewrite !Forall_cons, IH, !not_elem_of_cons. clear IH. simpl.
  split; intros H; decompose [and] H; repeat split; auto; intros [?|?]; auto.
Qed.

Lemma check_columns_ok ids names columns :
  check_columns ids names columns = Ok tt <->
    Forall column_ok columns /\
    NoDup (map col_id columns) /\ NoDup (map col_name columns) /\
    Forall (fun c => ~ In (col_id c) ids /\ ~ In (col_name c) names) columns.
Proof.
  revert ids names; induction columns as [|c cs IH]; intros ids names; cbn [check_columns map].
  { split; auto. intros _. repeat split; constructor. }
  rewrite !Forall_cons, !NoDup_cons. unfold column_ok at 1.
  destruct (is_valid (col_data_type c)) eqn:Ev; cbn [negb]; [|intuition congruence].
  destruct (bool_decide (col_name c = [])) eqn:En; [apply bool_decide_eq_true in En
    | apply bool_decide_eq_false in En]; [intuition congruence|].
  destruct (seen (col_id c) ids) eqn:Ei; [apply seen_In in Ei; intuition congruence|].
  destruct (Z.leb_spec (u32_max - 2) (col_id c)); [intuition (try congruence; lia)|].
  destruct (seen (col_name c) names) eqn:Es; [apply seen_In in Es; intuition congruence|].
  assert (~ In (col_id c) ids) by (rewrite <- seen_In; congruence).
  assert (~ In (col_name c) names) by (rewrite <- seen_In; congruence).
  rewrite IH, fresh_columns_cons. clear IH. tauto.
Qed.

Lemma check_columns_total ids names columns :
  check_columns ids names columns <> Ok tt ->
  exists e, check_columns ids names columns = Err e.
Proof. destruct (check_columns ids names columns) as [[]|e]; [easy | eauto]. Qed.

(** A value a column takes. *)
Definition value_fits (c : Column) (v : Value) : Prop :=
  match data_type v with
  | None => col_nullable c = true
  | Some t => storage_type (col_data_type c) = t
  end.

Lemma check_value_ok c v : check_value c v = Ok tt <-> value_fits c v.
Proof.
  unfold check_value, value_fits, accepts.
  destruct (data_type v) as [t|].
  - destruct (bool_decide_reflect (storage_type (col_data_type c) = t)); simpl; split; congruence.
  - destruct (col_nullable c); simpl; split; congruence.
Qed.

Lemma check_values_ok cs vs :
  length cs = length vs ->
  fold_result (fun _ cv => check_value cv.1 cv.2) tt (zip cs vs) = Ok tt <->
    Forall2 value_fits cs vs.
Proof.
  revert vs; induction cs as [|c cs IH]; intros [|v vs]; simpl; try discriminate.
  - split; auto. 
  - intros [= E]. rewrite Forall2_cons, <- check_value_ok. unfold mbind, result_bind.
    destruct (check_value c v) as [[]|e]; [rewrite IH by easy; tauto|].
    split; [discriminate | intros [? _]; discriminate].
Qed.

Lemma total_order_key_eq bits :
  is_u64 bits = true ->
  total_order_key bits = if bits <? 2 ^ 63 then bits else 2 ^ 63 - 1 - bits.
Proof.
  intros [Hl Hu]%in_unsigned_spec. unfold total_order_key, signed.
  change (2 ^ (64 - 1)) with (2 ^ 63). destruct (Z.ltb_spec bits (2 ^ 63)).
  - rewrite (Z.shiftr_div_pow2 bits) by lia. rewrite Z.div_small by lia.
    change (Z.shiftr (0 mod 2 ^ 64) 1) with 0. apply Z.lxor_0_r.
  - set (m := bits - 2 ^ 63).
    assert (Hs : Z.shiftr (bits - 2 ^ 64) 63 = -1).
    { rewrite Z.shiftr_div_pow2 by lia. symmetry. apply (Z.div_unique _ _ _ m); lia. }
    rewrite Hs. change (Z.shiftr (-1 mod 2 ^ 64) 1) with (Z.ones 63).
    replace (2 ^ 63 - 1 - bits) with (Z.lnot m) by (unfold Z.lnot; lia).
    assert (Hm : m = (bits - 2 ^ 64) mod 2 ^ 63) by (apply (Z.mod_unique _ _ (-1)); lia).
    apply Z.bits_inj'. intros i Hi. rewrite Z.lxor_spec, Z.lnot_spec, Hm by lia.
    destruct (Z.lt_ge_cases i 63).
    + rewrite Z.mod_pow2_bits_low, Z.ones_spec_low by lia. now destruct (Z.testbit _ _).
    + rewrite Z.mod_pow2_bits_high, Z.ones_spec_high, xorb_false_r by lia.
      replace i with ((i - 63) + 63) by lia. rewrite <- Z.shiftr_spec, Hs by lia.
      apply Z.bits_m1. lia.
Qed.

Lemma total_order_key_inj a b :
  is_u64 a = true -> is_u64 b = true -> total_order_key a = total_order_key b -> a = b.
Proof.
  intros Ha Hb. rewrite !total_order_key_eq by easy.
  apply in_unsigned_spec in Ha, Hb. zcases; lia.
Qed.

(** An injective rendering of a key as numbers, in the order of [key_cmp]. *)
Definition key_code (k : ValueKey) : list (list Z) :=
  match k with
  | KNull => [[0]]
  | KBoolean b => [[1]; [Z.b2z b]]
  | KInt64 i => [[2]; [i]]
  | KUInt64 u => [[3]; [u]]
  | KFloat64 bits => [[4]; [total_order_key bits]]
  | KUtf8 s => [[5]; map byte.unsigned s]
  | KBinary s => [[6]; map byte.unsigned s]
  | KEnum i s => [[7]; [i]; map byte.unsigned s]
  end.

Lemma key_cmp_code a b : key_cmp a b = cmp (key_code a) (key_code b).
Proof.
  destruct a, b; simpl; try reflexivity; unfold total_cmp;
    try (destruct (_ ?= _); reflexivity);
    rewrite ?list_cmp_bytes; try (destruct (list_cmp _ _ _); reflexivity).
  destruct (_ ?= _); try reflexivity; destruct (list_cmp _ _ _); reflexivity.
Qed.

Lemma key_code_inj a b :
  value_wf a = true -> value_wf b = true ->
  key_code (value_key a) = key_code (value_key b) -> value_key a = value_key b.
Proof.
  destruct a, b; simpl; intros Ha Hb E; inv E; try reflexivity; f_equal;
    try (now apply map_unsigned_inj); try (now apply total_order_key_inj).
  destruct b, b0; simpl in *; congruence.
Qed.

(** ** Properties *)

(** [TableSchema::with_key_mode] accepts exactly the non-empty column
    lists whose types are valid, whose names are non-empty and distinct and whose
    identifiers are distinct and outside the reserved range; it keeps its arguments. *)
Theorem with_key_mode_spec version columns mode schema :
  with_key_mode version columns mode = Ok schema <->
    schema = {| schema_version := version; schema_columns := columns; schema_key_mode := mode |} /\
    columns <> [] /\ Forall column_ok columns /\
    NoDup (map col_id columns) /\ NoDup (map col_name columns).
Proof.
  unfold with_key_mode. destruct columns as [|c cs].
  { split; [discriminate | tauto]. }
  pose proof (check_columns_ok [] [] (c :: cs)) as Hc.
  assert (Forall (fun c : Column => ~ In (col_id c) [] /\ ~ In (col_name c) []) (c :: cs)) as Hn
    by (apply Forall_forall; simpl; tauto).
  unfold mbind, result_bind. destruct (check_columns [] [] (c :: cs)) as [[]|e].
  - destruct Hc as [Hc _]. specialize (Hc eq_refl). split.
    + intros [= <-]. intuition discriminate.
    + intros [-> _]. reflexivity.
  - split; [discriminate|]. intros (_ & _ & ?). destruct Hc as [_ Hc]. discriminate Hc. tauto.
Qed.

(** [validate_row] accepts a row exactly when it has one value per
    column and each value is NULL in a nullable column or has the storage type of
    its column. *)
Theorem validate_row_spec schema row :
  validate_row schema row = Ok tt <-> Forall2 value_fits (schema_columns schema) (row_values row).
Proof.
  unfold validate_row. destruct (Z.eqb_spec (len (row_values row)) (len (schema_columns schema))).
  - simpl. apply check_values_ok. unfold len in *. lia.
  - simpl. split; [discriminate|]. intros ?%Forall2_length. unfold len in *. lia.
Qed.

(** The order of scalar values is a total order whose [Equal] is
    scalar equality: reflexivity on equal keys, antisymmetry and transitivity hold
    for the derived comparison, the [total_cmp] of floats included. *)
Theorem value_cmp_total_order a b c :
  value_wf a = true -> value_wf b = true ->
  (value_cmp a b = Eq <-> value_eqb a b = true) /\
  value_cmp b a = CompOpp (value_cmp a b) /\
  (value_cmp a b = Lt -> value_cmp b c = Lt -> value_cmp a c = Lt).
Proof.
  intros Ha Hb. unfold value_cmp, value_eqb. rewrite !key_cmp_code. repeat split.
  - intros E%cmp_eq. apply bool_decide_eq_true. now apply key_code_inj.
  - intros E%bool_decide_eq_true. rewrite E. apply cmp_refl.
  - apply cmp_flip.
  - apply cmp_lt_trans.
Qed.

Lemma value_cmp_total_order_witness :
  let a := VFloat64 (2 ^ 63) in let b := VFloat64 0 in let c := VUtf8 [] in
  (value_cmp a b = Eq <-> value_eqb a b = true) /\
  value_cmp b a = CompOpp (value_cmp a b) /\
  (value_cmp a b = Lt -> value_cmp b c = Lt -> value_cmp a c = Lt).
Proof. apply (value_cmp_total_order (VFloat64 (2 ^ 63)) (VFloat64 0) (VUtf8 [])); reflexivity. Defined.
