(* ===== verification/Codec.v ===== *)
(** * The record codec ([src/crates/pintail-store/src/codec.rs], [error.rs])

    [Encoder] is the byte vector built so far; [Decoder] is the buffer, the read
    position and the base offset.  A decoding step returns its result and the
    decoder it leaves, also on failure, since callers report the position.  The
    interface [Codec] states what an encoding promises to its clients: decoding
    what was encoded gives back the durable form of the value and stops at its
    end, whatever surrounds it. *)

From Stdlib Require Import ZArith Lia String.
From stdpp Require Import prelude list.
From coqutil Require Import Byte Word.LittleEndianList.
From S2P Require Import Prelude.
From S2P Require Import Types.

#[local] Open Scope Z_scope.

(** ** Errors *)

(** A formatted message: its text with the holes, and the numbers in them. *)
Record message : Type := msg { msg_text : string; msg_args : list Z }.
Arguments msg _%_string_scope _%_list_scope.

Inductive StoreError : Type :=
| Io (action : message)
| SSchema (error : SchemaError)
| WriterBusy
| UnknownTable (table_id : Z)
| CorruptWal (offset : Z) (reason : message)
| CorruptSegment (offset : Z) (reason : message)
| CorruptManifest (offset : Z) (reason : message)
| SchemaMismatch (expected_version actual_version : Z)
| SchemaFingerprintMismatch (expected actual : Z)
| IncompatibleSchema (reason : message)
| SequenceOverflow
| FormatLimit (reason : message)
| MemoryLimitExceeded (used requested limit : Z).

(** ** Encoder *)

Definition Encoder : Type := list byte.

Definition encoder_new : Encoder := [].
Definition enc_u8 (e : Encoder) (v : Z) : Encoder := e ++ to_le 1 v.
Definition enc_u32 (e : Encoder) (v : Z) : Encoder := e ++ to_le 4 v.
Definition enc_u64 (e : Encoder) (v : Z) : Encoder := e ++ to_le 8 v.
Definition enc_i64 (e : Encoder) (v : Z) : Encoder := e ++ to_le 8 v.
Definition enc_raw (e : Encoder) (bs : list byte) : Encoder := e ++ bs.

Definition enc_length (e : Encoder) (v : Z) (what : message) : result StoreError Encoder :=
  if v <=? u32_max then Ok (enc_u32 e v) else Err (FormatLimit what).

Definition enc_bytes (e : Encoder) (bs : list byte) (what : message) : result StoreError Encoder :=
  e ← enc_length e (len bs) what; Ok (enc_raw e bs).

(** ** Decoder *)

Record Decoder : Type := {
  dec_bytes : list byte;
  dec_position : Z;
  dec_base_offset : Z
}.

Definition decoder_new (bs : list byte) : Decoder :=
  {| dec_bytes := bs; dec_position := 0; dec_base_offset := 0 |}.

Definition with_base_offset (bs : list byte) (base : Z) : Decoder :=
  {| dec_bytes := bs; dec_position := 0; dec_base_offset := base |}.

(** A decoding step. *)
Definition Dec (A : Type) : Type := Decoder -> result message A * Decoder.

#[export] Instance Dec_ret : MRet Dec := fun A a d => (Ok a, d).
#[export] Instance Dec_bind : MBind Dec := fun A B f m d =>
  match m d with
  | (Ok a, d') => f a d'
  | (Err e, d') => (Err e, d')
  end.

Definition fail {A} (e : message) : Dec A := fun d => (Err e, d).

Definition lift {A} (r : result message A) : Dec A := fun d => (r, d).

Definition dec_u8 : Dec Z := fun d =>
  match get_range (dec_bytes d) (dec_position d) (dec_position d + 1) with
  | Some [b] =>
      (Ok (byte.unsigned b),
       {| dec_bytes := dec_bytes d; dec_position := dec_position d + 1;
          dec_base_offset := dec_base_offset d |})
  | _ => (Err (msg "unexpected end while reading u8" []), d)
  end.

Definition dec_take (length : Z) : Dec (list byte) := fun d =>
  match checked_add 64 (dec_position d) length with
  | None => (Err (msg "length overflow" []), d)
  | Some stop =>
      match get_range (dec_bytes d) (dec_position d) stop with
      | None => (Err (msg "unexpected end while reading {length} bytes" [length]), d)
      | Some bs =>
          (Ok bs,
           {| dec_bytes := dec_bytes d; dec_position := stop;
              dec_base_offset := dec_base_offset d |})
      end
  end.

(** [take_array::<N>]: the slice [take] returns has the length asked for. *)
Definition take_array (n : nat) : Dec (list byte) :=
  bs ← dec_take (Z.of_nat n);
  if len bs =? Z.of_nat n then mret bs else fail (msg "expected {N} bytes" [Z.of_nat n]).

Definition dec_u32 : Dec Z := bs ← take_array 4; mret (from_le bs).
Definition dec_u64 : Dec Z := bs ← take_array 8; mret (from_le bs).
Definition dec_i64 : Dec Z := bs ← take_array 8; mret (signed 64 (from_le bs)).

(** [self.bytes.len() - self.position]. *)
Definition dec_remaining : Dec Z := fun d => (Ok (len (dec_bytes d) - dec_position d), d).

Definition dec_count (minimum_width : Z) : Dec Z :=
  count ← dec_u32;
  remaining ← dec_remaining;
  if remaining / minimum_width <? count
  then fail (msg "collection count exceeds remaining payload" [])
  else mret count.

Definition dec_byte_string : Dec (list byte) := length ← dec_u32; dec_take length.

Definition dec_finish (d : Decoder) : result message unit :=
  if dec_position d =? len (dec_bytes d) then Ok tt
  else Err (msg "{} trailing bytes after record payload" [len (dec_bytes d) - dec_position d]).

(** [position()]: the absolute offset errors report. *)
Definition position (d : Decoder) : Z := sat_add 64 (dec_base_offset d) (dec_position d).

(** [for _ in 0..count { out.push(step?) }]. *)
Fixpoint dec_repeat {A} (n : nat) (step : Dec A) : Dec (list A) :=
  match n with
  | O => mret []
  | S n => a ← step; rest ← dec_repeat n step; mret (a :: rest)
  end.

(** ** Keys, values and rows *)

Definition decode_utf8 (bs : list byte) (what : message) : Dec str :=
  if utf8_valid bs then mret bs else fail what.

Definition encode_key_part (e : Encoder) (p : KeyPart) : result StoreError Encoder :=
  match p with
  | PInt64 v => Ok (enc_i64 (enc_u8 e 0) v)
  | PUInt64 v => Ok (enc_u64 (enc_u8 e 1) v)
  | PUtf8 v => enc_bytes (enc_u8 e 2) v (msg "UTF-8 key exceeds u32::MAX" [])
  | PBinary v => enc_bytes (enc_u8 e 3) v (msg "binary key exceeds u32::MAX" [])
  end.

Definition encode_key (e : Encoder) (key : PrimaryKey) : result StoreError Encoder :=
  e ← enc_length e (len key) (msg "primary-key component count exceeds u32::MAX" []);
  fold_result encode_key_part e key.

Definition decode_key_part : Dec KeyPart :=
  tag ← dec_u8;
  if tag =? 0 then v ← dec_i64; mret (PInt64 v)
  else if tag =? 1 then v ← dec_u64; mret (PUInt64 v)
  else if tag =? 2 then
    bs ← dec_byte_string; v ← decode_utf8 bs (msg "invalid UTF-8 key" []); mret (PUtf8 v)
  else if tag =? 3 then bs ← dec_byte_string; mret (PBinary bs)
  else fail (msg "unknown key type tag {tag}" [tag]).

Definition decode_key : Dec PrimaryKey :=
  key_count ← dec_count 1;
  key ← dec_repeat (Z.to_nat key_count) decode_key_part;
  lift (map_err (fun _ => msg "a primary key cannot be empty" []) (primary_key_new key)).

Definition encode_value (e : Encoder) (v : Value) : result StoreError Encoder :=
  match v with
  | VNull => Ok (enc_u8 e 0)
  | VBoolean b => Ok (enc_u8 (enc_u8 e 1) (Z.b2z b))
  | VInt64 v => Ok (enc_i64 (enc_u8 e 2) v)
  | VUInt64 v => Ok (enc_u64 (enc_u8 e 3) v)
  | VFloat64 bits => Ok (enc_u64 (enc_u8 e 4) bits)
  | VUtf8 v => enc_bytes (enc_u8 e 5) v (msg "UTF-8 value exceeds u32::MAX" [])
  | VBinary v => enc_bytes (enc_u8 e 6) v (msg "binary value exceeds u32::MAX" [])
  | VDecimalAverage q => enc_bytes (enc_u8 e 5) (dq_label q) (msg "UTF-8 value exceeds u32::MAX" [])
  | VEnum _ label => enc_bytes (enc_u8 e 5) label (msg "UTF-8 value exceeds u32::MAX" [])
  end.

Definition decode_value : Dec Value :=
  tag ← dec_u8;
  if tag =? 0 then mret VNull
  else if tag =? 1 then
    b ← dec_u8;
    if b =? 0 then mret (VBoolean false)
    else if b =? 1 then mret (VBoolean true)
    else fail (msg "invalid boolean value {value}" [b])
  else if tag =? 2 then v ← dec_i64; mret (VInt64 v)
  else if tag =? 3 then v ← dec_u64; mret (VUInt64 v)
  else if tag =? 4 then v ← dec_u64; mret (VFloat64 v)
  else if tag =? 5 then
    bs ← dec_byte_string; v ← decode_utf8 bs (msg "invalid UTF-8 value" []); mret (VUtf8 v)
  else if tag =? 6 then bs ← dec_byte_string; mret (VBinary bs)
  else fail (msg "unknown value type tag {tag}" [tag]).

Definition encode_row (e : Encoder) (r : StoredRow) : result StoreError Encoder :=
  e ← encode_key e (row_key r);
  e ← enc_length e (len (row_values r)) (msg "row value count exceeds u32::MAX" []);
  e ← fold_result encode_value e (row_values r);
  Ok (enc_u8 (enc_u64 e (row_version r)) (Z.b2z (row_deleted r))).

Definition decode_row : Dec StoredRow :=
  key ← decode_key;
  value_count ← dec_count 1;
  values ← dec_repeat (Z.to_nat value_count) decode_value;
  version ← dec_u64;
  flag ← dec_u8;
  if flag =? 0 then
    mret {| row_key := key; row_values := values; row_version := version; row_deleted := false |}
  else if flag =? 1 then
    mret {| row_key := key; row_values := values; row_version := version; row_deleted := true |}
  else fail (msg "invalid tombstone flag {value}" [flag]).

(** What a value reads as after a trip through the codec: an ENUM and a decimal
    average keep the label they display. *)
Definition durable_value (v : Value) : Value :=
  match text v with Some s => VUtf8 s | None => v end.

Definition durable_row (r : StoredRow) : StoredRow := {|
  row_key := row_key r; row_values := map durable_value (row_values r);
  row_version := row_version r; row_deleted := row_deleted r
|}.

(** ** Decoding what was encoded *)

(** The decoder in front of [bs], between [pre] and [post]. *)
Definition cursor (pre bs post : list byte) (base : Z) : Decoder :=
  {| dec_bytes := pre ++ bs ++ post; dec_position := len pre; dec_base_offset := base |}.

Definition past (pre bs post : list byte) (base : Z) : Decoder :=
  {| dec_bytes := pre ++ bs ++ post; dec_position := len pre + len bs; dec_base_offset := base |}.

(** [decodes m bs a]: [m] reads [bs] as [a] and stops at its end, whatever
    surrounds it (a Rust slice holds at most [isize::MAX] bytes). *)
Definition decodes {A} (m : Dec A) (bs : list byte) (a : A) : Prop :=
  forall pre post base,
    len (pre ++ bs ++ post) < 2 ^ 63 -> m (cursor pre bs post base) = (Ok a, past pre bs post base).

Lemma cursor_app pre b1 b2 post base : cursor pre (b1 ++ b2) post base = cursor pre b1 (b2 ++ post) base.
Proof. unfold cursor. now rewrite <- app_assoc. Qed.

Lemma past_cursor pre b1 b2 post base :
  past pre b1 (b2 ++ post) base = cursor (pre ++ b1) b2 post base.
Proof. unfold past, cursor. rewrite <- app_assoc, len_app. reflexivity. Qed.

Lemma past_app pre b1 b2 post base :
  past (pre ++ b1) b2 post base = past pre (b1 ++ b2) post base.
Proof.
  unfold past. rewrite !len_app, <- !app_assoc. f_equal. lia.
Qed.

Lemma decodes_ret {A} (a : A) : decodes (mret a) [] a.
Proof. intros pre post base _. unfold mret, Dec_ret, cursor, past. rewrite len_nil, Z.add_0_r. reflexivity. Qed.

Lemma decodes_bind {A B} (m : Dec A) (f : A -> Dec B) b1 b2 a b :
  decodes m b1 a -> decodes (f a) b2 b -> decodes (m ≫= f) (b1 ++ b2) b.
Proof.
  intros H1 H2 pre post base Hl. unfold mbind, Dec_bind.
  rewrite cursor_app, H1, past_cursor, H2, past_app; auto; rewrite <- ?app_assoc in *; auto.
Qed.

(** A last step that reads nothing. *)
Lemma decodes_bind_ret {A B} (m : Dec A) (f : A -> Dec B) bs a b :
  decodes m bs a -> decodes (f a) [] b -> decodes (m ≫= f) bs b.
Proof. intros. rewrite <- (app_nil_r bs). eapply decodes_bind; eauto. Qed.

(** A first step that reads nothing. *)
Lemma decodes_bind_nil {A B} (m : Dec A) (f : A -> Dec B) bs a b :
  decodes m [] a -> decodes (f a) bs b -> decodes (m ≫= f) bs b.
Proof. intros H1 H2. exact (decodes_bind m f [] bs a b H1 H2). Qed.

Lemma decodes_take bs n : n = len bs -> decodes (dec_take n) bs bs.
Proof.
  intros -> pre post base Hl. unfold dec_take, cursor, checked_add; cbn [dec_bytes dec_position].
  rewrite !len_app in Hl. pose proof (len_nonneg post).
  destruct (Z.ltb_spec (len pre + len bs) (2 ^ 64)); [|lia].
  rewrite get_range_app by reflexivity. reflexivity.
Qed.

Lemma decodes_take_array bs n : len bs = Z.of_nat n -> decodes (take_array n) bs bs.
Proof.
  intros E. unfold take_array. eapply decodes_bind_ret; [apply decodes_take; auto|].
  rewrite E, Z.eqb_refl. apply decodes_ret.
Qed.

Lemma decodes_u8 v : is_u8 v = true -> decodes dec_u8 (to_le 1 v) v.
Proof.
  intros [? ?]%in_unsigned_spec pre post base Hl. unfold dec_u8, cursor; cbn [dec_bytes dec_position].
  rewrite (get_range_app pre (to_le 1 v) post) by reflexivity.
  change (to_le 1 v) with [byte.of_Z v]. unfold past; cbn [dec_base_offset].
  rewrite byte.unsigned_of_Z. unfold byte.wrap. rewrite Z.mod_small by lia. reflexivity.
Qed.

Lemma decodes_u32 v : is_u32 v = true -> decodes dec_u32 (to_le 4 v) v.
Proof.
  intros [? ?]%in_unsigned_spec. unfold dec_u32.
  eapply decodes_bind_ret; [apply decodes_take_array; apply len_to_le|].
  rewrite from_to_le, Z.mod_small by (simpl; lia). apply decodes_ret.
Qed.

Lemma decodes_u64 v : is_u64 v = true -> decodes dec_u64 (to_le 8 v) v.
Proof.
  intros [? ?]%in_unsigned_spec. unfold dec_u64.
  eapply decodes_bind_ret; [apply decodes_take_array; apply len_to_le|].
  rewrite from_to_le, Z.mod_small by (simpl; lia). apply decodes_ret.
Qed.

Lemma decodes_i64 v : is_i64 v = true -> decodes dec_i64 (to_le 8 v) v.
Proof.
  intros Hv. unfold dec_i64.
  eapply decodes_bind_ret; [apply decodes_take_array; apply len_to_le|].
  rewrite from_to_le. change (8 * Z.of_nat 8) with 64. rewrite signed_mod by easy.
  apply decodes_ret.
Qed.

Lemma decodes_byte_string bs :
  len bs <= u32_max -> decodes dec_byte_string (to_le 4 (len bs) ++ bs) bs.
Proof.
  intros H. unfold dec_byte_string. eapply decodes_bind; [|now apply decodes_take].
  apply decodes_u32, in_unsigned_spec. pose proof (len_nonneg bs). unfold u32_max in H. lia.
Qed.

Lemma decodes_utf8 bs what : utf8_valid bs = true -> decodes (decode_utf8 bs what) [] bs.
Proof. intros H. unfold decode_utf8. rewrite H. apply decodes_ret. Qed.

Lemma decodes_count {B} w n (f : Z -> Dec B) bs b :
  0 < w -> 0 <= n <= u32_max -> n * w <= len bs ->
  decodes (f n) bs b -> decodes (dec_count w ≫= f) (to_le 4 n ++ bs) b.
Proof.
  intros Hw Hn Hb Hf pre post base Hl. unfold mbind, Dec_bind, dec_count.
  assert (is_u32 n = true) as Hu by (apply in_unsigned_spec; unfold u32_max in Hn; lia).
  unfold mbind, Dec_bind. rewrite cursor_app, (decodes_u32 n Hu) by now rewrite <- app_assoc in Hl.
  rewrite past_cursor. unfold dec_remaining at 1.
  replace (_ <? n) with false.
  - unfold mret, Dec_ret. rewrite Hf, past_app; [easy|]. rewrite <- app_assoc in *. easy.
  - symmetry. apply Z.ltb_ge. apply Z.div_le_lower_bound; [easy|].
    unfold cursor; simpl. rewrite !len_app. pose proof (len_nonneg post). lia.
Qed.

(** What one component's encoding promises to the components that use it: an
    accepted encoding appends at least [width] bytes, which decode to the durable
    form of the value. *)
Class Codec {A} (enc : Encoder -> A -> result StoreError Encoder) (dec : Dec A)
    (valid : A -> bool) (durable : A -> A) (width : Z) : Prop :=
  codec_law : forall e a e',
    valid a = true -> enc e a = Ok e' ->
    exists bs, e' = e ++ bs /\ width <= len bs /\ decodes dec bs (durable a).

Lemma codec_list {A} enc (dec : Dec A) valid durable width
    `{Hc : !Codec enc dec valid durable width} e xs e' :
  forallb valid xs = true -> fold_result enc e xs = Ok e' ->
  exists bs, e' = e ++ bs /\ len xs * width <= len bs /\
    decodes (dec_repeat (length xs) dec) bs (map durable xs).
Proof.
  revert e; induction xs as [|x xs IH]; intros e; simpl.
  - intros _ [= <-]. exists []. rewrite app_nil_r. split; [easy|]. split; [len_lia|].
    apply decodes_ret.
  - intros [Hx Hxs]%andb_prop. unfold mbind, result_bind.
    destruct (enc e x) as [e1|] eqn:E1; [|discriminate]. intros H.
    destruct (Hc _ _ _ Hx E1) as (b1 & -> & Hw1 & Hd1).
    destruct (IH _ Hxs H) as (b2 & -> & Hw2 & Hd2).
    exists (b1 ++ b2). rewrite app_assoc. split; [easy|]. split; [len_lia|].
    eapply decodes_bind; [exact Hd1|]. eapply decodes_bind_ret; [exact Hd2|]. apply decodes_ret.
Qed.

Lemma enc_length_ok e v what e' :
  enc_length e v what = Ok e' -> v <= u32_max /\ e' = e ++ to_le 4 v.
Proof. unfold enc_length. destruct (Z.leb_spec v u32_max); intros [= <-]. easy. Qed.

Lemma enc_bytes_ok e bs what e' :
  enc_bytes e bs what = Ok e' -> len bs <= u32_max /\ e' = e ++ to_le 4 (len bs) ++ bs.
Proof.
  unfold enc_bytes, mbind, result_bind. destruct (enc_length _ _ _) eqn:E; [|discriminate].
  apply enc_length_ok in E as [? ->]. intros [= <-]. unfold enc_raw. now rewrite <- app_assoc.
Qed.

(** Solve a [decodes] goal whose bytes are already split along the binds. *)
Ltac decode_leaf :=
  solve [ first [ apply decodes_u8 | apply decodes_u32 | apply decodes_u64 | apply decodes_i64
                | apply decodes_byte_string | apply decodes_utf8 ];
          first [ reflexivity | assumption ] ].
Ltac decode_steps :=
  repeat first
    [ apply decodes_ret
    | eapply decodes_bind; [decode_leaf | cbv beta; cbn [Z.eqb Pos.eqb]]
    | eapply decodes_bind_ret; [decode_leaf | cbv beta; cbn [Z.eqb Pos.eqb]] ].

#[export] Instance key_part_codec : Codec encode_key_part decode_key_part key_part_wf (fun p => p) 1.
Proof.
  intros e p e' Hv He. destruct p as [i|u|s|bs]; simpl in He, Hv.
  - injection He as <-. exists (to_le 1 0 ++ to_le 8 i). unfold enc_i64, enc_u8.
    rewrite app_assoc. split; [easy|]. split; [len_lia|]. unfold decode_key_part.
    decode_steps.
  - injection He as <-. exists (to_le 1 1 ++ to_le 8 u). unfold enc_u64, enc_u8.
    rewrite app_assoc. split; [easy|]. split; [len_lia|]. unfold decode_key_part.
    decode_steps.
  - apply enc_bytes_ok in He as [Hl ->]. unfold enc_u8. exists (to_le 1 2 ++ to_le 4 (len s) ++ s).
    rewrite <- app_assoc. split; [easy|]. split; [len_lia|]. unfold decode_key_part.
    decode_steps.
  - apply enc_bytes_ok in He as [Hl ->]. unfold enc_u8. exists (to_le 1 3 ++ to_le 4 (len bs) ++ bs).
    rewrite <- app_assoc. split; [easy|]. split; [len_lia|]. unfold decode_key_part.
    decode_steps.
Qed.

Lemma encode_text_value e s what e' :
  utf8_valid s = true -> enc_bytes (enc_u8 e 5) s what = Ok e' ->
  exists bs, e' = e ++ bs /\ 1 <= len bs /\ decodes decode_value bs (VUtf8 s).
Proof.
  intros Hv [Hl ->]%enc_bytes_ok. unfold enc_u8. exists (to_le 1 5 ++ to_le 4 (len s) ++ s).
  rewrite <- app_assoc. split; [easy|]. split; [len_lia|]. unfold decode_value. decode_steps.
Qed.

#[export] Instance value_codec : Codec encode_value decode_value value_wf durable_value 1.
Proof.
  intros e v e' Hv He. destruct v as [|b|i|u|f|s|bs|q|ix l]; simpl in He, Hv; unfold durable_value; simpl;
    try (injection He as <-); unfold enc_u8, enc_i64, enc_u64; rewrite <- ?app_assoc;
    try (eexists; split; [reflexivity|]; split; [len_lia|]; unfold decode_value; decode_steps; fail).
  - eexists. split; [reflexivity|]. split; [len_lia|]. unfold decode_value.
    eapply decodes_bind; [now apply decodes_u8|]. cbn [Z.eqb Pos.eqb].
    eapply decodes_bind_ret; [now apply decodes_u8; destruct b|].
    destruct b; cbn [Z.b2z Z.eqb Pos.eqb]; apply decodes_ret.
  - now apply encode_text_value in He.
  - apply enc_bytes_ok in He as [Hl ->]. unfold enc_u8. exists (to_le 1 6 ++ to_le 4 (len bs) ++ bs).
    rewrite <- app_assoc. split; [easy|]. split; [len_lia|]. unfold decode_value. decode_steps.
  - apply andb_prop in Hv as [Hv _]. apply andb_prop in Hv as [Hv _]. apply andb_prop in Hv as [Hv _].
    now apply encode_text_value in He.
  - apply andb_prop in Hv as [_ Hv]. now apply encode_text_value in He.
Qed.

Lemma len_to_nat {A} (l : list A) : Z.to_nat (len l) = length l.
Proof. unfold len. lia. Qed.

(** A counted list: the count, then the elements. *)
Lemma decodes_counted {A B} (dec : Dec A) w xs bs (f : list A -> Dec B) rest b :
  0 < w -> len xs <= u32_max -> len xs * w <= len bs ->
  decodes (dec_repeat (length xs) dec) bs xs -> decodes (f xs) rest b ->
  decodes (n ← dec_count w; xs ← dec_repeat (Z.to_nat n) dec; f xs)
    (to_le 4 (len xs) ++ bs ++ rest) b.
Proof.
  intros Hw Hn Hb Hx Hf. pose proof (len_nonneg xs). pose proof (len_nonneg rest).
  apply decodes_count; [easy|lia|rewrite len_app; lia|].
  rewrite len_to_nat. eapply decodes_bind; eauto.
Qed.

#[export] Instance key_codec : Codec encode_key decode_key primary_key_wf (fun k => k) 4.
Proof.
  intros e k e' [Hne Hv]%andb_prop He. unfold encode_key, mbind, result_bind in He.
  destruct (enc_length _ _ _) as [e1|] eqn:E1; [|discriminate].
  apply enc_length_ok in E1 as [Hl ->]. destruct (codec_list encode_key_part _ _ _ _ _ _ _ Hv He) as (bs & -> & Hw & Hd).
  exists (to_le 4 (len k) ++ bs). rewrite app_assoc. split; [easy|]. split; [len_lia|].
  rewrite map_id in Hd. unfold decode_key. rewrite <- (app_nil_r bs).
  apply decodes_counted; auto; [lia|]. destruct k; [discriminate|]. apply decodes_ret.
Qed.

#[export] Instance row_codec : Codec encode_row decode_row stored_row_wf durable_row 4.
Proof.
  intros e r e' Hv He. unfold stored_row_wf in Hv. apply andb_prop in Hv as [Hv Hver].
  apply andb_prop in Hv as [Hk Hvs]. unfold encode_row, mbind, result_bind in He.
  destruct (encode_key _ _) as [e1|] eqn:E1; [|discriminate].
  destruct (enc_length _ _ _) as [e2|] eqn:E2; [|discriminate].
  destruct (fold_result _ _ _) as [e3|] eqn:E3; [|discriminate]. injection He as <-.
  destruct (key_codec _ _ _ Hk E1) as (kb & -> & Hkw & Hkd).
  apply enc_length_ok in E2 as [Hl ->]. destruct (codec_list encode_value _ _ _ _ _ _ _ Hvs E3) as (vb & -> & Hw & Hd).
  unfold enc_u8, enc_u64. rewrite <- !app_assoc. eexists. split; [reflexivity|].
  split; [len_lia|]. unfold decode_row. eapply decodes_bind; [exact Hkd|].
  rewrite <- (len_map durable_value). apply decodes_counted.
  - lia.
  - now rewrite len_map.
  - rewrite len_map. lia.
  - now rewrite length_map.
  - eapply decodes_bind; [now apply decodes_u64|].
    eapply decodes_bind_ret; [now apply decodes_u8; destruct (row_deleted r)|].
    unfold durable_row. destruct (row_deleted r); cbn [Z.b2z Z.eqb Pos.eqb]; apply decodes_ret.
Qed.

(** ** Decoding arbitrary bytes *)

(** [consumes m P]: whatever [m] accepts, it read some bytes [s] in front of it,
    and [P] relates the value to them. *)
Definition consumes {A} (m : Dec A) (P : A -> list byte -> Prop) : Prop :=
  forall pre rest base a d',
    m {| dec_bytes := pre ++ rest; dec_position := len pre; dec_base_offset := base |} = (Ok a, d') ->
    exists s post, rest = s ++ post /\ d' = past pre s post base /\ P a s.

Lemma consumes_ret {A} (a : A) (P : A -> list byte -> Prop) : P a [] -> consumes (mret a) P.
Proof.
  intros H pre rest base b d'. unfold mret, Dec_ret. intros [= <- <-].
  exists [], rest. split; [easy|]. split; [|easy]. unfold past. f_equal. len_lia.
Qed.

Lemma consumes_fail {A} e (P : A -> list byte -> Prop) : consumes (fail e) P.
Proof. intros pre rest base b d'. discriminate. Qed.

Lemma consumes_bind {A B} (m : Dec A) (f : A -> Dec B) P R :
  consumes m P ->
  (forall a s1, P a s1 -> consumes (f a) (fun b s2 => R b (s1 ++ s2))) ->
  consumes (m ≫= f) R.
Proof.
  intros Hm Hf pre rest base b d'. unfold mbind, Dec_bind.
  destruct (m _) as [[a|e] d1] eqn:E; [|discriminate]. intros Hb.
  destruct (Hm _ _ _ _ _ E) as (s1 & post1 & -> & -> & HP).
  unfold past in Hb. rewrite app_assoc, <- len_app in Hb.
  destruct (Hf _ _ HP _ _ _ _ _ Hb) as (s2 & post2 & -> & -> & HR).
  exists (s1 ++ s2), post2. rewrite past_app, <- app_assoc. auto.
Qed.

Lemma consumes_weaken {A} (m : Dec A) (P Q : A -> list byte -> Prop) :
  consumes m P -> (forall a s, P a s -> Q a s) -> consumes m Q.
Proof. intros Hm HPQ pre rest base a d' H. destruct (Hm _ _ _ _ _ H) as (s & post & ? & ? & ?). eauto 8. Qed.

Lemma consumes_u8 : consumes dec_u8 (fun v s => is_u8 v = true /\ s = to_le 1 v).
Proof.
  intros pre rest base a d'. unfold dec_u8; cbn [dec_bytes dec_position dec_base_offset].
  destruct (get_range _ _ _) as [[|b [|]]|] eqn:E; try discriminate. intros [= <- <-].
  apply get_range_Some in E as (pre' & post & E & Hp & _).
  apply app_inj_1 in E as [-> ->]; [|unfold len in Hp; lia].
  exists [b], post. split; [easy|]. split; [easy|]. split.
  - apply in_unsigned_spec. pose proof (byte.unsigned_range b). lia.
  - unfold to_le. change (le_split 1 (byte.unsigned b)) with [byte.of_Z (byte.unsigned b)].
    now rewrite byte.of_Z_unsigned.
Qed.

Lemma consumes_take n : consumes (dec_take n) (fun bs s => s = bs /\ len bs = n).
Proof.
  intros pre rest base a d'. unfold dec_take, checked_add; cbn [dec_bytes dec_position dec_base_offset].
  destruct (_ <? _); [|discriminate].
  destruct (get_range _ _ _) as [bs|] eqn:E; [|discriminate]. intros [= <- <-].
  apply get_range_Some in E as (pre' & post & E & Hp & Hl).
  apply app_inj_1 in E as [-> ->]; [|unfold len in Hp; lia].
  exists bs, post. split; [easy|]. split; [unfold past; f_equal; lia|]. split; [easy|lia].
Qed.

Lemma consumes_take_array n : consumes (take_array n) (fun bs s => s = bs /\ len bs = Z.of_nat n).
Proof.
  unfold take_array. eapply consumes_bind; [apply consumes_take|]. intros bs s1 [-> Hl].
  rewrite Hl, Z.eqb_refl. apply consumes_ret. now rewrite app_nil_r.
Qed.

Lemma to_le_signed (bs : list byte) : len bs = 8 -> to_le 8 (signed 64 (from_le bs)) = bs.
Proof.
  intros H. rewrite <- (to_from_le bs 8 H) at 2. unfold to_le, signed.
  destruct (_ <? _); [easy|]. apply le_combine_inj; [now rewrite !length_le_split|].
  rewrite !le_combine_split. change (Z.of_nat 8 * 8) with 64.
  replace (from_le bs - 2 ^ 64) with (from_le bs + -1 * 2 ^ 64) by lia. now rewrite Z.mod_add.
Qed.

Lemma consumes_u32 : consumes dec_u32 (fun v s => is_u32 v = true /\ s = to_le 4 v).
Proof.
  eapply consumes_bind; [apply consumes_take_array|]. intros bs s [-> Hl].
  apply consumes_ret. rewrite app_nil_r, to_from_le by easy. split; [|easy].
  apply in_unsigned_spec. pose proof (from_le_range bs) as Hr. now rewrite Hl in Hr.
Qed.

Lemma consumes_u64 : consumes dec_u64 (fun v s => is_u64 v = true /\ s = to_le 8 v).
Proof.
  eapply consumes_bind; [apply consumes_take_array|]. intros bs s [-> Hl].
  apply consumes_ret. rewrite app_nil_r, to_from_le by easy. split; [|easy].
  apply in_unsigned_spec. pose proof (from_le_range bs) as Hr. now rewrite Hl in Hr.
Qed.

Lemma consumes_i64 : consumes dec_i64 (fun v s => is_i64 v = true /\ s = to_le 8 v).
Proof.
  eapply consumes_bind; [apply consumes_take_array|]. intros bs s [-> Hl].
  apply consumes_ret. rewrite app_nil_r, to_le_signed by easy. split; [|easy].
  apply signed_range; [lia|]. pose proof (from_le_range bs) as Hr. now rewrite Hl in Hr.
Qed.

Lemma consumes_count w : consumes (dec_count w) (fun v s => is_u32 v = true /\ s = to_le 4 v).
Proof.
  eapply consumes_bind; [apply consumes_u32|]. intros n s [Hn ->].
  eapply (consumes_bind _ _ (fun _ s => s = [])).
  - intros pre rest base a d' [= <- <-]. exists [], rest. repeat split; auto.
    unfold past. f_equal. len_lia.
  - intros r s ->. destruct (_ <? _); [apply consumes_fail|]. apply consumes_ret. now rewrite app_nil_r.
Qed.

Lemma consumes_byte_string :
  consumes dec_byte_string (fun bs s => len bs <= u32_max /\ s = to_le 4 (len bs) ++ bs).
Proof.
  eapply consumes_bind; [apply consumes_u32|]. intros n s [[? Hn]%in_unsigned_spec ->].
  eapply consumes_weaken; [apply consumes_take|]. cbv beta. intros bs ? [-> <-].
  unfold u32_max. split; [lia|easy].
Qed.

(** [m] accepts only what [enc] writes, and well-formed. *)
Definition canonical {A} (enc : Encoder -> A -> result StoreError Encoder) (valid : A -> bool)
    (m : Dec A) : Prop :=
  consumes m (fun a s => valid a = true /\ forall e, enc e a = Ok (e ++ s)).

Lemma consumes_repeat {A} enc valid (m : Dec A) n :
  canonical enc valid m ->
  consumes (dec_repeat n m) (fun xs s =>
    length xs = n /\ forallb valid xs = true /\ forall e, fold_result enc e xs = Ok (e ++ s)).
Proof.
  intros Hm. induction n as [|n IH]; simpl.
  - apply consumes_ret. repeat split. intros e. now rewrite app_nil_r.
  - eapply consumes_bind; [apply Hm|]. intros a s1 [Ha He].
    eapply consumes_bind; [apply IH|]. intros xs s2 (Hl & Hv & Hx).
    apply consumes_ret. simpl. rewrite Ha, Hv, Hl, app_nil_r. repeat split.
    intros e. unfold mbind, result_bind. now rewrite He, Hx, app_assoc.
Qed.

Lemma enc_length_le e n what : n <= u32_max -> enc_length e n what = Ok (e ++ to_le 4 n).
Proof. intros H. unfold enc_length. destruct (Z.leb_spec n u32_max); [easy|lia]. Qed.

Lemma enc_bytes_le e bs what :
  len bs <= u32_max -> enc_bytes e bs what = Ok (e ++ to_le 4 (len bs) ++ bs).
Proof.
  intros H. unfold enc_bytes, mbind, result_bind. rewrite enc_length_le by easy.
  unfold enc_raw. now rewrite app_assoc.
Qed.

(** Walk a decoder of one tagged variant. *)
Ltac consume_leaf H :=
  eapply consumes_bind;
  [ first [ apply consumes_u8 | apply consumes_u64 | apply consumes_i64 | apply consumes_byte_string
          | apply consumes_u32 ]
  | intros ? ? H; cbv beta ].
Ltac consume_done :=
  apply consumes_ret; simpl; rewrite ?app_nil_r; split; [easy|]; intros e;
  unfold enc_u8, enc_u64, enc_i64; rewrite ?enc_bytes_le by easy;
  now rewrite <- ?app_assoc.

Lemma decode_key_part_canonical : canonical encode_key_part key_part_wf decode_key_part.
Proof.
  unfold canonical, decode_key_part. consume_leaf H. destruct H as [_ ->].
  zcases; subst; try apply consumes_fail; consume_leaf H; destruct H as [Hv ->];
    try consume_done.
  unfold decode_utf8. destruct (utf8_valid _) eqn:U; [|apply consumes_fail].
  apply consumes_ret. simpl. rewrite U, app_nil_r. split; [easy|].
  intros e. rewrite enc_bytes_le by easy. unfold enc_u8. now rewrite <- app_assoc.
Qed.

Lemma decode_value_canonical : canonical encode_value value_wf decode_value.
Proof.
  unfold canonical, decode_value. consume_leaf H. destruct H as [_ ->].
  zcases; subst; try apply consumes_fail; try consume_done; consume_leaf H; destruct H as [Hv ->];
    try consume_done.
  - zcases; subst; try apply consumes_fail; consume_done.
  - unfold decode_utf8. destruct (utf8_valid _) eqn:U; [|apply consumes_fail].
    apply consumes_ret. simpl. rewrite U, app_nil_r. split; [easy|].
    intros e. rewrite enc_bytes_le by easy. unfold enc_u8. now rewrite <- app_assoc.
Qed.

Lemma is_u32_to_nat {A} n (xs : list A) :
  is_u32 n = true -> length xs = Z.to_nat n -> len xs = n /\ len xs <= u32_max.
Proof. intros [? ?]%in_unsigned_spec ?. unfold len, u32_max. lia. Qed.

Lemma decode_key_canonical : canonical encode_key primary_key_wf decode_key.
Proof.
  unfold canonical, decode_key. eapply consumes_bind; [apply consumes_count|]. intros n s [Hn ->].
  eapply consumes_bind; [apply consumes_repeat, decode_key_part_canonical|].
  intros k s (Hl & Hv & He). destruct (is_u32_to_nat _ _ Hn Hl) as [Hln Hlu].
  destruct k as [|p k]; [intros ? ? ? ? ?; discriminate|].
  apply (consumes_ret (p :: k)). rewrite app_nil_r. unfold primary_key_wf. rewrite Hv. split; [easy|].
  intros e. unfold encode_key, mbind, result_bind. rewrite enc_length_le, He, Hln by easy.
  now rewrite app_assoc.
Qed.

Lemma decode_row_canonical : canonical encode_row stored_row_wf decode_row.
Proof.
  unfold canonical, decode_row. eapply consumes_bind; [apply decode_key_canonical|].
  intros k s1 [Hk He1]. eapply consumes_bind; [apply consumes_count|]. intros n s [Hn ->].
  eapply consumes_bind; [apply consumes_repeat, decode_value_canonical|].
  intros vs s3 (Hl & Hv & He3). destruct (is_u32_to_nat _ _ Hn Hl) as [Hln Hlu].
  consume_leaf Hver. destruct Hver as [Hver ->]. consume_leaf Hf. destruct Hf as [_ ->].
  zcases; subst; [| |apply consumes_fail]; apply consumes_ret; unfold stored_row_wf; simpl;
    rewrite Hk, Hv, Hver; (split; [easy|]); intros e; unfold encode_row, mbind, result_bind; simpl;
    rewrite He1, enc_length_le, He3 by easy; unfold enc_u8, enc_u64; rewrite <- ?app_assoc, ?app_nil_r, ?Hln; reflexivity.
Qed.

(** ** Properties *)

(** C37. A row written by [encode_row] anywhere in a buffer is read back by
    [decode_row] as the same row, an ENUM or decimal average replaced by the label it
    displays, and the decoder stops at the end of the row. *)
Theorem row_roundtrip pre r e' post base :
  stored_row_wf r = true -> encode_row pre r = Ok e' -> len (e' ++ post) < 2 ^ 63 ->
  decode_row {| dec_bytes := e' ++ post; dec_position := len pre; dec_base_offset := base |} =
    (Ok (durable_row r),
     {| dec_bytes := e' ++ post; dec_position := len e'; dec_base_offset := base |}).
Proof.
  intros Hr He Hl. destruct (row_codec _ _ _ Hr He) as (bs & -> & _ & Hd).
  rewrite <- app_assoc in *. specialize (Hd pre post base Hl).
  unfold cursor, past in Hd. now rewrite len_app.
Qed.

(** [decode_row] accepts nothing but encoded rows: whatever bytes it is
    given, when it returns a row it consumed exactly the bytes [encode_row] writes for
    that row, inside the buffer, and the row satisfies the ranges of its types. *)
Theorem decode_row_sound pre rest base r d' :
  decode_row {| dec_bytes := pre ++ rest; dec_position := len pre; dec_base_offset := base |} = (Ok r, d') ->
  stored_row_wf r = true /\
  exists s post, rest = s ++ post /\ encode_row pre r = Ok (pre ++ s) /\
    d' = {| dec_bytes := pre ++ rest; dec_position := len pre + len s; dec_base_offset := base |}.
Proof.
  intros H. destruct (decode_row_canonical _ _ _ _ _ H) as (s & post & -> & -> & Hw & He).
  split; [easy|]. exists s, post. auto.
Qed.

(** ** Witnesses *)

Definition codec_row : StoredRow := {|
  row_key := [PInt64 (-3); PUtf8 (map byte.of_Z [112; 105; 110])];
  row_values := [VNull; VBoolean true; VEnum 2 (map byte.of_Z [111; 107]); VFloat64 (2 ^ 63)];
  row_version := 41; row_deleted := true
|}.

Definition codec_row_bytes : list byte :=
  match encode_row [] codec_row with Ok e => e | Err _ => [] end.

Lemma row_roundtrip_witness :
  decode_row {| dec_bytes := codec_row_bytes ++ [Byte.x00]; dec_position := 0; dec_base_offset := 0 |} =
    (Ok (durable_row codec_row),
     {| dec_bytes := codec_row_bytes ++ [Byte.x00]; dec_position := len codec_row_bytes; dec_base_offset := 0 |}).
Proof. apply (row_roundtrip [] codec_row codec_row_bytes [Byte.x00] 0); vm_compute; reflexivity. Defined.

Lemma decode_row_sound_witness :
  stored_row_wf (durable_row codec_row) = true /\
  exists s post, codec_row_bytes = s ++ post /\ encode_row [] (durable_row codec_row) = Ok ([] ++ s) /\
    {| dec_bytes := codec_row_bytes; dec_position := len codec_row_bytes; dec_base_offset := 0 |} =
    {| dec_bytes := [] ++ codec_row_bytes; dec_position := len (@nil byte) + len s; dec_base_offset := 0 |}.
Proof.
  apply (decode_row_sound [] codec_row_bytes 0 (durable_row codec_row)
    {| dec_bytes := codec_row_bytes; dec_position := len codec_row_bytes; dec_base_offset := 0 |}).
  vm_compute; reflexivity.
Defined.
