(* ===== verification/Wal.v ===== *)
(** * The write-ahead log ([src/crates/pintail-store/src/wal.rs])

    A log file is its bytes and the length known to be on disk.  Every call to the
    filesystem that can fail is an outcome the caller supplies, so that each error
    path is a value.  [recover] is the record walk of the source; [log_of] and
    [replay] are the specification it is proved against. *)

From Stdlib Require Import ZArith Lia String Sorted.
From stdpp Require Import prelude list.
From coqutil Require Import Byte Word.LittleEndianList.
From S2P Require Import Prelude.
From S2P Require Import Types.
From S2P Require Import Codec.

#[local] Open Scope Z_scope.

(** [xxh3_64] of the [xxhash_rust] crate: a 64-bit hash of a byte string. *)
Class Checksum : Type := {
  xxh3_64 : list byte -> Z;
  xxh3_64_range : forall bs, is_u64 (xxh3_64 bs) = true
}.

(** ** Format constants *)

Definition byte_of_code (z : Z) : byte := byte.of_Z z.

(** b"PTWAL" *)
Definition MAGIC : list byte := map byte_of_code [80; 84; 87; 65; 76].
Definition FORMAT_VERSION : Z := 1.
Definition HEADER_LENGTH : Z := 6.
Definition CHECKSUM_LENGTH : Z := 8.
Definition MAX_RECORD_LENGTH : Z := 128 * 1024 * 1024.
Definition COMMIT_TABLE_SENTINEL : Z := u64_max.

Definition wal_header : list byte := MAGIC ++ to_le 1 FORMAT_VERSION.

Inductive WalSync : Type := Always | Checkpoint | Off.

#[export] Instance WalSync_eq_dec : EqDecision WalSync.
Proof. solve_decision. Defined.

(** ** Data *)

Record WalColumn : Type := { wc_id : Z; wc_data_type : DataType }.

Record RecoveredBatch : Type := {
  rb_sequence : Z;
  rb_table_id : Z;
  rb_columns : list WalColumn;
  rb_rows : list StoredRow
}.

Record WalCommit : Type := {
  wc_batches : Z;
  wc_sequence : Z;
  wc_version : Z;
  wc_end_offset : Z
}.

Record Recovery : Type := {
  rec_batches : list RecoveredBatch;
  rec_last_sequence : Z;
  rec_last_commit : option WalCommit
}.

(** The log file: its bytes and how many of them are known to be on disk. *)
Record Wal : Type := {
  wal_bytes : list byte;
  wal_synced : Z;
  wal_sync_policy : WalSync
}.

(** ** Record payloads *)

Definition encode_data_type (t : DataType) : Z :=
  match storage_type t with
  | DBoolean => 0 | DInt64 => 1 | DUInt64 => 2 | DFloat64 => 3 | DUtf8 => 4 | DBinary => 5
  | _ => 6
  end.

Definition decode_data_type (tag : Z) : Dec DataType :=
  if tag =? 0 then mret DBoolean
  else if tag =? 1 then mret DInt64
  else if tag =? 2 then mret DUInt64
  else if tag =? 3 then mret DFloat64
  else if tag =? 4 then mret DUtf8
  else if tag =? 5 then mret DBinary
  else fail (msg "unknown WAL column type {tag}" [tag]).

Definition encode_wal_column (e : Encoder) (c : Column) : result StoreError Encoder :=
  Ok (enc_u8 (enc_u32 e (col_id c)) (encode_data_type (col_data_type c))).

Definition encode_batch (sequence table_id : Z) (schema : TableSchema) (rows : list StoredRow)
    : result StoreError (list byte) :=
  let e := enc_u32 (enc_u64 (enc_u64 encoder_new sequence) table_id) (schema_version schema) in
  e ← enc_length e (len (schema_columns schema)) (msg "WAL schema column count exceeds u32::MAX" []);
  e ← fold_result encode_wal_column e (schema_columns schema);
  e ← enc_length e (len rows) (msg "WAL batch row count exceeds u32::MAX" []);
  fold_result encode_row e rows.

Definition encode_commit (sequence commit_version : Z) : list byte :=
  enc_u64 (enc_u64 (enc_u64 encoder_new sequence) COMMIT_TABLE_SENTINEL) commit_version.

Definition decode_commit_body : Dec (option (Z * Z)) :=
  sequence ← dec_u64;
  sentinel ← dec_u64;
  if negb (sentinel =? COMMIT_TABLE_SENTINEL) then mret None
  else version ← dec_u64; mret (Some (sequence, version)).

Definition decode_commit (payload : list byte) : option (Z * Z) :=
  if negb (len payload =? 3 * 8) then None
  else
    match decode_commit_body (decoder_new payload) with
    | (Ok (Some sv), d) => match dec_finish d with Ok _ => Some sv | Err _ => None end
    | _ => None
    end.

Definition decode_wal_column : Dec WalColumn :=
  id ← dec_u32;
  tag ← dec_u8;
  t ← decode_data_type tag;
  mret {| wc_id := id; wc_data_type := t |}.

(** The check of one recovered row against the columns of its record. *)
Definition row_matches (columns : list WalColumn) (row : StoredRow) : Dec unit :=
  if negb (len (row_values row) =? len columns) then
    fail (msg "row has {} values for {} WAL schema columns" [len (row_values row); len columns])
  else
    match List.find (fun cv => match data_type cv.2 with
                               | Some t => negb (accepts (wc_data_type cv.1) t)
                               | None => false
                               end) (zip columns (row_values row)) with
    | Some cv => fail (msg "row value does not match WAL column {} type" [wc_id cv.1])
    | None => mret tt
    end.

Definition decode_batch_row (columns : list WalColumn) : Dec StoredRow :=
  row ← decode_row; _ ← row_matches columns row; mret row.

Definition decode_batch_body : Dec RecoveredBatch :=
  sequence ← dec_u64;
  table_id ← dec_u64;
  _ ← dec_u32;
  column_count ← dec_count 5;
  columns ← dec_repeat (Z.to_nat column_count) decode_wal_column;
  row_count ← dec_count 1;
  rows ← dec_repeat (Z.to_nat row_count) (decode_batch_row columns);
  mret {| rb_sequence := sequence; rb_table_id := table_id; rb_columns := columns; rb_rows := rows |}.

Definition decode_batch (payload : list byte) : result message RecoveredBatch :=
  match decode_batch_body (decoder_new payload) with
  | (Ok b, d) => _ ← dec_finish d; Ok b
  | (Err e, _) => Err e
  end.

Section wal.
Context `{Checksum}.

(** ** Writing *)

(** The bytes [write_record] writes. *)
Definition write_record (payload : list byte) : list byte :=
  to_le 4 (len payload) ++ payload ++ to_le 8 (xxh3_64 payload).

(** What the filesystem does to one append: the failpoint, the seek to the end,
    how many bytes of the record reach the file when the write fails, and the
    calls of the sync and of the rollback. *)
Record append_io : Type := {
  io_failpoint : bool;
  io_seek : bool;
  io_write : option Z;
  io_sync_data : bool;
  io_set_len : bool;
  io_seek_back : bool;
  io_sync_all : bool
}.

Arguments write_record : simpl never.

Definition set_bytes (w : Wal) (bytes : list byte) (synced : Z) : Wal :=
  {| wal_bytes := bytes; wal_synced := synced; wal_sync_policy := wal_sync_policy w |}.

(** [set_len(offset)]: a shorter file. *)
Definition set_len (w : Wal) (offset : Z) : Wal :=
  set_bytes w (take (Z.to_nat offset) (wal_bytes w)) (Z.min (wal_synced w) offset).

(** Everything written so far is on disk. *)
Definition sync_file (w : Wal) : Wal := set_bytes w (wal_bytes w) (len (wal_bytes w)).

Definition rollback_failed_append (w : Wal) (record_offset : Z) (io : append_io)
    : result StoreError unit * Wal :=
  let error := Err (Io (msg "roll back failed WAL append after write error" [])) in
  if negb (io_set_len io) then (error, w)
  else
    let w := set_len w record_offset in
    if negb (io_seek_back io) then (error, w)
    else if bool_decide (wal_sync_policy w = Off) then (Ok tt, w)
    else if negb (io_sync_all io) then (error, w)
    else (Ok tt, sync_file w).

(** Write one record at the end of the file, or fail after some of its bytes. *)
Definition write_at_end (w : Wal) (payload : list byte) (io : append_io) : Wal :=
  match io_write io with
  | None => set_bytes w (wal_bytes w ++ write_record payload) (wal_synced w)
  | Some n => set_bytes w (wal_bytes w ++ take (Z.to_nat n) (write_record payload)) (wal_synced w)
  end.

Definition append_encoded (w : Wal) (payload : list byte) (io : append_io)
    : result StoreError unit * Wal :=
  if negb (io_failpoint io) then (Err (Io (msg "append WAL record" [])), w)
  else if MAX_RECORD_LENGTH <? len payload then
    (Err (FormatLimit (msg "a WAL record of {} bytes exceeds the {MAX_RECORD_LENGTH} the log replays"
                         [len payload; MAX_RECORD_LENGTH])), w)
  else if u32_max <? len payload then
    (Err (FormatLimit (msg "WAL record exceeds u32::MAX" [])), w)
  else if negb (io_seek io) then (Err (Io (msg "seek to WAL end" [])), w)
  else
    let record_offset := len (wal_bytes w) in
    let w1 := write_at_end w payload io in
    match io_write io with
    | Some _ =>
        match rollback_failed_append w1 record_offset io with
        | (Err e, w2) => (Err e, w2)
        | (Ok _, w2) => (Err (Io (msg "append WAL record" [])), w2)
        end
    | None =>
        if bool_decide (wal_sync_policy w = Always) then
          if io_sync_data io then (Ok tt, sync_file w1)
          else
            match rollback_failed_append w1 record_offset io with
            | (Err e, w2) => (Err e, w2)
            | (Ok _, w2) => (Err (Io (msg "sync WAL append" [])), w2)
            end
        else (Ok tt, w1)
    end.

Definition append (w : Wal) (sequence table_id : Z) (schema : TableSchema) (rows : list StoredRow)
    (io : append_io) : result StoreError unit * Wal :=
  match encode_batch sequence table_id schema rows with
  | Err e => (Err e, w)
  | Ok payload => append_encoded w payload io
  end.

Definition append_commit (w : Wal) (sequence commit_version : Z) (io : append_io)
    : result StoreError unit * Wal :=
  let payload := encode_commit sequence commit_version in
  if negb (io_seek io) then (Err (Io (msg "seek to WAL end" [])), w)
  else
    let record_offset := len (wal_bytes w) in
    let w1 := write_at_end w payload io in
    match io_write io with
    | Some _ =>
        match rollback_failed_append w1 record_offset io with
        | (Err e, w2) => (Err e, w2)
        | (Ok _, w2) => (Err (Io (msg "append WAL commit record" [])), w2)
        end
    | None => (Ok tt, w1)
    end.

Definition sync_force (w : Wal) (ok : bool) : result StoreError unit * Wal :=
  if ok then (Ok tt, sync_file w) else (Err (Io (msg "sync WAL commit" [])), w).

Definition sync (w : Wal) (failpoint ok : bool) : result StoreError unit * Wal :=
  if bool_decide (wal_sync_policy w = Off) then (Ok tt, w)
  else if failpoint && ok then (Ok tt, sync_file w)
  else (Err (Io (msg "sync WAL" [])), w).

(** [truncate_to]: shorten, seek, synchronize. *)
Definition truncate_to (w : Wal) (offset : Z) (set_len_ok seek_ok sync_ok : bool)
    : result StoreError unit * Wal :=
  let error := Err (Io (msg "truncate uncommitted WAL tail" [])) in
  if negb set_len_ok then (error, w)
  else if negb seek_ok then (error, set_len w offset)
  else if negb sync_ok then (error, set_len w offset)
  else (Ok tt, sync_file (set_len w offset)).

Definition reset (w : Wal) (set_len_ok seek_ok sync_ok : bool) : result StoreError unit * Wal :=
  let error := Err (Io (msg "truncate flushed WAL" [])) in
  if negb set_len_ok then (error, w)
  else
    let w := set_len w HEADER_LENGTH in
    if negb seek_ok then (error, w)
    else if bool_decide (wal_sync_policy w = Off) then (Ok tt, w)
    else if negb sync_ok then (Err (Io (msg "sync truncated WAL" [])), w)
    else (Ok tt, sync_file w).

(** [holds_records]: a missing file holds none. *)
Definition holds_records (file : option (list byte)) : bool :=
  match file with Some bytes => HEADER_LENGTH <? len bytes | None => false end.

(** ** Recovery *)

(** The variables of the loop of [recover]. *)
Record walk : Type := {
  k_position : Z;
  k_valid_length : Z;
  k_batches : list RecoveredBatch;
  k_last_sequence : Z;
  k_last_commit : option WalCommit
}.

Inductive walk_outcome : Type :=
| Continue (k : walk)
| Break
| Return (e : StoreError).

Definition walk_start : walk := {|
  k_position := HEADER_LENGTH; k_valid_length := HEADER_LENGTH; k_batches := [];
  k_last_sequence := 0; k_last_commit := None
|}.

Definition does_not_follow (offset sequence last : Z) : StoreError :=
  CorruptWal offset (msg "sequence {sequence} does not follow {last_sequence}" [sequence; last]).

(** What one complete record whose checksum holds does to the loop variables. *)
Definition accept_record (k : walk) (record_offset record_end : Z) (payload : list byte)
    : walk_outcome :=
  match decode_commit payload with
  | Some (sequence, version) =>
      if sequence <=? k_last_sequence k
      then Return (does_not_follow record_offset sequence (k_last_sequence k))
      else Continue {|
        k_position := record_end; k_valid_length := record_end; k_batches := k_batches k;
        k_last_sequence := sequence;
        k_last_commit := Some {| wc_batches := len (k_batches k); wc_sequence := sequence;
                                 wc_version := version; wc_end_offset := record_end |} |}
  | None =>
      match decode_batch payload with
      | Err reason =>
          Return (CorruptWal record_offset
                    (msg (String.append "invalid record payload: " (msg_text reason)) (msg_args reason)))
      | Ok batch =>
          if rb_sequence batch <=? k_last_sequence k
          then Return (does_not_follow record_offset (rb_sequence batch) (k_last_sequence k))
          else Continue {|
            k_position := record_end; k_valid_length := record_end;
            k_batches := k_batches k ++ [batch]; k_last_sequence := rb_sequence batch;
            k_last_commit := k_last_commit k |}
      end
  end.

(** One turn of [while position < bytes.len()]. *)
Definition walk_step (bytes : list byte) (k : walk) : walk_outcome :=
  let record_offset := k_position k in
  match get_range bytes record_offset (record_offset + 4) with
  | None => Break
  | Some length_bytes =>
      let length := from_le length_bytes in
      let position := record_offset + 4 in
      match checked_add 64 position length with
      | None => Return (CorruptWal record_offset (msg "record length overflow" []))
      | Some stop =>
          match checked_add 64 stop CHECKSUM_LENGTH with
          | None => Return (CorruptWal record_offset (msg "record length overflow" []))
          | Some record_end =>
              if len bytes <? record_end then Break
              else
                match get_range bytes position stop, get_range bytes stop record_end with
                | Some payload, Some checksum =>
                    if negb (xxh3_64 payload =? from_le checksum)
                    then Return (CorruptWal record_offset (msg "record checksum mismatch" []))
                    else accept_record k record_offset record_end payload
                | _, _ => Break
                end
          end
      end
  end.

(** The loop; [None] when the fuel runs out. *)
Fixpoint walk_loop (fuel : nat) (bytes : list byte) (k : walk) : option (result StoreError walk) :=
  match fuel with
  | O => None
  | S fuel =>
      if k_position k <? len bytes then
        match walk_step bytes k with
        | Continue k => walk_loop fuel bytes k
        | Break => Some (Ok k)
        | Return e => Some (Err e)
        end
      else Some (Ok k)
  end.

Definition header_ok (bytes : list byte) : bool :=
  bool_decide (take 6 bytes = wal_header).

(** The record walk over the whole file; a record is at least twelve bytes, so as
    many turns as there are bytes are enough. *)
Definition scan_log (bytes : list byte) : result StoreError walk :=
  if negb (header_ok bytes) then Err (CorruptWal 0 (msg "invalid magic or format version" []))
  else
    match walk_loop (S (length bytes)) bytes walk_start with
    | Some r => r
    | None => Err (CorruptWal 0 (msg "unreachable" []))
    end.

Definition recovery_of (k : walk) : Recovery := {|
  rec_batches := k_batches k; rec_last_sequence := k_last_sequence k;
  rec_last_commit := k_last_commit k
|}.

(** [recover(file, truncate_torn_tail)]; [read_ok] covers the seek and the read. *)
Definition recover (w : Wal) (truncate_torn_tail read_ok truncate_ok : bool)
    : result StoreError Recovery * Wal :=
  if negb read_ok then (Err (Io (msg "read WAL" [])), w)
  else
    match scan_log (wal_bytes w) with
    | Err e => (Err e, w)
    | Ok k =>
        if truncate_torn_tail && negb (k_valid_length k =? len (wal_bytes w)) then
          if truncate_ok then (Ok (recovery_of k), sync_file (set_len w (k_valid_length k)))
          else (Err (Io (msg "truncate torn WAL tail" [])), w)
        else (Ok (recovery_of k), w)
    end.

(** [Wal::open]: an empty file gets its header first. *)
Definition open (w : Wal) (init_ok read_ok truncate_ok : bool) : result StoreError Recovery * Wal :=
  if len (wal_bytes w) =? 0 then
    if init_ok then recover (sync_file (set_bytes w wal_header 0)) true read_ok truncate_ok
    else (Err (Io (msg "initialize WAL" [])), w)
  else recover w true read_ok truncate_ok.

(** [recover_read_only]: a missing file is an empty log. *)
Definition recover_read_only (file : option (list byte)) (read_ok : bool)
    : result StoreError Recovery :=
  match file with
  | None => Ok {| rec_batches := []; rec_last_sequence := 0; rec_last_commit := None |}
  | Some bytes =>
      (recover {| wal_bytes := bytes; wal_synced := len bytes; wal_sync_policy := Off |}
         false read_ok true).1
  end.

(** ** Specification: a log is a list of entries *)

Inductive entry : Type :=
| EBatch (batch : RecoveredBatch)
| ECommit (sequence version : Z).

Definition entry_sequence (e : entry) : Z :=
  match e with EBatch b => rb_sequence b | ECommit s _ => s end.

(** The entry a payload reads as. *)
Definition read_entry (payload : list byte) : option entry :=
  match decode_commit payload with
  | Some (s, v) => Some (ECommit s v)
  | None => match decode_batch payload with Ok b => Some (EBatch b) | Err _ => None end
  end.

Definition log_of (payloads : list (list byte)) : list byte :=
  wal_header ++ concat (map write_record payloads).

(** Payloads that read as [es], in increasing sequence above [last]. *)
Inductive entries_from (last : Z) : list (list byte) -> list entry -> Prop :=
| entries_nil : entries_from last [] []
| entries_cons p e ps es :
    len p <= u32_max -> read_entry p = Some e -> last < entry_sequence e ->
    entries_from (entry_sequence e) ps es -> entries_from last (p :: ps) (e :: es).

(** What replaying the entries of a log gives, offsets included. *)
Definition replay_entry (k : walk) (pe : list byte * entry) : walk :=
  let stop := k_position k + 12 + len pe.1 in
  match pe.2 with
  | EBatch b => {| k_position := stop; k_valid_length := stop; k_batches := k_batches k ++ [b];
                   k_last_sequence := rb_sequence b; k_last_commit := k_last_commit k |}
  | ECommit s v => {| k_position := stop; k_valid_length := stop; k_batches := k_batches k;
                      k_last_sequence := s;
                      k_last_commit := Some {| wc_batches := len (k_batches k); wc_sequence := s;
                                               wc_version := v; wc_end_offset := stop |} |}
  end.

Definition replay (payloads : list (list byte)) (es : list entry) : walk :=
  foldl replay_entry walk_start (zip payloads es).

(** A tail that holds no complete record: too short for a length prefix, or for
    the record its length prefix announces. *)
Definition short (tail : list byte) : Prop :=
  len tail < 4 \/ len tail < 12 + from_le (take 4 tail).

(** ** Lemmas on the record walk *)

Lemma len_write_record p : len (write_record p) = 12 + len p.
Proof. unfold write_record. len_lia. Qed.

Lemma get_range_at {A} (pre mid post : list A) s e :
  s = len pre -> e = s + len mid -> get_range (pre ++ mid ++ post) s e = Some mid.
Proof. intros -> ->. now apply get_range_app. Qed.

Lemma from_le_u32 v : 0 <= v <= u32_max -> from_le (to_le 4 v) = v.
Proof. intros Hv. rewrite from_to_le. apply Z.mod_small. unfold u32_max in Hv. simpl. lia. Qed.

Lemma from_le_u64 v : is_u64 v = true -> from_le (to_le 8 v) = v.
Proof. intros [? ?]%in_unsigned_spec. rewrite from_to_le. apply Z.mod_small. simpl. lia. Qed.

Lemma walk_step_record pre p post k :
  k_position k = len pre -> len p <= u32_max -> len (pre ++ write_record p ++ post) < 2 ^ 63 ->
  walk_step (pre ++ write_record p ++ post) k =
    accept_record k (len pre) (len pre + 12 + len p) p.
Proof.
  intros Hk Hp Hl. rewrite !len_app, len_write_record in Hl.
  pose proof (len_nonneg pre). pose proof (len_nonneg post). pose proof (len_nonneg p).
  unfold walk_step. rewrite Hk. unfold write_record. rewrite <- !app_assoc.
  rewrite get_range_at by (rewrite ?len_to_le; lia). rewrite from_le_u32 by lia.
  unfold checked_add, CHECKSUM_LENGTH.
  destruct (Z.ltb_spec (len pre + 4 + len p) (2 ^ 64)); [|lia].
  destruct (Z.ltb_spec (len pre + 4 + len p + 8) (2 ^ 64)); [|lia].
  rewrite !len_app, !len_to_le. destruct (Z.ltb_spec (len pre + (Z.of_nat 4 + (len p + (Z.of_nat 8 + len post))))
    (len pre + 4 + len p + 8)); [lia|].
  rewrite (app_assoc pre). rewrite get_range_at by (rewrite ?len_app, ?len_to_le; lia).
  rewrite (app_assoc _ p). rewrite get_range_at by (rewrite ?len_app, ?len_to_le; lia).
  rewrite from_le_u64 by apply xxh3_64_range. rewrite Z.eqb_refl. simpl. f_equal. lia.
Qed.

Lemma walk_step_short pre tail k :
  k_position k = len pre -> short tail -> len (pre ++ tail) < 2 ^ 63 ->
  walk_step (pre ++ tail) k = Break.
Proof.
  intros Hk Hs Hl. rewrite len_app in Hl. unfold walk_step. rewrite Hk.
  pose proof (len_nonneg pre). pose proof (len_nonneg tail).
  destruct (get_range _ _ _) as [lb|] eqn:E; [|easy].
  apply get_range_Some in E as (pre' & post & E & Hpre & Hlb).
  apply app_inj_1 in E as [<- ->]; [|unfold len in Hpre; lia].
  assert (take 4 (lb ++ post) = lb) as Ht.
  { rewrite take_app_length'; [easy|]. unfold len in Hlb. lia. }
  pose proof (from_le_range lb) as Hr. assert (len lb = 4) as Hlb4 by lia. rewrite Hlb4 in Hr.
  unfold short in Hs. rewrite Ht in Hs. unfold checked_add, CHECKSUM_LENGTH.
  rewrite len_app in *. change (2 ^ (8 * 4)) with 4294967296 in Hr.
  destruct (Z.ltb_spec (len pre + 4 + from_le lb) (2 ^ 64)); [|lia].
  destruct (Z.ltb_spec (len pre + 4 + from_le lb + 8) (2 ^ 64)); [|lia].
  rewrite len_app. destruct (Z.ltb_spec (len pre + (len lb + len post)) (len pre + 4 + from_le lb + 8)); [easy|].
  pose proof (len_nonneg post). lia.
Qed.

(** A step that goes on read one complete record. *)
Lemma walk_step_continue pre rest k k' :
  k_position k = len pre -> walk_step (pre ++ rest) k = Continue k' ->
  exists p post, rest = write_record p ++ post /\ len p <= u32_max /\
    accept_record k (len pre) (len pre + 12 + len p) p = Continue k'.
Proof.
  intros Hk. unfold walk_step. rewrite Hk.
  destruct (get_range _ _ (len pre + 4)) as [lb|] eqn:E1; [|discriminate].
  unfold checked_add, CHECKSUM_LENGTH. destruct (_ <? _); [|discriminate].
  destruct (_ <? _); [|discriminate]. destruct (_ <? _); [discriminate|].
  destruct (get_range _ (len pre + 4) _) as [p|] eqn:E2; [|discriminate].
  destruct (get_range _ _ (_ + 8)) as [cs|] eqn:E3; [|discriminate].
  destruct (Z.eqb_spec (xxh3_64 p) (from_le cs)) as [Hx|]; [cbn [negb]|discriminate].
  apply get_range_Some in E1 as (pre1 & post1 & E1 & Hp1 & Hl1).
  apply app_inj_1 in E1 as [<- ->]; [|unfold len in Hp1; lia].
  apply get_range_Some in E2 as (pre2 & post2 & E2 & Hp2 & Hl2). rewrite app_assoc in E2.
  apply app_inj_1 in E2 as [<- ->]; [|unfold len in *; rewrite length_app; lia].
  apply get_range_Some in E3 as (pre3 & post3 & E3 & Hp3 & Hl3). rewrite !app_assoc in E3.
  rewrite <- (app_assoc _ cs) in E3.
  apply app_inj_1 in E3 as [<- ->]; [|unfold len in *; rewrite !length_app; lia].
  intros Ha. exists p, post3. pose proof (from_le_range lb) as Hr.
  assert (len lb = 4) as Hlb by lia. rewrite Hlb in Hr. change (2 ^ (8 * 4)) with 4294967296 in Hr.
  assert (len p = from_le lb) as Hlp by lia. split; [|split].
  - unfold write_record. rewrite Hlp, Hx. rewrite (to_from_le lb 4 Hlb), (to_from_le cs 8) by lia.
    now rewrite <- !app_assoc.
  - unfold u32_max. lia.
  - rewrite <- Ha. f_equal. lia.
Qed.

Lemma walk_step_break pre rest k :
  k_position k = len pre -> len (pre ++ rest) < 2 ^ 63 -> walk_step (pre ++ rest) k = Break -> short rest.
Proof.
  intros Hk Hl. unfold walk_step. rewrite Hk. rewrite len_app in *. pose proof (len_nonneg pre).
  pose proof (len_nonneg rest).
  destruct (get_range _ _ (len pre + 4)) as [lb|] eqn:E1.
  2:{ intros _. left. apply get_range_None in E1. rewrite len_app in E1. lia. }
  apply get_range_Some in E1 as (pre1 & post1 & E1 & Hp1 & Hl1).
  apply app_inj_1 in E1 as [<- ->]; [|unfold len in Hp1; lia].
  assert (take 4 (lb ++ post1) = lb) as Ht.
  { rewrite take_app_length'; [easy|]. unfold len in Hl1. lia. }
  unfold checked_add, CHECKSUM_LENGTH. destruct (_ <? _); [|discriminate].
  destruct (_ <? _); [|discriminate]. rewrite !len_app in *.
  pose proof (from_le_range lb) as Hr.
  destruct (Z.ltb_spec (len pre + (len lb + len post1)) (len pre + 4 + from_le lb + 8)) as [Hs|Hs].
  { intros _. right. rewrite Ht, len_app. lia. }
  destruct (get_range _ (len pre + 4) _) eqn:E2;
    [|apply get_range_None in E2; rewrite !len_app in E2; lia].
  destruct (get_range _ _ (_ + 8)) eqn:E3; [|apply get_range_None in E3; rewrite !len_app in E3; lia].
  destruct (negb _); [discriminate|]. unfold accept_record.
  destruct (decode_commit _) as [[]|]; [destruct (_ <=? _); discriminate|].
  destruct (decode_batch _); [destruct (_ <=? _)|]; discriminate.
Qed.

Lemma accept_record_entry k p e :
  read_entry p = Some e -> k_last_sequence k < entry_sequence e ->
  accept_record k (k_position k) (k_position k + 12 + len p) p = Continue (replay_entry k (p, e)).
Proof.
  unfold read_entry, accept_record, replay_entry. destruct (decode_commit p) as [[s v]|].
  - intros [= <-]. simpl. destruct (Z.leb_spec s (k_last_sequence k)); [lia|easy].
  - destruct (decode_batch p); [|discriminate]. intros [= <-]. simpl.
    destruct (Z.leb_spec (rb_sequence a) (k_last_sequence k)); [lia|easy].
Qed.

Lemma accept_record_continue k p k' :
  accept_record k (k_position k) (k_position k + 12 + len p) p = Continue k' ->
  exists e, read_entry p = Some e /\ k_last_sequence k < entry_sequence e /\ k' = replay_entry k (p, e).
Proof.
  unfold read_entry, accept_record, replay_entry. destruct (decode_commit p) as [[s v]|].
  - destruct (Z.leb_spec s (k_last_sequence k)); intros [= <-]. now exists (ECommit s v).
  - destruct (decode_batch p) as [b|]; [|discriminate].
    destruct (Z.leb_spec (rb_sequence b) (k_last_sequence k)); intros [= <-]. now exists (EBatch b).
Qed.

Lemma replay_entry_facts k p e :
  k_position (replay_entry k (p, e)) = k_position k + 12 + len p /\
  k_valid_length (replay_entry k (p, e)) = k_position (replay_entry k (p, e)) /\
  k_last_sequence (replay_entry k (p, e)) = entry_sequence e.
Proof. unfold replay_entry. destruct e; simpl; auto. Qed.

(** The loop replays a list of entries and stops at a tail without a record. *)
Lemma walk_loop_entries ps es pre tail k fuel :
  k_position k = len pre -> entries_from (k_last_sequence k) ps es -> short tail ->
  len (pre ++ concat (map write_record ps) ++ tail) < 2 ^ 63 -> (length ps < fuel)%nat ->
  walk_loop fuel (pre ++ concat (map write_record ps) ++ tail) k =
    Some (Ok (foldl replay_entry k (zip ps es))).
Proof.
  revert es pre k fuel. induction ps as [|p ps IH]; intros es pre k [|fuel] Hk He Hs Hl Hf;
    cbn [length] in Hf; try lia; inversion He as [|? e ? es' ? ? ? ?]; subst; clear He; cbn [walk_loop map concat zip zip_with foldl] in *.
  - rewrite app_nil_l in *. destruct (_ <? _); [|easy]. now rewrite walk_step_short.
  - rewrite <- app_assoc in *. rewrite Hk.
    destruct (Z.ltb_spec (len pre) (len (pre ++ write_record p ++ concat (map write_record ps) ++ tail))) as [|Hlt].
    2:{ rewrite !len_app, len_write_record in Hlt. len_lia. }
    rewrite walk_step_record, <- Hk, (accept_record_entry k p e) by auto.
    destruct (replay_entry_facts k p e) as (Hp' & _ & Hseq).
    rewrite app_assoc. apply IH; auto.
    + rewrite Hp', Hk, len_app, len_write_record. lia.
    + now rewrite Hseq.
    + now rewrite <- app_assoc.
    + lia.
Qed.

(** Conversely, whatever the loop accepts is a list of entries and such a tail. *)
Lemma walk_loop_sound fuel pre rest k k' :
  k_position k = len pre -> len (pre ++ rest) < 2 ^ 63 ->
  walk_loop fuel (pre ++ rest) k = Some (Ok k') ->
  exists ps es tail, rest = concat (map write_record ps) ++ tail /\
    entries_from (k_last_sequence k) ps es /\ short tail /\ k' = foldl replay_entry k (zip ps es).
Proof.
  revert pre rest k. induction fuel as [|fuel IH]; intros pre rest k Hk Hl; simpl; [discriminate|].
  destruct (Z.ltb_spec (k_position k) (len (pre ++ rest))) as [Hlt|Hge].
  - destruct (walk_step (pre ++ rest) k) as [k1| |e] eqn:E; [| |discriminate].
    + intros Hloop. destruct (walk_step_continue _ _ _ _ Hk E) as (p & post & -> & Hp & Ha).
      rewrite <- Hk in Ha. destruct (accept_record_continue _ _ _ Ha) as (e & He & Hseq & ->).
      destruct (replay_entry_facts k p e) as (Hp' & _ & Hs').
      rewrite app_assoc in Hloop, Hl. apply IH in Hloop as (ps & es & tail & -> & Hes & Hsh & ->); [|
        rewrite Hp', Hk, len_app, len_write_record; lia | easy].
      exists (p :: ps), (e :: es), tail. cbn [map concat zip zip_with foldl]. rewrite <- app_assoc. rewrite Hs' in Hes.
      split; [easy|]. split; [now constructor|]. now split.
    + intros [= <-]. exists [], [], rest. split; [easy|]. split; [constructor|]. split; [|easy].
      eapply walk_step_break; eauto.
  - intros [= <-]. exists [], [], rest. rewrite len_app in Hge. split; [easy|]. split; [constructor|].
    split; [left; lia|easy].
Qed.

(** The loop never runs out of fuel: each turn that goes on passes a record. *)
Lemma walk_loop_total fuel pre rest k :
  k_position k = len pre -> len rest < Z.of_nat fuel -> walk_loop fuel (pre ++ rest) k <> None.
Proof.
  revert pre rest k. induction fuel as [|fuel IH]; intros pre rest k Hk Hf; simpl.
  { pose proof (len_nonneg rest). lia. }
  destruct (_ <? _); [|easy]. destruct (walk_step (pre ++ rest) k) as [k1| |e] eqn:E; [|easy..].
  destruct (walk_step_continue _ _ _ _ Hk E) as (p & post & -> & Hp & Ha).
  rewrite <- Hk in Ha. destruct (accept_record_continue _ _ _ Ha) as (e & _ & _ & ->).
  destruct (replay_entry_facts k p e) as (Hp' & _ & _). rewrite app_assoc. apply IH.
  - rewrite Hp', Hk, len_app, len_write_record. lia.
  - rewrite len_app, len_write_record in Hf. pose proof (len_nonneg p). lia.
Qed.

End wal.

Section wal_log.
Context `{Checksum}.

Lemma len_wal_header : len wal_header = 6.
Proof. reflexivity. Qed.

Lemma entries_from_length last ps es : entries_from last ps es -> length ps = length es.
Proof. induction 1; simpl; auto. Qed.

Lemma entries_from_take last ps es m :
  entries_from last ps es -> entries_from last (take m ps) (take m es).
Proof. intros He. revert m. induction He; intros [|m]; simpl; constructor; auto. Qed.

Lemma entries_from_app last ps es p e :
  entries_from last ps es -> len p <= u32_max -> read_entry p = Some e ->
  foldl (fun _ e => entry_sequence e) last es < entry_sequence e ->
  entries_from last (ps ++ [p]) (es ++ [e]).
Proof. induction 1; simpl; intros; repeat constructor; auto. Qed.

Lemma foldl_replay_position k ps es :
  length ps = length es ->
  k_position (foldl replay_entry k (zip ps es)) = k_position k + len (concat (map write_record ps)).
Proof.
  revert k es. induction ps as [|p ps IH]; intros k [|e es] Hl; try discriminate Hl;
    cbn [map concat zip zip_with foldl]; [len_lia|].
  rewrite IH by (simpl in Hl; lia). destruct (replay_entry_facts k p e) as (-> & _).
  rewrite len_app, len_write_record. lia.
Qed.

Lemma foldl_replay_valid_length k pes :
  k_valid_length k = k_position k ->
  k_valid_length (foldl replay_entry k pes) = k_position (foldl replay_entry k pes).
Proof.
  revert k. induction pes as [|[p e] pes IH]; intros k Hk; simpl; auto.
  apply IH. apply replay_entry_facts.
Qed.

Lemma foldl_replay_sequence k ps es :
  length ps = length es ->
  k_last_sequence (foldl replay_entry k (zip ps es)) =
    foldl (fun _ e => entry_sequence e) (k_last_sequence k) es.
Proof.
  revert k es. induction ps as [|p ps IH]; intros k [|e es] Hl; try discriminate Hl;
    cbn [zip zip_with foldl]; [easy|].
  rewrite IH by (simpl in Hl; lia). now destruct (replay_entry_facts k p e) as (_ & _ & ->).
Qed.

Lemma replay_valid_length ps es :
  length ps = length es -> k_valid_length (replay ps es) = len (log_of ps).
Proof.
  intros Hl. unfold replay. rewrite foldl_replay_valid_length by easy.
  rewrite foldl_replay_position by easy. unfold log_of. now rewrite len_app.
Qed.

Lemma header_ok_app rest : header_ok (wal_header ++ rest) = true.
Proof. unfold header_ok. apply bool_decide_eq_true. now rewrite take_app_length'. Qed.

Lemma header_ok_spec bytes : header_ok bytes = true -> exists rest, bytes = wal_header ++ rest.
Proof.
  unfold header_ok. intros E%bool_decide_eq_true. exists (drop 6 bytes). rewrite <- E. now rewrite take_drop.
Qed.

Lemma len_concat_records ps : 12 * len ps <= len (concat (map write_record ps)).
Proof.
  induction ps as [|p ps IH]; cbn [map concat]; [len_lia|].
  rewrite len_cons, len_app, len_write_record. pose proof (len_nonneg p). lia.
Qed.

Lemma scan_log_entries ps es tail :
  entries_from 0 ps es -> short tail -> len (log_of ps ++ tail) < 2 ^ 63 ->
  scan_log (log_of ps ++ tail) = Ok (replay ps es).
Proof.
  intros He Hs Hl. unfold scan_log, log_of in *. rewrite <- app_assoc in *.
  rewrite header_ok_app. cbn [negb].
  rewrite (walk_loop_entries ps es wal_header tail walk_start); auto.
  pose proof (len_concat_records ps). unfold len in *. rewrite !length_app. lia.
Qed.

Lemma scan_log_sound bytes k :
  len bytes < 2 ^ 63 -> scan_log bytes = Ok k ->
  exists ps es tail, bytes = log_of ps ++ tail /\ entries_from 0 ps es /\ short tail /\
    k = replay ps es.
Proof.
  unfold scan_log. destruct (header_ok bytes) eqn:Eh; [cbn [negb]|discriminate].
  apply header_ok_spec in Eh as [rest ->]. intros Hl.
  destruct (walk_loop _ _ _) as [[k'|]|] eqn:E; try discriminate. intros [= <-].
  destruct (walk_loop_sound _ wal_header rest walk_start _ eq_refl Hl E)
    as (ps & es & tail & -> & He & Hs & ->).
  exists ps, es, tail. unfold log_of. rewrite <- app_assoc. auto.
Qed.

(** A proper prefix of a record is no record. *)
Lemma prefix_short p tail rest :
  len p <= u32_max -> write_record p = tail ++ rest -> rest <> [] -> short tail.
Proof.
  intros Hp Hw Hr. unfold short. destruct (Z.lt_ge_cases (len tail) 4); [now left|]. right.
  assert (Hlen : len tail + len rest = 12 + len p) by (rewrite <- len_app, <- Hw; apply len_write_record).
  assert (0 < len rest) by (destruct rest; [easy|]; len_lia).
  replace (take 4 tail) with (to_le 4 (len p)).
  - rewrite from_le_u32 by (pose proof (len_nonneg p); lia). lia.
  - assert (take 4 (write_record p) = to_le 4 (len p)) as <- by
      (unfold write_record; now rewrite take_app_length').
    rewrite Hw, take_app_le; [easy|]. unfold len in *. lia.
Qed.

Lemma record_prefix_short p n : len p <= u32_max -> (n < length (write_record p))%nat -> short (take n (write_record p)).
Proof.
  intros Hp Hlt. apply (prefix_short p _ (drop n (write_record p))); [easy|now rewrite take_drop|].
  intros E%(f_equal length). rewrite length_drop in E. cbn [length] in E. lia.
Qed.

(** Cutting a sequence of records anywhere leaves whole records and a short tail. *)
Lemma cut_records ps n :
  Forall (fun p => len p <= u32_max) ps -> (n <= length (concat (map write_record ps)))%nat ->
  exists m tail, (m <= length ps)%nat /\ short tail /\
    take n (concat (map write_record ps)) = concat (map write_record (take m ps)) ++ tail /\
    ((m < length ps)%nat -> (n < length (concat (map write_record (take (S m) ps))))%nat).
Proof.
  intros Hf. revert n. induction Hf as [|p ps Hp Hf IH]; intros n Hn; cbn [map concat] in *.
  { exists 0%nat, []. split; [easy|]. split; [left; now rewrite len_nil|].
    split; [destruct n; easy|simpl; lia]. }
  destruct (Nat.lt_ge_cases n (length (write_record p))) as [Hlt|Hge].
  - exists 0%nat, (take n (write_record p)). split; [simpl; lia|]. split; [|split].
    + now apply record_prefix_short.
    + cbn [take map concat]. rewrite app_nil_l. now rewrite take_app_le by lia.
    + intros _. cbn [take map concat]. rewrite app_nil_r. lia.
  - destruct (IH (n - length (write_record p))%nat) as (m & tail & Hm & Hs & Et & Hmax).
    { rewrite length_app in Hn. lia. }
    exists (S m), tail. split; [simpl; lia|]. split; [easy|]. split.
    + cbn [take map concat]. rewrite take_app_ge by lia. rewrite Et. now rewrite app_assoc.
    + intros Hlt. cbn [length] in Hlt. specialize (Hmax ltac:(lia)).
      change (take (S (S m)) (p :: ps)) with (p :: take (S m) ps). cbn [map concat].
      rewrite length_app. lia.
Qed.

Lemma entries_from_sizes last ps es : entries_from last ps es -> Forall (fun p => len p <= u32_max) ps.
Proof. induction 1; constructor; auto. Qed.

(** A file cut anywhere past its header recovers the complete records. *)
Lemma recover_cut ps es n w :
  entries_from 0 ps es -> HEADER_LENGTH <= n <= len (log_of ps) -> len (log_of ps) < 2 ^ 63 ->
  wal_bytes w = take (Z.to_nat n) (log_of ps) ->
  exists m w', recover w true true true = (Ok (recovery_of (replay (take m ps) (take m es))), w') /\
    wal_bytes w' = log_of (take m ps) /\ len (log_of (take m ps)) <= n /\
    ((m < length ps)%nat -> n < len (log_of (take (S m) ps))).
Proof.
  intros He [Hn1 Hn2] Hl Hw. unfold HEADER_LENGTH in *.
  destruct (cut_records ps (Z.to_nat n - 6)) as (m & tail & Hm & Hs & Et & Hmax).
  { eapply entries_from_sizes; eauto. }
  { unfold log_of in Hn2. rewrite len_app, len_wal_header in Hn2. unfold len in Hn2. lia. }
  assert (Hb : wal_bytes w = log_of (take m ps) ++ tail).
  { rewrite Hw. unfold log_of. rewrite take_app_ge by (change (length wal_header) with 6%nat; lia).
    change (length wal_header) with 6%nat. now rewrite Et, app_assoc. }
  assert (Hlb : len (wal_bytes w) = n) by (rewrite Hw; unfold len in *; rewrite length_take; lia).
  pose proof (entries_from_take _ _ _ m He) as Hem.
  unfold recover. cbn [negb]. rewrite Hb, (scan_log_entries _ _ _ Hem Hs) by (rewrite <- Hb; lia).
  rewrite replay_valid_length by (eapply entries_from_length; eauto).
  assert (Hsplit : n = len (log_of (take m ps)) + len tail) by (now rewrite <- len_app, <- Hb).
  pose proof (len_nonneg tail). exists m. cbn [andb].
  assert (Hmax' : (m < length ps)%nat -> n < len (log_of (take (S m) ps))).
  { intros Hlt%Hmax. unfold log_of. rewrite len_app, len_wal_header. unfold len. lia. }
  destruct (Z.eqb_spec (len (log_of (take m ps))) (len (log_of (take m ps) ++ tail))) as [Heq|Hne]; cbn [negb].
  - eexists. split; [reflexivity|]. rewrite Hb. rewrite len_app in Heq.
    assert (tail = []) as -> by (destruct tail; [easy|]; len_lia). rewrite app_nil_r. split; [easy|]. split; [lia|easy].
  - eexists. split; [reflexivity|]. unfold sync_file, set_len, set_bytes; cbn [wal_bytes].
    rewrite Hb, len_to_nat, take_app_length. split; [easy|]. split; [lia|easy].
Qed.

End wal_log.

(** ** Lemmas on payloads *)

Section wal_payloads.

(** The column a recovered batch names for a schema column. *)
Definition wal_column (c : Column) : WalColumn :=
  {| wc_id := col_id c; wc_data_type := storage_type (col_data_type c) |}.

Lemma decodes_data_type t :
  is_u8 (encode_data_type t) = true /\
  decodes (decode_data_type (encode_data_type t)) [] (storage_type t).
Proof. unfold encode_data_type. destruct t; simpl; split; try reflexivity; apply decodes_ret. Qed.

Lemma decodes_wal_column c :
  is_u32 (col_id c) = true ->
  decodes decode_wal_column (to_le 4 (col_id c) ++ to_le 1 (encode_data_type (col_data_type c))) (wal_column c).
Proof.
  intros Hc. destruct (decodes_data_type (col_data_type c)) as [Ht Hd].
  unfold decode_wal_column. eapply decodes_bind; [now apply decodes_u32|].
  eapply decodes_bind_ret; [now apply decodes_u8|]. eapply decodes_bind_ret; [exact Hd|]. apply decodes_ret.
Qed.

Lemma encode_wal_columns e cs :
  forallb (fun c => is_u32 (col_id c)) cs = true ->
  exists bs, fold_result encode_wal_column e cs = Ok (e ++ bs) /\ len bs = 5 * len cs /\
    decodes (dec_repeat (length cs) decode_wal_column) bs (map wal_column cs).
Proof.
  revert e; induction cs as [|c cs IH]; intros e; cbn [forallb fold_result].
  - intros _. exists []. rewrite app_nil_r. split; [easy|]. split; [easy|]. apply decodes_ret.
  - intros [Hc Hcs]%andb_prop. unfold mbind, result_bind.
    change (encode_wal_column e c) with
      (@Ok StoreError _ (enc_u8 (enc_u32 e (col_id c)) (encode_data_type (col_data_type c)))).
    cbv beta iota. destruct (IH (enc_u8 (enc_u32 e (col_id c)) (encode_data_type (col_data_type c))) Hcs)
      as (bs & -> & Hl & Hd).
    exists ((to_le 4 (col_id c) ++ to_le 1 (encode_data_type (col_data_type c))) ++ bs).
    unfold enc_u8, enc_u32. rewrite <- !app_assoc. split; [easy|].
    split; [rewrite !len_app, !len_to_le, len_cons; lia|]. rewrite app_assoc.
    cbn [length dec_repeat map]. eapply decodes_bind; [now apply decodes_wal_column|].
    eapply decodes_bind_ret; [exact Hd|]. apply decodes_ret.
Qed.

Definition value_fitsb (t : DataType) (v : Value) : bool :=
  match data_type v with Some u => accepts t u | None => true end.

(** A row that [row_matches] lets through, before or after the codec. *)
Definition row_fits (cols : list WalColumn) (r : StoredRow) : bool :=
  (len (row_values r) =? len cols) &&
  forallb (fun cv => value_fitsb (wc_data_type cv.1) cv.2) (zip cols (row_values r)).

Lemma find_none_forallb {A} (f : A -> bool) l :
  List.find f l = None <-> forallb (fun a => negb (f a)) l = true.
Proof. induction l as [|a l IH]; simpl; [easy|]. destruct (f a); simpl; [easy|]. apply IH. Qed.

Lemma durable_value_type v : data_type (durable_value v) = data_type v.
Proof. now destruct v. Qed.

Lemma zip_map_r {A B C} (f : B -> C) (xs : list A) ys :
  zip xs (map f ys) = map (fun p => (p.1, f p.2)) (zip xs ys).
Proof.
  revert ys; induction xs as [|x xs IH]; intros [|y ys]; simpl; auto. f_equal. apply IH.
Qed.

Lemma forallb_map {A B} (f : B -> bool) (g : A -> B) l : forallb f (map g l) = forallb (fun a => f (g a)) l.
Proof. induction l; simpl; f_equal; auto. Qed.

Lemma forallb_ext {A} (f g : A -> bool) l : (forall a, f a = g a) -> forallb f l = forallb g l.
Proof. intros E. induction l; simpl; f_equal; auto. Qed.

Lemma row_fits_durable cols r : row_fits cols (durable_row r) = row_fits cols r.
Proof.
  unfold row_fits, durable_row; cbn [row_values]. rewrite len_map, zip_map_r, forallb_map. f_equal.
  apply forallb_ext. intros [c v]. unfold value_fitsb; simpl. now rewrite durable_value_type.
Qed.

Lemma durable_row_idem r : durable_row (durable_row r) = durable_row r.
Proof.
  unfold durable_row. cbn [row_key row_values row_version row_deleted]. f_equal. rewrite map_map. apply map_ext. now intros [].
Qed.

Lemma durable_row_wf r : stored_row_wf r = true -> stored_row_wf (durable_row r) = true.
Proof.
  unfold stored_row_wf. intros [[Hk Hv]%andb_prop Hn]%andb_prop. cbn [durable_row row_key row_values row_version].
  rewrite Hk, Hn, forallb_map, andb_true_r. cbn. rewrite forallb_forall in Hv |- *. intros v Hin%Hv.
  destruct v as [| | | | | | |q|i l]; cbn in *; try easy; [now apply andb_prop in Hin as [[[Hin _]%andb_prop _]%andb_prop _]|now apply andb_prop in Hin].
Qed.

Lemma validate_durable schema r : validate_row schema (durable_row r) = validate_row schema r.
Proof.
  unfold validate_row. cbn [durable_row row_values]. rewrite len_map, zip_map_r. destruct (negb _); [easy|]. generalize tt.
  induction (zip (schema_columns schema) (row_values r)) as [|[c v] l IH]; intros u; [easy|]. cbn [map fold_result fst snd].
  unfold check_value. rewrite durable_value_type. unfold mbind, result_bind. destruct (match data_type v with Some _ => _ | None => _ end); [apply IH|easy].
Qed.

Lemma row_matches_fits cols r : row_fits cols r = true -> decodes (row_matches cols r) [] tt.
Proof.
  unfold row_fits, row_matches. intros [-> Hf]%andb_prop. cbn [negb].
  destruct (List.find _ _) eqn:E; [|apply decodes_ret].
  exfalso. apply List.find_some in E as [Hin Hx].
  rewrite List.forallb_forall in Hf. specialize (Hf _ Hin). unfold value_fitsb in Hf.
  destruct (data_type p.2); [|discriminate]. rewrite Hf in Hx. discriminate.
Qed.

#[export] Instance batch_row_codec cols :
  Codec encode_row (decode_batch_row cols) (fun r => stored_row_wf r && row_fits cols r) durable_row 4.
Proof.
  intros e r e' [Hw Hf]%andb_prop He. destruct (row_codec _ _ _ Hw He) as (bs & -> & Hl & Hd).
  exists bs. split; [easy|]. split; [easy|]. unfold decode_batch_row.
  eapply decodes_bind_ret; [exact Hd|].
  eapply decodes_bind_ret; [apply row_matches_fits; now rewrite row_fits_durable|]. apply decodes_ret.
Qed.

Lemma validated_row_fits schema r :
  validate_row schema r = Ok tt -> row_fits (map wal_column (schema_columns schema)) r = true.
Proof.
  unfold validate_row, row_fits. rewrite len_map.
  destruct (Z.eqb_spec (len (row_values r)) (len (schema_columns schema))) as [E|]; [|discriminate].
  cbn [negb andb]. generalize dependent (row_values r). generalize (schema_columns schema).
  intros cs. induction cs as [|c cs IH]; intros [|v vs] El; try (intros; easy).
  cbn [zip zip_with map fold_result forallb fst snd]. unfold mbind, result_bind.
  destruct (check_value c v) as [[]|] eqn:Ec; [|discriminate]. intros Hv.
  rewrite (IH vs) by (easy || (rewrite !len_cons in El; lia)). rewrite andb_true_r.
  apply check_value_ok in Ec. unfold value_fits, value_fitsb in *. destruct (data_type v); [|easy].
  unfold accepts; simpl. apply bool_decide_eq_true. now rewrite storage_type_idemp.
Qed.

(** What the Rust types of a batch's parts enforce. *)
Definition batch_wf (sequence table_id : Z) (schema : TableSchema) (rows : list StoredRow) : bool :=
  is_u64 sequence && is_u64 table_id && is_u32 (schema_version schema) &&
  forallb (fun c => is_u32 (col_id c)) (schema_columns schema) && forallb stored_row_wf rows.

(** The batch a log replays for what was appended. *)
Definition replayed_batch (sequence table_id : Z) (schema : TableSchema) (rows : list StoredRow)
    : RecoveredBatch := {|
  rb_sequence := sequence; rb_table_id := table_id;
  rb_columns := map wal_column (schema_columns schema); rb_rows := map durable_row rows
|}.

Lemma encode_batch_decodes sequence table_id schema rows payload :
  batch_wf sequence table_id schema rows = true ->
  Forall (fun r => validate_row schema r = Ok tt) rows ->
  encode_batch sequence table_id schema rows = Ok payload ->
  decodes decode_batch_body payload (replayed_batch sequence table_id schema rows) /\
  28 + 5 * len (schema_columns schema) <= len payload.
Proof.
  unfold batch_wf. intros [[[[Hs Ht]%andb_prop Hver]%andb_prop Hids]%andb_prop Hr]%andb_prop Hval.
  unfold encode_batch. intros He. unfold mbind, result_bind in He.
  destruct (enc_length _ (len (schema_columns schema)) _) as [e1|] eqn:E1; [|discriminate].
  apply enc_length_ok in E1 as [Hl1 ->].
  edestruct (encode_wal_columns) as (cb & Ec & Hlc & Hdc); [eassumption|]. rewrite Ec in He. clear Ec.
  destruct (enc_length _ (len rows) _) as [e2|] eqn:E2; [|discriminate].
  apply enc_length_ok in E2 as [Hl2 ->].
  assert (Hrows : forallb (fun r => stored_row_wf r &&
            row_fits (map wal_column (schema_columns schema)) r) rows = true).
  { apply List.forallb_forall. intros r Hin. apply andb_true_intro. split.
    - eapply List.forallb_forall in Hr; eauto.
    - apply validated_row_fits. rewrite List.Forall_forall in Hval. auto. }
  destruct (codec_list encode_row _ _ _ _ _ _ _ Hrows He) as (rb & -> & Hlr & Hdr).
  unfold enc_u32, enc_u64, encoder_new. rewrite app_nil_l, <- !app_assoc. split.
  2:{ rewrite !len_app, !len_to_le. pose proof (len_nonneg rb). pose proof (len_nonneg rows). lia. }
  unfold decode_batch_body. eapply decodes_bind; [now apply decodes_u64|].
  eapply decodes_bind; [now apply decodes_u64|]. eapply decodes_bind; [now apply decodes_u32|].
  rewrite <- (len_map wal_column). pose proof (len_nonneg rows). apply decodes_counted.
  - lia.
  - now rewrite len_map.
  - rewrite len_map. lia.
  - now rewrite length_map.
  - rewrite <- (len_map durable_row), <- (app_nil_r rb). apply decodes_counted.
    + lia.
    + now rewrite len_map.
    + rewrite len_map. lia.
    + now rewrite length_map.
    + apply decodes_ret.
Qed.

Lemma decodes_all {A} (m : Dec A) bs a :
  decodes m bs a -> len bs < 2 ^ 63 ->
  m (decoder_new bs) = (Ok a, {| dec_bytes := bs; dec_position := len bs; dec_base_offset := 0 |}).
Proof.
  intros Hd Hl. specialize (Hd [] [] 0). unfold cursor, past in Hd.
  rewrite app_nil_l, app_nil_r, len_nil, Z.add_0_l in Hd. now apply Hd.
Qed.

Lemma read_entry_batch sequence table_id schema rows payload :
  batch_wf sequence table_id schema rows = true ->
  Forall (fun r => validate_row schema r = Ok tt) rows ->
  encode_batch sequence table_id schema rows = Ok payload -> len payload < 2 ^ 63 ->
  read_entry payload = Some (EBatch (replayed_batch sequence table_id schema rows)).
Proof.
  intros Hwf Hval He Hl. destruct (encode_batch_decodes _ _ _ _ _ Hwf Hval He) as [Hd Hw].
  pose proof (len_nonneg (schema_columns schema)). unfold read_entry, decode_commit.
  destruct (Z.eqb_spec (len payload) (3 * 8)); [lia|]. cbn [negb]. unfold decode_batch.
  rewrite (decodes_all _ _ _ Hd Hl). unfold dec_finish. cbn [dec_position dec_bytes].
  now rewrite Z.eqb_refl.
Qed.

Lemma read_entry_commit sequence version :
  is_u64 sequence = true -> is_u64 version = true ->
  read_entry (encode_commit sequence version) = Some (ECommit sequence version).
Proof.
  intros Hs Hv. unfold read_entry, decode_commit.
  assert (Hl : len (encode_commit sequence version) = 24)
    by (unfold encode_commit, enc_u64, encoder_new; now rewrite !len_app, !len_to_le).
  rewrite Hl. cbn [negb Z.eqb Z.mul Pos.mul Pos.eqb Pos.add].
  assert (Hd : decodes decode_commit_body (encode_commit sequence version) (Some (sequence, version))).
  { unfold encode_commit, enc_u64, encoder_new. rewrite app_nil_l, <- app_assoc. unfold decode_commit_body.
    eapply decodes_bind; [now apply decodes_u64|]. eapply decodes_bind; [now apply decodes_u64|].
    rewrite Z.eqb_refl. cbn [negb]. eapply decodes_bind_ret; [now apply decodes_u64|]. apply decodes_ret. }
  rewrite (decodes_all _ _ _ Hd) by lia. unfold dec_finish. cbn [dec_position dec_bytes].
  now rewrite Z.eqb_refl.
Qed.

End wal_payloads.

(** ** The log under writes, failures and crashes *)

Section wal_machine.
Context `{Checksum}.

(** Whatever fails in an append, if the rollback can shorten the file then the file
    holds the record, or nothing of it. *)
Lemma rollback_bytes w0 extra offset synced io r w' :
  io_set_len io = true -> offset = len (wal_bytes w0) ->
  rollback_failed_append (set_bytes w0 (wal_bytes w0 ++ extra) synced) offset io = (r, w') ->
  wal_bytes w' = wal_bytes w0 /\ wal_sync_policy w' = wal_sync_policy w0 /\
  (wal_synced w' = Z.min synced (len (wal_bytes w0)) \/ wal_synced w' = len (wal_bytes w0)).
Proof.
  intros Hset -> . unfold rollback_failed_append. rewrite Hset. cbn [negb].
  unfold set_len, sync_file, set_bytes; cbn [wal_bytes wal_synced wal_sync_policy].
  rewrite len_to_nat, take_app_length.
  destruct (negb (io_seek_back io)); [intros [= <- <-]; auto|].
  destruct (bool_decide _); [intros [= <- <-]; auto|].
  destruct (negb (io_sync_all io)); intros [= <- <-]; auto.
Qed.

Lemma append_encoded_cases w p io r w' :
  io_set_len io = true -> append_encoded w p io = (r, w') ->
  wal_sync_policy w' = wal_sync_policy w /\
  match r with
  | Ok _ => len p <= MAX_RECORD_LENGTH /\ wal_bytes w' = wal_bytes w ++ write_record p /\
      (if bool_decide (wal_sync_policy w = Always) then wal_synced w' = len (wal_bytes w')
       else wal_synced w' = wal_synced w)
  | Err _ => wal_bytes w' = wal_bytes w /\
      (wal_synced w' = wal_synced w \/ wal_synced w' = Z.min (wal_synced w) (len (wal_bytes w)) \/
       wal_synced w' = len (wal_bytes w))
  end.
Proof.
  intros Hset. unfold append_encoded.
  destruct (io_failpoint io); cbn [negb]; [|intros [= <- <-]; auto].
  destruct (Z.ltb_spec MAX_RECORD_LENGTH (len p)); [intros [= <- <-]; auto|].
  destruct (_ <? _); [intros [= <- <-]; auto|].
  destruct (io_seek io); cbn [negb]; [|intros [= <- <-]; auto].
  unfold write_at_end. destruct (io_write io) as [n|].
  - destruct (rollback_failed_append _ _ _) as [r2 w2] eqn:E.
    apply rollback_bytes in E as (Hb & Hp & Hs); auto. destruct r2; intros [= <- <-]; intuition.
  - destruct (bool_decide (wal_sync_policy w = Always)) eqn:Ep.
    + destruct (io_sync_data io).
      * intros [= <- <-]. repeat split; auto.
      * destruct (rollback_failed_append _ _ _) as [r2 w2] eqn:E.
        apply rollback_bytes in E as (Hb & Hp & Hs); auto. destruct r2; intros [= <- <-]; intuition.
    + intros [= <- <-]. repeat split; auto.
Qed.

(** The log, the payloads acknowledged in it, and those known to be on disk. *)
Record world : Type := {
  wd_wal : Wal;
  wd_acked : list (list byte);
  wd_durable : list (list byte)
}.

(** One event: an append with any outcome of its filesystem calls, a sync, or a
    crash that keeps any part of the file past what is on disk, followed by the
    next open. *)
Inductive step : world -> world -> Prop :=
| step_append w p e io r wal' :
    read_entry p = Some e ->
    (forall es, entries_from 0 (wd_acked w) es -> foldl (fun _ e => entry_sequence e) 0 es < entry_sequence e) ->
    io_set_len io = true -> len (wal_bytes (wd_wal w) ++ write_record p) < 2 ^ 63 ->
    append_encoded (wd_wal w) p io = (r, wal') ->
    step w match r with
           | Ok _ => {| wd_wal := wal'; wd_acked := wd_acked w ++ [p];
                        wd_durable := if bool_decide (wal_sync_policy (wd_wal w) = Always)
                                      then wd_acked w ++ [p] else wd_durable w |}
           | Err _ => {| wd_wal := wal'; wd_acked := wd_acked w; wd_durable := wd_durable w |}
           end
| step_sync w fp ok wal' :
    sync (wd_wal w) fp ok = (Ok tt, wal') ->
    step w {| wd_wal := wal'; wd_acked := wd_acked w;
              wd_durable := if bool_decide (wal_sync_policy (wd_wal w) = Off)
                            then wd_durable w else wd_acked w |}
| step_crash w n ps es r wal' :
    HEADER_LENGTH <= n -> wal_synced (wd_wal w) <= n <= len (wal_bytes (wd_wal w)) ->
    open (set_bytes (wd_wal w) (take (Z.to_nat n) (wal_bytes (wd_wal w))) n) true true true = (Ok r, wal') ->
    entries_from 0 ps es -> r = recovery_of (replay ps es) -> wal_bytes wal' = log_of ps ->
    step w {| wd_wal := wal'; wd_acked := ps; wd_durable := ps |}.

Definition fresh_world (policy : WalSync) : world := {|
  wd_wal := {| wal_bytes := wal_header; wal_synced := len wal_header; wal_sync_policy := policy |};
  wd_acked := []; wd_durable := []
|}.

(** What holds between events. *)
Record world_ok (w : world) : Prop := {
  wo_bytes : wal_bytes (wd_wal w) = log_of (wd_acked w);
  wo_entries : exists es, entries_from 0 (wd_acked w) es;
  wo_size : len (wal_bytes (wd_wal w)) < 2 ^ 63;
  wo_synced : len (log_of (wd_durable w)) <= wal_synced (wd_wal w) <= len (wal_bytes (wd_wal w));
  wo_prefix : wd_durable w `prefix_of` wd_acked w;
  wo_always : wal_sync_policy (wd_wal w) = Always -> wd_durable w = wd_acked w
}.

Lemma log_of_snoc ps p : log_of (ps ++ [p]) = log_of ps ++ write_record p.
Proof. unfold log_of. rewrite map_app, concat_app. cbn [map concat]. now rewrite app_nil_r, app_assoc. Qed.

Lemma len_log_of_prefix ps qs : ps `prefix_of` qs -> len (log_of ps) <= len (log_of qs).
Proof.
  intros [k ->]. unfold log_of. rewrite map_app, concat_app, !len_app.
  pose proof (len_nonneg (concat (map write_record k))). lia.
Qed.

Lemma log_of_inj last ps qs es fs :
  entries_from last ps es -> entries_from last qs fs -> len (log_of ps) < 2 ^ 63 ->
  log_of ps = log_of qs -> ps = qs.
Proof.
  intros He. revert qs fs. unfold log_of. 
  induction He as [last|last p e ps es Hp Hr Hs He IH]; intros qs fs Hf Hl E;
    inversion Hf as [|q f qs' fs' Hq Hrf Hsf Hf']; subst; auto; cbn [map concat] in *.
  - apply (f_equal len) in E. rewrite !len_app, len_write_record in E. len_lia.
  - apply (f_equal len) in E. rewrite !len_app, len_write_record in E. len_lia.
  - apply app_inv_head in E. unfold write_record in E at 1 3. rewrite <- !app_assoc in E.
    assert (Elen : to_le 4 (len p) = to_le 4 (len q)) by
      (apply (f_equal (take 4)) in E; now rewrite !take_app_length' in E by easy).
    apply (f_equal from_le) in Elen. rewrite !from_le_u32 in Elen by (pose proof (len_nonneg p); pose proof (len_nonneg q); lia).
    rewrite Elen in E. apply app_inv_head in E. apply app_inj_1 in E as [-> E]; [|unfold len in Elen; lia].
    apply app_inv_head in E. f_equal. assert (e = f) as <- by congruence.
    eapply (IH qs' fs'); auto; [|now rewrite E].
    rewrite len_app in *. rewrite len_app, len_write_record in Hl. pose proof (len_nonneg q). lia.
Qed.

Lemma step_append_ok w p e io r wal' :
  world_ok w -> read_entry p = Some e ->
  (forall es, entries_from 0 (wd_acked w) es -> foldl (fun _ e => entry_sequence e) 0 es < entry_sequence e) ->
  io_set_len io = true -> len (wal_bytes (wd_wal w) ++ write_record p) < 2 ^ 63 ->
  append_encoded (wd_wal w) p io = (r, wal') ->
  world_ok match r with
           | Ok _ => {| wd_wal := wal'; wd_acked := wd_acked w ++ [p];
                        wd_durable := if bool_decide (wal_sync_policy (wd_wal w) = Always)
                                      then wd_acked w ++ [p] else wd_durable w |}
           | Err _ => {| wd_wal := wal'; wd_acked := wd_acked w; wd_durable := wd_durable w |}
           end.
Proof.
  intros [Hb [es He] Hsz [Hs1 Hs2] Hp Ha] Hr Hseq Hset Hl Happ.
  apply append_encoded_cases in Happ as [Hpol Hcase]; auto. destruct r as [u|err].
  - destruct Hcase as (Hm & Hb' & Hs').
    assert (Hlog : wal_bytes wal' = log_of (wd_acked w ++ [p])) by now rewrite Hb', Hb, log_of_snoc.
    assert (len (wal_bytes (wd_wal w)) <= len (wal_bytes wal')) by (rewrite Hb'; len_lia).
    assert (Hent : exists es, entries_from 0 (wd_acked w ++ [p]) es).
    { exists (es ++ [e]). apply entries_from_app; auto. unfold MAX_RECORD_LENGTH in Hm. unfold u32_max. lia. }
    constructor; cbn [wd_wal wd_acked wd_durable]; auto; [now rewrite Hb'|..].
    + destruct (bool_decide _); [rewrite Hs', Hlog; lia|lia].
    + destruct (bool_decide _); [easy|]. now apply prefix_app_r.
    + rewrite Hpol. intros HA. now rewrite bool_decide_true.
  - destruct Hcase as [Hb' Hs']. constructor; cbn [wd_wal wd_acked wd_durable]; rewrite ?Hb', ?Hpol; eauto.
    destruct Hs' as [->|[->| ->]]; lia.
Qed.

Lemma crash_recovers w n :
  world_ok w -> HEADER_LENGTH <= n -> wal_synced (wd_wal w) <= n <= len (wal_bytes (wd_wal w)) ->
  exists ps es wal', open (set_bytes (wd_wal w) (take (Z.to_nat n) (wal_bytes (wd_wal w))) n) true true true
      = (Ok (recovery_of (replay ps es)), wal') /\
    wal_bytes wal' = log_of ps /\ wal_synced wal' = len (wal_bytes wal') /\
    wal_sync_policy wal' = wal_sync_policy (wd_wal w) /\ entries_from 0 ps es /\
    wd_durable w `prefix_of` ps /\ ps `prefix_of` wd_acked w.
Proof.
  intros [Hb [es He] Hsz [Hs1 Hs2] Hp Ha] Hn [Hn1 Hn2]. rewrite Hb in *.
  set (w1 := set_bytes _ _ _).
  assert (Hl1 : len (wal_bytes w1) = n).
  { unfold w1, HEADER_LENGTH, len in *; cbn [wal_bytes set_bytes]. rewrite length_take. lia. }
  destruct (recover_cut (wd_acked w) es n w1 He) as (m & w' & Hrec & Hb' & Hle & Hmax); auto.
  unfold open. rewrite Hl1. unfold HEADER_LENGTH in Hn.
  destruct (Z.eqb_spec n 0); [lia|]. exists (take m (wd_acked w)), (take m es), w'.
  split; [exact Hrec|]. split; [exact Hb'|].
  assert (Hsy : wal_synced w' = len (wal_bytes w') /\ wal_sync_policy w' = wal_sync_policy (wd_wal w)).
  { revert Hrec. unfold recover; cbn [negb]. destruct (scan_log _); [|discriminate].
    destruct (_ && _); intros E; apply (f_equal snd) in E; cbn [snd] in E; subst w'; auto. }
  destruct Hsy as [Hsy Hpol]. split; [easy|]. split; [easy|]. split; [now apply entries_from_take|].
  split; [|apply prefix_take]. destruct Hp as [k Hk].
  destruct (Nat.le_gt_cases (length (wd_durable w)) m) as [Hge|Hlt].
  - rewrite Hk, take_app_ge by lia. now apply prefix_app_r.
  - exfalso. assert (Hlt' : (m < length (wd_acked w))%nat) by (rewrite Hk, length_app; lia).
    specialize (Hmax Hlt'). assert (take (S m) (wd_acked w) `prefix_of` wd_durable w) as Hpre.
    { rewrite Hk, take_app_le by lia. apply prefix_take. }
    apply len_log_of_prefix in Hpre. lia.
Qed.

Lemma step_preserves_ok w w' : world_ok w -> step w w' -> world_ok w'.
Proof.
  intros Hok Hst. inversion Hst as [w0 p e io r wal' Hr Hseq Hset Hl Happ|w0 fp ok wal' Hsync|w0 n ps es r wal' Hn Hsy Hop He Hrr Hbytes];
    subst; clear Hst.
  - eapply step_append_ok; eauto.
  - destruct Hok as [Hb [es He] Hsz [Hs1 Hs2] Hp Ha]. revert Hsync. unfold sync.
    destruct (bool_decide (wal_sync_policy (wd_wal w) = Off)) eqn:Eo.
    + intros [= <-]. constructor; eauto.
    + destruct (_ && _); intros [= <-].
      constructor; cbn [wd_wal wd_acked wd_durable wal_bytes wal_synced sync_file set_bytes]; eauto.
      rewrite <- Hb. lia.
  - destruct (crash_recovers _ _ Hok Hn Hsy) as (ps' & es' & wal2 & Hop2 & Hb2 & Hsy2 & Hpol & He2 & Hd & Hp).
    assert (wal2 = wal') as <- by congruence.
    assert (Hsz : len (log_of ps') < 2 ^ 63).
    { apply len_log_of_prefix in Hp. destruct Hok as [Hb _ Hsz _ _ _]. rewrite Hb in Hsz. lia. }
    assert (ps' = ps) as -> by (eapply (log_of_inj 0 ps' ps); eauto; congruence).
    constructor; cbn [wd_wal wd_acked wd_durable]; eauto; rewrite ?Hsy2, ?Hb2; auto; lia.
Qed.

Lemma fresh_world_ok policy : world_ok (fresh_world policy).
Proof.
  constructor; cbn; auto; try easy. exists []. constructor.
Qed.

Lemma reachable_ok policy w : rtc step (fresh_world policy) w -> world_ok w.
Proof.
  intros Hr. assert (world_ok (fresh_world policy)) as H0 by apply fresh_world_ok. revert H0.
  induction Hr; eauto using step_preserves_ok.
Qed.

End wal_machine.

Section wal_properties.
Context `{Checksum}.

(** C7. The record walk refines the list of entries: it accepts a file
    exactly when the file is a header, complete records whose payloads read as entries
    of increasing sequence, and a tail holding no complete record, and then returns the
    replay of those entries. *)
Theorem scan_log_refines_entries bytes k :
  len bytes < 2 ^ 63 ->
  scan_log bytes = Ok k <->
    exists ps es tail, bytes = log_of ps ++ tail /\ entries_from 0 ps es /\ short tail /\
      k = replay ps es.
Proof.
  intros Hl. split; [now apply scan_log_sound|].
  intros (ps & es & tail & -> & He & Hs & ->). now apply scan_log_entries.
Qed.

(** A crash may cut the log after any byte past its header: opening the
    file then recovers exactly the entries whose records are complete, and truncates
    the file to those records. *)
Theorem recover_after_crash ps es n w :
  entries_from 0 ps es -> HEADER_LENGTH <= n <= len (log_of ps) -> len (log_of ps) < 2 ^ 63 ->
  wal_bytes w = take (Z.to_nat n) (log_of ps) ->
  exists m w', recover w true true true = (Ok (recovery_of (replay (take m ps) (take m es))), w') /\
    wal_bytes w' = log_of (take m ps) /\ len (log_of (take m ps)) <= n /\
    ((m < length ps)%nat -> n < len (log_of (take (S m) ps))).
Proof. apply recover_cut. Qed.

(** C6. In every history of appends (with any failure of the filesystem the
    rollback can undo), syncs, crashes and reopenings, a crash at any byte past what is
    on disk leaves a log that opens: it recovers a prefix of the acknowledged records
    which contains every record known to be on disk, and all of them under
    [WalSync::Always]. *)
Theorem wal_durability policy w n :
  rtc step (fresh_world policy) w -> HEADER_LENGTH <= n ->
  wal_synced (wd_wal w) <= n <= len (wal_bytes (wd_wal w)) ->
  exists ps es wal', open (set_bytes (wd_wal w) (take (Z.to_nat n) (wal_bytes (wd_wal w))) n) true true true
      = (Ok (recovery_of (replay ps es)), wal') /\
    entries_from 0 ps es /\ wd_durable w `prefix_of` ps /\ ps `prefix_of` wd_acked w /\
    (wal_sync_policy (wd_wal w) = Always -> ps = wd_acked w).
Proof.
  intros Hr%reachable_ok Hn Hs.
  destruct (crash_recovers _ _ Hr Hn Hs) as (ps & es & wal' & Ho & _ & _ & _ & He & Hd & Hp).
  exists ps, es, wal'. repeat (split; [assumption|]). intros HA.
  apply (wo_always _ Hr) in HA. rewrite HA in Hd. apply (anti_symm prefix); auto.
Qed.

(** A batch of validated rows that [encode_batch] accepts is replayed from
    its payload as the batch itself: sequence, table, columns and rows (in their durable
    form); its payload is never taken for a commit record. *)
Theorem batch_payload_roundtrip sequence table_id schema rows payload :
  batch_wf sequence table_id schema rows = true ->
  Forall (fun r => validate_row schema r = Ok tt) rows ->
  encode_batch sequence table_id schema rows = Ok payload -> len payload < 2 ^ 63 ->
  decode_commit payload = None /\
  decode_batch payload = Ok (replayed_batch sequence table_id schema rows).
Proof.
  intros Hw Hv He Hl. pose proof (read_entry_batch _ _ _ _ _ Hw Hv He Hl) as Hr.
  unfold read_entry in Hr. destruct (decode_commit payload) as [[]|]; [discriminate|].
  split; [easy|]. destruct (decode_batch payload); [|discriminate]. congruence.
Qed.

(** An append whose rollback can shorten the file leaves the whole record
    at the end of the log or nothing of it, according to its result, and a payload over
    the limit is refused with the file untouched. *)
Theorem append_all_or_nothing w payload io r w' :
  io_set_len io = true -> append_encoded w payload io = (r, w') ->
  match r with
  | Ok _ => len payload <= MAX_RECORD_LENGTH /\ wal_bytes w' = wal_bytes w ++ write_record payload /\
            (wal_sync_policy w = Always -> wal_synced w' = len (wal_bytes w'))
  | Err _ => wal_bytes w' = wal_bytes w
  end /\ (MAX_RECORD_LENGTH < len payload -> exists e, r = Err e /\ w' = w).
Proof.
  intros Hset Happ. split.
  - apply append_encoded_cases in Happ as [_ Hc]; auto. destruct r; [|tauto].
    destruct Hc as (? & ? & Hs). repeat split; auto. intros HA. now rewrite bool_decide_true in Hs.
  - intros Hm. revert Happ. unfold append_encoded.
    destruct (io_failpoint io); cbn [negb]; [|intros [= <- <-]; eauto].
    destruct (Z.ltb_spec MAX_RECORD_LENGTH (len payload)); [intros [= <- <-]; eauto|lia].
Qed.

(** A crash while [Wal::open] writes the six header bytes of a new log can
    leave one to five of them; every later open then fails with a corruption error,
    under every sync policy. *)
Theorem torn_header_refused n synced policy :
  0 < n < HEADER_LENGTH ->
  exists w', open {| wal_bytes := take (Z.to_nat n) wal_header; wal_synced := synced; wal_sync_policy := policy |}
      true true true = (Err (CorruptWal 0 (msg "invalid magic or format version" [])), w').
Proof.
  unfold HEADER_LENGTH. intros Hn.
  assert (n = 1 \/ n = 2 \/ n = 3 \/ n = 4 \/ n = 5) as [->|[->|[->|[->| ->]]]] by lia;
    eexists; reflexivity.
Qed.

End wal_properties.

(** ** Witnesses *)

Module WalExamples.

(** A concrete hash in place of [xxh3_64]. *)
Definition polynomial_hash (bs : list byte) : Z :=
  foldr (fun b acc => (byte.unsigned b + 31 * acc) mod 2 ^ 64) 7 bs.

Lemma polynomial_hash_range bs : is_u64 (polynomial_hash bs) = true.
Proof.
  apply in_unsigned_spec. destruct bs as [|b bs]; [simpl; lia|]. simpl. apply Z.mod_pos_bound. lia.
Qed.

#[local] Instance example_checksum : Checksum :=
  {| xxh3_64 := polynomial_hash; xxh3_64_range := polynomial_hash_range |}.

Definition example_schema : TableSchema := {|
  schema_version := 1; schema_key_mode := KMPrimary;
  schema_columns := [column_new 1 (map byte.of_Z [105; 100]) DInt32 false;
                     column_new 2 (map byte.of_Z [110]) DUtf8 true]
|}.

Definition example_rows : list StoredRow := [
  {| row_key := [PInt64 5]; row_values := [VInt64 5; VUtf8 (map byte.of_Z [97])]; row_version := 3; row_deleted := false |};
  {| row_key := [PInt64 6]; row_values := [VInt64 6; VNull]; row_version := 4; row_deleted := true |}
].

Definition example_payload : list byte :=
  match encode_batch 1 9 example_schema example_rows with Ok p => p | Err _ => [] end.

Definition example_log : list (list byte) := [example_payload; encode_commit 2 77].

Definition example_entries : list entry :=
  [EBatch (replayed_batch 1 9 example_schema example_rows); ECommit 2 77].

Lemma example_entries_from : entries_from 0 example_log example_entries.
Proof.
  repeat (apply entries_cons; [apply Z.leb_le; vm_compute; reflexivity | vm_compute; reflexivity
                              | vm_compute; reflexivity |]). constructor.
Qed.

Lemma batch_payload_roundtrip_witness :
  decode_commit example_payload = None /\
  decode_batch example_payload = Ok (replayed_batch 1 9 example_schema example_rows).
Proof.
  apply (batch_payload_roundtrip 1 9 example_schema example_rows example_payload);
    [vm_compute; reflexivity | repeat constructor | vm_compute; reflexivity | vm_compute; reflexivity].
Defined.

Lemma scan_log_refines_entries_witness :
  scan_log (log_of example_log ++ [Byte.x07]) = Ok (replay example_log example_entries).
Proof.
  apply (scan_log_refines_entries (log_of example_log ++ [Byte.x07])); [vm_compute; reflexivity|].
  exists example_log, example_entries, [Byte.x07]. split; [reflexivity|].
  split; [apply example_entries_from|]. split; [left; vm_compute; reflexivity | reflexivity].
Defined.

Lemma recover_after_crash_witness :
  exists m w', recover {| wal_bytes := take 40 (log_of example_log); wal_synced := 0; wal_sync_policy := Off |}
      true true true = (Ok (recovery_of (replay (take m example_log) (take m example_entries))), w') /\
    wal_bytes w' = log_of (take m example_log) /\ len (log_of (take m example_log)) <= 40 /\
    ((m < length example_log)%nat -> 40 < len (log_of (take (S m) example_log))).
Proof.
  apply (recover_after_crash example_log example_entries 40); 
    [apply example_entries_from | split; apply Z.leb_le; vm_compute; reflexivity
    | vm_compute; reflexivity | reflexivity].
Defined.

(** Every filesystem call succeeds. *)
Definition all_ok : append_io := {|
  io_failpoint := true; io_seek := true; io_write := None; io_sync_data := true;
  io_set_len := true; io_seek_back := true; io_sync_all := true
|}.

Definition world_after_append : world := {|
  wd_wal := (append_encoded (wd_wal (fresh_world Always)) example_payload all_ok).2;
  wd_acked := [example_payload]; wd_durable := [example_payload]
|}.

Lemma world_after_append_reachable : rtc step (fresh_world Always) world_after_append.
Proof.
  apply rtc_once.
  apply (step_append (fresh_world Always) example_payload
    (EBatch (replayed_batch 1 9 example_schema example_rows)) all_ok (Ok tt)
    (append_encoded (wd_wal (fresh_world Always)) example_payload all_ok).2).
  - vm_compute; reflexivity.
  - intros es Hes. inversion Hes; subst. reflexivity.
  - reflexivity.
  - vm_compute; reflexivity.
  - vm_compute; reflexivity.
Qed.

Lemma wal_durability_witness :
  exists ps es wal', open (set_bytes (wd_wal world_after_append)
        (take (Z.to_nat (len (wal_bytes (wd_wal world_after_append)))) (wal_bytes (wd_wal world_after_append)))
        (len (wal_bytes (wd_wal world_after_append)))) true true true
      = (Ok (recovery_of (replay ps es)), wal') /\
    entries_from 0 ps es /\ wd_durable world_after_append `prefix_of` ps /\
    ps `prefix_of` wd_acked world_after_append /\
    (wal_sync_policy (wd_wal world_after_append) = Always -> ps = wd_acked world_after_append).
Proof.
  apply (wal_durability Always world_after_append (len (wal_bytes (wd_wal world_after_append)))).
  - apply world_after_append_reachable.
  - apply Z.leb_le; vm_compute; reflexivity.
  - split; apply Z.leb_le; vm_compute; reflexivity.
Defined.

(** A disk that fills up three bytes into the record. *)
Definition disk_full : append_io := {|
  io_failpoint := true; io_seek := true; io_write := Some 3; io_sync_data := true;
  io_set_len := true; io_seek_back := true; io_sync_all := true
|}.

Lemma append_all_or_nothing_witness :
  wal_bytes (append_encoded (wd_wal (fresh_world Always)) example_payload disk_full).2 = wal_header /\
  (MAX_RECORD_LENGTH < len example_payload -> exists e,
     (append_encoded (wd_wal (fresh_world Always)) example_payload disk_full).1 = Err e /\
     (append_encoded (wd_wal (fresh_world Always)) example_payload disk_full).2 = wd_wal (fresh_world Always)).
Proof.
  apply (append_all_or_nothing (wd_wal (fresh_world Always)) example_payload disk_full
    (Err (Io (msg "append WAL record" [])))
    (append_encoded (wd_wal (fresh_world Always)) example_payload disk_full).2); vm_compute; reflexivity.
Defined.

Lemma torn_header_refused_witness :
  exists w', open {| wal_bytes := take (Z.to_nat 5) wal_header; wal_synced := 0; wal_sync_policy := Always |}
      true true true = (Err (CorruptWal 0 (msg "invalid magic or format version" [])), w').
Proof. apply (torn_header_refused 5 0 Always). unfold HEADER_LENGTH. lia. Defined.

End WalExamples.
