(* ===== verification/Memtable.v ===== *)
(** * The memtable ([src/crates/pintail-store/src/memtable.rs])

    The rows are a [BTreeMap] from key to row, kept as its sorted entries; the
    scan image is its identity, replaced by a fresh one.  Whether a scan shares the
    rows or the image is an argument of the operations that ask. *)

From Stdlib Require Import ZArith Lia Sorted.
From stdpp Require Import prelude list.
From coqutil Require Import Byte.
From S2P Require Import Prelude.
From S2P Require Import Types.

#[local] Open Scope Z_scope.

Record Memtable : Type := {
  mt_rows : list (PrimaryKey * StoredRow);
  mt_estimated_bytes : Z;
  mt_oldest_version : option Z;
  mt_newest_version : option Z;
  mt_image : Z;
  mt_changes : Z
}.

Section memtable.
Context `{Layout}.

Definition memtable_default : Memtable := {|
  mt_rows := []; mt_estimated_bytes := 0; mt_oldest_version := None;
  mt_newest_version := None; mt_image := 0; mt_changes := 0
|}.

Definition opt_min (o : option Z) (v : Z) : option Z :=
  Some match o with Some x => Z.min x v | None => v end.
Definition opt_max (o : option Z) (v : Z) : option Z :=
  Some match o with Some x => Z.max x v | None => v end.

(** [insert]: [false], and nothing changed, when the key holds a newer version.
    [image_in_use] is whether a scan holds the image or has built it. *)
Definition insert (m : Memtable) (row : StoredRow) (image_in_use : bool) : bool * Memtable :=
  let version := row_version row in
  let replace (estimated : Z) : bool * Memtable :=
    (true, {|
      mt_rows := omap_insert (row_key row) row (mt_rows m);
      mt_estimated_bytes := sat_add 64 estimated (estimated_bytes row);
      mt_oldest_version := opt_min (mt_oldest_version m) version;
      mt_newest_version := opt_max (mt_newest_version m) version;
      mt_image := if image_in_use then mt_image m + 1 else mt_image m;
      mt_changes := wrap_add 64 (mt_changes m) 1
    |}) in
  match omap_get (row_key row) (mt_rows m) with
  | Some current =>
      if version <? row_version current then (false, m)
      else replace (sat_sub (mt_estimated_bytes m) (estimated_bytes current))
  | None => replace (mt_estimated_bytes m)
  end.

(** [apply]: [insert] of a copy. *)
Definition apply (m : Memtable) (row : StoredRow) (image_in_use : bool) : bool * Memtable :=
  insert m row image_in_use.

(** [take_rows]: moved out when no scan shares the map, copied otherwise. *)
Definition take_rows (m : Memtable) (shared : bool) : list StoredRow * Memtable :=
  (map snd (mt_rows m),
   if shared then m
   else {| mt_rows := []; mt_estimated_bytes := mt_estimated_bytes m;
           mt_oldest_version := mt_oldest_version m; mt_newest_version := mt_newest_version m;
           mt_image := mt_image m; mt_changes := mt_changes m |}).

(** [restore]: the rows handed back after a flush that did not finish. *)
Definition restore (m : Memtable) (rows : list StoredRow) : Memtable :=
  match mt_rows m with
  | [] => {| mt_rows := foldl (fun acc r => omap_insert (row_key r) r acc) [] rows;
             mt_estimated_bytes := mt_estimated_bytes m;
             mt_oldest_version := mt_oldest_version m; mt_newest_version := mt_newest_version m;
             mt_image := mt_image m; mt_changes := mt_changes m |}
  | _ => m
  end.

Definition clear (m : Memtable) : Memtable := {|
  mt_rows := []; mt_estimated_bytes := 0; mt_oldest_version := None;
  mt_newest_version := None; mt_image := mt_image m + 1;
  mt_changes := wrap_add 64 (mt_changes m) 1
|}.

(** A batch applied row by row. *)
Definition apply_all (m : Memtable) (rows : list StoredRow) : Memtable :=
  foldl (fun m r => (apply m r true).2) m rows.

(** ** Invariant *)

Definition total_bytes (rows : list (PrimaryKey * StoredRow)) : Z :=
  foldr Z.add 0 (map (fun kr => estimated_bytes kr.2) rows).

(** Every row sits under its own key. *)
Definition keyed (rows : list (PrimaryKey * StoredRow)) : Prop :=
  Forall (fun kr => kr.1 = row_key kr.2) rows.

Record memtable_ok (m : Memtable) : Prop := {
  mo_sorted : omap_sorted (mt_rows m);
  mo_keyed : keyed (mt_rows m);
  mo_bytes : mt_estimated_bytes m = total_bytes (mt_rows m);
  mo_versions : Forall (fun kr => exists lo hi,
      mt_oldest_version m = Some lo /\ mt_newest_version m = Some hi /\
      lo <= row_version kr.2 <= hi) (mt_rows m)
}.

(** All of it but the byte estimate, which saturates. *)
Record memtable_shape (m : Memtable) : Prop := {
  sh_sorted : omap_sorted (mt_rows m);
  sh_keyed : keyed (mt_rows m);
  sh_versions : Forall (fun kr => exists lo hi,
      mt_oldest_version m = Some lo /\ mt_newest_version m = Some hi /\
      lo <= row_version kr.2 <= hi) (mt_rows m)
}.

(** ** Lemmas *)

Lemma foldr_add_nonneg l : Forall (fun z => 0 <= z) l -> 0 <= foldr Z.add 0 l.
Proof. induction 1; simpl; lia. Qed.

Lemma estimated_bytes_pos r : 0 < estimated_bytes r.
Proof.
  unfold estimated_bytes, primary_key_heap_bytes.
  pose proof size_of_StoredRow_pos. pose proof size_of_Value_pos. pose proof (len_nonneg (row_values r)).
  assert (0 <= foldr Z.add 0 (map key_part_heap_bytes (row_key r))).
  { apply foldr_add_nonneg, Forall_map, Forall_true. intros []; simpl; try lia; apply len_nonneg. }
  assert (0 <= foldr Z.add 0 (map value_heap_bytes (row_values r))).
  { apply foldr_add_nonneg, Forall_map, Forall_true. pose proof size_of_DecimalQuotient_pos.
    intros []; simpl; try lia; try apply len_nonneg. pose proof (len_nonneg (dq_label q)). lia. }
  nia.
Qed.

Lemma total_bytes_nonneg rows : 0 <= total_bytes rows.
Proof.
  unfold total_bytes. apply foldr_add_nonneg, Forall_map, Forall_true.
  intros kr. pose proof (estimated_bytes_pos kr.2). lia.
Qed.

Lemma total_bytes_insert k r rows :
  omap_sorted rows ->
  total_bytes (omap_insert k r rows) =
    total_bytes rows + estimated_bytes r
      - match omap_get k rows with Some c => estimated_bytes c | None => 0 end.
Proof.
  unfold total_bytes, omap_sorted. induction rows as [|[k' r'] rows IH];
    cbn [omap_insert omap_get map foldr fst snd]; [lia|].
  intros Hs. inv Hs. destruct (cmp k k') eqn:E; cbn [map foldr fst snd].
  - lia.
  - rewrite omap_sorted_lt_get; [lia|].
    eapply Forall_impl; [eassumption|]. intros. eapply cmp_lt_trans; eauto.
  - rewrite IH by easy. lia.
Qed.

Lemma keyed_insert r rows : keyed rows -> keyed (omap_insert (row_key r) r rows).
Proof.
  intros Hk. apply List.Forall_forall. intros kr [->|Hin]%omap_insert_In; [easy|].
  unfold keyed in Hk. rewrite List.Forall_forall in Hk. auto.
Qed.

Lemma total_bytes_get k c rows : omap_get k rows = Some c -> estimated_bytes c <= total_bytes rows.
Proof.
  unfold total_bytes. induction rows as [|[k' r'] rows IH];
    cbn [omap_get map foldr fst snd]; [discriminate|].
  pose proof (total_bytes_nonneg rows) as Hn. unfold total_bytes in Hn.
  destruct (cmp k k'); [intros [= ->]; lia|..]; intros ?%IH; pose proof (estimated_bytes_pos r'); lia.
Qed.

(** The two ways an insert ends. *)
Lemma insert_cases m r u :
  (exists c, omap_get (row_key r) (mt_rows m) = Some c /\ row_version r < row_version c /\
     insert m r u = (false, m)) \/
  ((forall c, omap_get (row_key r) (mt_rows m) = Some c -> row_version c <= row_version r) /\
   exists m', insert m r u = (true, m') /\ mt_rows m' = omap_insert (row_key r) r (mt_rows m) /\
     mt_oldest_version m' = opt_min (mt_oldest_version m) (row_version r) /\
     mt_newest_version m' = opt_max (mt_newest_version m) (row_version r) /\
     mt_estimated_bytes m' = sat_add 64
       match omap_get (row_key r) (mt_rows m) with
       | Some c => sat_sub (mt_estimated_bytes m) (estimated_bytes c)
       | None => mt_estimated_bytes m
       end (estimated_bytes r)).
Proof.
  unfold insert. destruct (omap_get (row_key r) (mt_rows m)) as [c|].
  - destruct (Z.ltb_spec (row_version r) (row_version c)); [left; eauto|].
    right. split; [intros c' [= <-]; lia|]. eexists. split; [reflexivity|]. auto.
  - right. split; [discriminate|]. eexists. split; [reflexivity|]. auto.
Qed.

Lemma insert_shape m r u b m' : memtable_shape m -> insert m r u = (b, m') -> memtable_shape m'.
Proof.
  intros [Hs Hk Hv] Hi.
  destruct (insert_cases m r u) as [(c & _ & _ & E)|(_ & m1 & E & Er & Eo & En & Eb)];
    rewrite Hi in E; injection E as -> ->; [now constructor|].
  constructor; auto; rewrite ?Er; auto using keyed_insert with pintail.
  apply List.Forall_forall. intros kr Hin. rewrite Eo, En. unfold opt_min, opt_max.
  rewrite List.Forall_forall in Hv. apply omap_insert_In in Hin as [->|Hin].
  - do 2 eexists. split; [reflexivity|]. split; [reflexivity|]. simpl.
    destruct (mt_oldest_version m), (mt_newest_version m); lia.
  - destruct (Hv _ Hin) as (lo & hi & -> & -> & ?).
    do 2 eexists. split; [reflexivity|]. split; [reflexivity|]. lia.
Qed.

Lemma insert_ok m r u b m' :
  memtable_ok m -> total_bytes (omap_insert (row_key r) r (mt_rows m)) <= u64_max ->
  insert m r u = (b, m') -> memtable_ok m'.
Proof.
  intros [Hs Hk Hb Hv] Ht Hi. destruct (insert_shape m r u b m') as [Hs' Hk' Hv']; [easy..|]. constructor; try easy.
  destruct (insert_cases m r u) as [(c & _ & _ & E)|(_ & m1 & E & Er & _ & _ & Eb)];
    rewrite Hi in E; injection E as -> ->; [easy|].
  rewrite Eb, Er, total_bytes_insert, Hb by easy. rewrite total_bytes_insert in Ht by easy.
  unfold sat_add, sat_sub, u64_max in *.
  destruct (omap_get (row_key r) (mt_rows m)) as [c|] eqn:Eg; [apply total_bytes_get in Eg|]; lia.
Qed.

(** [r] wins for its key among [rows]: no row of that key is newer, and none after
    it is as new. *)
Definition wins (k : PrimaryKey) (r : StoredRow) (rows : list StoredRow) : Prop :=
  exists before after, rows = before ++ r :: after /\ row_key r = k /\
    Forall (fun x => row_key x = k -> row_version x <= row_version r) before /\
    Forall (fun x => row_key x = k -> row_version x < row_version r) after.

Lemma apply_all_app m rows r : apply_all m (rows ++ [r]) = (apply (apply_all m rows) r true).2.
Proof. unfold apply_all. now rewrite foldl_app. Qed.

Lemma wins_bound k r rows x : wins k r rows -> In x rows -> row_key x = k -> row_version x <= row_version r.
Proof.
  intros (b & a & -> & Hk & Hb & Ha) Hin Hx. rewrite List.Forall_forall in Hb, Ha.
  apply in_app_iff in Hin as [Hin|[<-|Hin]]; auto; [lia|]. specialize (Ha _ Hin Hx). lia.
Qed.

Lemma wins_snoc k r rows x :
  wins k r rows -> (row_key x = k -> row_version x < row_version r) -> wins k r (rows ++ [x]).
Proof.
  intros (b & a & -> & Hk & Hb & Ha) Hx. exists b, (a ++ [x]). rewrite <- app_assoc.
  repeat (split; [easy|]). apply Forall_app. split; [easy|]. now constructor.
Qed.

Lemma wins_last r rows :
  Forall (fun x => row_key x = row_key r -> row_version x <= row_version r) rows ->
  wins (row_key r) r (rows ++ [r]).
Proof. intros Hf. exists rows, []. repeat (split; [easy|]). constructor. Qed.

(** The winner for [k] among [rows], as an optional row. *)
Definition winner (k : PrimaryKey) (rows : list StoredRow) (o : option StoredRow) : Prop :=
  match o with Some r => wins k r rows | None => Forall (fun x => row_key x <> k) rows end.

Lemma winner_other k o rows x : row_key x <> k -> winner k rows o -> winner k (rows ++ [x]) o.
Proof.
  intros Hx. destruct o; simpl.
  - intros Hw. apply wins_snoc; [easy|]. intros; congruence.
  - intros Hf. apply Forall_app. split; [easy|]. now constructor.
Qed.

Lemma winner_last r rows o :
  winner (row_key r) rows o -> (forall c, o = Some c -> row_version c <= row_version r) ->
  winner (row_key r) (rows ++ [r]) (Some r).
Proof.
  intros Hw Hle. apply wins_last. apply List.Forall_forall. intros x Hin Hx. destruct o as [c|].
  - specialize (Hle _ eq_refl). pose proof (wins_bound _ _ _ _ Hw Hin Hx). lia.
  - simpl in Hw. rewrite List.Forall_forall in Hw. now apply Hw in Hin.
Qed.

Lemma apply_all_get rows k :
  winner k rows (omap_get k (mt_rows (apply_all memtable_default rows))).
Proof.
  induction rows as [|r rows IH] using rev_ind; [simpl; constructor|].
  rewrite apply_all_app. unfold apply. set (m := apply_all memtable_default rows) in *.
  destruct (insert_cases m r true) as [(c & Eg & Hlt & ->)|(Hle & m' & -> & Er & _)]; cbn [snd].
  - destruct (decide (row_key r = k)) as [<-|Hne]; [|now apply winner_other].
    rewrite Eg in *. now apply wins_snoc.
  - rewrite Er. destruct (decide (row_key r = k)) as [<-|Hne].
    + rewrite omap_get_insert_eq. eapply winner_last; eauto.
    + rewrite omap_get_insert_ne by easy. now apply winner_other.
Qed.

Lemma foldl_insert_sorted_keyed rows acc :
  omap_sorted acc -> keyed acc ->
  omap_sorted (foldl (fun acc r => omap_insert (row_key r) r acc) acc rows) /\
  keyed (foldl (fun acc r => omap_insert (row_key r) r acc) acc rows).
Proof. revert acc; induction rows; simpl; auto using keyed_insert, omap_insert_sorted. Qed.

Lemma foldl_insert_get k rows acc :
  Forall (fun r => row_key r <> k) rows ->
  omap_get k (foldl (fun acc r => omap_insert (row_key r) r acc) acc rows) = omap_get k acc.
Proof.
  intros Hf. revert acc. induction Hf; intros acc; cbn [foldl]; [easy|].
  rewrite IHHf. now apply omap_get_insert_ne.
Qed.

(** Collecting the rows of a sorted map by key gives the map back. *)
Lemma collect_rows rows :
  omap_sorted rows -> keyed rows ->
  foldl (fun acc r => omap_insert (row_key r) r acc) [] (map snd rows) = rows.
Proof.
  intros Hs Hk. apply omap_ext; [apply foldl_insert_sorted_keyed; constructor|easy|].
  intros k. cut (forall acc, (forall k' r, In (k', r) rows -> omap_get k' acc = None) ->
    omap_get k (foldl (fun acc r => omap_insert (row_key r) r acc) acc (map snd rows)) =
      match omap_get k rows with Some r => Some r | None => omap_get k acc end).
  { intros Hc. rewrite Hc by easy. simpl. now destruct (omap_get k rows). }
  unfold omap_sorted, keyed in *.
  induction rows as [|[k' r] rows IH]; intros acc Hacc; [easy|]. cbn [map snd fst foldl omap_get] in *.
  inv Hs. inv Hk. simpl in H4. subst k'. rewrite IH; auto.
  - destruct (cmp k (row_key r)) eqn:E.
    + apply cmp_eq in E as ->. rewrite omap_get_insert_eq, omap_sorted_lt_get by easy. easy.
    + rewrite omap_get_insert, E. easy.
    + rewrite omap_get_insert, E. easy.
  - intros k1 r1 Hin. rewrite omap_get_insert_ne; [apply (Hacc k1 r1); now right|].
    intros <-. rewrite List.Forall_forall in H3. apply (olt_irrefl (row_key r)). apply H3.
    apply in_map_iff. now exists (row_key r, r1).
Qed.

Lemma memtable_ok_shape m : memtable_ok m -> memtable_shape m.
Proof. now intros []. Qed.

Lemma restore_taken m shared : memtable_shape m -> restore (take_rows m shared).2 (take_rows m shared).1 = m.
Proof.
  intros [Hs Hk _]. unfold take_rows, restore. destruct shared; cbn [fst snd mt_rows].
  - destruct (mt_rows m) eqn:E; [|easy]. destruct m; simpl in *; subst; easy.
  - rewrite collect_rows by easy. now destruct m.
Qed.

(** ** Properties *)

(** Applying any sequence of rows to an empty memtable resolves every key by
    last write wins: the row held for a key has the highest version among the rows of
    that key, the latest of them on a tie, and a key none of the rows carries is absent. *)
Theorem memtable_last_write_wins rows k :
  winner k rows (omap_get k (mt_rows (apply_all memtable_default rows))).
Proof. apply apply_all_get. Qed.

(** [insert] keeps the memtable well formed while its size fits a [usize]: the
    entries stay in key order under their own keys, the byte estimate is the sum of the
    rows held, and the version bounds enclose every row; [false] means nothing changed. *)
Theorem insert_preserves_memtable_ok m r u b m' :
  memtable_ok m -> total_bytes (omap_insert (row_key r) r (mt_rows m)) <= u64_max ->
  insert m r u = (b, m') -> memtable_ok m' /\ (b = false -> m' = m).
Proof.
  intros Hm Ht Hi. split; [eapply insert_ok; eauto|]. intros ->.
  destruct (insert_cases m r u) as [(c & _ & _ & E)|(_ & m1 & E & _)]; congruence.
Qed.

(** A flush that fails after [take_rows] hands its rows back with
    [restore], and the memtable is what it was, whether the rows were moved or copied. *)
Theorem take_rows_restore m shared :
  memtable_ok m -> restore (take_rows m shared).2 (take_rows m shared).1 = m.
Proof. intros Hm%memtable_ok_shape. now apply restore_taken. Qed.

End memtable.

(** ** Witnesses *)

(** The layout of a 64-bit build. *)
#[export] Instance layout64 : Layout := {|
  size_of_StoredRow := 64; size_of_Value := 32; size_of_DecimalQuotient := 64;
  size_of_StoredRow_pos := eq_refl; size_of_Value_pos := eq_refl; size_of_DecimalQuotient_pos := eq_refl
|}.

Definition sample_row (key version : Z) : StoredRow :=
  {| row_key := [PUInt64 key]; row_values := [VInt64 7]; row_version := version; row_deleted := false |}.

Definition sample_memtable : Memtable := apply_all memtable_default [sample_row 1 5; sample_row 2 6].

Lemma memtable_default_ok : memtable_ok memtable_default.
Proof. constructor; simpl; try constructor. Qed.

Lemma apply_all_ok m rows :
  memtable_ok m ->
  (forall k r, (k < length rows)%nat -> nth_error rows k = Some r ->
     total_bytes (omap_insert (row_key r) r (mt_rows (apply_all m (take k rows)))) <= u64_max) ->
  memtable_ok (apply_all m rows).
Proof.
  intros Hm. induction rows as [|r rows IH] using rev_ind; intros Ht; [easy|].
  rewrite apply_all_app. unfold apply. destruct (insert _ r true) as [b m'] eqn:E. cbn [snd].
  eapply insert_ok; [| |exact E].
  - apply IH. intros k r' Hk Hr. specialize (Ht k r'). rewrite length_app, nth_error_app1, take_app_le in Ht by lia.
    apply Ht; [lia|easy].
  - specialize (Ht (length rows) r). rewrite length_app, nth_error_app2, Nat.sub_diag, take_app_length in Ht by lia.
    apply Ht; [simpl; lia|easy].
Qed.

Lemma sample_memtable_ok : memtable_ok sample_memtable.
Proof.
  apply apply_all_ok; [apply memtable_default_ok|].
  intros [|[|k]] r Hk; [intros [= <-]; apply Z.leb_le; vm_compute; reflexivity..|].
  cbn [length] in Hk. lia.
Qed.

Lemma insert_preserves_memtable_ok_witness :
  insert sample_memtable (sample_row 1 4) true = (false, sample_memtable) /\
  memtable_ok sample_memtable /\ (false = false -> sample_memtable = sample_memtable).
Proof.
  assert (E : insert sample_memtable (sample_row 1 4) true = (false, sample_memtable))
    by (vm_compute; reflexivity).
  split; [exact E|].
  apply (insert_preserves_memtable_ok sample_memtable (sample_row 1 4) true false sample_memtable
           sample_memtable_ok); [apply Z.leb_le; vm_compute; reflexivity | exact E].
Defined.

Lemma take_rows_restore_witness :
  restore (take_rows sample_memtable false).2 (take_rows sample_memtable false).1 = sample_memtable.
Proof. apply (take_rows_restore sample_memtable false), sample_memtable_ok. Defined.
