(* ===== verification/Manifest.v ===== *)
(** * The manifest ([src/crates/pintail-store/src/manifest.rs], segment metadata)

    The published list of segments: its record types, its encoding with the per
    segment aggregates, the checks of [read] and [load], and the temporary-file
    publication.  The lazily resolved [layer_index] is never written and is left
    out.  Floating-point aggregates are their IEEE-754 bits. *)

From Stdlib Require Import ZArith Lia String.
From stdpp Require Import prelude list.
From coqutil Require Import Byte Word.LittleEndianList.
From S2P Require Import Prelude.
From S2P Require Import Types.
From S2P Require Import Codec.
From S2P Require Import Wal.

#[local] Open Scope Z_scope.

(** ** Data *)

Inductive NativeUnits : Type :=
| NDate
| NDateTime (fsp : Z)
| NDecimal (scale : Z).

Inductive SmaSum : Type :=
| SumInt (total : Z)
| SumFloat (bits : Z)
| SumDecimalUnits (units scale : Z).

Inductive SmaExtremes : Type :=
| ExtInt (min max : Z)
| ExtUInt (min max : Z)
| ExtFloat (min max : Z)
| ExtDecimalUnits (min max scale : Z)
| ExtTemporal (min max : Z) (units : NativeUnits).

(** The registers of a [DistinctSketch]. *)
Definition SKETCH_REGISTERS : Z := 64.
Definition DistinctSketch : Type := list byte.

Record ColumnSma : Type := {
  sma_column_id : Z;
  sma_non_null : Z;
  sma_sum : option SmaSum;
  sma_extremes : option SmaExtremes;
  sma_distinct : option DistinctSketch
}.

Record SegmentSmas : Type := {
  smas_live_rows : Z;
  smas_tombstones : Z;
  smas_columns : list ColumnSma
}.

Record SegmentFacts : Type := {
  seg_id : Z;
  seg_file_name : str;
  seg_row_count : Z;
  seg_min_version : Z;
  seg_max_version : Z;
  seg_schema_fingerprint : Z;
  seg_min_key : PrimaryKey;
  seg_max_key : PrimaryKey;
  seg_bloom : list byte;
  seg_unique_keys : bool;
  seg_smas : option SegmentSmas
}.

Record Manifest : Type := {
  man_generation : Z;
  man_schema_version : Z;
  man_schema_fingerprint : Z;
  man_key_mode : KeyMode;
  man_flushed_sequence : Z;
  man_next_segment_id : Z;
  man_epoch : Z;
  man_committed_version : Z;
  man_segments : list SegmentFacts
}.

(** b"PTMAN" *)
Definition MANIFEST_MAGIC : list byte := map byte.of_Z [80; 84; 77; 65; 78].
Definition MANIFEST_FORMAT_VERSION : Z := 4.

(** [NativeUnits::for_data_type]. *)
Definition for_data_type (t : DataType) : option NativeUnits :=
  match t with
  | DDate32 => Some NDate
  | DDateTime64 fsp => Some (NDateTime fsp)
  | DDecimal precision scale => if precision <=? 18 then Some (NDecimal scale) else None
  | _ => None
  end.

(** ** Encoding *)

Definition encode_i128 (e : Encoder) (value : Z) : Encoder :=
  let bits := value mod 2 ^ 128 in
  enc_u64 (enc_u64 e (bits mod 2 ^ 64)) (Z.shiftr bits 64).

Definition encode_sum (e : Encoder) (sum : option SmaSum) : Encoder :=
  match sum with
  | None => enc_u8 e 0
  | Some (SumInt total) => encode_i128 (enc_u8 e 1) total
  | Some (SumFloat bits) => enc_u64 (enc_u8 e 2) bits
  | Some (SumDecimalUnits units scale) => enc_u8 (encode_i128 (enc_u8 e 3) units) scale
  end.

Definition encode_extremes (e : Encoder) (extremes : option SmaExtremes) : result StoreError Encoder :=
  match extremes with
  | None => Ok (enc_u8 e 0)
  | Some (ExtInt min max) => Ok (enc_u64 (enc_u64 (enc_u8 e 1) (min mod 2 ^ 64)) (max mod 2 ^ 64))
  | Some (ExtUInt min max) => Ok (enc_u64 (enc_u64 (enc_u8 e 2) min) max)
  | Some (ExtFloat min max) => Ok (enc_u64 (enc_u64 (enc_u8 e 3) min) max)
  | Some (ExtDecimalUnits min max scale) =>
      Ok (enc_u8 (encode_i128 (encode_i128 (enc_u8 e 4) min) max) scale)
  | Some (ExtTemporal min max units) =>
      let e := enc_u64 (enc_u64 (enc_u8 e 5) (min mod 2 ^ 64)) (max mod 2 ^ 64) in
      match units with
      | NDate => Ok (enc_u8 e 0)
      | NDateTime fsp => Ok (enc_u8 (enc_u8 e 1) fsp)
      | NDecimal _ => Err (FormatLimit (msg "decimal extremes use the DecimalUnits form" []))
      end
  end.

Definition encode_sketch (e : Encoder) (distinct : option DistinctSketch) : Encoder :=
  match distinct with
  | None => enc_u8 e 0
  | Some registers => enc_raw (enc_u8 e 1) registers
  end.

Definition encode_column_sma (e : Encoder) (c : ColumnSma) : result StoreError Encoder :=
  let e := enc_u64 (enc_u32 e (sma_column_id c)) (sma_non_null c) in
  e ← encode_extremes (encode_sum e (sma_sum c)) (sma_extremes c);
  Ok (encode_sketch e (sma_distinct c)).

Definition encode_smas (e : Encoder) (smas : option SegmentSmas) : result StoreError Encoder :=
  match smas with
  | None => Ok (enc_u8 e 0)
  | Some smas =>
      let e := enc_u64 (enc_u64 (enc_u8 e 1) (smas_live_rows smas)) (smas_tombstones smas) in
      e ← enc_length e (len (smas_columns smas)) (msg "segment SMA column count exceeds u32::MAX" []);
      fold_result encode_column_sma e (smas_columns smas)
  end.

Definition encode_key_mode (mode : KeyMode) : Z :=
  match mode with KMPrimary => 0 | KMUnique => 1 | KMAppendRowId => 2 end.

Definition encode_segment (e : Encoder) (s : SegmentFacts) : result StoreError Encoder :=
  e ← enc_bytes (enc_u64 e (seg_id s)) (seg_file_name s) (msg "segment file name exceeds u32::MAX" []);
  let e := enc_u64 (enc_u64 (enc_u64 (enc_u64 e (seg_row_count s)) (seg_min_version s))
                      (seg_max_version s)) (seg_schema_fingerprint s) in
  e ← encode_key e (seg_min_key s);
  e ← encode_key e (seg_max_key s);
  e ← enc_bytes e (seg_bloom s) (msg "segment primary-key bloom exceeds u32::MAX" []);
  encode_smas (enc_u8 e (Z.b2z (seg_unique_keys s))) (seg_smas s).

(** Everything [encode] writes before the checksum. *)
Definition encode_body (m : Manifest) : result StoreError Encoder :=
  let e := enc_u8 (enc_raw encoder_new MANIFEST_MAGIC) MANIFEST_FORMAT_VERSION in
  let e := enc_u64 (enc_u32 (enc_u64 e (man_generation m)) (man_schema_version m)) (man_schema_fingerprint m) in
  let e := enc_u8 e (encode_key_mode (man_key_mode m)) in
  let e := enc_u64 (enc_u64 (enc_u64 e (man_flushed_sequence m)) (man_next_segment_id m)) (man_epoch m) in
  let e := enc_u64 e (man_committed_version m) in
  e ← enc_length e (len (man_segments m)) (msg "manifest segment count exceeds u32::MAX" []);
  fold_result encode_segment e (man_segments m).

(** ** Decoding *)

Definition decode_i128 : Dec Z :=
  low ← dec_u64;
  high ← dec_u64;
  mret (signed 128 (Z.lor (Z.shiftl high 64) low)).

Definition decode_sketch : Dec (option DistinctSketch) :=
  tag ← dec_u8;
  if tag =? 0 then mret None
  else if tag =? 1 then registers ← dec_take SKETCH_REGISTERS; mret (Some registers)
  else fail (msg "invalid distinct sketch tag {tag}" [tag]).

Definition decode_sum : Dec (option SmaSum) :=
  tag ← dec_u8;
  if tag =? 0 then mret None
  else if tag =? 1 then total ← decode_i128; mret (Some (SumInt total))
  else if tag =? 2 then bits ← dec_u64; mret (Some (SumFloat bits))
  else if tag =? 3 then
    units ← decode_i128; scale ← dec_u8; mret (Some (SumDecimalUnits units scale))
  else fail (msg "invalid SMA sum tag {tag}" [tag]).

(** [decoder.u64()? as i64]. *)
Definition dec_u64_as_i64 : Dec Z := bits ← dec_u64; mret (signed 64 bits).

Definition decode_units : Dec NativeUnits :=
  tag ← dec_u8;
  if tag =? 0 then mret NDate
  else if tag =? 1 then fsp ← dec_u8; mret (NDateTime fsp)
  else fail (msg "invalid temporal SMA unit tag {tag}" [tag]).

Definition decode_extremes : Dec (option SmaExtremes) :=
  tag ← dec_u8;
  if tag =? 0 then mret None
  else if tag =? 1 then
    min ← dec_u64_as_i64; max ← dec_u64_as_i64; mret (Some (ExtInt min max))
  else if tag =? 2 then min ← dec_u64; max ← dec_u64; mret (Some (ExtUInt min max))
  else if tag =? 3 then min ← dec_u64; max ← dec_u64; mret (Some (ExtFloat min max))
  else if tag =? 4 then
    min ← decode_i128; max ← decode_i128; scale ← dec_u8; mret (Some (ExtDecimalUnits min max scale))
  else if tag =? 5 then
    min ← dec_u64_as_i64; max ← dec_u64_as_i64; units ← decode_units;
    mret (Some (ExtTemporal min max units))
  else fail (msg "invalid SMA extremes tag {tag}" [tag]).

Definition decode_column_sma (format_version : Z) : Dec ColumnSma :=
  column_id ← dec_u32;
  non_null ← dec_u64;
  sum ← decode_sum;
  extremes ← decode_extremes;
  distinct ← (if 4 <=? format_version then decode_sketch else mret None);
  mret {| sma_column_id := column_id; sma_non_null := non_null; sma_sum := sum;
          sma_extremes := extremes; sma_distinct := distinct |}.

Definition decode_smas (format_version : Z) : Dec (option SegmentSmas) :=
  tag ← dec_u8;
  if tag =? 0 then mret None
  else if tag =? 1 then
    live_rows ← dec_u64;
    tombstones ← dec_u64;
    column_count ← dec_u32;
    columns ← dec_repeat (Z.to_nat column_count) (decode_column_sma format_version);
    mret (Some {| smas_live_rows := live_rows; smas_tombstones := tombstones; smas_columns := columns |})
  else fail (msg "invalid SMA presence {tag}" [tag]).

Definition decode_key_mode (tag : Z) : Dec KeyMode :=
  if tag =? 0 then mret KMPrimary
  else if tag =? 1 then mret KMUnique
  else if tag =? 2 then mret KMAppendRowId
  else fail (msg "unknown table key mode {tag}" [tag]).

Definition decode_segment (format_version : Z) : Dec SegmentFacts :=
  id ← dec_u64;
  name_bytes ← dec_byte_string;
  file_name ← decode_utf8 name_bytes (msg "invalid segment file name" []);
  row_count ← dec_u64;
  min_version ← dec_u64;
  max_version ← dec_u64;
  fingerprint ← dec_u64;
  min_key ← decode_key;
  max_key ← decode_key;
  bloom ← dec_byte_string;
  flag ← dec_u8;
  unique_keys ← (if flag =? 0 then mret false
                 else if flag =? 1 then mret true
                 else fail (msg "invalid unique-key flag {value}" [flag]));
  smas ← (if 2 <=? format_version then decode_smas format_version else mret None);
  mret {| seg_id := id; seg_file_name := file_name; seg_row_count := row_count;
          seg_min_version := min_version; seg_max_version := max_version;
          seg_schema_fingerprint := fingerprint; seg_min_key := min_key; seg_max_key := max_key;
          seg_bloom := bloom; seg_unique_keys := unique_keys; seg_smas := smas |}.

(** What [read] decodes after the magic. *)
Definition decode_manifest : Dec Manifest :=
  format_version ← dec_u8;
  if negb ((1 <=? format_version) && (format_version <=? MANIFEST_FORMAT_VERSION))
  then fail (msg "unsupported format version" [])
  else
    generation ← dec_u64;
    schema_version ← dec_u32;
    fingerprint ← dec_u64;
    mode_tag ← dec_u8;
    key_mode ← decode_key_mode mode_tag;
    flushed_sequence ← dec_u64;
    next_segment_id ← dec_u64;
    epoch ← dec_u64;
    committed_version ← (if 3 <=? format_version then dec_u64 else mret 0);
    segment_count ← dec_u32;
    segments ← dec_repeat (Z.to_nat segment_count) (decode_segment format_version);
    mret {| man_generation := generation; man_schema_version := schema_version;
            man_schema_fingerprint := fingerprint; man_key_mode := key_mode;
            man_flushed_sequence := flushed_sequence; man_next_segment_id := next_segment_id;
            man_epoch := epoch; man_committed_version := committed_version;
            man_segments := segments |}.

(** [corrupt_here]. *)
Definition corrupt_here (d : Decoder) (reason : message) : StoreError :=
  CorruptManifest (position d) reason.

(** The published segments all precede the next identifier. *)
Definition ids_follow (m : Manifest) : bool :=
  negb (man_next_segment_id m =? 0) &&
  forallb (fun s => seg_id s <? man_next_segment_id m) (man_segments m).

Section manifest.
Context `{Checksum}.

(** A vector never holds more bytes than [isize::MAX]: growing one further panics, which ends
    the call as an error does. *)
Definition manifest_encode (m : Manifest) : result StoreError (list byte) :=
  e ← encode_body m;
  let bytes := enc_u64 e (xxh3_64 e) in
  if len bytes <? 2 ^ 63 then Ok bytes else Err (FormatLimit (msg "capacity overflow" [])).

(** [read] on the bytes of the file, [None] when there is none. *)
Definition manifest_read (file : option (list byte)) : result StoreError (option Manifest) :=
  match file with
  | None => Ok None
  | Some bytes =>
      if len bytes <? 5 + 1 + 8 then Err (CorruptManifest 0 (msg "manifest is too short" []))
      else
        let checksum_offset := len bytes - 8 in
        match get_range bytes 0 checksum_offset, get_range bytes checksum_offset (len bytes) with
        | Some body, Some checksum =>
            if negb (xxh3_64 body =? from_le checksum)
            then Err (CorruptManifest checksum_offset (msg "checksum mismatch" []))
            else
              match dec_take 5 (decoder_new body) with
              | (Err reason, d) => Err (corrupt_here d reason)
              | (Ok magic, d) =>
                  if negb (bool_decide (magic = MANIFEST_MAGIC))
                  then Err (CorruptManifest 0 (msg "invalid magic" []))
                  else
                    match decode_manifest d with
                    | (Err reason, d) => Err (corrupt_here d reason)
                    | (Ok m, d) =>
                        match dec_finish d with
                        | Err reason => Err (CorruptManifest checksum_offset reason)
                        | Ok _ =>
                            if ids_follow m then Ok (Some m)
                            else Err (CorruptManifest 0
                                   (msg "next segment id does not follow published segments" []))
                        end
                    end
              end
        | _, _ => Err (CorruptManifest checksum_offset (msg "invalid checksum" []))
        end
  end.

(** ** Schema fingerprint *)

Definition encode_schema_data_type (e : Encoder) (t : DataType) : Encoder :=
  match t with
  | DBoolean => enc_u8 e 0
  | DInt64 => enc_u8 e 1
  | DUInt64 => enc_u8 e 2
  | DFloat64 => enc_u8 e 3
  | DUtf8 => enc_u8 e 4
  | DBinary => enc_u8 e 5
  | DInt8 => enc_u8 e 6
  | DInt16 => enc_u8 e 7
  | DInt32 => enc_u8 e 8
  | DUInt8 => enc_u8 e 9
  | DUInt16 => enc_u8 e 10
  | DUInt32 => enc_u8 e 11
  | DFloat32 => enc_u8 e 12
  | DDecimal precision scale => enc_u8 (enc_u8 (enc_u8 e 13) precision) scale
  | DDate32 => enc_u8 e 14
  | DDateTime64 fsp => enc_u8 (enc_u8 e 15) fsp
  | DTime64 fsp => enc_u8 (enc_u8 e 16) fsp
  | DJson => enc_u8 e 17
  | DYear => enc_u8 e 18
  end.

Definition fingerprint_column (e : Encoder) (c : Column) : Encoder :=
  let e := encode_schema_data_type (enc_u32 e (col_id c)) (col_data_type c) in
  enc_u8 (enc_raw (enc_u8 e (Z.b2z (col_nullable c))) (col_name c)) 0.

(** The bytes [schema_fingerprint] hashes. *)
Definition fingerprint_bytes (s : TableSchema) : Encoder :=
  let e := enc_u8 (enc_u32 encoder_new (schema_version s)) (encode_key_mode (schema_key_mode s)) in
  let e := enc_u32 e (Z.min u32_max (len (schema_columns s))) in
  foldl fingerprint_column e (schema_columns s).

Definition schema_fingerprint (s : TableSchema) : Z := xxh3_64 (fingerprint_bytes s).

(** ** Loading and publishing *)

Definition manifest_empty (s : TableSchema) : Manifest := {|
  man_generation := 0; man_schema_version := schema_version s;
  man_schema_fingerprint := schema_fingerprint s; man_key_mode := schema_key_mode s;
  man_flushed_sequence := 0; man_next_segment_id := 1; man_epoch := 0;
  man_committed_version := 0; man_segments := []
|}.

Definition manifest_load (file : option (list byte)) (s : TableSchema) : result StoreError Manifest :=
  found ← manifest_read file;
  match found with
  | None => Ok (manifest_empty s)
  | Some m =>
      if schema_version s <? man_schema_version m
      then Err (SchemaMismatch (schema_version s) (man_schema_version m))
      else if (man_schema_version m =? schema_version s)
              && negb (man_schema_fingerprint m =? schema_fingerprint s)
      then Err (SchemaFingerprintMismatch (schema_fingerprint s) (man_schema_fingerprint m))
      else if negb (bool_decide (man_key_mode m = schema_key_mode s))
      then Err (IncompatibleSchema (msg "table key mode cannot change after data is created" []))
      else Ok m
  end.

Definition highest_version_at_rest (file : option (list byte)) : result StoreError (option Z) :=
  found ← manifest_read file;
  Ok (match found with
      | None => None
      | Some m => Some (foldl Z.max (man_committed_version m) (map seg_max_version (man_segments m)))
      end).

(** The segment proves that a live row reads the column as NULL. *)
Definition segment_has_null (s : SegmentFacts) (column_id : Z) : bool :=
  match seg_smas s with
  | None => false
  | Some smas =>
      (0 <? smas_live_rows smas) &&
      match List.find (fun sma => sma_column_id sma =? column_id) (smas_columns smas) with
      | None => true
      | Some sma => sma_non_null sma <? smas_live_rows smas
      end
  end.

Definition columns_with_null_rows_at_rest (file : option (list byte)) (column_ids : list Z)
    : result StoreError (list Z) :=
  found ← manifest_read file;
  Ok (match found with
      | None => []
      | Some m => List.filter (fun id => existsb (fun s => segment_has_null s id) (man_segments m)) column_ids
      end).

Definition segment_files_at_rest (file : option (list byte)) : result StoreError (list str) :=
  found ← manifest_read file;
  Ok (match found with None => [] | Some m => map seg_file_name (man_segments m) end).

(** The two names [publish] uses in the table's directory. *)
Record manifest_dir : Type := {
  dir_manifest : option (list byte);
  dir_temporary : option (list byte)
}.

(** The filesystem calls of [publish]: how many bytes reach the temporary file when
    the write or its sync fails. *)
Record publish_io : Type := {
  pio_create : bool;
  pio_write : option Z;
  pio_rename : bool;
  pio_sync_directory : bool
}.

Definition manifest_publish (dir : manifest_dir) (m : Manifest) (io : publish_io)
    : result StoreError unit * manifest_dir :=
  match manifest_encode m with
  | Err e => (Err e, dir)
  | Ok bytes =>
      if negb (pio_create io) then (Err (Io (msg "create temporary manifest" [])), dir)
      else
        match pio_write io with
        | Some n =>
            (Err (Io (msg "write temporary manifest" [])),
             {| dir_manifest := dir_manifest dir; dir_temporary := Some (take (Z.to_nat n) bytes) |})
        | None =>
            if negb (pio_rename io) then
              (Err (Io (msg "publish manifest" [])),
               {| dir_manifest := dir_manifest dir; dir_temporary := Some bytes |})
            else
              let dir := {| dir_manifest := Some bytes; dir_temporary := None |} in
              if pio_sync_directory io then (Ok tt, dir)
              else (Err (Io (msg "sync directory" [])), dir)
        end
  end.

End manifest.

(** ** Well-formedness: the ranges of the Rust types *)

Definition sum_wf (s : option SmaSum) : bool :=
  match s with
  | None => true
  | Some (SumInt total) => is_i128 total
  | Some (SumFloat bits) => is_u64 bits
  | Some (SumDecimalUnits units scale) => is_i128 units && is_u8 scale
  end.

Definition extremes_wf (x : option SmaExtremes) : bool :=
  match x with
  | None => true
  | Some (ExtInt min max) => is_i64 min && is_i64 max
  | Some (ExtUInt min max) | Some (ExtFloat min max) => is_u64 min && is_u64 max
  | Some (ExtDecimalUnits min max scale) => is_i128 min && is_i128 max && is_u8 scale
  | Some (ExtTemporal min max units) => is_i64 min && is_i64 max &&
      match units with NDate => true | NDateTime fsp => is_u8 fsp | NDecimal scale => is_u8 scale end
  end.

Definition sketch_wf (s : option DistinctSketch) : bool :=
  match s with None => true | Some r => len r =? SKETCH_REGISTERS end.

Definition column_sma_wf (c : ColumnSma) : bool :=
  is_u32 (sma_column_id c) && is_u64 (sma_non_null c) && sum_wf (sma_sum c)
  && extremes_wf (sma_extremes c) && sketch_wf (sma_distinct c).

Definition smas_wf (s : option SegmentSmas) : bool :=
  match s with
  | None => true
  | Some s => is_u64 (smas_live_rows s) && is_u64 (smas_tombstones s)
      && forallb column_sma_wf (smas_columns s)
  end.

Definition segment_wf (s : SegmentFacts) : bool :=
  is_u64 (seg_id s) && utf8_valid (seg_file_name s) && is_u64 (seg_row_count s)
  && is_u64 (seg_min_version s) && is_u64 (seg_max_version s) && is_u64 (seg_schema_fingerprint s)
  && primary_key_wf (seg_min_key s) && primary_key_wf (seg_max_key s) && smas_wf (seg_smas s).

Definition manifest_wf (m : Manifest) : bool :=
  is_u64 (man_generation m) && is_u32 (man_schema_version m) && is_u64 (man_schema_fingerprint m)
  && is_u64 (man_flushed_sequence m) && is_u64 (man_next_segment_id m) && is_u64 (man_epoch m)
  && is_u64 (man_committed_version m) && forallb segment_wf (man_segments m).

(** ** Round trip *)

(** An encoder that cannot fail. *)
Definition total_enc {A} (enc : Encoder -> A -> Encoder) : Encoder -> A -> result StoreError Encoder :=
  fun e a => Ok (enc e a).

(** Give the bytes an infallible encoder appended, then walk the decoder. *)
Ltac start_codec :=
  eexists; split; [rewrite <- ?app_assoc; reflexivity|]; split; [rewrite ?len_app, ?len_to_le; len_lia|].

Ltac split_wf :=
  repeat match goal with
  | H : _ && is_u8 _ = true |- _ => apply andb_prop in H as [H ?]
  | H : _ && is_u32 _ = true |- _ => apply andb_prop in H as [H ?]
  | H : _ && is_u64 _ = true |- _ => apply andb_prop in H as [H ?]
  | H : _ && is_i64 _ = true |- _ => apply andb_prop in H as [H ?]
  | H : _ && is_i128 _ = true |- _ => apply andb_prop in H as [H ?]
  end.

Lemma lor_halves b w : 0 <= w -> Z.lor (Z.shiftl (Z.shiftr b w) w) (b mod 2 ^ w) = b.
Proof.
  intros Hw. apply Z.bits_inj'. intros i Hi. rewrite Z.lor_spec. destruct (Z.lt_ge_cases i w).
  - rewrite Z.shiftl_spec_low, Z.mod_pow2_bits_low by lia. easy.
  - rewrite Z.shiftl_spec_high, Z.shiftr_spec, Z.mod_pow2_bits_high by lia.
    rewrite orb_false_r. f_equal. lia.
Qed.

Lemma decodes_i128 v :
  is_i128 v = true ->
  decodes decode_i128 (to_le 8 (v mod 2 ^ 128 mod 2 ^ 64) ++ to_le 8 (Z.shiftr (v mod 2 ^ 128) 64)) v.
Proof.
  intros Hv. set (b := v mod 2 ^ 128). assert (Hb : 0 <= b < 2 ^ 128) by (apply Z.mod_pos_bound; lia).
  assert (Hh : 0 <= Z.shiftr b 64 < 2 ^ 64).
  { rewrite Z.shiftr_div_pow2 by lia. split; [apply Z.div_pos; lia|].
    apply Z.div_lt_upper_bound; [lia|]. change (2 ^ 64 * 2 ^ 64) with (2 ^ 128). lia. }
  assert (Hl : 0 <= b mod 2 ^ 64 < 2 ^ 64) by (apply Z.mod_pos_bound; lia).
  unfold decode_i128. eapply decodes_bind; [apply decodes_u64; now apply in_unsigned_spec|].
  eapply decodes_bind_ret; [apply decodes_u64; now apply in_unsigned_spec|].
  assert (E : signed 128 (Z.lor (Z.shiftl (Z.shiftr b 64) 64) (b mod 2 ^ 64)) = v).
  { rewrite lor_halves by lia. now apply signed_mod. }
  rewrite E. apply decodes_ret.
Qed.

Lemma decodes_u64_as_i64 v :
  is_i64 v = true -> decodes dec_u64_as_i64 (to_le 8 (v mod 2 ^ 64)) v.
Proof.
  intros Hv. unfold dec_u64_as_i64.
  eapply decodes_bind_ret; [apply decodes_u64, in_unsigned_spec; apply Z.mod_pos_bound; lia|].
  rewrite signed_mod by easy. apply decodes_ret.
Qed.

(** One step of the decoder, whatever the primitive. *)
Ltac manifest_leaf :=
  first [ solve [first [apply decodes_u64_as_i64 | apply decodes_i128]; assumption]
        | solve [apply decodes_take; first [assumption | symmetry; assumption]] | decode_leaf ].
Ltac manifest_steps :=
  repeat first
    [ apply decodes_ret
    | rewrite <- app_assoc
    | eapply decodes_bind; [manifest_leaf | cbv beta; cbn [Z.eqb Pos.eqb]]
    | eapply decodes_bind_ret; [manifest_leaf | cbv beta; cbn [Z.eqb Pos.eqb]] ].

#[export] Instance sum_codec : Codec (total_enc encode_sum) decode_sum sum_wf (fun s => s) 1.
Proof.
  intros e s e' Hv [= <-]. unfold encode_sum, encode_i128, enc_u8, enc_u64.
  destruct s as [[t|b|u sc]|]; simpl in Hv; split_wf; rewrite <- ?app_assoc.
  - start_codec. unfold decode_sum. eapply decodes_bind; [decode_leaf|]. cbn [Z.eqb Pos.eqb].
    eapply decodes_bind_ret; [now apply decodes_i128|]. apply decodes_ret.
  - start_codec. unfold decode_sum. manifest_steps.
  - start_codec. unfold decode_sum. eapply decodes_bind; [decode_leaf|]. cbn [Z.eqb Pos.eqb].
    rewrite app_assoc. eapply decodes_bind; [now apply decodes_i128|]. manifest_steps.
  - start_codec. unfold decode_sum. manifest_steps.
Qed.

Lemma decodes_units e min max units e' :
  is_i64 min = true -> is_i64 max = true ->
  match units with NDate => true | NDateTime fsp => is_u8 fsp | NDecimal scale => is_u8 scale end = true ->
  encode_extremes e (Some (ExtTemporal min max units)) = Ok e' ->
  exists bs, e' = e ++ bs /\ 1 <= len bs /\
    decodes decode_extremes bs (Some (ExtTemporal min max units)).
Proof.
  intros Hmin Hmax Hu. unfold encode_extremes, enc_u8, enc_u64. destruct units; intros [= <-];
    rewrite <- ?app_assoc; start_codec; unfold decode_extremes.
  - manifest_steps. eapply decodes_bind_ret; [unfold decode_units; manifest_steps|]. apply decodes_ret.
  - manifest_steps. eapply decodes_bind_ret; [unfold decode_units; manifest_steps|]. apply decodes_ret.
Qed.

#[export] Instance extremes_codec : Codec encode_extremes decode_extremes extremes_wf (fun s => s) 1.
Proof.
  intros e x e' Hv He. destruct x as [[a b|a b|a b|a b sc|a b u]|]; simpl in Hv.
  - split_wf. revert He. unfold encode_extremes, enc_u8, enc_u64. intros [= <-]. rewrite <- ?app_assoc.
    start_codec. unfold decode_extremes. manifest_steps.
  - split_wf. revert He. unfold encode_extremes, enc_u8, enc_u64. intros [= <-]. rewrite <- ?app_assoc.
    start_codec. unfold decode_extremes. manifest_steps.
  - split_wf. revert He. unfold encode_extremes, enc_u8, enc_u64. intros [= <-]. rewrite <- ?app_assoc.
    start_codec. unfold decode_extremes. manifest_steps.
  - split_wf. revert He. unfold encode_extremes, encode_i128, enc_u8, enc_u64. intros [= <-].
    rewrite <- ?app_assoc. start_codec. unfold decode_extremes.
    eapply decodes_bind; [decode_leaf|]. cbn [Z.eqb Pos.eqb].
    rewrite app_assoc. eapply decodes_bind; [now apply decodes_i128|].
    rewrite app_assoc. eapply decodes_bind; [now apply decodes_i128|]. manifest_steps.
  - apply andb_prop in Hv as [Hv Hu]. split_wf. eapply decodes_units; eauto.
  - revert He. unfold encode_extremes, enc_u8. intros [= <-]. start_codec. unfold decode_extremes. manifest_steps.
Qed.

#[export] Instance sketch_codec : Codec (total_enc encode_sketch) decode_sketch sketch_wf (fun s => s) 1.
Proof.
  intros e s e' Hv [= <-]. unfold encode_sketch, enc_u8, enc_raw.
  destruct s as [r|]; simpl in Hv; rewrite <- ?app_assoc; start_codec; unfold decode_sketch.
  - apply Z.eqb_eq in Hv. eapply decodes_bind; [decode_leaf|]. cbn [Z.eqb Pos.eqb].
    eapply decodes_bind_ret; [now apply decodes_take|]. apply decodes_ret.
  - manifest_steps.
Qed.

#[export] Instance column_sma_codec :
  Codec encode_column_sma (decode_column_sma MANIFEST_FORMAT_VERSION) column_sma_wf (fun c => c) 1.
Proof.
  intros e c e' Hv He.
  apply andb_prop in Hv as [[[[Hid Hnn]%andb_prop Hs]%andb_prop Hx]%andb_prop Hd].
  unfold encode_column_sma, mbind, result_bind in He.
  destruct (encode_extremes _ _) as [e1|] eqn:Ex; [|discriminate]. injection He as <-.
  destruct (sketch_codec e1 (sma_distinct c) _ Hd eq_refl) as (db & Ed & Hld & Hdd). rewrite Ed. clear Ed.
  destruct (extremes_codec _ _ _ Hx Ex) as (xb & -> & Hlx & Hdx).
  destruct (sum_codec (enc_u64 (enc_u32 e (sma_column_id c)) (sma_non_null c)) (sma_sum c) _ Hs eq_refl)
    as (sb & Es & Hls & Hds). rewrite Es. clear Es. unfold enc_u64, enc_u32. rewrite <- !app_assoc.
  eexists. split; [reflexivity|]. split; [rewrite !len_app, !len_to_le; len_lia|].
  unfold decode_column_sma. eapply decodes_bind; [decode_leaf|]. eapply decodes_bind; [decode_leaf|].
  eapply decodes_bind; [exact Hds|]. eapply decodes_bind; [exact Hdx|].
  eapply decodes_bind_ret; [exact Hdd|]. destruct c; apply decodes_ret.
Qed.

#[export] Instance smas_codec :
  Codec encode_smas (decode_smas MANIFEST_FORMAT_VERSION) smas_wf (fun s => s) 1.
Proof.
  intros e s e' Hv He. destruct s as [s|].
  - apply andb_prop in Hv as [[Hl Ht]%andb_prop Hc]. unfold encode_smas, mbind, result_bind in He.
    destruct (enc_length _ _ _) as [e1|] eqn:E1; [|discriminate]. apply enc_length_ok in E1 as [Hlen ->].
    destruct (codec_list encode_column_sma _ _ _ _ _ _ _ Hc He) as (cb & -> & Hlc & Hdc).
    unfold enc_u8, enc_u64. rewrite <- !app_assoc. eexists. split; [reflexivity|].
    split; [rewrite !len_app, !len_to_le; len_lia|]. unfold decode_smas.
    eapply decodes_bind; [decode_leaf|]. cbn [Z.eqb Pos.eqb].
    eapply decodes_bind; [decode_leaf|]. eapply decodes_bind; [decode_leaf|].
    pose proof (len_nonneg (smas_columns s)).
    eapply decodes_bind; [apply decodes_u32, in_unsigned_spec; unfold u32_max in Hlen; lia|].
    rewrite len_to_nat, map_id in *. eapply decodes_bind_ret; [exact Hdc|]. destruct s; apply decodes_ret.
  - injection He as <-. unfold enc_u8. start_codec. unfold decode_smas. manifest_steps.
Qed.

Lemma encode_key_mode_ok mode :
  is_u8 (encode_key_mode mode) = true /\ decodes (decode_key_mode (encode_key_mode mode)) [] mode.
Proof. destruct mode; split; try reflexivity; apply decodes_ret. Qed.

Lemma decodes_flag (b : bool) (m : Dec bool) (f : Z) :
  f = Z.b2z b ->
  decodes (if f =? 0 then mret false else if f =? 1 then mret true else m) [] b.
Proof. intros ->. destruct b; apply decodes_ret. Qed.

#[export] Instance segment_codec :
  Codec encode_segment (decode_segment MANIFEST_FORMAT_VERSION) segment_wf (fun s => s) 1.
Proof.
  intros e s e' Hv He.
  apply andb_prop in Hv as
    [[[[[[[[Hid Hfn]%andb_prop Hrc]%andb_prop Hmin]%andb_prop Hmax]%andb_prop Hfp]%andb_prop Hk1]%andb_prop Hk2]%andb_prop Hsm].
  unfold encode_segment, mbind, result_bind in He.
  destruct (enc_bytes _ (seg_file_name s) _) as [e1|] eqn:E1; [|discriminate].
  destruct (encode_key _ (seg_min_key s)) as [e2|] eqn:E2; [|discriminate].
  destruct (encode_key e2 _) as [e3|] eqn:E3; [|discriminate].
  destruct (enc_bytes e3 _ _) as [e4|] eqn:E4; [|discriminate].
  destruct (smas_codec _ _ _ Hsm He) as (sb & -> & Hls & Hds).
  apply enc_bytes_ok in E4 as [Hb4 ->]. destruct (key_codec _ _ _ Hk2 E3) as (k2 & -> & Hl2 & Hd2).
  destruct (key_codec _ _ _ Hk1 E2) as (k1 & -> & Hl1 & Hd1). apply enc_bytes_ok in E1 as [Hb1 ->].
  unfold enc_u8, enc_u64. rewrite <- !app_assoc. eexists. split; [reflexivity|].
  split; [rewrite !len_app, !len_to_le; len_lia|]. unfold decode_segment.
  eapply decodes_bind; [decode_leaf|]. rewrite (app_assoc (to_le 4 _)).
  eapply decodes_bind; [decode_leaf|]. 
  eapply decodes_bind_nil; [decode_leaf|].
  do 4 (eapply decodes_bind; [decode_leaf|]).
  eapply decodes_bind; [exact Hd1|]. eapply decodes_bind; [exact Hd2|]. rewrite (app_assoc (to_le 4 _)).
  eapply decodes_bind; [decode_leaf|].
  eapply decodes_bind; [apply decodes_u8; now destruct (seg_unique_keys s)|].
  eapply decodes_bind_nil; [apply (decodes_flag (seg_unique_keys s)); reflexivity|].
  eapply decodes_bind_ret; [exact Hds|]. destruct s; apply decodes_ret.
Qed.

Lemma encode_body_decodes m e :
  manifest_wf m = true -> encode_body m = Ok e ->
  exists bs, e = MANIFEST_MAGIC ++ bs /\ 10 <= len bs /\ decodes decode_manifest bs m.
Proof.
  intros Hv He.
  apply andb_prop in Hv as
    [[[[[[[Hg Hsv]%andb_prop Hfp]%andb_prop Hfs]%andb_prop Hns]%andb_prop Hep]%andb_prop Hcv]%andb_prop Hsegs].
  unfold encode_body, mbind, result_bind in He.
  destruct (enc_length _ _ _) as [e1|] eqn:E1; [|discriminate]. apply enc_length_ok in E1 as [Hlen ->].
  destruct (codec_list encode_segment _ _ _ _ _ _ _ Hsegs He) as (sb & -> & Hls & Hds).
  unfold enc_u8, enc_u32, enc_u64, enc_raw, encoder_new. rewrite <- !app_assoc, app_nil_l.
  eexists. split; [reflexivity|]. split; [rewrite !len_app, !len_to_le; len_lia|].
  destruct (encode_key_mode_ok (man_key_mode m)) as [Hku Hkd].
  unfold decode_manifest. eapply decodes_bind; [decode_leaf|]. cbn [Z.leb negb andb].
  do 3 (eapply decodes_bind; [decode_leaf|]). eapply decodes_bind; [decode_leaf|].
  eapply decodes_bind_nil; [exact Hkd|]. do 3 (eapply decodes_bind; [decode_leaf|]).
  eapply decodes_bind; [cbn [Z.leb]; decode_leaf|].
  pose proof (len_nonneg (man_segments m)).
  eapply decodes_bind; [apply decodes_u32, in_unsigned_spec; unfold u32_max in Hlen; lia|].
  rewrite len_to_nat, map_id in *. eapply decodes_bind_ret; [exact Hds|]. destruct m; apply decodes_ret.
Qed.

(** ** The fingerprinted bytes determine the schema *)

(** [enc] of two values followed by anything is equal only for equal values. *)
Definition prefix_free {A} (ok : A -> bool) (enc : A -> list byte) : Prop :=
  forall a b xs ys, ok a = true -> ok b = true -> enc a ++ xs = enc b ++ ys -> a = b /\ xs = ys.

Lemma to_le_prefix_free (n : nat) w : w = 8 * Z.of_nat n -> prefix_free (in_unsigned w) (to_le n).
Proof.
  intros -> a b xs ys Ha%in_unsigned_spec Hb%in_unsigned_spec E.
  apply app_inj_1 in E as [E ->].
  - split; [|easy]. apply (f_equal from_le) in E. rewrite !from_to_le in E.
    now rewrite !Z.mod_small in E by easy.
  - pose proof (len_to_le n a). pose proof (len_to_le n b). unfold len in *. lia.
Qed.

(** The reading of a type that [encode_schema_data_type] wrote. *)
Definition read_schema_type (bs : list byte) : option (DataType * list byte) :=
  match bs with
  | [] => None
  | tag :: bs =>
      let t := byte.unsigned tag in
      if t =? 13 then
        match bs with p :: s :: bs => Some (DDecimal (byte.unsigned p) (byte.unsigned s), bs) | _ => None end
      else if t =? 15 then
        match bs with f :: bs => Some (DDateTime64 (byte.unsigned f), bs) | _ => None end
      else if t =? 16 then
        match bs with f :: bs => Some (DTime64 (byte.unsigned f), bs) | _ => None end
      else
        match nth_error [DBoolean; DInt64; DUInt64; DFloat64; DUtf8; DBinary; DInt8; DInt16; DInt32;
                         DUInt8; DUInt16; DUInt32; DFloat32; DBoolean; DDate32; DBoolean; DBoolean;
                         DJson; DYear] (Z.to_nat t) with
        | Some d => Some (d, bs)
        | None => None
        end
  end.

Lemma unsigned_of_u8 v : is_u8 v = true -> byte.unsigned (byte.of_Z v) = v.
Proof.
  intros [? ?]%in_unsigned_spec. rewrite byte.unsigned_of_Z. unfold byte.wrap. apply Z.mod_small. lia.
Qed.

Lemma to_le_1 v : to_le 1 v = [byte.of_Z v].
Proof. reflexivity. Qed.

Lemma read_schema_type_ok t rest :
  DataType_wf t = true ->
  read_schema_type (encode_schema_data_type [] t ++ rest) = Some (t, rest).
Proof.
  destruct t; cbn [DataType_wf encode_schema_data_type]; intros Hw; unfold enc_u8;
    rewrite ?app_nil_l, ?to_le_1; try reflexivity.
  - apply andb_prop in Hw as [Hp Hs]. cbn -[byte.unsigned byte.of_Z].
    change (byte.unsigned (byte.of_Z 13)) with 13. cbn -[byte.unsigned byte.of_Z].
    now rewrite !unsigned_of_u8.
  - cbn -[byte.unsigned byte.of_Z]. change (byte.unsigned (byte.of_Z 15)) with 15.
    cbn -[byte.unsigned byte.of_Z]. now rewrite unsigned_of_u8.
  - cbn -[byte.unsigned byte.of_Z]. change (byte.unsigned (byte.of_Z 16)) with 16.
    cbn -[byte.unsigned byte.of_Z]. now rewrite unsigned_of_u8.
Qed.

Lemma schema_type_prefix_free : prefix_free DataType_wf (encode_schema_data_type []).
Proof.
  intros a b xs ys Ha Hb E. pose proof (read_schema_type_ok a xs Ha) as E1.
  rewrite E, read_schema_type_ok in E1 by easy. injection E1 as -> ->. easy.
Qed.

Definition no_nul (s : str) : bool := forallb (fun b => negb (byte.unsigned b =? 0)) s.

Lemma name_prefix_free : prefix_free no_nul (fun s => s ++ to_le 1 0).
Proof.
  intros a. induction a as [|x a IH]; intros [|y b] xs ys Ha Hb; rewrite ?app_nil_l, ?to_le_1; simpl.
  - intros [= ->]. easy.
  - intros [= <- _]. discriminate.
  - intros [= -> _]. discriminate.
  - intros [= -> E]. simpl in Ha, Hb. apply andb_prop in Ha as [_ Ha], Hb as [_ Hb].
    rewrite to_le_1 in IH. destruct (IH b xs ys Ha Hb E) as [-> ->]. easy.
Qed.

(** What the fingerprint reads of a column. *)
Definition column_shape (c : Column) : Z * DataType * bool * str :=
  (col_id c, col_data_type c, col_nullable c, col_name c).

Definition column_shape_wf (c : Column) : bool :=
  is_u32 (col_id c) && DataType_wf (col_data_type c) && no_nul (col_name c).

Definition fingerprint_column_bytes (c : Column) : list byte :=
  to_le 4 (col_id c) ++ encode_schema_data_type [] (col_data_type c)
    ++ to_le 1 (Z.b2z (col_nullable c)) ++ col_name c ++ to_le 1 0.

Lemma encode_schema_data_type_app e t :
  encode_schema_data_type e t = e ++ encode_schema_data_type [] t.
Proof. destruct t; unfold encode_schema_data_type, enc_u8; rewrite <- ?app_assoc; reflexivity. Qed.

Lemma fingerprint_column_app e c : fingerprint_column e c = e ++ fingerprint_column_bytes c.
Proof.
  unfold fingerprint_column, fingerprint_column_bytes, enc_u8, enc_u32, enc_raw.
  rewrite encode_schema_data_type_app. now rewrite <- !app_assoc.
Qed.

Lemma foldl_fingerprint e cs :
  foldl fingerprint_column e cs = e ++ concat (map fingerprint_column_bytes cs).
Proof.
  revert e; induction cs as [|c cs IH]; intros e; cbn [foldl map concat]; [now rewrite app_nil_r|].
  now rewrite IH, fingerprint_column_app, app_assoc.
Qed.

Lemma column_bytes_shape c d xs ys :
  column_shape_wf c = true -> column_shape_wf d = true ->
  fingerprint_column_bytes c ++ xs = fingerprint_column_bytes d ++ ys ->
  column_shape c = column_shape d /\ xs = ys.
Proof.
  unfold column_shape_wf. intros [[Hc1 Hc2]%andb_prop Hc3]%andb_prop [[Hd1 Hd2]%andb_prop Hd3]%andb_prop.
  unfold fingerprint_column_bytes. rewrite <- !app_assoc. intros E.
  apply (to_le_prefix_free 4 32 eq_refl) in E as [E1 E]; auto.
  apply schema_type_prefix_free in E as [E2 E]; auto.
  apply (to_le_prefix_free 1 8 eq_refl) in E as [E3 E]; [|now destruct (col_nullable c)|now destruct (col_nullable d)].
  rewrite 2!app_assoc in E. apply name_prefix_free in E as [E4 ->]; auto.
  split; [|easy]. unfold column_shape.
  assert (col_nullable c = col_nullable d) as -> by (destruct (col_nullable c), (col_nullable d); easy).
  now rewrite E1, E2, E4.
Qed.

Lemma columns_bytes_shape cs ds :
  length cs = length ds -> forallb column_shape_wf cs = true -> forallb column_shape_wf ds = true ->
  concat (map fingerprint_column_bytes cs) = concat (map fingerprint_column_bytes ds) ->
  map column_shape cs = map column_shape ds.
Proof.
  revert ds; induction cs as [|c cs IH]; intros [|d ds] Hl; try discriminate Hl; [easy|].
  cbn [forallb map concat]. intros [Hc Hcs]%andb_prop [Hd Hds]%andb_prop E.
  apply column_bytes_shape in E as [E1 E2]; auto. f_equal; auto.
Qed.

(** The ranges of a schema's parts, and names without NUL bytes. *)
Definition schema_shape_wf (s : TableSchema) : bool :=
  is_u32 (schema_version s) && (len (schema_columns s) <=? u32_max)
  && forallb column_shape_wf (schema_columns s).

Section manifest_properties.
Context `{Checksum}.

Lemma len_MANIFEST_MAGIC : len MANIFEST_MAGIC = 5.
Proof. reflexivity. Qed.

Lemma manifest_read_encoded m bytes :
  manifest_wf m = true -> ids_follow m = true -> manifest_encode m = Ok bytes ->
  manifest_read (Some bytes) = Ok (Some m).
Proof.
  intros Hw Hi He. unfold manifest_encode, mbind, result_bind in He.
  destruct (encode_body m) as [e|] eqn:Eb; [|discriminate]. destruct (Z.ltb_spec (len (enc_u64 e (xxh3_64 e))) (2 ^ 63)) as [Hl|]; [|discriminate].
  injection He as <-.
  destruct (encode_body_decodes _ _ Hw Eb) as (bs & -> & Hbs & Hd). unfold enc_u64 in *.
  set (h := xxh3_64 _) in *. set (body := MANIFEST_MAGIC ++ bs) in *.
  assert (Hlb : len body = 5 + len bs) by (unfold body; now rewrite len_app).
  assert (Hlt : len (body ++ to_le 8 h) = len body + 8) by (rewrite len_app, len_to_le; lia).
  unfold manifest_read. rewrite Hlt in *. destruct (Z.ltb_spec (len body + 8) (5 + 1 + 8)); [lia|].
  replace (len body + 8 - 8) with (len body) by lia.
  rewrite (get_range_app [] body (to_le 8 h)) by reflexivity.
  pose proof (get_range_app body (to_le 8 h) [] (len body) (len body + 8)) as Hg. rewrite app_nil_r in Hg.
  rewrite Hg by (rewrite ?len_to_le; lia). clear Hg. fold h.
  rewrite from_le_u64 by apply xxh3_64_range. fold h. rewrite Z.eqb_refl. cbn [negb].
  pose proof (decodes_take MANIFEST_MAGIC 5 eq_refl [] bs 0) as Ht.
  unfold cursor, past in Ht. rewrite app_nil_l, len_nil, Z.add_0_l in Ht. fold body in Ht.
  unfold decoder_new. rewrite Ht by lia. clear Ht. rewrite bool_decide_true by easy. cbn [negb].
  specialize (Hd MANIFEST_MAGIC [] 0). unfold cursor, past in Hd. rewrite app_nil_r in Hd. fold body in Hd.
  rewrite Hd by lia. unfold dec_finish. cbn [dec_position dec_bytes]. rewrite len_MANIFEST_MAGIC, <- Hlb, Z.eqb_refl.
  now rewrite Hi.
Qed.

(** How a publication ends: the new manifest is in place; the old one is, after a failure; or the
    new one is and only the directory could not be synchronized. *)
Lemma publish_cases dir m io r dir' :
  manifest_wf m = true -> ids_follow m = true -> manifest_publish dir m io = (r, dir') ->
  match r with
  | Ok _ => manifest_read (dir_manifest dir') = Ok (Some m)
  | Err _ => dir_manifest dir' = dir_manifest dir \/ (pio_sync_directory io = false /\ manifest_read (dir_manifest dir') = Ok (Some m))
  end.
Proof.
  intros Hw Hi. unfold manifest_publish. destruct (manifest_encode m) as [bytes|] eqn:He; [|intros [= <- <-]; now left].
  pose proof (manifest_read_encoded _ _ Hw Hi He) as Hr.
  destruct (pio_create io); cbn [negb]; [|intros [= <- <-]; now left]. destruct (pio_write io); [intros [= <- <-]; now left|].
  destruct (pio_rename io); cbn [negb]; [|intros [= <- <-]; now left]. destruct (pio_sync_directory io); intros [= <- <-]; auto.
Qed.

(** C38. A manifest whose segment identifiers precede the next one is read back
    from its encoding unchanged, segments and aggregates included. *)
Theorem manifest_roundtrip m bytes :
  manifest_wf m = true -> ids_follow m = true -> manifest_encode m = Ok bytes ->
  manifest_read (Some bytes) = Ok (Some m).
Proof. apply manifest_read_encoded. Qed.

(** Publication is atomic: whatever filesystem call of [publish] fails, and
    however much of the temporary file was written, the directory reads as the manifest it
    held before or as the new one, and as the new one when [publish] succeeds. *)
Theorem publish_atomic dir m io r dir' :
  manifest_wf m = true -> ids_follow m = true -> manifest_publish dir m io = (r, dir') ->
  (manifest_read (dir_manifest dir') = manifest_read (dir_manifest dir) \/
   manifest_read (dir_manifest dir') = Ok (Some m)) /\
  (r = Ok tt -> manifest_read (dir_manifest dir') = Ok (Some m)).
Proof.
  intros Hw Hi Hp. apply publish_cases in Hp; [|easy..]. destruct r as [[]|e]; [auto|]. split; [|discriminate].
  destruct Hp as [->|[_ ->]]; auto.
Qed.

(** [load] gives the empty manifest when there is no file, and otherwise the
    stored one exactly when it is not from a newer schema version, has the fingerprint of
    the schema when the versions are equal, and has its key mode. *)
Theorem manifest_load_spec file s m :
  manifest_load file s = Ok m <->
    (manifest_read file = Ok None /\ m = manifest_empty s) \/
    (manifest_read file = Ok (Some m) /\ man_schema_version m <= schema_version s /\
     (man_schema_version m = schema_version s -> man_schema_fingerprint m = schema_fingerprint s) /\
     man_key_mode m = schema_key_mode s).
Proof.
  unfold manifest_load, mbind, result_bind. destruct (manifest_read file) as [[m0|]|e].
  - destruct (Z.ltb_spec (schema_version s) (man_schema_version m0)).
    { split; [discriminate|]. intros [[? ?]|([= ->] & ? & _)]; [discriminate|lia]. }
    destruct (Z.eqb_spec (man_schema_version m0) (schema_version s)) as [Ev|Ev];
      destruct (Z.eqb_spec (man_schema_fingerprint m0) (schema_fingerprint s)) as [Ef|Ef]; cbn [negb andb];
      try (split; [discriminate|]; intros [[? ?]|([= ->] & _ & Hf & _)]; [discriminate|tauto]);
      (destruct (bool_decide_reflect (man_key_mode m0 = schema_key_mode s)) as [Ek|Ek]; cbn [negb];
       [split; [intros [= <-]; right; repeat split; auto; try lia; tauto
               |intros [[? ?]|([= ->] & _)]; [discriminate|easy]]
       |split; [discriminate|intros [[? ?]|([= ->] & _ & _ & ?)]; [discriminate|tauto]]]).
  - split; [intros [= <-]; now left|]. intros [[_ ->]|[? _]]; [easy|discriminate].
  - split; [discriminate|]. intros [[? _]|[? _]]; discriminate.
Qed.

(** The bytes behind the schema fingerprint determine the version, the key mode
    and each column's identifier, type, nullability and name, when no name holds a NUL
    byte: two schemas share a fingerprint only by agreeing on these or by a collision of
    the hash. *)
Theorem fingerprint_bytes_injective s t :
  schema_shape_wf s = true -> schema_shape_wf t = true -> fingerprint_bytes s = fingerprint_bytes t ->
  schema_version s = schema_version t /\ schema_key_mode s = schema_key_mode t /\
  map column_shape (schema_columns s) = map column_shape (schema_columns t).
Proof.
  unfold schema_shape_wf.
  intros [[Hs1 Hs2%Z.leb_le]%andb_prop Hs3]%andb_prop [[Ht1 Ht2%Z.leb_le]%andb_prop Ht3]%andb_prop.
  unfold fingerprint_bytes. rewrite !foldl_fingerprint. unfold enc_u8, enc_u32, encoder_new.
  rewrite !app_nil_l, <- !app_assoc. intros E.
  apply (to_le_prefix_free 4 32 eq_refl) in E as [E1 E]; auto.
  apply (to_le_prefix_free 1 8 eq_refl) in E as [E2 E]; [|now destruct (schema_key_mode s)|now destruct (schema_key_mode t)].
  rewrite !Z.min_r in E by easy. pose proof (len_nonneg (schema_columns s)). pose proof (len_nonneg (schema_columns t)).
  unfold u32_max in *.
  apply (to_le_prefix_free 4 32 eq_refl) in E as [E3 E]; [|apply in_unsigned_spec; lia..].
  split; [easy|]. split; [destruct (schema_key_mode s), (schema_key_mode t); easy|].
  apply columns_bytes_shape; auto. unfold len in E3. lia.
Qed.

End manifest_properties.

(** ** Witnesses *)

Module ManifestExamples.

#[local] Existing Instance WalExamples.example_checksum.

Definition example_segment : SegmentFacts := {|
  seg_id := 3; seg_file_name := map byte.of_Z [115; 51]; seg_row_count := 2; seg_min_version := 4;
  seg_max_version := 9; seg_schema_fingerprint := 77; seg_min_key := [PInt64 (-1)];
  seg_max_key := [PInt64 8]; seg_bloom := [Byte.x01; Byte.xff]; seg_unique_keys := true;
  seg_smas := Some {| smas_live_rows := 2; smas_tombstones := 0; smas_columns := [
    {| sma_column_id := 1; sma_non_null := 2; sma_sum := Some (SumDecimalUnits (-5) 2);
       sma_extremes := Some (ExtTemporal (-7) 12 (NDateTime 6)); sma_distinct := None |};
    {| sma_column_id := 2; sma_non_null := 1; sma_sum := Some (SumInt (-(2 ^ 100)));
       sma_extremes := Some (ExtInt (-2) 9); sma_distinct := Some (repeat Byte.x03 64) |}] |}
|}.

Definition example_manifest : Manifest := {|
  man_generation := 12; man_schema_version := 1;
  man_schema_fingerprint := schema_fingerprint WalExamples.example_schema;
  man_key_mode := KMPrimary; man_flushed_sequence := 40; man_next_segment_id := 4; man_epoch := 1;
  man_committed_version := 0; man_segments := [example_segment]
|}.

Definition example_manifest_bytes : list byte :=
  match manifest_encode example_manifest with Ok b => b | Err _ => [] end.

Lemma manifest_roundtrip_witness :
  manifest_read (Some example_manifest_bytes) = Ok (Some example_manifest).
Proof. apply (manifest_roundtrip example_manifest example_manifest_bytes); vm_compute; reflexivity. Defined.

(** A rename that fails after the temporary file was written. *)
Definition rename_fails : publish_io :=
  {| pio_create := true; pio_write := None; pio_rename := false; pio_sync_directory := true |}.

Lemma publish_atomic_witness :
  (manifest_read None = manifest_read None \/ manifest_read None = Ok (Some example_manifest)) /\
  (@Err StoreError unit (Io (msg "publish manifest" [])) = Ok tt ->
   manifest_read None = Ok (Some example_manifest)).
Proof.
  apply (publish_atomic {| dir_manifest := None; dir_temporary := None |} example_manifest rename_fails
    (Err (Io (msg "publish manifest" [])))
    {| dir_manifest := None; dir_temporary := Some example_manifest_bytes |});
    vm_compute; reflexivity.
Defined.

Lemma fingerprint_bytes_injective_witness :
  schema_version WalExamples.example_schema = schema_version WalExamples.example_schema /\
  schema_key_mode WalExamples.example_schema = schema_key_mode WalExamples.example_schema /\
  map column_shape (schema_columns WalExamples.example_schema) =
    map column_shape (schema_columns WalExamples.example_schema).
Proof.
  apply (fingerprint_bytes_injective WalExamples.example_schema WalExamples.example_schema);
    vm_compute; reflexivity.
Defined.

End ManifestExamples.
