(* ===== verification/Text.v ===== *)
(** * Decimal text

    ASCII digits as Rust's integer formatting and parsing use them: the shortest
    decimal text of a number, zero padding, and the value of a digit string.  Shared
    by the wide-integer and canonical-text components. *)

From Stdlib Require Import ZArith Lia String.
From stdpp Require Import prelude list.
From coqutil Require Import Byte.
From S2P Require Import Prelude.
From S2P Require Import Types.

#[local] Open Scope Z_scope.

(** The bytes of an ASCII literal, [b"..."]. *)
Definition ascii (s : String.string) : list byte := String.list_byte_of_string s.
Arguments ascii _%_string.

(** [==] on byte slices. *)
Definition bytes_eqb (a b : list byte) : bool := bool_decide (a = b).

(** [b'0'..=b'9']. *)
Definition is_digit (b : byte) : bool := byte_in 48 57 b.

(** [byte - b'0']. *)
Definition digit_of (b : byte) : Z := byte.unsigned b - 48.

Definition digit_byte (d : Z) : byte := byte.of_Z (48 + d).

Definition zero_byte : byte := digit_byte 0.
Definition minus_byte : byte := byte.of_Z 45.
Definition plus_byte : byte := byte.of_Z 43.
Definition dot_byte : byte := byte.of_Z 46.
Definition colon_byte : byte := byte.of_Z 58.
Definition space_byte : byte := byte.of_Z 32.

Definition byte_eqb (a b : byte) : bool := byte.unsigned a =? byte.unsigned b.

(** The number a digit string denotes. *)
Definition digits_value (bs : list byte) : Z := foldl (fun acc b => 10 * acc + digit_of b) 0 bs.

Fixpoint dec_text_aux (fuel : nat) (z : Z) (acc : list byte) : list byte :=
  match fuel with
  | O => acc
  | S fuel =>
      if z <? 10 then digit_byte z :: acc
      else dec_text_aux fuel (z / 10) (digit_byte (z mod 10) :: acc)
  end.

(** [to_string] of an unsigned integer; a number has at most one digit more than
    its binary logarithm. *)
Definition dec_text (z : Z) : list byte := dec_text_aux (S (Z.to_nat (Z.log2 z))) z [].

(** [format!("{text:0>width$}")]. *)
Definition pad_zeros (width : Z) (bs : list byte) : list byte :=
  replicate (Z.to_nat (width - len bs)) zero_byte ++ bs.

(** [format!("{z:0width$}")] of an unsigned integer. *)
Definition dec_padded (width z : Z) : list byte := pad_zeros width (dec_text z).

Definition all_digits (bs : list byte) : bool := forallb is_digit bs.

(** ** Lemmas *)

Lemma byte_eqb_spec a b : byte_eqb a b = true <-> a = b.
Proof.
  unfold byte_eqb. rewrite Z.eqb_eq. split; [apply byte.unsigned_inj | congruence].
Qed.

Lemma is_digit_spec b : is_digit b = true <-> 0 <= digit_of b <= 9.
Proof. unfold is_digit, byte_in, digit_of. rewrite andb_true_iff, !Z.leb_le. lia. Qed.

Lemma digit_of_byte d : 0 <= d <= 9 -> digit_of (digit_byte d) = d.
Proof.
  intros Hd. unfold digit_of, digit_byte. rewrite byte.unsigned_of_Z. unfold byte.wrap.
  rewrite Z.mod_small by lia. lia.
Qed.

Lemma is_digit_byte d : 0 <= d <= 9 -> is_digit (digit_byte d) = true.
Proof. intros. apply is_digit_spec. now rewrite digit_of_byte. Qed.

Lemma digit_byte_of b : is_digit b = true -> digit_byte (digit_of b) = b.
Proof.
  intros Hb%is_digit_spec. apply byte.unsigned_inj. unfold digit_of, digit_byte in *.
  rewrite byte.unsigned_of_Z. unfold byte.wrap. rewrite Z.mod_small; lia.
Qed.

Lemma foldl_digits acc bs :
  foldl (fun acc b => 10 * acc + digit_of b) acc bs = acc * 10 ^ len bs + digits_value bs.
Proof.
  unfold digits_value. revert acc. induction bs as [|b bs IH]; intros acc; cbn [foldl].
  { rewrite len_nil. lia. }
  rewrite IH, (IH (10 * 0 + digit_of b)), len_cons, Z.pow_add_r by (pose proof (len_nonneg bs); lia). lia.
Qed.

Lemma digits_value_cons b bs : digits_value (b :: bs) = digit_of b * 10 ^ len bs + digits_value bs.
Proof. unfold digits_value at 1. cbn [foldl]. rewrite foldl_digits. lia. Qed.

Lemma digits_value_app a b : digits_value (a ++ b) = digits_value a * 10 ^ len b + digits_value b.
Proof. unfold digits_value at 1. rewrite foldl_app. apply foldl_digits. Qed.

Lemma digits_value_range bs : all_digits bs = true -> 0 <= digits_value bs < 10 ^ len bs.
Proof.
  induction bs as [|b bs IH]; cbn [all_digits forallb].
  { intros _. change (0 <= 0 < 10 ^ 0). lia. }
  intros [Hb%is_digit_spec Hbs]%andb_prop. specialize (IH Hbs).
  rewrite digits_value_cons, len_cons, Z.pow_add_r by (pose proof (len_nonneg bs); lia). nia.
Qed.

Lemma digits_value_inj a b :
  all_digits a = true -> all_digits b = true -> len a = len b ->
  digits_value a = digits_value b -> a = b.
Proof.
  revert b; induction a as [|x a IH]; intros [|y b] Ha Hb Hl; [easy|len_lia..|].
  rewrite !len_cons in Hl.
  cbn [all_digits forallb] in Ha, Hb. apply andb_prop in Ha as [Hx Ha], Hb as [Hy Hb].
  rewrite !digits_value_cons. replace (len b) with (len a) by lia. intros E.
  pose proof (digits_value_range a Ha). pose proof (digits_value_range b Hb) as Hrb.
  replace (len b) with (len a) in Hrb by lia.
  assert (digit_of x = digit_of y) as Ed by nia.
  f_equal; [|apply IH; auto; lia].
  rewrite <- (digit_byte_of x), <- (digit_byte_of y) by easy. now rewrite Ed.
Qed.

Lemma all_digits_app a b : all_digits (a ++ b) = all_digits a && all_digits b.
Proof. apply forallb_app. Qed.

Lemma dec_text_aux_spec fuel z acc :
  (0 < fuel)%nat -> 0 <= z < 2 ^ Z.of_nat fuel -> exists ds,
    dec_text_aux fuel z acc = ds ++ acc /\ all_digits ds = true /\ digits_value ds = z /\
    1 <= len ds /\ (z = 0 -> len ds = 1) /\ (0 < z -> 10 ^ (len ds - 1) <= z).
Proof.
  revert z acc. induction fuel as [|fuel IH]; intros z acc Hf Hz; [lia|]. cbn [dec_text_aux].
  destruct (Z.ltb_spec z 10).
  - exists [digit_byte z]. split; [easy|]. split; [cbn; rewrite is_digit_byte by lia; easy|].
    split; [unfold digits_value; cbn [foldl]; rewrite digit_of_byte by lia; lia|].
    rewrite len_cons, len_nil. split; [lia|]. split; [lia|]. intros; change (10 ^ (1 + 0 - 1)) with 1; lia.
  - assert (0 < fuel)%nat by (destruct fuel; [cbn in Hz; lia|lia]).
    destruct (IH (z / 10) (digit_byte (z mod 10) :: acc)) as (ds & E & Hd & Hv & Hl & Hz0 & Hp); [lia|..].
    { rewrite Nat2Z.inj_succ, Z.pow_succ_r in Hz by lia. split; [apply Z.div_pos; lia|].
      apply Z.div_lt_upper_bound; lia. }
    assert (0 <= z mod 10 <= 9) by (pose proof (Z.mod_pos_bound z 10); lia).
    exists (ds ++ [digit_byte (z mod 10)]). rewrite E, <- app_assoc. split; [easy|].
    split; [rewrite all_digits_app, Hd; cbn; now rewrite is_digit_byte|].
    split; [rewrite digits_value_app, Hv; unfold digits_value; cbn [foldl];
            rewrite digit_of_byte, len_cons, len_nil by easy; cbn; pose proof (Z.div_mod z 10); lia|].
    rewrite len_app, len_cons, len_nil. split; [lia|]. split; [lia|]. intros _.
    replace (len ds + (1 + 0) - 1) with (Z.succ (len ds - 1)) by lia. rewrite Z.pow_succ_r by lia.
    assert (0 < z / 10) as Hq by (apply Z.div_str_pos; lia). specialize (Hp Hq).
    pose proof (Z.mul_div_le z 10). lia.
Qed.

Lemma dec_text_spec z :
  0 <= z ->
  all_digits (dec_text z) = true /\ digits_value (dec_text z) = z /\ 1 <= len (dec_text z) /\
  (z = 0 -> len (dec_text z) = 1) /\ (0 < z -> 10 ^ (len (dec_text z) - 1) <= z < 10 ^ len (dec_text z)).
Proof.
  intros Hz. unfold dec_text.
  destruct (dec_text_aux_spec (S (Z.to_nat (Z.log2 z))) z []) as (ds & E & Hd & Hv & Hl & H0 & Hp); [lia|..].
  { split; [easy|]. rewrite Nat2Z.inj_succ, Z2Nat.id by apply Z.log2_nonneg.
    destruct (Z.eq_dec z 0) as [->|]; [cbn; lia|]. apply Z.log2_spec. lia. }
  rewrite E, app_nil_r. repeat (split; [easy|]). intros Hpos. split; [auto|].
  pose proof (digits_value_range ds Hd). lia.
Qed.

Lemma dec_text_digits z : 0 <= z -> all_digits (dec_text z) = true.
Proof. intros. now apply dec_text_spec. Qed.
Lemma dec_text_value z : 0 <= z -> digits_value (dec_text z) = z.
Proof. intros. now apply dec_text_spec. Qed.
Lemma dec_text_nonempty z : 0 <= z -> 1 <= len (dec_text z).
Proof. intros. now apply dec_text_spec. Qed.

(** A number below [10 ^ n] needs at most [n] digits. *)
Lemma dec_text_len z n : 1 <= n -> 0 <= z < 10 ^ n -> len (dec_text z) <= n.
Proof.
  intros Hn [Hz Hlt]. destruct (dec_text_spec z Hz) as (_ & _ & Hl & H0 & Hp).
  destruct (Z.eq_dec z 0) as [E|E]; [rewrite (H0 E); lia|]. destruct Hp as [Hp _]; [lia|].
  destruct (Z.le_gt_cases (len (dec_text z)) n); [easy|]. exfalso.
  assert (10 ^ n <= 10 ^ (len (dec_text z) - 1)) by (apply Z.pow_le_mono_r; lia). lia.
Qed.

Lemma len_replicate {A} n (x : A) : len (replicate n x) = Z.of_nat n.
Proof. unfold len. now rewrite length_replicate. Qed.

Lemma replicate_zero_digits n : all_digits (replicate n zero_byte) = true /\ digits_value (replicate n zero_byte) = 0.
Proof.
  induction n as [|n [IH1 IH2]]; [easy|]. cbn [replicate all_digits forallb]. split; [easy|].
  rewrite digits_value_cons, IH2. change (digit_of zero_byte) with 0. lia.
Qed.

Lemma pad_zeros_value w bs : digits_value (pad_zeros w bs) = digits_value bs.
Proof.
  unfold pad_zeros. rewrite digits_value_app. destruct (replicate_zero_digits (Z.to_nat (w - len bs))) as [_ ->]. lia.
Qed.

Lemma pad_zeros_digits w bs : all_digits (pad_zeros w bs) = all_digits bs.
Proof.
  unfold pad_zeros. rewrite all_digits_app. now destruct (replicate_zero_digits (Z.to_nat (w - len bs))) as [-> _].
Qed.

Lemma len_pad_zeros w bs : len (pad_zeros w bs) = Z.max w (len bs).
Proof. unfold pad_zeros. rewrite len_app, len_replicate. pose proof (len_nonneg bs). lia. Qed.

Lemma dec_padded_spec w z :
  1 <= w -> 0 <= z < 10 ^ w ->
  all_digits (dec_padded w z) = true /\ digits_value (dec_padded w z) = z /\ len (dec_padded w z) = w.
Proof.
  intros Hw Hz. unfold dec_padded. rewrite pad_zeros_digits, pad_zeros_value, len_pad_zeros.
  split; [apply dec_text_digits; lia|]. split; [apply dec_text_value; lia|].
  pose proof (dec_text_len z w Hw Hz). lia.
Qed.

(** ** Trimming, splitting and integer parsing *)

(** One Unicode white-space character at the front of UTF-8 bytes: the bytes after it. *)
Definition strip_white (bs : list byte) : option (list byte) :=
  match bs with
  | a :: r =>
      if byte_in 9 13 a || byte_in 32 32 a then Some r
      else
        match r with
        | b :: r2 =>
            if byte_in 194 194 a && (byte_in 133 133 b || byte_in 160 160 b) then Some r2
            else
              match r2 with
              | c :: r3 =>
                  if (byte_in 225 225 a && byte_in 154 154 b && byte_in 128 128 c)
                     || (byte_in 226 226 a && byte_in 128 128 b
                         && (byte_in 128 138 c || byte_in 168 169 c || byte_in 175 175 c))
                     || (byte_in 226 226 a && byte_in 129 129 b && byte_in 159 159 c)
                     || (byte_in 227 227 a && byte_in 128 128 b && byte_in 128 128 c)
                  then Some r3 else None
              | [] => None
              end
        | [] => None
        end
  | [] => None
  end.

(** The same at the back, on the reversed bytes. *)
Definition strip_white_rev (bs : list byte) : option (list byte) :=
  match bs with
  | a :: r =>
      if byte_in 9 13 a || byte_in 32 32 a then Some r
      else
        match r with
        | b :: r2 =>
            if byte_in 194 194 b && (byte_in 133 133 a || byte_in 160 160 a) then Some r2
            else
              match r2 with
              | c :: r3 =>
                  if (byte_in 225 225 c && byte_in 154 154 b && byte_in 128 128 a)
                     || (byte_in 226 226 c && byte_in 128 128 b
                         && (byte_in 128 138 a || byte_in 168 169 a || byte_in 175 175 a))
                     || (byte_in 226 226 c && byte_in 129 129 b && byte_in 159 159 a)
                     || (byte_in 227 227 c && byte_in 128 128 b && byte_in 128 128 a)
                  then Some r3 else None
              | [] => None
              end
        | [] => None
        end
  | [] => None
  end.

Fixpoint strip_all (strip : list byte -> option (list byte)) (fuel : nat) (bs : list byte) : list byte :=
  match fuel with
  | O => bs
  | S fuel => match strip bs with Some r => strip_all strip fuel r | None => bs end
  end.

(** [str::trim_start], [str::trim_end] and [str::trim]; each character stripped is at
    least one byte. *)
Definition trim_start (bs : list byte) : list byte := strip_all strip_white (length bs) bs.
Definition trim_end (bs : list byte) : list byte := rev (strip_all strip_white_rev (length bs) (rev bs)).
Definition trim (bs : list byte) : list byte := trim_end (trim_start bs).

(** [split_once] at the first byte that satisfies [p] (an ASCII pattern). *)
Fixpoint split_once (p : byte -> bool) (bs : list byte) : option (list byte * list byte) :=
  match bs with
  | [] => None
  | b :: bs =>
      if p b then Some ([], bs)
      else match split_once p bs with Some (x, y) => Some (b :: x, y) | None => None end
  end.

(** [split] at every byte that satisfies [p], the pieces in order. *)
Fixpoint split_all (p : byte -> bool) (bs : list byte) : list (list byte) :=
  match bs with
  | [] => [[]]
  | b :: bs =>
      if p b then [] :: split_all p bs
      else match split_all p bs with
           | piece :: pieces => (b :: piece) :: pieces
           | [] => [[b]]
           end
  end.

(** [strip_prefix] of one ASCII character. *)
Definition strip_byte (c : byte) (bs : list byte) : option (list byte) :=
  match bs with b :: r => if byte_eqb b c then Some r else None | [] => None end.

(** [parse::<i64>]: an optional sign, then digits, within the range. *)
Definition parse_i64 (bs : list byte) : option Z :=
  let '(negative, ds) :=
    match bs with
    | b :: r => if byte_eqb b minus_byte then (true, r)
                else if byte_eqb b plus_byte then (false, r) else (false, bs)
    | [] => (false, [])
    end in
  match ds with
  | [] => None
  | _ =>
      if all_digits ds then
        let v := if negative then - digits_value ds else digits_value ds in
        if is_i64 v then Some v else None
      else None
  end.

(** ** Rounding *)

(** Division rounded half away from zero. *)
Definition round_half_away (a b : Z) : Z :=
  Z.sgn a * Z.sgn b * ((2 * Z.abs a + Z.abs b) / (2 * Z.abs b)).

Lemma half_up_quotient a b :
  0 <= a -> 0 < b ->
  (2 * a + b) / (2 * b) = if 2 * (a mod b) <? b then a / b else a / b + 1.
Proof.
  intros Ha Hb. pose proof (Z.div_mod a b). pose proof (Z.mod_pos_bound a b).
  destruct (Z.ltb_spec (2 * (a mod b)) b); symmetry.
  - apply (Z.div_unique _ _ _ (2 * (a mod b) + b)); nia.
  - apply (Z.div_unique _ _ _ (2 * (a mod b) - b)); nia.
Qed.

(** A digit string is the padded text of its value. *)
Lemma dec_padded_digits ds :
  all_digits ds = true -> 1 <= len ds -> dec_padded (len ds) (digits_value ds) = ds.
Proof.
  intros Hd Hl. pose proof (digits_value_range ds Hd).
  destruct (dec_padded_spec (len ds) (digits_value ds)) as (G1 & G2 & G3); [lia..|].
  now apply digits_value_inj.
Qed.

Lemma byte_eqb_refl b : byte_eqb b b = true.
Proof. now apply byte_eqb_spec. Qed.

Lemma digits_two (ds : list byte) : len ds = 2 -> exists a b, ds = [a; b].
Proof. destruct ds as [|a [|b [|c ds]]]; intros; try len_lia. eauto. Qed.

Lemma digits_four (ds : list byte) : len ds = 4 -> exists a b c d, ds = [a; b; c; d].
Proof. destruct ds as [|a [|b [|c [|d [|e ds]]]]]; intros; try len_lia. eauto 6. Qed.

(** ** Lemmas on trimming and splitting *)

(** Printable ASCII without the space: what trimming leaves alone. *)
Definition plain (b : byte) : bool := byte_in 33 126 b.

Lemma strip_plain b bs : plain b = true -> strip_white (b :: bs) = None /\ strip_white_rev (b :: bs) = None.
Proof.
  unfold plain, strip_white, strip_white_rev, byte_in. rewrite andb_true_iff, !Z.leb_le. intros Hb.
  assert (E1 : (9 <=? byte.unsigned b) && (byte.unsigned b <=? 13) = false) by (zcases; easy || lia).
  assert (E2 : (32 <=? byte.unsigned b) && (byte.unsigned b <=? 32) = false) by (zcases; easy || lia).
  rewrite E1, E2. cbn [orb].
  assert (N : forall lo hi, 127 < lo \/ hi < 33 -> (lo <=? byte.unsigned b) && (byte.unsigned b <=? hi) = false)
    by (intros; zcases; easy || lia).
  destruct bs as [|c [|e bs]]; rewrite ?N by lia; cbn [andb orb]; rewrite ?andb_false_r; easy.
Qed.

Lemma trim_plain bs : forallb plain bs = true -> trim bs = bs.
Proof.
  intros H. unfold trim. replace (trim_start bs) with bs.
  2:{ unfold trim_start. destruct bs as [|b bs]; [easy|]. cbn [forallb] in H. apply andb_prop in H as [Hb _].
      cbn [length strip_all]. now destruct (strip_plain b bs Hb) as [-> _]. }
  unfold trim_end. assert (Hr : forallb plain (rev bs) = true).
  { rewrite forallb_forall in *. intros x Hx%in_rev. auto. }
  destruct (rev bs) as [|b r] eqn:E.
  - apply (f_equal (@rev _)) in E. rewrite rev_involutive in E. now subst.
  - cbn [forallb] in Hr. apply andb_prop in Hr as [Hb _].
    assert (Hs : strip_all strip_white_rev (length bs) (b :: r) = b :: r).
    { destruct (length bs); [easy|]. cbn [strip_all]. now destruct (strip_plain b r Hb) as [_ ->]. }
    rewrite Hs, <- E. apply rev_involutive.
Qed.

Definition free (p : byte -> bool) (bs : list byte) : bool := forallb (fun b => negb (p b)) bs.

Lemma split_once_free p bs : free p bs = true -> split_once p bs = None.
Proof.
  induction bs as [|b bs IH]; cbn [free forallb split_once]; [easy|]. intros [Hb%negb_true_iff Hf]%andb_prop.
  rewrite Hb. fold (free p bs) in Hf. now rewrite IH.
Qed.

Lemma split_once_at p a c bs : free p a = true -> p c = true -> split_once p (a ++ c :: bs) = Some (a, bs).
Proof.
  intros Hf Hc. induction a as [|b a IH]; cbn [app split_once]; [now rewrite Hc|].
  cbn [free forallb] in Hf. apply andb_prop in Hf as [Hb%negb_true_iff Hf]. now rewrite Hb, IH.
Qed.

Lemma split_all_free p bs : free p bs = true -> split_all p bs = [bs].
Proof.
  induction bs as [|b bs IH]; cbn [free forallb split_all]; [easy|]. intros [Hb%negb_true_iff Hf]%andb_prop.
  rewrite Hb. fold (free p bs) in Hf. now rewrite IH.
Qed.

Lemma split_all_at p a c bs : free p a = true -> p c = true -> split_all p (a ++ c :: bs) = a :: split_all p bs.
Proof.
  intros Hf Hc. induction a as [|b a IH]; cbn [app split_all]; [now rewrite Hc|].
  cbn [free forallb] in Hf. apply andb_prop in Hf as [Hb%negb_true_iff Hf]. now rewrite Hb, IH.
Qed.

Lemma digits_all (p : byte -> bool) ds :
  (forall b, is_digit b = true -> p b = true) -> all_digits ds = true -> forallb p ds = true.
Proof. unfold all_digits. rewrite !forallb_forall. auto. Qed.

Lemma digit_bounds b : is_digit b = true -> 48 <= byte.unsigned b <= 57.
Proof. intros H%is_digit_spec. unfold digit_of in H. lia. Qed.

Lemma parse_i64_digits ds :
  all_digits ds = true -> 1 <= len ds -> digits_value ds < 2 ^ 63 -> parse_i64 ds = Some (digits_value ds).
Proof.
  intros Hd Hl Hv. pose proof (digits_value_range ds Hd). unfold parse_i64. destruct ds as [|b r]; [easy|].
  pose proof Hd as Hb. cbn [all_digits forallb] in Hb. apply andb_prop in Hb as [Hb%digit_bounds _].
  unfold byte_eqb. change (byte.unsigned minus_byte) with 45. change (byte.unsigned plus_byte) with 43.
  destruct (Z.eqb_spec (byte.unsigned b) 45); [lia|]. destruct (Z.eqb_spec (byte.unsigned b) 43); [lia|].
  rewrite Hd. destruct (is_i64 _) eqn:E; [easy|exfalso]. unfold is_i64, in_signed in E.
  apply andb_false_iff in E. rewrite Z.leb_gt, Z.ltb_ge in E. change (2 ^ (64 - 1)) with (2 ^ 63) in E. lia.
Qed.
