(* ===== verification/Wide.v ===== *)
(** * Wide integers ([src/crates/pintail-types/src/wide.rs])

    [WideInt] is a sign and eight little-endian 64-bit limbs.  The limb routines are
    translated loop by loop; each is proved equal to the operation on [Z] it computes,
    with [None] exactly where the result leaves the magnitude bound. *)

From Stdlib Require Import ZArith Lia.
From stdpp Require Import prelude list.
From coqutil Require Import Byte.
From S2P Require Import Prelude.
From S2P Require Import Types.
From S2P Require Import Text.

#[local] Open Scope Z_scope.

Definition LIMBS : nat := 8.
Definition CHUNK : Z := 10000000000000000000.

Definition Magnitude : Type := list Z.

Record WideInt : Type := { w_negative : bool; w_magnitude : Magnitude }.

(** ** Limb routines *)

Definition low (value : Z) : Z := Z.land value u64_max.
Definition high (value : Z) : Z := Z.shiftr value 64.

Definition zero_limbs : Magnitude := replicate LIMBS 0.

Definition is_zero (m : Magnitude) : bool := forallb (fun limb => limb =? 0) m.

(** [left.iter().rev().cmp(right.iter().rev())]. *)
Definition compare (lhs rhs : Magnitude) : comparison :=
  list_cmp Z.compare (rev lhs) (rev rhs).

(** The magnitude, when it stays under 2^511. *)
Definition bounded (m : Magnitude) : option Magnitude :=
  if Z.shiftr (nth (LIMBS - 1) m 0) 63 =? 0 then Some m else None.

Fixpoint add_limbs (lhs rhs : Magnitude) (carry : Z) : Magnitude * Z :=
  match lhs, rhs with
  | x :: lhs, y :: rhs =>
      let total := x + y + carry in
      let '(sum, out) := add_limbs lhs rhs (high total) in
      (low total :: sum, out)
  | _, _ => ([], carry)
  end.

Definition add (lhs rhs : Magnitude) : option Magnitude :=
  let '(sum, carry) := add_limbs lhs rhs 0 in
  if carry =? 0 then bounded sum else None.

(** One limb of [subtract]: the two [overflowing_sub]s. *)
Fixpoint sub_limbs (lhs rhs : Magnitude) (borrow : bool) : Magnitude :=
  match lhs, rhs with
  | x :: lhs, y :: rhs =>
      let step := (x - y) mod 2 ^ 64 in
      let first := x <? y in
      let step' := (step - Z.b2z borrow) mod 2 ^ 64 in
      let second := step <? Z.b2z borrow in
      step' :: sub_limbs lhs rhs (first || second)
  | _, _ => []
  end.

Definition subtract (lhs rhs : Magnitude) : Magnitude := sub_limbs lhs rhs false.

(** [while carry != 0] over the limbs above a row. *)
Fixpoint propagate (limbs : list Z) (carry : Z) : list Z :=
  if carry =? 0 then limbs
  else
    match limbs with
    | [] => []
    | p :: limbs => let total := p + carry in low total :: propagate limbs (high total)
    end.

(** One row of the product, added to the limbs from its position up. *)
Fixpoint mul_row (lhs : Z) (rhs limbs : list Z) (carry : Z) : list Z :=
  match rhs, limbs with
  | r :: rhs, p :: limbs =>
      let total := lhs * r + p + carry in low total :: mul_row lhs rhs limbs (high total)
  | [], limbs => propagate limbs carry
  | _ :: _, [] => []
  end.

(** The rows for [i], [i + 1], ...; the limbs below row [i] are final. *)
Fixpoint mul_rows (lhs rhs product : list Z) : list Z :=
  match lhs with
  | [] => product
  | l :: lhs =>
      match (if l =? 0 then product else mul_row l rhs product 0) with
      | [] => []
      | p :: product => p :: mul_rows lhs rhs product
      end
  end.

Definition multiply (lhs rhs : Magnitude) : option Magnitude :=
  let product := mul_rows lhs rhs (replicate (2 * LIMBS) 0) in
  if existsb (fun limb => negb (limb =? 0)) (drop LIMBS product) then None
  else bounded (take LIMBS product).

Fixpoint mul_small_limbs (m : Magnitude) (factor carry : Z) : Magnitude * Z :=
  match m with
  | [] => ([], carry)
  | limb :: m =>
      let total := limb * factor + carry in
      let '(rest, out) := mul_small_limbs m factor (high total) in
      (low total :: rest, out)
  end.

Definition multiply_add_small (m : Magnitude) (factor addend : Z) : option Magnitude :=
  let '(result, carry) := mul_small_limbs m factor addend in
  if carry =? 0 then bounded result else None.

(** From the top limb down. *)
Fixpoint divide_small (m : Magnitude) (divisor : Z) : Magnitude * Z :=
  match m with
  | [] => ([], 0)
  | limb :: m =>
      let '(quotient, remainder) := divide_small m divisor in
      let current := Z.lor (Z.shiftl remainder 64) limb in
      (low (current / divisor) :: quotient, current mod divisor)
  end.

(** The remainder doubled, with one bit shifted in. *)
Fixpoint shift_in (m : Magnitude) (carry : Z) : Magnitude :=
  match m with
  | [] => []
  | limb :: m =>
      Z.lor (Z.shiftl limb 1 mod 2 ^ 64) carry :: shift_in m (Z.shiftr limb 63)
  end.

Definition set_bit (m : Magnitude) (bit : nat) : Magnitude :=
  <[(bit / 64)%nat := Z.lor (nth (bit / 64) m 0) (Z.shiftl 1 (Z.of_nat (bit mod 64)))]> m.

Definition bit_at (m : Magnitude) (bit : nat) : Z :=
  Z.land (Z.shiftr (nth (bit / 64) m 0) (Z.of_nat (bit mod 64))) 1.

(** [for bit in (0..n).rev()]. *)
Fixpoint divide_bits (n : nat) (dividend divisor quotient remainder : Magnitude)
    : Magnitude * Magnitude :=
  match n with
  | O => (quotient, remainder)
  | S bit =>
      let remainder := shift_in remainder (bit_at dividend bit) in
      match compare remainder divisor with
      | Lt => divide_bits bit dividend divisor quotient remainder
      | _ => divide_bits bit dividend divisor (set_bit quotient bit) (subtract remainder divisor)
      end
  end.

Definition divide (dividend divisor : Magnitude) : option (Magnitude * Magnitude) :=
  if is_zero divisor then None
  else Some (divide_bits (LIMBS * 64) dividend divisor zero_limbs zero_limbs).

(** ** Signed operations *)

Definition wide_zero : WideInt := {| w_negative := false; w_magnitude := zero_limbs |}.

(** [WideInt::new]: a zero magnitude is never negative. *)
Definition wide_new (negative : bool) (m : Magnitude) : WideInt :=
  {| w_negative := negative && negb (is_zero m); w_magnitude := m |}.

Definition from_i128 (value : Z) : WideInt :=
  wide_new (value <? 0) (low (Z.abs value) :: high (Z.abs value) :: replicate 6 0).

Definition to_i128 (w : WideInt) : option Z :=
  if existsb (fun limb => negb (limb =? 0)) (drop 2 (w_magnitude w)) then None
  else
    let m := Z.lor (nth 0 (w_magnitude w) 0) (Z.shiftl (nth 1 (w_magnitude w) 0) 64) in
    if w_negative w then checked_i128 (0 - m) else checked_i128 m.

Definition wide_is_zero (w : WideInt) : bool := is_zero (w_magnitude w).
Definition is_negative (w : WideInt) : bool := w_negative w.
Definition negated (w : WideInt) : WideInt := wide_new (negb (w_negative w)) (w_magnitude w).

Definition wide_add (a b : WideInt) : option WideInt :=
  if Bool.eqb (w_negative a) (w_negative b) then
    match add (w_magnitude a) (w_magnitude b) with
    | Some sum => Some (wide_new (w_negative a) sum)
    | None => None
    end
  else
    Some (match compare (w_magnitude a) (w_magnitude b) with
          | Lt => wide_new (w_negative b) (subtract (w_magnitude b) (w_magnitude a))
          | _ => wide_new (w_negative a) (subtract (w_magnitude a) (w_magnitude b))
          end).

Definition wide_sub (a b : WideInt) : option WideInt := wide_add a (negated b).

Definition wide_mul (a b : WideInt) : option WideInt :=
  match multiply (w_magnitude a) (w_magnitude b) with
  | Some product => Some (wide_new (negb (Bool.eqb (w_negative a) (w_negative b))) product)
  | None => None
  end.

Fixpoint pow10_loop (exponent : nat) (m : Magnitude) : option Magnitude :=
  match exponent with
  | O => Some m
  | S exponent => m' ← multiply_add_small m 10 0; pow10_loop exponent m'
  end.

Definition pow10 (exponent : Z) : option WideInt :=
  m ← pow10_loop (Z.to_nat exponent) (1 :: replicate 7 0); Some (wide_new false m).

Definition div_round_half_up (a b : WideInt) : option WideInt :=
  '(quotient, remainder) ← divide (w_magnitude a) (w_magnitude b);
  doubled ← add remainder remainder;
  quotient ← match compare doubled (w_magnitude b) with
             | Lt => Some quotient
             | _ => multiply_add_small quotient 1 1
             end;
  Some (wide_new (negb (Bool.eqb (w_negative a) (w_negative b))) quotient).

Definition div_truncate (a b : WideInt) : option WideInt :=
  '(quotient, _) ← divide (w_magnitude a) (w_magnitude b);
  Some (wide_new (negb (Bool.eqb (w_negative a) (w_negative b))) quotient).

Definition wide_rem (a b : WideInt) : option WideInt :=
  '(_, remainder) ← divide (w_magnitude a) (w_magnitude b);
  Some (wide_new (w_negative a) remainder).

Definition wide_cmp (a b : WideInt) : comparison :=
  match w_negative a, w_negative b with
  | false, true => Gt
  | true, false => Lt
  | false, false => compare (w_magnitude a) (w_magnitude b)
  | true, true => compare (w_magnitude b) (w_magnitude a)
  end.

(** The chunks of [magnitude_text], least significant first; a magnitude has at most
    twenty-seven chunks of nineteen digits. *)
Fixpoint chunks (fuel : nat) (rest : Magnitude) : list Z :=
  match fuel with
  | O => []
  | S fuel =>
      if is_zero rest then []
      else let '(quotient, remainder) := divide_small rest CHUNK in remainder :: chunks fuel quotient
  end.

Definition magnitude_text (w : WideInt) : list byte :=
  match rev (chunks 32 (w_magnitude w)) with
  | [] => [zero_byte]
  | first :: rest => foldl (fun text chunk => text ++ dec_padded 19 chunk) (dec_text first) rest
  end.

Definition digits (w : WideInt) : Z := len (magnitude_text w).

(** ** Text *)

(** The variables of the loop of [parse]. *)
Record parse_state : Type := {
  ps_magnitude : Magnitude;
  ps_fraction_digits : Z;
  ps_seen_dot : bool;
  ps_seen_digit : bool;
  ps_round_up : bool
}.

Definition parse_byte (scale : Z) (round : bool) (s : parse_state) (b : byte) : option parse_state :=
  if is_digit b then
    let digit := digit_of b in
    if ps_seen_dot s && (scale <=? ps_fraction_digits s) then
      if negb round && negb (digit =? 0) then None
      else
        let round_up := if round && (ps_fraction_digits s =? scale) then 5 <=? digit else ps_round_up s in
        fraction_digits ← checked_add 8 (ps_fraction_digits s) 1;
        Some {| ps_magnitude := ps_magnitude s; ps_fraction_digits := fraction_digits;
                ps_seen_dot := ps_seen_dot s; ps_seen_digit := true; ps_round_up := round_up |}
    else
      m ← multiply_add_small (ps_magnitude s) 10 digit;
      Some {| ps_magnitude := m;
              ps_fraction_digits := if ps_seen_dot s then ps_fraction_digits s + 1 else ps_fraction_digits s;
              ps_seen_dot := ps_seen_dot s; ps_seen_digit := true; ps_round_up := ps_round_up s |}
  else if byte_eqb b dot_byte && negb (ps_seen_dot s) then
    Some {| ps_magnitude := ps_magnitude s; ps_fraction_digits := ps_fraction_digits s;
            ps_seen_dot := true; ps_seen_digit := ps_seen_digit s; ps_round_up := ps_round_up s |}
  else None.

Fixpoint parse_loop (scale : Z) (round : bool) (s : parse_state) (bs : list byte) : option parse_state :=
  match bs with
  | [] => Some s
  | b :: bs => s ← parse_byte scale round s b; parse_loop scale round s bs
  end.

Definition parse_start : parse_state := {|
  ps_magnitude := zero_limbs; ps_fraction_digits := 0; ps_seen_dot := false;
  ps_seen_digit := false; ps_round_up := false
|}.

(** The sign of [parse] and the bytes after it; [None] for the empty text. *)
Definition split_sign (text : list byte) : option (bool * list byte) :=
  match text with
  | [] => None
  | b :: rest =>
      Some (if byte_eqb b minus_byte then (true, rest)
            else if byte_eqb b plus_byte then (false, rest)
            else (false, text))
  end.

Definition wide_parse (text : list byte) (scale : Z) (round : bool) : option WideInt :=
  '(negative, rest) ← split_sign text;
  s ← parse_loop scale round parse_start rest;
  if negb (ps_seen_digit s) then None
  else
    m ← pow10_loop (Z.to_nat (scale - ps_fraction_digits s)) (ps_magnitude s);
    m ← (if ps_round_up s then multiply_add_small m 1 1 else Some m);
    Some (wide_new negative m).

Definition parse_decimal_wide (text : list byte) (scale : Z) : option WideInt := wide_parse text scale false.
Definition parse_decimal_wide_rounded (text : list byte) (scale : Z) : option WideInt := wide_parse text scale true.

Definition format_decimal_wide (w : WideInt) (scale : Z) : list byte :=
  let digits := magnitude_text w in
  let digits := if len digits <=? scale then pad_zeros (scale + 1) digits else digits in
  let integer := take (Z.to_nat (len digits - scale)) digits in
  let fraction := drop (Z.to_nat (len digits - scale)) digits in
  let sign := if is_negative w then [minus_byte] else [] in
  if scale =? 0 then sign ++ integer else sign ++ integer ++ [dot_byte] ++ fraction.

(** ** The number a magnitude denotes *)

Definition eval (m : list Z) : Z := foldr (fun limb acc => limb + 2 ^ 64 * acc) 0 m.

Definition limbs_ok (m : list Z) : Prop := Forall (fun limb => 0 <= limb < 2 ^ 64) m.

(** A magnitude: eight limbs. *)
Definition mag_ok (m : Magnitude) : Prop := limbs_ok m /\ length m = LIMBS.

Definition wide_value (w : WideInt) : Z :=
  if w_negative w then - eval (w_magnitude w) else eval (w_magnitude w).

Definition wide_ok (w : WideInt) : Prop :=
  mag_ok (w_magnitude w) /\ eval (w_magnitude w) < 2 ^ 511 /\
  (w_negative w = true -> eval (w_magnitude w) <> 0).

Lemma low_mod z : low z = z mod 2 ^ 64.
Proof. unfold low. change u64_max with (Z.ones 64). apply Z.land_ones. lia. Qed.

Lemma high_div z : high z = z / 2 ^ 64.
Proof. unfold high. apply Z.shiftr_div_pow2. lia. Qed.

Lemma low_high z : z = low z + 2 ^ 64 * high z.
Proof. rewrite low_mod, high_div. pose proof (Z.div_mod z (2 ^ 64)). lia. Qed.

Lemma low_range z : 0 <= low z < 2 ^ 64.
Proof. rewrite low_mod. apply Z.mod_pos_bound. lia. Qed.

Lemma high_nonneg z : 0 <= z -> 0 <= high z.
Proof. intros. rewrite high_div. apply Z.div_pos; lia. Qed.

Lemma eval_nil : eval [] = 0.
Proof. reflexivity. Qed.
Lemma eval_cons x m : eval (x :: m) = x + 2 ^ 64 * eval m.
Proof. reflexivity. Qed.

#[local] Arguments eval : simpl never.
#[local] Arguments low : simpl never.
#[local] Arguments high : simpl never.

(** The weight of the limb after [m]. *)
Definition weight (m : list Z) : Z := 2 ^ (64 * len m).

Lemma weight_nil : weight [] = 1.
Proof. reflexivity. Qed.
Lemma weight_cons x m : weight (x :: m) = 2 ^ 64 * weight m.
Proof.
  unfold weight. rewrite len_cons, <- Z.pow_add_r by (pose proof (len_nonneg m); lia). f_equal. lia.
Qed.
Lemma weight_pos m : 0 < weight m.
Proof. unfold weight. apply Z.pow_pos_nonneg; [lia|]. pose proof (len_nonneg m). lia. Qed.

Lemma eval_range m : limbs_ok m -> 0 <= eval m < weight m.
Proof.
  induction 1 as [|x m Hx Hm IH]; [rewrite eval_nil, weight_nil; lia|].
  rewrite eval_cons, weight_cons. nia.
Qed.

Lemma eval_app a b : eval (a ++ b) = eval a + weight a * eval b.
Proof.
  induction a as [|x a IH]; [rewrite app_nil_l, eval_nil, weight_nil; lia|].
  cbn [app]. rewrite !eval_cons, IH, weight_cons. lia.
Qed.

Lemma eval_zeros n : eval (replicate n 0) = 0.
Proof. induction n; [easy|]. cbn [replicate]. rewrite eval_cons, IHn. lia. Qed.

Lemma limbs_ok_zeros n : limbs_ok (replicate n 0).
Proof. apply Forall_replicate. lia. Qed.

Lemma weight_length a b : length a = length b -> weight a = weight b.
Proof. unfold weight, len. now intros ->. Qed.

Lemma is_zero_spec m : limbs_ok m -> is_zero m = true <-> eval m = 0.
Proof.
  unfold is_zero. induction 1 as [|x m Hx Hm IH]; [easy|]. cbn [forallb].
  pose proof (eval_range m Hm). rewrite andb_true_iff, IH, eval_cons, Z.eqb_eq. lia.
Qed.

Lemma add_limbs_spec a b c s out :
  limbs_ok a -> limbs_ok b -> length a = length b -> 0 <= c <= 1 ->
  add_limbs a b c = (s, out) ->
  limbs_ok s /\ length s = length a /\ 0 <= out <= 1 /\ eval s + weight a * out = eval a + eval b + c.
Proof.
  intros Ha. revert b c s out. induction Ha as [|x a Hx Ha IH]; intros [|y b] c s out Hb Hl Hc E;
    try discriminate Hl; cbn [add_limbs] in E.
  - injection E as <- <-. rewrite weight_nil, !eval_nil. repeat split; try lia; constructor.
  - inv Hb. destruct (add_limbs a b _) as [s' out'] eqn:E'. injection E as <- <-.
    pose proof (low_high (x + y + c)) as Ht. pose proof (low_range (x + y + c)).
    assert (0 <= high (x + y + c) <= 1) by lia.
    apply IH in E' as (Hs & Hls & Ho & Ev); auto.
    split; [constructor; auto|]. split; [simpl; lia|]. split; [easy|].
    rewrite !eval_cons, weight_cons. lia.
Qed.

Lemma sub_limbs_spec a b (c : bool) :
  limbs_ok a -> limbs_ok b -> length a = length b -> exists out : bool,
  limbs_ok (sub_limbs a b c) /\ length (sub_limbs a b c) = length a /\
  eval (sub_limbs a b c) = eval a - eval b - Z.b2z c + weight a * Z.b2z out.
Proof.
  intros Ha. revert b c. induction Ha as [|x a Hx Ha IH]; intros [|y b] c Hb Hl;
    try discriminate Hl; cbn [sub_limbs].
  - exists c. rewrite weight_nil, eval_nil. repeat split; try lia; constructor.
  - inv Hb. set (step := (x - y) mod 2 ^ 64).
    assert (Hstep : 0 <= step < 2 ^ 64) by (apply Z.mod_pos_bound; lia).
    assert (Es : step = x - y + 2 ^ 64 * Z.b2z (x <? y)).
    { unfold step. destruct (Z.ltb_spec x y); cbn [Z.b2z].
      - symmetry. apply (Z.mod_unique _ _ (-1)); lia.
      - symmetry. apply (Z.mod_unique _ _ 0); lia. }
    set (step' := (step - Z.b2z c) mod 2 ^ 64).
    assert (Hstep' : 0 <= step' < 2 ^ 64) by (apply Z.mod_pos_bound; lia).
    assert (Es' : step' = step - Z.b2z c + 2 ^ 64 * Z.b2z (step <? Z.b2z c)).
    { unfold step'. destruct c; cbn [Z.b2z]; destruct (Z.ltb_spec step 1), (Z.ltb_spec step 0); cbn [Z.b2z]; try lia;
        (symmetry; apply (Z.mod_unique _ _ (-1)); lia) || (symmetry; apply (Z.mod_unique _ _ 0); lia). }
    destruct (IH b ((x <? y) || (step <? Z.b2z c))) as (out & Hs & Hls & Ev); auto.
    exists out. split; [constructor; auto|]. split; [simpl; lia|].
    rewrite !eval_cons, weight_cons, Ev.
    assert (Z.b2z ((x <? y) || (step <? Z.b2z c)) = Z.b2z (x <? y) + Z.b2z (step <? Z.b2z c)) as ->.
    { destruct (Z.ltb_spec x y), (Z.ltb_spec step (Z.b2z c)); cbn [orb Z.b2z]; try lia.
      exfalso. cbn [Z.b2z] in Es. destruct c; cbn [Z.b2z] in *; lia. }
    lia.
Qed.

Lemma subtract_spec a b :
  limbs_ok a -> limbs_ok b -> length a = length b -> eval b <= eval a ->
  limbs_ok (subtract a b) /\ length (subtract a b) = length a /\ eval (subtract a b) = eval a - eval b.
Proof.
  intros Ha Hb Hl Hle. destruct (sub_limbs_spec a b false Ha Hb Hl) as (out & Hs & Hls & Ev).
  unfold subtract. split; [easy|]. split; [easy|]. cbn [Z.b2z] in Ev.
  pose proof (eval_range _ Hs) as Hr. rewrite (weight_length _ a Hls) in Hr.
  pose proof (eval_range _ Ha). pose proof (eval_range _ Hb). destruct out; cbn [Z.b2z] in Ev; lia.
Qed.

Lemma propagate_spec l c :
  limbs_ok l -> 0 <= c -> eval l + c < weight l ->
  limbs_ok (propagate l c) /\ length (propagate l c) = length l /\ eval (propagate l c) = eval l + c.
Proof.
  intros Hl. revert c. induction Hl as [|p l Hp Hl IH]; intros c Hc Hb; cbn [propagate].
  - rewrite eval_nil, weight_nil in Hb. assert (c = 0) as -> by lia. cbn. rewrite eval_nil. repeat split; try lia; constructor.
  - destruct (Z.eqb_spec c 0) as [->|Hne]; [rewrite Z.add_0_r; repeat split; constructor; auto|].
    rewrite eval_cons, weight_cons in Hb. pose proof (low_high (p + c)) as Ht. pose proof (low_range (p + c)).
    destruct (IH (high (p + c))) as (H1 & H2 & H3); [apply high_nonneg; lia|nia|].
    split; [constructor; auto|]. split; [simpl; lia|]. rewrite !eval_cons, H3. lia.
Qed.

Lemma mul_row_spec x rhs l c :
  0 <= x -> limbs_ok rhs -> limbs_ok l -> 0 <= c -> eval l + x * eval rhs + c < weight l ->
  limbs_ok (mul_row x rhs l c) /\ length (mul_row x rhs l c) = length l /\
  eval (mul_row x rhs l c) = eval l + x * eval rhs + c.
Proof.
  intros Hx Hr. revert l c. induction Hr as [|r rhs Hr Hrs IH]; intros l c Hl Hc Hb; cbn [mul_row].
  - rewrite eval_nil in *. rewrite Z.mul_0_r, Z.add_0_r in *. now apply propagate_spec.
  - pose proof (eval_range rhs Hrs). destruct Hl as [|p l Hp Hl].
    + rewrite eval_nil, weight_nil, eval_cons in *. repeat split; try constructor. nia.
    + rewrite !eval_cons, weight_cons in *. set (t := x * r + p + c).
      pose proof (low_high t) as Ht. pose proof (low_range t). assert (0 <= t) by nia.
      destruct (IH l (high t)) as (G1 & G2 & G3); [easy|now apply high_nonneg|nia|].
      split; [constructor; auto|]. split; [simpl; lia|]. rewrite ?eval_cons, G3. nia.
Qed.

Lemma mul_rows_spec lhs rhs l :
  limbs_ok lhs -> limbs_ok rhs -> limbs_ok l -> eval l + eval lhs * eval rhs < weight l ->
  limbs_ok (mul_rows lhs rhs l) /\ length (mul_rows lhs rhs l) = length l /\
  eval (mul_rows lhs rhs l) = eval l + eval lhs * eval rhs.
Proof.
  intros Hl Hr. revert l. induction Hl as [|x lhs Hx Hl IH]; intros l Hp Hb; cbn [mul_rows].
  - rewrite eval_nil, Z.mul_0_l, Z.add_0_r. auto.
  - pose proof (eval_range rhs Hr). pose proof (eval_range lhs Hl). rewrite eval_cons in Hb.
    assert (Hrow : let l' := if x =? 0 then l else mul_row x rhs l 0 in
              limbs_ok l' /\ length l' = length l /\ eval l' = eval l + x * eval rhs).
    { destruct (Z.eqb_spec x 0) as [->|Hne]; cbv zeta; [repeat split; auto; lia|].
      destruct (mul_row_spec x rhs l 0) as (G1 & G2 & G3); [lia|easy..|nia|].
      repeat split; auto. lia. }
    cbv zeta in Hrow. set (l' := if x =? 0 then l else mul_row x rhs l 0) in *.
    destruct Hrow as (G1 & G2 & G3). destruct l' as [|p l'].
    + destruct l; [|discriminate G2]. rewrite eval_nil, weight_nil in *. rewrite eval_cons. repeat split; auto. nia.
    + destruct l as [|q l]; [discriminate G2|]. inv G1.
      rewrite weight_cons in Hb. rewrite eval_cons in G3. assert (length l' = length l) as Gl by (cbn [length] in G2; lia).
      assert (weight l' = weight l) as Hw by now apply weight_length.
      destruct (IH l') as (K1 & K2 & K3); auto; [nia|].
      split; [constructor; auto|]. split; [simpl; lia|]. rewrite !eval_cons, K3. rewrite eval_cons in G3. nia.
Qed.

Lemma mul_small_spec m f c s out :
  limbs_ok m -> 0 <= f < 2 ^ 64 -> 0 <= c < 2 ^ 64 -> mul_small_limbs m f c = (s, out) ->
  limbs_ok s /\ length s = length m /\ 0 <= out < 2 ^ 64 /\ eval s + weight m * out = eval m * f + c.
Proof.
  intros Hm Hf. revert c s out. induction Hm as [|x m Hx Hm IH]; intros c s out Hc E; cbn [mul_small_limbs] in E.
  - injection E as <- <-. rewrite weight_nil, !eval_nil. repeat split; try lia; constructor.
  - destruct (mul_small_limbs m f _) as [s' out'] eqn:E'. injection E as <- <-. set (t := x * f + c) in *.
    pose proof (low_high t) as Ht. pose proof (low_range t).
    assert (0 <= high t < 2 ^ 64) by (split; [apply high_nonneg; nia|]; nia).
    apply IH in E' as (G1 & G2 & G3 & G4); auto.
    split; [constructor; auto|]. split; [simpl; lia|]. split; [easy|]. rewrite !eval_cons, weight_cons. nia.
Qed.

Lemma lor_shift_add a b : 0 <= b < 2 ^ 64 -> Z.lor (Z.shiftl a 64) b = a * 2 ^ 64 + b.
Proof.
  intros Hb. rewrite Z.shiftl_mul_pow2 by lia. symmetry. apply Z.bits_inj'. intros i Hi.
  rewrite Z.lor_spec. destruct (Z.lt_ge_cases i 64).
  - rewrite Z.mul_pow2_bits_low by lia. cbn [orb].
    rewrite <- (Z.mod_pow2_bits_low (a * 2 ^ 64 + b) 64), Z.add_comm, Z.mod_add, Z.mod_pow2_bits_low by lia. easy.
  - rewrite Z.mul_pow2_bits by lia.
    replace (Z.testbit b i) with false.
    + rewrite orb_false_r. replace i with ((i - 64) + 64) at 1 by lia.
      rewrite <- Z.div_pow2_bits, Z.div_add_l, (Z.div_small b), Z.add_0_r by lia. easy.
    + symmetry. rewrite <- (Z.mod_small b (2 ^ 64)) by easy. now apply Z.mod_pow2_bits_high.
Qed.

Lemma divide_small_spec m d q r :
  limbs_ok m -> 0 < d < 2 ^ 64 -> divide_small m d = (q, r) ->
  limbs_ok q /\ length q = length m /\ 0 <= r < d /\ eval m = eval q * d + r.
Proof.
  intros Hm Hd. revert q r. induction Hm as [|x m Hx Hm IH]; intros q r E; cbn [divide_small] in E.
  - injection E as <- <-. rewrite eval_nil. repeat split; try lia; constructor.
  - destruct (divide_small m d) as [q' r'] eqn:E'. injection E as <- <-.
    destruct (IH _ _ eq_refl) as (G1 & G2 & G3 & G4). rewrite lor_shift_add by easy.
    set (cur := r' * 2 ^ 64 + x). pose proof (Z.mod_pos_bound cur d). pose proof (Z.div_mod cur d).
    assert (0 <= cur / d < 2 ^ 64).
    { split; [apply Z.div_pos; nia|]. apply Z.div_lt_upper_bound; [lia|]. unfold cur. nia. }
    rewrite low_mod, Z.mod_small by easy. split; [constructor; auto|]. split; [simpl; lia|].
    split; [lia|]. rewrite !eval_cons. nia.
Qed.

Lemma list_cmp_app_same {A} (c : A -> A -> comparison) a b x y :
  length a = length b ->
  list_cmp c (a ++ x) (b ++ y) = match list_cmp c a b with Eq => list_cmp c x y | r => r end.
Proof.
  revert b; induction a as [|p a IH]; intros [|q b] Hl; try discriminate Hl; [easy|].
  cbn [app list_cmp]. destruct (c p q); auto.
Qed.

Lemma compare_spec a b :
  limbs_ok a -> limbs_ok b -> length a = length b -> compare a b = Z.compare (eval a) (eval b).
Proof.
  intros Ha. revert b. unfold compare. induction Ha as [|x a Hx Ha IH]; intros [|y b] Hb Hl; try discriminate Hl; [easy|].
  inv Hb. assert (length a = length b) by (cbn in Hl; lia). cbn [rev].
  rewrite list_cmp_app_same by now rewrite !length_rev. rewrite IH, !eval_cons by auto.
  cbn [list_cmp]. destruct (Z.compare_spec (eval a) (eval b)) as [E|E|E].
  - rewrite E. destruct (Z.compare_spec x y); symmetry;
      [apply Z.compare_eq_iff|apply Z.compare_lt_iff|apply Z.compare_gt_iff]; lia.
  - symmetry. apply Z.compare_lt_iff. nia.
  - symmetry. apply Z.compare_gt_iff. nia.
Qed.

(** A list of eight limbs. *)
Lemma mag_split m : mag_ok m -> exists lo top, m = lo ++ [top] /\ length lo = 7%nat /\ limbs_ok lo /\ 0 <= top < 2 ^ 64.
Proof.
  intros [Hm Hl]. destruct m as [|top lo] using rev_ind; [discriminate Hl|].
  rewrite length_app in Hl. unfold LIMBS in Hl. cbn [length] in Hl. unfold limbs_ok in Hm. apply Forall_app in Hm as [G1 G2].
  inv G2. exists lo, top. repeat split; auto; lia.
Qed.

Lemma bounded_spec m :
  mag_ok m -> bounded m = if eval m <? 2 ^ 511 then Some m else None.
Proof.
  intros Hm. destruct (mag_split m Hm) as (lo & top & -> & Hl & Hlo & Ht).
  unfold bounded. rewrite app_nth2 by (rewrite Hl; cbn; lia). rewrite Hl. cbn [nth Nat.sub LIMBS].
  rewrite Z.shiftr_div_pow2, eval_app, eval_cons, eval_nil by lia.
  pose proof (eval_range lo Hlo) as Hr. unfold weight, len in *. rewrite Hl in *.
  change (2 ^ (64 * Z.of_nat 7)) with (2 ^ 448) in *.
  change (2 ^ 511) with (2 ^ 448 * 2 ^ 63).
  destruct (Z.eqb_spec (top / 2 ^ 63) 0) as [E|E].
  - assert (top < 2 ^ 63) by (pose proof (Z.div_mod top (2 ^ 63)); pose proof (Z.mod_pos_bound top (2 ^ 63)); lia).
    destruct (Z.ltb_spec (eval lo + 2 ^ 448 * (top + 2 ^ 64 * 0)) (2 ^ 448 * 2 ^ 63)); [easy|nia].
  - assert (2 ^ 63 <= top).
    { destruct (Z.lt_ge_cases top (2 ^ 63)); [|easy]. rewrite Z.div_small in E by lia. lia. }
    destruct (Z.ltb_spec (eval lo + 2 ^ 448 * (top + 2 ^ 64 * 0)) (2 ^ 448 * 2 ^ 63)); [nia|easy].
Qed.

Lemma weight_mag m : length m = LIMBS -> weight m = 2 ^ 512.
Proof. unfold weight, len. now intros ->. Qed.

Lemma add_spec a b :
  mag_ok a -> mag_ok b ->
  if eval a + eval b <? 2 ^ 511
  then exists s, add a b = Some s /\ mag_ok s /\ eval s = eval a + eval b
  else add a b = None.
Proof.
  intros [Ha Hla] [Hb Hlb]. unfold add. destruct (add_limbs a b 0) as [s out] eqn:E.
  apply add_limbs_spec in E as (Hs & Hls & Ho & Ev); auto; [|congruence|lia].
  assert (mag_ok s) as Hms by (split; [easy|congruence]). rewrite (weight_mag a Hla) in Ev.
  pose proof (eval_range s Hs) as Hr. rewrite weight_mag in Hr by congruence.
  rewrite bounded_spec by easy. change (2 ^ 512) with (2 * 2 ^ 511) in *.
  destruct (Z.eqb_spec out 0) as [->|].
  - replace (eval s) with (eval a + eval b) by lia.
    destruct (_ <? _); [|easy]. exists s. repeat split; auto; try apply Hms. lia.
  - destruct (Z.ltb_spec (eval a + eval b) (2 ^ 511)); [lia|easy].
Qed.

Lemma multiply_add_small_spec m f c :
  mag_ok m -> 0 <= f < 2 ^ 64 -> 0 <= c < 2 ^ 64 ->
  if eval m * f + c <? 2 ^ 511
  then exists s, multiply_add_small m f c = Some s /\ mag_ok s /\ eval s = eval m * f + c
  else multiply_add_small m f c = None.
Proof.
  intros [Hm Hl] Hf Hc. unfold multiply_add_small. destruct (mul_small_limbs m f c) as [s out] eqn:E.
  apply mul_small_spec in E as (Hs & Hls & Ho & Ev); auto.
  assert (mag_ok s) as Hms by (split; [easy|congruence]). rewrite (weight_mag m Hl) in Ev.
  pose proof (eval_range s Hs) as Hr. rewrite weight_mag in Hr by congruence.
  rewrite bounded_spec by easy. change (2 ^ 512) with (2 * 2 ^ 511) in *.
  destruct (Z.eqb_spec out 0) as [->|].
  - replace (eval s) with (eval m * f + c) by lia.
    destruct (_ <? _); [|easy]. exists s. repeat split; auto; try apply Hms. lia.
  - destruct (Z.ltb_spec (eval m * f + c) (2 ^ 511)); [nia|easy].
Qed.

Lemma all_zero_eval l : limbs_ok l -> existsb (fun limb => negb (limb =? 0)) l = negb (eval l =? 0).
Proof.
  induction 1 as [|x l Hx Hl IH]; [easy|]. cbn [existsb]. rewrite IH, eval_cons.
  pose proof (eval_range l Hl).
  destruct (Z.eqb_spec x 0), (Z.eqb_spec (eval l) 0), (Z.eqb_spec (x + 2 ^ 64 * eval l) 0); cbn; try easy; lia.
Qed.

Lemma multiply_spec a b :
  mag_ok a -> mag_ok b ->
  if eval a * eval b <? 2 ^ 511
  then exists s, multiply a b = Some s /\ mag_ok s /\ eval s = eval a * eval b
  else multiply a b = None.
Proof.
  intros [Ha Hla] [Hb Hlb]. unfold multiply.
  pose proof (eval_range a Ha) as Hra. pose proof (eval_range b Hb) as Hrb.
  rewrite weight_mag in Hra, Hrb by easy.
  destruct (mul_rows_spec a b (replicate (2 * LIMBS) 0) Ha Hb (limbs_ok_zeros _)) as (Hp & Hlp & Ev).
  { rewrite eval_zeros. unfold weight. rewrite len_replicate.
    change (2 ^ (64 * Z.of_nat (2 * LIMBS))) with (2 ^ 512 * 2 ^ 512). nia. }
  set (p := mul_rows a b _) in *. rewrite length_replicate in Hlp. rewrite eval_zeros, Z.add_0_l in Ev.
  rewrite <- (take_drop LIMBS p) in Hp. unfold limbs_ok in Hp. apply Forall_app in Hp as [Hp1 Hp2].
  assert (length (take LIMBS p) = LIMBS) as Hlt by (rewrite length_take, Hlp; unfold LIMBS; lia).
  assert (Hsplit : eval p = eval (take LIMBS p) + 2 ^ 512 * eval (drop LIMBS p)).
  { rewrite <- (take_drop LIMBS p) at 1. now rewrite eval_app, weight_mag. }
  rewrite all_zero_eval by easy. pose proof (eval_range _ Hp1) as G1. pose proof (eval_range _ Hp2) as G2.
  rewrite weight_mag in G1 by easy. rewrite <- Ev, Hsplit. clear Hra Hrb.
  change (2 ^ 512) with (2 * 2 ^ 511) in *.
  destruct (Z.eqb_spec (eval (drop LIMBS p)) 0) as [E|E]; cbn [negb].
  - rewrite bounded_spec by (split; easy). rewrite E, Z.mul_0_r, Z.add_0_r in *.
    destruct (_ <? _); [|easy]. eexists. split; [reflexivity|]. split; [split; easy|]. easy.
  - destruct (Z.ltb_spec (eval (take LIMBS p) + 2 * 2 ^ 511 * eval (drop LIMBS p)) (2 ^ 511)); [nia|easy].
Qed.

(** ** Long division *)

Lemma shift_in_spec m c :
  limbs_ok m -> 0 <= c <= 1 -> 2 * eval m + c < weight m ->
  limbs_ok (shift_in m c) /\ length (shift_in m c) = length m /\ eval (shift_in m c) = 2 * eval m + c.
Proof.
  intros Hm. revert c. induction Hm as [|x m Hx Hm IH]; intros c Hc Hb; cbn [shift_in].
  { rewrite eval_nil, weight_nil in *. repeat split; try constructor. lia. }
  rewrite eval_cons, weight_cons in Hb. pose proof (eval_range m Hm).
  rewrite Z.shiftl_mul_pow2, Z.shiftr_div_pow2 by lia. change (2 ^ 1) with 2.
  set (t := x / 2 ^ 63).
  assert (Ht : 0 <= t <= 1) by (unfold t; split; [apply Z.div_pos; lia|];
    enough (x / 2 ^ 63 < 2) by lia; apply Z.div_lt_upper_bound; lia).
  assert (Hmod : x * 2 mod 2 ^ 64 = 2 * x - 2 ^ 64 * t).
  { symmetry. apply (Z.mod_unique _ _ t); [|lia]. left. unfold t.
    pose proof (Z.div_mod x (2 ^ 63)). pose proof (Z.mod_pos_bound x (2 ^ 63)). lia. }
  assert (Hlor : Z.lor (x * 2 mod 2 ^ 64) c = 2 * x - 2 ^ 64 * t + c).
  { rewrite Hmod. replace (2 * x - 2 ^ 64 * t) with (2 * (x - 2 ^ 63 * t)) by lia.
    assert (c = 0 \/ c = 1) as [-> | ->] by lia; [rewrite Z.lor_0_r; lia|].
    set (y := x - 2 ^ 63 * t). now destruct y as [|[]|[]]. }
  assert (Hxt : 2 ^ 63 * t <= x < 2 ^ 63 * t + 2 ^ 63).
  { unfold t. pose proof (Z.div_mod x (2 ^ 63)). pose proof (Z.mod_pos_bound x (2 ^ 63)). lia. }
  destruct (IH t) as (G1 & G2 & G3); [easy|lia|].
  rewrite Hlor. split; [constructor; auto; lia|]. split; [simpl; lia|]. rewrite !eval_cons, G3. lia.
Qed.

Lemma eval_testbit m i :
  limbs_ok m -> Z.testbit (eval m) (Z.of_nat i) =
    Z.testbit (nth (i / 64) m 0) (Z.of_nat (i mod 64)).
Proof.
  intros Hm. revert i. induction Hm as [|x m Hx Hm IH]; intros i.
  { rewrite eval_nil. now destruct (i / 64)%nat; cbn [nth]; rewrite !Z.testbit_0_l. }
  rewrite eval_cons. destruct (Nat.lt_ge_cases i 64).
  - rewrite Nat.div_small, Nat.mod_small by easy. cbn [nth].
    rewrite <- (Z.mod_pow2_bits_low (x + 2 ^ 64 * eval m) 64) by lia.
    replace (x + 2 ^ 64 * eval m) with (x + eval m * 2 ^ 64) by lia.
    rewrite Z.mod_add, Z.mod_pow2_bits_low by lia. easy.
  - replace i with (i - 64 + 1 * 64)%nat at 2 3 by lia.
    rewrite Nat.div_add, Nat.Div0.mod_add, Nat.add_1_r by lia. cbn [nth]. rewrite <- IH.
    replace (Z.of_nat i) with (Z.of_nat (i - 64) + 64) by lia.
    rewrite <- Z.div_pow2_bits by lia. f_equal.
    replace (x + 2 ^ 64 * eval m) with (eval m * 2 ^ 64 + x) by lia.
    rewrite Z.div_add_l, Z.div_small by lia. lia.
Qed.

Lemma bit_at_spec m i : limbs_ok m -> bit_at m i = Z.b2z (Z.testbit (eval m) (Z.of_nat i)).
Proof.
  intros Hm. unfold bit_at. rewrite eval_testbit by easy.
  change 1 with (Z.ones 1). rewrite Z.land_ones by lia. change (2 ^ 1) with 2.
  now rewrite <- Z.bit0_mod, Z.shiftr_spec, Z.add_0_l by lia.
Qed.

Lemma eval_insert m j v :
  (j < length m)%nat -> eval (<[j := v]> m) = eval m + (v - nth j m 0) * 2 ^ (64 * Z.of_nat j).
Proof.
  revert j. induction m as [|x m IH]; intros j Hj; [cbn in Hj; lia|]. destruct j as [|j].
  - cbn [insert list_insert nth]. rewrite !eval_cons. change (64 * Z.of_nat 0) with 0. lia.
  - change (<[S j := v]> (x :: m)) with (x :: <[j := v]> m). cbn [nth].
    rewrite !eval_cons, IH by (cbn in Hj; lia).
    replace (64 * Z.of_nat (S j)) with (64 + 64 * Z.of_nat j) by lia. rewrite Z.pow_add_r by lia. lia.
Qed.

Lemma limbs_ok_insert m j v : limbs_ok m -> 0 <= v < 2 ^ 64 -> limbs_ok (<[j := v]> m).
Proof. intros. now apply Forall_insert. Qed.

Lemma nth_limb m j : limbs_ok m -> 0 <= nth j m 0 < 2 ^ 64.
Proof.
  intros Hm. revert j. induction Hm as [|x m Hx Hm IH]; intros [|j]; cbn [nth]; auto; lia.
Qed.

(** Setting a bit that is clear adds its weight. *)
Lemma lor_bit_clear x k :
  0 <= x < 2 ^ 64 -> 0 <= k < 64 -> Z.testbit x k = false ->
  Z.lor x (Z.shiftl 1 k) = x + 2 ^ k /\ 0 <= x + 2 ^ k < 2 ^ 64.
Proof.
  intros Hx Hk Hb. rewrite Z.shiftl_mul_pow2, Z.mul_1_l by lia.
  assert (Hland : Z.land x (2 ^ k) = 0).
  { apply Z.bits_inj'. intros i Hi. rewrite Z.land_spec, Z.bits_0, Z.pow2_bits_eqb by lia.
    destruct (Z.eqb_spec k i) as [<-|]; [now rewrite Hb|apply andb_false_r]. }
  assert (Hlor : Z.lor x (2 ^ k) = x + 2 ^ k).
  { rewrite Z.add_nocarry_lxor by easy. symmetry. now apply Z.lxor_lor. }
  split; [easy|]. rewrite <- Hlor.
  assert (Hnn : 0 <= Z.lor x (2 ^ k)) by (apply Z.lor_nonneg; split; [|apply Z.pow_nonneg]; lia).
  split; [easy|]. destruct (Z.eq_dec (Z.lor x (2 ^ k)) 0) as [->|]; [lia|].
  apply Z.log2_lt_pow2; [lia|]. rewrite Z.log2_lor by (try apply Z.pow_nonneg; lia).
  rewrite Z.log2_pow2 by lia. destruct (Z.eq_dec x 0) as [->|]; [cbn; lia|].
  assert (Z.log2 x < 64) by (apply Z.log2_lt_pow2; lia). lia.
Qed.

Lemma set_bit_spec m i :
  limbs_ok m -> (i < 64 * length m)%nat -> Z.testbit (eval m) (Z.of_nat i) = false ->
  limbs_ok (set_bit m i) /\ length (set_bit m i) = length m /\ eval (set_bit m i) = eval m + 2 ^ Z.of_nat i.
Proof.
  intros Hm Hi Hb. rewrite eval_testbit in Hb by easy.
  assert (Hj : (i / 64 < length m)%nat) by (apply Nat.Div0.div_lt_upper_bound; lia).
  pose proof (Nat.mod_upper_bound i 64).
  destruct (lor_bit_clear (nth (i / 64) m 0) (Z.of_nat (i mod 64))) as [El Er];
    [now apply nth_limb|lia|easy|].
  unfold set_bit. rewrite El. split; [now apply limbs_ok_insert|]. split; [apply length_insert|].
  rewrite eval_insert by easy.
  replace (nth (i / 64) m 0 + 2 ^ Z.of_nat (i mod 64) - nth (i / 64) m 0) with (2 ^ Z.of_nat (i mod 64)) by lia.
  rewrite <- Z.pow_add_r by lia. do 2 f_equal. pose proof (Nat.div_mod i 64). lia.
Qed.

(** One bit more of a quotient by a power of two. *)
Lemma div_pow2_step a n :
  0 <= n -> a / 2 ^ n = 2 * (a / 2 ^ (n + 1)) + Z.b2z (Z.testbit a n).
Proof.
  intros Hn. rewrite Z.pow_add_r, <- Z.div_div by lia. change (2 ^ 1) with 2.
  replace (Z.testbit a n) with (Z.testbit (a / 2 ^ n) 0) by (rewrite Z.div_pow2_bits by lia; f_equal).
  rewrite Z.bit0_mod. apply Z.div_mod. lia.
Qed.

(** The state of the long division with [n] bits of the dividend left. *)
Record dividing (n : nat) (dividend divisor q r : Magnitude) : Prop := {
  dv_q : mag_ok q;
  dv_r : mag_ok r;
  dv_lt : eval r < eval divisor;
  dv_inv : exists Q, eval q = 2 ^ Z.of_nat n * Q /\
    eval dividend / 2 ^ Z.of_nat n = Q * eval divisor + eval r
}.

Lemma dividing_step n dividend divisor q r :
  (S n <= 512)%nat -> limbs_ok dividend -> mag_ok divisor -> 0 < eval divisor < 2 ^ 511 ->
  dividing (S n) dividend divisor q r ->
  let r1 := shift_in r (bit_at dividend n) in
  match compare r1 divisor with
  | Lt => dividing n dividend divisor q r1
  | _ => dividing n dividend divisor (set_bit q n) (subtract r1 divisor)
  end.
Proof.
  intros Hn Hdd [Hdv Hldv] HD [[Hq Hlq] [Hr Hlr] Hlt (Q & EQ & Einv)] r1. subst r1.
  rewrite bit_at_spec by easy. set (b := Z.testbit (eval dividend) (Z.of_nat n)) in *.
  pose proof (eval_range r Hr) as Hrr. rewrite weight_mag in Hrr by easy.
  destruct (shift_in_spec r (Z.b2z b)) as (G1 & G2 & G3); [easy|destruct b; cbn; lia| |].
  { rewrite weight_mag by easy. change (2 ^ 512) with (2 * 2 ^ 511). destruct b; cbn; lia. }
  set (r1 := shift_in r (Z.b2z b)) in *.
  assert (E2 : 2 ^ Z.of_nat (S n) = 2 ^ Z.of_nat n * 2) by (rewrite Nat2Z.inj_succ, Z.pow_succ_r by lia; lia).
  assert (Edd : eval dividend / 2 ^ Z.of_nat n = 2 * Q * eval divisor + eval r1).
  { rewrite div_pow2_step by lia. replace (Z.of_nat n + 1) with (Z.of_nat (S n)) by lia.
    rewrite Einv. fold b. lia. }
  rewrite E2 in EQ. assert (EQ' : eval q = 2 ^ Z.of_nat n * (2 * Q)) by lia.
  assert (Hbit : Z.testbit (eval q) (Z.of_nat n) = false).
  { rewrite EQ', Z.mul_comm, Z.mul_pow2_bits, Z.sub_diag by lia. apply Z.testbit_even_0. }
  destruct (set_bit_spec q n Hq) as (S1 & S2 & S3); [rewrite Hlq; unfold LIMBS; lia|easy|].
  rewrite compare_spec by (easy || congruence).
  assert (Hge : eval divisor <= eval r1 -> dividing n dividend divisor (set_bit q n) (subtract r1 divisor)).
  { intros Hle. destruct (subtract_spec r1 divisor) as (D1 & D2 & D3); [easy..|congruence|easy|].
    constructor; [split; congruence|split; congruence|destruct b; cbn in *; lia|].
    exists (2 * Q + 1). rewrite S3, D3, EQ', Edd. lia. }
  destruct (Z.compare_spec (eval r1) (eval divisor)); [apply Hge; lia| |apply Hge; lia].
  constructor; [split; easy|split; congruence|easy|]. exists (2 * Q). auto.
Qed.

Lemma divide_bits_spec n dividend divisor q r q' r' :
  (n <= 512)%nat -> limbs_ok dividend -> mag_ok divisor -> 0 < eval divisor < 2 ^ 511 ->
  dividing n dividend divisor q r -> divide_bits n dividend divisor q r = (q', r') ->
  dividing 0 dividend divisor q' r'.
Proof.
  intros Hn Hdd Hdv HD. revert q r. induction n as [|n IH]; intros q r Hinv E; cbn [divide_bits] in E.
  - now injection E as <- <-.
  - pose proof (dividing_step n dividend divisor q r Hn Hdd Hdv HD Hinv) as Hst. cbv zeta in Hst.
    destruct (compare _ divisor); eapply IH; eauto; lia.
Qed.

Lemma zero_limbs_ok : mag_ok zero_limbs /\ eval zero_limbs = 0.
Proof. split; [split; [apply limbs_ok_zeros|easy]|apply eval_zeros]. Qed.

Lemma divide_spec a b :
  mag_ok a -> mag_ok b -> eval b < 2 ^ 511 ->
  if eval b =? 0 then divide a b = None
  else exists q r, divide a b = Some (q, r) /\ mag_ok q /\ mag_ok r /\
    eval q = eval a / eval b /\ eval r = eval a mod eval b.
Proof.
  intros [Ha Hla] [Hb Hlb] HB. unfold divide. pose proof (is_zero_spec b Hb) as Hz.
  pose proof (eval_range b Hb). pose proof (eval_range a Ha) as Hra. rewrite weight_mag in Hra by easy.
  destruct (Z.eqb_spec (eval b) 0) as [E|E].
  - destruct Hz as [_ ->]; easy.
  - destruct (is_zero b); [destruct Hz as [Hz _]; now specialize (Hz eq_refl)|].
    destruct (divide_bits (LIMBS * 64) a b zero_limbs zero_limbs) as [q r] eqn:Ed.
    destruct zero_limbs_ok as [Hzo Hze].
    apply divide_bits_spec in Ed; [|unfold LIMBS; lia|easy|split; easy|lia|].
    + destruct Ed as [Hq Hr Hlt (Q & EQ & Einv)]. change (2 ^ Z.of_nat 0) with 1 in *.
      rewrite Z.div_1_r, Z.mul_1_l in *. subst Q. exists q, r. repeat (split; [easy|]).
      pose proof (eval_range r (proj1 Hr)).
      split; [apply (Z.div_unique _ _ _ (eval r))|apply (Z.mod_unique _ _ (eval q))]; lia.
    + constructor; auto; [lia|]. exists 0. rewrite Hze. split; [lia|].
      change (Z.of_nat (LIMBS * 64)) with 512. rewrite Z.div_small; lia.
Qed.

(** ** Signed operations *)

Definition signed_by (negative : bool) (z : Z) : Z := if negative then - z else z.

Lemma wide_new_spec n m :
  mag_ok m -> eval m < 2 ^ 511 ->
  wide_ok (wide_new n m) /\ wide_value (wide_new n m) = signed_by n (eval m).
Proof.
  intros Hm Hb. unfold wide_ok, wide_value, wide_new, signed_by; cbn [w_negative w_magnitude].
  pose proof (is_zero_spec m (proj1 Hm)) as Hz.
  destruct (is_zero m).
  - rewrite andb_false_r. destruct Hz as [Hz _]. specialize (Hz eq_refl).
    split; [split; [easy|]; split; [easy|discriminate]|]. destruct n; lia.
  - rewrite andb_true_r. split; [|easy]. split; [easy|]. split; [easy|].
    intros _ E. apply Hz in E. discriminate.
Qed.

Lemma wide_value_range w : wide_ok w -> - 2 ^ 511 < wide_value w < 2 ^ 511.
Proof.
  intros (Hm & Hb & _). pose proof (eval_range _ (proj1 Hm)). unfold wide_value. destruct (w_negative w); lia.
Qed.

Lemma eval_inj a b : limbs_ok a -> limbs_ok b -> length a = length b -> eval a = eval b -> a = b.
Proof.
  intros Ha. revert b. induction Ha as [|x a Hx Ha IH]; intros [|y b] Hb Hl E; try discriminate Hl; [easy|].
  inv Hb. rewrite !eval_cons in E. f_equal; [lia|]. apply IH; [easy|cbn in Hl; lia|lia].
Qed.

Lemma wide_ext a b : wide_ok a -> wide_ok b -> wide_value a = wide_value b -> a = b.
Proof.
  intros (Ha & Hba & Hna) (Hb & Hbb & Hnb) E. destruct a as [na ma], b as [nb mb]. unfold wide_value in E.
  cbn [w_negative w_magnitude] in *. pose proof (eval_range _ (proj1 Ha)). pose proof (eval_range _ (proj1 Hb)).
  assert (na = nb /\ eval ma = eval mb) as [-> Em].
  { destruct na, nb; split; auto; try lia; exfalso;
      try specialize (Hna eq_refl); try specialize (Hnb eq_refl); lia. }
  f_equal. apply eval_inj; try apply Ha; try apply Hb; auto. destruct Ha, Hb; congruence.
Qed.

(** [o] is the exact result [z], or [None] because [z] leaves the magnitude bound. *)
Definition exactly (o : option WideInt) (z : Z) : Prop :=
  match o with Some w => wide_ok w /\ wide_value w = z | None => 2 ^ 511 <= Z.abs z end.

Lemma wide_add_exact a b : wide_ok a -> wide_ok b -> exactly (wide_add a b) (wide_value a + wide_value b).
Proof.
  intros (Ha & Hba & Hna) (Hb & Hbb & Hnb). unfold wide_add, wide_value, exactly.
  pose proof (eval_range _ (proj1 Ha)). pose proof (eval_range _ (proj1 Hb)).
  destruct (Bool.eqb (w_negative a) (w_negative b)) eqn:Es.
  - apply Bool.eqb_prop in Es. pose proof (add_spec _ _ Ha Hb) as Hs.
    destruct (Z.ltb_spec (eval (w_magnitude a) + eval (w_magnitude b)) (2 ^ 511)).
    + destruct Hs as (s & -> & Hms & Ev). destruct (wide_new_spec (w_negative a) s Hms) as [H1' H2']; [lia|].
      split; [easy|]. rewrite H2', <- Es, Ev. unfold signed_by. destruct (w_negative a); lia.
    + rewrite Hs, <- Es. destruct (w_negative a); lia.
  - rewrite compare_spec by (apply Ha || apply Hb || (destruct Ha, Hb; congruence)).
    assert (Hcase : forall x y n, mag_ok x -> mag_ok y -> eval y <= eval x -> eval x < 2 ^ 511 ->
      wide_ok (wide_new n (subtract x y)) /\ wide_value (wide_new n (subtract x y)) = signed_by n (eval x - eval y)).
    { intros x y n Hx Hy Hle Hlt. destruct (subtract_spec x y) as (D1 & D2 & D3); try apply Hx; try apply Hy; auto.
      { destruct Hx, Hy; congruence. }
      destruct (wide_new_spec n (subtract x y)) as [E1 E2].
      - split; [easy|]. destruct Hx; congruence.
      - pose proof (eval_range _ (proj1 Hy)). lia.
      - split; [easy|]. now rewrite E2, D3. }
    apply Bool.eqb_false_iff in Es.
    destruct (Z.compare_spec (eval (w_magnitude a)) (eval (w_magnitude b)));
      [destruct (Hcase (w_magnitude a) (w_magnitude b) (w_negative a) Ha Hb) as [E1 E2]
      |destruct (Hcase (w_magnitude b) (w_magnitude a) (w_negative b) Hb Ha) as [E1 E2]
      |destruct (Hcase (w_magnitude a) (w_magnitude b) (w_negative a) Ha Hb) as [E1 E2]];
      try lia; (split; [exact E1|]); rewrite E2; unfold signed_by;
      destruct (w_negative a), (w_negative b); try congruence; lia.
Qed.

Lemma negated_spec w : wide_ok w -> wide_ok (negated w) /\ wide_value (negated w) = - wide_value w.
Proof.
  intros (Hm & Hb & Hn). unfold negated. destruct (wide_new_spec (negb (w_negative w)) (w_magnitude w) Hm Hb) as [E1 E2].
  split; [easy|]. rewrite E2. unfold signed_by, wide_value. destruct (w_negative w); cbn; lia.
Qed.

Lemma wide_mul_exact a b : wide_ok a -> wide_ok b -> exactly (wide_mul a b) (wide_value a * wide_value b).
Proof.
  intros (Ha & Hba & Hna) (Hb & Hbb & Hnb). unfold wide_mul, wide_value, exactly.
  pose proof (eval_range _ (proj1 Ha)). pose proof (eval_range _ (proj1 Hb)).
  pose proof (multiply_spec _ _ Ha Hb) as Hs.
  destruct (Z.ltb_spec (eval (w_magnitude a) * eval (w_magnitude b)) (2 ^ 511)).
  - destruct Hs as (s & -> & Hms & Ev).
    destruct (wide_new_spec (negb (Bool.eqb (w_negative a) (w_negative b))) s Hms) as [E1 E2]; [lia|].
    split; [easy|]. rewrite E2, Ev. unfold signed_by. destruct (w_negative a), (w_negative b); cbn; lia.
  - rewrite Hs. destruct (w_negative a), (w_negative b); nia.
Qed.

Lemma eval_abs w : wide_ok w -> eval (w_magnitude w) = Z.abs (wide_value w).
Proof.
  intros (Hm & _ & _). pose proof (eval_range _ (proj1 Hm)). unfold wide_value. destruct (w_negative w); lia.
Qed.

Lemma sign_product a b q :
  wide_ok a -> wide_ok b -> (wide_value a = 0 -> q = 0) -> wide_value b <> 0 ->
  signed_by (negb (Bool.eqb (w_negative a) (w_negative b))) q =
    Z.sgn (wide_value a) * Z.sgn (wide_value b) * q.
Proof.
  intros (Ha & _ & Hna) (Hb & _ & Hnb) Hq0 Hb0. pose proof (eval_range _ (proj1 Ha)). pose proof (eval_range _ (proj1 Hb)).
  unfold wide_value, signed_by in *.
  destruct (w_negative a) eqn:Ea, (w_negative b) eqn:Eb; cbn [Bool.eqb negb];
    try specialize (Hna eq_refl); try specialize (Hnb eq_refl);
    rewrite ?(Z.sgn_neg (- _)) by lia; rewrite ?(Z.sgn_pos (eval (w_magnitude b))) by lia; try lia;
    (destruct (Z.eq_dec (eval (w_magnitude a)) 0) as [E|E]; [rewrite E, Hq0 by lia; cbn; lia
     |rewrite (Z.sgn_pos (eval (w_magnitude a))) by lia; lia]).
Qed.

Lemma div_truncate_spec a b :
  wide_ok a -> wide_ok b ->
  if wide_value b =? 0 then div_truncate a b = None
  else exists q, div_truncate a b = Some q /\ wide_ok q /\ wide_value q = Z.quot (wide_value a) (wide_value b).
Proof.
  intros Ha Hb. pose proof (divide_spec _ _ (proj1 Ha) (proj1 Hb) (proj1 (proj2 Hb))) as Hd.
  rewrite !eval_abs in Hd by easy. unfold div_truncate, mbind, option_bind.
  destruct (Z.eqb_spec (wide_value b) 0) as [E|E].
  - rewrite E in Hd. cbn [Z.abs Z.eqb] in Hd. now rewrite Hd.
  - destruct (Z.eqb_spec (Z.abs (wide_value b)) 0); [lia|]. destruct Hd as (q & r & -> & Hq & Hr & Eq & Er).
    pose proof (wide_value_range a Ha).
    destruct (wide_new_spec (negb (Bool.eqb (w_negative a) (w_negative b))) q Hq) as [E1 E2].
    { rewrite Eq. assert (Z.abs (wide_value a) / Z.abs (wide_value b) <= Z.abs (wide_value a)); [|lia].
      apply Z.div_le_upper_bound; nia. }
    eexists. split; [reflexivity|]. split; [easy|]. rewrite E2, Eq.
    rewrite sign_product by (auto; intros ->; now rewrite Z.div_0_l by lia).
    rewrite Z.quot_div by easy. lia.
Qed.

Lemma wide_rem_spec a b :
  wide_ok a -> wide_ok b ->
  if wide_value b =? 0 then wide_rem a b = None
  else exists q, wide_rem a b = Some q /\ wide_ok q /\ wide_value q = Z.rem (wide_value a) (wide_value b).
Proof.
  intros Ha Hb. pose proof (divide_spec _ _ (proj1 Ha) (proj1 Hb) (proj1 (proj2 Hb))) as Hd.
  rewrite !eval_abs in Hd by easy. unfold wide_rem, mbind, option_bind.
  destruct (Z.eqb_spec (wide_value b) 0) as [E|E].
  - rewrite E in Hd. cbn [Z.abs Z.eqb] in Hd. now rewrite Hd.
  - destruct (Z.eqb_spec (Z.abs (wide_value b)) 0); [lia|]. destruct Hd as (q & r & -> & Hq & Hr & Eq & Er).
    pose proof (wide_value_range b Hb).
    pose proof (Z.mod_pos_bound (Z.abs (wide_value a)) (Z.abs (wide_value b))).
    destruct (wide_new_spec (w_negative a) r Hr) as [E1 E2]; [lia|].
    eexists. split; [reflexivity|]. split; [easy|]. rewrite E2, Er, Z.rem_mod by easy.
    destruct Ha as (Hma & _ & Hna). pose proof (eval_range _ (proj1 Hma)).
    set (B := Z.abs (wide_value b)) in *. clearbody B.
    unfold signed_by, wide_value. destruct (w_negative a).
    + specialize (Hna eq_refl). rewrite Z.sgn_neg by lia. lia.
    + destruct (Z.eq_dec (eval (w_magnitude a)) 0) as [E0|E0];
        [rewrite E0; change (Z.abs 0) with 0; rewrite Z.mod_0_l by easy; lia|rewrite Z.sgn_pos by lia; lia].
Qed.

Lemma div_round_spec a b :
  wide_ok a -> wide_ok b -> Z.abs (wide_value b) <= 2 ^ 510 ->
  if wide_value b =? 0 then div_round_half_up a b = None
  else exists q, div_round_half_up a b = Some q /\ wide_ok q /\
    wide_value q = round_half_away (wide_value a) (wide_value b).
Proof.
  intros Ha Hb Hlim. pose proof (divide_spec _ _ (proj1 Ha) (proj1 Hb) (proj1 (proj2 Hb))) as Hd.
  rewrite !eval_abs in Hd by easy. unfold div_round_half_up, mbind, option_bind.
  destruct (Z.eqb_spec (wide_value b) 0) as [E|E].
  - rewrite E in Hd. cbn [Z.abs Z.eqb] in Hd. now rewrite Hd.
  - destruct (Z.eqb_spec (Z.abs (wide_value b)) 0); [lia|]. destruct Hd as (q & r & -> & Hq & Hr & Eq & Er).
    set (A := Z.abs (wide_value a)) in *. set (B := Z.abs (wide_value b)) in *.
    assert (HA : 0 <= A < 2 ^ 511) by (pose proof (wide_value_range a Ha); unfold A; lia).
    pose proof (Z.mod_pos_bound A B). pose proof (Z.div_mod A B).
    pose proof (add_spec r r Hr Hr) as Hadd. rewrite Er in Hadd.
    destruct (Z.ltb_spec (A mod B + A mod B) (2 ^ 511)); [|lia].
    destruct Hadd as (d & -> & Hd & Ed). 
    rewrite compare_spec by (apply Hd || apply (proj1 Hb) || (destruct Hd, (proj1 Hb); congruence)).
    rewrite Ed, (eval_abs b Hb). fold B.
    assert (Hround : (2 * A + B) / (2 * B) = if 2 * (A mod B) <? B then A / B else A / B + 1)
      by (apply half_up_quotient; lia).
    assert (Hq0 : wide_value a = 0 -> (2 * A + B) / (2 * B) = 0).
    { intros Ea. unfold A. rewrite Ea. apply Z.div_small. lia. }
    assert (Hfin : forall m, mag_ok m -> eval m = (2 * A + B) / (2 * B) -> eval m < 2 ^ 511 -> exists q,
      Some (wide_new (negb (Bool.eqb (w_negative a) (w_negative b))) m) = Some q /\ wide_ok q /\
      wide_value q = round_half_away (wide_value a) (wide_value b)).
    { intros m Hm Em Hlt. destruct (wide_new_spec (negb (Bool.eqb (w_negative a) (w_negative b))) m Hm Hlt) as [E1 E2].
      eexists. split; [reflexivity|]. split; [easy|]. rewrite E2, Em. now apply sign_product. }
    assert (Hqb : A / B <= A) by (apply Z.div_le_upper_bound; nia).
    assert (Hup : B <= 2 * (A mod B) -> exists m, multiply_add_small q 1 1 = Some m /\ mag_ok m /\
        eval m = (2 * A + B) / (2 * B) /\ eval m < 2 ^ 511).
    { intros Hge. destruct (Z.ltb_spec (2 * (A mod B)) B); [lia|].
      assert (B <> 1) by (intros E1; rewrite E1, Z.mod_1_r in Hge; lia).
      assert (2 * (A / B) <= A) by nia.
      pose proof (multiply_add_small_spec q 1 1 Hq) as Hm. rewrite Eq in Hm.
      destruct (Z.ltb_spec (A / B * 1 + 1) (2 ^ 511)) as [Hlt|Hlt]; [|exfalso; change (2 ^ 511) with (2 * 2 ^ 510) in *; lia].
      destruct Hm as (m & -> & Hm & Em); [lia..|]. exists m. repeat (split; [easy|]). split; lia. }
    destruct (Z.compare_spec (A mod B + A mod B) B) as [Hc|Hc|Hc].
    + destruct Hup as (m & -> & Hm & Em & Hlt); [lia|]. now apply Hfin.
    + apply Hfin; auto; [|lia]. rewrite Eq, Hround. destruct (Z.ltb_spec (2 * (A mod B)) B); [easy|lia].
    + destruct Hup as (m & -> & Hm & Em & Hlt); [lia|]. now apply Hfin.
Qed.

Lemma pow10_loop_spec n m :
  mag_ok m -> 0 < eval m ->
  if eval m * 10 ^ Z.of_nat n <? 2 ^ 511
  then exists s, pow10_loop n m = Some s /\ mag_ok s /\ eval s = eval m * 10 ^ Z.of_nat n
  else eval m < 2 ^ 511 -> pow10_loop n m = None.
Proof.
  revert m. induction n as [|n IH]; intros m Hm Hp; cbn [pow10_loop].
  - change (10 ^ Z.of_nat 0) with 1. rewrite Z.mul_1_r. destruct (Z.ltb_spec (eval m) (2 ^ 511)); [eauto|lia].
  - rewrite Nat2Z.inj_succ, Z.pow_succ_r by lia. unfold mbind, option_bind.
    assert (Hp10 : 0 < 10 ^ Z.of_nat n) by (apply Z.pow_pos_nonneg; lia).
    pose proof (multiply_add_small_spec m 10 0 Hm) as Hs. destruct (Z.ltb_spec (eval m * 10 + 0) (2 ^ 511)) as [Hlt|Hge].
    + destruct Hs as (s & -> & Hs & Es); [lia..|]. specialize (IH s Hs). rewrite Es in IH.
      replace (eval m * (10 * 10 ^ Z.of_nat n)) with ((eval m * 10 + 0) * 10 ^ Z.of_nat n) by lia.
      specialize (IH ltac:(lia)). destruct (_ <? _); [easy|]. intros _. apply IH. lia.
    + rewrite Hs by lia. destruct (Z.ltb_spec (eval m * (10 * 10 ^ Z.of_nat n)) (2 ^ 511)); [nia|easy].
Qed.

Lemma pow10_exact n : 0 <= n -> exactly (pow10 n) (10 ^ n).
Proof.
  intros Hn. unfold pow10, exactly, mbind, option_bind.
  assert (H1 : mag_ok (1 :: replicate 7 0)) by (split; [constructor; [lia|apply limbs_ok_zeros]|easy]).
  assert (E1 : eval (1 :: replicate 7 0) = 1) by (rewrite eval_cons, eval_zeros; lia).
  pose proof (pow10_loop_spec (Z.to_nat n) _ H1) as Hs. rewrite E1, Z.mul_1_l, Z2Nat.id in Hs by easy.
  specialize (Hs ltac:(lia)). destruct (Z.ltb_spec (10 ^ n) (2 ^ 511)).
  - destruct Hs as (s & -> & Hs & Es). destruct (wide_new_spec false s Hs) as [G1 G2]; [lia|].
    split; [easy|]. now rewrite G2.
  - rewrite Hs by lia. pose proof (Z.pow_nonneg 10 n). lia.
Qed.

Lemma from_i128_spec v :
  is_i128 v = true -> wide_ok (from_i128 v) /\ wide_value (from_i128 v) = v.
Proof.
  intros [Hl Hu]%in_signed_spec. unfold from_i128. change (2 ^ (128 - 1)) with (2 ^ 127) in *.
  set (m := Z.abs v). assert (Hm : 0 <= m <= 2 ^ 127) by (unfold m; lia).
  pose proof (low_high m) as E. pose proof (low_range m). assert (0 <= high m < 2 ^ 64) by lia.
  assert (Hok : mag_ok (low m :: high m :: replicate 6 0)).
  { split; [|easy]. constructor; [easy|]. constructor; [easy|apply limbs_ok_zeros]. }
  assert (Ev : eval (low m :: high m :: replicate 6 0) = m) by (rewrite !eval_cons, eval_zeros; lia).
  destruct (wide_new_spec (v <? 0) _ Hok) as [G1 G2]; [rewrite Ev; lia|]. split; [easy|].
  rewrite G2, Ev. unfold signed_by, m. destruct (Z.ltb_spec v 0); lia.
Qed.

Lemma to_i128_spec w : wide_ok w -> to_i128 w = checked_i128 (wide_value w).
Proof.
  intros ((Hm & Hl) & Hb & Hn). destruct w as [n m]. cbn [w_negative w_magnitude] in *.
  destruct m as [|x [|y rest]]; try discriminate Hl. inv Hm. inv H2. unfold to_i128, wide_value.
  cbn [w_negative w_magnitude nth]. change (drop 2 (x :: y :: rest)) with rest.
  rewrite all_zero_eval by easy. rewrite !eval_cons.
  pose proof (eval_range rest H4). rewrite Z.lor_comm, lor_shift_add by easy.
  destruct (Z.eqb_spec (eval rest) 0) as [E|E]; cbn [negb].
  - rewrite E. destruct n; apply (f_equal checked_i128); lia.
  - unfold checked_i128, is_i128. destruct (in_signed 128 _) eqn:Es; [|easy]. exfalso.
    apply in_signed_spec in Es. change (2 ^ (128 - 1)) with (2 ^ 127) in Es. destruct n; lia.
Qed.

Lemma wide_cmp_spec a b : wide_ok a -> wide_ok b -> wide_cmp a b = Z.compare (wide_value a) (wide_value b).
Proof.
  intros (Ha & _ & Hna) (Hb & _ & Hnb). unfold wide_cmp, wide_value.
  pose proof (eval_range _ (proj1 Ha)). pose proof (eval_range _ (proj1 Hb)).
  rewrite !compare_spec by (apply Ha || apply Hb || (destruct Ha, Hb; congruence)).
  destruct (w_negative a), (w_negative b); try specialize (Hna eq_refl); try specialize (Hnb eq_refl).
  - now rewrite Z.compare_opp.
  - symmetry. apply Z.compare_lt_iff. lia.
  - symmetry. apply Z.compare_gt_iff. lia.
  - easy.
Qed.

(** ** Text *)

(** The number a list of chunks denotes, most significant first. *)
Definition chunk_value (cs : list Z) : Z := foldl (fun acc c => acc * CHUNK + c) 0 cs.

Lemma chunk_value_snoc cs c : chunk_value (cs ++ [c]) = chunk_value cs * CHUNK + c.
Proof. unfold chunk_value. now rewrite foldl_app. Qed.

Lemma chunks_spec fuel m :
  limbs_ok m -> eval m < CHUNK ^ Z.of_nat fuel ->
  Forall (fun c => 0 <= c < CHUNK) (chunks fuel m) /\ chunk_value (rev (chunks fuel m)) = eval m /\
  (eval m = 0 -> chunks fuel m = []) /\
  (forall first rest, rev (chunks fuel m) = first :: rest -> 0 < first).
Proof.
  revert m. induction fuel as [|fuel IH]; intros m Hm Hf; pose proof (eval_range m Hm); cbn [chunks].
  { change (CHUNK ^ Z.of_nat 0) with 1 in Hf. repeat split; try constructor; auto; [cbn; lia|discriminate]. }
  pose proof (is_zero_spec m Hm) as Hz. destruct (is_zero m).
  { destruct Hz as [Hz _]. rewrite Hz by easy. repeat split; try constructor. discriminate. }
  assert (Hnz : eval m <> 0) by (intros E; apply Hz in E; discriminate).
  destruct (divide_small m CHUNK) as [q r] eqn:Ed. unfold CHUNK in Ed at 1.
  apply divide_small_spec in Ed as (Hq & Hlq & Hr & Ev); [|easy|lia]. fold CHUNK in Ev, Hr.
  pose proof (eval_range q Hq).
  destruct (IH q Hq) as (G1 & G2 & G3 & G4).
  { rewrite Nat2Z.inj_succ, Z.pow_succ_r in Hf by lia. unfold CHUNK in *. nia. }
  cbn [rev]. split; [now constructor|]. split; [rewrite chunk_value_snoc, G2; lia|]. split; [lia|].
  intros first rest E. destruct (rev (chunks fuel q)) as [|f0 rest0] eqn:Er.
  - injection E as <- <-. cbn in G2. lia.
  - injection E as <- <-. eapply G4. reflexivity.
Qed.

Lemma foldl_chunks_text cs text :
  Forall (fun c => 0 <= c < CHUNK) cs -> all_digits text = true ->
  let t := foldl (fun text chunk => text ++ dec_padded 19 chunk) text cs in
  all_digits t = true /\ digits_value t = foldl (fun acc c => acc * CHUNK + c) (digits_value text) cs /\
  exists suffix, t = text ++ suffix.
Proof.
  intros Hc. revert text. induction Hc as [|c cs Hc Hcs IH]; intros text Ht; cbn [foldl].
  { repeat split; auto. exists []. now rewrite app_nil_r. }
  destruct (dec_padded_spec 19 c) as (P1 & P2 & P3); [lia|unfold CHUNK in Hc; lia|].
  destruct (IH (text ++ dec_padded 19 c)) as (G1 & G2 & suffix & G3); [now rewrite all_digits_app, Ht, P1|].
  split; [easy|]. split.
  - rewrite G2, digits_value_app, P2, P3. reflexivity.
  - exists (dec_padded 19 c ++ suffix). now rewrite G3, app_assoc.
Qed.

Lemma magnitude_text_spec w :
  wide_ok w ->
  all_digits (magnitude_text w) = true /\ digits_value (magnitude_text w) = Z.abs (wide_value w) /\
  1 <= len (magnitude_text w).
Proof.
  intros Hw. rewrite <- eval_abs by easy. destruct Hw as ((Hm & Hl) & Hb & _). unfold magnitude_text.
  destruct (chunks_spec 32 (w_magnitude w) Hm) as (Hf & Hv & _ & Hpos); [unfold CHUNK; lia|].
  apply List.Forall_rev in Hf. destruct (rev (chunks 32 (w_magnitude w))) as [|first rest].
  { rewrite <- Hv. split; [easy|]. split; [easy|]. rewrite len_cons, len_nil. lia. }
  specialize (Hpos _ _ eq_refl). inv Hf.
  destruct (foldl_chunks_text rest (dec_text first)) as (G1 & G2 & suffix & G3); [easy|apply dec_text_digits; lia|].
  split; [easy|]. split.
  - rewrite G2, dec_text_value, <- Hv by lia. reflexivity.
  - rewrite G3, len_app. pose proof (dec_text_nonempty first). pose proof (len_nonneg suffix). lia.
Qed.

(** Digits before the point extend the magnitude. *)
Lemma parse_digits scale round s bs :
  mag_ok (ps_magnitude s) -> all_digits bs = true ->
  (ps_seen_dot s = true -> ps_fraction_digits s + len bs <= scale) ->
  eval (ps_magnitude s) * 10 ^ len bs + digits_value bs < 2 ^ 511 ->
  exists m, parse_loop scale round s bs = Some {|
      ps_magnitude := m;
      ps_fraction_digits := if ps_seen_dot s then ps_fraction_digits s + len bs else ps_fraction_digits s;
      ps_seen_dot := ps_seen_dot s; ps_seen_digit := ps_seen_digit s || negb (len bs =? 0);
      ps_round_up := ps_round_up s |} /\
    mag_ok m /\ eval m = eval (ps_magnitude s) * 10 ^ len bs + digits_value bs.
Proof.
  revert s. induction bs as [|b bs IH]; intros s Hm Hd Hfr Hlt; cbn [parse_loop].
  { exists (ps_magnitude s). rewrite len_nil. cbn [Z.eqb negb]. rewrite orb_false_r, Z.add_0_r.
    split; [destruct s as [m f sd sg r]; cbn; destruct sd; easy|]. split; [easy|]. unfold digits_value. cbn. lia. }
  cbn [all_digits forallb] in Hd. apply andb_prop in Hd as [Hb Hd]. pose proof (len_nonneg bs) as Hn.
  rewrite len_cons in *. rewrite digits_value_cons in Hlt.
  replace (10 ^ (1 + len bs)) with (10 * 10 ^ len bs) in Hlt by (rewrite Z.pow_add_r by lia; lia).
  pose proof (digits_value_range bs Hd). pose proof (eval_range _ (proj1 Hm)).
  assert (Hp : 0 < 10 ^ len bs) by (apply Z.pow_pos_nonneg; lia).
  unfold mbind, option_bind, parse_byte at 1. rewrite Hb. apply is_digit_spec in Hb.
  replace (ps_seen_dot s && (scale <=? ps_fraction_digits s)) with false.
  2:{ symmetry. destruct (ps_seen_dot s); [|easy]. specialize (Hfr eq_refl). cbn [andb]. apply Z.leb_gt. lia. }
  pose proof (multiply_add_small_spec (ps_magnitude s) 10 (digit_of b) Hm) as Hs.
  assert (Hgrow : eval (ps_magnitude s) * 10 + digit_of b <= (eval (ps_magnitude s) * 10 + digit_of b) * 10 ^ len bs) by nia.
  destruct (Z.ltb_spec (eval (ps_magnitude s) * 10 + digit_of b) (2 ^ 511)); [|lia].
  destruct Hs as (m1 & -> & Hm1 & E1); [lia..|]. cbn [mbind option_bind].
  edestruct IH as (m & E & Hm' & Ev); [| exact Hd | | |]; cycle 3.
  - cbn [ps_magnitude ps_fraction_digits ps_seen_dot ps_seen_digit ps_round_up] in E.
    exists m. unfold mbind, option_bind. rewrite E. split; [|split; [exact Hm'|]].
    + replace (1 + len bs =? 0) with false by (symmetry; apply Z.eqb_neq; lia).
      cbn [orb negb]. rewrite orb_true_r. f_equal. f_equal. cbn [ps_seen_dot ps_fraction_digits]. destruct (ps_seen_dot s); lia.
    + rewrite Ev. cbn [ps_magnitude]. rewrite E1, digits_value_cons, Z.pow_add_r by lia. lia.
  - exact Hm1.
  - cbn [ps_seen_dot ps_fraction_digits]. destruct (ps_seen_dot s); [|discriminate]. intros _. specialize (Hfr eq_refl). lia.
  - cbn [ps_magnitude]. rewrite E1. nia.
Qed.

Lemma digit_not_sign b : is_digit b = true -> byte_eqb b minus_byte = false /\ byte_eqb b plus_byte = false.
Proof.
  unfold is_digit, byte_in, byte_eqb. change (byte.unsigned minus_byte) with 45.
  change (byte.unsigned plus_byte) with 43. intros [?%Z.leb_le ?%Z.leb_le]%andb_prop.
  split; apply Z.eqb_neq; lia.
Qed.

Lemma split_sign_digits (neg : bool) b rest :
  is_digit b = true ->
  split_sign ((if neg then [minus_byte] else []) ++ b :: rest) = Some (neg, b :: rest).
Proof.
  intros Hb. destruct neg; [reflexivity|]. rewrite app_nil_l. unfold split_sign.
  now destruct (digit_not_sign b Hb) as [-> ->].
Qed.

Lemma parse_loop_app scale round s a b :
  parse_loop scale round s (a ++ b) = (s' ← parse_loop scale round s a; parse_loop scale round s' b).
Proof.
  revert s. induction a as [|x a IH]; intros s; [easy|]. cbn [app parse_loop]. unfold mbind, option_bind.
  destruct (parse_byte scale round s x); [apply IH|easy].
Qed.

(** Parsing what [format_decimal_wide] prints. *)
Lemma parse_formatted (neg : bool) int frac scale round m :
  1 <= len int -> all_digits int = true -> all_digits frac = true -> len frac = scale -> 0 <= scale ->
  digits_value (int ++ frac) < 2 ^ 511 -> mag_ok m -> eval m = digits_value (int ++ frac) ->
  wide_parse ((if neg then [minus_byte] else []) ++
    (if scale =? 0 then int else int ++ [dot_byte] ++ frac)) scale round = Some (wide_new neg m).
Proof.
  intros Hi Hdi Hdf Hlf Hsc Hlt Hm Em. destruct int as [|b int]; [rewrite len_nil in Hi; lia|].
  assert (Hb : is_digit b = true) by (cbn [all_digits forallb] in Hdi; now apply andb_prop in Hdi as [? _]).
  destruct zero_limbs_ok as [Hzo Hze]. pose proof (digits_value_range _ Hdf) as Hrf.
  rewrite digits_value_app in Hlt, Em. assert (Hp : 0 < 10 ^ len frac) by (apply Z.pow_pos_nonneg; len_lia).
  pose proof (digits_value_range _ Hdi) as Hri.
  assert (Hgen : forall rest m', wide_parse ((if neg then [minus_byte] else []) ++ b :: rest) scale round =
      Some (wide_new neg m') -> mag_ok m' -> eval m' = eval m ->
    wide_parse ((if neg then [minus_byte] else []) ++ b :: rest) scale round = Some (wide_new neg m)).
  { intros rest m' -> Hm' E. do 2 f_equal. apply eval_inj; try apply Hm; try apply Hm'; auto.
    destruct Hm, Hm'; congruence. }
  destruct (parse_digits scale round parse_start (b :: int)) as (m1 & P1 & Hm1 & E1);
    [easy|easy|discriminate|cbn [parse_start ps_magnitude]; rewrite Hze; nia|].
  cbn [parse_start ps_magnitude ps_seen_dot ps_fraction_digits ps_seen_digit ps_round_up orb] in P1, E1.
  assert (Hseen : negb (len (b :: int) =? 0) = true) by (rewrite len_cons; pose proof (len_nonneg int);
    destruct (Z.eqb_spec (1 + len int) 0); [lia|easy]). rewrite Hseen in P1. rewrite Hze, Z.mul_0_l, Z.add_0_l in E1.
  destruct (Z.eqb_spec scale 0) as [E0|E0].
  - apply (Hgen int m1); auto.
    + unfold wide_parse, mbind, option_bind. rewrite split_sign_digits by easy. rewrite P1, E0. reflexivity.
    + rewrite Em, E1. assert (Hl0 : len frac = 0) by lia. rewrite Hl0 in *. change (10 ^ 0) with 1 in *. lia.
  - destruct (parse_digits scale round {| ps_magnitude := m1; ps_fraction_digits := 0; ps_seen_dot := true;
        ps_seen_digit := true; ps_round_up := false |} frac) as (m2 & P2 & Hm2 & E2);
      [easy|easy|cbn; lia|cbn [ps_magnitude]; rewrite E1; lia|].
    cbn [ps_magnitude ps_seen_dot ps_fraction_digits ps_seen_digit ps_round_up orb] in P2, E2.
    apply (Hgen (int ++ [dot_byte] ++ frac) m2); auto; [|rewrite Em, E2, E1; lia].
    unfold wide_parse, mbind, option_bind. rewrite split_sign_digits by easy.
    rewrite app_comm_cons, parse_loop_app. unfold mbind, option_bind. rewrite P1.
    change ([dot_byte] ++ frac) with (dot_byte :: frac). cbn [parse_loop]. unfold mbind, option_bind.
    change (parse_byte scale round _ dot_byte) with (Some {| ps_magnitude := m1; ps_fraction_digits := 0;
      ps_seen_dot := true; ps_seen_digit := true; ps_round_up := false |}).
    cbv beta iota. rewrite P2. cbv beta iota.
    cbn [ps_seen_digit ps_fraction_digits ps_magnitude ps_round_up negb].
    rewrite Hlf, Z.add_0_l, Z.sub_diag. reflexivity.
Qed.

(** Past 255 fraction digits the [u8] counter of [parse] overflows. *)
Lemma parse_long_zeros scale round k s :
  0 <= scale <= 255 -> ps_seen_dot s = true -> 0 <= ps_fraction_digits s <= 255 ->
  mag_ok (ps_magnitude s) -> eval (ps_magnitude s) = 0 -> 256 - ps_fraction_digits s <= Z.of_nat k ->
  parse_loop scale round s (replicate k zero_byte) = None.
Proof.
  intros Hsc. revert s. induction k as [|k IH]; intros s Hd Hf Hm He Hk; [lia|].
  cbn [replicate parse_loop]. unfold mbind, option_bind, parse_byte. change (is_digit zero_byte) with true.
  change (digit_of zero_byte) with 0. cbv iota. rewrite Hd. cbn [andb negb Z.eqb]. rewrite andb_false_r.
  destruct (Z.leb_spec scale (ps_fraction_digits s)).
  - unfold checked_add. destruct (Z.ltb_spec (ps_fraction_digits s + 1) (2 ^ 8)); [|easy].
    apply IH; cbn [ps_seen_dot ps_fraction_digits ps_magnitude]; auto; lia.
  - pose proof (multiply_add_small_spec (ps_magnitude s) 10 0 Hm) as Hs. rewrite He in Hs.
    destruct Hs as (m & -> & Hm' & E'); [lia..|].
    apply IH; cbn [ps_seen_dot ps_fraction_digits ps_magnitude]; auto; lia.
Qed.

(** ** Properties *)

(** C39. Addition, subtraction and multiplication of wide integers are exact:
    each returns the integer result, or [None] exactly when the result's magnitude is
    2^511 or more. *)
Theorem wide_arithmetic_exact a b :
  wide_ok a -> wide_ok b ->
  exactly (wide_add a b) (wide_value a + wide_value b) /\
  exactly (wide_sub a b) (wide_value a - wide_value b) /\
  exactly (wide_mul a b) (wide_value a * wide_value b).
Proof.
  intros Ha Hb. destruct (negated_spec b Hb) as [Hn En].
  split; [now apply wide_add_exact|]. split; [|now apply wide_mul_exact].
  unfold wide_sub. pose proof (wide_add_exact a (negated b) Ha Hn) as H. rewrite En in H. exact H.
Qed.

(** Long division is exact: [None] exactly for a zero divisor, otherwise
    truncation and remainder are those of the integers, and rounding is half away from
    zero for every divisor up to 2^510. *)
Theorem wide_division_exact a b :
  wide_ok a -> wide_ok b -> Z.abs (wide_value b) <= 2 ^ 510 ->
  if wide_value b =? 0
  then div_truncate a b = None /\ wide_rem a b = None /\ div_round_half_up a b = None
  else exists q r h, div_truncate a b = Some q /\ wide_rem a b = Some r /\ div_round_half_up a b = Some h /\
    wide_value q = Z.quot (wide_value a) (wide_value b) /\
    wide_value r = Z.rem (wide_value a) (wide_value b) /\
    wide_value h = round_half_away (wide_value a) (wide_value b).
Proof.
  intros Ha Hb Hlim. pose proof (div_truncate_spec a b Ha Hb) as Hq. pose proof (wide_rem_spec a b Ha Hb) as Hr.
  pose proof (div_round_spec a b Ha Hb Hlim) as Hh. destruct (wide_value b =? 0); [auto|].
  destruct Hq as (q & ? & _ & ?), Hr as (r & ? & _ & ?), Hh as (h & ? & _ & ?). exists q, r, h. auto 10.
Qed.

(** [parse_decimal_wide] inverts [format_decimal_wide] at every scale: the
    printed text of a wide decimal reads back as the same units. *)
Theorem wide_decimal_text_roundtrip w scale round :
  wide_ok w -> 0 <= scale -> wide_parse (format_decimal_wide w scale) scale round = Some w.
Proof.
  intros Hw Hs. destruct (magnitude_text_spec w Hw) as (Hd & Hv & Hl). unfold format_decimal_wide.
  set (t := if len (magnitude_text w) <=? scale then _ else _).
  assert (Ht : all_digits t = true /\ digits_value t = Z.abs (wide_value w) /\ scale < len t).
  { unfold t. destruct (Z.leb_spec (len (magnitude_text w)) scale); [|auto].
    rewrite pad_zeros_digits, pad_zeros_value, len_pad_zeros. repeat split; auto. lia. }
  destruct Ht as (Htd & Htv & Htl). clearbody t.
  set (int := take (Z.to_nat (len t - scale)) t). set (frac := drop (Z.to_nat (len t - scale)) t).
  assert (Hsplit : int ++ frac = t) by apply take_drop.
  assert (Hli : len int = len t - scale) by (unfold int, len in *; rewrite length_take; lia).
  assert (Hlf : len frac = scale) by (unfold frac, len in *; rewrite length_drop; lia).
  rewrite <- Hsplit, all_digits_app in Htd. apply andb_prop in Htd as [Hdi Hdf].
  pose proof (wide_value_range w Hw). pose proof (eval_abs w Hw) as Ea.
  assert (E : wide_new (is_negative w) (w_magnitude w) = w).
  { apply wide_ext; [apply wide_new_spec; apply Hw|easy|].
    destruct (wide_new_spec (is_negative w) (w_magnitude w)) as [_ ->]; [apply Hw..|]. reflexivity. }
  transitivity (Some (wide_new (is_negative w) (w_magnitude w))); [|now rewrite E].
  rewrite <- (parse_formatted (is_negative w) int frac scale round (w_magnitude w)); auto.
  - destruct (scale =? 0); reflexivity.
  - lia.
  - rewrite Hsplit, Htv. lia.
  - apply Hw.
  - now rewrite Hsplit, Htv.
Qed.

(** Widening an [i128] and narrowing back is the identity, narrowing
    succeeds exactly for values an [i128] holds, and the order of wide integers is the
    order of the integers they denote. *)
Theorem wide_i128_and_order a b v :
  wide_ok a -> wide_ok b -> is_i128 v = true ->
  to_i128 (from_i128 v) = Some v /\ to_i128 a = checked_i128 (wide_value a) /\
  wide_cmp a b = Z.compare (wide_value a) (wide_value b).
Proof.
  intros Ha Hb Hv. destruct (from_i128_spec v Hv) as [Hok Ev].
  split; [|split; [now apply to_i128_spec|now apply wide_cmp_spec]].
  rewrite to_i128_spec, Ev by easy. unfold checked_i128. now rewrite Hv.
Qed.

(** Zero written with 256 or more fraction digits is refused at every
    scale, although every digit past the scale is zero. *)
Theorem long_zero_fraction_refused scale round k :
  0 <= scale <= 255 -> (256 <= k)%nat ->
  wide_parse (zero_byte :: dot_byte :: replicate k zero_byte) scale round = None.
Proof.
  intros Hs Hk. unfold wide_parse, mbind, option_bind.
  destruct zero_limbs_ok as [Hzo Hze].
  pose proof (parse_long_zeros scale round k {| ps_magnitude := zero_limbs; ps_fraction_digits := 0;
    ps_seen_dot := true; ps_seen_digit := true; ps_round_up := false |} Hs eq_refl) as Hp.
  cbn [ps_fraction_digits ps_magnitude] in Hp. specialize (Hp ltac:(lia) Hzo Hze ltac:(lia)).
  change (split_sign _) with (Some (false, zero_byte :: dot_byte :: replicate k zero_byte)).
  cbv beta iota. cbn [parse_loop]. unfold mbind, option_bind.
  change (parse_byte scale round parse_start zero_byte) with (Some {| ps_magnitude := zero_limbs;
    ps_fraction_digits := 0; ps_seen_dot := false; ps_seen_digit := true; ps_round_up := false |}).
  cbv beta iota. change (parse_byte scale round _ dot_byte) with (Some {| ps_magnitude := zero_limbs;
    ps_fraction_digits := 0; ps_seen_dot := true; ps_seen_digit := true; ps_round_up := false |}).
  cbv beta iota. now rewrite Hp.
Qed.

(** ** Witnesses *)

Lemma from_i128_ok v : is_i128 v = true -> wide_ok (from_i128 v).
Proof. intros Hv. now apply from_i128_spec. Qed.

Lemma wide_arithmetic_exact_witness :
  let a := from_i128 (2 ^ 126) in let b := from_i128 (-7) in
  exactly (wide_add a b) (wide_value a + wide_value b) /\
  exactly (wide_sub a b) (wide_value a - wide_value b) /\
  exactly (wide_mul a b) (wide_value a * wide_value b).
Proof.
  apply (wide_arithmetic_exact (from_i128 (2 ^ 126)) (from_i128 (-7)));
    apply from_i128_ok; vm_compute; reflexivity.
Defined.

Lemma wide_division_exact_witness :
  let a := from_i128 (-25) in let b := from_i128 10 in
  exists q r h, div_truncate a b = Some q /\ wide_rem a b = Some r /\ div_round_half_up a b = Some h /\
    wide_value q = Z.quot (wide_value a) (wide_value b) /\
    wide_value r = Z.rem (wide_value a) (wide_value b) /\
    wide_value h = round_half_away (wide_value a) (wide_value b).
Proof.
  pose proof (wide_division_exact (from_i128 (-25)) (from_i128 10)
    (from_i128_ok (-25) eq_refl) (from_i128_ok 10 eq_refl)) as H.
  assert (Hle : Z.abs (wide_value (from_i128 10)) <= 2 ^ 510) by (apply Z.leb_le; vm_compute; reflexivity).
  specialize (H Hle). assert (E : (wide_value (from_i128 10) =? 0) = false) by (vm_compute; reflexivity).
  rewrite E in H. exact H.
Defined.

Lemma wide_decimal_text_roundtrip_witness :
  wide_parse (format_decimal_wide (from_i128 (-1205)) 2) 2 false = Some (from_i128 (-1205)).
Proof. apply (wide_decimal_text_roundtrip (from_i128 (-1205)) 2 false); [now apply from_i128_ok|lia]. Defined.

Lemma wide_i128_and_order_witness :
  to_i128 (from_i128 (-9)) = Some (-9) /\
  to_i128 (from_i128 4) = checked_i128 (wide_value (from_i128 4)) /\
  wide_cmp (from_i128 4) (from_i128 5) = Z.compare (wide_value (from_i128 4)) (wide_value (from_i128 5)).
Proof. apply (wide_i128_and_order (from_i128 4) (from_i128 5) (-9)); try apply from_i128_ok; reflexivity. Defined.

Lemma long_zero_fraction_refused_witness :
  wide_parse (zero_byte :: dot_byte :: replicate 256 zero_byte) 2 false = None.
Proof. apply (long_zero_fraction_refused 2 false 256); lia. Defined.
