(* ===== verification/Canonical.v ===== *)
(** * Canonical text ([src/crates/pintail-types/src/canonical.rs])

    Dates as days, datetimes and times as microseconds, decimals as scaled integers,
    and the text each is printed as.  [i64] and [i128] results are checked where the
    source checks them. *)

From Stdlib Require Import ZArith Lia.
From stdpp Require Import prelude list.
From coqutil Require Import Byte.
From S2P Require Import Prelude.
From S2P Require Import Types.
From S2P Require Import Text.

#[local] Open Scope Z_scope.

Definition checked_i64 (z : Z) : option Z := if is_i64 z then Some z else None.

(** [bytes[i]], for an index the source has checked. *)
Definition byte_at (bs : list byte) (i : nat) : byte := nth i bs Byte.x00.

(** The closure [digit]. *)
Definition digit (b : byte) : option Z := if is_digit b then Some (digit_of b) else None.

Definition two_digits (bs : list byte) (i : nat) : option Z :=
  a ← digit (byte_at bs i); b ← digit (byte_at bs (S i)); Some (a * 10 + b).

(** ** Dates *)

Definition is_leap (year : Z) : bool :=
  (year mod 4 =? 0) && (negb (year mod 100 =? 0) || (year mod 400 =? 0)).

Definition month_days (year month : Z) : Z :=
  if month =? 2 then (if is_leap year then 29 else 28)
  else if (month =? 4) || (month =? 6) || (month =? 9) || (month =? 11) then 30 else 31.

(** The day-count arithmetic of [parse_date_days]. *)
Definition days_from_civil (year month day : Z) : Z :=
  let adjusted_year := if month <=? 2 then year - 1 else year in
  let era := adjusted_year / 400 in
  let year_of_era := adjusted_year - era * 400 in
  let month_shifted := if 2 <? month then month - 3 else month + 9 in
  let day_of_year := (153 * month_shifted + 2) / 5 + day - 1 in
  let day_of_era := year_of_era * 365 + year_of_era / 4 - year_of_era / 100 + day_of_year in
  era * 146097 + day_of_era - 719468.

Definition parse_date_days (text : list byte) : option Z :=
  if negb (len text =? 10) || negb (byte_eqb (byte_at text 4) minus_byte)
     || negb (byte_eqb (byte_at text 7) minus_byte) then None
  else
    y1 ← digit (byte_at text 0); y2 ← digit (byte_at text 1);
    y3 ← digit (byte_at text 2); y4 ← digit (byte_at text 3);
    let year := y1 * 1000 + y2 * 100 + y3 * 10 + y4 in
    month ← two_digits text 5;
    day ← two_digits text 8;
    if negb ((1 <=? month) && (month <=? 12)) || (day <? 1) then None
    else if month_days year month <? day then None
    else Some (days_from_civil year month day).

Definition civil_from_days (days : Z) : Z * Z * Z :=
  let shifted := days + 719468 in
  let era := shifted / 146097 in
  let day_of_era := shifted mod 146097 in
  let year_of_era :=
    (day_of_era - day_of_era / 1460 + day_of_era / 36524 - day_of_era / 146096) / 365 in
  let day_of_year := day_of_era - (365 * year_of_era + year_of_era / 4 - year_of_era / 100) in
  let month_shifted := (5 * day_of_year + 2) / 153 in
  let day := day_of_year - (153 * month_shifted + 2) / 5 + 1 in
  let month := if month_shifted <? 10 then month_shifted + 3 else month_shifted - 9 in
  let year := year_of_era + era * 400 + (if month <=? 2 then 1 else 0) in
  (year, month, day).

(** [format!("{year:04}-{month:02}-{day:02}")]. *)
Definition date_text (year month day : Z) : list byte :=
  dec_padded 4 year ++ [minus_byte] ++ dec_padded 2 month ++ [minus_byte] ++ dec_padded 2 day.

Definition format_date_days (days : Z) : option (list byte) :=
  let '(year, month, day) := civil_from_days days in
  if negb ((0 <=? year) && (year <=? 9999)) then None else Some (date_text year month day).

(** ** Datetimes *)

Fixpoint fraction_loop (micros : Z) (bs : list byte) : option Z :=
  match bs with
  | [] => Some micros
  | b :: bs => d ← digit b; fraction_loop (micros * 10 + d) bs
  end.

Definition parse_datetime_micros (text : list byte) : option Z :=
  if (len text <? 19) || negb (byte_eqb (byte_at text 10) space_byte)
     || negb (byte_eqb (byte_at text 13) colon_byte) || negb (byte_eqb (byte_at text 16) colon_byte)
  then None
  else
    days ← parse_date_days (take 10 text);
    hour ← two_digits text 11;
    minute ← two_digits text 14;
    second ← two_digits text 17;
    if (23 <? hour) || (59 <? minute) || (59 <? second) then None
    else
      micros ← (if 19 <? len text then
                  if negb (byte_eqb (byte_at text 19) dot_byte) || (len text =? 20) || (26 <? len text)
                  then None
                  else m ← fraction_loop 0 (drop 20 text); Some (m * 10 ^ (6 - (len text - 20)))
                else Some 0);
      let seconds := days * 86400 + hour * 3600 + minute * 60 + second in
      scaled ← checked_i64 (seconds * 1000000);
      checked_i64 (scaled + micros).

Definition clock_text (hour minute second : Z) : list byte :=
  dec_padded 2 hour ++ [colon_byte] ++ dec_padded 2 minute ++ [colon_byte] ++ dec_padded 2 second.

Definition format_datetime_micros (micros fsp : Z) : option (list byte) :=
  if 6 <? fsp then None
  else
    let seconds := micros / 1000000 in
    let sub_micros := micros mod 1000000 in
    let days := seconds / 86400 in
    let day_seconds := seconds mod 86400 in
    let '(year, month, day) := civil_from_days days in
    if negb ((0 <=? year) && (year <=? 9999)) then None
    else
      let text := date_text year month day ++ [space_byte] ++
        clock_text (day_seconds / 3600) (day_seconds mod 3600 / 60) (day_seconds mod 60) in
      if 0 <? fsp then
        Some (text ++ [dot_byte] ++ dec_padded fsp (sub_micros / 10 ^ (6 - fsp)))
      else if negb (sub_micros =? 0) then None
      else Some text.

(** ** The zero date *)

Definition ZERO_DATE_DAYS : Z := -719529.
Definition ZERO_DATETIME_MICROS : Z := ZERO_DATE_DAYS * 86400000000.

Definition zero_date_text : list byte := date_text 0 0 0.
Definition zero_clock_text : list byte := zero_date_text ++ [space_byte] ++ clock_text 0 0 0.

(** [zero_text]. *)
Definition zero_text (fsp : option Z) : list byte :=
  match fsp with
  | None => zero_date_text
  | Some fsp =>
      zero_clock_text ++ (if 0 <? fsp then dot_byte :: replicate (Z.to_nat fsp) zero_byte else [])
  end.

Definition is_zero_datetime (text : list byte) : bool :=
  if bool_decide (take 19 text = zero_clock_text) then
    match drop 19 text with
    | [] => true
    | b :: fraction =>
        byte_eqb b dot_byte && (1 <=? len fraction) && (len fraction <=? 6)
        && forallb (fun d => byte_eqb d zero_byte) fraction
    end
  else false.

Definition parse_date_units (text : list byte) : option Z :=
  match parse_date_days text with
  | Some d => Some d
  | None => if bool_decide (text = zero_date_text) then Some ZERO_DATE_DAYS else None
  end.

Definition parse_datetime_units (text : list byte) : option Z :=
  match parse_datetime_micros text with
  | Some m => Some m
  | None => if is_zero_datetime text then Some ZERO_DATETIME_MICROS else None
  end.

Definition format_date_units (days : Z) : option (list byte) :=
  if days =? ZERO_DATE_DAYS then Some (zero_text None) else format_date_days days.

Definition format_datetime_units (micros fsp : Z) : option (list byte) :=
  if (micros =? ZERO_DATETIME_MICROS) && (fsp <=? 6) then Some (zero_text (Some fsp))
  else format_datetime_micros micros fsp.

(** ** Decimals *)

(** The sign of a decimal text and the bytes after it. *)
Definition decimal_sign (text : list byte) : option (bool * list byte) :=
  match text with
  | [] => None
  | b :: rest =>
      Some (if byte_eqb b minus_byte then (true, rest)
            else if byte_eqb b plus_byte then (false, rest) else (false, text))
  end.

Record decimal_state : Type := {
  ds_integer : Z;
  ds_fraction : Z;
  ds_fraction_digits : Z;
  ds_seen_dot : bool;
  ds_seen_digit : bool
}.

Definition checked_push (acc d : Z) : option Z := m ← checked_i128 (acc * 10); checked_i128 (m + d).

Definition decimal_byte (scale : Z) (s : decimal_state) (b : byte) : option decimal_state :=
  if is_digit b then
    let d := digit_of b in
    if ds_seen_dot s then
      if ds_fraction_digits s <? scale then
        f ← checked_push (ds_fraction s) d;
        Some {| ds_integer := ds_integer s; ds_fraction := f;
                ds_fraction_digits := ds_fraction_digits s + 1; ds_seen_dot := true; ds_seen_digit := true |}
      else if negb (d =? 0) then None
      else Some {| ds_integer := ds_integer s; ds_fraction := ds_fraction s;
                   ds_fraction_digits := ds_fraction_digits s; ds_seen_dot := true; ds_seen_digit := true |}
    else
      i ← checked_push (ds_integer s) d;
      Some {| ds_integer := i; ds_fraction := ds_fraction s;
              ds_fraction_digits := ds_fraction_digits s; ds_seen_dot := false; ds_seen_digit := true |}
  else if byte_eqb b dot_byte && negb (ds_seen_dot s) then
    Some {| ds_integer := ds_integer s; ds_fraction := ds_fraction s;
            ds_fraction_digits := ds_fraction_digits s; ds_seen_dot := true; ds_seen_digit := ds_seen_digit s |}
  else None.

Fixpoint decimal_loop (scale : Z) (s : decimal_state) (bs : list byte) : option decimal_state :=
  match bs with
  | [] => Some s
  | b :: bs => s ← decimal_byte scale s b; decimal_loop scale s bs
  end.

Fixpoint scale_up (n : nat) (m : Z) : option Z :=
  match n with O => Some m | S n => m ← checked_i128 (m * 10); scale_up n m end.

Definition decimal_start : decimal_state := {|
  ds_integer := 0; ds_fraction := 0; ds_fraction_digits := 0; ds_seen_dot := false; ds_seen_digit := false
|}.

Definition parse_decimal_scaled (text : list byte) (scale : Z) : option Z :=
  '((negative, rest) : bool * list byte) ← decimal_sign text;
  s ← decimal_loop scale decimal_start rest;
  if negb (ds_seen_digit s) then None
  else
    fraction ← scale_up (Z.to_nat (scale - ds_fraction_digits s)) (ds_fraction s);
    power ← checked_i128 (10 ^ scale);
    integer ← checked_i128 (ds_integer s * power);
    magnitude ← checked_i128 (integer + fraction);
    Some (if negative then - magnitude else magnitude).

Record rounded_state : Type := {
  rs_magnitude : Z;
  rs_fraction_digits : Z;
  rs_seen_dot : bool;
  rs_seen_digit : bool;
  rs_round_up : bool
}.

Definition rounded_byte (scale : Z) (s : rounded_state) (b : byte) : option rounded_state :=
  if is_digit b then
    let d := digit_of b in
    if rs_seen_dot s && (scale <=? rs_fraction_digits s) then
      let round_up := if rs_fraction_digits s =? scale then 5 <=? d else rs_round_up s in
      fraction_digits ← checked_add 8 (rs_fraction_digits s) 1;
      Some {| rs_magnitude := rs_magnitude s; rs_fraction_digits := fraction_digits;
              rs_seen_dot := rs_seen_dot s; rs_seen_digit := true; rs_round_up := round_up |}
    else
      m ← checked_push (rs_magnitude s) d;
      Some {| rs_magnitude := m;
              rs_fraction_digits := if rs_seen_dot s then rs_fraction_digits s + 1 else rs_fraction_digits s;
              rs_seen_dot := rs_seen_dot s; rs_seen_digit := true; rs_round_up := rs_round_up s |}
  else if byte_eqb b dot_byte && negb (rs_seen_dot s) then
    Some {| rs_magnitude := rs_magnitude s; rs_fraction_digits := rs_fraction_digits s;
            rs_seen_dot := true; rs_seen_digit := rs_seen_digit s; rs_round_up := rs_round_up s |}
  else None.

Fixpoint rounded_loop (scale : Z) (s : rounded_state) (bs : list byte) : option rounded_state :=
  match bs with
  | [] => Some s
  | b :: bs => s ← rounded_byte scale s b; rounded_loop scale s bs
  end.

Definition rounded_start : rounded_state := {|
  rs_magnitude := 0; rs_fraction_digits := 0; rs_seen_dot := false; rs_seen_digit := false; rs_round_up := false
|}.

Definition parse_decimal_rounded (text : list byte) (scale : Z) : option Z :=
  '((negative, rest) : bool * list byte) ← decimal_sign text;
  s ← rounded_loop scale rounded_start rest;
  if negb (rs_seen_digit s) then None
  else
    m ← scale_up (Z.to_nat (scale - rs_fraction_digits s)) (rs_magnitude s);
    m ← (if rs_round_up s then checked_i128 (m + 1) else Some m);
    Some (if negative then - m else m).

Definition div_decimal_round_half_up (numerator denominator : Z) : option Z :=
  if denominator =? 0 then None
  else
    quotient ← checked_i128 (Z.quot numerator denominator);
    let remainder := Z.rem numerator denominator in
    if remainder =? 0 then Some quotient
    else
      let doubled := 2 * Z.abs remainder in
      if negb ((doubled <? 2 ^ 128) && (Z.abs denominator <=? doubled)) then Some quotient
      else
        let step := if Bool.eqb (numerator <? 0) (denominator <? 0) then 1 else -1 in
        checked_i128 (quotient + step).

(** [to_string] of a signed integer. *)
Definition signed_text (z : Z) : list byte :=
  (if z <? 0 then [minus_byte] else []) ++ dec_text (Z.abs z).

Definition format_decimal_scaled (value scale : Z) : list byte :=
  if scale =? 0 then signed_text value
  else
    let magnitude := Z.abs value in
    let divisor := 10 ^ scale in
    (if value <? 0 then [minus_byte] else []) ++ dec_text (magnitude / divisor) ++ [dot_byte]
      ++ dec_padded scale (magnitude mod divisor).

(** [DecimalQuotient::canonical]. *)
Definition quotient_canonical (q : DecimalQuotient) : list byte :=
  if dq_count q =? 0 then dq_label q
  else
    match div_decimal_round_half_up (dq_units q) (dq_count q) with
    | None => dq_label q
    | Some units => format_decimal_scaled units (dq_scale q)
    end.

(** ** Times *)

Definition round_micros_to_fsp (micros fsp : Z) : Z :=
  let unit := 10 ^ (6 - Z.min fsp 6) in
  if unit =? 1 then micros
  else
    let half := unit / 2 in
    if 0 <=? micros then (micros + half) / unit * unit
    else - ((- micros + half) / unit * unit).

(** The microseconds a fraction-digit string denotes. *)
Definition fraction_micros (fraction : list byte) : option Z :=
  match fraction with
  | [] => Some 0
  | _ =>
      if negb (all_digits fraction) then None
      else Some (digits_value (take 6 fraction) * 10 ^ Z.max 0 (6 - len fraction))
  end.

Definition format_time_micros (micros fsp : Z) : list byte :=
  let max_seconds := 838 * 3600 + 59 * 60 + 59 in
  let magnitude := Z.abs micros in
  let '(seconds, sub_micros) :=
    if max_seconds * 1000000 <? magnitude then (max_seconds, 0)
    else (magnitude / 1000000, magnitude mod 1000000) in
  let text := (if micros <? 0 then [minus_byte] else []) ++
    clock_text (seconds / 3600) (seconds / 60 mod 60) (seconds mod 60) in
  let fsp := Z.min fsp 6 in
  if fsp =? 0 then text
  else text ++ [dot_byte] ++ dec_padded fsp (sub_micros / 10 ^ (6 - fsp)).

Definition is_separator (b : byte) : bool := byte_eqb b space_byte || byte_in 84 84 b.

(** [format!] of a signed field: the sign counts in the width. *)
Definition signed_padded (width z : Z) : list byte :=
  if z <? 0 then minus_byte :: dec_padded (width - 1) (Z.abs z) else dec_padded width z.

Definition in_range (lo hi z : Z) : bool := (lo <=? z) && (z <=? hi).

Definition parse_datetime_lenient_micros (text : list byte) : option Z :=
  let text := trim text in
  let '(date, time) :=
    match split_once is_separator text with
    | Some (date, time) => (date, trim time)
    | None => (text, [])
    end in
  match split_all (byte_eqb minus_byte) date with
  | [y; mo; d] =>
      year ← parse_i64 y;
      month ← parse_i64 mo;
      day ← parse_i64 d;
      days ← parse_date_days (signed_padded 4 year ++ [minus_byte] ++ signed_padded 2 month
                                ++ [minus_byte] ++ signed_padded 2 day);
      micros ← checked_i64 (days * (86400 * 1000000));
      match time with
      | [] => Some micros
      | _ =>
          let '(clock, fraction) :=
            match split_once (byte_eqb dot_byte) time with Some cf => cf | None => (time, []) end in
          match split_all (byte_eqb colon_byte) clock with
          | h :: mi :: rest =>
              hour ← parse_i64 h;
              minute ← parse_i64 mi;
              second ← match rest with [] => Some 0 | s :: _ => parse_i64 s end;
              if (1 <? len rest) || negb (in_range 0 23 hour) || negb (in_range 0 59 minute)
                 || negb (in_range 0 59 second) then None
              else
                with_clock ← checked_i64 (micros + (hour * 3600 + minute * 60 + second) * 1000000);
                f ← fraction_micros fraction;
                checked_i64 (with_clock + f)
          | _ => None
          end
      end
  | _ => None
  end.

Definition parse_time_micros (text : list byte) : option Z :=
  let text := trim text in
  match parse_datetime_lenient_micros text with
  | Some micros => Some (micros mod (86400 * 1000000))
  | None =>
      let '(negative, unsigned) :=
        match strip_byte minus_byte text with Some r => (true, r) | None => (false, text) end in
      let unsigned := match strip_byte plus_byte unsigned with Some r => r | None => unsigned end in
      let '(clock, fraction) :=
        match split_once (byte_eqb dot_byte) unsigned with Some cf => cf | None => (unsigned, []) end in
      if negb (all_digits fraction) then None
      else
        '((days, clock) : Z * list byte) ← match split_once (byte_eqb space_byte) (trim clock) with
                          | Some (days, clock) => d ← parse_i64 days; Some (d, trim clock)
                          | None => Some (0, trim clock)
                          end;
        '((hours, minutes, seconds) : Z * Z * Z) ←
          match split_all (byte_eqb colon_byte) clock with
          | [h; m; s] => h ← parse_i64 h; m ← parse_i64 m; s ← parse_i64 s; Some (h, m, s)
          | [h; m] => h ← parse_i64 h; m ← parse_i64 m; Some (h, m, 0)
          | [compact] =>
              if negb (bool_decide (compact = [])) && all_digits compact then
                v ← parse_i64 compact; Some (v / 10000, v / 100 mod 100, v mod 100)
              else None
          | _ => None
          end;
        if negb (in_range 0 59 minutes) || negb (in_range 0 59 seconds) then None
        else
          f ← fraction_micros fraction;
          day_seconds ← checked_i64 (days * 86400);
          hour_seconds ← checked_i64 (hours * 3600);
          s ← checked_i64 (day_seconds + hour_seconds);
          s ← checked_i64 (s + (minutes * 60 + seconds));
          t ← checked_i64 (s * 1000000);
          total ← checked_i64 (t + f);
          Some (if negative then - total else total)
  end.

(** ** Durations *)

Definition is_digit_at (bs : list byte) (at_ : nat) : bool :=
  match bs !! at_ with Some b => is_digit b | None => false end.

Definition is_byte_at (c : byte) (bs : list byte) (at_ : nat) : bool :=
  match bs !! at_ with Some b => byte_eqb b c | None => false end.

(** [u8::is_ascii_whitespace]. *)
Definition is_ascii_white (b : byte) : bool :=
  byte_in 32 32 b || byte_in 9 10 b || byte_in 12 13 b.

(** The digits at the front: their number, and how many there are. *)
Fixpoint number_loop (value : Z) (bs : list byte) : option (Z * nat) :=
  match bs with
  | b :: rest =>
      if is_digit b then
        v ← (if in_unsigned 64 (value * 10) then Some (value * 10) else None);
        v ← checked_add 64 v (digit_of b);
        '((v, n) : Z * nat) ← number_loop v rest;
        Some (v, S n)
      else Some (value, O)
  | [] => Some (value, O)
  end.

(** The closure [number]: the value and the position after it. *)
Definition number (bs : list byte) (position : nat) : option (Z * nat) :=
  '((v, n) : Z * nat) ← number_loop 0 (drop position bs);
  if is_u32 v then Some (v, (position + n)%nat) else None.

Fixpoint count_while (p : byte -> bool) (bs : list byte) : nat :=
  match bs with b :: rest => if p b then S (count_while p rest) else O | [] => O end.

Record DurationText : Type := {
  du_hours : Z;
  du_minutes : Z;
  du_seconds : Z;
  du_fraction : list byte;
  du_read : nat
}.

(** [fields[next] = value]. *)
Definition set_field (fields : list Z) (next : nat) (value : Z) : list Z := <[next := value]> fields.

(** The loop over the remaining fields; each turn moves [next] up, so four are enough. *)
Fixpoint duration_fields (fuel : nat) (bs : list byte) (fields : list Z) (next position : nat)
    : option (list Z * nat) :=
  match fuel with
  | O => Some (fields, position)
  | S fuel =>
      if (next <? 4)%nat then
        '((v, position) : Z * nat) ← number bs position;
        let fields := set_field fields next v in
        let next := S next in
        if (next =? 4)%nat || (length bs - position <? 2)%nat
           || negb (is_byte_at colon_byte bs position) || negb (is_digit_at bs (S position))
        then Some (fields, position)
        else duration_fields fuel bs fields next (S position)
      else Some (fields, position)
  end.

Definition field (fields : list Z) (i : nat) : Z := nth i fields 0.

(** The fraction after [position], and the position after it. *)
Definition duration_fraction (bs : list byte) (position : nat) : list byte * nat :=
  if is_byte_at dot_byte bs position && is_digit_at bs (S position) then
    let n := count_while is_digit (drop (S position) bs) in
    (take n (drop (S position) bs), (S position + n)%nat)
  else if (length bs - position =? 1)%nat && is_byte_at dot_byte bs position then ([], S position)
  else ([], position).

Definition exponent_at (bs : list byte) (position : nat) : bool :=
  match bs !! position with
  | Some b =>
      (byte_in 101 101 b || byte_in 69 69 b)
      && (is_digit_at bs (S position)
          || ((is_byte_at plus_byte bs (S position) || is_byte_at minus_byte bs (S position))
              && is_digit_at bs (S (S position))))
  | None => false
  end.

(** The fields the first number fills, which field is next, and the position. *)
Definition duration_first (bs : list byte) (value : Z) (end_of_number position : nat)
    : list Z * nat * nat :=
  if (1 <? length bs - position)%nat && negb (position =? end_of_number)%nat && is_digit_at bs position
  then ([value; 0; 0; 0], 1%nat, position)
  else if (1 <? length bs - position)%nat && is_byte_at colon_byte bs position
          && is_digit_at bs (S position)
  then ([0; value; 0; 0], 2%nat, S position)
  else ([0; value / 10000; value / 100 mod 100; value mod 100], 4%nat, end_of_number).

Definition read_duration_text (bs : list byte) : option DurationText :=
  '((value, end_of_number) : Z * nat) ← number bs 0;
  let position := (end_of_number + count_while is_ascii_white (drop end_of_number bs))%nat in
  let '(fields, next, position) := duration_first bs value end_of_number position in
  '((fields, position) : list Z * nat) ← duration_fields 4 bs fields next position;
  let '(fraction, position) := duration_fraction bs position in
  if exponent_at bs position || (position =? 0)%nat || (59 <? field fields 2) || (59 <? field fields 3)
  then None
  else Some {| du_hours := field fields 0 * 24 + field fields 1; du_minutes := field fields 2;
               du_seconds := field fields 3; du_fraction := fraction; du_read := position |}.

Definition DAY_MICROS : Z := 86400 * 1000000.
Definition MAX_TIME_MICROS : Z := (838 * 3600 + 59 * 60 + 59) * 1000000.

(** The text [exact_time_text] reads as a date and time, if it is one. *)
Definition calendar_text (trimmed : list byte) : option (list byte) :=
  let whole := match split_once (byte_eqb dot_byte) trimmed with Some (w, _) => w | None => trimmed end in
  if (length whole =? 14)%nat && all_digits whole then
    Some (take 4 whole ++ [minus_byte] ++ take 2 (drop 4 whole) ++ [minus_byte]
          ++ take 2 (drop 6 whole) ++ [space_byte] ++ take 2 (drop 8 whole) ++ [colon_byte]
          ++ take 2 (drop 10 whole) ++ [colon_byte] ++ take 2 (drop 12 whole) ++ drop 14 trimmed)
  else
    match split_once is_ascii_white trimmed with
    | Some (date, _) =>
        if (length (List.filter (byte_eqb minus_byte) date) =? 2)%nat then Some trimmed else None
    | None => None
    end.

Definition duration_time_text (negative : bool) (body : list byte) : option (list byte) :=
  duration ← read_duration_text body;
  if negb (bool_decide (trim (drop (du_read duration) body) = [])) then None
  else
    m ← fraction_micros (take 6 (du_fraction duration));
    let micros :=
      match du_fraction duration !! 6%nat with
      | Some d => if 53 <=? byte.unsigned d then m + 1 else m
      | None => m
      end in
    h ← (if in_unsigned 64 (du_hours duration * 3600) then Some (du_hours duration * 3600) else None);
    s ← checked_add 64 h (du_minutes duration * 60 + du_seconds duration);
    seconds ← checked_i64 s;
    scaled ← checked_i64 (seconds * 1000000);
    total ← checked_i64 (scaled + micros);
    if total <=? MAX_TIME_MICROS then
      Some (format_time_micros (if negative then - total else total) 6)
    else None.

Definition exact_time_text (text : list byte) : option (list byte) :=
  let body := drop (count_while is_ascii_white text) text in
  let '(negative, body) :=
    match strip_byte minus_byte body with Some r => (true, r) | None => (false, body) end in
  let trimmed := trim_end body in
  match (if 12 <=? len trimmed then calendar_text trimmed else None) with
  | Some calendar =>
      if bool_decide (take 19 calendar = zero_clock_text)
         && forallb (fun b => byte_eqb b dot_byte || byte_eqb b zero_byte) (drop 19 calendar)
      then Some (format_time_micros 0 6)
      else
        micros ← parse_datetime_lenient_micros calendar;
        Some (format_time_micros (micros mod DAY_MICROS) 6)
  | None => duration_time_text negative body
  end.

(** ** The calendar

    Years start in March and repeat every 400.  The year of a day is monotone in the day,
    so it is settled by the first and last day of each of the 400 years; the month and day
    of the month by the 366 days of a year. *)

Definition valid_date (y m d : Z) : bool :=
  (1 <=? m) && (m <=? 12) && (1 <=? d) && (d <=? month_days y m).

Fixpoint all_from (n : nat) (z : Z) (f : Z -> bool) : bool :=
  match n with O => true | S n => f z && all_from n (z + 1) f end.

Lemma all_from_spec n z f :
  all_from n z f = true -> forall x, z <= x < z + Z.of_nat n -> f x = true.
Proof.
  revert z; induction n as [|n IH]; intros z; cbn [all_from]; [lia|].
  intros [Hz Hr]%andb_prop x Hx. destruct (Z.eq_dec x z) as [->|]; [easy|]. apply (IH _ Hr). lia.
Qed.

Definition year_of_day (doe : Z) : Z := (doe - doe / 1460 + doe / 36524 - doe / 146096) / 365.
Definition year_start (y : Z) : Z := 365 * y + y / 4 - y / 100.
Definition year_last (y : Z) : Z := year_start y + (if is_leap (y + 1) then 365 else 364).

Definition year_ok (y : Z) : bool :=
  (year_of_day (year_start y) =? y) && (year_of_day (year_last y) =? y)
  && (if y =? 399 then year_last y =? 146096 else year_last y + 1 =? year_start (y + 1)).

Lemma years_ok : all_from 400 0 year_ok = true.
Proof. vm_compute. reflexivity. Qed.

Lemma year_of_day_mono a b : 0 <= a <= b -> b < 146097 -> year_of_day a <= year_of_day b.
Proof.
  intros Ha Hb. unfold year_of_day. apply Z.div_le_mono; [lia|]. Z.div_mod_to_equations. lia.
Qed.

(** A day between the first and the last day of a year has that year. *)
Lemma year_of_day_spec y doe :
  0 <= y < 400 -> year_start y <= doe <= year_last y -> year_of_day doe = y /\ 0 <= doe < 146097.
Proof.
  intros Hy Hd. pose proof (all_from_spec _ _ _ years_ok y ltac:(lia)) as H. unfold year_ok in H.
  apply andb_prop in H as [[H1%Z.eqb_eq H2%Z.eqb_eq]%andb_prop H3].
  assert (0 <= year_start y) by (unfold year_start; Z.div_mod_to_equations; lia).
  assert (year_last y < 146097).
  { destruct (Z.eqb_spec y 399); [apply Z.eqb_eq in H3; lia|]. apply Z.eqb_eq in H3.
    assert (year_start (y + 1) <= 146000) by (unfold year_start; Z.div_mod_to_equations; lia). lia. }
  pose proof (year_of_day_mono (year_start y) doe ltac:(lia) ltac:(lia)).
  pose proof (year_of_day_mono doe (year_last y) ltac:(lia) ltac:(lia)). lia.
Qed.

Lemma year_exists doe : 0 <= doe < 146097 -> exists y, 0 <= y < 400 /\ year_start y <= doe <= year_last y.
Proof.
  intros Hd. assert (G : forall n, (n <= 400)%nat -> doe < year_start (Z.of_nat n) ->
    exists y, 0 <= y < 400 /\ year_start y <= doe <= year_last y).
  { induction n as [|n IH]; intros Hn Hlt; [change (year_start (Z.of_nat 0)) with 0 in Hlt; lia|].
    destruct (Z.lt_ge_cases doe (year_start (Z.of_nat n))); [apply IH; lia|]. exists (Z.of_nat n). split; [lia|]. split; [easy|].
    pose proof (all_from_spec _ _ _ years_ok (Z.of_nat n) ltac:(lia)) as H3. unfold year_ok in H3.
    apply andb_prop in H3 as [_ H3]. replace (Z.of_nat (S n)) with (Z.of_nat n + 1) in Hlt by lia.
    destruct (Z.eqb_spec (Z.of_nat n) 399); apply Z.eqb_eq in H3; lia. }
  destruct (Z.eq_dec doe 146096) as [->|]; [exists 399; vm_compute; intuition congruence|].
  apply (G 400%nat); [lia|]. change (year_start (Z.of_nat 400)) with 146096. lia.
Qed.

Definition month_day (doy : Z) : Z * Z :=
  let month_shifted := (5 * doy + 2) / 153 in
  (if month_shifted <? 10 then month_shifted + 3 else month_shifted - 9, doy - (153 * month_shifted + 2) / 5 + 1).

Definition day_of_year (m d : Z) : Z := (153 * (if 2 <? m then m - 3 else m + 9) + 2) / 5 + d - 1.

(** Year 1 is common and year 4 is a leap year: the last day of a year is 29 February. *)
Definition day_ok (doy : Z) : bool :=
  let '(m, d) := month_day doy in
  valid_date (if doy =? 365 then 4 else 1) m d && (day_of_year m d =? doy) && ((negb (doy =? 365)) || (m =? 2)).

Definition date_ok (m d : Z) : bool :=
  negb (d <=? month_days 4 m)
  || ((0 <=? day_of_year m d) && (day_of_year m d <=? (if d <=? month_days 1 m then 364 else 365))
      && (let '(m', d') := month_day (day_of_year m d) in (m' =? m) && (d' =? d))).

Lemma days_ok : all_from 366 0 day_ok = true.
Proof. vm_compute. reflexivity. Qed.

Lemma dates_ok : all_from 12 1 (fun m => all_from 31 1 (fun d => date_ok m d)) = true.
Proof. vm_compute. reflexivity. Qed.

Lemma month_days_range y m : 28 <= month_days y m <= 31.
Proof. unfold month_days. repeat case_match; lia. Qed.

Lemma month_days_leap y m : month_days y m = if is_leap y then month_days 4 m else month_days 1 m.
Proof. unfold month_days. change (is_leap 4) with true. change (is_leap 1) with false. now destruct (is_leap y), (m =? 2). Qed.

Lemma month_days_common m : month_days 1 m <= month_days 4 m /\ (month_days 1 m < month_days 4 m -> m = 2).
Proof. unfold month_days. change (is_leap 4) with true. change (is_leap 1) with false. destruct (Z.eqb_spec m 2); lia. Qed.

Lemma valid_date_spec y m d :
  valid_date y m d = true <-> 1 <= m <= 12 /\ 1 <= d <= month_days y m.
Proof. unfold valid_date. rewrite !andb_true_iff, !Z.leb_le. lia. Qed.

Lemma is_leap_mod y : is_leap (y mod 400 + 1) = is_leap (y + 1).
Proof.
  unfold is_leap. pose proof (Z.div_mod y 400 ltac:(lia)) as E. set (k := y / 400) in *. set (r := y mod 400) in *.
  replace (y + 1) with (r + 1 + k * 400) by lia. rewrite Z.mod_add by lia.
  replace (r + 1 + k * 400) with (r + 1 + (k * 4) * 100) at 2 by lia. rewrite Z.mod_add by lia.
  replace (r + 1 + k * 400) with (r + 1 + (k * 100) * 4) by lia. now rewrite Z.mod_add by lia.
Qed.

(** The civil date of the day [doy] of the March-based year [400 k + r]. *)
Lemma civil_from_parts k r doy :
  0 <= r < 400 -> 0 <= doy -> year_start r + doy <= year_last r ->
  civil_from_days (k * 146097 + year_start r + doy - 719468) =
    let '(m, d) := month_day doy in (r + k * 400 + (if m <=? 2 then 1 else 0), m, d).
Proof.
  intros Hr Hd Hl. destruct (year_of_day_spec r (year_start r + doy) Hr ltac:(lia)) as [Ey Hb].
  unfold civil_from_days. replace (k * 146097 + year_start r + doy - 719468 + 719468)
    with (year_start r + doy + k * 146097) by lia.
  assert (E1 : (year_start r + doy + k * 146097) / 146097 = k) by (rewrite Z.div_add, Z.div_small by lia; lia).
  assert (E2 : (year_start r + doy + k * 146097) mod 146097 = year_start r + doy) by (rewrite Z.mod_add, Z.mod_small by lia; lia).
  rewrite E1, E2. fold (year_of_day (year_start r + doy)). rewrite Ey. fold (year_start r).
  replace (year_start r + doy - year_start r) with doy by lia. reflexivity.
Qed.

Lemma days_from_parts y m d :
  days_from_civil y m d =
    let a := if m <=? 2 then y - 1 else y in
    a / 400 * 146097 + year_start (a mod 400) + day_of_year m d - 719468.
Proof.
  unfold days_from_civil, year_start, day_of_year. cbv zeta. set (a := if m <=? 2 then y - 1 else y).
  replace (a - a / 400 * 400) with (a mod 400) by (pose proof (Z.div_mod a 400); lia). lia.
Qed.

Lemma civil_days days :
  let '(y, m, d) := civil_from_days days in
  valid_date y m d = true /\ days_from_civil y m d = days.
Proof.
  pose proof (Z.div_mod (days + 719468) 146097 ltac:(lia)) as Hdm. pose proof (Z.mod_pos_bound (days + 719468) 146097 ltac:(lia)) as Hb.
  set (k := (days + 719468) / 146097) in *. destruct (year_exists _ Hb) as (r & Hr & Hd).
  set (doy := (days + 719468) mod 146097 - year_start r) in *.
  assert (E : days = k * 146097 + year_start r + doy - 719468) by lia. assert (Hdoy : 0 <= doy <= 365).
  { unfold year_last in Hd. destruct (is_leap (r + 1)); lia. }
  rewrite E, civil_from_parts by lia. pose proof (all_from_spec _ _ _ days_ok doy ltac:(lia)) as Hk. unfold day_ok in Hk.
  destruct (month_day doy) as [m d]. apply andb_prop in Hk as [[Hv%valid_date_spec Ho%Z.eqb_eq]%andb_prop Hf].
  rewrite days_from_parts, Ho. cbv zeta.
  replace (if m <=? 2 then r + k * 400 + (if m <=? 2 then 1 else 0) - 1 else r + k * 400 + (if m <=? 2 then 1 else 0))
    with (r + k * 400) by (destruct (m <=? 2); lia).
  rewrite Z.div_add, Z.mod_add, (Z.div_small r), (Z.mod_small r) by lia. split; [|lia]. apply valid_date_spec. split; [easy|].
  rewrite month_days_leap. pose proof (month_days_common m). destruct (Z.eqb_spec doy 365) as [E5|].
  - cbn [negb orb] in Hf. apply Z.eqb_eq in Hf as ->. cbn [Z.leb Z.compare Pos.compare Pos.compare_cont].
    assert (is_leap (r + k * 400 + 1) = true) as ->.
    { rewrite <- is_leap_mod, Z.mod_add, Z.mod_small by lia. destruct (is_leap (r + 1)) eqn:El; [easy|].
      unfold year_last in Hd. rewrite El in Hd. lia. }
    lia.
  - destruct (is_leap _); lia.
Qed.

Lemma days_civil y m d :
  valid_date y m d = true -> civil_from_days (days_from_civil y m d) = (y, m, d).
Proof.
  intros [Hm Hd]%valid_date_spec. rewrite days_from_parts. cbv zeta. set (a := if m <=? 2 then y - 1 else y).
  pose proof (month_days_range y m) as R. rewrite month_days_leap in Hd. pose proof (month_days_common m) as [C1 C2].
  pose proof (all_from_spec _ _ _ dates_ok m ltac:(lia)) as G2. cbv beta in G2.
  pose proof (all_from_spec _ _ _ G2 d ltac:(rewrite month_days_leap in R; lia)) as G3. unfold date_ok in G3.
  destruct (Z.leb_spec d (month_days 4 m)); [|destruct (is_leap y); lia]. cbn [negb orb] in G3.
  apply andb_prop in G3 as [[G3%Z.leb_le G4%Z.leb_le]%andb_prop G5].
  rewrite civil_from_parts; [|apply Z.mod_pos_bound; lia|easy|].
  - destruct (month_day (day_of_year m d)) as [m' d']. apply andb_prop in G5 as [->%Z.eqb_eq ->%Z.eqb_eq].
    f_equal. f_equal. pose proof (Z.div_mod a 400). subst a. destruct (m <=? 2); lia.
  - unfold year_last. rewrite is_leap_mod. apply Z.add_le_mono_l. revert G4.
    destruct (Z.leb_spec d (month_days 1 m)); intros; [destruct (is_leap (a + 1)); lia|].
    destruct (is_leap y) eqn:El; [|lia]. assert (m = 2) as -> by lia. subst a.
    change (2 <=? 2) with true. cbv iota. replace (y - 1 + 1) with y by lia. rewrite El. lia.
Qed.

(** ** Date text *)

Ltac digit_bytes :=
  repeat match goal with
  | H : all_digits (_ :: _) = true |- _ =>
      cbn [all_digits forallb] in H
  | H : is_digit _ && _ = true |- _ =>
      let H1 := fresh "Hdig" in apply andb_prop in H as [H1 H]
  end.

Lemma digit_is b : is_digit b = true -> digit b = Some (digit_of b).
Proof. unfold digit. now intros ->. Qed.

Lemma digit_inv b v : digit b = Some v -> is_digit b = true /\ v = digit_of b.
Proof. unfold digit. destruct (is_digit b); intros [= <-]; easy. Qed.

Lemma parse_date_text y m d rest :
  0 <= y <= 9999 -> valid_date y m d = true ->
  parse_date_days (take 10 (date_text y m d ++ rest)) = Some (days_from_civil y m d).
Proof.
  intros Hy [Hm Hd]%valid_date_spec. pose proof (month_days_range y m).
  destruct (dec_padded_spec 4 y ltac:(lia) ltac:(lia)) as (Y1 & Y2 & Y3).
  destruct (dec_padded_spec 2 m ltac:(lia) ltac:(lia)) as (M1 & M2 & M3).
  destruct (dec_padded_spec 2 d ltac:(lia) ltac:(lia)) as (D1 & D2 & D3).
  unfold date_text. destruct (digits_four _ Y3) as (a & b & c & e & EY).
  destruct (digits_two _ M3) as (f & g & EM). destruct (digits_two _ D3) as (h & i & ED).
  rewrite EY, EM, ED in *. digit_bytes. cbn [app take]. unfold parse_date_days, two_digits, byte_at.
  cbn [nth]. rewrite !byte_eqb_refl, !digit_is by easy.
  unfold mbind, option_bind. change (negb (_ =? 10)) with false. cbn [negb orb].
  unfold digits_value in Y2, M2, D2. cbn [foldl] in Y2, M2, D2.
  replace (digit_of a * 1000 + digit_of b * 100 + digit_of c * 10 + digit_of e) with y by lia.
  replace (digit_of f * 10 + digit_of g) with m by lia. replace (digit_of h * 10 + digit_of i) with d by lia.
  zcases; try lia. easy.
Qed.

Ltac bind_inv H :=
  match type of H with
  | mbind _ ?e = Some _ =>
      let E := fresh "E" in destruct e eqn:E; cbn [mbind option_bind] in H; [|discriminate H]
  end.

Lemma two_digits_inv bs i v :
  two_digits bs i = Some v ->
  is_digit (byte_at bs i) = true /\ is_digit (byte_at bs (S i)) = true /\
  v = digit_of (byte_at bs i) * 10 + digit_of (byte_at bs (S i)).
Proof.
  unfold two_digits. intros H. bind_inv H. bind_inv H. apply digit_inv in E as [? ->], E0 as [? ->].
  injection H as <-. easy.
Qed.

Lemma two_digits_text a b :
  is_digit a = true -> is_digit b = true ->
  dec_padded 2 (digit_of a * 10 + digit_of b) = [a; b] /\ 0 <= digit_of a * 10 + digit_of b <= 99.
Proof.
  intros Ha Hb. pose proof (proj1 (is_digit_spec a) Ha). pose proof (proj1 (is_digit_spec b) Hb).
  split; [|lia]. assert (G : all_digits [a; b] = true) by (cbn [all_digits forallb]; now rewrite Ha, Hb).
  replace (digit_of a * 10 + digit_of b) with (digits_value [a; b]) by (unfold digits_value; cbn [foldl]; lia).
  now apply (dec_padded_digits [a; b]).
Qed.

Lemma parse_date_inv text days :
  parse_date_days text = Some days ->
  exists y m d, 0 <= y <= 9999 /\ valid_date y m d = true /\ days = days_from_civil y m d /\
    text = date_text y m d.
Proof.
  unfold parse_date_days. destruct (negb (len text =? 10)) eqn:El; [easy|]. cbn [orb].
  apply negb_false_iff, Z.eqb_eq in El.
  destruct text as [|a [|b [|c [|e [|s1 [|f [|g [|s2 [|h [|i [|x text]]]]]]]]]]]; try len_lia.
  unfold byte_at at 1 2. cbn [nth].
  destruct (byte_eqb s1 minus_byte) eqn:G1; [apply byte_eqb_spec in G1 as ->|easy].
  destruct (byte_eqb s2 minus_byte) eqn:G2; [apply byte_eqb_spec in G2 as ->|easy]. cbn [negb orb].
  intros H. do 6 bind_inv H.
  apply digit_inv in E as [? ->], E0 as [? ->], E1 as [? ->], E2 as [? ->].
  apply two_digits_inv in E3 as (? & ? & ->), E4 as (? & ? & ->). unfold byte_at in *. cbn [nth] in *.
  exists (digits_value [a; b; c; e]), (digit_of f * 10 + digit_of g), (digit_of h * 10 + digit_of i).
  assert (Ha : all_digits [a; b; c; e] = true) 
    by (cbn [all_digits forallb]; repeat match goal with G : is_digit _ = true |- _ => rewrite G end; easy).
  pose proof (digits_value_range _ Ha). change (10 ^ len [a; b; c; e]) with 10000 in *.
  replace (digit_of a * 1000 + digit_of b * 100 + digit_of c * 10 + digit_of e) with (digits_value [a; b; c; e]) in H
    by (unfold digits_value; cbn [foldl]; lia).
  destruct (two_digits_text f g) as [T1 ?]; [easy..|]. destruct (two_digits_text h i) as [T2 ?]; [easy..|].
  revert H. zcases; intros [= <-]; try lia. split; [lia|]. rewrite valid_date_spec. split; [lia|]. split; [easy|].
  unfold date_text. rewrite T1, T2. 
  change 4 with (len [a; b; c; e]). now rewrite (dec_padded_digits [a; b; c; e]).
Qed.

Lemma len_date_text y m d : 0 <= y <= 9999 -> valid_date y m d = true -> len (date_text y m d) = 10.
Proof.
  intros Hy [Hm Hd]%valid_date_spec. pose proof (month_days_range y m). unfold date_text.
  rewrite !len_app. destruct (dec_padded_spec 4 y) as (_ & _ & ->); [lia..|].
  destruct (dec_padded_spec 2 m) as (_ & _ & ->); [lia..|].
  destruct (dec_padded_spec 2 d) as (_ & _ & ->); [lia..|]. easy.
Qed.

Lemma date_text_days text days :
  parse_date_days text = Some days <-> format_date_days days = Some text.
Proof.
  unfold format_date_days. pose proof (civil_days days) as Hc. split.
  - intros (y & m & d & Hy & Hv & -> & ->)%parse_date_inv. rewrite days_civil by easy.
    zcases; try lia. easy.
  - destruct (civil_from_days days) as [[y m] d]. destruct Hc as [Hv <-].
    zcases; cbn [andb negb]; intros [= <-]; try lia.
    rewrite <- (parse_date_text y m d []) by easy. f_equal. rewrite app_nil_r, take_ge; [easy|].
    pose proof (len_date_text y m d ltac:(lia) Hv). unfold len in *. lia.
Qed.

(** The years a canonical date can carry. *)
Lemma format_date_range days text :
  format_date_days days = Some text -> -719528 <= days <= 2932896.
Proof.
  intros (y & m & d & Hy & [Hm Hd]%valid_date_spec & -> & _)%date_text_days%parse_date_inv.
  pose proof (month_days_range y m). unfold days_from_civil. zcases; try lia; Z.div_mod_to_equations; lia.
Qed.

(** Canonical date text and day counts are inverse: the parser accepts a text exactly
    when the formatter prints it for that day count.  With the zero date the packed form
    is inverse as well, and the zero date comes before every other. *)
Theorem date_text_roundtrip (text : list byte) (days : Z) :
  (parse_date_days text = Some days <-> format_date_days days = Some text) /\
  (parse_date_units text = Some days <-> format_date_units days = Some text) /\
  (format_date_days days = Some text -> ZERO_DATE_DAYS < days).
Proof.
  split; [apply date_text_days|].
  assert (Hz : format_date_days days = Some text -> ZERO_DATE_DAYS < days).
  { intros H%format_date_range. unfold ZERO_DATE_DAYS. lia. }
  split; [|easy]. unfold parse_date_units, format_date_units.
  assert (Hp : parse_date_days zero_date_text = None) by reflexivity.
  destruct (parse_date_days text) as [v|] eqn:E.
  - assert (v <> ZERO_DATE_DAYS).
    { apply date_text_days, format_date_range in E. unfold ZERO_DATE_DAYS. lia. }
    split; [intros [= <-]; destruct (Z.eqb_spec v ZERO_DATE_DAYS); [easy|now apply date_text_days]|].
    destruct (Z.eqb_spec days ZERO_DATE_DAYS); [intros [= <-]; congruence|].
    rewrite <- date_text_days, E. easy.
  - case_bool_decide as Ht; [subst text|].
    + destruct (Z.eqb_spec days ZERO_DATE_DAYS) as [->|Hne]; [easy|].
      split; [now intros [= <-]|]. rewrite <- date_text_days. congruence.
    + split; [easy|]. destruct (Z.eqb_spec days ZERO_DATE_DAYS); [intros [= <-]; easy|].
      rewrite <- date_text_days. congruence.
Qed.

(** ** Datetime text *)

(** The fraction part of a canonical datetime and its microseconds. *)
Definition fraction_tail (ds : list byte) : list byte := match ds with [] => [] | _ => dot_byte :: ds end.
Definition tail_micros (ds : list byte) : Z := digits_value ds * 10 ^ (6 - len ds).

Definition clock_seconds (h mi s : Z) : Z := h * 3600 + mi * 60 + s.
Definition clock_ok (h mi s : Z) : Prop := 0 <= h <= 23 /\ 0 <= mi <= 59 /\ 0 <= s <= 59.

Definition datetime_value (days h mi s : Z) (ds : list byte) : Z :=
  (days * 86400 + clock_seconds h mi s) * 1000000 + tail_micros ds.

Definition datetime_text (y m d h mi s : Z) (ds : list byte) : list byte :=
  date_text y m d ++ space_byte :: clock_text h mi s ++ fraction_tail ds.

Lemma fraction_loop_digits ds acc :
  all_digits ds = true -> fraction_loop acc ds = Some (acc * 10 ^ len ds + digits_value ds).
Proof.
  revert acc; induction ds as [|b ds IH]; intros acc.
  { intros _. cbn [fraction_loop]. f_equal. change (len []) with 0. change (digits_value []) with 0. lia. }
  cbn [all_digits forallb fraction_loop]. intros [Hb Hd]%andb_prop. rewrite digit_is by easy.
  cbn [mbind option_bind]. rewrite IH by easy. f_equal. rewrite digits_value_cons, len_cons, Z.pow_add_r by len_lia. lia.
Qed.

Lemma fraction_loop_inv ds acc v : fraction_loop acc ds = Some v -> all_digits ds = true.
Proof.
  revert acc; induction ds as [|b ds IH]; intros acc; cbn [fraction_loop all_digits forallb]; [easy|].
  intros H. bind_inv H. apply digit_inv in E as [Hb _]. rewrite Hb. now apply IH in H.
Qed.

Lemma tail_micros_range ds : all_digits ds = true -> len ds <= 6 -> 0 <= tail_micros ds < 1000000.
Proof.
  intros Hd Hl. pose proof (digits_value_range ds Hd). pose proof (len_nonneg ds). unfold tail_micros.
  assert (10 ^ len ds * 10 ^ (6 - len ds) = 1000000) by (rewrite <- Z.pow_add_r by lia; now replace (len ds + (6 - len ds)) with 6 by lia).
  assert (0 < 10 ^ (6 - len ds)) by (apply Z.pow_pos_nonneg; lia). nia.
Qed.

Lemma days_in_range y m d :
  0 <= y <= 9999 -> valid_date y m d = true -> -719528 <= days_from_civil y m d <= 2932896.
Proof.
  intros Hy [Hm Hd]%valid_date_spec. pose proof (month_days_range y m).
  unfold days_from_civil. zcases; try lia; Z.div_mod_to_equations; lia.
Qed.

Lemma datetime_value_i64 days h mi s ds :
  -719528 <= days <= 2932896 -> clock_ok h mi s -> all_digits ds = true -> len ds <= 6 ->
  checked_i64 ((days * 86400 + clock_seconds h mi s) * 1000000) =
    Some ((days * 86400 + clock_seconds h mi s) * 1000000) /\
  checked_i64 (datetime_value days h mi s ds) = Some (datetime_value days h mi s ds).
Proof.
  intros Hd (Hh & Hm & Hs) Hf Hl. pose proof (tail_micros_range ds Hf Hl). unfold datetime_value, clock_seconds, checked_i64.
  split; (destruct (is_i64 _) eqn:E; [easy|exfalso]); unfold is_i64, in_signed in E;
    apply andb_false_iff in E; rewrite Z.leb_gt, Z.ltb_ge in E; lia.
Qed.

Lemma byte_at_app (pre : list byte) rest i j : i = (length pre + j)%nat -> byte_at (pre ++ rest) i = byte_at rest j.
Proof. intros ->. unfold byte_at. rewrite app_nth2 by lia. f_equal. lia. Qed.

(** The shape the parser accepts, from its byte positions. *)
Lemma parse_datetime_shape date h1 h2 m1 m2 s1 s2 tail :
  length date = 10%nat ->
  parse_datetime_micros (date ++ space_byte :: h1 :: h2 :: colon_byte :: m1 :: m2 :: colon_byte :: s1 :: s2 :: tail) =
    (days ← parse_date_days date;
     hour ← two_digits [h1; h2] 0;
     minute ← two_digits [m1; m2] 0;
     second ← two_digits [s1; s2] 0;
     if (23 <? hour) || (59 <? minute) || (59 <? second) then None
     else
       micros ← match tail with
                | [] => Some 0
                | b :: ds =>
                    if negb (byte_eqb b dot_byte) || (len ds =? 0) || (6 <? len ds) then None
                    else m ← fraction_loop 0 ds; Some (m * 10 ^ (6 - len ds))
                end;
       scaled ← checked_i64 ((days * 86400 + hour * 3600 + minute * 60 + second) * 1000000);
       checked_i64 (scaled + micros)).
Proof.
  intros Hl. unfold parse_datetime_micros.
  rewrite !(byte_at_app date _ 10 0), !(byte_at_app date _ 13 3), !(byte_at_app date _ 16 6), !(byte_at_app date _ 19 9) by lia.
  assert (Et : forall i j, i = (10 + j)%nat -> forall r, two_digits (date ++ r) i = two_digits r j).
  { intros i j -> r. unfold two_digits. now rewrite (byte_at_app date r (10 + j) j), (byte_at_app date r (S (10 + j)) (S j)) by lia. }
  rewrite (Et 11%nat 1%nat), (Et 14%nat 4%nat), (Et 17%nat 7%nat) by lia.
  rewrite take_app_le, take_ge by lia. unfold byte_at. cbn [nth]. rewrite !byte_eqb_refl.
  rewrite len_app. replace (len date) with 10 by (unfold len; lia).
  rewrite !len_cons. cbn [negb orb].
  replace (drop 20 _) with (drop 1 tail) by (now rewrite drop_app_ge, Hl by lia).
  destruct (Z.ltb_spec (10 + (1 + (1 + (1 + (1 + (1 + (1 + (1 + (1 + (1 + len tail)))))))))) 19); [len_lia|].
  cbn [orb]. destruct tail as [|b ds]; [reflexivity|].
  destruct (Z.ltb_spec 19 (10 + (1 + (1 + (1 + (1 + (1 + (1 + (1 + (1 + (1 + len (b :: ds)))))))))))); [|len_lia].
  change (drop 1 (b :: ds)) with ds. rewrite len_cons.
  replace (_ =? 20) with (len ds =? 0) by (zcases; lia).
  replace (26 <? _) with (6 <? len ds) by (zcases; lia).
  replace (6 - _) with (6 - len ds) by lia. reflexivity.
Qed.

Lemma two_digits_padded v :
  0 <= v <= 99 -> exists a b, dec_padded 2 v = [a; b] /\ two_digits [a; b] 0 = Some v.
Proof.
  intros Hv. destruct (dec_padded_spec 2 v ltac:(lia) ltac:(lia)) as (G1 & G2 & G3).
  destruct (digits_two _ G3) as (a & b & E). rewrite E in *. exists a, b. split; [easy|].
  digit_bytes. unfold two_digits, byte_at. cbn [nth]. rewrite !digit_is by easy. cbn [mbind option_bind].
  unfold digits_value in G2. cbn [foldl] in G2. f_equal. lia.
Qed.

Lemma parse_datetime_text y m d h mi s ds :
  0 <= y <= 9999 -> valid_date y m d = true -> clock_ok h mi s -> all_digits ds = true -> len ds <= 6 ->
  parse_datetime_micros (datetime_text y m d h mi s ds) = Some (datetime_value (days_from_civil y m d) h mi s ds).
Proof.
  intros Hy Hv Hc Hd Hl. pose proof (len_date_text y m d Hy Hv) as Hdl. pose proof (days_in_range y m d Hy Hv) as Hr.
  destruct (datetime_value_i64 _ _ _ _ _ Hr Hc Hd Hl) as [V1 V2]. destruct Hc as (Hh & Hm & Hs).
  unfold datetime_text, clock_text. destruct (two_digits_padded h) as (h1 & h2 & Eh & Th); [lia|].
  destruct (two_digits_padded mi) as (m1 & m2 & Em & Tm); [lia|].
  destruct (two_digits_padded s) as (s1 & s2 & Es & Ts); [lia|]. rewrite Eh, Em, Es. cbn [app].
  rewrite parse_datetime_shape by (unfold len in Hdl; lia). rewrite Th, Tm, Ts.
  replace (parse_date_days (date_text y m d)) with (Some (days_from_civil y m d)).
  2:{ symmetry. rewrite <- (parse_date_text y m d []) by easy. f_equal. rewrite app_nil_r, take_ge; [easy|unfold len in Hdl; lia]. }
  cbn [mbind option_bind]. zcases; try lia. cbn [orb].
  replace (days_from_civil y m d * 86400 + h * 3600 + mi * 60 + s)
    with (days_from_civil y m d * 86400 + clock_seconds h mi s) by (unfold clock_seconds; lia).
  rewrite V1. cbn [mbind option_bind]. destruct ds as [|b ds]; [exact V2|].
  cbn [fraction_tail]. rewrite byte_eqb_refl. destruct (Z.eqb_spec (len (b :: ds)) 0); [len_lia|].
  destruct (Z.ltb_spec 6 (len (b :: ds))); [lia|]. cbn [negb orb]. rewrite fraction_loop_digits by easy.
  cbn [mbind option_bind]. exact V2.
Qed.

Lemma checked_i64_inv z v : checked_i64 z = Some v -> v = z.
Proof. unfold checked_i64. destruct (is_i64 z); congruence. Qed.

Lemma two_digits_pair a b v :
  two_digits [a; b] 0 = Some v -> dec_padded 2 v = [a; b] /\ 0 <= v.
Proof.
  intros (Ha & Hb & ->)%two_digits_inv. destruct (two_digits_text a b Ha Hb) as [E ?]. split; [exact E|].
  unfold byte_at. cbn [nth]. lia.
Qed.

Lemma parse_datetime_inv text v :
  parse_datetime_micros text = Some v ->
  exists y m d h mi s ds, 0 <= y <= 9999 /\ valid_date y m d = true /\ clock_ok h mi s /\
    all_digits ds = true /\ len ds <= 6 /\ text = datetime_text y m d h mi s ds /\
    v = datetime_value (days_from_civil y m d) h mi s ds.
Proof.
  destruct (Z.ltb_spec (len text) 19) as [Hl|Hl].
  { unfold parse_datetime_micros. destruct (Z.ltb_spec (len text) 19); [easy|lia]. }
  rewrite <- (take_drop 10 text). assert (Hd : length (take 10 text) = 10%nat) by (rewrite length_take; unfold len in Hl; lia).
  assert (Hr : 9 <= len (drop 10 text)) by (unfold len in *; rewrite length_drop; lia).
  destruct (drop 10 text) as [|x0 [|h1 [|h2 [|x1 [|m1 [|m2 [|x2 [|s1 [|s2 tail]]]]]]]]]; try len_lia.
  intros H. assert (byte_eqb x0 space_byte && byte_eqb x1 colon_byte && byte_eqb x2 colon_byte = true) as Hx.
  { revert H. unfold parse_datetime_micros.
    rewrite (byte_at_app _ _ 10 0), (byte_at_app _ _ 13 3), (byte_at_app _ _ 16 6) by lia. unfold byte_at. cbn [nth].
    destruct (byte_eqb x0 space_byte), (byte_eqb x1 colon_byte), (byte_eqb x2 colon_byte); cbn [negb];
      rewrite ?orb_true_r; easy. }
  apply andb_prop in Hx as [[->%byte_eqb_spec ->%byte_eqb_spec]%andb_prop ->%byte_eqb_spec].
  rewrite parse_datetime_shape in H by easy. do 4 bind_inv H.
  apply parse_date_inv in E as (y & m & d & Hy & Hv & -> & ->).
  apply two_digits_pair in E0 as [T0 ?], E1 as [T1 ?], E2 as [T2 ?].
  destruct ((23 <? z0) || (59 <? z1) || (59 <? z2)) eqn:Ec; [easy|].
  apply orb_false_iff in Ec as [[?%Z.ltb_ge ?%Z.ltb_ge]%orb_false_iff ?%Z.ltb_ge].
  exists y, m, d, z0, z1, z2, (drop 1 tail). split; [easy|]. split; [easy|]. split; [unfold clock_ok; lia|].
  unfold datetime_text, clock_text. rewrite T0, T1, T2. unfold datetime_value, clock_seconds. rewrite !Z.add_assoc.
  bind_inv H. bind_inv H. apply checked_i64_inv in E0 as ->, H as ->. revert E.
  destruct tail as [|b ds]; [now intros [= <-]|]. change (drop 1 (b :: ds)) with ds.
  destruct (byte_eqb b dot_byte) eqn:Eb; [apply byte_eqb_spec in Eb as ->|easy]. cbn [negb orb].
  destruct ds as [|c ds]; [easy|]. destruct (Z.ltb_spec 6 (len (c :: ds))); [now rewrite orb_true_r|].
  rewrite orb_false_r. destruct (Z.eqb_spec (len (c :: ds)) 0); [easy|]. intros E. bind_inv E.
  pose proof (fraction_loop_inv _ _ _ E0) as Hda. rewrite fraction_loop_digits in E0 by easy. inv E0.
  split; [easy|]. split; [easy|]. easy.
Qed.

(** Every datetime text is after the zero datetime. *)
Lemma parse_datetime_after_zero text v : parse_datetime_micros text = Some v -> ZERO_DATETIME_MICROS < v.
Proof.
  intros (y & m & d & h & mi & s & ds & Hy & Hv & (Hh & Hm & Hs) & Hd & Hl & -> & ->)%parse_datetime_inv.
  pose proof (days_in_range y m d Hy Hv). pose proof (tail_micros_range ds Hd Hl).
  unfold ZERO_DATETIME_MICROS, ZERO_DATE_DAYS, datetime_value, clock_seconds. lia.
Qed.

Lemma day_clock s :
  let t := s mod 86400 in
  clock_ok (t / 3600) (t mod 3600 / 60) (t mod 60) /\ clock_seconds (t / 3600) (t mod 3600 / 60) (t mod 60) = t.
Proof. unfold clock_ok, clock_seconds. cbv zeta. split; [split; [|split]|]; Z.div_mod_to_equations; lia. Qed.

Lemma clock_split h mi s :
  clock_ok h mi s ->
  clock_seconds h mi s / 3600 = h /\ clock_seconds h mi s mod 3600 / 60 = mi /\ clock_seconds h mi s mod 60 = s /\
  0 <= clock_seconds h mi s < 86400.
Proof. unfold clock_ok, clock_seconds. intros. repeat split; Z.div_mod_to_equations; lia. Qed.

(** The text of a datetime, field by field. *)
Lemma format_datetime_fields days h mi s sub fsp y m d :
  clock_ok h mi s -> 0 <= sub < 1000000 -> civil_from_days days = (y, m, d) ->
  format_datetime_micros ((days * 86400 + clock_seconds h mi s) * 1000000 + sub) fsp =
    if (6 <? fsp) || negb ((0 <=? y) && (y <=? 9999)) then None
    else if 0 <? fsp then Some (datetime_text y m d h mi s (dec_padded fsp (sub / 10 ^ (6 - fsp))))
    else if negb (sub =? 0) then None else Some (datetime_text y m d h mi s []).
Proof.
  intros Hc Hs Ec. destruct (clock_split h mi s Hc) as (C1 & C2 & C3 & C4). unfold format_datetime_micros.
  set (sec := days * 86400 + clock_seconds h mi s).
  assert (E1 : (sec * 1000000 + sub) / 1000000 = sec) by (Z.div_mod_to_equations; lia).
  assert (E2 : (sec * 1000000 + sub) mod 1000000 = sub) by (Z.div_mod_to_equations; lia).
  assert (E3 : sec / 86400 = days) by (subst sec; Z.div_mod_to_equations; lia).
  assert (E4 : sec mod 86400 = clock_seconds h mi s) by (subst sec; Z.div_mod_to_equations; lia).
  rewrite E1, E2, E3, E4, Ec, C1, C2, C3. destruct (Z.ltb_spec 6 fsp); cbn [orb]; [easy|].
  destruct (negb _); [easy|]. unfold datetime_text. cbn [fraction_tail].
  rewrite app_nil_r. destruct (Z.ltb_spec 0 fsp); [|easy]. rewrite <- !app_assoc. cbn [app].
  destruct (dec_padded fsp (sub / 10 ^ (6 - fsp))) as [|b l] eqn:E; [exfalso|now rewrite <- ?app_assoc].
  assert (len (dec_padded fsp (sub / 10 ^ (6 - fsp))) = 0) by (rewrite E; easy).
  unfold dec_padded in *. rewrite len_pad_zeros in *. lia.
Qed.

Lemma datetime_text_len y m d h mi s ds :
  0 <= y <= 9999 -> valid_date y m d = true -> clock_ok h mi s ->
  len (datetime_text y m d h mi s ds) = 19 + len (fraction_tail ds).
Proof.
  intros Hy Hv (Hh & Hm & Hs). unfold datetime_text, clock_text. rewrite len_app, len_date_text by easy.
  destruct (dec_padded_spec 2 h) as (_ & _ & Eh); [lia..|]. destruct (dec_padded_spec 2 mi) as (_ & _ & Em); [lia..|].
  destruct (dec_padded_spec 2 s) as (_ & _ & Es); [lia..|].
  rewrite len_cons, !len_app, Eh, Em, Es, !len_cons. change (len []) with 0. lia.
Qed.

Lemma pow10_split fsp : 0 <= fsp <= 6 -> 10 ^ fsp * 10 ^ (6 - fsp) = 1000000 /\ 0 < 10 ^ (6 - fsp).
Proof.
  intros. split; [|apply Z.pow_pos_nonneg; lia]. rewrite <- Z.pow_add_r by lia. now replace (fsp + (6 - fsp)) with 6 by lia.
Qed.

Lemma fraction_digits sub fsp :
  0 <= sub < 1000000 -> 1 <= fsp <= 6 ->
  let ds := dec_padded fsp (sub / 10 ^ (6 - fsp)) in
  all_digits ds = true /\ len ds = fsp /\ tail_micros ds = sub - sub mod 10 ^ (6 - fsp).
Proof.
  intros Hs Hf. destruct (pow10_split fsp) as [E P]; [lia|]. cbv zeta.
  destruct (dec_padded_spec fsp (sub / 10 ^ (6 - fsp))) as (D1 & D2 & D3); [lia| |].
  { split; [apply Z.div_pos; lia|]. apply Z.div_lt_upper_bound; lia. }
  split; [easy|]. split; [easy|]. unfold tail_micros. rewrite D2, D3.
  pose proof (Z.div_mod sub (10 ^ (6 - fsp))). lia.
Qed.

Lemma mod_unit x sub fsp :
  0 <= fsp <= 6 -> (x * 1000000 + sub) mod 10 ^ (6 - fsp) = sub mod 10 ^ (6 - fsp).
Proof.
  intros Hf. destruct (pow10_split fsp Hf) as [E P].
  replace (x * 1000000 + sub) with (sub + (x * 10 ^ fsp) * 10 ^ (6 - fsp)) by (rewrite <- Z.mul_assoc, E; lia).
  apply Z.mod_add. lia.
Qed.

Lemma parse_datetime_formats text micros :
  parse_datetime_micros text = Some micros ->
  format_datetime_micros micros (Z.max 0 (len text - 20)) = Some text.
Proof.
  intros (y & m & d & h & mi & s & ds & Hy & Hv & Hc & Hd & Hl & -> & ->)%parse_datetime_inv.
  pose proof (tail_micros_range ds Hd Hl). unfold datetime_value.
  rewrite (format_datetime_fields _ _ _ _ _ _ y m d) by (auto using days_civil).
  rewrite datetime_text_len by easy. pose proof (len_nonneg ds).
  destruct ds as [|b ds]; [now zcases; try lia|]. rewrite len_cons in *.
  cbn [fraction_tail]. rewrite !len_cons. pose proof (len_nonneg ds).
  replace (Z.max 0 (19 + (1 + (1 + len ds)) - 20)) with (len (b :: ds)) by (rewrite len_cons; lia).
  rewrite len_cons. zcases; try lia. cbn [negb andb orb]. do 2 f_equal. rewrite <- (len_cons b).
  unfold tail_micros. rewrite Z.div_mul by (apply Z.pow_nonzero; rewrite ?len_cons; lia).
  apply dec_padded_digits; [easy|rewrite len_cons; lia].
Qed.

Lemma format_datetime_parses text micros fsp :
  0 <= fsp -> format_datetime_micros micros fsp = Some text ->
  parse_datetime_micros text = Some (micros - micros mod 10 ^ (6 - fsp)) /\
  len text = if fsp =? 0 then 19 else 20 + fsp.
Proof.
  intros Hf.
  pose proof (Z.div_mod micros 1000000 ltac:(lia)) as G1. pose proof (Z.mod_pos_bound micros 1000000 ltac:(lia)) as G2.
  pose proof (Z.div_mod (micros / 1000000) 86400 ltac:(lia)) as G3.
  destruct (day_clock (micros / 1000000)) as [Hc Et]. cbv zeta in Hc, Et. rewrite <- Et in G3.
  destruct (civil_from_days (micros / 1000000 / 86400)) as [[y m] d] eqn:Ec.
  pose proof (civil_days (micros / 1000000 / 86400)) as Hv. rewrite Ec in Hv. destruct Hv as [Hv Hd].
  set (h := _ / 3600) in *. set (mi := _ / 60) in *. set (s := (micros / 1000000) mod 86400 mod 60) in *.
  set (sub := micros mod 1000000) in *. set (days := micros / 1000000 / 86400) in *.
  assert (E : micros = (days * 86400 + clock_seconds h mi s) * 1000000 + sub) by lia. clearbody h mi s sub days.
  rewrite E, (format_datetime_fields _ _ _ _ _ _ y m d) by easy.
  destruct ((6 <? fsp) || _) eqn:Eg; [easy|]. apply orb_false_iff in Eg as [Ef%Z.ltb_ge Ey%negb_false_iff].
  apply andb_prop in Ey as [?%Z.leb_le ?%Z.leb_le].
  destruct (Z.ltb_spec 0 fsp).
  + intros [= <-]. pose proof (fraction_digits sub fsp G2 ltac:(lia)) as (F1 & F2 & F3).
    split; [|rewrite datetime_text_len by (auto; lia); destruct (Z.eqb_spec fsp 0); [lia|];
      destruct (dec_padded fsp _) as [|b r] eqn:Eb; [change (len []) with 0 in F2; lia|];
      cbn [fraction_tail]; rewrite len_cons; lia].
    rewrite parse_datetime_text by (auto; lia). unfold datetime_value. rewrite F3, Hd. f_equal.
    rewrite mod_unit by lia. lia.
  + destruct (Z.eqb_spec sub 0) as [->|]; [|easy]. intros [= <-].
    split; [|rewrite datetime_text_len by (auto; lia); destruct (Z.eqb_spec fsp 0); [easy|lia]].
    rewrite parse_datetime_text by (auto; easy). unfold datetime_value. rewrite Hd. f_equal.
    change (tail_micros []) with 0. replace fsp with 0 by lia. rewrite Z.add_0_r.
    change (10 ^ (6 - 0)) with 1000000. rewrite Z.mod_mul by lia. lia.
Qed.

(** Canonical datetime text and microseconds are inverse.  A text the parser accepts is
    printed back byte for byte at the precision it was written with, and a printed text is
    read back as the printed instant, truncated to the printed fraction digits. *)
Theorem datetime_text_roundtrip (text : list byte) (micros fsp : Z) :
  (parse_datetime_micros text = Some micros ->
   format_datetime_micros micros (Z.max 0 (len text - 20)) = Some text) /\
  (0 <= fsp -> format_datetime_micros micros fsp = Some text ->
   parse_datetime_micros text = Some (micros - micros mod 10 ^ (6 - fsp))).
Proof.
  split; [apply parse_datetime_formats|]. intros Hf H. now apply format_datetime_parses.
Qed.

(** ** Decimal text *)

Lemma checked_i128_small z : -(2 ^ 127) <= z < 2 ^ 127 -> checked_i128 z = Some z.
Proof.
  intros Hz. unfold checked_i128. destruct (is_i128 z) eqn:E; [easy|exfalso]. unfold is_i128, in_signed in E.
  apply andb_false_iff in E. rewrite Z.leb_gt, Z.ltb_ge in E. change (2 ^ (128 - 1)) with (2 ^ 127) in E. lia.
Qed.

Lemma checked_push_small acc d : 0 <= acc -> 0 <= d -> acc * 10 + d < 2 ^ 127 -> checked_push acc d = Some (acc * 10 + d).
Proof.
  intros. unfold checked_push. rewrite !checked_i128_small by lia. cbn [mbind option_bind].
  now rewrite checked_i128_small by lia.
Qed.

(** Pushing a digit keeps the bound on the number the whole string denotes. *)
Lemma push_bound acc b bs m :
  is_digit b = true -> all_digits bs = true -> 0 <= acc -> acc * 10 ^ len (b :: bs) + digits_value (b :: bs) < m ->
  0 <= acc * 10 + digit_of b < m /\
  (acc * 10 + digit_of b) * 10 ^ len bs + digits_value bs = acc * 10 ^ len (b :: bs) + digits_value (b :: bs).
Proof.
  intros Hb%is_digit_spec Hd Ha. pose proof (digits_value_range bs Hd).
  rewrite digits_value_cons, len_cons, Z.pow_add_r by len_lia. change (10 ^ 1) with 10. intros Hm.
  split; [|lia]. assert (1 <= 10 ^ len bs) by (pose proof (Z.pow_pos_nonneg 10 (len bs)); len_lia). nia.
Qed.

Definition with_integer (s : decimal_state) (i : Z) (seen : bool) : decimal_state := {|
  ds_integer := i; ds_fraction := ds_fraction s; ds_fraction_digits := ds_fraction_digits s;
  ds_seen_dot := ds_seen_dot s; ds_seen_digit := seen
|}.

Lemma decimal_loop_integer scale ds rest s :
  all_digits ds = true -> ds_seen_dot s = false -> 0 <= ds_integer s ->
  ds_integer s * 10 ^ len ds + digits_value ds < 2 ^ 127 ->
  decimal_loop scale s (ds ++ rest) =
    decimal_loop scale (with_integer s (ds_integer s * 10 ^ len ds + digits_value ds)
                          (ds_seen_digit s || negb (len ds =? 0))) rest.
Proof.
  revert s; induction ds as [|b ds IH]; intros s Hd Hdot H0 Hm.
  { cbn [app]. f_equal. change (len []) with 0. change (digits_value []) with 0. unfold with_integer.
    replace (ds_integer s * 10 ^ 0 + 0) with (ds_integer s) by lia. cbn. rewrite orb_false_r. now destruct s. }
  cbn [all_digits forallb] in Hd. apply andb_prop in Hd as [Hb Hd].
  destruct (push_bound _ b ds _ Hb Hd H0 Hm) as [P1 P2]. pose proof (proj1 (is_digit_spec b) Hb).
  cbn [app decimal_loop]. unfold decimal_byte at 1. rewrite Hb, Hdot, checked_push_small by lia. cbn [mbind option_bind].
  rewrite IH; cbn [ds_seen_dot ds_integer]; [|easy|easy|lia|rewrite P2; lia]. rewrite P2.
  unfold with_integer. cbn [ds_integer ds_fraction ds_fraction_digits ds_seen_dot ds_seen_digit orb].
  destruct (Z.eqb_spec (len (b :: ds)) 0); [len_lia|]. cbn [negb]. now rewrite Hdot, orb_true_r.
Qed.

Lemma decimal_loop_fraction scale ds s :
  all_digits ds = true -> ds_seen_dot s = true -> 0 <= ds_fraction s ->
  ds_fraction_digits s + len ds <= scale -> ds_fraction s * 10 ^ len ds + digits_value ds < 2 ^ 127 ->
  decimal_loop scale s ds = Some {|
    ds_integer := ds_integer s; ds_fraction := ds_fraction s * 10 ^ len ds + digits_value ds;
    ds_fraction_digits := ds_fraction_digits s + len ds; ds_seen_dot := true;
    ds_seen_digit := ds_seen_digit s || negb (len ds =? 0) |}.
Proof.
  revert s; induction ds as [|b ds IH]; intros s Hd Hdot H0 Hs Hm.
  { cbn [decimal_loop]. change (len []) with 0. change (digits_value []) with 0.
    replace (ds_fraction s * 10 ^ 0 + 0) with (ds_fraction s) by lia. rewrite Z.add_0_r. cbn. rewrite orb_false_r, <- Hdot.
    now destruct s. }
  cbn [all_digits forallb] in Hd. apply andb_prop in Hd as [Hb Hd].
  destruct (push_bound _ b ds _ Hb Hd H0 Hm) as [P1 P2]. pose proof (proj1 (is_digit_spec b) Hb).
  rewrite len_cons in Hs. pose proof (len_nonneg ds). cbn [decimal_loop]. unfold decimal_byte at 1. rewrite Hb, Hdot.
  destruct (Z.ltb_spec (ds_fraction_digits s) scale); [|lia]. rewrite checked_push_small by lia. cbn [mbind option_bind].
  rewrite IH; cbn [ds_seen_dot ds_fraction ds_fraction_digits ds_integer ds_seen_digit];
    [|easy|easy|lia|lia|rewrite P2; lia]. rewrite P2.
  do 2 f_equal; [rewrite len_cons; lia|]. destruct (Z.eqb_spec (len (b :: ds)) 0); [len_lia|]. now rewrite orb_true_r.
Qed.

Lemma scale_up_pow n m : 0 <= m -> m * 10 ^ Z.of_nat n < 2 ^ 127 -> scale_up n m = Some (m * 10 ^ Z.of_nat n).
Proof.
  revert m; induction n as [|n IH]; intros m Hm Hb; cbn [scale_up]; [f_equal; lia|].
  rewrite Nat2Z.inj_succ, Z.pow_succ_r in * by lia.
  assert (1 <= 10 ^ Z.of_nat n) by (pose proof (Z.pow_pos_nonneg 10 (Z.of_nat n)); lia).
  rewrite checked_i128_small by nia. cbn [mbind option_bind]. rewrite IH by nia. f_equal. lia.
Qed.

Definition sign_text (negative : bool) : list byte := if negative then [minus_byte] else [].
Definition signed_value (negative : bool) (z : Z) : Z := if negative then - z else z.

Lemma decimal_sign_digits negative ds rest :
  all_digits ds = true -> 1 <= len ds ->
  decimal_sign (sign_text negative ++ ds ++ rest) = Some (negative, ds ++ rest).
Proof.
  intros Hd Hl. destruct negative; [reflexivity|]. destruct ds as [|b ds]; [easy|].
  cbn [all_digits forallb] in Hd. apply andb_prop in Hd as [Hb%is_digit_spec _]. unfold digit_of in Hb.
  cbn. unfold byte_eqb. change (byte.unsigned minus_byte) with 45. change (byte.unsigned plus_byte) with 43.
  zcases; try lia. easy.
Qed.

(** Integer digits past 127 bits are refused. *)
Lemma decimal_loop_overflow scale ds rest s :
  all_digits ds = true -> ds_seen_dot s = false -> 0 <= ds_integer s < 2 ^ 127 ->
  2 ^ 127 <= ds_integer s * 10 ^ len ds + digits_value ds ->
  decimal_loop scale s (ds ++ rest) = None.
Proof.
  revert s; induction ds as [|b ds IH]; intros s Hd Hdot H0 Hm.
  { change (len []) with 0 in Hm. change (digits_value []) with 0 in Hm. lia. }
  cbn [all_digits forallb] in Hd. apply andb_prop in Hd as [Hb Hd]. pose proof (proj1 (is_digit_spec b) Hb).
  rewrite digits_value_cons, len_cons, Z.pow_add_r in Hm by len_lia. change (10 ^ 1) with 10 in Hm.
  cbn [app decimal_loop]. unfold decimal_byte at 1. rewrite Hb, Hdot.
  destruct (Z.lt_ge_cases (ds_integer s * 10 + digit_of b) (2 ^ 127)).
  - rewrite checked_push_small by lia. cbn [mbind option_bind]. apply IH; cbn [ds_seen_dot ds_integer]; [easy|easy|lia|].
    lia.
  - unfold checked_push, checked_i128, is_i128, in_signed. change (2 ^ (128 - 1)) with (2 ^ 127).
    destruct (Z.ltb_spec (ds_integer s * 10) (2 ^ 127)), (Z.leb_spec (- 2 ^ 127) (ds_integer s * 10)); try lia;
      cbn [andb mbind option_bind]; [|easy].
    destruct (Z.ltb_spec (ds_integer s * 10 + digit_of b) (2 ^ 127)); [lia|]. now rewrite andb_false_r.
Qed.

(** Canonical fixed-scale text: integer digits, and a fraction of exactly the scale. *)
Lemma parse_decimal_fixed negative ip fp scale :
  all_digits ip = true -> all_digits fp = true -> 1 <= len ip -> len fp = scale -> scale <= 38 ->
  digits_value ip * 10 ^ scale + digits_value fp < 2 ^ 127 ->
  parse_decimal_scaled (sign_text negative ++ ip ++ (if scale =? 0 then [] else dot_byte :: fp)) scale =
    Some (signed_value negative (digits_value ip * 10 ^ scale + digits_value fp)).
Proof.
  intros Hi Hf Hli Hlf Hs Hm. pose proof (digits_value_range ip Hi) as Ri. pose proof (digits_value_range fp Hf) as Rf.
  pose proof (len_nonneg fp). assert (P : 1 <= 10 ^ scale) by (pose proof (Z.pow_pos_nonneg 10 scale); lia).
  assert (P38 : 10 ^ scale <= 10 ^ 38) by (apply Z.pow_le_mono_r; lia).
  unfold parse_decimal_scaled. rewrite decimal_sign_digits by easy. cbn [mbind option_bind].
  rewrite decimal_loop_integer by (cbn [ds_seen_dot ds_integer decimal_start]; auto; nia).
  unfold with_integer. cbn [ds_integer ds_fraction ds_fraction_digits ds_seen_dot ds_seen_digit decimal_start orb].
  destruct (Z.eqb_spec (len ip) 0); [lia|]. cbn [negb].
  assert (Ej : forall f fd, 0 <= f -> f * 10 ^ (scale - fd) = digits_value fp -> fd <= scale ->
    scale_up (Z.to_nat (scale - fd)) f = Some (digits_value fp)).
  { intros f fd H0 E Hfd. rewrite scale_up_pow; rewrite ?Z2Nat.id by lia; [now rewrite E|easy|rewrite E; nia]. }
  rewrite (checked_i128_small (10 ^ scale)) by lia.
  destruct (Z.eqb_spec scale 0) as [E0|E0].
  - cbn [decimal_loop mbind option_bind ds_seen_digit ds_fraction_digits ds_fraction negb].
    destruct fp; [|len_lia]. rewrite Ej by (auto; lia). cbn [mbind option_bind ds_integer].
    rewrite checked_i128_small by nia. cbn [mbind option_bind].
    rewrite checked_i128_small by nia. cbn [mbind option_bind]. f_equal.
  - cbn [decimal_loop]. unfold decimal_byte at 1. change (is_digit dot_byte) with false. rewrite byte_eqb_refl.
    cbn [andb negb mbind option_bind ds_seen_dot ds_integer ds_fraction ds_fraction_digits ds_seen_digit].
    rewrite decimal_loop_fraction by (cbn [ds_seen_dot ds_integer ds_fraction ds_fraction_digits]; auto; nia).
    cbn [mbind option_bind ds_seen_digit ds_fraction_digits ds_fraction ds_integer orb negb].
    rewrite Ej by (try lia; replace (scale - (0 + len fp)) with 0 by lia; lia). cbn [mbind option_bind].
    rewrite checked_i128_small by nia. cbn [mbind option_bind].
    rewrite checked_i128_small by nia. cbn [mbind option_bind]. f_equal.
Qed.

Lemma checked_i128_big z : 2 ^ 127 <= z -> checked_i128 z = None.
Proof.
  intros Hz. unfold checked_i128, is_i128, in_signed. change (2 ^ (128 - 1)) with (2 ^ 127).
  destruct (Z.ltb_spec z (2 ^ 127)); [lia|]. now rewrite andb_false_r.
Qed.

(** The same text past 127 bits is refused. *)
Lemma parse_decimal_fixed_overflow negative ip fp scale :
  all_digits ip = true -> all_digits fp = true -> 1 <= len ip -> len fp = scale -> scale <= 38 ->
  2 ^ 127 <= digits_value ip * 10 ^ scale + digits_value fp ->
  parse_decimal_scaled (sign_text negative ++ ip ++ (if scale =? 0 then [] else dot_byte :: fp)) scale = None.
Proof.
  intros Hi Hf Hli Hlf Hs Hm. pose proof (digits_value_range ip Hi) as Ri. pose proof (digits_value_range fp Hf) as Rf.
  pose proof (len_nonneg fp). rewrite Hlf in Rf. assert (P38 : 10 ^ scale <= 10 ^ 38) by (apply Z.pow_le_mono_r; lia).
  unfold parse_decimal_scaled. rewrite decimal_sign_digits by easy. cbn [mbind option_bind].
  destruct (Z.lt_ge_cases (digits_value ip) (2 ^ 127)) as [Hlt|Hge].
  2:{ rewrite decimal_loop_overflow; [easy|easy|easy|cbn [ds_integer decimal_start]; lia|cbn [ds_integer decimal_start]; lia]. }
  rewrite decimal_loop_integer by (cbn [ds_seen_dot ds_integer decimal_start]; auto; lia).
  unfold with_integer. cbn [ds_integer ds_fraction ds_fraction_digits ds_seen_dot ds_seen_digit decimal_start orb].
  destruct (Z.eqb_spec (len ip) 0); [lia|]. cbn [negb]. rewrite (checked_i128_small (10 ^ scale)) by lia.
  destruct (Z.eqb_spec scale 0) as [E0|E0].
  - destruct fp; [|len_lia]. change (digits_value []) with 0 in Hm. rewrite E0 in Hm. lia.
  - cbn [decimal_loop]. unfold decimal_byte at 1. change (is_digit dot_byte) with false. rewrite byte_eqb_refl.
    cbn [andb negb mbind option_bind ds_seen_dot ds_integer ds_fraction ds_fraction_digits ds_seen_digit].
    rewrite decimal_loop_fraction by (cbn [ds_seen_dot ds_integer ds_fraction ds_fraction_digits]; auto; lia).
    cbn [mbind option_bind ds_seen_digit ds_fraction_digits ds_fraction ds_integer orb negb].
    replace (Z.to_nat (scale - (0 + len fp))) with O by lia. cbn [scale_up mbind option_bind].
    change (0 * 10 ^ len ip + digits_value ip) with (digits_value ip).
    change (0 * 10 ^ len fp + digits_value fp) with (digits_value fp).
    destruct (Z.lt_ge_cases (digits_value ip * 10 ^ scale) (2 ^ 127)).
    + rewrite checked_i128_small by nia. cbn [mbind option_bind]. now rewrite checked_i128_big.
    + now rewrite checked_i128_big.
Qed.

Lemma signed_abs z : signed_value (z <? 0) (Z.abs z) = z.
Proof. unfold signed_value. zcases; lia. Qed.

Lemma format_decimal_text value scale :
  0 <= scale ->
  exists ip fp, all_digits ip = true /\ all_digits fp = true /\ 1 <= len ip /\ len fp = scale /\
    digits_value ip * 10 ^ scale + digits_value fp = Z.abs value /\
    format_decimal_scaled value scale =
      sign_text (value <? 0) ++ ip ++ (if scale =? 0 then [] else dot_byte :: fp).
Proof.
  intros Hs. unfold format_decimal_scaled, signed_text, sign_text. destruct (Z.eqb_spec scale 0) as [->|E].
  - exists (dec_text (Z.abs value)), []. destruct (dec_text_spec (Z.abs value) ltac:(lia)) as (D1 & D2 & D3 & _).
    rewrite D2, app_nil_r. split_and!; try easy. change (digits_value []) with 0. lia.
  - assert (P : 0 < 10 ^ scale) by (apply Z.pow_pos_nonneg; lia).
    assert (Hq : 0 <= Z.abs value / 10 ^ scale) by (apply Z.div_pos; lia).
    exists (dec_text (Z.abs value / 10 ^ scale)), (dec_padded scale (Z.abs value mod 10 ^ scale)).
    destruct (dec_text_spec _ Hq) as (D1 & D2 & D3 & _).
    destruct (dec_padded_spec scale (Z.abs value mod 10 ^ scale)) as (F1 & F2 & F3); [lia|apply Z.mod_pos_bound; lia|].
    rewrite D2, F2. split_and!; try easy. pose proof (Z.div_mod (Z.abs value) (10 ^ scale)). lia.
Qed.

(** Decimal text round trip: the text of a scaled integer at a scale of at most 38 is
    parsed back to the same integer at that scale, for every integer of 128 bits except
    the least, whose magnitude the parser cannot hold. *)
Theorem decimal_text_roundtrip (value scale : Z) :
  0 <= scale <= 38 -> Z.abs value < 2 ^ 127 ->
  parse_decimal_scaled (format_decimal_scaled value scale) scale = Some value.
Proof.
  intros Hs Hv. destruct (format_decimal_text value scale) as (ip & fp & G1 & G2 & G3 & G4 & G5 & ->); [lia|].
  rewrite parse_decimal_fixed by (auto; lia). now rewrite G5, signed_abs.
Qed.

Lemma decimal_text_roundtrip_witness :
  parse_decimal_scaled (format_decimal_scaled (-12345) 3) 3 = Some (-12345).
Proof. apply decimal_text_roundtrip; vm_compute; split; congruence || reflexivity. Defined.

(** ** Rounding to a scale *)

Lemma rounded_loop_keep scale ds rest s :
  all_digits ds = true -> 0 <= rs_magnitude s ->
  (rs_seen_dot s = true -> rs_fraction_digits s + len ds <= scale) ->
  rs_magnitude s * 10 ^ len ds + digits_value ds < 2 ^ 127 ->
  rounded_loop scale s (ds ++ rest) = rounded_loop scale {|
    rs_magnitude := rs_magnitude s * 10 ^ len ds + digits_value ds;
    rs_fraction_digits := if rs_seen_dot s then rs_fraction_digits s + len ds else rs_fraction_digits s;
    rs_seen_dot := rs_seen_dot s; rs_seen_digit := rs_seen_digit s || negb (len ds =? 0);
    rs_round_up := rs_round_up s |} rest.
Proof.
  revert s; induction ds as [|b ds IH]; intros s Hd H0 Hs Hm.
  { cbn [app]. f_equal. change (len []) with 0. change (digits_value []) with 0.
    replace (rs_magnitude s * 10 ^ 0 + 0) with (rs_magnitude s) by lia. rewrite Z.add_0_r. cbn. rewrite orb_false_r.
    destruct s as [? ? [] ? ?]; easy. }
  cbn [all_digits forallb] in Hd. apply andb_prop in Hd as [Hb Hd].
  destruct (push_bound _ b ds _ Hb Hd H0 Hm) as [P1 P2]. pose proof (proj1 (is_digit_spec b) Hb).
  rewrite len_cons in Hs. pose proof (len_nonneg ds). cbn [app rounded_loop]. unfold rounded_byte at 1. rewrite Hb.
  replace (rs_seen_dot s && _) with false.
  2:{ destruct (rs_seen_dot s); [|easy]. specialize (Hs eq_refl). cbn. zcases; lia. }
  rewrite checked_push_small by lia. cbn [mbind option_bind].
  rewrite IH; cbn [rs_magnitude rs_fraction_digits rs_seen_dot rs_seen_digit rs_round_up];
    [|easy|lia|intros E; rewrite E in *; specialize (Hs eq_refl); lia|rewrite P2; lia].
  rewrite P2. f_equal. f_equal; [destruct (rs_seen_dot s); rewrite ?len_cons; lia|].
  destruct (Z.eqb_spec (len (b :: ds)) 0); [len_lia|]. now rewrite orb_true_r.
Qed.

Lemma rounded_loop_drop scale ds s :
  all_digits ds = true -> rs_seen_dot s = true -> 0 <= scale < rs_fraction_digits s ->
  rs_fraction_digits s + len ds <= 255 ->
  rounded_loop scale s ds = Some {|
    rs_magnitude := rs_magnitude s; rs_fraction_digits := rs_fraction_digits s + len ds;
    rs_seen_dot := true; rs_seen_digit := rs_seen_digit s || negb (len ds =? 0);
    rs_round_up := rs_round_up s |}.
Proof.
  revert s; induction ds as [|b ds IH]; intros s Hd Hdot Hs Hm.
  { cbn [rounded_loop]. change (len []) with 0. rewrite Z.add_0_r. cbn. rewrite orb_false_r, <- Hdot. now destruct s. }
  cbn [all_digits forallb] in Hd. apply andb_prop in Hd as [Hb Hd]. rewrite len_cons in Hm. pose proof (len_nonneg ds).
  cbn [rounded_loop]. unfold rounded_byte at 1. rewrite Hb, Hdot.
  destruct (Z.leb_spec scale (rs_fraction_digits s)); [|lia]. destruct (Z.eqb_spec (rs_fraction_digits s) scale); [lia|].
  unfold checked_add. cbn [andb]. destruct (Z.ltb_spec (rs_fraction_digits s + 1) (2 ^ 8)); [|lia]. cbn [mbind option_bind].
  rewrite IH; cbn [rs_magnitude rs_fraction_digits rs_seen_dot rs_seen_digit rs_round_up]; [|easy|easy|lia|lia].
  do 2 f_equal; [rewrite len_cons; lia|]. destruct (Z.eqb_spec (len (b :: ds)) 0); [len_lia|]. now rewrite orb_true_r.
Qed.

Lemma round_half_away_nonneg a b : 0 <= a -> 0 < b -> round_half_away a b = (2 * a + b) / (2 * b).
Proof.
  intros Ha Hb. unfold round_half_away. rewrite !Z.abs_eq, (Z.sgn_pos b) by lia.
  destruct (Z.eq_dec a 0) as [->|]; [|rewrite Z.sgn_pos by lia; lia].
  cbn [Z.sgn Z.mul]. rewrite Z.div_small; lia.
Qed.

(** Rounding a digit string to its leading digits looks at the first digit dropped. *)
Lemma round_digits v b r k :
  0 <= v -> is_digit b = true -> all_digits r = true -> 0 < k ->
  round_half_away ((v * 10 ^ len (b :: r) + digits_value (b :: r)) * k) (k * 10 ^ len (b :: r)) =
    if 5 <=? digit_of b then v + 1 else v.
Proof.
  intros Hv Hb%is_digit_spec Hr Hk. pose proof (digits_value_range r Hr) as Rr.
  rewrite digits_value_cons, len_cons, Z.pow_add_r by len_lia. change (10 ^ 1) with 10.
  set (u := 10 ^ len r) in *. set (x := digits_value r) in *. set (d := digit_of b) in *.
  rewrite round_half_away_nonneg by nia.
  replace (2 * ((v * (10 * u) + (d * u + x)) * k) + k * (10 * u))
    with ((2 * (v * (10 * u) + (d * u + x)) + 10 * u) * k) by ring.
  replace (2 * (k * (10 * u))) with (2 * (10 * u) * k) by ring. rewrite Z.div_mul_cancel_r by nia.
  rewrite half_up_quotient by nia.
  assert (E : (v * (10 * u) + (d * u + x)) mod (10 * u) = d * u + x).
  { rewrite Z.add_comm, Z.mod_add by nia. apply Z.mod_small. nia. }
  rewrite E, (Z.add_comm (v * _)), Z.div_add by nia. rewrite (Z.div_small (d * u + x)) by nia.
  zcases; nia.
Qed.

Lemma split_digits (ds : list byte) n :
  0 <= n < len ds -> exists k b r, ds = k ++ b :: r /\ len k = n.
Proof.
  intros Hn. unfold len in Hn. exists (take (Z.to_nat n) ds).
  destruct (drop (Z.to_nat n) ds) as [|b r] eqn:Ed.
  { apply (f_equal length) in Ed. rewrite length_drop in Ed. cbn in Ed. lia. }
  exists b, r. split; [now rewrite <- Ed, take_drop|]. unfold len. rewrite length_take. lia.
Qed.

(** The value the rounding parser returns before the sign. *)
Lemma rounded_fraction scale fp v :
  all_digits fp = true -> 0 <= v -> 0 <= scale -> len fp <= 255 ->
  let a := (v * 10 ^ len fp + digits_value fp) * 10 ^ scale in
  round_half_away a (10 ^ len fp) < 2 ^ 127 ->
  exists s, rounded_loop scale {| rs_magnitude := v; rs_fraction_digits := 0; rs_seen_dot := true;
      rs_seen_digit := true; rs_round_up := false |} fp = Some s /\ rs_seen_digit s = true /\
    (m ← scale_up (Z.to_nat (scale - rs_fraction_digits s)) (rs_magnitude s);
     if rs_round_up s then checked_i128 (m + 1) else Some m) = Some (round_half_away a (10 ^ len fp)).
Proof.
  intros Hf Hv Hs Hl. cbv zeta. pose proof (digits_value_range fp Hf). pose proof (len_nonneg fp).
  assert (P : 0 < 10 ^ len fp) by (apply Z.pow_pos_nonneg; lia).
  destruct (Z.le_gt_cases (len fp) scale) as [Hc|Hc].
  - assert (Es : 10 ^ scale = 10 ^ (scale - len fp) * 10 ^ len fp) by (rewrite <- Z.pow_add_r by lia; f_equal; lia).
    assert (0 < 10 ^ (scale - len fp)) by (apply Z.pow_pos_nonneg; lia).
    rewrite round_half_away_nonneg by nia. rewrite half_up_quotient by nia.
    rewrite Es, Z.mul_assoc, Z.mod_mul, Z.div_mul by lia. destruct (Z.ltb_spec (2 * 0) (10 ^ len fp)); [|lia].
    intros Hm.
    epose proof (rounded_loop_keep scale fp [] {| rs_seen_dot := true |} Hf) as K. rewrite app_nil_r in K.
    cbn [rs_magnitude rs_fraction_digits rs_seen_dot] in K. rewrite K by (lia || nia).
    eexists. split; [reflexivity|]. cbn [rs_seen_digit rs_fraction_digits rs_magnitude rs_round_up]. split; [easy|].
    rewrite scale_up_pow; rewrite ?Z2Nat.id by lia; replace (scale - (0 + len fp)) with (scale - len fp) by lia;
      [easy|nia|lia].
  - destruct (split_digits fp scale) as (k & b & r & -> & Ek); [lia|].
    rewrite all_digits_app in Hf. apply andb_prop in Hf as [Hk Hbr].
    pose proof Hbr as Hbr'. cbn [all_digits forallb] in Hbr'. apply andb_prop in Hbr' as [Hb Hr].
    rewrite digits_value_app, len_app, Ek, Z.pow_add_r in * by len_lia.
    replace (v * (10 ^ scale * 10 ^ len (b :: r)) + (digits_value k * 10 ^ len (b :: r) + digits_value (b :: r)))
      with ((v * 10 ^ scale + digits_value k) * 10 ^ len (b :: r) + digits_value (b :: r)) by ring.
    pose proof (digits_value_range k Hk). assert (0 < 10 ^ scale) by (apply Z.pow_pos_nonneg; lia).
    rewrite round_digits by (auto; nia). intros Hm.
    assert (v * 10 ^ scale + digits_value k < 2 ^ 127) by (revert Hm; zcases; lia).
    rewrite rounded_loop_keep; cbn [rs_magnitude rs_fraction_digits rs_seen_dot]; rewrite ?Ek; [|easy|easy|lia|lia].
    cbn [rounded_loop rs_round_up rs_seen_digit orb]. unfold rounded_byte at 1. rewrite Hb. cbn [rs_fraction_digits rs_seen_dot andb].
    destruct (Z.leb_spec scale (0 + scale)); [|lia]. destruct (Z.eqb_spec (0 + scale) scale); [|lia].
    unfold checked_add. rewrite len_cons in Hl. pose proof (len_nonneg r).
    destruct (Z.ltb_spec (0 + scale + 1) (2 ^ 8)); [|lia]. cbn [mbind option_bind].
    rewrite rounded_loop_drop; cbn [rs_seen_dot rs_fraction_digits rs_magnitude rs_round_up rs_seen_digit]; [|easy|easy|lia|lia].
    eexists. split; [reflexivity|]. cbn [rs_seen_digit rs_fraction_digits rs_magnitude rs_round_up]. split; [easy|].
    replace (Z.to_nat (scale - (0 + scale + 1 + len r))) with O by lia. cbn [scale_up mbind option_bind].
    destruct (5 <=? digit_of b); [|easy]. now rewrite checked_i128_small by lia.
Qed.

Lemma div_decimal_exact n d :
  is_i128 n = true -> is_i128 d = true -> d <> 0 ->
  div_decimal_round_half_up n d = checked_i128 (round_half_away n d).
Proof.
  unfold is_i128, in_signed. rewrite !andb_true_iff, !Z.leb_le, !Z.ltb_lt. change (2 ^ (128 - 1)) with (2 ^ 127).
  intros Hn Hd H0. unfold div_decimal_round_half_up. destruct (Z.eqb_spec d 0); [easy|].
  assert (G : exists q r, Z.abs n = Z.abs d * q + r /\ 0 <= r < Z.abs d /\ 0 <= q /\
    Z.quot n d = Z.sgn n * Z.sgn d * q /\ Z.abs (Z.rem n d) = r).
  { exists (Z.abs n / Z.abs d), (Z.abs n mod Z.abs d). split; [apply Z.div_mod; lia|].
    split; [apply Z.mod_pos_bound; lia|]. split; [apply Z.div_pos; lia|].
    rewrite Z.quot_div, Z.rem_mod by easy. split; [lia|].
    pose proof (Z.mod_pos_bound (Z.abs n) (Z.abs d) ltac:(lia)). destruct (Z.sgn_spec n) as [[? ->]|[[? ->]|[? ->]]]; try lia.
    replace (Z.abs n) with 0 by lia. now rewrite Z.mod_0_l by lia. }
  destruct G as (q & r & E1 & E2 & E3 & E4 & E5).
  assert (Er : round_half_away n d = Z.sgn n * Z.sgn d * (if 2 * r <? Z.abs d then q else q + 1)).
  { unfold round_half_away. rewrite half_up_quotient by lia. f_equal.
    replace (Z.abs n mod Z.abs d) with r by (apply (Z.mod_unique _ _ q); lia).
    now replace (Z.abs n / Z.abs d) with q by (apply (Z.div_unique _ _ _ r); lia). }
  rewrite Er, E4, E5. assert (Hq : q <= 2 ^ 127) by nia. clear Er E4.
  destruct (Z.eqb_spec (Z.rem n d) 0) as [R0|R0].
  { replace r with 0 in * by lia. destruct (Z.ltb_spec (2 * 0) (Z.abs d)); [|lia]. now destruct (checked_i128 _). }
  assert (Hq2 : 2 * q <= 2 ^ 127 \/ Z.abs d = 1) by (destruct (Z.eq_dec (Z.abs d) 1); [now right|left; nia]).
  rewrite (checked_i128_small (_ * q)) by (destruct (Z.sgn_spec n) as [[? ->]|[[? ->]|[? ->]]], (Z.sgn_spec d) as [[? ->]|[[? ->]|[? ->]]]; lia).
  cbn [mbind option_bind]. destruct (Z.ltb_spec (2 * r) (2 ^ 128)); [|lia]. cbn [andb].
  destruct (Z.ltb_spec (2 * r) (Z.abs d)), (Z.leb_spec (Z.abs d) (2 * r)); try lia; cbn [negb].
  - symmetry. apply checked_i128_small. destruct (Z.sgn_spec n) as [[? ->]|[[? ->]|[? ->]]], (Z.sgn_spec d) as [[? ->]|[[? ->]|[? ->]]]; lia.
  - f_equal. zcases; cbn [Bool.eqb]; destruct (Z.sgn_spec n) as [[? ->]|[[? ->]|[? ->]]], (Z.sgn_spec d) as [[? ->]|[[? ->]|[? ->]]]; lia.
Qed.

Lemma round_micros_half_away micros fsp :
  0 <= fsp -> let unit := 10 ^ (6 - Z.min fsp 6) in
  round_micros_to_fsp micros fsp = round_half_away micros unit * unit.
Proof.
  intros Hf. cbv zeta. unfold round_micros_to_fsp. set (u := 10 ^ (6 - Z.min fsp 6)).
  assert (Hu : u = 1 \/ u = 10 \/ u = 100 \/ u = 1000 \/ u = 10000 \/ u = 100000 \/ u = 1000000).
  { subst u. assert (Hc : Z.min fsp 6 = 0 \/ Z.min fsp 6 = 1 \/ Z.min fsp 6 = 2 \/ Z.min fsp 6 = 3 \/
      Z.min fsp 6 = 4 \/ Z.min fsp 6 = 5 \/ Z.min fsp 6 = 6) by lia.
    destruct Hc as [->|[->|[->|[->|[->|[->| ->]]]]]]; vm_compute; tauto. }
  clearbody u. unfold round_half_away. rewrite (Z.sgn_pos u), (Z.abs_eq u) by lia.
  destruct (Z.eqb_spec u 1) as [->|Hne].
  { replace ((2 * Z.abs micros + 1) / (2 * 1)) with (Z.abs micros) by (Z.div_mod_to_equations; lia).
    pose proof (Z.sgn_abs micros). lia. }
  assert (E : (2 * Z.abs micros + u) / (2 * u) = (Z.abs micros + u / 2) / u).
  { destruct Hu as [->|[->|[->|[->|[->|[->| ->]]]]]]; [lia|..]; Z.div_mod_to_equations; lia. }
  rewrite E. destruct (Z.leb_spec 0 micros).
  - rewrite Z.abs_eq by easy. destruct (Z.eq_dec micros 0) as [->|]; [|rewrite Z.sgn_pos; lia].
    destruct Hu as [->|[->|[->|[->|[->|[->| ->]]]]]]; easy.
  - rewrite Z.abs_neq, Z.sgn_neg by lia. lia.
Qed.

(** Decimals and times are rounded half away from zero, exactly.  Digits past the scale are
    rounded into the last one kept; a quotient of scaled integers is the rounded exact quotient,
    or refused when that does not fit 128 bits; microseconds go to the nearest multiple of the
    precision's unit. *)
Theorem rounding_half_away (negative : bool) (ip fp : list byte) (scale n d micros fsp : Z) :
  (all_digits ip = true -> all_digits fp = true -> 1 <= len ip -> len fp <= 255 -> 0 <= scale ->
   let r := round_half_away (digits_value (ip ++ fp) * 10 ^ scale) (10 ^ len fp) in
   r < 2 ^ 127 ->
   parse_decimal_rounded (sign_text negative ++ ip ++ dot_byte :: fp) scale = Some (signed_value negative r)) /\
  (is_i128 n = true -> is_i128 d = true -> d <> 0 ->
   div_decimal_round_half_up n d = checked_i128 (round_half_away n d)) /\
  (0 <= fsp -> let unit := 10 ^ (6 - Z.min fsp 6) in
   round_micros_to_fsp micros fsp = round_half_away micros unit * unit).
Proof.
  split; [|split; [apply div_decimal_exact|apply round_micros_half_away]].
  intros Hi Hf Hl Hlf Hs r Hr. subst r. rewrite digits_value_app in *. pose proof (digits_value_range ip Hi).
  destruct (rounded_fraction scale fp (digits_value ip) Hf ltac:(lia) Hs Hlf Hr) as (s & E1 & E2 & E3).
  unfold parse_decimal_rounded. rewrite decimal_sign_digits by easy. cbn [mbind option_bind].
  assert (Hip : digits_value ip < 2 ^ 127).
  { pose proof (digits_value_range fp Hf). assert (0 < 10 ^ len fp) by (apply Z.pow_pos_nonneg; len_lia).
    assert (0 < 10 ^ scale) by (apply Z.pow_pos_nonneg; lia).
    revert Hr. rewrite round_half_away_nonneg by nia. set (b := 10 ^ len fp) in *. intros Hr.
    assert (digits_value ip <= (2 * ((digits_value ip * b + digits_value fp) * 10 ^ scale) + b) / (2 * b)); [|lia].
    apply Z.div_le_lower_bound; nia. }
  rewrite rounded_loop_keep by (cbn [rs_magnitude rs_seen_dot rounded_start]; auto; lia).
  cbn [rs_magnitude rs_fraction_digits rs_seen_dot rs_seen_digit rs_round_up rounded_start orb rounded_loop].
  unfold rounded_byte at 1. change (is_digit dot_byte) with false. rewrite byte_eqb_refl.
  cbn [andb negb rs_magnitude rs_fraction_digits rs_seen_dot rs_seen_digit rs_round_up mbind option_bind].
  destruct (Z.eqb_spec (len ip) 0); [lia|]. cbn [negb]. change (0 * 10 ^ len ip + digits_value ip) with (digits_value ip).
  rewrite E1. cbn [mbind option_bind]. rewrite E2. cbn [negb].
  destruct (scale_up _ _); cbn [mbind option_bind] in E3 |- *; [|easy]. rewrite E3. easy.
Qed.

(** ** Time text *)

(** The text of a time: an optional sign, hours of two digits or more, minutes, seconds and
    fraction. *)
Definition time_text (negative : bool) (h mi s : Z) (ds : list byte) : list byte :=
  sign_text negative ++ clock_text h mi s ++ fraction_tail ds.

Lemma fraction_micros_digits ds : all_digits ds = true -> len ds <= 6 -> fraction_micros ds = Some (tail_micros ds).
Proof.
  intros Hd Hl. unfold fraction_micros, tail_micros. destruct ds as [|b ds]; [easy|]. rewrite Hd. cbn [negb].
  rewrite take_ge by (unfold len in Hl; lia). do 3 f_equal. lia.
Qed.

Lemma padded_digits w z : 0 <= z -> all_digits (dec_padded w z) = true /\ digits_value (dec_padded w z) = z /\ 1 <= len (dec_padded w z).
Proof.
  intros Hz. destruct (dec_text_spec z Hz) as (D1 & D2 & D3 & _). unfold dec_padded.
  rewrite pad_zeros_digits, pad_zeros_value, len_pad_zeros. split_and!; try easy. lia.
Qed.

(** The bytes of a clock are digits and colons; a time adds a dot and a sign. *)
Lemma clock_all (p : byte -> bool) h mi s :
  (forall b, is_digit b = true -> p b = true) -> p colon_byte = true ->
  0 <= h -> 0 <= mi -> 0 <= s -> forallb p (clock_text h mi s) = true.
Proof.
  intros Hp Hc Hh Hm Hs. unfold clock_text. rewrite !forallb_app. cbn [forallb]. rewrite Hc.
  now rewrite !(digits_all p (dec_padded _ _)) by (auto; now apply padded_digits).
Qed.

Lemma time_text_all (p : byte -> bool) negative h mi s ds :
  (forall b, is_digit b = true -> p b = true) -> p colon_byte = true -> p dot_byte = true ->
  (negative = true -> p minus_byte = true) ->
  0 <= h -> 0 <= mi -> 0 <= s -> all_digits ds = true -> forallb p (time_text negative h mi s ds) = true.
Proof.
  intros Hp Hc Hd Hn Hh Hm Hs Hf. unfold time_text, sign_text, fraction_tail. rewrite !forallb_app, clock_all by easy.
  destruct negative, ds; cbn [forallb andb]; rewrite ?Hn, ?Hd by easy; cbn [andb]; try easy;
    now apply (digits_all p (_ :: _)).
Qed.

Lemma clock_colons h mi s :
  0 <= h -> 0 <= mi -> 0 <= s ->
  split_all (byte_eqb colon_byte) (clock_text h mi s) = [dec_padded 2 h; dec_padded 2 mi; dec_padded 2 s].
Proof.
  intros Hh Hm Hs. unfold clock_text. cbn [app].
  assert (F : forall z, 0 <= z -> free (byte_eqb colon_byte) (dec_padded 2 z) = true).
  { intros z Hz. apply (digits_all _); [|now apply padded_digits]. intros b Hb%digit_bounds. unfold byte_eqb.
    change (byte.unsigned colon_byte) with 58. zcases; easy || lia. }
  now rewrite !split_all_at, split_all_free by auto.
Qed.

(** The shape of a printed time is not a date and time. *)
Lemma time_text_not_datetime negative h mi s ds :
  0 <= h -> 0 <= mi -> 0 <= s -> all_digits ds = true ->
  parse_datetime_lenient_micros (time_text negative h mi s ds) = None.
Proof.
  intros Hh Hm Hs Hf. unfold parse_datetime_lenient_micros.
  assert (Hd : forall b, is_digit b = true -> plain b = true /\ negb (is_separator b) = true /\ negb (byte_eqb minus_byte b) = true).
  { intros b Hb%digit_bounds. unfold plain, is_separator, byte_in, byte_eqb. change (byte.unsigned space_byte) with 32.
    change (byte.unsigned minus_byte) with 45. split; [|split]; zcases; easy || lia. }
  rewrite trim_plain by (apply time_text_all; try easy; apply Hd).
  rewrite split_once_free by (apply time_text_all; try easy; apply Hd).
  assert (E : split_all (byte_eqb minus_byte) (time_text false h mi s ds) = [time_text false h mi s ds]).
  { apply split_all_free, time_text_all; try easy. apply Hd. }
  destruct negative; [|now rewrite E].
  change (time_text true h mi s ds) with (minus_byte :: time_text false h mi s ds). cbn [split_all].
  rewrite byte_eqb_refl, E. easy.
Qed.

(** The parts the time parser cuts a printed time into. *)
Lemma time_text_parts negative h mi s ds :
  0 <= h -> 0 <= mi -> 0 <= s -> all_digits ds = true ->
  (match strip_byte minus_byte (time_text negative h mi s ds) with
   | Some r => (true, r) | None => (false, time_text negative h mi s ds) end) = (negative, time_text false h mi s ds) /\
  strip_byte plus_byte (time_text false h mi s ds) = None /\
  (match split_once (byte_eqb dot_byte) (time_text false h mi s ds) with
   | Some cf => cf | None => (time_text false h mi s ds, []) end) = (clock_text h mi s, ds) /\
  split_once (byte_eqb space_byte) (clock_text h mi s) = None /\ trim (clock_text h mi s) = clock_text h mi s.
Proof.
  intros Hh Hm Hs Hf.
  assert (Hb : strip_byte minus_byte (time_text false h mi s ds) = None /\ strip_byte plus_byte (time_text false h mi s ds) = None).
  { destruct (padded_digits 2 h Hh) as (Dh & _ & Lh). unfold time_text, clock_text.
    destruct (dec_padded 2 h) as [|b r]; [easy|]. cbn [all_digits forallb] in Dh.
    apply andb_prop in Dh as [Db%digit_bounds _]. cbn [sign_text app strip_byte]. unfold byte_eqb.
    change (byte.unsigned minus_byte) with 45. change (byte.unsigned plus_byte) with 43. split; zcases; easy || lia. }
  destruct Hb as [B1 B2]. split; [destruct negative; [reflexivity|now rewrite B1]|]. split; [easy|].
  assert (Hp : forall b, is_digit b = true -> plain b = true /\ negb (byte_eqb dot_byte b) = true /\ negb (byte_eqb space_byte b) = true).
  { intros b Hb%digit_bounds. unfold plain, byte_in, byte_eqb. change (byte.unsigned space_byte) with 32.
    change (byte.unsigned dot_byte) with 46. split; [|split]; zcases; easy || lia. }
  split; [|split].
  - unfold time_text. cbn [sign_text app]. assert (Hc : free (byte_eqb dot_byte) (clock_text h mi s) = true) by (apply clock_all; easy || apply Hp).
    destruct ds; cbn [fraction_tail]; [rewrite app_nil_r, split_once_free|rewrite split_once_at]; easy.
  - apply split_once_free, clock_all; easy || apply Hp.
  - apply trim_plain, clock_all; easy || apply Hp.
Qed.

Lemma parse_time_text negative h mi s ds :
  0 <= h <= 838 -> 0 <= mi <= 59 -> 0 <= s <= 59 -> all_digits ds = true -> len ds <= 6 ->
  parse_time_micros (time_text negative h mi s ds) =
    Some (signed_value negative (clock_seconds h mi s * 1000000 + tail_micros ds)).
Proof.
  intros Hh Hm Hs Hf Hl. unfold parse_time_micros.
  rewrite trim_plain by (apply time_text_all; try easy || lia; intros b Hb%digit_bounds; unfold plain, byte_in; zcases; easy || lia).
  rewrite time_text_not_datetime by (auto; lia).
  destruct (time_text_parts negative h mi s ds) as (-> & -> & -> & T1 & T2); [lia..|easy|].
  rewrite Hf, T2, T1. cbn [negb mbind option_bind]. rewrite clock_colons by lia.
  destruct (padded_digits 2 h) as (Dh & Vh & Lh); [lia|]. destruct (padded_digits 2 mi) as (Dm & Vm & Lm); [lia|].
  destruct (padded_digits 2 s) as (Ds & Vs & Ls); [lia|].
  rewrite !parse_i64_digits by (auto; lia). cbn [mbind option_bind]. rewrite Vh, Vm, Vs. unfold in_range.
  zcases; try lia. cbn [andb negb orb]. rewrite fraction_micros_digits by easy. cbn [mbind option_bind].
  pose proof (tail_micros_range ds Hf Hl).
  assert (C : forall z, 0 <= z <= 10 ^ 13 -> checked_i64 z = Some z).
  { intros z Hz. unfold checked_i64. destruct (is_i64 z) eqn:E; [easy|exfalso]. unfold is_i64, in_signed in E.
    apply andb_false_iff in E. rewrite Z.leb_gt, Z.ltb_ge in E. lia. }
  unfold clock_seconds. repeat (rewrite C by lia; cbn [mbind option_bind]). unfold signed_value. destruct negative; f_equal; lia.
Qed.

Lemma format_time_parse (micros fsp : Z) :
  0 <= fsp ->
  let shown := Z.min (Z.abs micros) MAX_TIME_MICROS in
  parse_time_micros (format_time_micros micros fsp) =
    Some (Z.sgn micros * (shown - shown mod 10 ^ (6 - Z.min fsp 6))).
Proof.
  intros Hf shown. unfold format_time_micros.
  assert (E : (if (838 * 3600 + 59 * 60 + 59) * 1000000 <? Z.abs micros then (838 * 3600 + 59 * 60 + 59, 0)
               else (Z.abs micros / 1000000, Z.abs micros mod 1000000)) = (shown / 1000000, shown mod 1000000)).
  { subst shown. unfold MAX_TIME_MICROS. destruct (Z.ltb_spec ((838 * 3600 + 59 * 60 + 59) * 1000000) (Z.abs micros));
      [rewrite Z.min_r by lia; reflexivity|now rewrite Z.min_l by lia]. }
  rewrite E. assert (Hs : 0 <= shown <= MAX_TIME_MICROS) by (subst shown; unfold MAX_TIME_MICROS; lia).
  unfold MAX_TIME_MICROS in Hs. set (fsp' := Z.min fsp 6). assert (Hf' : 0 <= fsp' <= 6) by (subst fsp'; lia). clearbody fsp'.
  set (sec := shown / 1000000). assert (Hsec : 0 <= sec <= 3020399) by (subst sec; Z.div_mod_to_equations; lia).
  set (sub := shown mod 1000000). assert (Hsub : 0 <= sub < 1000000) by (apply Z.mod_pos_bound; lia).
  assert (Esh : shown = sec * 1000000 + sub) by (subst sec sub; pose proof (Z.div_mod shown 1000000); lia).
  assert (Hsg : forall z, signed_value (micros <? 0) z = Z.sgn micros * z \/ micros = 0).
  { intros z. unfold signed_value. destruct (Z.sgn_spec micros) as [[? ->]|[[? ->]|[? ->]]]; zcases; lia. }
  assert (G : forall ds, all_digits ds = true -> len ds <= 6 -> tail_micros ds = sub - sub mod 10 ^ (6 - fsp') ->
    parse_time_micros (time_text (micros <? 0) (sec / 3600) (sec / 60 mod 60) (sec mod 60) ds) =
    Some (Z.sgn micros * (shown - shown mod 10 ^ (6 - fsp')))).
  { intros ds Hd Hl Ht. rewrite parse_time_text by (auto; Z.div_mod_to_equations; lia). f_equal.
    rewrite Ht, Esh, mod_unit by lia. replace (clock_seconds _ _ _) with sec by (unfold clock_seconds; Z.div_mod_to_equations; lia).
    destruct (Hsg (sec * 1000000 + (sub - sub mod 10 ^ (6 - fsp')))) as [->|E0]; [f_equal; lia|].
    subst micros. assert (sec = 0 /\ sub = 0) as [-> ->] by (subst shown; cbn in Esh; lia). cbn [Z.sgn Z.mul].
    rewrite Z.mod_0_l by (apply Z.pow_nonzero; lia). easy. }
  clearbody sec sub. unfold time_text, sign_text in G. destruct (Z.eqb_spec fsp' 0) as [Ez|Ez].
  - specialize (G []). cbn [fraction_tail] in G. rewrite app_nil_r in G. apply G; [easy..|]. subst fsp'.
    change (10 ^ (6 - 0)) with 1000000. rewrite Z.mod_small by lia. change (tail_micros []) with 0. lia.
  - destruct (fraction_digits sub fsp') as (F1 & F2 & F3); [lia..|]. specialize (G _ F1 ltac:(lia) F3).
    rewrite <- G. f_equal. rewrite <- app_assoc. do 2 f_equal. destruct (dec_padded fsp' _) as [|b r] eqn:Eb; [|easy].
    change (len []) with 0 in F2. lia.
Qed.

(** Time text round trip: a time printed at a precision is parsed back as the time clamped to
    838:59:59 and truncated to the printed fraction digits, with its sign. *)
Theorem time_text_roundtrip (micros fsp : Z) :
  0 <= fsp ->
  let shown := Z.min (Z.abs micros) MAX_TIME_MICROS in
  parse_time_micros (format_time_micros micros fsp) =
    Some (Z.sgn micros * (shown - shown mod 10 ^ (6 - Z.min fsp 6))).
Proof. apply format_time_parse. Qed.

Lemma time_text_roundtrip_witness :
  parse_time_micros (format_time_micros (-4000000123456) 3) =
    Some (Z.sgn (-4000000123456) * (MAX_TIME_MICROS - MAX_TIME_MICROS mod 10 ^ (6 - Z.min 3 6))).
Proof. apply (time_text_roundtrip (-4000000123456) 3). vm_compute. congruence. Defined.

(** ** Durations *)

Lemma number_loop_spec bs acc v n :
  0 <= acc -> number_loop acc bs = Some (v, n) -> 0 <= v /\ (n <= length bs)%nat.
Proof.
  revert acc v n; induction bs as [|b bs IH]; intros acc v n H0; cbn [number_loop length].
  { intros [= <- <-]. lia. }
  destruct (is_digit b) eqn:Hb; [|intros [= <- <-]; lia]. apply is_digit_spec in Hb. intros H.
  destruct (in_unsigned 64 (acc * 10)); cbn [mbind option_bind] in H; [|easy].
  unfold checked_add in H. destruct (_ <? _); cbn [mbind option_bind] in H; [|easy].
  destruct (number_loop _ bs) as [[v' n']|] eqn:E; cbn [mbind option_bind] in H; [|easy].
  injection H as <- <-. apply IH in E; lia.
Qed.

Lemma number_spec bs p v q :
  (p <= length bs)%nat -> number bs p = Some (v, q) -> 0 <= v < 2 ^ 32 /\ (p <= q <= length bs)%nat.
Proof.
  unfold number. destruct (number_loop 0 (drop p bs)) as [[v' n]|] eqn:E; cbn [mbind option_bind]; [|easy].
  destruct (is_u32 v') eqn:Hu; [|easy]. intros Hp [= <- <-]. apply number_loop_spec in E as [_ En]; [|lia].
  rewrite length_drop in En. unfold is_u32, in_unsigned in Hu. apply andb_prop in Hu as [?%Z.leb_le ?%Z.ltb_lt]. lia.
Qed.

Lemma count_while_le p bs : (count_while p bs <= length bs)%nat /\ forallb p (take (count_while p bs) bs) = true.
Proof.
  induction bs as [|b bs [IH1 IH2]]; cbn [count_while length]; [easy|]. destruct (p b) eqn:E; [|split; [lia|easy]].
  split; [lia|]. cbn [take forallb]. now rewrite E.
Qed.

Definition fields_ok (fields : list Z) : Prop := Forall (fun z => 0 <= z < 2 ^ 32) fields.

Lemma field_ok fields i : fields_ok fields -> 0 <= field fields i < 2 ^ 32.
Proof.
  intros H. unfold field. destruct (nth_in_or_default i fields 0) as [Hin| ->]; [|lia].
  exact (proj1 (List.Forall_forall _ _) H _ Hin).
Qed.

Lemma is_at_length (bs : list byte) i : is_digit_at bs i = true -> (i < length bs)%nat.
Proof. unfold is_digit_at. destruct (bs !! i) eqn:E; [|easy]. intros _. now apply lookup_lt_Some in E. Qed.

Lemma is_byte_at_length c (bs : list byte) i : is_byte_at c bs i = true -> (i < length bs)%nat.
Proof. unfold is_byte_at. destruct (bs !! i) eqn:E; [|easy]. intros _. now apply lookup_lt_Some in E. Qed.

Lemma duration_fields_spec fuel bs fields next p fields' p' :
  fields_ok fields -> (p <= length bs)%nat -> duration_fields fuel bs fields next p = Some (fields', p') ->
  fields_ok fields' /\ (p <= p' <= length bs)%nat.
Proof.
  revert fields next p; induction fuel as [|fuel IH]; intros fields next p Hf Hp; cbn [duration_fields].
  { intros [= <- <-]. split; [easy|lia]. }
  destruct (next <? 4)%nat; [|intros [= <- <-]; split; [easy|lia]].
  destruct (number bs p) as [[v q]|] eqn:E; cbn [mbind option_bind]; [|easy]. apply number_spec in E as [Hv Hq]; [|easy].
  assert (Hf' : fields_ok (set_field fields next v)) by (apply Forall_insert; easy).
  destruct (_ || negb (is_digit_at bs (S q))) eqn:Eg; [intros [= <- <-]; split; [easy|lia]|].
  apply orb_false_iff in Eg as [_ Eg%negb_false_iff%is_at_length]. intros [G1 G2]%IH; [|easy|lia]. split; [easy|lia].
Qed.

Lemma duration_first_spec bs v e p fields next q :
  0 <= v < 2 ^ 32 -> (e <= p <= length bs)%nat -> duration_first bs v e p = (fields, next, q) ->
  fields_ok fields /\ (e <= q <= length bs)%nat.
Proof.
  intros Hv Hp. unfold duration_first.
  assert (v / 10000 <= v /\ 0 <= v / 10000 /\ 0 <= v / 100 mod 100 < 100 /\ 0 <= v mod 100 < 100) by (Z.div_mod_to_equations; lia).
  destruct (_ && is_digit_at bs p); [intros [= <- <- <-]; split; [|lia]; repeat constructor; lia|].
  destruct (_ && is_digit_at bs (S p)) eqn:E; intros [= <- <- <-].
  - apply andb_prop in E as [_ E%is_at_length]. split; [|lia]. repeat constructor; lia.
  - split; [|lia]. repeat constructor; lia.
Qed.

Lemma duration_fraction_spec bs p f q :
  (p <= length bs)%nat -> duration_fraction bs p = (f, q) -> all_digits f = true /\ (p <= q <= length bs)%nat.
Proof.
  intros Hp. unfold duration_fraction. destruct (_ && is_digit_at bs (S p)) eqn:E.
  - intros [= <- <-]. destruct (count_while_le is_digit (drop (S p) bs)) as [C1 C2]. rewrite length_drop in C1.
    apply andb_prop in E as [_ E%is_at_length]. split; [exact C2|lia].
  - destruct (_ && is_byte_at dot_byte bs p) eqn:E2; intros [= <- <-]; [|split; [easy|lia]].
    apply andb_prop in E2 as [_ E2%is_byte_at_length]. split; [easy|lia].
Qed.

Lemma read_duration_bounds bs d :
  read_duration_text bs = Some d ->
  0 <= du_hours d <= 25 * (2 ^ 32 - 1) /\ 0 <= du_minutes d <= 59 /\ 0 <= du_seconds d <= 59 /\
  all_digits (du_fraction d) = true /\ (0 < du_read d <= length bs)%nat.
Proof.
  unfold read_duration_text. destruct (number bs 0) as [[v e]|] eqn:En; cbn [mbind option_bind]; [|easy].
  apply number_spec in En as [Hv He]; [|lia]. destruct (count_while_le is_ascii_white (drop e bs)) as [Hw _].
  rewrite length_drop in Hw. destruct (duration_first _ _ _ _) as [[fields next] p] eqn:Ef.
  apply duration_first_spec in Ef as [Hf Hp]; [|easy|lia].
  destruct (duration_fields _ _ _ _ _) as [[fields' p']|] eqn:Ed; cbn [mbind option_bind]; [|easy].
  apply duration_fields_spec in Ed as [Hf' Hp']; [|easy|lia].
  destruct (duration_fraction bs p') as [f q] eqn:Er. apply duration_fraction_spec in Er as [Hd Hq]; [|lia].
  destruct (exponent_at bs q || _ || _ || _) eqn:Eg; [easy|]. intros [= <-]. cbn [du_hours du_minutes du_seconds du_fraction du_read].
  apply orb_false_iff in Eg as [[[_ Eq%Nat.eqb_neq]%orb_false_iff Em%Z.ltb_ge]%orb_false_iff Es%Z.ltb_ge].
  pose proof (field_ok _ 0 Hf'). pose proof (field_ok _ 1 Hf'). pose proof (field_ok _ 2 Hf'). pose proof (field_ok _ 3 Hf').
  split_and!; try lia. easy.
Qed.

(** A text that is exactly a time is printed without clamping. *)
Lemma exact_time_in_range text t :
  exact_time_text text = Some t -> exists m, Z.abs m <= MAX_TIME_MICROS /\ t = format_time_micros m 6.
Proof.
  unfold exact_time_text. destruct (match strip_byte _ _ with Some r => _ | None => _ end) as [negative body].
  destruct (if 12 <=? _ then _ else _) as [calendar|].
  - destruct (_ && _); [intros [= <-]; exists 0; now unfold MAX_TIME_MICROS|].
    destruct (parse_datetime_lenient_micros calendar) as [m|]; cbn [mbind option_bind]; [|easy]. intros [= <-].
    exists (m mod DAY_MICROS). split; [|easy]. unfold MAX_TIME_MICROS, DAY_MICROS. pose proof (Z.mod_pos_bound m (86400 * 1000000)). lia.
  - unfold duration_time_text. destruct (read_duration_text body) as [d|] eqn:Ed; cbn [mbind option_bind]; [|easy].
    apply read_duration_bounds in Ed as (Hh & Hm & Hs & Hf & _). destruct (negb _); [easy|].
    intros H. bind_inv H. bind_inv H. bind_inv H. bind_inv H. bind_inv H. bind_inv H.
    destruct (Z.leb_spec z4 MAX_TIME_MICROS); [|easy]. injection H as <-.
    exists (if negative then - z4 else z4). split; [|easy]. assert (0 <= z4); [|destruct negative; lia].
    apply checked_i64_inv in E2 as ->, E3 as ->, E4 as ->. revert E0 E1. unfold checked_add.
    destruct (in_unsigned _ _); [|easy]. intros [= <-]. destruct (_ <? _); [|easy]. intros [= <-].
    assert (0 <= z).
    { revert E. unfold fraction_micros. destruct (take 6 (du_fraction d)) as [|b r] eqn:Et; [intros [= <-]; lia|].
      destruct (all_digits (b :: r)) eqn:Ea; [|easy]. cbn [negb]. intros [= <-].
      assert (Ht : all_digits (take 6 (b :: r)) = true).
      { unfold all_digits in *. rewrite forallb_forall in *. intros x Hx. apply Ea. rewrite <- (take_drop 6 (b :: r)), in_app_iff. now left. }
      pose proof (digits_value_range _ Ht). apply Z.mul_nonneg_nonneg; [easy|apply Z.pow_nonneg; lia]. }
    destruct (du_fraction d !! 6%nat); [destruct (_ <=? _)|]; lia.
Qed.

(** Durations are read safely and exact times are exact.  A duration read from any text has
    minutes and seconds below 60, hours that cannot overflow 64 bits, a fraction of digits,
    and ends inside the text.  A text constant taken as exactly a time is printed within the
    type's range, so the printed time is parsed back as the same time. *)
Theorem exact_time_is_exact (text : list byte) :
  match read_duration_text text with
  | None => True
  | Some d => 0 <= du_hours d <= 25 * (2 ^ 32 - 1) /\ 0 <= du_minutes d <= 59 /\ 0 <= du_seconds d <= 59 /\
      all_digits (du_fraction d) = true /\ (0 < du_read d <= length text)%nat
  end /\
  match exact_time_text text with
  | None => True
  | Some t => exists m, Z.abs m <= MAX_TIME_MICROS /\ t = format_time_micros m 6 /\ parse_time_micros t = Some m
  end.
Proof.
  split; [destruct (read_duration_text text) eqn:E; [now apply read_duration_bounds|easy]|].
  destruct (exact_time_text text) as [t|] eqn:E; [|easy]. apply exact_time_in_range in E as (m & Hm & ->).
  exists m. split; [easy|]. split; [easy|]. rewrite format_time_parse by lia. f_equal.
  rewrite Z.min_l by easy. change (10 ^ (6 - Z.min 6 6)) with 1. rewrite Z.mod_1_r.
  destruct (Z.sgn_spec m) as [[? ->]|[[? ->]|[? ->]]]; lia.
Qed.

(** A second sign is accepted: [--5:00:00] is read as five hours, and [-+5:00:00] as minus five,
    although the parser's documentation admits one optional minus sign and nothing else. *)
Theorem second_sign_accepted :
  parse_time_micros (minus_byte :: minus_byte :: time_text false 5 0 0 []) = Some (5 * 3600 * 1000000) /\
  parse_time_micros (minus_byte :: plus_byte :: time_text false 5 0 0 []) = Some (- (5 * 3600 * 1000000)).
Proof. split; vm_compute; reflexivity. Qed.
