(* ===== verification/Segment.v ===== *)
(** * Segment statistics ([src/crates/pintail-store/src/segment/mod.rs])

    What a segment's metadata says of its rows: the native units of a text column, the
    bloom filter of its keys, and the small aggregates used to skip whole segments.  The
    block encodings of the file itself are not modelled; a segment is its metadata and
    its rows. *)

From Stdlib Require Import ZArith Lia String Sorted Floats.SpecFloat.
From stdpp Require Import prelude list.
From coqutil Require Import Byte.
From S2P Require Import Prelude.
From S2P Require Import Types.
From S2P Require Import Codec.
From S2P Require Import Wal.
From S2P Require Import Manifest.
From S2P Require Import Text.
From S2P Require Import Canonical.

#[local] Open Scope Z_scope.

(** ** Native units *)

(** Digits without a leading zero, or the single digit zero. *)
Definition integer_is_canonical (integer : list byte) : bool :=
  match integer with
  | [] => false
  | b :: _ => all_digits integer && ((len integer =? 1) || negb (byte_eqb b zero_byte))
  end.

Definition decimal_text_is_canonical (bytes : list byte) (scale : Z) : bool :=
  let digits := match strip_byte minus_byte bytes with Some r => r | None => bytes end in
  if scale =? 0 then integer_is_canonical digits
  else
    let split := len digits - (scale + 1) in
    if split <? 0 then false
    else
      let split := Z.to_nat split in
      byte_eqb (byte_at digits split) dot_byte && all_digits (drop (S split) digits)
      && integer_is_canonical (take split digits).

(** [i64::try_from]. *)
Definition try_i64 (z : Z) : option Z := checked_i64 z.

Definition parse_exact (units : NativeUnits) (text : list byte) : option Z :=
  match units with
  | NDate => parse_date_days text
  | NDateTime fsp =>
      if 6 <? fsp then None
      else if negb (len text =? (if fsp =? 0 then 19 else 20 + fsp)) then None
      else parse_datetime_micros text
  | NDecimal scale =>
      if negb (decimal_text_is_canonical text scale) then None
      else
        scaled ← parse_decimal_scaled text scale;
        if (scaled =? 0) && match strip_byte minus_byte text with Some _ => true | None => false end
        then None
        else try_i64 scaled
  end.

Definition units_format (units : NativeUnits) (v : Z) : option (list byte) :=
  match units with
  | NDate => format_date_units v
  | NDateTime fsp => format_datetime_units v fsp
  | NDecimal scale => Some (format_decimal_scaled v scale)
  end.

Definition parse_units (units : NativeUnits) (text : list byte) : option Z :=
  match parse_exact units text with
  | Some v => Some v
  | None =>
      match units with
      | NDate => if bool_decide (text = zero_date_text) then Some ZERO_DATE_DAYS else None
      | NDateTime _ =>
          if bool_decide (units_format units ZERO_DATETIME_MICROS = Some text)
          then Some ZERO_DATETIME_MICROS else None
      | NDecimal _ => None
      end
  end.

(** The definition [parse_exact] is meant to agree with. *)
Definition parse_round_trip (units : NativeUnits) (text : list byte) : option Z :=
  match units with
  | NDate =>
      days ← parse_date_days text;
      if bool_decide (format_date_days days = Some text) then Some days else None
  | NDateTime fsp =>
      micros ← parse_datetime_micros text;
      if bool_decide (format_datetime_micros micros fsp = Some text) then Some micros else None
  | NDecimal scale =>
      scaled ← parse_decimal_scaled text scale;
      scaled ← try_i64 scaled;
      if bool_decide (format_decimal_scaled scaled scale = text) then Some scaled else None
  end.

(** The format this build writes is 8, which stores the zero date's unit as well. *)
Definition stored_units (units : NativeUnits) (text : list byte) : option Z := parse_units units text.

(** The units of every row of a column, or [None] when one does not have them. *)
Fixpoint probe_native_column (units : NativeUnits) (rows : list StoredRow) (value_index : nat)
    : option (list (option Z)) :=
  match rows with
  | [] => Some []
  | row :: rows =>
      unit ← match row_values row !! value_index with
             | Some VNull => Some None
             | Some (VUtf8 text) => v ← stored_units units text; Some (Some v)
             | _ => None
             end;
      rest ← probe_native_column units rows value_index;
      Some (unit :: rest)
  end.

(** One stored value. *)
Inductive Cell : Type :=
| CNull
| CBoolean (b : bool)
| CInt64 (i : Z)
| CUInt64 (u : Z)
| CFloat64 (bits : Z)
| CUtf8 (s : str)
| CBinary (bs : list byte)
| CKey (k : PrimaryKey).

#[export] Instance cell_eq : EqDecision Cell.
Proof. solve_decision. Defined.

(** The units of one cell of a native column. *)
Definition unit_cell (unit : option Z) : Cell := match unit with Some v => CInt64 v | None => CNull end.

(** Unit cells back to text cells. *)
Definition format_native_cell (units : NativeUnits) (cell : Cell) : result StoreError Cell :=
  match cell with
  | CNull => Ok CNull
  | CInt64 v =>
      match units_format units v with
      | Some text => Ok (CUtf8 text)
      | None => Err (CorruptSegment 0 (msg "native units outside the canonical text range" []))
      end
  | _ => Err (CorruptSegment 0 (msg "native column holds a non-integer cell" []))
  end.

Definition format_native_cells (units : NativeUnits) (cells : list Cell) : result StoreError (list Cell) :=
  map_result (format_native_cell units) cells.

(** [Cell::into_value]; a key is never a user value. *)
Definition into_value (cell : Cell) : Value :=
  match cell with
  | CNull | CKey _ => VNull
  | CBoolean b => VBoolean b
  | CInt64 i => VInt64 i
  | CUInt64 u => VUInt64 u
  | CFloat64 bits => VFloat64 bits
  | CUtf8 s => VUtf8 s
  | CBinary bs => VBinary bs
  end.

(** ** The bloom filter *)

Section bloom.
Context `{Checksum}.

Definition BLOOM_BYTES : Z := 256.

Definition bloom_bit (bloom : list byte) (hash shift : Z) : Z := Z.shiftr hash shift mod (len bloom * 8).

(** [bloom[bit / 8] |= 1 << (bit % 8)]; the position is always inside. *)
Definition set_bloom_bit (bloom : list byte) (bit : Z) : list byte :=
  alter (fun b => byte.of_Z (Z.lor (byte.unsigned b) (Z.shiftl 1 (bit mod 8)))) (Z.to_nat (bit / 8)) bloom.

Definition bloom_shifts : list Z := [0; 21; 42].

Definition set_bloom_bits (bloom : list byte) (hash : Z) : list byte :=
  foldl (fun bloom shift => set_bloom_bit bloom (bloom_bit bloom hash shift)) bloom bloom_shifts.

(** The hash of a key's encoding. *)
Definition key_hash (key : PrimaryKey) : result StoreError Z :=
  e ← encode_key encoder_new key; Ok (xxh3_64 e).

Definition bloom_row (bloom : list byte) (row : StoredRow) : result StoreError (list byte) :=
  hash ← key_hash (row_key row); Ok (set_bloom_bits bloom hash).

Definition build_bloom (rows : list StoredRow) : result StoreError (list byte) :=
  fold_result bloom_row (replicate (Z.to_nat BLOOM_BYTES) Byte.x00) rows.

Definition bloom_has (bloom : list byte) (bit : Z) : bool :=
  match bloom !! Z.to_nat (bit / 8) with
  | Some b => negb (Z.land (byte.unsigned b) (Z.shiftl 1 (bit mod 8)) =? 0)
  | None => false
  end.

Definition bloom_might_contain (bloom : list byte) (hash : Z) : bool :=
  forallb (fun shift => bloom_has bloom (bloom_bit bloom hash shift)) bloom_shifts.

Definition might_contain_key (meta : SegmentFacts) (key : PrimaryKey) : result StoreError bool :=
  if oltb key (seg_min_key meta) || oltb (seg_max_key meta) key then Ok false
  else hash ← key_hash key; Ok (bloom_might_contain (seg_bloom meta) hash).

Definition overlaps_key_range (meta : SegmentFacts) (start stop : PrimaryKey) : bool :=
  oleb (seg_min_key meta) stop && oleb start (seg_max_key meta).

End bloom.

(** ** Small materialized aggregates *)

(** [f64] arithmetic on the stored bits. *)
Definition sf_of_bits (bits : Z) : spec_float :=
  let sign := Z.testbit bits 63 in
  let e := Z.shiftr bits 52 mod 2048 in
  let m := bits mod 2 ^ 52 in
  if e =? 0 then match m with Zpos p => S754_finite sign p (-1074) | _ => S754_zero sign end
  else if e =? 2047 then if m =? 0 then S754_infinity sign else S754_nan
  else match m + 2 ^ 52 with Zpos p => S754_finite sign p (e - 1075) | _ => S754_nan end.

(** [f64::to_bits], 64 bits. *)
Definition bits_of_sf (f : spec_float) : Z :=
  let sign (s : bool) := if s then 2 ^ 63 else 0 in
  match f with
  | S754_zero s => sign s
  | S754_infinity s => sign s + 2047 * 2 ^ 52
  | S754_nan => 2047 * 2 ^ 52 + 2 ^ 51
  | S754_finite s m e =>
      (if Zpos m <? 2 ^ 52 then sign s + Zpos m else sign s + (e + 1075) * 2 ^ 52 + (Zpos m - 2 ^ 52)) mod 2 ^ 64
  end.

Definition float_add (a b : Z) : Z := bits_of_sf (SFadd 53 1024 (sf_of_bits a) (sf_of_bits b)).
Definition float_finite (a : Z) : bool :=
  match sf_of_bits a with S754_infinity _ | S754_nan => false | _ => true end.

(** [f64::min] and [f64::max]: a number wins over NaN. *)
Definition float_is_nan (a : Z) : bool := match sf_of_bits a with S754_nan => true | _ => false end.
Definition float_min (a b : Z) : Z :=
  if float_is_nan a then b else if float_is_nan b then a
  else if SFltb (sf_of_bits b) (sf_of_bits a) then b else a.
Definition float_max (a b : Z) : Z :=
  if float_is_nan a then b else if float_is_nan b then a
  else if SFltb (sf_of_bits a) (sf_of_bits b) then b else a.

(** The running statistics of one column. *)
Record sma_state : Type := {
  sm_non_null : Z;
  sm_int_sum : option Z;
  sm_int_extremes : option (Z * Z);
  sm_float_sum : option Z;
  sm_float_extremes : option (Z * Z);
  sm_family : option Z;
  sm_supported : bool
}.

Definition sma_start : sma_state := {|
  sm_non_null := 0; sm_int_sum := Some 0; sm_int_extremes := None; sm_float_sum := Some 0;
  sm_float_extremes := None; sm_family := None; sm_supported := true
|}.

Definition decimal_scale (t : DataType) : option Z :=
  match t with DDecimal _ scale => Some scale | _ => None end.

Definition temporal_units (t : DataType) : option NativeUnits :=
  match t with DDate32 | DDateTime64 _ => for_data_type t | _ => None end.

(** The family of a value and its units, or its float. *)
Definition observe (t : DataType) (v : Value) : option (Z * Z * Z) :=
  match v, decimal_scale t, temporal_units t with
  | VUtf8 text, Some scale, _ => units ← parse_decimal_scaled text scale; Some (3, units, 0)
  | VUtf8 text, None, Some units => value ← parse_exact units text; Some (5, value, 0)
  | VInt64 value, None, None => Some (1, value, 0)
  | VUInt64 value, None, None => Some (2, value, 0)
  | VFloat64 value, None, None => Some (4, 0, value)
  | _, _, _ => None
  end.

Definition clear_supported (s : sma_state) (non_null : Z) (family : option Z) : sma_state := {|
  sm_non_null := non_null; sm_int_sum := sm_int_sum s; sm_int_extremes := sm_int_extremes s;
  sm_float_sum := sm_float_sum s; sm_float_extremes := sm_float_extremes s;
  sm_family := family; sm_supported := false
|}.

Definition widen (lo hi : Z -> Z -> Z) (range : option (Z * Z)) (v : Z) : option (Z * Z) :=
  match range with Some (min, max) => Some (lo min v, hi max v) | None => Some (v, v) end.

(** One live row's non-NULL value. *)
Definition sma_value (t : DataType) (s : sma_state) (v : Value) : sma_state :=
  let non_null := sm_non_null s + 1 in
  if negb (sm_supported s) then
    {| sm_non_null := non_null; sm_int_sum := sm_int_sum s; sm_int_extremes := sm_int_extremes s;
       sm_float_sum := sm_float_sum s; sm_float_extremes := sm_float_extremes s;
       sm_family := sm_family s; sm_supported := false |}
  else
    match observe t v with
    | None => clear_supported s non_null (sm_family s)
    | Some (kind, integer, float) =>
        let family := match sm_family s with Some f => f | None => kind end in
        if negb (family =? kind) then clear_supported s non_null (Some family)
        else if kind =? 4 then
          {| sm_non_null := non_null; sm_int_sum := sm_int_sum s; sm_int_extremes := sm_int_extremes s;
             sm_float_sum := (sum ← sm_float_sum s;
                              let sum := float_add sum float in if float_finite sum then Some sum else None);
             sm_float_extremes := widen float_min float_max (sm_float_extremes s) float;
             sm_family := Some family; sm_supported := true |}
        else
          {| sm_non_null := non_null;
             sm_int_sum := (sum ← sm_int_sum s; checked_i128 (sum + integer));
             sm_int_extremes := widen Z.min Z.max (sm_int_extremes s) integer;
             sm_float_sum := sm_float_sum s; sm_float_extremes := sm_float_extremes s;
             sm_family := Some family; sm_supported := true |}
    end.

(** One row; a deleted row and NULL leave the statistics as they are. *)
Definition sma_row (t : DataType) (index : nat) (s : sma_state) (row : StoredRow) : sma_state :=
  if row_deleted row then s
  else match row_values row !! index with
       | None | Some VNull => s
       | Some v => sma_value t s v
       end.

Definition sma_finish (t : DataType) (s : sma_state) : option SmaSum * option SmaExtremes :=
  if negb (sm_supported s) || (sm_non_null s =? 0) then (None, None)
  else
    match sm_family s with
    | Some 1 => (option_map SumInt (sm_int_sum s), option_map (fun '(lo, hi) => ExtInt lo hi) (sm_int_extremes s))
    | Some 2 => (option_map SumInt (sm_int_sum s), option_map (fun '(lo, hi) => ExtUInt lo hi) (sm_int_extremes s))
    | Some 3 =>
        match decimal_scale t with
        | Some scale => (option_map (fun u => SumDecimalUnits u scale) (sm_int_sum s),
                         option_map (fun '(lo, hi) => ExtDecimalUnits lo hi scale) (sm_int_extremes s))
        | None => (None, None)
        end
    | Some 4 => (option_map SumFloat (sm_float_sum s), option_map (fun '(lo, hi) => ExtFloat lo hi) (sm_float_extremes s))
    | Some 5 => (None, ext ← sm_int_extremes s; units ← temporal_units t; Some (ExtTemporal ext.1 ext.2 units))
    | _ => (None, None)
    end.

Definition column_sma (rows : list StoredRow) (sketches : Z -> option DistinctSketch) (index : nat) (c : Column)
    : ColumnSma :=
  let s := foldl (sma_row (col_data_type c) index) sma_start rows in
  let '(sum, extremes) := sma_finish (col_data_type c) s in
  {| sma_column_id := col_id c; sma_non_null := sm_non_null s; sma_sum := sum; sma_extremes := extremes;
     sma_distinct := sketches (col_id c) |}.

Definition compute_segment_smas (schema : TableSchema) (rows : list StoredRow)
    (sketches : Z -> option DistinctSketch) : SegmentSmas :=
  let tombstones := len (List.filter row_deleted rows) in
  {| smas_live_rows := len rows - tombstones; smas_tombstones := tombstones;
     smas_columns := imap (column_sma rows sketches) (schema_columns schema) |}.

(** ** Skipping segments *)

Inductive BoundDomain : Type := BInt | BUInt | BTemporal (units : NativeUnits).

#[export] Instance native_units_eq : EqDecision NativeUnits.
Proof. solve_decision. Defined.

Record ColumnBounds : Type := {
  cb_column_id : Z;
  cb_domain : BoundDomain;
  cb_lower : option Z;
  cb_upper : option Z
}.

Definition bound_range (domain : BoundDomain) (extremes : SmaExtremes) : option (Z * Z) :=
  match domain, extremes with
  | BInt, ExtInt min max => Some (min, max)
  | BUInt, ExtUInt min max => Some (min, max)
  | BTemporal units, ExtTemporal min max kind => if bool_decide (units = kind) then Some (min, max) else None
  | _, _ => None
  end.

(** Whether one bound excludes every live row. *)
Definition bound_excludes (smas : SegmentSmas) (bound : ColumnBounds) : bool :=
  match find (fun c => sma_column_id c =? cb_column_id bound) (smas_columns smas) with
  | None => false
  | Some column =>
      if (sma_non_null column =? 0) && (0 <? smas_live_rows smas) then true
      else
        match sma_extremes column with
        | None => false
        | Some extremes =>
            match bound_range (cb_domain bound) extremes with
            | None => false
            | Some (min, max) =>
                match cb_lower bound with Some lower => max <? lower | None => false end
                || match cb_upper bound with Some upper => upper <? min | None => false end
            end
        end
  end.

Definition sma_disjoint (meta : SegmentFacts) (bounds : list ColumnBounds) : bool :=
  match seg_smas meta with
  | None => false
  | Some smas => if 0 <? smas_tombstones smas then false else existsb (bound_excludes smas) bounds
  end.

(** ** The metadata of a written segment *)

Definition list_min (zs : list Z) : Z := match zs with [] => 0 | z :: zs => foldl Z.min z zs end.
Definition list_max (zs : list Z) : Z := match zs with [] => 0 | z :: zs => foldl Z.max z zs end.

(** "segment-" and ".ptseg" *)
Definition segment_prefix : list byte := map byte.of_Z [115; 101; 103; 109; 101; 110; 116; 45].
Definition segment_suffix : list byte := map byte.of_Z [46; 112; 116; 115; 101; 103].
Definition segment_file_name (id : Z) : list byte := segment_prefix ++ dec_padded 20 id ++ segment_suffix.

(** The metadata [write_columns] returns for non-empty rows. *)
Definition written_facts `{Checksum} (id : Z) (schema : TableSchema) (first : StoredRow) (rows : list StoredRow)
    (unique_keys : bool) (sketches : Z -> option DistinctSketch) (bloom : list byte) : SegmentFacts := {|
  seg_id := id; seg_file_name := segment_file_name id; seg_row_count := len rows;
  seg_min_version := list_min (map row_version rows);
  seg_max_version := list_max (map row_version rows);
  seg_schema_fingerprint := schema_fingerprint schema;
  seg_min_key := row_key first; seg_max_key := row_key (List.last rows first);
  seg_bloom := bloom; seg_unique_keys := unique_keys;
  seg_smas := Some (compute_segment_smas schema rows sketches)
|}.

(** The registers the blocks of a column's values end with ([write_column]): the block
    encodings are not modelled, so they are a parameter, of the fixed number of registers. *)
Class BlockSketches : Type := {
  sketches_of : TableSchema -> list StoredRow -> Z -> option DistinctSketch;
  sketches_wf : forall schema rows id, sketch_wf (sketches_of schema rows id) = true
}.

(** [usize::div_ceil]. *)
Definition div_ceil (a b : Z) : Z := (a + b - 1) / b.

(** The lengths the header and the columns record in 32 bits: the columns, three of them the
    system's, the block target, and the blocks of a column. *)
Definition check_lengths (schema : TableSchema) (rows : list StoredRow) (block_rows : Z) : result StoreError unit :=
  if u32_max <? len (schema_columns schema) + 3 then Err (FormatLimit (msg "segment column count exceeds u32::MAX" []))
  else if u32_max <? block_rows then Err (FormatLimit (msg "segment block row target exceeds u32::MAX" []))
  else if u32_max <? div_ceil (len rows) block_rows then Err (FormatLimit (msg "column block count exceeds u32::MAX" []))
  else Ok tt.

(** The checks and the metadata of [write_columns]. *)
Definition segment_facts `{Checksum} `{BlockSketches} (id : Z) (schema : TableSchema) (rows : list StoredRow)
    (block_rows : Z) (unique_keys : bool) : result StoreError SegmentFacts :=
  match rows with
  | [] => Err (FormatLimit (msg "cannot write an empty segment" []))
  | first :: _ =>
      if block_rows =? 0 then Err (FormatLimit (msg "segment block row target must be non-zero" []))
      else
        bloom ← build_bloom rows;
        _ ← check_lengths schema rows block_rows;
        Ok (written_facts id schema first rows unique_keys (sketches_of schema rows) bloom)
  end.

Lemma segment_facts_inv `{Checksum} `{BlockSketches} id schema rows block_rows unique meta :
  segment_facts id schema rows block_rows unique = Ok meta ->
  exists first rest bloom, rows = first :: rest /\ build_bloom rows = Ok bloom /\
    meta = written_facts id schema first rows unique (sketches_of schema rows) bloom.
Proof.
  unfold segment_facts. destruct rows as [|first rest]; [easy|]. destruct (block_rows =? 0); [easy|].
  unfold mbind, result_bind. destruct (build_bloom (first :: rest)) as [bloom|] eqn:E; [|easy].
  destruct (check_lengths _ _ _); [|easy]. intros [= <-]. eauto 6.
Qed.

(** ** Native units are exact *)

Lemma leading_zero b r : byte_eqb b zero_byte = true -> digits_value (b :: r) = digits_value r.
Proof. intros ->%byte_eqb_spec. rewrite digits_value_cons. change (digit_of zero_byte) with 0. lia. Qed.

Lemma integer_is_canonical_spec ip :
  integer_is_canonical ip = true <->
  all_digits ip = true /\ 1 <= len ip /\ (1 < len ip -> 10 ^ (len ip - 1) <= digits_value ip).
Proof.
  unfold integer_is_canonical. destruct ip as [|b r]; [change (len []) with 0; split; [easy|lia]|].
  rewrite andb_true_iff, orb_true_iff, negb_true_iff, Z.eqb_eq, len_cons. pose proof (len_nonneg r).
  replace (1 + len r - 1) with (len r) by lia. assert (0 < 10 ^ len r) by (apply Z.pow_pos_nonneg; lia).
  split.
  - intros [Hd Hz]. split; [easy|]. split; [lia|]. intros Hl. destruct Hz as [|Hz]; [lia|].
    cbn [all_digits forallb] in Hd. apply andb_prop in Hd as [Hb Hr]. pose proof (digits_value_range r Hr).
    rewrite digits_value_cons. assert (1 <= digit_of b); [|nia].
    apply is_digit_spec in Hb. destruct (Z.eq_dec (digit_of b) 0) as [E|]; [|lia].
    exfalso. unfold byte_eqb in Hz. apply Z.eqb_neq in Hz. unfold digit_of in E. apply Hz.
    change (byte.unsigned zero_byte) with 48. lia.
  - intros (Hd & _ & Hl). split; [easy|]. destruct (Z.eq_dec (len r) 0); [left; lia|right].
    destruct (byte_eqb b zero_byte) eqn:Hz; [exfalso|easy]. specialize (Hl ltac:(lia)).
    rewrite leading_zero in Hl by easy. cbn [all_digits forallb] in Hd. apply andb_prop in Hd as [_ Hr].
    pose proof (digits_value_range r Hr). lia.
Qed.

Lemma dec_text_canonical z : 0 <= z -> integer_is_canonical (dec_text z) = true.
Proof.
  intros Hz. apply integer_is_canonical_spec. destruct (dec_text_spec z Hz) as (G1 & G2 & G3 & G4 & G5).
  split; [easy|]. split; [easy|]. intros Hl. destruct (Z.eq_dec z 0); [rewrite G4 in Hl; lia|]. rewrite G2. apply G5. lia.
Qed.

Lemma canonical_dec_text ip : integer_is_canonical ip = true -> dec_text (digits_value ip) = ip.
Proof.
  intros (Hd & Hl & Hp)%integer_is_canonical_spec. pose proof (digits_value_range ip Hd) as Hr.
  destruct (dec_text_spec (digits_value ip) ltac:(lia)) as (G1 & G2 & G3 & G4 & G5).
  apply digits_value_inj; try easy. destruct (Z.eq_dec (digits_value ip) 0) as [E|E].
  - rewrite (G4 E). destruct (Z.eq_dec (len ip) 1); [easy|]. specialize (Hp ltac:(lia)).
    assert (0 < 10 ^ (len ip - 1)) by (apply Z.pow_pos_nonneg; lia). lia.
  - destruct (G5 ltac:(lia)) as [G6 G7]. assert (Hp' : 10 ^ (len ip - 1) <= digits_value ip).
    { destruct (Z.eq_dec (len ip) 1) as [El|]; [rewrite El; change (10 ^ (1 - 1)) with 1; lia|apply Hp; lia]. }
    destruct (Z.lt_trichotomy (len (dec_text (digits_value ip))) (len ip)) as [H|[H|H]]; [exfalso|easy|exfalso].
    + assert (10 ^ len (dec_text (digits_value ip)) <= 10 ^ (len ip - 1)) by (apply Z.pow_le_mono_r; lia). lia.
    + assert (10 ^ len ip <= 10 ^ (len (dec_text (digits_value ip)) - 1)) by (apply Z.pow_le_mono_r; lia). lia.
Qed.

(** The fixed-scale text with these parts. *)
Definition decimal_text (negative : bool) (ip fp : list byte) (scale : Z) : list byte :=
  sign_text negative ++ ip ++ (if scale =? 0 then [] else dot_byte :: fp).

Lemma strip_sign negative ip rest :
  integer_is_canonical ip = true ->
  strip_byte minus_byte (sign_text negative ++ ip ++ rest) = if negative then Some (ip ++ rest) else None.
Proof.
  intros (Hd & Hl & _)%integer_is_canonical_spec. destruct negative; [reflexivity|]. destruct ip as [|b r]; [easy|].
  cbn [all_digits forallb] in Hd. apply andb_prop in Hd as [Hb%digit_bounds _]. cbn [sign_text app strip_byte].
  unfold byte_eqb. change (byte.unsigned minus_byte) with 45. destruct (Z.eqb_spec (byte.unsigned b) 45); [lia|easy].
Qed.

Lemma decimal_canonical_text negative ip fp scale :
  integer_is_canonical ip = true -> all_digits fp = true -> len fp = scale ->
  decimal_text_is_canonical (decimal_text negative ip fp scale) scale = true.
Proof.
  intros Hi Hf Hl. unfold decimal_text_is_canonical, decimal_text. rewrite strip_sign by easy.
  assert (E : match (if negative then Some (ip ++ (if scale =? 0 then [] else dot_byte :: fp)) else None) with
    | Some r => r | None => sign_text negative ++ ip ++ (if scale =? 0 then [] else dot_byte :: fp) end
    = ip ++ (if scale =? 0 then [] else dot_byte :: fp)) by (destruct negative; reflexivity).
  rewrite E. destruct (Z.eqb_spec scale 0); [now rewrite app_nil_r|].
  rewrite len_app, len_cons, Hl. replace (len ip + (1 + scale) - (scale + 1)) with (len ip) by lia.
  pose proof (len_nonneg ip). destruct (Z.ltb_spec (len ip) 0); [lia|].
  unfold len. rewrite Nat2Z.id. rewrite (byte_at_app ip _ (length ip) 0) by lia.
  rewrite drop_app_ge by lia. replace (S (length ip) - length ip)%nat with 1%nat by lia.
  rewrite take_app_le, take_ge by lia. unfold byte_at. cbn [nth].
  change (drop 1 (dot_byte :: fp)) with fp. now rewrite byte_eqb_refl, Hf, Hi.
Qed.

Lemma decimal_canonical_inv text scale :
  0 <= scale -> decimal_text_is_canonical text scale = true ->
  exists negative ip fp, integer_is_canonical ip = true /\ all_digits fp = true /\ len fp = scale /\
    text = decimal_text negative ip fp scale.
Proof.
  intros Hs. unfold decimal_text_is_canonical.
  assert (Hx : exists negative, text = sign_text negative ++ match strip_byte minus_byte text with Some r => r | None => text end).
  { destruct text as [|b r]; [now exists false|]. cbn [strip_byte]. destruct (byte_eqb b minus_byte) eqn:E;
      [apply byte_eqb_spec in E as ->; now exists true|now exists false]. }
  destruct Hx as [negative Hx]. set (digits := match strip_byte minus_byte text with Some r => r | None => text end) in *.
  clearbody digits. subst text. unfold decimal_text. destruct (Z.eqb_spec scale 0) as [E0|_].
  { intros Hc. exists negative, digits, []. now rewrite app_nil_r, E0. }
  destruct (Z.ltb_spec (len digits - (scale + 1)) 0); [easy|].
  set (n := Z.to_nat (len digits - (scale + 1))). intros [[Hb%byte_eqb_spec Hf]%andb_prop Hi]%andb_prop.
  exists negative, (take n digits), (drop (S n) digits). split; [easy|]. split; [easy|]. unfold len in *.
  split; [rewrite length_drop; lia|]. f_equal. rewrite <- (take_drop n digits) at 1. f_equal.
  unfold byte_at in Hb. assert (Hn : (n < length digits)%nat) by lia. apply lookup_lt_is_Some in Hn as [b Hb'].
  rewrite (drop_S digits b n Hb'). f_equal. rewrite <- Hb. symmetry. now apply nth_lookup_Some.
Qed.

Lemma format_decimal_fixed negative ip fp scale :
  integer_is_canonical ip = true -> all_digits fp = true -> len fp = scale ->
  let v := digits_value ip * 10 ^ scale + digits_value fp in
  (v = 0 -> negative = false) ->
  format_decimal_scaled (signed_value negative v) scale = decimal_text negative ip fp scale.
Proof.
  intros Hi Hf Hl v Hv. pose proof (proj1 (integer_is_canonical_spec ip) Hi) as (Hid & Hil & _).
  pose proof (digits_value_range ip Hid). pose proof (digits_value_range fp Hf) as Rf. rewrite Hl in Rf.
  assert (0 < 10 ^ scale) by lia. assert (0 <= v) by (subst v; nia).
  assert (Es : (signed_value negative v <? 0) = negative).
  { unfold signed_value. destruct negative; [|destruct (Z.ltb_spec v 0); [lia|easy]].
    destruct (Z.ltb_spec (- v) 0); [easy|]. symmetry. apply Hv. lia. }
  assert (Ea : Z.abs (signed_value negative v) = v) by (unfold signed_value; destruct negative; lia).
  unfold format_decimal_scaled, signed_text, decimal_text. rewrite Es, Ea.
  change (if negative then [minus_byte] else []) with (sign_text negative). destruct (Z.eqb_spec scale 0) as [E0|E0].
  - destruct fp; [|len_lia]. subst v. rewrite E0. change (digits_value []) with 0.
    rewrite Z.mul_1_r, Z.add_0_r, canonical_dec_text, app_nil_r by easy. easy.
  - f_equal. subst v. rewrite Z.add_comm, Z.div_add, Z.mod_add, Z.div_small, Z.mod_small by lia.
    rewrite Z.add_0_l, canonical_dec_text by easy. do 2 f_equal. rewrite <- Hl. apply dec_padded_digits; [easy|].
    pose proof (len_nonneg fp). lia.
Qed.

(** The native units a valid column type has. *)
Definition units_ok (units : NativeUnits) : Prop :=
  match units with NDate => True | NDateTime fsp => 0 <= fsp | NDecimal scale => 0 <= scale <= 38 end.

Lemma for_data_type_ok t units :
  is_valid t = true -> DataType_wf t = true -> for_data_type t = Some units -> units_ok units.
Proof.
  unfold is_valid, DataType_wf, for_data_type, is_u8, in_unsigned. intros Hv Hw Hf.
  destruct t; try discriminate Hf.
  - destruct (_ <=? 18); [|discriminate Hf]. injection Hf as <-. cbn [units_ok]. zbool. lia.
  - injection Hf as <-. exact I.
  - injection Hf as <-. cbn [units_ok]. zbool. lia.
Qed.

Lemma format_decimal_canonical v scale :
  0 <= scale ->
  exists ip fp, integer_is_canonical ip = true /\ all_digits fp = true /\ len fp = scale /\
    format_decimal_scaled v scale = decimal_text (v <? 0) ip fp scale.
Proof.
  intros Hs. unfold format_decimal_scaled, signed_text, decimal_text, sign_text. destruct (Z.eqb_spec scale 0) as [E|E].
  - exists (dec_text (Z.abs v)), []. rewrite app_nil_r. split; [apply dec_text_canonical; lia|]. now rewrite E.
  - assert (P : 0 < 10 ^ scale) by (apply Z.pow_pos_nonneg; lia).
    exists (dec_text (Z.abs v / 10 ^ scale)), (dec_padded scale (Z.abs v mod 10 ^ scale)).
    destruct (dec_padded_spec scale (Z.abs v mod 10 ^ scale)) as (F1 & _ & F3); [lia|apply Z.mod_pos_bound; lia|].
    split; [apply dec_text_canonical, Z.div_pos; lia|]. easy.
Qed.

(** Zero is printed without a sign. *)
Lemma format_zero_unsigned ip fp scale :
  0 <= scale -> integer_is_canonical ip = true -> format_decimal_scaled 0 scale <> decimal_text true ip fp scale.
Proof.
  intros Hs Hi E. destruct (format_decimal_canonical 0 scale Hs) as (ip0 & fp0 & G1 & _ & _ & E0). rewrite E0 in E.
  apply (f_equal (strip_byte minus_byte)) in E. unfold decimal_text in E. rewrite !strip_sign in E by easy. discriminate E.
Qed.

Lemma parse_decimal_exact scale text :
  0 <= scale <= 38 -> parse_exact (NDecimal scale) text = parse_round_trip (NDecimal scale) text.
Proof.
  intros Hu. unfold parse_exact, parse_round_trip. destruct (decimal_text_is_canonical text scale) eqn:Ec; cbn [negb].
  - apply decimal_canonical_inv in Ec as (negative & ip & fp & Hi & Hf & Hl & ->); [|lia].
    pose proof (proj1 (integer_is_canonical_spec ip) Hi) as (Hid & Hil & _). unfold decimal_text.
    set (v := digits_value ip * 10 ^ scale + digits_value fp). rewrite strip_sign by easy.
    destruct (Z.lt_ge_cases v (2 ^ 127)) as [Hv|Hv]; [|now rewrite parse_decimal_fixed_overflow by (auto; lia)].
    rewrite parse_decimal_fixed by (auto; lia). fold v. cbn [mbind option_bind].
    fold (decimal_text negative ip fp scale). unfold try_i64, checked_i64.
    assert (Hz : signed_value negative v = 0 <-> v = 0) by (unfold signed_value; destruct negative; lia).
    pose proof (format_decimal_fixed negative ip fp scale Hi Hf Hl) as Hform. cbv zeta in Hform. fold v in Hform.
    destruct (Z.eqb_spec (signed_value negative v) 0) as [Ez|Ez]; cbn [andb].
    + rewrite Ez in Hform |- *. change (is_i64 0) with true. cbn [mbind option_bind].
      destruct negative; [|now rewrite bool_decide_eq_true_2 by (apply Hform; easy)].
      rewrite bool_decide_eq_false_2; [easy|]. apply format_zero_unsigned; easy.
    + destruct (is_i64 _); [|easy]. cbn [mbind option_bind]. rewrite bool_decide_eq_true_2; [easy|].
      apply Hform. intros E. now rewrite Hz in Ez.
  - destruct (parse_decimal_scaled text scale) as [v|]; [|easy]. cbn [mbind option_bind]. unfold try_i64, checked_i64.
    destruct (is_i64 v); [|easy]. cbn [mbind option_bind]. rewrite bool_decide_eq_false_2; [easy|]. intros <-.
    destruct (format_decimal_canonical v scale) as (ip & fp & Hi & Hf & Hl & E); [lia|].
    rewrite E, decimal_canonical_text in Ec by easy. discriminate Ec.
Qed.

Lemma parse_exact_round_trip units text :
  units_ok units -> parse_exact units text = parse_round_trip units text.
Proof.
  intros Hu. destruct units as [|fsp|scale]; cbn [units_ok] in Hu; [| |now apply parse_decimal_exact];
    unfold parse_exact, parse_round_trip.
  - destruct (parse_date_days text) as [days|] eqn:E; [|easy]. cbn [mbind option_bind].
    apply date_text_days in E. now rewrite bool_decide_eq_true_2.
  - destruct (parse_datetime_micros text) as [m|] eqn:E; cbn [mbind option_bind]; [|now repeat case_match].
    case_bool_decide as Hf.
    + destruct (format_datetime_parses _ _ _ Hu Hf) as [_ ->]. rewrite Z.eqb_refl. cbn [negb].
      destruct (Z.ltb_spec 6 fsp) as [H6|]; [|easy]. unfold format_datetime_micros in Hf.
      destruct (Z.ltb_spec 6 fsp); [discriminate Hf|lia].
    + apply parse_datetime_formats in E. destruct (Z.ltb_spec 6 fsp); [easy|].
      destruct (Z.eqb_spec (len text) (if fsp =? 0 then 19 else 20 + fsp)) as [El|]; [|easy].
      exfalso. apply Hf. rewrite <- E. f_equal. destruct (Z.eqb_spec fsp 0); lia.
Qed.

(** The unit stored for a text prints as that text. *)
Lemma parse_units_format units text v :
  units_ok units -> parse_units units text = Some v -> units_format units v = Some text.
Proof.
  intros Hu. unfold parse_units. rewrite parse_exact_round_trip by easy.
  destruct (parse_round_trip units text) as [u|] eqn:E.
  - intros [= <-]. destruct units as [|fsp|scale]; cbn [parse_round_trip units_format] in E |- *.
    + destruct (parse_date_days text) as [days|]; [|easy]. cbn [mbind option_bind] in E. case_bool_decide as Hf; [|easy].
      injection E as <-. unfold format_date_units. pose proof (format_date_range _ _ Hf).
      destruct (Z.eqb_spec days ZERO_DATE_DAYS) as [->|]; [unfold ZERO_DATE_DAYS in *; lia|easy].
    + destruct (parse_datetime_micros text) as [m|] eqn:Em; [|easy]. cbn [mbind option_bind] in E. case_bool_decide as Hf; [|easy].
      injection E as <-. unfold format_datetime_units. pose proof (parse_datetime_after_zero _ _ Em).
      destruct (Z.eqb_spec m ZERO_DATETIME_MICROS); [lia|easy].
    + destruct (parse_decimal_scaled text scale) as [w|]; [|easy]. cbn [mbind option_bind] in E.
      destruct (try_i64 w) as [w'|]; [|easy]. cbn [mbind option_bind] in E. case_bool_decide as Hf; [|easy].
      injection E as <-. now rewrite Hf.
  - destruct units as [|fsp|scale]; [| |easy]; case_bool_decide as Hz; intros [= <-]; [now subst text|exact Hz].
Qed.

Lemma native_column_cells units rows i cells :
  units_ok units -> probe_native_column units rows i = Some cells ->
  exists texts, format_native_cells units (map unit_cell cells) = Ok texts /\
    map (fun r => row_values r !! i) rows = map (fun c => Some (into_value c)) texts.
Proof.
  intros Hu. revert cells; induction rows as [|r rows IH]; intros cells H; cbn [probe_native_column] in H.
  { injection H as <-. now exists []. }
  destruct (row_values r !! i) as [v|] eqn:Ev; [|easy].
  destruct (probe_native_column units rows i) as [rest|] eqn:Er; [|destruct v; cbn in H; try easy; now destruct (stored_units _ _)].
  destruct (IH _ eq_refl) as (texts & Ht & Hm). destruct v; cbn [mbind option_bind] in H; try easy.
  - injection H as <-. exists (CNull :: texts). split; [|cbn [map into_value]; now rewrite Ev, Hm].
    unfold format_native_cells in *. cbn [map map_result unit_cell format_native_cell]. now rewrite Ht.
  - destruct (stored_units units s) as [u|] eqn:Es; [|easy]. cbn [mbind option_bind] in H. injection H as <-.
    apply parse_units_format in Es; [|easy]. exists (CUtf8 s :: texts).
    split; [|cbn [map into_value]; now rewrite Ev, Hm].
    unfold format_native_cells in *. cbn [map map_result unit_cell format_native_cell]. now rewrite Es, Ht.
Qed.

(** ** The bloom filter has no false negatives *)

Section bloom_proofs.
Context `{Checksum}.

Lemma land_bit x j : 0 <= j -> negb (Z.land x (Z.shiftl 1 j) =? 0) = Z.testbit x j.
Proof.
  intros Hj. rewrite Z.shiftl_1_l. destruct (Z.testbit x j) eqn:E.
  - apply negb_true_iff, Z.eqb_neq. intros H0. apply (f_equal (fun z => Z.testbit z j)) in H0.
    rewrite Z.land_spec, E, Z.pow2_bits_true, Z.bits_0 in H0 by easy. discriminate H0.
  - apply negb_false_iff, Z.eqb_eq, Z.bits_inj'. intros n Hn. rewrite Z.land_spec, Z.bits_0.
    destruct (Z.eq_dec n j) as [->|Hne]; [now rewrite E|]. rewrite Z.pow2_bits_false by easy. apply andb_false_r.
Qed.

Lemma length_set_bloom_bit bloom bit : length (set_bloom_bit bloom bit) = length bloom.
Proof. apply length_alter. Qed.

Lemma bloom_has_set bloom bit bit' :
  0 <= bit < len bloom * 8 ->
  bit' = bit \/ bloom_has bloom bit' = true -> bloom_has (set_bloom_bit bloom bit) bit' = true.
Proof.
  intros Hb Hc. unfold bloom_has, set_bloom_bit in *.
  assert (Hi : (Z.to_nat (bit / 8) < length bloom)%nat) by (unfold len in Hb; Z.div_mod_to_equations; lia).
  pose proof (Z.mod_pos_bound bit 8 ltac:(lia)). pose proof (Z.mod_pos_bound bit' 8 ltac:(lia)).
  apply lookup_lt_is_Some in Hi as [b Eb].
  destruct (decide (Z.to_nat (bit' / 8) = Z.to_nat (bit / 8))) as [E|E].
  - rewrite E in Hc |- *. rewrite list_lookup_alter_eq, Eb in *. cbn [fmap option_fmap option_map] in *.
    rewrite land_bit in * by lia. rewrite byte.unsigned_of_Z. unfold byte.wrap.
    rewrite Z.mod_pow2_bits_low, Z.lor_spec by lia. apply orb_true_iff. destruct Hc as [->|Hc]; [right|now left].
    rewrite Z.shiftl_1_l. now apply Z.pow2_bits_true.
  - rewrite list_lookup_alter_ne by congruence. destruct Hc as [->|Hc]; [congruence|easy].
Qed.

Lemma bloom_bit_range bloom hash shift : 0 < len bloom -> 0 <= bloom_bit bloom hash shift < len bloom * 8.
Proof. intros. unfold bloom_bit. apply Z.mod_pos_bound. lia. Qed.

Lemma len_set_bloom_bits bloom hash : len (set_bloom_bits bloom hash) = len bloom.
Proof. unfold len, set_bloom_bits, bloom_shifts. cbn [foldl]. now rewrite !length_set_bloom_bit. Qed.

Lemma bloom_bit_len a b hash shift : len a = len b -> bloom_bit a hash shift = bloom_bit b hash shift.
Proof. unfold bloom_bit. now intros ->. Qed.

(** Setting a key's bits admits it and keeps every admitted key. *)
Lemma set_bloom_bits_spec bloom hash hash' :
  0 < len bloom -> hash' = hash \/ bloom_might_contain bloom hash' = true ->
  bloom_might_contain (set_bloom_bits bloom hash) hash' = true.
Proof.
  intros Hl Hc. unfold bloom_might_contain. apply forallb_forall. intros shift Hs.
  rewrite (bloom_bit_len _ bloom) by apply len_set_bloom_bits.
  assert (Hb : bloom_has bloom (bloom_bit bloom hash' shift) = true \/ hash' = hash).
  { destruct Hc as [Hc|Hc]; [now right|left]. exact (proj1 (forallb_forall _ _) Hc shift Hs). }
  unfold set_bloom_bits. unfold bloom_shifts in *. cbn [foldl].
  assert (L : forall b bit, len (set_bloom_bit b bit) = len b) by (intros; unfold len; now rewrite length_set_bloom_bit).
  rewrite (bloom_bit_len (set_bloom_bit (set_bloom_bit _ _) _) bloom), (bloom_bit_len (set_bloom_bit _ _) bloom) by now rewrite ?L.
  pose proof (bloom_bit_range bloom hash 0 Hl). pose proof (bloom_bit_range bloom hash 21 Hl). pose proof (bloom_bit_range bloom hash 42 Hl).
  destruct Hb as [Hb| ->].
  { apply bloom_has_set; [now rewrite !L|right]. apply bloom_has_set; [now rewrite L|right]. apply bloom_has_set; [easy|now right]. }
  destruct Hs as [<-|[<-|[<-|[]]]].
  - apply bloom_has_set; [now rewrite !L|right]. apply bloom_has_set; [now rewrite L|right]. apply bloom_has_set; [easy|now left].
  - apply bloom_has_set; [now rewrite !L|right]. apply bloom_has_set; [now rewrite L|now left].
  - apply bloom_has_set; [now rewrite !L|now left].
Qed.

Lemma bloom_fold rows bloom0 bloom :
  0 < len bloom0 -> fold_result bloom_row bloom0 rows = Ok bloom ->
  forall key hash, key_hash key = Ok hash ->
    (exists r, In r rows /\ row_key r = key) \/ bloom_might_contain bloom0 hash = true ->
    bloom_might_contain bloom hash = true.
Proof.
  revert bloom0; induction rows as [|r rows IH]; intros bloom0 Hl; cbn [fold_result].
  { intros [= <-] key hash _ [(r & [] & _)|Hb]. exact Hb. }
  destruct (bloom_row bloom0 r) as [b1|e] eqn:Eb; unfold mbind, result_bind; [|intros Hx; discriminate Hx].
  unfold bloom_row, mbind, result_bind in Eb. destruct (key_hash (row_key r)) as [h|e] eqn:Eh; [|discriminate Eb].
  injection Eb as <-.
  intros Hf key hash Hk Hc. apply (IH (set_bloom_bits bloom0 h) ltac:(rewrite len_set_bloom_bits; lia) Hf key); [easy|].
  destruct Hc as [(r' & [->|Hin] & Ek)|Hc]; [right|left; eauto|right].
  - apply set_bloom_bits_spec; [easy|left; congruence].
  - apply set_bloom_bits_spec; [easy|now right].
Qed.

End bloom_proofs.

(** ** Aggregates bound the rows *)

(** The units of a value in the domain of a bound, and whether it satisfies the bound. *)
Definition value_units (domain : BoundDomain) (v : Value) : option Z :=
  match domain, v with
  | BInt, VInt64 z => Some z
  | BUInt, VUInt64 z => Some z
  | BTemporal units, VUtf8 text => parse_exact units text
  | _, _ => None
  end.

Definition satisfies (bound : ColumnBounds) (v : Value) : bool :=
  match value_units (cb_domain bound) v with
  | None => false
  | Some z =>
      match cb_lower bound with Some lower => lower <=? z | None => true end
      && match cb_upper bound with Some upper => z <=? upper | None => true end
  end.

(** What the running statistics say of a value they have seen. *)
Definition seen (t : DataType) (s : sma_state) (v : Value) : Prop :=
  v = VNull \/
  0 < sm_non_null s /\
  (sm_supported s = true -> exists kind z f, observe t v = Some (kind, z, f) /\ sm_family s = Some kind /\
     (kind <> 4 -> exists lo hi, sm_int_extremes s = Some (lo, hi) /\ lo <= z <= hi)).

Lemma sma_value_count t s v : sm_non_null (sma_value t s v) = sm_non_null s + 1.
Proof. unfold sma_value, clear_supported. repeat case_match; easy. Qed.

Lemma sma_value_seen t s v : 0 <= sm_non_null s -> seen t (sma_value t s v) v.
Proof.
  intros Hn. right. rewrite sma_value_count. split; [lia|]. unfold sma_value, clear_supported.
  destruct (sm_supported s); cbn [negb sm_supported]; [|easy].
  destruct (observe t v) as [[[kind z] f]|]; [|easy]. set (family := match sm_family s with Some f => f | None => kind end).
  destruct (Z.eqb_spec family kind) as [->|]; cbn [negb sm_supported]; [|easy]. intros _. exists kind, z, f. split; [easy|].
  destruct (Z.eqb_spec kind 4); cbn [sm_family sm_int_extremes]; split; try easy. intros _. unfold widen.
  destruct (sm_int_extremes s) as [[lo hi]|]; eexists _, _; (split; [reflexivity|lia]).
Qed.

Lemma sma_value_keeps t s v w : 0 <= sm_non_null s -> seen t s w -> seen t (sma_value t s v) w.
Proof.
  intros Hn [->|[Hp Hs]]; [now left|right]. rewrite sma_value_count. split; [lia|]. unfold sma_value, clear_supported.
  destruct (sm_supported s); cbn [negb sm_supported]; [|easy]. specialize (Hs eq_refl) as (kind & z & f & Ho & Hf & He).
  destruct (observe t v) as [[[kind' z'] f']|]; [|easy]. rewrite Hf.
  destruct (Z.eqb_spec kind kind') as [<-|]; cbn [negb sm_supported]; [|easy]. intros _. exists kind, z, f. split; [easy|].
  destruct (Z.eqb_spec kind 4); cbn [sm_family sm_int_extremes]; split; try easy. intros Hk.
  destruct (He Hk) as (lo & hi & -> & Hr). cbn [widen]. eexists _, _. split; [reflexivity|lia].
Qed.

Lemma sma_fold_seen t i rows s :
  0 <= sm_non_null s ->
  let s' := foldl (sma_row t i) s rows in
  0 <= sm_non_null s' /\ (forall w, seen t s w -> seen t s' w) /\
  (forall r v, In r rows -> row_deleted r = false -> row_values r !! i = Some v -> seen t s' v).
Proof.
  revert s; induction rows as [|r rows IH]; intros s Hn; cbn [foldl]; [easy|].
  assert (Hs : 0 <= sm_non_null (sma_row t i s r) /\ (forall w, seen t s w -> seen t (sma_row t i s r) w) /\
    (forall v, row_deleted r = false -> row_values r !! i = Some v -> seen t (sma_row t i s r) v)).
  { unfold sma_row. destruct (row_deleted r); [easy|]. destruct (row_values r !! i) as [v|]; [|easy].
    destruct v eqn:Ev; try (rewrite sma_value_count; split; [lia|]; split;
      [intros w; now apply sma_value_keeps|intros ? _ [= <-]; now apply sma_value_seen]).
    split; [easy|]. split; [easy|]. intros ? _ [= <-]. now left. }
  destruct Hs as (H1 & H2 & H3). destruct (IH _ H1) as (G1 & G2 & G3). split; [easy|]. split; [auto|].
  intros r' v [->|Hin]; [auto|eauto].
Qed.

(** The value range a bound reads from the aggregates holds every value the bound can accept. *)
Lemma finish_range t s domain ext lo hi v z :
  seen t s v -> (sma_finish t s).2 = Some ext -> bound_range domain ext = Some (lo, hi) ->
  value_units domain v = Some z -> lo <= z <= hi.
Proof.
  intros Hs. unfold sma_finish. destruct (sm_supported s) eqn:Es; [|easy].
  destruct Hs as [->|[Hp Hs]]; [now destruct domain|]. destruct (Z.eqb_spec (sm_non_null s) 0); [lia|]. cbn [negb orb].
  destruct (Hs Es) as (kind & z' & f & Ho & Hf & He). rewrite Hf.
  destruct (Z.eq_dec kind 4) as [->|Hk]; [cbn [snd]; destruct (sm_float_extremes s) as [[? ?]|]; [intros [= <-]; now destruct domain|easy]|].
  destruct (He Hk) as (lo' & hi' & -> & Hr).
  unfold observe in Ho. destruct domain as [| |units], v; cbn [value_units]; try easy.
  - destruct (decimal_scale t), (temporal_units t); try discriminate Ho. injection Ho as <- <- <-. cbn.
    intros [= <-] [= <- <-] [= <-]. easy.
  - destruct (decimal_scale t), (temporal_units t); try discriminate Ho. injection Ho as <- <- <-. cbn.
    intros [= <-] [= <- <-] [= <-]. easy.
  - destruct (decimal_scale t) as [scale|] eqn:Ed.
    + destruct (parse_decimal_scaled s0 scale); [|discriminate Ho]. injection Ho as <- <- <-. cbn. now intros [= <-].
    + destruct (temporal_units t) as [u|]; [|discriminate Ho]. destruct (parse_exact u s0) eqn:Ep; [|discriminate Ho].
      injection Ho as <- <- <-. cbn. intros [= <-]. cbn [bound_range]. case_bool_decide as Eu; [|easy]. subst units.
      intros [= <- <-]. rewrite Ep. now intros [= <-].
Qed.

(** ** Skipping a segment is sound *)

(** Rows in key order, as every segment is written. *)
Definition key_sorted (rows : list StoredRow) : Prop := StronglySorted (fun a b => ole (row_key a) (row_key b)) rows.

Lemma key_sorted_last rows first r :
  key_sorted (first :: rows) -> In r (first :: rows) ->
  ole (row_key first) (row_key r) /\ ole (row_key r) (row_key (List.last (first :: rows) first)).
Proof.
  intros Hs Hr. split.
  - apply StronglySorted_inv in Hs as [_ Hf]. destruct Hr as [->|Hr]; [apply ole_refl|].
    exact (proj1 (List.Forall_forall _ _) Hf _ Hr).
  - revert r Hr. generalize first at 3 as d. revert first Hs. induction rows as [|y rows IH]; intros first Hs d r Hr.
    { destruct Hr as [->|[]]. apply ole_refl. }
    change (List.last (first :: y :: rows) d) with (List.last (y :: rows) d).
    apply StronglySorted_inv in Hs as [Hs Hf]. destruct Hr as [<-|Hr]; [|now apply IH].
    apply (ole_trans _ (row_key y)); [now inversion Hf|]. apply IH; [easy|now left].
Qed.

Lemma imap_find {A B} (f : nat -> A -> B) (p : B -> bool) xs b :
  find p (imap f xs) = Some b -> exists i a, xs !! i = Some a /\ b = f i a /\ p b = true.
Proof.
  intros [Hin Hp]%find_some. apply list_elem_of_In, list_elem_of_lookup in Hin as [i Hi].
  rewrite list_lookup_imap in Hi. destruct (xs !! i) as [a|] eqn:Ea; [|easy]. injection Hi as <-. eauto.
Qed.

Section skipping.
Context `{Checksum} `{BlockSketches}.

Lemma bloom_row_hashes rows bloom0 bloom :
  fold_result bloom_row bloom0 rows = Ok bloom -> forall r, In r rows -> exists hash, key_hash (row_key r) = Ok hash.
Proof.
  revert bloom0; induction rows as [|x rows IH]; intros bloom0 Hf r Hr; [easy|]. cbn [fold_result] in Hf.
  destruct (bloom_row bloom0 x) as [b1|e] eqn:Eb; unfold mbind, result_bind in Hf; [|discriminate Hf].
  destruct Hr as [->|Hr]; [|eauto]. unfold bloom_row, mbind, result_bind in Eb.
  destruct (key_hash (row_key r)) as [h|]; [eauto|discriminate Eb].
Qed.

Lemma bloom_admits id schema rows block_rows unique meta r :
  segment_facts id schema rows block_rows unique = Ok meta -> key_sorted rows -> In r rows ->
  might_contain_key meta (row_key r) = Ok true.
Proof.
  intros (first & rest & bloom & -> & Eb & ->)%segment_facts_inv Hs Hr. unfold might_contain_key. cbn [seg_min_key seg_max_key seg_bloom written_facts].
  destruct (key_sorted_last _ _ _ Hs Hr) as [G1 G2].
  assert (E1 : oltb (row_key r) (row_key first) = false) by now apply oltb_false.
  assert (E2 : oltb (row_key (List.last (first :: rest) first)) (row_key r) = false)
    by now apply oltb_false.
  rewrite E1, E2. cbn [orb]. destruct (bloom_row_hashes _ _ _ Eb r Hr) as [h Eh]. rewrite Eh. unfold mbind, result_bind.
  f_equal. eapply (bloom_fold _ _ _ _ Eb); [exact Eh|]. left. eauto.
  Unshelve. vm_compute. reflexivity.
Qed.

Lemma live_rows rows : len (List.filter row_deleted rows) <= 0 -> forall r, In r rows -> row_deleted r = false.
Proof.
  intros Hl r Hr. destruct (row_deleted r) eqn:E; [exfalso|easy].
  assert (Hin : In r (List.filter row_deleted rows)) by now apply filter_In.
  destruct (List.filter row_deleted rows); [easy|len_lia].
Qed.

Lemma sma_excludes schema rows sketches bound :
  len (List.filter row_deleted rows) <= 0 ->
  bound_excludes (compute_segment_smas schema rows sketches) bound = true ->
  exists i c, schema_columns schema !! i = Some c /\ col_id c = cb_column_id bound /\
    forall r v, In r rows -> row_values r !! i = Some v -> satisfies bound v = false.
Proof.
  intros Hl. unfold bound_excludes. cbn [compute_segment_smas smas_columns smas_live_rows].
  destruct (find _ _) as [column|] eqn:Ef; [|easy]. apply imap_find in Ef as (i & c & Hc & -> & Hid%Z.eqb_eq).
  unfold column_sma in *. destruct (sma_finish _ _) as [sum ext] eqn:Es. cbn [sma_column_id sma_non_null sma_extremes] in *.
  intros Hx. exists i, c. split; [easy|]. split; [easy|]. intros r v Hr Hv. unfold satisfies.
  destruct (value_units (cb_domain bound) v) as [z|] eqn:Ez; [|easy].
  destruct (sma_fold_seen (col_data_type c) i rows sma_start) as (_ & _ & Hseen); [easy|].
  specialize (Hseen r v Hr (live_rows rows Hl r Hr) Hv). set (s := foldl _ _ _) in *.
  destruct ((sm_non_null s =? 0) && _) eqn:E0.
  - apply andb_prop in E0 as [E0%Z.eqb_eq _]. destruct Hseen as [->|[Hp _]]; [now destruct (cb_domain bound)|lia].
  - destruct ext as [ext|]; [|easy]. destruct (bound_range _ ext) as [[lo hi]|] eqn:Er; [|easy].
    pose proof (finish_range _ _ _ _ _ _ _ _ Hseen (f_equal snd Es) Er Ez).
    destruct (cb_lower bound), (cb_upper bound); cbn [orb] in Hx; rewrite ?orb_false_r in Hx; zbool; try easy;
      try (apply orb_prop in Hx as [Hx|Hx]); zcases; cbn; lia || easy.
Qed.

(** C40. Skipping a segment loses no row.  The key filter and key range of a written segment admit
    every key it holds, and when the column aggregates exclude a set of bounds then one of the
    bounds fails on every row of the segment. *)
Theorem segment_skipping_sound id schema rows block_rows unique meta :
  segment_facts id schema rows block_rows unique = Ok meta -> key_sorted rows ->
  (forall r, In r rows -> might_contain_key meta (row_key r) = Ok true) /\
  (forall bounds, sma_disjoint meta bounds = true ->
     exists bound i c, In bound bounds /\ schema_columns schema !! i = Some c /\ col_id c = cb_column_id bound /\
       forall r v, In r rows -> row_values r !! i = Some v -> satisfies bound v = false).
Proof.
  intros Hw Hs. split; [intros r Hr; now apply (bloom_admits id schema rows block_rows unique)|].
  intros bounds. apply segment_facts_inv in Hw as (first & rest & bloom & -> & _ & ->). unfold sma_disjoint. cbn [seg_smas written_facts].
  destruct (Z.ltb_spec 0 (smas_tombstones (compute_segment_smas schema (first :: rest) (sketches_of schema (first :: rest))))) as [|Ht]; [easy|].
  intros (bound & Hb & Hx)%existsb_exists. destruct (sma_excludes _ _ _ _ Ht Hx) as (i & c & G1 & G2 & G3).
  now exists bound, i, c.
Qed.

End skipping.

(** Columns stored as native units lose nothing.  The exact parser of a native column accepts a
    text exactly when printing the units gives the text back, and a column the writer stores as
    units is read back as the same values, the zero date included. *)
Theorem native_units_lossless t units text rows i cells :
  is_valid t = true -> DataType_wf t = true -> for_data_type t = Some units ->
  parse_exact units text = parse_round_trip units text /\
  (probe_native_column units rows i = Some cells ->
   exists texts, format_native_cells units (map unit_cell cells) = Ok texts /\
     map (fun r => row_values r !! i) rows = map (fun c => Some (into_value c)) texts).
Proof.
  intros Hv Hw Hf. pose proof (for_data_type_ok t units Hv Hw Hf) as Hu.
  split; [now apply parse_exact_round_trip|now apply native_column_cells].
Qed.

(** ** Witnesses *)

Module SegmentExamples.
#[local] Existing Instance WalExamples.example_checksum.

#[export] Instance no_sketches : BlockSketches := {| sketches_of _ _ _ := None; sketches_wf _ _ _ := eq_refl |}.

Lemma segment_skipping_sound_witness :
  exists meta, segment_facts 1 WalExamples.example_schema WalExamples.example_rows 2 true = Ok meta /\
    (forall r, In r WalExamples.example_rows -> might_contain_key meta (row_key r) = Ok true).
Proof.
  destruct (segment_facts 1 WalExamples.example_schema WalExamples.example_rows 2 true) as [meta|e] eqn:E.
  2:{ vm_compute in E. discriminate E. }
  exists meta. split; [easy|]. apply (segment_skipping_sound _ _ _ _ _ _ E).
  repeat constructor; vm_compute; discriminate.
Defined.

Lemma native_units_lossless_witness :
  parse_exact (NDecimal 2) (decimal_text true [digit_byte 7] [digit_byte 0; digit_byte 5] 2) =
  parse_round_trip (NDecimal 2) (decimal_text true [digit_byte 7] [digit_byte 0; digit_byte 5] 2).
Proof.
  apply (native_units_lossless (DDecimal 10 2) (NDecimal 2) _ [] 0%nat []); reflexivity.
Defined.

End SegmentExamples.
