(* ===== verification/Metadata.v ===== *)
(** * The metadata of written segments

    What [write_columns] ([src/crates/pintail-store/src/segment/mod.rs]) returns for rows
    within the ranges of their types is within the ranges of the manifest's format, so a
    manifest that lists written segments is read back as itself. *)

From Stdlib Require Import ZArith Lia String SpecFloat.
From stdpp Require Import prelude list.
From coqutil Require Import Byte.
From S2P Require Import Prelude.
From S2P Require Import Types.
From S2P Require Import Codec.
From S2P Require Import Wal.
From S2P Require Import Manifest.
From S2P Require Import Text.
From S2P Require Import Canonical.
From S2P Require Import Segment.

#[local] Open Scope Z_scope.

(** ** Parsed units *)

Lemma checked_i128_inv z v : checked_i128 z = Some v -> v = z /\ is_i128 z = true.
Proof. unfold checked_i128. destruct (is_i128 z) eqn:E; [|easy]. now intros [= <-]. Qed.

Lemma checked_push_nonneg acc d v : checked_push acc d = Some v -> 0 <= acc -> 0 <= d -> 0 <= v.
Proof.
  unfold checked_push, mbind, option_bind. destruct (checked_i128 (acc * 10)) as [m|] eqn:E; [|easy].
  apply checked_i128_inv in E as [-> _]. intros [-> _]%checked_i128_inv. lia.
Qed.

Lemma decimal_byte_nonneg scale s b s' :
  decimal_byte scale s b = Some s' -> 0 <= ds_integer s -> 0 <= ds_fraction s -> 0 <= ds_integer s' /\ 0 <= ds_fraction s'.
Proof.
  unfold decimal_byte, mbind, option_bind. intros E Hi Hf. destruct (is_digit b) eqn:Ed.
  - pose proof Ed as Ed'%is_digit_spec. destruct (ds_seen_dot s).
    + destruct (_ <? _); [|destruct (negb _); [easy|]; now injection E as <-].
      destruct (checked_push _ _) as [f|] eqn:Ep; [|easy]. injection E as <-. apply checked_push_nonneg in Ep; cbn; lia.
    + destruct (checked_push _ _) as [f|] eqn:Ep; [|easy]. injection E as <-. apply checked_push_nonneg in Ep; cbn; lia.
  - destruct (_ && _); [now injection E as <-|easy].
Qed.

Lemma decimal_loop_nonneg scale bs s s' :
  decimal_loop scale s bs = Some s' -> 0 <= ds_integer s -> 0 <= ds_fraction s -> 0 <= ds_integer s' /\ 0 <= ds_fraction s'.
Proof.
  revert s; induction bs as [|b bs IH]; intros s; cbn [decimal_loop]; [now intros [= <-]|]. unfold mbind, option_bind.
  destruct (decimal_byte scale s b) as [s1|] eqn:E; [|easy]. intros Hl Hi Hf. destruct (decimal_byte_nonneg _ _ _ _ E Hi Hf). now apply (IH s1).
Qed.

Lemma scale_up_nonneg n m v : scale_up n m = Some v -> 0 <= m -> 0 <= v.
Proof.
  revert m; induction n as [|n IH]; intros m; cbn [scale_up]; [now intros [= ->]|]. unfold mbind, option_bind.
  destruct (checked_i128 (m * 10)) as [m'|] eqn:E; [|easy]. apply checked_i128_inv in E as [-> _]. intros Hs Hm. apply (IH _ Hs). lia.
Qed.

Lemma parse_decimal_i128 text scale v : 0 <= scale -> parse_decimal_scaled text scale = Some v -> is_i128 v = true.
Proof.
  intros Hscale. unfold parse_decimal_scaled, mbind, option_bind. destruct (decimal_sign text) as [[negative rest]|]; [|easy].
  destruct (decimal_loop scale decimal_start rest) as [s|] eqn:El; [|easy]. destruct (negb _); [easy|].
  destruct (decimal_loop_nonneg _ _ _ _ El) as [Hi Hf]; [easy..|].
  destruct (scale_up _ _) as [fraction|] eqn:Es; [|easy]. pose proof (scale_up_nonneg _ _ _ Es Hf) as Hfr.
  destruct (checked_i128 (10 ^ scale)) as [power|] eqn:Ep; [|easy]. apply checked_i128_inv in Ep as [-> _].
  destruct (checked_i128 (ds_integer s * 10 ^ scale)) as [integer|] eqn:Ei; [|easy]. apply checked_i128_inv in Ei as [-> _].
  destruct (checked_i128 (_ + fraction)) as [magnitude|] eqn:Em; [|easy]. apply checked_i128_inv in Em as [-> Hm].
  assert (0 <= 10 ^ scale) by (apply Z.pow_nonneg; lia). assert (0 <= ds_integer s * 10 ^ scale) by nia.
  apply in_signed_spec in Hm. intros [= <-]. apply in_signed_spec. destruct negative; lia.
Qed.

Lemma parse_exact_i64 units text v : parse_exact units text = Some v -> is_i64 v = true.
Proof.
  destruct units as [|fsp|scale]; cbn [parse_exact].
  - intros (y & m & d & Hy & Hv & -> & _)%parse_date_inv. pose proof (days_in_range y m d Hy Hv). apply in_signed_spec. lia.
  - do 2 (destruct (_ : bool); [easy|]). intros (y & m & d & h & mi & s & ds & Hy & Hv & Hc & Hd & Hl & _ & ->)%parse_datetime_inv.
    pose proof (days_in_range y m d Hy Hv). destruct Hc as (Hh & Hm & Hs). pose proof (tail_micros_range ds Hd Hl).
    unfold datetime_value, clock_seconds. apply in_signed_spec. lia.
  - destruct (negb _); [easy|]. unfold mbind, option_bind. destruct (parse_decimal_scaled text scale) as [z|]; [|easy].
    destruct (_ && _); [easy|]. unfold try_i64, checked_i64. destruct (is_i64 z) eqn:E; [now intros [= <-]|easy].
Qed.

(** ** Column summaries *)

Lemma bits_of_sf_u64 f : is_u64 (bits_of_sf f) = true.
Proof.
  apply in_unsigned_spec. destruct f as [s|s| |s m e]; cbn [bits_of_sf]; [now destruct s|now destruct s|easy|].
  apply Z.mod_pos_bound. lia.
Qed.

Lemma float_pick_u64 (pick : Z -> Z -> Z) a b :
  (pick a b = a \/ pick a b = b) -> is_u64 a = true -> is_u64 b = true -> is_u64 (pick a b) = true.
Proof. now intros [-> | ->]. Qed.

Lemma float_min_cases a b : float_min a b = a \/ float_min a b = b.
Proof. unfold float_min. repeat destruct (_ : bool); auto. Qed.

Lemma float_max_cases a b : float_max a b = a \/ float_max a b = b.
Proof. unfold float_max. repeat destruct (_ : bool); auto. Qed.

(** The width of the units of a family. *)
Definition in_family (family z : Z) : bool :=
  if (family =? 1) || (family =? 5) then is_i64 z else if family =? 2 then is_u64 z else is_i128 z.

Lemma observe_wf t v kind integer float :
  DataType_wf t = true -> value_wf v = true -> observe t v = Some (kind, integer, float) ->
  in_family kind integer = true /\ is_u64 float = true.
Proof.
  intros Ht Hv. unfold observe, mbind, option_bind. destruct v; try easy;
    destruct (decimal_scale t) as [scale|] eqn:Es; destruct (temporal_units t) as [units|]; try easy.
  - now intros [= <- <- <-].
  - now intros [= <- <- <-].
  - now intros [= <- <- <-].
  - destruct (parse_decimal_scaled s scale) as [z|] eqn:Ez; [|easy]. intros [= <- <- <-]. split; [|easy].
    destruct t; try easy. injection Es as <-. cbn in Ht. apply andb_prop in Ht as [_ Ht%in_unsigned_spec].
    apply parse_decimal_i128 in Ez; [easy|lia].
  - destruct (parse_decimal_scaled s scale) as [z|] eqn:Ez; [|easy]. intros [= <- <- <-]. split; [|easy].
    destruct t; try easy. injection Es as <-. cbn in Ht. apply andb_prop in Ht as [_ Ht%in_unsigned_spec].
    apply parse_decimal_i128 in Ez; [easy|lia].
  - destruct (parse_exact units s) as [z|] eqn:Ez; [|easy]. intros [= <- <- <-]. split; [|easy]. now apply parse_exact_i64 in Ez.
Qed.

Definition both (p : Z -> bool) (range : option (Z * Z)) : Prop := forall lo hi, range = Some (lo, hi) -> p lo = true /\ p hi = true.

(** The running statistics of a column stay within their widths. *)
Record sma_ok (s : sma_state) : Prop := {
  sm_ok_count : 0 <= sm_non_null s;
  sm_ok_sum : forall z, sm_int_sum s = Some z -> is_i128 z = true;
  sm_ok_extremes : match sm_family s with Some family => both (in_family family) (sm_int_extremes s) | None => sm_int_extremes s = None end;
  sm_ok_float_sum : forall z, sm_float_sum s = Some z -> is_u64 z = true;
  sm_ok_float_extremes : both is_u64 (sm_float_extremes s)
}.

Lemma widen_both p lo hi range v :
  both p range -> p v = true -> (forall a, p a = true -> p (lo a v) = true) -> (forall a, p a = true -> p (hi a v) = true) ->
  both p (Segment.widen lo hi range v).
Proof.
  intros Hb Hv Hlo Hhi. destruct range as [[a b]|]; cbn; intros x y [= <- <-]; [|easy]. destruct (Hb a b eq_refl). auto.
Qed.

Lemma sma_value_ok t s v : DataType_wf t = true -> value_wf v = true -> sma_ok s -> sma_ok (sma_value t s v).
Proof.
  intros Ht Hv [H1 H2 H3 H4 H5]. unfold sma_value. destruct (sm_supported s); cbn [negb]; [|split; cbn; auto; lia].
  destruct (observe t v) as [[[kind integer] float]|] eqn:Eo; [|split; cbn; auto; lia].
  destruct (observe_wf _ _ _ _ _ Ht Hv Eo) as [Hi Hf].
  set (family := match sm_family s with Some f => f | None => kind end).
  assert (H3' : both (in_family family) (sm_int_extremes s)).
  { unfold family. destruct (sm_family s); [easy|]. rewrite H3. easy. }
  destruct (Z.eqb_spec family kind) as [Ef|]; cbn [negb]; [|split; cbn; auto; lia].
  assert (Hmin : forall a b, in_family family a = true -> in_family family b = true -> in_family family (Z.min a b) = true).
  { intros a b Ha Hb. destruct (Z.min_spec a b) as [[_ ->]|[_ ->]]; easy. }
  assert (Hmax : forall a b, in_family family a = true -> in_family family b = true -> in_family family (Z.max a b) = true).
  { intros a b Ha Hb. destruct (Z.max_spec a b) as [[_ ->]|[_ ->]]; easy. }
  rewrite <- Ef in Hi. destruct (kind =? 4).
  - split; cbn; auto; [lia|..].
    + unfold mbind, option_bind. intros z. destruct (sm_float_sum s) as [sum|]; [|easy]. destruct (float_finite _); [|easy].
      intros [= <-]. apply bits_of_sf_u64.
    + apply widen_both; [easy..| |]; intros a Ha; apply float_pick_u64; auto; [apply float_min_cases|apply float_max_cases].
  - split; cbn; auto; [lia|..].
    + unfold mbind, option_bind. intros z. destruct (sm_int_sum s); [|easy]. now intros [-> ?]%checked_i128_inv.
    + apply widen_both; auto.
Qed.

Lemma sma_row_count t index s row : sm_non_null s <= sm_non_null (sma_row t index s row) <= sm_non_null s + 1.
Proof.
  unfold sma_row. destruct (row_deleted row); [lia|]. destruct (row_values row !! index) as [[]|]; rewrite ?sma_value_count; lia.
Qed.

Lemma sma_rows_ok t index rows s :
  DataType_wf t = true -> Forall (fun r => stored_row_wf r = true) rows -> sma_ok s ->
  sma_ok (foldl (sma_row t index) s rows) /\ sm_non_null (foldl (sma_row t index) s rows) <= sm_non_null s + len rows.
Proof.
  intros Ht. revert s. induction rows as [|r rows IH]; intros s Hr Hs; cbn [foldl]; [split; [easy|len_lia]|].
  apply Forall_cons in Hr as [Hr Hrs]. assert (Hs' : sma_ok (sma_row t index s r)).
  { unfold sma_row. destruct (row_deleted r); [easy|]. destruct (row_values r !! index) as [v|] eqn:Ev; [|easy].
    assert (Hv : value_wf v = true).
    { unfold stored_row_wf in Hr. apply andb_prop in Hr as [[_ Hr]%andb_prop _]. rewrite forallb_forall in Hr.
      apply Hr, list_elem_of_In. exact (list_elem_of_lookup_2 _ _ _ Ev). }
    destruct v; try easy; now apply sma_value_ok. }
  destruct (IH _ Hrs Hs') as [Hok Hc]. split; [easy|]. pose proof (sma_row_count t index s r). rewrite len_cons. lia.
Qed.

Lemma sma_start_ok : sma_ok sma_start.
Proof. split; cbn; try easy; now intros z [= <-]. Qed.

Lemma temporal_units_wf t units : DataType_wf t = true -> temporal_units t = Some units ->
  match units with NDate => true | NDateTime fsp => is_u8 fsp | NDecimal scale => is_u8 scale end = true.
Proof. destruct t; cbn; try easy; now intros Ht [= <-]. Qed.

Lemma decimal_scale_wf t scale : DataType_wf t = true -> decimal_scale t = Some scale -> is_u8 scale = true.
Proof. destruct t; cbn; try easy. now intros [_ Ht]%andb_prop [= <-]. Qed.

Lemma sma_finish_wf t s :
  DataType_wf t = true -> sma_ok s -> sum_wf (sma_finish t s).1 = true /\ extremes_wf (sma_finish t s).2 = true.
Proof.
  intros Ht [_ H2 H3 H4 H5]. unfold sma_finish. destruct (_ || _); [easy|]. destruct (sm_family s) as [f|]; [|easy].
  assert (Hext : forall lo hi, sm_int_extremes s = Some (lo, hi) -> in_family f lo = true /\ in_family f hi = true) by exact H3.
  destruct f as [|f|]; [easy| |easy]. do 3 (try destruct f as [f|f|]); try easy; cbn [fst snd].
  - destruct (sm_int_extremes s) as [[lo hi]|]; [|easy]. cbn [mbind option_bind]. destruct (temporal_units t) as [units|] eqn:Eu; [|easy].
    destruct (Hext lo hi eq_refl) as [Hlo Hhi]. cbn. unfold in_family in Hlo, Hhi. cbn in Hlo, Hhi. rewrite Hlo, Hhi. split; [easy|].
    exact (temporal_units_wf t units Ht Eu).
  - destruct (decimal_scale t) as [scale|] eqn:Es; [|easy]. pose proof (decimal_scale_wf t scale Ht Es) as Hs. cbn [fst snd]. split.
    + destruct (sm_int_sum s) as [z|]; [|easy]. cbn. now rewrite (H2 z eq_refl), Hs.
    + destruct (sm_int_extremes s) as [[lo hi]|]; [|easy]. destruct (Hext lo hi eq_refl) as [Hlo Hhi]. unfold in_family in Hlo, Hhi.
      cbn in Hlo, Hhi |- *. now rewrite Hlo, Hhi, Hs.
  - split.
    + destruct (sm_float_sum s) as [z|]; [|easy]. now apply H4.
    + destruct (sm_float_extremes s) as [[lo hi]|]; [|easy]. destruct (H5 lo hi eq_refl) as [Hlo Hhi]. cbn. now rewrite Hlo, Hhi.
  - split.
    + destruct (sm_int_sum s) as [z|]; [|easy]. now apply H2.
    + destruct (sm_int_extremes s) as [[lo hi]|]; [|easy]. destruct (Hext lo hi eq_refl) as [Hlo Hhi]. unfold in_family in Hlo, Hhi.
      cbn in Hlo, Hhi |- *. now rewrite Hlo, Hhi.
  - split.
    + destruct (sm_int_sum s) as [z|]; [|easy]. now apply H2.
    + destruct (sm_int_extremes s) as [[lo hi]|]; [|easy]. destruct (Hext lo hi eq_refl) as [Hlo Hhi]. unfold in_family in Hlo, Hhi.
      cbn in Hlo, Hhi |- *. now rewrite Hlo, Hhi.
Qed.

(** ** Segments *)

Lemma utf8_ascii bs : forallb (byte_in 0 127) bs = true -> utf8_valid bs = true.
Proof. induction bs as [|b bs IH]; [easy|]. cbn [forallb utf8_valid]. now intros [-> H]%andb_prop; apply IH. Qed.

Lemma digits_ascii bs : all_digits bs = true -> forallb (byte_in 0 127) bs = true.
Proof.
  unfold all_digits. rewrite !forallb_forall. intros Hd b Hb. specialize (Hd b Hb). apply is_digit_spec in Hd.
  unfold byte_in, digit_of in *. lia.
Qed.

Lemma segment_file_name_utf8 id : 0 <= id -> utf8_valid (segment_file_name id) = true.
Proof.
  intros Hid. apply utf8_ascii. unfold segment_file_name. rewrite !forallb_app, (digits_ascii (dec_padded 20 id)); [now vm_compute|].
  unfold dec_padded. rewrite pad_zeros_digits. now apply dec_text_digits.
Qed.

Lemma list_min_in z zs : In (list_min (z :: zs)) (z :: zs).
Proof.
  cbn [list_min]. revert z. induction zs as [|y zs IH]; intros z; cbn [foldl]; [now left|].
  destruct (IH (Z.min z y)) as [E|Hin]; [|right; now right]. destruct (Z.min_spec z y) as [[_ Em]|[_ Em]]; rewrite Em in E |- *; [left|right; left]; exact E.
Qed.

Lemma list_max_in z zs : In (list_max (z :: zs)) (z :: zs).
Proof.
  cbn [list_max]. revert z. induction zs as [|y zs IH]; intros z; cbn [foldl]; [now left|].
  destruct (IH (Z.max z y)) as [E|Hin]; [|right; now right]. destruct (Z.max_spec z y) as [[_ Em]|[_ Em]]; rewrite Em in E |- *; [right; left|left]; exact E.
Qed.

Lemma last_in {A} (x d : A) l : In (List.last (x :: l) d) (x :: l).
Proof. revert x; induction l as [|y l IH]; intros x; [now left|]. right. apply (IH y). Qed.

(** What the Rust types of a schema enforce. *)
Definition schema_wf (schema : TableSchema) : bool :=
  is_u32 (schema_version schema) && forallb (fun c => is_u32 (col_id c) && DataType_wf (col_data_type c)) (schema_columns schema).

Section metadata.
Context `{Checksum} `{BlockSketches}.

Lemma column_sma_wf_ok schema rows index c :
  schema_wf schema = true -> schema_columns schema !! index = Some c -> Forall (fun r => stored_row_wf r = true) rows -> len rows < 2 ^ 64 ->
  column_sma_wf (column_sma rows (sketches_of schema rows) index c) = true.
Proof.
  intros Hs Hc Hr Hl. apply andb_prop in Hs as [_ Hs]. rewrite forallb_forall in Hs.
  assert (Hin : In c (schema_columns schema)) by exact (proj1 (list_elem_of_In _ _) (list_elem_of_lookup_2 _ _ _ Hc)).
  apply Hs, andb_prop in Hin as [Hid Ht]. unfold column_sma.
  destruct (sma_rows_ok (col_data_type c) index rows sma_start Ht Hr sma_start_ok) as [Hok Hn].
  destruct (sma_finish_wf _ _ Ht Hok) as [Hsum Hext]. destruct (sma_finish _ _) as [sum extremes]. unfold column_sma_wf. cbn in *.
  rewrite Hid, Hsum, Hext, sketches_wf. pose proof (sm_ok_count _ Hok). unfold is_u64. now rewrite (proj2 (in_unsigned_spec 64 _)) by lia.
Qed.

Lemma check_lengths_inv schema rows block_rows :
  0 < block_rows -> check_lengths schema rows block_rows = Ok tt -> len rows < 2 ^ 64.
Proof.
  unfold check_lengths. intros Hb. destruct (_ <? _); [easy|]. destruct (Z.ltb_spec u32_max block_rows) as [|Hb']; [easy|].
  destruct (Z.ltb_spec u32_max (div_ceil (len rows) block_rows)) as [|Hd]; [easy|]. intros _. unfold div_ceil, u32_max in *.
  pose proof (Z.div_mod (len rows + block_rows - 1) block_rows ltac:(lia)) as Hm.
  pose proof (Z.mod_pos_bound (len rows + block_rows - 1) block_rows Hb).
  set (q := (len rows + block_rows - 1) / block_rows) in *. assert (block_rows * q <= (2 ^ 32 - 1) * (2 ^ 32 - 1)) by nia. lia.
Qed.

Lemma segment_facts_count id schema rows block_rows unique meta :
  0 <= block_rows -> segment_facts id schema rows block_rows unique = Ok meta -> len rows < 2 ^ 64.
Proof.
  intros Hb. unfold segment_facts. destruct rows as [|first rest]; [easy|]. destruct (Z.eqb_spec block_rows 0); [easy|].
  unfold mbind, result_bind. destruct (build_bloom _); [|easy]. destruct (check_lengths _ _ _) as [[]|] eqn:E; [|easy]. intros _.
  apply check_lengths_inv in E; [easy|lia].
Qed.

Lemma segment_facts_wf id schema rows block_rows unique meta :
  0 <= block_rows -> schema_wf schema = true -> Forall (fun r => stored_row_wf r = true) rows -> is_u64 id = true ->
  segment_facts id schema rows block_rows unique = Ok meta -> segment_wf meta = true.
Proof.
  intros Hb Hs Hr Hid Hf. pose proof (segment_facts_count _ _ _ _ _ _ Hb Hf) as Hl.
  destruct (segment_facts_inv _ _ _ _ _ _ Hf) as (first & rest & bloom & -> & _ & ->). set (rows := first :: rest) in *.
  assert (Hrow : forall r, In r rows -> primary_key_wf (row_key r) = true /\ is_u64 (row_version r) = true).
  { intros r Hin. rewrite List.Forall_forall in Hr. apply Hr in Hin. unfold stored_row_wf in Hin.
    now apply andb_prop in Hin as [[Hk _]%andb_prop Hv]. }
  assert (Hcount : forall n, 0 <= n <= len rows -> is_u64 n = true) by (intros n Hn; apply in_unsigned_spec; lia).
  assert (Hver : forall v, In v (map row_version rows) -> is_u64 v = true).
  { intros v (r & <- & Hin)%in_map_iff. now apply Hrow. }
  assert (Htomb : 0 <= len (List.filter row_deleted rows) <= len rows).
  { split; [apply len_nonneg|]. unfold len. pose proof (filter_length_le row_deleted rows). lia. }
  unfold segment_wf. cbn [written_facts seg_id seg_file_name seg_row_count seg_min_version seg_max_version seg_schema_fingerprint seg_min_key
    seg_max_key seg_smas smas_wf compute_segment_smas smas_live_rows smas_tombstones smas_columns].
  rewrite Hid, segment_file_name_utf8 by (apply in_unsigned_spec in Hid; lia).
  rewrite !Hcount by lia. rewrite (Hver (list_min _)), (Hver (list_max _)) by (apply list_min_in || apply list_max_in).
  fold rows. rewrite (proj1 (Hrow (List.last rows first) (last_in first first rest))), (proj1 (Hrow first (or_introl eq_refl))).
  unfold schema_fingerprint. rewrite xxh3_64_range, !Hcount by lia. cbn [andb]. apply forallb_forall. intros x Hx%list_elem_of_In.
  apply list_elem_of_lookup in Hx as [i Hx]. rewrite list_lookup_imap in Hx. destruct (schema_columns schema !! i) as [c|] eqn:Ec; [|easy].
  injection Hx as <-. now apply column_sma_wf_ok.
Qed.

End metadata.
