(* ===== verification/SegmentFile.v ===== *)
(** * Segment files ([src/crates/pintail-store/src/segment/mod.rs])

    The columns a segment file holds and the rows read back from them, under the schema
    the file was written with or a later one.  A file is its columns of cells; how a
    block lays cells out in bytes is not part of this file.  The last part is the rule of
    [src/crates/pintail-probe/src/lib.rs] for the type changes a table takes in place. *)

From Stdlib Require Import ZArith Lia String Sorted.
From stdpp Require Import prelude list relations.
From coqutil Require Import Byte.
From S2P Require Import Prelude.
From S2P Require Import Types.
From S2P Require Import Codec.
From S2P Require Import Wal.
From S2P Require Import Manifest.
From S2P Require Import Canonical.
From S2P Require Import Segment.

#[local] Open Scope Z_scope.

(** ** Columns *)

Inductive LogicalType : Type := LBoolean | LInt64 | LUInt64 | LFloat64 | LUtf8 | LBinary | LPrimaryKey.

#[export] Instance LogicalType_eq_dec : EqDecision LogicalType.
Proof. solve_decision. Defined.

(** A storage type is one of the first six. *)
Definition from_data_type (t : DataType) : LogicalType :=
  match storage_type t with
  | DBoolean => LBoolean
  | DInt64 => LInt64
  | DUInt64 => LUInt64
  | DFloat64 => LFloat64
  | DBinary => LBinary
  | _ => LUtf8
  end.

Definition is_native (t : DataType) : bool := match for_data_type t with Some _ => true | None => false end.

Definition wire_type_compatible (t : DataType) (logical : LogicalType) : bool :=
  bool_decide (from_data_type t = logical) || (bool_decide (logical = LInt64) && is_native t).

Definition KEY_COLUMN_ID : Z := u32_max - 2.
Definition VERSION_COLUMN_ID : Z := u32_max - 1.
Definition TOMBSTONE_COLUMN_ID : Z := u32_max.

Inductive ColumnSource : Type := SKey | SVersion | STombstone | SValue (index : nat).

Record ColumnSpec : Type := {
  cs_id : Z;
  cs_logical_type : LogicalType;
  cs_source : ColumnSource;
  cs_native : option NativeUnits
}.

Definition value_spec (index : nat) (c : Column) : ColumnSpec := {|
  cs_id := col_id c; cs_logical_type := from_data_type (col_data_type c); cs_source := SValue index;
  cs_native := None |}.

Definition system_specs : list ColumnSpec := [
  {| cs_id := KEY_COLUMN_ID; cs_logical_type := LPrimaryKey; cs_source := SKey; cs_native := None |};
  {| cs_id := VERSION_COLUMN_ID; cs_logical_type := LUInt64; cs_source := SVersion; cs_native := None |};
  {| cs_id := TOMBSTONE_COLUMN_ID; cs_logical_type := LBoolean; cs_source := STombstone; cs_native := None |} ].

Definition column_specs (schema : TableSchema) : list ColumnSpec :=
  system_specs ++ imap value_spec (schema_columns schema).

(** ** Writing *)

(** The [probe] of [write_columns]: a text column whose every value has units is stored
    as units. *)
Definition probe (schema : TableSchema) (rows : list StoredRow) (spec : ColumnSpec) : option NativeUnits :=
  match cs_source spec with
  | SValue index =>
      c ← schema_columns schema !! index;
      units ← for_data_type (col_data_type c);
      match probe_native_column units rows index with Some _ => Some units | None => None end
  | _ => None
  end.

Definition probed (schema : TableSchema) (rows : list StoredRow) (spec : ColumnSpec) : ColumnSpec :=
  match probe schema rows spec with
  | Some units =>
      {| cs_id := cs_id spec; cs_logical_type := LInt64; cs_source := cs_source spec; cs_native := Some units |}
  | None => spec
  end.

Definition native_cell (spec : ColumnSpec) (text : str) : result StoreError Cell :=
  match cs_native spec with
  | None => Ok (CUtf8 text)
  | Some units =>
      match stored_units units text with
      | Some v => Ok (CInt64 v)
      | None => Err (FormatLimit (msg "column {} was probed as {units:?} units, but one of its values does not round-trip through them" [cs_id spec]))
      end
  end.

(** A row shorter than the schema panics. *)
Definition cell_for (spec : ColumnSpec) (row : StoredRow) : result StoreError Cell :=
  match cs_source spec with
  | SKey => Ok (CKey (row_key row))
  | SVersion => Ok (CUInt64 (row_version row))
  | STombstone => Ok (CBoolean (row_deleted row))
  | SValue index =>
      match row_values row !! index with
      | None => Err (FormatLimit (msg "index out of bounds" []))
      | Some VNull => Ok CNull
      | Some (VUtf8 s) | Some (VEnum _ s) => native_cell spec s
      | Some (VDecimalAverage q) => native_cell spec (dq_label q)
      | Some (VBoolean b) => Ok (CBoolean b)
      | Some (VInt64 i) => Ok (CInt64 i)
      | Some (VUInt64 u) => Ok (CUInt64 u)
      | Some (VFloat64 bits) => Ok (CFloat64 bits)
      | Some (VBinary bs) => Ok (CBinary bs)
      end
  end.

Record FileColumn : Type := { fc_id : Z; fc_logical_type : LogicalType; fc_cells : list Cell }.

(** [write_column]: the column's cells, block after block. *)
Definition write_column (rows : list StoredRow) (spec : ColumnSpec) : result StoreError FileColumn :=
  cells ← map_result (cell_for spec) rows;
  Ok {| fc_id := cs_id spec; fc_logical_type := cs_logical_type spec; fc_cells := cells |}.

(** What the footer repeats of the segment's metadata. *)
Record Footer : Type := {
  ft_row_count : Z;
  ft_min_version : Z;
  ft_max_version : Z;
  ft_fingerprint : Z;
  ft_first_key : PrimaryKey;
  ft_last_key : PrimaryKey;
  ft_bloom : list byte
}.

#[export] Instance Footer_eq_dec : EqDecision Footer.
Proof. solve_decision. Defined.

Definition footer_of (meta : SegmentFacts) : Footer := {|
  ft_row_count := seg_row_count meta; ft_min_version := seg_min_version meta; ft_max_version := seg_max_version meta;
  ft_fingerprint := seg_schema_fingerprint meta; ft_first_key := seg_min_key meta; ft_last_key := seg_max_key meta;
  ft_bloom := seg_bloom meta |}.

Record SegmentFile : Type := {
  sf_schema_version : Z;
  sf_fingerprint : Z;
  sf_row_count : Z;
  sf_columns : list FileColumn;
  sf_footer : Footer
}.

(** The file of [write_columns]; its footer holds the facts of the metadata it returns. *)
Definition write_file (schema : TableSchema) (meta : SegmentFacts) (rows : list StoredRow) : result StoreError SegmentFile :=
  columns ← map_result (write_column rows) (map (probed schema rows) (column_specs schema));
  Ok {| sf_schema_version := schema_version schema; sf_fingerprint := seg_schema_fingerprint meta;
        sf_row_count := len rows; sf_columns := columns; sf_footer := footer_of meta |}.

(** ** Reading *)

(** [absent_cell]: what a row older than the column reads for it. *)
Definition absent_cell (c : Column) : Cell :=
  match col_absent_fill c with
  | None | Some VNull => CNull
  | Some (VBoolean b) => CBoolean b
  | Some (VInt64 i) => CInt64 i
  | Some (VUInt64 u) => CUInt64 u
  | Some (VFloat64 bits) => CFloat64 bits
  | Some (VUtf8 s) | Some (VEnum _ s) => CUtf8 s
  | Some (VDecimalAverage q) => CUtf8 (dq_label q)
  | Some (VBinary bs) => CBinary bs
  end.

(** The cells read so far; the value columns are in the order of the schema. *)
Record DecodedColumns : Type := {
  dc_keys : option (list Cell);
  dc_versions : option (list Cell);
  dc_tombstones : option (list Cell);
  dc_values : list (option (list Cell))
}.

Definition corrupt {A} (reason : string) : result StoreError A := Err (CorruptSegment 0 (msg reason [])).

Definition assign_system_column (destination : option (list Cell)) (expected : LogicalType) (c : FileColumn)
    : result StoreError (list Cell) :=
  if negb (bool_decide (fc_logical_type c = expected)) then corrupt "{name} column has the wrong logical type"
  else match destination with Some _ => corrupt "duplicate {name} column" | None => Ok (fc_cells c) end.

(** The cells of a value column under its declared type. *)
Definition value_cells (column : Column) (c : FileColumn) : result StoreError (list Cell) :=
  if negb (wire_type_compatible (col_data_type column) (fc_logical_type c))
  then Err (IncompatibleSchema (msg "column {} ({id}) changed physical type" [fc_id c]))
  else
    match for_data_type (col_data_type column) with
    | Some units =>
        if bool_decide (fc_logical_type c = LInt64) then format_native_cells units (fc_cells c) else Ok (fc_cells c)
    | None => Ok (fc_cells c)
    end.

Definition assign_value_column (schema : TableSchema) (values : list (option (list Cell))) (c : FileColumn)
    : result StoreError (list (option (list Cell))) :=
  match list_find (fun column => col_id column = fc_id c) (schema_columns schema) with
  | None => Ok values
  | Some (index, column) =>
      cells ← value_cells column c;
      match values !! index with
      | Some (Some _) => corrupt "duplicate user column id {id}"
      | _ => Ok (<[index := Some cells]> values)
      end
  end.

(** One turn of the loop of [read_file_segment_columns], after [read_file_column]. *)
Definition read_column (schema : TableSchema) (row_count : Z) (d : DecodedColumns) (c : FileColumn)
    : result StoreError DecodedColumns :=
  if negb (len (fc_cells c) =? row_count) then corrupt "column has {} rows, header declares {expected_rows}"
  else if fc_id c =? KEY_COLUMN_ID then
    cells ← assign_system_column (dc_keys d) LPrimaryKey c;
    Ok {| dc_keys := Some cells; dc_versions := dc_versions d; dc_tombstones := dc_tombstones d;
          dc_values := dc_values d |}
  else if fc_id c =? VERSION_COLUMN_ID then
    cells ← assign_system_column (dc_versions d) LUInt64 c;
    Ok {| dc_keys := dc_keys d; dc_versions := Some cells; dc_tombstones := dc_tombstones d;
          dc_values := dc_values d |}
  else if fc_id c =? TOMBSTONE_COLUMN_ID then
    cells ← assign_system_column (dc_tombstones d) LBoolean c;
    Ok {| dc_keys := dc_keys d; dc_versions := dc_versions d; dc_tombstones := Some cells;
          dc_values := dc_values d |}
  else
    values ← assign_value_column schema (dc_values d) c;
    Ok {| dc_keys := dc_keys d; dc_versions := dc_versions d; dc_tombstones := dc_tombstones d;
          dc_values := values |}.

(** A column the file lacks is filled, or refused. *)
Definition fill_absent (row_count : Z) (columns_and_cells : Column * option (list Cell)) : result StoreError (list Cell) :=
  match columns_and_cells with
  | (_, Some cells) => Ok cells
  | (column, None) =>
      if readable_when_absent column then Ok (replicate (Z.to_nat row_count) (absent_cell column))
      else Err (IncompatibleSchema
                  (msg "required column {} ({}) is absent from schema version {schema_version}" [col_id column]))
  end.

(** The next cell of every value column. *)
Definition next_cell (column : list Cell) : result StoreError (Cell * list Cell) :=
  match column with [] => corrupt "missing user value" | c :: rest => Ok (c, rest) end.

Fixpoint zip_rows (keys versions tombstones : list Cell) (values : list (list Cell))
    : result StoreError (list StoredRow * list (list Cell)) :=
  match keys, versions, tombstones with
  | key :: keys, version :: versions, deleted :: tombstones =>
      match key, version, deleted with
      | CKey key, CUInt64 version, CBoolean deleted =>
          heads ← map_result next_cell values;
          '((rows, rest) : list StoredRow * list (list Cell)) ← zip_rows keys versions tombstones (map snd heads);
          Ok ({| row_key := key; row_values := map (fun h => into_value h.1) heads; row_version := version;
                 row_deleted := deleted |} :: rows, rest)
      | CKey _, CUInt64 _, _ => corrupt "invalid tombstone cell"
      | CKey _, _, _ => corrupt "invalid version cell"
      | _, _, _ => corrupt "invalid key cell"
      end
  | _, _, _ => Ok ([], values)
  end.

Definition is_nil {A} (l : list A) : bool := match l with [] => true | _ => false end.

Definition assemble_rows (keys versions tombstones : list Cell) (values : list (list Cell)) (row_count : Z)
    : result StoreError (list StoredRow) :=
  '((rows, rest) : list StoredRow * list (list Cell)) ← zip_rows keys versions tombstones values;
  if negb (len rows =? row_count) || negb (forallb is_nil rest) then corrupt "decoded column row counts differ"
  else Ok rows.

(** The columns of the file, under a schema: keys, versions, tombstones, values. *)
Definition read_file_segment_columns (schema : TableSchema) (row_count : Z) (columns : list FileColumn)
    : result StoreError (list Cell * list Cell * list Cell * list (list Cell)) :=
  d ← fold_result (read_column schema row_count)
        {| dc_keys := None; dc_versions := None; dc_tombstones := None;
           dc_values := replicate (length (schema_columns schema)) None |} columns;
  values ← map_result (fill_absent row_count) (zip (schema_columns schema) (dc_values d));
  match dc_keys d, dc_versions d, dc_tombstones d with
  | Some keys, Some versions, Some tombstones => Ok (keys, versions, tombstones, values)
  | None, _, _ => corrupt "missing key column"
  | _, None, _ => corrupt "missing version column"
  | _, _, None => corrupt "missing tombstone column"
  end.

(** Which part of a footer that is not the manifest's is told first. *)
Definition footer_mismatch (f : Footer) (meta : SegmentFacts) : StoreError :=
  if (ft_row_count f =? seg_row_count meta) && (ft_min_version f =? seg_min_version meta)
     && (ft_max_version f =? seg_max_version meta) && (ft_fingerprint f =? seg_schema_fingerprint meta)
  then CorruptSegment 0 (msg "footer key index does not match the manifest" [])
  else CorruptSegment 0 (msg "footer metadata does not match the manifest" []).

(** [verify]: the footer agrees with the manifest, and the header with both. *)
Definition verify_file (f : SegmentFile) (meta : SegmentFacts) (schema : TableSchema) : result StoreError unit :=
  if negb (bool_decide (sf_footer f = footer_of meta)) then Err (footer_mismatch (sf_footer f) meta)
  else if schema_version schema <? sf_schema_version f
  then Err (SchemaMismatch (schema_version schema) (sf_schema_version f))
  else if negb (sf_fingerprint f =? seg_schema_fingerprint meta)
  then Err (SchemaFingerprintMismatch (seg_schema_fingerprint meta) (sf_fingerprint f))
  else Ok tt.

(** [read] of a file, under the metadata and the schema of the manifest; the version and the
    fingerprint it reads again are those [verify] has passed. *)
Definition read_file (f : SegmentFile) (meta : SegmentFacts) (schema : TableSchema) : result StoreError (list StoredRow) :=
  _ ← verify_file f meta schema;
  if negb (sf_row_count f =? seg_row_count meta)
  then corrupt "segment header declares {row_count} rows, the manifest {}"
  else
    columns ← read_file_segment_columns schema (sf_row_count f) (sf_columns f);
    match columns with
    | (keys, versions, tombstones, values) => assemble_rows keys versions tombstones values (sf_row_count f)
    end.

(** ** The table's directory *)

(** The complete segment files of a directory, by name. *)
Definition Directory : Type := list (str * SegmentFile).

(** How the filesystem calls of a segment write end: all succeed; one fails before the
    rename, so no file has the name; or only the final directory sync fails. *)
Inductive segment_io : Type := SegmentOk | SegmentFails | SegmentUnsynced.

Definition write_segment `{Checksum} `{BlockSketches} (dir : Directory) (id : Z) (schema : TableSchema)
    (rows : list StoredRow) (block_rows : Z) (unique_keys : bool) (io : segment_io)
    : result StoreError SegmentFacts * Directory :=
  match segment_facts id schema rows block_rows unique_keys with
  | Err e => (Err e, dir)
  | Ok meta =>
      match write_file schema meta rows with
      | Err e => (Err e, dir)
      | Ok f =>
          let written := omap_insert (seg_file_name meta) f dir in
          match io with
          | SegmentOk => (Ok meta, written)
          | SegmentFails => (Err (Io (msg "write segment" [])), dir)
          | SegmentUnsynced => (Err (Io (msg "sync directory" [])), written)
          end
      end
  end.

(** [read], and what a [SegmentRowStream] opened on the segment delivers row by row; a
    missing file is an error. *)
Definition read_rows (dir : Directory) (schema : TableSchema) (meta : SegmentFacts)
    : result StoreError (list StoredRow) :=
  match omap_get (seg_file_name meta) dir with
  | Some f => read_file f meta schema
  | None => Err (Io (msg "open segment" []))
  end.

(** [verify] of the segment's file. *)
Definition verify (dir : Directory) (schema : TableSchema) (meta : SegmentFacts) : result StoreError unit :=
  match omap_get (seg_file_name meta) dir with
  | Some f => verify_file f meta schema
  | None => Err (Io (msg "open segment" []))
  end.

(** ** Type changes taken in place *)

Definition NATIVE_DECIMAL_MAX_PRECISION : Z := 18.

Definition integer_digits (precision scale : Z) : Z := sat_sub precision scale.

Definition is_signed (t : DataType) : bool :=
  match t with DBoolean | DInt8 | DInt16 | DInt32 | DInt64 => true | _ => false end.
Definition is_unsigned (t : DataType) : bool :=
  match t with DUInt8 | DUInt16 | DUInt32 | DUInt64 => true | _ => false end.
Definition is_float (t : DataType) : bool := match t with DFloat32 | DFloat64 => true | _ => false end.

Definition widening_compatible (previous refreshed : DataType) : bool :=
  if bool_decide (previous = refreshed) then true
  else
    match previous, refreshed with
    | DDecimal previous_precision previous_scale, DDecimal refreshed_precision refreshed_scale =>
        (previous_precision <=? refreshed_precision)
        && ((previous_scale =? refreshed_scale)
            || ((previous_scale <? refreshed_scale) && (NATIVE_DECIMAL_MAX_PRECISION <? previous_precision)
                && (integer_digits previous_precision previous_scale
                    <=? integer_digits refreshed_precision refreshed_scale)))
    | _, _ =>
        (is_signed previous && is_signed refreshed) || (is_unsigned previous && is_unsigned refreshed)
        || (is_float previous && is_float refreshed)
    end.

(** ** What a file reads as *)

(** A column's stored cells mean the same under both types. *)
Definition carries (p r : DataType) : Prop :=
  (from_data_type p = LUtf8 <-> from_data_type r = LUtf8) /\
  (forall units, for_data_type r = Some units -> for_data_type p = Some units).

#[export] Instance carries_preorder : PreOrder carries.
Proof.
  split; [now split|]. intros p q r [A1 A2] [B1 B2]. split; [now rewrite A1|]. intros u Hu. now apply A2, B2.
Qed.

Lemma widening_carries p r : widening_compatible p r = true -> carries p r.
Proof.
  unfold widening_compatible. case_bool_decide as E; [subst; reflexivity|].
  destruct p, r; cbn [is_signed is_unsigned is_float andb orb]; intros Hw; try discriminate Hw;
    try (split; [easy|discriminate]).
  split; [easy|]. intros units. cbn [for_data_type]. unfold NATIVE_DECIMAL_MAX_PRECISION in Hw.
  destruct (Z.leb_spec precision0 18); [|discriminate]. intros [= <-].
  apply andb_prop in Hw as [Hp%Z.leb_le [->%Z.eqb_eq|Hs]%orb_prop]; [|zbool; lia].
  now rewrite (proj2 (Z.leb_le precision 18)) by lia.
Qed.

(** A chain of in-place changes. *)
Definition widened : DataType -> DataType -> Prop := rtc (fun p r => widening_compatible p r = true).

Lemma widened_carries p r : widened p r -> carries p r.
Proof. induction 1 as [|p q r Hw _ IH]; [reflexivity|]. transitivity q; [exact (widening_carries _ _ Hw)|exact IH]. Qed.

(** What a row of [schema] reads for a column of a later schema. *)
Definition evolved_value (schema : TableSchema) (r : StoredRow) (c : Column) : Value :=
  match list_find (fun o => col_id o = col_id c) (schema_columns schema) with
  | Some (i, _) => match row_values r !! i with Some v => durable_value v | None => VNull end
  | None => match col_absent_fill c with Some v => durable_value v | None => VNull end
  end.

Definition evolved_row (schema schema' : TableSchema) (r : StoredRow) : StoredRow := {|
  row_key := row_key r; row_values := map (evolved_value schema r) (schema_columns schema');
  row_version := row_version r; row_deleted := row_deleted r |}.

Lemma absent_cell_value c :
  into_value (absent_cell c) = match col_absent_fill c with Some v => durable_value v | None => VNull end.
Proof. unfold absent_cell. now destruct (col_absent_fill c) as [[]|]. Qed.

Lemma map_result_Forall2 {E A B} (f : A -> result E B) l k :
  map_result f l = Ok k <-> Forall2 (fun a b => f a = Ok b) l k.
Proof.
  revert k; induction l as [|a l IH]; intros k; cbn [map_result]; unfold mbind, result_bind.
  { split; [intros [= <-]; constructor|intros H; now inversion H]. }
  split.
  - destruct (f a) as [b|] eqn:Ea; [|easy]. destruct (map_result f l) as [bs|]; [|easy].
    intros [= <-]. constructor; [easy|]. now apply IH.
  - intros H. inversion H as [|? b ? bs Hb Hbs]; subst. rewrite Hb. apply IH in Hbs. now rewrite Hbs.
Qed.

(** *** One column *)

Section columns.
Variables (schema : TableSchema) (rows : list StoredRow).

Lemma probe_cells spec index units :
  cs_source spec = SValue index -> probe schema rows spec = Some units ->
  exists c cells, schema_columns schema !! index = Some c /\ for_data_type (col_data_type c) = Some units /\
    probe_native_column units rows index = Some cells.
Proof.
  intros Hs. unfold probe. rewrite Hs. destruct (schema_columns schema !! index) as [c|]; [|easy].
  cbn [mbind option_bind]. destruct (for_data_type (col_data_type c)) as [u|] eqn:Eu; [|easy]. cbn [mbind option_bind].
  destruct (probe_native_column u rows index) as [cells|] eqn:Ep; [|easy]. intros [= <-]. eauto.
Qed.

Lemma native_cells units spec index cells ks :
  cs_native spec = Some units -> cs_source spec = SValue index -> probe_native_column units rows index = Some cells ->
  map_result (cell_for spec) rows = Ok ks -> ks = map unit_cell cells.
Proof.
  intros Hn Hs. revert cells ks. induction rows as [|r rs IH]; intros cells ks Hp Hm.
  { cbn in Hp, Hm. now injection Hp as <-; injection Hm as <-. }
  cbn [probe_native_column] in Hp. cbn [map_result] in Hm. unfold mbind, result_bind in Hm.
  unfold cell_for in Hm at 1. rewrite Hs in Hm. destruct (row_values r !! index) as [v|]; [|easy].
  destruct (probe_native_column units rs index) as [rest|]; [|destruct v; cbn in Hp; try easy; now destruct (stored_units _ _)].
  destruct (map_result (cell_for spec) rs) as [ks'|]; [|destruct v; try easy; now destruct (native_cell _ _)].
  destruct v; cbn [mbind option_bind] in Hp; try easy.
  - injection Hp as <-. injection Hm as <-. cbn [map unit_cell]. f_equal. now apply IH.
  - unfold native_cell in Hm. rewrite Hn in Hm. destruct (stored_units units s); [|easy].
    cbn [mbind option_bind] in Hp. injection Hp as <-. injection Hm as <-. cbn [map unit_cell]. f_equal. now apply IH.
Qed.

Lemma plain_cell spec index r k :
  cs_native spec = None -> cs_source spec = SValue index -> cell_for spec r = Ok k ->
  exists v, row_values r !! index = Some v /\ into_value k = durable_value v.
Proof.
  unfold cell_for, native_cell. intros -> ->. destruct (row_values r !! index) as [v|]; [|easy].
  intros Hk. exists v. split; [easy|]. now destruct v; injection Hk as <-.
Qed.

(** The values of a stored column. *)
Definition column_values (index : nat) : list Value :=
  map (fun r => match row_values r !! index with Some v => durable_value v | None => VNull end) rows.

Lemma plain_cells spec index ks :
  cs_native spec = None -> cs_source spec = SValue index -> map_result (cell_for spec) rows = Ok ks ->
  map into_value ks = column_values index.
Proof.
  intros Hn Hs. unfold column_values. rewrite map_result_Forall2. induction 1 as [|r k rs ks Hk _ IH]; [easy|].
  cbn [map]. rewrite IH. f_equal. apply (plain_cell spec index) in Hk as (v & -> & ->); easy.
Qed.

Lemma native_durable units index cells texts :
  probe_native_column units rows index = Some cells ->
  map (fun r => row_values r !! index) rows = map (fun c => Some (into_value c)) texts ->
  map into_value texts = column_values index.
Proof.
  unfold column_values. revert cells texts. induction rows as [|r rs IH]; intros cells [|c texts] Hp Hm; try easy.
  cbn [map] in *. injection Hm as Hc Hm. cbn [probe_native_column] in Hp. rewrite Hc in *.
  destruct (probe_native_column units rs index) as [rest|];
    [|destruct (into_value c); cbn in Hp; try easy; now destruct (stored_units _ _)].
  rewrite (IH rest texts eq_refl Hm). f_equal. now destruct (into_value c).
Qed.

(** Reading a written column under a type that carries its own: its values, or a refusal. *)
Lemma value_cells_written index column fc c' :
  schema_columns schema !! index = Some column -> is_valid (col_data_type column) = true ->
  DataType_wf (col_data_type column) = true ->
  write_column rows (probed schema rows (value_spec index column)) = Ok fc ->
  carries (col_data_type column) (col_data_type c') ->
  (exists cells, value_cells c' fc = Ok cells /\ map into_value cells = column_values index) \/
  (col_data_type c' <> col_data_type column /\ exists m, value_cells c' fc = Err (IncompatibleSchema m)).
Proof.
  intros Hc Hv Hw Hfc [Ht Hu]. unfold write_column, probed in Hfc.
  destruct (probe schema rows (value_spec index column)) as [units|] eqn:Ep.
  - destruct (probe_cells (value_spec index column) index units eq_refl Ep) as (c & cells & Hc' & Hcu & Hp).
    replace c with column in * by congruence. clear c Hc'.
    destruct (map_result _ rows) as [ks|] eqn:Ek; unfold mbind, result_bind in Hfc; [|easy]. injection Hfc as <-.
    eapply native_cells in Ek; [|reflexivity..|exact Hp]. subst ks.
    unfold value_cells. cbn [fc_logical_type fc_cells cs_logical_type fc_id].
    destruct (wire_type_compatible (col_data_type c') LInt64) eqn:Ew.
    + assert (Hcu' : for_data_type (col_data_type c') = Some units).
      { unfold wire_type_compatible, is_native in Ew. apply orb_prop in Ew as [E%bool_decide_eq_true|E].
        - assert (from_data_type (col_data_type c') = LUtf8); [|congruence].
          apply Ht. now destruct (col_data_type column).
        - destruct (for_data_type (col_data_type c')) as [u|] eqn:Eu; [|now rewrite andb_comm in E].
          pose proof (Hu u eq_refl). congruence. }
      left. rewrite Hcu'. cbn [negb]. rewrite bool_decide_eq_true_2 by easy.
      destruct (native_column_cells units rows index cells) as (texts & Hf & Hm); [exact (for_data_type_ok _ _ Hv Hw Hcu)|easy|].
      exists texts. split; [easy|]. exact (native_durable units index cells texts Hp Hm).
    + right. split; [|eauto]. intros E. unfold wire_type_compatible, is_native in Ew. rewrite E, Hcu in Ew.
      now rewrite orb_true_r in Ew.
  - destruct (map_result _ rows) as [ks|] eqn:Ek; unfold mbind, result_bind in Hfc; [|easy]. injection Hfc as <-.
    unfold value_cells. cbn [fc_logical_type fc_cells value_spec cs_logical_type fc_id].
    destruct (wire_type_compatible (col_data_type c') (from_data_type (col_data_type column))) eqn:Ew.
    + left. exists ks. split; [|exact (plain_cells (value_spec index column) index ks eq_refl eq_refl Ek)]. cbn [negb].
      destruct (for_data_type (col_data_type c')) as [u|] eqn:Eu; [|easy]. rewrite bool_decide_eq_false_2; [easy|].
      pose proof (Hu u eq_refl) as Eu'. now destruct (col_data_type column).
    + right. split; [|eauto]. intros E. unfold wire_type_compatible in Ew. rewrite E in Ew.
      now rewrite bool_decide_eq_true_2 in Ew.
Qed.

End columns.

(** *** All columns *)

Section read_columns.
Variables (schema : TableSchema) (row_count : Z).
Hypothesis ids : NoDup (map col_id (schema_columns schema)).

Definition value_column (c : FileColumn) : Prop :=
  len (fc_cells c) = row_count /\ fc_id c < KEY_COLUMN_ID.

Lemma column_by_id index c id :
  schema_columns schema !! index = Some c -> col_id c = id ->
  list_find (fun column => col_id column = id) (schema_columns schema) = Some (index, c).
Proof.
  intros Hc Hid. apply list_find_Some. split; [easy|]. split; [easy|]. intros j o Ho Hj Ho'.
  assert (j = index); [|lia]. eapply (NoDup_lookup (map col_id (schema_columns schema))); [exact ids|..].
  - rewrite list_lookup_fmap, Ho. cbn. now rewrite Ho'.
  - rewrite list_lookup_fmap, Hc. cbn. now rewrite Hid.
Qed.

Definition with_values (d : DecodedColumns) (values : list (option (list Cell))) : DecodedColumns := {|
  dc_keys := dc_keys d; dc_versions := dc_versions d; dc_tombstones := dc_tombstones d; dc_values := values |}.

Lemma read_value_column d c :
  value_column c ->
  read_column schema row_count d c = values ← assign_value_column schema (dc_values d) c; Ok (with_values d values).
Proof.
  intros [Hl Hi]. unfold read_column. rewrite (proj2 (Z.eqb_eq _ _) Hl). cbn [negb].
  unfold KEY_COLUMN_ID, VERSION_COLUMN_ID, TOMBSTONE_COLUMN_ID in *.
  rewrite 3 (proj2 (Z.eqb_neq (fc_id c) _)) by lia. reflexivity.
Qed.

(** The columns not yet read are empty. *)
Definition awaits (values : list (option (list Cell))) (cols : list FileColumn) : Prop :=
  length values = length (schema_columns schema) /\
  forall fc index c, fc ∈ cols -> schema_columns schema !! index = Some c -> col_id c = fc_id fc ->
    values !! index = Some None.

(** The values after reading the columns. *)
Definition reads (values values' : list (option (list Cell))) (cols : list FileColumn) : Prop :=
  length values' = length values /\
  forall index c, schema_columns schema !! index = Some c ->
    (forall fc, fc ∈ cols -> fc_id fc = col_id c ->
       exists cells, value_cells c fc = Ok cells /\ values' !! index = Some (Some cells)) /\
    ((forall fc, fc ∈ cols -> fc_id fc <> col_id c) -> values' !! index = values !! index).

Lemma assign_value_ok values c cols :
  awaits values (c :: cols) -> NoDup (map fc_id (c :: cols)) ->
  (exists values', assign_value_column schema values c = Ok values' /\ reads values values' [c] /\ awaits values' cols) \/
  (exists e column, assign_value_column schema values c = Err e /\ column ∈ schema_columns schema /\
     col_id column = fc_id c /\ value_cells column c = Err e).
Proof.
  intros [Hl Ha] [Hn _]%NoDup_cons. unfold assign_value_column.
  destruct (list_find _ (schema_columns schema)) as [[index column]|] eqn:Ef.
  - apply list_find_Some in Ef as (Hc & Hid & _). unfold mbind, result_bind.
    destruct (value_cells column c) as [cells|e] eqn:Ev.
    2:{ right. exists e, column. repeat split; try easy. exact (list_elem_of_lookup_2 _ _ _ Hc). }
    left. rewrite (Ha c index column) by (easy || apply list_elem_of_here). eexists. split; [reflexivity|].
    assert (Hlt : (index < length values)%nat) by (rewrite Hl; exact (lookup_lt_Some _ _ _ Hc)).
    split; [split; [now rewrite length_insert|]|split; [now rewrite length_insert|]].
    + intros i c' Hc'. split.
      * intros fc ->%list_elem_of_singleton E. pose proof (column_by_id _ _ _ Hc' (eq_sym E)) as F.
        rewrite (column_by_id _ _ _ Hc Hid) in F. injection F as <- <-. exists cells. split; [easy|].
        now apply list_lookup_insert_eq.
      * intros Hx. apply list_lookup_insert_ne. intros ->. replace c' with column in * by congruence.
        now apply (Hx c (list_elem_of_here _ _)).
    + intros fc i c' Hfc Hc' E. rewrite list_lookup_insert_ne; [apply (Ha fc _ c'); [now right|easy..]|].
      intros ->. replace c' with column in * by congruence. apply Hn. rewrite <- Hid, E. now apply (list_elem_of_fmap_2 fc_id).
  - left. exists values. split; [easy|]. split; [split; [easy|]|split; [easy|]].
    + intros i c' Hc'. split; [|easy]. intros fc ->%list_elem_of_singleton E.
      now rewrite (column_by_id _ _ _ Hc' (eq_sym E)) in Ef.
    + intros fc i c' Hfc. apply Ha. now right.
Qed.

Lemma read_columns_ok cols d :
  Forall value_column cols -> NoDup (map fc_id cols) -> awaits (dc_values d) cols ->
  (exists values, fold_result (read_column schema row_count) d cols = Ok (with_values d values) /\
     reads (dc_values d) values cols) \/
  (exists e fc column, fold_result (read_column schema row_count) d cols = Err e /\ fc ∈ cols /\
     column ∈ schema_columns schema /\ col_id column = fc_id fc /\ value_cells column fc = Err e).
Proof.
  revert d; induction cols as [|c cols IH]; intros d Hv Hn Ha.
  { left. exists (dc_values d). split; [now destruct d|]. split; [easy|]. intros i c _. split; [|easy].
    intros fc []%not_elem_of_nil. }
  apply Forall_cons in Hv as [Hc Hv]. cbn [fold_result]. rewrite read_value_column by easy.
  unfold mbind, result_bind. destruct (assign_value_ok _ _ _ Ha Hn) as [(values & -> & Hr & Ha')|(e & column & -> & Hx)].
  2:{ right. exists e, c, column. split; [easy|]. split; [apply list_elem_of_here|easy]. }
  destruct (IH (with_values d values) Hv) as [(values' & -> & Hr')|(e & fc & column & -> & Hfc & Hx)];
    [now apply NoDup_cons in Hn as [_ Hn]|easy|..].
  2:{ right. exists e, fc, column. split; [easy|]. split; [now right|easy]. }
  left. exists values'. split; [easy|]. destruct Hr as [Hl Hr], Hr' as [Hl' Hr']. cbn [with_values dc_values] in *.
  split; [congruence|]. intros i c' Hc'. destruct (Hr i c' Hc') as [A1 A2], (Hr' i c' Hc') as [B1 B2]. split.
  - intros fc Hfc E. apply elem_of_cons in Hfc as [->|Hfc]; [|now apply B1].
    destruct (A1 c (list_elem_of_here _ _) E) as (cells & Hcells & Hv'). exists cells. split; [easy|].
    rewrite B2; [easy|]. intros fc Hfc E'. apply NoDup_cons in Hn as [Hn _]. apply Hn. rewrite E, <- E'.
    now apply (list_elem_of_fmap_2 fc_id).
  - intros Hx. rewrite B2, A2; [easy|..].
    + intros fc ->%list_elem_of_singleton. apply Hx. apply list_elem_of_here.
    + intros fc Hfc. apply Hx. now right.
Qed.

End read_columns.

(** *** Rows from columns *)

Definition cell_at (j : nat) (column : list Cell) : Value :=
  match column !! j with Some c => into_value c | None => VNull end.

Definition row_at (values : list (list Cell)) (j : nat) (r : StoredRow) : StoredRow := {|
  row_key := row_key r; row_values := map (cell_at j) values; row_version := row_version r;
  row_deleted := row_deleted r |}.

Lemma next_cells n values :
  Forall (fun column => length column = S n) values ->
  exists heads, map_result next_cell values = Ok heads /\
    values = map (fun h => h.1 :: h.2) heads /\ Forall (fun column => length column = n) (map snd heads).
Proof.
  induction 1 as [|[|c column] values Hc _ (heads & Hm & -> & Hf)]; [now exists []|easy|].
  exists ((c, column) :: heads). cbn [map_result next_cell]. rewrite Hm. split; [easy|]. split; [easy|].
  constructor; [now injection Hc|easy].
Qed.

Lemma zip_rows_ok rows values :
  Forall (fun column => length column = length rows) values ->
  zip_rows (map (fun r => CKey (row_key r)) rows) (map (fun r => CUInt64 (row_version r)) rows)
    (map (fun r => CBoolean (row_deleted r)) rows) values = Ok (imap (row_at values) rows, map (fun _ => []) values).
Proof.
  revert values; induction rows as [|r rows IH]; intros values Hv.
  { cbn [map zip_rows imap]. do 2 f_equal. rewrite <- (map_id values) at 1. apply map_ext_in.
    intros c Hc. rewrite Forall_forall in Hv. apply list_elem_of_In in Hc. specialize (Hv c Hc). now destruct c. }
  destruct (next_cells _ _ Hv) as (heads & Hm & -> & Hf). cbn [map zip_rows]. rewrite Hm. unfold mbind at 1, result_bind at 1.
  rewrite (IH _ Hf). unfold mbind, result_bind. rewrite !map_map. do 2 f_equal. cbn [imap]. f_equal.
  - unfold row_at. f_equal. now rewrite map_map.
  - apply imap_ext. intros j r' _. unfold row_at, compose. f_equal. now rewrite !map_map.
Qed.

Lemma assemble_rows_ok rows values :
  Forall (fun column => length column = length rows) values ->
  assemble_rows (map (fun r => CKey (row_key r)) rows) (map (fun r => CUInt64 (row_version r)) rows)
    (map (fun r => CBoolean (row_deleted r)) rows) values (len rows) = Ok (imap (row_at values) rows).
Proof.
  intros Hv. unfold assemble_rows. rewrite (zip_rows_ok rows values Hv). unfold mbind, result_bind.
  assert (E : len (imap (row_at values) rows) = len rows) by (unfold len; now rewrite length_imap).
  rewrite E, Z.eqb_refl. replace (forallb is_nil (map (fun _ => []) values)) with true; [easy|].
  symmetry. apply forallb_forall. intros c Hc. apply in_map_iff in Hc as (x & <- & _). easy.
Qed.

(** *** The whole file *)

Lemma map_result_total {E A B} (f : A -> result E B) l :
  Forall (fun a => exists b, f a = Ok b) l -> exists k, map_result f l = Ok k.
Proof.
  induction 1 as [|a l [b Hb] _ [k Hk]]; [now exists []|]. exists (b :: k). cbn [map_result]. now rewrite Hb, Hk.
Qed.

Lemma probe_native_row units rows index cells r :
  probe_native_column units rows index = Some cells -> r ∈ rows ->
  row_values r !! index = Some VNull \/
  exists text v, row_values r !! index = Some (VUtf8 text) /\ stored_units units text = Some v.
Proof.
  revert cells; induction rows as [|x rows IH]; intros cells Hp Hr; [now apply not_elem_of_nil in Hr|].
  cbn [probe_native_column] in Hp.
  destruct (probe_native_column units rows index) as [rest|];
    [|destruct (row_values x !! index) as [[]|]; cbn in Hp; try easy; now destruct (stored_units _ _)].
  apply elem_of_cons in Hr as [->|Hr]; [|now eapply IH].
  destruct (row_values x !! index) as [[]|]; try easy; [now left|right].
  destruct (stored_units units s) as [v|] eqn:E; [|easy]. eauto.
Qed.

Definition row_fits (schema : TableSchema) (r : StoredRow) : Prop :=
  length (row_values r) = length (schema_columns schema).

Lemma validate_row_fits schema r : validate_row schema r = Ok tt -> row_fits schema r.
Proof.
  unfold validate_row, row_fits, len. destruct (Z.eqb_spec (Z.of_nat (length (row_values r)))
    (Z.of_nat (length (schema_columns schema)))); [lia|easy].
Qed.

Lemma cell_for_probed schema rows index c r :
  Forall (row_fits schema) rows -> schema_columns schema !! index = Some c -> r ∈ rows ->
  exists k, cell_for (probed schema rows (value_spec index c)) r = Ok k.
Proof.
  intros Hf Hc Hr. rewrite Forall_forall in Hf. specialize (Hf r Hr). unfold row_fits in Hf.
  destruct (lookup_lt_is_Some_2 (row_values r) index) as [v Hv]; [rewrite Hf; exact (lookup_lt_Some _ _ _ Hc)|].
  unfold probed. destruct (probe schema rows (value_spec index c)) as [units|] eqn:Ep.
  - destruct (probe_cells schema rows (value_spec index c) index units eq_refl Ep) as (c' & cells & _ & _ & Hp).
    unfold cell_for, native_cell. cbn [cs_source value_spec cs_native].
    destruct (probe_native_row _ _ _ _ _ Hp Hr) as [->|(text & u & -> & ->)]; eauto.
  - unfold cell_for, native_cell. cbn [cs_source value_spec cs_native]. rewrite Hv. destruct v; eauto.
Qed.

(** The value columns of a written file, one for each column of the schema. *)
Definition value_columns (schema : TableSchema) (rows : list StoredRow) (cols : list FileColumn) : Prop :=
  length cols = length (schema_columns schema) /\
  forall index c, schema_columns schema !! index = Some c ->
    exists fc, cols !! index = Some fc /\ write_column rows (probed schema rows (value_spec index c)) = Ok fc.

Definition system_columns (rows : list StoredRow) : list FileColumn := [
  {| fc_id := KEY_COLUMN_ID; fc_logical_type := LPrimaryKey; fc_cells := map (fun r => CKey (row_key r)) rows |};
  {| fc_id := VERSION_COLUMN_ID; fc_logical_type := LUInt64;
     fc_cells := map (fun r => CUInt64 (row_version r)) rows |};
  {| fc_id := TOMBSTONE_COLUMN_ID; fc_logical_type := LBoolean;
     fc_cells := map (fun r => CBoolean (row_deleted r)) rows |} ].

Lemma map_result_Ok {E A B} (f : A -> B) (l : list A) : map_result (fun a => Ok (E := E) (f a)) l = Ok (map f l).
Proof. induction l as [|a l IH]; [easy|]. cbn [map_result map]. now rewrite IH. Qed.

Lemma write_system_column schema rows spec f :
  probe schema rows spec = None -> cell_for spec = (fun r => Ok (f r)) ->
  write_column rows (probed schema rows spec) =
  Ok {| fc_id := cs_id spec; fc_logical_type := cs_logical_type spec; fc_cells := map f rows |}.
Proof. intros Hp Hc. unfold write_column, probed. rewrite Hp, Hc. now rewrite map_result_Ok. Qed.

Lemma write_columns_ok schema rows :
  Forall (row_fits schema) rows ->
  exists cols, map_result (write_column rows) (map (probed schema rows) (column_specs schema)) =
    Ok (system_columns rows ++ cols) /\ value_columns schema rows cols.
Proof.
  intros Hf. set (specs := map (probed schema rows) (imap value_spec (schema_columns schema))).
  assert (Hs : forall index, specs !! index =
                 (fun c => probed schema rows (value_spec index c)) <$> schema_columns schema !! index).
  { intros index. unfold specs. rewrite (list_lookup_fmap (probed schema rows)), list_lookup_imap.
    now destruct (schema_columns schema !! index). }
  destruct (map_result_total (write_column rows) specs) as [cols Hc].
  { apply Forall_lookup. intros index spec Hi. rewrite Hs in Hi.
    destruct (schema_columns schema !! index) as [c|] eqn:Ec; [|easy]. injection Hi as <-.
    unfold write_column. destruct (map_result_total (cell_for (probed schema rows (value_spec index c))) rows) as [k ->];
      [|unfold mbind, result_bind; eauto].
    apply Forall_forall. intros r Hr. now apply cell_for_probed. }
  exists cols. split.
  - unfold column_specs. rewrite map_app. fold specs. cbn [map system_specs app map_result].
    erewrite !write_system_column by reflexivity. unfold mbind, result_bind. now rewrite Hc.
  - apply map_result_Forall2 in Hc. split.
    + rewrite <- (Forall2_length _ _ _ Hc). unfold specs. now rewrite length_map, length_imap.
    + intros index c Hi. specialize (Hs index). rewrite Hi in Hs.
      destruct (Forall2_lookup_l _ _ _ _ _ Hc Hs) as (fc & Hfc & Hw). eauto.
Qed.

Definition schema_ok (schema : TableSchema) : Prop :=
  Forall column_ok (schema_columns schema) /\ Forall (fun c => DataType_wf (col_data_type c) = true) (schema_columns schema) /\
  NoDup (map col_id (schema_columns schema)).

(** The later schema keeps a column's type, or changes it in place. *)
Definition evolves (schema schema' : TableSchema) : Prop :=
  schema_version schema <= schema_version schema' /\
  forall c c', c ∈ schema_columns schema -> c' ∈ schema_columns schema' -> col_id c = col_id c' ->
    widened (col_data_type c) (col_data_type c').

(** A pass that may be refused. *)
Lemma map_result_refused {A B} (Q : A -> Prop) (P : A -> B -> Prop) (f : A -> result StoreError B) l :
  Forall (fun a => (exists b, f a = Ok b /\ P a b) \/ (Q a /\ exists m, f a = Err (IncompatibleSchema m))) l ->
  (exists k, map_result f l = Ok k /\ Forall2 P l k) \/
  ((exists a, a ∈ l /\ Q a) /\ exists m, map_result f l = Err (IncompatibleSchema m)).
Proof.
  induction 1 as [|a l Ha _ IH]; [left; exists []; now split|]. cbn [map_result]. unfold mbind, result_bind.
  destruct Ha as [(b & -> & Hb)|(Hq & m & ->)].
  - destruct IH as [(k & -> & Hk)|((x & Hx & Hq) & m & ->)]; [left|right].
    + exists (b :: k). split; [easy|]. now constructor.
    + split; [|eauto]. exists x. split; [now right|easy].
  - right. split; [|eauto]. exists a. split; [apply list_elem_of_here|easy].
Qed.

Section reading.
Variables (schema schema' : TableSchema) (rows : list StoredRow) (cols : list FileColumn).
Hypothesis Hschema : schema_ok schema.
Hypothesis Hschema' : schema_ok schema'.
Hypothesis Hevolves : evolves schema schema'.
Hypothesis Hcols : value_columns schema rows cols.

Lemma written_cells fc index c :
  schema_columns schema !! index = Some c -> cols !! index = Some fc ->
  fc_id fc = col_id c /\ len (fc_cells fc) = len rows /\
  write_column rows (probed schema rows (value_spec index c)) = Ok fc.
Proof.
  intros Hc Hfc. destruct Hcols as [_ H]. destruct (H index c Hc) as (fc' & Hfc' & Hw).
  rewrite Hfc in Hfc'. injection Hfc' as <-. split; [|split; [|easy]].
  all: unfold write_column in Hw; destruct (map_result _ rows) as [k|] eqn:Ek; [|easy]; injection Hw as <-.
  - cbn [fc_id]. unfold probed. now destruct (probe _ _ _).
  - cbn [fc_cells]. apply map_result_Forall2 in Ek. unfold len. now rewrite (Forall2_length _ _ _ Ek).
Qed.

Lemma column_of fc : fc ∈ cols -> exists index c, schema_columns schema !! index = Some c /\ cols !! index = Some fc.
Proof.
  intros [index Hi]%list_elem_of_lookup. destruct (lookup_lt_is_Some_2 (schema_columns schema) index) as [c Hc]; eauto.
  destruct Hcols as [Hl _]. rewrite <- Hl. exact (lookup_lt_Some _ _ _ Hi).
Qed.

Lemma written_ids : map fc_id cols = map col_id (schema_columns schema).
Proof.
  apply list_eq. intros index. rewrite (list_lookup_fmap fc_id), (list_lookup_fmap col_id).
  destruct (schema_columns schema !! index) as [c|] eqn:Ec.
  - destruct Hcols as [_ H]. destruct (H index c Ec) as (fc & Hfc & _). rewrite Hfc. cbn.
    now destruct (written_cells fc index c Ec Hfc) as [-> _].
  - destruct (cols !! index) as [fc|] eqn:Ef; [|easy]. apply lookup_lt_Some in Ef. apply lookup_ge_None in Ec.
    destruct Hcols as [Hl _]. lia.
Qed.

Lemma written_value_columns : Forall (value_column (len rows)) cols.
Proof.
  apply Forall_forall. intros fc Hfc. destruct (column_of fc Hfc) as (index & c & Hc & Hi).
  destruct (written_cells fc index c Hc Hi) as (Hid & Hl & _). split; [easy|]. rewrite Hid.
  destruct Hschema as [Hok _]. rewrite Forall_forall in Hok. destruct (Hok c) as (_ & _ & Hlt); [|exact Hlt].
  exact (list_elem_of_lookup_2 _ _ _ Hc).
Qed.

(** A written column under a column of the later schema. *)
Lemma read_written_column fc c' :
  fc ∈ cols -> c' ∈ schema_columns schema' -> col_id c' = fc_id fc ->
  (exists cells, value_cells c' fc = Ok cells /\ map into_value cells = map (fun r => evolved_value schema r c') rows) \/
  ((c' ∉ schema_columns schema) /\ exists m, value_cells c' fc = Err (IncompatibleSchema m)).
Proof.
  intros Hfc Hc' Hid. destruct (column_of fc Hfc) as (index & c & Hc & Hi).
  destruct (written_cells fc index c Hc Hi) as (Hid' & _ & Hw). pose proof (list_elem_of_lookup_2 _ _ _ Hc) as Hin.
  destruct Hschema as (Hok & Hwf & Hnd). rewrite Forall_forall in Hok, Hwf.
  assert (Hf : list_find (fun o => col_id o = col_id c') (schema_columns schema) = Some (index, c)).
  { apply column_by_id; [easy..|congruence]. }
  destruct (value_cells_written schema rows index c fc c' Hc) as [(cells & Hk & Hm)|(Hne & m & Hm)];
    [now apply Hok|now apply Hwf|easy|apply widened_carries; apply Hevolves; [easy..|congruence]|left|right].
  - exists cells. split; [easy|]. rewrite Hm. unfold column_values. apply map_ext. intros r. unfold evolved_value.
    now rewrite Hf.
  - split; [|now exists m]. intros [j Hj]%list_elem_of_lookup.
    rewrite (column_by_id schema Hnd j c' (col_id c') Hj eq_refl) in Hf. injection Hf as _ ->. easy.
Qed.

Lemma read_counted_column row_count d c d' :
  len (fc_cells c) = row_count -> read_column schema' (len (fc_cells c)) d c = Ok d' -> read_column schema' row_count d c = Ok d'.
Proof. now intros <-. Qed.

Lemma read_system_columns d values :
  dc_keys d = None -> dc_versions d = None -> dc_tombstones d = None ->
  fold_result (read_column schema' (len rows)) d (system_columns rows ++ values) =
  fold_result (read_column schema' (len rows))
    {| dc_keys := Some (map (fun r => CKey (row_key r)) rows);
       dc_versions := Some (map (fun r => CUInt64 (row_version r)) rows);
       dc_tombstones := Some (map (fun r => CBoolean (row_deleted r)) rows); dc_values := dc_values d |} values.
Proof.
  destruct d as [k v t vs]. cbn [dc_keys dc_versions dc_tombstones dc_values]. intros -> -> ->.
  unfold system_columns. cbn [app fold_result].
  do 3 (erewrite read_counted_column;
    [|cbn [fc_cells]; now rewrite len_map|unfold read_column at 1; rewrite Z.eqb_refl; reflexivity];
    unfold mbind at 1, result_bind at 1).
  reflexivity.
Qed.

(** The cells a column of the later schema reads. *)
Definition reads_column (c' : Column) (cells : list Cell) : Prop :=
  map into_value cells = map (fun r => evolved_value schema r c') rows.

Lemma absent_column c' :
  (forall fc, fc ∈ cols -> fc_id fc <> col_id c') ->
  (reads_column c' (replicate (Z.to_nat (len rows)) (absent_cell c'))) /\ c' ∉ schema_columns schema.
Proof.
  intros Hx. assert (Hids : forall c, c ∈ schema_columns schema -> col_id c <> col_id c').
  { intros c Hc E. assert (Hin : col_id c ∈ map fc_id cols) by (rewrite written_ids; now apply (list_elem_of_fmap_2 col_id)).
    apply list_elem_of_fmap in Hin as (fc & Hid & Hfc). apply (Hx fc Hfc). congruence. }
  split; [|intros Hc; now apply (Hids c' Hc)]. unfold reads_column, len. rewrite Nat2Z.id.
  rewrite fmap_replicate. rewrite absent_cell_value. unfold evolved_value.
  replace (list_find _ (schema_columns schema)) with (@None (nat * Column)).
  - now rewrite <- const_fmap with (f := fun _ => match col_absent_fill c' with Some v => durable_value v | None => VNull end).
  - symmetry. apply list_find_None. apply Forall_forall. intros c Hc. now apply Hids.
Qed.

(** Every column of the later schema ends with its cells, or is refused. *)
Lemma fill_absent_ok index c' v values :
  reads schema' (replicate (length (schema_columns schema')) None) values cols ->
  schema_columns schema' !! index = Some c' -> values !! index = Some v ->
  (exists cells, fill_absent (len rows) (c', v) = Ok cells /\ reads_column c' cells) \/
  ((c' ∈ schema_columns schema' /\ (c' ∉ schema_columns schema)) /\
   exists m, fill_absent (len rows) (c', v) = Err (IncompatibleSchema m)).
Proof.
  intros [_ Hr] Hc' Hv. destruct (Hr index c' Hc') as [H1 H2]. pose proof (list_elem_of_lookup_2 _ _ _ Hc') as Hin.
  destruct (decide (Exists (fun fc => fc_id fc = col_id c') cols)) as [(fc & Hfc & Hid)%Exists_exists|Hno].
  - destruct (H1 fc Hfc Hid) as (cells & Hcells & Hv'). left. exists cells.
    replace v with (Some cells) by congruence. split; [easy|].
    destruct (read_written_column fc c' Hfc Hin (eq_sym Hid)) as [(cells' & Hk & Hm)|(_ & m & Hm)]; [|congruence].
    replace cells with cells' by congruence. exact Hm.
  - assert (Hx : forall fc, fc ∈ cols -> fc_id fc <> col_id c').
    { intros fc Hfc E. apply Hno, Exists_exists. eauto. }
    destruct (absent_column c' Hx) as [Ha Hout]. rewrite (H2 Hx) in Hv.
    rewrite lookup_replicate_2 in Hv by exact (lookup_lt_Some _ _ _ Hc'). injection Hv as <-. cbn [fill_absent].
    destruct (readable_when_absent c'); [left|right]; eauto.
Qed.

Lemma read_values :
  (exists values,
     read_file_segment_columns schema' (len rows) (system_columns rows ++ cols) =
     Ok (map (fun r => CKey (row_key r)) rows, map (fun r => CUInt64 (row_version r)) rows,
         map (fun r => CBoolean (row_deleted r)) rows, values) /\
     Forall2 reads_column (schema_columns schema') values) \/
  ((exists c', c' ∈ schema_columns schema' /\ c' ∉ schema_columns schema) /\
   exists m, read_file_segment_columns schema' (len rows) (system_columns rows ++ cols) = Err (IncompatibleSchema m)).
Proof.
  unfold read_file_segment_columns. rewrite read_system_columns by easy. cbn [dc_values].
  destruct Hschema' as (_ & _ & Hnd'). destruct Hschema as (_ & _ & Hnd).
  match goal with |- context [fold_result _ ?d cols] =>
    destruct (read_columns_ok schema' (len rows) Hnd' cols d) as [(values & -> & Hr)|(e & fc & c' & -> & Hfc & Hc' & Hid & He)]
  end; [exact written_value_columns|now rewrite written_ids|..].
  - cbn [dc_values]. split; [now rewrite length_replicate|]. intros fc index c _ Hc _.
    apply lookup_replicate_2. exact (lookup_lt_Some _ _ _ Hc).
  - cbn [dc_values with_values dc_keys dc_versions dc_tombstones] in *. unfold mbind at 1 3, result_bind at 1 3.
    cbn [dc_values with_values dc_keys dc_versions dc_tombstones].
    destruct (map_result_refused (fun p => p.1 ∈ schema_columns schema' /\ p.1 ∉ schema_columns schema) (fun p => reads_column p.1)
                (fill_absent (len rows)) (zip (schema_columns schema') values)) as [(k & -> & Hk)|((p & Hp & Hin & Hout) & m & ->)].
    + apply Forall_lookup. intros index [c' v] Hi. apply lookup_zip_Some in Hi as [Hc' Hv]. now apply (fill_absent_ok index c' v values).
    + left. exists k. split; [easy|]. apply (Forall2_fmap_l fst reads_column) in Hk.
      rewrite fst_zip in Hk; [exact Hk|]. destruct Hr as [Hl _]. rewrite Hl, length_replicate. lia.
    + right. split; [eauto|now exists m].
  - right. destruct (read_written_column fc c' Hfc Hc' Hid) as [(cells & Hk & _)|(Hout & m & Hm)]; [congruence|].
    split; [eauto|]. exists m. replace e with (IncompatibleSchema m) by congruence. easy.
Qed.

End reading.

Section files.
Context `{Checksum} `{BlockSketches}.

(** The metadata only guards a read: two reads of one file that succeed agree. *)
Lemma read_file_same f m m' schema rows rows' : read_file f m schema = Ok rows -> read_file f m' schema = Ok rows' -> rows' = rows.
Proof.
  unfold read_file, mbind, result_bind. destruct (verify_file f m schema); [|easy]. destruct (verify_file f m' schema); [|easy].
  do 2 (destruct (negb _); [easy|]). congruence.
Qed.

(** The file of valid rows is written, and reads under a later schema as the rows brought
    to it, or is refused. *)
Lemma read_evolved schema schema' rows meta id block_rows unique :
  schema_ok schema -> schema_ok schema' -> evolves schema schema' -> Forall (row_fits schema) rows ->
  segment_facts id schema rows block_rows unique = Ok meta ->
  exists f, write_file schema meta rows = Ok f /\
    (read_file f meta schema' = Ok (map (evolved_row schema schema') rows) \/
     ((exists c, c ∈ schema_columns schema' /\ (c ∉ schema_columns schema)) /\
      exists m, read_file f meta schema' = Err (IncompatibleSchema m))).
Proof.
  intros Hs Hs' He Hf Hm. destruct (write_columns_ok schema rows Hf) as (cols & Hw & Hc).
  unfold write_file. rewrite Hw. unfold mbind, result_bind. eexists. split; [reflexivity|].
  destruct (segment_facts_inv _ _ _ _ _ _ Hm) as (first & rest & bloom & -> & _ & ->).
  set (rows := first :: rest) in *. unfold read_file, verify_file.
  cbn [sf_schema_version sf_fingerprint sf_row_count sf_columns sf_footer written_facts seg_schema_fingerprint seg_row_count].
  destruct He as [Hv He]. rewrite bool_decide_true, (proj2 (Z.ltb_ge _ _) Hv), !Z.eqb_refl by easy. cbn [negb].
  destruct (read_values schema schema' rows cols Hs Hs' (conj Hv He) Hc) as [(values & -> & Hk)|(Hx & m & ->)]; [left|right; eauto].
  unfold mbind, result_bind. cbv beta iota. rewrite assemble_rows_ok.
  - f_equal. apply list_eq. intros j. rewrite list_lookup_imap, list_lookup_fmap.
    destruct (rows !! j) as [r|] eqn:Er; [|easy]. cbn. f_equal. unfold row_at, evolved_row. f_equal.
    clear -Hk Er. induction Hk as [|c' cells cs values Hc _ IH]; [easy|]. cbn [map]. rewrite IH. f_equal.
    unfold reads_column in Hc. apply (f_equal (lookup j)) in Hc.
    rewrite (list_lookup_fmap into_value), (list_lookup_fmap (fun r => _)), Er in Hc. unfold cell_at.
    destruct (cells !! j); [now apply (inj Some) in Hc|discriminate Hc].
  - clear -Hk. induction Hk as [|c' cells cs values Hc _ IH]; constructor; [|easy].
    unfold reads_column in Hc. apply (f_equal length) in Hc. now rewrite !length_map in Hc.
Qed.

Lemma evolved_row_self schema r :
  NoDup (map col_id (schema_columns schema)) -> row_fits schema r -> evolved_row schema schema r = durable_row r.
Proof.
  intros Hnd Hf. unfold evolved_row, durable_row. f_equal. apply list_eq. intros index.
  rewrite (list_lookup_fmap (evolved_value schema r)), (list_lookup_fmap durable_value).
  destruct (schema_columns schema !! index) as [c|] eqn:Ec; cbn.
  - unfold evolved_value. rewrite (column_by_id schema Hnd index c _ Ec eq_refl).
    destruct (row_values r !! index) as [v|] eqn:Ev; [easy|]. apply lookup_lt_Some in Ec. apply lookup_ge_None in Ev.
    unfold row_fits in Hf. lia.
  - destruct (row_values r !! index) as [v|] eqn:Ev; [|easy]. apply lookup_lt_Some in Ev. apply lookup_ge_None in Ec.
    unfold row_fits in Hf. lia.
Qed.

Lemma evolves_refl schema : schema_ok schema -> evolves schema schema.
Proof.
  intros (_ & _ & Hnd). split; [lia|]. intros c c' [i Hi]%list_elem_of_lookup [j Hj]%list_elem_of_lookup E.
  pose proof (column_by_id schema Hnd i c _ Hi E) as F. rewrite (column_by_id schema Hnd j c' _ Hj eq_refl) in F.
  injection F as -> ->. apply rtc_refl.
Qed.

Lemma read_written schema rows meta id block_rows unique :
  schema_ok schema -> Forall (row_fits schema) rows ->
  segment_facts id schema rows block_rows unique = Ok meta ->
  exists f, write_file schema meta rows = Ok f /\ read_file f meta schema = Ok (map durable_row rows).
Proof.
  intros Hs Hf Hm. destruct (read_evolved schema schema rows meta id block_rows unique) as (f & Hw & Hr);
    [easy|easy|now apply evolves_refl|easy|easy|].
  exists f. split; [easy|]. destruct Hr as [->|[(c & H1 & H2) _]]; [|easy]. f_equal. apply map_ext_in. intros r Hr.
  apply evolved_row_self; [apply Hs|]. rewrite Forall_forall in Hf. now apply Hf, list_elem_of_In.
Qed.

(** C11. A segment file gives its rows back, also after the schema has changed.  Written from rows
    that pass [validate_row] and read under the same schema, it returns every row as its durable
    value.  Under a later schema, where a column kept its type or changed it through steps that
    [widening_compatible] admits, columns are matched by their identifiers whatever their order:
    dropped columns disappear, added ones read their fill or NULL, and native units read as the text
    they were written from - or the read is refused as incompatible; a value is never misread. *)
Theorem segment_read_back schema schema' rows id block_rows unique meta :
  schema_ok schema -> schema_ok schema' -> evolves schema schema' ->
  Forall (fun r => validate_row schema r = Ok tt) rows ->
  segment_facts id schema rows block_rows unique = Ok meta ->
  exists f, write_file schema meta rows = Ok f /\
    read_file f meta schema = Ok (map durable_row rows) /\
    (read_file f meta schema' = Ok (map (evolved_row schema schema') rows) \/
     exists m, read_file f meta schema' = Err (IncompatibleSchema m)).
Proof.
  intros Hs Hs' He Hv Hm.
  assert (Hf : Forall (row_fits schema) rows) by (eapply Forall_impl; [exact Hv|apply validate_row_fits]).
  destruct (read_evolved schema schema' rows meta id block_rows unique) as (f & Hw & Hr); try easy.
  destruct (read_written schema rows meta id block_rows unique) as (f' & Hw' & Hr'); try easy.
  replace f' with f in * by congruence. exists f. split; [easy|]. split; [easy|]. destruct Hr as [Hr|[_ Hr]]; auto.
Qed.

End files.

(** ** Witnesses *)

Module SegmentFileExamples.
#[local] Existing Instance WalExamples.example_checksum.
#[local] Existing Instance SegmentExamples.no_sketches.

Definition column (id name : Z) (t : DataType) (fill : option Value) : Column := {|
  col_id := id; col_name := [byte.of_Z name]; col_data_type := t; col_nullable := bool_decide (fill = None);
  col_collation := None; col_enum_labels := None; col_set_members := None; col_geometry := false;
  col_timestamp := false; col_binary_width := None; col_bit_width := None; col_float_decimals := None;
  col_absent_fill := fill |}.

(** A decimal that widens, a column dropped, one added with a default, the order changed. *)
Definition before : TableSchema := {|
  schema_version := 1; schema_key_mode := KMPrimary;
  schema_columns := [column 1 97 DUInt64 None; column 2 98 (DDecimal 10 2) None; column 3 99 DUtf8 None] |}.
Definition after : TableSchema := {|
  schema_version := 2; schema_key_mode := KMPrimary;
  schema_columns := [column 3 99 DUtf8 None; column 2 98 (DDecimal 12 2) None; column 4 100 DUInt64 (Some (VUInt64 7))] |}.

(** 1, "1.50", "x" *)
Definition row : StoredRow := {|
  row_key := [PUInt64 1]; row_version := 5; row_deleted := false;
  row_values := [VUInt64 1; VUtf8 (map byte.of_Z [49; 46; 53; 48]); VEnum 2 [byte.of_Z 120]] |}.

Lemma segment_read_back_witness :
  exists meta f, segment_facts 1 before [row] 2 true = Ok meta /\ write_file before meta [row] = Ok f /\
    read_file f meta before = Ok [durable_row row] /\ read_file f meta after = Ok [evolved_row before after row].
Proof.
  destruct (segment_facts 1 before [row] 2 true) as [meta|e] eqn:E; [|vm_compute in E; discriminate E].
  exists meta. destruct (segment_read_back before after [row] 1 2 true meta) as (f & Hw & Hr & Hr').
  - split; [repeat constructor; vm_compute; easy|]. split; [repeat constructor|].
    apply (bool_decide_unpack _). vm_compute. exact I.
  - split; [repeat constructor; vm_compute; easy|]. split; [repeat constructor|].
    apply (bool_decide_unpack _). vm_compute. exact I.
  - split; [vm_compute; easy|]. cbn [before after schema_columns]. intros c c' Hc Hc'.
    repeat (apply elem_of_cons in Hc as [->|Hc]); try now apply not_elem_of_nil in Hc.
    all: repeat (apply elem_of_cons in Hc' as [->|Hc']); try now apply not_elem_of_nil in Hc'.
    all: cbn [column col_id col_data_type]; intros Hid; try discriminate Hid; try apply rtc_refl; now apply rtc_once.
  - repeat constructor.
  - exact E.
  - exists f. split; [easy|]. split; [easy|]. split; [easy|]. destruct Hr' as [Hr'|(m & Hr')]; [exact Hr'|].
    exfalso. clear Hr. vm_compute in E, Hw. injection E as <-. injection Hw as <-. vm_compute in Hr'. discriminate Hr'.
Defined.

End SegmentFileExamples.
