(* ===== verification/Packing.v ===== *)
(** * Packed integers

    Integers of a fixed bit width, packed lowest bit first: the packing of [segment/encoding.rs], and
    its decoders - the reader that keeps an accumulator, the kernels for groups of sixty-four values, and
    the portable and AVX2 kernels of [src/crates/pintail-simd/src/unpack.rs] with their dispatch in
    [lib.rs].  A failed assertion or a slice out of range is [None]. *)

From Stdlib Require Import ZArith Lia String.
From stdpp Require Import prelude list list_numbers.
From coqutil Require Import Byte Word.LittleEndianList.
From S2P Require Import Prelude.
From S2P Require Import Codec.
From S2P Require Import Segment.
From S2P Require Import SegmentFile.

#[local] Open Scope Z_scope.

(** ** Tables *)

(** [f 0, f 1, ..., f (n - 1)]: a slice filled by index. *)
Definition tabulate {A} (n : Z) (f : Z -> A) : list A := map f (seqZ 0 n).

(** [bytes[at..at + n]]. *)
Definition slice {A} (l : list A) (at_ n : Z) : list A := take (Z.to_nat n) (drop (Z.to_nat at_) l).

(** A buffer of [n] bytes, zero past the end of [l]. *)
Definition padded (n : Z) (l : list byte) : list byte := l ++ replicate (Z.to_nat n - length l) Byte.x00.

(** [&bytes[at..]]: out of range it panics. *)
Definition slice_from {A} (l : list A) (at_ : Z) : option (list A) :=
  if at_ <=? len l then Some (drop (Z.to_nat at_) l) else None.

(** [checked_mul] on an unsigned [w]-bit integer. *)
Definition checked_mul (w a b : Z) : option Z := if a * b <? 2 ^ w then Some (a * b) else None.

(** ** The portable kernel ([pintail-simd], [unpack.rs]) *)

(** The mask of [unpack.rs]; [encoding.rs] has its own below. *)
Definition simd_width_mask (width : Z) : Z := if 64 <=? width then u64_max else Z.shiftl 1 width - 1.

(** The assertions of [check]: both of them hold. *)
Definition check (width : Z) (bytes : list byte) (values : Z) : bool :=
  (width <=? 64) && match checked_mul 64 values width with Some bits => div_ceil bits 8 <=? len bytes | None => false end.

(** The sixteen bytes from [at_], zeros past the end. *)
Definition window_at (bytes : list byte) (at_ : Z) : list byte :=
  if at_ + 16 <=? len bytes then slice bytes at_ 16 else padded 16 (drop (Z.to_nat at_) bytes).

Definition unpack_portable (width : Z) (bytes : list byte) (base n : Z) : list Z :=
  if width =? 0 then tabulate n (fun _ => base)
  else
    tabulate n (fun index =>
      let bit := index * width in
      let at_ := bit / 8 in
      let shift := bit mod 8 in
      let low := Z.shiftr (from_le (window_at bytes at_)) shift mod 2 ^ 64 in
      wrap_add 64 (Z.land low (simd_width_mask width)) base).

(** ** The AVX2 kernel ([unpack.rs]) *)

(** Values in one run, bytes its load reads, and the widest value. *)
Definition RUN : Z := 8.
Definition WINDOW : Z := 64.
Definition AVX2_WIDEST : Z := 57.

(** A 256-bit register is its 32 bytes.  The instructions, as Intel documents them. *)

Definition mm256_set_m128i (high low : list byte) : list byte := low ++ high.

(** In each half, byte [i] of the result is the byte the low four bits of index [i] name, or zero when
    its highest bit is set. *)
Definition mm256_shuffle_epi8 (a : list byte) (b : list Z) : list byte :=
  imap (fun i index =>
    if 128 <=? index then Byte.x00
    else default Byte.x00 (a !! Z.to_nat (16 * (Z.of_nat i / 16) + index mod 16))) b.

(** The 64-bit lanes of a register. *)
Definition lanes (v : list byte) : list Z := tabulate 4 (fun lane => from_le (slice v (8 * lane) 8)).

Definition mm256_srlv_epi64 (a count : list Z) : list Z :=
  zip_with (fun x c => if c <? 64 then Z.shiftr x c else 0) a count.

Definition mm256_and_si256 (a : list Z) (b : Z) : list Z := map (fun x => Z.land x b) a.
Definition mm256_add_epi64 (a : list Z) (b : Z) : list Z := map (fun x => wrap_add 64 x b) a.

(** The bit, within the pair's first byte, its [half]th value starts at. *)
Definition pair_offset (width pair : Z) : Z := pair * 2 * width / 8.
Definition within (width pair half : Z) : Z := (pair * 2 * width) mod 8 + half * width.
Definition pair_shuffle (width pair : Z) : list Z :=
  concat (tabulate 2 (fun half => tabulate 8 (fun byte => within width pair half / 8 + byte))).
Definition pair_shift (width pair : Z) : list Z := tabulate 2 (fun half => within width pair half mod 8).

(** Four values: two pairs, each from its own sixteen bytes of the window. *)
Definition half_run (width : Z) (window : list byte) (first second mask base : Z) : list Z :=
  let low := slice window (pair_offset width first) 16 in
  let high := slice window (pair_offset width second) 16 in
  let loaded := mm256_set_m128i high low in
  let placed := mm256_shuffle_epi8 loaded (pair_shuffle width first ++ pair_shuffle width second) in
  let aligned := mm256_srlv_epi64 (lanes placed) (pair_shift width first ++ pair_shift width second) in
  mm256_add_epi64 (mm256_and_si256 aligned mask) base.

(** One run of eight values from its window. *)
Definition decode_run (width : Z) (window : list byte) (base : Z) : list Z :=
  let mask := simd_width_mask width in half_run width window 0 1 mask base ++ half_run width window 2 3 mask base.

Definition padded_window (bytes : list byte) (start : Z) : list byte :=
  padded WINDOW (take (Z.to_nat WINDOW) (drop (Z.to_nat start) bytes)).

(** The runs whose window lies inside the payload, then the others from a padded window; the last may
    be short. *)
Definition direct_runs (width : Z) (bytes : list byte) (n : Z) : Z :=
  let slack := len bytes - WINDOW in if slack <? 0 then 0 else Z.min (slack / width + 1) (n / RUN).

Definition unpack_u64_avx2 (width : Z) (bytes : list byte) (base n : Z) : list Z :=
  if (width =? 0) || (AVX2_WIDEST <? width) then unpack_portable width bytes base n
  else
    let direct := direct_runs width bytes n in
    let rest := n - direct * RUN in
    concat (tabulate direct (fun index => decode_run width (slice bytes (index * width) WINDOW) base))
    ++ concat (tabulate ((rest + RUN - 1) / RUN) (fun index =>
         take (Z.to_nat (Z.min RUN (rest - index * RUN))) (decode_run width (padded_window bytes ((direct + index) * width)) base))).

(** *** Dispatch ([lib.rs]) *)

Inductive Level : Type := Baseline | Avx2 | Avx512.

#[export] Instance Level_eq_dec : EqDecision Level.
Proof. solve_decision. Defined.

Inductive Dispatch : Type := DispatchBaseline | DispatchAvx2 | DispatchAvx512.

(** The process: whether its processor has the instruction sets ([V3::try_new], [V4::try_new]), and the
    lowercased [PINTAIL_SIMD]. *)
Class Machine : Type := { has_v3 : bool; has_v4 : bool; cap : string }.

Definition capped_to_baseline (cap : string) : bool :=
  String.eqb cap "off" || String.eqb cap "baseline" || String.eqb cap "portable".

Definition select `{Machine} : Dispatch :=
  if capped_to_baseline cap then DispatchBaseline
  else if negb has_v3 then DispatchBaseline
  else if String.eqb cap "avx512" && has_v4 then DispatchAvx512 else DispatchAvx2.

(** [avx2().is_some()]. *)
Definition avx2 `{Machine} : bool := match select with DispatchAvx2 | DispatchAvx512 => true | DispatchBaseline => false end.

Definition unpack_level `{Machine} (width : Z) : Level :=
  if (1 <=? width) && (width <=? AVX2_WIDEST) && avx2 then Avx2 else Baseline.

(** Whether the level ran, and the buffer after it. *)
Definition unpack_u64_at `{Machine} (level : Level) (width : Z) (bytes : list byte) (base : Z) (out : list Z) : option (bool * list Z) :=
  match level with
  | Baseline => if check width bytes (len out) then Some (true, unpack_portable width bytes base (len out)) else None
  | Avx2 =>
      if negb has_v3 then Some (false, out)
      else if check width bytes (len out) then Some (true, unpack_u64_avx2 width bytes base (len out)) else None
  | Avx512 => Some (false, out)
  end.

(** [debug_assert!(ran)] is off in a release build. *)
Definition unpack_u64 `{Machine} (width : Z) (bytes : list byte) (base : Z) (out : list Z) : option (list Z) :=
  snd <$> unpack_u64_at (unpack_level width) width bytes base out.

(** The same bits, read in two's complement. *)
Definition unpack_i64 `{Machine} (width : Z) (bytes : list byte) (base : Z) (out : list Z) : option (list Z) :=
  map (signed 64) <$> unpack_u64 width bytes (base mod 2 ^ 64) (map (fun z => z mod 2 ^ 64) out).

(** ** Packing ([segment/encoding.rs]) *)

(** [bytes[position / 8] |= 1 << (position % 8)]. *)
Definition set_packed_bit (bytes : list byte) (position : Z) : list byte :=
  alter (fun b => byte.of_Z (Z.lor (byte.unsigned b) (Z.shiftl 1 (position mod 8)))) (Z.to_nat (position / 8)) bytes.

Definition pack_value (width : Z) (bytes : list byte) (value_index value : Z) : list byte :=
  foldl (fun bytes bit => if negb (Z.land value (Z.shiftl 1 bit) =? 0) then set_packed_bit bytes (value_index * width + bit) else bytes)
    bytes (seqZ 0 width).

Fixpoint pack_from (width : Z) (bytes : list byte) (value_index : Z) (values : list Z) : list byte :=
  match values with
  | [] => bytes
  | value :: values => pack_from width (pack_value width bytes value_index value) (value_index + 1) values
  end.

Definition pack (values : list Z) (width : Z) : result StoreError (list byte) :=
  match checked_mul 64 (len values) width with
  | None => Err (FormatLimit (msg "bit-packed length overflow" []))
  | Some total_bits => Ok (pack_from width (replicate (Z.to_nat (div_ceil total_bits 8)) Byte.x00) 0 values)
  end.

(** [u64::BITS - maximum.leading_zeros()]. *)
Definition bit_length (z : Z) : Z := if z =? 0 then 0 else Z.log2 z + 1.

Definition encode_packed (e : Encoder) (values : list Z) : result StoreError Encoder :=
  let width := bit_length (foldl Z.max 0 values) in
  bytes ← pack values width;
  enc_bytes (enc_u8 e width) bytes (msg "bit-packed values" []).

(** ** The streaming reader *)

Record BitReader : Type := { br_bytes : list byte; br_cursor : Z; br_accumulator : Z; br_live_bits : Z }.

Definition bit_reader_new (bytes : list byte) : BitReader := {| br_bytes := bytes; br_cursor := 0; br_accumulator := 0; br_live_bits := 0 |}.

(** Shifting left in the 128 bits of the accumulator. *)
Definition refill_word (r : BitReader) (word bits bytes : Z) : BitReader := {|
  br_bytes := br_bytes r; br_cursor := br_cursor r + bytes;
  br_accumulator := Z.lor (br_accumulator r) (Z.shiftl word (br_live_bits r) mod 2 ^ 128); br_live_bits := br_live_bits r + bits |}.

(** The loop that fills the accumulator: eight bytes a turn, or one near the end. *)
Fixpoint refill (fuel : nat) (width : Z) (r : BitReader) : BitReader :=
  match fuel with
  | O => r
  | S fuel =>
      if width <=? br_live_bits r then r
      else if br_cursor r + 8 <=? len (br_bytes r)
      then refill fuel width (refill_word r (from_le (slice (br_bytes r) (br_cursor r) 8)) 64 8)
      else if br_cursor r <? len (br_bytes r)
      then refill fuel width (refill_word r (from_le (slice (br_bytes r) (br_cursor r) 1)) 8 1)
      else r
  end.

Definition bit_reader_read (r : BitReader) (width mask : Z) : Z * BitReader :=
  let r := refill 9 width r in
  (Z.land (br_accumulator r mod 2 ^ 64) mask,
   {| br_bytes := br_bytes r; br_cursor := br_cursor r; br_accumulator := Z.shiftr (br_accumulator r) width;
      br_live_bits := Z.max 0 (br_live_bits r - width) |}).

Fixpoint read_values (n : nat) (r : BitReader) (width mask : Z) : list Z :=
  match n with
  | O => []
  | S n => let '(value, r) := bit_reader_read r width mask in value :: read_values n r width mask
  end.

(** ** Groups of sixty-four *)

Definition width_mask (width : Z) : Z := if width =? 64 then u64_max else Z.shiftl 1 width - 1.

Definition GROUP : Z := 64.
Definition VECTORED_GROUPS : Z := 8.

(** The window of one group, with eight bytes of slack. *)
Definition group_window (width : Z) (bytes : list byte) (group : Z) : list byte :=
  let group_bytes := width * 8 in
  let start := group * group_bytes in
  match get_range bytes start (start + group_bytes + 8) with
  | Some window => window
  | None => padded (group_bytes + 8) (slice bytes start group_bytes)
  end.

(** Values of at most 32 bits: one load of eight bytes each. *)
Definition narrow_group (width : Z) (bytes : list byte) (group : Z) : list Z :=
  let window := group_window width bytes group in
  concat (tabulate 8 (fun eight => tabulate 8 (fun index =>
    let bit := index * width in
    let at_ := eight * width + bit / 8 in
    Z.land (Z.shiftr (from_le (slice window at_ 8)) (bit mod 8)) (width_mask width)))).

(** The words of one group, and a zero past them. *)
Definition group_words (width : Z) (bytes : list byte) (group : Z) : list Z :=
  let chunk := slice bytes (group * (width * 8)) (width * 8) in
  tabulate width (fun word => from_le (slice chunk (8 * word) 8)) ++ replicate (Z.to_nat (GROUP + 1 - width)) 0.

Definition word_at (words : list Z) (index : Z) : Z := nth (Z.to_nat index) words 0.

(** Wider values: two words each. *)
Definition wide_group (width : Z) (bytes : list byte) (group : Z) : list Z :=
  let words := group_words width bytes group in
  tabulate GROUP (fun index =>
    let bit := index * width in
    let shift := bit mod 64 in
    let low := Z.shiftr (word_at words (bit / 64)) shift in
    let high := Z.shiftl (Z.shiftl (word_at words (bit / 64 + 1)) 1 mod 2 ^ 64) (63 - shift) mod 2 ^ 64 in
    Z.land (Z.lor low high) (width_mask width)).

(** [bytes.chunks_exact(width * 8).take(groups)] for the wide values. *)
Definition unpack_groups (width : Z) (bytes : list byte) (groups : Z) : list (list Z) :=
  if width <=? 32 then tabulate groups (narrow_group width bytes)
  else tabulate (Z.min groups (len bytes / (width * 8))) (wide_group width bytes).

(** [chunks_exact(n)]. *)
Definition chunks_exact {A} (n : Z) (l : list A) : list (list A) := tabulate (len l / n) (fun i => slice l (i * n) n).

(** A cleared buffer. *)
Definition zeros (n : Z) : list Z := replicate (Z.to_nat n) 0.

(** The loop over the calls, eight groups each; what the buffer held before is overwritten. *)
Fixpoint vectored_calls `{Machine} (fuel : nat) (width : Z) (bytes : list byte) (groups group : Z) : option (list (list Z)) :=
  match fuel with
  | O => Some []
  | S fuel =>
      if groups <=? group then Some []
      else
        let batch := Z.min (groups - group) VECTORED_GROUPS in
        payload ← slice_from bytes (group * (GROUP * width / 8));
        values ← unpack_u64 width payload 0 (zeros (batch * GROUP));
        rest ← vectored_calls fuel width bytes groups (group + batch);
        Some (chunks_exact GROUP values ++ rest)
  end.

Definition unpack_groups_vectored `{Machine} (width : Z) (bytes : list byte) (groups : Z) : option (list (list Z)) :=
  if groups =? 1 then (fun values => [values]) <$> unpack_u64 width bytes 0 (zeros GROUP)
  else vectored_calls (Z.to_nat groups) width bytes groups 0.

(** The groups the sink is handed, in order. *)
Definition unpack_whole_groups `{Machine} (width : Z) (bytes : list byte) (groups : Z) : option (list (list Z)) :=
  if (0 <? groups) && negb (bool_decide (unpack_level width = Baseline)) then unpack_groups_vectored width bytes groups
  else if width =? 0 then Some (tabulate groups (fun _ => zeros GROUP))
  else if width <=? 64 then Some (unpack_groups width bytes groups) else None.

(** The last, shorter group, through the reader. *)
Definition tail_group (width : Z) (bytes : list byte) (consumed rest : Z) : option (list Z) :=
  payload ← slice_from bytes consumed;
  Some (read_values (Z.to_nat rest) (bit_reader_new payload) width (width_mask width)).

(** Every group of a payload. *)
Definition unpacked_groups `{Machine} (bytes : list byte) (width value_count : Z) : option (list (list Z)) :=
  let whole_groups := value_count / GROUP in
  whole ← unpack_whole_groups width bytes whole_groups;
  let rest := value_count - whole_groups * GROUP in
  if 0 <? rest
  then tail ← tail_group width bytes (whole_groups * GROUP * width / 8) rest; Some (whole ++ [tail])
  else Some whole.

(** The sink over them, until it fails. *)
Definition for_each_unpacked_group `{Machine} {S E} (bytes : list byte) (width value_count : Z)
    (sink : S -> list Z -> result E S) (s : S) : option (result E S) :=
  fold_result sink s <$> unpacked_groups bytes width value_count.

(** ** Payloads *)

Definition unpack_header (value_count : Z) : Dec (Z * list byte) :=
  width ← dec_u8;
  if 64 <? width then fail (msg "invalid bit width {width}" [width])
  else
    bytes ← dec_byte_string;
    match checked_mul 64 value_count width with
    | None => fail (msg "bit-packed length overflow" [])
    | Some expected_bits =>
        if len bytes =? div_ceil expected_bits 8 then mret (width, bytes)
        else fail (msg "bit-packed payload has {} bytes, expected {}" [len bytes; div_ceil expected_bits 8])
    end.

Definition decodes_whole `{Machine} (width value_count : Z) : bool :=
  (GROUP <=? value_count) && negb (bool_decide (unpack_level width = Baseline)).

Definition WHOLE_CHUNK : Z := GROUP * VECTORED_GROUPS.

Section whole.
Context {T : Type} (default_T : T).

(** The loop over the chunks of a payload. *)
Fixpoint unpack_whole_chunked (fuel : nat) (chunk width : Z) (bytes : list byte) (value_count : Z)
    (kernel : list byte -> list T -> option (list T)) (done : Z) (out : list T) : option (list T) :=
  match fuel with
  | O => Some out
  | S fuel =>
      if value_count <=? done then Some out
      else
        payload ← slice_from bytes (done * width / 8);
        values ← kernel payload (replicate (Z.to_nat (Z.min (value_count - done) chunk)) default_T);
        unpack_whole_chunked fuel chunk width bytes value_count kernel (done + len values) (out ++ values)
  end.

Definition unpack_whole (width : Z) (bytes : list byte) (value_count : Z) (out : list T)
    (kernel : list byte -> list T -> option (list T)) : option (list T) :=
  unpack_whole_chunked (Z.to_nat value_count) (if WHOLE_CHUNK <=? value_count then WHOLE_CHUNK else GROUP)
    width bytes value_count kernel 0 out.
End whole.

Definition unpack_whole_unsigned `{Machine} (width : Z) (bytes : list byte) (value_count base : Z) (out : list Z) : option (list Z) :=
  unpack_whole 0 width bytes value_count out (fun bytes values => unpack_u64 width bytes base values).

Definition unpack_whole_signed `{Machine} (width : Z) (bytes : list byte) (value_count base : Z) (out : list Z) : option (list Z) :=
  unpack_whole 0 width bytes value_count out (fun bytes values => unpack_i64 width bytes base values).

(** A decode that may panic, inside the decoder: the panic is the value [None]. *)
Definition settle_panic {A} (r : option (result message A)) : Dec (option A) :=
  match r with None => mret None | Some r => a ← Codec.lift r; mret (Some a) end.

(** [out.extend_from_slice(group)]. *)
Definition extend {E} (out group : list Z) : result E (list Z) := Ok (out ++ group).

(** The checked sum of one value, then the conversion to the destination. *)
Definition add_checked (fits : Z -> bool) (unfit : message) (base : Z) (out : list Z) (normalized : Z) : result message (list Z) :=
  match checked_i128 (base + normalized) with
  | None => Err (msg "bit-packed integer overflow" [])
  | Some value => if fits value then Ok (out ++ [value]) else Err unfit
  end.

(** [base.checked_add(mask)], at most [top]. *)
Definition base_reaches (base mask top : Z) : bool :=
  match checked_i128 (base + mask) with Some highest => highest <=? top | None => false end.

Definition unpack_signed_into `{Machine} (value_count base : Z) (out : list Z) : Dec (option (list Z)) :=
  '(width, bytes) ← unpack_header value_count;
  let in_range := (i64_min <=? base) && base_reaches base (width_mask width) i64_max in
  if in_range && (width <? 64) then
    if decodes_whole width value_count then mret (unpack_whole_signed width bytes value_count base out)
    else settle_panic (for_each_unpacked_group bytes width value_count
           (fun out group => Ok (out ++ map (fun value => signed 64 ((base + value) mod 2 ^ 64)) group)) out)
  else settle_panic (for_each_unpacked_group bytes width value_count
         (fold_result (add_checked is_i64 (msg "bit-packed signed integer overflow" []) base)) out).

Definition unpack_unsigned_into `{Machine} (value_count base : Z) (out : list Z) : Dec (option (list Z)) :=
  '(width, bytes) ← unpack_header value_count;
  let in_range := (0 <=? base) && base_reaches base (width_mask width) u64_max in
  if in_range then
    if decodes_whole width value_count then mret (unpack_whole_unsigned width bytes value_count base out)
    else settle_panic (for_each_unpacked_group bytes width value_count
           (fun out group => Ok (out ++ map (fun value => wrap_add 64 base value) group)) out)
  else settle_panic (for_each_unpacked_group bytes width value_count
         (fold_result (add_checked is_u64 (msg "bit-packed unsigned integer overflow" []) base)) out).

Definition unpack_into `{Machine} (value_count : Z) (out : list Z) : Dec (option (list Z)) :=
  '(width, bytes) ← unpack_header value_count;
  if decodes_whole width value_count then mret (unpack_whole_unsigned width bytes value_count 0 out)
  else settle_panic (for_each_unpacked_group bytes width value_count extend out).

Definition unpack `{Machine} (value_count : Z) : Dec (option (list Z)) :=
  '(width, bytes) ← unpack_header value_count;
  if decodes_whole width value_count then mret (unpack_whole_unsigned width bytes value_count 0 [])
  else settle_panic (for_each_unpacked_group bytes width value_count extend []).

(** Read from a copy of the decoder. *)
Definition packed_width (d : Decoder) : result message Z :=
  match fst (dec_u8 d) with
  | Err e => Err e
  | Ok width => if 64 <? width then Err (msg "invalid bit width {width}" [width]) else Ok width
  end.

Definition packed_ceiling (width : Z) : Z := width_mask width.

(** *** Monotone integers *)

(** The largest value of an integer type. *)
Definition delta_maximum (t : LogicalType) : option Z :=
  match t with LInt64 => Some i64_max | LUInt64 => Some u64_max | _ => None end.

(** Whether even the largest deltas stay inside the type. *)
Definition deltas_bounded (first mask count maximum : Z) : bool :=
  match checked_i128 (mask * count) with
  | Some span => match checked_i128 (first + span) with Some last => last <=? maximum | None => false end
  | None => false
  end.

(** [current.checked_add(delta).filter(|value| value <= maximum)]. *)
Definition delta_checked (maximum current delta : Z) : result message Z :=
  match checked_i128 (current + delta) with
  | Some value => if value <=? maximum then Ok value else Err (msg "integer delta overflow" [])
  | None => Err (msg "integer delta overflow" [])
  end.

Section deltas.
Context `{Machine}.

(** One delta, then the callback on the value reached. *)
Definition emit_plain {S} (emit : S -> Z -> result message S) (s : Z * S) (delta : Z) : result message (Z * S) :=
  let current := s.1 + delta in
  next ← emit s.2 current; Ok (current, next).

Definition emit_checked {S} (maximum : Z) (emit : S -> Z -> result message S) (s : Z * S) (delta : Z) : result message (Z * S) :=
  current ← delta_checked maximum s.1 delta;
  next ← emit s.2 current; Ok (current, next).

Definition unpack_delta_each {S} (value_count first : Z) (t : LogicalType) (emit : S -> Z -> result message S) (s : S) : Dec (option S) :=
  if value_count =? 0 then fail (msg "delta block cannot be empty" [])
  else
    '(width, bytes) ← unpack_header (value_count - 1);
    match delta_maximum t with
    | None => fail (msg "delta destination must be integer" [])
    | Some maximum =>
        s ← Codec.lift (emit s first);
        let sink := if deltas_bounded first (width_mask width) (value_count - 1) maximum then emit_plain emit else emit_checked maximum emit in
        last ← settle_panic (for_each_unpacked_group bytes width (value_count - 1) (fold_result sink) (first, s));
        mret (snd <$> last)
    end.

(** A typed vector: the conversion [lift] and the addition [step] its values have. *)
Class Destination (T : Type) : Type := { lift_to : Z -> result message T; step : T -> Z -> T }.

Definition step_into {T} `{Destination T} (s : T * list T) (delta : Z) : result message (T * list T) :=
  let current := step s.1 delta in Ok (current, s.2 ++ [current]).

Definition push_lifted {T} `{Destination T} (out : list T) (value : Z) : result message (list T) :=
  lifted ← lift_to value; Ok (out ++ [lifted]).

Definition unpack_delta_into {T} `{Destination T} (value_count first : Z) (t : LogicalType) (out : list T) : Dec (option (list T)) :=
  if value_count =? 0 then fail (msg "delta block cannot be empty" [])
  else
    '(width, bytes) ← unpack_header (value_count - 1);
    match delta_maximum t with
    | None => fail (msg "delta destination must be integer" [])
    | Some maximum =>
        lifted ← Codec.lift (lift_to first);
        if deltas_bounded first (width_mask width) (value_count - 1) maximum
        then last ← settle_panic (for_each_unpacked_group bytes width (value_count - 1) (fold_result step_into) (lifted, out ++ [lifted])); mret (snd <$> last)
        else last ← settle_panic (for_each_unpacked_group bytes width (value_count - 1) (fold_result (emit_checked maximum push_lifted)) (first, out ++ [lifted])); mret (snd <$> last)
    end.
End deltas.

(** The destinations of [decode_delta_payload_into]. *)
Definition signed_destination : Destination Z := {|
  lift_to := fun value => if is_i64 value then Ok value else Err (msg "delta signed integer overflow" []);
  step := fun current delta => signed 64 ((current + delta) mod 2 ^ 64) |}.

Definition unsigned_destination : Destination Z := {|
  lift_to := fun value => if is_u64 value then Ok value else Err (msg "delta unsigned integer overflow" []);
  step := fun current delta => wrap_add 64 current delta |}.

(** *** Selected groups *)

(** The run of groups from [group] whose word is not zero: the first group after it. *)
Fixpoint run_end (fuel : nat) (words : list Z) (whole_groups group : Z) : Z :=
  match fuel with
  | O => group
  | S fuel => if (group <? whole_groups) && negb (word_at words group =? 0) then run_end fuel words whole_groups (group + 1) else group
  end.

(** The groups the sink is handed, each with its word. *)
Fixpoint selected_groups `{Machine} (fuel : nat) (width : Z) (bytes : list byte) (words : list Z) (whole_groups group : Z)
    : option (list (list Z * Z)) :=
  match fuel with
  | O => Some []
  | S fuel =>
      if whole_groups <=? group then Some []
      else if word_at words group =? 0 then selected_groups fuel width bytes words whole_groups (group + 1)
      else
        let stop := run_end (Z.to_nat (whole_groups - group)) words whole_groups group in
        payload ← slice_from bytes (group * (GROUP * width / 8));
        run ← unpack_whole_groups width payload (stop - group);
        rest ← selected_groups fuel width bytes words whole_groups stop;
        Some (zip run (tabulate (stop - group) (fun i => word_at words (group + i))) ++ rest)
  end.

Definition for_each_selected_group `{Machine} {S} (value_count : Z) (words : list Z) (sink : S -> list Z * Z -> S) (s : S) : Dec (option S) :=
  '(width, bytes) ← unpack_header value_count;
  if len words <? div_ceil value_count GROUP then fail (msg "selection words are shorter than the payload" [])
  else
    let whole_groups := value_count / GROUP in
    let rest := value_count - whole_groups * GROUP in
    mret (
      selected ← selected_groups (Z.to_nat whole_groups) width bytes words whole_groups 0;
      if (0 <? rest) && negb (word_at words whole_groups =? 0)
      then tail ← tail_group width bytes (whole_groups * (GROUP * width / 8)) rest; Some (foldl sink s (selected ++ [(tail, word_at words whole_groups)]))
      else Some (foldl sink s selected)).

(** ** The reference: the bits of the stream *)

(** Value [i] is bits [i * width ..] of the bytes read as one little-endian number. *)
Definition packed_value (width : Z) (bytes : list byte) (i : Z) : Z := from_le bytes / 2 ^ (i * width) mod 2 ^ width.

Definition packed_values (width : Z) (bytes : list byte) (n : Z) : list Z := tabulate n (packed_value width bytes).

(** *** Tables *)

Lemma tabulate_ext {A} n (f g : Z -> A) : (forall i, 0 <= i < n -> f i = g i) -> tabulate n f = tabulate n g.
Proof. intros E. apply map_ext_in. intros i Hi. apply E. apply list_elem_of_In, elem_of_seqZ in Hi. lia. Qed.

Lemma tabulate_len {A} n (f : Z -> A) : 0 <= n -> len (tabulate n f) = n.
Proof. intros Hn. unfold len, tabulate. rewrite length_map, length_seqZ. lia. Qed.

Lemma tabulate_lookup {A} n (f : Z -> A) i : Z.of_nat i < n -> tabulate n f !! i = Some (f (Z.of_nat i)).
Proof. intros Hi. change (tabulate n f) with (f <$> seqZ 0 n). rewrite list_lookup_fmap, lookup_seqZ_lt by lia. reflexivity. Qed.

Lemma tabulate_app {A} a b (f : Z -> A) : 0 <= a -> 0 <= b -> tabulate (a + b) f = tabulate a f ++ tabulate b (fun i => f (a + i)).
Proof.
  intros Ha Hb. unfold tabulate. rewrite (seqZ_app 0 a b) by lia. rewrite map_app. f_equal.
  replace (0 + a) with (a + 0) by lia. rewrite <- (fmap_add_seqZ a 0 b). unfold fmap. now rewrite <- (map_map (Z.add a) f).
Qed.

Lemma tabulate_split {A} a n (f : Z -> A) : 0 <= a <= n -> tabulate n f = tabulate a f ++ tabulate (n - a) (fun i => f (a + i)).
Proof. intros Ha. rewrite <- tabulate_app by lia. f_equal. lia. Qed.

(** *** Numbers *)

Lemma from_le_padded n l : from_le (padded n l) = from_le l.
Proof. unfold padded. rewrite from_le_app, from_le_zeros. lia. Qed.

Lemma from_le_split k l : from_le l = from_le (take k l) + 2 ^ (8 * Z.of_nat (k `min` length l)) * from_le (drop k l).
Proof. rewrite <- (take_drop k l) at 1. rewrite from_le_app. unfold len. rewrite length_take. reflexivity. Qed.

Lemma from_le_short k l : (length l <= k)%nat -> 0 <= from_le l < 2 ^ (8 * Z.of_nat k).
Proof.
  intros Hk. pose proof (from_le_range l) as Hr. unfold len in Hr.
  assert (2 ^ (8 * Z.of_nat (length l)) <= 2 ^ (8 * Z.of_nat k)) by (apply Z.pow_le_mono_r; lia). lia.
Qed.

Lemma from_le_drop k l : from_le (drop k l) = from_le l / 2 ^ (8 * Z.of_nat k).
Proof.
  destruct (le_lt_dec k (length l)) as [Hk|Hk].
  - rewrite (from_le_split k l), Nat.min_l by lia. pose proof (from_le_short k (take k l)) as Hs. rewrite length_take in Hs.
    specialize (Hs ltac:(lia)). rewrite Z.mul_comm, Z.div_add by lia. rewrite Z.div_small by lia. lia.
  - rewrite drop_ge by lia. rewrite Z.div_small; [reflexivity|]. apply from_le_short. lia.
Qed.

Lemma from_le_take k l : from_le (take k l) = from_le l mod 2 ^ (8 * Z.of_nat k).
Proof.
  destruct (le_lt_dec k (length l)) as [Hk|Hk].
  - rewrite (from_le_split k l), Nat.min_l by lia. pose proof (from_le_short k (take k l)) as Hs. rewrite length_take in Hs.
    specialize (Hs ltac:(lia)). rewrite Z.mul_comm, Z.mod_add by lia. rewrite Z.mod_small by lia. reflexivity.
  - rewrite take_ge by lia. rewrite Z.mod_small; [reflexivity|]. apply from_le_short. lia.
Qed.

(** A window of the bytes is a window of the number, past the end too. *)
Lemma from_le_slice l a n : 0 <= a -> 0 <= n -> from_le (slice l a n) = from_le l / 2 ^ (8 * a) mod 2 ^ (8 * n).
Proof. intros Ha Hn. unfold slice. rewrite from_le_take, from_le_drop, !Z2Nat.id by lia. reflexivity. Qed.

(** Bits inside a window are the bits of the whole. *)
Lemma window_bits s a n k w : 0 <= s -> 0 <= a -> 0 <= k -> 0 <= w -> k + w <= n ->
  s / 2 ^ a mod 2 ^ n / 2 ^ k mod 2 ^ w = s / 2 ^ (a + k) mod 2 ^ w.
Proof.
  intros Hs Ha Hk Hw Hn. apply Z.bits_inj'. intros j Hj.
  destruct (Z.lt_ge_cases j w) as [Hjw|Hjw]; [|now rewrite !Z.mod_pow2_bits_high by lia].
  rewrite !Z.mod_pow2_bits_low, !Z.div_pow2_bits by lia. rewrite Z.mod_pow2_bits_low, Z.div_pow2_bits by lia. f_equal. lia.
Qed.

Lemma land_mask x w : 0 <= w -> Z.land x (Z.shiftl 1 w - 1) = x mod 2 ^ w.
Proof. intros Hw. rewrite Z.shiftl_1_l, <- Z.land_ones by lia. unfold Z.ones. rewrite Z.shiftl_1_l. f_equal. Qed.

Lemma land_width_mask x w : 0 <= w <= 64 -> Z.land x (width_mask w) = x mod 2 ^ w.
Proof.
  intros Hw. unfold width_mask. destruct (Z.eqb_spec w 64) as [->|]; [|apply land_mask; lia].
  change u64_max with (Z.shiftl 1 64 - 1). now apply land_mask.
Qed.

Lemma masks_agree w : 0 <= w <= 64 -> simd_width_mask w = width_mask w.
Proof. intros Hw. unfold simd_width_mask, width_mask. destruct (Z.leb_spec 64 w), (Z.eqb_spec w 64); try lia; reflexivity. Qed.

Lemma packed_value_range w bytes i : 0 <= w -> 0 <= packed_value w bytes i < 2 ^ w.
Proof. intros Hw. apply Z.mod_pos_bound. lia. Qed.

(** *** The portable kernel *)

(** What every kernel returns: the values of the stream, each plus the base. *)
Definition based (width : Z) (bytes : list byte) (base i : Z) : Z := wrap_add 64 (packed_value width bytes i) base.

Lemma mod_mod_pow x a b : 0 <= b <= a -> x mod 2 ^ a mod 2 ^ b = x mod 2 ^ b.
Proof.
  intros Hb. apply Z.bits_inj'. intros j Hj. destruct (Z.lt_ge_cases j b) as [Hjb|Hjb].
  - now rewrite !Z.mod_pow2_bits_low by lia.
  - now rewrite !Z.mod_pow2_bits_high by lia.
Qed.

Lemma from_le_window_at bytes a : 0 <= a -> from_le (window_at bytes a) = from_le bytes / 2 ^ (8 * a) mod 2 ^ 128.
Proof.
  intros Ha. unfold window_at. destruct (Z.leb_spec (a + 16) (len bytes)) as [|Hl]; [now rewrite from_le_slice by lia|].
  rewrite from_le_padded, from_le_drop, Z2Nat.id by lia. symmetry. apply Z.mod_small.
  pose proof (from_le_short 16 (drop (Z.to_nat a) bytes)) as Hs. rewrite from_le_drop, Z2Nat.id in Hs by lia. apply Hs.
  rewrite length_drop. unfold len in Hl. lia.
Qed.

Lemma from_le_nonneg l : 0 <= from_le l.
Proof. apply from_le_range. Qed.

Lemma byte_and_bit b : 8 * (b / 8) + b mod 8 = b.
Proof. symmetry. apply Z.div_mod. lia. Qed.

Lemma unpack_portable_spec w bytes base n : 0 <= w <= 64 -> 0 <= base < 2 ^ 64 ->
  unpack_portable w bytes base n = tabulate n (based w bytes base).
Proof.
  intros Hw Hb. unfold unpack_portable. destruct (Z.eqb_spec w 0) as [->|].
  - apply tabulate_ext. intros i Hi. unfold based, packed_value, wrap_add. rewrite Z.mod_1_r, Z.mod_small by lia. lia.
  - apply tabulate_ext. intros i Hi. unfold based. f_equal. pose proof (Z.mod_pos_bound (i * w) 8 ltac:(lia)).
    rewrite masks_agree, land_width_mask, mod_mod_pow, Z.shiftr_div_pow2 by lia.
    assert (0 <= i * w / 8) by (apply Z.div_pos; nia). pose proof (from_le_nonneg bytes).
    rewrite from_le_window_at, window_bits, byte_and_bit by lia. reflexivity.
Qed.

(** *** The AVX2 kernel *)

(** Eight bytes from [q]. *)
Definition gather (l : list byte) (q : Z) : list byte := tabulate 8 (fun b => default Byte.x00 (l !! Z.to_nat (q + b))).

Lemma from_le_gather l q : 0 <= q -> from_le (gather l q) = from_le l / 2 ^ (8 * q) mod 2 ^ 64.
Proof.
  intros Hq. change 64 with (8 * 8). rewrite <- from_le_slice by lia. unfold slice. rewrite <- (from_le_padded 8 (take _ _)). f_equal.
  unfold padded. apply list_eq. intros i.
  destruct (decide (i < 8)%nat) as [Hi|Hi].
  - unfold gather. rewrite tabulate_lookup by lia.
    replace (Z.to_nat (q + Z.of_nat i)) with (Z.to_nat q + i)%nat by lia. destruct (l !! (Z.to_nat q + i)%nat) as [b|] eqn:E.
    + rewrite lookup_app_l by (apply lookup_lt_Some in E; rewrite length_take, length_drop; lia).
      rewrite lookup_take_lt, lookup_drop, E by lia. reflexivity.
    + apply lookup_ge_None in E. rewrite lookup_app_r by (rewrite length_take, length_drop; lia).
      rewrite lookup_replicate_2; [reflexivity|]. rewrite !length_take, !length_drop. lia.
  - rewrite !lookup_ge_None_2; [reflexivity| |].
    + rewrite length_app, length_replicate, length_take, length_drop. lia.
    + unfold gather, tabulate. rewrite length_map, length_seqZ. lia.
Qed.

Lemma lanes_gathered a b c d p q r s :
  lanes (gather a p ++ gather b q ++ gather c r ++ gather d s) = [from_le (gather a p); from_le (gather b q); from_le (gather c r); from_le (gather d s)].
Proof. reflexivity. Qed.

Lemma shuffle_byte low high i q : length low = 16%nat -> length high = 16%nat -> 0 <= q < 16 -> (i < 32)%nat ->
  (if 128 <=? q then Byte.x00 else default Byte.x00 ((low ++ high) !! Z.to_nat (16 * (Z.of_nat i / 16) + q mod 16)))
  = default Byte.x00 ((if decide (i < 16)%nat then low else high) !! Z.to_nat q).
Proof.
  intros Hl Hh Hq Hi. destruct (Z.leb_spec 128 q); [lia|]. rewrite (Z.mod_small q) by lia. f_equal. destruct (decide (i < 16)%nat).
  - rewrite (Z.div_small (Z.of_nat i)) by lia. rewrite lookup_app_l by lia. f_equal.
  - replace (Z.of_nat i / 16) with 1 by (apply Z.div_unique with (Z.of_nat i - 16); lia).
    rewrite lookup_app_r by lia. f_equal. lia.
Qed.

Lemma shuffle_eight low high (k : nat) p : length low = 16%nat -> length high = 16%nat -> 0 <= p <= 8 -> (k + 8 <= 16 \/ 16 <= k <= 24)%nat ->
  imap (fun i index => if 128 <=? index then Byte.x00 else default Byte.x00 ((low ++ high) !! Z.to_nat (16 * (Z.of_nat (k + i) / 16) + index mod 16)))
    (tabulate 8 (Z.add p)) = gather (if decide (k < 16)%nat then low else high) p.
Proof.
  intros Hl Hh Hp Hk. apply list_eq. intros i. rewrite list_lookup_imap. destruct (decide (i < 8)%nat).
  - unfold gather. rewrite !tabulate_lookup by lia. cbn [fmap option_fmap option_map]. f_equal. rewrite shuffle_byte by lia.
    destruct (decide (k + i < 16)%nat), (decide (k < 16)%nat); try lia; reflexivity.
  - rewrite !lookup_ge_None_2; [reflexivity| |]; unfold gather, tabulate; rewrite length_map, length_seqZ; lia.
Qed.

Lemma shuffle_gathers low high p q r s : length low = 16%nat -> length high = 16%nat ->
  0 <= p <= 8 -> 0 <= q <= 8 -> 0 <= r <= 8 -> 0 <= s <= 8 ->
  mm256_shuffle_epi8 (low ++ high) (tabulate 8 (Z.add p) ++ tabulate 8 (Z.add q) ++ tabulate 8 (Z.add r) ++ tabulate 8 (Z.add s))
  = gather low p ++ gather low q ++ gather high r ++ gather high s.
Proof.
  intros Hl Hh Hp Hq Hr Hs. unfold mm256_shuffle_epi8. rewrite !imap_app.
  refine (f_equal2 app _ (f_equal2 app _ (f_equal2 app _ _))).
  - exact (shuffle_eight low high 0 p Hl Hh Hp ltac:(lia)).
  - exact (shuffle_eight low high 8 q Hl Hh Hq ltac:(lia)).
  - exact (shuffle_eight low high 16 r Hl Hh Hr ltac:(lia)).
  - exact (shuffle_eight low high 24 s Hl Hh Hs ltac:(lia)).
Qed.

(** A window that starts [start] bytes into the stream. *)
Definition opens_at (bytes window : list byte) (start : Z) : Prop :=
  length window = 64%nat /\ 0 <= start /\ from_le window = from_le bytes / 2 ^ (8 * start) mod 2 ^ 512.

Lemma within_bounds w pair half : 1 <= w <= 57 -> 0 <= half <= 1 -> 0 <= within w pair half <= 64.
Proof. intros Hw Hh. unfold within. pose proof (Z.mod_pos_bound (pair * 2 * w) 8 ltac:(lia)). nia. Qed.

Lemma offset_bounds w pair : 1 <= w <= 57 -> 0 <= pair <= 3 -> 0 <= pair_offset w pair <= 42.
Proof.
  intros Hw Hp. unfold pair_offset. split; [apply Z.div_pos; nia|]. apply Z.lt_succ_r, Z.div_lt_upper_bound; nia.
Qed.

(** One lane: the value its pair and half name. *)
Lemma lane_value w bytes window start pair half : 1 <= w <= 57 -> 0 <= pair <= 3 -> 0 <= half <= 1 -> opens_at bytes window start ->
  Z.land (Z.shiftr (from_le (gather (slice window (pair_offset w pair) 16) (within w pair half / 8))) (within w pair half mod 8)) (simd_width_mask w)
  = from_le bytes / 2 ^ (8 * start + (pair * 2 + half) * w) mod 2 ^ w.
Proof.
  intros Hw Hp Hh (Hl & Hs & E). pose proof (within_bounds w pair half Hw Hh). pose proof (offset_bounds w pair Hw Hp).
  pose proof (Z.mod_pos_bound (within w pair half) 8 ltac:(lia)). pose proof (Z.div_pos (within w pair half) 8 ltac:(lia) ltac:(lia)).
  pose proof (byte_and_bit (within w pair half)). pose proof (from_le_nonneg bytes). pose proof (from_le_nonneg window).
  rewrite masks_agree, land_width_mask, Z.shiftr_div_pow2, from_le_gather, from_le_slice by lia.
  pose proof (Z.mod_pos_bound (from_le window / 2 ^ (8 * pair_offset w pair)) (2 ^ (8 * 16)) ltac:(lia)).
  rewrite window_bits by lia.
  replace (8 * (within w pair half / 8) + within w pair half mod 8) with (within w pair half) by lia.
  rewrite window_bits by lia. rewrite E, window_bits by lia. f_equal. f_equal. f_equal.
  pose proof (byte_and_bit (pair * 2 * w)). unfold within, pair_offset. lia.
Qed.

(** Four values: the lanes of two pairs. *)
Lemma half_run_spec w bytes window start base first second : 1 <= w <= 57 -> 0 <= first <= 3 -> 0 <= second <= 3 -> opens_at bytes window start ->
  half_run w window first second (simd_width_mask w) base
  = map (fun j => wrap_add 64 (from_le bytes / 2 ^ (8 * start + j * w) mod 2 ^ w) base) [first * 2 + 0; first * 2 + 1; second * 2 + 0; second * 2 + 1].
Proof.
  intros Hw Hf Hs Ho. assert (Hlen : forall pair, 0 <= pair <= 3 -> length (slice window (pair_offset w pair) 16) = 16%nat).
  { intros pair Hp. pose proof (offset_bounds w pair Hw Hp). destruct Ho as [Hl _]. unfold slice. rewrite length_take, length_drop. lia. }
  assert (Hq : forall pair half, 0 <= half <= 1 -> 0 <= within w pair half / 8 <= 8).
  { intros pair half Hh. pose proof (within_bounds w pair half Hw Hh). split; [apply Z.div_pos; lia|]. apply Z.lt_succ_r, Z.div_lt_upper_bound; lia. }
  assert (Hm : forall pair half, (within w pair half mod 8 <? 64) = true).
  { intros pair half. pose proof (Z.mod_pos_bound (within w pair half) 8 ltac:(lia)). lia. }
  unfold half_run, mm256_set_m128i, pair_shuffle, pair_shift.
  change (tabulate 2 ?f) with [f 0; f 1]. cbn [concat]. rewrite !app_nil_r, <- app_assoc.
  rewrite shuffle_gathers, lanes_gathered by (auto || (apply Hq; lia)).
  unfold mm256_srlv_epi64, mm256_and_si256, mm256_add_epi64. cbn [zip_with app map]. rewrite !Hm.
  rewrite !(lane_value w bytes window start) by (assumption || lia). reflexivity.
Qed.

Lemma decode_run_spec w bytes window run base : 1 <= w <= 57 -> opens_at bytes window (run * w) ->
  decode_run w window base = tabulate 8 (fun j => based w bytes base (run * 8 + j)).
Proof.
  intros Hw Ho. unfold decode_run. rewrite !(half_run_spec w bytes window (run * w)) by (assumption || lia). unfold based, packed_value.
  change (tabulate 8 ?f) with [f 0; f 1; f 2; f 3; f 4; f 5; f 6; f 7]. cbn [map app].
  assert (E : forall j, 8 * (run * w) + j * w = (run * 8 + j) * w) by lia. rewrite !E. reflexivity.
Qed.

Lemma take_tabulate {A} k n (f : Z -> A) : 0 <= k <= n -> take (Z.to_nat k) (tabulate n f) = tabulate k f.
Proof.
  intros Hk. replace n with (k + (n - k)) by lia. rewrite tabulate_app by lia. apply take_app_length'.
  pose proof (tabulate_len k f ltac:(lia)). unfold len in *. lia.
Qed.

(** Whole chunks, one after another. *)
Lemma concat_chunks {A} k c (f : Z -> A) : 0 <= k -> 0 <= c ->
  concat (tabulate c (fun r => tabulate k (fun j => f (r * k + j)))) = tabulate (c * k) f.
Proof.
  intros Hk Hc. revert c Hc. apply natlike_ind; [reflexivity|]. intros c Hc IH.
  rewrite <- Z.add_1_r, tabulate_app, concat_app, IH by lia. replace ((c + 1) * k) with (c * k + k) by lia. rewrite tabulate_app by nia.
  f_equal. change (tabulate 1 ?g) with [g 0]. cbn [concat]. rewrite app_nil_r. apply tabulate_ext. intros j Hj. f_equal. lia.
Qed.

(** Chunks of which the last may be short. *)
Lemma concat_short_chunks {A} k n (f : Z -> A) : 1 <= k -> 0 <= n ->
  concat (tabulate ((n + k - 1) / k) (fun r => tabulate (Z.min k (n - r * k)) (fun j => f (r * k + j)))) = tabulate n f.
Proof.
  intros Hk Hn. pose proof (Z.div_mod n k ltac:(lia)) as E. pose proof (Z.mod_pos_bound n k ltac:(lia)) as Hm. assert (0 <= n / k) by (apply Z.div_pos; lia).
  assert (Hwhole : concat (tabulate (n / k) (fun r => tabulate (Z.min k (n - r * k)) (fun j => f (r * k + j)))) = tabulate (n / k * k) f).
  { rewrite <- concat_chunks by lia. f_equal. apply tabulate_ext. intros r Hr. rewrite Z.min_l by nia. reflexivity. }
  destruct (Z.eq_dec (n mod k) 0) as [E0|E0].
  - replace ((n + k - 1) / k) with (n / k) by (apply Z.div_unique with (k - 1); lia). rewrite Hwhole. f_equal. lia.
  - replace ((n + k - 1) / k) with (n / k + 1) by (apply Z.div_unique with (n mod k - 1); lia).
    rewrite tabulate_app, concat_app, Hwhole by lia. change (tabulate 1 ?g) with [g 0]. cbn [concat]. rewrite app_nil_r.
    replace n with (n / k * k + n mod k) at 4 by lia. rewrite tabulate_app by nia. f_equal.
    replace (Z.min k (n - (n / k + 0) * k)) with (n mod k) by lia. apply tabulate_ext. intros j Hj. f_equal. lia.
Qed.

Lemma direct_opens w bytes n index : 1 <= w -> 0 <= index < direct_runs w bytes n -> opens_at bytes (slice bytes (index * w) WINDOW) (index * w).
Proof.
  unfold direct_runs, WINDOW, RUN. intros Hw Hi. destruct (Z.ltb_spec (len bytes - 64) 0); [lia|].
  assert (index * w <= len bytes - 64) by (pose proof (Z.mul_div_le (len bytes - 64) w ltac:(lia)); nia). split; [|split].
  - unfold slice. rewrite length_take, length_drop. unfold len in *. nia.
  - nia.
  - rewrite from_le_slice by nia. reflexivity.
Qed.

Lemma padded_opens bytes start : 0 <= start -> opens_at bytes (padded_window bytes start) start.
Proof.
  intros Hs. unfold padded_window, WINDOW. split; [|split; [lia|]].
  - unfold padded. rewrite length_app, length_replicate, length_take. lia.
  - rewrite from_le_padded. apply (from_le_slice bytes start 64); lia.
Qed.

Lemma unpack_avx2_spec w bytes base n : 0 <= w <= 64 -> 0 <= base < 2 ^ 64 -> 0 <= n ->
  unpack_u64_avx2 w bytes base n = tabulate n (based w bytes base).
Proof.
  intros Hw Hb Hn. unfold unpack_u64_avx2, AVX2_WIDEST. destruct ((w =? 0) || (57 <? w)) eqn:Ew; [now apply unpack_portable_spec|].
  assert (1 <= w <= 57) by lia. set (direct := direct_runs w bytes n).
  assert (Hd : 0 <= direct /\ direct * 8 <= n).
  { unfold direct, direct_runs, WINDOW, RUN. pose proof (Z.mul_div_le n 8 ltac:(lia)). assert (0 <= n / 8) by (apply Z.div_pos; lia).
    destruct (Z.ltb_spec (len bytes - 64) 0); [lia|]. assert (0 <= (len bytes - 64) / w) by (apply Z.div_pos; lia). lia. }
  replace n with (direct * 8 + (n - direct * 8)) at 2 by lia. rewrite tabulate_app by lia. unfold RUN. f_equal.
  - rewrite <- concat_chunks by lia. f_equal. apply tabulate_ext. intros i Hi. apply decode_run_spec; [lia|]. now apply direct_opens with n.
  - rewrite <- (concat_short_chunks 8 (n - direct * 8) (fun i => based w bytes base (direct * 8 + i))) by lia. f_equal. apply tabulate_ext. intros i Hi.
    rewrite (decode_run_spec w bytes _ (direct + i)) by (try lia; apply padded_opens; nia).
    assert (i * 8 < n - direct * 8) by (pose proof (Z.mul_div_le (n - direct * 8 + 8 - 1) 8 ltac:(lia)); nia).
    rewrite take_tabulate by lia. apply tabulate_ext. intros j Hj. f_equal. lia.
Qed.

(** *** Dispatch *)

Lemma avx2_has_v3 `{Machine} width : unpack_level width = Avx2 -> has_v3 = true.
Proof. unfold unpack_level, avx2, select. destruct has_v3; [easy|]. destruct (capped_to_baseline cap); rewrite andb_false_r; discriminate. Qed.

Lemma unpack_u64_spec `{Machine} w bytes base out : check w bytes (len out) = true -> 0 <= w -> 0 <= base < 2 ^ 64 ->
  unpack_u64 w bytes base out = Some (tabulate (len out) (based w bytes base)).
Proof.
  intros Hc Hw Hb. assert (w <= 64) by (unfold check in Hc; lia). unfold unpack_u64, unpack_u64_at.
  destruct (unpack_level w) eqn:El.
  - rewrite Hc, unpack_portable_spec by lia. reflexivity.
  - rewrite (avx2_has_v3 w El). cbn [negb]. rewrite Hc, unpack_avx2_spec by (unfold len; lia). reflexivity.
  - unfold unpack_level in El. destruct (_ && avx2); discriminate.
Qed.

(** C31. Whatever the processor and the setting, [unpack_u64] panics when the bytes do not hold the values, and
    otherwise fills the buffer with the bits of the stream, each value plus the base; what the buffer
    held, and the bytes past the values, do not matter. *)
Theorem unpack_kernels_exact `{Machine} (width : Z) (bytes : list byte) (base : Z) (out : list Z) : 0 <= width -> 0 <= base < 2 ^ 64 ->
  unpack_u64 width bytes base out =
  if check width bytes (len out) then Some (tabulate (len out) (fun i => wrap_add 64 (packed_value width bytes i) base)) else None.
Proof.
  intros Hw Hb. destruct (check width bytes (len out)) eqn:Hc; [now apply unpack_u64_spec|]. unfold unpack_u64, unpack_u64_at. rewrite Hc.
  destruct (unpack_level width) eqn:El; [reflexivity|now rewrite (avx2_has_v3 width El)|]. unfold unpack_level in El. destruct (_ && avx2); discriminate.
Qed.

(** A payload that starts a whole number of values in. *)
Lemma packed_value_drop w bytes k m i : 0 <= w -> 0 <= m -> 0 <= i -> 0 <= k -> 8 * k = m * w ->
  packed_value w (drop (Z.to_nat k) bytes) i = packed_value w bytes (m + i).
Proof.
  intros Hw Hm Hi Hk E. unfold packed_value. rewrite from_le_drop, Z2Nat.id, Z.div_div by nia. rewrite <- Z.pow_add_r by nia. f_equal. f_equal. f_equal. lia.
Qed.

(** *** The reader *)

(** The accumulator holds the bits from [p] up to the cursor. *)
Record reader_at (r : BitReader) (p : Z) : Prop := {
  ra_start : 0 <= p;
  ra_cursor : 0 <= br_cursor r <= len (br_bytes r);
  ra_bits : br_accumulator r = from_le (br_bytes r) mod 2 ^ (8 * br_cursor r) / 2 ^ p;
  ra_live : br_live_bits r = Z.max 0 (8 * br_cursor r - p);
  ra_end : p <= 8 * br_cursor r \/ br_cursor r = len (br_bytes r)
}.

(** Bits taken from the next bytes go above those the accumulator holds. *)
Lemma refill_bits s c k p : 0 <= s -> 0 <= p <= c -> 0 <= k ->
  s mod 2 ^ (c + k) / 2 ^ p = s mod 2 ^ c / 2 ^ p + s / 2 ^ c mod 2 ^ k * 2 ^ (c - p).
Proof.
  intros Hs Hp Hk.
  assert (E : s mod 2 ^ (c + k) = s mod 2 ^ c + s / 2 ^ c mod 2 ^ k * 2 ^ (c - p) * 2 ^ p).
  { rewrite <- Z.mul_assoc, <- Z.pow_add_r by lia. replace (c - p + p) with c by lia. rewrite Z.pow_add_r, Z.rem_mul_r by lia. lia. }
  rewrite E, Z.div_add by lia. reflexivity.
Qed.

Lemma refill_word_at r p bytes : reader_at r p -> br_live_bits r < 64 -> p <= 8 * br_cursor r -> 0 <= bytes <= 8 -> br_cursor r + bytes <= len (br_bytes r) ->
  reader_at (refill_word r (from_le (slice (br_bytes r) (br_cursor r) bytes)) (8 * bytes) bytes) p.
Proof.
  intros [Hp Hc Hb Hl He] Hlive Hpc Hn Hi. pose proof (from_le_nonneg (br_bytes r)) as Hs.
  set (c := br_cursor r) in *. set (s := from_le (br_bytes r)) in *.
  assert (Hword : 0 <= s / 2 ^ (8 * c) mod 2 ^ (8 * bytes) < 2 ^ 64).
  { pose proof (Z.mod_pos_bound (s / 2 ^ (8 * c)) (2 ^ (8 * bytes)) ltac:(lia)). assert (2 ^ (8 * bytes) <= 2 ^ 64) by (apply Z.pow_le_mono_r; lia). lia. }
  assert (Hacc : 0 <= br_accumulator r < 2 ^ br_live_bits r).
  { rewrite Hb, Hl, Z.max_r by lia. split; [apply Z.div_pos; [apply Z.mod_pos_bound|]; lia|]. apply Z.div_lt_upper_bound; [lia|].
    rewrite <- Z.pow_add_r by lia. replace (p + (8 * c - p)) with (8 * c) by lia. apply Z.mod_pos_bound. lia. }
  split; cbn; fold c; try lia. rewrite from_le_slice by lia. fold s.
  assert (0 <= Z.shiftl (s / 2 ^ (8 * c) mod 2 ^ (8 * bytes)) (br_live_bits r) < 2 ^ 128).
  { rewrite Z.shiftl_mul_pow2 by lia. split; [nia|]. apply Z.lt_le_trans with (2 ^ 64 * 2 ^ br_live_bits r); [nia|].
    rewrite <- Z.pow_add_r by lia. apply Z.pow_le_mono_r; lia. }
  rewrite Z.mod_small, lor_above by lia.
  rewrite Hb, Z.mul_add_distr_l, refill_bits by lia. rewrite Hl, Z.max_r by lia. reflexivity.
Qed.

(** Fuel: the turns the loop may still take. *)
Definition turns (width : Z) (r : BitReader) : Z := Z.max 0 (width - br_live_bits r).

Lemma refill_at fuel w r p : reader_at r p -> 0 <= w <= 64 -> turns w r <= 8 * Z.of_nat fuel ->
  let r' := refill fuel w r in
  reader_at r' p /\ br_bytes r' = br_bytes r /\ (w <= br_live_bits r' \/ br_cursor r' = len (br_bytes r)).
Proof.
  revert r. induction fuel as [|fuel IH]; intros r Hr Hw Hf; cbn [refill]; unfold turns in Hf.
  { split; [exact Hr|]. split; [reflexivity|]. left. lia. }
  destruct (Z.leb_spec w (br_live_bits r)) as [|Hlive]; [auto|]. pose proof Hr as [Hp Hc _ Hl He].
  destruct (Z.leb_spec (br_cursor r + 8) (len (br_bytes r))) as [H8|H8];
    [|destruct (Z.ltb_spec (br_cursor r) (len (br_bytes r))) as [H1|H1]; [|split; [exact Hr|]; split; [reflexivity|]; right; lia]].
  - destruct (IH _ (refill_word_at r p 8 Hr ltac:(lia) ltac:(lia) ltac:(lia) ltac:(lia)) Hw) as (A & B & C);
      [unfold turns; cbn [refill_word br_live_bits]; lia|]. auto.
  - destruct (IH _ (refill_word_at r p 1 Hr ltac:(lia) ltac:(lia) ltac:(lia) ltac:(lia)) Hw) as (A & B & C);
      [unfold turns; cbn [refill_word br_live_bits]; lia|]. auto.
Qed.

(** One read: the next [w] bits, zeros past the end. *)
Lemma read_at r p w : reader_at r p -> 0 <= w <= 64 ->
  let '(value, r') := bit_reader_read r w (width_mask w) in
  value = from_le (br_bytes r) / 2 ^ p mod 2 ^ w /\ reader_at r' (p + w) /\ br_bytes r' = br_bytes r.
Proof.
  intros Hr Hw. unfold bit_reader_read. pose proof (ra_live r p Hr) as Hl0.
  destruct (refill_at 9 w r p Hr Hw ltac:(unfold turns; lia)) as ([Hp Hc Hb Hl He] & Eb & Hd). set (r' := refill 9 w r) in *.
  rewrite Eb in *. set (s := from_le (br_bytes r)) in *. pose proof (from_le_range (br_bytes r)) as Hs. fold s in Hs.
  assert (Hcase : p + w <= 8 * br_cursor r' \/ br_cursor r' = len (br_bytes r)) by lia.
  split; [|split; [|reflexivity]].
  - rewrite land_width_mask, mod_mod_pow, Hb by lia. destruct Hcase as [Hcase|E].
    + pose proof (window_bits s 0 (8 * br_cursor r') p w) as Hwin. rewrite Z.pow_0_r, Z.div_1_r in Hwin. now rewrite Hwin by lia.
    + rewrite E, (Z.mod_small s) by lia. reflexivity.
  - split; cbn [br_bytes br_cursor br_accumulator br_live_bits]; rewrite ?Eb; try lia.
    rewrite Hb, Z.shiftr_div_pow2, Z.div_div, <- Z.pow_add_r by lia. reflexivity.
Qed.

Lemma read_values_at n r p w : reader_at r p -> 0 <= w <= 64 ->
  read_values n r w (width_mask w) = tabulate (Z.of_nat n) (fun i => from_le (br_bytes r) / 2 ^ (p + i * w) mod 2 ^ w).
Proof.
  revert r p. induction n as [|n IH]; intros r p Hr Hw; [reflexivity|]. cbn [read_values]. pose proof (read_at r p w Hr Hw) as Hread.
  destruct (bit_reader_read r w (width_mask w)) as [value r']. destruct Hread as (-> & Hr' & Eb).
  replace (Z.of_nat (S n)) with (1 + Z.of_nat n) by lia. rewrite tabulate_app by lia. change (tabulate 1 ?f) with [f 0]. cbn [app].
  f_equal; [do 3 f_equal; lia|]. rewrite (IH r' (p + w)), Eb by auto. apply tabulate_ext. intros i Hi. do 3 f_equal. lia.
Qed.

Lemma reader_new_at bytes : reader_at (bit_reader_new bytes) 0.
Proof. split; cbn; try (unfold len; lia). now rewrite Z.mod_1_r. Qed.

(** *** Groups *)

(** Group [g] of a payload. *)
Definition packed_group (width : Z) (bytes : list byte) (g : Z) : list Z := tabulate GROUP (fun i => packed_value width bytes (g * GROUP + i)).

Lemma group_window_bits w bytes g k v : 1 <= w <= 32 -> 0 <= g -> 0 <= k -> 0 <= v -> k + v <= w * 64 ->
  from_le (group_window w bytes g) / 2 ^ k mod 2 ^ v = from_le bytes / 2 ^ (g * (w * 64) + k) mod 2 ^ v.
Proof.
  intros Hw Hg Hk Hv Hkv. pose proof (from_le_nonneg bytes). assert (0 <= g * (w * 8)) by nia.
  replace (g * (w * 64) + k) with (8 * (g * (w * 8)) + k) by lia. unfold group_window.
  destruct (get_range bytes (g * (w * 8)) (g * (w * 8) + w * 8 + 8)) as [window|] eqn:E.
  - unfold get_range in E. destruct (_ && _); [|discriminate]. injection E as <-.
    replace (g * (w * 8) + w * 8 + 8 - g * (w * 8)) with (w * 8 + 8) by lia.
    change (take _ (drop _ bytes)) with (slice bytes (g * (w * 8)) (w * 8 + 8)). rewrite from_le_slice, window_bits by lia. reflexivity.
  - rewrite from_le_padded, from_le_slice, window_bits by lia. reflexivity.
Qed.

Lemma narrow_group_spec w bytes g : 1 <= w <= 32 -> 0 <= g -> narrow_group w bytes g = packed_group w bytes g.
Proof.
  intros Hw Hg. unfold packed_group, GROUP. change 64 with (8 * 8) at 1. rewrite <- concat_chunks by lia. unfold narrow_group. f_equal.
  apply tabulate_ext. intros e He. apply tabulate_ext. intros i Hi.
  assert (0 <= i * w / 8) by (apply Z.div_pos; nia). pose proof (Z.mod_pos_bound (i * w) 8 ltac:(lia)). pose proof (byte_and_bit (i * w)).
  pose proof (from_le_nonneg (group_window w bytes g)).
  rewrite land_width_mask, Z.shiftr_div_pow2, from_le_slice, window_bits by nia.
  rewrite group_window_bits by nia. unfold packed_value. do 3 f_equal. nia.
Qed.

Lemma word_at_spec w bytes g k : 1 <= w <= 64 -> 0 <= g -> 0 <= k <= 64 ->
  word_at (group_words w bytes g) k = from_le (slice bytes (g * (w * 8)) (w * 8)) / 2 ^ (64 * k) mod 2 ^ 64.
Proof.
  intros Hw Hg Hk. unfold word_at, group_words. set (chunk := slice bytes _ _). pose proof (from_le_nonneg chunk).
  rewrite nth_lookup. destruct (Z.lt_ge_cases k w) as [Hkw|Hkw].
  - rewrite lookup_app_l by (pose proof (tabulate_len w (fun word => from_le (slice chunk (8 * word) 8)) ltac:(lia)); unfold len in *; lia).
    rewrite tabulate_lookup by lia. cbn [default id from_option]. rewrite Z2Nat.id, from_le_slice by lia. do 3 f_equal. lia.
  - pose proof (tabulate_len w (fun word => from_le (slice chunk (8 * word) 8)) ltac:(lia)) as Hl. unfold len in Hl.
    rewrite lookup_app_r by lia. rewrite lookup_replicate_2 by (unfold GROUP; lia). cbn [default id from_option].
    rewrite Z.div_small; [reflexivity|]. split; [lia|]. unfold chunk. rewrite from_le_slice by nia.
    pose proof (Z.mod_pos_bound (from_le bytes / 2 ^ (8 * (g * (w * 8)))) (2 ^ (8 * (w * 8))) ltac:(lia)).
    assert (2 ^ (8 * (w * 8)) <= 2 ^ (64 * k)) by (apply Z.pow_le_mono_r; lia). lia.
Qed.

(** Two neighbouring words hold the bits that straddle them. *)
Lemma straddle c k shift w : 0 <= c -> 0 <= k -> 0 <= shift < 64 -> 0 <= w <= 64 ->
  Z.lor (Z.shiftr (c / 2 ^ (64 * k) mod 2 ^ 64) shift)
        (Z.shiftl (Z.shiftl (c / 2 ^ (64 * (k + 1)) mod 2 ^ 64) 1 mod 2 ^ 64) (63 - shift) mod 2 ^ 64) mod 2 ^ w
  = c / 2 ^ (64 * k + shift) mod 2 ^ w.
Proof.
  intros Hc Hk Hs Hw. apply Z.bits_inj'. intros j Hj. destruct (Z.lt_ge_cases j w) as [Hjw|]; [|now rewrite !Z.mod_pow2_bits_high by lia].
  rewrite !(Z.mod_pow2_bits_low _ w), Z.lor_spec, Z.shiftr_spec, Z.div_pow2_bits, (Z.mod_pow2_bits_low _ 64 j), Z.shiftl_spec by lia.
  destruct (Z.lt_ge_cases (j + shift) 64) as [Hlow|Hhigh].
  - rewrite Z.mod_pow2_bits_low, Z.div_pow2_bits by lia. replace (Z.testbit (Z.shiftl _ 1 mod 2 ^ 64) _) with false.
    + rewrite orb_false_r. f_equal. lia.
    + destruct (Z.lt_ge_cases (j - (63 - shift)) 0); [now rewrite Z.testbit_neg_r by lia|].
      rewrite Z.mod_pow2_bits_low, Z.shiftl_spec_low by lia. reflexivity.
  - rewrite (Z.mod_pow2_bits_high _ 64 (j + shift)) by lia. cbn [orb].
    rewrite Z.mod_pow2_bits_low, Z.shiftl_spec, Z.mod_pow2_bits_low, Z.div_pow2_bits by lia. f_equal. lia.
Qed.

Lemma wide_group_spec w bytes g : 1 <= w <= 64 -> 0 <= g -> wide_group w bytes g = packed_group w bytes g.
Proof.
  intros Hw Hg. unfold wide_group, packed_group, GROUP. apply tabulate_ext. intros i Hi.
  pose proof (Z.mod_pos_bound (i * w) 64 ltac:(lia)). pose proof (Z.div_mod (i * w) 64 ltac:(lia)) as E.
  assert (0 <= i * w / 64) by (apply Z.div_pos; nia). assert (i * w / 64 < 64) by (apply Z.div_lt_upper_bound; nia).
  pose proof (from_le_nonneg (slice bytes (g * (w * 8)) (w * 8))). pose proof (from_le_nonneg bytes).
  rewrite !word_at_spec, land_width_mask, straddle by lia. rewrite <- E, from_le_slice by nia.
  rewrite window_bits by nia. unfold packed_value. do 3 f_equal. lia.
Qed.

Lemma unpack_groups_spec w bytes groups : 1 <= w <= 64 -> 0 <= groups -> groups * (w * 8) <= len bytes ->
  unpack_groups w bytes groups = tabulate groups (packed_group w bytes).
Proof.
  intros Hw Hg Hl. unfold unpack_groups. destruct (Z.leb_spec w 32).
  - apply tabulate_ext. intros g Hi. apply narrow_group_spec; lia.
  - rewrite Z.min_l by (apply Z.div_le_lower_bound; lia). apply tabulate_ext. intros g Hi. apply wide_group_spec; lia.
Qed.

(** ** Payloads decode to the stream *)

(** The bytes hold [n] values of the width. *)
Definition holds (width : Z) (bytes : list byte) (n : Z) : Prop :=
  0 <= width <= 64 /\ 0 <= n /\ n * width < 2 ^ 64 /\ n * width <= 8 * len bytes.

Lemma holds_check w bytes n : holds w bytes n -> check w bytes n = true.
Proof.
  intros (Hw & Hn & Hm & Hl). unfold check, checked_mul. rewrite (proj2 (Z.ltb_lt _ _) Hm). apply andb_true_intro. split; [lia|].
  apply Z.leb_le, Z.lt_succ_r. unfold div_ceil. apply Z.div_lt_upper_bound; lia.
Qed.

Lemma holds_part w bytes n m k : holds w bytes n -> 0 <= m -> 0 <= k -> 8 * k = m * w -> forall c, 0 <= c -> m + c <= n ->
  holds w (drop (Z.to_nat k) bytes) c.
Proof.
  intros (Hw & Hn & Hm & Hl) Hm0 Hk E c Hc Hcn. unfold holds, len in *. rewrite length_drop. split; [lia|]. split; [lia|]. split; nia.
Qed.

Lemma slice_from_part {A} (l : list A) k : k <= len l -> slice_from l k = Some (drop (Z.to_nat k) l).
Proof. intros Hk. unfold slice_from. now rewrite (proj2 (Z.leb_le _ _) Hk). Qed.

Lemma based_zero w bytes i : 0 <= w <= 64 -> based w bytes 0 i = packed_value w bytes i.
Proof.
  intros Hw. unfold based, wrap_add. rewrite Z.add_0_r. apply Z.mod_small. pose proof (packed_value_range w bytes i ltac:(lia)).
  assert (2 ^ w <= 2 ^ 64) by (apply Z.pow_le_mono_r; lia). lia.
Qed.

Lemma slice_tabulate {A} N a n (f : Z -> A) : 0 <= a -> 0 <= n -> a + n <= N -> slice (tabulate N f) a n = tabulate n (fun j => f (a + j)).
Proof.
  intros Ha Hn HN. unfold slice. replace N with (a + (N - a)) by lia. rewrite tabulate_app by lia.
  rewrite drop_app_length' by (pose proof (tabulate_len a f Ha); unfold len in *; lia). apply take_tabulate. lia.
Qed.

Lemma chunks_tabulate {A} k c (f : Z -> A) : 1 <= k -> 0 <= c ->
  chunks_exact k (tabulate (c * k) f) = tabulate c (fun r => tabulate k (fun j => f (r * k + j))).
Proof.
  intros Hk Hc. unfold chunks_exact. rewrite tabulate_len, Z.div_mul by nia. apply tabulate_ext. intros r Hr. apply slice_tabulate; nia.
Qed.

Lemma zeros_len n : 0 <= n -> len (zeros n) = n.
Proof. intros Hn. unfold zeros, len. rewrite length_replicate. lia. Qed.

Section payloads.
Context `{Machine}.

Lemma unpack_zero_base w bytes n : holds w bytes n -> unpack_u64 w bytes 0 (zeros n) = Some (packed_values w bytes n).
Proof.
  intros Hh. pose proof Hh as (Hw & Hn & _). rewrite unpack_u64_spec; rewrite ?zeros_len by lia; [|now apply holds_check|lia|lia].
  f_equal. apply tabulate_ext. intros i Hi. apply based_zero. lia.
Qed.

Lemma vectored_calls_spec fuel w bytes groups group : holds w bytes (groups * GROUP) -> 0 <= group <= groups -> groups - group <= Z.of_nat fuel ->
  vectored_calls fuel w bytes groups group = Some (tabulate (groups - group) (fun g => packed_group w bytes (group + g))).
Proof.
  revert group. induction fuel as [|fuel IH]; intros group Hh Hg Hf; cbn [vectored_calls].
  { replace (groups - group) with 0 by lia. reflexivity. }
  destruct (Z.leb_spec groups group); [replace (groups - group) with 0 by lia; reflexivity|].
  pose proof Hh as (Hw & Hn & Hm & Hl). unfold GROUP, VECTORED_GROUPS in *. set (batch := Z.min (groups - group) 8).
  replace (group * (64 * w / 8)) with (group * (8 * w)) by (rewrite <- (Z.div_mul (8 * w) 8); [do 2 f_equal; lia|lia]).
  rewrite slice_from_part by nia. cbn [mbind option_bind].
  rewrite unpack_zero_base by (apply (holds_part w bytes (groups * 64) (group * 64)); [exact Hh|nia..]).
  rewrite IH by (try exact Hh; lia). cbn [mbind option_bind]. f_equal.
  rewrite (tabulate_split batch (groups - group)) by lia. replace (groups - group - batch) with (groups - (group + batch)) by lia. f_equal.
  - unfold packed_values. rewrite chunks_tabulate by lia. apply tabulate_ext. intros r Hr. apply tabulate_ext. intros j Hj.
    rewrite (packed_value_drop w bytes _ (group * 64)) by nia. unfold GROUP. f_equal. lia.
  - apply tabulate_ext. intros g Hi. f_equal. lia.
Qed.

Lemma unpack_whole_groups_spec w bytes groups : holds w bytes (groups * GROUP) -> 0 <= groups ->
  unpack_whole_groups w bytes groups = Some (tabulate groups (packed_group w bytes)).
Proof.
  intros Hh Hg. pose proof Hh as (Hw & Hn & Hm & Hl). unfold unpack_whole_groups. destruct (_ && _) eqn:E.
  - unfold unpack_groups_vectored. destruct (Z.eqb_spec groups 1) as [->|].
    + rewrite unpack_zero_base by exact Hh. reflexivity.
    + rewrite vectored_calls_spec by (try exact Hh; lia). f_equal. rewrite Z.sub_0_r. reflexivity.
  - destruct (Z.eqb_spec w 0) as [->|].
    + f_equal. apply tabulate_ext. intros g Hi. change (zeros GROUP) with (tabulate GROUP (fun _ => 0)). apply tabulate_ext.
      intros i _. unfold packed_value. now rewrite Z.mod_1_r.
    + rewrite (proj2 (Z.leb_le w 64)) by lia. f_equal. apply unpack_groups_spec; unfold GROUP in *; lia.
Qed.

(** The groups, joined, are the values: no kernel call panics. *)
Lemma unpacked_groups_spec w bytes n : holds w bytes n ->
  exists groups, unpacked_groups bytes w n = Some groups /\ concat groups = packed_values w bytes n.
Proof.
  intros Hh. pose proof Hh as (Hw & Hn & Hm & Hl). pose proof (Z.div_mod n 64 ltac:(lia)) as E. pose proof (Z.mod_pos_bound n 64 ltac:(lia)).
  assert (0 <= n / 64) by (apply Z.div_pos; lia). unfold unpacked_groups. change GROUP with 64.
  rewrite unpack_whole_groups_spec by (unfold holds, GROUP in *; try split; nia). cbn [mbind option_bind].
  assert (Hwhole : concat (tabulate (n / 64) (packed_group w bytes)) = tabulate (n / 64 * 64) (packed_value w bytes)) by (apply concat_chunks; lia).
  destruct (Z.ltb_spec 0 (n - n / 64 * 64)) as [Hr|Hr].
  - unfold tail_group. replace (n / 64 * 64 * w / 8) with (n / 64 * 8 * w) by (rewrite <- (Z.div_mul (n / 64 * 8 * w) 8); [f_equal; lia|lia]).
    rewrite slice_from_part by nia. cbn [mbind option_bind]. eexists. split; [reflexivity|].
    rewrite concat_app, Hwhole. cbn [concat]. rewrite app_nil_r, (read_values_at _ _ 0) by (try apply reader_new_at; lia).
    unfold packed_values. rewrite (tabulate_split (n / 64 * 64) n) by lia. f_equal.
    rewrite Z2Nat.id by lia. apply tabulate_ext. intros i Hi. cbn [bit_reader_new br_bytes].
    rewrite <- (packed_value_drop w bytes (n / 64 * 8 * w)) by nia. reflexivity.
  - eexists. split; [reflexivity|]. rewrite Hwhole. unfold packed_values. f_equal. lia.
Qed.

(** The loop over chunks appends the values the kernel names, [value] of each index. *)
Lemma unpack_whole_chunked_spec {T} (zero : T) chunk w bytes n kernel (value : Z -> T) :
  holds w bytes n -> 8 <= chunk -> chunk mod 8 = 0 ->
  (forall m k out, 0 <= m -> 8 * k = m * w -> 0 <= k -> m + len out <= n ->
     kernel (drop (Z.to_nat k) bytes) out = Some (tabulate (len out) (fun i => value (m + i)))) ->
  forall fuel done out, 0 <= done <= n -> (done mod 8 = 0 \/ done = n) -> n - done <= Z.of_nat fuel ->
  unpack_whole_chunked zero fuel chunk w bytes n kernel done out = Some (out ++ tabulate (n - done) (fun i => value (done + i))).
Proof.
  intros Hh Hc Hc8 Hk. induction fuel as [|fuel IH]; intros done out Hd Hd8 Hf; cbn [unpack_whole_chunked].
  { replace (n - done) with 0 by lia. now rewrite app_nil_r. }
  destruct (Z.leb_spec n done); [replace (n - done) with 0 by lia; now rewrite app_nil_r|].
  pose proof Hh as (Hw & Hn & Hm & Hl). assert (E8 : done mod 8 = 0) by lia. pose proof (Z.div_mod done 8 ltac:(lia)) as Ed.
  assert (0 <= done / 8) by (apply Z.div_pos; lia).
  replace (done * w / 8) with (done / 8 * w) by (rewrite <- (Z.div_mul (done / 8 * w) 8); [f_equal; lia|lia]).
  rewrite slice_from_part by nia. cbn [mbind option_bind]. set (size := Z.min (n - done) chunk).
  assert (Hs : len (replicate (Z.to_nat size) zero) = size) by (unfold len; rewrite length_replicate; lia).
  assert (Hnext : (done + size) mod 8 = 0 \/ done + size = n).
  { destruct (Z.le_gt_cases (n - done) chunk); [right; lia|left]. replace (done + size) with (done + chunk) by lia.
    rewrite Z.add_mod, E8, Hc8 by lia. reflexivity. }
  rewrite (Hk done) by nia. cbn [mbind option_bind]. rewrite Hs, tabulate_len, IH by lia.
  rewrite <- app_assoc. do 2 f_equal. rewrite (tabulate_split size (n - done)) by lia. f_equal.
  replace (n - done - size) with (n - (done + size)) by lia. apply tabulate_ext. intros i Hi. f_equal. lia.
Qed.

Lemma unpack_whole_spec {T} (zero : T) w bytes n kernel (value : Z -> T) out : holds w bytes n ->
  (forall m k out, 0 <= m -> 8 * k = m * w -> 0 <= k -> m + len out <= n ->
     kernel (drop (Z.to_nat k) bytes) out = Some (tabulate (len out) (fun i => value (m + i)))) ->
  unpack_whole zero w bytes n out kernel = Some (out ++ tabulate n value).
Proof.
  intros Hh Hk. pose proof Hh as (_ & Hn & _). unfold unpack_whole.
  rewrite (unpack_whole_chunked_spec zero _ w bytes n kernel value Hh); try assumption; try lia.
  - rewrite Z.sub_0_r. reflexivity.
  - destruct (_ <=? _); vm_compute; discriminate.
  - destruct (_ <=? _); reflexivity.
  - left. reflexivity.
Qed.

Lemma kernel_part w bytes n base m k out : holds w bytes n -> 0 <= base < 2 ^ 64 -> 0 <= m -> 8 * k = m * w -> 0 <= k -> m + len out <= n ->
  unpack_u64 w (drop (Z.to_nat k) bytes) base out = Some (tabulate (len out) (fun i => based w bytes base (m + i))).
Proof.
  intros Hh Hb Hm E Hk Hl. assert (0 <= len out) by (unfold len; lia). pose proof Hh as (Hw & _).
  rewrite unpack_u64_spec; [|apply holds_check; apply (holds_part w bytes n m); (assumption || lia)|lia|lia].
  f_equal. apply tabulate_ext. intros i Hi. unfold based. now rewrite (packed_value_drop w bytes k m) by lia.
Qed.

Lemma unpack_whole_unsigned_spec w bytes n base out : holds w bytes n -> 0 <= base < 2 ^ 64 ->
  unpack_whole_unsigned w bytes n base out = Some (out ++ map (fun v => wrap_add 64 base v) (packed_values w bytes n)).
Proof.
  intros Hh Hb. unfold unpack_whole_unsigned. rewrite (unpack_whole_spec 0 w bytes n _ (based w bytes base)); [|exact Hh|].
  - unfold packed_values, tabulate. rewrite map_map. do 2 f_equal. apply map_ext. intros i. unfold based, wrap_add. f_equal. lia.
  - intros m k vs Hm E Hk Hl. now apply (kernel_part w bytes n).
Qed.

Lemma unpack_whole_signed_spec w bytes n base out : holds w bytes n ->
  unpack_whole_signed w bytes n base out = Some (out ++ map (fun v => signed 64 ((base + v) mod 2 ^ 64)) (packed_values w bytes n)).
Proof.
  intros Hh. unfold unpack_whole_signed.
  rewrite (unpack_whole_spec 0 w bytes n _ (fun i => signed 64 (based w bytes (base mod 2 ^ 64) i))); [|exact Hh|].
  - unfold packed_values, tabulate. rewrite map_map. do 2 f_equal. apply map_ext. intros i. unfold based, wrap_add.
    rewrite Z.add_mod_idemp_r by lia. do 2 f_equal. lia.
  - intros m k vs Hm E Hk Hl. unfold unpack_i64.
    assert (El : len (map (fun z => z mod 2 ^ 64) vs) = len vs) by (unfold len; now rewrite length_map).
    rewrite (kernel_part w bytes n (base mod 2 ^ 64) m k) by (rewrite ?El; try apply Z.mod_pos_bound; (assumption || lia)).
    rewrite El. cbn [fmap option_fmap option_map]. unfold tabulate. now rewrite map_map.
Qed.
End payloads.

(** ** Decoders return the stream *)

Lemma fold_result_concat {E A S} (f : S -> A -> result E S) s groups : fold_result (fold_result f) s groups = fold_result f s (concat groups).
Proof.
  revert s. induction groups as [|g groups IH]; intros s; [reflexivity|]. cbn [concat]. rewrite fold_result_app. cbn [fold_result].
  unfold mbind, result_bind. destruct (fold_result f s g); [apply IH|reflexivity].
Qed.

Lemma fold_result_ext {E A S} (P : A -> Prop) (f g : S -> A -> result E S) s l : Forall P l -> (forall s a, P a -> f s a = g s a) -> fold_result f s l = fold_result g s l.
Proof.
  intros Hl Hfg. revert s. induction Hl as [|a l Ha Hl IH]; intros s; [reflexivity|]. cbn [fold_result]. rewrite Hfg by exact Ha.
  unfold mbind, result_bind. destruct (g s a); [apply IH|reflexivity].
Qed.

(** A vector grown one value at a time, or a group at a time. *)
Lemma fold_push {E A B} (g : A -> B) out l : fold_result (E:=E) (fun out v => Ok (out ++ [g v])) out l = Ok (out ++ map g l).
Proof.
  revert out. induction l as [|a l IH]; intros out; [now rewrite app_nil_r|]. cbn [fold_result map]. unfold mbind, result_bind. rewrite IH, <- app_assoc. reflexivity.
Qed.

Lemma fold_extend {E} (g : Z -> Z) out groups : fold_result (E:=E) (fun out group => Ok (out ++ map g group)) out groups = Ok (out ++ map g (concat groups)).
Proof.
  revert out. induction groups as [|a l IH]; intros out; [now rewrite app_nil_r|]. cbn [fold_result concat]. unfold mbind, result_bind.
  rewrite IH, map_app, <- app_assoc. reflexivity.
Qed.

Lemma packed_values_range w bytes n : 0 <= w <= 64 -> Forall (fun v => 0 <= v <= width_mask w) (packed_values w bytes n).
Proof.
  intros Hw. apply Forall_forall. intros v Hv. unfold packed_values, tabulate in Hv. apply list_elem_of_In, in_map_iff in Hv as (i & <- & _).
  pose proof (packed_value_range w bytes i ltac:(lia)) as Hr. unfold width_mask. destruct (Z.eqb_spec w 64) as [->|]; [unfold u64_max; lia|].
  rewrite Z.shiftl_1_l. lia.
Qed.

(** What follows the header may assume the bytes hold the values. *)
Lemma unpack_header_bind {B} n (f g : Z * list byte -> Dec B) d : 0 <= n -> (forall w bytes d', holds w bytes n -> f (w, bytes) d' = g (w, bytes) d') ->
  (unpack_header n ≫= f) d = (unpack_header n ≫= g) d.
Proof.
  intros Hn Hfg. unfold unpack_header, mbind, Dec_bind. destruct (dec_u8 d) as [[w|e] d1] eqn:E1; [|reflexivity].
  assert (0 <= w).
  { unfold dec_u8 in E1. destruct (get_range _ _ _) as [[|b [|]]|]; try discriminate. injection E1 as <- _. apply byte.unsigned_range. }
  destruct (Z.ltb_spec 64 w); [reflexivity|]. destruct (dec_byte_string d1) as [[bytes|e] d2]; [|reflexivity].
  unfold checked_mul. destruct (Z.ltb_spec (n * w) (2 ^ 64)); [|reflexivity].
  destruct (Z.eqb_spec (len bytes) (div_ceil (n * w) 8)) as [El|]; [|reflexivity]. apply Hfg. split; [lia|]. split; [lia|]. split; [lia|].
  unfold div_ceil in El. pose proof (Z.div_mod (n * w + 8 - 1) 8 ltac:(lia)). pose proof (Z.mod_pos_bound (n * w + 8 - 1) 8 ltac:(lia)). lia.
Qed.

Section decoders.
Context `{Machine}.

Lemma for_each_folds {S E} (f : S -> Z -> result E S) w bytes n s : holds w bytes n ->
  for_each_unpacked_group bytes w n (fold_result f) s = Some (fold_result f s (packed_values w bytes n)).
Proof.
  intros Hh. destruct (unpacked_groups_spec w bytes n Hh) as (groups & E1 & E2). unfold for_each_unpacked_group. rewrite E1. cbn [fmap option_fmap option_map].
  now rewrite fold_result_concat, E2.
Qed.

Lemma for_each_extends {E} (g : Z -> Z) w bytes n out : holds w bytes n ->
  for_each_unpacked_group (E:=E) bytes w n (fun out group => Ok (out ++ map g group)) out = Some (Ok (out ++ map g (packed_values w bytes n))).
Proof.
  intros Hh. destruct (unpacked_groups_spec w bytes n Hh) as (groups & E1 & E2). unfold for_each_unpacked_group. rewrite E1. cbn [fmap option_fmap option_map].
  now rewrite fold_extend, E2.
Qed.

Lemma unpack_into_spec n out d : 0 <= n ->
  unpack_into n out d = ('(w, bytes) ← unpack_header n; mret (Some (out ++ packed_values w bytes n))) d.
Proof.
  intros Hn. unfold unpack_into. apply unpack_header_bind; [exact Hn|]. intros w bytes d' Hh. destruct (decodes_whole w n).
  - rewrite unpack_whole_unsigned_spec by (exact Hh || lia). f_equal. do 3 f_equal. rewrite <- (map_id (packed_values w bytes n)) at 2.
    apply map_ext_Forall. destruct Hh as [Hw _]. eapply Forall_impl; [apply (packed_values_range w bytes n Hw)|]. intros v Hv. cbn beta in *.
    unfold wrap_add. apply Z.mod_small. unfold width_mask in Hv. destruct (Z.eqb_spec w 64); [unfold u64_max in Hv; lia|].
    rewrite Z.shiftl_1_l in Hv. assert (2 ^ w <= 2 ^ 64) by (apply Z.pow_le_mono_r; lia). lia.
  - pose proof (for_each_extends (E:=message) id w bytes n out Hh) as E. rewrite map_id in E.
    replace (for_each_unpacked_group bytes w n extend out) with (for_each_unpacked_group (E:=message) bytes w n (fun out group => Ok (out ++ map id group)) out); [now rewrite E|].
    unfold for_each_unpacked_group. destruct (unpacked_groups bytes w n) as [gs|]; [|reflexivity]. cbn [fmap option_fmap option_map]. f_equal.
    eapply (fold_result_ext (fun _ => True)); [now apply Forall_true|]. intros s a _. unfold extend. now rewrite map_id.
Qed.

Lemma unpack_spec n d : 0 <= n -> unpack n d = ('(w, bytes) ← unpack_header n; mret (Some (packed_values w bytes n))) d.
Proof. intros Hn. exact (unpack_into_spec n [] d Hn). Qed.

(** The sums of a block whose base and width are inside the type. *)
Lemma in_range_sums (fits : Z -> bool) unfit base mask top out l :
  base_reaches base mask top = true -> (forall z, base <= z <= top -> fits z = true) -> is_i128 base = true -> Forall (fun v => 0 <= v <= mask) l ->
  fold_result (add_checked fits unfit base) out l = Ok (out ++ map (Z.add base) l).
Proof.
  unfold base_reaches, checked_i128. intros Hr Hf Hb Hl. destruct (is_i128 (base + mask)) eqn:Em; [|discriminate].
  rewrite <- (fold_push (E:=message)). eapply fold_result_ext; [exact Hl|]. intros s v Hv. cbn beta in Hv. unfold add_checked, checked_i128.
  replace (is_i128 (base + v)) with true by (unfold is_i128, in_signed in *; lia). rewrite Hf by lia. reflexivity.
Qed.

Lemma base_reaches_top base mask top : base_reaches base mask top = true -> base + mask <= top.
Proof. unfold base_reaches, checked_i128. destruct (is_i128 _); [|discriminate]. apply Z.leb_le. Qed.

Lemma width_mask_nonneg w : 0 <= w -> 0 <= width_mask w.
Proof. intros Hw. unfold width_mask. destruct (w =? 64); [unfold u64_max; lia|]. rewrite Z.shiftl_1_l. lia. Qed.

(** The wrapping sums of the fast paths are the sums themselves. *)
Lemma signed_sums w bytes n base : 0 <= w <= 64 -> i64_min <= base -> base + width_mask w <= i64_max ->
  map (fun v => signed 64 ((base + v) mod 2 ^ 64)) (packed_values w bytes n) = map (Z.add base) (packed_values w bytes n).
Proof.
  intros Hw Hb Ht. apply map_ext_Forall. eapply Forall_impl; [apply (packed_values_range w bytes n Hw)|]. intros v Hv. cbn beta in Hv.
  apply signed_mod; [lia|]. unfold in_signed, i64_min, i64_max in *. lia.
Qed.

Lemma unsigned_sums w bytes n base : 0 <= w <= 64 -> 0 <= base -> base + width_mask w <= u64_max ->
  map (fun v => wrap_add 64 base v) (packed_values w bytes n) = map (Z.add base) (packed_values w bytes n).
Proof.
  intros Hw Hb Ht. apply map_ext_Forall. eapply Forall_impl; [apply (packed_values_range w bytes n Hw)|]. intros v Hv. cbn beta in Hv.
  apply Z.mod_small. unfold u64_max in *. lia.
Qed.

(** The typed decoders agree with the two-pass path - every value widened, added to the base, checked
    and converted - on every payload, with the same error at the same value. *)
Theorem typed_decodes_checked (n base : Z) (out : list Z) (d : Decoder) : 0 <= n -> is_i128 base = true ->
  let two_pass fits unfit : Dec (option (list Z)) :=
    '(w, bytes) ← unpack_header n;
    values ← Codec.lift (fold_result (add_checked fits unfit base) out (packed_values w bytes n)); mret (Some values) in
  unpack_signed_into n base out d = two_pass is_i64 (msg "bit-packed signed integer overflow" []) d /\
  unpack_unsigned_into n base out d = two_pass is_u64 (msg "bit-packed unsigned integer overflow" []) d.
Proof.
  intros Hn Hb two_pass. split; (apply unpack_header_bind; [exact Hn|]); intros w bytes d' Hh; cbv beta iota zeta; pose proof Hh as [Hw _];
    pose proof (packed_values_range w bytes n Hw) as Hv; pose proof (width_mask_nonneg w (proj1 Hw)).
  - destruct ((i64_min <=? base) && base_reaches base (width_mask w) i64_max && (w <? 64)) eqn:E; [|now rewrite for_each_folds].
    apply andb_prop in E as [E _]. apply andb_prop in E as [E1 E2]. apply Z.leb_le in E1. pose proof (base_reaches_top _ _ _ E2).
    rewrite (in_range_sums is_i64 _ base (width_mask w) i64_max) by (try assumption; intros z Hz; unfold is_i64, in_signed, i64_min, i64_max in *; lia).
    rewrite unpack_whole_signed_spec, for_each_extends, signed_sums by assumption. now destruct (decodes_whole w n).
  - destruct ((0 <=? base) && base_reaches base (width_mask w) u64_max) eqn:E; [|now rewrite for_each_folds].
    apply andb_prop in E as [E1 E2]. apply Z.leb_le in E1. pose proof (base_reaches_top _ _ _ E2).
    rewrite (in_range_sums is_u64 _ base (width_mask w) u64_max) by (try assumption; intros z Hz; unfold is_u64, in_unsigned, u64_max in *; lia).
    rewrite unpack_whole_unsigned_spec, for_each_extends, unsigned_sums by (assumption || (unfold u64_max in *; lia)). now destruct (decodes_whole w n).
Qed.
End decoders.

(** ** Monotone integers *)

(** A destination of the type [t]: below its maximum, the addition is the conversion of the sum. *)
Class LawfulDestination (t : LogicalType) {T} (dest : Destination T) : Prop :=
  step_lifts : forall maximum v d x, delta_maximum t = Some maximum -> lift_to v = Ok x -> 0 <= d -> v + d <= maximum -> lift_to (v + d) = Ok (step x d).

#[export] Instance signed_lawful : LawfulDestination LInt64 signed_destination.
Proof.
  intros maximum v d x [= <-] Hv Hd Hm. cbn [lift_to step signed_destination] in *. destruct (is_i64 v) eqn:E; [|discriminate]. injection Hv as <-.
  assert (Hs : is_i64 (v + d) = true) by (unfold is_i64, in_signed, i64_max in *; lia). rewrite Hs. f_equal. symmetry. apply signed_mod; [lia|exact Hs].
Qed.

#[export] Instance unsigned_lawful : LawfulDestination LUInt64 unsigned_destination.
Proof.
  intros maximum v d x [= <-] Hv Hd Hm. cbn [lift_to step unsigned_destination] in *. destruct (is_u64 v) eqn:E; [|discriminate]. injection Hv as <-.
  replace (is_u64 (v + d)) with true by (unfold is_u64, in_unsigned, u64_max in *; lia). f_equal. symmetry. apply Z.mod_small. unfold is_u64, in_unsigned, u64_max in *. lia.
Qed.

Lemma delta_maximum_i128 t maximum : delta_maximum t = Some maximum -> maximum < 2 ^ 64.
Proof. destruct t; intros [= <-]; unfold i64_max, u64_max; lia. Qed.

Lemma delta_checked_fits maximum v d : maximum < 2 ^ 64 -> is_i128 v = true -> 0 <= d -> v + d <= maximum -> delta_checked maximum v d = Ok (v + d) /\ is_i128 (v + d) = true.
Proof.
  intros Hm Hv Hd Hs. assert (E : is_i128 (v + d) = true) by (unfold is_i128, in_signed in *; lia). split; [|exact E].
  unfold delta_checked, checked_i128. rewrite E, (proj2 (Z.leb_le _ _) Hs). reflexivity.
Qed.

Lemma emit_checked_fits {S} (emit : S -> Z -> result message S) maximum v d s : delta_checked maximum v d = Ok (v + d) ->
  emit_checked maximum emit (v, s) d = (next ← emit s (v + d); Ok (v + d, next)).
Proof. intros E. unfold emit_checked. cbn [fst snd]. rewrite E. reflexivity. Qed.

(** Inside the bound, the unchecked loops are the checked one. *)
Lemma emit_plain_checked {S} (emit : S -> Z -> result message S) maximum mask l : maximum < 2 ^ 64 -> 0 <= mask -> Forall (fun v => 0 <= v <= mask) l ->
  forall v s, is_i128 v = true -> v + mask * len l <= maximum -> fold_result (emit_plain emit) (v, s) l = fold_result (emit_checked maximum emit) (v, s) l.
Proof.
  intros Hm Hk Hl. induction Hl as [|d l Hd Hl IH]; intros v s Hv Hs; [reflexivity|]. cbn beta in Hd. unfold len in Hs. cbn [length] in Hs.
  destruct (delta_checked_fits maximum v d Hm Hv ltac:(lia) ltac:(nia)) as [E Hv']. cbn [fold_result]. rewrite emit_checked_fits by exact E.
  change (emit_plain emit (v, s) d) with (next ← emit s (v + d); Ok (v + d, next)). unfold mbind, result_bind.
  destruct (emit s (v + d)) as [s'|]; [|reflexivity]. apply IH; [exact Hv'|]. unfold len. nia.
Qed.

(** The vector a loop leaves. *)
Definition vector {A B} (r : result message (A * B)) : result message B := p ← r; Ok p.2.

Lemma step_into_checked {T} {dest : Destination T} t `{!LawfulDestination t dest} maximum mask l :
  delta_maximum t = Some maximum -> 0 <= mask -> Forall (fun v => 0 <= v <= mask) l ->
  forall v x out, is_i128 v = true -> lift_to v = Ok x -> v + mask * len l <= maximum ->
  vector (fold_result step_into (x, out) l) = vector (fold_result (emit_checked maximum push_lifted) (v, out) l).
Proof.
  intros Hm Hk Hl. pose proof (delta_maximum_i128 t maximum Hm) as Hm'. induction Hl as [|d l Hd Hl IH]; intros v x out Hv Hx Hs; [reflexivity|].
  cbn beta in Hd. unfold len in Hs. cbn [length] in Hs. destruct (delta_checked_fits maximum v d Hm' Hv ltac:(lia) ltac:(nia)) as [E Hv'].
  assert (Hx' : lift_to (v + d) = Ok (step x d)) by (apply (step_lifts maximum); [exact Hm|exact Hx|lia|nia]).
  cbn [fold_result]. rewrite emit_checked_fits by exact E.
  change (step_into (x, out) d) with (Ok (E:=message) (step x d, out ++ [step x d])). unfold push_lifted at 2, mbind, result_bind. rewrite Hx'.
  apply IH; [exact Hv'|exact Hx'|]. unfold len. nia.
Qed.

Lemma deltas_bounded_top first mask count maximum : deltas_bounded first mask count maximum = true -> first + mask * count <= maximum.
Proof. unfold deltas_bounded, checked_i128. destruct (is_i128 (mask * count)); [|discriminate]. destruct (is_i128 _); [|discriminate]. apply Z.leb_le. Qed.

Section delta_decoders.
Context `{Machine}.

(** The checked path over a delta payload of the destination [dest]. *)
Definition deltas_checked {S} (n first : Z) (t : LogicalType) (emit : S -> Z -> result message S) (s : S) : Dec (option S) :=
  if n =? 0 then fail (msg "delta block cannot be empty" [])
  else
    '(w, bytes) ← unpack_header (n - 1);
    match delta_maximum t with
    | None => fail (msg "delta destination must be integer" [])
    | Some maximum =>
        s ← Codec.lift (emit s first);
        s ← Codec.lift (vector (fold_result (emit_checked maximum emit) (first, s) (packed_values w bytes (n - 1))));
        mret (Some s)
    end.

Lemma lift_bind {A B} (r : result message A) (f : A -> Dec B) d : (Codec.lift r ≫= f) d = match r with Ok a => f a d | Err e => (Err e, d) end.
Proof. reflexivity. Qed.

Lemma settle_vector {A B} (r : result message (A * B)) d : (last ← settle_panic (Some r); mret (snd <$> last)) d = (s ← Codec.lift (vector r); mret (Some s)) d.
Proof. destruct r as [[a b]|]; reflexivity. Qed.

(** The delta decoders check every running value, or prove no value can leave the type; either way they
    return what checking every value returns, and its errors.  [unpack_delta_into] does so for the
    destination of the block's type. *)
Theorem delta_decodes_checked {S T} (dest : Destination T) (t : LogicalType) (n first : Z) (emit : S -> Z -> result message S) (s : S) (out : list T) (d : Decoder) :
  LawfulDestination t dest -> 0 <= n -> is_i128 first = true ->
  unpack_delta_each n first t emit s d = deltas_checked n first t emit s d /\
  unpack_delta_into n first t out d = deltas_checked n first t push_lifted out d.
Proof.
  intros Hlaw Hn Hf. unfold unpack_delta_each, unpack_delta_into, deltas_checked. destruct (Z.eqb_spec n 0); [auto|].
  split; (apply unpack_header_bind; [lia|]); intros w bytes d' Hh; cbv beta iota zeta; (destruct (delta_maximum t) as [maximum|] eqn:Em; [|reflexivity]);
    pose proof Hh as [Hw _]; pose proof (packed_values_range w bytes (n - 1) Hw) as Hv; pose proof (width_mask_nonneg w (proj1 Hw));
    pose proof (tabulate_len (n - 1) (packed_value w bytes) ltac:(lia)) as Hlen; fold (packed_values w bytes (n - 1)) in Hlen.
  - rewrite !lift_bind. destruct (emit s first) as [s'|]; [|reflexivity].
    destruct (deltas_bounded _ _ _ _) eqn:Eb; rewrite for_each_folds, settle_vector by exact Hh; [|reflexivity]. apply deltas_bounded_top in Eb.
    rewrite (emit_plain_checked emit maximum (width_mask w)); [reflexivity|now apply (delta_maximum_i128 t)|assumption|exact Hv|exact Hf|rewrite Hlen; lia].
  - rewrite !lift_bind. assert (Ep : push_lifted out first = (x ← lift_to first; Ok (out ++ [x]))) by reflexivity. rewrite Ep.
    unfold mbind at 4, result_bind at 1. destruct (lift_to first) as [x|] eqn:Ex; [|reflexivity].
    destruct (deltas_bounded _ _ _ _) eqn:Eb; rewrite for_each_folds, settle_vector by exact Hh; [|reflexivity]. apply deltas_bounded_top in Eb.
    rewrite (step_into_checked t maximum (width_mask w) _ Em) with (v := first); [reflexivity|assumption|exact Hv|exact Hf|exact Ex|rewrite Hlen; lia].
Qed.
End delta_decoders.

(** ** Selected groups *)

(** Group [g] of [n] values: sixty-four of them, or those left. *)
Definition group_of (width : Z) (bytes : list byte) (n g : Z) : list Z :=
  tabulate (Z.min GROUP (n - g * GROUP)) (fun i => packed_value width bytes (g * GROUP + i)).

(** Group [g] with its word, if a bit of it is set. *)
Definition selection (width : Z) (bytes : list byte) (words : list Z) (n g : Z) : list (list Z * Z) :=
  if word_at words g =? 0 then [] else [(group_of width bytes n g, word_at words g)].

Lemma zip_tabulate {A B} n (f : Z -> A) (g : Z -> B) : zip (tabulate n f) (tabulate n g) = tabulate n (fun i => (f i, g i)).
Proof. unfold tabulate. induction (seqZ 0 n) as [|i l IH]; [reflexivity|]. cbn [map zip_with]. now rewrite IH. Qed.

Lemma concat_singletons {A} n (f : Z -> A) : concat (tabulate n (fun i => [f i])) = tabulate n f.
Proof. unfold tabulate. induction (seqZ 0 n) as [|i l IH]; [reflexivity|]. cbn [map concat app]. now rewrite IH. Qed.

Lemma run_end_spec fuel words whole group : group <= whole -> whole - group <= Z.of_nat fuel ->
  let stop := run_end fuel words whole group in
  group <= stop <= whole /\ (forall i, group <= i < stop -> word_at words i <> 0) /\ (group < whole -> word_at words group <> 0 -> group < stop).
Proof.
  revert group. induction fuel as [|fuel IH]; intros group Hg Hf; cbn [run_end]; [split; [lia|split; [lia|lia]]|].
  destruct ((group <? whole) && negb (word_at words group =? 0)) eqn:E; [|split; [lia|split; [lia|]]; intros; lia].
  destruct (IH (group + 1) ltac:(lia) ltac:(lia)) as (A & B & _). split; [lia|]. split; [|lia]. intros i Hi.
  destruct (Z.eq_dec i group) as [->|]; [lia|apply B; lia].
Qed.

Section selected.
Context `{Machine}.

Lemma packed_group_drop w bytes g i : 0 <= w -> 0 <= g -> 0 <= i -> packed_group w (drop (Z.to_nat (g * (8 * w))) bytes) i = packed_group w bytes (g + i).
Proof.
  intros Hw Hg Hi. apply tabulate_ext. intros j Hj. unfold GROUP in *. rewrite (packed_value_drop w bytes _ (g * 64)) by nia. f_equal. lia.
Qed.

Lemma selected_groups_spec fuel w bytes words n group : holds w bytes n -> 0 <= group <= n / GROUP -> n / GROUP - group <= Z.of_nat fuel ->
  selected_groups fuel w bytes words (n / GROUP) group = Some (concat (tabulate (n / GROUP - group) (fun i => selection w bytes words n (group + i)))).
Proof.
  intros Hh. pose proof Hh as (Hw & Hn & Hm & Hl). change GROUP with 64. pose proof (Z.mul_div_le n 64 ltac:(lia)) as Hdiv. set (whole := n / 64) in *.
  revert group. induction fuel as [|fuel IH]; intros group Hg Hf; cbn [selected_groups]; [replace (whole - group) with 0 by lia; reflexivity|].
  destruct (Z.leb_spec whole group); [replace (whole - group) with 0 by lia; reflexivity|].
  destruct (Z.eqb_spec (word_at words group) 0) as [E|E].
  - rewrite IH by lia. rewrite (tabulate_split 1 (whole - group)) by lia. change (tabulate 1 ?f) with [f 0]. cbn [concat app].
    unfold selection at 2. rewrite Z.add_0_r, E. cbn [Z.eqb app]. do 2 f_equal. replace (whole - group - 1) with (whole - (group + 1)) by lia.
    apply tabulate_ext. intros i Hi. f_equal. lia.
  - destruct (run_end_spec (Z.to_nat (whole - group)) words whole group ltac:(lia) ltac:(lia)) as (A & B & C). specialize (C ltac:(lia) E).
    set (stop := run_end _ _ _ _) in *.
    replace (group * (GROUP * w / 8)) with (group * (8 * w)) by (unfold GROUP; rewrite <- (Z.div_mul (8 * w) 8); [do 2 f_equal; lia|lia]).
    rewrite slice_from_part by nia. cbn [mbind option_bind].
    rewrite unpack_whole_groups_spec by (try lia; apply (holds_part w bytes n (group * 64)); unfold GROUP; (exact Hh || nia)). cbn [mbind option_bind].
    rewrite IH by lia. cbn [mbind option_bind]. f_equal. rewrite (tabulate_split (stop - group) (whole - group)), concat_app by lia. f_equal.
    + rewrite zip_tabulate, <- concat_singletons. f_equal. apply tabulate_ext. intros i Hi. unfold selection.
      rewrite (proj2 (Z.eqb_neq _ _) (B (group + i) ltac:(lia))). do 2 f_equal. rewrite packed_group_drop by lia.
      unfold group_of. rewrite Z.min_l by (unfold GROUP; nia). reflexivity.
    + replace (whole - group - (stop - group)) with (whole - stop) by lia. f_equal. apply tabulate_ext. intros i Hi. f_equal. lia.
Qed.

(** The sink sees exactly the groups a bit selects, in order, each with its values and its word; the whole
    payload is consumed and its length checked whatever the selection. *)
Theorem selected_groups_exact {S} (n : Z) (words : list Z) (sink : S -> list Z * Z -> S) (s : S) (d : Decoder) : 0 <= n ->
  for_each_selected_group n words sink s d =
  ('(w, bytes) ← unpack_header n;
   if len words <? div_ceil n GROUP then fail (msg "selection words are shorter than the payload" [])
   else mret (Some (foldl sink s (concat (tabulate (div_ceil n GROUP) (selection w bytes words n)))))) d.
Proof.
  intros Hn0. apply unpack_header_bind; [exact Hn0|]. intros w bytes d' Hh. cbv beta iota zeta. destruct (len words <? _); [reflexivity|]. do 2 f_equal.
  assert (0 <= n / GROUP) by (apply Z.div_pos; unfold GROUP; lia). rewrite selected_groups_spec by (exact Hh || lia). cbn [mbind option_bind]. rewrite Z.sub_0_r.
  pose proof Hh as (Hw & Hn & Hm & Hl). unfold div_ceil, GROUP in *. pose proof (Z.div_mod n 64 ltac:(lia)) as E. pose proof (Z.mod_pos_bound n 64 ltac:(lia)).
  destruct (Z.ltb_spec 0 (n - n / 64 * 64)) as [Hr|Hr]; cbn [andb].
  2: { replace ((n + 64 - 1) / 64) with (n / 64) by (apply Z.div_unique with 63; lia). reflexivity. }
  replace ((n + 64 - 1) / 64) with (n / 64 + 1) by (apply Z.div_unique with (n mod 64 - 1); lia).
  rewrite (tabulate_app (n / 64) 1), concat_app by lia. change (tabulate 1 ?f) with [f 0]. cbn [concat]. rewrite app_nil_r, Z.add_0_r.
  assert (Es : selection w bytes words n (n / 64) = if word_at words (n / 64) =? 0 then [] else [(group_of w bytes n (n / 64), word_at words (n / 64))])
    by reflexivity.
  rewrite Es. destruct (word_at words (n / 64) =? 0); cbn [negb]; [now rewrite app_nil_r|].
  unfold tail_group. replace (n / 64 * (64 * w / 8)) with (n / 64 * (8 * w)) by (rewrite <- (Z.div_mul (8 * w) 8); [do 2 f_equal; lia|lia]).
  rewrite slice_from_part by nia. cbn [mbind option_bind]. rewrite (read_values_at _ _ 0) by (try apply reader_new_at; lia). do 5 f_equal.
  unfold group_of, GROUP. rewrite Z.min_r, Z2Nat.id by lia. apply tabulate_ext. intros i Hi. cbn [bit_reader_new br_bytes].
  rewrite <- (packed_value_drop w bytes (n / 64 * (8 * w))) by nia. reflexivity.
Qed.
End selected.

(** ** Packing and unpacking *)

Lemma testbit_from_le l j : 0 <= j -> Z.testbit (from_le l) j = match l !! Z.to_nat (j / 8) with Some b => Z.testbit (byte.unsigned b) (j mod 8) | None => false end.
Proof.
  intros Hj. assert (0 <= j / 8) by (apply Z.div_pos; lia). pose proof (Z.mod_pos_bound j 8 ltac:(lia)). pose proof (byte_and_bit j).
  assert (E : Z.testbit (from_le l) j = Z.testbit (from_le (slice l (j / 8) 1)) (j mod 8)).
  { rewrite from_le_slice by lia. rewrite Z.mod_pow2_bits_low, Z.div_pow2_bits by lia. f_equal. lia. }
  rewrite E. unfold slice. destruct (l !! Z.to_nat (j / 8)) as [b|] eqn:Eb.
  - rewrite (drop_S l b) by exact Eb. change (Z.to_nat 1) with 1%nat. cbn [take]. f_equal. unfold from_le. cbn [le_combine]. apply Z.lor_0_r.
  - apply lookup_ge_None in Eb. rewrite drop_ge by lia. rewrite take_nil. apply Z.bits_0.
Qed.

Lemma set_packed_bit_length bytes pos : length (set_packed_bit bytes pos) = length bytes.
Proof. unfold set_packed_bit. apply length_alter. Qed.

Lemma set_packed_bit_bits bytes pos j : 0 <= pos < 8 * len bytes -> 0 <= j -> Z.testbit (from_le (set_packed_bit bytes pos)) j = (j =? pos) || Z.testbit (from_le bytes) j.
Proof.
  intros Hp Hj. rewrite !testbit_from_le by lia. unfold set_packed_bit. pose proof (byte_and_bit j). pose proof (byte_and_bit pos).
  pose proof (Z.mod_pos_bound j 8 ltac:(lia)). pose proof (Z.mod_pos_bound pos 8 ltac:(lia)).
  assert (0 <= j / 8) by (apply Z.div_pos; lia). assert (0 <= pos / 8) by (apply Z.div_pos; lia).
  destruct (Z.eq_dec (j / 8) (pos / 8)) as [E|E].
  - rewrite E, list_lookup_alter. destruct (lookup_lt_is_Some_2 bytes (Z.to_nat (pos / 8))) as [b Eb]; [unfold len in Hp; lia|].
    rewrite Eb, decide_True by reflexivity. cbn [fmap option_fmap option_map]. rewrite byte.unsigned_of_Z. unfold byte.wrap.
    rewrite Z.mod_pow2_bits_low, Z.lor_spec, Z.shiftl_1_l, Z.pow2_bits_eqb by lia. rewrite orb_comm. f_equal.
    destruct (Z.eqb_spec j pos), (Z.eqb_spec (pos mod 8) (j mod 8)); lia.
  - rewrite list_lookup_alter_ne by lia. destruct (Z.eqb_spec j pos) as [->|]; [lia|]. reflexivity.
Qed.

Lemma land_one_bit v b : 0 <= b -> negb (Z.land v (Z.shiftl 1 b) =? 0) = Z.testbit v b.
Proof.
  intros Hb. rewrite Z.shiftl_1_l. destruct (Z.eqb_spec (Z.land v (2 ^ b)) 0) as [E|E]; cbn [negb].
  - assert (Z.testbit (Z.land v (2 ^ b)) b = false) as F by (rewrite E; apply Z.bits_0). rewrite Z.land_spec, Z.pow2_bits_true, andb_true_r in F by lia. now symmetry.
  - destruct (Z.testbit v b) eqn:Eb; [reflexivity|]. contradict E. apply Z.bits_inj'. intros j Hj. rewrite Z.land_spec, Z.bits_0, Z.pow2_bits_eqb by lia.
    destruct (Z.eqb_spec b j) as [<-|]; [now rewrite Eb|apply andb_false_r].
Qed.

(** Setting a value's bits one at a time. *)
Lemma pack_bits w base value l bytes : 0 <= base -> base + w <= 8 * len bytes -> Forall (fun bit => 0 <= bit < w) l ->
  let packed := foldl (fun bytes bit => if negb (Z.land value (Z.shiftl 1 bit) =? 0) then set_packed_bit bytes (base + bit) else bytes) bytes l in
  length packed = length bytes /\
  forall j, 0 <= j -> Z.testbit (from_le packed) j = Z.testbit (from_le bytes) j || existsb (fun bit => (base + bit =? j) && Z.testbit value bit) l.
Proof.
  intros Hb Hr Hl. revert bytes Hr. induction Hl as [|bit l Hbit Hl IH]; intros bytes Hr; cbn [foldl existsb]; [split; [reflexivity|]; intros; now rewrite orb_false_r|].
  cbn beta in Hbit. rewrite land_one_bit by lia. destruct (Z.testbit value bit) eqn:Ev.
  - destruct (IH (set_packed_bit bytes (base + bit))) as [A B]; [unfold len in *; rewrite set_packed_bit_length; lia|]. split; [now rewrite A, set_packed_bit_length|].
    intros j Hj. rewrite B, set_packed_bit_bits by lia. rewrite andb_true_r, (Z.eqb_sym j). rewrite <- orb_assoc, orb_comm, <- orb_assoc. f_equal. apply orb_comm.
  - destruct (IH bytes Hr) as [A B]. split; [exact A|]. intros j Hj. rewrite B, andb_false_r by lia. reflexivity.
Qed.

Lemma pack_value_number w bytes index value : 0 <= w -> 0 <= index -> 0 <= value < 2 ^ w -> (index + 1) * w <= 8 * len bytes -> from_le bytes < 2 ^ (index * w) ->
  length (pack_value w bytes index value) = length bytes /\ from_le (pack_value w bytes index value) = from_le bytes + value * 2 ^ (index * w).
Proof.
  intros Hw Hi Hv Hr Hs. pose proof (from_le_nonneg bytes). assert (0 <= index * w) by nia.
  destruct (pack_bits w (index * w) value (seqZ 0 w) bytes) as [A B]; [lia|lia|apply Forall_forall; intros b Hb; apply elem_of_seqZ in Hb; lia|].
  split; [exact A|]. rewrite <- lor_above by lia. apply Z.bits_inj'. intros j Hj. unfold pack_value. rewrite B, Z.lor_spec by lia. f_equal.
  apply eq_iff_eq_true. rewrite existsb_exists. destruct (Z.lt_ge_cases j (index * w)) as [Hlow|Hhigh].
  - rewrite Z.shiftl_spec_low by lia. split; [|discriminate]. intros (b & Hb & E). apply list_elem_of_In, elem_of_seqZ in Hb. lia.
  - rewrite Z.shiftl_spec by lia. split.
    + intros (b & Hb & E). apply andb_prop in E as [E1 E2]. apply Z.eqb_eq in E1. rewrite <- E2. f_equal. lia.
    + intros E. exists (j - index * w). rewrite E. split; [|lia]. apply list_elem_of_In, elem_of_seqZ. split; [lia|].
      destruct (Z.lt_ge_cases (j - index * w) w); [lia|]. rewrite (low_bits_high value w) in E by lia. discriminate.
Qed.

(** The number a list of values packs to. *)
Fixpoint packed_stream (w : Z) (values : list Z) : Z := match values with [] => 0 | v :: values => v + 2 ^ w * packed_stream w values end.

Lemma pack_from_number w values : 0 <= w -> Forall (fun v => 0 <= v < 2 ^ w) values -> forall bytes index, 0 <= index ->
  (index + len values) * w <= 8 * len bytes -> from_le bytes < 2 ^ (index * w) ->
  length (pack_from w bytes index values) = length bytes /\ from_le (pack_from w bytes index values) = from_le bytes + 2 ^ (index * w) * packed_stream w values.
Proof.
  intros Hw Hv. induction Hv as [|v values Hv Hvs IH]; intros bytes index Hi Hr Hs; cbn [pack_from packed_stream]; [split; [reflexivity|lia]|].
  cbn beta in Hv. unfold len in Hr. cbn [length] in Hr. pose proof (from_le_nonneg bytes). assert (0 <= index * w) by nia.
  destruct (pack_value_number w bytes index v) as [A B]; try assumption; [unfold len; nia|].
  destruct (IH (pack_value w bytes index v) (index + 1)) as [C D]; [lia|unfold len; rewrite A; lia| |].
  - rewrite B. replace ((index + 1) * w) with (index * w + w) by lia. rewrite Z.pow_add_r by lia. nia.
  - split; [congruence|]. rewrite D, B. replace ((index + 1) * w) with (index * w + w) by lia. rewrite Z.pow_add_r by lia. lia.
Qed.

Lemma stream_value w values : 0 <= w -> Forall (fun v => 0 <= v < 2 ^ w) values ->
  tabulate (len values) (fun i => packed_stream w values / 2 ^ (i * w) mod 2 ^ w) = values.
Proof.
  intros Hw Hv. induction Hv as [|v values Hv Hvs IH]; [reflexivity|]. cbn beta in Hv.
  replace (len (v :: values)) with (1 + len values) by (unfold len; cbn [length]; lia). rewrite tabulate_app by (unfold len; lia).
  change (tabulate 1 ?f) with [f 0]. cbn [app packed_stream]. rewrite (Z.mul_comm (2 ^ w)). f_equal.
  - rewrite Z.mul_0_l, Z.pow_0_r, Z.div_1_r, Z.mod_add, Z.mod_small by lia. reflexivity.
  - etransitivity; [|exact IH]. apply tabulate_ext. intros i Hi. replace ((1 + i) * w) with (w + i * w) by lia.
    rewrite Z.pow_add_r, <- Z.div_div by nia. rewrite Z.div_add, (Z.div_small v) by lia. reflexivity.
Qed.

Lemma pack_values values w bytes : 0 <= w -> Forall (fun v => 0 <= v < 2 ^ w) values -> pack values w = Ok bytes ->
  len values * w < 2 ^ 64 /\ len bytes = div_ceil (len values * w) 8 /\ packed_values w bytes (len values) = values.
Proof.
  intros Hw Hv. unfold pack, checked_mul. destruct (Z.ltb_spec (len values * w) (2 ^ 64)) as [Hm|]; [|discriminate]. intros [= <-].
  set (size := div_ceil (len values * w) 8). assert (Hsize : len values * w <= 8 * size /\ 0 <= size).
  { unfold size, div_ceil. pose proof (Z.div_mod (len values * w + 8 - 1) 8 ltac:(lia)). pose proof (Z.mod_pos_bound (len values * w + 8 - 1) 8 ltac:(lia)).
    split; [lia|]. apply Z.div_pos; unfold len; nia. }
  assert (Hl : len (replicate (Z.to_nat size) Byte.x00) = size) by (unfold len; rewrite length_replicate; lia).
  destruct (pack_from_number w values Hw Hv (replicate (Z.to_nat size) Byte.x00) 0) as [A B]; [lia|lia|rewrite from_le_zeros, Z.mul_0_l; reflexivity|].
  rewrite from_le_zeros, Z.mul_0_l, Z.pow_0_r, Z.mul_1_l, Z.add_0_l in B. split; [exact Hm|]. split; [unfold len in *; rewrite A; exact Hl|].
  unfold packed_values, packed_value. rewrite B. exact (stream_value w values Hw Hv).
Qed.

Lemma bit_length_bounds values : Forall (fun v => is_u64 v = true) values ->
  let w := bit_length (foldl Z.max 0 values) in 0 <= w <= 64 /\ Forall (fun v => 0 <= v < 2 ^ w) values.
Proof.
  intros Hv. assert (Hmax : forall l m, Forall (fun v => is_u64 v = true) l -> 0 <= m < 2 ^ 64 ->
    m <= foldl Z.max m l < 2 ^ 64 /\ Forall (fun v => 0 <= v <= foldl Z.max m l) l).
  { intros l. induction l as [|v l IH]; intros m Hl Hm; cbn [foldl]; [split; [lia|constructor]|]. inversion Hl as [|? ? Hv' Hl']; subst.
    unfold is_u64, in_unsigned in Hv'. destruct (IH (Z.max m v) Hl' ltac:(lia)) as [A B]. split; [lia|]. constructor; [lia|exact B]. }
  destruct (Hmax values 0 Hv ltac:(lia)) as [A B]. set (m := foldl Z.max 0 values) in *. cbv zeta. unfold bit_length.
  destruct (Z.eqb_spec m 0) as [E|E].
  - split; [lia|]. eapply Forall_impl; [exact B|]. intros v Hv'. cbn beta in *. lia.
  - pose proof (Z.log2_nonneg m). pose proof (Z.log2_spec m ltac:(lia)) as [_ Hlog]. assert (Z.log2 m < 64) by (apply Z.log2_lt_pow2; lia).
    split; [lia|]. eapply Forall_impl; [exact B|]. intros v Hv'. cbn beta in *. rewrite <- Z.add_1_r in Hlog. lia.
Qed.

Lemma packed_payload_decodes `{Machine} (e e' : Encoder) (values : list Z) : Forall (fun v => is_u64 v = true) values -> encode_packed e values = Ok e' ->
  exists payload, e' = e ++ payload /\ decodes (unpack (len values)) payload (Some values).
Proof.
  intros Hv. destruct (bit_length_bounds values Hv) as [Hw Hfit]. unfold encode_packed. set (w := bit_length _) in *. unfold mbind at 1, result_bind.
  destruct (pack values w) as [bytes|] eqn:Ep; [|discriminate]. intros He. apply enc_bytes_ok in He as [Hlen ->].
  destruct (pack_values values w bytes (proj1 Hw) Hfit Ep) as (Hm & Hsize & Hback). exists (to_le 1 w ++ to_le 4 (len bytes) ++ bytes).
  split; [unfold enc_u8; now rewrite <- app_assoc|].
  intros pre post base Hl. rewrite unpack_spec by (unfold len; lia). revert pre post base Hl.
  change (decodes ('(w, bytes) ← unpack_header (len values); mret (Some (packed_values w bytes (len values)))) (to_le 1 w ++ to_le 4 (len bytes) ++ bytes) (Some values)).
  eapply decodes_bind_ret with (a := (w, bytes)); [|rewrite Hback; apply decodes_ret].
  unfold unpack_header. eapply decodes_bind; [apply decodes_u8; unfold is_u8, in_unsigned; lia|]. destruct (Z.ltb_spec 64 w); [lia|].
  eapply decodes_bind_ret; [now apply decodes_byte_string|]. unfold checked_mul. rewrite (proj2 (Z.ltb_lt _ _) Hm), Hsize, Z.eqb_refl. apply decodes_ret.
Qed.

(** C30. Integers packed at the width of the largest are what [unpack] reads back, on any processor: it
    consumes the payload to its last byte. *)
Theorem packed_roundtrip `{Machine} (e e' : Encoder) (values : list Z) : Forall (fun v => is_u64 v = true) values -> encode_packed e values = Ok e' ->
  exists payload, e' = e ++ payload /\ decodes (unpack (len values)) payload (Some values).
Proof. apply packed_payload_decodes. Qed.

(** ** Examples *)

Module PackingExamples.

(** A processor with AVX2, and one without. *)
Definition vector_machine : Machine := {| has_v3 := true; has_v4 := false; cap := "" |}.
Definition plain_machine : Machine := {| has_v3 := false; has_v4 := false; cap := "" |}.

(** A hundred values of seven bits: runs of the vector kernel, a whole group and a tail. *)
Definition example_values : list Z := tabulate 100 (fun i => i * 37 mod 101).
Definition packed_payload : list byte := match encode_packed [] example_values with Ok e => e | Err _ => [] end.
Definition example_packed : list byte := drop 5 packed_payload.

Lemma unpack_kernels_exact_witness :
  unpack_u64 (H := vector_machine) 7 example_packed 5 (zeros 100) = Some (map (Z.add 5) example_values) /\
  unpack_u64 (H := plain_machine) 7 [] 5 (zeros 100) = None.
Proof.
  split.
  - rewrite (unpack_kernels_exact (H := vector_machine) 7 example_packed 5 (zeros 100)) by lia. vm_compute. reflexivity.
  - rewrite (unpack_kernels_exact (H := plain_machine) 7 [] 5 (zeros 100)) by lia. reflexivity.
Defined.

(** Signed sums inside the type, and an unsigned sum below it. *)
Lemma typed_decodes_checked_witness :
  fst (unpack_signed_into (H := vector_machine) 100 (-50) [] (decoder_new packed_payload)) = Ok (Some (map (Z.add (-50)) example_values)) /\
  fst (unpack_unsigned_into (H := plain_machine) 100 (-50) [] (decoder_new packed_payload)) = Err (msg "bit-packed unsigned integer overflow" []).
Proof.
  split.
  - rewrite (proj1 (typed_decodes_checked (H := vector_machine) 100 (-50) [] (decoder_new packed_payload) ltac:(lia) eq_refl)). vm_compute. reflexivity.
  - rewrite (proj2 (typed_decodes_checked (H := plain_machine) 100 (-50) [] (decoder_new packed_payload) ltac:(lia) eq_refl)). vm_compute. reflexivity.
Defined.

(** A monotone block, and one whose last value leaves the type. *)
Lemma delta_decodes_checked_witness :
  fst (unpack_delta_into (H := vector_machine) (H0 := signed_destination) 101 7 LInt64 [] (decoder_new packed_payload)) =
    Ok (Some (7 :: imap (fun i _ => 7 + foldr Z.add 0 (take (S i) example_values)) example_values)) /\
  fst (unpack_delta_into (H := plain_machine) (H0 := signed_destination) 101 i64_max LInt64 [] (decoder_new packed_payload)) =
    Err (msg "integer delta overflow" []).
Proof.
  split.
  - rewrite (proj2 (delta_decodes_checked (H := vector_machine) signed_destination LInt64 101 7 (fun s (_ : Z) => Ok s) tt [] (decoder_new packed_payload)
      signed_lawful ltac:(lia) eq_refl)). vm_compute. reflexivity.
  - rewrite (proj2 (delta_decodes_checked (H := plain_machine) signed_destination LInt64 101 i64_max (fun s (_ : Z) => Ok s) tt [] (decoder_new packed_payload)
      signed_lawful ltac:(lia) eq_refl)). vm_compute. reflexivity.
Defined.

(** Only the tail is selected. *)
Lemma selected_groups_exact_witness :
  fst (for_each_selected_group (H := vector_machine) 100 [0; 6] (fun s g => s ++ [g]) [] (decoder_new packed_payload)) = Ok (Some [(drop 64 example_values, 6)]).
Proof.
  rewrite (selected_groups_exact (H := vector_machine) 100 [0; 6] (fun s g => s ++ [g]) [] (decoder_new packed_payload) ltac:(lia)). vm_compute. reflexivity.
Defined.

Lemma packed_roundtrip_witness : exists payload, packed_payload = [] ++ payload /\ decodes (unpack (H := vector_machine) (len example_values)) payload (Some example_values).
Proof.
  apply (packed_roundtrip (H := vector_machine) [] packed_payload example_values).
  - apply Forall_forall. intros v Hv. apply list_elem_of_In in Hv. revert v Hv. apply List.forallb_forall. vm_compute. reflexivity.
  - vm_compute. reflexivity.
Defined.
End PackingExamples.
