(* ===== verification/Encoding.v ===== *)
(** * Block payloads

    How the values of a block are written: [segment/encoding.rs], the choice of an encoding, the plain,
    dictionary, run-length, bit-packed and delta payloads, the dictionary a column shares between its
    blocks, and the bound on what a payload decodes to.  A block's NULLs are in its bitmap, so the cells
    here are values. *)

From Stdlib Require Import ZArith Lia String.
From stdpp Require Import prelude list.
From coqutil Require Import Byte.
From S2P Require Import Prelude.
From S2P Require Import Types.
From S2P Require Import Codec.
From S2P Require Import Wal.
From S2P Require Import Memtable.
From S2P Require Import Segment.
From S2P Require Import SegmentFile.
From S2P Require Import Packing.

#[local] Open Scope Z_scope.

Inductive Encoding : Type := Plain | Dictionary | RunLength | BitPacked | DeltaBitPacked | NarrowDictionary.

#[export] Instance Encoding_eq_dec : EqDecision Encoding.
Proof. solve_decision. Defined.

Definition encoding_tag (e : Encoding) : Z :=
  match e with Plain => 0 | Dictionary => 1 | RunLength => 2 | BitPacked => 3 | DeltaBitPacked => 4 | NarrowDictionary => 5 end.

(** [Encoding::decode]. *)
Definition encoding_decode (tag : Z) : result message Encoding :=
  if tag =? 0 then Ok Plain
  else if tag =? 1 then Ok Dictionary
  else if tag =? 2 then Ok RunLength
  else if tag =? 3 then Ok BitPacked
  else if tag =? 4 then Ok DeltaBitPacked
  else if tag =? 5 then Ok NarrowDictionary
  else Err (msg "unknown block encoding {tag}" [tag]).

(** ** Cells *)

Definition encode_cell (e : Encoder) (cell : Cell) : result StoreError Encoder :=
  match cell with
  | CNull => Ok e
  | CBoolean b => Ok (enc_u8 e (if b then 1 else 0))
  | CInt64 v => Ok (enc_i64 e v)
  | CUInt64 v | CFloat64 v => Ok (enc_u64 e v)
  | CUtf8 v => enc_bytes e v (msg "UTF-8 block value" [])
  | CBinary v => enc_bytes e v (msg "binary block value" [])
  | CKey k => encode_key e k
  end.

Definition decode_cell (t : LogicalType) : Dec Cell :=
  match t with
  | LBoolean =>
      v ← dec_u8;
      if v =? 0 then mret (CBoolean false) else if v =? 1 then mret (CBoolean true) else fail (msg "invalid boolean value {value}" [v])
  | LInt64 => v ← dec_i64; mret (CInt64 v)
  | LUInt64 => v ← dec_u64; mret (CUInt64 v)
  | LFloat64 => v ← dec_u64; mret (CFloat64 v)
  | LUtf8 => bs ← dec_byte_string; s ← decode_utf8 bs (msg "invalid UTF-8 block value" []); mret (CUtf8 s)
  | LBinary => bs ← dec_byte_string; mret (CBinary bs)
  | LPrimaryKey => k ← decode_key; mret (CKey k)
  end.

(** ** The choice of an encoding *)

(** [cells.windows(2).all(..)]. *)
Fixpoint all_windows {A} (f : A -> A -> bool) (l : list A) : bool :=
  match l with
  | a :: (b :: _) as rest => f a b && all_windows f rest
  | _ => true
  end.

Definition is_monotonic_integer (t : LogicalType) (cells : list Cell) : bool :=
  match t with
  | LUInt64 => all_windows (fun a b => match a, b with CUInt64 x, CUInt64 y => x <=? y | _, _ => false end) cells
  | LInt64 => all_windows (fun a b => match a, b with CInt64 x, CInt64 y => x <=? y | _, _ => false end) cells
  | _ => false
  end.

(** [cells.iter().collect::<HashSet<_>>()]. *)
Definition distinct_cells (cells : list Cell) : list Cell := remove_dups cells.

Definition select_encoding (t : LogicalType) (cells : list Cell) : Encoding :=
  let same := match cells with first :: _ => forallb (fun cell => bool_decide (cell = first)) cells | [] => true end in
  let text := match t with LUtf8 | LBinary => true | _ => false end in
  let integer := match t with LBoolean | LInt64 | LUInt64 => true | _ => false end in
  if (1 <? len cells) && same then RunLength
  else if text && (4 <=? len cells) && (len (distinct_cells cells) * 10 <? len cells) then Dictionary
  else if (3 <=? len cells) && is_monotonic_integer t cells then DeltaBitPacked
  else if integer then BitPacked
  else Plain.

(** ** Dictionaries *)

(** A [HashMap] from cells to codes. *)
Fixpoint position_of (positions : list (Cell * Z)) (cell : Cell) : option Z :=
  match positions with
  | [] => None
  | (c, index) :: rest => if bool_decide (c = cell) then Some index else position_of rest cell
  end.

Record Dict : Type := { di_positions : list (Cell * Z); di_entries : list Cell }.

Definition dict_empty : Dict := {| di_positions := []; di_entries := [] |}.

(** The code of a cell the map does not hold: the next one. *)
Definition dict_push (d : Dict) (cell : Cell) : result StoreError (Z * Dict) :=
  let index := len (di_entries d) in
  if index <=? u32_max
  then Ok (index, {| di_positions := (cell, index) :: di_positions d; di_entries := di_entries d ++ [cell] |})
  else Err (FormatLimit (msg "dictionary exceeds u32::MAX" [])).

Definition dict_code (d : Dict) (cell : Cell) : result StoreError (Z * Dict) :=
  match position_of (di_positions d) cell with Some index => Ok (index, d) | None => dict_push d cell end.

Fixpoint dict_codes (d : Dict) (cells : list Cell) : result StoreError (list Z * Dict) :=
  match cells with
  | [] => Ok ([], d)
  | cell :: cells =>
      '(index, d) ← dict_code d cell;
      '(indices, d) ← dict_codes d cells;
      Ok (index :: indices, d)
  end.

(** Entry count, entries, a code for each value. *)
Definition encode_listed (e : Encoder) (entries : list Cell) (indices : list Z) : result StoreError Encoder :=
  e ← enc_length e (len entries) (msg "block dictionary" []);
  e ← fold_result encode_cell e entries;
  Ok (foldl enc_u32 e indices).

Definition encode_dictionary (e : Encoder) (cells : list Cell) : result StoreError Encoder :=
  '(indices, d) ← dict_codes dict_empty cells;
  encode_listed e (di_entries d) indices.

Definition dictionary_index_width : Dec Z :=
  width ← dec_u8;
  if width =? 1 then mret 1 else if width =? 2 then mret 2 else fail (msg "dictionary index width {width} is not one or two" [width]).

Definition dictionary_index (width : Z) : Dec Z :=
  if width =? 1 then dec_u8
  else if width =? 2 then bytes ← dec_take 2; mret (from_le bytes)
  else dec_u32.

Definition decode_dictionary (t : LogicalType) (value_count : Z) (narrow : bool) : Dec (list Cell) :=
  dictionary_count ← dec_u32;
  dictionary ← dec_repeat (Z.to_nat dictionary_count) (decode_cell t);
  width ← (if narrow then dictionary_index_width else mret 4);
  dec_repeat (Z.to_nat value_count)
    (index ← dictionary_index width;
     match dictionary !! Z.to_nat index with
     | Some cell => mret cell
     | None => fail (msg "dictionary index {index} is out of bounds" [index])
     end).

(** ** Runs *)

(** The runs so far, the last one first. *)
Definition push_run (runs : list (Z * Cell)) (cell : Cell) : result StoreError (list (Z * Cell)) :=
  match runs with
  | (length, previous) :: rest =>
      if bool_decide (previous = cell)
      then if length + 1 <=? u32_max then Ok ((length + 1, previous) :: rest)
           else Err (FormatLimit (msg "run length exceeds u32::MAX" []))
      else Ok ((1, cell) :: runs)
  | [] => Ok [(1, cell)]
  end.

Definition encode_run (e : Encoder) (run : Z * Cell) : result StoreError Encoder := encode_cell (enc_u32 e run.1) run.2.

Definition encode_runs (e : Encoder) (cells : list Cell) : result StoreError Encoder :=
  runs ← fold_result push_run [] cells;
  e ← enc_length e (len runs) (msg "run count" []);
  fold_result encode_run e (rev runs).

(** The runs still to read. *)
Fixpoint decode_run_list (run_count : nat) (t : LogicalType) (value_count : Z) (values : list Cell) : Dec (list Cell) :=
  match run_count with
  | O => mret values
  | S run_count =>
      length ← dec_u32;
      if length =? 0 then fail (msg "run length must be non-zero" [])
      else
        value ← decode_cell t;
        if value_count <? sat_add 64 (len values) length then fail (msg "run lengths exceed block value count" [])
        else decode_run_list run_count t value_count (values ++ replicate (Z.to_nat length) value)
  end.

Definition decode_runs (t : LogicalType) (value_count : Z) : Dec (list Cell) :=
  run_count ← dec_u32;
  values ← decode_run_list (Z.to_nat run_count) t value_count [];
  if len values =? value_count then mret values
  else fail (msg "run lengths produce {} values, expected {value_count}" [len values; value_count]).

(** ** Integers *)

Definition integer_value (t : LogicalType) (cell : Cell) : result message Z :=
  match t, cell with
  | LBoolean, CBoolean b => Ok (if b then 1 else 0)
  | LInt64, CInt64 v => Ok v
  | LUInt64, CUInt64 v => Ok v
  | _, _ => Err (msg "bit-packed value does not match logical type" [])
  end.

Definition integer_values (t : LogicalType) (cells : list Cell) : result StoreError (list Z) :=
  map_result (fun cell => match integer_value t cell with Ok v => Ok v | Err reason => Err (FormatLimit reason) end) cells.

Definition integer_from_i128 (t : LogicalType) (value : Z) : result message Cell :=
  match t with
  | LBoolean =>
      if value =? 0 then Ok (CBoolean false) else if value =? 1 then Ok (CBoolean true)
      else Err (msg "invalid bit-packed boolean {value}" [value])
  | LInt64 => if is_i64 value then Ok (CInt64 value) else Err (msg "bit-packed signed integer overflow" [])
  | LUInt64 => if is_u64 value then Ok (CUInt64 value) else Err (msg "bit-packed unsigned integer overflow" [])
  | _ => Err (msg "logical type cannot be bit-packed" [])
  end.

Definition integer_from_base (t : LogicalType) (base normalized : Z) : result message Cell :=
  match checked_i128 (base + normalized) with
  | Some value => integer_from_i128 t value
  | None => Err (msg "bit-packed integer overflow" [])
  end.

Definition encode_integer_base (e : Encoder) (t : LogicalType) (base : Z) : result StoreError Encoder :=
  match t with
  | LBoolean => if is_u8 base then Ok (enc_u8 e base) else Err (FormatLimit (msg "boolean base does not fit u8" []))
  | LInt64 => if is_i64 base then Ok (enc_i64 e base) else Err (FormatLimit (msg "signed base does not fit i64" []))
  | LUInt64 => if is_u64 base then Ok (enc_u64 e base) else Err (FormatLimit (msg "unsigned base does not fit u64" []))
  | _ => Err (FormatLimit (msg "logical type cannot be bit-packed" []))
  end.

Definition decode_integer_base (t : LogicalType) : Dec Z :=
  match t with
  | LBoolean => dec_u8
  | LInt64 => dec_i64
  | LUInt64 => dec_u64
  | _ => fail (msg "logical type cannot be bit-packed" [])
  end.

(** [values.iter().copied().min().unwrap_or(0)]. *)
Definition minimum (values : list Z) : Z := match values with [] => 0 | v :: values => foldl Z.min v values end.

Definition u64_or (what : message) (z : Z) : result StoreError Z := if is_u64 z then Ok z else Err (FormatLimit what).

Definition normalize_integers (t : LogicalType) (cells : list Cell) : result StoreError (Z * list Z) :=
  values ← integer_values t cells;
  let base := minimum values in
  normalized ← map_result (fun value => u64_or (msg "integer range exceeds u64" []) (value - base)) values;
  Ok (base, normalized).

Definition encode_bit_packed (e : Encoder) (t : LogicalType) (cells : list Cell) : result StoreError Encoder :=
  '(base, normalized) ← normalize_integers t cells;
  e ← encode_integer_base e t base;
  encode_packed e normalized.

(** The differences of neighbours. *)
Fixpoint windows_deltas (values : list Z) : result StoreError (list Z) :=
  match values with
  | a :: (b :: _) as rest =>
      delta ← u64_or (msg "integer delta exceeds u64" []) (b - a);
      deltas ← windows_deltas rest; Ok (delta :: deltas)
  | _ => Ok []
  end.

Definition encode_delta_bit_packed (e : Encoder) (t : LogicalType) (cells : list Cell) : result StoreError Encoder :=
  match cells with
  | [] => Err (FormatLimit (msg "delta block cannot be empty" []))
  | first :: _ =>
      e ← encode_cell e first;
      values ← integer_values t cells;
      deltas ← windows_deltas values;
      encode_packed e deltas
  end.

(** A running value and the cells so far. *)
Definition push_delta (t : LogicalType) (s : Z * list Cell) (delta : Z) : result message (Z * list Cell) :=
  match checked_i128 (s.1 + delta) with
  | None => Err (msg "integer delta overflow" [])
  | Some current => cell ← integer_from_i128 t current; Ok (current, s.2 ++ [cell])
  end.

Section decoders.
Context `{Machine}.

Definition decode_bit_packed (t : LogicalType) (value_count : Z) : Dec (option (list Cell)) :=
  base ← decode_integer_base t;
  values ← unpack value_count;
  match values with
  | None => mret None
  | Some values => cells ← Codec.lift (map_result (integer_from_base t base) values); mret (Some cells)
  end.

Definition decode_delta_bit_packed (t : LogicalType) (value_count : Z) : Dec (option (list Cell)) :=
  if value_count =? 0 then fail (msg "delta block cannot be empty" [])
  else
    first ← decode_cell t;
    current ← Codec.lift (integer_value t first);
    deltas ← unpack (value_count - 1);
    match deltas with
    | None => mret None
    | Some deltas => s ← Codec.lift (fold_result (push_delta t) (current, [first]) deltas); mret (Some s.2)
    end.

(** ** Payloads *)

Definition encode_payload (t : LogicalType) (encoding : Encoding) (cells : list Cell) : result StoreError (list byte) :=
  match encoding with
  | Plain => fold_result encode_cell encoder_new cells
  | Dictionary | NarrowDictionary => encode_dictionary encoder_new cells
  | RunLength => encode_runs encoder_new cells
  | BitPacked => encode_bit_packed encoder_new t cells
  | DeltaBitPacked => encode_delta_bit_packed encoder_new t cells
  end.

Definition decode_values (t : LogicalType) (encoding : Encoding) (value_count : Z) : Dec (option (list Cell)) :=
  match encoding with
  | Plain => cells ← dec_repeat (Z.to_nat value_count) (decode_cell t); mret (Some cells)
  | Dictionary => cells ← decode_dictionary t value_count false; mret (Some cells)
  | NarrowDictionary => cells ← decode_dictionary t value_count true; mret (Some cells)
  | RunLength => cells ← decode_runs t value_count; mret (Some cells)
  | BitPacked => decode_bit_packed t value_count
  | DeltaBitPacked => decode_delta_bit_packed t value_count
  end.

(** [None] is a panic of a kernel. *)
Definition decode_payload (bytes : list byte) (t : LogicalType) (encoding : Encoding) (value_count : Z) : option (result message (list Cell)) :=
  match decode_values t encoding value_count (decoder_new bytes) with
  | (Err e, _) => Some (Err e)
  | (Ok None, _) => None
  | (Ok (Some cells), d) => match dec_finish d with Ok _ => Some (Ok cells) | Err e => Some (Err e) end
  end.
End decoders.

(** ** Narrow dictionaries *)

(** The code of each four bytes, at the width, when the bytes past it are zero. *)
Fixpoint narrow_indexes (n : nat) (width : Z) (indexes : list byte) : option (list byte) :=
  match n with
  | O => Some []
  | S n =>
      let index := take 4 indexes in
      if forallb (fun b => byte.unsigned b =? 0) (drop (Z.to_nat width) index)
      then rest ← narrow_indexes n width (drop 4 indexes); Some (take (Z.to_nat width) index ++ rest)
      else None
  end.

(** [.ok()?]. *)
Definition ok_step {A B} (m : Dec A) (d : Decoder) (k : A -> Decoder -> option B) : option B :=
  match m d with (Ok a, d) => k a d | (Err _, _) => None end.

Definition narrow_dictionary_payload (wide : list byte) (value_count : Z) : option (list byte) :=
  ok_step dec_u32 (decoder_new wide) (fun entries d =>
    width ← (if entries <=? 256 then Some 1 else if entries <=? 65536 then Some 2 else None);
    ok_step (dec_repeat (Z.to_nat entries) dec_byte_string) d (fun _ d =>
      let head := position d in
      size ← checked_mul 64 value_count 4;
      ok_step (dec_take size) d (fun indexes d =>
        match dec_finish d with
        | Err _ => None
        | Ok _ =>
            codes ← narrow_indexes (Z.to_nat (len indexes / 4)) width indexes;
            Some (take (Z.to_nat head) wide ++ to_le 1 width ++ codes)
        end))).

(** ** The dictionary of a column *)

Definition COLUMN_DICTIONARY_ENTRIES : Z := 1024.
Definition COLUMN_DICTIONARY_BYTES : Z := 32 * 1024.

Record ColumnDictionary : Type := { cd_dict : Dict; cd_bytes : Z; cd_closed : bool }.

Definition column_dictionary_new : ColumnDictionary := {| cd_dict := dict_empty; cd_bytes := 0; cd_closed := false |}.

Definition holds_all (c : ColumnDictionary) (cells : list Cell) : bool :=
  negb (cd_closed c) && negb (match cells with [] => true | _ => false end)
  && forallb (fun cell => match position_of (di_positions (cd_dict c)) cell with Some _ => true | None => false end) cells.

Definition is_open (c : ColumnDictionary) : bool := negb (cd_closed c).

(** What coding a block leaves: its codes, nothing when the column closed, or an error. *)
Inductive Coded : Type := Coding (indices : list Z) | Closing | Failing (e : StoreError).

(** The loop over a block's cells; the dictionary it leaves is kept in every case. *)
Fixpoint column_codes (c : ColumnDictionary) (cells : list Cell) (indices : list Z) : Coded * ColumnDictionary :=
  match cells with
  | [] => (Coding indices, c)
  | cell :: cells =>
      match position_of (di_positions (cd_dict c)) cell with
      | Some index => column_codes c cells (indices ++ [index])
      | None =>
          let bytes := match cell with CUtf8 text => sat_add 64 (cd_bytes c) (len text) | _ => cd_bytes c end in
          if (COLUMN_DICTIONARY_ENTRIES <=? len (di_entries (cd_dict c))) || (COLUMN_DICTIONARY_BYTES <? bytes)
          then (Closing, {| cd_dict := cd_dict c; cd_bytes := bytes; cd_closed := true |})
          else
            match dict_push (cd_dict c) cell with
            | Err e => (Failing e, {| cd_dict := cd_dict c; cd_bytes := bytes; cd_closed := false |})
            | Ok (index, dict) => column_codes {| cd_dict := dict; cd_bytes := bytes; cd_closed := false |} cells (indices ++ [index])
            end
      end
  end.

(** [listed]: the entries up to the highest code used. *)
Definition listed (indices : list Z) : Z := foldl (fun listed index => Z.max listed (index + 1)) 0 indices.

Definition column_encode (c : ColumnDictionary) (cells : list Cell) : result StoreError (option (list byte)) * ColumnDictionary :=
  if cd_closed c then (Ok None, c)
  else
    match column_codes c cells [] with
    | (Closing, c) => (Ok None, c)
    | (Failing e, c) => (Err e, c)
    | (Coding indices, c) =>
        (match encode_listed encoder_new (take (Z.to_nat (listed indices)) (di_entries (cd_dict c))) indices with
         | Ok payload => Ok (Some payload)
         | Err e => Err e
         end, c)
    end.

(** ** The bound on decoded bytes *)

Definition sum_lengths (n : nat) : Dec Z :=
  values ← dec_repeat n dec_byte_string; mret (foldl (fun sum v => sat_add 64 sum (len v)) 0 values).

(** The codes of a dictionary block, each in bounds. *)
Definition checked_index (width dictionary_count : Z) : Dec unit :=
  index ← dictionary_index width;
  if dictionary_count <=? index then fail (msg "dictionary index {index} is out of bounds" [index]) else mret tt.

Definition dictionary_bound (value_count : Z) (narrow : bool) : Dec Z :=
  dictionary_count ← dec_u32;
  entries ← dec_repeat (Z.to_nat dictionary_count) dec_byte_string;
  width ← (if narrow then dictionary_index_width else mret 4);
  _ ← dec_repeat (Z.to_nat value_count) (checked_index width dictionary_count);
  mret (sat_mul 64 (foldl (fun m v => Z.max m (len v)) 0 entries) value_count).

Fixpoint run_bound (run_count : nat) (value_count produced heap_bytes : Z) : Dec (Z * Z) :=
  match run_count with
  | O => mret (produced, heap_bytes)
  | S run_count =>
      length ← dec_u32;
      if length =? 0 then fail (msg "run length must be non-zero" [])
      else
        let produced := sat_add 64 produced length in
        if value_count <? produced then fail (msg "run lengths exceed block value count" [])
        else
          value ← dec_byte_string;
          run_bound run_count value_count produced (sat_add 64 heap_bytes (sat_mul 64 (len value) length))
  end.

Definition runs_bound (value_count : Z) : Dec Z :=
  run_count ← dec_u32;
  '(produced, heap_bytes) ← run_bound (Z.to_nat run_count) value_count 0 0;
  if produced =? value_count then mret heap_bytes
  else fail (msg "run lengths produce {produced} values, expected {value_count}" [produced; value_count]).

Definition text_bound (encoding : Encoding) (value_count : Z) : Dec Z :=
  match encoding with
  | Plain => sum_lengths (Z.to_nat value_count)
  | Dictionary => dictionary_bound value_count false
  | NarrowDictionary => dictionary_bound value_count true
  | RunLength => runs_bound value_count
  | BitPacked | DeltaBitPacked => fail (msg "string block uses an integer encoding" [])
  end.

Definition decoded_heap_upper_bound (bytes : list byte) (t : LogicalType) (encoding : Encoding) (value_count : Z) : result message Z :=
  match t with
  | LUtf8 | LBinary =>
      match text_bound encoding value_count (decoder_new bytes) with
      | (Err e, _) => Err e
      | (Ok heap_bytes, d) => match dec_finish d with Ok _ => Ok heap_bytes | Err e => Err e end
      end
  | LPrimaryKey =>
      let payload_bytes := match encoding with Plain => sat_mul 64 (len bytes) 4 | _ => sat_mul 64 (len bytes) value_count end in
      Ok (sat_add 64 payload_bytes (sat_mul 64 value_count 64))
  | _ => Ok 0
  end.

(** ** Cells are read back *)

(** A value of the type. *)
Definition cell_fits (t : LogicalType) (cell : Cell) : bool :=
  match t, cell with
  | LBoolean, CBoolean _ => true
  | LInt64, CInt64 v => is_i64 v
  | LUInt64, CUInt64 v | LFloat64, CFloat64 v => is_u64 v
  | LUtf8, CUtf8 s => utf8_valid s
  | LBinary, CBinary _ => true
  | LPrimaryKey, CKey k => primary_key_wf k
  | _, _ => false
  end.

#[export] Instance cell_codec t : Codec encode_cell (decode_cell t) (cell_fits t) (fun c => c) 1.
Proof.
  intros e c e' Hf He. destruct t, c as [|b|v|v|v|s|bs|k]; try discriminate Hf; cbn [cell_fits encode_cell decode_cell] in *.
  - injection He as <-. exists (to_le 1 (if b then 1 else 0)). split; [reflexivity|]. split; [now rewrite len_to_le|].
    eapply decodes_bind_ret; [apply decodes_u8; now destruct b|]. destruct b; apply decodes_ret.
  - injection He as <-. exists (to_le 8 v). split; [reflexivity|]. split; [now rewrite len_to_le|].
    eapply decodes_bind_ret; [now apply decodes_i64|apply decodes_ret].
  - injection He as <-. exists (to_le 8 v). split; [reflexivity|]. split; [now rewrite len_to_le|].
    eapply decodes_bind_ret; [now apply decodes_u64|apply decodes_ret].
  - injection He as <-. exists (to_le 8 v). split; [reflexivity|]. split; [now rewrite len_to_le|].
    eapply decodes_bind_ret; [now apply decodes_u64|apply decodes_ret].
  - apply enc_bytes_ok in He as [Hl ->]. exists (to_le 4 (len s) ++ s). split; [reflexivity|]. split; [rewrite len_app, len_to_le; pose proof (len_nonneg s); lia|].
    eapply decodes_bind_ret; [now apply decodes_byte_string|]. eapply decodes_bind_ret; [now apply decodes_utf8|apply decodes_ret].
  - apply enc_bytes_ok in He as [Hl ->]. exists (to_le 4 (len bs) ++ bs). split; [reflexivity|]. split; [rewrite len_app, len_to_le; pose proof (len_nonneg bs); lia|].
    eapply decodes_bind_ret; [now apply decodes_byte_string|apply decodes_ret].
  - destruct (key_codec _ _ _ Hf He) as (bs & -> & Hl & Hd). exists bs. split; [reflexivity|]. split; [lia|].
    eapply decodes_bind_ret; [exact Hd|apply decodes_ret].
Qed.

(** ** Dictionaries are read back *)

(** Every code the map holds names its cell. *)
Definition dict_ok (d : Dict) : Prop :=
  forall cell index, position_of (di_positions d) cell = Some index -> is_u32 index = true /\ di_entries d !! Z.to_nat index = Some cell.

(** The codes of some cells in a list of entries. *)
Definition codes_of (entries : list Cell) : list Z -> list Cell -> Prop :=
  Forall2 (fun index cell => is_u32 index = true /\ entries !! Z.to_nat index = Some cell).

Lemma codes_of_app entries more indices cells : codes_of entries indices cells -> codes_of (entries ++ more) indices cells.
Proof. intros Hc. eapply Forall2_impl; [exact Hc|]. intros index cell [Hi He]. split; [exact Hi|]. now apply lookup_app_l_Some. Qed.

Lemma dict_push_ok d cell index d' : dict_ok d -> dict_push d cell = Ok (index, d') ->
  dict_ok d' /\ di_entries d' = di_entries d ++ [cell] /\ is_u32 index = true /\ di_entries d' !! Z.to_nat index = Some cell.
Proof.
  intros Hd. unfold dict_push. destruct (Z.leb_spec (len (di_entries d)) u32_max) as [Hl|]; [|discriminate]. intros [= <- <-]. cbn [di_entries di_positions].
  assert (Hu : is_u32 (len (di_entries d)) = true) by (apply in_unsigned_spec; pose proof (len_nonneg (di_entries d)); unfold u32_max in Hl; lia).
  assert (He : (di_entries d ++ [cell]) !! Z.to_nat (len (di_entries d)) = Some cell).
  { unfold len. rewrite Nat2Z.id. apply list_lookup_middle. reflexivity. }
  split; [|auto]. intros c i. cbn [position_of di_positions]. case_bool_decide as E; [intros [= <-]; subst; auto|]. intros Hp.
  destruct (Hd c i Hp) as [A B]. split; [exact A|]. now apply lookup_app_l_Some.
Qed.

Lemma dict_codes_ok cells : forall d indices d', dict_ok d -> dict_codes d cells = Ok (indices, d') ->
  dict_ok d' /\ codes_of (di_entries d') indices cells /\
  exists more, di_entries d' = di_entries d ++ more /\ Forall (fun c => c ∈ cells) more.
Proof.
  induction cells as [|cell cells IH]; intros d indices d' Hd; cbn [dict_codes].
  { intros [= <- <-]. split; [exact Hd|]. split; [constructor|]. exists []. now rewrite app_nil_r. }
  unfold dict_code, mbind, result_bind.
  destruct (position_of (di_positions d) cell) as [index|] eqn:Ep; [|destruct (dict_push d cell) as [[index d1]|] eqn:Eq; [|discriminate]].
  - destruct (dict_codes d cells) as [[rest d2]|] eqn:Er; [|discriminate]. intros [= <- <-]. destruct (IH _ _ _ Hd Er) as (A & B & more & Em & Hm).
    destruct (Hd cell index Ep) as [Hi He]. split; [exact A|]. split.
    + constructor; [|exact B]. split; [exact Hi|]. rewrite Em. now apply lookup_app_l_Some.
    + exists more. split; [exact Em|]. eapply Forall_impl; [exact Hm|]. intros c Hc. now apply list_elem_of_further.
  - destruct (dict_push_ok d cell index d1 Hd Eq) as (Hd1 & E1 & Hi & He).
    destruct (dict_codes d1 cells) as [[rest d2]|] eqn:Er; [|discriminate]. intros [= <- <-]. destruct (IH _ _ _ Hd1 Er) as (A & B & more & Em & Hm).
    split; [exact A|]. split.
    + constructor; [|exact B]. split; [exact Hi|]. rewrite Em. now apply lookup_app_l_Some.
    + exists (cell :: more). split; [rewrite Em, E1, <- app_assoc; reflexivity|]. constructor; [apply list_elem_of_here|].
      eapply Forall_impl; [exact Hm|]. intros c Hc. now apply list_elem_of_further.
Qed.

Lemma enc_codes e indices : foldl enc_u32 e indices = e ++ concat (map (to_le 4) indices).
Proof. revert e. induction indices as [|i indices IH]; intros e; cbn [foldl map concat]; [now rewrite app_nil_r|]. rewrite IH. unfold enc_u32. now rewrite <- app_assoc. Qed.

(** The cell a code names. *)
Definition coded_cell (entries : list Cell) (width : Z) : Dec Cell :=
  index ← dictionary_index width;
  match entries !! Z.to_nat index with
  | Some cell => mret cell
  | None => fail (msg "dictionary index {index} is out of bounds" [index])
  end.

Lemma codes_decode entries indices cells : codes_of entries indices cells ->
  decodes (dec_repeat (length cells) (coded_cell entries 4)) (concat (map (to_le 4) indices)) cells.
Proof.
  intros Hc. induction Hc as [|index cell indices cells [Hi He] Hc IH]; cbn [length dec_repeat map concat]; [apply decodes_ret|].
  eapply decodes_bind; [|eapply decodes_bind_ret; [exact IH|apply decodes_ret]].
  unfold coded_cell. eapply decodes_bind_ret; [now apply decodes_u32|]. rewrite He. apply decodes_ret.
Qed.

Lemma dictionary_decodes t e e' entries indices cells : forallb (cell_fits t) entries = true -> codes_of entries indices cells ->
  encode_listed e entries indices = Ok e' -> exists bs, e' = e ++ bs /\ decodes (decode_dictionary t (len cells) false) bs cells.
Proof.
  intros Hf Hc. unfold encode_listed, mbind at 1, result_bind at 1. destruct (enc_length _ _ _) as [e1|] eqn:E1; [|discriminate]. apply enc_length_ok in E1 as [Hl ->].
  unfold mbind, result_bind. destruct (fold_result encode_cell _ _) as [e2|] eqn:E2; [|discriminate]. intros [= <-].
  destruct (codec_list encode_cell (decode_cell t) (cell_fits t) (fun c => c) 1 _ _ _ Hf E2) as (bs & -> & _ & Hd). rewrite map_id in Hd.
  exists (to_le 4 (len entries) ++ bs ++ concat (map (to_le 4) indices)). split; [now rewrite enc_codes, <- !app_assoc|].
  unfold decode_dictionary. eapply decodes_bind; [apply decodes_u32, in_unsigned_spec; pose proof (len_nonneg entries); unfold u32_max in Hl; lia|].
  replace (Z.to_nat (len entries)) with (length entries) by (unfold len; lia). eapply decodes_bind; [exact Hd|].
  eapply decodes_bind_nil; [apply decodes_ret|]. replace (Z.to_nat (len cells)) with (length cells) by (unfold len; lia). now apply codes_decode.
Qed.

(** ** Runs are read back *)

Definition expand (runs : list (Z * Cell)) : list Cell := concat (map (fun run => replicate (Z.to_nat run.1) run.2) runs).

Lemma expand_app a b : expand (a ++ b) = expand a ++ expand b.
Proof. unfold expand. now rewrite map_app, concat_app. Qed.

Definition run_ok (t : LogicalType) (run : Z * Cell) : Prop := 1 <= run.1 <= u32_max /\ cell_fits t run.2 = true.

Lemma push_run_ok t runs cell runs' : Forall (run_ok t) runs -> cell_fits t cell = true -> push_run runs cell = Ok runs' ->
  Forall (run_ok t) runs' /\ expand (rev runs') = expand (rev runs) ++ [cell].
Proof.
  intros Hr Hc. assert (Hone : run_ok t (1, cell)) by (split; [unfold u32_max; cbn; lia|exact Hc]).
  destruct runs as [|[n previous] runs]; cbn [push_run]; [intros [= <-]; split; [now constructor|reflexivity]|].
  inversion Hr as [|? ? [Hn Hp] Hrs]; subst. cbn [fst snd] in *. case_bool_decide as E.
  - destruct (Z.leb_spec (n + 1) u32_max); [|discriminate]. intros [= <-]. subst previous. split; [constructor; [split; cbn; [lia|exact Hc]|exact Hrs]|].
    cbn [rev]. rewrite !expand_app, <- app_assoc. f_equal. unfold expand. cbn [map concat fst snd]. rewrite !app_nil_r.
    replace (Z.to_nat (n + 1)) with (Z.to_nat n + 1)%nat by lia. now rewrite replicate_add.
  - intros [= <-]. split; [now constructor|]. cbn [rev]. rewrite (expand_app (rev runs ++ _)). reflexivity.
Qed.

Lemma push_runs_ok t cells : forall runs runs', Forall (run_ok t) runs -> forallb (cell_fits t) cells = true -> fold_result push_run runs cells = Ok runs' ->
  Forall (run_ok t) runs' /\ expand (rev runs') = expand (rev runs) ++ cells.
Proof.
  induction cells as [|cell cells IH]; intros runs runs' Hr; cbn [forallb fold_result]; [intros _ [= <-]; now rewrite app_nil_r|].
  intros [Hc Hcs]%andb_prop. unfold mbind, result_bind. destruct (push_run runs cell) as [r1|] eqn:E; [|discriminate]. intros He.
  destruct (push_run_ok t runs cell r1 Hr Hc E) as [H1 E1]. destruct (IH _ _ H1 Hcs He) as [H2 E2]. split; [exact H2|]. now rewrite E2, E1, <- app_assoc.
Qed.

Lemma run_list_decodes t n runs : Forall (run_ok t) runs -> forall e e' values, fold_result encode_run e runs = Ok e' -> len values + len (expand runs) <= n -> n < 2 ^ 63 ->
  exists bs, e' = e ++ bs /\ decodes (decode_run_list (length runs) t n values) bs (values ++ expand runs).
Proof.
  intros Hr. induction Hr as [|[k cell] runs [Hk Hc] Hr IH]; intros e e' values; cbn [fold_result].
  { intros [= <-] _ _. exists []. rewrite app_nil_r. split; [reflexivity|]. change (expand []) with (@nil Cell). rewrite app_nil_r. apply decodes_ret. }
  cbn [fst snd] in *. change (encode_run e (k, cell)) with (encode_cell (enc_u32 e k) cell). unfold mbind at 1, result_bind at 1. destruct (encode_cell (enc_u32 e k) cell) as [e1|] eqn:E1; [|discriminate].
  destruct (cell_codec t _ _ _ Hc E1) as (b1 & -> & _ & Hd1). intros He Hl Hn.
  assert (Ex : expand ((k, cell) :: runs) = replicate (Z.to_nat k) cell ++ expand runs) by reflexivity. rewrite Ex, len_app in Hl.
  assert (Hk' : len (replicate (Z.to_nat k) cell) = k) by (unfold len; rewrite length_replicate; lia). pose proof (len_nonneg (expand runs)). pose proof (len_nonneg values).
  destruct (IH _ _ (values ++ replicate (Z.to_nat k) cell) He) as (b2 & -> & Hd2); [rewrite len_app; lia|exact Hn|].
  exists (to_le 4 k ++ b1 ++ b2). split; [unfold enc_u32; now rewrite <- !app_assoc|]. cbn [length decode_run_list].
  eapply decodes_bind; [apply decodes_u32, in_unsigned_spec; unfold u32_max in Hk; lia|]. destruct (Z.eqb_spec k 0); [lia|].
  eapply decodes_bind; [exact Hd1|]. unfold sat_add. destruct (Z.ltb_spec n (Z.min (2 ^ 64 - 1) (len values + k))); [lia|].
  rewrite Ex, app_assoc. exact Hd2.
Qed.

Lemma runs_decode t e e' cells : forallb (cell_fits t) cells = true -> len cells < 2 ^ 63 -> encode_runs e cells = Ok e' ->
  exists bs, e' = e ++ bs /\ decodes (decode_runs t (len cells)) bs cells.
Proof.
  intros Hf Hn. unfold encode_runs, mbind at 1, result_bind at 1. destruct (fold_result push_run [] cells) as [runs|] eqn:Er; [|discriminate].
  destruct (push_runs_ok t cells [] runs ltac:(constructor) Hf Er) as [Hr Ex]. cbn [rev app] in Ex. change (expand []) with (@nil Cell) in Ex. cbn [app] in Ex.
  unfold mbind, result_bind. destruct (enc_length _ _ _) as [e1|] eqn:E1; [|discriminate]. apply enc_length_ok in E1 as [Hl ->]. intros He.
  destruct (run_list_decodes t (len cells) (rev runs)) with (e := e ++ to_le 4 (len runs)) (e' := e') (values := @nil Cell) as (bs & -> & Hd);
    [now apply Forall_rev|exact He|rewrite Ex; change (len (@nil Cell)) with 0; lia|exact Hn|].
  exists (to_le 4 (len runs) ++ bs). split; [now rewrite <- app_assoc|]. unfold decode_runs.
  eapply decodes_bind; [apply decodes_u32, in_unsigned_spec; pose proof (len_nonneg runs); unfold u32_max in Hl; lia|].
  replace (Z.to_nat (len runs)) with (length (rev runs)) by (rewrite length_rev; unfold len; lia).
  eapply decodes_bind_ret; [exact Hd|]. rewrite Ex. cbn [app]. rewrite Z.eqb_refl. apply decodes_ret.
Qed.

(** ** Integers are read back *)

(** The integer of a cell of an integer type, and the cell it stands for. *)
Lemma integer_value_back t cell v : cell_fits t cell = true -> integer_value t cell = Ok v ->
  integer_from_i128 t v = Ok cell /\ - 2 ^ 63 <= v < 2 ^ 64.
Proof.
  intros Hf. destruct t, cell as [|b|i|u|f|s|bs|k]; try discriminate; cbn [cell_fits integer_value integer_from_i128] in *; intros [= <-].
  - destruct b; split; try reflexivity; lia.
  - rewrite Hf. split; [reflexivity|]. unfold is_i64, in_signed in Hf. lia.
  - rewrite Hf. split; [reflexivity|]. unfold is_u64, in_unsigned in Hf. lia.
Qed.

Lemma integer_values_ok t cells values : integer_values t cells = Ok values -> Forall2 (fun cell v => integer_value t cell = Ok v) cells values.
Proof.
  unfold integer_values. revert values. induction cells as [|c cells IH]; intros values; cbn [map_result]; [intros [= <-]; constructor|].
  unfold mbind, result_bind. destruct (integer_value t c) as [v|] eqn:Ev; [|discriminate]. destruct (map_result _ cells) as [vs|]; [|discriminate].
  intros [= <-]. constructor; [exact Ev|now apply IH].
Qed.

Lemma u64_or_all {A} what (f : A -> Z) l out : map_result (fun a => u64_or what (f a)) l = Ok out -> out = map f l /\ Forall (fun v => is_u64 v = true) out.
Proof.
  revert out. induction l as [|a l IH]; intros out; cbn [map_result map]; [intros [= <-]; auto|]. unfold mbind, result_bind, u64_or at 1.
  destruct (is_u64 (f a)) eqn:E; [|discriminate]. destruct (map_result _ l) as [vs|]; [|discriminate]. intros [= <-]. destruct (IH vs eq_refl) as [-> H2]. auto.
Qed.

Lemma base_codec t e e' base : encode_integer_base e t base = Ok e' -> exists bs, e' = e ++ bs /\ decodes (decode_integer_base t) bs base.
Proof.
  unfold encode_integer_base, decode_integer_base. destruct t; try discriminate.
  - destruct (is_u8 base) eqn:E; intros [= <-]. eexists. split; [reflexivity|now apply decodes_u8].
  - destruct (is_i64 base) eqn:E; intros [= <-]. eexists. split; [reflexivity|now apply decodes_i64].
  - destruct (is_u64 base) eqn:E; intros [= <-]. eexists. split; [reflexivity|now apply decodes_u64].
Qed.

Section read_back.
Context `{Machine}.

Lemma packed_codec e values e' : Forall (fun v => is_u64 v = true) values -> encode_packed e values = Ok e' ->
  exists bs, e' = e ++ bs /\ decodes (unpack (len values)) bs (Some values).
Proof. exact (packed_payload_decodes e e' values). Qed.

Lemma bit_packed_decodes t e e' cells : forallb (cell_fits t) cells = true -> encode_bit_packed e t cells = Ok e' ->
  exists bs, e' = e ++ bs /\ decodes (decode_bit_packed t (len cells)) bs (Some cells).
Proof.
  intros Hf. unfold encode_bit_packed, normalize_integers, mbind, result_bind. destruct (integer_values t cells) as [values|] eqn:Ev; [|discriminate].
  apply integer_values_ok in Ev. generalize (minimum values). intros base. destruct (map_result _ values) as [normalized|] eqn:En; [|discriminate].
  apply u64_or_all in En as [-> Hn]. destruct (encode_integer_base e t base) as [e1|] eqn:Eb; [|discriminate].
  apply base_codec in Eb as (b1 & -> & Hd1). intros Ep. destruct (packed_codec _ _ _ Hn Ep) as (b2 & -> & Hd2).
  exists (b1 ++ b2). split; [now rewrite <- app_assoc|]. unfold decode_bit_packed. eapply decodes_bind; [exact Hd1|].
  replace (len cells) with (len (map (fun value => value - base) values)) by (unfold len; rewrite length_map; now rewrite (Forall2_length _ _ _ Ev)).
  eapply decodes_bind_ret; [exact Hd2|].
  assert (E : map_result (integer_from_base t base) (map (fun value => value - base) values) = Ok cells).
  { clear - Hf Ev. induction Ev as [|c v cells values Hv Ev IH]; [reflexivity|]. cbn [forallb map map_result] in *. apply andb_prop in Hf as [Hc Hcs].
    destruct (integer_value_back t c v Hc Hv) as [Hback Hr]. assert (E : integer_from_base t base (v - base) = Ok c).
    { unfold integer_from_base, checked_i128. replace (base + (v - base)) with v by lia. now replace (is_i128 v) with true by (unfold is_i128, in_signed; lia). }
    unfold mbind, result_bind. now rewrite E, IH. }
  cbv beta iota. rewrite E. apply decodes_ret.
Qed.

Lemma windows_deltas_cons v w values : windows_deltas (v :: w :: values) =
  (delta ← u64_or (msg "integer delta exceeds u64" []) (w - v); deltas ← windows_deltas (w :: values); Ok (delta :: deltas)).
Proof. reflexivity. Qed.

Lemma windows_deltas_ok v values deltas : windows_deltas (v :: values) = Ok deltas ->
  Forall (fun d => is_u64 d = true) deltas /\ len deltas = len values /\
  forall t cells out, Forall2 (fun cell v => cell_fits t cell = true /\ integer_value t cell = Ok v) cells values ->
    fold_result (push_delta t) (v, out) deltas = Ok (default v (last values), out ++ cells).
Proof.
  revert v deltas. induction values as [|w values IH]; intros v deltas.
  { intros [= <-]. split; [constructor|]. split; [reflexivity|]. intros t cells out Hc. inversion Hc; subst. cbn [fold_result]. now rewrite app_nil_r. }
  rewrite windows_deltas_cons. unfold mbind, result_bind, u64_or at 1. destruct (is_u64 (w - v)) eqn:Ed; [|discriminate].
  destruct (windows_deltas (w :: values)) as [ds|] eqn:Er; [|discriminate]. intros [= <-]. destruct (IH w ds Er) as (H1 & H2 & H3).
  split; [now constructor|]. split; [unfold len in *; cbn [length]; lia|]. intros t cells out Hc. inversion Hc as [|c ? cs ? [Hf Hv] Hcs]; subst.
  destruct (integer_value_back t c w Hf Hv) as [Hback Hr]. assert (E : push_delta t (v, out) (w - v) = Ok (w, out ++ [c])).
  { unfold push_delta, checked_i128. cbn [fst snd]. replace (v + (w - v)) with w by lia.
    replace (is_i128 w) with true by (unfold is_i128, in_signed; lia). unfold mbind, result_bind. now rewrite Hback. }
  cbn [fold_result]. unfold mbind, result_bind. rewrite E.
  rewrite (H3 t cs (out ++ [c]) Hcs), <- app_assoc. cbn [app]. f_equal. f_equal. rewrite last_cons. now destruct (last values).
Qed.

Lemma delta_decodes t e e' cells : forallb (cell_fits t) cells = true -> encode_delta_bit_packed e t cells = Ok e' ->
  exists bs, e' = e ++ bs /\ decodes (decode_delta_bit_packed t (len cells)) bs (Some cells).
Proof.
  intros Hf. unfold encode_delta_bit_packed. destruct cells as [|first cells]; [discriminate|]. unfold mbind, result_bind.
  destruct (encode_cell e first) as [e1|] eqn:E1; [|discriminate]. cbn [forallb] in Hf. apply andb_prop in Hf as [Hf1 Hf].
  destruct (cell_codec t _ _ _ Hf1 E1) as (b1 & -> & _ & Hd1). destruct (integer_values t (first :: cells)) as [values|] eqn:Ev; [|discriminate].
  apply integer_values_ok in Ev. inversion Ev as [|? v ? vs Hv Hvs]; subst. destruct (windows_deltas (v :: vs)) as [deltas|] eqn:Ed; [|discriminate].
  destruct (windows_deltas_ok v vs deltas Ed) as (Hu & Hlen & Hback). intros Ep. destruct (packed_codec _ _ _ Hu Ep) as (b2 & -> & Hd2).
  exists (b1 ++ b2). split; [now rewrite <- app_assoc|]. unfold decode_delta_bit_packed.
  assert (El : len (first :: cells) = len deltas + 1) by (rewrite Hlen; unfold len; cbn [length]; rewrite (Forall2_length _ _ _ Hvs); lia).
  rewrite El. pose proof (len_nonneg deltas). destruct (Z.eqb_spec (len deltas + 1) 0); [lia|]. eapply decodes_bind; [exact Hd1|].
  eapply decodes_bind_nil; [rewrite Hv; apply decodes_ret|]. replace (len deltas + 1 - 1) with (len deltas) by lia. eapply decodes_bind_ret; [exact Hd2|].
  cbv beta iota. rewrite (Hback t cells [first]); [apply decodes_ret|]. clear - Hf Hvs. induction Hvs as [|c w cells vs Hw Hvs IH]; [constructor|].
  cbn [forallb] in Hf. apply andb_prop in Hf as [A B]. constructor; auto.
Qed.

(** What is decoded to the end is the payload. *)
Lemma decoded_to_end t encoding n bs cells : decodes (decode_values t encoding n) bs (Some cells) -> len bs < 2 ^ 63 -> decode_payload bs t encoding n = Some (Ok cells).
Proof.
  intros Hd Hl. specialize (Hd [] [] 0). cbn [app] in Hd. rewrite app_nil_r in Hd. specialize (Hd Hl).
  unfold decode_payload. change (decoder_new bs) with {| dec_bytes := bs; dec_position := 0; dec_base_offset := 0 |}.
  unfold cursor in Hd. cbn [app] in Hd. rewrite app_nil_r in Hd. change (len (@nil byte)) with 0 in Hd. rewrite Hd.
  unfold dec_finish, past. cbn [dec_position dec_bytes app]. rewrite app_nil_r. change (len (@nil byte)) with 0. rewrite Z.add_0_l, Z.eqb_refl. reflexivity.
Qed.

Lemma payload_decodes t encoding cells payload : encoding <> NarrowDictionary -> forallb (cell_fits t) cells = true -> len cells < 2 ^ 63 ->
  encode_payload t encoding cells = Ok payload -> decodes (decode_values t encoding (len cells)) payload (Some cells).
Proof.
  intros Hn Hf Hl. replace (len cells) with (Z.of_nat (length cells)) by reflexivity.
  destruct encoding; cbn [encode_payload decode_values]; intros He; [| | | | |easy].
  - destruct (codec_list encode_cell (decode_cell t) (cell_fits t) (fun c => c) 1 _ _ _ Hf He) as (bs & E & _ & Hd). rewrite map_id in Hd.
    rewrite Nat2Z.id. cbn [app encoder_new] in E. subst. eapply decodes_bind_ret; [exact Hd|apply decodes_ret].
  - unfold encode_dictionary, mbind, result_bind in He. destruct (dict_codes dict_empty cells) as [[indices d]|] eqn:Ed; [|discriminate].
    destruct (dict_codes_ok cells dict_empty indices d) as (_ & Hc & more & Em & Hm); [discriminate|exact Ed|].
    assert (Hfit : forallb (cell_fits t) (di_entries d) = true).
    { rewrite Em. cbn [di_entries dict_empty app]. apply forallb_forall. intros c Hc'. rewrite Forall_forall in Hm. apply list_elem_of_In in Hc'.
      apply (proj1 (forallb_forall _ _) Hf). apply list_elem_of_In. now apply Hm. }
    destruct (dictionary_decodes t _ _ _ _ _ Hfit Hc He) as (bs & E & Hd). cbn [app encoder_new] in E. subst. eapply decodes_bind_ret; [exact Hd|apply decodes_ret].
  - destruct (runs_decode t _ _ _ Hf Hl He) as (bs & E & Hd). cbn [app encoder_new] in E. subst. eapply decodes_bind_ret; [exact Hd|apply decodes_ret].
  - destruct (bit_packed_decodes t _ _ _ Hf He) as (bs & E & Hd). cbn [app encoder_new] in E. subst. exact Hd.
  - destruct (delta_decodes t _ _ _ Hf He) as (bs & E & Hd). cbn [app encoder_new] in E. subst. exact Hd.
Qed.

(** C28. A block's cells, written in any encoding the writer may pick, are what its payload decodes to, with
    nothing left over and no panic of a kernel. *)
Theorem payload_roundtrip (t : LogicalType) (encoding : Encoding) (cells : list Cell) (payload : list byte) :
  encoding <> NarrowDictionary -> forallb (cell_fits t) cells = true -> len cells < 2 ^ 63 -> len payload < 2 ^ 63 ->
  encode_payload t encoding cells = Ok payload -> decode_payload payload t encoding (len cells) = Some (Ok cells).
Proof. intros Hn Hf Hl Hp He. apply decoded_to_end; [now apply payload_decodes|exact Hp]. Qed.
End read_back.

(** ** Integer blocks are always written *)

Lemma push_runs_written cells : forall runs, Forall (fun run => 1 <= run.1) runs -> foldr (fun run sum => run.1 + sum) 0 runs + len cells <= u32_max ->
  exists runs', fold_result push_run runs cells = Ok runs' /\ Forall (fun run => 1 <= run.1) runs' /\
    foldr (fun run sum => run.1 + sum) 0 runs' = foldr (fun run sum => run.1 + sum) 0 runs + len cells /\
    Forall (fun run => run.2 ∈ cells \/ run.2 ∈ map snd runs) runs'.
Proof.
  assert (Hpos : forall runs : list (Z * Cell), Forall (fun run => 1 <= run.1) runs -> 0 <= foldr (fun run sum => run.1 + sum) 0 runs).
  { intros runs Hr. induction Hr as [|run runs H1 Hr IH]; cbn [foldr]; [lia|]. cbn beta in H1. lia. }
  induction cells as [|cell cells IH]; intros runs Hr Hl.
  { exists runs. split; [reflexivity|]. split; [exact Hr|]. split; [unfold len; cbn; lia|]. apply Forall_forall. intros run Hrun. right.
    apply list_elem_of_In, in_map. now apply list_elem_of_In. }
  assert (El : len (cell :: cells) = 1 + len cells) by (unfold len; cbn [length]; lia). rewrite El in *. pose proof (len_nonneg cells).
  assert (Hstep : exists r1, push_run runs cell = Ok r1 /\ Forall (fun run => 1 <= run.1) r1 /\
    foldr (fun run sum => run.1 + sum) 0 r1 = foldr (fun run sum => run.1 + sum) 0 runs + 1 /\ forall c, c ∈ map snd r1 -> c = cell \/ c ∈ map snd runs).
  { destruct runs as [|[k previous] runs]; cbn [push_run].
    - exists [(1, cell)]. split; [reflexivity|]. split; [repeat constructor; cbn; lia|]. split; [reflexivity|]. intros c Hc. set_solver.
    - inversion Hr as [|? ? Hk Hrs]; subst. cbn [fst foldr] in *. pose proof (Hpos runs Hrs). case_bool_decide as E.
      + rewrite (proj2 (Z.leb_le (k + 1) u32_max)) by lia. eexists. split; [reflexivity|]. split; [constructor; [cbn; lia|exact Hrs]|]. split; [cbn; lia|]. set_solver.
      + eexists. split; [reflexivity|]. split; [constructor; [cbn; lia|exact Hr]|]. split; [cbn; lia|]. set_solver. }
  destruct Hstep as (r1 & E1 & H1 & S1 & M1). destruct (IH r1 H1 ltac:(lia)) as (r2 & E2 & H2 & S2 & M2). exists r2. cbn [fold_result]. unfold mbind, result_bind.
  rewrite E1. split; [exact E2|]. split; [exact H2|]. split; [lia|]. eapply Forall_impl; [exact M2|]. intros run [Hc|Hc]; [set_solver|].
  destruct (M1 _ Hc) as [->|]; [left; set_solver|now right].
Qed.

Definition integer_type (t : LogicalType) : bool := match t with LBoolean | LInt64 | LUInt64 => true | _ => false end.

(** The least and the largest integer of a type. *)
Definition type_range (t : LogicalType) : Z * Z := match t with LBoolean => (0, 1) | LInt64 => (i64_min, i64_max) | _ => (0, u64_max) end.

Lemma integer_cell t c : integer_type t = true -> cell_fits t c = true ->
  exists v, integer_value t c = Ok v /\ (type_range t).1 <= v <= (type_range t).2 /\ forall e, exists bs, encode_cell e c = Ok (e ++ bs) /\ len bs <= 8.
Proof.
  intros Ht Hf. destruct t; try discriminate Ht; destruct c as [|b|v|v|v|s|bs|k]; try discriminate Hf; cbn [cell_fits integer_value encode_cell type_range fst snd] in *; eexists;
    (split; [reflexivity|]); (split; [try (destruct b); unfold is_i64, is_u64, in_signed, in_unsigned, i64_min, i64_max, u64_max in *; lia|]);
    intros e; eexists; (split; [reflexivity|]); rewrite len_to_le; lia.
Qed.

Lemma integer_cells t cells : integer_type t = true -> forallb (cell_fits t) cells = true ->
  exists values, integer_values t cells = Ok values /\ length values = length cells /\ Forall (fun v => (type_range t).1 <= v <= (type_range t).2) values.
Proof.
  intros Ht. induction cells as [|c cells IH]; cbn [forallb]; [exists []; auto|]. intros [Hc Hcs]%andb_prop. destruct (IH Hcs) as (vs & E & El & Hr).
  destruct (integer_cell t c Ht Hc) as (v & Ev & Hv & _). exists (v :: vs). unfold integer_values in *. cbn [map_result]. unfold mbind, result_bind. rewrite Ev, E.
  split; [reflexivity|]. split; [cbn [length]; lia|now constructor].
Qed.

Lemma packed_written e values : Forall (fun v => is_u64 v = true) values -> len values < 2 ^ 29 ->
  exists bs, encode_packed e values = Ok (e ++ bs) /\ len bs <= 5 + 8 * len values.
Proof.
  intros Hv Hl. destruct (bit_length_bounds values Hv) as [Hw Hfit]. unfold encode_packed. set (w := bit_length _) in *. pose proof (len_nonneg values).
  destruct (pack values w) as [bytes|] eqn:Ep.
  2: { unfold pack, checked_mul in Ep. destruct (Z.ltb_spec (len values * w) (2 ^ 64)); [discriminate|nia]. }
  destruct (pack_values values w bytes (proj1 Hw) Hfit Ep) as (_ & Hs & _).
  assert (len bytes <= 8 * len values) by (rewrite Hs; unfold div_ceil; apply Z.lt_succ_r, Z.div_lt_upper_bound; nia).
  unfold mbind, result_bind. rewrite enc_bytes_le by (unfold u32_max; lia). exists (to_le 1 w ++ to_le 4 (len bytes) ++ bytes).
  split; [unfold enc_u8; now rewrite <- app_assoc|]. rewrite !len_app, !len_to_le. lia.
Qed.

Lemma map_u64_or {A} what (f : A -> Z) l : Forall (fun a => is_u64 (f a) = true) l -> map_result (fun a => u64_or what (f a)) l = Ok (map f l).
Proof. induction 1 as [|a l Ha _ IH]; [reflexivity|]. cbn [map_result map]. unfold mbind, result_bind, u64_or at 1. rewrite Ha. now rewrite IH. Qed.

Lemma minimum_spec values : values <> [] -> minimum values ∈ values /\ Forall (fun v => minimum values <= v) values.
Proof.
  destruct values as [|v values]; [easy|]. intros _. cbn [minimum]. revert v. induction values as [|w values IH]; intros v; cbn [foldl]; [split; [set_solver|repeat constructor; lia]|].
  destruct (IH (Z.min v w)) as [A B]. inversion B as [|? ? B1 B2]; subst. split; [|constructor; [lia|constructor; [lia|exact B2]]].
  assert (A' : foldl Z.min (Z.min v w) values = Z.min v w \/ foldl Z.min (Z.min v w) values ∈ values) by set_solver. destruct A' as [A'|A']; [rewrite A'|set_solver]. destruct (Z.min_spec v w) as [[_ ->]|[_ ->]]; set_solver.
Qed.

Lemma bit_packed_written e t cells : integer_type t = true -> forallb (cell_fits t) cells = true -> len cells < 2 ^ 29 ->
  exists bs, encode_bit_packed e t cells = Ok (e ++ bs) /\ len bs <= 13 + 8 * len cells.
Proof.
  intros Ht Hf Hl. destruct (integer_cells t cells Ht Hf) as (values & Ev & El & Hr). unfold encode_bit_packed, normalize_integers, mbind, result_bind. rewrite Ev.
  assert (Hb : (type_range t).1 <= minimum values <= (type_range t).2 /\ Forall (fun v => is_u64 (v - minimum values) = true) values).
  { destruct values as [|v values]; [split; [destruct t; try discriminate Ht; cbn [type_range fst snd minimum]; unfold i64_min, i64_max, u64_max; lia|constructor]|].
    destruct (minimum_spec (v :: values) ltac:(easy)) as [Hin Hmin]. set (base := minimum (v :: values)) in *.
    assert (Hbase : (type_range t).1 <= base <= (type_range t).2) by (rewrite Forall_forall in Hr; now apply Hr). split; [exact Hbase|].
    rewrite Forall_forall in Hr, Hmin |- *. intros x Hx. specialize (Hr x Hx). specialize (Hmin x Hx).
    destruct t; try discriminate Ht; cbn [type_range fst snd] in *; unfold is_u64, in_unsigned, i64_min, i64_max, u64_max in *; lia. }
  destruct Hb as [Hb Hn]. rewrite (map_u64_or _ (fun value => value - minimum values)) by exact Hn.
  assert (Hbase : exists bs, encode_integer_base e t (minimum values) = Ok (e ++ bs) /\ len bs <= 8).
  { unfold encode_integer_base. destruct t; try discriminate Ht; cbn [type_range fst snd] in Hb.
    - replace (is_u8 (minimum values)) with true by (unfold is_u8, in_unsigned; lia). eexists. split; [reflexivity|]. rewrite len_to_le. lia.
    - replace (is_i64 (minimum values)) with true by (unfold is_i64, in_signed, i64_min, i64_max in *; lia). eexists. split; [reflexivity|]. rewrite len_to_le. lia.
    - replace (is_u64 (minimum values)) with true by (unfold is_u64, in_unsigned, u64_max in *; lia). eexists. split; [reflexivity|]. rewrite len_to_le. lia. }
  destruct Hbase as (b1 & -> & Hl1). assert (Elen : len (map (fun value => value - minimum values) values) = len cells) by (unfold len; rewrite length_map; lia).
  destruct (packed_written (e ++ b1) (map (fun value => value - minimum values) values)) as (b2 & -> & Hl2); [now apply Forall_map|lia|].
  exists (b1 ++ b2). split; [now rewrite <- app_assoc|]. rewrite len_app. lia.
Qed.

(** Ordered integers, and their deltas. *)
Lemma monotonic_deltas t cells values : integer_type t = true -> is_monotonic_integer t cells = true -> integer_values t cells = Ok values ->
  Forall (fun v => (type_range t).1 <= v <= (type_range t).2) values -> exists deltas, windows_deltas values = Ok deltas /\ len deltas <= len values.
Proof.
  intros Ht Hm Ev Hr. apply integer_values_ok in Ev. revert values Ev Hr. induction cells as [|c cells IH]; intros values Ev Hr; [inversion Ev; subst; exists []; split; [reflexivity|lia]|].
  inversion Ev as [|? v ? vs Hv Hvs]; subst. destruct cells as [|c2 cells]; [inversion Hvs; subst; exists []; split; [reflexivity|unfold len; cbn; lia]|].
  inversion Hvs as [|? w ? ws Hw Hws]; subst. inversion Hr as [|? ? Hrv Hrs]; subst. inversion Hrs as [|? ? Hrw _]; subst.
  assert (Hmono : v <= w /\ is_monotonic_integer t (c2 :: cells) = true).
  { destruct t; try discriminate Ht; try discriminate Hm; destruct c, c2; try discriminate Hv; try discriminate Hw; cbn [integer_value] in Hv, Hw; injection Hv as <-; injection Hw as <-;
      apply andb_prop in Hm as [A B]; (split; [lia|exact B]). }
  destruct Hmono as [Hle Hm2]. destruct (IH Hm2 (w :: ws) Hvs Hrs) as (ds & Ed & Hl). exists (w - v :: ds). rewrite windows_deltas_cons, Ed. unfold u64_or, mbind, result_bind.
  replace (is_u64 (w - v)) with true by (destruct t; try discriminate Ht; cbn [type_range fst snd] in *; unfold is_u64, in_unsigned, i64_min, i64_max, u64_max in *; lia).
  split; [reflexivity|]. unfold len in *. cbn [length] in *. lia.
Qed.

Lemma runs_written t runs : integer_type t = true -> Forall (fun run => cell_fits t run.2 = true) runs ->
  forall e, exists bs, fold_result encode_run e runs = Ok (e ++ bs) /\ len bs <= 12 * len runs.
Proof.
  intros Ht Hr. induction Hr as [|[k c] runs Hc Hr IH]; intros e; cbn [fold_result]; [exists []; rewrite app_nil_r; split; [reflexivity|unfold len; cbn; lia]|].
  cbn [snd] in Hc. destruct (integer_cell t c Ht Hc) as (_ & _ & _ & Hw). destruct (Hw (enc_u32 e k)) as (b1 & E1 & L1).
  change (encode_run e (k, c)) with (encode_cell (enc_u32 e k) c). unfold mbind at 1, result_bind at 1. rewrite E1. destruct (IH (enc_u32 e k ++ b1)) as (b2 & -> & L2).
  exists (to_le 4 k ++ b1 ++ b2). split; [unfold enc_u32; now rewrite <- !app_assoc|]. rewrite !len_app, len_to_le. unfold len in *. cbn [length]. lia.
Qed.

Lemma select_encoding_cases t cells : integer_type t = true ->
  select_encoding t cells = RunLength \/ (cells <> [] /\ is_monotonic_integer t cells = true /\ select_encoding t cells = DeltaBitPacked) \/ select_encoding t cells = BitPacked.
Proof.
  intros Ht. unfold select_encoding. destruct (_ && _); [auto|].
  replace (match t with LUtf8 | LBinary => true | _ => false end) with false by (now destruct t). cbn [andb].
  replace (match t with LBoolean | LInt64 | LUInt64 => true | _ => false end) with true by (now destruct t).
  destruct (Z.leb_spec 3 (len cells)) as [Hl|Hl]; cbn [andb]; [|auto]. destruct (is_monotonic_integer t cells) eqn:E; [|auto].
  right. left. split; [|auto]. intros ->. unfold len in Hl. cbn in Hl. lia.
Qed.

Lemma selected_written t cells : integer_type t = true -> forallb (cell_fits t) cells = true -> len cells < 2 ^ 29 ->
  exists payload, encode_payload t (select_encoding t cells) cells = Ok payload /\ len payload <= 13 + 12 * len cells.
Proof.
  intros Ht Hf Hl. pose proof (len_nonneg cells). destruct (select_encoding_cases t cells Ht) as [->|[(Hne & Hm & ->)| ->]]; cbn [encode_payload].
  - destruct (push_runs_written cells []) as (runs & Er & Hpos & Hsum & Hin); [constructor|unfold u32_max; cbn; lia|].
    assert (Hcount : len runs <= len cells).
    { replace (len cells) with (foldr (fun run sum => run.1 + sum) 0 runs) by (rewrite Hsum; cbn; lia). clear - Hpos. induction Hpos as [|run runs H1 Hr IH]; [reflexivity|].
      unfold len in *. cbn [length foldr]. cbn beta in H1. lia. }
    unfold encode_runs, mbind at 1, result_bind at 1. rewrite Er. unfold mbind, result_bind. rewrite enc_length_le by (unfold u32_max; lia).
    destruct (runs_written t (rev runs) Ht) with (e := encoder_new ++ to_le 4 (len runs)) as (bs & -> & Lb).
    { apply Forall_rev. eapply Forall_impl; [exact Hin|]. intros run [Hc|Hc]; [|cbn in Hc; set_solver]. apply (proj1 (forallb_forall _ _) Hf). now apply list_elem_of_In. }
    eexists. split; [reflexivity|]. rewrite !len_app, len_to_le. unfold len in *. rewrite length_rev in Lb. cbn [length encoder_new]. lia.
  - destruct cells as [|first cells]; [easy|]. destruct (integer_cells t (first :: cells) Ht Hf) as (values & Ev & El & Hr).
    destruct (monotonic_deltas t (first :: cells) values Ht Hm Ev Hr) as (deltas & Ed & Ld). cbn [forallb] in Hf. apply andb_prop in Hf as [Hf1 _].
    destruct (integer_cell t first Ht Hf1) as (_ & _ & _ & Hw). destruct (Hw encoder_new) as (b1 & E1 & L1). unfold encode_delta_bit_packed, mbind, result_bind. rewrite E1, Ev, Ed.
    assert (Hvl : len values = len (first :: cells)) by (unfold len; now rewrite El).
    assert (Hdu : Forall (fun d => is_u64 d = true) deltas) by (destruct values as [|v vs]; [injection Ed as <-; constructor|apply (windows_deltas_ok v vs deltas Ed)]).
    destruct (packed_written (encoder_new ++ b1) deltas Hdu ltac:(lia)) as (b2 & -> & L2). eexists. split; [reflexivity|]. rewrite !len_app. unfold len at 1. cbn [length encoder_new]. lia.
  - destruct (bit_packed_written encoder_new t cells Ht Hf Hl) as (bs & -> & Lb). eexists. split; [reflexivity|]. rewrite len_app. unfold len at 1. cbn [length encoder_new]. lia.
Qed.

(** A block of fewer than 2^29 integers is always written in the encoding the writer selects for it, in
    at most 13 bytes and 12 for each value, and its payload decodes to its cells. *)
Theorem integer_blocks_written `{Machine} (t : LogicalType) (cells : list Cell) : integer_type t = true -> forallb (cell_fits t) cells = true -> len cells < 2 ^ 29 ->
  exists payload, encode_payload t (select_encoding t cells) cells = Ok payload /\ len payload <= 13 + 12 * len cells /\
    decode_payload payload t (select_encoding t cells) (len cells) = Some (Ok cells).
Proof.
  intros Ht Hf Hl. destruct (selected_written t cells Ht Hf Hl) as (payload & E & Lp). exists payload. split; [exact E|]. split; [exact Lp|].
  apply decoded_to_end; [|lia]. apply payload_decodes; [|exact Hf|lia|exact E]. destruct (select_encoding_cases t cells Ht) as [->|[(_ & _ & ->)| ->]]; discriminate.
Qed.

(** ** The dictionary of a column *)

Definition dictionary_ok (t : LogicalType) (c : ColumnDictionary) : Prop := dict_ok (cd_dict c) /\ forallb (cell_fits t) (di_entries (cd_dict c)) = true.

Lemma column_codes_ok t cells : forall c indices done r c', dictionary_ok t c -> forallb (cell_fits t) cells = true -> codes_of (di_entries (cd_dict c)) indices done ->
  column_codes c cells indices = (r, c') ->
  dictionary_ok t c' /\ (exists more, di_entries (cd_dict c') = di_entries (cd_dict c) ++ more) /\
  forall out, r = Coding out -> codes_of (di_entries (cd_dict c')) out (done ++ cells).
Proof.
  induction cells as [|cell cells IH]; intros c indices done r c' Hc Hf Hi; cbn [column_codes forallb] in *.
  { intros [= <- <-]. split; [exact Hc|]. split; [exists []; now rewrite app_nil_r|]. intros out [= <-]. now rewrite app_nil_r. }
  apply andb_prop in Hf as [Hf1 Hf]. destruct (position_of _ cell) as [index|] eqn:Ep.
  - intros E. assert (Hi' : codes_of (di_entries (cd_dict c)) (indices ++ [index]) (done ++ [cell])).
    { apply Forall2_app; [exact Hi|]. constructor; [|constructor]. exact (proj1 Hc cell index Ep). }
    destruct (IH c _ _ r c' Hc Hf Hi' E) as (A & B & C). rewrite <- app_assoc in C. auto.
  - set (bytes := match cell with CUtf8 text => _ | _ => _ end). destruct (_ || _).
    { intros [= <- <-]. split; [exact Hc|]. split; [exists []; now rewrite app_nil_r|]. discriminate. }
    destruct (dict_push (cd_dict c) cell) as [[index d1]|] eqn:Eq.
    2: { intros [= <- <-]. split; [exact Hc|]. split; [exists []; now rewrite app_nil_r|]. discriminate. }
    destruct (dict_push_ok _ _ _ _ (proj1 Hc) Eq) as (Hd1 & E1 & Hu & He). intros E.
    assert (Hc1 : dictionary_ok t {| cd_dict := d1; cd_bytes := bytes; cd_closed := false |}).
    { split; [exact Hd1|]. cbn [cd_dict]. rewrite E1, forallb_app, (proj2 Hc). cbn [forallb]. now rewrite Hf1. }
    assert (Hi' : codes_of (di_entries d1) (indices ++ [index]) (done ++ [cell])).
    { apply Forall2_app; [rewrite E1; now apply codes_of_app|]. constructor; [auto|constructor]. }
    destruct (IH _ _ _ r c' Hc1 Hf Hi' E) as (A & (more & B) & C). split; [exact A|]. split; [|rewrite <- app_assoc in C; exact C].
    exists ([cell] ++ more). rewrite B. cbn [cd_dict]. now rewrite E1, <- app_assoc.
Qed.

Lemma listed_covers indices : forall m, 0 <= m -> Forall (fun i => 0 <= i) indices ->
  m <= foldl (fun listed index => Z.max listed (index + 1)) m indices /\ Forall (fun i => i < foldl (fun listed index => Z.max listed (index + 1)) m indices) indices.
Proof.
  induction indices as [|i indices IH]; intros m Hm Hi; cbn [foldl]; [split; [lia|constructor]|]. inversion Hi as [|? ? Hi1 His]; subst.
  destruct (IH (Z.max m (i + 1)) ltac:(lia) His) as [A B]. split; [lia|]. constructor; [lia|exact B].
Qed.

Lemma codes_of_listed entries indices cells : codes_of entries indices cells -> codes_of (take (Z.to_nat (listed indices)) entries) indices cells.
Proof.
  intros Hc. assert (Hn : Forall (fun i => 0 <= i) indices).
  { clear - Hc. induction Hc as [|i c rest cs [Hi _] Hc IH]; [constructor|]. constructor; [unfold is_u32, in_unsigned in Hi; lia|exact IH]. }
  destruct (listed_covers indices 0 ltac:(lia) Hn) as [_ Hlt]. fold (listed indices) in Hlt. generalize dependent (listed indices). intros k Hlt.
  induction Hc as [|i c rest cs [Hi He] Hc IH]; [constructor|]. inversion Hlt; subst. inversion Hn; subst. constructor; [|now apply IH].
  split; [exact Hi|]. rewrite lookup_take_lt by lia. exact He.
Qed.

Lemma listed_le entries indices cells : codes_of entries indices cells -> 0 <= listed indices <= len entries.
Proof.
  intros Hc. unfold listed. enough (Hgen : forall m, 0 <= m <= len entries -> 0 <= foldl (fun listed index => Z.max listed (index + 1)) m indices <= len entries)
    by (apply Hgen; pose proof (len_nonneg entries); lia).
  induction Hc as [|i c rest cs [Hi He] Hc IH]; intros m Hm; cbn [foldl]; [exact Hm|]. apply IH. apply lookup_lt_Some in He. unfold is_u32, in_unsigned in Hi. unfold len in *. lia.
Qed.

(** What a block written against the column promises: its codes are the column's. *)
Definition coded_by (entries : list Cell) (cells : list Cell) (r : result StoreError (option (list byte))) : Prop :=
  forall payload, r = Ok (Some payload) ->
    exists k indices, (k <= length entries)%nat /\ encode_listed encoder_new (take k entries) indices = Ok payload /\
      codes_of entries indices cells /\ codes_of (take k entries) indices cells.

Lemma coded_by_app entries more cells r : coded_by entries cells r -> coded_by (entries ++ more) cells r.
Proof.
  intros Hc payload E. destruct (Hc payload E) as (k & indices & Hk & A & B & C). exists k, indices.
  rewrite take_app_le by exact Hk. rewrite length_app. split; [lia|]. split; [exact A|]. split; [now apply codes_of_app|exact C].
Qed.

Lemma column_encode_ok t c cells r c' : dictionary_ok t c -> forallb (cell_fits t) cells = true -> column_encode c cells = (r, c') ->
  dictionary_ok t c' /\ (exists more, di_entries (cd_dict c') = di_entries (cd_dict c) ++ more) /\ coded_by (di_entries (cd_dict c')) cells r.
Proof.
  intros Hc Hf. unfold column_encode. destruct (cd_closed c); [intros [= <- <-]; split; [exact Hc|]; split; [exists []; now rewrite app_nil_r|discriminate]|].
  destruct (column_codes c cells []) as [coded c1] eqn:E. destruct (column_codes_ok t cells c [] [] coded c1 Hc Hf ltac:(constructor) E) as (A & B & C).
  destruct coded as [indices| |e]; intros [= <- <-]; (split; [exact A|]); (split; [exact B|]); [|discriminate|discriminate].
  specialize (C indices eq_refl). cbn [app] in C. destruct (encode_listed _ _ _) as [payload|] eqn:Ee; [|discriminate]. intros p [= <-].
  pose proof (listed_le _ _ _ C). exists (Z.to_nat (listed indices)), indices. split; [unfold len in *; lia|]. split; [exact Ee|]. split; [exact C|now apply codes_of_listed].
Qed.

(** The blocks of one column, in the order they are written. *)
Fixpoint column_blocks (c : ColumnDictionary) (blocks : list (list Cell)) : list (result StoreError (option (list byte))) * ColumnDictionary :=
  match blocks with
  | [] => ([], c)
  | cells :: blocks =>
      let '(r, c) := column_encode c cells in
      let '(rs, c) := column_blocks c blocks in (r :: rs, c)
  end.

Lemma column_blocks_ok t blocks : forall c rs c', dictionary_ok t c -> Forall (fun cells => forallb (cell_fits t) cells = true) blocks -> column_blocks c blocks = (rs, c') ->
  dictionary_ok t c' /\ (exists more, di_entries (cd_dict c') = di_entries (cd_dict c) ++ more) /\ Forall2 (coded_by (di_entries (cd_dict c'))) blocks rs.
Proof.
  induction blocks as [|cells blocks IH]; intros c rs c' Hc Hf; cbn [column_blocks]; [intros [= <- <-]; split; [exact Hc|]; split; [exists []; now rewrite app_nil_r|constructor]|].
  inversion Hf as [|? ? Hf1 Hfs]; subst. destruct (column_encode c cells) as [r c1] eqn:E1. destruct (column_encode_ok t c cells r c1 Hc Hf1 E1) as (A1 & (m1 & B1) & C1).
  destruct (column_blocks c1 blocks) as [rs1 c2] eqn:E2. intros [= <- <-]. destruct (IH c1 rs1 c2 A1 Hfs E2) as (A2 & (m2 & B2) & C2).
  split; [exact A2|]. split; [exists (m1 ++ m2); now rewrite B2, B1, <- app_assoc|]. constructor; [|exact C2]. rewrite B2. now apply coded_by_app.
Qed.

(** However many blocks a column writes, every block coded against its dictionary carries leading entries
    of one dictionary, so a code means the same value in all of them, and each block, read alone,
    decodes to its cells. *)
Theorem column_codes_shared `{Machine} (t : LogicalType) (blocks : list (list Cell)) (results : list (result StoreError (option (list byte)))) (c : ColumnDictionary) :
  Forall (fun cells => forallb (cell_fits t) cells = true) blocks -> column_blocks column_dictionary_new blocks = (results, c) ->
  Forall2 (fun cells r => forall payload, r = Ok (Some payload) -> len payload < 2 ^ 63 ->
    decode_payload payload t Dictionary (len cells) = Some (Ok cells) /\
    exists k indices, encode_listed encoder_new (take k (di_entries (cd_dict c))) indices = Ok payload /\ codes_of (di_entries (cd_dict c)) indices cells) blocks results.
Proof.
  intros Hf E. assert (H0 : dictionary_ok t column_dictionary_new) by (split; [discriminate|reflexivity]).
  destruct (column_blocks_ok t blocks _ _ _ H0 Hf E) as (Hc & _ & Hb). clear E. induction Hb as [|cells r blocks rs Hcoded Hb IH]; [constructor|].
  inversion Hf as [|? ? Hf1 Hfs]; subst. constructor; [|now apply IH]. intros payload Er Hl. destruct (Hcoded payload Er) as (k & indices & _ & He & Hall & Htake).
  split; [|eauto]. assert (Hfit : forallb (cell_fits t) (take k (di_entries (cd_dict c))) = true).
  { apply forallb_forall. intros x Hx. apply (proj1 (forallb_forall _ _) (proj2 Hc)). apply list_elem_of_In. apply list_elem_of_In, elem_of_take in Hx as (i & Hx & _).
    now apply list_elem_of_lookup_2 with i. }
  destruct (dictionary_decodes t _ _ _ _ _ Hfit Htake He) as (bs & Eb & Hd). cbn [app encoder_new] in Eb. subst.
  apply decoded_to_end; [|exact Hl]. cbn [decode_values]. eapply decodes_bind_ret; [exact Hd|apply decodes_ret].
Qed.

(** ** Narrow dictionaries *)

(** The cell of one entry of a text dictionary. *)
Definition text_cell (t : LogicalType) (bs : list byte) : result message Cell :=
  match t with
  | LUtf8 => if utf8_valid bs then Ok (CUtf8 bs) else Err (msg "invalid UTF-8 block value" [])
  | _ => Ok (CBinary bs)
  end.

Definition entry_bytes (entries : list (list byte)) : list byte := concat (map (fun bs => to_le 4 (len bs) ++ bs) entries).

(** The outcome of a decoder on some bytes, wherever they stand. *)
Definition settles {A} (m : Dec A) (bs : list byte) (r : result message A) : Prop :=
  match r with
  | Ok a => decodes m bs a
  | Err e => forall pre post base, len (pre ++ bs ++ post) < 2 ^ 63 -> fst (m (cursor pre bs post base)) = Err e
  end.

Lemma settles_bind {A B} (m : Dec A) (f : A -> Dec B) b1 b2 a r : decodes m b1 a -> settles (f a) b2 r -> settles (m ≫= f) (b1 ++ b2) r.
Proof.
  intros Hm Hf. destruct r as [b|e]; [exact (decodes_bind m f b1 b2 a b Hm Hf)|]. intros pre post base Hl. rewrite <- app_assoc in Hl.
  unfold mbind, Dec_bind. rewrite cursor_app, (Hm pre (b2 ++ post) base Hl), past_cursor. apply Hf. now rewrite <- app_assoc.
Qed.

Lemma settles_fails {A B} (m : Dec A) (f : A -> Dec B) b1 b2 e : settles m b1 (Err e) -> settles (m ≫= f) (b1 ++ b2) (Err e).
Proof.
  intros Hm pre post base Hl. unfold mbind, Dec_bind. rewrite cursor_app. specialize (Hm pre (b2 ++ post) base). rewrite <- app_assoc in Hl. specialize (Hm Hl).
  destruct (m _) as [[a|e'] d]; [discriminate|]. cbn in *. congruence.
Qed.

Lemma settles_ret_bind {A B} (m : Dec A) (g : A -> B) bs r : settles m bs r -> settles (a ← m; mret (g a)) bs (match r with Ok a => Ok (g a) | Err e => Err e end).
Proof. destruct r as [a|e]; intros Hm; [eapply decodes_bind_ret; [exact Hm|apply decodes_ret]|]. rewrite <- (app_nil_r bs). now apply settles_fails. Qed.

Lemma text_cell_settles t bs : (t = LUtf8 \/ t = LBinary) -> len bs <= u32_max -> settles (decode_cell t) (to_le 4 (len bs) ++ bs) (text_cell t bs).
Proof.
  intros [-> | ->] Hl; cbn [decode_cell text_cell]; rewrite <- (app_nil_r (to_le 4 (len bs) ++ bs)).
  - eapply settles_bind; [now apply decodes_byte_string|]. unfold decode_utf8. destruct (utf8_valid bs).
    + eapply decodes_bind_ret; [apply decodes_ret|apply decodes_ret].
    + intros pre post base _. reflexivity.
  - eapply settles_bind; [now apply decodes_byte_string|]. apply decodes_ret.
Qed.

Lemma repeat_settles {A B} (m : Dec A) (step : B -> result message A) (bytes : B -> list byte) l : Forall (fun b => settles m (bytes b) (step b)) l ->
  settles (dec_repeat (length l) m) (concat (map bytes l)) (map_result step l).
Proof.
  induction 1 as [|b l Hb Hl IH]; cbn [length dec_repeat map concat map_result]; [apply decodes_ret|]. unfold mbind at 3, result_bind at 1.
  destruct (step b) as [a|e]; [|now apply settles_fails]. eapply settles_bind; [exact Hb|]. unfold mbind at 2, result_bind at 1.
  pose proof (settles_ret_bind _ (fun l => a :: l) _ _ IH) as Hr. destruct (map_result step l); exact Hr.
Qed.

(** The cell of a code, or the error it is out of bounds with. *)
Definition cell_of_code (entries : list Cell) (index : Z) : result message Cell :=
  match entries !! Z.to_nat index with Some cell => Ok cell | None => Err (msg "dictionary index {index} is out of bounds" [index]) end.

Lemma code_settles entries width chunk : In width [1; 2; 4] -> len chunk = width -> settles (coded_cell entries width) chunk (cell_of_code entries (from_le chunk)).
Proof.
  intros Hw Hl. assert (Hd : decodes (dictionary_index width) chunk (from_le chunk)).
  { pose proof (from_le_range chunk) as Hr. unfold dictionary_index. destruct Hw as [<-|[<-|[<-|[]]]]; cbn [Z.eqb Pos.eqb].
    - rewrite <- (to_from_le chunk 1) at 1 by exact Hl. apply decodes_u8, in_unsigned_spec. rewrite Hl in Hr. exact Hr.
    - eapply decodes_bind_ret; [now apply decodes_take|apply decodes_ret].
    - rewrite <- (to_from_le chunk 4) at 1 by exact Hl. apply decodes_u32, in_unsigned_spec. rewrite Hl in Hr. exact Hr. }
  rewrite <- (app_nil_r chunk) at 1. eapply settles_bind; [exact Hd|]. unfold cell_of_code. destruct (entries !! _); [apply decodes_ret|]. intros pre post base _. reflexivity.
Qed.

Lemma consumes_entries n : consumes (dec_repeat n dec_byte_string) (fun entries s => length entries = n /\ Forall (fun bs => len bs <= u32_max) entries /\ s = entry_bytes entries).
Proof.
  induction n as [|n IH]; cbn [dec_repeat]; [apply consumes_ret; repeat split; constructor|].
  eapply consumes_bind; [apply consumes_byte_string|]. intros bs s1 [Hl ->]. eapply consumes_bind; [apply IH|]. intros entries s2 (Hn & Hf & ->). apply consumes_ret.
  split; [cbn [length]; lia|]. split; [now constructor|]. now rewrite app_nil_r.
Qed.

(** What a payload that was narrowed is made of. *)
Record narrowed (wide narrow : list byte) (n : Z) (entries : list (list byte)) (width : Z) (indexes codes : list byte) : Prop := {
  nw_width : In width [1; 2];
  nw_count : is_u32 (len entries) = true;
  nw_entries : Forall (fun bs => len bs <= u32_max) entries;
  nw_wide : wide = to_le 4 (len entries) ++ entry_bytes entries ++ indexes;
  nw_length : len indexes = n * 4;
  nw_codes : narrow_indexes (Z.to_nat n) width indexes = Some codes;
  nw_narrow : narrow = to_le 4 (len entries) ++ entry_bytes entries ++ to_le 1 width ++ codes
}.

Lemma narrow_parts wide n narrow : len wide < 2 ^ 63 -> 0 <= n -> narrow_dictionary_payload wide n = Some narrow ->
  exists entries width indexes codes, narrowed wide narrow n entries width indexes codes.
Proof.
  intros Hl Hn. unfold narrow_dictionary_payload, ok_step at 1. change (decoder_new wide) with {| dec_bytes := [] ++ wide; dec_position := len (@nil byte); dec_base_offset := 0 |}.
  destruct (dec_u32 _) as [[count|] d1] eqn:E1; [|discriminate]. destruct (consumes_u32 _ _ _ _ _ E1) as (s1 & rest1 & -> & -> & Hc & ->).
  destruct (if count <=? 256 then Some 1 else if count <=? 65536 then Some 2 else None) as [width|] eqn:Ew; [|discriminate].
  assert (Hw : In width [1; 2]) by (destruct (count <=? 256); [injection Ew as <-; cbn; auto|destruct (count <=? 65536); [injection Ew as <-; cbn; auto|discriminate]]).
  cbn [mbind option_bind]. unfold ok_step at 1, past.
  change {| dec_bytes := [] ++ to_le 4 count ++ rest1; dec_position := len (@nil byte) + len (to_le 4 count); dec_base_offset := 0 |}
    with {| dec_bytes := to_le 4 count ++ rest1; dec_position := len (to_le 4 count); dec_base_offset := 0 |}.
  destruct (dec_repeat _ _ _) as [[entries|] d2] eqn:E2; [|discriminate]. destruct (consumes_entries _ _ _ _ _ _ E2) as (s2 & rest2 & -> & -> & Hcount & Hfit & ->).
  assert (Ec : len entries = count) by (unfold is_u32, in_unsigned in Hc; unfold len; lia).
  unfold checked_mul. destruct (n * 4 <? 2 ^ 64); [|discriminate]. cbn [mbind option_bind]. unfold ok_step, past.
  rewrite app_assoc, <- len_app. destruct (dec_take _ _) as [[indexes|] d3] eqn:E3; [|discriminate].
  destruct (consumes_take _ _ _ _ _ _ E3) as (s3 & rest3 & -> & -> & -> & Hidx). unfold dec_finish, past. cbn [dec_position dec_bytes].
  destruct (Z.eqb_spec (len (to_le 4 count ++ entry_bytes entries) + len indexes) (len ((to_le 4 count ++ entry_bytes entries) ++ indexes ++ rest3))) as [Eend|]; [|discriminate].
  assert (rest3 = []) as -> by (rewrite !len_app in Eend; apply nil_length_inv; unfold len in Eend; lia). rewrite app_nil_r in *.
  rewrite Hidx, Z.div_mul by lia. destruct (narrow_indexes (Z.to_nat n) width indexes) as [codes|] eqn:En; [|discriminate]. intros E4. apply (inj Some) in E4. subst narrow.
  exists entries, width, indexes, codes. split; try assumption; subst count; [exact Hc|now rewrite <- app_assoc|].
  unfold position, sat_add. cbn [dec_base_offset dec_position]. rewrite !len_app in Hl. pose proof (len_nonneg indexes). pose proof (len_nonneg (entry_bytes entries)). pose proof (len_nonneg (to_le 4 (len entries))).
  rewrite Z.min_r by (rewrite ?len_app; lia). rewrite Z.add_0_l. unfold len at 1. rewrite Nat2Z.id, take_app_length, <- app_assoc. reflexivity.
Qed.

(** The low bytes of a code whose other bytes are zero. *)
Lemma from_le_low width chunk : forallb (fun b => byte.unsigned b =? 0) (drop width chunk) = true -> from_le (take width chunk) = from_le chunk.
Proof.
  intros Hz. assert (E : drop width chunk = replicate (length (drop width chunk)) Byte.x00).
  { induction (drop width chunk) as [|b l IH]; [reflexivity|]. cbn [forallb length replicate] in *. apply andb_prop in Hz as [Hb Hl]. rewrite <- IH by exact Hl. f_equal.
    rewrite <- (byte.of_Z_unsigned b). now rewrite (proj1 (Z.eqb_eq _ _) Hb). }
  rewrite <- (take_drop width chunk) at 2. rewrite E, from_le_app, from_le_zeros. lia.
Qed.

(** The codes of both forms, chunk by chunk, name the same cells. *)
Lemma indexes_settle entries n width : In width [1; 2] -> forall indexes codes, len indexes = Z.of_nat n * 4 -> narrow_indexes n width indexes = Some codes ->
  exists r, settles (dec_repeat n (coded_cell entries 4)) indexes r /\ settles (dec_repeat n (coded_cell entries width)) codes r.
Proof.
  intros Hw. assert (Hw4 : 1 <= width <= 2) by (destruct Hw as [<-|[<-|[]]]; lia).
  enough (Hgen : forall indexes codes, len indexes = Z.of_nat n * 4 -> narrow_indexes n width indexes = Some codes ->
    exists chunks, length chunks = n /\ Forall (fun chunk => len chunk = 4 /\ from_le (take (Z.to_nat width) chunk) = from_le chunk) chunks /\
      indexes = concat chunks /\ codes = concat (map (take (Z.to_nat width)) chunks)).
  { intros indexes codes Hl Hn. destruct (Hgen _ _ Hl Hn) as (chunks & <- & Hf & -> & ->). exists (map_result (fun chunk => cell_of_code entries (from_le chunk)) chunks). split.
    - rewrite <- (map_id chunks) at 2. apply repeat_settles. eapply Forall_impl; [exact Hf|]. intros chunk [Hc _]. apply code_settles; [cbn; auto|exact Hc].
    - apply repeat_settles. eapply Forall_impl; [exact Hf|]. intros chunk [Hc E]. rewrite <- E. apply code_settles; [destruct Hw as [<-|[<-|[]]]; cbn; auto|].
      unfold len in *. rewrite length_take. lia. }
  induction n as [|n IH]; intros indexes codes Hl; cbn [narrow_indexes].
  { intros [= <-]. exists []. split; [reflexivity|]. split; [constructor|]. split; [apply nil_length_inv; unfold len in Hl; lia|reflexivity]. }
  destruct (forallb _ _) eqn:Ez; [|discriminate]. destruct (narrow_indexes n width (drop 4 indexes)) as [rest|] eqn:En; [|discriminate]. intros [= <-].
  destruct (IH (drop 4 indexes) rest) as (chunks & Hn & Hf & Ed & Ec); [unfold len in *; rewrite length_drop; lia|exact En|].
  exists (take 4 indexes :: chunks). split; [cbn [length]; lia|]. split; [|split].
  - constructor; [|exact Hf]. split; [unfold len in *; rewrite length_take; lia|now apply from_le_low].
  - cbn [concat]. rewrite <- Ed. symmetry. apply take_drop.
  - cbn [map concat]. now rewrite Ec.
Qed.

(** The payload of an outcome. *)
Definition payload_outcome (r : result message (option (list Cell))) : option (result message (list Cell)) :=
  match r with Ok (Some cells) => Some (Ok cells) | Ok None => None | Err e => Some (Err e) end.

Lemma settled_payload `{Machine} t encoding n bs r : settles (decode_values t encoding n) bs r -> len bs < 2 ^ 63 -> (forall cells, r = Ok cells -> cells <> None) ->
  decode_payload bs t encoding n = payload_outcome r.
Proof.
  intros Hs Hl Hr. destruct r as [[cells|]|e]; [now apply decoded_to_end|now destruct (Hr None eq_refl)|].
  specialize (Hs [] [] 0). unfold cursor in Hs. cbn [app] in Hs. rewrite app_nil_r in Hs. specialize (Hs Hl). unfold decode_payload.
  change (decoder_new bs) with {| dec_bytes := bs; dec_position := len (@nil byte); dec_base_offset := 0 |}.
  destruct (decode_values t encoding n _) as [[a|e'] d]; [discriminate|]. cbn in *. congruence.
Qed.

(** Narrowing the codes of a text block changes nothing a reader sees: on any bytes [wide] it accepts,
    also those of a damaged block, the narrow payload decodes to the same cells or fails with the same
    error. *)
Theorem narrow_dictionary_equivalent `{Machine} (t : LogicalType) (wide narrow : list byte) (n : Z) :
  t = LUtf8 \/ t = LBinary -> 0 <= n -> len wide < 2 ^ 63 -> len narrow < 2 ^ 63 -> narrow_dictionary_payload wide n = Some narrow ->
  decode_payload narrow t NarrowDictionary n = decode_payload wide t Dictionary n.
Proof.
  intros Ht Hn Hlw Hln E. destruct (narrow_parts wide n narrow Hlw Hn E) as (entries & width & indexes & codes & [Hw Hc Hf Ewide Hidx Hcodes Enarrow]).
  assert (He : settles (dec_repeat (length entries) (decode_cell t)) (entry_bytes entries) (map_result (text_cell t) entries)).
  { apply repeat_settles. eapply Forall_impl; [exact Hf|]. intros bs Hbs. now apply text_cell_settles. }
  assert (Ecount : Z.to_nat (len entries) = length entries) by (unfold len; lia).
  enough (Hboth : exists r, settles (decode_values t Dictionary n) wide r /\ settles (decode_values t NarrowDictionary n) narrow r /\ (forall cells, r = Ok cells -> cells <> None)).
  { destruct Hboth as (r & A & B & C). now rewrite (settled_payload _ _ _ _ _ A Hlw C), (settled_payload _ _ _ _ _ B Hln C). }
  destruct (map_result (text_cell t) entries) as [cells|e] eqn:Em.
  - destruct (indexes_settle cells (Z.to_nat n) width Hw indexes codes ltac:(lia) Hcodes) as (r & A & B).
    exists (match r with Ok cells => Ok (Some cells) | Err e => Err e end). split; [|split; [|destruct r; [intros c [= <-]; discriminate|discriminate]]].
    + rewrite Ewide. apply settles_ret_bind. eapply settles_bind; [now apply decodes_u32|]. rewrite Ecount. eapply settles_bind; [exact He|].
      rewrite <- (app_nil_l indexes). eapply settles_bind; [apply decodes_ret|exact A].
    + rewrite Enarrow. apply settles_ret_bind. eapply settles_bind; [now apply decodes_u32|]. rewrite Ecount. eapply settles_bind; [exact He|].
      eapply settles_bind; [|exact B]. unfold dictionary_index_width. eapply decodes_bind_ret; [apply decodes_u8; destruct Hw as [<-|[<-|[]]]; reflexivity|].
      destruct Hw as [<-|[<-|[]]]; apply decodes_ret.
  - exists (Err e). split; [|split; [|discriminate]].
    + rewrite Ewide. apply (settles_ret_bind _ Some _ (Err e)). eapply settles_bind; [now apply decodes_u32|]. rewrite Ecount. now apply settles_fails.
    + rewrite Enarrow. apply (settles_ret_bind _ Some _ (Err e)). eapply settles_bind; [now apply decodes_u32|]. rewrite Ecount. now apply settles_fails.
Qed.

(** ** The bound holds *)

(** [Cell::heap_bytes] of a text cell. *)
Definition text_heap_bytes (cell : Cell) : Z := match cell with CUtf8 s => len s | CBinary bs => len bs | _ => 0 end.

Definition heap_total (cells : list Cell) : Z := foldr (fun cell sum => text_heap_bytes cell + sum) 0 cells.

Lemma heap_total_app a b : heap_total (a ++ b) = heap_total a + heap_total b.
Proof. unfold heap_total. induction a as [|c a IH]; cbn [app foldr]; lia. Qed.

Lemma text_heap_nonneg cell : 0 <= text_heap_bytes cell.
Proof. destruct cell; cbn [text_heap_bytes]; try apply len_nonneg; lia. Qed.

Lemma heap_total_nonneg cells : 0 <= heap_total cells.
Proof. induction cells as [|c cells IH]; cbn; [lia|]. pose proof (text_heap_nonneg c). unfold heap_total in IH. lia. Qed.

Lemma heap_total_replicate n cell : heap_total (replicate n cell) = Z.of_nat n * text_heap_bytes cell.
Proof. induction n as [|n IH]; [reflexivity|]. cbn [replicate]. change (heap_total (cell :: replicate n cell)) with (text_heap_bytes cell + heap_total (replicate n cell)). lia. Qed.

Lemma heap_total_le m cells : Forall (fun c => text_heap_bytes c <= m) cells -> heap_total cells <= m * len cells.
Proof.
  induction 1 as [|c cells Hc _ IH]; [unfold len; cbn; lia|]. change (heap_total (c :: cells)) with (text_heap_bytes c + heap_total cells). unfold len in *. cbn [length]. lia.
Qed.

Lemma dec_u32_nonneg d v d' : dec_u32 d = (Ok v, d') -> 0 <= v.
Proof.
  unfold dec_u32, mbind, Dec_bind. destruct (take_array 4 d) as [[bs|] d1]; [|discriminate]. intros [= <- _]. apply from_le_nonneg.
Qed.

Section bound.
Context (t : LogicalType) (text : t = LUtf8 \/ t = LBinary).

(** A text cell is read from the bytes of its text. *)
Lemma cell_is_bytes d c d' : decode_cell t d = (Ok c, d') -> exists bs, dec_byte_string d = (Ok bs, d') /\ text_heap_bytes c = len bs.
Proof using text.
  destruct text as [-> | ->]; cbn [decode_cell]; unfold mbind, Dec_bind; destruct (dec_byte_string d) as [[bs|] d1]; try discriminate.
  - unfold decode_utf8. destruct (utf8_valid bs); [|discriminate]. intros [= <- <-]. eauto.
  - intros [= <- <-]. eauto.
Qed.

Lemma cells_are_bytes n : forall d cs d', dec_repeat n (decode_cell t) d = (Ok cs, d') ->
  exists entries, dec_repeat n dec_byte_string d = (Ok entries, d') /\ map text_heap_bytes cs = map len entries.
Proof using text.
  induction n as [|n IH]; intros d cs d'; cbn [dec_repeat]; [intros [= <- <-]; exists []; auto|]. unfold mbind, Dec_bind.
  destruct (decode_cell t d) as [[c|] d1] eqn:E1; [|discriminate]. destruct (cell_is_bytes _ _ _ E1) as (bs & -> & Hb).
  destruct (dec_repeat n (decode_cell t) d1) as [[rest|] d2] eqn:E2; [|discriminate]. intros [= <- <-]. destruct (IH _ _ _ E2) as (es & -> & He).
  exists (bs :: es). split; [reflexivity|]. cbn [map]. now rewrite Hb, He.
Qed.

Lemma sum_lengths_bound cs : forall (entries : list (list byte)) m, map text_heap_bytes cs = map len entries -> 0 <= m ->
  Z.min (2 ^ 64 - 1) (m + heap_total cs) <= foldl (fun sum v => sat_add 64 sum (len v)) (Z.min (2 ^ 64 - 1) m) entries.
Proof.
  induction cs as [|c cs IH]; intros [|bs entries] m E Hm; try discriminate; cbn [foldl]; [cbn; lia|]. cbn [map] in E. injection E as Ec Ecs.
  change (heap_total (c :: cs)) with (text_heap_bytes c + heap_total cs). pose proof (text_heap_nonneg c).
  replace (sat_add 64 (Z.min (2 ^ 64 - 1) m) (len bs)) with (Z.min (2 ^ 64 - 1) (m + len bs)) by (unfold sat_add; lia).
  pose proof (IH entries (m + len bs) Ecs ltac:(lia)) as Hi. rewrite Ec. replace (m + (len bs + heap_total cs)) with (m + len bs + heap_total cs) by lia. exact Hi.
Qed.

Lemma longest_bound cs : forall (entries : list (list byte)) m, map text_heap_bytes cs = map len entries ->
  m <= foldl (fun m v => Z.max m (len v)) m entries /\ Forall (fun c => text_heap_bytes c <= foldl (fun m v => Z.max m (len v)) m entries) cs.
Proof.
  induction cs as [|c cs IH]; intros [|bs entries] m E; try discriminate; cbn [foldl]; [split; [lia|constructor]|]. cbn [map] in E. injection E as Ec Ecs.
  destruct (IH entries (Z.max m (len bs)) Ecs) as [A B]. split; [lia|]. constructor; [lia|exact B].
Qed.

Lemma coded_cells_from entries width n : forall d cs d', dec_repeat n (coded_cell entries width) d = (Ok cs, d') -> length cs = n /\ Forall (fun c => c ∈ entries) cs.
Proof.
  induction n as [|n IH]; intros d cs d'; cbn [dec_repeat]; [intros [= <- <-]; auto|]. unfold mbind, Dec_bind.
  destruct (coded_cell entries width d) as [[c|] d1] eqn:E1; [|discriminate]. destruct (dec_repeat n _ d1) as [[rest|] d2] eqn:E2; [|discriminate]. intros [= <- <-].
  destruct (IH _ _ _ E2) as [A B]. split; [cbn [length]; lia|]. constructor; [|exact B]. unfold coded_cell, mbind, Dec_bind in E1. destruct (dictionary_index width d) as [[i|] d0]; [|discriminate].
  destruct (entries !! Z.to_nat i) eqn:El; [|discriminate]. injection E1 as <- _. now apply list_elem_of_lookup_2 in El.
Qed.

Lemma dictionary_bound_holds n narrow d cs d1 b d2 : 0 <= n -> decode_dictionary t n narrow d = (Ok cs, d1) -> dictionary_bound n narrow d = (Ok b, d2) ->
  Z.min (2 ^ 64 - 1) (heap_total cs) <= b.
Proof using text.
  intros Hn. unfold decode_dictionary, dictionary_bound, mbind, Dec_bind. destruct (dec_u32 d) as [[count|] e1]; [|discriminate].
  destruct (dec_repeat (Z.to_nat count) (decode_cell t) e1) as [[dict|] e2] eqn:Ed; [|discriminate]. destruct (cells_are_bytes _ _ _ _ Ed) as (entries & -> & He).
  destruct ((if narrow then dictionary_index_width else mret 4) e2) as [[width|] e3]; [|discriminate].
  change (dec_repeat (Z.to_nat n) _ e3) with (dec_repeat (Z.to_nat n) (coded_cell dict width) e3) at 1. intros Hc.
  destruct (dec_repeat (Z.to_nat n) (checked_index width count) e3) as [[u|] e4]; [|discriminate]. intros [= <- _].
  destruct (coded_cells_from dict width _ _ _ _ Hc) as [Hl Hin]. destruct (longest_bound dict entries 0 He) as [H0 Hmax]. set (m := foldl _ 0 entries) in *.
  assert (Hle : heap_total cs <= m * len cs). { apply heap_total_le. eapply Forall_impl; [exact Hin|]. intros c Hc'. rewrite Forall_forall in Hmax. now apply Hmax. }
  unfold sat_mul. replace (len cs) with n in Hle by (unfold len; lia). lia.
Qed.

Lemma run_bound_holds k n : forall values h d cs d1 p b d2, 0 <= h -> Z.min (2 ^ 64 - 1) (heap_total values) <= h -> decode_run_list k t n values d = (Ok cs, d1) ->
  forall produced, run_bound k n produced h d = (Ok (p, b), d2) -> Z.min (2 ^ 64 - 1) (heap_total cs) <= b.
Proof using text.
  induction k as [|k IH]; intros values h d cs d1 p b d2 Hh Hv; cbn [decode_run_list run_bound]; [intros [= <- <-] produced [= <- <- <-]; exact Hv|].
  unfold mbind, Dec_bind. destruct (dec_u32 d) as [[length|] e1] eqn:E1; [|discriminate]. destruct (length =? 0); [discriminate|].
  destruct (decode_cell t e1) as [[c|] e2] eqn:Ec; [|discriminate]. destruct (cell_is_bytes _ _ _ Ec) as (bs & Eb & Hb).
  destruct (n <? sat_add 64 (len values) length); [discriminate|]. intros Hd produced. destruct (n <? sat_add 64 produced length); [discriminate|]. rewrite Eb.
  intros Hr. eapply IH; [| |exact Hd|exact Hr].
  - unfold sat_add, sat_mul. pose proof (len_nonneg bs). assert (0 <= length) by exact (dec_u32_nonneg _ _ _ E1). nia.
  - rewrite heap_total_app, heap_total_replicate, Hb. pose proof (len_nonneg bs). assert (0 <= length) by exact (dec_u32_nonneg _ _ _ E1).
    unfold sat_add, sat_mul. rewrite Z2Nat.id by lia. pose proof (heap_total_nonneg values). nia.
Qed.
End bound.

(** What a text block decodes to takes no more heap than the bound computed from its payload, a bound
    that saturates at the largest [usize]: also for a damaged payload, when both accept it. *)
Theorem heap_bound_holds `{Machine} (t : LogicalType) (encoding : Encoding) (bytes : list byte) (n bound : Z) (cells : list Cell) :
  t = LUtf8 \/ t = LBinary -> 0 <= n -> decoded_heap_upper_bound bytes t encoding n = Ok bound -> decode_payload bytes t encoding n = Some (Ok cells) ->
  Z.min (2 ^ 64 - 1) (heap_total cells) <= bound.
Proof.
  intros Ht Hn Hb Hd.
  assert (Hbound : exists d, text_bound encoding n (decoder_new bytes) = (Ok bound, d)).
  { destruct Ht as [-> | ->]; cbn [decoded_heap_upper_bound] in Hb; destruct (text_bound encoding n (decoder_new bytes)) as [[b|] d]; try discriminate;
      destruct (dec_finish d); try discriminate; injection Hb as <-; eauto. }
  assert (Hcells : exists d, decode_values t encoding n (decoder_new bytes) = (Ok (Some cells), d)).
  { unfold decode_payload in Hd. destruct (decode_values t encoding n (decoder_new bytes)) as [[[cs|]|] d]; try discriminate. destruct (dec_finish d); [|discriminate]. injection Hd as <-. eauto. }
  destruct Hbound as [d1 Eb], Hcells as [d2 Ec]. clear Hb Hd. destruct encoding; cbn [text_bound decode_values] in Eb, Ec; unfold mbind, Dec_bind in Ec; try discriminate Eb.
  - destruct (dec_repeat (Z.to_nat n) (decode_cell t) (decoder_new bytes)) as [[cs|] d] eqn:E; [|discriminate]. injection Ec as <- _.
    destruct (cells_are_bytes t Ht _ _ _ _ E) as (entries & Ee & Hlen). unfold sum_lengths, mbind, Dec_bind in Eb. rewrite Ee in Eb. injection Eb as <- _.
    exact (sum_lengths_bound cs entries 0 Hlen ltac:(lia)).
  - destruct (decode_dictionary t n false (decoder_new bytes)) as [[cs|] d] eqn:E; [|discriminate]. injection Ec as <- _. exact (dictionary_bound_holds t Ht n false _ _ _ _ _ Hn E Eb).
  - destruct (decode_runs t n (decoder_new bytes)) as [[cs|] d] eqn:E; [|discriminate]. injection Ec as <- _. unfold decode_runs, runs_bound, mbind, Dec_bind in E, Eb.
    destruct (dec_u32 (decoder_new bytes)) as [[count|] e1]; [|discriminate]. destruct (decode_run_list _ t n [] e1) as [[out|] e2] eqn:Er; [|discriminate].
    destruct (len out =? n); [|discriminate]. injection E as <- _. destruct (run_bound _ n 0 0 e1) as [[[p b]|] e3] eqn:Ebr; [|discriminate]. destruct (p =? n); [|discriminate].
    injection Eb as <- _. eapply (run_bound_holds t Ht _ n [] 0); [lia|cbn; lia|exact Er|exact Ebr].
  - destruct (decode_dictionary t n true (decoder_new bytes)) as [[cs|] d] eqn:E; [|discriminate]. injection Ec as <- _. exact (dictionary_bound_holds t Ht n true _ _ _ _ _ Hn E Eb).
Qed.

(** ** Examples *)

Module EncodingExamples.
#[local] Existing Instance PackingExamples.vector_machine.

Definition word (c : byte) : Cell := CUtf8 [c; c; c].
Definition words : list Cell := [word Byte.x61; word Byte.x62; word Byte.x61; word Byte.x61; word Byte.x63].
Definition payload_of (t : LogicalType) (encoding : Encoding) (cells : list Cell) : list byte := match encode_payload t encoding cells with Ok payload => payload | Err _ => [] end.

Lemma payload_roundtrip_witness : decode_payload (payload_of LUtf8 Dictionary words) LUtf8 Dictionary (len words) = Some (Ok words).
Proof. apply (payload_roundtrip LUtf8 Dictionary words (payload_of LUtf8 Dictionary words)); [discriminate|vm_compute; reflexivity..]. Defined.

(** A rising column takes the delta encoding. *)
Definition rising : list Cell := map CInt64 [-5; -5; 0; 70; 71; 1000000].

Lemma integer_blocks_written_witness : select_encoding LInt64 rising = DeltaBitPacked /\
  exists payload, encode_payload LInt64 (select_encoding LInt64 rising) rising = Ok payload /\ len payload <= 13 + 12 * len rising /\
    decode_payload payload LInt64 (select_encoding LInt64 rising) (len rising) = Some (Ok rising).
Proof. split; [vm_compute; reflexivity|]. apply (integer_blocks_written LInt64 rising); vm_compute; reflexivity. Defined.

(** The second block uses codes of the first, and adds one. *)
Definition column_of_words : list (list Cell) := [words; [word Byte.x63; word Byte.x64; word Byte.x62]].

Lemma column_codes_shared_witness :
  Forall2 (fun cells r => forall payload, r = Ok (Some payload) -> len payload < 2 ^ 63 ->
    decode_payload payload LUtf8 Dictionary (len cells) = Some (Ok cells) /\
    exists k indices, encode_listed encoder_new (take k (di_entries (cd_dict (column_blocks column_dictionary_new column_of_words).2))) indices = Ok payload /\
      codes_of (di_entries (cd_dict (column_blocks column_dictionary_new column_of_words).2)) indices cells)
    column_of_words (column_blocks column_dictionary_new column_of_words).1.
Proof. apply (column_codes_shared LUtf8 column_of_words (column_blocks column_dictionary_new column_of_words).1 (column_blocks column_dictionary_new column_of_words).2); [repeat constructor|reflexivity]. Defined.

Definition narrow_words : list byte := default [] (narrow_dictionary_payload (payload_of LUtf8 Dictionary words) (len words)).

Lemma narrow_dictionary_equivalent_witness : len narrow_words < len (payload_of LUtf8 Dictionary words) /\
  decode_payload narrow_words LUtf8 NarrowDictionary (len words) = decode_payload (payload_of LUtf8 Dictionary words) LUtf8 Dictionary (len words).
Proof.
  split; [vm_compute; reflexivity|].
  apply (narrow_dictionary_equivalent LUtf8 (payload_of LUtf8 Dictionary words) narrow_words (len words)); [left; reflexivity|vm_compute; discriminate|vm_compute; reflexivity..].
Defined.

Lemma heap_bound_holds_witness : Z.min (2 ^ 64 - 1) (heap_total words) <= 15.
Proof. apply (heap_bound_holds LUtf8 Dictionary (payload_of LUtf8 Dictionary words) (len words) 15 words); [left; reflexivity|vm_compute; discriminate|vm_compute; reflexivity..]. Defined.
End EncodingExamples.
