(* ===== verification/Frames.v ===== *)
(** * Block compression

    How a block's payload is compressed and stored: [segment/encoding.rs], [compress_block_for_storage],
    the frames of a framed block with their directory, and the decompression of both.  The compressors
    [lz4_flex] and [zstd] are arguments of the model. *)

From Stdlib Require Import ZArith Lia String.
From stdpp Require Import prelude list.
From coqutil Require Import Byte.
From S2P Require Import Prelude.
From S2P Require Import Types.
From S2P Require Import Codec.
From S2P Require Import Wal.
From S2P Require Import Packing.
From S2P Require Import Encoding.

#[local] Open Scope Z_scope.

Inductive Compression : Type := NoCompression | Lz4 | Zstd | AdaptiveLz4 | Framed.

#[export] Instance Compression_eq_dec : EqDecision Compression.
Proof. solve_decision. Defined.

Definition compression_tag (c : Compression) : Z := match c with NoCompression => 0 | Lz4 => 1 | Zstd => 2 | AdaptiveLz4 => 3 | Framed => 4 end.

(** The libraries: a decompression into a buffer of the given size returns the bytes written to it. *)
Class Compressors : Type := {
  lz4_compress : list byte -> list byte;
  lz4_decompress_into : list byte -> Z -> option (list byte);
  zstd_compress : list byte -> option (list byte);
  zstd_decompress : list byte -> Z -> option (list byte);
  zstd_decompress_to_buffer : list byte -> Z -> option (list byte);
  zstd_context : bool
}.

(** What the libraries document: what was compressed is decompressed, given room for it. *)
Class LawfulCompressors (C : Compressors) : Prop := {
  lz4_law : forall bytes, lz4_decompress_into (lz4_compress bytes) (len bytes) = Some bytes;
  zstd_law : forall bytes compressed, zstd_compress bytes = Some compressed -> zstd_decompress compressed (len bytes) = Some bytes;
  zstd_buffer_law : forall bytes compressed, zstd_compress bytes = Some compressed -> zstd_decompress_to_buffer compressed (len bytes) = Some bytes;
  zstd_context_law : zstd_context = true
}.

Section compression.
Context `{Checksum} `{Compressors}.

(** ** Compression *)

Definition materially_smaller (uncompressed compressed : Z) : bool :=
  (0 <? uncompressed) && (sat_mul 64 compressed 100 <=? sat_mul 64 uncompressed 95).

Definition compress_block_for_storage (compression : Compression) (bytes : list byte) : result StoreError (Compression * list byte) :=
  match compression with
  | NoCompression => Ok (NoCompression, bytes)
  | Lz4 => Ok (Lz4, lz4_compress bytes)
  | Zstd =>
      match zstd_compress bytes with
      | Some compressed => Ok (Zstd, compressed)
      | None => Err (Io (msg "compress zstd segment block" []))
      end
  | AdaptiveLz4 =>
      let compressed := lz4_compress bytes in
      if materially_smaller (len bytes) (len compressed) then Ok (Lz4, compressed) else Ok (NoCompression, bytes)
  | Framed => Err (FormatLimit (msg "framed is a stored block layout, not a writer policy" []))
  end.

Definition FRAME_TARGET_BYTES : Z := 64 * 1024.
Definition FRAMED_MINIMUM_BYTES : Z := 4 * FRAME_TARGET_BYTES.
Definition FRAME_ENTRY_BYTES : Z := 4 + 4 + 1 + 4 + 8.

(** A frame to write: its values and its bytes [start..stop]. *)
Record FrameRange : Type := { fr_values : Z; fr_start : Z; fr_stop : Z }.

(** The loop that closes a frame at the first value boundary at or past the target. *)
Fixpoint split_frames (fuel : nat) (bytes : list byte) (d : Decoder) (start values : Z) (frames : list FrameRange) : result StoreError (list FrameRange) :=
  match fuel with
  | O => Ok frames
  | S fuel =>
      if position d <? len bytes then
        match dec_byte_string d with
        | (Err reason, _) => Err (FormatLimit (msg "plain payload: {reason}" (msg_args reason)))
        | (Ok _, d) =>
            let values := values + 1 in
            if FRAME_TARGET_BYTES <=? position d - start
            then split_frames fuel bytes d (position d) 0 (frames ++ [{| fr_values := values; fr_start := start; fr_stop := position d |}])
            else split_frames fuel bytes d start values frames
        end
      else Ok (if 0 <? values then frames ++ [{| fr_values := values; fr_start := start; fr_stop := len bytes |}] else frames)
  end.

Definition compress_frame (policy : Compression) (raw : list byte) : result StoreError (Compression * list byte) :=
  match policy with
  | Zstd => compress_block_for_storage Zstd raw
  | Lz4 => Ok (Lz4, lz4_compress raw)
  | _ => compress_block_for_storage AdaptiveLz4 raw
  end.

(** One frame: its directory entry and its stored bytes. *)
Definition write_frame (policy : Compression) (bytes : list byte) (s : Encoder * list byte) (frame : FrameRange) : result StoreError (Encoder * list byte) :=
  let raw := slice bytes (fr_start frame) (fr_stop frame - fr_start frame) in
  '(codec, stored) ← compress_frame policy raw;
  directory ← enc_length s.1 (fr_values frame) (msg "frame value count" []);
  directory ← enc_length directory (len raw) (msg "frame length" []);
  let directory := enc_u8 directory (compression_tag codec) in
  directory ← enc_length directory (len stored) (msg "frame stored length" []);
  Ok (enc_u64 directory (xxh3_64 stored), s.2 ++ stored).

Definition framed_head_digest (block_head directory : list byte) : Z := xxh3_64 (block_head ++ directory).

Definition compress_framed_for_storage (policy : Compression) (block_head bytes : list byte) : result StoreError (Compression * list byte) :=
  match policy with
  | NoCompression | Framed => compress_block_for_storage policy bytes
  | _ =>
      frames ← split_frames (S (length bytes)) bytes (decoder_new bytes) 0 0 [];
      directory ← enc_length encoder_new (len frames) (msg "frame count" []);
      '(directory, data) ← fold_result (write_frame policy bytes) (directory, []) frames;
      let stored_block := enc_u64 directory (framed_head_digest block_head directory) ++ data in
      if bool_decide (policy = AdaptiveLz4) && negb (materially_smaller (len bytes) (len stored_block))
      then Ok (NoCompression, bytes) else Ok (Framed, stored_block)
  end.

(** ** Decompression *)

Record FrameEntry : Type := {
  fe_first_value : Z; fe_value_count : Z; fe_uncompressed_length : Z; fe_codec : Compression;
  fe_stored_offset : Z; fe_stored_length : Z; fe_checksum : Z }.

Definition end_value (entry : FrameEntry) : Z := fe_first_value entry + fe_value_count entry.

Definition frame_codec (tag : Z) : Dec Compression :=
  if tag =? 0 then mret NoCompression else if tag =? 1 then mret Lz4 else if tag =? 2 then mret Zstd
  else fail (msg "unknown frame compression {tag}" [tag]).

Definition checked_or (what : message) (sum : option Z) : Dec Z := match sum with Some z => mret z | None => fail what end.

(** The loop over the entries: where the next frame starts, and the bytes so far. *)
Fixpoint parse_entries (n : nat) (first_value stored_offset total : Z) : Dec (list FrameEntry * Z) :=
  match n with
  | O => mret ([], total)
  | S n =>
      value_count ← dec_u32;
      length ← dec_u32;
      tag ← dec_u8;
      codec ← frame_codec tag;
      stored_length ← dec_u32;
      checksum ← dec_u64;
      if value_count =? 0 then fail (msg "empty frame" [])
      else
        let entry := {| fe_first_value := first_value; fe_value_count := value_count; fe_uncompressed_length := length; fe_codec := codec;
                        fe_stored_offset := stored_offset; fe_stored_length := stored_length; fe_checksum := checksum |} in
        first_value ← checked_or (msg "frame value count overflow" []) (checked_add 64 first_value value_count);
        stored_offset ← checked_or (msg "frame stored length overflow" []) (checked_add 64 stored_offset stored_length);
        total ← checked_or (msg "frame length overflow" []) (checked_add 64 total length);
        '(entries, total) ← parse_entries n first_value stored_offset total;
        mret (entry :: entries, total)
  end.

Definition parse_directory : Dec (list FrameEntry * Z) := frame_count ← dec_count FRAME_ENTRY_BYTES; parse_entries (Z.to_nat frame_count) 0 0 0.

Definition parse_frame_directory (directory : list byte) (uncompressed_length : Z) : result message (list FrameEntry) :=
  match parse_directory (decoder_new directory) with
  | (Err e, _) => Err e
  | (Ok (entries, total), d) =>
      match dec_finish d with
      | Err e => Err e
      | Ok _ =>
          if total =? uncompressed_length then Ok entries
          else Err (msg "frames hold {total} bytes, block declares {uncompressed_length}" [total; uncompressed_length])
      end
  end.

(** [bytes.get(n..)]. *)
Definition get_from (l : list byte) (n : Z) : option (list byte) := if n <=? len l then Some (drop (Z.to_nat n) l) else None.

Definition parse_frames (bytes : list byte) (uncompressed_length : Z) : result message (list (FrameEntry * list byte)) :=
  match dec_count FRAME_ENTRY_BYTES (decoder_new bytes) with
  | (Err e, _) => Err e
  | (Ok frame_count, _) =>
      let directory_length := 4 + frame_count * FRAME_ENTRY_BYTES in
      match get_range bytes 0 directory_length with
      | None => Err (msg "frame directory is truncated" [])
      | Some directory =>
          entries ← parse_frame_directory directory uncompressed_length;
          match get_from bytes (directory_length + 8) with
          | None => Err (msg "frame directory digest is truncated" [])
          | Some data =>
              let stored := match last entries with Some entry => fe_stored_offset entry + fe_stored_length entry | None => 0 end in
              if stored =? len data
              then Ok (map (fun entry => (entry, slice data (fe_stored_offset entry) (fe_stored_length entry))) entries)
              else Err (msg "frames store {stored} bytes, block holds {}" [stored; len data])
          end
      end
  end.

(** One frame into its place: the buffer behind it is not looked at again. *)
Definition decompress_one (output : list byte) (frame : FrameEntry * list byte) : result message (list byte) :=
  let '(entry, data) := frame in
  let room := fe_uncompressed_length entry in
  written ← match fe_codec entry with
            | NoCompression => if len data =? room then Ok data else Err (msg "raw frame length differs from its directory" [])
            | Lz4 => match lz4_decompress_into data room with Some w => Ok w | None => Err (msg "invalid LZ4 frame: {error}" []) end
            | _ =>
                if negb zstd_context then Err (msg "zstd context: {error}" [])
                else match zstd_decompress_to_buffer data room with Some w => Ok w | None => Err (msg "invalid zstd frame: {error}" []) end
            end;
  if len written =? room then Ok (output ++ written) else Err (msg "frame decompressed to a length other than its directory's" []).

Definition decompress_block (compression : Compression) (bytes : list byte) (uncompressed_length : Z) : result message (list byte) :=
  match compression with
  | NoCompression =>
      if len bytes =? uncompressed_length then Ok bytes
      else Err (msg "raw block length is {}, expected {uncompressed_length}" [len bytes; uncompressed_length])
  | Lz4 =>
      match lz4_decompress_into bytes uncompressed_length with
      | None => Err (msg "invalid LZ4 block: {error}" [])
      | Some written =>
          if len written =? uncompressed_length then Ok written
          else Err (msg "invalid LZ4 block: {written} bytes, expected {uncompressed_length}" [len written; uncompressed_length])
      end
  | Zstd => match zstd_decompress bytes uncompressed_length with Some output => Ok output | None => Err (msg "invalid zstd block: {error}" []) end
  | AdaptiveLz4 => Err (msg "adaptive LZ4 is a writer policy, not a stored compression" [])
  | Framed => frames ← parse_frames bytes uncompressed_length; fold_result decompress_one [] frames
  end.

Definition decompress_frame (entry : FrameEntry) (stored : list byte) : result message (list byte) :=
  decompress_block (fe_codec entry) stored (fe_uncompressed_length entry).
End compression.

(** ** Frames tile the payload *)

Definition frame_raw (bytes : list byte) (frame : FrameRange) : list byte := slice bytes (fr_start frame) (fr_stop frame - fr_start frame).

(** Frames of whole values, one after another, up to [stop]. *)
Record tiles (bytes : list byte) (frames : list FrameRange) (stop : Z) : Prop := {
  ti_bytes : concat (map (frame_raw bytes) frames) = take (Z.to_nat stop) bytes;
  ti_values : Forall (fun frame => 1 <= fr_values frame /\ 4 * fr_values frame <= len (frame_raw bytes frame)) frames
}.

Lemma slice_len {A} (l : list A) a n : 0 <= a -> 0 <= n -> a + n <= len l -> len (slice l a n) = n.
Proof. intros Ha Hn Hl. unfold slice, len in *. rewrite length_take, length_drop. lia. Qed.

Lemma tiles_snoc bytes frames start stop values : tiles bytes frames start -> 0 <= start <= stop -> stop <= len bytes -> 1 <= values -> 4 * values <= stop - start ->
  tiles bytes (frames ++ [{| fr_values := values; fr_start := start; fr_stop := stop |}]) stop.
Proof.
  intros [Hb Hv] Hs Hl H1 H4. split.
  - rewrite map_app, concat_app, Hb. cbn [map concat]. rewrite app_nil_r. unfold frame_raw, slice. cbn [fr_start fr_stop].
    rewrite <- (take_drop (Z.to_nat start) (take (Z.to_nat stop) bytes)), take_take, skipn_firstn_comm. f_equal; f_equal; lia.
  - apply Forall_app. split; [exact Hv|]. constructor; [|constructor]. cbn [fr_values]. split; [exact H1|]. unfold frame_raw. cbn [fr_start fr_stop]. rewrite slice_len by lia. lia.
Qed.

Lemma position_at pre rest : len (pre ++ rest) < 2 ^ 63 -> position {| dec_bytes := pre ++ rest; dec_position := len pre; dec_base_offset := 0 |} = len pre.
Proof. intros Hl. rewrite len_app in Hl. pose proof (len_nonneg rest). unfold position, sat_add. cbn [dec_base_offset dec_position]. lia. Qed.

Lemma split_frames_tiles fuel : forall pre rest start values frames out, len (pre ++ rest) < 2 ^ 63 -> (length rest < fuel)%nat ->
  tiles (pre ++ rest) frames start -> 0 <= start <= len pre -> 0 <= values -> 4 * values <= len pre - start -> (values = 0 -> start = len pre) ->
  split_frames fuel (pre ++ rest) {| dec_bytes := pre ++ rest; dec_position := len pre; dec_base_offset := 0 |} start values frames = Ok out ->
  tiles (pre ++ rest) out (len (pre ++ rest)).
Proof.
  induction fuel as [|fuel IH]; intros pre rest start values frames out Hl Hf Ht Hs Hv H4 H0; [lia|]. cbn [split_frames]. rewrite position_at by exact Hl.
  destruct (Z.ltb_spec (len pre) (len (pre ++ rest))) as [Hlt|Hge].
  - destruct (dec_byte_string _) as [[bs|reason] d] eqn:E; [|discriminate]. destruct (consumes_byte_string _ _ _ _ _ E) as (s & post & -> & -> & Hbs & Es).
    assert (Hlen : 4 <= len s) by (subst s; rewrite len_app, len_to_le; pose proof (len_nonneg bs); lia).
    assert (Elen : len (pre ++ s) = len pre + len s) by apply len_app. pose proof (len_nonneg post). pose proof (len_nonneg pre).
    assert (Eall : len ((pre ++ s) ++ post) = len (pre ++ s) + len post) by apply len_app.
    assert (Hfuel : (length post < fuel)%nat) by (rewrite length_app in Hf; unfold len in Hlen; lia).
    unfold past. rewrite <- Elen. rewrite (app_assoc pre s post) in *. rewrite position_at by exact Hl.
    destruct (Z.leb_spec FRAME_TARGET_BYTES (len (pre ++ s) - start)); intros Hout.
    + eapply (IH (pre ++ s) post (len (pre ++ s)) 0); [exact Hl|exact Hfuel| |lia|lia|lia|auto|exact Hout]. apply tiles_snoc; [exact Ht|lia..].
    + eapply (IH (pre ++ s) post start (values + 1)); [exact Hl|exact Hfuel|exact Ht|lia|lia|lia|lia|exact Hout].
  - intros [= <-]. assert (rest = []) as -> by (rewrite len_app in Hge; apply nil_length_inv; unfold len in Hge; lia). rewrite app_nil_r in *.
    destruct (Z.ltb_spec 0 values); [apply tiles_snoc; [exact Ht|lia..]|]. rewrite <- H0 by lia. exact Ht.
Qed.

Lemma ok_inj {E A} (a b : A) : Ok (E:=E) a = Ok b -> a = b.
Proof. congruence. Qed.

Section frames.
Context `{Checksum} `{C : Compressors} `{!LawfulCompressors C}.

(** A frame as stored. *)
Record Stored : Type := { st_values : Z; st_raw : list byte; st_codec : Compression; st_data : list byte }.

Definition entry_of (f : Stored) : list byte :=
  to_le 4 (st_values f) ++ to_le 4 (len (st_raw f)) ++ to_le 1 (compression_tag (st_codec f)) ++ to_le 4 (len (st_data f)) ++ to_le 8 (xxh3_64 (st_data f)).

(** Its codec gives its bytes back. *)
Definition stored_ok (f : Stored) : Prop :=
  1 <= st_values f <= u32_max /\ 4 * st_values f <= len (st_raw f) /\ len (st_raw f) <= u32_max /\ len (st_data f) <= u32_max /\
  ((st_codec f = NoCompression /\ st_data f = st_raw f) \/ (st_codec f = Lz4 /\ st_data f = lz4_compress (st_raw f)) \/
   (st_codec f = Zstd /\ zstd_compress (st_raw f) = Some (st_data f))).

Lemma compress_frame_ok policy raw codec stored : compress_frame policy raw = Ok (codec, stored) ->
  (codec = NoCompression /\ stored = raw) \/ (codec = Lz4 /\ stored = lz4_compress raw) \/ (codec = Zstd /\ zstd_compress raw = Some stored).
Proof.
  unfold compress_frame. destruct policy; cbn [compress_block_for_storage]; try (destruct (materially_smaller _ _)); try (intros [= <- <-]; auto; fail).
  destruct (zstd_compress raw) eqn:E; [|discriminate]. intros [= <- <-]. auto.
Qed.

Lemma write_frames_ok policy bytes frames : Forall (fun frame => 1 <= fr_values frame /\ 4 * fr_values frame <= len (frame_raw bytes frame)) frames ->
  forall directory data directory' data', fold_result (write_frame policy bytes) (directory, data) frames = Ok (directory', data') ->
  exists stored, Forall stored_ok stored /\ map st_raw stored = map (frame_raw bytes) frames /\
    directory' = directory ++ concat (map entry_of stored) /\ data' = data ++ concat (map st_data stored).
Proof.
  induction 1 as [|frame frames [Hv1 Hv4] Hf IH]; intros directory data directory' data'; cbn [fold_result].
  { intros [= <- <-]. exists []. rewrite !app_nil_r. auto. }
  unfold mbind at 1, result_bind at 1. destruct (write_frame policy bytes (directory, data) frame) as [[d1 data1]|] eqn:Ew; [|discriminate]. intros Hrest.
  unfold write_frame, mbind, result_bind in Ew. cbn [fst snd] in Ew. change (slice bytes _ _) with (frame_raw bytes frame) in Ew.
  destruct (compress_frame policy (frame_raw bytes frame)) as [[codec stored]|] eqn:Ec; [|discriminate].
  destruct (enc_length directory _ _) as [e1|] eqn:E1; [|discriminate]. apply enc_length_ok in E1 as [L1 ->].
  destruct (enc_length _ (len (frame_raw bytes frame)) _) as [e2|] eqn:E2; [|discriminate]. apply enc_length_ok in E2 as [L2 ->].
  destruct (enc_length _ (len stored) _) as [e3|] eqn:E3; [|discriminate]. apply enc_length_ok in E3 as [L3 ->]. apply ok_inj in Ew. apply pair_equal_spec in Ew as [<- <-].
  destruct (IH _ _ _ _ Hrest) as (rest & Hs & Hr & -> & ->). exists ({| st_values := fr_values frame; st_raw := frame_raw bytes frame; st_codec := codec; st_data := stored |} :: rest).
  split; [constructor; [|exact Hs]|].
  - split; [cbn; lia|]. split; [exact Hv4|]. split; [exact L2|]. split; [exact L3|]. exact (compress_frame_ok policy _ _ _ Ec).
  - cbn [map concat st_raw st_data]. split; [now rewrite Hr|]. split; [|now rewrite app_assoc]. unfold entry_of, enc_u8, enc_u64. cbn [st_values st_raw st_codec st_data]. now rewrite <- !app_assoc.
Qed.

(** The entries a directory of stored frames is read as. *)
Fixpoint entries_of (first offset : Z) (stored : list Stored) : list FrameEntry :=
  match stored with
  | [] => []
  | f :: stored =>
      {| fe_first_value := first; fe_value_count := st_values f; fe_uncompressed_length := len (st_raw f); fe_codec := st_codec f;
         fe_stored_offset := offset; fe_stored_length := len (st_data f); fe_checksum := xxh3_64 (st_data f) |}
      :: entries_of (first + st_values f) (offset + len (st_data f)) stored
  end.

Lemma u32_of z : 0 <= z <= u32_max -> is_u32 z = true.
Proof. intros Hz. apply in_unsigned_spec. unfold u32_max in Hz. lia. Qed.

Lemma checked_or_add what a b : a + b < 2 ^ 64 -> checked_or what (checked_add 64 a b) = mret (a + b).
Proof. intros Hs. unfold checked_add. now rewrite (proj2 (Z.ltb_lt _ _) Hs). Qed.

Lemma parse_entries_decodes stored : Forall stored_ok stored -> forall first offset total, 0 <= first -> 0 <= offset -> 0 <= total ->
  first + len (concat (map st_raw stored)) < 2 ^ 64 -> offset + len (concat (map st_data stored)) < 2 ^ 64 -> total + len (concat (map st_raw stored)) < 2 ^ 64 ->
  decodes (parse_entries (length stored) first offset total) (concat (map entry_of stored)) (entries_of first offset stored, total + len (concat (map st_raw stored))).
Proof.
  induction 1 as [|f stored (Hv & H4 & Hr & Hd & Hc) Hs IH]; intros first offset total H1 H2 H3; cbn [map concat length parse_entries entries_of].
  { intros _ _ _. rewrite Z.add_0_r. apply decodes_ret. }
  rewrite !len_app. intros L1 L2 L3. pose proof (len_nonneg (st_raw f)). pose proof (len_nonneg (st_data f)).
  pose proof (len_nonneg (concat (map st_raw stored))). pose proof (len_nonneg (concat (map st_data stored))). unfold entry_of at 1. rewrite <- !app_assoc.
  eapply decodes_bind; [apply decodes_u32, u32_of; lia|]. eapply decodes_bind; [apply decodes_u32, u32_of; lia|].
  eapply decodes_bind; [apply decodes_u8; now destruct (st_codec f)|].
  assert (Hcodec : decodes (frame_codec (compression_tag (st_codec f))) [] (st_codec f)) by (destruct Hc as [[-> _]|[[-> _]|[-> _]]]; apply decodes_ret).
  eapply decodes_bind_nil; [exact Hcodec|].
  eapply decodes_bind; [apply decodes_u32, u32_of; lia|]. eapply decodes_bind; [apply decodes_u64, xxh3_64_range|].
  destruct (Z.eqb_spec (st_values f) 0); [lia|]. rewrite !checked_or_add by lia. do 3 (eapply decodes_bind_nil; [apply decodes_ret|]).
  replace (total + (len (st_raw f) + len (concat (map st_raw stored)))) with (total + len (st_raw f) + len (concat (map st_raw stored))) by lia.
  eapply decodes_bind_ret; [apply IH; lia|apply decodes_ret].
Qed.

Lemma entry_len f : len (entry_of f) = FRAME_ENTRY_BYTES.
Proof. unfold entry_of. rewrite !len_app, !len_to_le. reflexivity. Qed.

Lemma entries_len stored : len (concat (map entry_of stored)) = len stored * FRAME_ENTRY_BYTES.
Proof. induction stored as [|f stored IH]; [reflexivity|]. cbn [map concat]. rewrite len_app, entry_len, IH. unfold len. cbn [length]. lia. Qed.

(** Each frame decompresses to its bytes, from where its entry says it is. *)
Lemma decompress_one_ok f first offset data output : stored_ok f -> 0 <= offset -> slice data offset (len (st_data f)) = st_data f ->
  decompress_one output ({| fe_first_value := first; fe_value_count := st_values f; fe_uncompressed_length := len (st_raw f); fe_codec := st_codec f;
    fe_stored_offset := offset; fe_stored_length := len (st_data f); fe_checksum := xxh3_64 (st_data f) |}, slice data offset (len (st_data f))) = Ok (output ++ st_raw f).
Proof.
  intros (_ & _ & _ & _ & Hc) Ho ->. unfold decompress_one. cbn [fe_codec fe_uncompressed_length]. destruct Hc as [[-> ->]|[[-> ->]|[-> Hz]]].
  - rewrite Z.eqb_refl. unfold mbind, result_bind. now rewrite Z.eqb_refl.
  - rewrite lz4_law. unfold mbind, result_bind. now rewrite Z.eqb_refl.
  - rewrite zstd_context_law, (zstd_buffer_law _ _ Hz). cbn [negb]. unfold mbind, result_bind. now rewrite Z.eqb_refl.
Qed.

Lemma slice_app {A} (pre x post : list A) : slice (pre ++ x ++ post) (len pre) (len x) = x.
Proof. unfold slice, len. rewrite !Nat2Z.id, drop_app_length. apply take_app_length. Qed.

Lemma decompress_all_ok stored : Forall stored_ok stored -> forall first pre output,
  fold_result decompress_one output
    (map (fun entry => (entry, slice (pre ++ concat (map st_data stored)) (fe_stored_offset entry) (fe_stored_length entry))) (entries_of first (len pre) stored))
  = Ok (output ++ concat (map st_raw stored)).
Proof.
  induction 1 as [|f stored Hf Hs IH]; intros first pre output; cbn [map concat entries_of fold_result fe_stored_offset fe_stored_length]; [now rewrite app_nil_r|].
  rewrite decompress_one_ok by (try exact Hf; try apply len_nonneg; apply slice_app). unfold mbind, result_bind.
  rewrite (app_assoc pre (st_data f)), <- len_app, IH, <- app_assoc. reflexivity.
Qed.

Lemma entries_end stored : forall first offset, match last (entries_of first offset stored) with Some entry => fe_stored_offset entry + fe_stored_length entry | None => offset end = offset + len (concat (map st_data stored)).
Proof.
  induction stored as [|f stored IH]; intros first offset; [change (offset = offset + 0); lia|]. cbn [entries_of map concat]. rewrite last_cons, len_app. specialize (IH (first + st_values f) (offset + len (st_data f))).
  destruct (last _); [rewrite IH; lia|]. cbn [fe_stored_offset fe_stored_length]. lia.
Qed.

(** The count in front of at least as many bytes as its entries take. *)
Lemma count_front w n post : 0 < w -> 0 <= n <= u32_max -> n * w <= len post -> len (to_le 4 n ++ post) < 2 ^ 63 -> fst (dec_count w (decoder_new (to_le 4 n ++ post))) = Ok n.
Proof.
  intros Hw Hn Hp Hl. unfold dec_count, mbind, Dec_bind. change (decoder_new (to_le 4 n ++ post)) with (cursor [] (to_le 4 n) post 0).
  rewrite (decodes_u32 n (u32_of n Hn) [] post 0 Hl). unfold dec_remaining, past. cbn [dec_bytes dec_position app]. rewrite len_app, len_to_le. change (len (@nil byte)) with 0.
  destruct (Z.ltb_spec ((Z.of_nat 4 + len post - (0 + Z.of_nat 4)) / w) n) as [Hlt|]; [|reflexivity].
  assert (n <= (Z.of_nat 4 + len post - (0 + Z.of_nat 4)) / w) by (apply Z.div_le_lower_bound; lia). lia.
Qed.

Lemma parse_written digest stored : Forall stored_ok stored -> len stored <= u32_max ->
  let block := to_le 4 (len stored) ++ concat (map entry_of stored) ++ to_le 8 digest ++ concat (map st_data stored) in
  len block < 2 ^ 63 -> len (concat (map st_raw stored)) < 2 ^ 63 ->
  parse_frames block (len (concat (map st_raw stored))) =
  Ok (map (fun entry => (entry, slice (concat (map st_data stored)) (fe_stored_offset entry) (fe_stored_length entry))) (entries_of 0 0 stored)).
Proof.
  intros Hs Hn block Hl Hr. pose proof (len_nonneg stored). pose proof (entries_len stored) as He. pose proof (len_nonneg (concat (map st_data stored))) as Hdata.
  pose proof (len_nonneg (concat (map st_raw stored))). assert (Hblock : len block = 4 + len stored * FRAME_ENTRY_BYTES + 8 + len (concat (map st_data stored)))
    by (unfold block; rewrite !len_app, !len_to_le, He; lia).
  assert (0 <= len stored * FRAME_ENTRY_BYTES) by (unfold FRAME_ENTRY_BYTES; lia).
  unfold parse_frames. pose proof (count_front FRAME_ENTRY_BYTES (len stored) (concat (map entry_of stored) ++ to_le 8 digest ++ concat (map st_data stored))) as Hc.
  specialize (Hc ltac:(reflexivity) ltac:(lia)). fold block in Hc. specialize (Hc ltac:(rewrite !len_app, len_to_le, He; lia) Hl).
  destruct (dec_count FRAME_ENTRY_BYTES (decoder_new block)) as [[count|] d]; [|discriminate]. cbn [fst] in Hc. apply ok_inj in Hc. subst count.
  set (directory := to_le 4 (len stored) ++ concat (map entry_of stored)). assert (Hdir : len directory = 4 + len stored * FRAME_ENTRY_BYTES) by (unfold directory; rewrite len_app, len_to_le, He; lia).
  assert (Eb : block = [] ++ directory ++ to_le 8 digest ++ concat (map st_data stored)) by (unfold block, directory; cbn [app]; now rewrite <- app_assoc).
  rewrite Eb, (get_range_app [] directory (to_le 8 digest ++ concat (map st_data stored)) 0 (4 + len stored * FRAME_ENTRY_BYTES)) by (change (len (@nil byte)) with 0; lia).
  assert (Hparse : parse_frame_directory directory (len (concat (map st_raw stored))) = Ok (entries_of 0 0 stored)).
  { assert (Hd : decodes parse_directory directory (entries_of 0 0 stored, len (concat (map st_raw stored)))).
    { unfold parse_directory, directory. apply decodes_count; [reflexivity|lia|lia|]. replace (Z.to_nat (len stored)) with (length stored) by (unfold len; lia).
      pose proof (parse_entries_decodes stored Hs 0 0 0) as Hd. rewrite !Z.add_0_l in Hd. apply Hd; lia. }
    specialize (Hd [] [] 0). unfold cursor, past in Hd. cbn [app] in Hd. rewrite app_nil_r in Hd. change (len (@nil byte)) with 0 in Hd. specialize (Hd ltac:(unfold FRAME_ENTRY_BYTES in *; lia)).
    unfold parse_frame_directory. change (decoder_new directory) with {| dec_bytes := directory; dec_position := 0; dec_base_offset := 0 |}. rewrite Hd.
    unfold dec_finish. cbn [dec_position dec_bytes]. rewrite Z.add_0_l, !Z.eqb_refl. reflexivity. }
  rewrite Hparse. unfold mbind, result_bind. cbn [app].
  assert (Eg : get_from (directory ++ to_le 8 digest ++ concat (map st_data stored)) (4 + len stored * FRAME_ENTRY_BYTES + 8) = Some (concat (map st_data stored))).
  { unfold get_from. rewrite !len_app, len_to_le, Hdir. destruct (Z.leb_spec (4 + len stored * FRAME_ENTRY_BYTES + 8) (4 + len stored * FRAME_ENTRY_BYTES + (Z.of_nat 8 + len (concat (map st_data stored))))); [|lia].
    f_equal. rewrite app_assoc, <- Hdir. apply drop_app_length'. rewrite length_app. pose proof (len_to_le 8 digest) as H8. unfold len in *. lia. }
  rewrite Eg. pose proof (entries_end stored 0 0) as Hend. rewrite Z.add_0_l in Hend. rewrite Hend, Z.eqb_refl. reflexivity.
Qed.

Lemma framed_decompresses (policy codec : Compression) (block_head bytes stored : list byte) :
  len bytes < 2 ^ 63 -> len stored < 2 ^ 63 -> compress_framed_for_storage policy block_head bytes = Ok (codec, stored) ->
  decompress_block codec stored (len bytes) = Ok bytes.
Proof.
  intros Hb Hl. assert (Hraw : decompress_block NoCompression bytes (len bytes) = Ok bytes) by (cbn [decompress_block]; now rewrite Z.eqb_refl).
  unfold compress_framed_for_storage. assert (Hcases : policy = NoCompression \/ policy = Framed \/ (policy <> NoCompression /\ policy <> Framed)) by (destruct policy; auto).
  destruct Hcases as [->|[->|[Hp1 Hp2]]]; [intros [= <- <-]; exact Hraw|discriminate|]. intros E.
  assert (E' : (frames ← split_frames (S (length bytes)) bytes (decoder_new bytes) 0 0 [];
      directory ← enc_length encoder_new (len frames) (msg "frame count" []);
      '(directory, data) ← fold_result (write_frame policy bytes) (directory, []) frames;
      let stored_block := enc_u64 directory (framed_head_digest block_head directory) ++ data in
      if bool_decide (policy = AdaptiveLz4) && negb (materially_smaller (len bytes) (len stored_block))
      then Ok (NoCompression, bytes) else Ok (Framed, stored_block)) = Ok (codec, stored)) by (destruct policy; [easy|exact E|exact E|exact E|easy]).
  clear E. unfold mbind, result_bind in E'. destruct (split_frames _ _ _ _ _ _) as [frames|] eqn:Es; [|discriminate].
  destruct (split_frames_tiles (S (length bytes)) [] bytes 0 0 [] frames) as [Htile Hvals]; cbn [app]; try (change (len (@nil byte)) with 0); try lia; try assumption; [split; [reflexivity|constructor]|].
  cbn [app] in Htile, Hvals. destruct (enc_length _ _ _) as [e1|] eqn:E1; [|discriminate]. apply enc_length_ok in E1 as [Hcount ->].
  destruct (fold_result _ _ _) as [[directory data]|] eqn:Ew; [|discriminate].
  destruct (write_frames_ok policy bytes frames Hvals _ _ _ _ Ew) as (written & Hok & Hmap & -> & ->). cbn [app encoder_new] in E'.
  destruct (_ && _); [injection E' as <- <-; exact Hraw|]. apply ok_inj, pair_equal_spec in E' as [<- <-].
  assert (Ebytes : concat (map st_raw written) = bytes) by (rewrite Hmap, Htile; apply take_ge; unfold len; lia).
  assert (Elen : len written = len frames) by (apply (f_equal length) in Hmap; rewrite !length_map in Hmap; unfold len; lia). rewrite <- Elen in *.
  cbn [decompress_block]. unfold enc_u64 in *. rewrite <- !app_assoc in *. rewrite <- Ebytes at 1.
  rewrite parse_written by (try assumption; rewrite ?Ebytes; assumption). unfold mbind, result_bind.
  pose proof (decompress_all_ok written Hok 0 [] []) as Hall. cbn [app] in Hall. change (len (@nil byte)) with 0 in Hall. rewrite Hall, Ebytes. reflexivity.
Qed.

(** C29. Whatever the policy, what a block is stored as - whole, or split into frames behind a directory - is
    decompressed to its payload. *)
Theorem stored_block_roundtrip (policy codec : Compression) (block_head bytes stored : list byte) :
  len bytes < 2 ^ 63 -> len stored < 2 ^ 63 ->
  compress_block_for_storage policy bytes = Ok (codec, stored) \/ compress_framed_for_storage policy block_head bytes = Ok (codec, stored) ->
  decompress_block codec stored (len bytes) = Ok bytes.
Proof.
  intros Hb Hl [E|E]; [|exact (framed_decompresses policy codec block_head bytes stored Hb Hl E)]. destruct policy; cbn [compress_block_for_storage] in E.
  - injection E as <- <-. cbn [decompress_block]. now rewrite Z.eqb_refl.
  - injection E as <- <-. cbn [decompress_block]. now rewrite lz4_law, Z.eqb_refl.
  - destruct (zstd_compress bytes) as [c|] eqn:Ez; [|discriminate]. injection E as <- <-. cbn [decompress_block]. now rewrite (zstd_law _ _ Ez).
  - destruct (materially_smaller _ _); injection E as <- <-; cbn [decompress_block]; [now rewrite lz4_law, Z.eqb_refl|now rewrite Z.eqb_refl].
  - discriminate.
Qed.
End frames.

(** ** Examples *)

Module FrameExamples.
#[local] Existing Instance WalExamples.example_checksum.

(** A compressor that writes a run of one byte as its length, and marks the rest. *)
Definition all_same (bytes : list byte) : bool := match bytes with [] => false | b :: rest => forallb (fun c => byte.unsigned c =? byte.unsigned b) rest end.

Definition squeeze (bytes : list byte) : list byte :=
  match bytes with
  | b :: _ => if all_same bytes then [Byte.x01; b] else Byte.x00 :: bytes
  | [] => [Byte.x00]
  end.

Definition unsqueeze (bytes : list byte) (room : Z) : option (list byte) :=
  match bytes with
  | Byte.x01 :: b :: _ => Some (replicate (Z.to_nat room) b)
  | _ :: raw => Some raw
  | [] => None
  end.

Definition squeezers : Compressors := {|
  lz4_compress := squeeze; lz4_decompress_into := unsqueeze; zstd_compress := fun bytes => Some (squeeze bytes);
  zstd_decompress := unsqueeze; zstd_decompress_to_buffer := unsqueeze; zstd_context := true |}.

Lemma unsqueeze_squeeze bytes : unsqueeze (squeeze bytes) (len bytes) = Some bytes.
Proof.
  destruct bytes as [|b bytes]; [reflexivity|]. unfold squeeze. destruct (all_same (b :: bytes)) eqn:E; [|reflexivity]. cbn [unsqueeze]. f_equal. cbn [all_same] in E.
  unfold len. rewrite Nat2Z.id. cbn [length replicate]. f_equal. induction bytes as [|c bytes IH]; [reflexivity|]. cbn [forallb length replicate] in *.
  apply andb_prop in E as [Ec E]. rewrite IH by exact E. f_equal. rewrite <- (byte.of_Z_unsigned b), <- (byte.of_Z_unsigned c). f_equal. lia.
Qed.

#[export] Instance squeezers_lawful : LawfulCompressors squeezers.
Proof. split; cbn; [exact unsqueeze_squeeze|intros bytes c [= <-]; apply unsqueeze_squeeze|intros bytes c [= <-]; apply unsqueeze_squeeze|reflexivity]. Qed.

(** Three values in one frame. *)
Definition example_text : list byte :=
  let value n := to_le 4 n ++ replicate (Z.to_nat n) Byte.x61 in value 3 ++ value 40 ++ value 0.

Definition example_stored : Compression * list byte :=
  match compress_framed_for_storage (H0 := squeezers) Zstd [] example_text with Ok r => r | Err _ => (NoCompression, []) end.

Lemma stored_block_roundtrip_witness : example_stored.1 = Framed /\ decompress_block (H0 := squeezers) example_stored.1 example_stored.2 (len example_text) = Ok example_text.
Proof.
  split; [vm_compute; reflexivity|]. apply (stored_block_roundtrip (C := squeezers) Zstd example_stored.1 [] example_text example_stored.2).
  - vm_compute. reflexivity.
  - vm_compute. reflexivity.
  - right. vm_compute. reflexivity.
Defined.
End FrameExamples.
