(* ===== verification/Merge.v ===== *)
(** * Merging segments ([src/crates/pintail-store/src/store/mod.rs])

    Which version of a key a reader sees, and the merge loop that [compact] and
    [run_background_merge] share: the winner of every key in key order, written out in
    chunks.  [latest] is the specification: the row of the highest version, the last
    one on a tie. *)

From Stdlib Require Import ZArith Lia String Sorted.
From stdpp Require Import prelude list.
From coqutil Require Import Byte.
From S2P Require Import Prelude.
From S2P Require Import Types.
From S2P Require Import Codec.
From S2P Require Import Wal.
From S2P Require Import Memtable.
From S2P Require Import Manifest.
From S2P Require Import Text.
From S2P Require Import Segment.
From S2P Require Import SegmentFile.

#[local] Open Scope Z_scope.

(** ** The version a reader sees *)

(** A later row of at least the version replaces the current one. *)
Definition better (current : option StoredRow) (row : StoredRow) : option StoredRow :=
  match current with
  | Some c => if row_version c <=? row_version row then Some row else Some c
  | None => Some row
  end.

Definition latest_step (k : PrimaryKey) (current : option StoredRow) (row : StoredRow) : option StoredRow :=
  if oeqb (row_key row) k then better current row else current.

Definition latest (k : PrimaryKey) (rows : list StoredRow) : option StoredRow := foldl (latest_step k) None rows.

(** A tombstone hides its key. *)
Definition live (row : option StoredRow) : option StoredRow :=
  match row with Some r => if row_deleted r then None else Some r | None => None end.

Definition visible (k : PrimaryKey) (rows : list StoredRow) : option StoredRow := live (latest k rows).

(** [apply_latest]: one row into a map of the latest versions. *)
Definition apply_latest (rows : list (PrimaryKey * StoredRow)) (row : StoredRow) : list (PrimaryKey * StoredRow) :=
  match omap_get (row_key row) rows with
  | Some current => if row_version current <=? row_version row then omap_insert (row_key row) row rows else rows
  | None => omap_insert (row_key row) row rows
  end.

(** ** The merge loop *)

(** The key range a merge folds: from the first key, up to and without the second. *)
Definition MergeWindow : Type := option PrimaryKey * option PrimaryKey.

Definition in_merge_window (window : option MergeWindow) (key : PrimaryKey) : bool :=
  match window with
  | None => true
  | Some (low, high) =>
      match low with Some low => oleb low key | None => true end
      && match high with Some high => oltb key high | None => true end
  end.

(** The least key at the head of a stream. *)
Definition min_step (least : option PrimaryKey) (stream : list StoredRow) : option PrimaryKey :=
  match stream with
  | [] => least
  | r :: _ =>
      match least with
      | Some k => if oltb (row_key r) k then Some (row_key r) else Some k
      | None => Some (row_key r)
      end
  end.

Definition min_head (streams : list (list StoredRow)) : option PrimaryKey := foldl min_step None streams.

(** Taking every row of the key off one stream, then off all of them. *)
Fixpoint drain (k : PrimaryKey) (winner : option StoredRow) (stream : list StoredRow)
    : option StoredRow * list StoredRow :=
  match stream with
  | r :: rest => if oeqb (row_key r) k then drain k (better winner r) rest else (winner, stream)
  | [] => (winner, [])
  end.

Fixpoint drain_all (k : PrimaryKey) (winner : option StoredRow) (streams : list (list StoredRow))
    : option StoredRow * list (list StoredRow) :=
  match streams with
  | [] => (winner, [])
  | s :: streams =>
      let '(winner, s) := drain k winner s in
      let '(winner, streams) := drain_all k winner streams in
      (winner, s :: streams)
  end.

(** What a merge is asked to do, and the bounds of its output. *)
Record merge_spec : Type := {
  ms_schema : TableSchema;
  ms_block_rows : Z;
  ms_row_limit : Z;
  ms_byte_limit : Z;
  ms_drop_tombstones : bool;
  ms_window : option MergeWindow
}.

(** The buffer, the next segment id, the segments written and the directory. *)
Record merge_state : Type := {
  mg_rows : list StoredRow;
  mg_bytes : Z;
  mg_inside : bool;
  mg_next_id : Z;
  mg_outputs : list SegmentFacts;
  mg_output_rows : Z;
  mg_dir : Directory
}.

Section merge.
Context `{Checksum} `{BlockSketches} `{Layout}.
Variable spec : merge_spec.
(** The outcome of the n-th segment write. *)
Variable io : nat -> segment_io.

Definition not_deleted (r : StoredRow) : bool := negb (row_deleted r).

(** [write_chunk] and [write_compaction_chunk], with the buffer emptied after it. *)
Definition write_chunk (st : merge_state) : result StoreError unit * merge_state :=
  let '(r, dir) := write_segment (mg_dir st) (mg_next_id st) (ms_schema spec) (mg_rows st) (ms_block_rows spec)
                     (forallb not_deleted (mg_rows st)) (io (length (mg_outputs st))) in
  let st' := {| mg_rows := mg_rows st; mg_bytes := mg_bytes st; mg_inside := mg_inside st;
                mg_next_id := mg_next_id st; mg_outputs := mg_outputs st;
                mg_output_rows := mg_output_rows st; mg_dir := dir |} in
  match r with
  | Err e => (Err e, st')
  | Ok meta =>
      match checked_add 64 (mg_next_id st) 1 with
      | None => (Err SequenceOverflow, st')
      | Some next_id =>
          (Ok tt, {| mg_rows := []; mg_bytes := 0; mg_inside := mg_inside st; mg_next_id := next_id;
                     mg_outputs := mg_outputs st ++ [meta]; mg_output_rows := mg_output_rows st; mg_dir := dir |})
      end
  end.

Definition is_some {A} (o : option A) : bool := match o with Some _ => true | None => false end.

Definition no_rows (rows : list StoredRow) : bool := match rows with [] => true | _ => false end.

(** A windowed merge closes its output at each boundary of the window. *)
Definition cross_boundary (inside : bool) (st : merge_state) : result StoreError unit * merge_state :=
  if is_some (ms_window spec) && negb (Bool.eqb inside (mg_inside st)) && negb (no_rows (mg_rows st))
  then write_chunk st else (Ok tt, st).

(** Whether deletes of the key are dropped. *)
Definition drops (key : PrimaryKey) : bool :=
  if is_some (ms_window spec) then in_merge_window (ms_window spec) key else ms_drop_tombstones spec.

Definition push_row (inside : bool) (winner : StoredRow) (st : merge_state) : merge_state :=
  if negb (drops (row_key winner)) || not_deleted winner then
    {| mg_rows := mg_rows st ++ [winner]; mg_bytes := sat_add 64 (mg_bytes st) (estimated_bytes winner);
       mg_inside := inside; mg_next_id := mg_next_id st; mg_outputs := mg_outputs st;
       mg_output_rows := sat_add 64 (mg_output_rows st) 1; mg_dir := mg_dir st |}
  else
    {| mg_rows := mg_rows st; mg_bytes := mg_bytes st; mg_inside := inside; mg_next_id := mg_next_id st;
       mg_outputs := mg_outputs st; mg_output_rows := mg_output_rows st; mg_dir := mg_dir st |}.

(** One winner. *)
Definition emit (winner : StoredRow) (st : merge_state) : result StoreError unit * merge_state :=
  let inside := in_merge_window (ms_window spec) (row_key winner) in
  match cross_boundary inside st with
  | (Err e, st) => (Err e, st)
  | (Ok _, st) =>
      let st := push_row inside winner st in
      if (ms_row_limit spec <=? len (mg_rows st)) || (ms_byte_limit spec <=? mg_bytes st)
      then write_chunk st else (Ok tt, st)
  end.

(** The loop; [yields n] is whether the n-th turn finds the merge asked to stop.  Each
    turn takes a row off some stream, so the rows of the streams bound the turns. *)
Fixpoint merge_loop (fuel : nat) (yields : nat -> bool) (streams : list (list StoredRow)) (st : merge_state)
    : result StoreError unit * merge_state :=
  match min_head streams with
  | None => (Ok tt, st)
  | Some minimum =>
      match fuel with
      | O => (Err (FormatLimit (msg "merge fuel" [])), st)
      | S fuel =>
          if yields O then (Err (Io (msg "background merge" [])), st)
          else
            match drain_all minimum None streams with
            | (None, _) => (Err (FormatLimit (msg "compaction minimum has no winning row" [])), st)
            | (Some winner, streams) =>
                match emit winner st with
                | (Err e, st) => (Err e, st)
                | (Ok _, st) => merge_loop fuel (fun n => yields (S n)) streams st
                end
            end
      end
  end.

Definition total_rows (streams : list (list StoredRow)) : nat := length (concat streams).

(** The whole merge, with its last partial chunk. *)
Definition merge_streams (yields : nat -> bool) (streams : list (list StoredRow)) (id_base : Z) (dir : Directory)
    : result StoreError unit * merge_state :=
  let start := {| mg_rows := []; mg_bytes := 0; mg_inside := false; mg_next_id := id_base; mg_outputs := [];
                  mg_output_rows := 0; mg_dir := dir |} in
  match merge_loop (total_rows streams) yields streams start with
  | (Err e, st) => (Err e, st)
  | (Ok _, st) => if no_rows (mg_rows st) then (Ok tt, st) else write_chunk st
  end.

(** Opening the inputs, then the merge. *)
Definition open_streams (dir : Directory) (metas : list SegmentFacts) : result StoreError (list (list StoredRow)) :=
  map_result (read_rows dir (ms_schema spec)) metas.

Definition run_background_merge (yields : nat -> bool) (inputs : list SegmentFacts) (id_base : Z) (dir : Directory)
    : result StoreError (list SegmentFacts) * Directory :=
  match open_streams dir inputs with
  | Err e => (Err e, dir)
  | Ok streams =>
      match merge_streams yields streams id_base dir with
      | (Err e, st) => (Err e, mg_dir st)
      | (Ok _, st) => (Ok (mg_outputs st), mg_dir st)
      end
  end.

End merge.

(** ** The latest version of a key *)

Definition key_is (k : PrimaryKey) (r : StoredRow) : bool := oeqb (row_key r) k.
Definition key_not (k : PrimaryKey) (r : StoredRow) : bool := negb (oeqb (row_key r) k).

Lemma latest_app k l1 l2 : latest k (l1 ++ l2) = foldl (latest_step k) (latest k l1) l2.
Proof. apply foldl_app. Qed.

(** Rows of other keys do not matter. *)
Lemma latest_fold_absent k w l : (forall r, In r l -> row_key r <> k) -> foldl (latest_step k) w l = w.
Proof.
  revert w; induction l as [|r l IH]; intros w Hl; [easy|]. cbn [foldl]. unfold latest_step at 2.
  destruct (oeqb (row_key r) k) eqn:E; [apply oeqb_spec in E; now destruct (Hl r (or_introl eq_refl))|].
  apply IH. intros x Hx. apply Hl. now right.
Qed.

Lemma latest_fold_filter k w p l :
  (forall r, In r l -> row_key r = k -> p r = true) ->
  foldl (latest_step k) w (List.filter p l) = foldl (latest_step k) w l.
Proof.
  revert w; induction l as [|r l IH]; intros w Hl; [easy|]. cbn [List.filter foldl].
  assert (Hl' : forall x, In x l -> row_key x = k -> p x = true) by (intros x Hx; apply Hl; now right).
  destruct (p r) eqn:Ep; cbn [foldl]; [now apply IH|]. unfold latest_step at 3.
  destruct (oeqb (row_key r) k) eqn:E; [|now apply IH]. apply oeqb_spec in E.
  now rewrite (Hl r (or_introl eq_refl) E) in Ep.
Qed.

Lemma latest_fold_some k w l : w <> None -> foldl (latest_step k) w l <> None.
Proof.
  revert w; induction l as [|r l IH]; intros w Hw; [easy|]. cbn [foldl]. apply IH. unfold latest_step, better.
  destruct (oeqb _ _); [|easy]. destruct w; [|easy]. now destruct (_ <=? _).
Qed.

Lemma latest_fold_in k w l r : foldl (latest_step k) w l = Some r -> w = Some r \/ (In r l /\ row_key r = k).
Proof.
  revert w; induction l as [|x l IH]; intros w Hf; [now left|]. cbn [foldl] in Hf. apply IH in Hf as [Hf|[Hf E]];
    [|right; split; [now right|easy]]. unfold latest_step in Hf. destruct (oeqb (row_key x) k) eqn:E; [|now left].
  apply oeqb_spec in E. unfold better in Hf. destruct w as [c|]; [destruct (_ <=? _)|]; try (now left);
    injection Hf as <-; right; split; try easy; now left.
Qed.

Lemma latest_in k l r : latest k l = Some r -> In r l /\ row_key r = k.
Proof. intros [?|?]%latest_fold_in; [discriminate|easy]. Qed.

Lemma latest_none k l : latest k l = None -> forall r, In r l -> row_key r <> k.
Proof.
  unfold latest. intros Hl r Hr E. apply in_split in Hr as (l1 & l2 & ->). rewrite foldl_app in Hl. cbn [foldl] in Hl.
  apply (latest_fold_some k) in Hl; [easy|]. unfold latest_step. rewrite (proj2 (oeqb_spec _ _) E).
  unfold better. destruct (foldl _ None l1); [|easy]. now destruct (_ <=? _).
Qed.

(** [apply_latest] keeps, for every key, its latest row. *)
Lemma apply_latest_get rows row k :
  omap_get k (apply_latest rows row) = latest_step k (omap_get k rows) row.
Proof.
  unfold apply_latest, latest_step. destruct (oeqb (row_key row) k) eqn:E.
  - apply oeqb_spec in E as <-. unfold better. destruct (omap_get (row_key row) rows) as [c|] eqn:Ec.
    + destruct (_ <=? _); [apply omap_get_insert_eq|easy].
    + apply omap_get_insert_eq.
  - assert (Hne : k <> row_key row) by (intros ->; now rewrite (proj2 (oeqb_spec _ _) eq_refl) in E).
    destruct (omap_get (row_key row) rows) as [c|]; [destruct (_ <=? _); [|easy]|]; now apply omap_get_insert_ne.
Qed.

Lemma apply_latest_all rows m k :
  omap_get k (foldl apply_latest m rows) = foldl (latest_step k) (omap_get k m) rows.
Proof.
  revert m; induction rows as [|r rows IH]; intros m; [easy|]. cbn [foldl]. now rewrite IH, apply_latest_get.
Qed.

(** ** One turn of the merge *)

(** Streams in key order whose keys start at [k]. *)
Definition from_key (k : PrimaryKey) (rows : list StoredRow) : Prop := Forall (fun r => ole k (row_key r)) rows.

Lemma key_sorted_cons r rows : key_sorted (r :: rows) <-> key_sorted rows /\ from_key (row_key r) rows.
Proof. unfold key_sorted, from_key. split; [apply StronglySorted_inv|intros []; now constructor]. Qed.

Lemma key_sorted_filter p rows : key_sorted rows -> key_sorted (List.filter p rows).
Proof.
  induction rows as [|r rows IH]; intros Hs; [easy|]. apply key_sorted_cons in Hs as [Hs Hf]. cbn [List.filter].
  destruct (p r); [|now apply IH]. apply key_sorted_cons. split; [now apply IH|]. apply List.Forall_forall.
  intros x Hx. apply filter_In in Hx as [Hx _]. exact (proj1 (List.Forall_forall _ _) Hf _ Hx).
Qed.

Lemma drain_spec k w s :
  key_sorted s -> from_key k s -> drain k w s = (foldl (latest_step k) w s, List.filter (key_not k) s).
Proof.
  revert w; induction s as [|r s IH]; intros w Hs Hk; [easy|]. apply key_sorted_cons in Hs as [Hs Hf].
  apply Forall_cons in Hk as [Hr Hk]. cbn [drain foldl List.filter]. unfold latest_step at 2, key_not at 1.
  destruct (oeqb (row_key r) k) eqn:E; cbn [negb].
  - now apply IH.
  - assert (Hlt : olt k (row_key r)).
    { apply ole_lt_eq in Hr as [Hr|Hr]; [easy|]. subst k. now rewrite (proj2 (oeqb_spec _ _) eq_refl) in E. }
    assert (Hne : forall x, In x s -> row_key x <> k).
    { intros x Hx E'. subst k. apply olt_not_le in Hlt. apply Hlt. exact (proj1 (List.Forall_forall _ _) Hf _ Hx). }
    rewrite latest_fold_absent by easy. f_equal. f_equal. symmetry. apply forallb_filter_id. apply forallb_forall.
    intros x Hx. unfold key_not. destruct (oeqb (row_key x) k) eqn:Ex; [|easy]. apply oeqb_spec in Ex.
    now destruct (Hne x Hx).
Qed.

Definition sorted_streams (streams : list (list StoredRow)) : Prop := Forall key_sorted streams.

Lemma drain_all_spec k w streams :
  sorted_streams streams -> Forall (from_key k) streams ->
  drain_all k w streams = (foldl (latest_step k) w (concat streams), map (List.filter (key_not k)) streams).
Proof.
  revert w; induction streams as [|s streams IH]; intros w Hs Hk; [easy|].
  apply Forall_cons in Hs as [Hs Hss]. apply Forall_cons in Hk as [Hk Hks]. cbn [drain_all concat map].
  rewrite (drain_spec k w s Hs Hk), (IH _ Hss Hks), foldl_app. reflexivity.
Qed.

Lemma min_head_fold least streams :
  sorted_streams streams ->
  match foldl min_step least streams with
  | None => least = None /\ concat streams = []
  | Some k =>
      match least with Some l => ole k l | None => True end /\ Forall (from_key k) streams /\
      (least = Some k \/ exists r, In r (concat streams) /\ row_key r = k)
  end.
Proof.
  revert least; induction streams as [|s streams IH]; intros least Hs.
  { cbn [foldl]. destruct least; [|easy]. split; [apply ole_refl|]. split; [constructor|now left]. }
  apply Forall_cons in Hs as [Hs Hss]. cbn [foldl]. specialize (IH (min_step least s) Hss).
  destruct (foldl min_step (min_step least s) streams) as [k|].
  - destruct IH as (Hl & Hk & Hin). destruct s as [|r s]; cbn [min_step] in *.
    { split; [easy|]. split; [constructor; [constructor|easy]|easy]. }
    apply key_sorted_cons in Hs as [_ Hf].
    assert (Hr : ole k (row_key r) /\ match least with Some l => ole k l | None => True end).
    { destruct least as [l|]; [|easy]. destruct (oltb (row_key r) l) eqn:E; [|apply oltb_false in E].
      - apply oltb_spec, olt_le in E. split; [easy|]. now apply (ole_trans _ (row_key r)).
      - split; [|easy]. now apply (ole_trans _ l). }
    split; [easy|]. split.
    + constructor; [|easy]. constructor; [easy|]. eapply Forall_impl; [exact Hf|]. intros x Hx. cbn in Hx.
      now apply (ole_trans _ (row_key r)).
    + destruct Hin as [Hin|(x & Hx & E)].
      * destruct least as [l|]; [destruct (oltb _ _); [|now left]|]; injection Hin as <-; right; exists r; (split; [now left|easy]).
      * right. exists x. split; [|easy]. cbn [concat]. apply in_or_app. now right.
  - destruct IH as [Hl He]. destruct s as [|r s]; cbn [min_step] in Hl; [easy|].
    destruct least; [now destruct (oltb _ _)|easy].
Qed.

Lemma min_head_none streams : sorted_streams streams -> min_head streams = None -> concat streams = [].
Proof. intros Hs Hm. pose proof (min_head_fold None streams Hs) as H. unfold min_head in Hm. rewrite Hm in H. apply H. Qed.

Lemma min_head_some streams k :
  sorted_streams streams -> min_head streams = Some k ->
  Forall (from_key k) streams /\ exists r, In r (concat streams) /\ row_key r = k.
Proof.
  intros Hs Hm. pose proof (min_head_fold None streams Hs) as H. unfold min_head in Hm. rewrite Hm in H.
  destruct H as (_ & Hk & [H|H]); [easy|auto].
Qed.

(** ** The winners *)

(** The winners in the order the loop takes them. *)
Fixpoint winners_of (fuel : nat) (streams : list (list StoredRow)) : list StoredRow :=
  match min_head streams, fuel with
  | Some k, S fuel =>
      match latest k (concat streams) with
      | Some w => w :: winners_of fuel (map (List.filter (key_not k)) streams)
      | None => []
      end
  | _, _ => []
  end.

Definition winners (streams : list (list StoredRow)) : list StoredRow := winners_of (total_rows streams) streams.

Lemma concat_filter {A} (p : A -> bool) (streams : list (list A)) :
  concat (map (List.filter p) streams) = List.filter p (concat streams).
Proof. induction streams as [|s streams IH]; [easy|]. cbn [map concat]. now rewrite IH, List.filter_app. Qed.

Lemma sorted_streams_filter p streams : sorted_streams streams -> sorted_streams (map (List.filter p) streams).
Proof. intros Hs. apply Forall_fmap. eapply Forall_impl; [exact Hs|]. intros s. apply key_sorted_filter. Qed.

Lemma filter_shrinks k rows r :
  In r rows -> row_key r = k -> (length (List.filter (key_not k) rows) < length rows)%nat.
Proof.
  intros Hr E. induction rows as [|x rows IH]; [easy|]. cbn [List.filter length].
  destruct Hr as [->|Hr].
  - unfold key_not at 1. rewrite (proj2 (oeqb_spec _ _) E). cbn [negb]. pose proof (filter_length_le (key_not k) rows). lia.
  - specialize (IH Hr). destruct (key_not k x); cbn [length]; lia.
Qed.

(** What one turn leaves: fewer rows, and every other key's version. *)
Lemma turn streams k :
  sorted_streams streams -> min_head streams = Some k ->
  let rest := map (List.filter (key_not k)) streams in
  (exists w, latest k (concat streams) = Some w /\ row_key w = k /\ In w (concat streams)) /\
  sorted_streams rest /\ (total_rows rest < total_rows streams)%nat /\
  (forall r, In r (concat rest) -> olt k (row_key r)) /\
  (forall r, In r (concat rest) -> In r (concat streams)) /\
  (forall k', k' <> k -> latest k' (concat rest) = latest k' (concat streams)) /\ latest k (concat rest) = None.
Proof.
  intros Hs Hm rest. destruct (min_head_some streams k Hs Hm) as (Hk & r & Hr & E).
  assert (Hc : concat rest = List.filter (key_not k) (concat streams)) by apply concat_filter.
  split; [|split; [now apply sorted_streams_filter|split; [unfold total_rows; rewrite Hc; now apply (filter_shrinks _ _ r)|]]].
  - destruct (latest k (concat streams)) as [w|] eqn:Ew; [|now destruct (latest_none _ _ Ew r Hr)].
    destruct (latest_in _ _ _ Ew). eauto.
  - rewrite Hc. split; [|split; [|split]].
    + intros x [Hx Hn]%filter_In. unfold key_not in Hn. apply in_concat in Hx as (s & Hs' & Hx).
      rewrite Forall_forall in Hk. specialize (Hk s (proj2 (list_elem_of_In _ _) Hs')). unfold from_key in Hk.
      rewrite Forall_forall in Hk. specialize (Hk x (proj2 (list_elem_of_In _ _) Hx)).
      apply ole_lt_eq in Hk as [Hk| ->]; [easy|]. now rewrite (proj2 (oeqb_spec _ _) eq_refl) in Hn.
    + now intros x [Hx _]%filter_In.
    + intros k' Hne. apply latest_fold_filter. intros x _ <-. unfold key_not.
      destruct (oeqb (row_key x) k) eqn:Ex; [|easy]. now apply oeqb_spec in Ex.
    + apply latest_fold_absent. intros x [_ Hx]%filter_In <-. unfold key_not in Hx.
      now rewrite (proj2 (oeqb_spec _ _) eq_refl) in Hx.
Qed.

Definition key_ascending (rows : list StoredRow) : Prop := StronglySorted (fun a b => olt (row_key a) (row_key b)) rows.

Lemma winners_of_spec fuel streams :
  sorted_streams streams -> (total_rows streams <= fuel)%nat ->
  key_ascending (winners_of fuel streams) /\ (forall w, In w (winners_of fuel streams) -> In w (concat streams)) /\
  (forall k, latest k (winners_of fuel streams) = latest k (concat streams)).
Proof.
  revert streams; induction fuel as [|fuel IH]; intros streams Hs Hf; cbn [winners_of].
  { unfold total_rows in Hf. destruct (concat streams) eqn:E; [|cbn in Hf; lia].
    destruct (min_head streams); (split; [constructor|easy]). }
  destruct (min_head streams) as [k|] eqn:Em.
  2:{ rewrite (min_head_none _ Hs Em). split; [constructor|easy]. }
  destruct (turn streams k Hs Em) as ((w & Ew & Ek & Hw) & Hs' & Hlt & Hgt & Hin & Hne & Heq). rewrite Ew.
  destruct (IH _ Hs') as (A1 & A2 & A3); [lia|].
  split; [|split].
  - constructor; [easy|]. apply List.Forall_forall. intros x Hx. rewrite Ek. now apply Hgt, A2.
  - intros x [<-|Hx]; [easy|]. now apply Hin, A2.
  - intros k'. unfold latest. cbn [foldl]. unfold latest_step at 2. destruct (oeqb (row_key w) k') eqn:E.
    + apply oeqb_spec in E. subst k' k. cbn [better]. rewrite latest_fold_absent; [easy|].
      intros x Hx Ex. apply A2, Hgt in Hx. rewrite Ex in Hx. now apply olt_irrefl in Hx.
    + fold (latest k' (winners_of fuel (map (List.filter (key_not k)) streams))). rewrite A3. apply Hne. intros ->.
      rewrite <- Ek in E. now rewrite (proj2 (oeqb_spec _ _) eq_refl) in E.
Qed.

Lemma winners_spec streams :
  sorted_streams streams ->
  key_ascending (winners streams) /\ (forall w, In w (winners streams) -> In w (concat streams)) /\
  (forall k, latest k (winners streams) = latest k (concat streams)).
Proof. intros Hs. now apply winners_of_spec. Qed.

Lemma key_ascending_cons r rows :
  key_ascending (r :: rows) <-> key_ascending rows /\ (forall x, In x rows -> olt (row_key r) (row_key x)).
Proof.
  unfold key_ascending. split.
  - intros [Hs Hf]%StronglySorted_inv. split; [easy|]. now apply List.Forall_forall.
  - intros [Hs Hf]. constructor; [easy|]. now apply List.Forall_forall.
Qed.

Lemma key_ascending_filter p rows : key_ascending rows -> key_ascending (List.filter p rows).
Proof.
  induction rows as [|r rows IH]; intros Hs; [easy|]. apply key_ascending_cons in Hs as [Hs Hf]. cbn [List.filter].
  destruct (p r); [|now apply IH]. apply key_ascending_cons. split; [now apply IH|]. intros x [Hx _]%filter_In. auto.
Qed.

Lemma key_ascending_sorted rows : key_ascending rows -> key_sorted rows.
Proof.
  induction rows as [|r rows IH]; intros Hs; [constructor|]. apply key_ascending_cons in Hs as [Hs Hf].
  apply key_sorted_cons. split; [now apply IH|]. apply List.Forall_forall. intros x Hx. now apply olt_le, Hf.
Qed.

Lemma key_ascending_app l1 l2 :
  key_ascending (l1 ++ l2) <->
  key_ascending l1 /\ key_ascending l2 /\ (forall a b, In a l1 -> In b l2 -> olt (row_key a) (row_key b)).
Proof.
  induction l1 as [|x l1 IH].
  { cbn [app]. split; [|tauto]. intros Hs. split; [constructor|easy]. }
  cbn [app]. rewrite !key_ascending_cons, IH. split.
  - intros ((A & B & C) & D). split; [|split; [easy|]]. 
    + split; [easy|]. intros y Hy. apply D, in_or_app. now left.
    + intros a b [<-|Ha] Hb; [apply D, in_or_app; now right|now apply C].
  - intros ((A & D) & B & C). split; [split; [easy|split; [easy|]]|].
    + intros a b Ha. apply C. now right.
    + intros y [Hy|Hy]%in_app_or; [now apply D|apply C; [now left|easy]].
Qed.

(** With one row a key, a filter keeps a key's row or leaves the key out. *)
Lemma latest_filter_ascending p rows k :
  key_ascending rows ->
  latest k (List.filter p rows) = match latest k rows with Some w => if p w then Some w else None | None => None end.
Proof.
  induction rows as [|r rows IH]; intros Hs; [easy|]. apply key_ascending_cons in Hs as [Hs Hf].
  destruct (oeqb (row_key r) k) eqn:E.
  - assert (Hno : forall x, In x rows -> row_key x <> k).
    { intros x Hx Ex. apply oeqb_spec in E. specialize (Hf x Hx). rewrite E, Ex in Hf. now apply olt_irrefl in Hf. }
    assert (Hr : latest k (r :: rows) = Some r).
    { unfold latest. cbn [foldl]. unfold latest_step at 2. rewrite E. cbn [better]. now apply latest_fold_absent. }
    rewrite Hr. cbn [List.filter]. destruct (p r).
    + unfold latest. cbn [foldl]. unfold latest_step at 2. rewrite E. cbn [better]. apply latest_fold_absent.
      intros x [Hx _]%filter_In. now apply Hno.
    + apply latest_fold_absent. intros x [Hx _]%filter_In. now apply Hno.
  - assert (Hr : forall l, latest k (r :: l) = latest k l).
    { intros l. unfold latest. cbn [foldl]. unfold latest_step at 2. now rewrite E. }
    rewrite Hr, <- (IH Hs). cbn [List.filter]. destruct (p r); [apply Hr|easy].
Qed.

Lemma winners_length streams : sorted_streams streams -> len (winners streams) <= len (concat streams).
Proof.
  intros Hs. destruct (winners_spec streams Hs) as (Ha & Hin & _). unfold len. apply inj_le, NoDup_incl_length; [|exact Hin].
  clear Hin. induction (winners streams) as [|w ws IH]; [constructor|]. apply key_ascending_cons in Ha as [Ha Hf].
  constructor; [|now apply IH]. intros Hw. now apply Hf, olt_irrefl in Hw.
Qed.

(** ** The loop emits the winners *)

Section loop.
Context `{Checksum} `{BlockSketches} `{Layout}.
Variable spec : merge_spec.
Variable io : nat -> segment_io.

Fixpoint emit_all (yields : nat -> bool) (ws : list StoredRow) (st : merge_state) : result StoreError unit * merge_state :=
  match ws with
  | [] => (Ok tt, st)
  | w :: ws =>
      if yields O then (Err (Io (msg "background merge" [])), st)
      else
        match emit spec io w st with
        | (Err e, st) => (Err e, st)
        | (Ok _, st) => emit_all (fun n => yields (S n)) ws st
        end
  end.

Lemma merge_loop_winners fuel yields streams st :
  sorted_streams streams -> (total_rows streams <= fuel)%nat ->
  merge_loop spec io fuel yields streams st = emit_all yields (winners_of fuel streams) st.
Proof.
  revert yields streams st; induction fuel as [|fuel IH]; intros yields streams st Hs Hf; cbn [merge_loop winners_of].
  { destruct (min_head streams) as [k|] eqn:Em; [|easy]. destruct (min_head_some _ _ Hs Em) as (_ & r & Hr & _).
    unfold total_rows in Hf. destruct (concat streams); [easy|cbn in Hf; lia]. }
  destruct (min_head streams) as [k|] eqn:Em; [|easy]. destruct (min_head_some _ _ Hs Em) as (Hk & _).
  destruct (turn streams k Hs Em) as ((w & Ew & _) & Hs' & Hlt & _). rewrite (drain_all_spec k None streams Hs Hk).
  fold (latest k (concat streams)). rewrite Ew. cbn [emit_all]. destruct (yields O); [easy|].
  destruct (emit spec io w st) as [[|e] st']; [|easy]. apply IH; [easy|lia].
Qed.

(** What the loop keeps of the winners. *)
Definition kept (w : StoredRow) : bool := negb (drops spec (row_key w)) || not_deleted w.

Definition start_state (id_base : Z) (dir : Directory) : merge_state := {|
  mg_rows := []; mg_bytes := 0; mg_inside := false; mg_next_id := id_base; mg_outputs := [];
  mg_output_rows := 0; mg_dir := dir |}.

Lemma merge_streams_winners yields streams id_base dir :
  sorted_streams streams ->
  merge_streams spec io yields streams id_base dir =
  match emit_all yields (winners streams) (start_state id_base dir) with
  | (Err e, st) => (Err e, st)
  | (Ok _, st) => if no_rows (mg_rows st) then (Ok tt, st) else write_chunk spec io st
  end.
Proof. intros Hs. unfold merge_streams. now rewrite merge_loop_winners. Qed.

(** ** The chunks *)

Definition good (r : StoredRow) : Prop := durable_row r = r /\ row_fits (ms_schema spec) r.

(** No chunk lies on both sides of a boundary of the window. *)
Definition one_sided (inside : bool) (rows : list StoredRow) : Prop :=
  is_some (ms_window spec) = true -> Forall (fun r => in_merge_window (ms_window spec) (row_key r) = inside) rows.

(** A segment written from [chunk]. *)
Record chunk_ok (dir : Directory) (meta : SegmentFacts) (chunk : list StoredRow) : Prop := {
  chunk_facts : segment_facts (seg_id meta) (ms_schema spec) chunk (ms_block_rows spec) (forallb not_deleted chunk) = Ok meta;
  chunk_reads : read_rows dir (ms_schema spec) meta = Ok chunk;
  chunk_size : 1 <= len chunk <= ms_row_limit spec;
  chunk_side : exists inside, one_sided inside chunk
}.

(** After the winners [ws]: the segments and the buffer hold what is kept of them. *)
Record merged (id_base : Z) (dir : Directory) (buffer : Z) (ws : list StoredRow) (st : merge_state) : Prop := {
  merged_chunks : exists chunks, Forall2 (chunk_ok (mg_dir st)) (mg_outputs st) chunks /\
                    concat chunks ++ mg_rows st = List.filter kept ws;
  merged_ids : map seg_id (mg_outputs st) = seqZ id_base (len (mg_outputs st));
  merged_next : mg_next_id st = id_base + len (mg_outputs st) /\ mg_next_id st < 2 ^ 64;
  merged_buffer : len (mg_rows st) <= buffer;
  merged_side : one_sided (mg_inside st) (mg_rows st);
  merged_dir : forall name, (forall id, id_base <= id < mg_next_id st -> name <> segment_file_name id) ->
                 omap_get name (mg_dir st) = omap_get name dir;
  merged_count : mg_output_rows st = Z.min (2 ^ 64 - 1) (len (List.filter kept ws))
}.

Hypothesis schema_good : schema_ok (ms_schema spec).
Hypothesis limit_positive : 1 <= ms_row_limit spec.

Lemma segment_file_name_inj a b :
  0 <= a < 10 ^ 20 -> 0 <= b < 10 ^ 20 -> segment_file_name a = segment_file_name b -> a = b.
Proof.
  intros Ha Hb. unfold segment_file_name. intros E%app_inv_head%app_inv_tail.
  destruct (dec_padded_spec 20 a) as (_ & <- & _); [lia|easy|]. destruct (dec_padded_spec 20 b) as (_ & <- & _); [lia|easy|].
  now rewrite E.
Qed.

Lemma facts_id id rows meta unique :
  segment_facts id (ms_schema spec) rows (ms_block_rows spec) unique = Ok meta ->
  seg_id meta = id /\ seg_file_name meta = segment_file_name id.
Proof. intros (first & rest & bloom & _ & _ & ->)%segment_facts_inv. easy. Qed.

Lemma write_chunk_inv st st' :
  write_chunk spec io st = (Ok tt, st') ->
  exists meta f,
    segment_facts (mg_next_id st) (ms_schema spec) (mg_rows st) (ms_block_rows spec) (forallb not_deleted (mg_rows st)) = Ok meta /\
    write_file (ms_schema spec) meta (mg_rows st) = Ok f /\ mg_next_id st + 1 < 2 ^ 64 /\
    st' = {| mg_rows := []; mg_bytes := 0; mg_inside := mg_inside st; mg_next_id := mg_next_id st + 1;
             mg_outputs := mg_outputs st ++ [meta]; mg_output_rows := mg_output_rows st;
             mg_dir := omap_insert (segment_file_name (mg_next_id st)) f (mg_dir st) |}.
Proof.
  unfold write_chunk, write_segment. destruct (segment_facts _ _ _ _ _) as [meta|] eqn:Em; [|easy].
  destruct (write_file _ _ _) as [f|] eqn:Ef; [|easy]. destruct (io _); [|easy..].
  unfold checked_add. destruct (Z.ltb_spec (mg_next_id st + 1) (2 ^ 64)); [|easy].
  intros [= <-]. exists meta, f. split; [easy|]. split; [easy|]. split; [lia|].
  now destruct (facts_id _ _ _ _ Em) as [_ ->].
Qed.

Section invariant.
Variables (id_base : Z) (dir : Directory).
Hypothesis id_base_ok : 0 <= id_base.

Lemma filter_kept_good ws : Forall good ws -> Forall good (List.filter kept ws).
Proof. intros Hg. apply List.Forall_forall. intros r [Hr _]%filter_In. exact (proj1 (List.Forall_forall _ _) Hg _ Hr). Qed.

Lemma durable_all rows : Forall good rows -> map durable_row rows = rows.
Proof. induction 1 as [|r rows [Hr _] _ IH]; [easy|]. cbn [map]. now rewrite Hr, IH. Qed.

(** A write keeps the segments already written. *)
Lemma chunk_ok_insert d meta chunk id f :
  chunk_ok d meta chunk -> 0 <= seg_id meta < id -> id < 10 ^ 20 ->
  chunk_ok (omap_insert (segment_file_name id) f d) meta chunk.
Proof.
  intros [Hf Hr Hs Hi] Hlt Hid. split; [easy| |easy..]. unfold read_rows in *.
  destruct (facts_id _ _ _ _ Hf) as [_ Hn]. rewrite Hn in *. rewrite omap_get_insert_ne; [easy|].
  intros E%segment_file_name_inj; lia.
Qed.

Lemma merged_id_range buffer ws st meta :
  merged id_base dir buffer ws st -> In meta (mg_outputs st) -> 0 <= seg_id meta < mg_next_id st.
Proof.
  intros Hm Hin. apply (in_map seg_id), list_elem_of_In in Hin. rewrite (merged_ids _ _ _ _ _ Hm) in Hin.
  apply elem_of_seqZ in Hin. destruct (merged_next _ _ _ _ _ Hm). lia.
Qed.

Lemma Forall2_in {A B} (P Q : A -> B -> Prop) l k :
  Forall2 P l k -> (forall a b, In a l -> P a b -> Q a b) -> Forall2 Q l k.
Proof.
  induction 1 as [|a b l k Hab _ IH]; intros Hq; constructor; [apply Hq; [now left|easy]|].
  apply IH. intros x y Hx. apply Hq. now right.
Qed.

Lemma new_chunk ws st meta f :
  Forall good ws -> merged id_base dir (ms_row_limit spec) ws st ->
  segment_facts (mg_next_id st) (ms_schema spec) (mg_rows st) (ms_block_rows spec) (forallb not_deleted (mg_rows st)) = Ok meta ->
  write_file (ms_schema spec) meta (mg_rows st) = Ok f ->
  chunk_ok (omap_insert (segment_file_name (mg_next_id st)) f (mg_dir st)) meta (mg_rows st).
Proof.
  intros Hg [(chunks & _ & Hk) _ _ Hb Hs _ _] Hmeta Hf. destruct (facts_id _ _ _ _ Hmeta) as [E1 E2].
  assert (Hgr : Forall good (mg_rows st)).
  { apply filter_kept_good in Hg. rewrite <- Hk in Hg. now apply Forall_app in Hg. }
  split; [now rewrite E1| | |eauto].
  - unfold read_rows. rewrite E2, omap_get_insert_eq.
    destruct (read_written _ _ _ _ _ _ schema_good (Forall_impl _ _ _ Hgr (fun r => @proj2 _ _)) Hmeta) as (f' & Hf' & Hr).
    replace f with f' by congruence. now rewrite Hr, durable_all.
  - destruct (segment_facts_inv _ _ _ _ _ _ Hmeta) as (first & rest & _ & Er & _ & _). rewrite Er in *. len_lia.
Qed.

Lemma write_chunk_merged ws st st' :
  Forall good ws -> merged id_base dir (ms_row_limit spec) ws st -> write_chunk spec io st = (Ok tt, st') ->
  merged id_base dir 0 ws st' /\ mg_rows st' = [] /\ mg_inside st' = mg_inside st.
Proof.
  intros Hg Hm Hw. destruct (write_chunk_inv _ _ Hw) as (meta & f & Hmeta & Hf & Hid & ->).
  pose proof (new_chunk ws st meta f Hg Hm Hmeta Hf) as Hnew.
  pose proof (fun m => merged_id_range _ ws st m Hm) as Hrange. destruct (facts_id _ _ _ _ Hmeta) as [E1 _].
  destruct Hm as [(chunks & Hc & Hk) Hi [Hn Hn'] Hb Hs Hd Hr].
  split; [|easy]. split; cbn [mg_rows mg_bytes mg_inside mg_next_id mg_outputs mg_output_rows mg_dir].
  - exists (chunks ++ [mg_rows st]). rewrite concat_app. cbn [concat]. rewrite !app_nil_r. split; [|easy].
    apply Forall2_app; [|constructor; [exact Hnew|constructor]]. apply (Forall2_in _ _ _ _ Hc). intros m c Hin Hmc.
    apply chunk_ok_insert; [easy|now apply Hrange|lia].
  - rewrite map_app, len_app. change (len [meta]) with 1. rewrite seqZ_app by (try lia; apply len_nonneg).
    rewrite Hi. cbn [map seqZ]. now rewrite E1, Hn.
  - rewrite len_app. change (len [meta]) with 1. lia.
  - easy.
  - unfold one_sided. constructor.
  - intros name Hx. rewrite omap_get_insert_ne; [apply Hd; intros id Hr'; apply Hx; lia|].
    intros E. apply (Hx (mg_next_id st)); [pose proof (len_nonneg (mg_outputs st)); lia|easy].
  - easy.
Qed.

Lemma merged_weaken b b' ws st : b <= b' -> merged id_base dir b ws st -> merged id_base dir b' ws st.
Proof. intros Hb [? ? ? ? ? ? ?]. split; try easy. lia. Qed.

(** After the boundary the buffer takes a row of this side. *)
Lemma cross_boundary_merged inside ws st st' :
  Forall good ws -> merged id_base dir (ms_row_limit spec - 1) ws st ->
  cross_boundary spec io inside st = (Ok tt, st') ->
  merged id_base dir (ms_row_limit spec - 1) ws st' /\ one_sided inside (mg_rows st').
Proof.
  intros Hg Hm. unfold cross_boundary.
  destruct (is_some (ms_window spec) && negb (Bool.eqb inside (mg_inside st)) && negb (no_rows (mg_rows st))) eqn:E.
  - intros Hw. destruct (write_chunk_merged ws st st' Hg) as (Hm' & Hr & _); [apply (merged_weaken (ms_row_limit spec - 1)); [lia|easy]|easy|].
    split; [apply (merged_weaken 0); [lia|easy]|]. rewrite Hr. intros _. constructor.
  - intros [= <-]. split; [easy|]. intros Hw. rewrite Hw in E. cbn [andb] in E.
    destruct (Bool.eqb inside (mg_inside st)) eqn:Ei.
    + apply eqb_prop in Ei as ->. now apply (merged_side _ _ _ _ _ Hm).
    + destruct (mg_rows st); [constructor|easy].
Qed.

Lemma push_row_merged ws w st :
  merged id_base dir (ms_row_limit spec - 1) ws st ->
  one_sided (in_merge_window (ms_window spec) (row_key w)) (mg_rows st) ->
  merged id_base dir (ms_row_limit spec) (ws ++ [w])
    (push_row spec (in_merge_window (ms_window spec) (row_key w)) w st).
Proof.
  intros [(chunks & Hc & Hk) Hi Hn Hb Hs Hd Hr] Ho. unfold push_row. change (negb (drops spec (row_key w)) || not_deleted w) with (kept w).
  assert (Hf : List.filter kept (ws ++ [w]) = List.filter kept ws ++ if kept w then [w] else []).
  { rewrite List.filter_app. reflexivity. }
  destruct (kept w) eqn:Ek; split; cbn [mg_rows mg_bytes mg_inside mg_next_id mg_outputs mg_output_rows mg_dir]; try easy; rewrite ?Hf.
  - exists chunks. split; [easy|]. now rewrite <- Hk, app_assoc.
  - rewrite len_app. change (len [w]) with 1. lia.
  - intros Hw. apply Forall_app. split; [now apply Ho|]. now repeat constructor.
  - rewrite Hr, len_app. change (len [w]) with 1. unfold sat_add. lia.
  - exists chunks. split; [easy|]. now rewrite app_nil_r.
  - lia.
  - now rewrite app_nil_r.
Qed.

Lemma emit_merged ws w st st' :
  Forall good (ws ++ [w]) -> merged id_base dir (ms_row_limit spec - 1) ws st -> emit spec io w st = (Ok tt, st') ->
  merged id_base dir (ms_row_limit spec - 1) (ws ++ [w]) st'.
Proof.
  intros Hg Hm. pose proof Hg as [Hg' _]%Forall_app. unfold emit. set (inside := in_merge_window _ _).
  destruct (cross_boundary spec io inside st) as [[[]|e] st1] eqn:Ec; [|easy].
  destruct (cross_boundary_merged inside ws st st1 Hg' Hm Ec) as [Hm1 Ho].
  pose proof (push_row_merged ws w st1 Hm1 Ho) as Hm2. fold inside in Hm2. set (st2 := push_row spec inside w st1) in *.
  destruct (Z.leb_spec (ms_row_limit spec) (len (mg_rows st2))) as [Hl|Hl]; cbn [orb].
  - intros Hw. destruct (write_chunk_merged _ st2 st' Hg Hm2 Hw) as (Hm' & _). apply (merged_weaken 0); [lia|easy].
  - destruct (ms_byte_limit spec <=? mg_bytes st2).
    + intros Hw. destruct (write_chunk_merged _ st2 st' Hg Hm2 Hw) as (Hm' & _). apply (merged_weaken 0); [lia|easy].
    + intros [= <-]. destruct Hm2 as [? ? ? ? ? ? ?]. split; try easy. lia.
Qed.

Lemma emit_all_merged yields ws ws0 st st' :
  Forall good (ws0 ++ ws) -> merged id_base dir (ms_row_limit spec - 1) ws0 st ->
  emit_all yields ws st = (Ok tt, st') -> merged id_base dir (ms_row_limit spec - 1) (ws0 ++ ws) st'.
Proof.
  revert yields ws0 st; induction ws as [|w ws IH]; intros yields ws0 st Hg Hm; cbn [emit_all].
  { intros [= <-]. now rewrite app_nil_r. }
  destruct (yields O); [easy|]. destruct (emit spec io w st) as [[[]|e] st1] eqn:Ee; [|easy]. intros Hw.
  replace (ws0 ++ w :: ws) with ((ws0 ++ [w]) ++ ws) in * by now rewrite <- app_assoc.
  eapply IH; [exact Hg| |exact Hw]. apply Forall_app in Hg as [Hg _]. now apply (emit_merged ws0 w st).
Qed.

Lemma start_merged : id_base < 2 ^ 64 -> merged id_base dir (ms_row_limit spec - 1) [] (start_state id_base dir).
Proof.
  intros Hid. split; cbn [start_state mg_rows mg_inside mg_next_id mg_outputs mg_output_rows mg_dir]; try easy.
  - exists []. split; [constructor|easy].
  - change (len []) with 0. lia.
  - change (len (@nil StoredRow)) with 0. lia.
Qed.

End invariant.

(** ** The result of the merge *)

(** The chunks hold the winners that are kept, in key order. *)
Record merge_result (streams : list (list StoredRow)) (id_base : Z) (dir : Directory) (st : merge_state)
    (chunks : list (list StoredRow)) : Prop := {
  result_chunks : Forall2 (chunk_ok (mg_dir st)) (mg_outputs st) chunks;
  result_rows : concat chunks = List.filter kept (winners streams);
  result_ids : map seg_id (mg_outputs st) = seqZ id_base (len (mg_outputs st));
  result_next : mg_next_id st = id_base + len (mg_outputs st) /\ mg_next_id st < 2 ^ 64;
  result_dir : forall name, (forall id, id_base <= id < mg_next_id st -> name <> segment_file_name id) ->
                 omap_get name (mg_dir st) = omap_get name dir;
  result_count : mg_output_rows st = Z.min (2 ^ 64 - 1) (len (concat chunks))
}.

Lemma good_winners streams : sorted_streams streams -> Forall good (concat streams) -> Forall good (winners streams).
Proof.
  intros Hs Hg. apply List.Forall_forall. intros w Hw. apply (proj1 (List.Forall_forall _ _) Hg).
  now apply (winners_spec streams Hs).
Qed.

Lemma merge_streams_result yields streams id_base dir st :
  0 <= id_base < 2 ^ 64 -> sorted_streams streams -> Forall good (concat streams) ->
  merge_streams spec io yields streams id_base dir = (Ok tt, st) ->
  exists chunks, merge_result streams id_base dir st chunks.
Proof.
  intros Hid Hs Hg. rewrite merge_streams_winners by easy. pose proof (good_winners streams Hs Hg) as Hw.
  destruct (emit_all yields (winners streams) (start_state id_base dir)) as [[[]|e] st1] eqn:Ee; [|easy].
  pose proof (emit_all_merged id_base dir (proj1 Hid) yields (winners streams) [] _ st1 Hw
                (start_merged id_base dir (proj2 Hid)) Ee) as Hm. cbn [app] in Hm.
  assert (Hdone : forall b st', merged id_base dir b (winners streams) st' -> mg_rows st' = [] ->
                    exists chunks, merge_result streams id_base dir st' chunks).
  { intros b st' [(chunks & Hc & Hk) Hi Hn _ _ Hd Hr] Hnil. exists chunks. rewrite Hnil, app_nil_r in Hk.
    split; try easy. now rewrite Hk. }
  destruct (mg_rows st1) as [|r rows] eqn:Er; cbn [no_rows].
  - intros [= <-]. now apply (Hdone _ _ Hm).
  - intros Hx. destruct (write_chunk_merged id_base dir (proj1 Hid) (winners streams) st1 st Hw) as (Hm' & Hnil & _);
      [apply (merged_weaken id_base dir (ms_row_limit spec - 1)); [lia|easy]|easy|]. now apply (Hdone _ _ Hm').
Qed.

(** ** Only the files of the merge's own identifiers change *)

Definition same_below (id : Z) (d d' : Directory) : Prop :=
  forall name, (forall i, id <= i < 2 ^ 64 -> name <> segment_file_name i) -> omap_get name d' = omap_get name d.

Definition extends (st st' : merge_state) : Prop :=
  mg_next_id st < 2 ^ 64 -> mg_next_id st <= mg_next_id st' < 2 ^ 64 /\ same_below (mg_next_id st) (mg_dir st) (mg_dir st').

Instance extends_preorder : PreOrder extends.
Proof.
  split; [intros a Ha; split; [lia|easy]|]. intros a b c A B Ha. destruct (A Ha) as [A1 A2]. destruct (B ltac:(lia)) as [B1 B2].
  split; [lia|]. intros name Hn. rewrite B2 by (intros i Hi; apply Hn; lia). now apply A2.
Qed.

Lemma write_chunk_extends st r st' : write_chunk spec io st = (r, st') -> extends st st'.
Proof.
  unfold write_chunk, write_segment. destruct (segment_facts _ _ _ _ _) as [meta|] eqn:Em; [|now intros [= <- <-]].
  destruct (write_file _ _ _) as [f|]; [|now intros [= <- <-]]. intros Hw Hlt.
  assert (Hd : same_below (mg_next_id st) (mg_dir st) (omap_insert (seg_file_name meta) f (mg_dir st))).
  { intros name Hn. apply omap_get_insert_ne. destruct (facts_id _ _ _ _ Em) as [_ ->]. intros E.
    apply (Hn (mg_next_id st)); [lia|easy]. }
  revert Hw. unfold checked_add. destruct (io _); [destruct (Z.ltb_spec (mg_next_id st + 1) (2 ^ 64))|..];
    intros [= <- <-]; (split; cbn [mg_next_id mg_dir]; [lia|easy]).
Qed.

Lemma emit_extends w st r st' : emit spec io w st = (r, st') -> extends st st'.
Proof.
  unfold emit. destruct (cross_boundary _ _ _ st) as [r1 st1] eqn:Ec.
  assert (H1' : extends st st1).
  { unfold cross_boundary in Ec. destruct (_ && _ && _); [now apply (write_chunk_extends st r1)|now injection Ec as <- <-]. }
  destruct r1 as [u|e]; [|now intros [= <- <-]]. set (st2 := push_row _ _ _ _).
  assert (H2' : extends st st2).
  { transitivity st1; [easy|]. unfold st2, push_row. destruct (_ || _); (intros ?; split; [cbn [mg_next_id]; lia|easy]). }
  destruct (_ || _); [|now intros [= <- <-]]. intros Hw. transitivity st2; [easy|]. now apply (write_chunk_extends st2 r).
Qed.

Lemma emit_all_extends yields ws st r st' : emit_all yields ws st = (r, st') -> extends st st'.
Proof.
  revert yields st; induction ws as [|w ws IH]; intros yields st; cbn [emit_all]; [now intros [= <- <-]|].
  destruct (yields O); [now intros [= <- <-]|]. destruct (emit spec io w st) as [r1 st1] eqn:Ee.
  pose proof (emit_extends w st r1 st1 Ee). destruct r1; [|now intros [= <- <-]]. intros Hw. transitivity st1; [easy|].
  exact (IH _ _ Hw).
Qed.

(** Also when the merge fails. *)
Lemma merge_streams_extends yields streams id_base dir r st :
  sorted_streams streams -> id_base < 2 ^ 64 -> merge_streams spec io yields streams id_base dir = (r, st) ->
  same_below id_base dir (mg_dir st).
Proof.
  intros Hs Hid. rewrite merge_streams_winners by easy.
  destruct (emit_all yields (winners streams) (start_state id_base dir)) as [r1 st1] eqn:Ee.
  destruct (emit_all_extends _ _ _ _ _ Ee Hid) as [H1' H2']. cbn [start_state mg_next_id mg_dir] in *.
  destruct r1 as [u|e]; [|now intros [= <- <-]]. destruct (no_rows (mg_rows st1)); [now intros [= <- <-]|].
  intros Hw. destruct (write_chunk_extends _ _ _ Hw ltac:(lia)) as [H3' H4']. intros name Hn.
  rewrite H4' by (intros i Hi; apply Hn; lia). now apply H2'.
Qed.

(** ** The merge ends *)

Definition hashable (r : StoredRow) : Prop := exists hash, key_hash (row_key r) = Ok hash.

Lemma build_bloom_ok rows : Forall hashable rows -> exists bloom, build_bloom rows = Ok bloom.
Proof.
  intros Hh. unfold build_bloom. generalize (replicate (Z.to_nat BLOOM_BYTES) Byte.x00) as bloom0.
  induction Hh as [|r rows [hash Hr] _ IH]; intros bloom0; cbn [fold_result]; [eauto|].
  assert (E : bloom_row bloom0 r = Ok (set_bloom_bits bloom0 hash)) by (unfold bloom_row; now rewrite Hr).
  rewrite E. apply IH.
Qed.

Definition ready (st : merge_state) : Prop := mg_rows st = [] -> mg_bytes st = 0.

Section progress.
Variables (id_base : Z) (dir : Directory).
Hypothesis id_base_ok : 0 <= id_base.
Hypothesis writes_succeed : forall n, io n = SegmentOk.
Hypothesis blocks : 0 < ms_block_rows spec <= u32_max.
Hypothesis lengths : len (schema_columns (ms_schema spec)) + 3 <= u32_max /\ div_ceil (ms_row_limit spec) (ms_block_rows spec) <= u32_max.
Hypothesis bytes_positive : 1 <= ms_byte_limit spec.

Lemma outputs_bound b ws st :
  merged id_base dir b ws st -> len (mg_outputs st) + len (mg_rows st) <= len ws.
Proof.
  intros [(chunks & Hc & Hk) _ _ _ _ _ _].
  assert (Hl : len (mg_outputs st) <= len (concat chunks)).
  { clear Hk. induction Hc as [|m c ms cs [_ _ Hsize _] _ IH]; [easy|]. cbn [concat]. rewrite len_app, len_cons. lia. }
  pose proof (filter_length_le kept ws) as Hf. apply (f_equal len) in Hk. rewrite len_app in Hk. unfold len in *. lia.
Qed.

Lemma check_lengths_ok rows : len rows <= ms_row_limit spec -> check_lengths (ms_schema spec) rows (ms_block_rows spec) = Ok tt.
Proof.
  intros Hr. destruct lengths as [Hc Hd]. assert (Hm : div_ceil (len rows) (ms_block_rows spec) <= div_ceil (ms_row_limit spec) (ms_block_rows spec))
    by (apply Z.div_le_mono; lia).
  unfold check_lengths. rewrite (proj2 (Z.ltb_ge _ _) Hc), (proj2 (Z.ltb_ge _ _) (proj2 blocks)), (proj2 (Z.ltb_ge u32_max _)) by lia. easy.
Qed.

Lemma write_chunk_ok b ws st :
  b <= ms_row_limit spec -> Forall good ws -> Forall hashable ws -> merged id_base dir b ws st -> mg_rows st <> [] ->
  id_base + len ws < 2 ^ 64 -> exists st', write_chunk spec io st = (Ok tt, st') /\ ready st'.
Proof.
  intros Hlim Hg Hh Hm Hne Hid. pose proof (outputs_bound b ws st Hm) as Hb. destruct Hm as [(chunks & _ & Hk) _ [Hn _] Hbuf _ _ _].
  assert (Hin : forall r, In r (mg_rows st) -> In r ws).
  { intros r Hr. assert (Hx : In r (List.filter kept ws)) by (rewrite <- Hk; apply in_or_app; now right).
    now apply filter_In in Hx. }
  rewrite Forall_forall in Hg, Hh.
  destruct (build_bloom_ok (mg_rows st)) as [bloom Hbloom].
  { apply Forall_forall. intros r Hr%list_elem_of_In. now apply Hh, list_elem_of_In, Hin. }
  destruct (write_columns_ok (ms_schema spec) (mg_rows st)) as (cols & Hcols & _).
  { apply Forall_forall. intros r Hr%list_elem_of_In. now apply Hg, list_elem_of_In, Hin. }
  unfold write_chunk, write_segment, segment_facts, write_file. rewrite Hbloom, Hcols, writes_succeed.
  rewrite check_lengths_ok by lia. destruct (mg_rows st) as [|first rest]; [easy|].
  rewrite (proj2 (Z.eqb_neq (ms_block_rows spec) 0)) by lia. unfold mbind, result_bind.
  unfold checked_add. rewrite len_cons in Hb. pose proof (len_nonneg rest).
  destruct (Z.ltb_spec (mg_next_id st + 1) (2 ^ 64)); [|lia]. eexists. split; [reflexivity|]. now intros _.
Qed.

Lemma emit_ok ws w st :
  Forall good (ws ++ [w]) -> Forall hashable (ws ++ [w]) -> merged id_base dir (ms_row_limit spec - 1) ws st -> ready st ->
  id_base + len (ws ++ [w]) < 2 ^ 64 -> exists st', emit spec io w st = (Ok tt, st') /\ ready st'.
Proof.
  intros Hg Hh Hm Hr Hid. pose proof Hg as [Hg' _]%Forall_app. pose proof Hh as [Hh' _]%Forall_app.
  rewrite len_app in Hid. change (len [w]) with 1 in Hid. unfold emit. set (inside := in_merge_window _ _).
  assert (Hc : exists st1, cross_boundary spec io inside st = (Ok tt, st1) /\ ready st1).
  { unfold cross_boundary. destruct (mg_rows st) as [|r rows] eqn:Er; cbn [no_rows negb]; [rewrite andb_false_r; eauto|].
    destruct (_ && _); [|eauto]. apply (write_chunk_ok (ms_row_limit spec - 1) ws); try easy; [lia|congruence|lia]. }
  destruct Hc as (st1 & Ec & Hr1). rewrite Ec. destruct (cross_boundary_merged id_base dir id_base_ok inside ws st st1 Hg' Hm Ec) as [Hm1 Ho].
  pose proof (push_row_merged id_base dir ws w st1 Hm1 Ho) as Hm2. fold inside in Hm2. set (st2 := push_row spec inside w st1) in *.
  assert (Hr2 : ready st2).
  { unfold st2, push_row, ready. destruct (_ || _); cbn [mg_rows mg_bytes]; [|exact Hr1]. now intros [_ ?]%app_eq_nil. }
  destruct ((ms_row_limit spec <=? len (mg_rows st2)) || (ms_byte_limit spec <=? mg_bytes st2)) eqn:El; [|eauto].
  apply (write_chunk_ok (ms_row_limit spec) (ws ++ [w])); try easy; [|rewrite len_app; change (len [w]) with 1; lia].
  intros Hnil. specialize (Hr2 Hnil). rewrite Hnil, Hr2 in El. change (len (@nil StoredRow)) with 0 in El. zbool; lia.
Qed.

Lemma emit_all_ok ws ws0 st :
  Forall good (ws0 ++ ws) -> Forall hashable (ws0 ++ ws) -> merged id_base dir (ms_row_limit spec - 1) ws0 st -> ready st ->
  id_base + len (ws0 ++ ws) < 2 ^ 64 -> exists st', emit_all (fun _ => false) ws st = (Ok tt, st') /\ ready st'.
Proof.
  revert ws0 st; induction ws as [|w ws IH]; intros ws0 st Hg Hh Hm Hr Hid; cbn [emit_all]; [eauto|].
  replace (ws0 ++ w :: ws) with ((ws0 ++ [w]) ++ ws) in * by now rewrite <- app_assoc.
  pose proof Hg as [Hg' _]%Forall_app. pose proof Hh as [Hh' _]%Forall_app.
  destruct (emit_ok ws0 w st Hg' Hh' Hm Hr) as (st1 & Ee & Hr1).
  { rewrite len_app in Hid. pose proof (len_nonneg ws). lia. }
  rewrite Ee. apply (IH (ws0 ++ [w])); try easy. now apply (emit_merged id_base dir id_base_ok ws0 w st).
Qed.

End progress.

(** C32. The merge always ends, and with its result: each turn takes at least one row off a stream, so
    turns do not outnumber the rows, and when the merge is not asked to stop and every segment write
    succeeds, it returns normally.  [hashable] is that the key's encoding is within the format's
    limits; the columns, the block target and the blocks of a full chunk are within them too, and the
    identifiers must not run out. *)
Theorem merge_terminates streams id_base dir :
  sorted_streams streams -> Forall good (concat streams) -> Forall hashable (concat streams) ->
  0 <= id_base -> id_base + len (concat streams) < 2 ^ 64 ->
  (forall n, io n = SegmentOk) -> 0 < ms_block_rows spec <= u32_max -> len (schema_columns (ms_schema spec)) + 3 <= u32_max ->
  div_ceil (ms_row_limit spec) (ms_block_rows spec) <= u32_max -> 1 <= ms_byte_limit spec ->
  exists st, merge_streams spec io (fun _ => false) streams id_base dir = (Ok tt, st).
Proof.
  intros Hs Hg Hh Hid Hid' Hio Hb Hcols Hblocks Hbytes. rewrite merge_streams_winners by easy. pose proof (conj Hcols Hblocks) as Hlen.
  pose proof (good_winners streams Hs Hg) as Hwg. pose proof (winners_length streams Hs) as Hl.
  assert (Hwh : Forall hashable (winners streams)).
  { apply List.Forall_forall. intros w Hw. apply (proj1 (List.Forall_forall _ _) Hh). now apply (winners_spec streams Hs). }
  assert (Hlt : id_base < 2 ^ 64) by (pose proof (len_nonneg (concat streams)); lia).
  destruct (emit_all_ok id_base dir Hid Hio Hb Hlen Hbytes (winners streams) [] (start_state id_base dir)) as (st1 & E & _);
    [easy|easy|now apply start_merged|easy|cbn [app]; lia|].
  rewrite E. destruct (mg_rows st1) as [|r rows] eqn:Er; [eauto|]. cbn [no_rows].
  pose proof (emit_all_merged id_base dir Hid (fun _ => false) (winners streams) [] _ st1 Hwg (start_merged id_base dir Hlt) E) as Hm.
  destruct (write_chunk_ok id_base dir Hio Hb Hlen (ms_row_limit spec - 1) (winners streams) st1) as (st' & Hst & _); try easy;
    [lia|congruence|lia|eauto].
Qed.

(** C9. The merge writes the winner of every key and nothing else.  Its output segments hold, in
    strictly ascending key order over all of them, the latest version of each key of its inputs;
    the only winners it leaves out are the tombstones of keys whose deletes are dropped.  Every
    segment is readable, has between one and the row limit's rows, never lies on both sides of a
    boundary of the window, is named by the next free identifier, and no other file changes. *)
Theorem merge_writes_winners yields streams id_base dir st :
  0 <= id_base < 2 ^ 64 -> sorted_streams streams -> Forall good (concat streams) ->
  merge_streams spec io yields streams id_base dir = (Ok tt, st) ->
  exists chunks, merge_result streams id_base dir st chunks /\ key_ascending (concat chunks) /\
    (forall k, latest k (concat chunks) =
       match latest k (concat streams) with Some w => if kept w then Some w else None | None => None end).
Proof.
  intros Hid Hs Hg Hm. destruct (merge_streams_result yields streams id_base dir st Hid Hs Hg Hm) as (chunks & Hr).
  exists chunks. split; [easy|]. rewrite (result_rows _ _ _ _ _ Hr). destruct (winners_spec streams Hs) as (Ha & _ & Hl).
  split; [now apply key_ascending_filter|]. intros k. now rewrite latest_filter_ascending, Hl.
Qed.

End loop.

(** ** Witnesses *)

Module MergeExamples.
#[local] Existing Instance WalExamples.example_checksum.
#[local] Existing Instance SegmentExamples.no_sketches.
#[local] Existing Instance Memtable.layout64.

Definition row (key version : Z) (deleted : bool) : StoredRow := {|
  row_key := [PUInt64 key]; row_version := version; row_deleted := deleted;
  row_values := [VUInt64 key; VNull; VUtf8 [byte.of_Z 120]] |}.

(** Key 2 is rewritten and key 3 deleted by the second stream. *)
Definition streams : list (list StoredRow) := [[row 1 1 false; row 2 1 false; row 3 1 false]; [row 2 4 false; row 3 5 true]].

Definition spec : merge_spec := {|
  ms_schema := SegmentFileExamples.before; ms_block_rows := 2; ms_row_limit := 2; ms_byte_limit := 100000;
  ms_drop_tombstones := true; ms_window := None |}.

Definition io (n : nat) : segment_io := SegmentOk.

Lemma schema_good : schema_ok (ms_schema spec).
Proof.
  split; [repeat constructor; vm_compute; easy|]. split; [repeat constructor|].
  apply (bool_decide_unpack _). vm_compute. exact I.
Qed.

Lemma streams_sorted : sorted_streams streams.
Proof. repeat constructor; vm_compute; discriminate. Qed.

Lemma streams_good : Forall (good spec) (concat streams).
Proof. repeat constructor. Qed.

Lemma merge_terminates_witness :
  exists st, merge_streams spec io (fun _ => false) streams 7 [] = (Ok tt, st).
Proof.
  apply (merge_terminates spec io schema_good ltac:(vm_compute; discriminate) streams 7 [] streams_sorted streams_good).
  - repeat constructor; eexists; vm_compute; reflexivity.
  - easy.
  - easy.
  - easy.
  - vm_compute. easy.
  - vm_compute. discriminate.
  - vm_compute. discriminate.
  - easy.
Defined.

Lemma merge_writes_winners_witness :
  exists st chunks, merge_streams spec io (fun _ => false) streams 7 [] = (Ok tt, st) /\
    merge_result spec streams 7 [] st chunks /\ latest [PUInt64 3] (concat chunks) = None.
Proof.
  destruct (merge_streams spec io (fun _ => false) streams 7 []) as [[[]|e] st] eqn:E; [|vm_compute in E; discriminate E].
  destruct (merge_writes_winners spec io schema_good ltac:(vm_compute; discriminate) (fun _ => false) streams 7 [] st)
    as (chunks & Hr & _ & Hl); [vm_compute; easy|exact streams_sorted|exact streams_good|exact E|].
  exists st, chunks. split; [easy|]. split; [easy|]. rewrite Hl. reflexivity.
Defined.

End MergeExamples.
