(* ===== verification/Compaction.v ===== *)
(** * Planning a compaction ([src/crates/pintail-store/src/store/mod.rs])

    Which segments one pass of [compact] merges: the size tier, the overlapping cluster,
    one key range of a cluster too large for a pass, a lone segment with deletes, and
    neighbours merged for fewer files.  The sizes of the files are a parameter. *)

From Stdlib Require Import ZArith Lia String Sorted Permutation.
From stdpp Require Import prelude list.
From coqutil Require Import Byte.
From S2P Require Import Prelude.
From S2P Require Import Types.
From S2P Require Import Codec.
From S2P Require Import Wal.
From S2P Require Import Memtable.
From S2P Require Import Manifest.
From S2P Require Import Segment.
From S2P Require Import SegmentFile.
From S2P Require Import Merge.

#[local] Open Scope Z_scope.

(** ** Options *)

Record StoreOptions : Type := {
  opt_memtable_bytes : Z;
  opt_block_rows : Z;
  opt_wal_sync : WalSync;
  opt_compaction_fan_in : Z;
  opt_max_compaction_input_rows : Z;
  opt_max_compaction_rows : Z;
  opt_max_compaction_output_bytes : Z;
  opt_compaction_file_pressure : Z;
  opt_compaction_disk_reserve_bytes : Z;
  opt_background_compaction : bool;
  opt_transactional : bool
}.

Definition validate_store_options (o : StoreOptions) : result StoreError unit :=
  if opt_block_rows o =? 0 then Err (FormatLimit (msg "segment block row target must be non-zero" []))
  else if opt_compaction_fan_in o <? 2 then Err (FormatLimit (msg "compaction fan-in must be at least two" []))
  else if (opt_max_compaction_rows o =? 0) || (opt_max_compaction_input_rows o =? 0)
  then Err (FormatLimit (msg "compaction row bounds must be non-zero" []))
  else if opt_max_compaction_output_bytes o =? 0
  then Err (FormatLimit (msg "compaction output byte bound must be non-zero" []))
  else Ok tt.

Definition SIZE_TIER_RATIO : Z := 4.
Definition MAX_WIDENED_FAN_IN : Z := 64.

(** ** Candidates and plans *)

Record CompactionCandidate : Type := {
  cc_index : nat;
  cc_size : Z;
  cc_row_count : Z;
  cc_minimum : PrimaryKey;
  cc_maximum : PrimaryKey;
  cc_min_version : Z;
  cc_max_version : Z;
  cc_unique_keys : bool
}.

Definition overlaps (self other : CompactionCandidate) : bool :=
  oleb (cc_minimum self) (cc_maximum other) && oleb (cc_minimum other) (cc_maximum self).

Definition lies_over (self other : CompactionCandidate) : bool :=
  overlaps self other && (cc_max_version other <=? cc_min_version self)
  && (cc_max_version other <? cc_max_version self).

Record CompactionPlan : Type := {
  plan_indices : list nat;
  plan_debt_bytes : Z;
  plan_window : option MergeWindow;
  plan_catching_up : bool
}.

Definition sum_of {A} (f : A -> Z) (l : list A) : Z := foldr (fun a s => f a + s) 0 l.

Definition plan_for (window : list CompactionCandidate) : CompactionPlan := {|
  plan_indices := map cc_index window; plan_debt_bytes := sum_of cc_size window;
  plan_window := None; plan_catching_up := false |}.

(** Whether a candidate of the same index is in the list. *)
Definition chosen (selected : list CompactionCandidate) (c : CompactionCandidate) : bool :=
  existsb (fun member => Nat.eqb (cc_index member) (cc_index c)) selected.

(** ** Sorting and windows of slices *)

(** [sort_by] is stable. *)
Fixpoint insert_by {A} (less : A -> A -> bool) (x : A) (l : list A) : list A :=
  match l with
  | [] => [x]
  | y :: rest => if less y x then y :: insert_by less x rest else x :: l
  end.

Definition sort_by {A} (less : A -> A -> bool) (l : list A) : list A := foldr (insert_by less) [] l.

Definition size_less (a b : CompactionCandidate) : bool :=
  (cc_size a <? cc_size b) || ((cc_size a =? cc_size b) && Nat.ltb (cc_index a) (cc_index b)).

Definition minimum_less (a b : CompactionCandidate) : bool := oltb (cc_minimum a) (cc_minimum b).

Definition age_less (a b : CompactionCandidate) : bool :=
  (cc_min_version a <? cc_min_version b)
  || ((cc_min_version a =? cc_min_version b) && (cc_max_version a <? cc_max_version b)).

(** [slice::windows]: with what follows each window. *)
Fixpoint windows {A} (n : nat) (l : list A) : list (list A * list A) :=
  match l with
  | [] => []
  | _ :: rest => if Nat.leb n (length l) then (take n l, drop n l) :: windows n rest else []
  end.

(** ** Which windows qualify *)

(** [min] and [max] of the keys of a non-empty list. *)
Definition min_key (keys : list PrimaryKey) : option PrimaryKey :=
  match keys with [] => None | k :: ks => Some (foldl (fun m k => if oltb k m then k else m) k ks) end.
Definition max_key (keys : list PrimaryKey) : option PrimaryKey :=
  match keys with [] => None | k :: ks => Some (foldl (fun m k => if oltb k m then m else k) k ks) end.

Fixpoint overlap_run (maximum : PrimaryKey) (by_key : list CompactionCandidate) : bool :=
  match by_key with
  | [] => true
  | c :: rest =>
      if oltb maximum (cc_minimum c) then false
      else overlap_run (if oltb maximum (cc_maximum c) then cc_maximum c else maximum) rest
  end.

Definition ranges_overlap (candidates : list CompactionCandidate) : bool :=
  match sort_by minimum_less candidates with
  | [] => false
  | first :: rest => overlap_run (cc_maximum first) rest
  end.

Definition splits_a_layer (selected candidates : list CompactionCandidate) : bool :=
  existsb (fun over =>
    existsb (fun under =>
      lies_over over under
      && existsb (fun left => negb (chosen selected left) && lies_over over left && negb (lies_over under left))
           candidates) selected) selected.

(** [reached_by]: each turn that continues adds a candidate, so as many turns as there
    are candidates end it. *)
Fixpoint reached_loop (fuel : nat) (candidates cluster : list CompactionCandidate) : list CompactionCandidate :=
  let reached := List.filter (fun c => negb (chosen cluster c) && existsb (fun m => overlaps m c) cluster) candidates in
  match reached, fuel with
  | [], _ => cluster
  | _, O => cluster
  | _, S fuel => reached_loop fuel candidates (cluster ++ reached)
  end.

Definition reached_by (candidates seed : list CompactionCandidate) : list CompactionCandidate :=
  reached_loop (length candidates) candidates seed.

Section planner.
Context `{Layout}.
Variable options : StoreOptions.

Definition sizes_min (sizes : list Z) : option Z := match sizes with [] => None | s :: r => Some (foldl Z.min s r) end.
Definition sizes_max (sizes : list Z) : option Z := match sizes with [] => None | s :: r => Some (foldl Z.max s r) end.
Definition admits_window (window : list CompactionCandidate) : bool :=
  match sizes_min (map cc_size window), sizes_max (map cc_size window) with
  | Some smallest, Some largest =>
      (sum_of cc_row_count window <=? opt_max_compaction_input_rows options)
      && (largest <=? sat_mul 64 smallest SIZE_TIER_RATIO)
  | _, _ => false
  end.

(** The widening of a window to the rest of its tier. *)
Fixpoint widen (selected rest : list CompactionCandidate) : list CompactionCandidate :=
  match rest with
  | [] => selected
  | c :: rest =>
      let widened := selected ++ [c] in
      if admits_window widened && ranges_overlap widened then widen widened rest else selected
  end.

Definition fan_in : nat := Z.to_nat (opt_compaction_fan_in options).

Definition tier_window (candidates : list CompactionCandidate) (selected rest : list CompactionCandidate)
    : option CompactionPlan :=
  if negb (admits_window selected) || negb (ranges_overlap selected) || splits_a_layer selected candidates
  then None
  else
    let behind := opt_compaction_file_pressure options <=? len candidates in
    let take_rest := Z.to_nat (sat_sub MAX_WIDENED_FAN_IN (opt_compaction_fan_in options)) in
    let widened := if behind then widen selected (take take_rest rest) else selected in
    if (len selected <? len widened) && negb (splits_a_layer widened candidates)
    then Some (plan_for widened) else Some (plan_for selected).

Fixpoint find_map {A B} (f : A -> option B) (l : list A) : option B :=
  match l with [] => None | a :: l => match f a with Some b => Some b | None => find_map f l end end.

Definition tier_plan (candidates : list CompactionCandidate) : option CompactionPlan :=
  if opt_compaction_fan_in options <=? len candidates
  then find_map (fun w => tier_window candidates w.1 w.2) (windows fan_in candidates)
  else None.

(** [overlap_cluster]: each turn that continues adds a candidate. *)
Fixpoint cluster_loop (fuel : nat) (candidates selected : list CompactionCandidate) : list CompactionCandidate :=
  match min_key (map cc_minimum selected), max_key (map cc_maximum selected) with
  | Some low, Some high =>
      let reached := List.filter (fun c => oleb (cc_minimum c) high && oleb low (cc_maximum c)
                                           && negb (chosen selected c)) candidates in
      match reached, fuel with
      | [], _ => selected
      | _, O => selected
      | _, S fuel =>
          if opt_max_compaction_input_rows options <? sum_of cc_row_count (selected ++ reached) then selected
          else cluster_loop fuel candidates (selected ++ reached)
      end
  | _, _ => selected
  end.

Definition overlap_cluster (candidates pair : list CompactionCandidate) : list CompactionCandidate :=
  cluster_loop (length candidates) candidates pair.

(** The bases and the changes of a cluster, oldest first. *)
Definition under_everything (cluster : list CompactionCandidate) (c : CompactionCandidate) : bool :=
  forallb (fun other => Nat.eqb (cc_index other) (cc_index c) || negb (overlaps other c)
                        || (cc_max_version c <=? cc_min_version other)) cluster.

Definition split_base (cluster : list CompactionCandidate)
    (split : list CompactionCandidate * list CompactionCandidate) (c : CompactionCandidate)
    : list CompactionCandidate * list CompactionCandidate :=
  let '(bases, changes) := split in
  if cc_unique_keys c && under_everything cluster c && forallb (fun base => negb (overlaps base c)) bases
  then (bases ++ [c], changes) else (bases, changes ++ [c]).

(** How many bases fit beside the changes, with the rows they bring the pass to. *)
Fixpoint bases_that_fit (rows : Z) (bases : list CompactionCandidate) : nat :=
  match bases with
  | [] => O
  | b :: rest =>
      if sat_add 64 rows (cc_row_count b) <=? opt_max_compaction_input_rows options
      then S (bases_that_fit (sat_add 64 rows (cc_row_count b)) rest) else O
  end.

(** [position]. *)
Fixpoint position {A} (p : A -> bool) (l : list A) : option nat :=
  match l with [] => None | a :: l => if p a then Some O else option_map S (position p l) end.

Definition range_reaches (low high : option PrimaryKey) (minimum maximum : PrimaryKey) : bool :=
  match low with Some low => oleb low maximum | None => true end
  && match high with Some high => oltb minimum high | None => true end.

Definition reaches (low high : option PrimaryKey) (c : CompactionCandidate) : bool :=
  range_reaches low high (cc_minimum c) (cc_maximum c).

Definition windowed_plan (candidates seed : list CompactionCandidate) : option CompactionPlan :=
  let cluster := reached_by candidates seed in
  let '(bases, changes) := foldl (split_base cluster) ([], []) (sort_by age_less cluster) in
  oldest ← head changes;
  if len bases <? 2 then None
  else
    let bases := sort_by minimum_less bases in
    first ← position (fun base => oleb (cc_minimum oldest) (cc_maximum base)) bases;
    let fit := bases_that_fit (sum_of cc_row_count changes) (drop first bases) in
    let end_ := (first + fit)%nat in
    last ← (if Nat.eqb fit 0 then None else bases !! (end_ - 1)%nat);
    if oltb (cc_maximum last) (cc_minimum oldest) then None
    else
      let low := if Nat.ltb 0 first then cc_minimum <$> bases !! first else None in
      let high := cc_minimum <$> bases !! end_ in
      let selected := take fit (drop first bases) ++ List.filter (reaches low high) changes in
      let closed := forallb (fun c => chosen selected c || negb (reaches low high c)) candidates in
      if negb closed || (negb (is_some low) && negb (is_some high)) then None
      else
        Some {| plan_indices := plan_indices (plan_for selected); plan_debt_bytes := plan_debt_bytes (plan_for selected);
                plan_window := Some (low, high); plan_catching_up := false |}.

Definition catching_up_plan (selected : list CompactionCandidate) : CompactionPlan := {|
  plan_indices := plan_indices (plan_for selected); plan_debt_bytes := plan_debt_bytes (plan_for selected);
  plan_window := None; plan_catching_up := true |}.

(** The overlapping neighbours in key order, and the cluster they belong to. *)
Definition pair_window (candidates pair : list CompactionCandidate) : option CompactionPlan :=
  if negb (ranges_overlap pair) then None
  else if sum_of cc_row_count pair <=? opt_max_compaction_input_rows options then
    let cluster := overlap_cluster candidates pair in
    if splits_a_layer cluster candidates then
      match windowed_plan candidates cluster with
      | Some plan => Some plan
      | None => Some (catching_up_plan (reached_by candidates cluster))
      end
    else Some (plan_for cluster)
  else None.

Definition pair_plan (candidates : list CompactionCandidate) : option CompactionPlan :=
  find_map (fun w => pair_window candidates w.1) (windows 2 candidates).

(** A segment nothing reaches that still carries deletes. *)
Definition lone_plan (candidates : list CompactionCandidate) : option CompactionPlan :=
  lone ← find (fun c => negb (cc_unique_keys c) && (cc_row_count c <=? opt_max_compaction_input_rows options)
                        && forallb (fun other => Nat.eqb (cc_index other) (cc_index c) || negb (overlaps other c))
                             candidates) candidates;
  Some (plan_for [lone]).

(** The rows a chunk of the merge's output holds, by a sample of a segment's rows. *)
Definition chunk_rows_of (rows : list StoredRow) : option Z :=
  let sampled := take 256 rows in
  let bytes := foldl (fun b r => sat_add 64 b (estimated_bytes r)) 0 sampled in
  if (len sampled =? 0) || (bytes =? 0) then None
  else Some (Z.max 1 (Z.min (opt_max_compaction_output_bytes options / Z.max 1 (bytes / len sampled))
                        (opt_max_compaction_rows options))).

Definition fewer_files_window (chunk_rows : option Z) (selected : list CompactionCandidate) : option CompactionPlan :=
  if negb (admits_window selected) then None
  else
    match chunk_rows with
    | Some chunk_rows =>
        let full := Z.max 1 (sat_sub chunk_rows (chunk_rows / 10)) in
        let fewer := sat_sub (len selected) 1 in
        if existsb (fun c => full <=? cc_row_count c) selected || (sat_mul 64 fewer full <? sum_of cc_row_count selected)
        then None else Some (plan_for selected)
    | None => Some (plan_for selected)
    end.

Definition fewer_files_plan (chunk_rows : nat -> option Z) (candidates : list CompactionCandidate) : option CompactionPlan :=
  let chunk_rows := first ← head candidates; chunk_rows (cc_index first) in
  find_map (fun w => fewer_files_window chunk_rows w.1) (windows fan_in candidates).

(** [compaction_plan], over the candidates in manifest order. *)
Definition plan_candidates (chunk_rows : nat -> option Z) (candidates : list CompactionCandidate) : option CompactionPlan :=
  let candidates := sort_by size_less candidates in
  match tier_plan candidates with
  | Some plan => Some plan
  | None =>
      let candidates := sort_by minimum_less candidates in
      match pair_plan candidates with
      | Some plan => Some plan
      | None =>
          match lone_plan candidates with
          | Some plan => Some plan
          | None =>
              if len candidates <? opt_compaction_file_pressure options then None
              else fewer_files_plan chunk_rows (sort_by minimum_less candidates)
          end
      end
  end.

Definition candidate (index : nat) (meta : SegmentFacts) (size : Z) : CompactionCandidate := {|
  cc_index := index; cc_size := size; cc_row_count := seg_row_count meta; cc_minimum := seg_min_key meta;
  cc_maximum := seg_max_key meta; cc_min_version := seg_min_version meta; cc_max_version := seg_max_version meta;
  cc_unique_keys := seg_unique_keys meta |}.

(** A segment whose file cannot be inspected is an error. *)
Fixpoint candidates_from (file_size : str -> option Z) (index : nat) (segments : list SegmentFacts)
    : result StoreError (list CompactionCandidate) :=
  match segments with
  | [] => Ok []
  | meta :: segments =>
      size ← ok_or (file_size (seg_file_name meta)) (Io (msg "inspect segment for compaction" []));
      rest ← candidates_from file_size (S index) segments;
      Ok (candidate index meta size :: rest)
  end.

Definition merge_chunk_rows (dir : Directory) (schema : TableSchema) (segments : list SegmentFacts) (index : nat) : option Z :=
  meta ← segments !! index;
  rows ← result_ok (read_rows dir schema meta);
  chunk_rows_of rows.

Definition compaction_plan (file_size : str -> option Z) (dir : Directory) (schema : TableSchema)
    (segments : list SegmentFacts) : result StoreError (option CompactionPlan) :=
  if len segments <? 2 then Ok None
  else
    candidates ← candidates_from file_size 0 segments;
    Ok (plan_candidates (merge_chunk_rows dir schema segments) candidates).

End planner.

(** ** Dropping tombstones *)

Definition versions_max (versions : list Z) : option Z :=
  match versions with [] => None | v :: vs => Some (foldl Z.max v vs) end.

Definition index_in (selected : list nat) (index : nat) : bool := existsb (Nat.eqb index) selected.

(** What a plan takes, in its order, and what it leaves out, in the manifest's. *)
Definition taken {A} (segments : list A) (selected : list nat) : list A :=
  omap (fun index => segments !! index) selected.

Fixpoint left_out_from {A} (index : nat) (segments : list A) (selected : list nat) : list A :=
  match segments with
  | [] => []
  | meta :: segments =>
      if index_in selected index then left_out_from (S index) segments selected
      else meta :: left_out_from (S index) segments selected
  end.

Definition left_out {A} (segments : list A) (selected : list nat) : list A := left_out_from 0 segments selected.

Definition merge_drops_tombstones (segments : list SegmentFacts) (selected : list nat) : bool :=
  let merged := taken segments selected in
  match min_key (map seg_min_key merged), max_key (map seg_max_key merged), versions_max (map seg_max_version merged) with
  | Some low, Some high, Some newest =>
      forallb (fun meta => oltb (seg_max_key meta) low || oltb high (seg_min_key meta) || (newest <? seg_min_version meta))
        (left_out segments selected)
  | _, _, _ => true
  end.

(** ** What a reader sees does not depend on the order of the segments *)

(** Two rows of a key and a version are one row. *)
Definition consistent (rows : list StoredRow) : Prop :=
  forall a b, In a rows -> In b rows -> row_key a = row_key b -> row_version a = row_version b -> a = b.

Lemma latest_fold_max k w l r :
  foldl (latest_step k) w l = Some r ->
  (match w with Some c => row_version c <= row_version r | None => True end) /\
  forall x, In x l -> row_key x = k -> row_version x <= row_version r.
Proof.
  revert w; induction l as [|y l IH]; intros w Hf; cbn [foldl] in Hf.
  { subst w. split; [lia|easy]. }
  apply IH in Hf as [Hw Hl]. unfold latest_step, better in Hw.
  destruct (oeqb (row_key y) k) eqn:E.
  - destruct w as [c|]; [destruct (Z.leb_spec (row_version c) (row_version y))|];
      (split; [lia|]); intros x [<-|Hx] Hk; try lia; auto.
  - split; [easy|]. intros x [<-|Hx] Hk; [|auto]. apply oeqb_spec in Hk. congruence.
Qed.

Lemma latest_max k l r : latest k l = Some r -> forall x, In x l -> row_key x = k -> row_version x <= row_version r.
Proof. intros Hl. now apply (latest_fold_max k None). Qed.

Lemma latest_unique k l r :
  consistent l -> In r l -> row_key r = k -> (forall x, In x l -> row_key x = k -> row_version x <= row_version r) ->
  latest k l = Some r.
Proof.
  intros Hc Hr Hk Hm. destruct (latest k l) as [w|] eqn:E; [|now destruct (latest_none k l E r Hr)].
  f_equal. destruct (latest_in k l w E) as [Hw Hkw]. apply Hc; [easy..|congruence|].
  pose proof (latest_max k l w E r Hr Hk). specialize (Hm w Hw Hkw). lia.
Qed.

Lemma consistent_incl l l' : consistent l -> incl l' l -> consistent l'.
Proof. intros Hc Hi a b Ha Hb. apply Hc; now apply Hi. Qed.

Lemma latest_incl k l l' : consistent l -> incl l l' -> incl l' l -> latest k l = latest k l'.
Proof.
  intros Hc Hi Hi'. destruct (latest k l) as [r|] eqn:E.
  - symmetry. destruct (latest_in k l r E) as [Hr Hk]. apply latest_unique; [now apply (consistent_incl l)|now apply Hi|easy|].
    intros x Hx. now apply (latest_max k l r E), Hi'.
  - destruct (latest k l') as [r|] eqn:E'; [|easy]. destruct (latest_in k l' r E') as [Hr Hk].
    now destruct (latest_none k l E r (Hi' r Hr)).
Qed.

(** ** What is taken and what is left *)

Lemma index_in_spec selected index : index_in selected index = true <-> In index selected.
Proof.
  unfold index_in. rewrite existsb_exists. split.
  - intros (x & Hx & ->%Nat.eqb_eq). easy.
  - intros Hx. exists index. split; [easy|apply Nat.eqb_refl].
Qed.

Lemma in_taken {A} (l : list A) selected a :
  In a (taken l selected) <-> exists index, In index selected /\ l !! index = Some a.
Proof.
  unfold taken. rewrite <- list_elem_of_In, list_elem_of_omap. split; intros (i & H1 & H2); exists i.
  - now rewrite <- list_elem_of_In.
  - now rewrite list_elem_of_In.
Qed.

Lemma in_left_out_from {A} start (l : list A) selected a :
  In a (left_out_from start l selected) <->
  exists index, ~ In (start + index)%nat selected /\ l !! index = Some a.
Proof.
  revert start; induction l as [|x l IH]; intros start; cbn [left_out_from].
  { split; [easy|]. intros (i & _ & Hi). now rewrite lookup_nil in Hi. }
  assert (Hs : (exists index, ~ In (start + index)%nat selected /\ (x :: l) !! index = Some a) <->
               (~ In start selected /\ x = a) \/ exists index, ~ In (S start + index)%nat selected /\ l !! index = Some a).
  { split.
    - intros ([|i] & Hn & Hi); [left|right].
      + rewrite Nat.add_0_r in Hn. now injection Hi as ->.
      + exists i. now rewrite Nat.add_succ_comm.
    - intros [(Hn & ->)|(i & Hn & Hi)]; [exists O; now rewrite Nat.add_0_r|].
      exists (S i). now rewrite <- Nat.add_succ_comm. }
  rewrite Hs. destruct (index_in selected start) eqn:E.
  - apply index_in_spec in E. rewrite IH. tauto.
  - assert (~ In start selected) by (intros Hin; apply index_in_spec in Hin; congruence). cbn [In]. rewrite IH. tauto.
Qed.

Lemma in_left_out {A} (l : list A) selected a :
  In a (left_out l selected) <-> exists index, ~ In index selected /\ l !! index = Some a.
Proof. apply (in_left_out_from 0). Qed.

Lemma left_out_Forall2 {A B} (R : A -> B -> Prop) l k selected :
  Forall2 R l k -> Forall2 R (left_out l selected) (left_out k selected).
Proof.
  unfold left_out. generalize O as start. intros start Hlk. revert start.
  induction Hlk as [|a b l k Hab _ IH]; intros start; cbn [left_out_from]; [constructor|].
  destruct (index_in selected start); [apply IH|]. constructor; [easy|apply IH].
Qed.

Lemma taken_Forall2 {A B} (R : A -> B -> Prop) l k selected :
  Forall2 R l k -> Forall2 R (taken l selected) (taken k selected).
Proof.
  intros Hlk. unfold taken. induction selected as [|i selected IH]; [constructor|]. cbn.
  destruct (l !! i) as [a|] eqn:Ea.
  - destruct (Forall2_lookup_l _ _ _ _ _ Hlk Ea) as (b & -> & Hab). now constructor.
  - apply lookup_ge_None in Ea. rewrite (Forall2_length _ _ _ Hlk) in Ea. now rewrite (proj2 (lookup_ge_None _ _) Ea).
Qed.

(** Every row is of a segment taken or of one left out. *)
Lemma taken_or_left (rowss : list (list StoredRow)) selected r :
  In r (concat rowss) <-> In r (concat (taken rowss selected)) \/ In r (concat (left_out rowss selected)).
Proof.
  rewrite !in_concat. split.
  - intros (rows & Hrows & Hr). apply list_elem_of_In, list_elem_of_lookup in Hrows as [i Hi].
    destruct (in_dec Nat.eq_dec i selected); [left|right]; exists rows; (split; [|easy]).
    + apply in_taken. eauto.
    + apply in_left_out. eauto.
  - intros [(rows & Hrows & Hr)|(rows & Hrows & Hr)]; exists rows; (split; [|easy]).
    + apply in_taken in Hrows as (i & _ & Hi). now apply list_elem_of_In, (list_elem_of_lookup_2 _ i).
    + apply in_left_out in Hrows as (i & _ & Hi). now apply list_elem_of_In, (list_elem_of_lookup_2 _ i).
Qed.

(** ** A merge keeps what a reader sees *)

(** A segment of the manifest and the rows it gives under the current schema. *)
Record segment_holds (dir : Directory) (schema : TableSchema) (meta : SegmentFacts) (rows : list StoredRow) : Prop := {
  holds_reads : read_rows dir schema meta = Ok rows;
  holds_keys : forall r, In r rows -> ole (seg_min_key meta) (row_key r) /\ ole (row_key r) (seg_max_key meta);
  holds_versions : forall r, In r rows -> seg_min_version meta <= row_version r <= seg_max_version meta;
  holds_newest : exists r, In r rows /\ row_version r = seg_max_version meta;
  holds_ascending : key_ascending rows;
  holds_rows : Forall (fun r => durable_row r = r /\ row_fits schema r) rows;
  holds_some : rows <> [];
  holds_count : seg_row_count meta = len rows;
  holds_unique : seg_unique_keys meta = true -> Forall (fun r => row_deleted r = false) rows;
  holds_tombstones : forall smas, seg_smas meta = Some smas -> smas_tombstones smas = len (List.filter row_deleted rows)
}.

Lemma holds_sorted dir schema meta rows : segment_holds dir schema meta rows -> key_sorted rows.
Proof. intros Hh. exact (key_ascending_sorted _ (holds_ascending _ _ _ _ Hh)). Qed.

Lemma foldl_min_le z zs x : x = z \/ In x zs -> foldl Z.min z zs <= x.
Proof.
  revert z x; induction zs as [|y zs IH]; intros z x; cbn [foldl]; [intros [->|[]]; lia|].
  intros Hx. destruct (Z.min_spec z y) as [[? E]|[? E]]; rewrite E.
  - destruct Hx as [->|[<-|Hx]]; [now apply IH; left| |now apply IH; right]. specialize (IH z z (or_introl eq_refl)). lia.
  - destruct Hx as [->|[<-|Hx]]; [|now apply IH; left|now apply IH; right]. specialize (IH y y (or_introl eq_refl)). lia.
Qed.

Lemma foldl_max_ge z zs x : x = z \/ In x zs -> x <= foldl Z.max z zs.
Proof.
  revert z x; induction zs as [|y zs IH]; intros z x; cbn [foldl]; [intros [->|[]]; lia|].
  intros Hx. destruct (Z.max_spec z y) as [[? E]|[? E]]; rewrite E.
  - destruct Hx as [->|[<-|Hx]]; [|now apply IH; left|now apply IH; right]. specialize (IH y y (or_introl eq_refl)). lia.
  - destruct Hx as [->|[<-|Hx]]; [now apply IH; left| |now apply IH; right]. specialize (IH z z (or_introl eq_refl)). lia.
Qed.

Lemma foldl_max_in z zs : foldl Z.max z zs = z \/ In (foldl Z.max z zs) zs.
Proof.
  revert z; induction zs as [|y zs IH]; intros z; cbn [foldl]; [now left|]. destruct (IH (Z.max z y)) as [E|E]; [|right; now right].
  rewrite E. destruct (Z.max_spec z y) as [[_ ->]|[_ ->]]; [right; now left|now left].
Qed.

Lemma facts_bounds `{Checksum} `{BlockSketches} id schema rows block_rows unique meta :
  segment_facts id schema rows block_rows unique = Ok meta -> key_sorted rows ->
  (forall r, In r rows -> ole (seg_min_key meta) (row_key r) /\ ole (row_key r) (seg_max_key meta)) /\
  (forall r, In r rows -> seg_min_version meta <= row_version r <= seg_max_version meta).
Proof.
  intros (first & rest & bloom & -> & _ & ->)%segment_facts_inv Hs.
  split; intros r Hr; cbn [written_facts seg_min_key seg_max_key seg_min_version seg_max_version].
  - now apply key_sorted_last.
  - unfold list_min, list_max. cbn [map]. destruct Hr as [->|Hr].
    + split; [apply foldl_min_le|apply foldl_max_ge]; now left.
    + apply (in_map row_version) in Hr. split; [apply foldl_min_le|apply foldl_max_ge]; now right.
Qed.

(** *** What a segment just written holds *)

Lemma durable_ascending rows : key_ascending rows -> key_ascending (map durable_row rows).
Proof. unfold key_ascending. induction 1 as [|r rows Hs IH Hf]; constructor; [easy|]. now apply Forall_fmap. Qed.

Lemma filter_durable rows : len (List.filter row_deleted (map durable_row rows)) = len (List.filter row_deleted rows).
Proof. induction rows as [|r rows IH]; [easy|]. cbn. destruct (row_deleted r); rewrite ?len_cons; lia. Qed.

Lemma facts_hold `{Checksum} `{BlockSketches} dir id schema rows block_rows unique meta :
  segment_facts id schema rows block_rows unique = Ok meta -> read_rows dir schema meta = Ok (map durable_row rows) ->
  Forall (row_fits schema) rows -> key_ascending rows -> (unique = true -> Forall (fun r => row_deleted r = false) rows) ->
  segment_holds dir schema meta (map durable_row rows).
Proof.
  intros Hf Hr Hfit Ha Hu. destruct (facts_bounds _ _ _ _ _ _ Hf (key_ascending_sorted _ Ha)) as [Hk Hv].
  pose proof Hf as (first & rest & bloom & -> & _ & Hm)%segment_facts_inv. set (rows := first :: rest) in *. split.
  - exact Hr.
  - intros x (r & <- & Hx)%in_map_iff. exact (Hk r Hx).
  - intros x (r & <- & Hx)%in_map_iff. exact (Hv r Hx).
  - destruct (foldl_max_in (row_version first) (map row_version rest)) as [E|E].
    + exists (durable_row first). split; [now left|]. now rewrite Hm.
    + apply in_map_iff in E as (r & E & Hr'). exists (durable_row r). split; [right; now apply in_map|]. rewrite Hm. exact E.
  - now apply durable_ascending.
  - apply Forall_fmap. eapply Forall_impl; [exact Hfit|]. intros r Hfr. split; [apply durable_row_idem|].
    unfold row_fits, durable_row in *. cbn [row_values compose]. now rewrite length_map.
  - easy.
  - rewrite Hm, len_map. easy.
  - rewrite Hm. cbn [written_facts seg_unique_keys]. intros E. apply Forall_fmap. exact (Hu E).
  - rewrite Hm. cbn [written_facts seg_smas]. intros smas [= <-]. cbn [compute_segment_smas smas_tombstones]. now rewrite filter_durable.
Qed.

(** Whatever the outcome, a segment write touches only the file of its identifier; when it
    succeeds, the file holds the rows. *)
Lemma write_segment_cases `{Checksum} `{BlockSketches} dir id schema rows block_rows unique io r dir' :
  write_segment dir id schema rows block_rows unique io = (r, dir') ->
  (forall name, name <> segment_file_name id -> omap_get name dir' = omap_get name dir) /\
  (forall meta, r = Ok meta -> schema_ok schema -> Forall (row_fits schema) rows -> key_ascending rows ->
     (unique = true -> Forall (fun r => row_deleted r = false) rows) ->
     segment_holds dir' schema meta (map durable_row rows) /\ seg_id meta = id /\ seg_file_name meta = segment_file_name id).
Proof.
  unfold write_segment. destruct (segment_facts _ _ _ _ _) as [meta|e] eqn:Ef; [|now intros [= <- <-]].
  destruct (write_file schema meta rows) as [f|e] eqn:Ew; [|now intros [= <- <-]].
  assert (Hn : seg_id meta = id /\ seg_file_name meta = segment_file_name id)
    by (apply segment_facts_inv in Ef as (first & rest & bloom & _ & _ & ->); easy).
  assert (Hfr : forall name, name <> segment_file_name id -> omap_get name (omap_insert (seg_file_name meta) f dir) = omap_get name dir).
  { intros name Hne. apply omap_get_insert_ne. destruct Hn as [_ ->]. congruence. }
  destruct io; intros [= <- <-]; (split; [easy|]); try easy. intros m [= <-] Hs Hfit Ha Hu. split; [|exact Hn].
  apply (facts_hold _ _ _ _ _ _ _ Ef); [|easy..]. unfold read_rows. rewrite omap_get_insert_eq.
  destruct (read_written schema rows meta id block_rows unique Hs Hfit Ef) as (g & Hg & Hrd). congruence.
Qed.

(** A segment keeps its rows while its file stays. *)
Lemma holds_frame dir dir' schema meta rows :
  omap_get (seg_file_name meta) dir' = omap_get (seg_file_name meta) dir ->
  segment_holds dir schema meta rows -> segment_holds dir' schema meta rows.
Proof. intros E []. split; try easy. unfold read_rows in *. now rewrite E. Qed.

Lemma min_key_le keys m k : min_key keys = Some m -> In k keys -> ole m k.
Proof.
  unfold min_key. destruct keys as [|x keys]; [easy|]. intros [= <-].
  assert (Hf : forall x, ole (foldl (fun m k => if oltb k m then k else m) x keys) x /\
                 forall k, In k keys -> ole (foldl (fun m k => if oltb k m then k else m) x keys) k).
  { clear. induction keys as [|y keys IH]; intros x; cbn [foldl]; [split; [apply ole_refl|easy]|].
    destruct (oltb y x) eqn:E; [apply oltb_spec, olt_le in E|apply oltb_false in E];
      [destruct (IH y) as [A B]|destruct (IH x) as [A B]];
      (split; [|intros k [<-|Hk]; [|now apply B]]); try easy; eapply ole_trans; eauto. }
  destruct (Hf x) as [A B]. intros [<-|Hk]; auto.
Qed.

Lemma max_key_ge keys m k : max_key keys = Some m -> In k keys -> ole k m.
Proof.
  unfold max_key. destruct keys as [|x keys]; [easy|]. intros [= <-].
  assert (Hf : forall x, ole x (foldl (fun m k => if oltb k m then m else k) x keys) /\
                 forall k, In k keys -> ole k (foldl (fun m k => if oltb k m then m else k) x keys)).
  { clear. induction keys as [|y keys IH]; intros x; cbn [foldl]; [split; [apply ole_refl|easy]|].
    destruct (oltb y x) eqn:E; [apply oltb_spec, olt_le in E|apply oltb_false in E];
      [destruct (IH x) as [A B]|destruct (IH y) as [A B]];
      (split; [|intros k [<-|Hk]; [|now apply B]]); try easy; eapply ole_trans; eauto. }
  destruct (Hf x) as [A B]. intros [<-|Hk]; auto.
Qed.

Section keeping.
Context `{Checksum} `{BlockSketches} `{Layout}.
Variables (spec : merge_spec) (segments : list SegmentFacts) (rowss : list (list StoredRow)) (selected : list nat)
  (dir : Directory).

(** What lets a merge drop deletes: nothing left out reaches the window, or the answer of
    [merge_drops_tombstones]. *)
Definition may_drop : Prop :=
  match ms_window spec with
  | Some (low, high) =>
      forall meta, In meta (left_out segments selected) -> range_reaches low high (seg_min_key meta) (seg_max_key meta) = false
  | None => ms_drop_tombstones spec = merge_drops_tombstones segments selected
  end.

Hypothesis holds : Forall2 (segment_holds dir (ms_schema spec)) segments rowss.
Hypothesis drop_ok : may_drop.

Lemma row_of_taken r :
  In r (concat (taken rowss selected)) ->
  exists meta rows, In meta (taken segments selected) /\ In r rows /\ segment_holds dir (ms_schema spec) meta rows.
Proof.
  intros (rows & (i & Hi & Hrows)%in_taken & Hr)%in_concat.
  destruct (Forall2_lookup_r _ _ _ _ _ holds Hrows) as (meta & Hm & Hh). exists meta, rows. split; [|easy].
  apply in_taken. eauto.
Qed.

Lemma row_of_left r :
  In r (concat (left_out rowss selected)) ->
  exists meta rows, In meta (left_out segments selected) /\ In r rows /\ segment_holds dir (ms_schema spec) meta rows.
Proof.
  intros (rows & (i & Hi & Hrows)%in_left_out & Hr)%in_concat.
  destruct (Forall2_lookup_r _ _ _ _ _ holds Hrows) as (meta & Hm & Hh). exists meta, rows. split; [|easy].
  apply in_left_out. eauto.
Qed.

Lemma drop_tombstones_newer w x :
  merge_drops_tombstones segments selected = true ->
  In w (concat (taken rowss selected)) -> In x (concat (left_out rowss selected)) -> row_key x = row_key w ->
  row_version w < row_version x.
Proof.
  intros Hd (m & rows & Hm & Hr & Hh)%row_of_taken (m' & rows' & Hm' & Hr' & Hh')%row_of_left Hk.
  destruct (holds_keys _ _ _ _ Hh w Hr) as [A1 A2]. destruct (holds_keys _ _ _ _ Hh' x Hr') as [B1 B2].
  pose proof (holds_versions _ _ _ _ Hh w Hr). pose proof (holds_versions _ _ _ _ Hh' x Hr'). rewrite Hk in *.
  unfold merge_drops_tombstones in Hd.
  destruct (min_key (map seg_min_key (taken segments selected))) as [low|] eqn:El; [|now destruct (taken segments selected)].
  destruct (max_key (map seg_max_key (taken segments selected))) as [high|] eqn:Eh; [|now destruct (taken segments selected)].
  pose proof (min_key_le _ _ _ El (in_map seg_min_key _ _ Hm)) as Hlow.
  pose proof (max_key_ge _ _ _ Eh (in_map seg_max_key _ _ Hm)) as Hhigh.
  destruct (versions_max (map seg_max_version (taken segments selected))) as [newest|] eqn:En; [|now destruct (taken segments selected)].
  assert (Hnew : seg_max_version m <= newest).
  { unfold versions_max in En. destruct (map seg_max_version (taken segments selected)) as [|v vs] eqn:Ev; [easy|].
    injection En as <-. apply foldl_max_ge. apply (in_map seg_max_version) in Hm. rewrite Ev in Hm.
    destruct Hm; [left; congruence|now right]. }
  rewrite forallb_forall in Hd. specialize (Hd m' Hm'). apply orb_prop in Hd as [[Hd|Hd]%orb_prop|Hd].
  - apply oltb_spec in Hd. exfalso. apply olt_not_le in Hd. apply Hd.
    now apply (ole_trans _ (seg_min_key m)); [|apply (ole_trans _ (row_key w))].
  - apply oltb_spec in Hd. exfalso. apply olt_not_le in Hd. apply Hd.
    now apply (ole_trans _ (row_key w)); [|apply (ole_trans _ (seg_max_key m))].
  - apply Z.ltb_lt in Hd. lia.
Qed.

(** A dropped delete hides nothing that is left out. *)
Lemma dropped_newer w x :
  kept spec w = false -> In w (concat (taken rowss selected)) -> In x (concat (left_out rowss selected)) ->
  row_key x = row_key w -> row_version w < row_version x.
Proof.
  intros Hkept Hw Hx Hk. unfold kept in Hkept. apply orb_false_elim in Hkept as [Hdrops%negb_false_iff _].
  unfold drops in Hdrops. pose proof drop_ok as Hd. unfold may_drop in Hd. destruct (ms_window spec) as [[low high]|] eqn:Ew.
  - cbn [is_some in_merge_window] in Hdrops. exfalso.
    destruct (row_of_left x Hx) as (meta & rows & Hm & Hr & Hh). destruct (holds_keys _ _ _ _ Hh x Hr) as [B1 B2].
    specialize (Hd meta Hm). rewrite Hk in B1, B2. apply andb_prop in Hdrops as [Hl Hhi]. unfold range_reaches in Hd.
    apply andb_false_iff in Hd as [Hd|Hd].
    + destruct low as [low|]; [|easy]. apply oleb_false in Hd. apply oleb_spec in Hl. apply olt_not_le in Hd. apply Hd.
      now apply (ole_trans _ (row_key w)).
    + destruct high as [high|]; [|easy]. apply oltb_false in Hd. apply oltb_spec in Hhi. apply olt_not_le in Hhi. apply Hhi.
      now apply (ole_trans _ (seg_min_key meta)).
  - cbn [is_some] in Hdrops. rewrite Hdrops in Hd. now apply drop_tombstones_newer.
Qed.

Lemma taken_sorted : sorted_streams (taken rowss selected).
Proof.
  unfold sorted_streams. pose proof (taken_Forall2 _ _ _ selected holds) as Ht.
  apply List.Forall_forall. intros rows Hrows. apply list_elem_of_In, list_elem_of_lookup in Hrows as [i Hi].
  destruct (Forall2_lookup_r _ _ _ _ _ Ht Hi) as (m & _ & Hh). apply (holds_sorted _ _ _ _ Hh).
Qed.

Lemma taken_good : Forall (good spec) (concat (taken rowss selected)).
Proof.
  apply List.Forall_forall. intros r (m & rows & _ & Hr & Hh)%row_of_taken.
  exact (proj1 (List.Forall_forall _ _) (holds_rows _ _ _ _ Hh) r Hr).
Qed.

(** The rows after: what is left out, and what is kept of the winners. *)
Definition after_rows : list (list StoredRow) := left_out rowss selected ++ [List.filter (kept spec) (winners (taken rowss selected))].

Lemma after_incl : incl (concat after_rows) (concat rowss).
Proof.
  unfold after_rows. rewrite concat_app. cbn [concat]. rewrite app_nil_r. intros r Hr. apply (taken_or_left rowss selected).
  apply in_app_or in Hr as [Hr|Hr]; [now right|left]. apply filter_In in Hr as [Hr _].
  now apply (winners_spec (taken rowss selected) taken_sorted).
Qed.

Lemma in_after r :
  In r (concat after_rows) <->
  In r (concat (left_out rowss selected)) \/ (In r (winners (taken rowss selected)) /\ kept spec r = true).
Proof. unfold after_rows. rewrite concat_app. cbn [concat]. rewrite app_nil_r, in_app_iff, filter_In. tauto. Qed.

Lemma key_ascending_unique rows a b :
  key_ascending rows -> In a rows -> In b rows -> row_key a = row_key b -> a = b.
Proof.
  induction rows as [|r rows IH]; [easy|]. intros [Hs Hf]%key_ascending_cons [->|Ha] [->|Hb] E; [easy| | |auto].
  - specialize (Hf b Hb). rewrite E in Hf. now apply olt_irrefl in Hf.
  - specialize (Hf a Ha). rewrite E in Hf. now apply olt_irrefl in Hf.
Qed.

(** The latest row, when a merged segment has it, is its key's winner. *)
Lemma latest_wins k w :
  consistent (concat rowss) -> latest k (concat rowss) = Some w -> In w (concat (taken rowss selected)) ->
  In w (winners (taken rowss selected)).
Proof.
  intros Hc Ew Hw. destruct (latest_in _ _ _ Ew) as [_ Hk]. destruct (winners_spec (taken rowss selected) taken_sorted) as (_ & _ & Hl).
  apply (latest_in k), (eq_trans (Hl k)). apply latest_unique; [apply (consistent_incl _ _ Hc)|easy..|].
  - intros x Hx. apply (taken_or_left rowss selected). now left.
  - intros x Hx. apply (latest_max _ _ _ Ew). apply (taken_or_left rowss selected). now left.
Qed.

Lemma keeps_visible k : consistent (concat rowss) -> visible k (concat after_rows) = visible k (concat rowss).
Proof.
  intros Hc. pose proof (consistent_incl _ _ Hc after_incl) as Hca. unfold visible.
  destruct (latest k (concat rowss)) as [w|] eqn:Ew.
  2:{ destruct (latest k (concat after_rows)) as [r|] eqn:Er; [|easy]. destruct (latest_in _ _ _ Er) as [Hr Hk].
      now destruct (latest_none _ _ Ew r (after_incl r Hr)). }
  destruct (latest_in _ _ _ Ew) as [Hw Hk]. pose proof (latest_max _ _ _ Ew) as Hmax.
  assert (Hsame : In w (concat after_rows) -> latest k (concat after_rows) = Some w).
  { intros Hin. apply latest_unique; [easy..|]. intros x Hx. now apply Hmax, after_incl. }
  apply (taken_or_left rowss selected) in Hw as [Hw|Hw]; [|now rewrite Hsame by (apply in_after; now left)].
  pose proof (latest_wins k w Hc Ew Hw) as Hww.
  destruct (kept spec w) eqn:Ekept; [now rewrite Hsame by (apply in_after; now right)|].
  assert (Hdel : row_deleted w = true).
  { unfold kept, not_deleted in Ekept. apply orb_false_elim in Ekept as [_ E%negb_false_iff]. exact E. }
  cbn [live]. rewrite Hdel. destruct (latest k (concat after_rows)) as [r|] eqn:Er; [exfalso|easy].
  destruct (latest_in _ _ _ Er) as [Hr Hkr]. apply in_after in Hr as [Hr|[Hr Hkr']].
  - assert (row_version w < row_version r) by (apply dropped_newer; [easy..|congruence]).
    assert (row_version r <= row_version w); [|lia]. apply Hmax; [|easy]. apply (taken_or_left rowss selected). now right.
  - destruct (winners_spec (taken rowss selected) taken_sorted) as (Ha & _ & _).
    rewrite (key_ascending_unique _ r w Ha Hr Hww) in Hkr' by congruence. congruence.
Qed.

End keeping.

(** ** Every plan takes segments of the table, each once *)

Lemma insert_by_perm {A} (less : A -> A -> bool) x l : insert_by less x l ≡ₚ x :: l.
Proof.
  induction l as [|y l IH]; [easy|]. cbn [insert_by]. destruct (less y x); [|easy].
  transitivity (y :: x :: l); [now apply perm_skip|apply perm_swap].
Qed.

Lemma sort_by_perm {A} (less : A -> A -> bool) l : sort_by less l ≡ₚ l.
Proof. induction l as [|x l IH]; [easy|]. unfold sort_by in *. cbn [foldr].
  transitivity (x :: foldr (insert_by less) [] l); [apply insert_by_perm|now apply perm_skip].
Qed.

Lemma windows_split {A} n (l : list A) w rest : In (w, rest) (windows n l) -> exists pre, l = pre ++ w ++ rest.
Proof.
  induction l as [|x l IH]; [easy|]. cbn [windows]. destruct (Nat.leb n (length (x :: l))); [|easy].
  intros [Hw|Hw].
  - injection Hw as <- <-. exists []. cbn [app]. now rewrite take_drop.
  - destruct (IH Hw) as [pre ->]. now exists (x :: pre).
Qed.

Lemma find_map_Some {A B} (f : A -> option B) l b : find_map f l = Some b -> exists a, In a l /\ f a = Some b.
Proof.
  induction l as [|a l IH]; [easy|]. cbn [find_map]. destruct (f a) as [b'|] eqn:E.
  - intros [= ->]. exists a. split; [now left|easy].
  - intros (x & Hx & Ex)%IH. exists x. split; [now right|easy].
Qed.

Lemma filter_sublist {A} (p : A -> bool) l : List.filter p l `sublist_of` l.
Proof. induction l as [|x l IH]; [constructor|]. cbn [List.filter]. destruct (p x); now constructor. Qed.

Lemma sum_of_app {A} (f : A -> Z) l k : sum_of f (l ++ k) = sum_of f l + sum_of f k.
Proof. unfold sum_of. induction l as [|x l IH]; [easy|]. cbn [app foldr]. lia. Qed.

Lemma sum_of_perm {A} (f : A -> Z) l k : l ≡ₚ k -> sum_of f l = sum_of f k.
Proof. unfold sum_of. induction 1; cbn [foldr]; lia. Qed.

Lemma sum_of_nonneg {A} (f : A -> Z) l : (forall x, x ∈ l -> 0 <= f x) -> 0 <= sum_of f l.
Proof.
  unfold sum_of. induction l as [|x l IH]; intros Hf; cbn [foldr]; [lia|].
  specialize (Hf x (list_elem_of_here _ _)) as Hx. assert (0 <= foldr (fun a s => f a + s) 0 l); [|lia].
  apply IH. intros y Hy. apply Hf. now right.
Qed.

Lemma sum_of_submseteq {A} (f : A -> Z) l k : l ⊆+ k -> (forall x, x ∈ k -> 0 <= f x) -> sum_of f l <= sum_of f k.
Proof.
  intros [r Hr]%submseteq_Permutation Hf. rewrite (sum_of_perm f k _ Hr), sum_of_app.
  enough (0 <= sum_of f r) by lia. apply sum_of_nonneg. intros x Hx. apply Hf. rewrite Hr. set_solver.
Qed.

Lemma chosen_spec selected c : chosen selected c = true <-> cc_index c ∈ map cc_index selected.
Proof.
  unfold chosen. rewrite existsb_exists, list_elem_of_fmap. split.
  - intros (m & Hm & E%Nat.eqb_eq). exists m. split; [easy|]. now apply list_elem_of_In.
  - intros (m & E & Hm). exists m. split; [now apply list_elem_of_In|]. now apply Nat.eqb_eq.
Qed.

Section picking.
Variable candidates : list CompactionCandidate.
Hypothesis indices : NoDup (map cc_index candidates).

Lemma picked_NoDup selected : selected ⊆+ candidates -> NoDup (map cc_index selected).
Proof.
  intros [r Hr]%submseteq_Permutation. pose proof indices as Hn.
  apply (fmap_Permutation cc_index) in Hr. rewrite Hr in Hn. rewrite fmap_app in Hn. now apply NoDup_app in Hn.
Qed.

(** What is not chosen yet may be added. *)
Lemma picked_more selected p :
  selected ⊆+ candidates -> (forall c, p c = true -> chosen selected c = false) ->
  selected ++ List.filter p candidates ⊆+ candidates.
Proof.
  intros Hs Hp. apply NoDup_submseteq.
  - apply NoDup_app. split; [exact (NoDup_fmap_1 _ _ (picked_NoDup _ Hs))|]. split.
    + intros c Hc Hf. apply list_elem_of_In, filter_In in Hf as [_ Hpc]. apply Hp in Hpc.
      enough (chosen selected c = true) by congruence. apply chosen_spec. now apply (list_elem_of_fmap_2 cc_index).
    + apply (sublist_NoDup _ candidates); [exact (NoDup_fmap_1 _ _ indices)|apply filter_sublist].
  - intros c [Hc|Hc]%elem_of_app; [now apply (elem_of_submseteq selected)|].
    apply list_elem_of_In, filter_In in Hc as [Hc _]. now apply list_elem_of_In.
Qed.

Lemma picked_index c selected : selected ⊆+ candidates -> c ∈ candidates -> chosen selected c = true -> c ∈ selected.
Proof.
  intros Hs Hc (m & E & Hm)%chosen_spec%list_elem_of_fmap. enough (c = m) by now subst.
  assert (Hmc : m ∈ candidates) by now apply (elem_of_submseteq selected).
  apply list_elem_of_lookup in Hc as [i Hi]. apply list_elem_of_lookup in Hmc as [j Hj].
  assert (i = j); [|congruence]. apply (NoDup_lookup (map cc_index candidates) i j (cc_index c)); [easy|..].
  - now rewrite list_lookup_fmap, Hi.
  - rewrite list_lookup_fmap, Hj. cbn. congruence.
Qed.

(** *** The closure of a seed *)

Definition unpicked (cluster : list CompactionCandidate) : nat :=
  length (List.filter (fun c => negb (chosen cluster c)) candidates).

Lemma filter_length_lt {A} (p q : A -> bool) l x :
  (forall y, p y = true -> q y = true) -> In x l -> q x = true -> p x = false ->
  (length (List.filter p l) < length (List.filter q l))%nat.
Proof.
  intros Hpq Hx Hq Hp. induction l as [|y l IH]; [easy|]. cbn [List.filter].
  assert (Hle : (length (List.filter p l) <= length (List.filter q l))%nat).
  { clear -Hpq. induction l as [|y l IH]; [easy|]. cbn [List.filter]. destruct (p y) eqn:Ep.
    - rewrite (Hpq y Ep). cbn [length]. lia.
    - destruct (q y); cbn [length]; lia. }
  destruct Hx as [->|Hx]; [rewrite Hp, Hq; cbn [length]; lia|]. specialize (IH Hx).
  destruct (p y) eqn:Ep; [rewrite (Hpq y Ep); cbn [length]; lia|]. destruct (q y); cbn [length]; lia.
Qed.

Lemma unpicked_shrinks cluster reached c :
  In c candidates -> chosen cluster c = false -> In c reached -> (unpicked (cluster ++ reached) < unpicked cluster)%nat.
Proof.
  intros Hc Hn Hr. unfold unpicked. apply (filter_length_lt _ _ _ c); [|easy|now rewrite Hn|].
  - intros y Hy. apply negb_true_iff in Hy. apply negb_true_iff. unfold chosen in *.
    rewrite existsb_app in Hy. now apply orb_false_elim in Hy as [-> _].
  - apply negb_false_iff. unfold chosen. rewrite existsb_app. apply orb_true_iff. right. apply existsb_exists.
    exists c. split; [easy|apply Nat.eqb_refl].
Qed.

(** Nothing outside the cluster overlaps a member. *)
Definition overlap_closed (cluster : list CompactionCandidate) : Prop :=
  forall c m, c ∈ candidates -> m ∈ cluster -> overlaps m c = true -> c ∈ cluster.

(** A chain of overlapping segments from the seed. *)
Inductive linked (seed : list CompactionCandidate) : CompactionCandidate -> Prop :=
| linked_seed c : c ∈ seed -> linked seed c
| linked_step c m : linked seed m -> c ∈ candidates -> overlaps m c = true -> linked seed c.

Lemma reached_loop_spec seed fuel cluster :
  (unpicked cluster <= fuel)%nat -> cluster ⊆+ candidates -> (forall c, c ∈ cluster -> linked seed c) ->
  exists more, reached_loop fuel candidates cluster = cluster ++ more /\ cluster ++ more ⊆+ candidates /\
    overlap_closed (cluster ++ more) /\ (forall c, c ∈ cluster ++ more -> linked seed c).
Proof.
  revert cluster; induction fuel as [|fuel IH]; intros cluster Hf Hs Hl; cbn [reached_loop];
    set (p := fun c => negb (chosen cluster c) && existsb (fun m => overlaps m c) cluster);
    destruct (List.filter p candidates) as [|c rest] eqn:Er.
  1,3: exists []; rewrite app_nil_r; split; [easy|]; split; [easy|]; split; [|easy]; intros c m Hc Hm Ho;
    apply picked_index; [easy..|]; destruct (chosen cluster c) eqn:E; [easy|]; exfalso;
    assert (Hin : In c (List.filter p candidates)); [|now rewrite Er in Hin];
    apply filter_In; split; [now apply list_elem_of_In|]; unfold p; rewrite E; cbn [negb andb]; apply existsb_exists;
    exists m; split; [now apply list_elem_of_In|easy].
  all: assert (Hc : In c (List.filter p candidates)) by (rewrite Er; now left);
    apply filter_In in Hc as [Hc Hp]; unfold p in Hp; apply andb_prop in Hp as [Hn%negb_true_iff _].
  - pose proof (unpicked_shrinks cluster (c :: rest) c Hc Hn (or_introl eq_refl)). lia.
  - pose proof (unpicked_shrinks cluster (c :: rest) c Hc Hn (or_introl eq_refl)) as Hlt.
    destruct (IH (cluster ++ c :: rest)) as (more & -> & A & B & C); [lia| | |].
    + rewrite <- Er. apply picked_more; [easy|]. unfold p. intros x Hx. now apply andb_prop in Hx as [->%negb_true_iff _].
    + intros x [Hx|Hx]%elem_of_app; [now apply Hl|]. rewrite <- Er in Hx.
      apply list_elem_of_In, filter_In in Hx as [Hxc Hx]. unfold p in Hx. apply andb_prop in Hx as [_ Hx].
      apply existsb_exists in Hx as (m & Hm & Ho). apply (linked_step seed x m); [|now apply list_elem_of_In|easy].
      now apply Hl, list_elem_of_In.
    + exists ((c :: rest) ++ more). now rewrite !app_assoc.
Qed.

End picking.

Lemma reached_by_spec candidates seed :
  NoDup (map cc_index candidates) -> seed ⊆+ candidates ->
  exists more, reached_by candidates seed = seed ++ more /\ seed ++ more ⊆+ candidates /\
    overlap_closed candidates (seed ++ more) /\ (forall c, c ∈ seed ++ more -> linked candidates seed c).
Proof.
  intros Hn Hs. apply (reached_loop_spec candidates Hn seed); [apply filter_length_le|easy|apply linked_seed].
Qed.

(** ** Every plan is within its budget, and drops deletes only where nothing else reaches *)

Section soundness.
Context `{Layout}.
Variable options : StoreOptions.

Definition within_budget (selected : list CompactionCandidate) : Prop :=
  Z.min (2 ^ 64 - 1) (sum_of cc_row_count selected) <= opt_max_compaction_input_rows options.

Record sound_plan (candidates : list CompactionCandidate) (plan : CompactionPlan) (selected : list CompactionCandidate) : Prop := {
  sound_indices : plan_indices plan = map cc_index selected;
  sound_nonempty : selected <> [];
  sound_picked : selected ⊆+ candidates;
  sound_budget : plan_catching_up plan = false -> within_budget selected;
  sound_catching_up : plan_catching_up plan = true -> plan_window plan = None /\ overlap_closed candidates selected;
  sound_window : forall low high, plan_window plan = Some (low, high) ->
                   forall c, c ∈ candidates -> (c ∉ selected) -> reaches low high c = false
}.

Lemma sound_perm candidates candidates' plan selected :
  candidates ≡ₚ candidates' -> sound_plan candidates plan selected -> sound_plan candidates' plan selected.
Proof.
  intros Hp [A B C D E F]. split; try easy.
  - now rewrite <- Hp.
  - intros Hc. destruct (E Hc) as [E1 E2]. split; [easy|]. intros c m Hin. apply E2. now rewrite Hp.
  - intros low high Hw c Hin. apply (F low high Hw). now rewrite Hp.
Qed.

(** A plan without a window, within the budget. *)
Lemma sound_plan_for candidates selected :
  selected <> [] -> selected ⊆+ candidates -> sum_of cc_row_count selected <= opt_max_compaction_input_rows options ->
  sound_plan candidates (plan_for selected) selected.
Proof. intros Hn Hp Hb. split; try easy. intros _. unfold within_budget. lia. Qed.

Lemma admits_budget w :
  admits_window options w = true -> w <> [] /\ sum_of cc_row_count w <= opt_max_compaction_input_rows options.
Proof.
  unfold admits_window. destruct w as [|c w]; [easy|]. cbn [map sizes_min sizes_max].
  intros [Hb%Z.leb_le _]%andb_prop. easy.
Qed.

Lemma widen_prefix rest selected :
  admits_window options selected = true ->
  exists more, widen options selected rest = selected ++ more /\ more `sublist_of` rest /\
    admits_window options (selected ++ more) = true.
Proof.
  revert selected; induction rest as [|c rest IH]; intros selected Ha; cbn [widen].
  { exists []. rewrite app_nil_r. now repeat split. }
  destruct (admits_window options (selected ++ [c])) eqn:E; cbn [andb].
  - destruct (ranges_overlap (selected ++ [c])).
    + destruct (IH _ E) as (more & -> & Hs & Ha'). exists (c :: more). rewrite <- app_assoc in *. cbn [app] in *.
      split; [easy|]. split; [now constructor|easy].
    + exists []. rewrite app_nil_r. split; [easy|]. split; [apply sublist_nil_l|easy].
  - exists []. rewrite app_nil_r. split; [easy|]. split; [apply sublist_nil_l|easy].
Qed.

Lemma tier_window_sound candidates pre selected rest plan :
  candidates = pre ++ selected ++ rest -> tier_window options candidates selected rest = Some plan ->
  exists s, sound_plan candidates plan s.
Proof.
  intros Hc. unfold tier_window. destruct (admits_window options selected) eqn:Ea; [|easy]. cbn [negb orb].
  destruct (negb (ranges_overlap selected) || splits_a_layer selected candidates); [easy|].
  set (t := Z.to_nat _). destruct (admits_budget _ Ea) as [Hn Hb].
  assert (Hpick : forall more, more `sublist_of` rest -> selected ++ more ⊆+ candidates).
  { intros more Hm. rewrite Hc. apply submseteq_inserts_l, submseteq_skips_l. now apply sublist_submseteq. }
  destruct (_ <=? len candidates).
  - destruct (widen_prefix (take t rest) selected Ea) as (more & -> & Hs & Ha').
    destruct (admits_budget _ Ha') as [Hn' Hb'].
    destruct (_ && _); intros [= <-].
    + exists (selected ++ more). apply sound_plan_for; [easy| |easy]. apply Hpick. etrans; [exact Hs|apply sublist_take].
    + exists selected. apply sound_plan_for; [easy| |easy]. rewrite <- (app_nil_r selected). apply Hpick, sublist_nil_l.
  - rewrite Z.ltb_irrefl. cbn [andb]. intros [= <-]. exists selected. apply sound_plan_for; [easy| |easy].
    rewrite <- (app_nil_r selected). apply Hpick, sublist_nil_l.
Qed.

Lemma tier_plan_sound candidates plan :
  tier_plan options candidates = Some plan -> exists s, sound_plan candidates plan s.
Proof.
  unfold tier_plan. destruct (_ <=? len candidates); [|easy]. intros ([w rest] & Hin & Hw)%find_map_Some.
  destruct (windows_split _ _ _ _ Hin) as [pre Hpre]. now apply (tier_window_sound _ pre w rest).
Qed.

(** The cluster of a pair stays within the budget, and stops growing only when nothing is reached any
    more or what is reached does not fit. *)
Lemma cluster_loop_spec candidates fuel selected :
  NoDup (map cc_index candidates) -> (unpicked candidates selected <= fuel)%nat -> selected <> [] ->
  selected ⊆+ candidates -> sum_of cc_row_count selected <= opt_max_compaction_input_rows options ->
  let cluster := cluster_loop options fuel candidates selected in
  cluster <> [] /\ cluster ⊆+ candidates /\ sum_of cc_row_count cluster <= opt_max_compaction_input_rows options /\
  exists low high, min_key (map cc_minimum cluster) = Some low /\ max_key (map cc_maximum cluster) = Some high /\
    let reached := List.filter (fun c => oleb (cc_minimum c) high && oleb low (cc_maximum c)
                                         && negb (chosen cluster c)) candidates in
    reached = [] \/ opt_max_compaction_input_rows options < sum_of cc_row_count (cluster ++ reached).
Proof.
  intros Hnd. revert selected; induction fuel as [|fuel IH]; intros selected Hf Hn Hp Hb; cbn [cluster_loop];
    destruct (min_key (map cc_minimum selected)) as [low|] eqn:El; [|now destruct selected| |now destruct selected];
    (destruct (max_key (map cc_maximum selected)) as [high|] eqn:Eh; [|now destruct selected]);
    set (p := fun c => oleb (cc_minimum c) high && oleb low (cc_maximum c) && negb (chosen selected c));
    destruct (List.filter p candidates) as [|c rest] eqn:Er;
    try (split; [easy|]; split; [easy|]; split; [easy|]; exists low, high; split; [easy|]; split; [easy|]; now left).
  all: assert (Hc : In c (List.filter p candidates)) by (rewrite Er; now left);
    apply filter_In in Hc as [Hc Hpc]; unfold p in Hpc; apply andb_prop in Hpc as [_ Hch%negb_true_iff];
    pose proof (unpicked_shrinks candidates selected (c :: rest) c Hc Hch (or_introl eq_refl)) as Hlt.
  { lia. }
  destruct (Z.ltb_spec (opt_max_compaction_input_rows options) (sum_of cc_row_count (selected ++ c :: rest))) as [Hx|Hx].
  - split; [easy|]. split; [easy|]. split; [easy|]. exists low, high. split; [easy|]. split; [easy|]. right.
    fold p. now rewrite Er.
  - apply IH; [lia|now destruct selected| |easy]. rewrite <- Er. apply picked_more; [easy..|].
    unfold p. intros y Hy. now apply andb_prop in Hy as [_ Hy%negb_true_iff].
Qed.

(** *** One key range of a cluster *)

Lemma split_base_perm cluster l bases changes :
  let '(bases', changes') := foldl (split_base cluster) (bases, changes) l in
  bases' ++ changes' ≡ₚ bases ++ changes ++ l.
Proof.
  revert bases changes; induction l as [|c l IH]; intros bases changes; cbn [foldl].
  { now rewrite app_nil_r. }
  unfold split_base at 2. destruct (_ && _).
  - specialize (IH (bases ++ [c]) changes). destruct (foldl _ _ l) as [b' c']. rewrite IH. solve_Permutation.
  - specialize (IH bases (changes ++ [c])). destruct (foldl _ _ l) as [b' c']. rewrite IH. solve_Permutation.
Qed.

Lemma bases_that_fit_budget rows bases :
  0 <= rows -> (forall c, c ∈ bases -> 0 <= cc_row_count c) -> bases_that_fit options rows bases <> O ->
  Z.min (2 ^ 64 - 1) (rows + sum_of cc_row_count (take (bases_that_fit options rows bases) bases))
    <= opt_max_compaction_input_rows options.
Proof.
  revert rows; induction bases as [|b bases IH]; intros rows Hr Hc; [easy|]. cbn [bases_that_fit].
  destruct (Z.leb_spec (sat_add 64 rows (cc_row_count b)) (opt_max_compaction_input_rows options)) as [Hl|]; [|easy].
  intros _. pose proof (Hc b (list_elem_of_here _ _)) as Hb. unfold sat_add in *. remember (Z.min (2 ^ 64 - 1) (rows + cc_row_count b)) as rows' eqn:Erows.
  assert (Hc' : forall c, c ∈ bases -> 0 <= cc_row_count c) by (intros c Hin; apply Hc; now right).
  cbn [take]. unfold sum_of. cbn [foldr]. fold (sum_of cc_row_count (take (bases_that_fit options rows' bases) bases)).
  destruct (bases_that_fit options rows' bases) as [|n] eqn:En.
  - change (sum_of cc_row_count (take 0 bases)) with 0. lia.
  - assert (Hr' : 0 <= rows') by lia. specialize (IH rows' Hr' Hc'). rewrite En in IH. specialize (IH ltac:(easy)).
    assert (0 <= sum_of cc_row_count (take (S n) bases)); [|lia]. apply sum_of_nonneg. intros c Hin. apply Hc'.
    apply (elem_of_submseteq (take (S n) bases)); [easy|]. apply sublist_submseteq, sublist_take.
Qed.

Lemma windowed_plan_sound candidates seed plan :
  NoDup (map cc_index candidates) -> (forall c, c ∈ candidates -> 0 <= cc_row_count c) -> seed ⊆+ candidates ->
  windowed_plan options candidates seed = Some plan -> exists s, sound_plan candidates plan s.
Proof.
  intros Hn Hrows Hs. unfold windowed_plan. destruct (reached_by_spec candidates seed Hn Hs) as (more & -> & Hp & _).
  set (cluster := seed ++ more) in *. pose proof (split_base_perm cluster (sort_by age_less cluster) [] []) as Hsplit.
  destruct (foldl (split_base cluster) ([], []) (sort_by age_less cluster)) as [bases changes]. cbn [app] in Hsplit.
  destruct (head changes) as [oldest|]; [|easy]. cbn [mbind option_bind]. destruct (len bases <? 2); [easy|].
  set (sorted := sort_by minimum_less bases). destruct (position _ sorted) as [first|]; [|easy]. cbn [mbind option_bind].
  set (fit := bases_that_fit options (sum_of cc_row_count changes) (drop first sorted)).
  destruct (Nat.eqb_spec fit 0) as [|Hfit]; [easy|]. destruct (sorted !! (first + fit - 1)%nat) as [last|]; [|easy]. cbn [mbind option_bind].
  destruct (oltb _ _); [easy|]. set (low := if Nat.ltb 0 first then _ else None). set (high := cc_minimum <$> _).
  set (selected := take fit (drop first sorted) ++ List.filter (reaches low high) changes).
  destruct (forallb _ candidates) eqn:Eclosed; [|easy]. destruct (negb (is_some low) && _); [easy|]. intros [= <-].
  assert (Hall : sorted ++ changes ⊆+ candidates).
  { etrans; [|exact Hp]. apply Permutation_submseteq.
    transitivity (bases ++ changes); [apply Permutation_app_tail, sort_by_perm|].
    transitivity (sort_by age_less cluster); [exact Hsplit|apply sort_by_perm]. }
  assert (Hsub : selected ⊆+ sorted ++ changes).
  { apply submseteq_app; apply sublist_submseteq; [|apply filter_sublist]. etrans; [apply sublist_take|apply sublist_drop]. }
  assert (Hnn : forall c, c ∈ sorted ++ changes -> 0 <= cc_row_count c).
  { intros c Hc. apply Hrows. now apply (elem_of_submseteq (sorted ++ changes)). }
  pose proof (bases_that_fit_budget (sum_of cc_row_count changes) (drop first sorted)) as Hbud. fold fit in Hbud.
  exists selected. split; cbn [plan_indices plan_window plan_catching_up]; try easy.
  - unfold selected. destruct (drop first sorted) as [|b bs] eqn:Ed; [now unfold fit in Hfit|]. now destruct fit.
  - etrans; [exact Hsub|exact Hall].
  - intros _. unfold within_budget, selected. rewrite sum_of_app.
    assert (Hfilter : sum_of cc_row_count (List.filter (reaches low high) changes) <= sum_of cc_row_count changes).
    { apply sum_of_submseteq; [apply sublist_submseteq, filter_sublist|]. intros c Hc. apply Hnn. set_solver. }
    assert (0 <= sum_of cc_row_count changes) by (apply sum_of_nonneg; intros c Hc; apply Hnn; set_solver).
    specialize (Hbud ltac:(easy)). assert (Hd : forall c, c ∈ drop first sorted -> 0 <= cc_row_count c).
    { intros c Hc. apply Hnn, elem_of_app. left. apply (elem_of_submseteq (drop first sorted)); [easy|].
      apply sublist_submseteq, sublist_drop. }
    specialize (Hbud Hd Hfit). lia.
  - intros l h [= <- <-] c Hc Hout. rewrite forallb_forall in Eclosed. specialize (Eclosed c (proj1 (list_elem_of_In _ _) Hc)).
    apply orb_prop in Eclosed as [E|E]; [|now apply negb_true_iff]. exfalso. apply Hout.
    apply (picked_index candidates Hn); [etrans; [exact Hsub|exact Hall]|easy..].
Qed.

(** *** The other plans *)

Lemma pair_window_sound candidates pre pair rest plan :
  NoDup (map cc_index candidates) -> (forall c, c ∈ candidates -> 0 <= cc_row_count c) ->
  candidates = pre ++ pair ++ rest -> pair_window options candidates pair = Some plan ->
  exists s, sound_plan candidates plan s.
Proof.
  intros Hn Hrows Hc. unfold pair_window. destruct (ranges_overlap pair) eqn:Eo; [|easy]. cbn [negb].
  destruct (Z.leb_spec (sum_of cc_row_count pair) (opt_max_compaction_input_rows options)) as [Hb|]; [|easy].
  assert (Hne : pair <> []) by now intros ->.
  assert (Hp : pair ⊆+ candidates) by (rewrite Hc; apply submseteq_middle).
  destruct (cluster_loop_spec candidates (length candidates) pair Hn) as (A & B & C & _); [apply filter_length_le|easy..|].
  fold (overlap_cluster options candidates pair) in A, B, C. set (cluster := overlap_cluster options candidates pair) in *.
  destruct (splits_a_layer cluster candidates).
  - destruct (windowed_plan options candidates cluster) as [plan'|] eqn:Ew; intros [= <-].
    + now apply (windowed_plan_sound candidates cluster).
    + destruct (reached_by_spec candidates cluster Hn B) as (more & -> & Hp' & Hclosed & _). exists (cluster ++ more).
      split; cbn [catching_up_plan plan_indices plan_window plan_catching_up]; try easy. now destruct cluster.
  - intros [= <-]. exists cluster. now apply sound_plan_for.
Qed.

Lemma pair_plan_sound candidates plan :
  NoDup (map cc_index candidates) -> (forall c, c ∈ candidates -> 0 <= cc_row_count c) ->
  pair_plan options candidates = Some plan -> exists s, sound_plan candidates plan s.
Proof.
  intros Hn Hr ([w rest] & Hin & Hw)%find_map_Some. destruct (windows_split _ _ _ _ Hin) as [pre Hpre].
  now apply (pair_window_sound candidates pre w rest).
Qed.

Lemma lone_plan_sound candidates plan :
  lone_plan options candidates = Some plan -> exists s, sound_plan candidates plan s.
Proof.
  unfold lone_plan. destruct (find _ candidates) as [lone|] eqn:E; [|easy]. cbn [mbind option_bind]. intros [= <-].
  apply find_some in E as [Hin Hp]. apply andb_prop in Hp as [[_ Hb%Z.leb_le]%andb_prop _]. exists [lone].
  apply sound_plan_for; [easy|now apply singleton_submseteq_l, list_elem_of_In|]. unfold sum_of. cbn [foldr]. lia.
Qed.

Lemma fewer_files_plan_sound chunk_rows candidates plan :
  fewer_files_plan options chunk_rows candidates = Some plan -> exists s, sound_plan candidates plan s.
Proof.
  unfold fewer_files_plan. intros ([w rest] & Hin & Hw)%find_map_Some.
  destruct (windows_split _ _ _ _ Hin) as [pre Hpre]. unfold fewer_files_window in Hw. cbn [fst] in Hw.
  destruct (admits_window options w) eqn:Ea; [|easy]. cbn [negb] in Hw. destruct (admits_budget _ Ea) as [Hn Hb].
  assert (plan = plan_for w) as ->.
  { destruct (c ← head candidates; chunk_rows (cc_index c)); [destruct (_ || _); [easy|]|]; congruence. }
  exists w. apply sound_plan_for; [easy| |easy]. rewrite Hpre. apply submseteq_middle.
Qed.

Lemma plan_candidates_sound chunk_rows candidates plan :
  NoDup (map cc_index candidates) -> (forall c, c ∈ candidates -> 0 <= cc_row_count c) ->
  plan_candidates options chunk_rows candidates = Some plan -> exists s, sound_plan candidates plan s.
Proof.
  intros Hn Hr. unfold plan_candidates. set (by_size := sort_by size_less candidates).
  set (by_key := sort_by minimum_less by_size).
  assert (P1 : by_size ≡ₚ candidates) by apply sort_by_perm.
  assert (P2 : by_key ≡ₚ candidates) by (transitivity by_size; [apply sort_by_perm|exact P1]).
  assert (P3 : sort_by minimum_less by_key ≡ₚ candidates) by (transitivity by_key; [apply sort_by_perm|exact P2]).
  assert (Hn2 : NoDup (map cc_index by_key)) by (apply (NoDup_Permutation_proper _ _ (fmap_Permutation cc_index _ _ P2)); exact Hn).
  assert (Hr2 : forall c, c ∈ by_key -> 0 <= cc_row_count c) by (intros c; rewrite P2; apply Hr).
  destruct (tier_plan options by_size) as [p|] eqn:E1.
  { intros [= <-]. destruct (tier_plan_sound _ _ E1) as [s Hs]. exists s. now apply (sound_perm by_size). }
  destruct (pair_plan options by_key) as [p|] eqn:E2.
  { intros [= <-]. destruct (pair_plan_sound _ _ Hn2 Hr2 E2) as [s Hs]. exists s. now apply (sound_perm by_key). }
  destruct (lone_plan options by_key) as [p|] eqn:E3.
  { intros [= <-]. destruct (lone_plan_sound _ _ E3) as [s Hs]. exists s. now apply (sound_perm by_key). }
  destruct (_ <? _); [easy|]. intros [s Hs]%fewer_files_plan_sound. exists s. now apply (sound_perm (sort_by minimum_less by_key)).
Qed.

End soundness.

(** ** The plan of a manifest *)

Section planning.
Context `{Layout}.
Variables (options : StoreOptions) (file_size : str -> option Z) (dir : Directory) (schema : TableSchema).

Lemma candidates_from_lookup start segments candidates :
  candidates_from file_size start segments = Ok candidates ->
  map cc_index candidates = seq start (length segments) /\
  forall i c, candidates !! i = Some c -> exists meta size, segments !! i = Some meta /\ c = candidate (start + i) meta size.
Proof.
  revert start candidates; induction segments as [|meta segments IH]; intros start candidates; cbn [candidates_from].
  { intros [= <-]. split; [easy|]. intros i c Hc. now rewrite lookup_nil in Hc. }
  destruct (ok_or (file_size (seg_file_name meta)) _) as [size|]; [|easy]. unfold mbind, result_bind.
  destruct (candidates_from file_size (S start) segments) as [rest|] eqn:Er; [|easy]. intros [= <-].
  destruct (IH _ _ Er) as [A B]. split; [cbn [map length seq]; now rewrite A|]. intros [|i] c Hc.
  - injection Hc as <-. exists meta, size. now rewrite Nat.add_0_r.
  - destruct (B i c Hc) as (m & sz & Hm & ->). exists m, sz. now rewrite Nat.add_succ_comm.
Qed.

Lemma candidates_length segments candidates :
  candidates_from file_size 0 segments = Ok candidates -> length candidates = length segments.
Proof.
  intros [A _]%candidates_from_lookup. apply (f_equal length) in A. now rewrite length_map, length_seq in A.
Qed.

(** A candidate of the manifest is the one of its index. *)
Lemma candidate_at segments candidates c :
  candidates_from file_size 0 segments = Ok candidates -> c ∈ candidates ->
  exists meta size, segments !! cc_index c = Some meta /\ c = candidate (cc_index c) meta size.
Proof.
  intros Hc [i Hi]%list_elem_of_lookup. destruct (candidates_from_lookup _ _ _ Hc) as [_ B].
  destruct (B i c Hi) as (m & sz & Hm & ->). exists m, sz. split; [|easy]. exact Hm.
Qed.

Lemma candidate_of segments candidates i meta :
  candidates_from file_size 0 segments = Ok candidates -> segments !! i = Some meta ->
  exists c size, c ∈ candidates /\ c = candidate i meta size.
Proof.
  intros Hc Hm. destruct (lookup_lt_is_Some_2 candidates i) as [c Hi].
  { rewrite (candidates_length _ _ Hc). exact (lookup_lt_Some _ _ _ Hm). }
  destruct (candidates_from_lookup _ _ _ Hc) as [_ B]. destruct (B i c Hi) as (m & sz & Hm' & ->).
  replace m with meta in Hi by congruence. exists (candidate i meta sz), sz. split; [|easy]. exact (list_elem_of_lookup_2 _ _ _ Hi).
Qed.

Definition no_overlap (a b : SegmentFacts) : Prop :=
  olt (seg_max_key a) (seg_min_key b) \/ olt (seg_max_key b) (seg_min_key a).

(** What a plan promises of the manifest's segments. *)
Record plan_ok (segments : list SegmentFacts) (plan : CompactionPlan) : Prop := {
  plan_some : plan_indices plan <> [];
  plan_distinct : NoDup (plan_indices plan);
  plan_in_range : forall i, In i (plan_indices plan) -> (i < length segments)%nat;
  plan_budget : plan_catching_up plan = false ->
    Z.min (2 ^ 64 - 1) (sum_of seg_row_count (taken segments (plan_indices plan))) <= opt_max_compaction_input_rows options;
  plan_whole : plan_catching_up plan = true ->
    plan_window plan = None /\
    forall a b, In a (taken segments (plan_indices plan)) -> In b (left_out segments (plan_indices plan)) -> no_overlap a b;
  plan_closed : forall low high, plan_window plan = Some (low, high) ->
    forall meta, In meta (left_out segments (plan_indices plan)) ->
      range_reaches low high (seg_min_key meta) (seg_max_key meta) = false
}.

Lemma taken_sum segments candidates selected :
  candidates_from file_size 0 segments = Ok candidates -> (forall c, c ∈ selected -> c ∈ candidates) ->
  sum_of seg_row_count (taken segments (map cc_index selected)) = sum_of cc_row_count selected.
Proof.
  intros Hc Hs. induction selected as [|c selected IH]; [easy|]. unfold taken in *. cbn [map omap list_omap].
  destruct (candidate_at segments candidates c Hc (Hs c (list_elem_of_here _ _))) as (meta & size & Hm & Ec).
  rewrite Hm. unfold sum_of in *. cbn [foldr]. rewrite IH by (intros x Hx; apply Hs; now right).
  f_equal. rewrite Ec. reflexivity.
Qed.

Lemma candidate_left segments candidates selected meta :
  candidates_from file_size 0 segments = Ok candidates -> In meta (left_out segments (map cc_index selected)) ->
  exists c, c ∈ candidates /\ (c ∉ selected) /\ cc_minimum c = seg_min_key meta /\ cc_maximum c = seg_max_key meta.
Proof.
  intros Hc (i & Hi & Hm)%in_left_out. destruct (candidate_of _ _ _ _ Hc Hm) as (c & size & Hin & ->).
  exists (candidate i meta size). split; [easy|]. split; [|easy]. intros Hs. apply Hi.
  apply (list_elem_of_fmap_2 cc_index), list_elem_of_In in Hs. exact Hs.
Qed.

Lemma sound_plan_ok segments candidates plan selected :
  candidates_from file_size 0 segments = Ok candidates -> sound_plan options candidates plan selected -> plan_ok segments plan.
Proof.
  intros Hc [A B C D E F]. destruct (candidates_from_lookup _ _ _ Hc) as [Hseq _].
  assert (Hnd : NoDup (map cc_index candidates)) by (rewrite Hseq; apply NoDup_seq).
  assert (Hin : forall c, c ∈ selected -> c ∈ candidates) by (intros c Hcs; exact (elem_of_submseteq _ _ _ Hcs C)).
  split; rewrite ?A.
  - now destruct selected.
  - now apply (picked_NoDup candidates Hnd).
  - intros i (c & -> & Hi)%list_elem_of_In%list_elem_of_fmap. destruct (candidate_at _ _ c Hc (Hin c Hi)) as (m & _ & Hm & _).
    exact (lookup_lt_Some _ _ _ Hm).
  - intros Hcu. rewrite (taken_sum segments candidates selected Hc Hin). now apply D.
  - intros Hcu. destruct (E Hcu) as [E1 E2]. split; [easy|]. intros a b (i & Hi & Ha)%in_taken Hb.
    apply list_elem_of_In, list_elem_of_fmap in Hi as (c & -> & Hi).
    destruct (candidate_at _ _ c Hc (Hin c Hi)) as (m & size & Hm & Ec). replace m with a in * by congruence.
    destruct (candidate_left _ _ _ _ Hc Hb) as (c' & Hc' & Hout & Emin & Emax).
    destruct (overlaps c c') eqn:Eo; [now destruct Hout; apply (E2 c' c)|]. unfold overlaps in Eo. rewrite Ec, Emin, Emax in Eo.
    apply andb_false_iff in Eo as [Eo|Eo]; apply oleb_false in Eo; [now right|now left].
  - intros low high Hw meta Hm. destruct (candidate_left _ _ _ _ Hc Hm) as (c & Hc' & Hout & Emin & Emax).
    specialize (F low high Hw c Hc' Hout). unfold reaches in F. now rewrite Emin, Emax in F.
Qed.

Lemma compaction_plan_ok segments plan :
  Forall (fun meta => 0 <= seg_row_count meta) segments ->
  compaction_plan options file_size dir schema segments = Ok (Some plan) -> plan_ok segments plan.
Proof.
  intros Hr. unfold compaction_plan. destruct (len segments <? 2); [easy|].
  destruct (candidates_from file_size 0 segments) as [candidates|] eqn:Ec; [|easy]. unfold mbind, result_bind. intros [= Hp].
  destruct (plan_candidates_sound options (merge_chunk_rows options dir schema segments) candidates plan) as [s Hs].
  - destruct (candidates_from_lookup _ _ _ Ec) as [-> _]. apply NoDup_seq.
  - intros c Hc. destruct (candidate_at _ _ c Ec Hc) as (m & size & Hm & ->). cbn [candidate cc_row_count].
    rewrite Forall_forall in Hr. apply Hr. exact (list_elem_of_lookup_2 _ _ _ Hm).
  - exact Hp.
  - now apply (sound_plan_ok segments candidates plan s).
Qed.

(** C10. Whatever branch of the planner answers, the plan is one the merge may run.  It names segments
    of the manifest, each once.  Unless the table is catching up, its rows are within the pass's
    budget; a catching-up plan takes everything its segments reach, so no segment left out overlaps
    one taken.  A plan with a window leaves out only segments that do not reach the window, which is
    what lets the merge drop the deletes inside it. *)
Theorem compaction_plan_sound segments plan :
  Forall (fun meta => 0 <= seg_row_count meta) segments ->
  compaction_plan options file_size dir schema segments = Ok (Some plan) -> plan_ok segments plan.
Proof. apply compaction_plan_ok. Qed.

End planning.

(** [reached_by] ends, and returns exactly the segments linked to the seed by a chain of overlapping
    key ranges.  Each turn of its loop that continues adds a segment, so it turns no more often than
    there are segments. *)
Theorem reached_by_closure candidates seed :
  NoDup (map cc_index candidates) -> seed ⊆+ candidates ->
  forall c, c ∈ reached_by candidates seed <-> linked candidates seed c.
Proof.
  intros Hn Hs c. destruct (reached_by_spec candidates seed Hn Hs) as (more & -> & Hp & Hclosed & Hlinked).
  split; [apply Hlinked|]. induction 1 as [c Hc|c m _ IH Hc Ho]; [set_solver|]. now apply (Hclosed c m).
Qed.

Module CompactionExamples.
#[local] Existing Instance WalExamples.example_checksum.
#[local] Existing Instance Memtable.layout64.

Definition options : StoreOptions := {|
  opt_memtable_bytes := 65536; opt_block_rows := 2; opt_wal_sync := Always; opt_compaction_fan_in := 2;
  opt_max_compaction_input_rows := 100; opt_max_compaction_rows := 50; opt_max_compaction_output_bytes := 65536;
  opt_compaction_file_pressure := 64; opt_compaction_disk_reserve_bytes := 0;
  opt_background_compaction := false; opt_transactional := false |}.

Definition meta (id low high rows version : Z) : SegmentFacts := {|
  seg_id := id; seg_file_name := segment_file_name id; seg_row_count := rows; seg_min_version := version;
  seg_max_version := version; seg_schema_fingerprint := 0; seg_min_key := [PUInt64 low]; seg_max_key := [PUInt64 high];
  seg_bloom := []; seg_unique_keys := true; seg_smas := None |}.

(** A base of ninety rows, a change to its middle, and a file that lies clear of both. *)
Definition segments : list SegmentFacts := [meta 1 0 200 90 1; meta 2 40 50 5 2; meta 3 300 310 7 2].

Definition sizes (name : str) : option Z :=
  Some (if bool_decide (name = segment_file_name 1) then 9000 else if bool_decide (name = segment_file_name 2) then 500 else 700).

Lemma compaction_plan_sound_witness :
  exists plan, compaction_plan options sizes [] SegmentFileExamples.before segments = Ok (Some plan) /\
    plan_ok options segments plan.
Proof.
  destruct (compaction_plan options sizes [] SegmentFileExamples.before segments) as [[plan|]|e] eqn:E;
    [|vm_compute in E; discriminate E..].
  exists plan. split; [reflexivity|].
  apply (compaction_plan_sound options sizes [] SegmentFileExamples.before segments plan); [|exact E].
  repeat constructor; discriminate.
Defined.

(** The first and the third file are linked through the second only. *)
Definition chain : list CompactionCandidate :=
  [candidate 0 (meta 1 0 10 5 1) 100; candidate 1 (meta 2 8 20 5 1) 100; candidate 2 (meta 3 18 30 5 1) 100;
   candidate 3 (meta 4 31 40 5 1) 100].

Lemma reached_by_closure_witness :
  linked chain [candidate 0 (meta 1 0 10 5 1) 100] (candidate 2 (meta 3 18 30 5 1) 100) /\
  ~ linked chain [candidate 0 (meta 1 0 10 5 1) 100] (candidate 3 (meta 4 31 40 5 1) 100).
Proof.
  assert (Hn : NoDup (map cc_index chain)) by (apply (bool_decide_unpack _); vm_compute; exact I).
  assert (Hs : [candidate 0 (meta 1 0 10 5 1) 100] ⊆+ chain) by (apply submseteq_skip, submseteq_nil_l).
  pose proof (reached_by_closure chain [candidate 0 (meta 1 0 10 5 1) 100] Hn Hs) as Hc. split.
  - apply Hc. apply list_elem_of_lookup. exists 2%nat. vm_compute. reflexivity.
  - intros Hl%Hc%list_elem_of_In%(in_map cc_index).
    assert (E : map cc_index (reached_by chain [candidate 0 (meta 1 0 10 5 1) 100]) = [0; 1; 2]%nat) by (vm_compute; reflexivity).
    rewrite E in Hl. destruct Hl as [Hl|[Hl|[Hl|[]]]]; discriminate Hl.
Defined.

End CompactionExamples.
