(* ===== verification/Snapshot.v ===== *)
(** * Reader snapshots ([src/crates/pintail-store/src/store/snapshot.rs])

    What a reader of a table sees: the whole-row scans, which take the latest version of every key
    over the segments and the memtable, and the questions the query engine asks before it skips or
    folds segments.  The projected column streams are not modelled. *)

From Stdlib Require Import ZArith Lia String Sorted.
From stdpp Require Import prelude list.
From coqutil Require Import Byte.
From S2P Require Import Prelude.
From S2P Require Import Types.
From S2P Require Import Codec.
From S2P Require Import Wal.
From S2P Require Import Memtable.
From S2P Require Import Manifest.
From S2P Require Import Segment.
From S2P Require Import SegmentFile.
From S2P Require Import Merge.
From S2P Require Import Compaction.

#[local] Open Scope Z_scope.

(** ** Ranges of keys *)

Inductive Bound : Type := Included (k : PrimaryKey) | Excluded (k : PrimaryKey) | Unbounded.

(** [RangeBounds::contains] of a pair of bounds. *)
Definition range_contains (covers : Bound * Bound) (k : PrimaryKey) : bool :=
  match fst covers with Included lo => oleb lo k | Excluded lo => oltb lo k | Unbounded => true end
  && match snd covers with Included hi => oleb k hi | Excluded hi => oltb k hi | Unbounded => true end.

(** The ranges a map may be searched for: not reversed, and not empty between two equal keys. *)
Definition bound_range_is_searchable (lo hi : Bound) : bool :=
  match lo, hi with
  | Unbounded, _ | _, Unbounded => true
  | (Included l | Excluded l), (Included h | Excluded h) =>
      match cmp l h with
      | Lt => true
      | Gt => false
      | Eq => match lo, hi with Included _, Included _ => true | _, _ => false end
      end
  end.

(** [BTreeMap::range]; the standard library panics on a range it cannot search. *)
Definition range_panics (lo hi : Bound) : bool :=
  match lo, hi with
  | Unbounded, _ | _, Unbounded => false
  | (Included l | Excluded l), (Included h | Excluded h) =>
      match cmp l h with
      | Lt => false
      | Gt => true
      | Eq => match lo, hi with Excluded _, Excluded _ => true | _, _ => false end
      end
  end.

Definition range (memtable : list (PrimaryKey * StoredRow)) (lo hi : Bound) : list StoredRow :=
  map snd (List.filter (fun kr => range_contains (lo, hi) kr.1) memtable).

(** ** The snapshot *)

Record TableSnapshot : Type := {
  sn_memtable : list (PrimaryKey * StoredRow);
  sn_memtable_oldest : option Z;
  sn_manifest : Manifest;
  sn_directory : Directory;
  sn_schema : TableSchema
}.

Section snapshot.
Variable sn : TableSnapshot.

Definition sn_segments : list SegmentFacts := man_segments (sn_manifest sn).
Definition sn_rows : list StoredRow := map snd (sn_memtable sn).

Definition physical_row_upper_bound : Z :=
  foldl (fun rows meta => sat_add 64 rows (seg_row_count meta)) (len (sn_memtable sn)) sn_segments.

Definition physical_range_row_upper_bound (start stop : PrimaryKey) : Z :=
  foldl (fun rows meta => sat_add 64 rows (seg_row_count meta)) (len (sn_memtable sn))
    (List.filter (fun meta => oleb (seg_min_key meta) stop && oleb start (seg_max_key meta)) sn_segments).

(** The memtable is in key order, so its ends are its extremes. *)
Definition key_bounds : option (PrimaryKey * PrimaryKey) :=
  minimum ← min_key (option_list (min_key (map seg_min_key sn_segments)) ++ option_list (hd_error (map fst (sn_memtable sn))));
  maximum ← max_key (option_list (max_key (map seg_max_key sn_segments)) ++ option_list (last (map fst (sn_memtable sn))));
  Some (minimum, maximum).

Definition max_row_version : option Z :=
  versions_max (option_list (versions_max (map seg_max_version sn_segments))
                ++ option_list (versions_max (map row_version sn_rows))).

(** *** Scans *)

(** The live rows of a map of latest versions, in key order. *)
Definition live_values (latest : list (PrimaryKey * StoredRow)) : list StoredRow :=
  List.filter not_deleted (map snd latest).

(** The segments' rows that pass [keep], each segment unless it is skipped, into the map. *)
Fixpoint apply_segments (skip : SegmentFacts -> bool) (keep : StoredRow -> bool) (segments : list SegmentFacts)
    (latest : list (PrimaryKey * StoredRow)) : result StoreError (list (PrimaryKey * StoredRow)) :=
  match segments with
  | [] => Ok latest
  | meta :: segments =>
      if skip meta then apply_segments skip keep segments latest
      else
        rows ← read_rows (sn_directory sn) (sn_schema sn) meta;
        apply_segments skip keep segments (foldl apply_latest latest (List.filter keep rows))
  end.

Definition scan_merged : result StoreError (list StoredRow) :=
  latest ← apply_segments (fun _ => false) (fun _ => true) sn_segments [];
  Ok (live_values (foldl apply_latest latest sn_rows)).

(** One segment of unique keys is read as it is. *)
Definition scan : result StoreError (list StoredRow) :=
  match sn_memtable sn, sn_segments with
  | [], [meta] =>
      if seg_unique_keys meta
      then rows ← read_rows (sn_directory sn) (sn_schema sn) meta; Ok (List.filter not_deleted rows)
      else scan_merged
  | _, _ => scan_merged
  end.

Definition in_versions (min_version max_version : Z) (r : StoredRow) : bool :=
  (min_version <=? row_version r) && (row_version r <=? max_version).

Definition in_keys (start stop : PrimaryKey) (r : StoredRow) : bool := oleb start (row_key r) && oleb (row_key r) stop.

Definition scan_range_versions (start stop : PrimaryKey) (min_version max_version : Z) : result StoreError (list StoredRow) :=
  if oltb stop start then Err (FormatLimit (msg "scan range start follows its end" []))
  else if max_version <? min_version then Err (FormatLimit (msg "scan version range start follows its end" []))
  else
    latest ← apply_segments
      (fun meta => (seg_max_version meta <? min_version) || (max_version <? seg_min_version meta)
                   || negb (overlaps_key_range meta start stop))
      (fun r => in_versions min_version max_version r && in_keys start stop r) sn_segments [];
    Ok (live_values (foldl apply_latest latest
          (List.filter (in_versions min_version max_version) (range (sn_memtable sn) (Included start) (Included stop))))).

Definition scan_range (start stop : PrimaryKey) : result StoreError (list StoredRow) :=
  scan_range_versions start stop 0 u64_max.

(** *** Folds over segments *)

Definition by_min_key (segments : list SegmentFacts) : list SegmentFacts :=
  sort_by (fun a b => oltb (seg_min_key a) (seg_min_key b)) segments.

(** No segment starts at or before the end of the one before it. *)
Fixpoint ranges_disjoint (segments : list SegmentFacts) : bool :=
  match segments with
  | a :: (b :: _) as rest => if oleb (seg_min_key b) (seg_max_key a) then false else ranges_disjoint rest
  | _ => true
  end.

Fixpoint clean_smas (segments : list SegmentFacts) : option (list SegmentSmas) :=
  match segments with
  | [] => Some []
  | meta :: segments =>
      smas ← seg_smas meta;
      if smas_tombstones smas =? 0 then rest ← clean_smas segments; Some (smas :: rest) else None
  end.

(** The memtable's rows, when each is an insert above [maximum]. *)
Definition rows_above (maximum : option PrimaryKey) : option (list StoredRow) :=
  if existsb (fun r => row_deleted r || match maximum with Some m => oleb (row_key r) m | None => false end) sn_rows
  then None else Some sn_rows.

Definition sma_fold_state : option (list SegmentSmas * list StoredRow) :=
  let segments := by_min_key sn_segments in
  if ranges_disjoint segments then
    smas ← clean_smas segments;
    rows ← rows_above (seg_max_key <$> last segments);
    Some (smas, rows)
  else None.

Definition insert_only_delta : option (Z * list StoredRow) :=
  match sn_memtable sn with
  | [] => None
  | _ => rows ← rows_above (max_key (map seg_max_key sn_segments)); Some (man_generation (sn_manifest sn), rows)
  end.

Record GroupedFoldSpan : Type := {
  span_file_name : str;
  span_min_key : PrimaryKey;
  span_max_key : PrimaryKey;
  span_dirty : bool
}.

Definition fold_span (meta : SegmentFacts) : GroupedFoldSpan := {|
  span_file_name := seg_file_name meta; span_min_key := seg_min_key meta; span_max_key := seg_max_key meta;
  span_dirty := match range (sn_memtable sn) (Included (seg_min_key meta)) (Included (seg_max_key meta)) with
                | [] => false | _ => true end |}.

(** The live rows of a gap after the ones found before; [None] past the limit. *)
Fixpoint outside_rows (limit : Z) (rows outside : list StoredRow) : option (list StoredRow) :=
  match rows with
  | [] => Some outside
  | r :: rows =>
      if row_deleted r then outside_rows limit rows outside
      else if len outside =? limit then None
      else outside_rows limit rows (outside ++ [r])
  end.

Definition gap_rows (limit : Z) (lo hi : Bound) (outside : list StoredRow) : option (list StoredRow) :=
  if bound_range_is_searchable lo hi then outside_rows limit (range (sn_memtable sn) lo hi) outside else Some outside.

Fixpoint gaps (limit : Z) (lo : Bound) (spans : list GroupedFoldSpan) (outside : list StoredRow) : option (list StoredRow) :=
  match spans with
  | [] => gap_rows limit lo Unbounded outside
  | span :: spans =>
      outside ← gap_rows limit lo (Excluded (span_min_key span)) outside;
      gaps limit (Excluded (span_max_key span)) spans outside
  end.

Definition grouped_fold_spans (outside_limit : Z) : option (list GroupedFoldSpan * list StoredRow) :=
  let segments := by_min_key sn_segments in
  if ranges_disjoint segments then
    let spans := map fold_span segments in
    outside ← gaps outside_limit Unbounded spans [];
    Some (spans, outside)
  else None.

(** *** Skipping segments on their values *)

Definition memtable_shadowed (meta : SegmentFacts) : bool :=
  match sn_memtable_oldest sn with
  | Some oldest =>
      (oldest <=? seg_max_version meta)
      && existsb (fun r => row_version r <=? seg_max_version meta)
           (range (sn_memtable sn) (Included (seg_min_key meta)) (Included (seg_max_key meta)))
  | None => false
  end.

(** Whether the segment at [index] lies clear of another, or under it. *)
Definition clear_of (index : nat) (meta : SegmentFacts) (other_index : nat) (other : SegmentFacts) : bool :=
  Nat.eqb other_index index || oltb (seg_max_key other) (seg_min_key meta) || oltb (seg_max_key meta) (seg_min_key other)
  || (seg_max_version meta <? seg_min_version other).

Definition prunable (index : nat) (meta : SegmentFacts) : bool :=
  forallb (fun b => b) (imap (clear_of index meta) sn_segments) && negb (memtable_shadowed meta).

Definition value_prunable_segments : list bool := imap prunable sn_segments.

End snapshot.

(** ** Scans see the latest versions *)

(** A snapshot whose segments hold [rowss]. *)
Record snap_ok (sn : TableSnapshot) (rowss : list (list StoredRow)) : Prop := {
  snap_holds : Forall2 (segment_holds (sn_directory sn) (sn_schema sn)) (sn_segments sn) rowss;
  snap_sorted : omap_sorted (sn_memtable sn);
  snap_keyed : keyed (sn_memtable sn);
  snap_oldest : Forall (fun r => exists lo, sn_memtable_oldest sn = Some lo /\ lo <= row_version r) (sn_rows sn)
}.

Definition contents (sn : TableSnapshot) (rowss : list (list StoredRow)) : list StoredRow := concat rowss ++ sn_rows sn.

Lemma apply_latest_sorted_keyed rows m :
  omap_sorted m -> keyed m -> omap_sorted (foldl apply_latest m rows) /\ keyed (foldl apply_latest m rows).
Proof.
  revert m; induction rows as [|r rows IH]; intros m Hs Hk; [easy|]. cbn [foldl]. apply IH; unfold apply_latest;
    (destruct (omap_get _ _); [destruct (_ <=? _); [|easy]|]); auto using omap_insert_sorted, keyed_insert.
Qed.

Lemma keyed_ascending m : omap_sorted m -> keyed m -> key_ascending (map snd m).
Proof.
  unfold omap_sorted, keyed, key_ascending. induction m as [|[k r] m IH]; cbn [map fst snd]; [constructor|].
  intros Hs Hk. apply StronglySorted_inv in Hs as [Hs Hf]. apply Forall_cons in Hk as [E Hk]. cbn in E. subst k.
  constructor; [now apply IH|]. apply List.Forall_forall. intros x Hx. apply in_map_iff in Hx as ([k y] & <- & Hy).
  rewrite List.Forall_forall in Hf. rewrite Forall_forall in Hk. pose proof (Hk _ (proj2 (list_elem_of_In _ _) Hy)) as E. cbn in E |- *.
  rewrite <- E. apply Hf. exact (in_map fst _ _ Hy).
Qed.

Lemma keyed_get m r : omap_sorted m -> keyed m -> In r (map snd m) <-> omap_get (row_key r) m = Some r.
Proof.
  intros Hs Hk. split.
  - intros ([k x] & E & Hx)%in_map_iff. cbn in E. subst x. unfold keyed in Hk. rewrite Forall_forall in Hk.
    pose proof (Hk _ (proj2 (list_elem_of_In _ _) Hx)) as E. cbn in E. subst k. now apply omap_In_get.
  - intros Hg%omap_get_In. exact (in_map snd _ _ Hg).
Qed.

(** A map filled with [apply_latest] lists exactly the visible rows, in key order. *)
Lemma live_values_spec rows :
  key_ascending (live_values (foldl apply_latest [] rows)) /\
  forall r, In r (live_values (foldl apply_latest [] rows)) <-> visible (row_key r) rows = Some r.
Proof.
  destruct (apply_latest_sorted_keyed rows []) as [Hs Hk]; [constructor..|]. unfold live_values. split.
  - now apply key_ascending_filter, keyed_ascending.
  - intros r. rewrite filter_In, keyed_get by easy. rewrite apply_latest_all. cbn [omap_get]. fold (latest (row_key r) rows).
    unfold visible, live, not_deleted. destruct (latest _ _) as [w|]; [|now split; [intros []|]].
    split; [intros [[= ->] E]; now destruct (row_deleted r)|]. destruct (row_deleted w) eqn:E; [easy|]. intros [= ->]. now rewrite E.
Qed.

(** Lists in ascending key order with the same rows are the same. *)
Lemma key_ascending_ext l1 l2 : key_ascending l1 -> key_ascending l2 -> (forall r, In r l1 <-> In r l2) -> l1 = l2.
Proof.
  unfold key_ascending. revert l2; induction l1 as [|a l1 IH]; intros [|b l2] H1 H2 Hin; [easy| | |].
  - destruct (proj2 (Hin b)); now left.
  - destruct (proj1 (Hin a)); now left.
  - apply StronglySorted_inv in H1 as [H1 F1]. apply StronglySorted_inv in H2 as [H2 F2]. rewrite List.Forall_forall in F1, F2.
    assert (E : a = b).
    { destruct (proj1 (Hin a) (or_introl eq_refl)) as [E|Ha]; [easy|]. destruct (proj2 (Hin b) (or_introl eq_refl)) as [E|Hb]; [easy|].
      destruct (olt_irrefl (row_key a)). apply (olt_le_trans _ (row_key b)); [now apply F1|now apply olt_le, F2]. }
    subst b. f_equal. apply IH; [easy..|]. intros r. split; intros Hr.
    + destruct (proj1 (Hin r) (or_intror Hr)) as [->|]; [destruct (olt_irrefl (row_key r)); now apply F1|easy].
    + destruct (proj2 (Hin r) (or_intror Hr)) as [->|]; [destruct (olt_irrefl (row_key r)); now apply F2|easy].
Qed.

(** Rows of unique keys are their own latest versions. *)
Lemma visible_distinct rows r :
  (forall a, In a rows -> In r rows -> row_key a = row_key r -> a = r) ->
  visible (row_key r) rows = Some r <-> In r rows /\ row_deleted r = false.
Proof.
  intros Hu. unfold visible. split.
  - destruct (latest _ _) as [w|] eqn:E; [|easy]. cbn. destruct (row_deleted w) eqn:Ed; [easy|]. intros [= ->].
    now apply latest_in in E.
  - intros [Hr Hd]. destruct (latest (row_key r) rows) as [w|] eqn:E; [|now apply (latest_none _ _ E) in Hr].
    apply latest_in in E as [Hw Ek]. cbn. now rewrite (Hu w Hw Hr Ek), Hd.
Qed.

Section reading.
Context (sn : TableSnapshot) (rowss : list (list StoredRow)) (Hsn : snap_ok sn rowss).

Lemma apply_segments_ok skip keep segments rowss' latest :
  (forall meta rows, segment_holds (sn_directory sn) (sn_schema sn) meta rows -> skip meta = true -> List.filter keep rows = []) ->
  Forall2 (segment_holds (sn_directory sn) (sn_schema sn)) segments rowss' ->
  apply_segments sn skip keep segments latest = Ok (foldl apply_latest latest (List.filter keep (concat rowss'))).
Proof.
  intros Hskip Hh. revert latest; induction Hh as [|meta rows segments rowss' Hm Hh IH]; intros latest; [easy|].
  cbn [apply_segments concat]. rewrite List.filter_app, foldl_app. destruct (skip meta) eqn:Es.
  - rewrite IH. now rewrite (Hskip meta rows Hm Es).
  - rewrite (holds_reads _ _ _ _ Hm). unfold mbind, result_bind. apply IH.
Qed.

Lemma scan_merged_ok : scan_merged sn = Ok (live_values (foldl apply_latest [] (contents sn rowss))).
Proof.
  unfold scan_merged, contents. rewrite (apply_segments_ok _ _ _ rowss) by (easy || apply Hsn). unfold mbind, result_bind.
  rewrite foldl_app. do 4 f_equal. induction (concat rowss) as [|r l IH]; [easy|]. cbn. now rewrite IH.
Qed.

(** The shortcut of [scan] reads what the merge reads. *)
Lemma scan_ok : scan sn = Ok (live_values (foldl apply_latest [] (contents sn rowss))).
Proof.
  unfold scan. destruct (sn_memtable sn) eqn:Em; [|apply scan_merged_ok]. destruct (sn_segments sn) as [|meta [|]] eqn:Es; [apply scan_merged_ok| |apply scan_merged_ok].
  destruct (seg_unique_keys meta) eqn:Eu; [|apply scan_merged_ok].
  pose proof (snap_holds _ _ Hsn) as Hh. rewrite Es in Hh. apply Forall2_cons_inv_l in Hh as (rows & t & Hm & Ht%Forall2_nil_inv_l & E).
  assert (Hc : contents sn rowss = rows) by (unfold contents, sn_rows; rewrite E, Em, Ht; cbn; now rewrite !app_nil_r).
  rewrite (holds_reads _ _ _ _ Hm), Hc. unfold mbind, result_bind. f_equal. pose proof (holds_ascending _ _ _ _ Hm) as Ha.
  destruct (live_values_spec rows) as [Hl Hin]. apply key_ascending_ext; [now apply key_ascending_filter|easy|].
  intros r. rewrite Hin, visible_distinct by (intros a; now apply key_ascending_unique). rewrite filter_In. unfold not_deleted. now rewrite negb_true_iff.
Qed.

Lemma filter_filter {A} (p q : A -> bool) l : List.filter p (List.filter q l) = List.filter (fun x => p x && q x) l.
Proof. induction l as [|x l IH]; [easy|]. cbn. destruct (q x) eqn:Eq; cbn; [|now rewrite andb_false_r]. rewrite andb_true_r, IH. now destruct (p x). Qed.

Lemma range_rows lo hi : range (sn_memtable sn) lo hi = List.filter (fun r => range_contains (lo, hi) (row_key r)) (sn_rows sn).
Proof.
  unfold range, sn_rows. pose proof (snap_keyed _ _ Hsn) as Hk. unfold keyed in Hk. induction Hk as [|[k r] m E Hk IH]; [easy|].
  cbn [List.filter map snd fst] in *. subst k. destruct (range_contains _ _); cbn [map snd]; now rewrite IH.
Qed.

Lemma scan_range_ok start stop lo hi :
  oltb stop start = false -> lo <= hi ->
  scan_range_versions sn start stop lo hi =
  Ok (live_values (foldl apply_latest [] (List.filter (fun r => in_versions lo hi r && in_keys start stop r) (contents sn rowss)))).
Proof.
  intros Hk Hv. unfold scan_range_versions, contents. rewrite Hk, (proj2 (Z.ltb_ge _ _) Hv).
  rewrite (apply_segments_ok _ _ _ rowss); [|clear Hk; intros meta rows Hm Hs|apply Hsn].
  - unfold mbind, result_bind. rewrite range_rows, filter_filter. unfold range_contains. cbn [fst snd].
    now rewrite List.filter_app, foldl_app.
  - destruct (List.filter _ rows) as [|r l] eqn:E; [easy|]. exfalso.
    assert (Hr : In r (r :: l)) by now left. rewrite <- E in Hr. apply filter_In in Hr as [Hr Hb].
    apply andb_true_iff in Hb as [[B1 B2]%andb_true_iff [B3 B4]%andb_true_iff].
    destruct (holds_keys _ _ _ _ Hm r Hr). destruct (holds_versions _ _ _ _ Hm r Hr). apply oleb_spec in B3, B4.
    rewrite !orb_true_iff, negb_true_iff, !Z.ltb_lt in Hs. unfold overlaps_key_range in Hs.
    destruct Hs as [Hs|[Hs|Hs]%andb_false_iff]; [lia| |]; apply oleb_false in Hs; apply olt_not_le in Hs; destruct Hs.
    + now apply (ole_trans _ (row_key r)).
    + now apply (ole_trans _ (row_key r)).
Qed.

Lemma visible_filter_keys p k rows : (forall r, row_key r = k -> p r = true) -> visible k (List.filter p rows) = visible k rows.
Proof. intros Hp. unfold visible, latest. f_equal. apply latest_fold_filter. auto. Qed.

Lemma visible_key k rows r : visible k rows = Some r -> row_key r = k /\ In r rows.
Proof.
  unfold visible. destruct (latest k rows) as [w|] eqn:E; [|easy]. cbn. destruct (row_deleted w); [easy|]. intros [= ->].
  now apply latest_in in E.
Qed.

(** Restricting the keys commutes with taking the latest versions. *)
Lemma visible_in_keys start stop p rows r :
  visible (row_key r) (List.filter (fun r => p r && in_keys start stop r) rows) = Some r <->
  in_keys start stop r = true /\ visible (row_key r) (List.filter p rows) = Some r.
Proof.
  assert (E : forall l, List.filter (fun r => p r && in_keys start stop r) l = List.filter (in_keys start stop) (List.filter p l)).
  { intros l. rewrite filter_filter. apply List.filter_ext. intros x. apply andb_comm. }
  rewrite E. destruct (in_keys start stop r) eqn:Ek.
  - rewrite visible_filter_keys; [easy|]. intros x Ex. unfold in_keys in *. now rewrite Ex.
  - split; [|now intros []]. intros [_ Hin]%visible_key. apply filter_In in Hin as [_ Hin]. congruence.
Qed.

End reading.

(** C8. A scan returns, in ascending key order, exactly the visible row of every key: its latest
    version over the segments and the memtable, unless that is a delete; also where it reads a lone
    segment without merging.  A scan of key and version bounds returns the same of the rows within the
    versions, for the keys asked, whatever segments it skips on their bounds; over every version it is
    the scan cut to the keys.  Reversed bounds are an error. *)
Theorem scans_see_latest sn rowss start stop lo hi :
  snap_ok sn rowss ->
  exists rows, scan sn = Ok rows /\ key_ascending rows /\
    (forall r, In r rows <-> visible (row_key r) (contents sn rowss) = Some r) /\
    (oltb stop start = true \/ hi < lo -> exists m, scan_range_versions sn start stop lo hi = Err (FormatLimit m)) /\
    (oltb stop start = false -> lo <= hi ->
     exists found, scan_range_versions sn start stop lo hi = Ok found /\ key_ascending found /\
       forall r, In r found <->
         in_keys start stop r = true /\ visible (row_key r) (List.filter (in_versions lo hi) (contents sn rowss)) = Some r) /\
    (oltb stop start = false -> Forall (fun r => in_versions 0 u64_max r = true) (contents sn rowss) ->
     scan_range sn start stop = Ok (List.filter (in_keys start stop) rows)).
Proof.
  intros Hsn. destruct (live_values_spec (contents sn rowss)) as [Ha Hin]. eexists. split; [exact (scan_ok sn rowss Hsn)|].
  split; [exact Ha|]. split; [exact Hin|]. split; [|split].
  - unfold scan_range_versions. intros [->|Hv]; [eexists; reflexivity|]. apply Z.ltb_lt in Hv as ->.
    destruct (oltb stop start); eexists; reflexivity.
  - intros Hk Hv. eexists. split; [exact (scan_range_ok sn rowss Hsn start stop lo hi Hk Hv)|].
    destruct (live_values_spec (List.filter (fun r => in_versions lo hi r && in_keys start stop r) (contents sn rowss))) as [Hb Hout].
    split; [exact Hb|]. intros r. rewrite Hout. apply visible_in_keys.
  - intros Hk Hv. unfold scan_range. rewrite (scan_range_ok sn rowss Hsn) by (easy || vm_compute; discriminate). f_equal.
    destruct (live_values_spec (List.filter (fun r => in_versions 0 u64_max r && in_keys start stop r) (contents sn rowss))) as [Hb Hout].
    apply key_ascending_ext; [easy|now apply key_ascending_filter|]. intros r. rewrite Hout, visible_in_keys, filter_In, Hin.
    replace (List.filter (in_versions 0 u64_max) (contents sn rowss)) with (contents sn rowss); [tauto|].
    symmetry. clear Hin Hout Ha Hb. induction Hv as [|x l Ex Hv IH]; [easy|]. cbn [List.filter]. now rewrite Ex, IH.
Qed.

(** ** Skipping segments on their values *)

Section skipping.
Context (k : PrimaryKey) (kept : list StoredRow).

(** Older than every kept row of the key. *)
Definition outdated (x : StoredRow) : Prop := forall y, In y kept -> row_key y = k -> row_version x < row_version y.

(** The latest of all rows so far is the latest of the kept ones, or outdated. *)
Definition agrees (all some : option StoredRow) : Prop :=
  (some = all /\ forall w, all = Some w -> In w kept /\ row_key w = k) \/ (some = None /\ exists x, all = Some x /\ outdated x).

Lemma agrees_kept rows all some :
  incl rows kept -> agrees all some -> agrees (foldl (latest_step k) all rows) (foldl (latest_step k) some rows).
Proof.
  revert all some; induction rows as [|r rows IH]; intros all some Hi Ha; [easy|]. cbn [foldl].
  apply IH; [intros x Hx; apply Hi; now right|]. assert (Hr : In r kept) by (apply Hi; now left).
  unfold latest_step. destruct (oeqb (row_key r) k) eqn:Ek; [|easy]. apply oeqb_spec in Ek.
  destruct Ha as [[-> Hw]|(-> & x & -> & Hx)]; left; cbn [better].
  - split; [easy|]. intros w. unfold better. destruct all as [c|]; [destruct (_ <=? _)|]; intros [= <-]; auto.
  - specialize (Hx r Hr Ek). rewrite (proj2 (Z.leb_le _ _)) by lia. split; [easy|]. now intros w [= <-].
Qed.

Lemma agrees_dropped rows all some :
  (forall x, In x rows -> row_key x = k -> outdated x) -> agrees all some -> agrees (foldl (latest_step k) all rows) some.
Proof.
  revert all; induction rows as [|r rows IH]; intros all Ho Ha; [easy|]. cbn [foldl].
  apply IH; [intros x Hx; apply Ho; now right|]. unfold latest_step. destruct (oeqb (row_key r) k) eqn:Ek; [|easy].
  apply oeqb_spec in Ek. specialize (Ho r (or_introl eq_refl) Ek). destruct Ha as [[-> Hw]|(-> & x & -> & Hx)].
  - destruct all as [w|]; [|right; split; [easy|]; now exists r]. destruct (Hw w eq_refl) as [Hw1 Hw2]. specialize (Ho w Hw1 Hw2).
    cbn [better]. rewrite (proj2 (Z.leb_gt _ _)) by lia. left. now split.
  - right. split; [easy|]. cbn [better]. destruct (_ <=? _); eauto.
Qed.

Lemma agrees_left_out rowss selected start all some :
  incl (concat (left_out_from start rowss selected)) kept ->
  (forall i rows x, rowss !! i = Some rows -> index_in selected (start + i) = true -> In x rows -> row_key x = k -> outdated x) ->
  agrees all some ->
  agrees (foldl (latest_step k) all (concat rowss)) (foldl (latest_step k) some (concat (left_out_from start rowss selected))).
Proof.
  revert start all some; induction rowss as [|rows rowss IH]; intros start all some Hi Ho Ha; [easy|]. cbn [left_out_from concat] in *.
  rewrite foldl_app. assert (Ho' : forall i rows x, rowss !! i = Some rows -> index_in selected (S start + i) = true ->
    In x rows -> row_key x = k -> outdated x).
  { intros i rows' x Hl Hs. apply (Ho (S i) rows' x Hl). now rewrite <- plus_n_Sm. }
  destruct (index_in selected start) eqn:Es.
  - apply IH; [easy..|]. apply agrees_dropped; [|easy]. intros x. apply (Ho 0%nat rows x); [easy|]. now rewrite Nat.add_0_r.
  - cbn [concat] in *. rewrite foldl_app. apply incl_app_inv in Hi as [Hi1 Hi2]. apply IH; [easy..|]. now apply agrees_kept.
Qed.

End skipping.

Lemma prunable_outdated sn rowss i meta rows x y :
  snap_ok sn rowss -> sn_segments sn !! i = Some meta -> rowss !! i = Some rows -> prunable sn i meta = true -> In x rows ->
  row_key y = row_key x -> (In y (sn_rows sn) \/ exists j rows', j <> i /\ rowss !! j = Some rows' /\ In y rows') ->
  row_version x < row_version y.
Proof.
  intros Hsn Hm Hr [Hc Hsh]%andb_true_iff Hx Ek Hy. pose proof (snap_holds _ _ Hsn) as Hh.
  destruct (Forall2_lookup_l _ _ _ _ _ Hh Hm) as (rows0 & Hr0 & Hhm). replace rows0 with rows in * by congruence.
  destruct (holds_keys _ _ _ _ Hhm x Hx) as [K1 K2]. pose proof (holds_versions _ _ _ _ Hhm x Hx) as V.
  destruct Hy as [Hy|(j & rows' & Hj & Hr' & Hy)].
  - pose proof (snap_oldest _ _ Hsn) as Hold. rewrite List.Forall_forall in Hold. destruct (Hold y Hy) as (lo & El & Hlo).
    unfold memtable_shadowed in Hsh. rewrite El, negb_true_iff, andb_false_iff in Hsh. destruct Hsh as [Hsh|Hsh]; [lia|].
    rewrite (range_rows sn rowss Hsn) in Hsh. apply Z.lt_nge. intros Hle.
    assert (Hex : existsb (fun r => row_version r <=? seg_max_version meta)
      (List.filter (fun r => range_contains (Included (seg_min_key meta), Included (seg_max_key meta)) (row_key r)) (sn_rows sn)) = true);
      [|congruence].
    apply existsb_exists. exists y. split; [|lia]. apply filter_In. split; [easy|]. unfold range_contains. cbn [fst snd].
    rewrite Ek, andb_true_iff, !oleb_spec. easy.
  - destruct (Forall2_lookup_r _ _ _ _ _ Hh Hr') as (other & Ho & Hho). rewrite forallb_forall in Hc.
    assert (Hb : clear_of i meta j other = true).
    { apply Hc, list_elem_of_In, list_elem_of_lookup. exists j. rewrite list_lookup_imap, Ho. easy. }
    destruct (holds_keys _ _ _ _ Hho y Hy) as [K3 K4]. pose proof (holds_versions _ _ _ _ Hho y Hy) as V'. rewrite Ek in K3, K4.
    unfold clear_of in Hb. rewrite !orb_true_iff, Nat.eqb_eq, !oltb_spec, Z.ltb_lt in Hb.
    destruct Hb as [[[Hb|Hb]|Hb]|Hb]; [easy| | |lia]; apply olt_not_le in Hb; destruct Hb; now apply (ole_trans _ (row_key x)).
Qed.

(** C12. Skipping segments on the statistics of their values changes no answer.  Take any segments that
    [value_prunable_segments] allows to skip and a predicate that none of their live rows satisfies:
    the visible rows that satisfy it are the same with those segments as without them.  In particular
    no older version comes back that a skipped segment hid. *)
Theorem value_pruning_sound sn rowss selected p k r :
  snap_ok sn rowss ->
  (forall i, In i selected -> value_prunable_segments sn !! i = Some true) ->
  (forall x, In x (concat (taken rowss selected)) -> row_deleted x = false -> p x = false) ->
  p r = true ->
  visible k (concat (left_out rowss selected) ++ sn_rows sn) = Some r <-> visible k (contents sn rowss) = Some r.
Proof.
  intros Hsn Hsel Hp Hr. set (kept := concat (left_out rowss selected) ++ sn_rows sn).
  assert (Ho : forall i rows x, rowss !! i = Some rows -> index_in selected (0 + i) = true -> In x rows -> row_key x = k -> outdated k kept x).
  { intros i rows x Hrows Hi Hx Ex y Hy Ey. apply index_in_spec in Hi. pose proof (Hsel i Hi) as Hb.
    unfold value_prunable_segments in Hb. rewrite list_lookup_imap in Hb.
    destruct (sn_segments sn !! i) as [meta|] eqn:Em; [|easy]. injection Hb as Hb.
    apply (prunable_outdated sn rowss i meta rows x y); [easy..|congruence|]. apply in_app_iff in Hy as [Hy|Hy]; [right|now left].
    apply in_concat in Hy as (rows' & Hy1 & Hy2). apply in_left_out in Hy1 as (j & Hj & Hl). exists j, rows'. split; [|easy].
    now intros ->. }
  assert (Ha : agrees k kept (latest k (contents sn rowss)) (latest k kept)).
  { unfold latest, contents, kept at 2. rewrite !foldl_app. apply agrees_kept; [now apply incl_appr, incl_refl|].
    apply agrees_left_out; [now apply incl_appl, incl_refl|exact Ho|]. left. now split. }
  unfold visible. destruct Ha as [[-> _]|(-> & x & Ex & Hx)]; [easy|]. rewrite Ex. cbn [live]. split; [easy|].
  destruct (row_deleted x) eqn:Ed; [easy|]. intros [= ->]. apply latest_in in Ex as [Hin Ek].
  exfalso. assert (Hn : ~ In r kept) by (intros Hk; specialize (Hx r Hk Ek); lia). unfold kept in Hn. rewrite in_app_iff in Hn.
  unfold contents in Hin. rewrite in_app_iff, (taken_or_left _ selected) in Hin. destruct Hin as [[Hin|Hin]|Hin]; [|tauto..].
  rewrite (Hp r Hin Ed) in Hr. easy.
Qed.

(** ** Folding segments *)

Definition rows_of (sn : TableSnapshot) (meta : SegmentFacts) : list StoredRow :=
  default [] (result_ok (read_rows (sn_directory sn) (sn_schema sn) meta)).

Lemma holds_rows_of sn segments rowss :
  Forall2 (segment_holds (sn_directory sn) (sn_schema sn)) segments rowss -> rowss = map (rows_of sn) segments.
Proof.
  induction 1 as [|meta rows segments rowss Hm _ IH]; [easy|]. cbn. rewrite <- IH. f_equal. unfold rows_of.
  now rewrite (holds_reads _ _ _ _ Hm).
Qed.

Lemma holds_ordered dir schema meta rows : segment_holds dir schema meta rows -> ole (seg_min_key meta) (seg_max_key meta).
Proof.
  intros Hh. destruct rows as [|r rows]; [now destruct (holds_some _ _ _ _ Hh)|].
  destruct (holds_keys _ _ _ _ Hh r (or_introl eq_refl)). now apply (ole_trans _ (row_key r)).
Qed.

(** Each segment ends before every later one starts. *)
Definition in_order (segments : list SegmentFacts) : Prop :=
  StronglySorted (fun a b => olt (seg_max_key a) (seg_min_key b)) segments.

Lemma ranges_disjoint_order segments :
  Forall (fun meta => ole (seg_min_key meta) (seg_max_key meta)) segments -> ranges_disjoint segments = true -> in_order segments.
Proof.
  unfold in_order. induction segments as [|a segments IH]; intros Hk Hd; [constructor|]. apply Forall_cons in Hk as [Ha Hk].
  destruct segments as [|b segments]; [repeat constructor|]. cbn [ranges_disjoint] in Hd.
  destruct (oleb (seg_min_key b) (seg_max_key a)) eqn:E; [easy|]. apply oleb_false in E. specialize (IH Hk Hd).
  constructor; [easy|]. constructor; [easy|]. apply StronglySorted_inv in IH as [_ Hf]. apply Forall_cons in Hk as [Hb _].
  eapply Forall_impl; [exact Hf|]. intros c Hc. apply (olt_le_trans _ (seg_min_key b)); [easy|]. apply olt_le.
  now apply (ole_lt_trans _ (seg_max_key b)).
Qed.

Lemma in_order_ascending dir schema segments rowss :
  Forall2 (segment_holds dir schema) segments rowss -> in_order segments -> key_ascending (concat rowss).
Proof.
  induction 1 as [|meta rows segments rowss Hm Hh IH]; [constructor|]. intros [Ho Hf]%StronglySorted_inv. cbn [concat].
  apply key_ascending_app. split; [apply Hm|]. split; [now apply IH|]. intros a b Ha (rows' & Hr & Hb)%in_concat.
  apply list_elem_of_In, list_elem_of_lookup in Hr as [i Hi]. destruct (Forall2_lookup_r _ _ _ _ _ Hh Hi) as (other & Hoth & Hho).
  rewrite List.Forall_forall in Hf. specialize (Hf other (proj1 (list_elem_of_In _ _) (list_elem_of_lookup_2 _ _ _ Hoth))).
  apply (ole_lt_trans _ (seg_max_key meta)); [now apply Hm|]. apply (olt_le_trans _ (seg_min_key other)); [easy|now apply Hho].
Qed.

Section folding.
Context (sn : TableSnapshot) (rowss : list (list StoredRow)) (Hsn : snap_ok sn rowss).

Definition sorted_segments : list SegmentFacts := by_min_key (sn_segments sn).

Lemma sorted_holds : Forall2 (segment_holds (sn_directory sn) (sn_schema sn)) sorted_segments (map (rows_of sn) sorted_segments).
Proof.
  apply Forall2_fmap_r, Forall_Forall2_diag. apply Forall_forall. intros meta Hm.
  unfold sorted_segments, by_min_key in Hm. rewrite sort_by_perm in Hm. apply list_elem_of_lookup in Hm as [i Hi].
  destruct (Forall2_lookup_l _ _ _ _ _ (snap_holds _ _ Hsn) Hi) as (rows & Hr & Hh).
  assert (E : rows_of sn meta = rows) by (unfold rows_of; now rewrite (holds_reads _ _ _ _ Hh)). unfold compose. now rewrite E.
Qed.

Lemma sorted_rows r : In r (concat (map (rows_of sn) sorted_segments)) <-> In r (concat rowss).
Proof.
  rewrite (holds_rows_of sn _ _ (snap_holds _ _ Hsn)). rewrite !in_concat. unfold sorted_segments, by_min_key.
  split; intros (rows & (meta & <- & Hm)%in_map_iff & Hr); exists (rows_of sn meta); (split; [|easy]); apply in_map;
    rewrite <- list_elem_of_In in Hm |- *; [now rewrite sort_by_perm in Hm|now rewrite sort_by_perm].
Qed.

Lemma sorted_in_order : ranges_disjoint sorted_segments = true -> in_order sorted_segments.
Proof.
  apply ranges_disjoint_order. apply List.Forall_forall. intros meta Hm%list_elem_of_In%list_elem_of_lookup.
  destruct Hm as [i Hi]. destruct (Forall2_lookup_l _ _ _ _ _ sorted_holds Hi) as (rows & _ & Hh). now apply holds_ordered in Hh.
Qed.

Lemma memtable_ascending : key_ascending (sn_rows sn).
Proof. apply keyed_ascending; apply Hsn. Qed.

(** A list of the same rows without repeated keys or deletes is what the scan returns. *)
Lemma scan_is rows :
  key_ascending rows -> Forall (fun r => row_deleted r = false) rows -> (forall r, In r rows <-> In r (contents sn rowss)) ->
  scan sn = Ok rows.
Proof.
  intros Ha Hd Hin. rewrite (scan_ok sn rowss Hsn). f_equal. destruct (live_values_spec (contents sn rowss)) as [Hl Hv].
  apply key_ascending_ext; [easy..|]. intros r. rewrite Hv, visible_distinct, <- Hin.
  - rewrite List.Forall_forall in Hd. split; [now intros []|]. intros Hr. split; [easy|now apply Hd].
  - intros a Hra%Hin Hrb%Hin. now apply (key_ascending_unique rows).
Qed.

Lemma rows_above_ok maximum rows :
  rows_above sn maximum = Some rows ->
  rows = sn_rows sn /\ Forall (fun r => row_deleted r = false /\ forall m, maximum = Some m -> olt m (row_key r)) rows.
Proof.
  unfold rows_above. destruct (existsb _ _) eqn:E; [easy|]. intros [= <-]. split; [easy|]. apply List.Forall_forall.
  intros r Hr. rewrite <- not_true_iff_false, existsb_exists in E.
  destruct (row_deleted r) eqn:Ed; [destruct E; exists r; now rewrite Ed|]. split; [easy|]. intros m ->.
  apply oleb_false. destruct (oleb (row_key r) m) eqn:El; [|easy]. destruct E. exists r. now rewrite Ed, El.
Qed.

Lemma clean_smas_ok segments smas :
  Forall (fun meta => exists rows, segment_holds (sn_directory sn) (sn_schema sn) meta rows) segments -> clean_smas segments = Some smas ->
  map seg_smas segments = map Some smas /\
  forall r, In r (concat (map (rows_of sn) segments)) -> row_deleted r = false.
Proof.
  revert smas; induction segments as [|meta segments IH]; intros smas Hh; cbn [clean_smas]; [now intros [= <-]|].
  apply Forall_cons in Hh as [(rows & Hm) Hh]. destruct (seg_smas meta) as [sma|] eqn:Es; [|easy]. cbn.
  destruct (smas_tombstones sma =? 0) eqn:Et; [|easy]. destruct (clean_smas segments) as [rest|]; [|easy]. intros [= <-].
  destruct (IH rest Hh eq_refl) as [Hr Hd]. split; [cbn; now rewrite Hr, Es|]. intros r [Hrr|Hrr]%in_app_iff; [|now apply Hd].
  replace (rows_of sn meta) with rows in Hrr by (unfold rows_of; now rewrite (holds_reads _ _ _ _ Hm)).
  apply Z.eqb_eq in Et. rewrite (holds_tombstones _ _ _ _ Hm sma Es) in Et. destruct (row_deleted r) eqn:Ed; [|easy].
  assert (Hf : In r (List.filter row_deleted rows)) by now apply filter_In. destruct (List.filter row_deleted rows); [easy|].
  rewrite len_cons in Et. pose proof (len_nonneg l). lia.
Qed.

(** *** Gaps between the spans *)

Lemma unsearchable_empty lo hi k : bound_range_is_searchable lo hi = false -> range_contains (lo, hi) k = false.
Proof.
  unfold bound_range_is_searchable, range_contains. cbn [fst snd].
  assert (Hgt : forall l h : PrimaryKey, cmp l h = Gt -> forall a b, (a = true -> ole l k) -> (b = true -> ole k h) -> a && b = false).
  { intros l h E [] [] H1 H2; try easy. destruct (ole_trans l k h (H1 eq_refl) (H2 eq_refl) E). }
  assert (Heq : forall l h : PrimaryKey, cmp l h = Eq -> olt l k -> ole k h -> False).
  { intros l h ->%cmp_eq H1 H2. apply (olt_irrefl k). now apply (ole_lt_trans _ h). }
  assert (Heq' : forall l h : PrimaryKey, cmp l h = Eq -> ole l k -> olt k h -> False).
  { intros l h ->%cmp_eq H1 H2. apply (olt_irrefl k). now apply (olt_le_trans _ h). }
  destruct lo as [l|l|], hi as [h|h|]; try easy; destruct (cmp l h) eqn:E; try easy; intros _;
    try (apply (Hgt l h E); rewrite ?oltb_spec, ?oleb_spec; auto using olt_le; fail);
    apply not_true_iff_false; rewrite andb_true_iff, ?oltb_spec, ?oleb_spec; intros [H1 H2]; eauto using olt_le.
Qed.

Lemma outside_rows_ok limit rows outside out :
  outside_rows limit rows outside = Some out -> out = outside ++ List.filter not_deleted rows.
Proof.
  revert outside; induction rows as [|r rows IH]; intros outside; cbn [outside_rows List.filter]; [intros [= <-]; now rewrite app_nil_r|].
  unfold not_deleted at 1. destruct (row_deleted r); cbn [negb]; [apply IH|]. destruct (_ =? _); [easy|]. intros ->%IH.
  now rewrite <- app_assoc.
Qed.

Lemma gap_rows_ok limit lo hi outside out :
  gap_rows sn limit lo hi outside = Some out ->
  out = outside ++ List.filter (fun r => not_deleted r && range_contains (lo, hi) (row_key r)) (sn_rows sn).
Proof.
  unfold gap_rows. destruct (bound_range_is_searchable lo hi) eqn:E.
  - intros ->%outside_rows_ok. now rewrite (range_rows sn rowss Hsn), filter_filter.
  - intros [= <-]. replace (List.filter _ _) with (@nil StoredRow); [now rewrite app_nil_r|]. symmetry.
    induction (sn_rows sn) as [|r l IH]; [easy|]. cbn. now rewrite (unsearchable_empty _ _ (row_key r) E), andb_false_r.
Qed.

Definition in_span (span : GroupedFoldSpan) (r : StoredRow) : bool := in_keys (span_min_key span) (span_max_key span) r.

Definition spans_in_order (spans : list GroupedFoldSpan) : Prop :=
  StronglySorted (fun a b => olt (span_max_key a) (span_min_key b)) spans /\
  Forall (fun span => ole (span_min_key span) (span_max_key span)) spans.

(** The rows past [lo] that no span covers. *)
Definition uncovered (lo : Bound) (spans : list GroupedFoldSpan) (r : StoredRow) : bool :=
  range_contains (lo, Unbounded) (row_key r) && negb (existsb (fun span => in_span span r) spans).

Lemma filter_split p q rows :
  key_ascending rows -> (forall a b, p a = true -> q b = true -> olt (row_key a) (row_key b)) ->
  List.filter p rows ++ List.filter q rows = List.filter (fun r => p r || q r) rows.
Proof.
  intros Ha Hpq. apply key_ascending_ext; [|now apply key_ascending_filter|].
  - apply key_ascending_app. split; [now apply key_ascending_filter|]. split; [now apply key_ascending_filter|]. intros a b [_ Ea]%filter_In [_ Eb]%filter_In. now apply Hpq.
  - intros r. rewrite in_app_iff, !filter_In, orb_true_iff. tauto.
Qed.

(** Before the span, or past it and under none of the later ones. *)
Lemma uncovered_cons lo span spans r :
  spans_in_order (span :: spans) -> (forall l, lo = Included l \/ lo = Excluded l -> olt l (span_min_key span)) ->
  uncovered lo (span :: spans) r =
  range_contains (lo, Excluded (span_min_key span)) (row_key r) || uncovered (Excluded (span_max_key span)) spans r.
Proof.
  intros [[Ho Hf]%StronglySorted_inv [Hk _]%Forall_cons] Hlo. rewrite List.Forall_forall in Hf.
  unfold uncovered, range_contains. cbn [fst snd existsb]. rewrite !andb_true_r, negb_orb.
  set (later := existsb (fun span => in_span span r) spans). unfold in_span, in_keys at 1.
  destruct (oltb (row_key r) (span_min_key span)) eqn:E1.
  - assert (E2 : oleb (span_min_key span) (row_key r) = false) by now apply oleb_false, oltb_spec.
    assert (E3 : later = false).
    { apply not_true_iff_false. intros (b & Hb & Hin)%existsb_exists. apply andb_true_iff in Hin as [Hin _]. apply oleb_spec in Hin.
      apply oltb_spec in E1. apply (olt_irrefl (row_key r)). apply (olt_le_trans _ (span_min_key span)); [easy|].
      apply olt_le. apply (ole_lt_trans _ (span_max_key span)); [easy|]. apply (olt_le_trans _ (span_min_key b)); [now apply Hf|easy]. }
    rewrite E2, E3. cbn [negb andb]. destruct (oltb (span_max_key span) (row_key r)) eqn:E4; [|now rewrite !andb_true_r, orb_false_r].
    apply oltb_spec in E1, E4. destruct (olt_irrefl (row_key r)). apply (olt_le_trans _ (span_min_key span)); [easy|].
    now apply olt_le, (ole_lt_trans _ (span_max_key span)).
  - apply oltb_false in E1. rewrite (proj2 (oleb_spec _ _) E1), andb_false_r. cbn [andb orb].
    assert (E2 : match lo with Included l => oleb l (row_key r) | Excluded l => oltb l (row_key r) | Unbounded => true end = true).
    { destruct lo as [l|l|]; [apply oleb_spec, olt_le|apply oltb_spec|easy]; apply (olt_le_trans _ (span_min_key span)); auto. }
    rewrite E2. cbn [andb]. f_equal. destruct (oltb (span_max_key span) (row_key r)) eqn:E4.
    + apply oltb_spec, oleb_false in E4. now rewrite E4.
    + apply oltb_false, oleb_spec in E4. now rewrite E4.
Qed.

Lemma gaps_ok limit spans lo outside out :
  spans_in_order spans -> (forall l, lo = Included l \/ lo = Excluded l -> Forall (fun span => olt l (span_min_key span)) spans) ->
  gaps sn limit lo spans outside = Some out ->
  out = outside ++ List.filter (fun r => not_deleted r && uncovered lo spans r) (sn_rows sn).
Proof.
  revert lo outside; induction spans as [|span spans IH]; intros lo outside Ho Hlo; cbn [gaps].
  - intros ->%gap_rows_ok. f_equal. apply List.filter_ext. intros r. unfold uncovered. cbn [existsb negb]. now rewrite andb_true_r.
  - destruct (gap_rows _ _ _ _ _) as [found|] eqn:Eg; [|easy]. cbn. apply gap_rows_ok in Eg as ->.
    pose proof Ho as [[Hs Hf]%StronglySorted_inv [Hk Hks]%Forall_cons].
    intros ->%IH; [|now split|intros l [|[= <-]]; easy]. rewrite <- app_assoc. f_equal.
    rewrite filter_split; [|exact memtable_ascending|].
    + apply List.filter_ext. intros r. rewrite uncovered_cons; [now rewrite andb_orb_distrib_r|easy|].
      intros l Hl. now specialize (Hlo l Hl) as [Hl' _]%Forall_cons.
    + intros a b [_ [_ Ea]%andb_true_iff]%andb_true_iff [_ [[Eb _]%andb_true_iff _]%andb_true_iff]%andb_true_iff. cbn [fst snd] in *.
      apply oltb_spec in Ea, Eb. apply (olt_le_trans _ (span_min_key span)); [easy|]. now apply olt_le, (ole_lt_trans _ (span_max_key span)).
Qed.

(** A row of a segment lies in that segment's span. *)
Lemma segment_row_in_span r :
  In r (concat rowss) -> exists meta, In meta sorted_segments /\ In r (rows_of sn meta) /\ in_keys (seg_min_key meta) (seg_max_key meta) r = true.
Proof.
  rewrite <- sorted_rows. intros (rows & (meta & <- & Hm)%in_map_iff & Hr)%in_concat. exists meta. split; [easy|]. split; [easy|].
  apply list_elem_of_In, list_elem_of_lookup in Hm as [i Hi].
  pose proof (Forall2_lookup_lr _ _ _ i meta (rows_of sn meta) sorted_holds Hi) as Hh. rewrite list_lookup_fmap, Hi in Hh.
  specialize (Hh eq_refl). unfold in_keys. rewrite andb_true_iff, !oleb_spec. now apply Hh.
Qed.

(** Spans that cover a row are the same. *)
Lemma covering_unique segments a b r :
  in_order segments -> In a segments -> In b segments -> in_keys (seg_min_key a) (seg_max_key a) r = true ->
  in_keys (seg_min_key b) (seg_max_key b) r = true -> a = b.
Proof.
  intros Ho Ha Hb [A1 A2]%andb_true_iff [B1 B2]%andb_true_iff. rewrite oleb_spec in A1, A2, B1, B2.
  assert (Hc : forall x y, olt (seg_max_key x) (seg_min_key y) -> ole (seg_min_key y) (row_key r) -> ole (row_key r) (seg_max_key x) -> False).
  { intros x y H1 H2 H3. apply (olt_irrefl (row_key r)). apply (ole_lt_trans _ (seg_max_key x)); [easy|]. now apply (olt_le_trans _ (seg_min_key y)). }
  unfold in_order in Ho. induction Ho as [|x segments Ho IH Hf]; [easy|]. rewrite List.Forall_forall in Hf.
  destruct Ha as [->|Ha], Hb as [->|Hb]; [easy| | |now apply IH].
  - destruct (Hc a b); auto.
  - destruct (Hc b a); auto.
Qed.

Lemma spans_order : ranges_disjoint sorted_segments = true -> spans_in_order (map (fold_span sn) sorted_segments).
Proof.
  intros Hd%sorted_in_order. split.
  - unfold in_order in Hd. induction Hd as [|m l Hd IH Hf]; constructor; [easy|]. apply Forall_fmap. exact Hf.
  - apply Forall_fmap, List.Forall_forall. intros m Hm%list_elem_of_In%list_elem_of_lookup. destruct Hm as [i Hi].
    destruct (Forall2_lookup_l _ _ _ _ _ sorted_holds Hi) as (rows & _ & Hh). exact (holds_ordered _ _ _ _ Hh).
Qed.

(** What the scan returns inside a span the memtable does not touch is its segment's live rows. *)
Lemma clean_span meta rows :
  ranges_disjoint sorted_segments = true -> In meta sorted_segments -> span_dirty (fold_span sn meta) = false -> scan sn = Ok rows ->
  List.filter (in_span (fold_span sn meta)) rows = List.filter not_deleted (rows_of sn meta).
Proof.
  intros Hd Hm Hc Hs. rewrite (scan_ok sn rowss Hsn) in Hs. injection Hs as <-.
  destruct (live_values_spec (contents sn rowss)) as [Ha Hv]. pose proof Hm as Hm'.
  apply list_elem_of_In, list_elem_of_lookup in Hm' as [i Hi]. destruct (Forall2_lookup_l _ _ _ _ _ sorted_holds Hi) as (rows & Hr & Hh).
  rewrite list_lookup_fmap, Hi in Hr. injection Hr as <-.
  assert (Hin : forall a, In a (contents sn rowss) -> in_keys (seg_min_key meta) (seg_max_key meta) a = true -> In a (rows_of sn meta)).
  { intros a [Hra|Hra]%in_app_iff Hk.
    - apply segment_row_in_span in Hra as (m & H1 & H2 & H3).
      now rewrite (covering_unique sorted_segments meta m a (sorted_in_order Hd) Hm H1 Hk H3).
    - cbn [fold_span span_dirty] in Hc. rewrite (range_rows sn rowss Hsn) in Hc.
      assert (Hf : In a (List.filter (fun r => range_contains (Included (seg_min_key meta), Included (seg_max_key meta)) (row_key r)) (sn_rows sn)))
        by now apply filter_In. now destruct (List.filter _ _). }
  apply key_ascending_ext; [now apply key_ascending_filter|now apply key_ascending_filter, Hh|]. intros r.
  rewrite !filter_In, Hv. unfold not_deleted. rewrite negb_true_iff. split.
  - intros [Hvis Hk]. pose proof (visible_key _ _ _ Hvis) as [_ Hc']. split; [now apply Hin|].
    unfold visible in Hvis. destruct (latest _ _) as [w|]; [|easy]. cbn in Hvis. destruct (row_deleted w) eqn:E; [easy|]. congruence.
  - intros [Hr Hdel]. assert (Hk : in_keys (seg_min_key meta) (seg_max_key meta) r = true)
      by (unfold in_keys; rewrite andb_true_iff, !oleb_spec; now apply Hh). split; [|easy]. apply visible_distinct.
    + intros a Hra _ E. apply (key_ascending_unique (rows_of sn meta)); [apply Hh| |easy|easy]. apply Hin; [easy|].
      unfold in_keys in *. now rewrite E.
    + split; [|easy]. apply in_app_iff. left. apply sorted_rows, in_concat. exists (rows_of sn meta). split; [now apply in_map|easy].
Qed.

Lemma uncovered_visible rows :
  scan sn = Ok rows ->
  List.filter (fun r => not_deleted r && uncovered Unbounded (map (fold_span sn) sorted_segments) r) (sn_rows sn) =
  List.filter (fun r => negb (existsb (fun span => in_span span r) (map (fold_span sn) sorted_segments))) rows.
Proof.
  intros Hs. rewrite (scan_ok sn rowss Hsn) in Hs. injection Hs as <-. destruct (live_values_spec (contents sn rowss)) as [Ha Hv].
  set (spans := map _ _). apply key_ascending_ext; [now apply key_ascending_filter, memtable_ascending|now apply key_ascending_filter|].
  intros r. rewrite !filter_In, Hv, andb_true_iff. unfold uncovered, not_deleted. cbn [range_contains fst snd andb]. rewrite negb_true_iff.
  destruct (existsb (fun span => in_span span r) spans) eqn:E; [split; intros [H1 H2]; easy|].
  assert (Hseg : forall a, In a (concat rowss) -> row_key a <> row_key r).
  { intros a Hra Ek. apply segment_row_in_span in Hra as (m & H1 & _ & H3). rewrite <- not_true_iff_false in E. apply E.
    apply existsb_exists. exists (fold_span sn m). split; [now apply in_map|]. unfold in_span, in_keys in *. now rewrite <- Ek. }
  assert (Hu : forall a, In a (contents sn rowss) -> In r (contents sn rowss) -> row_key a = row_key r -> a = r).
  { intros a [Ha1|Ha1]%in_app_iff [Hr1|Hr1]%in_app_iff Ek; [now destruct (Hseg a)|now destruct (Hseg a)|now destruct (Hseg r)|].
    now apply (key_ascending_unique (sn_rows sn)); [apply memtable_ascending|..]. }
  rewrite visible_distinct by exact Hu. unfold contents. rewrite in_app_iff. split; [tauto|]. intros [[[Hr|Hr] Hd] _]; [now destruct (Hseg r)|tauto].
Qed.

Lemma in_order_last segments meta end_ :
  in_order segments -> Forall (fun m => ole (seg_min_key m) (seg_max_key m)) segments -> In meta segments ->
  last segments = Some end_ -> ole (seg_max_key meta) (seg_max_key end_).
Proof.
  intros Ho Hk Hm Hl. apply last_Some in Hl as [l ->]. apply in_app_iff in Hm as [Hm|[->|[]]]; [|apply ole_refl].
  apply Forall_app in Hk as [_ [Hk _]%Forall_cons]. unfold in_order in Ho. induction l as [|x l IH]; [easy|].
  cbn in Ho. apply StronglySorted_inv in Ho as [Ho Hf]. destruct Hm as [->|Hm]; [|now apply IH].
  rewrite List.Forall_forall in Hf. apply (ole_trans _ (seg_min_key end_)); [|easy]. apply olt_le, Hf, in_app_iff. right. now left.
Qed.

Lemma sma_fold_exact smas rows :
  sma_fold_state sn = Some (smas, rows) ->
  map seg_smas sorted_segments = map Some smas /\ scan sn = Ok (concat (map (rows_of sn) sorted_segments) ++ rows).
Proof.
  unfold sma_fold_state. fold sorted_segments. destruct (ranges_disjoint _) eqn:Ed; [|easy]. cbn.
  destruct (clean_smas _) as [l|] eqn:Ec; [|easy]. cbn. destruct (rows_above _ _) as [above|] eqn:Er; [|easy]. intros [= -> ->].
  pose proof sorted_holds as Hh. assert (Hhold : Forall (fun meta => exists rows, segment_holds (sn_directory sn) (sn_schema sn) meta rows) sorted_segments).
  { apply List.Forall_forall. intros m Hm%list_elem_of_In%list_elem_of_lookup. destruct Hm as [i Hi].
    destruct (Forall2_lookup_l _ _ _ _ _ Hh Hi) as (x & _ & Hx). eauto. }
  destruct (clean_smas_ok _ _ Hhold Ec) as [Hs Hd]. split; [exact Hs|]. apply rows_above_ok in Er as [-> Hab].
  rewrite List.Forall_forall in Hab. apply scan_is.
  - apply key_ascending_app. split; [now apply (in_order_ascending _ _ _ _ Hh), sorted_in_order|]. split; [apply memtable_ascending|].
    intros a b Ha Hb. apply sorted_rows, segment_row_in_span in Ha as (m & Hm & _ & [_ Hk]%andb_true_iff). apply oleb_spec in Hk.
    apply (ole_lt_trans _ (seg_max_key m)); [easy|]. destruct (last sorted_segments) as [e|] eqn:El; [|now apply last_None in El; rewrite El in Hm].
    apply (ole_lt_trans _ (seg_max_key e)); [|now apply (Hab b Hb)]. apply (in_order_last sorted_segments); [now apply sorted_in_order| |easy|easy].
    eapply Forall_impl; [exact Hhold|]. intros x (y & Hy). now apply holds_ordered in Hy.
  - apply Forall_app. split; apply List.Forall_forall; [exact Hd|]. intros r Hr. now apply Hab.
  - intros r. unfold contents. now rewrite !in_app_iff, sorted_rows.
Qed.

Lemma insert_only_exact generation rows :
  insert_only_delta sn = Some (generation, rows) ->
  exists base, key_ascending base /\ (forall r, In r base <-> visible (row_key r) (concat rowss) = Some r) /\ scan sn = Ok (base ++ rows).
Proof.
  unfold insert_only_delta. destruct (sn_memtable sn) as [|kr l] eqn:Em; [easy|].
  destruct (rows_above _ _) as [above|] eqn:Er; [|easy]. cbn. intros [= _ <-]. apply rows_above_ok in Er as [-> Hab].
  rewrite List.Forall_forall in Hab. destruct (live_values_spec (concat rowss)) as [Hb Hin]. eexists. split; [exact Hb|]. split; [exact Hin|].
  assert (Hlt : forall a b, In a (concat rowss) -> In b (sn_rows sn) -> olt (row_key a) (row_key b)).
  { intros a b Ha Hrb. apply segment_row_in_span in Ha as (m & Hm & _ & [_ Hk]%andb_true_iff). apply oleb_spec in Hk.
    unfold sorted_segments, by_min_key in Hm. rewrite <- list_elem_of_In, sort_by_perm, list_elem_of_In in Hm.
    destruct (max_key (map seg_max_key (sn_segments sn))) as [e|] eqn:Ee; [|now destruct (sn_segments sn)].
    apply (ole_lt_trans _ (seg_max_key m)); [easy|]. apply (ole_lt_trans _ e); [|now apply (Hab b Hrb)].
    now apply (max_key_ge _ _ _ Ee), in_map. }
  rewrite (scan_ok sn rowss Hsn). f_equal. destruct (live_values_spec (contents sn rowss)) as [Hc Hv].
  apply key_ascending_ext; [easy| |].
  - apply key_ascending_app. split; [easy|]. split; [apply memtable_ascending|]. intros a b [_ Ha]%Hin%visible_key Hrb. now apply Hlt.
  - intros r. rewrite Hv, in_app_iff, Hin. unfold visible, contents. rewrite latest_app.
    destruct (latest (row_key r) (concat rowss)) as [w|] eqn:El.
    + apply latest_in in El as [Hw Ew]. rewrite latest_fold_absent; [|intros b Hrb E; destruct (olt_irrefl (row_key w)); rewrite Ew at 2; rewrite <- E; now apply Hlt].
      split; [tauto|]. intros [|Hr]; [easy|]. destruct (olt_irrefl (row_key w)). rewrite Ew at 2. now apply Hlt.
    + fold (latest (row_key r) (sn_rows sn)) (visible (row_key r) (sn_rows sn)). rewrite visible_distinct
        by (intros a ? ?; now apply (key_ascending_unique (sn_rows sn)); [apply memtable_ascending|..]).
      split; [tauto|]. intros [|Hr]; [easy|]. split; [easy|]. now apply Hab.
Qed.

Lemma grouped_exact limit spans outside :
  grouped_fold_spans sn limit = Some (spans, outside) ->
  spans_in_order spans /\
  exists rows, scan sn = Ok rows /\ outside = List.filter (fun r => negb (existsb (fun span => in_span span r) spans)) rows /\
    Forall2 (fun meta span => span_file_name span = seg_file_name meta /\
      (span_dirty span = false -> List.filter (in_span span) rows = List.filter not_deleted (rows_of sn meta))) sorted_segments spans.
Proof.
  unfold grouped_fold_spans. fold sorted_segments. destruct (ranges_disjoint _) eqn:Ed; [|easy]. cbn.
  destruct (gaps _ _ _ _ _) as [out|] eqn:Eg; [|easy]. intros [= <- <-]. pose proof (spans_order Ed) as Ho. split; [exact Ho|].
  pose proof (scan_ok sn rowss Hsn) as Hs. eexists. split; [exact Hs|]. split.
  - rewrite <- (uncovered_visible _ Hs). apply gaps_ok in Eg; [exact Eg|exact Ho|]. now intros l [|].
  - apply Forall2_fmap_r, Forall_Forall2_diag, List.Forall_forall. intros m Hm. split; [easy|]. intros Hd.
    now apply (clean_span m _ Ed Hm Hd).
Qed.

End folding.

(** C13. The answers that let the engine add up segments instead of reading rows are exact.  When
    [sma_fold_state] answers, the scan is the rows of its segments one after the other followed by its
    memtable rows, so their summaries cover every visible row once.  When [insert_only_delta] answers,
    the scan is that of the segments alone followed by its rows.  When [grouped_fold_spans] answers, no
    two spans share a key, the rows listed are exactly the visible ones outside every span, and what
    is visible in a span not marked dirty is exactly what its segment's file holds. *)
Theorem segment_folds_exact sn rowss :
  snap_ok sn rowss ->
  (forall smas rows, sma_fold_state sn = Some (smas, rows) ->
     map seg_smas (by_min_key (sn_segments sn)) = map Some smas /\
     scan sn = Ok (concat (map (rows_of sn) (by_min_key (sn_segments sn))) ++ rows)) /\
  (forall generation rows, insert_only_delta sn = Some (generation, rows) ->
     exists base, key_ascending base /\ (forall r, In r base <-> visible (row_key r) (concat rowss) = Some r) /\ scan sn = Ok (base ++ rows)) /\
  (forall limit spans outside, grouped_fold_spans sn limit = Some (spans, outside) ->
     spans_in_order spans /\
     exists rows, scan sn = Ok rows /\ outside = List.filter (fun r => negb (existsb (fun span => in_span span r) spans)) rows /\
       Forall2 (fun meta span => span_file_name span = seg_file_name meta /\
         (span_dirty span = false -> List.filter (in_span span) rows = List.filter not_deleted (rows_of sn meta)))
         (by_min_key (sn_segments sn)) spans).
Proof.
  intros Hsn. split; [|split].
  - intros smas rows. exact (sma_fold_exact sn rowss Hsn smas rows).
  - intros generation rows. exact (insert_only_exact sn rowss Hsn generation rows).
  - intros limit spans outside. exact (grouped_exact sn rowss Hsn limit spans outside).
Qed.

(** ** Bounds *)

Lemma sat_sum (counts : list Z) start :
  0 <= start <= u64_max -> Forall (fun c => 0 <= c) counts ->
  foldl (fun rows c => sat_add 64 rows c) start counts = Z.min u64_max (start + sum_of id counts).
Proof.
  unfold sat_add, sum_of. change (2 ^ 64 - 1) with u64_max. revert start; induction counts as [|c counts IH]; intros start Hs Hc; cbn [foldl foldr]; [lia|].
  apply Forall_cons in Hc as [Hc Hcs]. rewrite IH by (easy || lia). assert (0 <= sum_of id counts) by (apply sum_of_nonneg; now apply Forall_forall).
  unfold sum_of, id in *. lia.
Qed.

Lemma holds_len dir schema segments rowss :
  Forall2 (segment_holds dir schema) segments rowss -> sum_of id (map seg_row_count segments) = len (concat rowss).
Proof.
  induction 1 as [|m rows segments rowss Hm _ IH]; [easy|]. cbn [map concat]. rewrite len_app. unfold sum_of in *. cbn [foldr]. rewrite IH.
  unfold id. now rewrite (holds_count _ _ _ _ Hm).
Qed.

Lemma foldl_map_count (segments : list SegmentFacts) start :
  foldl (fun rows meta => sat_add 64 rows (seg_row_count meta)) start segments =
  foldl (fun rows c => sat_add 64 rows c) start (map seg_row_count segments).
Proof. revert start; induction segments as [|m l IH]; intros start; [easy|]. apply IH. Qed.

Lemma holds_counts dir schema segments rowss :
  Forall2 (segment_holds dir schema) segments rowss -> Forall (fun c => 0 <= c) (map seg_row_count segments).
Proof.
  induction 1 as [|m rows segments rowss Hm _ IH]; constructor; [|easy]. rewrite (holds_count _ _ _ _ Hm). apply len_nonneg.
Qed.

Lemma filter_holds dir schema p segments rowss :
  Forall2 (segment_holds dir schema) segments rowss ->
  exists kept, Forall2 (segment_holds dir schema) (List.filter p segments) kept /\
    forall q, (forall meta rows, segment_holds dir schema meta rows -> p meta = false -> List.filter q rows = []) ->
      List.filter q (concat rowss) = List.filter q (concat kept).
Proof.
  induction 1 as [|m rows segments rowss Hm _ (kept & Hk & Hq)]; [now exists []|]. cbn [List.filter]. destruct (p m) eqn:Ep.
  - exists (rows :: kept). split; [now constructor|]. intros q Hp. cbn [concat]. now rewrite !List.filter_app, (Hq q).
  - exists kept. split; [easy|]. intros q Hp. cbn [concat]. now rewrite List.filter_app, (Hp m rows Hm Ep), (Hq q).
Qed.

Lemma len_filter {A} (p : A -> bool) l : len (List.filter p l) <= len l.
Proof. induction l as [|x l IH]; [easy|]. cbn [List.filter]. rewrite len_cons. destruct (p x); rewrite ?len_cons; lia. Qed.

Lemma hd_last_bounds (m : list (PrimaryKey * StoredRow)) k :
  omap_sorted m -> In k (map fst m) ->
  exists lo hi, hd_error (map fst m) = Some lo /\ last (map fst m) = Some hi /\ ole lo k /\ ole k hi.
Proof.
  unfold omap_sorted. generalize (map fst m) as ks. intros ks Hs Hk. destruct (last ks) as [hi|] eqn:El; [|now apply last_None in El as ->].
  destruct ks as [|lo ks]; [easy|]. exists lo, hi. split; [easy|]. split; [easy|]. split.
  - apply StronglySorted_inv in Hs as [_ Hf]. destruct Hk as [->|Hk]; [apply ole_refl|]. rewrite List.Forall_forall in Hf. now apply olt_le, Hf.
  - apply last_Some in El as [l E]. rewrite E in *. clear E. apply in_app_iff in Hk as [Hk|[->|[]]]; [|apply ole_refl].
    clear lo ks. induction l as [|x l IH]; [easy|]. cbn in Hs. apply StronglySorted_inv in Hs as [Hs Hf]. destruct Hk as [->|Hk]; [|now apply IH].
    rewrite List.Forall_forall in Hf. apply olt_le, Hf, in_app_iff. right. now left.
Qed.

Lemma versions_max_ge versions v m : versions_max versions = Some m -> In v versions -> v <= m.
Proof. destruct versions as [|x l]; [easy|]. intros [= <-] Hv. apply foldl_max_ge. destruct Hv; auto. Qed.

Lemma some_max (l : list Z) v : In v l -> exists m, versions_max l = Some m.
Proof. destruct l; [easy|]. cbn. eauto. Qed.

(** An extreme over two sources bounds a member of either. *)
Lemma version_bounded sn rowss r : snap_ok sn rowss -> In r (contents sn rowss) -> exists v, max_row_version sn = Some v /\ row_version r <= v.
Proof.
  intros Hsn Hr. unfold max_row_version. set (segs := versions_max (map seg_max_version _)). set (mem := versions_max (map row_version _)).
  assert (Hb : exists v, (segs = Some v \/ mem = Some v) /\ row_version r <= v).
  { apply in_app_iff in Hr as [Hr|Hr].
    - apply in_concat in Hr as (rows & Hrows & Hr). apply list_elem_of_In, list_elem_of_lookup in Hrows as [i Hi].
      destruct (Forall2_lookup_r _ _ _ _ _ (snap_holds _ _ Hsn) Hi) as (m & Hm & Hh).
      pose proof (in_map seg_max_version _ _ (proj1 (list_elem_of_In _ _) (list_elem_of_lookup_2 _ _ _ Hm))) as Hin.
      destruct (some_max _ _ Hin) as [v Hv]. exists v. split; [now left|]. pose proof (versions_max_ge _ _ _ Hv Hin).
      pose proof (holds_versions _ _ _ _ Hh r Hr). lia.
    - pose proof (in_map row_version _ _ Hr) as Hin. destruct (some_max _ _ Hin) as [v Hv]. exists v. split; [now right|].
      now apply (versions_max_ge _ _ _ Hv). }
  destruct Hb as (v & Hv & Hle). assert (Hin : In v (option_list segs ++ option_list mem)).
  { apply in_app_iff. destruct Hv as [-> | ->]; [left|right]; now left. }
  destruct (some_max _ _ Hin) as [w Hw]. exists w. split; [exact Hw|]. pose proof (versions_max_ge _ _ _ Hw Hin). lia.
Qed.

Lemma some_min_key (l : list PrimaryKey) k : In k l -> exists m, min_key l = Some m.
Proof. destruct l; [easy|]. cbn. eauto. Qed.

Lemma some_max_key (l : list PrimaryKey) k : In k l -> exists m, max_key l = Some m.
Proof. destruct l; [easy|]. cbn. eauto. Qed.

Lemma keys_bounded sn rowss r :
  snap_ok sn rowss -> In r (contents sn rowss) -> exists lo hi, key_bounds sn = Some (lo, hi) /\ in_keys lo hi r = true.
Proof.
  intros Hsn Hr. unfold key_bounds. set (lows := option_list (min_key _) ++ _). set (highs := option_list (max_key _) ++ _).
  assert (Hb : exists lo hi, In lo lows /\ In hi highs /\ ole lo (row_key r) /\ ole (row_key r) hi).
  { apply in_app_iff in Hr as [Hr|Hr].
    - apply in_concat in Hr as (rows & Hrows & Hr). apply list_elem_of_In, list_elem_of_lookup in Hrows as [i Hi].
      destruct (Forall2_lookup_r _ _ _ _ _ (snap_holds _ _ Hsn) Hi) as (m & Hm & Hh).
      apply list_elem_of_lookup_2, list_elem_of_In in Hm. destruct (holds_keys _ _ _ _ Hh r Hr) as [K1 K2].
      destruct (some_min_key _ _ (in_map seg_min_key _ _ Hm)) as [lo Hlo]. destruct (some_max_key _ _ (in_map seg_max_key _ _ Hm)) as [hi Hhi].
      exists lo, hi. subst lows highs. rewrite Hlo, Hhi. split; [now left|]. split; [now left|].
      split; [apply (ole_trans _ (seg_min_key m)); [|easy]|apply (ole_trans _ (seg_max_key m)); [easy|]].
      + exact (min_key_le _ _ _ Hlo (in_map seg_min_key _ _ Hm)).
      + exact (max_key_ge _ _ _ Hhi (in_map seg_max_key _ _ Hm)).
    - assert (Hk : In (row_key r) (map fst (sn_memtable sn))).
      { apply (keyed_get (sn_memtable sn)) in Hr; [|apply Hsn..]. exact (in_map fst _ _ (omap_get_In _ _ _ Hr)). }
      destruct (hd_last_bounds _ _ (snap_sorted _ _ Hsn) Hk) as (lo & hi & E1 & E2 & H1 & H2). exists lo, hi. subst lows highs.
      rewrite E1, E2, !in_app_iff. split; [right; now left|]. split; [right; now left|]. easy. }
  destruct Hb as (lo & hi & H1 & H2 & H3 & H4). destruct (some_min_key _ _ H1) as [lo' Hlo]. destruct (some_max_key _ _ H2) as [hi' Hhi].
  rewrite Hlo, Hhi. exists lo', hi'. split; [easy|]. unfold in_keys. rewrite andb_true_iff, !oleb_spec. split.
  - apply (ole_trans _ lo); [|easy]. exact (min_key_le _ _ _ Hlo H1).
  - apply (ole_trans _ hi); [easy|]. exact (max_key_ge _ _ _ Hhi H2).
Qed.

Lemma range_upper_bound sn rowss start stop :
  snap_ok sn rowss -> len (sn_memtable sn) <= u64_max ->
  Z.min u64_max (len (List.filter (in_keys start stop) (contents sn rowss))) <= physical_range_row_upper_bound sn start stop.
Proof.
  intros Hsn Hl. unfold physical_range_row_upper_bound.
  destruct (filter_holds (sn_directory sn) (sn_schema sn) (fun meta => oleb (seg_min_key meta) stop && oleb start (seg_max_key meta)) _ _ (snap_holds _ _ Hsn))
    as (kept & Hk & Hq).
  rewrite foldl_map_count, sat_sum; [|pose proof (len_nonneg (sn_memtable sn)); lia|exact (holds_counts _ _ _ _ Hk)].
  rewrite (holds_len _ _ _ _ Hk). unfold contents. rewrite List.filter_app, len_app, (Hq (in_keys start stop)).
  - pose proof (len_filter (in_keys start stop) (concat kept)). pose proof (len_filter (in_keys start stop) (sn_rows sn)) as Hm.
    unfold sn_rows in Hm. rewrite len_map in Hm. unfold sn_rows. lia.
  - intros m rows Hm Hn. apply andb_false_iff in Hn. destruct (List.filter _ rows) as [|r l] eqn:E; [easy|]. exfalso.
    assert (Hr : In r (r :: l)) by now left. rewrite <- E in Hr. apply filter_In in Hr as [Hr [B1 B2]%andb_true_iff]. apply oleb_spec in B1, B2.
    destruct (holds_keys _ _ _ _ Hm r Hr). destruct Hn as [Hn|Hn]; apply oleb_false, olt_not_le in Hn; destruct Hn; now apply (ole_trans _ (row_key r)).
Qed.

(** The planning bounds of a snapshot hold of its rows.  The row bound is the exact number of stored
    rows, saturated at the width of its counter, the bound for a key range is at least the rows of the
    range, every row's key lies between the key bounds, and no row is newer than the highest version. *)
Theorem snapshot_bounds sn rowss :
  snap_ok sn rowss -> len (sn_memtable sn) <= u64_max ->
  physical_row_upper_bound sn = Z.min u64_max (len (contents sn rowss)) /\
  (forall start stop, Z.min u64_max (len (List.filter (in_keys start stop) (contents sn rowss))) <= physical_range_row_upper_bound sn start stop) /\
  (forall r, In r (contents sn rowss) ->
     (exists lo hi, key_bounds sn = Some (lo, hi) /\ in_keys lo hi r = true) /\ exists v, max_row_version sn = Some v /\ row_version r <= v).
Proof.
  intros Hsn Hl. split; [|split].
  - unfold physical_row_upper_bound. pose proof (snap_holds _ _ Hsn) as Hh.
    rewrite foldl_map_count, sat_sum; [|pose proof (len_nonneg (sn_memtable sn)); lia|exact (holds_counts _ _ _ _ Hh)].
    rewrite (holds_len _ _ _ _ Hh). unfold contents, sn_rows. rewrite len_app, len_map. lia.
  - intros start stop. now apply range_upper_bound.
  - intros r Hr. split; [now apply (keys_bounded sn rowss)|now apply (version_bounded sn rowss)].
Qed.

Module SnapshotExamples.
#[local] Existing Instance WalExamples.example_checksum.
#[local] Existing Instance SegmentExamples.no_sketches.
#[local] Existing Instance Memtable.layout64.

Definition row := MergeExamples.row.
Definition schema := SegmentFileExamples.before.

Definition base : list StoredRow := [row 1 1 false; row 2 1 false].
Definition later : list StoredRow := [row 5 4 false; row 6 5 false].

Definition written (dir : Directory) (id : Z) (rows : list StoredRow) : SegmentFacts * Directory :=
  match write_segment dir id schema rows 2 true SegmentOk with
  | (Ok meta, dir) => (meta, dir)
  | (Err _, dir) => (CompactionExamples.meta id 0 0 0 0, dir)
  end.

(** Two segments, and an unflushed row above both. *)
Definition table : TableSnapshot :=
  let '(meta1, dir1) := written [] 1 base in
  let '(meta2, dir2) := written dir1 2 later in
  {| sn_memtable := [([PUInt64 7], row 7 9 false)]; sn_memtable_oldest := Some 9;
     sn_manifest := {| man_generation := 3; man_schema_version := 1; man_schema_fingerprint := 0; man_key_mode := KMPrimary;
                       man_flushed_sequence := 5; man_next_segment_id := 3; man_epoch := 3; man_committed_version := 5;
                       man_segments := [meta1; meta2] |};
     sn_directory := dir2; sn_schema := schema |}.

Definition table_rows : list (list StoredRow) := [base; later].

Lemma written_holds dir id rows :
  Forall (row_fits schema) rows -> key_ascending rows -> Forall (fun r => row_deleted r = false) rows -> map durable_row rows = rows ->
  (exists meta dir', write_segment dir id schema rows 2 true SegmentOk = (Ok meta, dir')) ->
  segment_holds (written dir id rows).2 schema (written dir id rows).1 rows /\
  seg_file_name (written dir id rows).1 = segment_file_name id /\
  forall name, name <> segment_file_name id -> omap_get name (written dir id rows).2 = omap_get name dir.
Proof.
  intros Hf Ha Hd Hdur (meta & dir' & E). unfold written. rewrite E. cbn [fst snd].
  destruct (write_segment_cases _ _ _ _ _ _ _ _ _ E) as [Hfr Hh].
  destruct (Hh meta eq_refl MergeExamples.schema_good Hf Ha (fun _ => Hd)) as (Hm & _ & Hn). rewrite Hdur in Hm. easy.
Qed.

Lemma table_ok : snap_ok table table_rows.
Proof.
  destruct (written_holds [] 1 base) as (H1 & N1 & _); [repeat constructor|repeat constructor|repeat constructor|reflexivity|
    unfold write_segment; do 2 eexists; vm_compute; reflexivity|].
  destruct (written_holds (written [] 1 base).2 2 later) as (H2 & N2 & F2); [repeat constructor|repeat constructor|repeat constructor|reflexivity|
    unfold write_segment; do 2 eexists; vm_compute; reflexivity|].
  unfold table, table_rows. destruct (written [] 1 base) as [meta1 dir1]. cbn [fst snd] in *.
  destruct (written dir1 2 later) as [meta2 dir2]. cbn [fst snd] in *. split; cbn [sn_memtable sn_memtable_oldest sn_directory sn_schema].
  - constructor; [|constructor; [easy|constructor]]. apply (holds_frame dir1); [|easy]. apply F2. rewrite N1. vm_compute. discriminate.
  - repeat constructor.
  - repeat constructor.
  - constructor; [|constructor]. exists 9. split; [easy|]. vm_compute. discriminate.
Qed.

Lemma scans_see_latest_witness :
  exists rows, scan table = Ok rows /\ In (row 6 5 false) rows /\
    scan_range table [PUInt64 2] [PUInt64 6] = Ok (List.filter (in_keys [PUInt64 2] [PUInt64 6]) rows).
Proof.
  destruct (scans_see_latest table table_rows [PUInt64 2] [PUInt64 6] 0 9 table_ok) as (rows & Hs & _ & Hin & _ & _ & Hr).
  exists rows. split; [exact Hs|]. split; [apply Hin; reflexivity|]. apply Hr; [reflexivity|]. repeat constructor.
Defined.

(** The second segment holds no row of version one. *)
Lemma value_pruning_sound_witness :
  visible [PUInt64 2] (concat (left_out table_rows [1%nat]) ++ sn_rows table) = Some (row 2 1 false) <->
  visible [PUInt64 2] (contents table table_rows) = Some (row 2 1 false).
Proof.
  apply (value_pruning_sound table table_rows [1%nat] (fun r => row_version r =? 1) [PUInt64 2] (row 2 1 false) table_ok).
  - intros i [<-|[]]. vm_compute. reflexivity.
  - intros x [<-|[<-|[]]] _; reflexivity.
  - reflexivity.
Defined.

Lemma segment_folds_exact_witness :
  exists smas rows, sma_fold_state table = Some (smas, rows) /\
    scan table = Ok (concat (map (rows_of table) (by_min_key (sn_segments table))) ++ rows).
Proof.
  destruct (segment_folds_exact table table_rows table_ok) as [Hs _].
  destruct (sma_fold_state table) as [[smas rows]|] eqn:E; [|vm_compute in E; discriminate E].
  exists smas, rows. split; [reflexivity|]. now apply (Hs smas rows).
Defined.

Lemma snapshot_bounds_witness :
  physical_row_upper_bound table = 5 /\ exists v, max_row_version table = Some v /\ row_version (row 6 5 false) <= v.
Proof.
  destruct (snapshot_bounds table table_rows table_ok) as (Hp & _ & Hr); [vm_compute; discriminate|].
  split; [rewrite Hp; reflexivity|]. apply (Hr (row 6 5 false)). right. right. right. now left.
Defined.

End SnapshotExamples.
