(* ===== verification/Store.v ===== *)
(** * The table store ([src/crates/pintail-store/src/store/mod.rs])

    One table's writer: the memtable and its log, the manifest, the segment files, and
    the operations that move rows between them.  An operation is a function on the
    store that returns a result and the store it leaves, also when it fails; what the
    filesystem does is an argument.  Merges run inline here
    ([background_compaction] off); the loop of the background thread is [Merge]'s. *)

From Stdlib Require Import ZArith Lia String Sorted.
From stdpp Require Import prelude list.
From coqutil Require Import Byte.
From S2P Require Import Prelude.
From S2P Require Import Types.
From S2P Require Import Codec.
From S2P Require Import Wal.
From S2P Require Import Memtable.
From S2P Require Import Manifest.
From S2P Require Import Segment.
From S2P Require Import SegmentFile.
From S2P Require Import Merge.
From S2P Require Import Compaction.
From S2P Require Import Snapshot.

#[local] Open Scope Z_scope.

(** ** The state *)

Record TableConfig : Type := {
  cfg_schema : TableSchema;
  cfg_options : StoreOptions;
  cfg_table_id : Z;
  cfg_truncate_wal_on_flush : bool
}.

(** What is on the disk: the log, the manifest file, the segment files. *)
Record Disk : Type := {
  dk_wal : Wal;
  dk_manifest : manifest_dir;
  dk_segments : Directory
}.

(** A replaced manifest and the files only it names. *)
Record RetiredGeneration : Type := { rg_manifest : Manifest; rg_paths : list str }.

Record TableStore : Type := {
  ts_config : TableConfig;
  ts_disk : Disk;
  ts_memtable : Memtable;
  ts_manifest : Manifest;
  ts_retired : list RetiredGeneration;
  ts_last_sequence : Z;
  ts_commit_version : Z;
  ts_next_append_row_id : Z;
  ts_staged : list SegmentFacts;
  ts_staged_ids : Z * Z
}.

Definition ts_schema (s : TableStore) : TableSchema := cfg_schema (ts_config s).
Definition ts_options (s : TableStore) : StoreOptions := cfg_options (ts_config s).
Definition ts_segments (s : TableStore) : Directory := dk_segments (ts_disk s).

Definition set_disk (d : Disk) (s : TableStore) : TableStore := {|
  ts_config := ts_config s; ts_disk := d; ts_memtable := ts_memtable s; ts_manifest := ts_manifest s;
  ts_retired := ts_retired s; ts_last_sequence := ts_last_sequence s; ts_commit_version := ts_commit_version s;
  ts_next_append_row_id := ts_next_append_row_id s; ts_staged := ts_staged s; ts_staged_ids := ts_staged_ids s |}.
Definition set_memtable (m : Memtable) (s : TableStore) : TableStore := {|
  ts_config := ts_config s; ts_disk := ts_disk s; ts_memtable := m; ts_manifest := ts_manifest s;
  ts_retired := ts_retired s; ts_last_sequence := ts_last_sequence s; ts_commit_version := ts_commit_version s;
  ts_next_append_row_id := ts_next_append_row_id s; ts_staged := ts_staged s; ts_staged_ids := ts_staged_ids s |}.
Definition set_manifest (m : Manifest) (s : TableStore) : TableStore := {|
  ts_config := ts_config s; ts_disk := ts_disk s; ts_memtable := ts_memtable s; ts_manifest := m;
  ts_retired := ts_retired s; ts_last_sequence := ts_last_sequence s; ts_commit_version := ts_commit_version s;
  ts_next_append_row_id := ts_next_append_row_id s; ts_staged := ts_staged s; ts_staged_ids := ts_staged_ids s |}.
Definition set_retired (r : list RetiredGeneration) (s : TableStore) : TableStore := {|
  ts_config := ts_config s; ts_disk := ts_disk s; ts_memtable := ts_memtable s; ts_manifest := ts_manifest s;
  ts_retired := r; ts_last_sequence := ts_last_sequence s; ts_commit_version := ts_commit_version s;
  ts_next_append_row_id := ts_next_append_row_id s; ts_staged := ts_staged s; ts_staged_ids := ts_staged_ids s |}.
Definition set_last_sequence (n : Z) (s : TableStore) : TableStore := {|
  ts_config := ts_config s; ts_disk := ts_disk s; ts_memtable := ts_memtable s; ts_manifest := ts_manifest s;
  ts_retired := ts_retired s; ts_last_sequence := n; ts_commit_version := ts_commit_version s;
  ts_next_append_row_id := ts_next_append_row_id s; ts_staged := ts_staged s; ts_staged_ids := ts_staged_ids s |}.
Definition set_commit_version (n : Z) (s : TableStore) : TableStore := {|
  ts_config := ts_config s; ts_disk := ts_disk s; ts_memtable := ts_memtable s; ts_manifest := ts_manifest s;
  ts_retired := ts_retired s; ts_last_sequence := ts_last_sequence s; ts_commit_version := n;
  ts_next_append_row_id := ts_next_append_row_id s; ts_staged := ts_staged s; ts_staged_ids := ts_staged_ids s |}.
Definition set_next_append_row_id (n : Z) (s : TableStore) : TableStore := {|
  ts_config := ts_config s; ts_disk := ts_disk s; ts_memtable := ts_memtable s; ts_manifest := ts_manifest s;
  ts_retired := ts_retired s; ts_last_sequence := ts_last_sequence s; ts_commit_version := ts_commit_version s;
  ts_next_append_row_id := n; ts_staged := ts_staged s; ts_staged_ids := ts_staged_ids s |}.
Definition set_staged (staged : list SegmentFacts) (ids : Z * Z) (s : TableStore) : TableStore := {|
  ts_config := ts_config s; ts_disk := ts_disk s; ts_memtable := ts_memtable s; ts_manifest := ts_manifest s;
  ts_retired := ts_retired s; ts_last_sequence := ts_last_sequence s; ts_commit_version := ts_commit_version s;
  ts_next_append_row_id := ts_next_append_row_id s; ts_staged := staged; ts_staged_ids := ids |}.
Definition set_schema (schema : TableSchema) (s : TableStore) : TableStore := {|
  ts_config := {| cfg_schema := schema; cfg_options := cfg_options (ts_config s); cfg_table_id := cfg_table_id (ts_config s);
                  cfg_truncate_wal_on_flush := cfg_truncate_wal_on_flush (ts_config s) |};
  ts_disk := ts_disk s; ts_memtable := ts_memtable s; ts_manifest := ts_manifest s;
  ts_retired := ts_retired s; ts_last_sequence := ts_last_sequence s; ts_commit_version := ts_commit_version s;
  ts_next_append_row_id := ts_next_append_row_id s; ts_staged := ts_staged s; ts_staged_ids := ts_staged_ids s |}.

Definition set_wal (w : Wal) (s : TableStore) : TableStore :=
  set_disk {| dk_wal := w; dk_manifest := dk_manifest (ts_disk s); dk_segments := dk_segments (ts_disk s) |} s.
Definition set_manifest_dir (d : manifest_dir) (s : TableStore) : TableStore :=
  set_disk {| dk_wal := dk_wal (ts_disk s); dk_manifest := d; dk_segments := dk_segments (ts_disk s) |} s.
Definition set_segments (d : Directory) (s : TableStore) : TableStore :=
  set_disk {| dk_wal := dk_wal (ts_disk s); dk_manifest := dk_manifest (ts_disk s); dk_segments := d |} s.

(** ** The monad of the operations: a store in, a result and a store out *)

Definition Table (A : Type) : Type := TableStore -> result StoreError A * TableStore.

#[export] Instance table_ret : MRet Table := fun A a s => (Ok a, s).
#[export] Instance table_bind : MBind Table := fun A B f m s =>
  match m s with (Ok a, s) => f a s | (Err e, s) => (Err e, s) end.

Definition get : Table TableStore := fun s => (Ok s, s).
Definition modify (f : TableStore -> TableStore) : Table unit := fun s => (Ok tt, f s).
Definition raise {A} (e : StoreError) : Table A := fun s => (Err e, s).
Definition lift {A} (r : result StoreError A) : Table A := fun s => (r, s).

(** A validation error of [pintail_types] as a store error. *)
Definition schema_error {A} (r : result SchemaError A) : result StoreError A := map_err SSchema r.

Definition validate_rows (schema : TableSchema) (rows : list StoredRow) : result StoreError unit :=
  schema_error (fold_result (fun _ r => validate_row schema r) tt rows).

(** ** Manifests *)

Definition with_segments (segments : list SegmentFacts) (m : Manifest) : Manifest := {|
  man_generation := man_generation m; man_schema_version := man_schema_version m;
  man_schema_fingerprint := man_schema_fingerprint m; man_key_mode := man_key_mode m;
  man_flushed_sequence := man_flushed_sequence m; man_next_segment_id := man_next_segment_id m;
  man_epoch := man_epoch m; man_committed_version := man_committed_version m; man_segments := segments |}.
Definition with_generation (generation epoch : Z) (m : Manifest) : Manifest := {|
  man_generation := generation; man_schema_version := man_schema_version m;
  man_schema_fingerprint := man_schema_fingerprint m; man_key_mode := man_key_mode m;
  man_flushed_sequence := man_flushed_sequence m; man_next_segment_id := man_next_segment_id m;
  man_epoch := epoch; man_committed_version := man_committed_version m; man_segments := man_segments m |}.
Definition with_next_segment_id (id : Z) (m : Manifest) : Manifest := {|
  man_generation := man_generation m; man_schema_version := man_schema_version m;
  man_schema_fingerprint := man_schema_fingerprint m; man_key_mode := man_key_mode m;
  man_flushed_sequence := man_flushed_sequence m; man_next_segment_id := id;
  man_epoch := man_epoch m; man_committed_version := man_committed_version m; man_segments := man_segments m |}.
Definition with_flushed (sequence version : Z) (m : Manifest) : Manifest := {|
  man_generation := man_generation m; man_schema_version := man_schema_version m;
  man_schema_fingerprint := man_schema_fingerprint m; man_key_mode := man_key_mode m;
  man_flushed_sequence := sequence; man_next_segment_id := man_next_segment_id m;
  man_epoch := man_epoch m; man_committed_version := version; man_segments := man_segments m |}.
Definition with_schema `{Checksum} (s : TableSchema) (m : Manifest) : Manifest := {|
  man_generation := man_generation m; man_schema_version := schema_version s;
  man_schema_fingerprint := schema_fingerprint s; man_key_mode := man_key_mode m;
  man_flushed_sequence := man_flushed_sequence m; man_next_segment_id := man_next_segment_id m;
  man_epoch := man_epoch m; man_committed_version := man_committed_version m; man_segments := man_segments m |}.

(** A counter that may not wrap. *)
Definition next_of (n step : Z) : result StoreError Z := ok_or (checked_add 64 n step) SequenceOverflow.

(** The new generation and epoch of a manifest about to be published. *)
Definition next_generation (m : Manifest) : result StoreError Manifest :=
  generation ← next_of (man_generation m) 1;
  epoch ← next_of (man_epoch m) 1;
  Ok (with_generation generation epoch m).

(** Whether two segment files hold the same bytes ([same_file_contents]).  How a file's
    blocks are laid out is not modelled, so it is a parameter; equal bytes decode to equal
    columns. *)
Class FileBytes : Type := {
  same_bytes : SegmentFile -> SegmentFile -> bool;
  same_bytes_same : forall f g, same_bytes f g = true -> f = g
}.

Section store.
Context `{Checksum} `{BlockSketches} `{Layout} `{FileBytes}.

(** ** Steps on the disk *)

(** A boundary the process may be stopped at. *)
Definition crash_point (passes : bool) : Table unit :=
  if passes then mret tt else raise (Io (msg "recovery failpoint" [])).

Definition publish (m : Manifest) (io : publish_io) : Table unit := fun s =>
  let '(r, d) := manifest_publish (dk_manifest (ts_disk s)) m io in (r, set_manifest_dir d s).

Definition write_rows (id : Z) (rows : list StoredRow) (unique : bool) (io : segment_io) : Table SegmentFacts := fun s =>
  let '(r, d) := write_segment (ts_segments s) id (ts_schema s) rows (opt_block_rows (ts_options s)) unique io in
  (r, set_segments d s).

(** The three calls of [Wal::reset]. *)
Record reset_io : Type := { ri_set_len : bool; ri_seek : bool; ri_sync : bool }.

Definition reset_wal (io : reset_io) : Table unit := fun s =>
  let '(r, w) := reset (dk_wal (ts_disk s)) (ri_set_len io) (ri_seek io) (ri_sync io) in (r, set_wal w s).

(** ** Flushing *)

Record flush_io : Type := {
  fi_shared : bool;
  fi_segment : segment_io;
  fi_after_segment : bool;
  fi_publish : publish_io;
  fi_after_manifest : bool;
  fi_reset : reset_io;
  fi_after_reset : bool
}.

(** A replicated table counts what it flushes as applied. *)
Definition flushed_version (s : TableStore) : Z :=
  if opt_transactional (ts_options s) then ts_commit_version s
  else
    match mt_newest_version (ts_memtable s) with
    | Some newest => Z.max (ts_commit_version s) newest
    | None => ts_commit_version s
    end.

Definition publish_flushed (rows : list StoredRow) (io : flush_io) : Table unit :=
  s ← get;
  segment ← write_rows (man_next_segment_id (ts_manifest s)) rows (forallb not_deleted rows) (fi_segment io);
  _ ← crash_point (fi_after_segment io);
  m ← lift (next_generation (ts_manifest s));
  let version := flushed_version s in
  _ ← modify (set_commit_version version);
  let m := with_flushed (ts_last_sequence s) version m in
  next_id ← lift (next_of (man_next_segment_id m) 1);
  let m := with_segments (man_segments m ++ [segment]) (with_next_segment_id next_id m) in
  _ ← publish m (fi_publish io);
  _ ← crash_point (fi_after_manifest io);
  modify (set_manifest m).

(** The rows go back when they are not published. *)
Definition or_restore (rows : list StoredRow) (m : Table unit) : Table unit := fun s =>
  match m s with
  | (Ok _, s) => (Ok tt, s)
  | (Err e, s) => (Err e, set_memtable (restore (ts_memtable s) rows) s)
  end.

(** [flush]: how many rows it published. *)
Definition flush (io : flush_io) : Table Z :=
  s ← get;
  let '(rows, m) := take_rows (ts_memtable s) (fi_shared io) in
  _ ← modify (set_memtable m);
  match rows with
  | [] => mret 0
  | _ =>
      _ ← or_restore rows (publish_flushed rows io);
      _ ← modify (fun s => set_memtable (clear (ts_memtable s)) s);
      _ ← (if cfg_truncate_wal_on_flush (ts_config s) then reset_wal (fi_reset io) else mret tt);
      _ ← crash_point (fi_after_reset io);
      mret (len rows)
  end.

(** ** Compaction, inline *)

Record compact_io : Type := {
  ci_file_size : str -> option Z;
  ci_available : option Z;
  ci_segment : nat -> segment_io;
  ci_publish : publish_io
}.

Record CompactionOutcome : Type := {
  co_input_segments : Z;
  co_output_rows : Z;
  co_deferred : bool
}.

Definition merge_fits_on_disk (options : StoreOptions) (available : option Z) (plan : CompactionPlan)
    : result StoreError bool :=
  available ← ok_or available (Io (msg "inspect free space for compaction" []));
  Ok (sat_add 64 (plan_debt_bytes plan) (opt_compaction_disk_reserve_bytes options) <=? available).

(** What [compact] asks of the merge. *)
Definition plan_merge (s : TableStore) (plan : CompactionPlan) : merge_spec := {|
  ms_schema := ts_schema s; ms_block_rows := opt_block_rows (ts_options s);
  ms_row_limit := opt_max_compaction_rows (ts_options s);
  ms_byte_limit := opt_max_compaction_output_bytes (ts_options s);
  ms_drop_tombstones := merge_drops_tombstones (man_segments (ts_manifest s)) (plan_indices plan);
  ms_window := plan_window plan |}.

(** The merge of a plan, its files written to the directory. *)
Definition merge_planned (spec : merge_spec) (streams : list (list StoredRow)) (id_base : Z) (io : nat -> segment_io)
    : Table merge_state := fun s =>
  let '(r, st) := merge_streams spec io (fun _ => false) streams id_base (ts_segments s) in
  (match r with Ok _ => Ok st | Err e => Err e end, set_segments (mg_dir st) s).

(** The segments a plan takes, in manifest order. *)
Fixpoint picked_from (index : nat) (segments : list SegmentFacts) (selected : list nat) : list SegmentFacts :=
  match segments with
  | [] => []
  | meta :: segments =>
      if index_in selected index then meta :: picked_from (S index) segments selected
      else picked_from (S index) segments selected
  end.

Definition picked (segments : list SegmentFacts) (selected : list nat) : list SegmentFacts := picked_from 0 segments selected.

(** A new manifest in place of the current one, whose [paths] are retired. *)
Definition replace_manifest (m : Manifest) (paths : list str) : Table unit :=
  modify (fun s => set_retired (ts_retired s ++ [{| rg_manifest := ts_manifest s; rg_paths := paths |}]) (set_manifest m s)).

Definition run_plan (plan : CompactionPlan) (io : compact_io) : Table CompactionOutcome :=
  s ← get;
  let segments := man_segments (ts_manifest s) in
  let selected := plan_indices plan in
  streams ← lift (open_streams (plan_merge s plan) (ts_segments s) (taken segments selected));
  m ← lift (next_generation (ts_manifest s));
  st ← merge_planned (plan_merge s plan) streams (man_next_segment_id m) (ci_segment io);
  let m := with_segments (left_out segments selected ++ mg_outputs st) (with_next_segment_id (mg_next_id st) m) in
  _ ← publish m (ci_publish io);
  _ ← replace_manifest m (map seg_file_name (picked segments selected));
  mret {| co_input_segments := len selected; co_output_rows := mg_output_rows st; co_deferred := false |}.

Definition compact (io : compact_io) : Table CompactionOutcome :=
  s ← get;
  plan ← lift (compaction_plan (ts_options s) (ci_file_size io) (ts_segments s) (ts_schema s) (man_segments (ts_manifest s)));
  match plan with
  | None => mret {| co_input_segments := 0; co_output_rows := 0; co_deferred := false |}
  | Some plan =>
      fits ← lift (merge_fits_on_disk (ts_options s) (ci_available io) plan);
      if negb fits then mret {| co_input_segments := 0; co_output_rows := 0; co_deferred := true |}
      else run_plan plan io
  end.

Definition advance_compaction (io : compact_io) : Table unit :=
  s ← get;
  if opt_compaction_fan_in (ts_options s) <=? len (man_segments (ts_manifest s))
  then _ ← compact io; mret tt else mret tt.

(** ** Reclaiming retired files *)

(** What removing a file answers. *)
Inductive remove_io : Type := Removed | NotFound | RemoveFails.

Definition remove_file (name : str) (d : Directory) : Directory :=
  List.filter (fun entry => negb (bool_decide (entry.1 = name))) d.

Definition names_file (name : str) (m : Manifest) : bool :=
  existsb (fun meta => bool_decide (seg_file_name meta = name)) (man_segments m).

(** Which of the store's own readers still hold a manifest, and the manifests other
    readers of the directory pinned. *)
Record reclaim_io : Type := {
  rc_alive : Manifest -> bool;
  rc_pinned : list Manifest;
  rc_remove : str -> remove_io;
  rc_sync : bool
}.

Definition still_read (io : reclaim_io) (g : RetiredGeneration) : bool :=
  rc_alive io (rg_manifest g) || existsb (fun name => existsb (names_file name) (rc_pinned io)) (rg_paths g).

(** The files of one generation; an error leaves the rest of them. *)
Fixpoint remove_paths (io : reclaim_io) (paths : list str) (reclaimed : Z) : Table Z :=
  match paths with
  | [] => mret reclaimed
  | name :: paths =>
      match rc_remove io name with
      | RemoveFails => raise (Io (msg "remove obsolete segment" []))
      | NotFound => remove_paths io paths reclaimed
      | Removed =>
          _ ← modify (fun s => set_segments (remove_file name (ts_segments s)) s);
          remove_paths io paths (reclaimed + 1)
      end
  end.

(** The loop drains the retired generations, so an error in it forgets them. *)
Fixpoint reclaim_loop (io : reclaim_io) (generations retained : list RetiredGeneration) (reclaimed : Z)
    : Table (Z * list RetiredGeneration) :=
  match generations with
  | [] => mret (reclaimed, retained)
  | g :: generations =>
      if still_read io g then reclaim_loop io generations (retained ++ [g]) reclaimed
      else reclaimed ← remove_paths io (rg_paths g) reclaimed; reclaim_loop io generations retained reclaimed
  end.

Definition reclaim_obsolete_segments (io : reclaim_io) : Table Z :=
  s ← get;
  _ ← modify (set_retired []);
  '((reclaimed, retained) : Z * list RetiredGeneration) ← reclaim_loop io (ts_retired s) [] 0;
  _ ← modify (set_retired retained);
  if (0 <? reclaimed) && negb (rc_sync io) then raise (Io (msg "sync directory" [])) else mret reclaimed.

(** ** Reading *)

Definition snapshot (s : TableStore) : TableSnapshot := {|
  sn_memtable := mt_rows (ts_memtable s); sn_memtable_oldest := mt_oldest_version (ts_memtable s);
  sn_manifest := ts_manifest s; sn_directory := ts_segments s; sn_schema := ts_schema s |}.

(** ** Ingesting *)

Record settle_io : Type := { st_flush : flush_io; st_compact : compact_io; st_reclaim : reclaim_io }.

(** Once the memtable is full: flush, one compaction step, reclaim. *)
Definition settle (io : settle_io) : Table unit :=
  _ ← flush (st_flush io); _ ← advance_compaction (st_compact io); _ ← reclaim_obsolete_segments (st_reclaim io); mret tt.

Inductive AppendKeyPolicy : Type := Generate | Preserve.

Definition with_key (key : PrimaryKey) (r : StoredRow) : StoredRow := {|
  row_key := key; row_values := row_values r; row_version := row_version r; row_deleted := row_deleted r |}.

(** Fresh row identifiers for the rows of a table without a key. *)
Fixpoint generate_keys (rows : list StoredRow) : Table (list StoredRow) :=
  match rows with
  | [] => mret []
  | r :: rows =>
      s ← get;
      let row_id := ts_next_append_row_id s in
      next ← lift (next_of row_id 1);
      _ ← modify (set_next_append_row_id next);
      rest ← generate_keys rows;
      mret (with_key [PUInt64 row_id] r :: rest)
  end.

Fixpoint preserve_append_keys (rows : list StoredRow) : Table unit :=
  match rows with
  | [] => mret tt
  | r :: rows =>
      match row_key r with
      | [PUInt64 row_id] =>
          if row_id =? 0 then raise (FormatLimit (msg "CDC append key must be non-zero" []))
          else
            next ← lift (next_of row_id 1);
            _ ← modify (fun s => set_next_append_row_id (Z.max (ts_next_append_row_id s) next) s);
            preserve_append_keys rows
      | _ => raise (FormatLimit (msg "CDC append key must contain one UInt64 component" []))
      end
  end.

Definition append_keys (policy : AppendKeyPolicy) (rows : list StoredRow) : Table (list StoredRow) :=
  s ← get;
  if bool_decide (schema_key_mode (ts_schema s) = KMAppendRowId) then
    match policy with
    | Generate => generate_keys rows
    | Preserve => _ ← preserve_append_keys rows; mret rows
    end
  else mret rows.

Record IngestOutcome : Type := {
  io_sequence : Z;
  io_accepted_rows : Z;
  io_visible_rows : Z;
  io_should_flush : bool
}.

Definition append_wal (payload : list byte) (io : append_io) : Table unit := fun s =>
  let '(r, w) := append_encoded (dk_wal (ts_disk s)) payload io in (r, set_wal w s).

(** The rows into the memtable, and how many of them it took. *)
Fixpoint insert_rows (m : Memtable) (rows : list StoredRow) (visible : Z) : Z * Memtable :=
  match rows with
  | [] => (visible, m)
  | r :: rows => let '(b, m) := insert m r true in insert_rows m rows (visible + Z.b2z b)
  end.

Definition DIRECT_INGEST_BYTES : Z := 32 * 1024 * 1024.

Fixpoint fits_directly (bytes : Z) (rows : list StoredRow) : bool :=
  match rows with
  | [] => true
  | r :: rows =>
      let bytes := sat_add 64 bytes (estimated_bytes r) in
      if bytes <=? DIRECT_INGEST_BYTES then fits_directly bytes rows else false
  end.

(** The record of the batch, [None] when the table stores it as segments instead. *)
Definition batch_payload (s : TableStore) (sequence : Z) (rows : list StoredRow) : result StoreError (option (list byte)) :=
  let direct := cfg_truncate_wal_on_flush (ts_config s) && negb (opt_transactional (ts_options s)) in
  if direct && negb (fits_directly 0 rows) then Ok None
  else
    payload ← encode_batch sequence (cfg_table_id (ts_config s)) (ts_schema s) rows;
    Ok (if negb direct || (len payload <=? MAX_RECORD_LENGTH) then Some payload else None).

(** *** Staging: a batch too large for the log *)

Definition STAGED_SEGMENT_BYTES : Z := 32 * 1024 * 1024.
Definition STAGED_SEGMENT_IDS : Z := 1024.

(** By key, and by version within a key; the sort is stable. *)
Definition row_less (a b : StoredRow) : bool :=
  match cmp (row_key a) (row_key b) with Lt => true | Eq => row_version a <? row_version b | Gt => false end.

Record stage_io : Type := {
  sg_flush : flush_io;
  sg_reserve : publish_io;
  sg_segment : Z -> segment_io
}.

(** Identifiers reserved through a manifest publish. *)
Definition reserve_staged_ids (io : stage_io) : Table unit :=
  s ← get;
  if fst (ts_staged_ids s) <? snd (ts_staged_ids s) then mret tt
  else
    let base := man_next_segment_id (ts_manifest s) in
    generation ← lift (next_of (man_generation (ts_manifest s)) 1);
    next_id ← lift (next_of base STAGED_SEGMENT_IDS);
    let m := with_next_segment_id next_id (with_generation generation (man_epoch (ts_manifest s)) (ts_manifest s)) in
    _ ← publish m (sg_reserve io);
    modify (fun s => set_manifest m (set_staged (ts_staged s) (base, next_id) s)).

Definition stage_segment (rows : list StoredRow) (io : stage_io) : Table unit :=
  match rows with
  | [] => mret tt
  | _ =>
      _ ← reserve_staged_ids io;
      s ← get;
      let id := fst (ts_staged_ids s) in
      _ ← modify (set_staged (ts_staged s) (id + 1, snd (ts_staged_ids s)));
      segment ← write_rows id rows (forallb not_deleted rows) (sg_segment io id);
      modify (fun s => set_staged (ts_staged s ++ [segment]) (ts_staged_ids s) s)
  end.

(** The rows, sorted, in pieces of bounded size; [piece] is reversed.  A row replaces the
    one before it of its key. *)
Definition repeats_key (piece : list StoredRow) (row : StoredRow) : bool :=
  match piece with previous :: _ => oeqb (row_key previous) (row_key row) | [] => false end.

Fixpoint stage_pieces (rows piece : list StoredRow) (piece_bytes : Z) (io : stage_io) : Table unit :=
  match rows with
  | [] => stage_segment (rev piece) io
  | row :: rows =>
      if repeats_key piece row then stage_pieces rows (row :: tail piece) piece_bytes io
      else if STAGED_SEGMENT_BYTES <=? piece_bytes then
        _ ← stage_segment (rev piece) io; stage_pieces rows [row] (sat_add 64 0 (estimated_bytes row)) io
      else stage_pieces rows (row :: piece) (sat_add 64 piece_bytes (estimated_bytes row)) io
  end.

Definition stage_rows (rows : list StoredRow) (io : stage_io) : Table unit :=
  match rows with
  | [] => mret tt
  | _ =>
      s ← get;
      _ ← (if is_nil (ts_staged s) then _ ← flush (sg_flush io); mret tt else mret tt);
      stage_pieces (sort_by row_less rows) [] 0 io
  end.

Definition same_segment_span (a b : SegmentFacts) : bool :=
  oeqb (seg_min_key a) (seg_min_key b) && oeqb (seg_max_key a) (seg_max_key b)
  && (seg_row_count a =? seg_row_count b) && (seg_min_version a =? seg_min_version b)
  && (seg_max_version a =? seg_max_version b).

(** [same_file_contents]: a file that cannot be opened is an error. *)
Definition same_file_contents (d : Directory) (a b : SegmentFacts) : result StoreError bool :=
  f ← ok_or (omap_get (seg_file_name a) d) (Io (msg "open segment for comparison" []));
  g ← ok_or (omap_get (seg_file_name b) d) (Io (msg "open segment for comparison" []));
  Ok (same_bytes f g).

(** Whether the table already holds the segment's bytes. *)
Fixpoint held_by (d : Directory) (segments : list SegmentFacts) (segment : SegmentFacts) : result StoreError bool :=
  match segments with
  | [] => Ok false
  | meta :: segments =>
      if same_segment_span meta segment then
        same ← same_file_contents d meta segment;
        if same : bool then Ok true else held_by d segments segment
      else held_by d segments segment
  end.

(** The staged segments that are new, and the ones held already. *)
Fixpoint split_held (d : Directory) (segments staged : list SegmentFacts)
    : result StoreError (list SegmentFacts * list SegmentFacts) :=
  match staged with
  | [] => Ok ([], [])
  | segment :: staged =>
      held ← held_by d segments segment;
      '((fresh, repeated) : list SegmentFacts * list SegmentFacts) ← split_held d segments staged;
      Ok (if held : bool then (fresh, segment :: repeated) else (segment :: fresh, repeated))
  end.

(** Best-effort removal: a failure leaves the file. *)
Definition discard_files (remove : str -> bool) (segments : list SegmentFacts) (d : Directory) : Directory :=
  foldl (fun d meta => if remove (seg_file_name meta) then remove_file (seg_file_name meta) d else d) d segments.

Record staged_io : Type := {
  sp_publish : publish_io;
  sp_remove : str -> bool;
  sp_compact : compact_io;
  sp_reclaim : reclaim_io
}.

Definition discard_staged (remove : str -> bool) : Table unit :=
  modify (fun s => set_staged [] (ts_staged_ids s) (set_segments (discard_files remove (ts_staged s) (ts_segments s)) s)).

(** What the pieces bring the applied version to. *)
Definition staged_version (s : TableStore) : Z :=
  if opt_transactional (ts_options s) then ts_commit_version s
  else foldl Z.max (ts_commit_version s) (map seg_max_version (ts_staged s)).

(** A failed publication takes the new pieces' files away. *)
Definition publish_pieces (m : Manifest) (fresh : list SegmentFacts) (version : Z) (io : staged_io) : Table unit := fun s =>
  match publish m (sp_publish io) s with
  | (Err e, s) => (Err e, set_segments (discard_files (sp_remove io) (rev fresh) (ts_segments s)) s)
  | (Ok _, s) => (Ok tt, set_commit_version version (set_manifest m s))
  end.

Fixpoint repeat_table (n : nat) (m : Table unit) : Table unit :=
  match n with O => mret tt | S n => _ ← m; repeat_table n m end.

Definition publish_staged (io : staged_io) : Table Z :=
  s ← get;
  match ts_staged s with
  | [] => mret 0
  | _ =>
      _ ← modify (set_staged [] (ts_staged_ids s));
      m ← lift (next_generation (ts_manifest s));
      let version := staged_version s in
      let m := with_flushed (man_flushed_sequence m) version m in
      '((fresh, repeated) : list SegmentFacts * list SegmentFacts) ←
        lift (split_held (ts_segments s) (man_segments (ts_manifest s)) (ts_staged s));
      let m := with_segments (man_segments m ++ fresh) m in
      _ ← (if is_nil fresh then mret tt else publish_pieces m fresh version io);
      _ ← modify (fun s => set_segments (discard_files (sp_remove io) repeated (ts_segments s)) s);
      _ ← repeat_table (length fresh) (advance_compaction (sp_compact io));
      _ ← advance_compaction (sp_compact io);
      _ ← reclaim_obsolete_segments (sp_reclaim io);
      mret (len fresh)
  end.

(** *** The batch *)

Record ingest_io : Type := {
  in_append : append_io;
  in_settle : settle_io;
  in_stage : stage_io;
  in_staged : staged_io
}.

Definition ingest_at_sequence_with_append_policy (sequence : Z) (rows : list StoredRow) (policy : AppendKeyPolicy)
    (io : ingest_io) : Table IngestOutcome :=
  s ← get;
  _ ← lift (validate_rows (ts_schema s) rows);
  if is_nil rows then
    mret {| io_sequence := ts_last_sequence s; io_accepted_rows := 0; io_visible_rows := 0; io_should_flush := false |}
  else
    rows ← append_keys policy rows;
    if sequence <=? ts_last_sequence s
    then raise (FormatLimit (msg "WAL sequence {sequence} must follow {}" [sequence; ts_last_sequence s]))
    else
      payload ← lift (batch_payload s sequence rows);
      match payload with
      | None =>
          _ ← stage_rows rows (in_stage io);
          _ ← publish_staged (in_staged io);
          s ← get;
          mret {| io_sequence := ts_last_sequence s; io_accepted_rows := len rows; io_visible_rows := len rows;
                  io_should_flush := false |}
      | Some payload =>
          _ ← append_wal payload (in_append io);
          s ← get;
          let '(visible, m) := insert_rows (ts_memtable s) rows 0 in
          _ ← modify (fun s => set_last_sequence sequence (set_memtable m s));
          let should_flush := opt_memtable_bytes (ts_options s) <=? mt_estimated_bytes m in
          _ ← (if should_flush then settle (in_settle io) else mret tt);
          mret {| io_sequence := sequence; io_accepted_rows := len rows; io_visible_rows := visible;
                  io_should_flush := should_flush |}
      end.

Definition ingest (rows : list StoredRow) (io : ingest_io) : Table IngestOutcome :=
  s ← get;
  sequence ← lift (next_of (ts_last_sequence s) 1);
  ingest_at_sequence_with_append_policy sequence rows Generate io.

Definition ingest_cdc (rows : list StoredRow) (io : ingest_io) : Table IngestOutcome :=
  s ← get;
  sequence ← lift (next_of (ts_last_sequence s) 1);
  ingest_at_sequence_with_append_policy sequence rows Preserve io.

Definition applied_version (s : TableStore) : Z :=
  Z.max (ts_commit_version s) (default 0 (mt_newest_version (ts_memtable s))).

Definition newer_than (version : Z) (r : StoredRow) : bool := version <? row_version r.

Definition ingest_cdc_in_order (rows : list StoredRow) (io : ingest_io) : Table IngestOutcome :=
  s ← get;
  ingest_cdc (List.filter (newer_than (applied_version s)) rows) io.

Definition stage_cdc (rows : list StoredRow) (io : stage_io) : Table unit :=
  s ← get;
  if negb (cfg_truncate_wal_on_flush (ts_config s)) || opt_transactional (ts_options s)
  then raise (FormatLimit (msg "staging requires a table that owns its log" []))
  else
    let rows := List.filter (newer_than (applied_version s)) rows in
    _ ← lift (validate_rows (ts_schema s) rows);
    _ ← (if bool_decide (schema_key_mode (ts_schema s) = KMAppendRowId) then preserve_append_keys rows else mret tt);
    stage_rows rows io.

(** [checkpoint]: the log's bytes accepted so far, under every policy but [Off]. *)
Definition checkpoint (failpoint ok : bool) : Table unit := fun s =>
  let '(r, w) := sync (dk_wal (ts_disk s)) failpoint ok in (r, set_wal w s).

(** ** Local transactions *)

Definition with_version (version : Z) (r : StoredRow) : StoredRow := {|
  row_key := row_key r; row_values := row_values r; row_version := version; row_deleted := row_deleted r |}.

Record commit_io : Type := {
  cm_append : append_io;
  cm_commit : append_io;
  cm_sync : bool;
  cm_settle : settle_io
}.

Definition append_commit_wal (sequence version : Z) (io : append_io) : Table unit := fun s =>
  let '(r, w) := append_commit (dk_wal (ts_disk s)) sequence version io in (r, set_wal w s).

Definition sync_wal (ok : bool) : Table unit := fun s =>
  let '(r, w) := sync_force (dk_wal (ts_disk s)) ok in (r, set_wal w s).

Definition commit (rows : list StoredRow) (io : commit_io) : Table Z :=
  s ← get;
  if negb (opt_transactional (ts_options s)) then raise (FormatLimit (msg "commit requires a transactional store" []))
  else
    version ← lift (next_of (ts_commit_version s) 1);
    let rows := map (with_version version) rows in
    _ ← lift (validate_rows (ts_schema s) rows);
    sequence ← lift (next_of (ts_last_sequence s) 1);
    _ ← (if is_nil rows then mret tt
         else
           payload ← lift (encode_batch sequence (cfg_table_id (ts_config s)) (ts_schema s) rows);
           append_wal payload (cm_append io));
    commit_sequence ← lift (next_of sequence 1);
    _ ← append_commit_wal commit_sequence version (cm_commit io);
    _ ← sync_wal (cm_sync io);
    _ ← modify (fun s => set_commit_version version (set_last_sequence commit_sequence
                           (set_memtable (apply_all (ts_memtable s) rows) s)));
    s ← get;
    _ ← (if opt_memtable_bytes (ts_options s) <=? mt_estimated_bytes (ts_memtable s)
         then settle (cm_settle io) else mret tt);
    mret version.

(** ** Schema changes and resets *)

Record evolve_io : Type := { ev_flush : flush_io; ev_publish : publish_io }.

Definition evolve_schema (schema : TableSchema) (io : evolve_io) : Table unit :=
  s ← get;
  if schema_version schema <=? schema_version (ts_schema s)
  then raise (IncompatibleSchema (msg "schema version {} must advance beyond {}" [schema_version schema; schema_version (ts_schema s)]))
  else if negb (bool_decide (schema_key_mode schema = schema_key_mode (ts_schema s)))
  then raise (IncompatibleSchema (msg "physical key mode changed" []))
  else
    _ ← flush (ev_flush io);
    s ← get;
    _ ← lift (map_result (read_rows (ts_segments s) schema) (man_segments (ts_manifest s)));
    m ← lift (next_generation (ts_manifest s));
    let m := with_schema schema m in
    _ ← publish m (ev_publish io);
    modify (fun s => set_manifest m (set_schema schema s)).

Record resnapshot_io : Type := { rs_reset : reset_io; rs_publish : publish_io; rs_reclaim : reclaim_io }.

Definition reset_for_resnapshot (io : resnapshot_io) : Table unit :=
  _ ← reset_wal (rs_reset io);
  s ← get;
  generation ← lift (next_of (man_generation (ts_manifest s)) 1);
  epoch ← lift (next_of (man_epoch (ts_manifest s)) 1);
  let m := with_next_segment_id (man_next_segment_id (ts_manifest s))
             (with_generation generation epoch (manifest_empty (ts_schema s))) in
  _ ← publish m (rs_publish io);
  _ ← modify (fun s => set_next_append_row_id 1 (set_last_sequence 0 (set_memtable (clear (ts_memtable s)) s)));
  _ ← (if opt_transactional (ts_options s) then mret tt else modify (set_commit_version 0));
  _ ← replace_manifest m (map seg_file_name (man_segments (ts_manifest s)));
  _ ← reclaim_obsolete_segments (rs_reclaim io);
  mret tt.

(** ** Initial snapshots *)

(** An earlier copy of the range: every row at version zero, no tombstones. *)
Definition superseded_by (covers : option (Bound * Bound)) (meta : SegmentFacts) : bool :=
  match covers with
  | None => false
  | Some covers =>
      (seg_max_version meta =? 0) && seg_unique_keys meta
      && match seg_smas meta with Some smas => smas_tombstones smas =? 0 | None => true end
      && range_contains covers (seg_min_key meta) && range_contains covers (seg_max_key meta)
  end.

Fixpoint check_snapshot_rows (schema : TableSchema) (rows : list StoredRow) : result StoreError unit :=
  match rows with
  | [] => Ok tt
  | r :: rows =>
      _ ← schema_error (validate_row schema r);
      if row_deleted r then Err (FormatLimit (msg "direct snapshot ingest cannot contain tombstones" []))
      else check_snapshot_rows schema rows
  end.

(** The later row of a key, over sorted rows; [kept] is reversed. *)
Definition keep_last (kept : list StoredRow) (row : StoredRow) : list StoredRow :=
  if repeats_key kept row then row :: tail kept else row :: kept.

Definition deduplicate (rows : list StoredRow) : list StoredRow := rev (foldl keep_last [] rows).

(** The identifiers a table without a key hands out next lie above the copied ones. *)
Definition note_row_id (next : Z) (r : StoredRow) : Z :=
  match row_key r with [PUInt64 row_id] => Z.max next (sat_add 64 row_id 1) | _ => next end.

Fixpoint superseded_files (d : Directory) (segments : list SegmentFacts) (superseded : list str) (segment : SegmentFacts)
    : result StoreError (list str) :=
  match segments with
  | [] => Ok superseded
  | meta :: segments =>
      if bool_decide (seg_file_name meta ∈ superseded) || negb (same_segment_span meta segment)
      then superseded_files d segments superseded segment
      else
        same ← same_file_contents d meta segment;
        superseded_files d segments (if same : bool then superseded ++ [seg_file_name meta] else superseded) segment
  end.

Record snapshot_io : Type := { sn_segment : segment_io; sn_publish : publish_io }.

(** The chunk's segment in the manifest about to be published, and the files it supersedes. *)
Definition add_chunk (rows : list StoredRow) (superseded : list str) (m : Manifest) (io : segment_io)
    : Table (Manifest * list str) :=
  match rows with
  | [] => mret (m, superseded)
  | _ =>
      s ← get;
      segment ← write_rows (man_next_segment_id (ts_manifest s)) rows true io;
      s ← get;
      superseded ← lift (superseded_files (ts_segments s) (man_segments (ts_manifest s)) superseded segment);
      next_id ← lift (next_of (man_next_segment_id m) 1);
      mret (with_segments (man_segments m ++ [segment]) (with_next_segment_id next_id m), superseded)
  end.

Definition ingest_snapshot_chunk (rows : list StoredRow) (covers : option (Bound * Bound)) (io : snapshot_io) : Table Z :=
  s ← get;
  if negb (is_nil (mt_rows (ts_memtable s)))
  then raise (FormatLimit (msg "direct snapshot ingest requires an empty memtable" []))
  else
    _ ← lift (check_snapshot_rows (ts_schema s) rows);
    let superseded := map seg_file_name (List.filter (superseded_by covers) (man_segments (ts_manifest s))) in
    if is_nil rows && is_nil superseded then mret 0
    else
      let sorted := sort_by row_less rows in
      let by_row_id := bool_decide (schema_key_mode (ts_schema s) = KMAppendRowId) in
      let rows := if by_row_id then sorted else deduplicate sorted in
      _ ← (if by_row_id
           then modify (fun s => set_next_append_row_id (foldl note_row_id (ts_next_append_row_id s) sorted) s)
           else mret tt);
      m ← lift (next_generation (ts_manifest s));
      '((m, superseded) : Manifest * list str) ← add_chunk rows superseded m (sn_segment io);
      let m := with_segments (List.filter (fun meta => negb (bool_decide (seg_file_name meta ∈ superseded))) (man_segments m)) m in
      _ ← publish m (sn_publish io);
      _ ← (if is_nil superseded then modify (set_manifest m) else replace_manifest m superseded);
      mret (len rows).

Definition bulk_ingest_snapshot (rows : list StoredRow) (io : snapshot_io) : Table Z := ingest_snapshot_chunk rows None io.

Definition bulk_ingest_snapshot_covering (rows : list StoredRow) (covers : Bound * Bound) (io : snapshot_io) : Table Z :=
  if existsb (fun r => negb (range_contains covers (row_key r))) rows
  then raise (FormatLimit (msg "snapshot chunk row lies outside the range the chunk covers" []))
  else ingest_snapshot_chunk rows (Some covers) io.

(** ** Publishing a background merge *)

(** [publish_merge] of a size-tier merge: its inputs leave by name, whatever was flushed
    since stays, and the outputs join at the end. *)
Definition publish_merge (input_files : list str) (outputs : list SegmentFacts) (before : bool) (io : publish_io) (after : bool)
    : Table unit :=
  s ← get;
  m ← lift (next_generation (ts_manifest s));
  let is_input meta := bool_decide (seg_file_name meta ∈ input_files) in
  let retired := map seg_file_name (List.filter is_input (man_segments m)) in
  let m := with_segments (List.filter (fun meta => negb (is_input meta)) (man_segments m) ++ outputs) m in
  _ ← crash_point before;
  _ ← publish m io;
  _ ← crash_point after;
  replace_manifest m retired.

(** Identifiers for a background merge, reserved through a manifest publish. *)
Definition RESERVED_SEGMENT_IDS : Z := 65536.

Definition reserve_segment_ids (io : publish_io) (after : bool) : Table Z :=
  s ← get;
  let id_base := man_next_segment_id (ts_manifest s) in
  generation ← lift (next_of (man_generation (ts_manifest s)) 1);
  next_id ← lift (next_of id_base RESERVED_SEGMENT_IDS);
  let m := with_next_segment_id next_id (with_generation generation (man_epoch (ts_manifest s)) (ts_manifest s)) in
  _ ← publish m io;
  _ ← crash_point after;
  _ ← modify (set_manifest m);
  mret id_base.

End store.
