(* ===== verification/Recovery.v ===== *)
(** * Opening a table ([src/crates/pintail-store/src/store/mod.rs])

    [open_with_wal]: what a writer does with the files it finds - it loads the manifest,
    checks the segments, replays the log, and removes what no manifest names.  The steps
    run on a store whose memory is blank, so the operations of [Store] and their rules
    apply to them; what is left on the disk when one fails is the store's disk. *)

From Stdlib Require Import ZArith Lia String Sorted.
From stdpp Require Import prelude list.
From coqutil Require Import Byte.
From S2P Require Import Prelude.
From S2P Require Import Types.
From S2P Require Import Codec.
From S2P Require Import Wal.
From S2P Require Import Memtable.
From S2P Require Import Manifest.
From S2P Require Import Segment.
From S2P Require Import SegmentFile.
From S2P Require Import Merge.
From S2P Require Import Compaction.
From S2P Require Import Snapshot.
From S2P Require Import Store.

#[local] Open Scope Z_scope.

(** ** The log's rows *)

(** A value of a recovered row for a column of the schema, by the column's identifier. *)
Definition adapt_value (wal_columns : list WalColumn) (row : StoredRow) (column : Column) : result StoreError Value :=
  match list_find (fun c => wc_id c = col_id column) wal_columns with
  | Some (index, wal_column) =>
      if negb (bool_decide (wc_data_type wal_column = storage_type (col_data_type column)))
      then Err (IncompatibleSchema (msg "column {} ({}) changed physical type" [col_id column]))
      else ok_or (row_values row !! index) (IncompatibleSchema (msg "index out of bounds" []))
  | None =>
      match col_absent_fill column with
      | Some fill => Ok fill
      | None =>
          if col_nullable column then Ok VNull
          else Err (IncompatibleSchema (msg "required column {} ({}) is absent from an unflushed WAL row" [col_id column]))
      end
  end.

(** The length is checked first, so the index is in bounds. *)
Definition adapt_recovered_row (schema : TableSchema) (wal_columns : list WalColumn) (row : StoredRow) : result StoreError StoredRow :=
  if negb (len (row_values row) =? len wal_columns)
  then Err (IncompatibleSchema (msg "WAL row has {} values for {} recorded columns" [len (row_values row); len wal_columns]))
  else
    values ← map_result (adapt_value wal_columns row) (schema_columns schema);
    let adapted := {| row_key := row_key row; row_values := values; row_version := row_version row; row_deleted := row_deleted row |} in
    _ ← schema_error (validate_row schema adapted);
    Ok adapted.

(** The memtable the log's batches leave, above what is flushed. *)
Definition replay_batch `{Layout} (schema : TableSchema) (table_id flushed : Z) (m : Memtable) (b : RecoveredBatch) : result StoreError Memtable :=
  if negb (rb_table_id b =? table_id) then Ok m
  else if rb_sequence b <=? flushed then Ok m
  else rows ← map_result (adapt_recovered_row schema (rb_columns b)) (rb_rows b); Ok (apply_all m rows).

Definition replay_batches `{Layout} (schema : TableSchema) (table_id flushed : Z) (batches : list RecoveredBatch) : result StoreError Memtable :=
  fold_result (replay_batch schema table_id flushed) memtable_default batches.

(** A log that no longer starts at the first write proves that a manifest existed. *)
Definition refuse_a_lost_manifest (d : manifest_dir) (truncate_wal_on_flush : bool) (recovery : Recovery) (table_id : Z) : result StoreError unit :=
  if negb truncate_wal_on_flush || is_some (dir_manifest d) then Ok tt
  else
    match map rb_sequence (List.filter (fun b => rb_table_id b =? table_id) (rec_batches recovery)) with
    | [] => Ok tt
    | sequences =>
        if 1 <? list_min sequences
        then Err (CorruptManifest 0 (msg "the manifest is missing but the write-ahead log starts after rows that were already flushed" []))
        else Ok tt
    end.

(** What a transactional table keeps of a recovery: the batches up to the last commit
    record, its sequence, and where to cut the log when anything followed it. *)
Definition committed_prefix (r : Recovery) : Recovery * option Z :=
  let batches := match rec_last_commit r with Some c => wc_batches c | None => 0 end in
  let offset := match rec_last_commit r with Some c => wc_end_offset c | None => HEADER_LENGTH end in
  ({| rec_batches := take (Z.to_nat batches) (rec_batches r);
      rec_last_sequence := match rec_last_commit r with Some c => wc_sequence c | None => 0 end;
      rec_last_commit := rec_last_commit r |},
   if batches <? len (rec_batches r) then Some offset else None).

(** ** Segments *)

(** The order [collapse_identical_segments] sorts by. *)
Definition span_less (a b : SegmentFacts) : bool :=
  match cmp (seg_min_key a) (seg_min_key b), cmp (seg_max_key a) (seg_max_key b) with
  | Lt, _ => true
  | Gt, _ => false
  | Eq, Lt => true
  | Eq, Gt => false
  | Eq, Eq =>
      (seg_row_count a <? seg_row_count b)
      || ((seg_row_count a =? seg_row_count b)
          && ((seg_min_version a <? seg_min_version b)
              || ((seg_min_version a =? seg_min_version b) && (seg_max_version a <? seg_max_version b))))
  end.

Section recovery.
Context `{Checksum} `{BlockSketches} `{Layout} `{FileBytes}.

(** The indexes of segments whose file is that of the next one in the order; the sort is
    stable, so the earlier one of a pair goes. *)
Fixpoint duplicates (d : Directory) (order : list (nat * SegmentFacts)) : result StoreError (list nat) :=
  match order with
  | [] => Ok []
  | (index, a) :: rest =>
      match rest with
      | [] => Ok []
      | (_, b) :: _ =>
          same ← (if same_segment_span a b then same_file_contents d a b else Ok false);
          found ← duplicates d rest;
          Ok (if same : bool then index :: found else found)
      end
  end.

Definition span_order (segments : list SegmentFacts) : list (nat * SegmentFacts) :=
  sort_by (fun a b => span_less (snd a) (snd b)) (imap pair segments).

Definition collapse_identical_segments (io : publish_io) : Table unit :=
  s ← get;
  found ← lift (duplicates (ts_segments s) (span_order (man_segments (ts_manifest s))));
  match found with
  | [] => mret tt
  | _ =>
      m ← lift (next_generation (with_segments (left_out (man_segments (ts_manifest s)) found) (ts_manifest s)));
      _ ← publish m io;
      modify (set_manifest m)
  end.

(** Files no manifest names, that of the table or one a reader pinned; a removal that fails
    leaves the rest. *)
Fixpoint remove_orphans (live : str -> bool) (remove : str -> bool) (names : list str) (removed : bool) : Table bool :=
  match names with
  | [] => mret removed
  | name :: names =>
      if live name then remove_orphans live remove names removed
      else if remove name then
        _ ← modify (fun s => set_segments (remove_file name (ts_segments s)) s); remove_orphans live remove names true
      else raise (Io (msg "remove orphan segment" []))
  end.

Definition remove_orphan_segments (pinned : list Manifest) (remove : str -> bool) (sync : bool) : Table unit :=
  s ← get;
  let live name := names_file name (ts_manifest s) || existsb (names_file name) pinned in
  removed ← remove_orphans live remove (map fst (ts_segments s)) false;
  if (removed : bool) && negb sync then raise (Io (msg "sync directory" [])) else mret tt.

Definition publish_schema_upgrade (io : publish_io) : Table unit :=
  s ← get;
  m ← lift (next_generation (ts_manifest s));
  let m := with_schema (ts_schema s) m in
  _ ← publish m io;
  modify (set_manifest m).

Definition append_row_id (key : PrimaryKey) : result StoreError Z :=
  match key with
  | [PUInt64 row_id] => Ok row_id
  | _ => Err (IncompatibleSchema (msg "append-rowid table contains a non-generated storage key" []))
  end.

Definition max_row_id (maximum : Z) (r : StoredRow) : result StoreError Z :=
  id ← append_row_id (row_key r); Ok (Z.max maximum id).

Definition find_next_append_row_id (s : TableStore) : result StoreError Z :=
  if negb (bool_decide (schema_key_mode (ts_schema s) = KMAppendRowId)) then Ok 1
  else
    maximum ← fold_result max_row_id 0 (map snd (mt_rows (ts_memtable s)));
    maximum ← fold_result (fun maximum meta =>
                 rows ← read_rows (ts_segments s) (ts_schema s) meta; fold_result max_row_id maximum rows)
               maximum (man_segments (ts_manifest s));
    next_of maximum 1.

(** ** Opening *)

(** What the filesystem does: the directory and the writer's lock, the calls of [Wal::open],
    the publications, the readers' manifests and the removals, and the cuts of the log. *)
Record open_io : Type := {
  oi_lock : bool;
  oi_init : bool;
  oi_read : bool;
  oi_cut_tail : bool;
  oi_collapse : publish_io;
  oi_pinned : list Manifest;
  oi_remove : str -> bool;
  oi_sync : bool;
  oi_truncate : reset_io;
  oi_reset : reset_io;
  oi_upgrade : publish_io
}.

(** [Wal::open] under the table's policy. *)
Definition open_wal (io : open_io) : Table Recovery := fun s =>
  let w := dk_wal (ts_disk s) in
  let w := {| wal_bytes := wal_bytes w; wal_synced := wal_synced w; wal_sync_policy := opt_wal_sync (ts_options s) |} in
  let '(r, w) := open w (oi_init io) (oi_read io) (oi_cut_tail io) in (r, set_wal w s).

Definition truncate_wal (offset : Z) (io : reset_io) : Table unit := fun s =>
  let '(r, w) := truncate_to (dk_wal (ts_disk s)) offset (ri_set_len io) (ri_seek io) (ri_sync io) in (r, set_wal w s).

(** The segments are read in full when the schema is newer than theirs, and verified
    otherwise. *)
Definition check_segments (upgrade : bool) (d : Directory) (schema : TableSchema) (m : Manifest) : result StoreError unit :=
  fold_result (fun _ meta => if upgrade then _ ← read_rows d schema meta; Ok tt else verify d schema meta) tt (man_segments m).

(** Rows after the last commit record of a transactional table were never acknowledged. *)
Definition drop_uncommitted (r : Recovery) (io : open_io) : Table Recovery :=
  s ← get;
  if negb (opt_transactional (ts_options s)) then mret r
  else
    let '(kept, cut) := committed_prefix r in
    _ ← match cut with Some offset => truncate_wal offset (oi_truncate io) | None => mret tt end;
    mret kept.

(** The highest version the table has applied, from the manifest, the commit records of a
    transactional table and the segments of a replicated one. *)
Definition recovered_version (s : TableStore) (r : Recovery) (m : Manifest) : Z :=
  if opt_transactional (ts_options s)
  then match rec_last_commit r with Some c => Z.max (man_committed_version m) (wc_version c) | None => man_committed_version m end
  else foldl Z.max (man_committed_version m) (map seg_max_version (man_segments m)).

Definition recover_table (io : open_io) : Table unit :=
  s ← get;
  _ ← lift (validate_store_options (ts_options s));
  _ ← (if oi_lock io then mret tt else raise (Io (msg "lock table writer" [])));
  m ← lift (manifest_load (dir_manifest (dk_manifest (ts_disk s))) (ts_schema s));
  let upgrade := man_schema_version m <? schema_version (ts_schema s) in
  _ ← lift (check_segments upgrade (ts_segments s) (ts_schema s) m);
  recovery ← open_wal io;
  _ ← lift (refuse_a_lost_manifest (dk_manifest (ts_disk s)) (cfg_truncate_wal_on_flush (ts_config s)) recovery (cfg_table_id (ts_config s)));
  _ ← modify (set_manifest m);
  _ ← collapse_identical_segments (oi_collapse io);
  _ ← remove_orphan_segments (oi_pinned io) (oi_remove io) (oi_sync io);
  recovery ← drop_uncommitted recovery io;
  memtable ← lift (replay_batches (ts_schema s) (cfg_table_id (ts_config s)) (man_flushed_sequence m) (rec_batches recovery));
  _ ← modify (set_memtable memtable);
  _ ← (if cfg_truncate_wal_on_flush (ts_config s)
          && existsb (fun b => rb_table_id b =? cfg_table_id (ts_config s)) (rec_batches recovery)
          && (rec_last_sequence recovery <=? man_flushed_sequence m)
       then reset_wal (oi_reset io) else mret tt);
  _ ← (if upgrade then publish_schema_upgrade (oi_upgrade io) else mret tt);
  s ← get;
  next_append_row_id ← lift (find_next_append_row_id s);
  let m := ts_manifest s in
  modify (fun s => set_next_append_row_id next_append_row_id
                     (set_commit_version (recovered_version s recovery m)
                        (set_last_sequence (Z.max (rec_last_sequence recovery) (man_flushed_sequence m)) s))).

(** A writer that has read nothing yet. *)
Definition unopened (config : TableConfig) (d : Disk) : TableStore := {|
  ts_config := config; ts_disk := d; ts_memtable := memtable_default; ts_manifest := manifest_empty (cfg_schema config);
  ts_retired := []; ts_last_sequence := 0; ts_commit_version := 0; ts_next_append_row_id := 1; ts_staged := [];
  ts_staged_ids := (0, 0) |}.

Definition open_with_wal (config : TableConfig) (io : open_io) (d : Disk) : result StoreError TableStore * Disk :=
  match recover_table io (unopened config d) with
  | (Ok _, s) => (Ok s, ts_disk s)
  | (Err e, s) => (Err e, ts_disk s)
  end.

End recovery.
