(* ===== verification/StoreInvariant.v ===== *)
(** * What the table store keeps true

    The invariant of a [TableStore] - its manifest names files that hold rows, no identifier is used
    twice, nothing retired or staged is live - and that the operations of [Store] keep it together with
    the rows a reader sees, whatever filesystem call fails. *)

From Stdlib Require Import ZArith Lia String Sorted.
From stdpp Require Import prelude list.
From coqutil Require Import Byte.
From S2P Require Import Prelude.
From S2P Require Import Types.
From S2P Require Import Codec.
From S2P Require Import Wal.
From S2P Require Import Memtable.
From S2P Require Import Manifest.
From S2P Require Import Segment.
From S2P Require Import SegmentFile.
From S2P Require Import Merge.
From S2P Require Import Compaction.
From S2P Require Import Snapshot.
From S2P Require Import Store.
From S2P Require Import Metadata.

#[local] Open Scope Z_scope.

(** ** Outcomes of an operation *)

(** [Q] of the answer and the store after a success, [E] of the store after a failure. *)
Definition wp {A} (m : Table A) (Q : A -> TableStore -> Prop) (E : TableStore -> Prop) (s : TableStore) : Prop :=
  match m s with (Ok a, s') => Q a s' | (Err _, s') => E s' end.

Lemma wp_bind {A B} (m : Table A) (f : A -> Table B) Q E s :
  wp m (fun a => wp (f a) Q E) E s -> wp (m ≫= f) Q E s.
Proof. unfold wp, mbind, table_bind. now destruct (m s) as [[a|e] s']. Qed.

Lemma wp_ret {A} (a : A) (Q : A -> TableStore -> Prop) E s : Q a s -> wp (mret a) Q E s.
Proof. easy. Qed.

Lemma wp_get Q E s : Q s s -> wp get Q E s.
Proof. easy. Qed.

Lemma wp_modify f (Q : unit -> TableStore -> Prop) E s : Q tt (f s) -> wp (modify f) Q E s.
Proof. easy. Qed.

Lemma wp_lift_eq {A} (r : result StoreError A) (Q : A -> TableStore -> Prop) (E : TableStore -> Prop) s :
  (forall a, r = Ok a -> Q a s) -> (forall e, r = Err e -> E s) -> wp (lift r) Q E s.
Proof. intros HQ HE. unfold wp, lift. destruct r as [a|e]; [now apply HQ|now apply (HE e)]. Qed.

Lemma wp_raise {A} e (Q : A -> TableStore -> Prop) (E : TableStore -> Prop) s : E s -> wp (raise e) Q E s.
Proof. easy. Qed.

Lemma wp_lift {A} (r : result StoreError A) (Q : A -> TableStore -> Prop) (E : TableStore -> Prop) s :
  (forall a, r = Ok a -> Q a s) -> E s -> wp (lift r) Q E s.
Proof. unfold wp, lift. destruct r; auto. Qed.

Lemma wp_mono {A} (m : Table A) (Q Q' : A -> TableStore -> Prop) (E E' : TableStore -> Prop) s :
  wp m Q E s -> (forall a s', Q a s' -> Q' a s') -> (forall s', E s' -> E' s') -> wp m Q' E' s.
Proof. unfold wp. destruct (m s) as [[a|e] s']; auto. Qed.

Lemma wp_run {A} (m : Table A) Q E s r s' :
  wp m Q E s -> m s = (r, s') -> match r with Ok a => Q a s' | Err _ => E s' end.
Proof. unfold wp. intros Hw E0. rewrite E0 in Hw. now destruct r. Qed.

(** ** The files of a table *)

(** A file with its rows, and the ranges the Rust types give both. *)
Record segment_known (dir : Directory) (schema : TableSchema) (meta : SegmentFacts) (rows : list StoredRow) : Prop := {
  known_holds : segment_holds dir schema meta rows;
  known_wf : segment_wf meta = true;
  known_rows : Forall (fun r => stored_row_wf r = true) rows
}.

Lemma known_frame dir dir' schema meta rows :
  omap_get (seg_file_name meta) dir' = omap_get (seg_file_name meta) dir ->
  segment_known dir schema meta rows -> segment_known dir' schema meta rows.
Proof. intros E []. split; try easy. now apply (holds_frame dir). Qed.

Lemma all_known_holds dir schema segments rowss :
  Forall2 (segment_known dir schema) segments rowss -> Forall2 (segment_holds dir schema) segments rowss.
Proof. intros Hk. eapply Forall2_impl; [exact Hk|]. now intros meta rows []. Qed.

Lemma known_concat_wf dir schema segments rowss :
  Forall2 (segment_known dir schema) segments rowss -> forall r, In r (concat rowss) -> stored_row_wf r = true.
Proof.
  induction 1 as [|meta rows segments rowss Hm _ IH]; cbn [concat]; [easy|]. intros r [Hr|Hr]%in_app_iff; [|now apply IH].
  pose proof (known_rows _ _ _ _ Hm) as Hw. rewrite List.Forall_forall in Hw. now apply Hw.
Qed.

(** The counters of a manifest, as the Rust types have them. *)
Definition counters_wf (m : Manifest) : bool :=
  is_u64 (man_generation m) && is_u32 (man_schema_version m) && is_u64 (man_schema_fingerprint m)
  && is_u64 (man_flushed_sequence m) && is_u64 (man_next_segment_id m) && is_u64 (man_epoch m)
  && is_u64 (man_committed_version m).

Definition named (next_id : Z) (meta : SegmentFacts) : Prop :=
  0 <= seg_id meta < next_id /\ seg_file_name meta = segment_file_name (seg_id meta).

Definition free_of (reserved : Z * Z) (id : Z) : Prop := ~ (fst reserved <= id < snd reserved).

(** The live segments hold [rowss], the staged ones [stagedss]; identifiers below the next one are
    used once; a retired file is none of them. *)
Record files_ok (dir : Directory) (schema : TableSchema) (m : Manifest) (staged : list SegmentFacts) (reserved : Z * Z)
    (retired : list RetiredGeneration) (rowss stagedss : list (list StoredRow)) : Prop := {
  fo_holds : Forall2 (segment_known dir schema) (man_segments m) rowss;
  fo_staged : Forall2 (segment_known dir schema) staged stagedss;
  fo_named : Forall (named (man_next_segment_id m)) (man_segments m ++ staged);
  fo_ids : NoDup (map seg_id (man_segments m ++ staged));
  fo_next : 0 < man_next_segment_id m < 2 ^ 64;
  fo_reserved : 0 <= fst reserved /\ snd reserved <= man_next_segment_id m /\
                Forall (fun meta => free_of reserved (seg_id meta)) (man_segments m ++ staged);
  fo_retired : Forall (fun name => exists id, name = segment_file_name id /\ 0 <= id < man_next_segment_id m /\
                         free_of reserved id /\ id ∉ map seg_id (man_segments m ++ staged))
                 (concat (map rg_paths retired))
}.

Lemma file_name_inj a b : 0 <= a < 2 ^ 64 -> 0 <= b < 2 ^ 64 -> segment_file_name a = segment_file_name b -> a = b.
Proof. intros Ha Hb. apply segment_file_name_inj; lia. Qed.

Lemma Forall2_with {A B} (P : A -> Prop) (R R' : A -> B -> Prop) l k :
  Forall P l -> Forall2 R l k -> (forall a b, P a -> R a b -> R' a b) -> Forall2 R' l k.
Proof. intros HP HR Himp. induction HR as [|a b l k Hab _ IH]; constructor; apply Forall_cons in HP as [Ha HP]; auto. Qed.

(** Files of identifiers not handed out yet do not matter. *)
Lemma files_frame dir dir' schema m staged reserved retired rowss stagedss :
  (forall id, 0 <= id < man_next_segment_id m -> free_of reserved id ->
     omap_get (segment_file_name id) dir' = omap_get (segment_file_name id) dir) ->
  files_ok dir schema m staged reserved retired rowss stagedss -> files_ok dir' schema m staged reserved retired rowss stagedss.
Proof.
  intros Hd [H1 H2 H3 H4 H5 (H6 & H6' & H6'') H7].
  assert (Hn : Forall (fun meta => named (man_next_segment_id m) meta /\ free_of reserved (seg_id meta)) (man_segments m ++ staged))
    by (apply Forall_and; easy).
  assert (Hf : forall meta rows, named (man_next_segment_id m) meta /\ free_of reserved (seg_id meta) ->
    segment_known dir schema meta rows -> segment_known dir' schema meta rows).
  { intros meta rows [[Hi Hnm] Hfr] Hh. apply (known_frame dir); [rewrite Hnm; now apply Hd|easy]. }
  apply Forall_app in Hn as [N1 N2]. split; try easy; eapply Forall2_with; eauto.
Qed.

Lemma named_weaken next next' meta : next <= next' -> named next meta -> named next' meta.
Proof. intros Hle [H1 H2]. split; [lia|easy]. Qed.

(** Handing out identifiers, without using them. *)
Lemma files_skip dir schema m m' staged reserved retired rowss stagedss :
  man_segments m' = man_segments m -> man_next_segment_id m <= man_next_segment_id m' < 2 ^ 64 ->
  files_ok dir schema m staged reserved retired rowss stagedss -> files_ok dir schema m' staged reserved retired rowss stagedss.
Proof.
  intros Es Hn [H1 H2 H3 H4 H5 (H6 & H6' & H6'') H7]. split; rewrite ?Es; try easy.
  - eapply Forall_impl; [exact H3|]. intros meta. now apply named_weaken.
  - lia.
  - split; [easy|]. split; [lia|easy].
  - eapply Forall_impl; [exact H7|]. intros name (id & E & Hi & Hr). exists id. split; [easy|]. split; [lia|easy].
Qed.

(** A new segment under the next identifier. *)
Lemma files_add dir schema m m' staged reserved retired rowss stagedss meta rows :
  files_ok dir schema m staged reserved retired rowss stagedss ->
  segment_known dir schema meta rows -> seg_id meta = man_next_segment_id m ->
  seg_file_name meta = segment_file_name (seg_id meta) ->
  man_segments m' = man_segments m ++ [meta] -> man_next_segment_id m' = man_next_segment_id m + 1 ->
  man_next_segment_id m' < 2 ^ 64 ->
  files_ok dir schema m' staged reserved retired (rowss ++ [rows]) stagedss.
Proof.
  intros [H1 H2 H3 H4 H5 (H6 & H6' & H6'') H7] Hh Hid Hf Es En Hlt.
  assert (Hp : man_segments m' ++ staged ≡ₚ meta :: man_segments m ++ staged).
  { rewrite Es, <- app_assoc. symmetry. apply Permutation_middle. }
  assert (Hnew : Forall (fun x => seg_id x <> seg_id meta) (man_segments m ++ staged)).
  { eapply Forall_impl; [exact H3|]. intros x [Hx _]. lia. }
  split; try easy.
  - rewrite Es. apply Forall2_app; [easy|]. constructor; [easy|constructor].
  - rewrite Hp. constructor; [split; [lia|easy]|]. eapply Forall_impl; [exact H3|]. intros x. apply named_weaken. lia.
  - rewrite Hp. cbn [map]. constructor; [|easy]. intros (x & E & Hx)%list_elem_of_fmap. rewrite Forall_forall in Hnew. now apply (Hnew x Hx).
  - lia.
  - split; [easy|]. split; [lia|]. rewrite Hp. constructor; [|easy]. unfold free_of. lia.
  - eapply Forall_impl; [exact H7|]. intros name (id & E & Hi & Hr & Hn). exists id. split; [easy|]. split; [lia|]. split; [easy|].
    rewrite Hp. cbn [map]. rewrite elem_of_cons. intros [->|]; [lia|easy].
Qed.

Lemma left_out_sublist {A} start (l : list A) selected : left_out_from start l selected `sublist_of` l.
Proof.
  revert start; induction l as [|x l IH]; intros start; cbn [left_out_from]; [constructor|].
  destruct (index_in selected start); [apply sublist_cons|apply sublist_skip]; apply IH.
Qed.

Lemma left_out_map {A B} (f : A -> B) start l selected : map f (left_out_from start l selected) = left_out_from start (map f l) selected.
Proof.
  revert start; induction l as [|x l IH]; intros start; [easy|]. cbn [left_out_from map]. destruct (index_in selected start); cbn [map]; now rewrite IH.
Qed.

Lemma in_picked_from start (l : list SegmentFacts) selected meta :
  In meta (picked_from start l selected) <-> exists index, In (start + index)%nat selected /\ l !! index = Some meta.
Proof.
  revert start; induction l as [|x l IH]; intros start; cbn [picked_from].
  { split; [easy|]. intros (i & _ & Hi). now rewrite lookup_nil in Hi. }
  assert (Hs : (exists index, In (start + index)%nat selected /\ (x :: l) !! index = Some meta) <->
               (In start selected /\ x = meta) \/ exists index, In (S start + index)%nat selected /\ l !! index = Some meta).
  { split.
    - intros ([|i] & Hn & Hi); [left|right].
      + rewrite Nat.add_0_r in Hn. now injection Hi as ->.
      + exists i. now rewrite Nat.add_succ_comm.
    - intros [(Hn & ->)|(i & Hn & Hi)]; [exists O; now rewrite Nat.add_0_r|].
      exists (S i). now rewrite <- Nat.add_succ_comm. }
  rewrite Hs. destruct (index_in selected start) eqn:E.
  - apply index_in_spec in E. cbn [In]. rewrite IH. tauto.
  - assert (~ In start selected) by (intros Hin; apply index_in_spec in Hin; congruence). rewrite IH. tauto.
Qed.

(** The identifier of a selected segment is not left. *)
Lemma left_out_ids (segments staged : list SegmentFacts) selected i meta :
  NoDup (map seg_id (segments ++ staged)) -> segments !! i = Some meta -> In i selected ->
  seg_id meta ∉ map seg_id (left_out segments selected ++ staged).
Proof.
  intros Hn Hl Hi (x & E & Hx)%list_elem_of_fmap. rewrite map_app in Hn. apply NoDup_app in Hn as (Hn & Hd & _).
  apply elem_of_app in Hx as [Hx|Hx].
  - apply list_elem_of_In, in_left_out in Hx as (j & Hj & Hlj). assert (i = j) as ->; [|easy].
    apply (NoDup_lookup (map seg_id segments) i j (seg_id meta)); [easy|now rewrite list_lookup_fmap, Hl|now rewrite list_lookup_fmap, Hlj, E].
  - apply (Hd (seg_id meta)).
    + apply list_elem_of_fmap. exists meta. split; [easy|]. exact (list_elem_of_lookup_2 _ _ _ Hl).
    + rewrite E. apply list_elem_of_fmap. now exists x.
Qed.

(** Segments of a manifest replaced by new ones, whose identifiers follow the handed-out ones. *)
Lemma files_replace dir dir' schema m m' staged reserved retired rowss stagedss selected outputs chunks :
  files_ok dir schema m staged reserved retired rowss stagedss ->
  (forall id, 0 <= id < man_next_segment_id m -> free_of reserved id ->
     omap_get (segment_file_name id) dir' = omap_get (segment_file_name id) dir) ->
  Forall2 (segment_known dir' schema) outputs chunks ->
  Forall (fun meta => seg_file_name meta = segment_file_name (seg_id meta)) outputs ->
  map seg_id outputs = seqZ (man_next_segment_id m) (len outputs) ->
  man_segments m' = left_out (man_segments m) selected ++ outputs ->
  man_next_segment_id m' = man_next_segment_id m + len outputs -> man_next_segment_id m' < 2 ^ 64 ->
  files_ok dir' schema m' staged reserved
    (retired ++ [{| rg_manifest := m; rg_paths := map seg_file_name (picked (man_segments m) selected) |}])
    (left_out rowss selected ++ chunks) stagedss.
Proof.
  intros Hf Hd Ho Hn Hids Es En Hlt. pose proof (files_frame _ dir' _ _ _ _ _ _ _ Hd Hf) as [H1 H2 H3 H4 H5 (H6 & H6' & H6'') H7].
  set (old := left_out (man_segments m) selected) in *. assert (Hsub : old `sublist_of` man_segments m) by apply left_out_sublist.
  assert (Hnew : forall meta, meta ∈ outputs -> man_next_segment_id m <= seg_id meta < man_next_segment_id m').
  { intros meta Hm. apply (list_elem_of_fmap_2 seg_id) in Hm. unfold fmap, list_fmap in Hm. pose proof (elem_of_seqZ (man_next_segment_id m) (len outputs) (seg_id meta)) as Hz.
    rewrite <- Hids in Hz. apply Hz in Hm. lia. }
  assert (Hp : man_segments m' ++ staged ≡ₚ outputs ++ (old ++ staged)).
  { rewrite Es, <- app_assoc. rewrite (Permutation_app_swap_app old outputs staged). reflexivity. }
  assert (Hsub' : old ++ staged `sublist_of` man_segments m ++ staged) by (apply sublist_app; [easy|reflexivity]).
  assert (Hids' : NoDup (map seg_id (old ++ staged))).
  { apply (sublist_NoDup _ (map seg_id (man_segments m ++ staged))); [easy|]. rewrite !map_app. apply sublist_app; [|reflexivity].
    unfold old, left_out. rewrite left_out_map. apply left_out_sublist. }
  assert (Hfresh : forall id, id < man_next_segment_id m -> id ∉ map seg_id outputs).
  { intros id Hid. rewrite Hids, elem_of_seqZ. lia. }
  split; try easy.
  - rewrite Es. apply Forall2_app; [now apply left_out_Forall2|easy].
  - rewrite Hp. apply Forall_app. split.
    + apply Forall_forall. intros x Hx. specialize (Hnew x Hx). rewrite Forall_forall in Hn. split; [lia|now apply Hn].
    + apply Forall_forall. intros x Hx. rewrite Forall_forall in H3. pose proof (len_nonneg outputs).
      apply (named_weaken (man_next_segment_id m)); [lia|]. apply H3. exact (elem_of_sublist _ _ _ Hx Hsub').
  - rewrite Hp, map_app. apply NoDup_app. rewrite Hids at 1. split; [apply NoDup_seqZ|]. split; [|easy].
    intros id Hid Hin. rewrite Hids, elem_of_seqZ in Hid. apply list_elem_of_fmap in Hin as (x & -> & Hx).
    rewrite Forall_forall in H3. destruct (H3 x (elem_of_sublist _ _ _ Hx Hsub')) as [Hb _]. lia.
  - pose proof (len_nonneg outputs). lia.
  - split; [easy|]. split; [pose proof (len_nonneg outputs); lia|]. rewrite Hp. apply Forall_app. split; apply Forall_forall; intros x Hx.
    + specialize (Hnew x Hx). unfold free_of. lia.
    + rewrite Forall_forall in H6''. apply H6''. exact (elem_of_sublist _ _ _ Hx Hsub').
  - pose proof (len_nonneg outputs). rewrite (map_app rg_paths), concat_app. cbn [map concat rg_paths]. rewrite app_nil_r. apply Forall_app. split.
    + eapply Forall_impl; [exact H7|]. intros name (id & E & Hi & Hr & Hni). exists id. split; [easy|]. split; [lia|]. split; [easy|].
      rewrite Hp, map_app, elem_of_app. intros [Hx|Hx]; [now apply (Hfresh id)|]. apply Hni.
      apply list_elem_of_fmap in Hx as (x & -> & Hx). apply list_elem_of_fmap. exists x. split; [easy|]. exact (elem_of_sublist _ _ _ Hx Hsub').
    + apply List.Forall_forall. intros name (meta & <- & Hm)%in_map_iff. apply (in_picked_from 0) in Hm as (i & Hi & Hl).
      assert (Hin : meta ∈ man_segments m ++ staged) by (apply elem_of_app; left; exact (list_elem_of_lookup_2 _ _ _ Hl)).
      rewrite Forall_forall in H3, H6''. destruct (H3 meta Hin) as [Hb Hnm]. exists (seg_id meta). split; [easy|]. split; [lia|].
      split; [now apply H6''|]. rewrite Hp, map_app, elem_of_app. intros [Hx|Hx]; [apply (Hfresh (seg_id meta)); [lia|easy]|].
      apply (left_out_ids (man_segments m) staged selected i meta); easy.
Qed.

Section invariant.
Context `{Checksum} `{BlockSketches} `{Layout} `{FileBytes}.

(** What the Rust types enforce of the store's parts, and that the manifest is of the table's schema. *)
Record typed (config : TableConfig) (mt : Memtable) (version sequence : Z) (m : Manifest) : Prop := {
  ty_schema : schema_wf (cfg_schema config) = true;
  ty_block_rows : 0 <= opt_block_rows (cfg_options config);
  ty_rows : Forall (fun r => stored_row_wf r = true) (map snd (mt_rows mt));
  ty_newest : forall v, mt_newest_version mt = Some v -> 0 <= v < 2 ^ 64;
  ty_version : 0 <= version < 2 ^ 64;
  ty_sequence : 0 <= sequence < 2 ^ 64;
  ty_counters : counters_wf m = true;
  ty_described : man_schema_version m = schema_version (cfg_schema config) /\
                 man_schema_fingerprint m = schema_fingerprint (cfg_schema config) /\
                 man_key_mode m = schema_key_mode (cfg_schema config)
}.

Record store_ok (s : TableStore) (rowss stagedss : list (list StoredRow)) : Prop := {
  so_schema : schema_ok (ts_schema s);
  so_options : validate_store_options (ts_options s) = Ok tt /\ 0 <= opt_max_compaction_rows (ts_options s);
  so_files : files_ok (ts_segments s) (ts_schema s) (ts_manifest s) (ts_staged s) (ts_staged_ids s) (ts_retired s) rowss stagedss;
  so_memtable : memtable_shape (ts_memtable s);
  so_rows : Forall (row_fits (ts_schema s)) (map snd (mt_rows (ts_memtable s)));
  so_version : 0 <= ts_commit_version s;
  so_typed : typed (ts_config s) (ts_memtable s) (ts_commit_version s) (ts_last_sequence s) (ts_manifest s)
}.

(** The rows of the table as they are stored. *)
Definition view (s : TableStore) (rowss : list (list StoredRow)) : list StoredRow :=
  map durable_row (contents (snapshot s) rowss).

Lemma store_snap_ok s rowss stagedss : store_ok s rowss stagedss -> snap_ok (snapshot s) rowss.
Proof.
  intros [_ _ Hf Hm _ _ _]. split; [apply all_known_holds, Hf|apply Hm|apply Hm|]. pose proof (sh_versions _ Hm) as Hv. cbn.
  unfold sn_rows. apply Forall_fmap. eapply Forall_impl; [exact Hv|]. intros [k r] (lo & hi & E & _ & Hb). exists lo. split; [easy|]. cbn in *. lia.
Qed.

(** Same files, memtable and identifiers: everything the invariant looks at. *)
Lemma store_ok_ext s s' rowss stagedss :
  ts_schema s' = ts_schema s -> ts_options s' = ts_options s -> ts_segments s' = ts_segments s -> ts_manifest s' = ts_manifest s ->
  ts_staged s' = ts_staged s -> ts_staged_ids s' = ts_staged_ids s -> ts_retired s' = ts_retired s -> ts_memtable s' = ts_memtable s ->
  0 <= ts_commit_version s' ->
  typed (ts_config s') (ts_memtable s') (ts_commit_version s') (ts_last_sequence s') (ts_manifest s') ->
  store_ok s rowss stagedss -> store_ok s' rowss stagedss.
Proof. intros E1 E2 E3 E4 E5 E6 E7 E8 E9 E10 []. split; try exact E10; rewrite ?E1, ?E2, ?E3, ?E4, ?E5, ?E6, ?E7, ?E8; easy. Qed.

(** *** Parts replaced *)

Lemma typed_version c mt v q m v' : typed c mt v q m -> 0 <= v' < 2 ^ 64 -> typed c mt v' q m.
Proof. intros [] Hv. now split. Qed.

Lemma typed_cleared c mt mt' v q m : typed c mt v q m -> typed c (clear mt') v q m.
Proof. intros []. now split. Qed.

Lemma typed_segments c mt v q m segments : typed c mt v q m -> typed c mt v q (with_segments segments m).
Proof. intros []. now split. Qed.

Lemma typed_next_id c mt v q m id : typed c mt v q m -> 0 <= id < 2 ^ 64 -> typed c mt v q (with_next_segment_id id m).
Proof.
  intros [T1 T2 T3 T4 T5 T6 T7 T8] Hid. split; try easy. unfold counters_wf in *. cbn in *. rewrite !andb_true_iff in *.
  repeat split; try apply T7. now apply in_unsigned_spec.
Qed.

Lemma typed_flushed c mt v q m sequence version :
  typed c mt v q m -> 0 <= sequence < 2 ^ 64 -> 0 <= version < 2 ^ 64 -> typed c mt v q (with_flushed sequence version m).
Proof.
  intros [T1 T2 T3 T4 T5 T6 T7 T8] Hs Hv. split; try easy. unfold counters_wf in *. cbn in *. rewrite !andb_true_iff in *.
  repeat split; try apply T7; now apply in_unsigned_spec.
Qed.

Lemma next_of_inv n step n' : next_of n step = Ok n' -> n' = n + step /\ n' < 2 ^ 64.
Proof. unfold next_of, ok_or, checked_add. destruct (Z.ltb_spec (n + step) (2 ^ 64)); [|easy]. now intros [= <-]. Qed.

Lemma typed_generation c mt v q m generation epoch :
  typed c mt v q m -> 0 <= generation < 2 ^ 64 -> 0 <= epoch < 2 ^ 64 -> typed c mt v q (with_generation generation epoch m).
Proof.
  intros [T1 T2 T3 T4 T5 T6 T7 T8] Hg He. split; try easy. unfold counters_wf in *. cbn in *. rewrite !andb_true_iff in *.
  repeat split; try apply T7; now apply in_unsigned_spec.
Qed.

Lemma typed_counters c mt v q m : typed c mt v q m -> 0 <= man_generation m < 2 ^ 64 /\ 0 <= man_epoch m < 2 ^ 64 /\
  0 <= man_flushed_sequence m < 2 ^ 64 /\ 0 <= man_committed_version m < 2 ^ 64.
Proof. intros [_ _ _ _ _ _ T7 _]. unfold counters_wf in T7. rewrite !andb_true_iff in T7. split; [|split; [|split]]; apply (proj1 (in_unsigned_spec 64 _)), T7. Qed.

Lemma typed_next c mt v q m m' : typed c mt v q m -> next_generation m = Ok m' -> typed c mt v q m'.
Proof.
  intros Ht. pose proof (typed_counters _ _ _ _ _ Ht) as (Hg & He & _). unfold next_generation, mbind, result_bind.
  destruct (next_of (man_generation m) 1) as [g|] eqn:Eg; [|easy]. destruct (next_of (man_epoch m) 1) as [e|] eqn:Ee; [|easy].
  intros [= <-]. apply next_of_inv in Eg, Ee. apply typed_generation; [easy|lia..].
Qed.

(** ** Steps on the disk *)

Lemma wp_crash passes (Q : unit -> TableStore -> Prop) (E : TableStore -> Prop) s : Q tt s -> E s -> wp (crash_point passes) Q E s.
Proof. now destruct passes. Qed.

Lemma wp_publish m io (Q : unit -> TableStore -> Prop) (E : TableStore -> Prop) s :
  (forall d, Q tt (set_manifest_dir d s)) -> (forall d, E (set_manifest_dir d s)) -> wp (publish m io) Q E s.
Proof. intros HQ HE. unfold wp, publish. destruct (manifest_publish _ _ _) as [[[]|e] d]; auto. Qed.

Lemma wp_reset_wal io (Q : unit -> TableStore -> Prop) (E : TableStore -> Prop) s :
  (forall w, Q tt (set_wal w s)) -> (forall w, E (set_wal w s)) -> wp (reset_wal io) Q E s.
Proof. intros HQ HE. unfold wp, reset_wal. destruct (reset _ _ _ _) as [[[]|e] d]; auto. Qed.

Lemma write_segment_facts dir id schema rows block_rows unique io meta dir' :
  write_segment dir id schema rows block_rows unique io = (Ok meta, dir') -> segment_facts id schema rows block_rows unique = Ok meta.
Proof.
  unfold write_segment. destruct (segment_facts _ _ _ _ _) as [m|e]; [|easy]. destruct (write_file _ _ _); [|easy].
  destruct io; intros [=]; congruence.
Qed.

Lemma facts_known dir id schema rows block_rows unique meta :
  segment_holds dir schema meta (map durable_row rows) -> segment_facts id schema rows block_rows unique = Ok meta ->
  schema_wf schema = true -> 0 <= block_rows -> 0 <= id < 2 ^ 64 -> Forall (fun r => stored_row_wf r = true) rows ->
  segment_known dir schema meta (map durable_row rows).
Proof.
  intros Hh Hf Hs Hb Hid Hw. split; [easy| |].
  - apply (segment_facts_wf id schema rows block_rows unique); try easy. now apply in_unsigned_spec.
  - apply Forall_fmap. eapply Forall_impl; [exact Hw|]. apply durable_row_wf.
Qed.

(** Only the file of [id] changes. *)
Definition same_but (id : Z) (d d' : Directory) : Prop :=
  forall name, name <> segment_file_name id -> omap_get name d' = omap_get name d.

Lemma wp_write_rows id rows io (Q : SegmentFacts -> TableStore -> Prop) (E : TableStore -> Prop) s :
  schema_ok (ts_schema s) -> schema_wf (ts_schema s) = true -> 0 <= opt_block_rows (ts_options s) -> 0 <= id < 2 ^ 64 ->
  Forall (row_fits (ts_schema s)) rows -> Forall (fun r => stored_row_wf r = true) rows -> key_ascending rows ->
  (forall d meta, same_but id (ts_segments s) d -> segment_known d (ts_schema s) meta (map durable_row rows) -> seg_id meta = id ->
     seg_file_name meta = segment_file_name id -> Q meta (set_segments d s)) ->
  (forall d, same_but id (ts_segments s) d -> E (set_segments d s)) ->
  wp (write_rows id rows (forallb not_deleted rows) io) Q E s.
Proof.
  intros Hs Hws Hb Hid Hf Hw Ha HQ HE. unfold wp, write_rows. destruct (write_segment _ _ _ _ _ _ _) as [r d] eqn:Ew.
  destruct (write_segment_cases _ _ _ _ _ _ _ _ _ Ew) as [Hd Hm]. destruct r as [meta|e]; [|now apply HE].
  destruct (Hm meta eq_refl Hs Hf Ha) as (H3 & H4 & H5).
  2: { apply HQ; try easy. apply facts_known with (1 := H3) (2 := write_segment_facts _ _ _ _ _ _ _ _ _ Ew); easy. }
  rewrite forallb_forall. intros Hu. apply List.Forall_forall. intros r Hr. specialize (Hu r Hr). unfold not_deleted in Hu. now destruct (row_deleted r).
Qed.

(** ** Flushing *)

(** What a flush leaves alone. *)
Record keeps (s s' : TableStore) : Prop := {
  keeps_config : ts_config s' = ts_config s;
  keeps_staged : ts_staged s' = ts_staged s /\ ts_staged_ids s' = ts_staged_ids s;
  keeps_sequence : ts_last_sequence s' = ts_last_sequence s;
  keeps_row_id : ts_next_append_row_id s' = ts_next_append_row_id s;
  keeps_applied : opt_transactional (ts_options s) = false -> applied_version s' = applied_version s
}.

#[global] Instance keeps_preorder : PreOrder keeps.
Proof.
  split; [intros s; now split|]. intros a b c [A1 [A2 A2'] A3 A4 A5] [B1 [B2 B2'] B3 B4 B5]. split; try congruence.
  - split; congruence.
  - intros Ht. rewrite B5, A5; [easy|easy|]. unfold ts_options in *. now rewrite A1.
Qed.

Definition memtable_rows (s : TableStore) : list StoredRow := map snd (mt_rows (ts_memtable s)).

(** The memtable as it was, or its rows in one more segment. *)
Definition flushed_or_not (s s' : TableStore) (rowss rowss' : list (list StoredRow)) : Prop :=
  (rowss' = rowss /\ ts_memtable s' = ts_memtable s) \/
  (rowss' = rowss ++ [map durable_row (memtable_rows s)] /\ mt_rows (ts_memtable s') = [] /\ mt_newest_version (ts_memtable s') = None).

Definition after_flush (s : TableStore) (rowss stagedss : list (list StoredRow)) (s' : TableStore) : Prop :=
  keeps s s' /\ ts_retired s' = ts_retired s /\
  exists rowss', store_ok s' rowss' stagedss /\ flushed_or_not s s' rowss rowss'.

Lemma memtable_cleared_ok m : memtable_shape (clear m).
Proof. split; constructor. Qed.

Lemma taken_memtable m shared : mt_rows m = [] -> (take_rows m shared).2 = m.
Proof. intros E. destruct m as [rows b o n i c]. cbn in E. subst rows. now destruct shared. Qed.

(** A flush that has not published hands the rows back. *)
Lemma restored_memtable m m' shared : memtable_shape m -> m' = (take_rows m shared).2 -> restore m' (map snd (mt_rows m)) = m.
Proof. intros Hm ->. exact (restore_taken m shared Hm). Qed.

Lemma flushed_version_ge s : ts_commit_version s <= flushed_version s.
Proof. unfold flushed_version. destruct (opt_transactional _); [lia|]. destruct (mt_newest_version _); lia. Qed.

Lemma flushed_version_u64 s rowss stagedss : store_ok s rowss stagedss -> 0 <= flushed_version s < 2 ^ 64.
Proof.
  intros Hok. destruct (so_typed _ _ _ Hok) as [_ _ _ Hn Hv _ _ _]. unfold flushed_version. destruct (opt_transactional _); [easy|].
  destruct (mt_newest_version _) as [v|]; [|easy]. specialize (Hn v eq_refl). lia.
Qed.

Lemma unpublished_flush s s' rowss stagedss shared :
  store_ok s rowss stagedss -> ts_config s' = ts_config s -> ts_staged s' = ts_staged s -> ts_staged_ids s' = ts_staged_ids s ->
  ts_last_sequence s' = ts_last_sequence s -> ts_next_append_row_id s' = ts_next_append_row_id s -> ts_retired s' = ts_retired s ->
  ts_manifest s' = ts_manifest s -> same_but (man_next_segment_id (ts_manifest s)) (ts_segments s) (ts_segments s') ->
  ts_memtable s' = (take_rows (ts_memtable s) shared).2 ->
  ts_commit_version s' = ts_commit_version s \/ ts_commit_version s' = flushed_version s ->
  after_flush s rowss stagedss (set_memtable (restore (ts_memtable s') (memtable_rows s)) s').
Proof.
  intros Hok E1 E2 E3 E4 E5 E6 E7 Hd Em Hc. pose proof (restored_memtable _ _ _ (so_memtable _ _ _ Hok) Em) as Er.
  unfold memtable_rows. rewrite Er. split; [|split; [easy|]].
  - split; cbn; try easy. intros Ht. unfold applied_version. cbn. destruct Hc as [-> | ->]; [easy|]. unfold flushed_version. rewrite Ht.
    destruct (mt_newest_version _); cbn; lia.
  - exists rowss. split; [|now left]. pose proof (flushed_version_u64 s rowss stagedss Hok) as Hfv. destruct Hok as [H3 H4 H5 H6 H7 H8 H9].
    split; unfold ts_schema, ts_options, ts_segments in *; cbn; rewrite ?E1, ?E2, ?E3, ?E4, ?E6, ?E7; try easy.
    + apply (files_frame (dk_segments (ts_disk s))); [|easy]. intros id Hid _. apply Hd. intros E. pose proof (fo_next _ _ _ _ _ _ _ _ H5).
      apply file_name_inj in E; lia.
    + destruct Hc as [-> | ->]; [easy|]. apply (Z.le_trans _ (ts_commit_version s)); [easy|]. apply flushed_version_ge.
    + destruct Hc as [-> | ->]; [easy|]. now apply (typed_version _ _ (ts_commit_version s)).
Qed.

Lemma next_generation_inv m m' :
  next_generation m = Ok m' ->
  man_segments m' = man_segments m /\ man_next_segment_id m' = man_next_segment_id m /\ man_flushed_sequence m' = man_flushed_sequence m /\
  man_committed_version m' = man_committed_version m.
Proof.
  unfold next_generation, mbind, result_bind. destruct (next_of (man_generation m) 1); [|easy].
  destruct (next_of (man_epoch m) 1); [|easy]. now intros [= <-].
Qed.

Lemma memtable_rows_ascending s : memtable_shape (ts_memtable s) -> key_ascending (memtable_rows s).
Proof. intros Hm. apply keyed_ascending; apply Hm. Qed.

(** The store [publish_flushed] leaves, before the memtable is cleared. *)
Lemma publish_flushed_wp s rowss stagedss shared io :
  store_ok s rowss stagedss -> memtable_rows s <> [] ->
  wp (publish_flushed (memtable_rows s) io)
    (fun _ s' => after_flush s rowss stagedss (set_memtable (clear (ts_memtable s')) s') /\
       man_flushed_sequence (ts_manifest s') = ts_last_sequence s)
    (fun s' => after_flush s rowss stagedss (set_memtable (restore (ts_memtable s') (memtable_rows s)) s'))
    (set_memtable (take_rows (ts_memtable s) shared).2 s).
Proof.
  intros Hok Hne. set (s1 := set_memtable _ s). unfold publish_flushed. apply wp_bind, wp_get, wp_bind.
  assert (Efv : flushed_version s1 = flushed_version s) by (subst s1; unfold flushed_version, take_rows; cbn; now destruct shared).
  pose proof (so_typed _ _ _ Hok) as Ht. pose proof (flushed_version_u64 s rowss stagedss Hok) as Hfv.
  assert (Hid64 : 0 <= man_next_segment_id (ts_manifest s) < 2 ^ 64) by (pose proof (fo_next _ _ _ _ _ _ _ _ (so_files _ _ _ Hok)); lia).
  apply wp_write_rows; [apply Hok|apply Ht|apply Ht|exact Hid64|apply Hok|apply Ht|now apply memtable_rows_ascending, Hok|intros d meta Hd Hh Hid Hf|intros d Hd];
    [|apply (unpublished_flush s _ rowss stagedss shared); auto].
  apply wp_bind, wp_crash; [|apply (unpublished_flush s _ rowss stagedss shared); auto].
  apply wp_bind, wp_lift; [intros m Em|apply (unpublished_flush s _ rowss stagedss shared); auto].
  pose proof (typed_next _ _ _ _ _ _ Ht Em) as Htm. apply next_generation_inv in Em as (Es & En & _ & _). apply wp_bind, wp_modify, wp_bind.
  apply wp_lift; [intros next Enext|apply (unpublished_flush s _ rowss stagedss shared); cbn; auto].
  apply next_of_inv in Enext as [Enext Hlt]. cbn [man_next_segment_id with_flushed] in Enext.
  apply wp_bind, wp_publish; intros dm; [|apply (unpublished_flush s _ rowss stagedss shared); cbn; auto].
  apply wp_bind, wp_crash; [|apply (unpublished_flush s _ rowss stagedss shared); cbn; auto].
  apply wp_modify. split; [|easy]. cbn. destruct Hok as [H3 H4 H5 H6 H7 H8 H9]. split; [|split; [easy|]].
  - split; cbn; try easy. intros Hnt. unfold applied_version. cbn. rewrite Efv. unfold flushed_version. rewrite Hnt.
    destruct (mt_newest_version (ts_memtable s)) eqn:Ev; cbn; lia.
  - exists (rowss ++ [map durable_row (memtable_rows s)]). split; [|right; easy]. split; cbn; try easy.
    + apply (files_add d _ (ts_manifest s) _ _ _ _ _ _ meta); cbn; try easy.
      * apply (files_frame (ts_segments s)); [|easy]. intros id Hi _. apply Hd. intros E. pose proof (fo_next _ _ _ _ _ _ _ _ H5).
        apply file_name_inj in E; cbn in *; lia.
      * now rewrite Hf, Hid.
      * now rewrite Es.
      * cbn in En. lia.
    + apply memtable_cleared_ok.
    + rewrite Efv. pose proof (flushed_version_ge s). lia.
    + rewrite Efv. apply typed_segments, typed_next_id; [apply typed_flushed; [|exact (ty_sequence _ _ _ _ _ H9)|easy]|cbn in *; lia].
      apply (typed_version _ _ (ts_commit_version s)); [|easy]. exact (typed_cleared _ _ _ _ _ _ Htm).
Qed.

Lemma wp_or_restore rows (m : Table unit) (Q : unit -> TableStore -> Prop) (E : TableStore -> Prop) s :
  wp m (fun _ => Q tt) (fun s' => E (set_memtable (restore (ts_memtable s') rows) s')) s -> wp (or_restore rows m) Q E s.
Proof. unfold wp, or_restore. now destruct (m s) as [[[]|e] s']. Qed.

Lemma after_flush_wal s rowss stagedss s' w : after_flush s rowss stagedss s' -> after_flush s rowss stagedss (set_wal w s').
Proof.
  intros ([K1 K2 K3 K4 K5] & Hr & rowss' & Hok & Hf). split; [now split|]. split; [easy|]. exists rowss'. split; [|easy].
  apply (store_ok_ext s'); try easy; apply Hok.
Qed.

Lemma after_flush_refl s rowss stagedss : store_ok s rowss stagedss -> after_flush s rowss stagedss s.
Proof. intros Hok. split; [easy|]. split; [easy|]. exists rowss. split; [easy|]. now left. Qed.

Lemma flush_wp io s rowss stagedss :
  store_ok s rowss stagedss ->
  wp (flush io) (fun n s' => after_flush s rowss stagedss s' /\ mt_rows (ts_memtable s') = [] /\ n = len (memtable_rows s))
    (after_flush s rowss stagedss) s.
Proof.
  intros Hok. unfold flush. apply wp_bind, wp_get. destruct (take_rows (ts_memtable s) (fi_shared io)) as [rows m] eqn:Et.
  assert (Er : rows = memtable_rows s) by (unfold take_rows in Et; now injection Et as <- _).
  assert (Em : m = (take_rows (ts_memtable s) (fi_shared io)).2) by now rewrite Et. apply wp_bind, wp_modify.
  destruct rows as [|r rows].
  - assert (Enil : mt_rows (ts_memtable s) = []) by (unfold memtable_rows in Er; now destruct (mt_rows (ts_memtable s))).
    apply wp_ret. rewrite Em, taken_memtable by easy. rewrite <- Er. split; [|now split].
    replace (set_memtable (ts_memtable s) s) with s by now destruct s. now apply after_flush_refl.
  - rewrite Er, Em. apply wp_bind, wp_or_restore. eapply wp_mono; [apply (publish_flushed_wp s rowss stagedss); [easy|now rewrite <- Er]| |easy].
    intros [] s' [Ha _]. apply wp_bind, wp_modify, wp_bind.
    assert (Hend : forall s2, after_flush s rowss stagedss s2 -> mt_rows (ts_memtable s2) = [] ->
      wp (_ ← crash_point (fi_after_reset io); mret (len (memtable_rows s)))
        (fun n s' => after_flush s rowss stagedss s' /\ mt_rows (ts_memtable s') = [] /\ n = len (memtable_rows s)) (after_flush s rowss stagedss) s2).
    { intros s2 Ha2 E2. apply wp_bind, wp_crash; [|easy]. now apply wp_ret. }
    destruct (cfg_truncate_wal_on_flush _); [|apply wp_ret; now apply Hend].
    apply wp_reset_wal; intros w; [apply Hend; [|easy]|]; now apply after_flush_wal.
Qed.

(** Whether flushed or not, the rows of the table are the same. *)
Lemma flushed_view s s' rowss rowss' : flushed_or_not s s' rowss rowss' -> view s' rowss' = view s rowss.
Proof.
  unfold view, contents. intros [[-> Em]|(-> & Em & _)]; cbn.
  - unfold sn_rows, snapshot. cbn. now rewrite Em.
  - unfold sn_rows. cbn. rewrite Em, concat_app, !map_app. cbn. rewrite !app_nil_r. f_equal.
    rewrite map_map. apply map_ext. apply durable_row_idem.
Qed.

(** ** Compaction *)

Lemma chunks_hold spec dir outputs chunks :
  schema_wf (ms_schema spec) = true -> 0 <= ms_block_rows spec -> Forall (fun meta => 0 <= seg_id meta < 2 ^ 64) outputs ->
  Forall2 (chunk_ok spec dir) outputs chunks -> Forall (good spec) (concat chunks) -> Forall (fun r => stored_row_wf r = true) (concat chunks) ->
  key_ascending (concat chunks) ->
  Forall2 (segment_known dir (ms_schema spec)) outputs chunks /\
  Forall (fun meta => seg_file_name meta = segment_file_name (seg_id meta)) outputs.
Proof.
  intros Hws Hb Hids Hc. induction Hc as [|meta chunk outputs chunks [Hf Hr _ _] _ IH]; [easy|]. cbn [concat].
  intros [Hg Hgs]%Forall_app [Hw Hwr]%Forall_app (Ha & Has & _)%key_ascending_app. apply Forall_cons in Hids as [Hid Hids].
  destruct (IH Hids Hgs Hwr Has) as [H3 H4].
  pose proof (durable_all spec chunk Hg) as Ed. split; constructor; try easy.
  - rewrite <- Ed. apply (facts_known dir _ _ _ _ _ meta) with (2 := Hf); try easy.
    apply (facts_hold dir _ _ _ _ _ meta Hf); [now rewrite Ed| |easy|].
    + eapply Forall_impl; [exact Hg|]. now intros r [].
    + rewrite forallb_forall. intros Hu. apply List.Forall_forall. intros r Hin. specialize (Hu r Hin). unfold not_deleted in Hu. now destruct (row_deleted r).
  - now destruct (facts_id spec _ _ _ _ Hf) as [_ ->].
Qed.

Lemma planned_streams dir spec segments rowss selected streams :
  Forall2 (segment_holds dir (ms_schema spec)) segments rowss -> open_streams spec dir (taken segments selected) = Ok streams ->
  streams = taken rowss selected.
Proof.
  intros Hh Hs%map_result_Forall2. pose proof (taken_Forall2 _ _ _ selected Hh) as Ht.
  revert streams Hs. induction Ht as [|meta rows ms rs Hm _ IH]; intros streams Hs; inversion Hs as [|? rows' ? streams' E Hs']; subst; [easy|].
  f_equal; [|now apply IH]. rewrite (holds_reads _ _ _ _ Hm) in E. now injection E as <-.
Qed.

Lemma plan_may_drop s plan :
  plan_ok (ts_options s) (man_segments (ts_manifest s)) plan ->
  may_drop (plan_merge s plan) (man_segments (ts_manifest s)) (plan_indices plan).
Proof.
  intros Hp. unfold may_drop. cbn [plan_merge ms_window ms_drop_tombstones]. destruct (plan_window plan) as [[low high]|] eqn:Ew; [|easy].
  now apply (plan_closed _ _ _ Hp).
Qed.

(** The same rows to a reader, in other segments. *)
Definition after_compact (s : TableStore) (rowss stagedss : list (list StoredRow)) (s' : TableStore) : Prop :=
  keeps s s' /\ ts_memtable s' = ts_memtable s /\
  exists rowss', store_ok s' rowss' stagedss /\ incl (concat rowss') (concat rowss) /\
    (consistent (concat rowss) -> forall k, visible k (concat rowss') = visible k (concat rowss)).

Lemma after_compact_same s s' rowss stagedss :
  store_ok s rowss stagedss -> ts_config s' = ts_config s -> ts_staged s' = ts_staged s -> ts_staged_ids s' = ts_staged_ids s ->
  ts_last_sequence s' = ts_last_sequence s -> ts_next_append_row_id s' = ts_next_append_row_id s -> ts_retired s' = ts_retired s ->
  ts_manifest s' = ts_manifest s -> ts_commit_version s' = ts_commit_version s -> ts_memtable s' = ts_memtable s ->
  (forall id, 0 <= id < man_next_segment_id (ts_manifest s) ->
     omap_get (segment_file_name id) (ts_segments s') = omap_get (segment_file_name id) (ts_segments s)) ->
  after_compact s rowss stagedss s'.
Proof.
  intros Hok E1 E2 E3 E4 E5 E6 E7 E8 E9 Hd. split; [|split; [easy|]].
  - split; try easy. intros _. unfold applied_version. now rewrite E8, E9.
  - exists rowss. split; [|easy]. destruct Hok as [H3 H4 H5 H6 H7 H8 H9].
    split; unfold ts_schema, ts_options in *; rewrite ?E1, ?E2, ?E3, ?E4, ?E6, ?E7, ?E8, ?E9; try easy.
    now apply (files_frame (ts_segments s)); [auto|].
Qed.

(** Files of identifiers handed out are not touched by a merge. *)
Lemma merge_below s rowss stagedss plan io r st :
  store_ok s rowss stagedss ->
  merge_streams (plan_merge s plan) io (fun _ => false) (taken rowss (plan_indices plan)) (man_next_segment_id (ts_manifest s)) (ts_segments s) = (r, st) ->
  forall id, 0 <= id < man_next_segment_id (ts_manifest s) -> omap_get (segment_file_name id) (mg_dir st) = omap_get (segment_file_name id) (ts_segments s).
Proof.
  intros Hok Em id Hid. pose proof (so_files _ _ _ Hok) as Hf. pose proof (fo_next _ _ _ _ _ _ _ _ Hf) as Hnext.
  pose proof (all_known_holds _ _ _ _ (fo_holds _ _ _ _ _ _ _ _ Hf)) as Hh.
  assert (Hsorted : sorted_streams (taken rowss (plan_indices plan))) by exact (taken_sorted (plan_merge s plan) _ _ _ (ts_segments s) Hh).
  apply (merge_streams_extends (plan_merge s plan) io _ _ _ _ _ _ Hsorted (proj2 Hnext) Em). intros i Hi E. apply file_name_inj in E; lia.
Qed.

(** The outputs of a merge in place of the selected segments: the same rows to a reader. *)
Definition merged_into (s : TableStore) (m : Manifest) (dir : Directory) (retired : list RetiredGeneration) (rowss stagedss : list (list StoredRow)) : Prop :=
  exists rowss', files_ok dir (ts_schema s) m (ts_staged s) (ts_staged_ids s) retired rowss' stagedss /\
    incl (concat rowss') (concat rowss) /\
    (consistent (concat rowss) -> forall k, visible k (concat rowss') = visible k (concat rowss)).

Lemma merge_files s rowss stagedss plan io m st :
  store_ok s rowss stagedss -> plan_ok (ts_options s) (man_segments (ts_manifest s)) plan ->
  merge_streams (plan_merge s plan) io (fun _ => false) (taken rowss (plan_indices plan)) (man_next_segment_id (ts_manifest s)) (ts_segments s) = (Ok tt, st) ->
  mg_next_id st < 2 ^ 64 /\ man_next_segment_id (ts_manifest s) <= mg_next_id st /\
  merged_into s (with_segments (left_out (man_segments (ts_manifest s)) (plan_indices plan) ++ mg_outputs st) (with_next_segment_id (mg_next_id st) m))
    (mg_dir st) (ts_retired s ++ [{| rg_manifest := ts_manifest s; rg_paths := map seg_file_name (picked (man_segments (ts_manifest s)) (plan_indices plan)) |}])
    rowss stagedss.
Proof.
  intros Hok Hp Em. pose proof (merge_below _ _ _ _ _ _ _ Hok Em) as Hbelow. pose proof Hok as [H3 [H4 H4'] H5 H6 H7 H8 H9].
  pose proof (fo_holds _ _ _ _ _ _ _ _ H5) as Hk. pose proof (all_known_holds _ _ _ _ Hk) as Hh.
  pose proof (fo_next _ _ _ _ _ _ _ _ H5) as Hnext. set (spec := plan_merge s plan) in *. set (selected := plan_indices plan) in *.
  assert (Hlim : 1 <= ms_row_limit spec).
  { cbn. unfold validate_store_options in H4. destruct (_ =? 0); [easy|]. destruct (_ <? 2); [easy|].
    destruct (opt_max_compaction_rows _ =? 0) eqn:E; [easy|]. lia. }
  assert (Hsorted : sorted_streams (taken rowss selected)) by exact (taken_sorted spec _ _ selected (ts_segments s) Hh).
  assert (Hgood : Forall (good spec) (concat (taken rowss selected))) by exact (taken_good spec _ _ selected (ts_segments s) Hh).
  destruct (merge_streams_result spec io H3 Hlim _ _ _ _ _ (conj (Z.lt_le_incl _ _ (proj1 Hnext)) (proj2 Hnext)) Hsorted Hgood Em)
    as (chunks & [R1 R2 R3 [R4 R4'] R5 R6]).
  destruct (winners_spec (taken rowss selected) Hsorted) as (Hwa & Hwin & _).
  assert (Hca : key_ascending (concat chunks)) by (rewrite R2; now apply key_ascending_filter).
  assert (Hcg : Forall (good spec) (concat chunks)).
  { rewrite R2. apply List.Forall_forall. intros w [Hw _]%filter_In. apply (proj1 (List.Forall_forall _ _) (good_winners spec _ Hsorted Hgood)), Hw. }
  assert (Econ : concat (left_out rowss selected ++ chunks) = concat (after_rows spec rowss selected)).
  { unfold after_rows. rewrite !concat_app, R2. cbn [concat]. now rewrite app_nil_r. }
  pose proof (after_incl spec _ _ selected (ts_segments s) Hh) as Hincl. rewrite <- Econ in Hincl.
  assert (Hcw : Forall (fun r => stored_row_wf r = true) (concat chunks)).
  { apply List.Forall_forall. intros r Hr. apply (known_concat_wf _ _ _ _ Hk), Hincl. rewrite concat_app, in_app_iff. now right. }
  pose proof (len_nonneg (mg_outputs st)) as Hln.
  assert (Hids : Forall (fun meta => 0 <= seg_id meta < 2 ^ 64) (mg_outputs st)).
  { apply Forall_forall. intros meta Hm. apply (list_elem_of_fmap_2 seg_id) in Hm. 
    pose proof (elem_of_seqZ (man_next_segment_id (ts_manifest s)) (len (mg_outputs st)) (seg_id meta)) as Hz. rewrite <- R3 in Hz. apply Hz in Hm. lia. }
  destruct (chunks_hold spec _ _ _ (ty_schema _ _ _ _ _ H9) (ty_block_rows _ _ _ _ _ H9) Hids R1 Hcg Hcw Hca) as [Hch Hcn].
  split; [easy|]. split; [lia|]. exists (left_out rowss selected ++ chunks). split; [|split; [exact Hincl|]].
  - apply (files_replace (ts_segments s) _ _ _ _ _ _ _ _ _ _ (mg_outputs st)); cbn; try easy. intros id Hid _. now apply Hbelow.
  - intros Hc k. rewrite Econ. exact (keeps_visible spec _ _ selected (ts_segments s) Hh (plan_may_drop s plan Hp) k Hc).
Qed.

Lemma run_plan_wp plan io s rowss stagedss :
  store_ok s rowss stagedss -> plan_ok (ts_options s) (man_segments (ts_manifest s)) plan ->
  wp (run_plan plan io) (fun _ => after_compact s rowss stagedss) (after_compact s rowss stagedss) s.
Proof.
  intros Hok Hp. pose proof Hok as [H3 H4 H5 H6 H7 H8 H9]. pose proof (all_known_holds _ _ _ _ (fo_holds _ _ _ _ _ _ _ _ H5)) as Hh.
  unfold run_plan. apply wp_bind, wp_get, wp_bind, wp_lift; [intros streams Hs|now apply after_compact_same].
  apply (planned_streams _ (plan_merge s plan) _ rowss) in Hs as ->; [|exact Hh].
  apply wp_bind, wp_lift; [intros m Em|now apply after_compact_same]. pose proof (typed_next _ _ _ _ _ _ H9 Em) as Htm.
  apply next_generation_inv in Em as (Es & En & _).
  apply wp_bind. unfold wp at 1, merge_planned. destruct (merge_streams _ _ _ _ _ _) as [r st] eqn:Em. rewrite En in Em.
  pose proof (merge_below _ _ _ _ _ _ _ Hok Em) as Hbelow. destruct r as [[]|e]; [|now apply after_compact_same].
  destruct (merge_files s rowss stagedss plan _ m st Hok Hp Em) as (Hlt & Hle & rowss' & Hf & Hi & Hv).
  apply wp_bind, wp_publish; intros dm; [|now apply after_compact_same]. apply wp_bind. unfold replace_manifest. apply wp_modify, wp_ret.
  split; [now split|]. split; [easy|]. exists rowss'. split; [|easy]. split; cbn; try easy.
  pose proof (fo_next _ _ _ _ _ _ _ _ H5). apply typed_segments, typed_next_id; [easy|lia].
Qed.

Lemma holds_row_counts dir schema segments rowss :
  Forall2 (segment_known dir schema) segments rowss -> Forall (fun meta => 0 <= seg_row_count meta) segments.
Proof.
  induction 1 as [|m rows segments rowss Hm _ IH]; constructor; [|easy]. rewrite (holds_count _ _ _ _ (known_holds _ _ _ _ Hm)). apply len_nonneg.
Qed.

Lemma compact_wp io s rowss stagedss :
  store_ok s rowss stagedss -> wp (compact io) (fun _ => after_compact s rowss stagedss) (after_compact s rowss stagedss) s.
Proof.
  intros Hok. unfold compact. apply wp_bind, wp_get, wp_bind, wp_lift; [intros plan Hp|now apply after_compact_same].
  destruct plan as [plan|]; [|now apply wp_ret, after_compact_same].
  apply wp_bind, wp_lift; [intros fits _|now apply after_compact_same]. destruct (negb fits); [now apply wp_ret, after_compact_same|].
  apply run_plan_wp; [easy|]. apply (compaction_plan_ok _ _ _ _ _ _ (holds_row_counts _ _ _ _ (fo_holds _ _ _ _ _ _ _ _ (so_files _ _ _ Hok))) Hp).
Qed.

Lemma after_compact_refl s rowss stagedss : store_ok s rowss stagedss -> after_compact s rowss stagedss s.
Proof. intros Hok. now apply after_compact_same. Qed.

Lemma advance_compaction_wp io s rowss stagedss :
  store_ok s rowss stagedss -> wp (advance_compaction io) (fun _ => after_compact s rowss stagedss) (after_compact s rowss stagedss) s.
Proof.
  intros Hok. unfold advance_compaction. apply wp_bind, wp_get. destruct (_ <=? _); [|now apply wp_ret, after_compact_refl].
  apply wp_bind. eapply wp_mono; [exact (compact_wp io s rowss stagedss Hok)| |easy]. intros o s' Ha. now apply wp_ret.
Qed.

(** ** Reclaiming *)

Lemma remove_file_get name name' d : name' <> name -> omap_get name' (remove_file name d) = omap_get name' d.
Proof.
  intros Hne. unfold remove_file. induction d as [|[k f] d IH]; [easy|]. cbn [List.filter fst]. case_bool_decide as E; cbn [negb omap_get].
  - subst k. destruct (cmp name' name) eqn:Ec; [now apply cmp_eq in Ec|easy..].
  - now destruct (cmp name' k).
Qed.

(** Files a reclaim may not take: the ones not retired, and the ones a pinned manifest names. *)
Definition protected (s : TableStore) (io : reclaim_io) (name : str) : Prop :=
  name ∉ concat (map rg_paths (ts_retired s)) \/ existsb (names_file name) (rc_pinned io) = true.

(** In the middle of a reclaim. *)
Definition reclaiming (s : TableStore) (io : reclaim_io) (s' : TableStore) : Prop :=
  exists d, s' = set_segments d (set_retired [] s) /\
    forall name, protected s io name -> omap_get name d = omap_get name (ts_segments s).

Lemma remove_paths_wp s io paths reclaimed s1 :
  reclaiming s io s1 -> Forall (fun name => ~ protected s io name) paths ->
  wp (remove_paths io paths reclaimed) (fun _ => reclaiming s io) (reclaiming s io) s1.
Proof.
  revert reclaimed s1; induction paths as [|name paths IH]; intros reclaimed s1 Hs Hp; cbn [remove_paths]; [easy|].
  apply Forall_cons in Hp as [Hn Hp]. destruct (rc_remove io name); [|now apply IH|easy]. apply wp_bind, wp_modify, IH; [|easy].
  destruct Hs as (d & -> & Hd). exists (remove_file name d). split; [easy|]. intros name' Hn'. rewrite remove_file_get; [now apply Hd|].
  now intros ->.
Qed.

Lemma reclaim_loop_wp s io gens retained reclaimed s1 :
  reclaiming s io s1 -> incl gens (ts_retired s) -> incl retained (ts_retired s) ->
  wp (reclaim_loop io gens retained reclaimed) (fun '(_, retained) s' => reclaiming s io s' /\ incl retained (ts_retired s)) (reclaiming s io) s1.
Proof.
  revert retained reclaimed s1; induction gens as [|g gens IH]; intros retained reclaimed s1 Hs Hg Hr; cbn [reclaim_loop]; [easy|].
  apply incl_cons_inv in Hg as [Hg Hgs]. destruct (still_read io g) eqn:Es.
  - apply IH; [easy..|]. apply incl_app; [easy|]. now intros x [<-|[]].
  - apply wp_bind. eapply wp_mono; [apply (remove_paths_wp s); [exact Hs|]|intros n s2 Hs2; now apply IH|easy].
    apply List.Forall_forall. intros name Hname [Hn|Hn].
    + apply Hn, list_elem_of_In, in_concat. exists (rg_paths g). split; [now apply in_map|easy].
    + unfold still_read in Es. apply orb_false_iff in Es as [_ Es]. rewrite <- not_true_iff_false, existsb_exists in Es. apply Es. now exists name.
Qed.

Definition after_reclaim (s : TableStore) (io : reclaim_io) (s' : TableStore) : Prop :=
  exists d retained, s' = set_segments d (set_retired retained s) /\ incl retained (ts_retired s) /\
    forall name, protected s io name -> omap_get name d = omap_get name (ts_segments s).

Lemma reclaim_wp io s : wp (reclaim_obsolete_segments io) (fun _ => after_reclaim s io) (after_reclaim s io) s.
Proof.
  unfold reclaim_obsolete_segments. apply wp_bind, wp_get, wp_bind, wp_modify, wp_bind.
  assert (Hweak : forall s', reclaiming s io s' -> after_reclaim s io s').
  { intros s' (d & -> & Hd). exists d, []. easy. }
  eapply wp_mono; [apply (reclaim_loop_wp s)|..|exact Hweak]; [exists (ts_segments s); split; [now destruct s as [? []]|easy]|easy..|].
  intros [reclaimed retained] s1 [(d & -> & Hd) Hi]. apply wp_bind, wp_modify.
  destruct (_ && _); [apply wp_raise|apply wp_ret]; exists d, retained; easy.
Qed.

(** Nothing live or staged is retired. *)
Lemma live_protected s rowss stagedss io meta :
  store_ok s rowss stagedss -> meta ∈ man_segments (ts_manifest s) ++ ts_staged s -> protected s io (seg_file_name meta).
Proof.
  intros Hok Hm. left. intros Hin. destruct (so_files _ _ _ Hok) as [_ _ H3 _ H5 _ H7]. rewrite Forall_forall in H3. rewrite Forall_forall in H7.
  destruct (H7 _ Hin) as (id & E & Hid & _ & Hn). destruct (H3 meta Hm) as [Hb Hnm]. rewrite Hnm in E. apply Hn.
  apply file_name_inj in E; [|lia..]. rewrite <- E. now apply list_elem_of_fmap_2.
Qed.

Lemma files_reclaimed dir dir' schema m staged reserved retired retained rowss stagedss :
  (forall meta, meta ∈ man_segments m ++ staged -> omap_get (seg_file_name meta) dir' = omap_get (seg_file_name meta) dir) ->
  incl retained retired ->
  files_ok dir schema m staged reserved retired rowss stagedss -> files_ok dir' schema m staged reserved retained rowss stagedss.
Proof.
  intros Hd Hi [H3 H4 H5 H6 H7 H8 H9].
  assert (Hf : forall meta rows, meta ∈ man_segments m ++ staged -> segment_known dir schema meta rows -> segment_known dir' schema meta rows).
  { intros meta rows Hm. apply known_frame. now apply Hd. }
  split; try easy.
  - eapply Forall2_with; [|exact H3|exact Hf]. apply Forall_forall. intros x Hx. apply elem_of_app. now left.
  - eapply Forall2_with; [|exact H4|exact Hf]. apply Forall_forall. intros x Hx. apply elem_of_app. now right.
  - rewrite List.Forall_forall in H9 |- *. intros name (paths & (g & <- & Hg)%in_map_iff & Hn)%in_concat. apply H9.
    apply in_concat. exists (rg_paths g). split; [|easy]. now apply in_map, Hi.
Qed.

Lemma after_reclaim_ok s io s' rowss stagedss :
  store_ok s rowss stagedss -> after_reclaim s io s' ->
  store_ok s' rowss stagedss /\ keeps s s' /\ ts_memtable s' = ts_memtable s /\ ts_manifest s' = ts_manifest s.
Proof.
  intros Hok (d & retained & -> & Hi & Hd). split; [|now split].
  pose proof Hok as [H3 H4 H5 H6 H7 H8 H9]. split; try easy. cbn.
  apply (files_reclaimed (ts_segments s) d _ _ _ _ (ts_retired s)); [|easy..]. intros meta Hm. apply Hd. now apply (live_protected s rowss stagedss).
Qed.

(** ** Properties *)

(** A flush never loses or changes a row, whatever filesystem call of it fails: afterwards the store
    is well formed and its rows - those of the segments and of the memtable - are the same, in the same
    order.  When it succeeds it has published every row of the memtable and the memtable is empty. *)
Theorem flush_keeps_rows io s rowss stagedss r s' :
  store_ok s rowss stagedss -> flush io s = (r, s') ->
  exists rowss', store_ok s' rowss' stagedss /\ view s' rowss' = view s rowss /\
    (forall n, r = Ok n -> n = len (memtable_rows s) /\ mt_rows (ts_memtable s') = []).
Proof.
  intros Hok Hf. pose proof (wp_run _ _ _ _ _ _ (flush_wp io s rowss stagedss Hok) Hf) as Hw. destruct r as [n|e].
  - destruct Hw as ((_ & _ & rowss' & Hok' & Hfl) & Em & En). exists rowss'. split; [easy|]. split; [now apply flushed_view|]. now intros m [= <-].
  - destruct Hw as (_ & _ & rowss' & Hok' & Hfl). exists rowss'. split; [easy|]. split; [now apply flushed_view|easy].
Qed.


(** A reclaim removes only files nobody reads: whatever call of it fails, the store stays well formed
    with the same rows, and no file named by a pinned manifest changes, also when the manifest was
    replaced long ago. *)
Theorem reclaim_spares_readers io s rowss stagedss r s' :
  store_ok s rowss stagedss -> reclaim_obsolete_segments io s = (r, s') ->
  store_ok s' rowss stagedss /\ view s' rowss = view s rowss /\
  forall m name, In m (rc_pinned io) -> names_file name m = true -> omap_get name (ts_segments s') = omap_get name (ts_segments s).
Proof.
  intros Hok Hf. pose proof (wp_run _ _ _ _ _ _ (reclaim_wp io s) Hf) as Hw. assert (Ha : after_reclaim s io s') by now destruct r.
  destruct (after_reclaim_ok _ _ _ _ _ Hok Ha) as (Hok' & _ & Em & _). split; [easy|]. split.
  - unfold view, contents, sn_rows, snapshot. cbn. now rewrite Em.
  - destruct Ha as (d & retained & -> & _ & Hd). intros m name Hm Hn. cbn. apply Hd. right. apply existsb_exists. now exists m.
Qed.

End invariant.

(** ** Witnesses *)

Module StoreExamples.
#[local] Existing Instance WalExamples.example_checksum.
#[local] Existing Instance SegmentExamples.no_sketches.
#[local] Existing Instance Memtable.layout64.

#[export] Instance file_column_eq : EqDecision FileColumn.
Proof. solve_decision. Defined.

#[export] Instance segment_file_eq : EqDecision SegmentFile.
Proof. solve_decision. Defined.

(** Files as their decoded columns. *)
#[export, refine] Instance decoded_bytes : FileBytes := {| same_bytes f g := bool_decide (f = g) |}.
Proof. intros f g. apply bool_decide_eq_true_1. Defined.

(** Every filesystem call succeeds. *)
Definition published : publish_io := {| pio_create := true; pio_write := None; pio_rename := true; pio_sync_directory := true |}.
Definition reset : reset_io := {| ri_set_len := true; ri_seek := true; ri_sync := true |}.
Definition flushing : flush_io := {|
  fi_shared := false; fi_segment := SegmentOk; fi_after_segment := true; fi_publish := published; fi_after_manifest := true;
  fi_reset := reset; fi_after_reset := true |}.
Definition compacting : compact_io := {|
  ci_file_size := fun name => Some (if bool_decide (name = segment_file_name 1) then 900 else 500);
  ci_available := Some (2 ^ 40); ci_segment := fun _ => SegmentOk; ci_publish := published |}.
Definition reclaiming (pinned : list Manifest) : reclaim_io := {|
  rc_alive := fun _ => false; rc_pinned := pinned; rc_remove := fun _ => Removed; rc_sync := true |}.
Definition appended : append_io := {|
  io_failpoint := true; io_seek := true; io_write := None; io_sync_data := true; io_set_len := true; io_seek_back := true; io_sync_all := true |}.
Definition ingesting : ingest_io := {|
  in_append := appended;
  in_settle := {| st_flush := flushing; st_compact := compacting; st_reclaim := reclaiming [] |};
  in_stage := {| sg_flush := flushing; sg_reserve := published; sg_segment := fun _ => SegmentOk |};
  in_staged := {| sp_publish := published; sp_remove := fun _ => true; sp_compact := compacting; sp_reclaim := reclaiming [] |} |}.

(** A table without rows. *)
Definition schema : TableSchema := SegmentFileExamples.before.

Definition new_store : TableStore := {|
  ts_config := {| cfg_schema := schema; cfg_options := CompactionExamples.options; cfg_table_id := 0; cfg_truncate_wal_on_flush := true |};
  ts_disk := {| dk_wal := {| wal_bytes := wal_header; wal_synced := len wal_header; wal_sync_policy := Always |};
                dk_manifest := {| dir_manifest := None; dir_temporary := None |}; dk_segments := [] |};
  ts_memtable := memtable_default; ts_manifest := manifest_empty schema; ts_retired := []; ts_last_sequence := 0;
  ts_commit_version := 0; ts_next_append_row_id := 1; ts_staged := []; ts_staged_ids := (0, 0) |}.

Definition note (key version text : Z) : StoredRow := {|
  row_key := [PUInt64 key]; row_version := version; row_deleted := false;
  row_values := [VUInt64 key; VNull; VUtf8 [byte.of_Z text]] |}.

Definition erased (key version : Z) : StoredRow := {|
  row_key := [PUInt64 key]; row_version := version; row_deleted := true; row_values := [VNull; VNull; VNull] |}.

(** Two batches, each flushed: key 1 is rewritten at the version it had. *)
Definition twice (first second : list StoredRow) : TableStore :=
  let s := snd (ingest first ingesting new_store) in
  let s := snd (flush flushing s) in
  let s := snd (ingest second ingesting s) in
  snd (flush flushing s).


End StoreExamples.
