(* ===== verification/Replica.v ===== *)
(** * A replicated table refines its change stream

    The rows a reader of a replicated table sees are those of the changes the table has taken, each
    key at its latest version: across flushes, merges, reclaims and batches stored as segments, and
    whatever filesystem call fails in any of them. *)

From Stdlib Require Import ZArith Lia String Sorted.
From stdpp Require Import prelude list.
From coqutil Require Import Byte.
From S2P Require Import Prelude.
From S2P Require Import Types.
From S2P Require Import Codec.
From S2P Require Import Wal.
From S2P Require Import Memtable.
From S2P Require Import Manifest.
From S2P Require Import Segment.
From S2P Require Import SegmentFile.
From S2P Require Import Merge.
From S2P Require Import Compaction.
From S2P Require Import Snapshot.
From S2P Require Import Store.
From S2P Require Import Metadata.
From S2P Require Import StoreInvariant.

#[local] Open Scope Z_scope.

(** ** The latest version, of lists of rows put together *)

Lemma latest_durable k rows : latest k (map durable_row rows) = durable_row <$> latest k rows.
Proof.
  unfold latest. change None with (durable_row <$> @None StoredRow) at 1. generalize (@None StoredRow) as w.
  induction rows as [|r rows IH]; intros w; [easy|]. cbn [map foldl]. rewrite <- IH. f_equal. unfold latest_step.
  cbn [durable_row row_key]. destruct (oeqb (row_key r) k); [|easy]. unfold better. destruct w as [c|]; cbn; [|easy].
  now destruct (_ <=? _).
Qed.

Lemma visible_durable k rows : visible k (map durable_row rows) = durable_row <$> visible k rows.
Proof. unfold visible. rewrite latest_durable. destruct (latest k rows) as [r|]; [|easy]. cbn. now destruct (row_deleted r). Qed.

(** Newer rows decide for the keys they have. *)
Lemma latest_over k old new :
  (forall a b, In a old -> In b new -> row_key a = row_key b -> row_version a < row_version b) ->
  latest k (old ++ new) = match latest k new with Some w => Some w | None => latest k old end.
Proof.
  intros Hlt. assert (Ha : agrees k new (latest k (old ++ new)) (latest k new)).
  { rewrite latest_app. apply agrees_kept; [apply incl_refl|]. apply agrees_dropped; [|now left].
    intros x Hx Ex y Hy Ey. apply Hlt; [easy..|congruence]. }
  destruct (latest k new) as [w|] eqn:Ew; [now destruct Ha as [[Ha _]|[]]|].
  rewrite latest_app, latest_fold_absent; [easy|]. exact (latest_none _ _ Ew).
Qed.

Definition over (new old : option StoredRow) : option StoredRow := match new with Some w => live (Some w) | None => old end.

Lemma visible_over k old new :
  (forall a b, In a old -> In b new -> row_key a = row_key b -> row_version a < row_version b) ->
  visible k (old ++ new) = over (latest k new) (visible k old).
Proof. intros Hlt. unfold visible. rewrite latest_over by exact Hlt. now destruct (latest k new). Qed.

(** *** Sorting is stable *)

Lemma row_less_key a b : row_less a b = true -> olt (row_key a) (row_key b) \/ (row_key a = row_key b /\ row_version a < row_version b).
Proof.
  unfold row_less. destruct (cmp (row_key a) (row_key b)) eqn:E; [|now left|easy]. apply cmp_eq in E. intros Hv%Z.ltb_lt. now right.
Qed.

Lemma latest_step_swap k w x y : row_less y x = true -> latest_step k (latest_step k w x) y = latest_step k (latest_step k w y) x.
Proof.
  intros Hl%row_less_key. unfold latest_step. destruct (oeqb (row_key x) k) eqn:Ex, (oeqb (row_key y) k) eqn:Ey; try easy.
  apply oeqb_spec in Ex, Ey. destruct Hl as [Hl|[_ Hl]]; [rewrite Ex, Ey in Hl; now apply olt_irrefl in Hl|].
  unfold better. destruct w as [c|].
  - destruct (Z.leb_spec (row_version c) (row_version x)), (Z.leb_spec (row_version c) (row_version y));
      destruct (Z.leb_spec (row_version x) (row_version y)); destruct (Z.leb_spec (row_version y) (row_version x));
      destruct (Z.leb_spec (row_version c) (row_version y)); destruct (Z.leb_spec (row_version c) (row_version x)); try lia; easy.
  - destruct (Z.leb_spec (row_version x) (row_version y)); [lia|]. destruct (Z.leb_spec (row_version y) (row_version x)); [easy|lia].
Qed.

Lemma latest_insert k w x rows : foldl (latest_step k) w (insert_by row_less x rows) = foldl (latest_step k) w (x :: rows).
Proof.
  revert w; induction rows as [|y rows IH]; intros w; [easy|]. cbn [insert_by]. destruct (row_less y x) eqn:E; [|easy].
  cbn [foldl] in *. rewrite IH. now rewrite (latest_step_swap k w x y E).
Qed.

Lemma latest_sort k rows : latest k (sort_by row_less rows) = latest k rows.
Proof.
  unfold latest. generalize (@None StoredRow) as w. induction rows as [|x rows IH]; intros w; [easy|]. cbn [sort_by foldr].
  rewrite latest_insert. cbn [foldl]. apply IH.
Qed.

(** Rows in key order, the later versions of a key after the earlier ones. *)
Definition row_sorted (rows : list StoredRow) : Prop := StronglySorted (fun a b => row_less b a = false) rows.

Lemma row_less_trans a b c : row_less b a = false -> row_less c b = false -> row_less c a = false.
Proof.
  unfold row_less. destruct (cmp (row_key b) (row_key a)) eqn:E1, (cmp (row_key c) (row_key b)) eqn:E2; try easy; intros H1 H2.
  - apply cmp_eq in E1, E2. rewrite E2, E1, cmp_refl. apply Z.ltb_ge in H1, H2. apply Z.ltb_ge. lia.
  - apply cmp_eq in E1. rewrite E1 in E2. now rewrite E2.
  - apply cmp_eq in E2. rewrite <- E2 in E1. now rewrite E1.
  - apply cmp_gt_lt in E1, E2. assert (Hac : olt (row_key a) (row_key c)) by (apply (olt_le_trans _ (row_key b)); [exact E1|now apply olt_le]).
    apply cmp_gt_lt in Hac. now rewrite Hac.
Qed.

Lemma row_less_asym a b : row_less a b = true -> row_less b a = false.
Proof.
  intros [Hl|[Ek Hv]]%row_less_key; unfold row_less.
  - apply cmp_gt_lt in Hl. now rewrite Hl.
  - rewrite Ek, cmp_refl. apply Z.ltb_ge. lia.
Qed.

Lemma sort_by_sorted rows : row_sorted (sort_by row_less rows).
Proof.
  unfold row_sorted. induction rows as [|x rows IH]; [constructor|]. cbn [sort_by foldr]. fold (sort_by row_less rows).
  revert IH. generalize (sort_by row_less rows) as l. clear rows. intros l Hl. induction Hl as [|y l Hl IH Hf]; cbn [insert_by]; [repeat constructor|].
  destruct (row_less y x) eqn:E.
  - constructor; [easy|]. rewrite insert_by_perm. constructor; [now apply row_less_asym|easy].
  - constructor; [now constructor|]. constructor; [easy|]. eapply Forall_impl; [exact Hf|]. intros z Hz. now apply (row_less_trans x y z).
Qed.

(** *** One row for each key of sorted rows *)

Lemma keep_last_app kept rest rows :
  kept <> [] -> foldl keep_last (kept ++ rest) rows = foldl keep_last kept rows ++ rest.
Proof.
  revert kept; induction rows as [|r rows IH]; intros kept Hk; [easy|]. cbn [foldl]. destruct kept as [|p kept]; [easy|].
  unfold keep_last at 2 4. cbn [repeats_key app tail]. destruct (oeqb _ _); rewrite <- (IH (_ :: _)) by easy; easy.
Qed.

(** What is kept so far ends at or before the rows to come. *)
Definition ends_before (kept rows : list StoredRow) : Prop :=
  match kept with p :: _ => Forall (fun r => row_less r p = false) rows | [] => True end.

Lemma repeated_step k w p r : row_key p = row_key r -> row_version p <= row_version r -> latest_step k (latest_step k w p) r = latest_step k w r.
Proof.
  intros Ek Hv. unfold latest_step. rewrite Ek. destruct (oeqb (row_key r) k); [|easy]. unfold better. destruct w as [c|].
  - destruct (Z.leb_spec (row_version c) (row_version p)), (Z.leb_spec (row_version c) (row_version r)); try lia;
      destruct (Z.leb_spec (row_version p) (row_version r)); try lia; try easy; destruct (Z.leb_spec (row_version c) (row_version r)); lia || easy.
  - destruct (Z.leb_spec (row_version p) (row_version r)); [easy|lia].
Qed.

Lemma row_less_false a b : row_less b a = false -> oeqb (row_key a) (row_key b) = false -> olt (row_key a) (row_key b).
Proof.
  unfold row_less. intros Hl He. destruct (cmp (row_key b) (row_key a)) eqn:E.
  - apply cmp_eq in E. rewrite E in He. now rewrite (proj2 (oeqb_spec _ _) eq_refl) in He.
  - easy.
  - now apply cmp_gt_lt in E.
Qed.

Lemma keep_last_spec rows kept :
  row_sorted rows -> ends_before kept rows -> key_ascending (rev kept) ->
  key_ascending (rev (foldl keep_last kept rows)) /\
  (forall k, latest k (rev (foldl keep_last kept rows)) = latest k (rev kept ++ rows)) /\
  incl (rev (foldl keep_last kept rows)) (rev kept ++ rows).
Proof.
  revert kept; induction rows as [|r rows IH]; intros kept Hs He Ha; cbn [foldl].
  { rewrite app_nil_r. split; [easy|]. split; [easy|]. apply incl_refl. }
  apply StronglySorted_inv in Hs as [Hs Hf]. unfold keep_last. destruct kept as [|p kept]; cbn [repeats_key].
  { destruct (IH [r]) as (H1 & H2 & H3); [easy|exact Hf|repeat constructor|]. easy. }
  apply Forall_cons in He as [Hp He]. destruct (oeqb (row_key p) (row_key r)) eqn:Ek; cbn [tail].
  - apply oeqb_spec in Ek. cbn [rev] in Ha. apply key_ascending_app in Ha as (A1 & _ & A3).
    destruct (IH (r :: kept)) as (H1 & H2 & H3); [easy|exact Hf|cbn [rev]|].
    { apply key_ascending_app. split; [easy|]. split; [repeat constructor|]. intros a b Hin [<-|[]]. rewrite <- Ek. apply A3; [easy|now left]. }
    split; [easy|]. split.
    + intros k. rewrite H2. cbn [rev]. rewrite <- !app_assoc, !latest_app. cbn [foldl app]. f_equal. symmetry. apply repeated_step; [easy|].
      unfold row_less in Hp. rewrite Ek, cmp_refl in Hp. now apply Z.ltb_ge in Hp.
    + intros x Hx%H3. cbn [rev] in Hx |- *. rewrite !in_app_iff in *. cbn [In] in *. tauto.
  - destruct (IH (r :: p :: kept)) as (H1 & H2 & H3); [easy|exact Hf|cbn [rev]|].
    { cbn [rev] in Ha. apply key_ascending_app. split; [easy|]. split; [repeat constructor|]. intros a b Hin [<-|[]].
      pose proof (row_less_false p r Hp Ek) as Hpr. apply key_ascending_app in Ha as (_ & _ & A3).
      apply in_app_iff in Hin as [Hin|[<-|[]]]; [|easy]. apply (olt_le_trans _ (row_key p)); [apply A3; [easy|now left]|now apply olt_le]. }
    split; [easy|]. split; [intros k; rewrite H2; cbn [rev]; now rewrite <- app_assoc|].
    intros x Hx%H3. cbn [rev] in Hx |- *. rewrite !in_app_iff in *. cbn [In] in *. tauto.
Qed.

(** A batch sorted and without repeats: the latest row of each of its keys, in key order. *)
Lemma deduplicate_spec rows :
  key_ascending (deduplicate (sort_by row_less rows)) /\
  (forall k, latest k (deduplicate (sort_by row_less rows)) = latest k rows) /\
  incl (deduplicate (sort_by row_less rows)) rows.
Proof.
  destruct (keep_last_spec (sort_by row_less rows) [] (sort_by_sorted rows)) as (H1 & H2 & H3); [easy|constructor|].
  unfold deduplicate. split; [easy|]. split; [intros k; rewrite H2; apply latest_sort|].
  intros x Hx%H3. cbn in Hx. apply list_elem_of_In in Hx. rewrite sort_by_perm in Hx. now apply list_elem_of_In.
Qed.

(** ** Staging a batch as segments *)

Lemma files_reserve dir schema m m' staged reserved retired rowss stagedss :
  files_ok dir schema m staged reserved retired rowss stagedss ->
  man_segments m' = man_segments m -> man_next_segment_id m <= man_next_segment_id m' < 2 ^ 64 ->
  files_ok dir schema m' staged (man_next_segment_id m, man_next_segment_id m') retired rowss stagedss.
Proof.
  intros Hf Es Hn. pose proof Hf as [_ _ Hnamed _ Hnext _ Hret]. pose proof (files_skip _ _ _ m' _ _ _ _ _ Es Hn Hf) as [H3 H4 H5 H6 H7 H8 H9].
  split; try easy; cbn [fst snd].
  - split; [lia|]. split; [lia|]. rewrite Es. eapply Forall_impl; [exact Hnamed|]. intros meta [Hb _]. unfold free_of. cbn. lia.
  - rewrite Es. eapply Forall_impl; [exact Hret|]. intros name (id & E & Hi & _ & Hni). exists id. split; [easy|]. split; [lia|]. split; [|easy].
    unfold free_of. cbn. lia.
Qed.

Lemma free_of_shrink id hi i : free_of (id, hi) i -> free_of (id + 1, hi) i.
Proof. unfold free_of. cbn. lia. Qed.

(** The first reserved identifier used up, with or without a file. *)
Lemma files_shrink dir dir' schema m staged id hi retired rowss stagedss :
  files_ok dir schema m staged (id, hi) retired rowss stagedss -> id < hi -> same_but id dir dir' ->
  files_ok dir' schema m staged (id + 1, hi) retired rowss stagedss.
Proof.
  intros Hf Hlt Hd. pose proof (fo_next _ _ _ _ _ _ _ _ Hf) as Hnx. pose proof (fo_reserved _ _ _ _ _ _ _ _ Hf) as (R1 & R2 & _). cbn in R1, R2.
  apply (files_frame dir dir') in Hf.
  - destruct Hf as [H3 H4 H5 H6 H7 (H8 & H8' & H8'') H9]. split; try easy; cbn [fst snd] in *.
    + split; [lia|]. split; [easy|]. eapply Forall_impl; [exact H8''|]. intros x. apply free_of_shrink.
    + eapply Forall_impl; [exact H9|]. intros name (i & E & Hi & Hr & Hni). exists i. eauto using free_of_shrink.
  - intros i Hi Hr. apply Hd. intros E. apply file_name_inj in E; [|lia..]. subst i. apply Hr. cbn. lia.
Qed.

Lemma files_stage dir dir' schema m staged id hi retired rowss stagedss meta rows :
  files_ok dir schema m staged (id, hi) retired rowss stagedss -> id < hi -> same_but id dir dir' ->
  segment_known dir' schema meta rows -> seg_id meta = id -> seg_file_name meta = segment_file_name id ->
  files_ok dir' schema m (staged ++ [meta]) (id + 1, hi) retired rowss (stagedss ++ [rows]).
Proof.
  intros Hf Hlt Hd Hh Hid Hname. pose proof Hf as [_ _ _ _ Hnx (R1 & R2 & R3) Rt]. cbn [fst snd] in *.
  pose proof (files_shrink _ _ _ _ _ _ _ _ _ _ Hf Hlt Hd) as [H3 H4 H5 H6 H7 (H8 & H8' & H8'') H9]. cbn [fst snd] in *.
  assert (Hp : man_segments m ++ staged ++ [meta] ≡ₚ meta :: man_segments m ++ staged).
  { rewrite app_assoc. symmetry. apply Permutation_cons_append. }
  assert (Hnew : id ∉ map seg_id (man_segments m ++ staged)).
  { intros (x & E & Hx)%list_elem_of_fmap. rewrite Forall_forall in R3. apply (R3 x Hx). cbn. lia. }
  split; try easy.
  - apply Forall2_app; [easy|]. constructor; [easy|constructor].
  - rewrite Hp. constructor; [|easy]. split; [lia|congruence].
  - rewrite Hp. cbn [map]. constructor; [now rewrite Hid|easy].
  - cbn [fst snd]. split; [lia|]. split; [easy|]. rewrite Hp. constructor; [|easy]. unfold free_of. cbn. lia.
  - rewrite Forall_forall in H9 |- *. rewrite Forall_forall in Rt. intros name Hn. destruct (H9 name Hn) as (i & E & Hi & Hr & Hni).
    destruct (Rt name Hn) as (j & E' & Hj & Hfj & _). assert (i = j) as <- by (apply file_name_inj; [lia|lia|congruence]).
    exists i. split; [easy|]. split; [easy|]. split; [easy|]. rewrite Hp. cbn [map]. rewrite elem_of_cons. intros [->|]; [|easy].
    apply Hfj. cbn. lia.
Qed.

Section replica.
Context `{Checksum} `{BlockSketches} `{Layout} `{FileBytes}.

(** A row that fits the schema, of the ranges its types give. *)
Definition sound_row (schema : TableSchema) (r : StoredRow) : Prop := row_fits schema r /\ stored_row_wf r = true.

Lemma sound_rows schema rows :
  Forall (sound_row schema) rows -> Forall (row_fits schema) rows /\ Forall (fun r => stored_row_wf r = true) rows.
Proof. intros Hs. split; (eapply Forall_impl; [exact Hs|]); now intros r []. Qed.

(** Everything of a store but its files and what is staged. *)
Record quiet (s s' : TableStore) : Prop := {
  quiet_config : ts_config s' = ts_config s;
  quiet_memtable : ts_memtable s' = ts_memtable s;
  quiet_version : ts_commit_version s' = ts_commit_version s;
  quiet_sequence : ts_last_sequence s' = ts_last_sequence s;
  quiet_row_id : ts_next_append_row_id s' = ts_next_append_row_id s
}.

#[global] Instance quiet_preorder : PreOrder quiet.
Proof. split; [intros s; now split|]. intros a b c [] []. split; congruence. Qed.

Lemma quiet_applied s s' : quiet s s' -> applied_version s' = applied_version s.
Proof. intros [_ Em Ev _ _]. unfold applied_version. now rewrite Em, Ev. Qed.

(** More staged segments, whose rows satisfy [P]. *)
Definition staged_more (s : TableStore) (rowss stagedss : list (list StoredRow)) (P : list (list StoredRow) -> Prop) (s' : TableStore) : Prop :=
  quiet s s' /\ exists news, store_ok s' rowss (stagedss ++ news) /\ P news.

Lemma quiet_files_ok s s' rowss stagedss rowss' stagedss' :
  store_ok s rowss stagedss -> quiet s s' ->
  typed (ts_config s) (ts_memtable s) (ts_commit_version s) (ts_last_sequence s) (ts_manifest s') ->
  files_ok (ts_segments s') (ts_schema s') (ts_manifest s') (ts_staged s') (ts_staged_ids s') (ts_retired s') rowss' stagedss' ->
  store_ok s' rowss' stagedss'.
Proof.
  intros [H3 H4 H5 H6 H7 H8 _] [E1 E2 E3 E4 _] Ht Hf. unfold ts_schema, ts_options in *.
  split; unfold ts_schema, ts_options; rewrite ?E1, ?E2, ?E3, ?E4; try easy. now rewrite E1 in Hf.
Qed.

Lemma reserve_wp io s rowss stagedss :
  store_ok s rowss stagedss ->
  wp (reserve_staged_ids io)
    (fun _ s' => quiet s s' /\ store_ok s' rowss stagedss /\ fst (ts_staged_ids s') < snd (ts_staged_ids s'))
    (fun s' => quiet s s' /\ store_ok s' rowss stagedss) s.
Proof.
  intros Hok. unfold reserve_staged_ids. apply wp_bind, wp_get. destruct (Z.ltb_spec (fst (ts_staged_ids s)) (snd (ts_staged_ids s))); [easy|].
  pose proof (so_typed _ _ _ Hok) as Ht. pose proof (typed_counters _ _ _ _ _ Ht) as (Hg0 & He0 & _).
  pose proof (fo_next _ _ _ _ _ _ _ _ (so_files _ _ _ Hok)) as Hn0.
  apply wp_bind, wp_lift; [intros g [Eg Hg]%next_of_inv|easy]. apply wp_bind, wp_lift; [intros next [En Hlt]%next_of_inv|easy].
  apply wp_bind, wp_publish; intros d.
  - apply wp_modify. split; [now split|]. cbn. unfold STAGED_SEGMENT_IDS in *. split; [|lia].
    apply (quiet_files_ok s _ rowss stagedss _ _ Hok); [now split|cbn; apply typed_next_id; [apply typed_generation; [easy|lia|easy]|lia]|].
    cbn. apply (files_reserve _ _ (ts_manifest s) (with_next_segment_id next (with_generation g (man_epoch (ts_manifest s)) (ts_manifest s))) _ (ts_staged_ids s));
      [apply Hok|easy|cbn; lia].
  - split; [now split|]. apply (quiet_files_ok s _ rowss stagedss _ _ Hok); [now split|apply Hok|]. apply Hok.
Qed.

Lemma stage_segment_wp rows io s rowss stagedss :
  store_ok s rowss stagedss -> Forall (sound_row (ts_schema s)) rows -> key_ascending rows ->
  wp (stage_segment rows io)
    (fun _ => staged_more s rowss stagedss (fun news => concat news = map durable_row rows))
    (staged_more s rowss stagedss (fun news => news = [])) s.
Proof.
  intros Hok Hf Ha. unfold stage_segment. destruct rows as [|r0 rows0]; [apply wp_ret; split; [easy|]; exists []; now rewrite app_nil_r|].
  set (rows := r0 :: rows0) in *. apply wp_bind. eapply wp_mono; [exact (reserve_wp io s rowss stagedss Hok)| |].
  2: { intros s' [Hq Hok']. split; [easy|]. exists []. now rewrite app_nil_r. }
  intros [] s1 (Hq1 & Hok1 & Hlt). apply wp_bind, wp_get. destruct (ts_staged_ids s1) as [id hi] eqn:Eids. cbn [fst snd] in *.
  apply wp_bind, wp_modify, wp_bind. pose proof (so_files _ _ _ Hok1) as Hfiles. rewrite Eids in Hfiles.
  assert (Es : ts_schema s1 = ts_schema s) by (unfold ts_schema; now rewrite (quiet_config _ _ Hq1)).
  pose proof (so_typed _ _ _ Hok1) as Ht1. apply sound_rows in Hf as [Hf Hw].
  pose proof (fo_next _ _ _ _ _ _ _ _ Hfiles) as Hnx. pose proof (fo_reserved _ _ _ _ _ _ _ _ Hfiles) as (Hr0 & Hr1 & _). cbn in Hr0, Hr1.
  apply wp_write_rows; [apply Hok1|apply Ht1|apply Ht1|lia|cbn; unfold ts_schema in *; cbn; now rewrite Es|easy|easy|
    intros d meta Hd Hh Hid Hn; apply wp_modify|intros d Hd].
  - split; [transitivity s1; [easy|now split]|]. exists [map durable_row rows]. cbn [concat]. rewrite app_nil_r. split; [|easy].
    apply (quiet_files_ok s1 _ rowss stagedss _ _ Hok1); [now split|easy|]. cbn. now apply (files_stage (ts_segments s1)).
  - split; [transitivity s1; [easy|now split]|]. exists []. rewrite app_nil_r. split; [|easy].
    apply (quiet_files_ok s1 _ rowss stagedss _ _ Hok1); [now split|easy|]. cbn. now apply (files_shrink (ts_segments s1)).
Qed.

(** The pieces of a batch, with any [I] that each of them keeps and [E] that a failure leaves; both know
    what is staged so far. *)
Section pieces.
Variables (schema : TableSchema) (io : stage_io) (I E : list (list StoredRow) -> TableStore -> Prop).
Hypothesis piece_ok : forall rows news s, I news s -> Forall (sound_row schema) rows -> key_ascending rows ->
  wp (stage_segment rows io) (fun _ s' => exists more, concat more = map durable_row rows /\ I (news ++ more) s') (E news) s.

Lemma stage_pieces_rule rows piece bytes news s :
  I news s -> row_sorted rows -> ends_before piece rows -> key_ascending (rev piece) -> Forall (sound_row schema) (rev piece ++ rows) ->
  wp (stage_pieces rows piece bytes io)
    (fun _ s' => exists more, concat more = map durable_row (rev (foldl keep_last piece rows)) /\ I (news ++ more) s')
    (fun s' => exists more, concat more `prefix_of` map durable_row (rev (foldl keep_last piece rows)) /\ E (news ++ more) s') s.
Proof.
  revert piece bytes news s; induction rows as [|r rows IH]; intros piece bytes news s HI Hs He Ha Hf; cbn [stage_pieces foldl].
  { rewrite app_nil_r in *. eapply wp_mono; [now apply (piece_ok (rev piece) news s)|easy|].
    intros s' HE. exists []. rewrite app_nil_r. split; [apply prefix_nil|easy]. }
  apply StronglySorted_inv in Hs as [Hs Hlt].
  change (keep_last piece r) with (if repeats_key piece r then r :: tail piece else r :: piece).
  assert (Hr : sound_row schema r) by (apply Forall_app in Hf as [_ [Hr _]%Forall_cons]; easy).
  destruct (repeats_key piece r) eqn:Ek.
  - destruct piece as [|p piece]; [easy|]. cbn [repeats_key tail] in *. apply oeqb_spec in Ek. cbn [rev] in Ha, Hf.
    apply key_ascending_app in Ha as (A1 & _ & A3). rewrite <- app_assoc in Hf. apply Forall_app in Hf as [F1 [_ [_ F2]%Forall_cons]%Forall_cons].
    apply (IH (r :: piece) bytes news s); cbn [rev]; [easy|easy|exact Hlt| |].
    + apply key_ascending_app. split; [easy|]. split; [repeat constructor|]. intros a b Hin [<-|[]]. rewrite <- Ek. apply A3; [easy|now left].
    + apply Forall_app. split; [apply Forall_app; split; [easy|now constructor]|easy].
  - assert (Hnext : key_ascending (rev piece ++ [r])).
    { apply key_ascending_app. split; [easy|]. split; [repeat constructor|]. intros a b Hin [<-|[]]. destruct piece as [|p piece]; [easy|].
      apply Forall_cons in He as [Hp _]. pose proof (row_less_false p r Hp Ek) as Hpr. cbn [rev] in Hin, Ha.
      apply key_ascending_app in Ha as (_ & _ & A3). apply in_app_iff in Hin as [Hin|[<-|[]]]; [|easy].
      apply (olt_le_trans _ (row_key p)); [apply A3; [easy|now left]|now apply olt_le]. }
    destruct (STAGED_SEGMENT_BYTES <=? bytes).
    2: { apply (IH (r :: piece) (sat_add 64 bytes (estimated_bytes r)) news s); cbn [rev]; [easy|easy|exact Hlt|exact Hnext|now rewrite <- app_assoc]. }
    apply Forall_app in Hf as [F1 F2]. apply wp_bind. eapply wp_mono; [now apply (piece_ok (rev piece) news s)| |].
    2: { intros s' HE. exists []. rewrite app_nil_r. split; [apply prefix_nil|easy]. }
    intros [] s1 (more & Em & HI1).
    assert (Ek' : map durable_row (rev (foldl keep_last (r :: piece) rows)) = concat more ++ map durable_row (rev (foldl keep_last [r] rows))).
    { change (r :: piece) with ([r] ++ piece). now rewrite keep_last_app, rev_app_distr, map_app, Em by easy. }
    rewrite Ek'. eapply wp_mono; [apply (IH [r] _ (news ++ more) s1); [easy|easy|exact Hlt|repeat constructor|easy]| |].
    + intros [] s2 (more2 & E2 & HI2). exists (more ++ more2). rewrite concat_app, E2, app_assoc. easy.
    + intros s2 (more2 & E2 & HE2). exists (more ++ more2). rewrite concat_app, app_assoc. split; [now apply prefix_app|easy].
Qed.
End pieces.

Lemma stage_pieces_wp rows piece bytes io s rowss stagedss :
  store_ok s rowss stagedss -> row_sorted rows -> ends_before piece rows -> key_ascending (rev piece) ->
  Forall (sound_row (ts_schema s)) (rev piece ++ rows) ->
  wp (stage_pieces rows piece bytes io)
    (fun _ => staged_more s rowss stagedss (fun news => concat news = map durable_row (rev (foldl keep_last piece rows))))
    (staged_more s rowss stagedss (fun news => concat news `prefix_of` map durable_row (rev (foldl keep_last piece rows)))) s.
Proof.
  intros Hok Hs He Ha Hf. set (I := fun news s' => quiet s s' /\ store_ok s' rowss (stagedss ++ news)).
  eapply wp_mono; [apply (stage_pieces_rule (ts_schema s) io I I); [|split; [easy|now rewrite app_nil_r]|easy..]| |].
  - intros rows' news s1 [Hq1 Hok1] Hf1 Ha1. assert (Es : ts_schema s1 = ts_schema s) by (unfold ts_schema; now rewrite (quiet_config _ _ Hq1)).
    eapply wp_mono; [apply (stage_segment_wp rows' io s1 rowss (stagedss ++ news)); [easy|now rewrite Es|easy]| |].
    + intros [] s2 (Hq2 & more & Hok2 & Em). exists more. split; [easy|]. split; [now transitivity s1|now rewrite app_assoc].
    + intros s2 (Hq2 & more & Hok2 & ->). rewrite app_nil_r in Hok2. split; [now transitivity s1|easy].
  - intros [] s' (more & Em & Hq & Hok'). split; [easy|]. now exists more.
  - intros s' (more & Em & Hq & Hok'). split; [easy|]. now exists more.
Qed.

(** ** The simulation *)

(** The specification of a table is the list of changes it has taken; a read takes the latest version
    of its key.  The highest version taken: *)
Definition spec_applied (taken : list StoredRow) : Z := foldl Z.max 0 (map row_version taken).

(** A store at the changes [taken], with the changes [pending] staged and not visible.  The memtable's
    rows are newer than every segment's. *)
Record replica_ok (s : TableStore) (rowss stagedss : list (list StoredRow)) (taken pending : list StoredRow) : Prop := {
  ro_store : store_ok s rowss stagedss;
  ro_plain : opt_transactional (ts_options s) = false;
  ro_consistent : consistent (concat rowss);
  ro_floor : exists floor, floor <= applied_version s /\ (forall r, In r (concat rowss) -> row_version r <= floor) /\
               (forall r, In r (memtable_rows s) -> floor < row_version r);
  ro_staged : (forall r, In r pending -> applied_version s < row_version r) /\ consistent (concat stagedss) /\
              incl (concat stagedss) pending;
  ro_settled : ts_staged s <> [] -> memtable_rows s = [];
  ro_visible : forall k, visible k (view s rowss) = visible k taken;
  ro_pending : forall k, latest k (concat stagedss) = latest k pending;
  ro_applied : applied_version s = spec_applied taken
}.

Definition refines (s : TableStore) (taken pending : list StoredRow) : Prop :=
  exists rowss stagedss, replica_ok s rowss stagedss taken pending.

Lemma memtable_applied s r : memtable_shape (ts_memtable s) -> In r (memtable_rows s) -> row_version r <= applied_version s.
Proof.
  intros Hm ([k x] & E & Hx)%in_map_iff. cbn in E. subst x. pose proof (sh_versions _ Hm) as Hv. rewrite List.Forall_forall in Hv.
  destruct (Hv _ Hx) as (lo & hi & _ & Eh & Hb). unfold applied_version. rewrite Eh. cbn in *. lia.
Qed.

Lemma consistent_app old new floor :
  consistent old -> consistent new -> (forall r, In r old -> row_version r <= floor) -> (forall r, In r new -> floor < row_version r) ->
  consistent (old ++ new).
Proof.
  intros Ho Hn Hlo Hhi a b [Ha|Ha]%in_app_iff [Hb|Hb]%in_app_iff Ek Ev.
  - now apply Ho.
  - specialize (Hlo a Ha). specialize (Hhi b Hb). lia.
  - specialize (Hlo b Hb). specialize (Hhi a Ha). lia.
  - now apply Hn.
Qed.

Lemma ascending_consistent rows : key_ascending rows -> consistent rows.
Proof. intros Ha a b Hra Hrb Ek _. now apply (key_ascending_unique rows). Qed.

Lemma in_durable rows r : In r (map durable_row rows) -> exists x, In x rows /\ row_key r = row_key x /\ row_version r = row_version x.
Proof. intros (x & <- & Hx)%in_map_iff. now exists x. Qed.

Lemma flush_replica s s' rowss rowss' stagedss taken pending :
  replica_ok s rowss stagedss taken pending -> keeps s s' -> store_ok s' rowss' stagedss -> flushed_or_not s s' rowss rowss' ->
  replica_ok s' rowss' stagedss taken pending.
Proof.
  intros [R1 R2 R3 (f & F1 & F2 & F3) (R5 & R5' & R5'') R6 R7 R8 R9] Hk Hok Hf. pose proof Hk as [K1 [K2 K2'] _ _ K5].
  assert (Et : opt_transactional (ts_options s') = false) by (unfold ts_options in *; now rewrite K1). specialize (K5 R2).
  split; rewrite ?K5, ?K2; try easy; [| | |intros k; now rewrite (flushed_view _ _ _ _ Hf)].
  - destruct Hf as [[-> _]|(-> & _)]; [easy|]. rewrite concat_app. cbn [concat]. rewrite app_nil_r. apply (consistent_app _ _ f); [easy| |easy|].
    + apply ascending_consistent, durable_ascending, memtable_rows_ascending, R1.
    + intros r (x & Hx & _ & ->)%in_durable. now apply F3.
  - destruct Hf as [[-> Em]|(-> & Em & _)]; [exists f; split; [easy|]; split; [easy|]; unfold memtable_rows; now rewrite Em|].
    exists (applied_version s). split; [lia|]. split; [|unfold memtable_rows; now rewrite Em].
    intros r. rewrite concat_app, in_app_iff. cbn [concat]. rewrite app_nil_r. intros [Hr|Hr]; [specialize (F2 r Hr); lia|].
    apply in_durable in Hr as (x & Hx & _ & ->). now apply memtable_applied, Hx; apply R1.
  - destruct Hf as [[_ Em]|(_ & Em & _)]; unfold memtable_rows in *; now rewrite Em.
Qed.

Lemma flush_refines s s' rowss stagedss taken pending :
  replica_ok s rowss stagedss taken pending -> after_flush s rowss stagedss s' -> refines s' taken pending.
Proof. intros Hr (Hk & _ & rowss' & Hok & Hf). exists rowss', stagedss. now apply (flush_replica s s' rowss). Qed.

Lemma view_over s rowss floor k :
  (forall r, In r (concat rowss) -> row_version r <= floor) -> (forall r, In r (memtable_rows s) -> floor < row_version r) ->
  visible k (view s rowss) = over (latest k (map durable_row (memtable_rows s))) (visible k (map durable_row (concat rowss))).
Proof.
  intros Hlo Hhi. unfold view, contents. rewrite map_app. apply visible_over.
  intros a b (x & Hx & _ & ->)%in_durable (y & Hy & _ & ->)%in_durable _. specialize (Hlo x Hx). specialize (Hhi y Hy). lia.
Qed.

Lemma compact_replica s s' rowss rowss' stagedss taken pending :
  replica_ok s rowss stagedss taken pending -> keeps s s' -> ts_memtable s' = ts_memtable s -> store_ok s' rowss' stagedss ->
  incl (concat rowss') (concat rowss) -> (consistent (concat rowss) -> forall k, visible k (concat rowss') = visible k (concat rowss)) ->
  replica_ok s' rowss' stagedss taken pending.
Proof.
  intros [R1 R2 R3 (f & F1 & F2 & F3) (R5 & R5' & R5'') R6 R7 R8 R9] Hk Em Hok Hi Hv. pose proof Hk as [K1 [K2 K2'] _ _ K5].
  assert (Et : opt_transactional (ts_options s') = false) by (unfold ts_options in *; now rewrite K1). specialize (K5 R2).
  assert (Emr : memtable_rows s' = memtable_rows s) by (unfold memtable_rows; now rewrite Em).
  assert (F2' : forall r, In r (concat rowss') -> row_version r <= f) by (intros r Hr; now apply F2, Hi).
  split; rewrite ?K5, ?K2, ?Emr; try easy.
  - now apply (consistent_incl (concat rowss)).
  - exists f. easy.
  - intros k. rewrite <- R7, (view_over s' rowss' f), (view_over s rowss f), Emr by (easy || now rewrite Emr). f_equal.
    now rewrite !visible_durable, Hv.
Qed.

Lemma compact_refines s s' rowss stagedss taken pending :
  replica_ok s rowss stagedss taken pending -> after_compact s rowss stagedss s' -> refines s' taken pending.
Proof. intros Hr (Hk & Em & rowss' & Hok & Hi & Hv). exists rowss', stagedss. now apply (compact_replica s s' rowss). Qed.

Lemma reclaim_replica s s' io rowss stagedss taken pending :
  replica_ok s rowss stagedss taken pending -> after_reclaim s io s' -> replica_ok s' rowss stagedss taken pending.
Proof.
  intros [R1 R2 R3 R4 R5 R6 R7 R8 R9] Ha. destruct (after_reclaim_ok _ _ _ _ _ R1 Ha) as (Hok & [K1 [K2 K2'] _ _ K5] & Em & Emf).
  specialize (K5 R2). assert (Emr : memtable_rows s' = memtable_rows s) by (unfold memtable_rows; now rewrite Em).
  split; rewrite ?K5, ?K2, ?Emr; try easy.
  - unfold ts_options in *. now rewrite K1.
  - intros k. rewrite <- R7. unfold view, contents, sn_rows, snapshot. cbn. now rewrite Em.
Qed.

(** Steps that no reader notices. *)
Definition unnoticed {A} (m : Table A) : Prop :=
  forall s taken pending, refines s taken pending -> wp m (fun _ s' => refines s' taken pending) (fun s' => refines s' taken pending) s.

Lemma unnoticed_bind {A B} (m : Table A) (f : A -> Table B) : unnoticed m -> (forall a, unnoticed (f a)) -> unnoticed (m ≫= f).
Proof. intros Hm Hf s taken pending Hr. apply wp_bind. eapply wp_mono; [exact (Hm s taken pending Hr)| |easy]. intros a s' Hr'. now apply Hf. Qed.

Lemma unnoticed_ret {A} (a : A) : unnoticed (mret a).
Proof. intros s taken pending Hr. now apply wp_ret. Qed.

Lemma flush_unnoticed io : unnoticed (flush io).
Proof.
  intros s taken pending (rowss & stagedss & Hr). eapply wp_mono; [exact (flush_wp io s rowss stagedss (ro_store _ _ _ _ _ Hr))|..].
  - intros n s' (Ha & _). exact (flush_refines _ _ _ _ _ _ Hr Ha).
  - intros s' Ha. exact (flush_refines _ _ _ _ _ _ Hr Ha).
Qed.

Lemma compact_unnoticed io : unnoticed (compact io).
Proof.
  intros s taken pending (rowss & stagedss & Hr). eapply wp_mono; [exact (compact_wp io s rowss stagedss (ro_store _ _ _ _ _ Hr))|..].
  - intros n s' Ha. exact (compact_refines _ _ _ _ _ _ Hr Ha).
  - intros s' Ha. exact (compact_refines _ _ _ _ _ _ Hr Ha).
Qed.

Lemma advance_unnoticed io : unnoticed (advance_compaction io).
Proof.
  intros s taken pending (rowss & stagedss & Hr). eapply wp_mono; [exact (advance_compaction_wp io s rowss stagedss (ro_store _ _ _ _ _ Hr))|..].
  - intros n s' Ha. exact (compact_refines _ _ _ _ _ _ Hr Ha).
  - intros s' Ha. exact (compact_refines _ _ _ _ _ _ Hr Ha).
Qed.

Lemma reclaim_unnoticed io : unnoticed (reclaim_obsolete_segments io).
Proof.
  intros s taken pending (rowss & stagedss & Hr). eapply wp_mono; [exact (reclaim_wp io s)|..].
  - intros n s' Ha. exists rowss, stagedss. exact (reclaim_replica _ _ _ _ _ _ _ Hr Ha).
  - intros s' Ha. exists rowss, stagedss. exact (reclaim_replica _ _ _ _ _ _ _ Hr Ha).
Qed.

Lemma settle_unnoticed io : unnoticed (settle io).
Proof.
  unfold settle. apply unnoticed_bind; [apply flush_unnoticed|intros _]. apply unnoticed_bind; [apply advance_unnoticed|intros _].
  apply unnoticed_bind; [apply reclaim_unnoticed|intros _]. apply unnoticed_ret.
Qed.

(** ** Taking a batch *)

Lemma latest_memtable k (m : list (PrimaryKey * StoredRow)) : omap_sorted m -> keyed m -> latest k (map snd m) = omap_get k m.
Proof.
  intros Hs Hk. destruct (latest k (map snd m)) as [w|] eqn:E.
  - apply latest_in in E as [Hw <-]. symmetry. now apply keyed_get.
  - destruct (omap_get k m) as [r|] eqn:Eg; [|easy]. apply omap_get_In in Eg. pose proof (latest_none _ _ E r (in_map snd _ _ Eg)) as Hn.
    unfold keyed in Hk. rewrite List.Forall_forall in Hk. pose proof (Hk _ Eg) as Ek. now destruct Hn.
Qed.

Lemma insert_get m r u k :
  omap_get k (mt_rows (insert m r u).2) = latest_step k (omap_get k (mt_rows m)) r.
Proof.
  destruct (insert_cases m r u) as [(c & Eg & Hv & ->)|(Hle & m' & -> & Er & _)]; cbn [snd]; unfold latest_step, better.
  - destruct (oeqb (row_key r) k) eqn:E; [|easy]. apply oeqb_spec in E as <-. rewrite Eg. now rewrite (proj2 (Z.leb_gt _ _) Hv).
  - rewrite Er. destruct (oeqb (row_key r) k) eqn:E.
    + apply oeqb_spec in E as <-. rewrite omap_get_insert_eq. destruct (omap_get (row_key r) (mt_rows m)) as [c|] eqn:Eg; [|easy].
      now rewrite (proj2 (Z.leb_le _ _) (Hle c eq_refl)).
    + rewrite omap_get_insert_ne; [easy|]. intros Ek. apply not_true_iff_false in E. apply E, oeqb_spec. congruence.
Qed.

Lemma insert_newest m r u :
  memtable_shape m -> 0 <= row_version r ->
  default 0 (mt_newest_version (insert m r u).2) = Z.max (default 0 (mt_newest_version m)) (row_version r).
Proof.
  intros Hm Hv. destruct (insert_cases m r u) as [(c & Eg & Hlt & ->)|(_ & m' & -> & _ & _ & En & _)]; cbn [snd].
  - apply omap_get_In in Eg. pose proof (sh_versions _ Hm) as Hvs. rewrite List.Forall_forall in Hvs.
    destruct (Hvs _ Eg) as (lo & hi & _ & -> & Hb). cbn in *. lia.
  - rewrite En. unfold opt_max. destruct (mt_newest_version m); cbn; lia.
Qed.

Lemma insert_rows_spec rows m n :
  memtable_shape m -> Forall (fun r => 0 <= row_version r) rows ->
  memtable_shape (insert_rows m rows n).2 /\
  (forall k, omap_get k (mt_rows (insert_rows m rows n).2) = foldl (latest_step k) (omap_get k (mt_rows m)) rows) /\
  default 0 (mt_newest_version (insert_rows m rows n).2) = foldl Z.max (default 0 (mt_newest_version m)) (map row_version rows).
Proof.
  revert m n; induction rows as [|r rows IH]; intros m n Hm Hv; [easy|]. apply Forall_cons in Hv as [Hr Hv]. cbn [insert_rows map foldl].
  pose proof (insert_get m r true) as Hg. pose proof (insert_newest m r true Hm Hr) as Hn.
  destruct (insert m r true) as [b m1] eqn:Ei. cbn [snd] in *.
  destruct (IH m1 (n + Z.b2z b)) as (H3 & H4 & H5); [now apply (insert_shape m r true b)|easy|]. split; [easy|]. split.
  - intros k. now rewrite H4, Hg.
  - now rewrite H5, Hn.
Qed.

Lemma foldl_max_max a b vs : Z.max a (foldl Z.max b vs) = foldl Z.max (Z.max a b) vs.
Proof. revert b; induction vs as [|v vs IH]; intros b; [easy|]. cbn [foldl]. rewrite IH. f_equal. lia. Qed.

Lemma spec_applied_app taken new : spec_applied (taken ++ new) = foldl Z.max (spec_applied taken) (map row_version new).
Proof. unfold spec_applied. now rewrite map_app, foldl_app. Qed.

Lemma map_version_durable rows : map row_version (map durable_row rows) = map row_version rows.
Proof. rewrite map_map. now apply map_ext. Qed.

Lemma spec_applied_ge taken r : In r taken -> row_version r <= spec_applied taken.
Proof. intros Hr. apply foldl_max_ge. right. now apply in_map. Qed.

Lemma pending_nil (pending : list StoredRow) : (forall k, latest k [] = latest k pending) -> pending = [].
Proof. intros Hp. destruct pending as [|r l]; [easy|]. now destruct (latest_none _ _ (eq_sym (Hp (row_key r))) r (or_introl eq_refl)). Qed.

Lemma foldl_max_u64 a vs : 0 <= a < 2 ^ 64 -> Forall (fun v => 0 <= v < 2 ^ 64) vs -> 0 <= foldl Z.max a vs < 2 ^ 64.
Proof. revert a; induction vs as [|v vs IH]; intros a Ha Hv; [easy|]. apply Forall_cons in Hv as [Hv Hvs]. cbn [foldl]. apply IH; [lia|easy]. Qed.

Lemma wf_versions rows : Forall (fun r => stored_row_wf r = true) rows -> Forall (fun v => 0 <= v < 2 ^ 64) (map row_version rows).
Proof.
  intros Hw. apply Forall_fmap. eapply Forall_impl; [exact Hw|]. intros r [_ Hr]%andb_prop. now apply in_unsigned_spec in Hr.
Qed.

(** The rows of a batch into the memtable. *)
Lemma insert_replica s rowss stagedss taken pending rows sequence n :
  replica_ok s rowss stagedss taken pending -> ts_staged s = [] -> Forall (sound_row (ts_schema s)) rows -> 0 <= sequence < 2 ^ 64 ->
  (forall r, In r rows -> applied_version s < row_version r) ->
  replica_ok (set_last_sequence sequence (set_memtable (insert_rows (ts_memtable s) rows n).2 s)) rowss stagedss (taken ++ map durable_row rows) pending.
Proof.
  intros [R1 R2 R3 (f & F1 & F2 & F3) R5 R6 R7 R8 R9] Est [Hfit Hwf]%sound_rows Hseq Hnew. pose proof R1 as [H3 H4 H5 H6 H7 H8 H9].
  assert (Happ : 0 <= applied_version s) by (unfold applied_version; lia).
  destruct (insert_rows_spec rows (ts_memtable s) n H6) as (M1 & M2 & M3);
    [apply List.Forall_forall; intros r Hr; specialize (Hnew r Hr); lia|]. set (m' := (insert_rows (ts_memtable s) rows n).2) in *.
  set (s1 := set_last_sequence sequence (set_memtable m' s)).
  assert (Estd : stagedss = []) by (pose proof (fo_staged _ _ _ _ _ _ _ _ H5) as Hs; rewrite Est in Hs; now apply Forall2_nil_inv_l in Hs).
  assert (Hlatest : forall k, latest k (memtable_rows s1) = latest k (memtable_rows s ++ rows)).
  { intros k. unfold memtable_rows. cbn. rewrite latest_memtable, M2, latest_app, latest_memtable by (apply M1 || apply H6). easy. }
  assert (Hin : forall r, In r (memtable_rows s1) -> In r (memtable_rows s ++ rows)).
  { intros r Hr. unfold memtable_rows in Hr. apply keyed_get in Hr; [|apply M1..]. rewrite <- latest_memtable in Hr by apply M1.
    change (latest (row_key r) (memtable_rows s1) = Some r) in Hr. rewrite Hlatest in Hr. now apply latest_in in Hr. }
  assert (Ha1 : applied_version s1 = foldl Z.max (applied_version s) (map row_version rows)).
  { unfold applied_version. cbn. fold m'. rewrite M3. apply foldl_max_max. }
  assert (Hge : applied_version s <= applied_version s1) by (rewrite Ha1; apply foldl_max_ge; now left).
  assert (F3' : forall r, In r (memtable_rows s1) -> f < row_version r).
  { intros r [Hr|Hr]%Hin%in_app_iff; [now apply F3|]. specialize (Hnew r Hr). lia. }
  split; try easy.
  - split; try easy; cbn; [apply List.Forall_forall; intros r [Hr|Hr]%Hin%in_app_iff; rewrite List.Forall_forall in H7, Hfit; auto|].
    destruct H9 as [T1 T2 T3 T4 T5 T6 T7 T8]. split; try easy.
    + apply List.Forall_forall. intros r [Hr|Hr]%Hin%in_app_iff; rewrite List.Forall_forall in T3, Hwf; auto.
    + intros v Ev. rewrite Ev in M3. change (default 0 (Some v)) with v in M3. rewrite M3. apply foldl_max_u64.
      * destruct (mt_newest_version (ts_memtable s)); cbn; [now apply T4|lia].
      * now apply wf_versions.
  - exists f. split; [lia|]. easy.
  - rewrite Estd in R8 |- *. rewrite (pending_nil pending R8). easy.
  - intros k. rewrite (view_over s1 rowss f) by easy. rewrite visible_over.
    + rewrite <- R7, (view_over s rowss f) by easy. rewrite !latest_durable, Hlatest, latest_over.
      * now destruct (latest k rows), (latest k (memtable_rows s)).
      * intros a b Ha Hb _. pose proof (memtable_applied s a H6 Ha). specialize (Hnew b Hb). lia.
    + intros a b Ha (x & Hx & _ & ->)%in_durable _. apply spec_applied_ge in Ha. specialize (Hnew x Hx). lia.
  - rewrite spec_applied_app, map_version_durable, <- R9. exact Ha1.
Qed.

(** ** Staging and publishing a batch *)

Lemma better_assoc w a b : better (better w a) b = match better (Some a) b with Some r => better w r | None => w end.
Proof.
  unfold better. destruct w as [c|]; [|now destruct (_ <=? _)].
  destruct (Z.leb_spec (row_version c) (row_version a)), (Z.leb_spec (row_version a) (row_version b));
    try destruct (Z.leb_spec (row_version c) (row_version b)); try lia; try easy;
    destruct (Z.leb_spec (row_version c) (row_version a)); lia || easy.
Qed.

Lemma latest_from k w rows : foldl (latest_step k) w rows = match latest k rows with Some r => better w r | None => w end.
Proof.
  induction rows as [|r rows IH] using rev_ind; [easy|]. rewrite latest_app, foldl_app. cbn [foldl]. rewrite IH. unfold latest_step.
  destruct (oeqb (row_key r) k); [|easy]. destruct (latest k rows) as [x|]; [|easy]. apply better_assoc.
Qed.

(** Lists with the same latest versions follow others alike. *)
Lemma latest_same_app k a a' b b' : latest k a = latest k a' -> latest k b = latest k b' -> latest k (a ++ b) = latest k (a' ++ b').
Proof. intros Ea Eb. rewrite !latest_app, (latest_from k _ b), (latest_from k _ b'). now rewrite Ea, Eb. Qed.

Lemma stage_refines s s' rowss stagedss taken pending news rows :
  replica_ok s rowss stagedss taken pending -> quiet s s' -> store_ok s' rowss (stagedss ++ news) -> memtable_rows s = [] ->
  (forall r, In r rows -> applied_version s < row_version r) ->
  incl (concat news) rows -> (forall k, latest k (concat news) = latest k rows) -> consistent (concat stagedss ++ concat news) ->
  replica_ok s' rowss (stagedss ++ news) taken (pending ++ rows).
Proof.
  intros [R1 R2 R3 R4 (R5 & R5' & R5'') R6 R7 R8 R9] Hq Hok Hmem Hnew Hi Hl Hc. pose proof (quiet_applied _ _ Hq) as Ea. pose proof Hq as [Q1 Q2 Q3 _ _].
  assert (Em : memtable_rows s' = memtable_rows s) by (unfold memtable_rows; now rewrite Q2).
  split; rewrite ?Ea, ?Em, ?concat_app; try easy.
  - unfold ts_options in *. now rewrite Q1.
  - split; [|split; [easy|]].
    + intros r [Hr|Hr]%in_app_iff; [now apply R5|now apply Hnew].
    + apply incl_app; [now apply incl_appl|now apply incl_appr].
  - intros k. rewrite <- R7. unfold view, contents, sn_rows, snapshot. cbn. now rewrite Q2.
  - intros k. now apply latest_same_app.
Qed.

(** Pieces of a batch that is not fully staged. *)
Lemma stage_partly s s' rowss stagedss taken pending news rows :
  replica_ok s rowss stagedss taken pending -> quiet s s' -> store_ok s' rowss (stagedss ++ news) -> memtable_rows s = [] ->
  (forall r, In r rows -> applied_version s < row_version r) ->
  incl (concat news) rows -> consistent (concat stagedss ++ concat news) ->
  exists part, incl part (pending ++ rows) /\ replica_ok s' rowss (stagedss ++ news) taken part.
Proof.
  intros Hr Hq Hok Hmem Hnew Hi Hc. exists (pending ++ concat news).
  split; [apply incl_app; [now apply incl_appl, incl_refl|now apply incl_appr]|].
  apply (stage_refines s s' rowss stagedss taken pending news (concat news) Hr Hq Hok Hmem); [|apply incl_refl|easy|easy].
  intros r Hx. now apply Hnew, Hi.
Qed.

(** The rows of a batch as they are staged are consistent with what is staged already. *)
Definition stageable (pending rows : list StoredRow) : Prop := pending = [] \/ consistent (pending ++ map durable_row rows).

Lemma stageable_consistent (stagedss news : list (list StoredRow)) pending rows :
  stageable pending rows -> incl (concat stagedss) pending -> incl (concat news) (map durable_row rows) -> key_ascending (concat news) ->
  consistent (concat stagedss ++ concat news).
Proof.
  intros [-> |Hc] Hs Hn Ha.
  - apply incl_l_nil in Hs. rewrite Hs. now apply ascending_consistent.
  - apply (consistent_incl _ _ Hc). apply incl_app; [now apply incl_appl|now apply incl_appr].
Qed.

(** Staging begins with an empty memtable. *)
Lemma stage_begins io s taken pending :
  refines s taken pending ->
  wp (if is_nil (ts_staged s) then _ ← flush io; mret tt else mret tt)
    (fun _ s' => refines s' taken pending /\ memtable_rows s' = [] /\ ts_config s' = ts_config s /\ applied_version s' = applied_version s)
    (fun s' => refines s' taken pending) s.
Proof.
  intros (rowss & stagedss & Hr). destruct (ts_staged s) as [|m l] eqn:Es; cbn [is_nil].
  - apply wp_bind. eapply wp_mono; [exact (flush_wp io s rowss stagedss (ro_store _ _ _ _ _ Hr))| |].
    + intros n s' (Ha & Em & _). apply wp_ret. split; [exact (flush_refines _ _ _ _ _ _ Hr Ha)|]. unfold memtable_rows. rewrite Em.
      destruct Ha as ([K1 _ _ _ K5] & _). split; [easy|]. split; [easy|]. apply K5, Hr.
    + intros s' Ha. exact (flush_refines _ _ _ _ _ _ Hr Ha).
  - apply wp_ret. split; [now exists rowss, stagedss|]. split; [|easy]. apply (ro_settled _ _ _ _ _ Hr). now rewrite Es.
Qed.

Lemma stage_rows_wp rows io s taken pending :
  refines s taken pending -> Forall (sound_row (ts_schema s)) rows -> (forall r, In r rows -> applied_version s < row_version r) ->
  stageable pending rows ->
  wp (stage_rows rows io) (fun _ s' => refines s' taken (pending ++ map durable_row rows))
    (fun s' => exists part, incl part (pending ++ map durable_row rows) /\ refines s' taken part) s.
Proof.
  intros Href Hf Hnew Hst. unfold stage_rows. destruct rows as [|r0 rows0]; [apply wp_ret; now rewrite app_nil_r|]. set (rows := r0 :: rows0) in *.
  apply wp_bind, wp_get, wp_bind. eapply wp_mono; [exact (stage_begins (sg_flush io) s taken pending Href)| |].
  2: { intros s' Hr'. exists pending. split; [apply incl_appl, incl_refl|easy]. }
  intros [] s1 ((rowss & stagedss & Hr) & Hmem & Ec & Ea).
  destruct (deduplicate_spec rows) as (D1 & D2 & D3). set (kept := deduplicate (sort_by row_less rows)) in *.
  assert (Hnew' : forall r, In r (map durable_row rows) -> applied_version s1 < row_version r).
  { intros r (x & Hx & _ & ->)%in_durable. rewrite Ea. now apply Hnew. }
  assert (Hincl : forall l, l `prefix_of` map durable_row kept -> incl l (map durable_row rows)).
  { intros l [rest E] x Hx. assert (Hk : In x (map durable_row kept)) by (rewrite E; apply in_app_iff; now left).
    apply in_map_iff in Hk as (y & <- & Hy). now apply in_map, D3. }
  assert (Hasc : forall l, l `prefix_of` map durable_row kept -> key_ascending l).
  { intros l [rest E]. apply durable_ascending in D1. rewrite E in D1. now apply key_ascending_app in D1. }
  pose proof (ro_staged _ _ _ _ _ Hr) as (_ & _ & Hpend).
  eapply wp_mono; [apply (stage_pieces_wp _ [] 0 io s1 rowss stagedss)| |].
  - apply Hr.
  - apply sort_by_sorted.
  - exact I.
  - constructor.
  - cbn [rev app]. unfold ts_schema in *. rewrite Ec. apply Forall_forall. intros x Hx. rewrite sort_by_perm in Hx. rewrite Forall_forall in Hf. now apply Hf.
  - intros [] s2 (Hq & news & Hok & En). change (rev _) with kept in En. exists rowss, (stagedss ++ news).
    apply (stage_refines s1 s2 rowss stagedss taken pending news (map durable_row rows) Hr Hq Hok Hmem Hnew').
    + apply Hincl. now rewrite En.
    + intros k. rewrite En, !latest_durable. unfold kept. now rewrite D2.
    + apply (stageable_consistent stagedss news pending rows Hst Hpend); [apply Hincl|apply Hasc]; now rewrite En.
  - intros s2 (Hq & news & Hok & En). change (rev _) with kept in En.
    destruct (stage_partly s1 s2 rowss stagedss taken pending news (map durable_row rows) Hr Hq Hok Hmem Hnew') as (part & Hi & Hp).
    + now apply Hincl.
    + apply (stageable_consistent stagedss news pending rows Hst Hpend); [now apply Hincl|now apply Hasc].
    + exists part. split; [easy|]. now exists rowss, (stagedss ++ news).
Qed.

(** *** Publishing *)

Lemma files_unstage dir schema m staged reserved retired rowss stagedss :
  files_ok dir schema m staged reserved retired rowss stagedss -> files_ok dir schema m [] reserved retired rowss [].
Proof.
  intros [H3 H4 H5 H6 H7 (H8 & H8' & H8'') H9]. split; rewrite ?app_nil_r; try easy.
  - now apply Forall_app in H5.
  - rewrite map_app in H6. now apply NoDup_app in H6.
  - split; [easy|]. split; [easy|]. now apply Forall_app in H8''.
  - eapply Forall_impl; [exact H9|]. intros name (id & E & Hi & Hr & Hni). exists id. split; [easy|]. split; [easy|]. split; [easy|].
    intros Hin. apply Hni. rewrite map_app. apply elem_of_app. now left.
Qed.

Lemma files_publish dir schema m m' staged reserved retired rowss stagedss :
  files_ok dir schema m staged reserved retired rowss stagedss ->
  man_segments m' = man_segments m ++ staged -> man_next_segment_id m' = man_next_segment_id m ->
  files_ok dir schema m' [] reserved retired (rowss ++ stagedss) [].
Proof.
  intros [H3 H4 H5 H6 H7 H8 H9] Es En. split; rewrite ?app_nil_r, ?Es, ?En; try easy. now apply Forall2_app.
Qed.

Lemma discard_files_get remove segments d name :
  Forall (fun meta => seg_file_name meta <> name) segments -> omap_get name (discard_files remove segments d) = omap_get name d.
Proof.
  unfold discard_files. revert d; induction segments as [|m l IH]; intros d Hn; [easy|]. apply Forall_cons in Hn as [Hm Hn]. cbn [foldl].
  rewrite IH by easy. destruct (remove _); [|easy]. apply remove_file_get. congruence.
Qed.

(** Segments with the same file hold the same rows. *)
Lemma same_file_rows d schema a b rows rows' :
  segment_holds d schema a rows -> segment_holds d schema b rows' -> same_file_contents d a b = Ok true -> rows = rows'.
Proof.
  intros Ha Hb. unfold same_file_contents, mbind, result_bind, ok_or.
  destruct (omap_get (seg_file_name a) d) as [f|] eqn:Ef; [|easy]. destruct (omap_get (seg_file_name b) d) as [g|] eqn:Eg; [|easy].
  intros [= Eb%same_bytes_same]. subst g. pose proof (holds_reads _ _ _ _ Ha) as E1. pose proof (holds_reads _ _ _ _ Hb) as E2.
  unfold read_rows in E1, E2. rewrite Ef in E1. rewrite Eg in E2. exact (read_file_same _ _ _ _ _ _ E2 E1).
Qed.

(** A staged segment is not one the table has: its rows are newer. *)
Lemma held_by_newer d schema segments rowss segment rows :
  Forall2 (segment_holds d schema) segments rowss -> segment_holds d schema segment rows ->
  (forall a b, In a (concat rowss) -> In b rows -> row_version a < row_version b) ->
  held_by d segments segment <> Ok true.
Proof.
  intros Hh Hs Hlt. induction Hh as [|m rows' segments rowss Hm Hh IH]; [easy|]. cbn [held_by].
  assert (IH' : held_by d segments segment <> Ok true) by (apply IH; intros a b Ha; apply Hlt, in_app_iff; now right).
  destruct (same_segment_span m segment); [|easy]. unfold mbind, result_bind. destruct (same_file_contents d m segment) as [[]|] eqn:Eb; try easy.
  apply (same_file_rows _ _ _ _ _ _ Hm Hs) in Eb. exfalso.
  subst rows'. destruct rows as [|r rows]; [now destruct (holds_some _ _ _ _ Hs)|].
  specialize (Hlt r r (or_introl eq_refl) (or_introl eq_refl)). lia.
Qed.

Lemma split_held_fresh d schema segments rowss staged stagedss fresh repeated :
  Forall2 (segment_holds d schema) segments rowss -> Forall2 (segment_holds d schema) staged stagedss ->
  (forall a b, In a (concat rowss) -> In b (concat stagedss) -> row_version a < row_version b) ->
  split_held d segments staged = Ok (fresh, repeated) -> fresh = staged /\ repeated = [].
Proof.
  intros Hh Hs Hlt. revert fresh repeated; induction Hs as [|m rows staged stagedss Hm Hs IH]; intros fresh repeated; cbn [split_held].
  { now intros [= <- <-]. }
  pose proof (held_by_newer d schema segments rowss m rows Hh Hm) as Hn. unfold mbind, result_bind.
  destruct (held_by d segments m) as [[]|]; [now destruct Hn; [intros a b Ha Hb; apply Hlt; [easy|apply in_app_iff; now left]|]| |easy].
  destruct (split_held d segments staged) as [[f r]|]; [|easy]. intros [= <- <-].
  destruct (IH (fun a b Ha Hb => Hlt a b Ha (proj2 (in_app_iff _ _ _) (or_intror Hb))) f r eq_refl) as [-> ->]. easy.
Qed.

(** The pieces given up: the table as it was. *)
Lemma unstaged_replica s s' rowss stagedss taken pending :
  replica_ok s rowss stagedss taken pending -> quiet s s' -> ts_staged s' = [] -> ts_manifest s' = ts_manifest s ->
  files_ok (ts_segments s') (ts_schema s') (ts_manifest s') [] (ts_staged_ids s') (ts_retired s') rowss [] -> replica_ok s' rowss [] taken [].
Proof.
  intros [R1 R2 R3 R4 _ _ R7 _ R9] Hq Est Emf Hf. pose proof (quiet_applied _ _ Hq) as Ea. pose proof Hq as [Q1 Q2 Q3 _ _].
  assert (Em : memtable_rows s' = memtable_rows s) by (unfold memtable_rows; now rewrite Q2).
  split; rewrite ?Ea, ?Em; try easy.
  - apply (quiet_files_ok s s' rowss stagedss _ _ R1 Hq); [rewrite Emf; apply R1|now rewrite Est].
  - unfold ts_options in *. now rewrite Q1.
  - intros k. rewrite <- R7. unfold view, contents, sn_rows, snapshot. cbn. now rewrite Q2.
Qed.

Lemma foldl_max_same a l1 l2 :
  (forall v, In v l1 -> exists w, (w = a \/ In w l2) /\ v <= w) -> (forall v, In v l2 -> exists w, (w = a \/ In w l1) /\ v <= w) ->
  foldl Z.max a l1 = foldl Z.max a l2.
Proof.
  assert (Hle : forall l l', (forall v, In v l -> exists w, (w = a \/ In w l') /\ v <= w) -> foldl Z.max a l <= foldl Z.max a l').
  { intros l l' Hl. destruct (foldl_max_in a l) as [->|Hin]; [apply foldl_max_ge; now left|].
    destruct (Hl _ Hin) as (w & Hw & Hle). pose proof (foldl_max_ge a l' w Hw). lia. }
  intros H3 H4. pose proof (Hle _ _ H3). pose proof (Hle _ _ H4). lia.
Qed.

(** The highest version of what is staged. *)
Lemma staged_versions dir schema staged stagedss pending a :
  Forall2 (segment_holds dir schema) staged stagedss -> (forall k, latest k (concat stagedss) = latest k pending) ->
  foldl Z.max a (map seg_max_version staged) = foldl Z.max a (map row_version pending).
Proof.
  intros Hh Hl. apply foldl_max_same.
  - intros v (m & <- & Hm)%in_map_iff. apply list_elem_of_In, list_elem_of_lookup in Hm as [i Hi].
    destruct (Forall2_lookup_l _ _ _ _ _ Hh Hi) as (rows & Hr & Hmh). destruct (holds_newest _ _ _ _ Hmh) as (r & Hin & Ev).
    assert (Hc : In r (concat stagedss)) by (apply in_concat; exists rows; split; [exact (proj1 (list_elem_of_In _ _) (list_elem_of_lookup_2 _ _ _ Hr))|easy]).
    destruct (latest (row_key r) (concat stagedss)) as [w|] eqn:Ew; [|now destruct (latest_none _ _ Ew r Hc)].
    pose proof (latest_max _ _ _ Ew r Hc eq_refl). rewrite Hl in Ew. apply latest_in in Ew as [Hw _].
    exists (row_version w). split; [right; now apply in_map|lia].
  - intros v (r & <- & Hr)%in_map_iff. destruct (latest (row_key r) pending) as [w|] eqn:Ew; [|now destruct (latest_none _ _ Ew r Hr)].
    pose proof (latest_max _ _ _ Ew r Hr eq_refl). rewrite <- Hl in Ew. apply latest_in in Ew as [(rows & Hrows & Hw)%in_concat _].
    apply list_elem_of_In, list_elem_of_lookup in Hrows as [i Hi]. destruct (Forall2_lookup_r _ _ _ _ _ Hh Hi) as (m & Hm & Hmh).
    pose proof (holds_versions _ _ _ _ Hmh w Hw). exists (seg_max_version m). split; [|lia]. right.
    exact (in_map _ _ _ (proj1 (list_elem_of_In _ _) (list_elem_of_lookup_2 _ _ _ Hm))).
Qed.

Lemma staged_durable dir schema staged stagedss :
  Forall2 (segment_holds dir schema) staged stagedss -> map durable_row (concat stagedss) = concat stagedss.
Proof.
  induction 1 as [|m rows staged stagedss Hm _ IH]; [easy|]. cbn [concat]. rewrite map_app, IH. f_equal.
  pose proof (holds_rows _ _ _ _ Hm) as Hd. clear Hm. induction Hd as [|r l [E _] Hd IHd]; [easy|]. cbn. now rewrite E, IHd.
Qed.

Lemma staged_version_u64 s rowss stagedss : store_ok s rowss stagedss -> 0 <= staged_version s < 2 ^ 64.
Proof.
  intros Hok. pose proof (so_typed _ _ _ Hok) as Ht. pose proof (fo_staged _ _ _ _ _ _ _ _ (so_files _ _ _ Hok)) as Hk. unfold staged_version.
  destruct (opt_transactional _); [apply (ty_version _ _ _ _ _ Ht)|]. apply foldl_max_u64; [apply (ty_version _ _ _ _ _ Ht)|].
  clear Hok. induction Hk as [|meta rows staged stagedss' Hm _ IH]; cbn [map]; [constructor|]. constructor; [|easy]. pose proof (known_wf _ _ _ _ Hm) as Hw.
  unfold segment_wf in Hw. rewrite !andb_true_iff in Hw. apply (proj1 (in_unsigned_spec 64 _)), Hw.
Qed.

(** The pieces published: the table holds them. *)
Lemma published_replica s s' rowss stagedss taken pending :
  replica_ok s rowss stagedss taken pending -> ts_staged s <> [] ->
  ts_config s' = ts_config s -> ts_memtable s' = ts_memtable s -> ts_commit_version s' = staged_version s -> ts_staged s' = [] ->
  typed (ts_config s') (ts_memtable s') (ts_commit_version s') (ts_last_sequence s') (ts_manifest s') ->
  files_ok (ts_segments s') (ts_schema s') (ts_manifest s') [] (ts_staged_ids s') (ts_retired s') (rowss ++ stagedss) [] ->
  replica_ok s' (rowss ++ stagedss) [] (taken ++ pending) [].
Proof.
  intros [R1 R2 R3 (f & F1 & F2 & F3) (R5 & R5' & R5'') R6 R7 R8 R9] Hne E1 E2 E3 E4 Ht Hf. pose proof R1 as [H3 H4 H5 H6 H7 H8 H9].
  pose proof (all_known_holds _ _ _ _ (fo_staged _ _ _ _ _ _ _ _ H5)) as Hstaged. assert (Em : memtable_rows s' = []) by (unfold memtable_rows; rewrite E2; now apply R6).
  assert (Ea : applied_version s' = foldl Z.max (applied_version s) (map row_version pending)).
  { rewrite <- (staged_versions _ _ _ _ pending _ Hstaged R8). unfold applied_version. rewrite E2, E3. unfold staged_version. rewrite R2.
    rewrite Z.max_comm, foldl_max_max. now rewrite Z.max_comm. }
  assert (Hge : ts_commit_version s <= ts_commit_version s').
  { rewrite E3. unfold staged_version. rewrite R2. apply foldl_max_ge. now left. }
  assert (Hle : forall r, In r (concat rowss ++ concat stagedss) -> row_version r <= applied_version s').
  { rewrite Ea. intros r [Hr|Hr]%in_app_iff; [|apply foldl_max_ge; right; now apply in_map, R5''].
    specialize (F2 r Hr). pose proof (foldl_max_ge (applied_version s) (map row_version pending) _ (or_introl eq_refl)). lia. }
  split; rewrite ?concat_app; try easy.
  - unfold ts_schema, ts_options in *. split; try exact Ht; unfold ts_schema, ts_options; rewrite ?E1, ?E2, ?E4; try easy; [|lia].
    unfold ts_schema in Hf. now rewrite E1 in Hf.
  - unfold ts_options in *. now rewrite E1.
  - apply (consistent_app _ _ (applied_version s)); [easy..| |].
    + intros r Hr. specialize (F2 r Hr). lia.
    + intros r Hr. now apply R5, R5''.
  - exists (applied_version s'). split; [lia|]. split; [easy|]. now rewrite Em.
  - intros k. unfold view, contents. change (sn_rows (snapshot s')) with (memtable_rows s'). rewrite Em, app_nil_r, concat_app, map_app.
    rewrite (staged_durable _ _ _ _ Hstaged), !visible_over.
    + rewrite R8, <- R7. unfold view, contents. change (sn_rows (snapshot s)) with (memtable_rows s). now rewrite (R6 Hne), app_nil_r.
    + intros a b Ha Hb _. apply spec_applied_ge in Ha. specialize (R5 b Hb). lia.
    + intros a b (x & Hx & _ & ->)%in_durable Hb _. specialize (F2 x Hx). specialize (R5 b (R5'' b Hb)). lia.
  - now rewrite spec_applied_app, <- R9.
Qed.

Lemma repeat_unnoticed n m : unnoticed m -> unnoticed (repeat_table n m).
Proof. intros Hm. induction n as [|n IH]; cbn [repeat_table]; [apply unnoticed_ret|]. now apply unnoticed_bind. Qed.

(** What a publication leaves: all of the pieces, or none of them. *)
Definition published_or_not (taken pending : list StoredRow) (s' : TableStore) : Prop :=
  refines s' (taken ++ pending) [] \/ refines s' taken [].

Lemma discard_fresh s rowss stagedss remove segments :
  store_ok s rowss stagedss -> incl segments (ts_staged s) ->
  files_ok (discard_files remove segments (ts_segments s)) (ts_schema s) (ts_manifest s) [] (ts_staged_ids s) (ts_retired s) rowss [].
Proof.
  intros Hok Hi. pose proof (so_files _ _ _ Hok) as Hf. pose proof Hf as [_ _ N1 N2 N3 _ _].
  apply (files_reclaimed (ts_segments s) _ _ _ _ _ (ts_retired s)); [|apply incl_refl|exact (files_unstage _ _ _ _ _ _ _ _ Hf)].
  intros meta. rewrite app_nil_r. intros Hm. apply discard_files_get. apply List.Forall_forall. intros x Hx%Hi E.
  apply list_elem_of_In in Hx. rewrite Forall_forall in N1. rewrite map_app in N2. apply NoDup_app in N2 as (_ & N2 & _).
  destruct (N1 meta) as [B1 F1]; [apply elem_of_app; now left|]. destruct (N1 x) as [B2 F2]; [apply elem_of_app; now right|].
  rewrite F1, F2 in E. apply file_name_inj in E; [|lia..]. apply (N2 (seg_id meta)); [now apply list_elem_of_fmap_2|]. rewrite <- E. now apply list_elem_of_fmap_2.
Qed.

Lemma publish_staged_wp io s taken pending :
  refines s taken pending ->
  wp (publish_staged io) (fun _ s' => refines s' (taken ++ pending) []) (published_or_not taken pending) s.
Proof.
  intros (rowss & stagedss & Hr). pose proof (ro_store _ _ _ _ _ Hr) as Hok. pose proof (so_files _ _ _ Hok) as Hfiles.
  unfold publish_staged. apply wp_bind, wp_get. destruct (ts_staged s) as [|m0 l0] eqn:Est.
  { apply wp_ret. pose proof (fo_staged _ _ _ _ _ _ _ _ Hfiles) as Hs. apply Forall2_nil_inv_l in Hs as ->.
    rewrite (pending_nil pending (ro_pending _ _ _ _ _ Hr)) in Hr |- *. rewrite app_nil_r. now exists rowss, []. }
  rewrite <- Est in *. assert (Hne : ts_staged s <> []) by (now rewrite Est). apply wp_bind, wp_modify.
  set (s1 := set_staged [] (ts_staged_ids s) s). assert (Hq1 : quiet s s1) by now split.
  assert (Hun : refines s1 taken []).
  { exists rowss, []. apply (unstaged_replica s s1 rowss stagedss taken pending Hr Hq1); [easy|easy|]. exact (files_unstage _ _ _ _ _ _ _ _ Hfiles). }
  pose proof (so_typed _ _ _ Hok) as Ht. pose proof (staged_version_u64 s rowss stagedss Hok) as Hsv.
  apply wp_bind, wp_lift; [intros m Em|now right]. pose proof (typed_next _ _ _ _ _ _ Ht Em) as Htm.
  apply next_generation_inv in Em as (Es & En & _). apply wp_bind, wp_lift; [|now right].
  pose proof (ro_staged _ _ _ _ _ Hr) as (Rs & _ & Rs').
  intros [fresh repeated] Hsp. apply (split_held_fresh _ (ts_schema s) _ rowss _ stagedss) in Hsp as [-> ->];
    [|apply all_known_holds, Hfiles|apply all_known_holds, Hfiles|intros a b Ha Hb; destruct (ro_floor _ _ _ _ _ Hr) as (f & F1 & F2 & _); specialize (F2 a Ha); specialize (Rs b (Rs' b Hb)); lia].
  destruct (is_nil (ts_staged s)) eqn:En'; [now destruct (ts_staged s)|]. apply wp_bind. unfold publish_pieces, wp at 1.
  set (m' := with_segments _ _). destruct (publish m' (sp_publish io) s1) as [[[]|e] s2] eqn:Ep.
  - assert (Hpub : refines (set_commit_version (staged_version s) (set_manifest m' s2)) (taken ++ pending) []).
    { unfold publish in Ep. destruct (manifest_publish _ _ _) as [r d]. injection Ep as -> <-.
      exists (rowss ++ stagedss), []. apply (published_replica s _ rowss stagedss taken pending Hr Hne); try easy; cbn.
      { apply typed_segments, typed_flushed; [now apply (typed_version _ _ (ts_commit_version s))|apply (typed_counters _ _ _ _ _ Htm)|easy]. }
      apply (files_publish _ _ (ts_manifest s) m' (ts_staged s)); [easy|cbn; now rewrite Es|exact En]. }
    apply wp_bind, wp_modify. cbn [discard_files foldl].
    match goal with |- wp _ _ _ ?s3 => assert (Hs3 : refines s3 (taken ++ pending) []) by (destruct s2 as [? []]; exact Hpub) end.
    assert (Hrest : unnoticed (_ ← repeat_table (length (ts_staged s)) (advance_compaction (sp_compact io));
                               _ ← advance_compaction (sp_compact io); _ ← reclaim_obsolete_segments (sp_reclaim io); mret (len (ts_staged s)))).
    { apply unnoticed_bind; [apply repeat_unnoticed, advance_unnoticed|intros _]. apply unnoticed_bind; [apply advance_unnoticed|intros _].
      apply unnoticed_bind; [apply reclaim_unnoticed|intros _]. apply unnoticed_ret. }
    eapply wp_mono; [exact (Hrest _ _ _ Hs3)|easy|]. intros s' Hs'. now left.
  - right. unfold publish in Ep. destruct (manifest_publish _ _ _) as [r d]. injection Ep as _ <-.
    exists rowss, []. apply (unstaged_replica s _ rowss stagedss taken pending Hr); [now split|easy|easy|]. cbn.
    apply (discard_fresh s rowss stagedss); [easy|]. intros x Hx%in_rev. easy.
Qed.

Lemma discard_staged_wp remove s taken pending :
  refines s taken pending -> wp (discard_staged remove) (fun _ s' => refines s' taken []) (fun _ => False) s.
Proof.
  intros (rowss & stagedss & Hr). apply wp_modify. exists rowss, []. apply (unstaged_replica s _ rowss stagedss taken pending Hr); [now split|easy|easy|]. cbn.
  apply (discard_fresh s rowss stagedss); [apply Hr|apply incl_refl].
Qed.

(** ** Batches of the stream *)

(** The log and the counters do not matter to a reader. *)
Record same_table (s s' : TableStore) : Prop := {
  same_config : ts_config s' = ts_config s;
  same_memtable : ts_memtable s' = ts_memtable s;
  same_version : ts_commit_version s' = ts_commit_version s;
  same_manifest : ts_manifest s' = ts_manifest s;
  same_segments : ts_segments s' = ts_segments s;
  same_staged : ts_staged s' = ts_staged s /\ ts_staged_ids s' = ts_staged_ids s;
  same_retired : ts_retired s' = ts_retired s;
  same_sequence : ts_last_sequence s' = ts_last_sequence s
}.

#[global] Instance same_table_preorder : PreOrder same_table.
Proof. split; [intros s; now split|]. intros a b c [A1 A2 A3 A4 A5 [A6 A6'] A7 A8] [B1 B2 B3 B4 B5 [B6 B6'] B7 B8]. split; try congruence. split; congruence. Qed.

Lemma replica_same s s' rowss stagedss taken pending :
  same_table s s' -> replica_ok s rowss stagedss taken pending -> replica_ok s' rowss stagedss taken pending.
Proof.
  intros [E1 E2 E3 E4 E5 [E6 E6'] E7 E8] [R1 R2 R3 R4 R5 R6 R7 R8 R9].
  assert (Ea : applied_version s' = applied_version s) by (unfold applied_version; now rewrite E2, E3).
  assert (Em : memtable_rows s' = memtable_rows s) by (unfold memtable_rows; now rewrite E2).
  split; rewrite ?Ea, ?Em, ?E6; try easy.
  - apply (store_ok_ext s); unfold ts_schema, ts_options; try easy; [now rewrite E1..|rewrite E3; apply R1|].
    rewrite E1, E2, E3, E4, E8. apply R1.
  - unfold ts_options in *. now rewrite E1.
  - intros k. rewrite <- R7. unfold view, contents, sn_rows, snapshot. cbn. now rewrite E2.
Qed.

Lemma refines_same s s' taken pending : same_table s s' -> refines s taken pending -> refines s' taken pending.
Proof. intros Hs (rowss & stagedss & Hr). exists rowss, stagedss. now apply (replica_same s). Qed.

Lemma validated_rows schema rows : validate_rows schema rows = Ok tt -> Forall (fun r => validate_row schema r = Ok tt) rows.
Proof.
  unfold validate_rows, schema_error, map_err. destruct (fold_result _ tt rows) as [[]|e] eqn:E; [|easy]. intros _.
  induction rows as [|r rows IH]; [constructor|]. cbn [fold_result] in E. unfold mbind, result_bind in E.
  destruct (validate_row schema r) as [[]|] eqn:Ev; [|easy]. constructor; [easy|now apply IH].
Qed.

Lemma validate_rows_fit schema rows : validate_rows schema rows = Ok tt -> Forall (row_fits schema) rows.
Proof. intros Hv%validated_rows. eapply Forall_impl; [exact Hv|]. apply validate_row_fits. Qed.

(** Only the next row identifier is another. *)
Definition rekeyed (s s' : TableStore) : Prop := s' = set_next_append_row_id (ts_next_append_row_id s') s.

#[global] Instance rekeyed_preorder : PreOrder rekeyed.
Proof. split; [now intros []|]. unfold rekeyed. intros a b c Hb Hc. rewrite Hc, Hb. now destruct a. Qed.

Lemma rekeyed_same s s' : rekeyed s s' -> same_table s s'.
Proof. intros E. rewrite E. now split. Qed.

Lemma preserve_keys_wp rows s s0 : rekeyed s0 s -> wp (preserve_append_keys rows) (fun _ => rekeyed s0) (rekeyed s0) s.
Proof.
  revert s; induction rows as [|r rows IH]; intros s Hs; cbn [preserve_append_keys]; [easy|].
  destruct (row_key r) as [|part parts]; [now apply wp_raise|]. destruct part, parts; try (now apply wp_raise). destruct (_ =? 0); [now apply wp_raise|].
  apply wp_bind, wp_lift; [intros next _|easy]. apply wp_bind, wp_modify, IH. now transitivity s.
Qed.

Lemma append_keys_wp rows s : wp (append_keys Preserve rows) (fun rows' s' => rows' = rows /\ rekeyed s s') (rekeyed s) s.
Proof.
  unfold append_keys. apply wp_bind, wp_get. destruct (bool_decide _); [|now apply wp_ret].
  apply wp_bind. eapply wp_mono; [now apply (preserve_keys_wp rows s s)| |easy]. intros [] s' Hs. now apply wp_ret.
Qed.

Lemma append_wal_wp payload io s : wp (append_wal payload io) (fun _ => same_table s) (same_table s) s.
Proof. unfold wp, append_wal. destruct (append_encoded _ _ _) as [[u|e] w]; now split. Qed.

Lemma checkpoint_wp failpoint ok s : wp (checkpoint failpoint ok) (fun _ => same_table s) (same_table s) s.
Proof. unfold wp, checkpoint. destruct (sync _ _ _) as [[u|e] w]; now split. Qed.

(** The changes of a batch the table has not taken. *)
Definition fresh_rows (s : TableStore) (rows : list StoredRow) : list StoredRow := List.filter (newer_than (applied_version s)) rows.

Lemma fresh_wf s rows : Forall (fun r => stored_row_wf r = true) rows -> Forall (fun r => stored_row_wf r = true) (fresh_rows s rows).
Proof. intros Hw. apply List.Forall_forall. intros r [Hr _]%filter_In. rewrite List.Forall_forall in Hw. now apply Hw. Qed.

(** After a batch that failed: not taken, taken, or in part staged. *)
Definition after_failure (taken new : list StoredRow) (s' : TableStore) : Prop :=
  refines s' taken [] \/ refines s' (taken ++ new) [] \/ exists part, incl part new /\ refines s' taken part.

Lemma take_batch_wp sequence rows io s taken :
  refines s taken [] -> ts_staged s = [] -> 0 <= sequence < 2 ^ 64 -> Forall (fun r => stored_row_wf r = true) rows ->
  (forall r, In r rows -> applied_version s < row_version r) ->
  wp (ingest_at_sequence_with_append_policy sequence rows Preserve io)
    (fun _ s' => refines s' (taken ++ map durable_row rows) []) (after_failure taken (map durable_row rows)) s.
Proof.
  intros Href Est Hseq Hwf Hnew. unfold ingest_at_sequence_with_append_policy. apply wp_bind, wp_get, wp_bind.
  apply wp_lift; [intros [] Hval%validate_rows_fit|now left]. destruct rows as [|r0 rows0]; cbn [is_nil]; [apply wp_ret; now rewrite app_nil_r|].
  set (rows := r0 :: rows0) in *. apply wp_bind. eapply wp_mono; [exact (append_keys_wp rows s)| |].
  2: { intros s' Hs%rekeyed_same. left. exact (refines_same _ _ _ _ Hs Href). }
  intros rows' s1 [-> Hs1%rekeyed_same]. pose proof (refines_same _ _ _ _ Hs1 Href) as Href1.
  assert (Hnew1 : forall r, In r rows -> applied_version s1 < row_version r).
  { destruct Hs1 as [_ E2 E3 _ _ _ _ _]. unfold applied_version. rewrite E2, E3. exact Hnew. }
  assert (Hfit1 : Forall (sound_row (ts_schema s1)) rows) by (unfold ts_schema; rewrite (same_config _ _ Hs1); now apply Forall_and).
  assert (Est1 : ts_staged s1 = []) by (destruct (same_staged _ _ Hs1) as [-> _]; easy).
  destruct (_ <=? _); [apply wp_raise; now left|]. apply wp_bind, wp_lift; [intros payload _|now left]. destruct payload as [payload|].
  - apply wp_bind. eapply wp_mono; [exact (append_wal_wp payload (in_append io) s1)| |].
    2: { intros s' Hs. left. exact (refines_same _ _ _ _ Hs Href1). }
    intros [] s2 Hs2. pose proof (refines_same _ _ _ _ Hs2 Href1) as (rowss & stagedss & Hr2). apply wp_bind, wp_get.
    assert (Hins : refines (set_last_sequence sequence (set_memtable (insert_rows (ts_memtable s2) rows 0).2 s2)) (taken ++ map durable_row rows) []).
    { exists rowss, stagedss. apply insert_replica; [easy|destruct (same_staged _ _ Hs2) as [-> _]; easy| | |].
      - unfold ts_schema in *. now rewrite (same_config _ _ Hs2).
      - easy.
      - destruct Hs2 as [_ E2 E3 _ _ _ _ _]. unfold applied_version. rewrite E2, E3. exact Hnew1. }
    destruct (insert_rows (ts_memtable s2) rows 0) as [visible m]. cbn [snd] in Hins. apply wp_bind, wp_modify, wp_bind.
    destruct (_ <=? _); [|now apply wp_ret]. eapply wp_mono; [exact (settle_unnoticed (in_settle io) _ _ _ Hins)|..]; [now intros|]. intros s' Hs'. right. now left.
  - apply wp_bind. eapply wp_mono; [apply (stage_rows_wp rows (in_stage io) s1 taken []); [easy|easy|easy|now left]| |].
    2: { intros s' (part & Hi & Hp). right. right. now exists part. }
    intros [] s2 Hs2. apply wp_bind. eapply wp_mono; [exact (publish_staged_wp (in_staged io) s2 taken _ Hs2)| |].
    + intros n s3 Hs3. now apply wp_bind, wp_get, wp_ret.
    + intros s3 [Hs3|Hs3]; [right; now left|now left].
Qed.

Lemma in_order_wp rows io s taken :
  refines s taken [] -> ts_staged s = [] -> Forall (fun r => stored_row_wf r = true) rows ->
  wp (ingest_cdc_in_order rows io) (fun _ s' => refines s' (taken ++ map durable_row (fresh_rows s rows)) [])
    (after_failure taken (map durable_row (fresh_rows s rows))) s.
Proof.
  intros Href Est Hwf. unfold ingest_cdc_in_order. apply wp_bind, wp_get. fold (fresh_rows s rows).
  unfold ingest_cdc. apply wp_bind, wp_get, wp_bind, wp_lift; [intros sequence [Eq Hq]%next_of_inv|now left].
  assert (Hseq : 0 <= ts_last_sequence s) by (destruct Href as (rowss & stagedss & Hr); apply (ty_sequence _ _ _ _ _ (so_typed _ _ _ (ro_store _ _ _ _ _ Hr)))).
  apply take_batch_wp; [easy..|lia|now apply fresh_wf|].
  intros r [_ Hr]%filter_In. now apply Z.ltb_lt in Hr.
Qed.

Lemma stage_cdc_wp rows io s taken pending :
  refines s taken pending -> stageable pending (fresh_rows s rows) -> Forall (fun r => stored_row_wf r = true) rows ->
  wp (stage_cdc rows io) (fun _ s' => refines s' taken (pending ++ map durable_row (fresh_rows s rows)))
    (fun s' => exists part, incl part (pending ++ map durable_row (fresh_rows s rows)) /\ refines s' taken part) s.
Proof.
  intros Href Hst Hwf%(fresh_wf s). assert (Hsame : forall s', same_table s s' -> exists part, incl part (pending ++ map durable_row (fresh_rows s rows)) /\ refines s' taken part).
  { intros s' Hs. exists pending. split; [apply incl_appl, incl_refl|]. exact (refines_same _ _ _ _ Hs Href). }
  unfold stage_cdc. apply wp_bind, wp_get. destruct (_ || _); [apply wp_raise; now apply Hsame|]. fold (fresh_rows s rows).
  apply wp_bind, wp_lift; [intros [] Hval%validate_rows_fit|now apply Hsame]. apply wp_bind.
  assert (Hrest : forall s', same_table s s' -> wp (stage_rows (fresh_rows s rows) io) (fun _ s' => refines s' taken (pending ++ map durable_row (fresh_rows s rows)))
    (fun s' => exists part, incl part (pending ++ map durable_row (fresh_rows s rows)) /\ refines s' taken part) s').
  { intros s' Hs. apply stage_rows_wp; [exact (refines_same _ _ _ _ Hs Href)|unfold ts_schema in *; rewrite (same_config _ _ Hs); now apply Forall_and| |easy].
    destruct Hs as [_ E2 E3 _ _ _ _ _]. intros r [_ Hr]%filter_In. apply Z.ltb_lt in Hr. unfold applied_version in *. now rewrite E2, E3. }
  destruct (bool_decide _); [|apply wp_ret; now apply Hrest].
  eapply wp_mono; [now apply (preserve_keys_wp (fresh_rows s rows) s s)|intros [] s' Hs; now apply Hrest, rekeyed_same|].
  intros s' Hs. now apply Hsame, rekeyed_same.
Qed.

(** ** Histories *)

(** The operations of a replicated table, with what the filesystem does in each. *)
Inductive operation : Type :=
  | Flush (io : flush_io)
  | Compact (io : compact_io)
  | Reclaim (io : reclaim_io)
  | Ingest (rows : list StoredRow) (io : ingest_io)
  | Stage (rows : list StoredRow) (io : stage_io)
  | Publish (io : staged_io)
  | Discard (remove : str -> bool)
  | SyncLog (failpoint ok : bool).

(** Whether the operation succeeds, and the store it leaves. *)
Definition outcome {A} (r : result StoreError A * TableStore) : bool * TableStore :=
  match r with (Ok _, s) => (true, s) | (Err _, s) => (false, s) end.

Definition perform (op : operation) (s : TableStore) : bool * TableStore :=
  match op with
  | Flush io => outcome (flush io s)
  | Compact io => outcome (compact io s)
  | Reclaim io => outcome (reclaim_obsolete_segments io s)
  | Ingest rows io => outcome (ingest_cdc_in_order rows io s)
  | Stage rows io => outcome (stage_cdc rows io s)
  | Publish io => outcome (publish_staged io s)
  | Discard remove => outcome (discard_staged remove s)
  | SyncLog failpoint ok => outcome (checkpoint failpoint ok s)
  end.

(** The changes of [rows] a table that has taken [taken] still takes. *)
Definition untaken (taken rows : list StoredRow) : list StoredRow :=
  map durable_row (List.filter (newer_than (spec_applied taken)) rows).

(** The specification: the changes taken and the ones pending, after an operation that succeeded or
    failed. *)
Inductive spec_step : operation -> bool -> list StoredRow * list StoredRow -> list StoredRow * list StoredRow -> Prop :=
  | spec_flush io ok taken pending : spec_step (Flush io) ok (taken, pending) (taken, pending)
  | spec_compact io ok taken pending : spec_step (Compact io) ok (taken, pending) (taken, pending)
  | spec_reclaim io ok taken pending : spec_step (Reclaim io) ok (taken, pending) (taken, pending)
  | spec_ingest rows io ok taken : spec_step (Ingest rows io) ok (taken, []) (taken ++ untaken taken rows, [])
  | spec_ingest_fails rows io taken : spec_step (Ingest rows io) false (taken, []) (taken, [])
  | spec_ingest_torn rows io taken part : incl part (untaken taken rows) -> spec_step (Ingest rows io) false (taken, []) (taken, part)
  | spec_stage rows io taken pending : spec_step (Stage rows io) true (taken, pending) (taken, pending ++ untaken taken rows)
  | spec_stage_fails rows io taken pending part :
      incl part (pending ++ untaken taken rows) -> spec_step (Stage rows io) false (taken, pending) (taken, part)
  | spec_publish io ok taken pending : spec_step (Publish io) ok (taken, pending) (taken ++ pending, [])
  | spec_publish_fails io taken pending : spec_step (Publish io) false (taken, pending) (taken, [])
  | spec_discard remove ok taken pending : spec_step (Discard remove) ok (taken, pending) (taken, [])
  | spec_sync failpoint io ok taken pending : spec_step (SyncLog failpoint io) ok (taken, pending) (taken, pending).

(** What the reader of the stream owes the table: the batches come from one stream that gives a
    version to one change, and a batch is not ingested while another is staged. *)
Definition allowed (stream : list StoredRow) (op : operation) (s : TableStore) : Prop :=
  match op with
  | Ingest rows _ => incl rows stream /\ ts_staged s = []
  | Stage rows _ => incl rows stream
  | _ => True
  end.

Inductive run (stream : list StoredRow) (s0 : TableStore) : list (operation * bool) -> TableStore -> Prop :=
  | run_start : run stream s0 [] s0
  | run_step log s op ok s' :
      run stream s0 log s -> allowed stream op s -> perform op s = (ok, s') -> run stream s0 (log ++ [(op, ok)]) s'.

Inductive spec_run : list (operation * bool) -> list StoredRow * list StoredRow -> Prop :=
  | spec_start : spec_run [] ([], [])
  | spec_next log st op ok st' : spec_run log st -> spec_step op ok st st' -> spec_run (log ++ [(op, ok)]) st'.

Lemma perform_wp {A} (m : Table A) (Q : A -> TableStore -> Prop) (E : TableStore -> Prop) s ok s' :
  wp m Q E s -> outcome (m s) = (ok, s') -> if ok then exists a, Q a s' else E s'.
Proof. unfold wp, outcome. destruct (m s) as [[a|e] s1]; intros Hw [= <- <-]; [now exists a|easy]. Qed.

Lemma no_pending s taken pending : refines s taken pending -> ts_staged s = [] -> pending = [].
Proof.
  intros (rowss & stagedss & Hr) Est. pose proof (fo_staged _ _ _ _ _ _ _ _ (so_files _ _ _ (ro_store _ _ _ _ _ Hr))) as Hs.
  rewrite Est in Hs. apply Forall2_nil_inv_l in Hs as ->. exact (pending_nil pending (ro_pending _ _ _ _ _ Hr)).
Qed.

Lemma fresh_untaken s taken pending rows : refines s taken pending -> map durable_row (fresh_rows s rows) = untaken taken rows.
Proof. intros (rowss & stagedss & Hr). unfold fresh_rows, untaken. now rewrite (ro_applied _ _ _ _ _ Hr). Qed.

Lemma untaken_stream taken rows stream : incl rows stream -> incl (untaken taken rows) (map durable_row stream).
Proof. intros Hi x (y & <- & [Hy _]%filter_In)%in_map_iff. now apply in_map, Hi. Qed.

(** One operation of the store is one step of the specification. *)
Lemma perform_step stream op s ok s' taken pending :
  consistent (map durable_row stream) -> Forall (fun r => stored_row_wf r = true) stream ->
  incl pending (map durable_row stream) -> refines s taken pending -> allowed stream op s ->
  perform op s = (ok, s') ->
  exists taken' pending', spec_step op ok (taken, pending) (taken', pending') /\ refines s' taken' pending' /\ incl pending' (map durable_row stream).
Proof.
  intros Hc Hwf Hp Href Hal Hperf.
  assert (Hrows : forall rows, incl rows stream -> Forall (fun r => stored_row_wf r = true) rows).
  { intros rows Hi. apply List.Forall_forall. intros r Hr%Hi. rewrite List.Forall_forall in Hwf. now apply Hwf. }
  destruct op as [io|io|io|rows io|rows io|io|remove|failpoint io]; cbn [perform allowed] in *.
  - apply (perform_wp _ _ _ _ _ _ (flush_unnoticed io s taken pending Href)) in Hperf. exists taken, pending.
    split; [constructor|]. split; [|easy]. destruct ok; [now destruct Hperf|easy].
  - apply (perform_wp _ _ _ _ _ _ (compact_unnoticed io s taken pending Href)) in Hperf. exists taken, pending.
    split; [constructor|]. split; [|easy]. destruct ok; [now destruct Hperf|easy].
  - apply (perform_wp _ _ _ _ _ _ (reclaim_unnoticed io s taken pending Href)) in Hperf. exists taken, pending.
    split; [constructor|]. split; [|easy]. destruct ok; [now destruct Hperf|easy].
  - destruct Hal as [Hi Est]. pose proof (no_pending _ _ _ Href Est) as ->. pose proof (in_order_wp rows io s taken Href Est (Hrows _ Hi)) as Hw.
    rewrite (fresh_untaken _ _ _ rows Href) in Hw. apply (perform_wp _ _ _ _ _ _ Hw) in Hperf. destruct ok.
    + destruct Hperf as [_ Hr']. exists (taken ++ untaken taken rows), []. split; [constructor|easy].
    + destruct Hperf as [Hr'|[Hr'|(part & Hpart & Hr')]]; [exists taken, []|exists (taken ++ untaken taken rows), []|exists taken, part];
        (split; [now constructor|]); split; try easy. intros x Hx%Hpart. now apply (untaken_stream taken rows).
  - assert (Hst : stageable pending (fresh_rows s rows)).
    { right. rewrite (fresh_untaken _ _ _ rows Href). apply (consistent_incl _ _ Hc). apply incl_app; [easy|now apply untaken_stream]. }
    pose proof (stage_cdc_wp rows io s taken pending Href Hst (Hrows _ Hal)) as Hw. rewrite (fresh_untaken _ _ _ rows Href) in Hw.
    assert (Hin : incl (pending ++ untaken taken rows) (map durable_row stream)) by (apply incl_app; [easy|now apply untaken_stream]).
    apply (perform_wp _ _ _ _ _ _ Hw) in Hperf. destruct ok.
    + destruct Hperf as [_ Hr']. exists taken, (pending ++ untaken taken rows). split; [constructor|easy].
    + destruct Hperf as (part & Hpart & Hr'). exists taken, part. split; [now constructor|]. split; [easy|]. now apply (incl_tran Hpart).
  - apply (perform_wp _ _ _ _ _ _ (publish_staged_wp io s taken pending Href)) in Hperf. destruct ok.
    + destruct Hperf as [_ Hr']. exists (taken ++ pending), []. split; [constructor|easy].
    + destruct Hperf as [Hr'|Hr']; [exists (taken ++ pending), []|exists taken, []]; (split; [constructor|easy]).
  - apply (perform_wp _ _ _ _ _ _ (discard_staged_wp remove s taken pending Href)) in Hperf. destruct ok; [|easy].
    destruct Hperf as [_ Hr']. exists taken, []. split; [constructor|easy].
  - apply (perform_wp _ _ _ _ _ _ (checkpoint_wp failpoint io s)) in Hperf. exists taken, pending. split; [constructor|]. split; [|easy].
    apply (refines_same s); [|easy]. destruct ok; [now destruct Hperf|easy].
Qed.

Lemma run_refines stream s0 log s :
  consistent (map durable_row stream) -> Forall (fun r => stored_row_wf r = true) stream -> refines s0 [] [] -> run stream s0 log s ->
  exists taken pending, spec_run log (taken, pending) /\ refines s taken pending /\ incl pending (map durable_row stream).
Proof.
  intros Hc Hwf H0' Hrun. induction Hrun as [|log s op ok s' _ (taken & pending & Hs & Hr & Hi) Hal Hp].
  - exists [], []. split; [constructor|easy].
  - destruct (perform_step _ _ _ _ _ _ _ Hc Hwf Hi Hr Hal Hp) as (taken' & pending' & Hstep & Hr' & Hi'). exists taken', pending'.
    split; [|easy]. now apply (spec_next log (taken, pending)).
Qed.

(** A table just created. *)
Record new_table (s : TableStore) : Prop := {
  new_schema : schema_ok (ts_schema s) /\ schema_wf (ts_schema s) = true;
  new_options : validate_store_options (ts_options s) = Ok tt /\ 0 <= opt_max_compaction_rows (ts_options s) /\ opt_transactional (ts_options s) = false /\ 0 <= opt_block_rows (ts_options s);
  new_manifest : ts_manifest s = manifest_empty (ts_schema s);
  new_memtable : mt_rows (ts_memtable s) = [] /\ mt_newest_version (ts_memtable s) = None;
  new_counters : ts_commit_version s = 0 /\ ts_staged s = [] /\ ts_staged_ids s = (0, 0) /\ ts_retired s = [] /\
                 ts_last_sequence s = 0
}.

Lemma empty_counters schema : schema_wf schema = true -> counters_wf (manifest_empty schema) = true.
Proof.
  intros [Hv _]%andb_prop. unfold counters_wf. cbn. rewrite Hv. unfold schema_fingerprint. now rewrite xxh3_64_range.
Qed.

Lemma new_table_refines s : new_table s -> refines s [] [].
Proof.
  intros [[N1 N1'] (N2 & N3 & N4 & N4') N5 [N6 N7] (N8 & N9 & N10 & N11 & N12)]. exists [], [].
  assert (Em : memtable_rows s = []) by (unfold memtable_rows; now rewrite N6).
  assert (Ea : applied_version s = 0) by (unfold applied_version; now rewrite N7, N8).
  split; rewrite ?Em, ?Ea; try easy.
  - split; rewrite ?N8; try easy.
    + rewrite N5, N9, N10, N11. split; cbn; try constructor; try lia; try easy.
    + split; rewrite N6; constructor.
    + rewrite N6. constructor.
    + rewrite N5, N12. split; try easy; [rewrite N6; constructor|now rewrite N7|]. now apply empty_counters.
  - exists 0. easy.
  - intros k. unfold view, contents. change (sn_rows (snapshot s)) with (memtable_rows s). now rewrite Em.
Qed.

(** What a scan of the store returns. *)
Lemma refines_scan s taken pending :
  refines s taken pending ->
  exists rows, scan (snapshot s) = Ok rows /\ key_ascending rows /\
    forall r, In r (map durable_row rows) <-> visible (row_key r) taken = Some r.
Proof.
  intros (rowss & stagedss & Hr). pose proof (store_snap_ok _ _ _ (ro_store _ _ _ _ _ Hr)) as Hsn.
  destruct (live_values_spec (contents (snapshot s) rowss)) as [Ha Hin]. eexists. split; [exact (scan_ok _ _ Hsn)|]. split; [exact Ha|].
  intros r. rewrite <- (ro_visible _ _ _ _ _ Hr). unfold view. rewrite visible_durable, in_map_iff. split.
  - intros (x & <- & Hx%Hin). cbn [durable_row row_key]. now rewrite Hx.
  - destruct (visible (row_key r) (contents (snapshot s) rowss)) as [x|] eqn:Ex; [|easy]. intros [= <-]. exists x. split; [easy|]. apply Hin.
    now destruct (visible_key _ _ _ Ex) as [-> _].
Qed.

(** C4. A replicated table refines its change stream.  Take a new table and any history of flushes,
    merges, reclaims, checkpoints, batches ingested in order, and batches staged, published or discarded,
    each with any filesystem calls failing.  The history is one of the specification, whose state is only the
    list of changes taken: a batch adds its changes above the highest version taken - replaying one
    adds nothing - and is taken whole when it succeeds; a failed one is taken whole or not at all, or
    left staged in part; everything else leaves the changes alone.  And a scan of the store returns,
    for every key, the latest change taken, unless it is a delete: no flush, merge or reclaim, failed
    or not, loses or brings back a row. *)
Theorem replica_refines_stream stream s0 log s :
  consistent (map durable_row stream) -> Forall (fun r => stored_row_wf r = true) stream -> new_table s0 -> run stream s0 log s ->
  exists taken pending rows, spec_run log (taken, pending) /\ scan (snapshot s) = Ok rows /\ key_ascending rows /\
    applied_version s = spec_applied taken /\
    forall r, In r (map durable_row rows) <-> visible (row_key r) taken = Some r.
Proof.
  intros Hc Hwf Hn%new_table_refines Hrun. destruct (run_refines _ _ _ _ Hc Hwf Hn Hrun) as (taken & pending & Hs & Hr & _).
  destruct (refines_scan _ _ _ Hr) as (rows & P1 & P2 & P3). exists taken, pending, rows. split; [easy|]. split; [easy|]. split; [easy|].
  split; [|easy]. destruct Hr as (rowss & stagedss & Hr). apply Hr.
Qed.

End replica.

(** ** Witnesses *)

Module ReplicaExamples.
Import StoreExamples.
#[local] Existing Instance WalExamples.example_checksum.
#[local] Existing Instance SegmentExamples.no_sketches.
#[local] Existing Instance Memtable.layout64.

Lemma new_store_new : new_table new_store.
Proof. split; [split; [exact MergeExamples.schema_good|now vm_compute]|now repeat split|easy|easy|easy]. Qed.

(** A row written and deleted again, and the batch with the delete begins with one the table has taken. *)
Definition stream : list StoredRow := [note 1 1 97; note 2 2 98; erased 2 3; note 3 4 99].

Definition first : operation := Ingest [note 1 1 97; note 2 2 98] ingesting.
Definition second : operation := Ingest [note 2 2 98; erased 2 3; note 3 4 99] ingesting.

Definition after_all (s : TableStore) (ops : list operation) : TableStore := foldl (fun s op => snd (perform op s)) s ops.
Definition succeeded (ops : list operation) : list (operation * bool) := map (fun op => (op, true)) ops.

#[export] Instance quotient_eq : EqDecision DecimalQuotient.
Proof. solve_decision. Defined.

#[export] Instance value_eq : EqDecision Value.
Proof. solve_decision. Defined.

#[export] Instance stored_row_eq : EqDecision StoredRow.
Proof. solve_decision. Defined.

Definition allowedb (op : operation) (s : TableStore) : bool :=
  match op with
  | Ingest rows _ => forallb (fun r => bool_decide (r ∈ stream)) rows && is_nil (ts_staged s)
  | Stage rows _ => forallb (fun r => bool_decide (r ∈ stream)) rows
  | _ => true
  end.

Fixpoint succeeds (ops : list operation) (s : TableStore) : bool :=
  match ops with
  | [] => true
  | op :: ops => allowedb op s && fst (perform op s) && succeeds ops (snd (perform op s))
  end.

Lemma allowedb_allowed op s : allowedb op s = true -> allowed stream op s.
Proof.
  assert (Hin : forall rows, forallb (fun r => bool_decide (r ∈ stream)) rows = true -> incl rows stream).
  { intros rows Hf x Hx. rewrite forallb_forall in Hf. specialize (Hf x Hx). apply bool_decide_eq_true in Hf. now apply list_elem_of_In. }
  destruct op; cbn [allowedb allowed]; try easy; [|apply Hin].
  intros [Hf Hs]%andb_true_iff. split; [now apply Hin|]. now destruct (ts_staged s).
Qed.

Lemma succeeds_run ops s0 log s :
  run stream s0 log s -> succeeds ops s = true -> run stream s0 (log ++ succeeded ops) (after_all s ops).
Proof.
  revert log s; induction ops as [|op ops IH]; intros log s Hr; cbn [succeeds succeeded map]; [now rewrite app_nil_r|].
  intros [[Ha Hp]%andb_true_iff Hs]%andb_true_iff. change (after_all s (op :: ops)) with (after_all (snd (perform op s)) ops).
  replace (log ++ (op, true) :: map (fun op => (op, true)) ops) with ((log ++ [(op, true)]) ++ succeeded ops) by now rewrite <- app_assoc.
  apply IH; [|easy]. apply (run_step stream s0 log s op true); [easy|now apply allowedb_allowed|]. rewrite <- Hp. apply surjective_pairing.
Qed.

Definition written : list operation := [first; Flush flushing; second; Flush flushing].
Definition history : list operation := written ++ [Compact compacting; Reclaim (reclaiming [])].

Definition after (ops : list operation) : TableStore := after_all new_store ops.

Lemma run_ops ops : succeeds ops new_store = true -> run stream new_store (succeeded ops) (after ops).
Proof. exact (succeeds_run ops new_store [] new_store (run_start stream new_store)). Qed.

Lemma history_succeeds : succeeds history new_store = true.
Proof. vm_compute. reflexivity. Qed.

Lemma written_succeeds : succeeds written new_store = true.
Proof. vm_compute. reflexivity. Qed.

Lemma first_succeeds : succeeds [first] new_store = true.
Proof. vm_compute. reflexivity. Qed.

Lemma stream_consistent : consistent (map durable_row stream).
Proof. intros a b Ha Hb. cbn in Ha, Hb. intuition subst; cbn in *; congruence || lia. Qed.

Lemma stream_wf : Forall (fun r => stored_row_wf r = true) stream.
Proof. apply List.Forall_forall. intros r Hr. cbn in Hr. now intuition subst. Qed.

Lemma replica_refines_stream_witness :
  exists taken pending rows, spec_run (succeeded history) (taken, pending) /\ scan (snapshot (after history)) = Ok rows /\
    rows = [note 1 1 97; note 3 4 99] /\ spec_applied taken = 4.
Proof.
  destruct (replica_refines_stream stream new_store (succeeded history) (after history) stream_consistent stream_wf new_store_new (run_ops _ history_succeeds))
    as (taken & pending & rows & Hs & Hr & _ & Ha & _).
  exists taken, pending, rows. split; [exact Hs|]. split; [exact Hr|]. split.
  - assert (E : scan (snapshot (after history)) = Ok [note 1 1 97; note 3 4 99]) by (vm_compute; reflexivity). rewrite E in Hr. now injection Hr.
  - rewrite <- Ha. vm_compute. reflexivity.
Defined.

Lemma ops_ok ops : succeeds ops new_store = true -> exists rowss stagedss, store_ok (after ops) rowss stagedss /\ consistent (concat rowss).
Proof.
  intros Hs%run_ops. destruct (run_refines stream new_store _ (after ops) stream_consistent stream_wf (new_table_refines _ new_store_new) Hs)
    as (taken & pending & _ & (rowss & stagedss & Hr) & _).
  exists rowss, stagedss. split; apply Hr.
Qed.

(** The manifest is renamed into place and its directory cannot be synced. *)
Definition unsynced : flush_io := {|
  fi_shared := false; fi_segment := SegmentOk; fi_after_segment := true;
  fi_publish := {| pio_create := true; pio_write := None; pio_rename := true; pio_sync_directory := false |};
  fi_after_manifest := true; fi_reset := reset; fi_after_reset := true |}.

Lemma flush_keeps_rows_witness :
  exists e s' rowss rowss' stagedss, flush unsynced (after [first]) = (Err e, s') /\ store_ok s' rowss' stagedss /\
    view s' rowss' = view (after [first]) rowss.
Proof.
  destruct (ops_ok [first] first_succeeds) as (rowss & stagedss & Hok & _).
  destruct (flush unsynced (after [first])) as [[n|e] s'] eqn:E; [vm_compute in E; discriminate E|].
  destruct (flush_keeps_rows unsynced (after [first]) rowss stagedss (Err e) s' Hok E) as (rowss' & Hok' & Hv & _).
  exists e, s', rowss, rowss', stagedss. split; [reflexivity|]. split; [exact Hok'|exact Hv].
Defined.


Lemma reclaim_spares_readers_witness :
  exists n s', reclaim_obsolete_segments (reclaiming [ts_manifest (after written)]) (after written) = (Ok n, s') /\
    omap_get (segment_file_name 1) (ts_segments s') = omap_get (segment_file_name 1) (ts_segments (after written)).
Proof.
  destruct (ops_ok written written_succeeds) as (rowss & stagedss & Hok & _).
  destruct (reclaim_obsolete_segments (reclaiming [ts_manifest (after written)]) (after written)) as [[n|e] s'] eqn:E; [|vm_compute in E; discriminate E].
  exists n, s'. split; [reflexivity|].
  apply (reclaim_spares_readers (reclaiming [ts_manifest (after written)]) (after written) rowss stagedss (Ok n) s' Hok E) with (m := ts_manifest (after written)).
  - now left.
  - vm_compute. reflexivity.
Defined.

End ReplicaExamples.
