(* ===== verification/LogState.v ===== *)
(** * The log of a table store

    What the log of a table that keeps it to itself holds, as batches: those the manifest covers
    already, and the fresh ones a reopening replays.  The log grows by appends that may fail anywhere,
    is cut by a loss of power, reset after a flush, and opened again. *)

From Stdlib Require Import ZArith Lia String.
From stdpp Require Import prelude list.
From coqutil Require Import Byte.
From S2P Require Import Prelude.
From S2P Require Import Types.
From S2P Require Import Codec.
From S2P Require Import Wal.
From S2P Require Import Store.

#[local] Open Scope Z_scope.

(** A row as a batch of the log has it. *)
Definition logged_row (schema : TableSchema) (r : StoredRow) : Prop :=
  durable_row r = r /\ validate_row schema r = Ok tt /\ stored_row_wf r = true.

(** A batch of this table, under its schema. *)
Record our_batch (c : TableConfig) (b : RecoveredBatch) : Prop := {
  our_table : rb_table_id b = cfg_table_id c;
  our_columns : rb_columns b = map wal_column (schema_columns (cfg_schema c));
  our_sequence : 0 <= rb_sequence b < 2 ^ 64;
  our_rows : rb_rows b <> [] /\ Forall (logged_row (cfg_schema c)) (rb_rows b)
}.

(** The log starts with the first batch ever written. *)
Definition starts_first (bs : list RecoveredBatch) : Prop := match bs with [] => True | b :: _ => rb_sequence b <= 1 end.

Section log.
Context `{Checksum}.

(** The payloads [ps] are the batches [old], up to the sequence [flushed], and [new], above it; the
    first [kept] of the new ones are on disk.  Without a manifest the log is whole. *)
Record log_ok (c : TableConfig) (present : bool) (flushed last : Z) (kept : nat) (w : Wal)
    (ps : list (list byte)) (old new : list RecoveredBatch) : Prop := {
  lo_entries : entries_from 0 ps (map EBatch (old ++ new));
  lo_ours : Forall (our_batch c) (old ++ new);
  lo_last : Forall (fun b => rb_sequence b <= last) (old ++ new);
  lo_old : Forall (fun b => rb_sequence b <= flushed) old;
  lo_new : Forall (fun b => flushed < rb_sequence b) new;
  lo_synced : HEADER_LENGTH <= wal_synced w <= len (wal_bytes w);
  lo_count : (kept <= length new)%nat;
  lo_kept : kept = O \/ len (log_of (take (length old + kept) ps)) <= wal_synced w;
  lo_size : len (wal_bytes w) < 2 ^ 63;
  lo_first : present = false -> starts_first (old ++ new)
}.

(** The log of a running table. *)
Definition live_log (c : TableConfig) (present : bool) (flushed last : Z) (fresh : list (list StoredRow)) (kept : nat) (w : Wal) : Prop :=
  exists ps old new, wal_bytes w = log_of ps /\ log_ok c present flushed last kept w ps old new /\ fresh = map rb_rows new /\
    (present = false -> old ++ new = [] -> last = 0).

(** The log of a stopped one: a torn record may follow, or the file was never initialized. *)
Definition disk_log (c : TableConfig) (present : bool) (flushed : Z) (fresh : list (list StoredRow)) (kept : nat) (w : Wal) : Prop :=
  (wal_bytes w = [] /\ fresh = []) \/
  exists ps old new tail last, wal_bytes w = log_of ps ++ tail /\ short tail /\ log_ok c present flushed last kept w ps old new /\
    fresh = map rb_rows new.

Lemma short_nil : short [].
Proof. left. now rewrite len_nil. Qed.

Lemma live_disk_log c present flushed last fresh kept w : live_log c present flushed last fresh kept w -> disk_log c present flushed fresh kept w.
Proof.
  intros (ps & old & new & Hb & Hok & Hf & _). right. exists ps, old, new, [], last. rewrite app_nil_r. split; [easy|]. split; [apply short_nil|easy].
Qed.

Lemma log_ok_kept c present flushed last kept kept' w ps old new :
  (kept' <= kept)%nat -> log_ok c present flushed last kept w ps old new -> log_ok c present flushed last kept' w ps old new.
Proof.
  intros Hle [H1 H2 H3 H4 H5 H6 H6' H7 H8 H9]. split; try easy; [lia|]. destruct H7 as [->|Hk]; [left; lia|]. right.
  assert (Hp : take (length old + kept') ps `prefix_of` take (length old + kept) ps).
  { replace (take (length old + kept') ps) with (take (length old + kept') (take (length old + kept) ps)); [apply prefix_take|].
    rewrite take_take. f_equal. lia. }
  apply len_log_of_prefix in Hp. lia.
Qed.

(** *** Flushing *)

(** A manifest that covers the whole log. *)
Lemma log_ok_flushed c present flushed last kept w ps old new :
  log_ok c present flushed last kept w ps old new -> log_ok c true last last O w ps (old ++ new) [].
Proof. intros [H1 H2 H3 H4 H5 H6 H6' H7 H8 H9]. split; rewrite ?app_nil_r; try easy. now left. Qed.

Lemma live_log_flushed c present flushed last fresh kept w :
  live_log c present flushed last fresh kept w -> live_log c true last last [] O w.
Proof.
  intros (ps & old & new & Hb & Hok & _). exists ps, (old ++ new), []. split; [easy|]. split; [exact (log_ok_flushed _ _ _ _ _ _ _ _ _ Hok)|easy].
Qed.

(** Another manifest that covers as much. *)
Lemma live_log_present c present flushed last fresh kept w :
  live_log c present flushed last fresh kept w -> live_log c true flushed last fresh kept w.
Proof. intros (ps & old & new & Hb & [] & Hf & Hs). exists ps, old, new. split; [easy|]. split; [now split|easy]. Qed.

Lemma disk_log_present c present flushed fresh kept w :
  disk_log c present flushed fresh kept w -> disk_log c true flushed fresh kept w.
Proof.
  intros [Hb|(ps & old & new & tail & last & Hb & Hs & [] & Hf)]; [now left|]. right. exists ps, old, new, tail, last. split; [easy|].
  split; [easy|]. split; [now split|easy].
Qed.

Lemma take_header ps : take (Z.to_nat HEADER_LENGTH) (log_of ps) = log_of [].
Proof. reflexivity. Qed.

Lemma reset_policy w a b d r w' : reset w a b d = (r, w') -> wal_sync_policy w' = wal_sync_policy w.
Proof. unfold reset, sync_file, set_len. cbn. destruct a, b, d; cbn; try destruct (bool_decide _); intros [= _ <-]; easy. Qed.

(** A reset, finished or not, of a log that is covered. *)
Lemma live_log_reset c flushed last kept w a b d r w' :
  live_log c true flushed last [] kept w -> reset w a b d = (r, w') -> live_log c true flushed last [] O w'.
Proof.
  intros (ps & old & new & Hb & Hok & Hf & Hs) Hr. symmetry in Hf. apply map_eq_nil in Hf as ->.
  assert (Hold : live_log c true flushed last [] O w).
  { exists ps, old, []. split; [easy|]. split; [|easy]. now apply (log_ok_kept _ _ _ _ kept); [lia|]. }
  assert (Hcut : forall synced, HEADER_LENGTH <= synced <= HEADER_LENGTH -> live_log c true flushed last [] O (set_bytes w (log_of []) synced)).
  { intros synced Hsy. exists [], [], []. split; [easy|]. split; [|easy]. split; cbn; try easy; [constructor|now left]. }
  pose proof (lo_synced _ _ _ _ _ _ _ _ _ Hok) as Hsy. revert Hr. unfold reset, sync_file, set_len. cbn [wal_bytes wal_synced set_bytes wal_sync_policy].
  rewrite Hb, take_header. destruct a; cbn [negb]; [|now intros [= _ <-]].
  assert (Hm : HEADER_LENGTH <= Z.min (wal_synced w) HEADER_LENGTH <= HEADER_LENGTH) by lia.
  destruct b; cbn [negb]; [|intros [= _ <-]; now apply Hcut]. destruct (bool_decide _); [intros [= _ <-]; now apply Hcut|].
  destruct d; cbn [negb]; intros [= _ <-]; [|now apply Hcut]. now apply (Hcut (len (log_of []))).
Qed.

(** The whole log on disk. *)
Lemma live_log_sync c present flushed last fresh kept w :
  live_log c present flushed last fresh kept w -> live_log c present flushed last fresh (length fresh) (sync_file w).
Proof.
  intros (ps & old & new & Hb & [H1 H2 H3 H4 H5 H6 H6' H7 H8 H9] & -> & Hs). exists ps, old, new. split; [easy|]. split; [|easy].
  split; cbn [sync_file set_bytes wal_bytes wal_synced]; rewrite ?length_map; try easy; [lia|]. right. rewrite Hb. apply len_log_of_prefix, prefix_take.
Qed.

(** *** Appending *)

Lemma rollback_any w0 extra io r w' :
  rollback_failed_append (set_bytes w0 (wal_bytes w0 ++ extra) (wal_synced w0)) (len (wal_bytes w0)) io = (r, w') ->
  wal_synced w0 <= len (wal_bytes w0) ->
  wal_sync_policy w' = wal_sync_policy w0 /\ wal_synced w0 <= wal_synced w' <= len (wal_bytes w') /\
  (wal_bytes w' = wal_bytes w0 \/ (io_set_len io = false /\ wal_bytes w' = wal_bytes w0 ++ extra)).
Proof.
  intros Hr Hs. destruct (io_set_len io) eqn:E.
  - apply rollback_bytes in Hr as (Hb & Hp & Hsy); [|easy..]. rewrite Hb. split; [easy|]. split; [lia|now left].
  - unfold rollback_failed_append in Hr. rewrite E in Hr. injection Hr as _ <-. split; [easy|].
    cbn [wal_bytes wal_synced set_bytes]. rewrite len_app. pose proof (len_nonneg extra). split; [lia|now right].
Qed.

(** Whatever fails in an append, the file has grown by the start of a record. *)
Lemma append_any w p io r w' :
  append_encoded w p io = (r, w') -> wal_synced w <= len (wal_bytes w) ->
  wal_sync_policy w' = wal_sync_policy w /\ wal_synced w <= wal_synced w' <= len (wal_bytes w') /\
  match r with
  | Ok _ => len p <= MAX_RECORD_LENGTH /\ wal_bytes w' = wal_bytes w ++ write_record p /\
      (wal_sync_policy w = Always -> wal_synced w' = len (wal_bytes w'))
  | Err _ => wal_bytes w' = wal_bytes w \/
      (io_set_len io = false /\ len p <= MAX_RECORD_LENGTH /\ exists n, wal_bytes w' = wal_bytes w ++ take n (write_record p))
  end.
Proof.
  intros Ha Hs. revert Ha. unfold append_encoded. pose proof (len_nonneg (write_record p)) as Hlp.
  destruct (io_failpoint io); cbn [negb]; [|intros [= <- <-]; auto with lia].
  destruct (Z.ltb_spec MAX_RECORD_LENGTH (len p)); [intros [= <- <-]; auto with lia|].
  destruct (_ <? _); [intros [= <- <-]; auto with lia|].
  destruct (io_seek io); cbn [negb]; [|intros [= <- <-]; auto with lia].
  unfold write_at_end. destruct (io_write io) as [n|].
  - destruct (rollback_failed_append _ _ _) as [r2 w2] eqn:E. apply rollback_any in E as (Hp & Hsy & Hb); [|easy].
    assert (Hcase : wal_bytes w2 = wal_bytes w \/
      (io_set_len io = false /\ len p <= MAX_RECORD_LENGTH /\ exists n, wal_bytes w2 = wal_bytes w ++ take n (write_record p))).
    { destruct Hb as [Hb|[Hb Hb']]; [now left|]. right. split; [easy|]. split; [easy|]. now exists (Z.to_nat n). }
    destruct r2; intros [= <- <-]; easy.
  - destruct (bool_decide (wal_sync_policy w = Always)) eqn:Ep.
    + destruct (io_sync_data io).
      * intros [= <- <-]. cbn [sync_file set_bytes wal_bytes wal_synced wal_sync_policy]. rewrite len_app. split; [easy|]. split; [lia|]. split; [easy|]. split; [easy|]. now intros.
      * destruct (rollback_failed_append _ _ _) as [r2 w2] eqn:E. apply rollback_any in E as (Hp & Hsy & Hb); [|easy].
        assert (Hcase : wal_bytes w2 = wal_bytes w \/
          (io_set_len io = false /\ len p <= MAX_RECORD_LENGTH /\ exists n, wal_bytes w2 = wal_bytes w ++ take n (write_record p))).
        { destruct Hb as [Hb|[Hb Hb']]; [now left|]. right. split; [easy|]. split; [easy|]. exists (length (write_record p)). now rewrite firstn_all. }
        destruct r2; intros [= <- <-]; easy.
    + apply bool_decide_eq_false in Ep. intros [= <- <-]. cbn [set_bytes wal_bytes wal_synced wal_sync_policy]. rewrite len_app.
      split; [easy|]. split; [lia|]. split; [easy|]. split; [easy|]. now intros.
Qed.

Lemma last_entry_le last bs : Forall (fun b => rb_sequence b <= last) bs -> forall z, z <= last ->
  foldl (fun _ e => entry_sequence e) z (map EBatch bs) <= last.
Proof. induction 1 as [|b bs Hb _ IH]; intros z Hz; cbn [map foldl]; [easy|]. now apply IH. Qed.

(** A batch appended to a log without a torn tail. *)
Lemma log_ok_extend c present flushed last kept w ps old new p b w' kept' :
  log_ok c present flushed last kept w ps old new -> wal_bytes w = log_of ps ->
  read_entry p = Some (EBatch b) -> our_batch c b -> flushed <= last < rb_sequence b -> 0 <= last -> len p <= u32_max ->
  (present = false -> old ++ new = [] -> rb_sequence b <= 1) ->
  wal_bytes w' = wal_bytes w ++ write_record p -> wal_synced w <= wal_synced w' <= len (wal_bytes w') -> len (wal_bytes w') < 2 ^ 63 ->
  (kept' <= kept)%nat \/ ((kept' <= S (length new))%nat /\ wal_synced w' = len (wal_bytes w')) ->
  log_ok c present flushed (rb_sequence b) kept' w' (ps ++ [p]) old (new ++ [b]).
Proof.
  intros [H1 H2 H3 H4 H5 H6 H6' H7 H8 H9] Hb Hp Hour Hseq Hlast Hlen Hfirst Hb' Hs' Hsz Hk.
  pose proof (entries_from_length _ _ _ H1) as Hl. rewrite length_map, length_app in Hl.
  split; rewrite ?app_assoc; try easy.
  - rewrite (map_app EBatch). apply entries_from_app; [exact H1|easy|exact Hp|]. cbn [entry_sequence]. pose proof (last_entry_le last _ H3 0 Hlast). lia.
  - apply Forall_app. split; [easy|now constructor].
  - apply Forall_app. split; [|constructor; [lia|constructor]]. eapply Forall_impl; [exact H3|]. cbn. intros; lia.
  - apply Forall_app. split; [easy|constructor; [lia|constructor]].
  - lia.
  - rewrite length_app. cbn. lia.
  - destruct Hk as [Hk|[_ Hk]].
    + destruct H7 as [->|H7]; [left; lia|]. right. rewrite take_app_le by lia.
      assert (Hpre : take (length old + kept') ps `prefix_of` take (length old + kept) ps).
      { replace (take (length old + kept') ps) with (take (length old + kept') (take (length old + kept) ps)); [apply prefix_take|].
        rewrite take_take. f_equal. lia. }
      apply len_log_of_prefix in Hpre. lia.
    + right. rewrite Hk, Hb', Hb, <- log_of_snoc. apply len_log_of_prefix, prefix_take.
  - intros Hpr. specialize (H9 Hpr). specialize (Hfirst Hpr). destruct (old ++ new); [now apply Hfirst|easy].
Qed.

Lemma log_ok_grown c present flushed last kept w w' ps old new :
  log_ok c present flushed last kept w ps old new -> wal_synced w <= wal_synced w' <= len (wal_bytes w') -> len (wal_bytes w') < 2 ^ 63 ->
  log_ok c present flushed last kept w' ps old new.
Proof. intros [H1 H2 H3 H4 H5 H6 H6' H7 H8 H9] Hs Hl. split; try easy; [lia|]. destruct H7; [now left|right; lia]. Qed.

(** The rows of a batch as a validated one has them. *)
Lemma logged_rows schema rows :
  Forall (fun r => validate_row schema r = Ok tt) rows -> Forall (fun r => stored_row_wf r = true) rows ->
  Forall (logged_row schema) (map durable_row rows).
Proof.
  intros Hv Hw. apply Forall_fmap. eapply Forall_impl; [exact (proj2 (Forall_and _ _) (conj Hv Hw))|]. intros r [Hr Hr']. split; [apply durable_row_idem|].
  split; [now rewrite validate_durable|now apply durable_row_wf].
Qed.

(** An append: the batch is in the log; or the log is as it was, unless the rollback fails. *)
Lemma append_log c present flushed last fresh kept w rows payload io r w' :
  live_log c present flushed last fresh kept w ->
  batch_wf (last + 1) (cfg_table_id c) (cfg_schema c) rows = true -> rows <> [] -> Forall (fun r => validate_row (cfg_schema c) r = Ok tt) rows ->
  encode_batch (last + 1) (cfg_table_id c) (cfg_schema c) rows = Ok payload -> flushed <= last -> 0 <= last -> len (wal_bytes w) < 2 ^ 62 ->
  append_encoded w payload io = (r, w') ->
  wal_sync_policy w' = wal_sync_policy w /\
  match r with
  | Ok _ => live_log c present flushed (last + 1) (fresh ++ [map durable_row rows]) kept w' /\
      (wal_sync_policy w = Always -> live_log c present flushed (last + 1) (fresh ++ [map durable_row rows]) (S (length fresh)) w')
  | Err _ => (io_set_len io = true -> live_log c present flushed last fresh kept w') /\
      (disk_log c present flushed fresh kept w' \/ disk_log c present flushed (fresh ++ [map durable_row rows]) kept w')
  end.
Proof.
  intros (ps & old & new & Hb & Hok & -> & Hs) Hwf Hne Hval He Hfl Hlast Hroom Ha.
  pose proof (lo_synced _ _ _ _ _ _ _ _ _ Hok) as Hsy. apply append_any in Ha as (Hp & Hsy' & Hcase); [|lia]. split; [easy|].
  set (b := replayed_batch (last + 1) (cfg_table_id c) (cfg_schema c) rows).
  assert (Hour : our_batch c b).
  { unfold batch_wf in Hwf. apply andb_prop in Hwf as [[[[Hu _]%andb_prop _]%andb_prop _]%andb_prop Hwf]. apply in_unsigned_spec in Hu.
    split; [easy|easy|exact Hu|]. split; [now destruct rows|]. apply logged_rows; [easy|]. apply List.Forall_forall. now apply forallb_forall. }
  assert (Hext : forall w1 kept', len payload <= MAX_RECORD_LENGTH -> wal_bytes w1 = wal_bytes w ++ write_record payload ->
    wal_synced w <= wal_synced w1 <= len (wal_bytes w1) -> (kept' <= kept)%nat \/ ((kept' <= S (length new))%nat /\ wal_synced w1 = len (wal_bytes w1)) ->
    log_ok c present flushed (last + 1) kept' w1 (ps ++ [payload]) old (new ++ [b])).
  { intros w1 kept' Hlp Hb1 Hs1 Hk. unfold MAX_RECORD_LENGTH in Hlp. apply (log_ok_extend c present flushed last kept w ps old new payload b w1); try easy.
    - apply read_entry_batch; [easy..|lia].
    - cbn. lia.
    - unfold u32_max. lia.
    - intros Hpr Hnil. specialize (Hs Hpr Hnil). cbn. lia.
    - rewrite Hb1, len_app, len_write_record. lia. }
  destruct r as [u|e].
  - destruct Hcase as (Hlp & Hb' & Hal). assert (Hlive : forall kept', log_ok c present flushed (last + 1) kept' w' (ps ++ [payload]) old (new ++ [b]) ->
      live_log c present flushed (last + 1) (map rb_rows new ++ [map durable_row rows]) kept' w').
    { intros kept' Hk. exists (ps ++ [payload]), old, (new ++ [b]). split; [now rewrite Hb', Hb, log_of_snoc|]. split; [easy|].
      split; [now rewrite map_app|]. intros _ Hnil. destruct old, new; easy. }
    split; [apply Hlive, Hext; auto|]. intros Hpol. apply Hlive, Hext; auto. right. rewrite length_map. split; [easy|]. now apply Hal.
  - assert (Hsame : wal_bytes w' = wal_bytes w -> live_log c present flushed last (map rb_rows new) kept w').
    { intros Eb. exists ps, old, new. split; [congruence|]. split; [|easy]. apply (log_ok_grown _ _ _ _ _ w); [easy|easy|]. rewrite Eb. lia. }
    destruct Hcase as [Hb'|(Hio & Hlp & n & Hb')]; [split; [intros _; now apply Hsame|left; exact (live_disk_log _ _ _ _ _ _ _ (Hsame Hb'))]|].
    split; [congruence|]. destruct (Nat.lt_ge_cases n (length (write_record payload))) as [Hlt|Hge].
    + left. right. exists ps, old, new, (take n (write_record payload)), last. split; [now rewrite Hb', Hb|].
      split; [apply record_prefix_short; [unfold MAX_RECORD_LENGTH, u32_max in *; lia|easy]|]. split; [|easy]. apply (log_ok_grown _ _ _ _ _ w); [easy..|].
      rewrite Hb', len_app. assert (len (take n (write_record payload)) <= len (write_record payload)) by (unfold len; rewrite length_take; lia).
      rewrite len_write_record in *. unfold MAX_RECORD_LENGTH in *. lia.
    + right. right. rewrite firstn_all2 in Hb' by easy. exists (ps ++ [payload]), old, (new ++ [b]), [], (last + 1).
      split; [now rewrite app_nil_r, Hb', Hb, log_of_snoc|]. split; [apply short_nil|]. split; [apply Hext; auto|]. now rewrite map_app.
Qed.

(** *** Losing power *)

Lemma short_take tail n : short tail -> short (take n tail).
Proof.
  unfold short, len. intros Hs. rewrite length_take. destruct (Nat.lt_ge_cases n 4); [left; lia|].
  destruct (Nat.lt_ge_cases (length tail) 4); [left; lia|]. right. rewrite take_take. replace (4 `min` n)%nat with 4%nat by lia. lia.
Qed.

(** What is left of the bytes of a file: at least the synchronized ones. *)
Definition cut (n : Z) (w : Wal) : Wal := set_bytes w (take (Z.to_nat n) (wal_bytes w)) n.

Lemma cut_log ps tail n :
  Forall (fun p => len p <= u32_max) ps -> short tail -> HEADER_LENGTH <= n <= len (log_of ps ++ tail) ->
  exists m tail', (m <= length ps)%nat /\ short tail' /\ take (Z.to_nat n) (log_of ps ++ tail) = log_of (take m ps) ++ tail' /\
    ((m < length ps)%nat -> n < len (log_of (take (S m) ps))).
Proof.
  intros Hf Hs Hn. destruct (Z.le_gt_cases (len (log_of ps)) n) as [Hge|Hlt].
  - exists (length ps), (take (Z.to_nat n - length (log_of ps)) tail). split; [easy|]. split; [now apply short_take|]. split; [|lia].
    rewrite firstn_all, take_app_ge by (unfold len in Hge; lia). easy.
  - unfold HEADER_LENGTH in Hn. destruct (cut_records ps (Z.to_nat n - 6)) as (m & tail' & Hm & Hst & Et & Hmax); [easy| |].
    { unfold log_of in Hlt. rewrite len_app, len_wal_header in Hlt. unfold len in Hlt. lia. }
    exists m, tail'. split; [easy|]. split; [easy|]. split.
    + rewrite take_app_le by (unfold len in Hlt; lia). unfold log_of. rewrite take_app_ge by (change (length wal_header) with 6%nat; lia).
      change (length wal_header) with 6%nat. now rewrite Et, app_assoc.
    + intros Hlt'%Hmax. unfold log_of. rewrite len_app, len_wal_header. unfold len. lia.
Qed.

(** The batches on disk survive a loss of power, and of the others the first ones. *)
Lemma disk_log_cut c present flushed fresh kept w n :
  disk_log c present flushed fresh kept w -> (kept <= length fresh)%nat -> wal_synced w <= n <= len (wal_bytes w) ->
  exists k, (kept <= k <= length fresh)%nat /\ disk_log c present flushed (take k fresh) k (cut n w).
Proof.
  intros [[Hb ->]|(ps & old & new & tail & last & Hb & Hs & [H1 H2 H3 H4 H5 H6 H6' H7 H8 H9] & ->)] Hk Hn.
  { exists O. cbn in Hk. split; [cbn; lia|]. left. split; [|easy]. unfold cut. cbn. rewrite Hb. apply take_nil. }
  pose proof (entries_from_length _ _ _ H1) as Hl. rewrite length_map, length_app in Hl.
  destruct (cut_log ps tail n) as (m & tail' & Hm & Hst & Et & Hmax);
    [exact (entries_from_sizes _ _ _ H1)|easy|rewrite <- Hb; lia|].
  exists (m - length old)%nat. rewrite length_map in *. split.
  { split; [|lia]. destruct H7 as [->|H7]; [lia|]. destruct (Nat.le_gt_cases (length old + kept) m) as [|Hlt]; [lia|].
    specialize (Hmax ltac:(lia)). assert (Hp : take (S m) ps `prefix_of` take (length old + kept) ps).
    { replace (take (S m) ps) with (take (S m) (take (length old + kept) ps)); [apply prefix_take|]. rewrite take_take. f_equal. lia. }
    apply len_log_of_prefix in Hp. lia. }
  assert (Hn0 : 0 <= n) by (unfold HEADER_LENGTH in H6; lia).
  assert (Hlen : len (take (Z.to_nat n) (wal_bytes w)) = n) by (unfold len in *; rewrite length_take; lia).
  assert (Esplit : take m (old ++ new) = take m old ++ take (m - length old) new) by now rewrite take_app.
  right. exists (take m ps), (take m old), (take (m - length old) new), tail', last. unfold cut. cbn [wal_bytes set_bytes].
  split; [now rewrite Hb|]. split; [easy|]. split; [|now rewrite firstn_map].
  split; rewrite <- ?Esplit; cbn [wal_bytes wal_synced set_bytes]; rewrite ?Hlen.
  - rewrite <- firstn_map. now apply entries_from_take.
  - now apply Forall_take.
  - now apply Forall_take.
  - now apply Forall_take.
  - now apply Forall_take.
  - lia.
  - rewrite length_take. lia.
  - right. rewrite length_take, take_take. assert (Hp : take ((length old `min` m + (m - length old)) `min` m) ps `prefix_of` take m ps).
    { replace ((length old `min` m + (m - length old)) `min` m)%nat with m by lia. easy. }
    apply len_log_of_prefix in Hp. apply (f_equal len) in Et. rewrite <- Hb, Hlen, len_app in Et. pose proof (len_nonneg tail').
    replace (m `min` length old)%nat with (length old `min` m)%nat by lia. lia.
  - lia.
  - intros Hpr%H9. destruct (old ++ new); [now rewrite take_nil|]. now destruct m.
Qed.

(** *** Opening *)

Lemma replay_batches_of k ps bs :
  length ps = length bs -> k_batches (foldl replay_entry k (zip ps (map EBatch bs))) = k_batches k ++ bs /\
  k_last_commit (foldl replay_entry k (zip ps (map EBatch bs))) = k_last_commit k.
Proof.
  revert k bs; induction ps as [|p ps IH]; intros k [|b bs] Hl; try easy; cbn [map zip zip_with foldl]; [now rewrite app_nil_r|].
  destruct (IH (replay_entry k (p, EBatch b)) bs) as [-> ->]; [now injection Hl|]. cbn. now rewrite <- app_assoc.
Qed.

Lemma last_sequence_ge bs z ps : entries_from z ps (map EBatch bs) ->
  z <= foldl (fun _ e => entry_sequence e) z (map EBatch bs) /\
  Forall (fun b => rb_sequence b <= foldl (fun _ e => entry_sequence e) z (map EBatch bs)) bs.
Proof.
  revert z ps; induction bs as [|b bs IH]; intros z ps He; cbn [map foldl]; [easy|].
  inversion He as [|p e ps' es Hp Hr Hlt Hrest]; subst. cbn [entry_sequence] in *. destruct (IH _ _ Hrest) as [Hge Hall].
  split; [lia|]. now constructor.
Qed.

Lemma log_ok_synced c present flushed last last' kept w w' ps old new :
  log_ok c present flushed last kept w ps old new -> Forall (fun b => rb_sequence b <= last') (old ++ new) ->
  len (wal_bytes w') <= len (wal_bytes w) -> Z.min (wal_synced w) (len (wal_bytes w')) <= wal_synced w' <= len (wal_bytes w') ->
  len (log_of ps) <= len (wal_bytes w') -> log_ok c present flushed last' kept w' ps old new.
Proof.
  intros [H1 H2 H3 H4 H5 H6 H6' H7 H8 H9] Hl Hle Hs Hps. split; try easy.
  - assert (HEADER_LENGTH <= len (log_of ps)) by (unfold log_of, HEADER_LENGTH; rewrite len_app, len_wal_header; pose proof (len_nonneg (concat (map write_record ps))); lia).
    lia.
  - destruct H7 as [H7|H7]; [now left|right]. pose proof (len_log_of_prefix _ _ (prefix_take ps (length old + kept))). lia.
  - lia.
Qed.

(** What a recovery makes of the batches of a log. *)
Record recovered (rec : Recovery) (bs : list RecoveredBatch) : Prop := {
  rc_batches : rec_batches rec = bs;
  rc_sequence : 0 <= rec_last_sequence rec /\ Forall (fun b => rb_sequence b <= rec_last_sequence rec) bs;
  rc_reached : match bs with [] => rec_last_sequence rec = 0 | _ => exists b, In b bs /\ rec_last_sequence rec = rb_sequence b end
}.

Lemma replay_recovered ps bs : entries_from 0 ps (map EBatch bs) -> recovered (recovery_of (replay ps (map EBatch bs))) bs.
Proof.
  intros He. pose proof (entries_from_length _ _ _ He) as Hl. unfold replay, recovery_of.
  destruct (replay_batches_of walk_start ps bs) as [Eb _]; [now rewrite length_map in Hl|].
  assert (Es := foldl_replay_sequence walk_start ps (map EBatch bs) Hl). cbn [k_last_sequence walk_start] in Es.
  destruct (last_sequence_ge _ _ _ He) as [Hge Hall]. split; cbn [rec_batches rec_last_sequence]; rewrite ?Eb, ?Es; [easy|easy|].
  clear. destruct bs as [|b bs]; [easy|]. cbn [map foldl entry_sequence].
  assert (Hin : forall b, exists x, In x (b :: bs) /\ foldl (fun _ e => entry_sequence e) (rb_sequence b) (map EBatch bs) = rb_sequence x).
  { induction bs as [|y bs IH]; intros x; cbn [map foldl entry_sequence]; [exists x; split; [now left|easy]|].
    destruct (IH y) as (z & Hz & E). exists z. split; [now right|easy]. }
  apply Hin.
Qed.

(** What an open finds: the log as it was, whole or cut at its last record; a failed one leaves it. *)
Lemma disk_log_open c present flushed fresh kept w policy i r t res w' :
  disk_log c present flushed fresh kept w -> (kept <= length fresh)%nat ->
  open {| wal_bytes := wal_bytes w; wal_synced := wal_synced w; wal_sync_policy := policy |} i r t = (res, w') ->
  match res with
  | Ok rec => wal_sync_policy w' = policy /\ exists ps old new, wal_bytes w' = log_of ps /\ fresh = map rb_rows new /\
      recovered rec (old ++ new) /\ log_ok c present flushed (rec_last_sequence rec) kept w' ps old new
  | Err _ => disk_log c present flushed fresh kept w' /\ i && r && t = false
  end.
Proof.
  intros Hd Hk. unfold open. cbn [wal_bytes]. set (w0 := {| wal_bytes := wal_bytes w; wal_synced := wal_synced w; wal_sync_policy := policy |}).
  assert (Hgen : forall w1 ps old new tail last, wal_bytes w1 = log_of ps ++ tail -> short tail -> wal_sync_policy w1 = policy ->
    log_ok c present flushed last kept w1 ps old new -> fresh = map rb_rows new -> recover w1 true r t = (res, w') ->
    match res with
    | Ok rec => wal_sync_policy w' = policy /\ exists ps old new, wal_bytes w' = log_of ps /\ fresh = map rb_rows new /\
        recovered rec (old ++ new) /\ log_ok c present flushed (rec_last_sequence rec) kept w' ps old new
    | Err _ => disk_log c present flushed fresh kept w' /\ i && r && t = false
    end).
  { intros w1 ps old new tail last Hb Hs Hpol Hok Hf. assert (Hd1 : disk_log c present flushed fresh kept w1) by (right; now exists ps, old, new, tail, last).
    pose proof (lo_entries _ _ _ _ _ _ _ _ _ Hok) as He. pose proof (entries_from_length _ _ _ He) as Hl. pose proof (lo_size _ _ _ _ _ _ _ _ _ Hok) as Hsz.
    unfold recover. destruct r; cbn [negb]; [|intros [= <- <-]; now rewrite andb_false_r]. rewrite Hb, (scan_log_entries _ _ _ He Hs) by now rewrite <- Hb.
    rewrite replay_valid_length by easy. cbn [andb]. pose proof (replay_recovered _ _ He) as Hrec. pose proof (rc_sequence _ _ Hrec) as [_ Hlast].
    pose proof (len_nonneg tail). pose proof (lo_synced _ _ _ _ _ _ _ _ _ Hok) as Hsy.
    destruct (Z.eqb_spec (len (log_of ps)) (len (log_of ps ++ tail))) as [E|E]; cbn [negb].
    - assert (tail = []) as -> by (rewrite len_app in E; destruct tail; [easy|]; len_lia). rewrite app_nil_r in Hb.
      intros [= <- <-]. split; [easy|]. exists ps, old, new. split; [easy|]. split; [easy|]. split; [easy|].
      apply (log_ok_synced _ _ _ last _ _ w1); try easy; [lia|now rewrite Hb].
    - destruct t; [|intros [= <- <-]; now rewrite andb_false_r]. intros [= <- <-]. split; [easy|].
      assert (Hb' : wal_bytes (sync_file (set_len w1 (len (log_of ps)))) = log_of ps).
      { unfold sync_file, set_len. cbn [wal_bytes set_bytes]. now rewrite Hb, len_to_nat, take_app_length. }
      exists ps, old, new. split; [easy|]. split; [easy|]. split; [easy|].
      apply (log_ok_synced _ _ _ last _ _ w1); try easy; rewrite ?Hb'; [rewrite Hb, len_app; lia| |easy].
      assert (Hsy' : wal_synced (sync_file (set_len w1 (len (log_of ps)))) = len (log_of ps)) by (etransitivity; [|exact (f_equal len Hb')]; easy).
      rewrite Hsy'. lia. }
  destruct Hd as [[Hb ->]|(ps & old & new & tail & last & Hb & Hs & Hok & Hf)].
  - rewrite Hb. cbn [len length Z.of_nat Z.eqb]. destruct i; [|intros [= <- <-]; split; [|easy]; left; now split]. apply (Hgen _ [] [] [] [] 0).
    + reflexivity.
    + apply short_nil.
    + easy.
    + cbn in Hk. assert (kept = O) as -> by lia. split; cbn; try easy; [constructor|now left].
    + easy.
  - pose proof (lo_synced _ _ _ _ _ _ _ _ _ Hok) as Hsy. destruct (Z.eqb_spec (len (wal_bytes w)) 0) as [E|_]; [unfold HEADER_LENGTH in Hsy; lia|].
    apply (Hgen w0 ps old new tail last); try easy. apply (log_ok_synced _ _ _ last _ _ w); try easy; cbn [wal_bytes wal_synced w0]; [apply Hok|lia|].
    rewrite Hb, len_app. pose proof (len_nonneg tail). lia.
Qed.

End log.
