(* ===== verification/Durability.v ===== *)
(** * What a table store leaves on disk

    A running table and its disk: the manifest on disk is the one in memory, its segments hold the
    batches flushed, and the log the batches taken since.  Every operation keeps this; one that is
    killed at any point, or whose manifest is in place but could not be synchronized, leaves a disk
    with the same batches on it. *)

From Stdlib Require Import ZArith Lia String Sorted.
From stdpp Require Import prelude list.
From coqutil Require Import Byte.
From S2P Require Import Prelude.
From S2P Require Import Types.
From S2P Require Import Codec.
From S2P Require Import Wal.
From S2P Require Import Memtable.
From S2P Require Import Manifest.
From S2P Require Import Segment.
From S2P Require Import Metadata.
From S2P Require Import SegmentFile.
From S2P Require Import Merge.
From S2P Require Import Compaction.
From S2P Require Import Snapshot.
From S2P Require Import Store.
From S2P Require Import StoreInvariant.
From S2P Require Import Replica.
From S2P Require Import LogState.

#[local] Open Scope Z_scope.

(** ** Batches *)

(** Every batch is newer than all before it. *)
Definition batches_ordered (B : list (list StoredRow)) : Prop :=
  forall before b after, B = before ++ b :: after -> forall r, In r b -> spec_applied (concat before) < row_version r.

Lemma ordered_snoc B b :
  batches_ordered B -> (forall r, In r b -> spec_applied (concat B) < row_version r) -> batches_ordered (B ++ [b]).
Proof.
  intros Ho Hb before x after E r Hr. destruct after as [|y after] using rev_ind.
  - apply app_inj_tail in E as [-> ->]. now apply Hb.
  - clear IHafter. rewrite app_comm_cons, app_assoc in E. apply app_inj_tail in E as [-> _]. now apply (Ho before x after).
Qed.

Lemma ordered_take B k : batches_ordered B -> batches_ordered (take k B).
Proof.
  intros Ho before b after E r Hr. apply (Ho before b (after ++ drop k B)); [|easy].
  now rewrite app_comm_cons, app_assoc, <- E, take_drop.
Qed.

(** A batch that has rows. *)
Definition with_batch (B : list (list StoredRow)) (b : list StoredRow) : list (list StoredRow) :=
  match b with [] => B | _ => B ++ [b] end.

Lemma with_batch_concat B b : concat (with_batch B b) = concat B ++ b.
Proof. unfold with_batch. destruct b; [now rewrite app_nil_r|]. rewrite concat_app. cbn [concat]. now rewrite app_nil_r. Qed.

(** ** Manifests on disk *)

Definition manifest_file (d : Disk) : option (list byte) := dir_manifest (dk_manifest d).
Definition present (d : Disk) : bool := is_some (manifest_file d).

Lemma files_bare dir schema m staged reserved retired rowss stagedss :
  files_ok dir schema m staged reserved retired rowss stagedss -> files_ok dir schema m [] (0, 0) [] rowss [].
Proof.
  intros [H1 H2 H3 H4 H5 H6 H7]%files_unstage. split; try easy. split; [easy|]. split; [cbn; lia|].
  apply Forall_forall. intros meta _. unfold free_of. cbn. lia.
Qed.

Section durability.
Context `{Checksum} `{BlockSketches} `{Layout} `{FileBytes}.

Definition on_disk (d : Disk) (schema : TableSchema) (m : Manifest) : Prop := manifest_load (manifest_file d) schema = Ok m.

(** The manifest on disk is the one in memory. *)
Definition in_sync (s : TableStore) : Prop := on_disk (ts_disk s) (ts_schema s) (ts_manifest s).

Lemma manifest_sound c mt v q m dir schema staged reserved retired rowss stagedss :
  typed c mt v q m -> files_ok dir schema m staged reserved retired rowss stagedss -> manifest_wf m = true /\ ids_follow m = true.
Proof.
  intros Ht Hf. pose proof (fo_next _ _ _ _ _ _ _ _ Hf) as Hn. pose proof (fo_named _ _ _ _ _ _ _ _ Hf) as Hnm. split.
  - change (manifest_wf m) with (counters_wf m && forallb segment_wf (man_segments m)). rewrite (ty_counters _ _ _ _ _ Ht). cbn [andb].
    pose proof (fo_holds _ _ _ _ _ _ _ _ Hf) as Hk. clear -Hk. induction Hk as [|meta rows segments rowss Hm _ IH]; [easy|].
    cbn [forallb]. now rewrite (known_wf _ _ _ _ Hm).
  - unfold ids_follow. destruct (Z.eqb_spec (man_next_segment_id m) 0); [lia|]. cbn [negb andb]. apply forallb_forall.
    intros meta Hm. apply Forall_app in Hnm as [Hnm _]. rewrite List.Forall_forall in Hnm. destruct (Hnm meta Hm) as [Hb _]. lia.
Qed.

Lemma load_read c mt v q m file :
  typed c mt v q m -> manifest_read file = Ok (Some m) -> manifest_load file (cfg_schema c) = Ok m.
Proof.
  intros Ht Hr. destruct (ty_described _ _ _ _ _ Ht) as (E1 & E2 & E3). unfold manifest_load, mbind, result_bind. rewrite Hr, E1, E2, E3.
  rewrite Z.ltb_irrefl, !Z.eqb_refl, bool_decide_true by easy. easy.
Qed.

Lemma read_present file m : manifest_read file = Ok (Some m) -> is_some file = true.
Proof. now destruct file. Qed.

(** A publication puts the manifest in place, or leaves the one there; or puts it in place and fails
    to synchronize the directory. *)
Lemma wp_publish_disk m io (Q : unit -> TableStore -> Prop) (E : TableStore -> Prop) s mt v q dir staged reserved retired rowss stagedss :
  typed (ts_config s) mt v q m -> files_ok dir (ts_schema s) m staged reserved retired rowss stagedss ->
  (forall d, is_some (dir_manifest d) = true -> manifest_load (dir_manifest d) (ts_schema s) = Ok m -> Q tt (set_manifest_dir d s)) ->
  (forall d, dir_manifest d = manifest_file (ts_disk s) -> E (set_manifest_dir d s)) ->
  (forall d, pio_sync_directory io = false -> is_some (dir_manifest d) = true -> manifest_load (dir_manifest d) (ts_schema s) = Ok m ->
     E (set_manifest_dir d s)) ->
  wp (publish m io) Q E s.
Proof.
  intros Ht Hf HQ HE HF. destruct (manifest_sound _ _ _ _ _ _ _ _ _ _ _ _ Ht Hf) as [Hw Hi].
  unfold wp, publish. destruct (manifest_publish _ _ _) as [r d] eqn:Ep. apply publish_cases in Ep; [|easy..]. destruct r as [[]|e].
  - apply HQ; [exact (read_present _ _ Ep)|exact (load_read _ _ _ _ _ _ Ht Ep)].
  - destruct Ep as [Ep|[Es Ep]]; [now apply HE|]. apply HF; [easy|exact (read_present _ _ Ep)|exact (load_read _ _ _ _ _ _ Ht Ep)].
Qed.

Lemma wp_and {A} (m : Table A) (Q Q' : A -> TableStore -> Prop) (E E' : TableStore -> Prop) s :
  wp m Q E s -> wp m Q' E' s -> wp m (fun a s => Q a s /\ Q' a s) (fun s => E s /\ E' s) s.
Proof. unfold wp. now destruct (m s) as [[a|e] s']. Qed.

(** ** A table and its disk *)

(** The segments of a manifest hold the changes [base]. *)
Record base_ok (m : Manifest) (rowss : list (list StoredRow)) (base : list StoredRow) : Prop := {
  ba_visible : forall k, visible k (concat rowss) = visible k base;
  ba_committed : man_committed_version m = spec_applied base;
  ba_versions : forall r, In r (concat rowss) -> row_version r <= man_committed_version m
}.

(** A disk with the batches [B] on it, the first [n] of them for good; the first [j] are in segments. *)
Record stored (c : TableConfig) (d : Disk) (B : list (list StoredRow)) (n : nat) (m : Manifest) (rowss : list (list StoredRow)) (j : nat) : Prop := {
  sd_load : on_disk d (cfg_schema c) m;
  sd_files : files_ok (dk_segments d) (cfg_schema c) m [] (0, 0) [] rowss [];
  sd_typed : typed c memtable_default 0 0 m;
  sd_consistent : consistent (concat rowss);
  sd_base : base_ok m rowss (concat (take j B));
  sd_log : disk_log c (present d) (man_flushed_sequence m) (drop j B) (n - j) (dk_wal d);
  sd_range : (j <= length B)%nat /\ (n <= length B)%nat;
  sd_ordered : batches_ordered B
}.

Definition disk_ok (c : TableConfig) (d : Disk) (B : list (list StoredRow)) (n : nat) : Prop := exists m rowss j, stored c d B n m rowss j.

(** A table that has taken the batches [B], with [pending] staged. *)
Record live_at (s : TableStore) (B : list (list StoredRow)) (n : nat) (pending : list StoredRow)
    (rowss stagedss : list (list StoredRow)) (j : nat) : Prop := {
  li_replica : replica_ok s rowss stagedss (concat B) pending;
  li_sync : in_sync s;
  li_base : base_ok (ts_manifest s) rowss (concat (take j B));
  li_log : live_log (ts_config s) (present (ts_disk s)) (man_flushed_sequence (ts_manifest s)) (ts_last_sequence s) (drop j B) (n - j) (dk_wal (ts_disk s));
  li_policy : wal_sync_policy (dk_wal (ts_disk s)) = opt_wal_sync (ts_options s);
  li_sequence : man_flushed_sequence (ts_manifest s) <= ts_last_sequence s;
  li_settled : memtable_rows s = [] -> mt_newest_version (ts_memtable s) = None /\
                 ts_commit_version s = man_committed_version (ts_manifest s) /\ j = length B;
  li_range : (j <= length B)%nat /\ (n <= length B)%nat;
  li_ordered : batches_ordered B
}.

Definition live (s : TableStore) (B : list (list StoredRow)) (n : nat) (pending : list StoredRow) : Prop :=
  exists rowss stagedss j, live_at s B n pending rowss stagedss j.

Lemma typed_bare c mt v q m : typed c mt v q m -> typed c memtable_default 0 0 m.
Proof. intros []. now split. Qed.

(** A running table's disk. *)
Lemma live_disk s B n pending : live s B n pending -> disk_ok (ts_config s) (ts_disk s) B n.
Proof.
  intros (rowss & stagedss & j & [L1 L2 L3 L4 L5 L6 L7 L8 L9]). pose proof (ro_store _ _ _ _ _ L1) as Hok. exists (ts_manifest s), rowss, j. split; try easy.
  - exact (files_bare _ _ _ _ _ _ _ _ (so_files _ _ _ Hok)).
  - exact (typed_bare _ _ _ _ _ (so_typed _ _ _ Hok)).
  - apply L1.
  - exact (live_disk_log _ _ _ _ _ _ _ L4).
Qed.

(** What an operation that failed leaves: the disk, and the table when it was [steady]. *)
Definition left_behind (steady : Prop) (c : TableConfig) (B : list (list StoredRow)) (n : nat) (pending : list StoredRow) (s' : TableStore) : Prop :=
  ts_config s' = c /\ disk_ok c (ts_disk s') B n /\ (steady -> live s' B n pending).

Lemma live_left_behind (steady : Prop) c s B n pending : ts_config s = c -> live s B n pending -> left_behind steady c B n pending s.
Proof. intros <- Hl. split; [easy|]. split; [|easy]. exact (live_disk _ _ _ _ Hl). Qed.

(** ** Work on the files *)

(** The log is not touched, and the manifest covers as much of it. *)
Record tidy (s s' : TableStore) : Prop := {
  td_config : ts_config s' = ts_config s;
  td_wal : dk_wal (ts_disk s') = dk_wal (ts_disk s);
  td_sync : in_sync s';
  td_present : present (ts_disk s') = present (ts_disk s) \/ present (ts_disk s') = true;
  td_flushed : man_flushed_sequence (ts_manifest s') = man_flushed_sequence (ts_manifest s);
  td_committed : man_committed_version (ts_manifest s') = man_committed_version (ts_manifest s);
  td_version : ts_commit_version s' = ts_commit_version s
}.

(** The same with a manifest in place that is not the one in memory. *)
Definition astray (s : TableStore) (rowss : list (list StoredRow)) (s' : TableStore) : Prop :=
  ts_config s' = ts_config s /\ dk_wal (ts_disk s') = dk_wal (ts_disk s) /\ present (ts_disk s') = true /\
  exists m rowss', on_disk (ts_disk s') (ts_schema s) m /\ files_ok (ts_segments s') (ts_schema s) m [] (0, 0) [] rowss' [] /\
    typed (ts_config s) memtable_default 0 0 m /\ incl (concat rowss') (concat rowss) /\
    (consistent (concat rowss) -> forall k, visible k (concat rowss') = visible k (concat rowss)) /\
    man_flushed_sequence m = man_flushed_sequence (ts_manifest s) /\ man_committed_version m = man_committed_version (ts_manifest s).

Lemma tidy_trans s s1 s2 : tidy s s1 -> tidy s1 s2 -> tidy s s2.
Proof. intros [A1 A2 A3 A4 A5 A6 A7] [B1 B2 B3 B4 B5 B6 B7]. split; try congruence. destruct B4 as [B4|B4]; [|now right]. rewrite B4. exact A4. Qed.

Lemma base_ok_same m m' rowss rowss' base :
  base_ok m rowss base -> man_committed_version m' = man_committed_version m -> incl (concat rowss') (concat rowss) ->
  (forall k, visible k (concat rowss') = visible k (concat rowss)) -> base_ok m' rowss' base.
Proof. intros [B1 B2 B3] E Hi Hv. split; rewrite ?E; [intros k; now rewrite Hv|easy|]. intros r Hr. now apply B3, Hi. Qed.

Lemma live_tidy s s' B n pending pending' rowss rowss' stagedss stagedss' j :
  live_at s B n pending rowss stagedss j -> tidy s s' -> replica_ok s' rowss' stagedss' (concat B) pending' ->
  ts_memtable s' = ts_memtable s -> ts_last_sequence s' = ts_last_sequence s ->
  incl (concat rowss') (concat rowss) -> (forall k, visible k (concat rowss') = visible k (concat rowss)) ->
  live_at s' B n pending' rowss' stagedss' j.
Proof.
  intros [L1 L2 L3 L4 L5 L6 L7 L8 L9] [T1 T2 T3 T4 T5 T6 T7] Hr Em Eq Hi Hv. split; try easy.
  - now apply (base_ok_same (ts_manifest s) _ rowss).
  - rewrite T1, T2, T5, Eq. destruct T4 as [-> | ->]; [easy|]. exact (live_log_present _ _ _ _ _ _ _ L4).
  - unfold ts_options in *. now rewrite T1, T2.
  - now rewrite T5, Eq.
  - unfold memtable_rows in *. now rewrite Em, T7, T6.
Qed.

Lemma disk_astray s s' B n pending rowss stagedss j :
  live_at s B n pending rowss stagedss j -> astray s rowss s' -> disk_ok (ts_config s) (ts_disk s') B n.
Proof.
  intros [L1 L2 L3 L4 L5 L6 L7 L8 L9] (_ & E2 & E3 & m & rowss' & M1 & M2 & M3 & M4 & M5 & M6 & M7). pose proof (ro_consistent _ _ _ _ _ L1) as Hc.
  exists m, rowss', j. split; try easy.
  - now apply (consistent_incl (concat rowss)).
  - apply (base_ok_same (ts_manifest s) _ rowss); auto.
  - rewrite E2, E3, M6. exact (disk_log_present _ _ _ _ _ _ (live_disk_log _ _ _ _ _ _ _ L4)).
Qed.

(** *** Compaction *)

Lemma tidy_same s s' :
  in_sync s -> ts_config s' = ts_config s -> dk_wal (ts_disk s') = dk_wal (ts_disk s) -> manifest_file (ts_disk s') = manifest_file (ts_disk s) ->
  ts_manifest s' = ts_manifest s -> ts_commit_version s' = ts_commit_version s -> tidy s s'.
Proof.
  intros Hs E1 E2 E3 E4 E5. split; try easy; rewrite ?E4; try easy.
  - unfold in_sync, on_disk, ts_schema in *. now rewrite E1, E3, E4.
  - left. unfold present. now rewrite E3.
Qed.

Lemma run_plan_disk plan io s rowss stagedss :
  store_ok s rowss stagedss -> in_sync s -> plan_ok (ts_options s) (man_segments (ts_manifest s)) plan ->
  wp (run_plan plan io) (fun _ => tidy s) (fun s' => tidy s s' \/ (pio_sync_directory (ci_publish io) = false /\ astray s rowss s')) s.
Proof.
  intros Hok Hsync Hp. pose proof Hok as [H3 H4 H5 H6 H7 H8 H9]. pose proof (all_known_holds _ _ _ _ (fo_holds _ _ _ _ _ _ _ _ H5)) as Hh.
  unfold run_plan. apply wp_bind, wp_get, wp_bind, wp_lift; [intros streams Hs|left; now apply tidy_same].
  apply (planned_streams _ (plan_merge s plan) _ rowss) in Hs as ->; [|exact Hh].
  apply wp_bind, wp_lift; [intros m Em|left; now apply tidy_same]. pose proof (typed_next _ _ _ _ _ _ H9 Em) as Htm.
  apply next_generation_inv in Em as (Es & En & Ef & Ec).
  apply wp_bind. unfold wp at 1, merge_planned. destruct (merge_streams _ _ _ _ _ _) as [r st] eqn:Em. rewrite En in Em.
  destruct r as [[]|e]; [|left; now apply tidy_same].
  destruct (merge_files s rowss stagedss plan _ m st Hok Hp Em) as (Hlt & Hle & rowss' & Hf & Hi & Hv).
  pose proof (fo_next _ _ _ _ _ _ _ _ H5) as Hn.
  match type of Hf with files_ok _ _ ?m' _ _ _ _ _ => assert (Ht : typed (ts_config s) (ts_memtable s) (ts_commit_version s) (ts_last_sequence s) m')
    by (apply typed_segments, typed_next_id; [easy|lia]) end.
  apply wp_bind. eapply wp_publish_disk; [exact Ht|exact Hf|intros d Hd Hl|intros d Hd|intros d Hio Hd Hl].
  - apply wp_bind. unfold replace_manifest. apply wp_modify, wp_ret. split; try easy. now right.
  - left. now apply tidy_same.
  - right. split; [easy|]. split; [easy|]. split; [easy|]. split; [easy|]. eexists _, rowss'. split; [exact Hl|].
    split; [exact (files_bare _ _ _ _ _ _ _ _ Hf)|]. split; [exact (typed_bare _ _ _ _ _ Ht)|]. easy.
Qed.

Lemma compact_disk io s rowss stagedss :
  store_ok s rowss stagedss -> in_sync s ->
  wp (compact io) (fun _ => tidy s) (fun s' => tidy s s' \/ (pio_sync_directory (ci_publish io) = false /\ astray s rowss s')) s.
Proof.
  intros Hok Hsync. unfold compact. apply wp_bind, wp_get, wp_bind, wp_lift; [intros plan Hp|left; now apply tidy_same].
  destruct plan as [plan|]; [|now apply wp_ret, tidy_same]. apply wp_bind, wp_lift; [intros fits _|left; now apply tidy_same].
  destruct (negb fits); [now apply wp_ret, tidy_same|]. apply (run_plan_disk plan io s rowss stagedss); [easy..|].
  apply (compaction_plan_ok _ _ _ _ _ _ (holds_row_counts _ _ _ _ (fo_holds _ _ _ _ _ _ _ _ (so_files _ _ _ Hok))) Hp).
Qed.

(** Steps that leave the batches alone, on disk too. *)
Definition tended {A} (steady : Prop) (m : Table A) : Prop :=
  forall s B n pending, live s B n pending ->
    wp m (fun _ s' => live s' B n pending /\ ts_config s' = ts_config s) (left_behind steady (ts_config s) B n pending) s.

Lemma tended_bind {A C} steady (m : Table A) (f : A -> Table C) : tended steady m -> (forall a, tended steady (f a)) -> tended steady (m ≫= f).
Proof.
  intros Hm Hf s B n pending Hl. apply wp_bind. eapply wp_mono; [exact (Hm s B n pending Hl)| |easy]. intros a s' [Hl' Ec]. rewrite <- Ec.
  now apply Hf.
Qed.

Lemma tended_ret {A} steady (a : A) : tended steady (mret a).
Proof. intros s B n pending Hl. now apply wp_ret. Qed.

Lemma tended_weaken {A} (P Q : Prop) (m : Table A) : (Q -> P) -> tended P m -> tended Q m.
Proof.
  intros Himp Hm s B n pending Hl. eapply wp_mono; [exact (Hm s B n pending Hl)|easy|]. intros s' (H3 & H4 & H5). split; [easy|]. auto.
Qed.

Definition synced (io : publish_io) : Prop := pio_sync_directory io = true.

Lemma compact_live s s' B n pending rowss stagedss j :
  live_at s B n pending rowss stagedss j -> after_compact s rowss stagedss s' -> tidy s s' -> live s' B n pending.
Proof.
  intros Hl (Hk & Em & rowss' & Hok & Hi & Hv) Ht. pose proof (li_replica _ _ _ _ _ _ _ Hl) as Hr. exists rowss', stagedss, j.
  apply (live_tidy s s' B n pending pending rowss rowss' stagedss stagedss j Hl Ht); try easy.
  - now apply (compact_replica s s' rowss).
  - apply Hk.
  - apply Hv, Hr.
Qed.

Lemma compact_tended io : tended (synced (ci_publish io)) (compact io).
Proof.
  intros s B n pending (rowss & stagedss & j & Hl). pose proof (ro_store _ _ _ _ _ (li_replica _ _ _ _ _ _ _ Hl)) as Hok.
  eapply wp_mono; [apply wp_and; [exact (compact_wp io s rowss stagedss Hok)|exact (compact_disk io s rowss stagedss Hok (li_sync _ _ _ _ _ _ _ Hl))]|..].
  - intros o s' [Ha Ht]. split; [exact (compact_live _ _ _ _ _ _ _ _ Hl Ha Ht)|apply Ht].
  - intros s' [Ha [Ht|[Hio Hx]]]; [apply live_left_behind; [apply Ht|exact (compact_live _ _ _ _ _ _ _ _ Hl Ha Ht)]|].
    split; [apply Hx|]. split; [exact (disk_astray _ _ _ _ _ _ _ _ Hl Hx)|]. unfold synced. now rewrite Hio.
Qed.

Lemma advance_tended io : tended (synced (ci_publish io)) (advance_compaction io).
Proof.
  intros s B n pending Hl. unfold advance_compaction. apply wp_bind, wp_get. destruct (_ <=? _); [|now apply wp_ret].
  apply (tended_bind _ (compact io) (fun _ => mret tt)); [apply compact_tended|intros _; apply tended_ret|easy].
Qed.

(** *** Reclaiming *)

Lemma reclaim_tended (steady : Prop) io : tended steady (reclaim_obsolete_segments io).
Proof.
  intros s B n pending (rowss & stagedss & j & Hl).
  assert (Hlive : forall s', after_reclaim s io s' -> live s' B n pending /\ ts_config s' = ts_config s).
  { intros s' Ha. pose proof (reclaim_replica _ _ _ _ _ _ _ (li_replica _ _ _ _ _ _ _ Hl) Ha) as Hr. destruct Ha as (d & retained & -> & _).
    split; [|easy]. exists rowss, stagedss, j. apply (live_tidy s _ B n pending pending rowss rowss stagedss stagedss j Hl); try easy.
    apply tidy_same; try easy. exact (li_sync _ _ _ _ _ _ _ Hl). }
  eapply wp_mono; [exact (reclaim_wp io s)|..].
  - intros k s' Ha. now apply Hlive.
  - intros s' [Hl' Ec]%Hlive. now apply live_left_behind.
Qed.

(** ** Flushing *)

Definition steady_flush (io : flush_io) : Prop := synced (fi_publish io) /\ fi_after_manifest io = true.

Definition flushed_manifest (s : TableStore) (m : Manifest) : Prop :=
  man_flushed_sequence m = ts_last_sequence s /\ man_committed_version m = flushed_version s.

(** The flushed manifest in place, and not in memory. *)
Definition flush_astray (s : TableStore) (rowss : list (list StoredRow)) (s' : TableStore) : Prop :=
  present (ts_disk s') = true /\ exists m, on_disk (ts_disk s') (ts_schema s) m /\
    files_ok (ts_segments s') (ts_schema s) m [] (0, 0) [] (rowss ++ [map durable_row (memtable_rows s)]) [] /\
    typed (ts_config s) memtable_default 0 0 m /\ flushed_manifest s m.

(** Nothing published. *)
Definition unpublished (s s' : TableStore) : Prop := ts_manifest s' = ts_manifest s /\ manifest_file (ts_disk s') = manifest_file (ts_disk s).

Lemma publish_flushed_disk s rowss stagedss shared io :
  store_ok s rowss stagedss -> in_sync s ->
  wp (publish_flushed (memtable_rows s) io)
    (fun _ s' => ts_config s' = ts_config s /\ dk_wal (ts_disk s') = dk_wal (ts_disk s) /\ in_sync s' /\ present (ts_disk s') = true /\
       flushed_manifest s (ts_manifest s') /\ ts_commit_version s' = flushed_version s)
    (fun s' => ts_config s' = ts_config s /\ dk_wal (ts_disk s') = dk_wal (ts_disk s) /\
       (unpublished s s' \/ (~ steady_flush io /\ flush_astray s rowss s')))
    (set_memtable (take_rows (ts_memtable s) shared).2 s).
Proof.
  intros Hok Hsync. set (s1 := set_memtable _ s). unfold publish_flushed. apply wp_bind, wp_get, wp_bind.
  assert (Efv : flushed_version s1 = flushed_version s) by (subst s1; unfold flushed_version, take_rows; cbn; now destruct shared).
  pose proof (so_typed _ _ _ Hok) as Ht. pose proof (flushed_version_u64 s rowss stagedss Hok) as Hfv. pose proof (so_files _ _ _ Hok) as Hf.
  pose proof (fo_next _ _ _ _ _ _ _ _ Hf) as Hn.
  apply wp_write_rows; [apply Hok|apply Ht|apply Ht|cbn; lia|apply Hok|apply Ht|now apply memtable_rows_ascending, Hok|intros d meta Hd Hh Hid Hnm|intros d Hd];
    [|split; [easy|]; split; [easy|]; left; easy].
  apply wp_bind, wp_crash; [|split; [easy|]; split; [easy|]; left; easy].
  apply wp_bind, wp_lift; [intros m Em|split; [easy|]; split; [easy|]; left; easy].
  pose proof (typed_next _ _ _ _ _ _ Ht Em) as Htm. apply next_generation_inv in Em as (Es & En & _ & _). apply wp_bind, wp_modify, wp_bind.
  apply wp_lift; [intros next Enext|split; [easy|]; split; [easy|]; left; easy]. apply next_of_inv in Enext as [Enext Hlt]. cbn in Enext, Es, En.
  match goal with |- wp (_ ← publish ?x _; _) _ _ _ => set (m' := x) end.
  assert (Ht' : typed (ts_config s) (ts_memtable s) (ts_commit_version s) (ts_last_sequence s) m').
  { unfold m'. rewrite Efv. apply typed_segments, typed_next_id; [apply typed_flushed; [exact Htm|exact (ty_sequence _ _ _ _ _ Ht)|easy]|lia]. }
  assert (Hf' : files_ok d (ts_schema s) m' (ts_staged s) (ts_staged_ids s) (ts_retired s) (rowss ++ [map durable_row (memtable_rows s)]) stagedss).
  { apply (files_add d _ (ts_manifest s) _ _ _ _ _ _ meta); cbn; try easy; [|now rewrite Hnm, Hid|now rewrite Es|lia].
    apply (files_frame (ts_segments s)); [|easy]. intros id Hi _. apply Hd. intros E. apply file_name_inj in E; cbn in *; lia. }
  assert (Hflushed : flushed_manifest s m') by (split; [easy|exact Efv]).
  assert (Hbad : forall dm, ~ steady_flush io -> is_some (dir_manifest dm) = true -> manifest_load (dir_manifest dm) (ts_schema s) = Ok m' ->
    ~ steady_flush io /\ flush_astray s rowss (set_manifest_dir dm (set_commit_version (flushed_version s1) (set_segments d s1)))).
  { intros dm Hns Hd' Hl. split; [easy|]. split; [easy|]. exists m'. split; [exact Hl|]. split; [exact (files_bare _ _ _ _ _ _ _ _ Hf')|].
    split; [exact (typed_bare _ _ _ _ _ Ht')|easy]. }
  apply wp_bind. eapply wp_publish_disk; [exact Ht'|exact Hf'|intros dm Hdm Hl|intros dm Hdm|intros dm Hio Hdm Hl].
  - apply wp_bind. unfold wp at 1, crash_point. destruct (fi_after_manifest io) eqn:Ea.
    + apply wp_modify. split; [easy|]. split; [easy|]. split; [exact Hl|]. split; [exact Hdm|]. split; [exact Hflushed|exact Efv].
    + split; [easy|]. split; [easy|]. right. apply Hbad; [|easy..]. intros [_ Hs]. congruence.
  - split; [easy|]. split; [easy|]. now left.
  - split; [easy|]. split; [easy|]. right. apply Hbad; [|easy..]. intros [Hs _]. unfold synced in Hs. congruence.
Qed.

(** The flushed manifest in place and in memory, the log as it was or being reset. *)
Definition flush_done (s s' : TableStore) : Prop :=
  ts_config s' = ts_config s /\ in_sync s' /\ present (ts_disk s') = true /\ flushed_manifest s (ts_manifest s') /\
  ts_commit_version s' = flushed_version s /\ mt_rows (ts_memtable s') = [] /\ mt_newest_version (ts_memtable s') = None /\
  (dk_wal (ts_disk s') = dk_wal (ts_disk s) \/ exists a b d r, reset (dk_wal (ts_disk s)) a b d = (r, dk_wal (ts_disk s'))).

Lemma flush_disk io s rowss stagedss :
  store_ok s rowss stagedss -> in_sync s ->
  wp (flush io) (fun _ s' => flush_done s s' \/ (memtable_rows s = [] /\ s' = s))
    (fun s' => flush_done s s' \/
       (memtable_rows s <> [] /\ ts_config s' = ts_config s /\ dk_wal (ts_disk s') = dk_wal (ts_disk s) /\
        (unpublished s s' \/ (~ steady_flush io /\ flush_astray s rowss s')))) s.
Proof.
  intros Hok Hsync. unfold flush. apply wp_bind, wp_get. destruct (take_rows (ts_memtable s) (fi_shared io)) as [rows m] eqn:Et.
  assert (Er : rows = memtable_rows s) by (unfold take_rows in Et; now injection Et as <- _).
  assert (Em : m = (take_rows (ts_memtable s) (fi_shared io)).2) by now rewrite Et. apply wp_bind, wp_modify.
  destruct rows as [|r rows].
  - assert (Enil : mt_rows (ts_memtable s) = []) by (unfold memtable_rows in Er; now destruct (mt_rows (ts_memtable s))).
    apply wp_ret. right. rewrite Em, taken_memtable by easy. split; [easy|]. now destruct s.
  - rewrite Er, Em. apply wp_bind, wp_or_restore.
    eapply wp_mono; [exact (publish_flushed_disk s rowss stagedss (fi_shared io) io Hok Hsync)| |].
    2: { intros s' (E1 & E2 & E3). right. split; [now rewrite <- Er|]. split; [easy|]. now split. }
    intros [] s' (E1 & E2 & E3 & E4 & E5 & E6). apply wp_bind, wp_modify, wp_bind. cbn [ts_config set_memtable]. set (s2 := set_memtable _ s').
    assert (Hd : flush_done s s2) by (split; [easy|]; repeat (split; [easy|]); now left).
    destruct (cfg_truncate_wal_on_flush (ts_config s)); [|apply wp_ret, wp_bind, wp_crash; [now apply wp_ret; left|now left]].
    unfold wp at 1, reset_wal. cbn [ts_disk set_memtable s2]. rewrite E2. destruct (reset _ _ _ _) as [res w] eqn:Ew.
    assert (Hw : flush_done s (set_wal w s2)) by (repeat (split; [easy|]); right; now exists (ri_set_len (fi_reset io)), (ri_seek (fi_reset io)), (ri_sync (fi_reset io)), res).
    destruct res; [|now left]. apply wp_bind, wp_crash; [now apply wp_ret; left|now left].
Qed.

Lemma flushed_applied s rowss stagedss :
  store_ok s rowss stagedss -> opt_transactional (ts_options s) = false -> flushed_version s = applied_version s.
Proof.
  intros Hok Ht. unfold flushed_version, applied_version. rewrite Ht. destruct (so_typed _ _ _ Hok) as [_ _ _ _ Hv _ _ _].
  destruct (mt_newest_version _); cbn; lia.
Qed.

Lemma segments_durable dir schema segments rowss :
  Forall2 (segment_known dir schema) segments rowss -> map durable_row (concat rowss) = concat rowss.
Proof. intros Hk%all_known_holds. exact (staged_durable _ _ _ _ Hk). Qed.

(** The segments of a table without rows in memory hold everything. *)
Lemma settled_base s rowss stagedss taken pending m :
  replica_ok s rowss stagedss taken pending -> memtable_rows s = [] -> man_committed_version m = applied_version s -> base_ok m rowss taken.
Proof.
  intros [R1 R2 R3 (f & F1 & F2 & F3) R5 R6 R7 R8 R9] Em Ec. split; rewrite ?Ec; [|easy|].
  - intros k. rewrite <- R7. unfold view, contents. change (sn_rows (snapshot s)) with (memtable_rows s). rewrite Em, app_nil_r.
    now rewrite (segments_durable _ _ _ _ (fo_holds _ _ _ _ _ _ _ _ (so_files _ _ _ R1))).
  - intros r Hr. specialize (F2 r Hr). lia.
Qed.

Lemma drop_all {A} (l : list A) n : (length l <= n)%nat -> drop n l = [].
Proof. apply skipn_all2. Qed.

Lemma live_flushed s s' B n pending rowss stagedss j :
  live_at s B n pending rowss stagedss j -> after_flush s rowss stagedss s' -> flush_done s s' -> live s' B (length B) pending.
Proof.
  intros Hl (Hk & _ & rowss' & Hok' & Hf) (E1 & E2 & E3 & [E4 E4'] & E5 & E6 & E7 & E8). pose proof Hl as [L1 L2 L3 L4 L5 L6 L7 L8 L9].
  pose proof (flush_replica s s' rowss rowss' stagedss _ _ L1 Hk Hok' Hf) as Hr.
  assert (Em : memtable_rows s' = []) by (unfold memtable_rows; now rewrite E6).
  assert (Ea : applied_version s' = flushed_version s).
  { rewrite (ro_applied _ _ _ _ _ Hr), <- (ro_applied _ _ _ _ _ L1). symmetry. apply (flushed_applied s rowss stagedss); apply L1. }
  exists rowss', stagedss, (length B). split; try easy.
  - rewrite firstn_all. apply (settled_base s' rowss' stagedss _ pending); [easy..|]. now rewrite E4'.
  - rewrite E1, E3, E4, (keeps_sequence _ _ Hk), drop_all, Nat.sub_diag by easy.
    pose proof (live_log_flushed _ _ _ _ _ _ _ L4) as Hlog. destruct E8 as [-> |(a & b & d & r & E8)]; [easy|]. exact (live_log_reset _ _ _ _ _ _ _ _ _ _ Hlog E8).
  - unfold ts_options in *. rewrite E1, <- L5. destruct E8 as [-> |(a & b & d & r & E8)]; [easy|]. exact (reset_policy _ _ _ _ _ _ E8).
  - rewrite E4, (keeps_sequence _ _ Hk). lia.
  - intros _. split; [easy|]. split; [|easy]. now rewrite E5, E4'.
Qed.

(** A table's batches may be known to be on disk for fewer of them. *)
Lemma live_fewer s B n n' pending : live s B n pending -> (n' <= n)%nat -> live s B n' pending.
Proof.
  intros (rowss & stagedss & j & [L1 L2 L3 L4 L5 L6 L7 L8 L9]) Hle. exists rowss, stagedss, j. split; try easy; [|lia].
  destruct L4 as (ps & old & new & Hb & Hok & Hf & Hs). exists ps, old, new. split; [easy|]. split; [|easy].
  apply (log_ok_kept _ _ _ _ (n - j)); [lia|easy].
Qed.

Lemma flushed_once dir schema m staged reserved retired rowss rows stagedss dir' staged' reserved' retired' stagedss' :
  files_ok dir schema m staged reserved retired rowss stagedss ->
  files_ok dir' schema m staged' reserved' retired' (rowss ++ [rows]) stagedss' -> False.
Proof.
  intros H3 H4. apply fo_holds, Forall2_length in H3, H4. rewrite length_app in H4. cbn in H4. lia.
Qed.

Lemma live_unflushed s s' B n pending rowss stagedss j :
  live_at s B n pending rowss stagedss j -> memtable_rows s <> [] -> after_flush s rowss stagedss s' -> unpublished s s' ->
  ts_config s' = ts_config s -> dk_wal (ts_disk s') = dk_wal (ts_disk s) -> live s' B n pending.
Proof.
  intros Hl Hne (Hk & _ & rowss' & Hok' & Hf) [E1 E2] E3 E4. pose proof Hl as [L1 L2 L3 L4 L5 L6 L7 L8 L9].
  pose proof (flush_replica s s' rowss rowss' stagedss _ _ L1 Hk Hok' Hf) as Hr.
  destruct Hf as [[-> Em]|(-> & _)].
  2: { exfalso. pose proof (so_files _ _ _ Hok') as Hf'. rewrite E1 in Hf'. unfold ts_schema in Hf'. rewrite E3 in Hf'.
       exact (flushed_once _ _ _ _ _ _ _ _ _ _ _ _ _ _ (so_files _ _ _ (ro_store _ _ _ _ _ L1)) Hf'). }
  exists rowss, stagedss, j. split; rewrite ?E1; try easy.
  - unfold in_sync, on_disk, ts_schema in *. now rewrite E1, E2, E3.
  - unfold present. rewrite E2, E3, E4, (keeps_sequence _ _ Hk). exact L4.
  - unfold ts_options in *. now rewrite E3, E4.
  - now rewrite (keeps_sequence _ _ Hk).
  - unfold memtable_rows in *. now rewrite Em.
Qed.

Lemma disk_flush_astray s s' B n pending rowss stagedss j :
  live_at s B n pending rowss stagedss j -> flush_astray s rowss s' -> dk_wal (ts_disk s') = dk_wal (ts_disk s) -> disk_ok (ts_config s) (ts_disk s') B n.
Proof.
  intros [L1 L2 L3 L4 L5 L6 L7 L8 L9] (E1 & m & M1 & M2 & M3 & M4 & M5) E2. exists m, (rowss ++ [map durable_row (memtable_rows s)]), (length B).
  pose proof L1 as [R1 R2 R3 (f & F1 & F2 & F3) _ _ R7 _ R9]. pose proof (flushed_applied _ _ _ R1 R2) as Efv.
  assert (Hm : forall r, In r (map durable_row (memtable_rows s)) -> f < row_version r <= applied_version s).
  { intros r (x & Hx & _ & ->)%in_durable. split; [now apply F3|]. apply memtable_applied; [apply R1|easy]. }
  split; try easy; rewrite ?concat_app; cbn [concat]; rewrite ?app_nil_r.
  - apply (consistent_app _ _ f); [easy| |easy|].
    + apply ascending_consistent, durable_ascending, memtable_rows_ascending, R1.
    + intros r Hr. now apply Hm.
  - rewrite firstn_all. split; rewrite ?M5, ?Efv; [|easy|].
    + intros k. rewrite <- R7, concat_app. cbn [concat]. rewrite app_nil_r. unfold view, contents.
      change (sn_rows (snapshot s)) with (memtable_rows s). rewrite map_app.
      now rewrite (segments_durable _ _ _ _ (fo_holds _ _ _ _ _ _ _ _ (so_files _ _ _ R1))).
    + intros r. rewrite concat_app. cbn [concat]. rewrite app_nil_r, in_app_iff. intros [Hr|Hr]; [specialize (F2 r Hr); lia|now apply Hm].
  - rewrite E1, E2, M4, drop_all by easy. pose proof (live_log_flushed _ _ _ _ _ _ _ L4) as Hlog%live_disk_log.
    replace (n - length B)%nat with O by lia. exact Hlog.
Qed.

(** A flush that succeeds puts every batch on disk. *)
Lemma flush_live io s B n pending :
  live s B n pending ->
  wp (flush io) (fun _ s' => live s' B (length B) pending /\ ts_config s' = ts_config s /\ memtable_rows s' = [])
    (left_behind (steady_flush io) (ts_config s) B n pending) s.
Proof.
  intros (rowss & stagedss & j & Hl). pose proof (ro_store _ _ _ _ _ (li_replica _ _ _ _ _ _ _ Hl)) as Hok. pose proof (li_range _ _ _ _ _ _ _ Hl) as [_ Hn].
  eapply wp_mono; [apply wp_and; [exact (flush_wp io s rowss stagedss Hok)|exact (flush_disk io s rowss stagedss Hok (li_sync _ _ _ _ _ _ _ Hl))]|..].
  - intros k s' [(Ha & Em & _) [Hd|[Hnil ->]]].
    + split; [exact (live_flushed _ _ _ _ _ _ _ _ Hl Ha Hd)|]. split; [apply Hd|]. unfold memtable_rows. now rewrite Em.
    + split; [|easy]. exists rowss, stagedss, j. destruct (li_settled _ _ _ _ _ _ _ Hl Hnil) as (_ & _ & Ej). subst j.
      destruct Hl as [L1 L2 L3 L4 L5 L6 L7 L8 L9]. split; try easy. rewrite Nat.sub_diag. now replace (n - length B)%nat with O in L4 by lia.
  - intros s' [Ha [Hd|(Hne & E1 & E2 & [Hu|[Hns Hx]])]].
    + apply live_left_behind; [apply Hd|]. apply (live_fewer _ _ (length B)); [|easy]. exact (live_flushed _ _ _ _ _ _ _ _ Hl Ha Hd).
    + apply live_left_behind; [easy|]. exact (live_unflushed _ _ _ _ _ _ _ _ Hl Hne Ha Hu E1 E2).
    + split; [easy|]. split; [exact (disk_flush_astray _ _ _ _ _ _ _ _ Hl Hx E2)|easy].
Qed.

Lemma flush_tended io : tended (steady_flush io) (flush io).
Proof.
  intros s B n pending Hl. eapply wp_mono; [exact (flush_live io s B n pending Hl)| |easy]. intros k s' (Hl' & Ec & _). split; [|easy].
  apply (live_fewer _ _ (length B)); [easy|]. destruct Hl as (rowss & stagedss & j & Hl). apply (li_range _ _ _ _ _ _ _ Hl).
Qed.

(** Flush, one merge, reclaim. *)
Definition steady_settle (io : settle_io) : Prop := steady_flush (st_flush io) /\ synced (ci_publish (st_compact io)).

Lemma settle_tended io : tended (steady_settle io) (settle io).
Proof.
  unfold settle. apply tended_bind; [|intros _; apply tended_bind; [|intros _; apply tended_bind; [apply reclaim_tended|intros _; apply tended_ret]]].
  - eapply tended_weaken; [|apply flush_tended]. now intros [].
  - eapply tended_weaken; [|apply advance_tended]. now intros [].
Qed.

(** ** Staging *)

Lemma wp_write_any id rows unique io (Q : SegmentFacts -> TableStore -> Prop) (E : TableStore -> Prop) s :
  (forall d meta, Q meta (set_segments d s)) -> (forall d, E (set_segments d s)) -> wp (write_rows id rows unique io) Q E s.
Proof. intros HQ HE. unfold wp, write_rows. destruct (write_segment _ _ _ _ _ _ _) as [[meta|e] d]; auto. Qed.

Lemma astray_tidy s0 s rowss s' : tidy s0 s -> astray s rowss s' -> astray s0 rowss s'.
Proof.
  intros [T1 T2 T3 T4 T5 T6 T7] (E1 & E2 & E3 & m & rowss' & M1 & M2 & M3 & M4 & M5 & M6 & M7). unfold ts_schema in *. rewrite T1 in *.
  split; [easy|]. split; [congruence|]. split; [easy|]. exists m, rowss'. unfold ts_schema. repeat (split; [easy|]). split; congruence.
Qed.

Lemma reserve_disk io s rowss stagedss :
  store_ok s rowss stagedss -> in_sync s ->
  wp (reserve_staged_ids io) (fun _ => tidy s) (fun s' => tidy s s' \/ (~ synced (sg_reserve io) /\ astray s rowss s')) s.
Proof.
  intros Hok Hsync. unfold reserve_staged_ids. apply wp_bind, wp_get. destruct (_ <? _); [now apply wp_ret, tidy_same|].
  pose proof (so_typed _ _ _ Hok) as Ht. pose proof (typed_counters _ _ _ _ _ Ht) as (Hg0 & He0 & _). pose proof (so_files _ _ _ Hok) as Hf.
  pose proof (fo_next _ _ _ _ _ _ _ _ Hf) as Hn0.
  apply wp_bind, wp_lift; [intros g [Eg Hg]%next_of_inv|left; now apply tidy_same].
  apply wp_bind, wp_lift; [intros next [En Hlt]%next_of_inv|left; now apply tidy_same]. unfold STAGED_SEGMENT_IDS in En.
  set (m' := with_next_segment_id next _). assert (Ht' : typed (ts_config s) (ts_memtable s) (ts_commit_version s) (ts_last_sequence s) m')
    by (apply typed_next_id; [apply typed_generation; [easy|lia|easy]|lia]).
  assert (Hf' : files_ok (ts_segments s) (ts_schema s) m' (ts_staged s) (ts_staged_ids s) (ts_retired s) rowss stagedss).
  { apply (files_skip _ _ (ts_manifest s)); [easy|cbn; lia|easy]. }
  apply wp_bind. eapply wp_publish_disk; [exact Ht'|exact Hf'|intros d Hd Hl|intros d Hd|intros d Hio Hd Hl].
  - apply wp_modify. split; try easy. now right.
  - left. now apply tidy_same.
  - right. split; [unfold synced; congruence|]. split; [easy|]. split; [easy|]. split; [easy|]. exists m', rowss. split; [exact Hl|].
    split; [exact (files_bare _ _ _ _ _ _ _ _ Hf')|]. split; [exact (typed_bare _ _ _ _ _ Ht')|]. easy.
Qed.

Lemma stage_segment_disk rows io s rowss stagedss :
  store_ok s rowss stagedss -> in_sync s ->
  wp (stage_segment rows io) (fun _ => tidy s) (fun s' => tidy s s' \/ (~ synced (sg_reserve io) /\ astray s rowss s')) s.
Proof.
  intros Hok Hsync. unfold stage_segment. destruct rows as [|r rows]; [now apply wp_ret, tidy_same|].
  apply wp_bind. eapply wp_mono; [exact (reserve_disk io s rowss stagedss Hok Hsync)| |easy]. intros [] s1 Ht.
  apply wp_bind, wp_get, wp_bind, wp_modify, wp_bind, wp_write_any.
  - intros d meta. apply wp_modify. apply (tidy_trans s s1); [easy|]. apply tidy_same; try easy. apply Ht.
  - intros d. left. apply (tidy_trans s s1); [easy|]. apply tidy_same; try easy. apply Ht.
Qed.

Definition steady_stage (io : stage_io) : Prop := steady_flush (sg_flush io) /\ synced (sg_reserve io).

Lemma stage_pieces_disk rows io s rowss stagedss :
  store_ok s rowss stagedss -> in_sync s -> Forall (sound_row (ts_schema s)) rows ->
  let kept := map durable_row (deduplicate (sort_by row_less rows)) in
  wp (stage_pieces (sort_by row_less rows) [] 0 io)
    (fun _ s' => exists more, concat more = kept /\ quiet s s' /\ store_ok s' rowss (stagedss ++ more) /\ tidy s s')
    (fun s' => exists more, concat more `prefix_of` kept /\ quiet s s' /\ store_ok s' rowss (stagedss ++ more) /\
       (tidy s s' \/ (~ synced (sg_reserve io) /\ astray s rowss s'))) s.
Proof.
  intros Hok Hsync Hf kept.
  set (I := fun news s' => quiet s s' /\ store_ok s' rowss (stagedss ++ news) /\ tidy s s').
  set (E := fun news s' => quiet s s' /\ store_ok s' rowss (stagedss ++ news) /\ (tidy s s' \/ (~ synced (sg_reserve io) /\ astray s rowss s'))).
  apply (stage_pieces_rule (ts_schema s) io I E) with (news := []) (piece := []).
  - intros rows' news s1 (Hq1 & Hok1 & Ht1) Hf1 Ha1. assert (Es : ts_schema s1 = ts_schema s) by (unfold ts_schema; now rewrite (quiet_config _ _ Hq1)).
    eapply wp_mono; [apply wp_and;
      [apply (stage_segment_wp rows' io s1 rowss (stagedss ++ news)); [easy|now rewrite Es|easy]|
       exact (stage_segment_disk rows' io s1 rowss _ Hok1 (td_sync _ _ Ht1))]| |].
    + intros [] s2 [(Hq2 & more & Hok2 & Em) Ht2]. exists more. split; [easy|]. split; [now transitivity s1|]. rewrite app_assoc. split; [easy|].
      exact (tidy_trans _ _ _ Ht1 Ht2).
    + intros s2 [(Hq2 & more & Hok2 & ->) Hx]. rewrite app_nil_r in Hok2. split; [now transitivity s1|]. split; [easy|].
      destruct Hx as [Ht2|[Hns Hx]]; [left; exact (tidy_trans _ _ _ Ht1 Ht2)|right]. split; [easy|]. exact (astray_tidy _ _ _ _ Ht1 Hx).
  - split; [easy|]. rewrite app_nil_r. split; [easy|]. now apply tidy_same.
  - apply sort_by_sorted.
  - easy.
  - constructor.
  - cbn [rev app]. apply Forall_forall. intros x Hx. rewrite sort_by_perm in Hx. rewrite Forall_forall in Hf. now apply Hf.
Qed.

Lemma live_applied s B n pending : live s B n pending -> applied_version s = spec_applied (concat B).
Proof. intros (rowss & stagedss & j & Hl). apply (li_replica _ _ _ _ _ _ _ Hl). Qed.

(** What staging leaves when it fails: some of the changes staged. *)
Definition staged_partly (steady : Prop) (c : TableConfig) (B : list (list StoredRow)) (n : nat) (all : list StoredRow) (s' : TableStore) : Prop :=
  exists part, incl part all /\ left_behind steady c B n part s'.

Lemma stage_begins_live (P : Prop) io s B n pending :
  (P -> steady_flush io) -> live s B n pending ->
  wp (if is_nil (ts_staged s) then _ ← flush io; mret tt else mret tt)
    (fun _ s' => live s' B n pending /\ ts_config s' = ts_config s /\ memtable_rows s' = [])
    (left_behind P (ts_config s) B n pending) s.
Proof.
  intros Himp Hl. destruct (ts_staged s) as [|m l] eqn:Es; cbn [is_nil].
  - apply wp_bind. eapply wp_mono; [exact (flush_live io s B n pending Hl)| |].
    + intros k s' (Hl' & Ec & Em). apply wp_ret. split; [|easy]. apply (live_fewer _ _ (length B)); [easy|].
      destruct Hl as (rowss & stagedss & j & Hl). apply (li_range _ _ _ _ _ _ _ Hl).
    + intros s' (H3 & H4 & H5). split; [easy|]. auto.
  - apply wp_ret. split; [easy|]. split; [easy|]. destruct Hl as (rowss & stagedss & j & Hl).
    apply (ro_settled _ _ _ _ _ (li_replica _ _ _ _ _ _ _ Hl)). now rewrite Es.
Qed.

Lemma stage_rows_live rows io s B n pending :
  live s B n pending -> Forall (sound_row (ts_schema s)) rows -> (forall r, In r rows -> applied_version s < row_version r) ->
  stageable pending rows ->
  wp (stage_rows rows io) (fun _ s' => live s' B n (pending ++ map durable_row rows) /\ ts_config s' = ts_config s)
    (staged_partly (steady_stage io) (ts_config s) B n (pending ++ map durable_row rows)) s.
Proof.
  intros Hl Hf Hnew Hst. pose proof (live_applied _ _ _ _ Hl) as Ea. unfold stage_rows. destruct rows as [|r0 rows0]; [apply wp_ret; now rewrite app_nil_r|].
  set (rows := r0 :: rows0) in *. apply wp_bind, wp_get, wp_bind.
  eapply wp_mono; [apply (stage_begins_live (steady_stage io) (sg_flush io) s B n pending); [now intros []|easy]| |].
  2: { intros s' Hb. exists pending. split; [apply incl_appl, incl_refl|easy]. }
  intros [] s1 (Hl1 & Ec & Hmem). pose proof (live_applied _ _ _ _ Hl1) as Ea1. destruct Hl1 as (rowss & stagedss & j & Hl1).
  pose proof (li_replica _ _ _ _ _ _ _ Hl1) as Hr. rewrite <- Ec.
  destruct (deduplicate_spec rows) as (D1 & D2 & D3). set (kept := deduplicate (sort_by row_less rows)) in *.
  assert (Hnew' : forall r, In r (map durable_row rows) -> applied_version s1 < row_version r).
  { intros r (x & Hx & _ & ->)%in_durable. rewrite Ea1, <- Ea. now apply Hnew. }
  assert (Hincl : forall l, l `prefix_of` map durable_row kept -> incl l (map durable_row rows)).
  { intros l [rest E] x Hx. assert (Hk : In x (map durable_row kept)) by (rewrite E; apply in_app_iff; now left).
    apply in_map_iff in Hk as (y & <- & Hy). now apply in_map, D3. }
  assert (Hasc : forall l, l `prefix_of` map durable_row kept -> key_ascending l).
  { intros l [rest E]. apply durable_ascending in D1. rewrite E in D1. now apply key_ascending_app in D1. }
  pose proof (ro_staged _ _ _ _ _ Hr) as (_ & _ & Hpend).
  eapply wp_mono; [apply (stage_pieces_disk rows io s1 rowss stagedss); [apply Hr|exact (li_sync _ _ _ _ _ _ _ Hl1)|unfold ts_schema in *; now rewrite Ec]| |].
  - intros [] s2 (more & Em & Hq & Hok & Ht). fold kept in Em. split; [|apply Ht]. exists rowss, (stagedss ++ more), j.
    apply (live_tidy s1 s2 B n pending _ rowss rowss stagedss _ j Hl1 Ht); try apply Hq; [|apply incl_refl|easy].
    apply (stage_refines s1 s2 rowss stagedss _ pending more (map durable_row rows) Hr Hq Hok Hmem Hnew').
    + apply Hincl. now rewrite Em.
    + intros k. rewrite Em, !latest_durable. unfold kept. now rewrite D2.
    + apply (stageable_consistent stagedss more pending rows Hst Hpend); [apply Hincl|apply Hasc]; now rewrite Em.
  - intros s2 (more & Em & Hq & Hok & Hx). fold kept in Em.
    destruct (stage_partly s1 s2 rowss stagedss (concat B) pending more (map durable_row rows) Hr Hq Hok Hmem Hnew') as (part & Hi & Hp);
      [now apply Hincl|apply (stageable_consistent stagedss more pending rows Hst Hpend); [now apply Hincl|now apply Hasc]|].
    exists part. split; [easy|]. destruct Hx as [Ht|[Hns Hx]].
    + apply live_left_behind; [apply Ht|]. exists rowss, (stagedss ++ more), j.
      apply (live_tidy s1 s2 B n pending _ rowss rowss stagedss _ j Hl1 Ht); try apply Hq; [easy|apply incl_refl|easy].
    + split; [apply Hx|]. split; [exact (disk_astray _ _ _ _ _ _ _ _ Hl1 Hx)|]. now intros [].
Qed.

(** ** Publishing what is staged *)

Definition steady_staged (io : staged_io) : Prop := synced (sp_publish io) /\ synced (ci_publish (sp_compact io)).

(** The files of pieces that were published are not taken away again. *)
Definition spares_published (io : staged_io) : Prop := synced (sp_publish io) \/ forall name, sp_remove io name = false.

Lemma disk_fewer c d B n n' : disk_ok c d B n -> (n' <= n)%nat -> disk_ok c d B n'.
Proof.
  intros (m & rowss & j & [D1 D2 D3 D4 D5 D6 D7 D8]) Hle. exists m, rowss, j. split; try easy; [|lia].
  destruct D6 as [D6|(ps & old & new & tail & last & Hb & Hs & Hok & Hf)]; [now left|]. right. exists ps, old, new, tail, last. split; [easy|]. split; [easy|].
  split; [|easy]. apply (log_ok_kept _ _ _ _ (n - j)); [lia|easy].
Qed.

Lemma left_behind_fewer P c B n n' pending s : left_behind P c B n pending s -> (n' <= n)%nat -> left_behind P c B n' pending s.
Proof.
  intros (H3 & H4 & H5) Hle. split; [easy|]. split; [exact (disk_fewer _ _ _ _ _ H4 Hle)|]. intros HP. exact (live_fewer _ _ _ _ _ (H5 HP) Hle).
Qed.

Lemma discard_none remove segments d : (forall name, remove name = false) -> discard_files remove segments d = d.
Proof. intros Hr. unfold discard_files. induction segments as [|meta l IH]; [easy|]. cbn [foldl]. now rewrite Hr. Qed.

Lemma staged_pending s rowss stagedss taken pending : replica_ok s rowss stagedss taken pending -> ts_staged s <> [] -> pending <> [].
Proof.
  intros Hr Hne. pose proof (fo_staged _ _ _ _ _ _ _ _ (so_files _ _ _ (ro_store _ _ _ _ _ Hr))) as Hk. pose proof (ro_staged _ _ _ _ _ Hr) as (_ & _ & Hi).
  destruct Hk as [|meta rows staged stagedss' Hm Hk]; [easy|]. pose proof (holds_some _ _ _ _ (known_holds _ _ _ _ Hm)) as Hs.
  destruct rows as [|r rows]; [easy|]. intros ->. apply (Hi r). now left.
Qed.

(** The pieces given up. *)
Lemma live_unstaged s s' B n pending rowss stagedss j :
  live_at s B n pending rowss stagedss j -> tidy s s' -> quiet s s' -> ts_staged s' = [] -> ts_manifest s' = ts_manifest s ->
  files_ok (ts_segments s') (ts_schema s') (ts_manifest s') [] (ts_staged_ids s') (ts_retired s') rowss [] -> live s' B n [].
Proof.
  intros Hl Ht Hq E1 E2 Hf. exists rowss, [], j. apply (live_tidy s s' B n pending [] rowss rowss stagedss [] j Hl Ht); try apply Hq; [|apply incl_refl|easy].
  exact (unstaged_replica s s' rowss stagedss _ pending (li_replica _ _ _ _ _ _ _ Hl) Hq E1 E2 Hf).
Qed.

Lemma pending_ordered s B n pending rowss stagedss j : live_at s B n pending rowss stagedss j -> batches_ordered (with_batch B pending).
Proof.
  intros Hl. unfold with_batch. destruct pending as [|r0 l] eqn:E; [apply (li_ordered _ _ _ _ _ _ _ Hl)|]. rewrite <- E in *. clear E.
  apply ordered_snoc; [apply (li_ordered _ _ _ _ _ _ _ Hl)|]. intros r Hr. pose proof (li_replica _ _ _ _ _ _ _ Hl) as Hrep.
  rewrite <- (ro_applied _ _ _ _ _ Hrep). now apply (ro_staged _ _ _ _ _ Hrep).
Qed.

Lemma with_batch_length B b : (length B <= length (with_batch B b))%nat.
Proof. unfold with_batch. destruct b; [easy|]. rewrite length_app. lia. Qed.

(** Their changes are in the segments of the new manifest. *)
Lemma staged_base s B n pending rowss stagedss j m :
  live_at s B n pending rowss stagedss j -> ts_staged s <> [] -> man_committed_version m = staged_version s ->
  base_ok m (rowss ++ stagedss) (concat (with_batch B pending)) /\ consistent (concat (rowss ++ stagedss)).
Proof.
  intros Hl Hne Ec. pose proof (li_replica _ _ _ _ _ _ _ Hl) as Hr. pose proof (ro_store _ _ _ _ _ Hr) as Hok.
  pose proof (ro_settled _ _ _ _ _ Hr Hne) as Hmem. destruct (li_settled _ _ _ _ _ _ _ Hl Hmem) as (Hnew & _ & _).
  set (s' := set_commit_version (staged_version s) (set_staged [] (ts_staged_ids s) (set_manifest (with_segments (man_segments (ts_manifest s) ++ ts_staged s) (ts_manifest s)) s))).
  pose proof (staged_version_u64 s rowss stagedss Hok) as Hsv.
  assert (Hr' : replica_ok s' (rowss ++ stagedss) [] (concat B ++ pending) []).
  { apply (published_replica s s' rowss stagedss _ pending Hr Hne); try easy; cbn.
    - apply typed_segments. apply (typed_version _ _ (ts_commit_version s)); [apply Hok|easy].
    - apply (files_publish _ _ (ts_manifest s) _ (ts_staged s) _ _ _ stagedss); [apply Hok|easy|easy]. }
  rewrite with_batch_concat. split; [|apply Hr']. apply (settled_base s' (rowss ++ stagedss) [] _ [] m Hr'); [exact Hmem|].
  rewrite Ec. unfold applied_version. cbn. rewrite Hnew. cbn. lia.
Qed.

Lemma live_published s B n pending rowss stagedss j s' :
  live_at s B n pending rowss stagedss j -> ts_staged s <> [] -> ts_config s' = ts_config s -> dk_wal (ts_disk s') = dk_wal (ts_disk s) ->
  in_sync s' -> present (ts_disk s') = true -> ts_memtable s' = ts_memtable s -> ts_last_sequence s' = ts_last_sequence s ->
  ts_commit_version s' = staged_version s -> ts_staged s' = [] ->
  man_flushed_sequence (ts_manifest s') = man_flushed_sequence (ts_manifest s) -> man_committed_version (ts_manifest s') = staged_version s ->
  typed (ts_config s') (ts_memtable s') (ts_commit_version s') (ts_last_sequence s') (ts_manifest s') ->
  files_ok (ts_segments s') (ts_schema s') (ts_manifest s') [] (ts_staged_ids s') (ts_retired s') (rowss ++ stagedss) [] ->
  live s' (with_batch B pending) (length (with_batch B pending)) [].
Proof.
  intros Hl Hne E1 E2 E3 E4 E5 E6 E7 E8 E9 E10 Ht Hf. pose proof (li_replica _ _ _ _ _ _ _ Hl) as Hr.
  pose proof (ro_settled _ _ _ _ _ Hr Hne) as Hmem. destruct (li_settled _ _ _ _ _ _ _ Hl Hmem) as (Hnew & _ & Ej).
  destruct (staged_base s B n pending rowss stagedss j (ts_manifest s') Hl Hne E10) as [Hbase _].
  exists (rowss ++ stagedss), [], (length (with_batch B pending)). split; try easy.
  - rewrite with_batch_concat. now apply (published_replica s s' rowss stagedss _ pending).
  - now rewrite firstn_all.
  - rewrite E1, E2, E4, E6, E9, drop_all, Nat.sub_diag by easy. pose proof (li_log _ _ _ _ _ _ _ Hl) as Hlog%live_log_present.
    pose proof (li_range _ _ _ _ _ _ _ Hl). rewrite Ej, drop_all in Hlog by easy. now replace (n - length B)%nat with O in Hlog by lia.
  - unfold ts_options. rewrite E1, E2. apply (li_policy _ _ _ _ _ _ _ Hl).
  - rewrite E9, E6. apply (li_sequence _ _ _ _ _ _ _ Hl).
  - intros _. rewrite E5, E7, E10. easy.
  - exact (pending_ordered _ _ _ _ _ _ _ Hl).
Qed.

(** The pieces in place, and not in memory. *)
Lemma disk_published s B n pending rowss stagedss j s' m :
  live_at s B n pending rowss stagedss j -> ts_staged s <> [] -> dk_wal (ts_disk s') = dk_wal (ts_disk s) -> ts_segments s' = ts_segments s ->
  present (ts_disk s') = true -> on_disk (ts_disk s') (ts_schema s) m -> typed (ts_config s) memtable_default 0 0 m ->
  man_flushed_sequence m = man_flushed_sequence (ts_manifest s) -> man_committed_version m = staged_version s ->
  files_ok (ts_segments s) (ts_schema s) m [] (0, 0) [] (rowss ++ stagedss) [] ->
  disk_ok (ts_config s) (ts_disk s') (with_batch B pending) n.
Proof.
  intros Hl Hne E1 E2 E3 E4 Ht E5 E6 Hf. pose proof (li_replica _ _ _ _ _ _ _ Hl) as Hr.
  pose proof (ro_settled _ _ _ _ _ Hr Hne) as Hmem. destruct (li_settled _ _ _ _ _ _ _ Hl Hmem) as (Hnew & _ & Ej).
  destruct (staged_base s B n pending rowss stagedss j m Hl Hne E6) as [Hbase Hc]. pose proof (li_range _ _ _ _ _ _ _ Hl) as [_ Hn].
  pose proof (with_batch_length B pending) as Hlen. unfold ts_segments in E2.
  exists m, (rowss ++ stagedss), (length (with_batch B pending)). split; try easy.
  - unfold ts_segments, ts_schema in *. now rewrite E2.
  - now rewrite firstn_all.
  - rewrite E1, E3, E5, drop_all by easy. pose proof (li_log _ _ _ _ _ _ _ Hl) as Hlog%live_disk_log%disk_log_present.
    rewrite Ej, drop_all in Hlog by easy. replace (n - length B)%nat with O in Hlog by lia. now replace (n - length (with_batch B pending))%nat with O by lia.
  - split; [easy|]. lia.
  - exact (pending_ordered _ _ _ _ _ _ _ Hl).
Qed.

(** A failed publication leaves the pieces published, or given up. *)
Definition published_partly (steady : Prop) (c : TableConfig) (B : list (list StoredRow)) (n : nat) (pending : list StoredRow) (s' : TableStore) : Prop :=
  left_behind steady c (with_batch B pending) n [] s' \/ left_behind steady c B n [] s'.

Lemma repeat_tended steady k m : tended steady m -> tended steady (repeat_table k m).
Proof. intros Hm. induction k as [|k IH]; cbn [repeat_table]; [apply tended_ret|]. now apply tended_bind. Qed.

Lemma publish_staged_live io s B n pending :
  live s B n pending -> spares_published io ->
  wp (publish_staged io)
    (fun _ s' => ts_config s' = ts_config s /\ live s' (with_batch B pending) n [] /\ (pending <> [] -> live s' (with_batch B pending) (length (with_batch B pending)) []))
    (published_partly (steady_staged io) (ts_config s) B n pending) s.
Proof.
  intros (rowss & stagedss & j & Hl) Hsp. pose proof (li_replica _ _ _ _ _ _ _ Hl) as Hr. pose proof (ro_store _ _ _ _ _ Hr) as Hok. pose proof (so_files _ _ _ Hok) as Hfiles.
  unfold publish_staged. apply wp_bind, wp_get. destruct (ts_staged s) as [|m0 l0] eqn:Est.
  { apply wp_ret. split; [easy|]. pose proof (fo_staged _ _ _ _ _ _ _ _ Hfiles) as Hs. apply Forall2_nil_inv_l in Hs as ->.
    rewrite (pending_nil pending (ro_pending _ _ _ _ _ Hr)) in Hl |- *. split; [now exists rowss, [], j|easy]. }
  rewrite <- Est in *. assert (Hne : ts_staged s <> []) by (now rewrite Est). apply wp_bind, wp_modify.
  set (s1 := set_staged [] (ts_staged_ids s) s). pose proof (li_sync _ _ _ _ _ _ _ Hl) as Hsync.
  assert (Hun : left_behind (steady_staged io) (ts_config s) B n [] s1).
  { apply live_left_behind; [easy|]. apply (live_unstaged s s1 B n pending rowss stagedss j Hl); try easy; [now apply tidy_same|].
    exact (files_unstage _ _ _ _ _ _ _ _ Hfiles). }
  pose proof (so_typed _ _ _ Hok) as Ht. pose proof (staged_version_u64 s rowss stagedss Hok) as Hsv.
  apply wp_bind, wp_lift; [intros m Em|now right]. pose proof (typed_next _ _ _ _ _ _ Ht Em) as Htm.
  apply next_generation_inv in Em as (Es & En & Ef & Ec). apply wp_bind, wp_lift; [|now right].
  pose proof (ro_staged _ _ _ _ _ Hr) as (Rs & _ & Rs').
  intros [fresh repeated] Hspl. apply (split_held_fresh _ (ts_schema s) _ rowss _ stagedss) in Hspl as [-> ->];
    [|apply all_known_holds, Hfiles|apply all_known_holds, Hfiles|intros a b Ha Hb; destruct (ro_floor _ _ _ _ _ Hr) as (f & F1 & F2 & _); specialize (F2 a Ha); specialize (Rs b (Rs' b Hb)); lia].
  destruct (is_nil (ts_staged s)) eqn:En'; [now destruct (ts_staged s)|]. apply wp_bind.
  set (m' := with_segments _ _).
  assert (Ht' : typed (ts_config s) (ts_memtable s) (staged_version s) (ts_last_sequence s) m').
  { apply typed_segments, typed_flushed; [now apply (typed_version _ _ (ts_commit_version s))|apply (typed_counters _ _ _ _ _ Htm)|easy]. }
  assert (Hf' : files_ok (ts_segments s) (ts_schema s) m' [] (ts_staged_ids s) (ts_retired s) (rowss ++ stagedss) []).
  { apply (files_publish _ _ (ts_manifest s) m' (ts_staged s)); [easy|cbn; now rewrite Es|exact En]. }
  assert (Hrest : tended (steady_staged io) (_ ← repeat_table (length (ts_staged s)) (advance_compaction (sp_compact io));
                             _ ← advance_compaction (sp_compact io); _ ← reclaim_obsolete_segments (sp_reclaim io); mret (len (ts_staged s)))).
  { assert (Hadv : tended (steady_staged io) (advance_compaction (sp_compact io))) by (eapply tended_weaken; [|apply advance_tended]; now intros []).
    apply tended_bind; [now apply repeat_tended|intros _]. apply tended_bind; [easy|intros _]. apply tended_bind; [apply reclaim_tended|intros _]. apply tended_ret. }
  pose proof (li_range _ _ _ _ _ _ _ Hl) as [_ Hn]. pose proof (with_batch_length B pending) as Hlen.
  unfold publish_pieces, wp at 1.
  pose proof (fun Q E => wp_publish_disk m' (sp_publish io) Q E s1 _ _ _ _ _ _ _ _ _ Ht' Hf') as Hpub. unfold wp in Hpub.
  specialize (Hpub (fun _ s2 => exists d, s2 = set_manifest_dir d s1 /\ is_some (dir_manifest d) = true /\ manifest_load (dir_manifest d) (ts_schema s) = Ok m')
    (fun s2 => exists d, s2 = set_manifest_dir d s1 /\ (dir_manifest d = manifest_file (ts_disk s) \/
       (pio_sync_directory (sp_publish io) = false /\ is_some (dir_manifest d) = true /\ manifest_load (dir_manifest d) (ts_schema s) = Ok m')))).
  destruct (publish m' (sp_publish io) s1) as [[[]|e] s2].
  - destruct Hpub as (d & -> & Hd & Hload); [intros d Hd Hload; now exists d|intros d Hd; exists d; auto|intros d Hio Hd Hload; exists d; auto|].
    apply wp_bind, wp_modify. cbn [discard_files foldl].
    match goal with |- wp _ _ _ ?x => set (s3 := x) end.
    assert (Hs3 : live s3 (with_batch B pending) (length (with_batch B pending)) [] /\ ts_config s3 = ts_config s).
    { split; [|easy]. apply (live_published s B n pending rowss stagedss j s3 Hl Hne); easy. }
    destruct Hs3 as [Hs3 Ec3]. eapply wp_mono; [exact (Hrest _ _ _ _ Hs3)| |].
    + intros k s' [Hl' Ec']. split; [now rewrite Ec'|]. split; [apply (live_fewer _ _ _ n _ Hl'); lia|easy].
    + intros s' Hb. left. rewrite Ec3 in Hb. apply (left_behind_fewer _ _ _ _ n _ _ Hb). lia.
  - destruct Hpub as (d & -> & Hcase); [intros d Hd Hload; now exists d|intros d Hd; exists d; auto|intros d Hio Hd Hload; exists d; auto|].
    destruct Hcase as [Hd|(Hio & Hd & Hload)].
    + right. apply live_left_behind; [easy|]. apply (live_unstaged s _ B n pending rowss stagedss j Hl); try easy; [now apply tidy_same|]. cbn.
      apply (discard_fresh s rowss stagedss); [easy|]. intros x Hx%in_rev. easy.
    + left. split; [easy|]. split; [|intros [Hs _]; unfold synced in Hs; congruence].
      destruct Hsp as [Hs|Hrm]; [unfold synced in Hs; congruence|].
      apply (disk_published s B n pending rowss stagedss j _ m' Hl Hne); try easy.
      * cbn. now rewrite discard_none.
      * exact (typed_bare _ _ _ _ _ Ht').
      * exact (files_bare _ _ _ _ _ _ _ _ Hf').
Qed.

Lemma discard_staged_live remove s B n pending :
  live s B n pending -> wp (discard_staged remove) (fun _ s' => live s' B n [] /\ ts_config s' = ts_config s) (fun _ => False) s.
Proof.
  intros (rowss & stagedss & j & Hl). pose proof (li_replica _ _ _ _ _ _ _ Hl) as Hr. apply wp_modify. split; [|easy].
  apply (live_unstaged s _ B n pending rowss stagedss j Hl); try easy.
  - apply tidy_same; try easy. exact (li_sync _ _ _ _ _ _ _ Hl).
  - cbn. apply (discard_fresh s rowss stagedss); [apply Hr|apply incl_refl].
Qed.

(** ** Taking a batch *)

Lemma live_rekeyed s s' B n pending : rekeyed s s' -> live s B n pending -> live s' B n pending.
Proof.
  intros Hk (rowss & stagedss & j & [L1 L2 L3 L4 L5 L6 L7 L8 L9]). exists rowss, stagedss, j.
  pose proof (replica_same _ _ _ _ _ _ (rekeyed_same _ _ Hk) L1) as Hr. rewrite Hk in Hr |- *. now split.
Qed.

Definition steady_ingest (io : ingest_io) : Prop :=
  io_set_len (in_append io) = true /\ steady_settle (in_settle io) /\ steady_stage (in_stage io) /\ steady_staged (in_staged io).

(** After a batch that failed: in the log, or in part staged. *)
Definition ingested_partly (steady : Prop) (c : TableConfig) (B : list (list StoredRow)) (n : nat) (new : list StoredRow) (s' : TableStore) : Prop :=
  left_behind steady c (with_batch B new) n [] s' \/ staged_partly steady c B n new s'.

Lemma left_behind_weaken (P Q : Prop) c B n pending s : (Q -> P) -> left_behind P c B n pending s -> left_behind Q c B n pending s.
Proof. intros Himp (H3 & H4 & H5). split; [easy|]. split; [easy|]. auto. Qed.

Lemma inserted_some s rowss stagedss taken pending rows sequence n :
  replica_ok s rowss stagedss taken pending -> Forall (fun r => stored_row_wf r = true) rows -> rows <> [] ->
  memtable_rows (set_last_sequence sequence (set_memtable (insert_rows (ts_memtable s) rows n).2 s)) <> [].
Proof.
  intros Hr Hwf Hne. destruct rows as [|r rows]; [easy|]. pose proof (so_memtable _ _ _ (ro_store _ _ _ _ _ Hr)) as Hm.
  destruct (insert_rows_spec (r :: rows) (ts_memtable s) n Hm) as (M1 & M2 & _).
  { apply wf_versions, Forall_fmap in Hwf. eapply Forall_impl; [exact Hwf|]. cbn. lia. }
  unfold memtable_rows. cbn [ts_memtable set_last_sequence set_memtable]. intros E. specialize (M2 (row_key r)).
  destruct (mt_rows (insert_rows (ts_memtable s) (r :: rows) n).2); [|easy]. rewrite <- (latest_memtable _ (mt_rows (ts_memtable s))) in M2 by apply Hm. unfold latest in M2.
  rewrite <- foldl_app in M2. symmetry in M2. apply (latest_none _ _ M2 r); [|easy]. apply in_app_iff. right. now left.
Qed.

Lemma fresh_ordered s B n pending rowss stagedss j rows :
  live_at s B n pending rowss stagedss j -> (forall r, In r rows -> applied_version s < row_version r) -> batches_ordered (B ++ [map durable_row rows]).
Proof.
  intros Hl Hnew. apply ordered_snoc; [apply (li_ordered _ _ _ _ _ _ _ Hl)|]. intros r (x & Hx & _ & ->)%in_durable.
  rewrite <- (ro_applied _ _ _ _ _ (li_replica _ _ _ _ _ _ _ Hl)). now apply Hnew.
Qed.

(** The batch in the log and in memory. *)
Lemma live_inserted s s1 B n rowss j rows sequence k :
  live_at s B n [] rowss [] j -> same_table s s1 -> manifest_file (ts_disk s1) = manifest_file (ts_disk s) ->
  wal_sync_policy (dk_wal (ts_disk s1)) = wal_sync_policy (dk_wal (ts_disk s)) ->
  ts_staged s = [] -> Forall (sound_row (ts_schema s)) rows -> rows <> [] -> ts_last_sequence s <= sequence < 2 ^ 64 ->
  (forall r, In r rows -> applied_version s < row_version r) ->
  live_log (ts_config s) (present (ts_disk s)) (man_flushed_sequence (ts_manifest s)) sequence (drop j B ++ [map durable_row rows]) (k - j) (dk_wal (ts_disk s1)) ->
  (k <= S (length B))%nat ->
  live (set_last_sequence sequence (set_memtable (insert_rows (ts_memtable s1) rows 0).2 s1)) (with_batch B (map durable_row rows)) k [].
Proof.
  intros Hl Hs Em Ep Est Hrows Hne Hseq Hnew Hlog Hk. pose proof Hl as [L1 L2 L3 L4 L5 L6 L7 L8 L9].
  assert (Hb : with_batch B (map durable_row rows) = B ++ [map durable_row rows]) by now destruct rows.
  pose proof (replica_same _ _ _ _ _ _ Hs L1) as Hr1. pose proof (ty_sequence _ _ _ _ _ (so_typed _ _ _ (ro_store _ _ _ _ _ L1))) as Hq.
  pose proof Hs as [E1 E2 E3 E4 E5 [E6 E6'] E7 E8].
  assert (Ea : applied_version s1 = applied_version s) by (unfold applied_version; now rewrite E2, E3).
  exists rowss, [], j. split; cbn [ts_config ts_disk ts_manifest ts_last_sequence set_last_sequence set_memtable]; rewrite ?E1, ?E4; try easy.
  - rewrite with_batch_concat. apply insert_replica; [easy|congruence|unfold ts_schema in *; now rewrite E1|lia|now rewrite Ea].
  - unfold in_sync, on_disk, ts_schema in *. cbn. now rewrite E1, E4, Em.
  - rewrite Hb, take_app_le by apply L8. exact L3.
  - unfold present in *. rewrite Em, Hb, skipn_app. replace (j - length B)%nat with O by lia. exact Hlog.
  - unfold ts_options in *. cbn. now rewrite E1, Ep.
  - lia.
  - intros Hnil. exfalso. revert Hnil. apply (inserted_some s1 rowss [] (concat B) []); [easy|now apply sound_rows in Hrows|easy].
  - rewrite Hb, length_app. cbn. lia.
  - rewrite Hb. now apply (fresh_ordered s B n [] rowss [] j).
Qed.

(** The log is nowhere near the largest file. *)
Definition log_room (s : TableStore) : Prop := len (wal_bytes (dk_wal (ts_disk s))) < 2 ^ 62.

(** A live table with another log, in memory as it was. *)
Lemma live_log_replaced s w B n n' pending rowss stagedss j :
  live_at s B n pending rowss stagedss j -> wal_sync_policy w = wal_sync_policy (dk_wal (ts_disk s)) -> (n' <= length B)%nat ->
  live_log (ts_config s) (present (ts_disk s)) (man_flushed_sequence (ts_manifest s)) (ts_last_sequence s) (drop j B) (n' - j) w ->
  live (set_wal w s) B n' pending.
Proof.
  intros [L1 L2 L3 L4 L5 L6 L7 L8 L9] Ep Hn Hlog. exists rowss, stagedss, j. split; try easy.
  - now apply (replica_same s).
  - cbn. now rewrite Ep.
Qed.

(** A checkpoint puts every batch on disk. *)
Lemma checkpoint_live failpoint ok s B n pending :
  live s B n pending ->
  wp (checkpoint failpoint ok)
    (fun _ s' => ts_config s' = ts_config s /\ live s' B (if bool_decide (opt_wal_sync (ts_options s) = Off) then n else length B) pending)
    (left_behind True (ts_config s) B n pending) s.
Proof.
  intros Hl. pose proof Hl as (rowss & stagedss & j & Ha). pose proof (li_log _ _ _ _ _ _ _ Ha) as Hlog. pose proof (li_range _ _ _ _ _ _ _ Ha) as [Hj Hn].
  unfold wp, checkpoint, sync. rewrite <- (li_policy _ _ _ _ _ _ _ Ha). destruct (bool_decide _).
  - split; [easy|]. now apply (live_log_replaced s _ B n n pending rowss stagedss j).
  - destruct (failpoint && ok).
    + split; [easy|]. apply (live_log_replaced s _ B n _ pending rowss stagedss j Ha); [easy|easy|]. apply live_log_sync in Hlog. now rewrite length_drop in Hlog.
    + apply live_left_behind; [easy|]. now apply (live_log_replaced s _ B n n pending rowss stagedss j).
Qed.

Lemma disk_log_replaced s w B n rowss j B' :
  live_at s B n [] rowss [] j -> batches_ordered B' -> take j B' = take j B -> (length B <= length B')%nat ->
  disk_log (ts_config s) (present (ts_disk s)) (man_flushed_sequence (ts_manifest s)) (drop j B') (n - j) w ->
  disk_ok (ts_config s) (ts_disk (set_wal w s)) B' n.
Proof.
  intros Hl Ho Et Hle Hlog. assert (Hlive : live s B n []) by now exists rowss, [], j.
  pose proof Hl as [L1 L2 L3 L4 L5 L6 L7 L8 L9]. pose proof (ro_store _ _ _ _ _ L1) as Hok. exists (ts_manifest s), rowss, j. split; try easy.
  - exact (files_bare _ _ _ _ _ _ _ _ (so_files _ _ _ Hok)).
  - exact (typed_bare _ _ _ _ _ (so_typed _ _ _ Hok)).
  - apply L1.
  - now rewrite Et.
  - lia.
Qed.

Lemma append_live rows payload io s B n rowss j :
  live_at s B n [] rowss [] j -> ts_staged s = [] -> Forall (fun r => stored_row_wf r = true) rows -> rows <> [] ->
  Forall (fun r => validate_row (ts_schema s) r = Ok tt) rows -> (forall r, In r rows -> applied_version s < row_version r) ->
  is_u64 (cfg_table_id (ts_config s)) = true -> log_room s -> ts_last_sequence s + 1 < 2 ^ 64 ->
  encode_batch (ts_last_sequence s + 1) (cfg_table_id (ts_config s)) (ts_schema s) rows = Ok payload ->
  wp (append_wal payload io)
    (fun _ s1 => same_table s s1 /\
       let s2 := set_last_sequence (ts_last_sequence s + 1) (set_memtable (insert_rows (ts_memtable s1) rows 0).2 s1) in
       live s2 (with_batch B (map durable_row rows)) n [] /\
       (opt_wal_sync (ts_options s) = Always -> live s2 (with_batch B (map durable_row rows)) (length (with_batch B (map durable_row rows))) []))
    (fun s1 => left_behind (io_set_len io = true) (ts_config s) B n [] s1 \/
       left_behind (io_set_len io = true) (ts_config s) (with_batch B (map durable_row rows)) n [] s1) s.
Proof.
  intros Hl Est Hwf Hne Hval Hnew Hid Hroom Hseq He. pose proof Hl as [L1 L2 L3 L4 L5 L6 L7 [L8 L8'] L9].
  pose proof (so_typed _ _ _ (ro_store _ _ _ _ _ L1)) as Ht. pose proof (ty_sequence _ _ _ _ _ Ht) as Hq.
  assert (Hb : with_batch B (map durable_row rows) = B ++ [map durable_row rows]) by now destruct rows.
  assert (Hlb : length (B ++ [map durable_row rows]) = S (length B)) by (rewrite length_app; cbn; lia).
  assert (Hsound : Forall (sound_row (ts_schema s)) rows).
  { apply Forall_and. split; [|easy]. eapply Forall_impl; [exact Hval|]. apply validate_row_fits. }
  assert (Hbwf : batch_wf (ts_last_sequence s + 1) (cfg_table_id (ts_config s)) (ts_schema s) rows = true).
  { pose proof (ty_schema _ _ _ _ _ Ht) as [Hv Hc]%andb_prop. unfold batch_wf. rewrite Hid, andb_true_r. unfold ts_schema. rewrite Hv, !andb_true_r.
    apply andb_true_intro. split; [apply andb_true_intro; split|].
    - apply in_unsigned_spec. lia.
    - rewrite forallb_forall in Hc |- *. intros c Hin. now specialize (Hc c Hin) as [Hc _]%andb_prop.
    - apply forallb_forall. now apply List.Forall_forall. }
  unfold wp, append_wal. destruct (append_encoded _ _ _) as [r w] eqn:Ea.
  apply (append_log _ _ _ _ _ _ _ rows _ _ _ _ L4 Hbwf Hne Hval He L6) in Ea as [Hp Hcase]; [|lia|easy]. destruct r as [u|e].
  - destruct Hcase as [Hlog Hal]. split; [easy|]. cbn zeta.
    assert (Hins : forall k, live_log (ts_config s) (present (ts_disk s)) (man_flushed_sequence (ts_manifest s)) (ts_last_sequence s + 1)
        (drop j B ++ [map durable_row rows]) (k - j) w -> (k <= S (length B))%nat -> live (set_last_sequence (ts_last_sequence s + 1)
          (set_memtable (insert_rows (ts_memtable (set_wal w s)) rows 0).2 (set_wal w s))) (with_batch B (map durable_row rows)) k []).
    { intros k Hk Hle. apply (live_inserted s (set_wal w s) B n rowss j); try easy. lia. }
    split; [apply Hins; [easy|lia]|]. intros Hpol. apply Hins; [|rewrite Hb; lia].
    rewrite Hb, Hlb. rewrite <- L5 in Hpol. specialize (Hal Hpol). rewrite length_drop in Hal. now replace (S (length B) - j)%nat with (S (length B - j)) by lia.
  - destruct Hcase as [Hst Hdk].
    destruct (io_set_len io) eqn:Eio; [left; apply live_left_behind; [easy|]; apply (live_log_replaced s w B n n [] rowss [] j Hl Hp); [easy|]; now apply Hst|].
    destruct Hdk as [Hdk|Hdk]; [left|right]; (split; [easy|]; split; [|easy]).
    + now apply (disk_log_replaced s w B n rowss j B Hl).
    + rewrite Hb. apply (disk_log_replaced s w B n rowss j _ Hl); [|now rewrite take_app_le|lia|].
      * exact (fresh_ordered s B n [] rowss [] j rows Hl Hnew).
      * rewrite skipn_app. now replace (j - length B)%nat with O by lia.
Qed.

Lemma batch_payload_some s sequence rows payload :
  batch_payload s sequence rows = Ok (Some payload) -> encode_batch sequence (cfg_table_id (ts_config s)) (ts_schema s) rows = Ok payload.
Proof.
  unfold batch_payload. destruct (_ && _); [easy|]. unfold mbind, result_bind. destruct (encode_batch _ _ _ _); [|easy].
  destruct (_ || _); [|easy]. now intros [= ->].
Qed.

(** A batch too large for the log. *)
Lemma stage_publish_live {A} rows io s B n (a : TableStore -> A) :
  live s B n [] -> Forall (sound_row (ts_schema s)) rows -> rows <> [] -> (forall r, In r rows -> applied_version s < row_version r) ->
  spares_published (in_staged io) ->
  wp (_ ← stage_rows rows (in_stage io); _ ← publish_staged (in_staged io); s ← get; mret (a s))
    (fun _ s' => ts_config s' = ts_config s /\ live s' (with_batch B (map durable_row rows)) (length (with_batch B (map durable_row rows))) [])
    (ingested_partly (steady_ingest io) (ts_config s) B n (map durable_row rows)) s.
Proof.
  intros Hl Hs Hne Hnew Hsp. apply wp_bind.
  eapply wp_mono; [apply (stage_rows_live rows (in_stage io) s B n []); [easy..|now left]| |].
  2: { intros s' (part & Hi & Hb). right. exists part. split; [easy|]. eapply left_behind_weaken; [|exact Hb]. now intros (_ & _ & H3 & _). }
  intros [] s1 [Hl1 Ec1]. apply wp_bind. eapply wp_mono; [exact (publish_staged_live (in_staged io) s1 B n _ Hl1 Hsp)| |].
  - intros k s2 (Ec2 & _ & Hl2). apply wp_bind, wp_get, wp_ret. split; [congruence|]. apply Hl2. now destruct rows.
  - rewrite Ec1. intros s2 [Hb|Hb]; [left|right; exists []; split; [easy|]]; (eapply left_behind_weaken; [|exact Hb]); now intros (_ & _ & _ & H3).
Qed.

Lemma with_batch_fewer s B b n pending :
  live s (with_batch B b) (length (with_batch B b)) pending -> (n <= length B)%nat -> live s (with_batch B b) n pending.
Proof. intros Hl Hn. apply (live_fewer _ _ _ _ _ Hl). pose proof (with_batch_length B b). lia. Qed.

Lemma take_batch_live rows io s B n :
  live s B n [] -> ts_staged s = [] -> Forall (fun r => stored_row_wf r = true) rows -> (forall r, In r rows -> applied_version s < row_version r) ->
  spares_published (in_staged io) -> is_u64 (cfg_table_id (ts_config s)) = true -> log_room s -> ts_last_sequence s + 1 < 2 ^ 64 ->
  wp (ingest_at_sequence_with_append_policy (ts_last_sequence s + 1) rows Preserve io)
    (fun _ s' => ts_config s' = ts_config s /\ live s' (with_batch B (map durable_row rows)) n [] /\
       (rows <> [] -> opt_wal_sync (ts_options s) = Always -> live s' (with_batch B (map durable_row rows)) (length (with_batch B (map durable_row rows))) []))
    (ingested_partly (steady_ingest io) (ts_config s) B n (map durable_row rows)) s.
Proof.
  intros Hl Est Hwf Hnew Hsp Hid Hroom Hseq.
  assert (Hn : (n <= length B)%nat) by (destruct Hl as (rowss & stagedss & j & Hl); apply (li_range _ _ _ _ _ _ _ Hl)).
  assert (Hfail : forall s', rekeyed s s' -> ingested_partly (steady_ingest io) (ts_config s) B n (map durable_row rows) s').
  { intros s' Hk. right. exists []. split; [easy|]. apply live_left_behind; [apply (same_config _ _ (rekeyed_same _ _ Hk))|exact (live_rekeyed _ _ _ _ _ Hk Hl)]. }
  unfold ingest_at_sequence_with_append_policy. apply wp_bind, wp_get, wp_bind.
  apply wp_lift; [intros [] Hval%validated_rows|now apply Hfail]. destruct rows as [|r0 rows0]; cbn [is_nil]; [now apply wp_ret|].
  set (rows := r0 :: rows0) in *. assert (Hne : rows <> []) by easy. apply wp_bind. eapply wp_mono; [exact (append_keys_wp rows s)| |exact Hfail].
  intros rows' s1 [-> Hk]. pose proof (live_rekeyed _ _ _ _ _ Hk Hl) as Hl1. pose proof (rekeyed_same _ _ Hk) as [E1 E2 E3 E4 E5 [E6 E6'] E7 E8].
  assert (Ed : ts_disk s1 = ts_disk s) by (rewrite Hk; easy).
  assert (Ea : applied_version s1 = applied_version s) by (unfold applied_version; now rewrite E2, E3).
  destruct (_ <=? _); [now apply wp_raise, Hfail|]. apply wp_bind, wp_lift; [intros payload Hpay|now apply Hfail].
  unfold ts_schema, ts_options, log_room in *. rewrite <- Ea in Hnew. rewrite <- E1, <- ?E8, <- Ed in *. destruct payload as [payload|].
  - apply batch_payload_some in Hpay. unfold ts_schema in Hpay. rewrite <- E1 in Hpay. destruct Hl1 as (rowss & stagedss & j & Hl1).
    assert (stagedss = []) as -> by (pose proof (fo_staged _ _ _ _ _ _ _ _ (so_files _ _ _ (ro_store _ _ _ _ _ (li_replica _ _ _ _ _ _ _ Hl1)))) as Hs; rewrite E6, Est in Hs; now apply Forall2_nil_inv_l in Hs).
    apply wp_bind. eapply wp_mono; [apply (append_live rows payload (in_append io) s1 B n rowss j); [easy|congruence|easy..]| |].
    2: { intros s' [Hb|Hb]; [right; exists []; split; [easy|]|left]; (eapply left_behind_weaken; [|exact Hb]); now intros []. }
    intros [] s2 (Hs2 & Hlive & Hal). apply wp_bind, wp_get. destruct (insert_rows (ts_memtable s2) rows 0) as [visible m]. cbn [snd] in Hlive, Hal.
    apply wp_bind, wp_modify, wp_bind. set (s3 := set_last_sequence _ _) in *. assert (Ec3 : ts_config s3 = ts_config s1) by apply Hs2.
    destruct (_ <=? _); [|now apply wp_ret]. unfold wp.
    pose proof (settle_tended (in_settle io) s3 _ _ _ Hlive) as Hw. pose proof (fun Hp => settle_tended (in_settle io) s3 _ _ _ (Hal Hp)) as Hw'. unfold wp in Hw, Hw'.
    destruct (settle (in_settle io) s3) as [[[]|e] s4]; rewrite Ec3 in *.
    + apply wp_ret. split; [apply Hw|]. split; [apply Hw|]. intros _ Hp. now apply Hw'.
    + left. eapply left_behind_weaken; [|exact Hw]. now intros (_ & H3 & _).
  - eapply wp_mono; [apply (stage_publish_live rows io s1 B n); try easy| |easy].
    + apply Forall_and. split; [|easy]. eapply Forall_impl; [exact Hval|]. apply validate_row_fits.
    + intros a s' [Ec' Hl']. split; [easy|]. split; [now apply with_batch_fewer|easy].
Qed.

(** A batch in order: what of it is new is one more batch; where the log is synchronized with every
    append it is there for good. *)
Lemma ingest_live rows io s B n :
  live s B n [] -> ts_staged s = [] -> Forall (fun r => stored_row_wf r = true) rows -> spares_published (in_staged io) ->
  is_u64 (cfg_table_id (ts_config s)) = true -> log_room s ->
  wp (ingest_cdc_in_order rows io)
    (fun _ s' => let new := untaken (concat B) rows in ts_config s' = ts_config s /\ live s' (with_batch B new) n [] /\
       (new <> [] -> opt_wal_sync (ts_options s) = Always -> live s' (with_batch B new) (length (with_batch B new)) []))
    (ingested_partly (steady_ingest io) (ts_config s) B n (untaken (concat B) rows)) s.
Proof.
  intros Hl Est Hwf Hsp Hid Hroom. unfold ingest_cdc_in_order. apply wp_bind, wp_get. fold (fresh_rows s rows).
  assert (Eu : untaken (concat B) rows = map durable_row (fresh_rows s rows)) by (unfold untaken, fresh_rows; now rewrite (live_applied _ _ _ _ Hl)).
  unfold ingest_cdc. apply wp_bind, wp_get, wp_bind, wp_lift; [intros sequence [-> Hq]%next_of_inv|].
  - rewrite Eu. eapply wp_mono; [apply (take_batch_live (fresh_rows s rows) io s B n); try easy; [now apply fresh_wf|]| |easy].
    + intros r [_ Hr]%filter_In. now apply Z.ltb_lt in Hr.
    + intros a s' (Ec & Hl' & Hal). split; [easy|]. split; [easy|]. intros Hne. apply Hal. now destruct (fresh_rows s rows).
  - right. exists []. split; [easy|]. now apply live_left_behind.
Qed.

Lemma stage_cdc_live rows io s B n pending :
  live s B n pending -> stageable pending (fresh_rows s rows) -> Forall (fun r => stored_row_wf r = true) rows ->
  wp (stage_cdc rows io) (fun _ s' => live s' B n (pending ++ untaken (concat B) rows) /\ ts_config s' = ts_config s)
    (staged_partly (steady_stage io) (ts_config s) B n (pending ++ untaken (concat B) rows)) s.
Proof.
  intros Hl Hst Hwf%(fresh_wf s).
  assert (Eu : untaken (concat B) rows = map durable_row (fresh_rows s rows)) by (unfold untaken, fresh_rows; now rewrite (live_applied _ _ _ _ Hl)).
  rewrite Eu. assert (Hsame : forall s', rekeyed s s' -> staged_partly (steady_stage io) (ts_config s) B n (pending ++ map durable_row (fresh_rows s rows)) s').
  { intros s' Hk. exists pending. split; [apply incl_appl, incl_refl|]. apply live_left_behind; [apply (same_config _ _ (rekeyed_same _ _ Hk))|exact (live_rekeyed _ _ _ _ _ Hk Hl)]. }
  unfold stage_cdc. apply wp_bind, wp_get. destruct (_ || _); [apply wp_raise; now apply Hsame|]. fold (fresh_rows s rows).
  apply wp_bind, wp_lift; [intros [] Hval%validate_rows_fit|now apply Hsame]. apply wp_bind.
  assert (Hrest : forall s', rekeyed s s' -> wp (stage_rows (fresh_rows s rows) io)
    (fun _ s' => live s' B n (pending ++ map durable_row (fresh_rows s rows)) /\ ts_config s' = ts_config s)
    (staged_partly (steady_stage io) (ts_config s) B n (pending ++ map durable_row (fresh_rows s rows))) s').
  { intros s' Hk. pose proof (rekeyed_same _ _ Hk) as [E1 E2 E3 _ _ _ _ _]. rewrite <- E1.
    apply stage_rows_live; [exact (live_rekeyed _ _ _ _ _ Hk Hl)|unfold ts_schema in *; rewrite E1; now apply Forall_and| |easy].
    intros r [_ Hr]%filter_In. apply Z.ltb_lt in Hr. unfold applied_version in *. now rewrite E2, E3. }
  destruct (bool_decide _); [|apply wp_ret; now apply Hrest].
  eapply wp_mono; [now apply (preserve_keys_wp (fresh_rows s rows) s s)|intros [] s'; apply Hrest|exact Hsame].
Qed.

End durability.
