(* ===== verification/Reopen.v ===== *)
(** * Reopening a table

    What [open_with_wal] makes of the disk a table left, however it stopped: the rows of every batch
    on it, in a table that is as if it had never stopped.  With it, the histories of a table that
    fails, is killed, loses power and is opened again. *)

From Stdlib Require Import ZArith Lia String Sorted.
From stdpp Require Import prelude list.
From coqutil Require Import Byte.
From S2P Require Import Prelude.
From S2P Require Import Types.
From S2P Require Import Codec.
From S2P Require Import Wal.
From S2P Require Import Memtable.
From S2P Require Import Manifest.
From S2P Require Import Segment.
From S2P Require Import Metadata.
From S2P Require Import SegmentFile.
From S2P Require Import Merge.
From S2P Require Import Compaction.
From S2P Require Import Snapshot.
From S2P Require Import Store.
From S2P Require Import Recovery.
From S2P Require Import StoreInvariant.
From S2P Require Import Replica.
From S2P Require Import LogState.
From S2P Require Import Durability.

#[local] Open Scope Z_scope.

(** ** The rows of the log *)

Lemma find_column columns index c :
  NoDup (map col_id columns) -> columns !! index = Some c ->
  list_find (fun w => wc_id w = col_id c) (map wal_column columns) = Some (index, wal_column c).
Proof.
  intros Hn Hc. apply list_find_Some. change (map wal_column columns) with (wal_column <$> columns). rewrite list_lookup_fmap, Hc. split; [easy|]. split; [easy|].
  intros i w Hw Hlt E. rewrite list_lookup_fmap in Hw. destruct (columns !! i) as [c'|] eqn:Ei; [|easy]. cbn in Hw. injection Hw as <-.
  cbn in E. assert (i = index); [|lia]. apply (NoDup_lookup (map col_id columns) i index (col_id c)); [easy|..].
  - change (map col_id columns) with (col_id <$> columns). rewrite list_lookup_fmap, Ei. cbn. now rewrite E.
  - change (map col_id columns) with (col_id <$> columns). now rewrite list_lookup_fmap, Hc.
Qed.

(** The row is one of the table's own schema. *)
Lemma adapt_logged schema r :
  NoDup (map col_id (schema_columns schema)) -> logged_row schema r ->
  adapt_recovered_row schema (map wal_column (schema_columns schema)) r = Ok r.
Proof.
  intros Hn (_ & Hv & _). pose proof (validate_row_fits _ _ Hv) as Hfit. unfold row_fits in Hfit. unfold adapt_recovered_row, mbind, result_bind.
  assert (El : len (row_values r) = len (map wal_column (schema_columns schema))) by (rewrite len_map; unfold len; lia).
  rewrite El, Z.eqb_refl. cbn [negb]. rewrite (map_result_lookup _ _ (row_values r)); [|easy|].
  - replace {| row_key := row_key r; row_values := row_values r; row_version := row_version r; row_deleted := row_deleted r |} with r by now destruct r.
    now rewrite Hv.
  - intros i c v Hc Hr. unfold adapt_value. rewrite (find_column _ i c Hn Hc), bool_decide_true by easy. cbn [negb]. now rewrite Hr.
Qed.

Section reopen.
Context `{Checksum} `{BlockSketches} `{Layout} `{FileBytes}.

Lemma insert_rows_all mt rows n : (insert_rows mt rows n).2 = apply_all mt rows.
Proof.
  revert mt n; induction rows as [|r rows IH]; intros mt n; [easy|]. cbn [insert_rows apply_all foldl]. unfold apply at 2.
  destruct (insert mt r true) as [b m]. apply IH.
Qed.

(** Replaying passes over what is flushed and applies the rest. *)
Lemma replay_old c flushed mt bs :
  Forall (our_batch c) bs -> Forall (fun b => rb_sequence b <= flushed) bs ->
  fold_result (replay_batch (cfg_schema c) (cfg_table_id c) flushed) mt bs = Ok mt.
Proof.
  intros Ho. revert mt; induction Ho as [|b bs Hb _ IH]; intros mt Hs; [easy|]. apply Forall_cons in Hs as [Hs Hss]. cbn [fold_result].
  unfold replay_batch at 2, mbind, result_bind. rewrite (our_table _ _ Hb), Z.eqb_refl. cbn [negb]. rewrite (proj2 (Z.leb_le _ _) Hs). now apply IH.
Qed.

Lemma replay_new c flushed mt bs :
  NoDup (map col_id (schema_columns (cfg_schema c))) -> Forall (our_batch c) bs -> Forall (fun b => flushed < rb_sequence b) bs ->
  fold_result (replay_batch (cfg_schema c) (cfg_table_id c) flushed) mt bs = Ok (apply_all mt (concat (map rb_rows bs))).
Proof.
  intros Hn Ho. revert mt; induction Ho as [|b bs Hb _ IH]; intros mt Hs; [easy|]. apply Forall_cons in Hs as [Hs Hss]. cbn [fold_result].
  unfold replay_batch at 2, mbind, result_bind. rewrite (our_table _ _ Hb), Z.eqb_refl. cbn [negb]. rewrite (proj2 (Z.leb_gt _ _) Hs).
  destruct (our_rows _ _ Hb) as [_ Hr]. rewrite (our_columns _ _ Hb), map_result_same.
  - rewrite IH by easy. cbn [map concat]. unfold apply_all. now rewrite foldl_app.
  - eapply Forall_impl; [exact Hr|]. intros r. now apply adapt_logged.
Qed.

Lemma replay_log c present flushed last kept w ps old new :
  schema_ok (cfg_schema c) -> log_ok c present flushed last kept w ps old new ->
  replay_batches (cfg_schema c) (cfg_table_id c) flushed (old ++ new) = Ok (apply_all memtable_default (concat (map rb_rows new))).
Proof.
  intros (_ & _ & Hn) [_ H4 _ H6 H7 _ _ _ _ _]. apply Forall_app in H4 as [Ho Hw]. unfold replay_batches.
  rewrite fold_result_app. unfold mbind, result_bind. rewrite replay_old by easy. now apply replay_new.
Qed.

(** ** Segments with the same file *)

Lemma duplicates_listed d order found i : duplicates d order = Ok found -> In i found -> In i (map fst order).
Proof.
  revert found; induction order as [|[index a] rest IH]; intros found; [now intros [= <-]|]. cbn [duplicates].
  destruct rest as [|[j b] rest']; [now intros [= <-]|]. set (rest := (j, b) :: rest') in *. unfold mbind, result_bind.
  destruct (if same_segment_span a b then _ else _) as [same|]; [|easy]. destruct (duplicates d rest) as [l|]; [|easy].
  intros [= <-] Hi. destruct same; [destruct Hi as [->|Hi]; [now left|]|]; right; now apply (IH l).
Qed.

(** Of those with one file, one is left. *)
Lemma duplicates_kept d schema order (rowss : list (list StoredRow)) found :
  NoDup (map fst order) -> duplicates d order = Ok found ->
  (forall i a, In (i, a) order -> exists rows, rowss !! i = Some rows /\ segment_holds d schema a rows) ->
  forall i rows, In i (map fst order) -> rowss !! i = Some rows -> exists i', In i' (map fst order) /\ ~ In i' found /\ rowss !! i' = Some rows.
Proof.
  revert found; induction order as [|[index a] rest IH]; intros found Hn Hd Hh i rows Hi Hr; [easy|]. cbn [duplicates] in Hd.
  destruct rest as [|[j b] rest']; [injection Hd as <-; now exists i|]. set (rest := (j, b) :: rest') in *.
  unfold mbind, result_bind in Hd. destruct (if same_segment_span a b then _ else _) as [same|] eqn:Es; [|easy].
  destruct (duplicates d rest) as [l|] eqn:El; [|easy]. injection Hd as <-. cbn [map fst] in Hn. apply NoDup_cons in Hn as [Hni Hn].
  assert (Hrest : forall i rows, In i (map fst rest) -> rowss !! i = Some rows ->
    exists i', In i' (map fst ((index, a) :: rest)) /\ ~ In i' (if same : bool then index :: l else l) /\ rowss !! i' = Some rows).
  { intros i1 rows1 Hi1 Hr1. destruct (IH l Hn eq_refl) with (i := i1) (rows := rows1) as (i' & Hi' & Hf' & Hr'); [|easy|easy|].
    { intros i2 a2 Hx. apply Hh. now right. }
    exists i'. split; [now right|]. split; [|easy]. assert (i' <> index) by (intros ->; now apply Hni, list_elem_of_In). destruct same; [|easy].
    intros [E|Hx]; [congruence|easy]. }
  destruct Hi as [<-|Hi]; [|now apply (Hrest i rows)]. cbn [fst] in *. destruct same.
  - destruct (same_segment_span a b); [|easy]. destruct (Hh index a (or_introl eq_refl)) as (ra & Ea & Ha).
    destruct (Hh j b (or_intror (or_introl eq_refl))) as (rb & Eb & Hb). rewrite Ea in Hr. injection Hr as <-.
    apply (same_file_rows _ _ _ _ _ _ Ha Hb) in Es. subst rb. apply (Hrest j ra); [now left|easy].
  - exists index. split; [now left|]. split; [|easy]. intros Hx. apply Hni, list_elem_of_In. exact (duplicates_listed _ _ _ _ El Hx).
Qed.

Lemma span_order_in segments i a : In (i, a) (span_order segments) <-> segments !! i = Some a.
Proof.
  unfold span_order. rewrite <- list_elem_of_In, sort_by_perm, list_elem_of_lookup. split.
  - intros (k & Hk). rewrite list_lookup_imap in Hk. destruct (segments !! k) as [x|] eqn:E; [|easy]. cbn in Hk. now injection Hk as -> ->.
  - intros Ha. exists i. now rewrite list_lookup_imap, Ha.
Qed.

Lemma span_order_indexes segments : map fst (span_order segments) ≡ₚ seq 0 (length segments).
Proof.
  unfold span_order. rewrite sort_by_perm. change (map fst (imap pair segments)) with (fst <$> imap pair segments). rewrite fmap_imap.
  apply reflexive_eq. apply list_eq. intros i. rewrite list_lookup_imap. destruct (segments !! i) as [x|] eqn:E; cbn.
  - symmetry. apply lookup_seq. split; [easy|]. exact (lookup_lt_Some _ _ _ E).
  - symmetry. apply lookup_seq_ge. now apply lookup_ge_None.
Qed.

(** The rows are all in the segments left. *)
Lemma collapse_rows d schema segments rowss found :
  Forall2 (segment_holds d schema) segments rowss -> duplicates d (span_order segments) = Ok found ->
  incl (concat rowss) (concat (left_out rowss found)).
Proof.
  intros Hh Hd r (rows & Hrows & Hr)%in_concat. apply in_concat. exists rows. split; [|easy].
  apply list_elem_of_In, list_elem_of_lookup in Hrows as (i & Hi). apply in_left_out. pose proof (Forall2_length _ _ _ Hh) as El.
  assert (Hin : forall k, In k (map fst (span_order segments)) <-> (k < length rowss)%nat).
  { intros k. rewrite <- list_elem_of_In, span_order_indexes, elem_of_seq. lia. }
  destruct (duplicates_kept d schema (span_order segments) rowss found) with (i := i) (rows := rows) as (i' & _ & H3 & H4); try easy.
  - rewrite span_order_indexes. apply NoDup_seq.
  - intros k a Ha%span_order_in. destruct (Forall2_lookup_l _ _ _ _ _ Hh Ha) as (rows' & E & H3). now exists rows'.
  - apply Hin. exact (lookup_lt_Some _ _ _ Hi).
  - now exists i'.
Qed.

Lemma files_fewer dir schema m m' staged reserved retired rowss stagedss found :
  files_ok dir schema m staged reserved retired rowss stagedss -> man_segments m' = left_out (man_segments m) found ->
  man_next_segment_id m' = man_next_segment_id m -> files_ok dir schema m' staged reserved retired (left_out rowss found) stagedss.
Proof.
  intros [H3 H4 H5 H6 H7 (H8 & H8' & H8'') H9] Es En.
  assert (Hsub : man_segments m' ++ staged `sublist_of` man_segments m ++ staged) by (rewrite Es; apply sublist_app; [apply left_out_sublist|easy]).
  split; rewrite ?En; try easy.
  - rewrite Es. now apply left_out_Forall2.
  - apply Forall_forall. intros x Hx. rewrite Forall_forall in H5. apply H5. exact (elem_of_sublist _ _ _ Hx Hsub).
  - apply (sublist_NoDup _ (map seg_id (man_segments m ++ staged))); [easy|]. rewrite Es, !map_app. apply sublist_app; [|easy].
    unfold left_out. rewrite left_out_map. apply left_out_sublist.
  - split; [easy|]. split; [easy|]. apply Forall_forall. intros x Hx. rewrite Forall_forall in H8''. apply H8''. exact (elem_of_sublist _ _ _ Hx Hsub).
  - eapply Forall_impl; [exact H9|]. intros name (id & E1 & E2 & E3 & E4). exists id. split; [easy|]. split; [easy|]. split; [easy|].
    intros (x & -> & Hx)%list_elem_of_fmap. apply E4. apply list_elem_of_fmap. exists x. split; [easy|]. exact (elem_of_sublist _ _ _ Hx Hsub).
Qed.

(** ** A table being opened *)

(** A table the store takes: its schema, its options and its name are what the code that creates it
    allows, and it is not transactional. *)
Record config_ok (c : TableConfig) : Prop := {
  co_schema : schema_ok (cfg_schema c) /\ schema_wf (cfg_schema c) = true;
  co_options : validate_store_options (cfg_options c) = Ok tt /\ 0 <= opt_max_compaction_rows (cfg_options c) /\
               opt_transactional (cfg_options c) = false /\ 0 <= opt_block_rows (cfg_options c);
  co_table : is_u64 (cfg_table_id c) = true
}.

(** The manifest is loaded, the log open, and nothing else in memory. *)
Record opening (c : TableConfig) (B : list (list StoredRow)) (n : nat) (rec : Recovery) (rowss : list (list StoredRow)) (j : nat)
    (ps : list (list byte)) (old new : list RecoveredBatch) (s : TableStore) : Prop := {
  og_blank : s = set_manifest (ts_manifest s) (unopened c (ts_disk s));
  og_sync : in_sync s;
  og_files : files_ok (ts_segments s) (cfg_schema c) (ts_manifest s) [] (0, 0) [] rowss [];
  og_typed : typed c memtable_default 0 0 (ts_manifest s);
  og_consistent : consistent (concat rowss);
  og_base : base_ok (ts_manifest s) rowss (concat (take j B));
  og_bytes : wal_bytes (dk_wal (ts_disk s)) = log_of ps;
  og_log : log_ok c (present (ts_disk s)) (man_flushed_sequence (ts_manifest s)) (rec_last_sequence rec) (n - j) (dk_wal (ts_disk s)) ps old new;
  og_fresh : drop j B = map rb_rows new;
  og_recovered : recovered rec (old ++ new);
  og_policy : wal_sync_policy (dk_wal (ts_disk s)) = opt_wal_sync (cfg_options c);
  og_range : (j <= length B)%nat /\ (n <= length B)%nat;
  og_ordered : batches_ordered B
}.

Lemma opening_config c B n rec rowss j ps old new s : opening c B n rec rowss j ps old new s -> ts_config s = c.
Proof. intros Ho. rewrite (og_blank _ _ _ _ _ _ _ _ _ _ Ho). easy. Qed.

Lemma opening_disk_log c B n rec rowss j ps old new s w :
  opening c B n rec rowss j ps old new s -> disk_log c (present (ts_disk s)) (man_flushed_sequence (ts_manifest s)) (drop j B) (n - j) w ->
  disk_ok c (ts_disk (set_wal w s)) B n.
Proof.
  intros Ho Hlog. pose proof (opening_config _ _ _ _ _ _ _ _ _ _ Ho) as Ec. destruct Ho as [O1 O2 O3 O4 O5 O6 O7 O8 O9 O10 O11 O12 O13].
  exists (ts_manifest s), rowss, j. split; try easy. unfold in_sync, ts_schema in O2. now rewrite Ec in O2.
Qed.

Lemma opening_disk c B n rec rowss j ps old new s : opening c B n rec rowss j ps old new s -> disk_ok c (ts_disk s) B n.
Proof.
  intros Ho. replace (ts_disk s) with (ts_disk (set_wal (dk_wal (ts_disk s)) s)) by (cbn; now destruct (ts_disk s)).
  apply (opening_disk_log c B n rec rowss j ps old new s _ Ho). right. exists ps, old, new, [], (rec_last_sequence rec).
  rewrite app_nil_r. split; [apply Ho|]. split; [apply short_nil|]. split; apply Ho.
Qed.

(** *** Collapsing *)

Lemma log_ok_present c present flushed last kept w ps old new :
  log_ok c present flushed last kept w ps old new -> log_ok c true flushed last kept w ps old new.
Proof. intros []. now split. Qed.

(** The manifest without the repeated segments. *)
Lemma collapsed c B n rec rowss j ps old new s found m d :
  opening c B n rec rowss j ps old new s -> duplicates (ts_segments s) (span_order (man_segments (ts_manifest s))) = Ok found ->
  typed c memtable_default 0 0 m -> man_segments m = left_out (man_segments (ts_manifest s)) found ->
  man_next_segment_id m = man_next_segment_id (ts_manifest s) -> man_flushed_sequence m = man_flushed_sequence (ts_manifest s) ->
  man_committed_version m = man_committed_version (ts_manifest s) ->
  is_some (dir_manifest d) = true -> manifest_load (dir_manifest d) (cfg_schema c) = Ok m ->
  opening c B n rec (left_out rowss found) j ps old new (set_manifest m (set_manifest_dir d s)).
Proof.
  intros Ho Hd Ht Es En Ef Ev Hp Hl. pose proof (opening_config _ _ _ _ _ _ _ _ _ _ Ho) as Ec. destruct Ho as [O1 O2 O3 O4 O5 O6 O7 O8 O9 O10 O11 O12 O13].
  pose proof (collapse_rows _ _ _ _ _ (all_known_holds _ _ _ _ (fo_holds _ _ _ _ _ _ _ _ O3)) Hd) as Hi.
  assert (Hi' : incl (concat (left_out rowss found)) (concat rowss)).
  { intros r (rows & Hr & Hin)%in_concat. apply in_concat. exists rows. split; [|easy]. apply in_left_out in Hr as (k & _ & Hk).
    apply list_elem_of_In. exact (list_elem_of_lookup_2 _ _ _ Hk). }
  split; try easy; cbn [ts_manifest set_manifest]; rewrite ?Ef.
  - rewrite O1. easy.
  - unfold in_sync, on_disk, ts_schema. cbn. now rewrite Ec.
  - exact (files_fewer _ _ _ m _ _ _ _ _ _ O3 Es En).
  - now apply (consistent_incl (concat rowss)).
  - apply (base_ok_same (ts_manifest s) _ rowss); [easy|easy|easy|]. intros k. unfold visible. f_equal. symmetry. now apply latest_incl.
  - unfold present, manifest_file. cbn. rewrite Hp. exact (log_ok_present _ _ _ _ _ _ _ _ _ O8).
Qed.

Lemma collapse_opening io c B n rec rowss j ps old new s :
  opening c B n rec rowss j ps old new s ->
  wp (collapse_identical_segments io)
    (fun _ s' => (exists rowss', opening c B n rec rowss' j ps old new s') /\ man_flushed_sequence (ts_manifest s') = man_flushed_sequence (ts_manifest s))
    (fun s' => disk_ok c (ts_disk s') B n /\ duplicates (ts_segments s) (span_order (man_segments (ts_manifest s))) <> Ok []) s.
Proof.
  intros Ho. unfold collapse_identical_segments. apply wp_bind, wp_get. pose proof (opening_disk _ _ _ _ _ _ _ _ _ _ Ho) as Hdisk.
  pose proof (opening_config _ _ _ _ _ _ _ _ _ _ Ho) as Ec. set (E := fun s' => _). apply wp_bind.
  apply wp_lift_eq; [intros found Ed|intros e Ed; subst E; cbn; now rewrite Ed]. subst E. rewrite Ed.
  destruct found as [|i found]; [apply wp_ret; split; [now exists rowss|easy]|]. set (f := i :: found) in *.
  apply wp_bind, wp_lift; [intros m Em|now split]. pose proof (typed_next _ _ _ _ _ _ (typed_segments _ _ _ _ _ (left_out (man_segments (ts_manifest s)) f) (og_typed _ _ _ _ _ _ _ _ _ _ Ho)) Em) as Ht.
  apply next_generation_inv in Em as (Es & En & Ef & Ev). cbn in Es, En, Ef, Ev.
  pose proof (files_fewer _ _ _ m _ _ _ _ _ _ (og_files _ _ _ _ _ _ _ _ _ _ Ho) Es En) as Hf.
  assert (Hcol : forall d, is_some (dir_manifest d) = true -> manifest_load (dir_manifest d) (ts_schema s) = Ok m ->
    opening c B n rec (left_out rowss f) j ps old new (set_manifest m (set_manifest_dir d s))).
  { intros d Hd Hl. unfold ts_schema in Hl. rewrite Ec in Hl. now apply collapsed. }
  assert (Hother : forall d, dir_manifest d = manifest_file (ts_disk s) -> disk_ok c (ts_disk (set_manifest_dir d s)) B n).
  { intros d Hd. destruct Hdisk as (m0 & rowss0 & j0 & [D1 D2 D3 D4 D5 D6 D7 D8]). exists m0, rowss0, j0. unfold present, on_disk, manifest_file in *. cbn in *.
    rewrite <- Hd in *. now split. }
  apply wp_bind. eapply wp_publish_disk; [unfold ts_schema in *; rewrite Ec; exact Ht|unfold ts_schema; rewrite Ec; exact Hf|intros d Hd Hl|intros d Hd|intros d Hio Hd Hl].
  - apply wp_modify. split; [|easy]. exists (left_out rowss f). now apply Hcol.
  - split; [now apply Hother|easy].
  - split; [|easy]. exact (opening_disk _ _ _ _ _ _ _ _ _ _ (Hcol d Hd Hl)).
Qed.

(** *** Files no manifest names *)

Definition fewer_files (m : Manifest) (s s' : TableStore) : Prop :=
  exists d, s' = set_segments d s /\ forall meta, meta ∈ man_segments m -> omap_get (seg_file_name meta) d = omap_get (seg_file_name meta) (ts_segments s).

Lemma remove_orphans_wp live remove names removed m s0 s :
  (forall meta, meta ∈ man_segments m -> live (seg_file_name meta) = true) -> fewer_files m s0 s ->
  wp (remove_orphans live remove names removed) (fun _ => fewer_files m s0) (fun s' => fewer_files m s0 s' /\ exists name, remove name = false) s.
Proof.
  intros Hlive. revert removed s; induction names as [|name names IH]; intros removed s Hs; cbn [remove_orphans]; [now apply wp_ret|].
  destruct (live name) eqn:El; [now apply IH|]. destruct (remove name) eqn:Er; [|apply wp_raise; split; [easy|now exists name]].
  apply wp_bind, wp_modify, IH. destruct Hs as (d & -> & Hd). exists (remove_file name d). split; [easy|]. intros meta Hm.
  rewrite remove_file_get; [now apply Hd|]. intros E. rewrite <- E, (Hlive meta Hm) in El. easy.
Qed.

Lemma names_own m meta : meta ∈ man_segments m -> names_file (seg_file_name meta) m = true.
Proof. intros Hm%list_elem_of_In. unfold names_file. apply existsb_exists. exists meta. split; [easy|]. now apply bool_decide_eq_true. Qed.

Lemma opening_fewer c B n rec rowss j ps old new s s' :
  opening c B n rec rowss j ps old new s -> fewer_files (ts_manifest s) s s' -> opening c B n rec rowss j ps old new s'.
Proof.
  intros [O1 O2 O3 O4 O5 O6 O7 O8 O9 O10 O11 O12 O13] (d & -> & Hd). split; try easy; [rewrite O1; easy|]. cbn.
  apply (files_reclaimed (ts_segments s) d _ _ _ _ []); [|easy|easy]. intros meta [Hm|Hm]%elem_of_app; [now apply Hd|easy].
Qed.

Lemma orphans_opening io c B n rec rowss j ps old new s :
  opening c B n rec rowss j ps old new s ->
  wp (remove_orphan_segments (oi_pinned io) (oi_remove io) (oi_sync io))
    (fun _ s' => opening c B n rec rowss j ps old new s' /\ ts_manifest s' = ts_manifest s)
    (fun s' => disk_ok c (ts_disk s') B n /\ ((exists name, oi_remove io name = false) \/ oi_sync io = false)) s.
Proof.
  intros Ho. unfold remove_orphan_segments. apply wp_bind, wp_get, wp_bind.
  eapply wp_mono; [apply (remove_orphans_wp _ _ _ _ (ts_manifest s) s)| |].
  - intros meta Hm. now rewrite names_own.
  - exists (ts_segments s). split; [|easy]. destruct s as [? []]; easy.
  - intros removed s' Hf. pose proof (opening_fewer _ _ _ _ _ _ _ _ _ _ _ Ho Hf) as Ho'. assert (Em : ts_manifest s' = ts_manifest s) by now destruct Hf as (d & -> & _).
    destruct (_ && _) eqn:E; [|now apply wp_ret]. apply wp_raise. split; [exact (opening_disk _ _ _ _ _ _ _ _ _ _ Ho')|right].
    apply andb_prop in E as [_ E]. now destruct (oi_sync io).
  - intros s' [Hf Hr]. split; [|now left]. exact (opening_disk _ _ _ _ _ _ _ _ _ _ (opening_fewer _ _ _ _ _ _ _ _ _ _ _ Ho Hf)).
Qed.

(** *** The table opened *)

(** Where the highest version is in a segment it is in the manifest too. *)
Lemma recovered_committed c B n rec rowss j ps old new s :
  opening c B n rec rowss j ps old new s -> opt_transactional (cfg_options c) = false ->
  recovered_version s rec (ts_manifest s) = man_committed_version (ts_manifest s).
Proof.
  intros Ho Ht. unfold recovered_version, ts_options. rewrite (opening_config _ _ _ _ _ _ _ _ _ _ Ho), Ht.
  assert (Hle : Forall (fun meta => seg_max_version meta <= man_committed_version (ts_manifest s)) (man_segments (ts_manifest s))).
  { pose proof (og_base _ _ _ _ _ _ _ _ _ _ Ho) as [_ _ Hb]. pose proof (all_known_holds _ _ _ _ (fo_holds _ _ _ _ _ _ _ _ (og_files _ _ _ _ _ _ _ _ _ _ Ho))) as Hh.
    apply Forall_lookup. intros i meta Hi. destruct (Forall2_lookup_l _ _ _ _ _ Hh Hi) as (rows & Hr & Hm). destruct (holds_newest _ _ _ _ Hm) as (r & Hin & <-).
    apply Hb, in_concat. exists rows. split; [|easy]. apply list_elem_of_In. exact (list_elem_of_lookup_2 _ _ _ Hr). }
  revert Hle. generalize (man_committed_version (ts_manifest s)) as v. induction (man_segments (ts_manifest s)) as [|meta l IH]; intros v Hle; [easy|].
  apply Forall_cons in Hle as [Hm Hl]. cbn [map foldl]. rewrite Z.max_l by easy. now apply IH.
Qed.

Definition opened_sequence (rec : Recovery) (s : TableStore) : Z := Z.max (rec_last_sequence rec) (man_flushed_sequence (ts_manifest s)).

Lemma opened_sequence_u64 c B n rec rowss j ps old new s :
  opening c B n rec rowss j ps old new s -> 0 <= opened_sequence rec s < 2 ^ 64.
Proof.
  intros Ho. pose proof (typed_counters _ _ _ _ _ (og_typed _ _ _ _ _ _ _ _ _ _ Ho)) as Hc. pose proof (og_recovered _ _ _ _ _ _ _ _ _ _ Ho) as [_ [Hz _] Hr].
  pose proof (lo_ours _ _ _ _ _ _ _ _ _ (og_log _ _ _ _ _ _ _ _ _ _ Ho)) as Hours. unfold opened_sequence.
  assert (rec_last_sequence rec < 2 ^ 64); [|lia]. destruct (old ++ new) as [|b bs]; [rewrite Hr; lia|].
  destruct Hr as (x & Hx & ->). rewrite List.Forall_forall in Hours. apply (our_sequence _ _ (Hours x Hx)).
Qed.

Lemma default_shape : memtable_shape memtable_default.
Proof. split; [exact (SSorted_nil olt)|exact (Forall_nil_2 _)|exact (Forall_nil_2 _)]. Qed.

(** The table before the log is replayed. *)
Lemma opening_replica c B n rec rowss j ps old new s id w :
  config_ok c -> opening c B n rec rowss j ps old new s ->
  replica_ok (set_next_append_row_id id (set_commit_version (man_committed_version (ts_manifest s)) (set_last_sequence (opened_sequence rec s) (set_wal w s))))
    rowss [] (concat (take j B)) [].
Proof.
  intros [[C1 C1'] (C2 & C3 & C4 & C5) C6] Ho. pose proof (opening_config _ _ _ _ _ _ _ _ _ _ Ho) as Ec.
  pose proof (opened_sequence_u64 _ _ _ _ _ _ _ _ _ _ Ho) as Hq. pose proof Ho as [O1 O2 O3 O4 O5 [O6 O6' O6''] O7 O8 O9 O10 O11 O12 O13].
  pose proof (typed_counters _ _ _ _ _ O4) as Hc. set (s1 := set_next_append_row_id _ _).
  assert (Em : ts_memtable s1 = memtable_default) by (unfold s1; cbn; rewrite O1; easy).
  assert (Est : ts_staged s1 = [] /\ ts_staged_ids s1 = (0, 0) /\ ts_retired s1 = []) by (unfold s1; cbn; rewrite O1; easy). destruct Est as (E1 & E2 & E3).
  assert (Ea : applied_version s1 = man_committed_version (ts_manifest s)) by (unfold applied_version; rewrite Em; cbn; lia).
  assert (Er : memtable_rows s1 = []) by (unfold memtable_rows; now rewrite Em).
  assert (Edir : ts_segments s1 = ts_segments s) by easy. assert (Econf : ts_config s1 = c) by easy.
  split; rewrite ?Er, ?Ea; try easy.
  - split; unfold ts_schema, ts_options in *; rewrite ?Econf, ?Em, ?E1, ?E2, ?E3, ?Edir; try easy; [exact default_shape|].
    destruct O4 as [T1 T2 T3 T4 T5 T6 T7 T8]. now split.
  - unfold ts_options. now rewrite Econf.
  - exists (man_committed_version (ts_manifest s)). easy.
  - intros k. rewrite <- O6. unfold view, contents. change (sn_rows (snapshot s1)) with (memtable_rows s1). rewrite Er, app_nil_r.
    now rewrite (segments_durable _ _ _ _ (fo_holds _ _ _ _ _ _ _ _ O3)).
Qed.

(** What the log has is newer than what the segments have. *)
Lemma ordered_drop B j r : batches_ordered B -> In r (concat (drop j B)) -> spec_applied (concat (take j B)) < row_version r.
Proof.
  intros Ho (b & Hb & Hr)%in_concat. apply in_split in Hb as (l1 & l2 & E).
  assert (Hlt : spec_applied (concat (take j B ++ l1)) < row_version r).
  { apply (Ho (take j B ++ l1) b l2); [|easy]. now rewrite <- app_assoc, <- E, take_drop. }
  rewrite concat_app, spec_applied_app in Hlt. pose proof (foldl_max_ge (spec_applied (concat (take j B))) (map row_version (concat l1)) _ (or_introl eq_refl)). lia.
Qed.

Lemma opening_rows c B n rec rowss j ps old new s :
  opening c B n rec rowss j ps old new s ->
  Forall (logged_row (cfg_schema c)) (concat (drop j B)) /\ (drop j B <> [] -> concat (drop j B) <> []).
Proof.
  intros Ho. rewrite (og_fresh _ _ _ _ _ _ _ _ _ _ Ho). pose proof (lo_ours _ _ _ _ _ _ _ _ _ (og_log _ _ _ _ _ _ _ _ _ _ Ho)) as [_ Hn]%Forall_app.
  split.
  - apply Forall_concat, Forall_fmap. eapply Forall_impl; [exact Hn|]. intros b Hb. apply (our_rows _ _ Hb).
  - destruct new as [|b bs]; [easy|]. intros _. apply Forall_cons in Hn as [Hb _]. destruct (our_rows _ _ Hb) as [Hb' _]. cbn. now destruct (rb_rows b).
Qed.

Lemma opening_live c B n rec rowss j ps old new s id w :
  config_ok c -> opening c B n rec rowss j ps old new s -> wal_sync_policy w = opt_wal_sync (cfg_options c) ->
  live_log c (present (ts_disk s)) (man_flushed_sequence (ts_manifest s)) (opened_sequence rec s) (drop j B) (n - j) w ->
  live (set_next_append_row_id id (set_commit_version (man_committed_version (ts_manifest s)) (set_last_sequence (opened_sequence rec s)
          (set_wal w (set_memtable (apply_all memtable_default (concat (drop j B))) s))))) B n [].
Proof.
  intros Hc Ho Hp Hlog. pose proof (opening_config _ _ _ _ _ _ _ _ _ _ Ho) as Ec. destruct (opening_rows _ _ _ _ _ _ _ _ _ _ Ho) as [Hrows Hsome].
  pose proof (opening_replica _ _ _ _ _ _ _ _ _ _ id w Hc Ho) as Hr. pose proof (opened_sequence_u64 _ _ _ _ _ _ _ _ _ _ Ho) as Hq.
  pose proof Ho as [O1 O2 O3 O4 O5 O6 O7 O8 O9 O10 O11 O12 O13]. set (s1 := set_next_append_row_id id _) in Hr. set (rows := concat (drop j B)) in *.
  assert (Em : ts_memtable s1 = memtable_default) by (unfold s1; cbn; rewrite O1; easy).
  assert (Est : ts_staged s1 = []) by (unfold s1; cbn; rewrite O1; easy). assert (Econf : ts_config s1 = c) by easy.
  assert (Hwf : Forall (sound_row (cfg_schema c)) rows).
  { eapply Forall_impl; [exact Hrows|]. intros r (_ & Hv & Hw). split; [now apply validate_row_fits|easy]. }
  assert (Hnew : forall r, In r rows -> applied_version s1 < row_version r) by (intros r Hin; rewrite (ro_applied _ _ _ _ _ Hr); now apply ordered_drop).
  assert (Edur : map durable_row rows = rows).
  { rewrite <- (map_id rows) at 2. apply map_ext_in. intros r Hin. rewrite List.Forall_forall in Hrows. apply (Hrows r Hin). }
  assert (Hr' := insert_replica s1 rowss [] _ [] rows (opened_sequence rec s) 0 Hr Est). unfold ts_schema in Hr'. rewrite Econf in Hr'.
  specialize (Hr' Hwf Hq Hnew). pose proof (inserted_some s1 rowss [] _ [] rows (opened_sequence rec s) 0 Hr) as Hne.
  rewrite insert_rows_all, Em in Hr', Hne. specialize (Hne (proj2 (sound_rows _ _ Hwf))).
  rewrite Edur in Hr'. unfold rows in Hr' at 2. rewrite <- concat_app, take_drop in Hr'.
  match goal with |- live ?x _ _ _ => set (s2 := x) end. change (replica_ok s2 rowss [] (concat B) []) in Hr'. change (rows <> [] -> memtable_rows s2 <> []) in Hne.
  assert (Ec2 : ts_config s2 = c) by easy. assert (Em2 : ts_manifest s2 = ts_manifest s) by easy.
  exists rowss, [], j. split; unfold ts_options; rewrite ?Ec2, ?Em2; try easy.
  - cbn. unfold opened_sequence. lia.
  - intros Hnil. destruct (drop j B) as [|b l] eqn:Ed.
    + split; [easy|]. split; [easy|]. apply (f_equal length) in Ed. rewrite length_drop in Ed. cbn in Ed. lia.
    + exfalso. apply Hne; [now apply Hsome|easy].
Qed.

(** ** Opening *)

Lemma check_known d schema m rowss :
  Forall2 (segment_known d schema) (man_segments m) rowss -> check_segments false d schema m = Ok tt.
Proof.
  intros Hk%all_known_holds. unfold check_segments. induction Hk as [|meta rows segments rowss Hm _ IH]; [easy|]. cbn [fold_result].
  unfold mbind, result_bind. pose proof (holds_reads _ _ _ _ Hm) as Hr. unfold read_rows in Hr. unfold verify.
  destruct (omap_get (seg_file_name meta) d) as [f|]; [|easy]. unfold read_file, mbind, result_bind in Hr. destruct (verify_file f meta schema) as [[]|]; [exact IH|easy].
Qed.

Lemma list_min_le z zs : list_min (z :: zs) <= z.
Proof. apply foldl_min_le. now left. Qed.

(** The log of a table without a manifest starts with its first batch. *)
Lemma manifest_not_lost c present flushed last kept w ps old new d rec :
  log_ok c present flushed last kept w ps old new -> recovered rec (old ++ new) -> is_some (dir_manifest d) = present ->
  refuse_a_lost_manifest d (cfg_truncate_wal_on_flush c) rec (cfg_table_id c) = Ok tt.
Proof.
  intros Hok [Er _ _] Ep. unfold refuse_a_lost_manifest. rewrite Er, Ep. destruct (_ || present) eqn:E; [easy|]. apply orb_false_elim in E as [_ ->].
  pose proof (lo_first _ _ _ _ _ _ _ _ _ Hok eq_refl) as Hf. pose proof (lo_ours _ _ _ _ _ _ _ _ _ Hok) as Ho.
  destruct (old ++ new) as [|b bs]; [easy|]. apply Forall_cons in Ho as [Hb _]. cbn [List.filter]. rewrite (our_table _ _ Hb), Z.eqb_refl.
  cbn [map]. pose proof (list_min_le (rb_sequence b) (map rb_sequence (List.filter (fun b => rb_table_id b =? cfg_table_id c) bs))).
  cbn [starts_first] in Hf. destruct (Z.ltb_spec 1 (list_min (rb_sequence b :: map rb_sequence (List.filter (fun b => rb_table_id b =? cfg_table_id c) bs)))); [lia|easy].
Qed.

(** Every filesystem call of an opening succeeds. *)
Record smooth (io : open_io) : Prop := {
  sm_lock : oi_lock io = true;
  sm_log : oi_init io && oi_read io && oi_cut_tail io = true;
  sm_remove : forall name, oi_remove io name = true;
  sm_sync : oi_sync io = true;
  sm_reset : ri_set_len (oi_reset io) = true /\ ri_seek (oi_reset io) = true /\ ri_sync (oi_reset io) = true
}.

(** ... no two segments have one file, which the manifest would have to be written for, and no row
    identifiers have to be found. *)
Definition opens_plainly (c : TableConfig) (d : Disk) (io : open_io) : Prop :=
  smooth io /\ schema_key_mode (cfg_schema c) <> KMAppendRowId /\
  forall m, on_disk d (cfg_schema c) m -> duplicates (dk_segments d) (span_order (man_segments m)) = Ok [].

(** What a failed opening leaves. *)
Definition unopened_ok (c : TableConfig) (d : Disk) (io : open_io) (B : list (list StoredRow)) (n : nat) (s' : TableStore) : Prop :=
  disk_ok c (ts_disk s') B n /\ ~ opens_plainly c d io.

Lemma open_wal_opening io c d B n m rowss j :
  stored c d B n m rowss j ->
  wp (open_wal io)
    (fun rec s' => ts_segments s' = dk_segments d /\ dk_manifest (ts_disk s') = dk_manifest d /\
       exists ps old new, opening c B n rec rowss j ps old new (set_manifest m s'))
    (unopened_ok c d io B n) (unopened c d).
Proof.
  intros [D1 D2 D3 D4 D5 D6 [D7 D7'] D8]. unfold wp, open_wal. cbn [ts_disk unopened ts_options ts_config].
  destruct (open _ _ _ _) as [res w] eqn:Ew. apply (disk_log_open _ _ _ _ _ _ _ _ _ _ _ _ D6) in Ew; [|rewrite length_drop; lia].
  destruct res as [rec|e].
  - destruct Ew as (Hp & ps & old & new & Hb & Hf & Hrec & Hok). split; [easy|]. split; [easy|]. exists ps, old, new. now split.
  - destruct Ew as [Hlog Hio]. split; [|intros ([_ Hl _ _ _] & _); congruence]. exists m, rowss, j. now split.
Qed.

(** The end of an opening. *)
Definition finish_opening (io : open_io) (rec : Recovery) (flushed : Z) (mt : Memtable) (c : TableConfig) : Table unit :=
  _ ← modify (set_memtable mt);
  _ ← (if cfg_truncate_wal_on_flush c && existsb (fun b => rb_table_id b =? cfg_table_id c) (rec_batches rec) && (rec_last_sequence rec <=? flushed)
       then reset_wal (oi_reset io) else mret tt);
  _ ← mret tt;
  s ← get;
  next_append_row_id ← lift (find_next_append_row_id s);
  let m := ts_manifest s in
  modify (fun s => set_next_append_row_id next_append_row_id
                     (set_commit_version (recovered_version s rec m)
                        (set_last_sequence (Z.max (rec_last_sequence rec) (man_flushed_sequence m)) s))).

(** The log with the sequence the table goes on from. *)
Lemma opening_log c B n rec rowss j ps old new s :
  opening c B n rec rowss j ps old new s ->
  live_log c (present (ts_disk s)) (man_flushed_sequence (ts_manifest s)) (opened_sequence rec s) (drop j B) (n - j) (dk_wal (ts_disk s)).
Proof.
  intros Ho. pose proof (opening_config _ _ _ _ _ _ _ _ _ _ Ho) as Ec. destruct Ho as [O1 O2 O3 O4 O5 O6 O7 O8 O9 O10 O11 O12 O13]. exists ps, old, new. split; [easy|]. split.
  - destruct O8 as [L1 L2 L3 L4 L5 L6 L6' L7 L8 L9]. split; try easy. eapply Forall_impl; [exact L3|]. intros b Hb. cbn in *. unfold opened_sequence. lia.
  - split; [easy|]. intros Hp Hnil. destruct O10 as [_ _ R3]. rewrite Hnil in R3. unfold opened_sequence. rewrite R3.
    unfold in_sync, on_disk, present in *. destruct (manifest_file (ts_disk s)); [easy|]. unfold manifest_load, manifest_read, mbind, result_bind in O2.
    injection O2 as <-. easy.
Qed.

Lemma set_wal_same s : set_wal (dk_wal (ts_disk s)) s = s.
Proof. now destruct s as [? []]. Qed.

Lemma finish_live io c d B n rec rowss j ps old new s :
  config_ok c -> opening c B n rec rowss j ps old new s ->
  wp (finish_opening io rec (man_flushed_sequence (ts_manifest s)) (apply_all memtable_default (concat (drop j B))) c)
    (fun _ s' => ts_config s' = c /\ live s' B n []) (unopened_ok c d io B n) s.
Proof.
  intros Hc Ho. pose proof (opening_config _ _ _ _ _ _ _ _ _ _ Ho) as Ec. pose proof (opening_log _ _ _ _ _ _ _ _ _ _ Ho) as Hlog.
  unfold finish_opening. apply wp_bind, wp_modify, wp_bind. set (mt := apply_all _ _). set (s1 := set_memtable mt s).
  assert (Hend : forall w, wal_sync_policy w = opt_wal_sync (cfg_options c) ->
    live_log c (present (ts_disk s)) (man_flushed_sequence (ts_manifest s)) (opened_sequence rec s) (drop j B) (n - j) w ->
    wp (_ ← mret tt; s ← get; next_append_row_id ← lift (find_next_append_row_id s); let m := ts_manifest s in
        modify (fun s => set_next_append_row_id next_append_row_id (set_commit_version (recovered_version s rec m)
          (set_last_sequence (Z.max (rec_last_sequence rec) (man_flushed_sequence m)) s))))
      (fun _ s' => ts_config s' = c /\ live s' B n []) (unopened_ok c d io B n) (set_wal w s1)).
  { intros w Hp Hw. apply wp_bind, wp_ret, wp_bind, wp_get, wp_bind. apply wp_lift_eq.
    - intros id _. apply wp_modify. split; [easy|]. pose proof (opening_live _ _ _ _ _ _ _ _ _ _ id w Hc Ho Hp Hw) as Hl.
      rewrite <- (recovered_committed _ _ _ _ _ _ _ _ _ _ Ho) in Hl by apply Hc. exact Hl.
    - intros e He. split; [exact (opening_disk_log _ _ _ _ _ _ _ _ _ _ w Ho (live_disk_log _ _ _ _ _ _ _ Hw))|]. intros (_ & Hk & _).
      unfold find_next_append_row_id, ts_schema in He. cbn [ts_config set_wal set_disk s1 set_memtable] in He. rewrite Ec, bool_decide_false in He by easy. easy. }
  destruct (_ && _ && _) eqn:Eif; [|apply wp_ret; rewrite <- (set_wal_same s1); apply Hend; [apply Ho|exact Hlog]].
  apply andb_prop in Eif as [[_ Hex]%andb_prop Hle%Z.leb_le]. destruct (og_recovered _ _ _ _ _ _ _ _ _ _ Ho) as [Eb [_ Hall] _].
  pose proof (og_log _ _ _ _ _ _ _ _ _ _ Ho) as Hok.
  assert (new = []) as ->.
  { destruct new as [|b bs]; [easy|]. pose proof (lo_new _ _ _ _ _ _ _ _ _ Hok) as [Hb _]%Forall_cons. apply Forall_app in Hall as [_ [Hb' _]%Forall_cons]. lia. }
  assert (Hpr : present (ts_disk s) = true).
  { destruct (present (ts_disk s)) eqn:Epr; [easy|]. exfalso. rewrite Eb, app_nil_r in Hex. destruct old as [|b bs]; [easy|].
    pose proof (lo_entries _ _ _ _ _ _ _ _ _ Hok) as He. cbn [app map] in He. inversion He as [|p e ps' es _ _ Hlt _]; subst. cbn [entry_sequence] in Hlt.
    cbn [app] in Hall. apply Forall_cons in Hall as [Hb _]. pose proof (og_sync _ _ _ _ _ _ _ _ _ _ Ho) as Hs. unfold in_sync, on_disk, present in *.
    destruct (manifest_file (ts_disk s)); [easy|]. unfold manifest_load, manifest_read, mbind, result_bind in Hs. injection Hs as Hs. rewrite <- Hs in Hle. cbn in Hle. lia. }
  rewrite Hpr, (og_fresh _ _ _ _ _ _ _ _ _ _ Ho) in *. cbn [map] in *. unfold wp at 1, reset_wal.
  destruct (reset (dk_wal (ts_disk s1)) _ _ _) as [res w] eqn:Ew.
  assert (Hw : live_log c true (man_flushed_sequence (ts_manifest s)) (opened_sequence rec s) [] (n - j) w).
  { pose proof (live_log_reset _ _ _ _ _ _ _ _ _ _ Hlog Ew) as Hw. pose proof (lo_count _ _ _ _ _ _ _ _ _ Hok) as Hcount. cbn in Hcount. now replace (n - j)%nat with O by lia. }
  pose proof (reset_policy _ _ _ _ _ _ Ew) as Hp.
  destruct res as [[]|e]; [apply Hend; [rewrite Hp; apply Ho|exact Hw]|].
  split; [apply (opening_disk_log _ _ _ _ _ _ _ _ _ _ w Ho); rewrite Hpr, (og_fresh _ _ _ _ _ _ _ _ _ _ Ho); exact (live_disk_log _ _ _ _ _ _ _ Hw)|].
  intros ([_ _ _ _ (R1 & R2 & R3)] & _). rewrite R1, R2, R3 in Ew. unfold reset, sync_file in Ew. cbn [negb] in Ew. destruct (bool_decide _); easy.
Qed.

(** An opening finds every batch on the disk; one that fails leaves the disk with them, and it does
    not fail unless a call does. *)
Lemma recover_live io c d B n :
  config_ok c -> disk_ok c d B n ->
  wp (recover_table io) (fun _ s' => ts_config s' = c /\ live s' B n []) (unopened_ok c d io B n) (unopened c d).
Proof.
  intros Hc Hdisk. pose proof Hdisk as (m & rowss & j & Hd). pose proof Hd as [D1 D2 D3 D4 D5 D6 D7 D8]. pose proof Hc as [[C1 C1'] (C2 & C3 & C4 & C5) C6].
  destruct (ty_described _ _ _ _ _ D3) as (Ev & _ & _). unfold recover_table. apply wp_bind, wp_get, wp_bind.
  apply wp_lift_eq; [intros [] _|intros e E; change (validate_store_options (cfg_options c) = Err e) in E; congruence]. apply wp_bind. destruct (oi_lock io) eqn:El.
  2: { apply wp_raise. split; [easy|]. intros ([Hl _ _ _ _] & _). congruence. }
  apply wp_ret, wp_bind. apply wp_lift_eq; [intros m' Em|intros e E; change (manifest_load (manifest_file d) (cfg_schema c) = Err e) in E; unfold on_disk in D1; congruence].
  assert (m' = m) as -> by (change (manifest_load (manifest_file d) (cfg_schema c) = Ok m') in Em; unfold on_disk in D1; congruence).
  assert (Eup : (man_schema_version m <? schema_version (ts_schema (unopened c d))) = false) by (cbn; rewrite Ev; apply Z.ltb_irrefl). rewrite Eup.
  apply wp_bind, wp_lift_eq; [intros [] _|intros e E; change (check_segments false (dk_segments d) (cfg_schema c) m = Err e) in E; rewrite (check_known (dk_segments d) (cfg_schema c) m rowss (fo_holds _ _ _ _ _ _ _ _ D2)) in E; easy].
  apply wp_bind. eapply wp_mono; [exact (open_wal_opening io c d B n m rowss j Hd)| |easy]. intros rec s1 (Es1 & Em1 & ps & old & new & Ho).
  pose proof (og_log _ _ _ _ _ _ _ _ _ _ Ho) as Hlog. apply wp_bind, wp_lift_eq; [intros [] _|].
  2: { intros e E. exfalso. cbn [ts_disk ts_config unopened] in E. rewrite (manifest_not_lost c _ _ _ _ _ _ _ _ (dk_manifest d) rec Hlog (og_recovered _ _ _ _ _ _ _ _ _ _ Ho)) in E; [easy|].
       unfold present, manifest_file. cbn. now rewrite Em1. }
  apply wp_bind, wp_modify, wp_bind. eapply wp_mono; [exact (collapse_opening (oi_collapse io) _ _ _ _ _ _ _ _ _ _ Ho)| |].
  2: { intros s' [Hd' Hne]. split; [easy|]. intros (_ & _ & Hp). apply Hne. unfold ts_segments in Es1 |- *. cbn. rewrite Es1. now apply Hp. }
  intros [] s2 ((rowss2 & Ho2) & Ef2). cbn in Ef2. apply wp_bind. eapply wp_mono; [exact (orphans_opening io _ _ _ _ _ _ _ _ _ _ Ho2)| |].
  2: { intros s' [Hd' Hne]. split; [easy|]. intros ([_ _ Hr Hs _] & _). destruct Hne as [(name & Hn)|Hn]; [now rewrite Hr in Hn|congruence]. }
  intros [] s3 [Ho3 Em3]. pose proof (opening_config _ _ _ _ _ _ _ _ _ _ Ho3) as Ec3. apply wp_bind. unfold drop_uncommitted. apply wp_bind, wp_get.
  unfold ts_options. rewrite Ec3, C4. cbn [negb]. apply wp_ret, wp_bind. cbn [ts_config ts_schema unopened].
  assert (Ef3 : man_flushed_sequence m = man_flushed_sequence (ts_manifest s3)) by now rewrite Em3, Ef2.
  pose proof (replay_log _ _ _ _ _ _ _ _ _ C1 (og_log _ _ _ _ _ _ _ _ _ _ Ho3)) as Hrep.
  rewrite <- (og_fresh _ _ _ _ _ _ _ _ _ _ Ho3), <- (rc_batches _ _ (og_recovered _ _ _ _ _ _ _ _ _ _ Ho3)), <- Ef3 in Hrep.
  apply wp_lift_eq; [intros mt Emt|intros e E; change (ts_schema (unopened c d)) with (cfg_schema c) in E; congruence].
  assert (mt = apply_all memtable_default (concat (drop j B))) as -> by (change (ts_schema (unopened c d)) with (cfg_schema c) in Emt; congruence).
  rewrite Ef3. exact (finish_live io c d _ _ _ _ _ _ _ _ _ Hc Ho3).
Qed.

(** ** A table that stops and starts *)

Inductive system : Type :=
  | Running (s : TableStore)
  | Stopped (d : Disk).

Inductive event : Type :=
  | Performed (op : operation) (ok : bool)
  | Killed (op : operation) (ok : bool)
  | Halted
  | PowerLost
  | Opened
  | OpenFailed.

(** An operation after which the table goes on.  Any of its filesystem calls may fail but those that
    leave the disk ahead of the memory: synchronizing the directory of a manifest in place, or
    shortening the log after a failed append. *)
Definition steady (op : operation) : Prop :=
  match op with
  | Flush io => steady_flush io
  | Compact io => synced (ci_publish io)
  | Reclaim _ => True
  | Ingest _ io => steady_ingest io
  | Stage _ io => steady_stage io
  | Publish io => steady_staged io
  | Discard _ => True
  | SyncLog _ _ => True
  end.

(** An operation the process may be killed in: every call may fail, and the files just published are
    not removed again. *)
Definition killable (op : operation) : Prop :=
  match op with
  | Ingest _ io => spares_published (in_staged io)
  | Publish io => spares_published io
  | _ => True
  end.

Definition roomy (op : operation) (s : TableStore) : Prop := match op with Ingest _ _ => log_room s | _ => True end.

(** The disk with another log. *)
Definition with_log (w : Wal) (d : Disk) : Disk := {| dk_wal := w; dk_manifest := dk_manifest d; dk_segments := dk_segments d |}.

(** Killed: the disk is as the calls up to then left it.  A loss of power takes of the log what was
    not synchronized; a manifest renamed into place and a log shortened stay so.  An opening that fails
    while it writes the header of a new log leaves the log empty. *)
Inductive moves (c : TableConfig) (stream : list StoredRow) : system -> event -> system -> Prop :=
  | move_perform op s ok s' :
      allowed stream op s -> roomy op s -> steady op -> perform op s = (ok, s') -> moves c stream (Running s) (Performed op ok) (Running s')
  | move_kill op s ok s' :
      allowed stream op s -> roomy op s -> killable op -> perform op s = (ok, s') -> moves c stream (Running s) (Killed op ok) (Stopped (ts_disk s'))
  | move_halt s : moves c stream (Running s) Halted (Stopped (ts_disk s))
  | move_power d n :
      wal_synced (dk_wal d) <= n <= len (wal_bytes (dk_wal d)) -> moves c stream (Stopped d) PowerLost (Stopped (with_log (cut n (dk_wal d)) d))
  | move_open d io s d' : open_with_wal c io d = (Ok s, d') -> moves c stream (Stopped d) Opened (Running s)
  | move_open_fails d io e d' : open_with_wal c io d = (Err e, d') -> moves c stream (Stopped d) OpenFailed (Stopped d').

Inductive history (c : TableConfig) (stream : list StoredRow) (start : system) : list event -> system -> Prop :=
  | history_start : history c stream start [] start
  | history_next events st e st' : history c stream start events st -> moves c stream st e st' -> history c stream start (events ++ [e]) st'.

(** The directory of a table that does not exist yet. *)
Definition no_disk (policy : WalSync) : Disk := {|
  dk_wal := {| wal_bytes := []; wal_synced := 0; wal_sync_policy := policy |};
  dk_manifest := {| dir_manifest := None; dir_temporary := None |}; dk_segments := [] |}.

(** *** What it promises *)

(** The batches taken, how many of them are on disk for good, and the changes staged. *)
Definition promise : Type := list (list StoredRow) * nat * list StoredRow.

(** The batches on disk for good, after one more. *)
Definition kept_with (B : list (list StoredRow)) (n : nat) (b : list StoredRow) (forced : bool) : nat :=
  match b with [] => n | _ => if forced then S (length B) else n end.

Inductive promises (policy : WalSync) : operation -> bool -> promise -> promise -> Prop :=
  | promise_flush io B n p : promises policy (Flush io) true (B, n, p) (B, length B, p)
  | promise_flush_fails io B n p : promises policy (Flush io) false (B, n, p) (B, n, p)
  | promise_compact io ok B n p : promises policy (Compact io) ok (B, n, p) (B, n, p)
  | promise_reclaim io ok B n p : promises policy (Reclaim io) ok (B, n, p) (B, n, p)
  | promise_ingest rows io B n :
      let new := untaken (concat B) rows in
      promises policy (Ingest rows io) true (B, n, []) (with_batch B new, kept_with B n new (bool_decide (policy = Always)), [])
  | promise_ingest_fails rows io B n part :
      incl part (untaken (concat B) rows) -> promises policy (Ingest rows io) false (B, n, []) (B, n, part)
  | promise_ingest_late rows io B n :
      promises policy (Ingest rows io) false (B, n, []) (with_batch B (untaken (concat B) rows), n, [])
  | promise_stage rows io B n p : promises policy (Stage rows io) true (B, n, p) (B, n, p ++ untaken (concat B) rows)
  | promise_stage_fails rows io B n p part :
      incl part (p ++ untaken (concat B) rows) -> promises policy (Stage rows io) false (B, n, p) (B, n, part)
  | promise_publish io B n p : promises policy (Publish io) true (B, n, p) (with_batch B p, kept_with B n p true, [])
  | promise_publish_fails io B n p : promises policy (Publish io) false (B, n, p) (B, n, [])
  | promise_publish_late io B n p : promises policy (Publish io) false (B, n, p) (with_batch B p, n, [])
  | promise_discard remove ok B n p : promises policy (Discard remove) ok (B, n, p) (B, n, [])
  | promise_sync failpoint io B n p :
      promises policy (SyncLog failpoint io) true (B, n, p) (B, if bool_decide (policy = Off) then n else length B, p)
  | promise_sync_fails failpoint io B n p : promises policy (SyncLog failpoint io) false (B, n, p) (B, n, p).

(** Stopping drops what is staged; a loss of power leaves the batches on disk for good, and maybe some
    of the ones after; opening changes nothing. *)
Inductive promised (policy : WalSync) : event -> promise -> promise -> Prop :=
  | promised_performed op ok st st' : promises policy op ok st st' -> promised policy (Performed op ok) st st'
  | promised_killed op ok st B n p : promises policy op ok st (B, n, p) -> promised policy (Killed op ok) st (B, n, [])
  | promised_halted B n p : promised policy Halted (B, n, p) (B, n, [])
  | promised_power B n k : (n <= k <= length B)%nat -> promised policy PowerLost (B, n, []) (take k B, k, [])
  | promised_opened B n : promised policy Opened (B, n, []) (B, n, [])
  | promised_open_failed B n : promised policy OpenFailed (B, n, []) (B, n, []).

Inductive promised_all (policy : WalSync) (start : promise) : list event -> promise -> Prop :=
  | promised_start : promised_all policy start [] start
  | promised_next events st e st' : promised_all policy start events st -> promised policy e st st' -> promised_all policy start (events ++ [e]) st'.

(** ** The refinement *)

Definition keeps_promise (c : TableConfig) (st : system) (p : promise) : Prop :=
  match st, p with
  | Running s, (B, n, pending) => ts_config s = c /\ live s B n pending
  | Stopped d, (B, n, pending) => pending = [] /\ disk_ok c d B n
  end.

Lemma live_refines s B n pending : live s B n pending -> refines s (concat B) pending.
Proof. intros (rowss & stagedss & j & Hl). exists rowss, stagedss. apply Hl. Qed.

Lemma live_range s B n pending : live s B n pending -> (n <= length B)%nat.
Proof. intros (rowss & stagedss & j & Hl). apply (li_range _ _ _ _ _ _ _ Hl). Qed.

Lemma power_lost c d B n x :
  disk_ok c d B n -> wal_synced (dk_wal d) <= x <= len (wal_bytes (dk_wal d)) ->
  exists k, (n <= k <= length B)%nat /\ disk_ok c (with_log (cut x (dk_wal d)) d) (take k B) k.
Proof.
  intros (m & rowss & j & [D1 D2 D3 D4 D5 D6 [D7 D7'] D8]) Hx.
  destruct (disk_log_cut _ _ _ _ _ _ x D6) as (k & Hk & Hlog); [rewrite length_drop; lia|easy|]. rewrite length_drop in Hk.
  exists (j + k)%nat. split; [lia|]. exists m, rowss, j. split; try easy.
  - rewrite take_take. now replace (j `min` (j + k))%nat with j by lia.
  - rewrite <- take_drop_commute. replace (j + k - j)%nat with k by lia. exact Hlog.
  - rewrite length_take. lia.
  - now apply ordered_take.
Qed.

(** An operation of a running table: what it leaves when it goes on, and on disk. *)
Definition leaves (c : TableConfig) (op : operation) (ok : bool) (p : promise) (policy : WalSync) (stream : list StoredRow) (s' : TableStore) : Prop :=
  exists B n pending, promises policy op ok p (B, n, pending) /\ incl pending (map durable_row stream) /\
    left_behind (steady op) c B n pending s'.

Lemma kept_with_live s B n b forced :
  live s (with_batch B b) n [] -> (b <> [] -> forced = true -> live s (with_batch B b) (length (with_batch B b)) []) ->
  live s (with_batch B b) (kept_with B n b forced) [].
Proof.
  intros Hl Hf. destruct b as [|r b]; [easy|]. cbn [kept_with]. destruct forced; [|easy]. replace (S (length B)) with (length (with_batch B (r :: b))).
  - now apply Hf.
  - cbn [with_batch]. rewrite length_app. cbn. lia.
Qed.

Lemma operation_leaves stream c op s ok s' B n pending :
  consistent (map durable_row stream) -> Forall (fun r => stored_row_wf r = true) stream -> config_ok c ->
  incl pending (map durable_row stream) -> ts_config s = c -> live s B n pending ->
  allowed stream op s -> roomy op s -> killable op -> perform op s = (ok, s') ->
  leaves c op ok (B, n, pending) (opt_wal_sync (cfg_options c)) stream s'.
Proof.
  intros Hc Hwf Hcfg Hp Ec Hl Hal Hroom Hk Hperf. set (policy := opt_wal_sync _).
  assert (Hrows : forall rows, incl rows stream -> Forall (fun r => stored_row_wf r = true) rows).
  { intros rows Hi. apply List.Forall_forall. intros r Hr%Hi. rewrite List.Forall_forall in Hwf. now apply Hwf. }
  assert (Hdone : forall B' n' pending', ts_config s' = ts_config s -> live s' B' n' pending' -> left_behind (steady op) c B' n' pending' s').
  { intros B' n' pending' E Hl'. apply live_left_behind; [congruence|easy]. }
  rewrite <- Ec. rewrite <- Ec in Hdone.
  destruct op as [io|io|io|rows io|rows io|io|remove|failpoint io]; cbn [perform allowed roomy killable] in *.
  - apply (perform_wp _ _ _ _ _ _ (flush_live io s B n pending Hl)) in Hperf. destruct ok.
    + destruct Hperf as (k & Hl' & E & _). exists B, (length B), pending. split; [constructor|]. split; [easy|]. now apply Hdone.
    + exists B, n, pending. split; [constructor|]. easy.
  - apply (perform_wp _ _ _ _ _ _ (compact_tended io s B n pending Hl)) in Hperf. exists B, n, pending. split; [constructor|]. split; [easy|].
    destruct ok; [destruct Hperf as (k & Hl' & E); now apply Hdone|easy].
  - apply (perform_wp _ _ _ _ _ _ (reclaim_tended True io s B n pending Hl)) in Hperf. exists B, n, pending. split; [constructor|]. split; [easy|].
    destruct ok; [destruct Hperf as (k & Hl' & E); now apply Hdone|easy].
  - destruct Hal as [Hi Est]. pose proof (no_pending _ _ _ (live_refines _ _ _ _ Hl) Est) as ->.
    assert (Hid : is_u64 (cfg_table_id (ts_config s)) = true) by (rewrite Ec; apply Hcfg).
    apply (perform_wp _ _ _ _ _ _ (ingest_live rows io s B n Hl Est (Hrows _ Hi) Hk Hid Hroom)) in Hperf. destruct ok.
    + destruct Hperf as (_ & E & Hl' & Hal). eexists _, _, []. split; [constructor|]. split; [easy|]. apply Hdone; [easy|]. apply kept_with_live; [easy|].
      intros Hne Ha. apply Hal; [easy|]. unfold ts_options. rewrite Ec. now apply bool_decide_eq_true in Ha.
    + destruct Hperf as [Hb|(part & Hpart & Hb)].
      * eexists _, n, []. split; [apply promise_ingest_late|]. easy.
      * exists B, n, part. split; [now constructor|]. split; [|easy]. intros x Hx%Hpart. now apply (untaken_stream (concat B) rows).
  - pose proof (live_refines _ _ _ _ Hl) as Href. assert (Hst : stageable pending (fresh_rows s rows)).
    { right. rewrite (fresh_untaken _ _ _ rows Href). apply (consistent_incl _ _ Hc). apply incl_app; [easy|now apply untaken_stream]. }
    assert (Hin : incl (pending ++ untaken (concat B) rows) (map durable_row stream)) by (apply incl_app; [easy|now apply untaken_stream]).
    apply (perform_wp _ _ _ _ _ _ (stage_cdc_live rows io s B n pending Hl Hst (Hrows _ Hal))) in Hperf. destruct ok.
    + destruct Hperf as (_ & Hl' & E). eexists B, n, _. split; [constructor|]. split; [easy|]. now apply Hdone.
    + destruct Hperf as (part & Hpart & Hb). exists B, n, part. split; [now constructor|]. split; [now apply (incl_tran Hpart)|easy].
  - apply (perform_wp _ _ _ _ _ _ (publish_staged_live io s B n pending Hl Hk)) in Hperf. destruct ok.
    + destruct Hperf as (_ & E & Hl' & Hal'). eexists _, _, []. split; [constructor|]. split; [easy|]. apply Hdone; [easy|]. apply kept_with_live; [easy|].
      intros Hne _. now apply Hal'.
    + destruct Hperf as [Hb|Hb]; [eexists _, n, []; split; [apply promise_publish_late|]|exists B, n, []; split; [constructor|]]; easy.
  - apply (perform_wp _ _ _ _ _ _ (discard_staged_live remove s B n pending Hl)) in Hperf. exists B, n, []. split; [constructor|]. split; [easy|].
    destruct ok; [|easy]. destruct Hperf as (_ & Hl' & E). now apply Hdone.
  - apply (perform_wp _ _ _ _ _ _ (checkpoint_live failpoint io s B n pending Hl)) in Hperf. destruct ok.
    + destruct Hperf as (_ & E & Hl'). eexists B, _, pending. split; [constructor|]. split; [easy|]. apply Hdone; [easy|]. unfold policy. now rewrite <- Ec.
    + exists B, n, pending. split; [constructor|]. easy.
Qed.

Lemma steady_killable op : steady op -> killable op.
Proof. destruct op; cbn; try easy; [intros (_ & _ & _ & [Hs _])|intros [Hs _]]; now left. Qed.

Lemma moves_promised stream c st e st' p :
  consistent (map durable_row stream) -> Forall (fun r => stored_row_wf r = true) stream -> config_ok c ->
  incl (snd p) (map durable_row stream) -> keeps_promise c st p -> moves c stream st e st' ->
  exists p', promised (opt_wal_sync (cfg_options c)) e p p' /\ incl (snd p') (map durable_row stream) /\ keeps_promise c st' p'.
Proof.
  intros Hc Hwf Hcfg Hi Hk Hm. destruct p as [[B n] pending]. cbn [snd] in Hi.
  destruct Hm as [op s ok s' Hal Hr Hs Hp|op s ok s' Hal Hr Hs Hp|s|d x Hx|d io s d' Ho|d io e d' Ho]; destruct Hk as [Hk Hl].
  - destruct (operation_leaves stream c op s ok s' B n pending Hc Hwf Hcfg Hi Hk Hl Hal Hr (steady_killable _ Hs) Hp) as (B' & n' & pending' & H3 & H4 & H5 & _ & H6).
    exists (B', n', pending'). split; [now constructor|]. split; [easy|]. split; [easy|]. now apply H6.
  - destruct (operation_leaves stream c op s ok s' B n pending Hc Hwf Hcfg Hi Hk Hl Hal Hr Hs Hp) as (B' & n' & pending' & H3 & _ & _ & H6 & _).
    exists (B', n', []). split; [now apply (promised_killed _ op ok _ B' n' pending')|]. easy.
  - exists (B, n, []). split; [constructor|]. split; [easy|]. split; [easy|]. rewrite <- Hk. exact (live_disk _ _ _ _ Hl).
  - subst pending. destruct (power_lost c d B n x Hl Hx) as (k & Hk & Hd). exists (take k B, k, []). split; [now constructor|]. easy.
  - subst pending. exists (B, n, []). split; [constructor|]. split; [easy|]. pose proof (recover_live io c d B n Hcfg Hl) as Hw. unfold wp in Hw.
    unfold open_with_wal in Ho. destruct (recover_table io (unopened c d)) as [[[]|?] s1]; [|easy]. now injection Ho as <- <-.
  - subst pending. exists (B, n, []). split; [constructor|]. split; [easy|]. split; [easy|]. pose proof (recover_live io c d B n Hcfg Hl) as Hw. unfold wp in Hw.
    unfold open_with_wal in Ho. destruct (recover_table io (unopened c d)) as [[[]|?] s1]; [easy|]. injection Ho as _ <-. apply Hw.
Qed.

Lemma history_promised stream c start p events st :
  consistent (map durable_row stream) -> Forall (fun r => stored_row_wf r = true) stream -> config_ok c ->
  incl (snd p) (map durable_row stream) -> keeps_promise c start p -> history c stream start events st ->
  exists p', promised_all (opt_wal_sync (cfg_options c)) p events p' /\ incl (snd p') (map durable_row stream) /\ keeps_promise c st p'.
Proof.
  intros Hc Hwf Hcfg Hi Hk Hh. induction Hh as [|events st e st' _ (p1 & H3 & H4 & H5) Hm]; [exists p; split; [constructor|easy]|].
  destruct (moves_promised stream c st e st' p1 Hc Hwf Hcfg H4 H5 Hm) as (p2 & H6 & H7 & H8). exists p2. split; [|easy]. now apply (promised_next _ _ events p1).
Qed.

Lemma no_disk_ok c policy : config_ok c -> disk_ok c (no_disk policy) [] 0.
Proof.
  intros [[C1 C1'] (C2 & C3 & C4 & C5) C6]. exists (manifest_empty (cfg_schema c)), [], O. split; try easy.
  - split; cbn; try constructor; try lia; try easy.
  - split; try easy. now apply empty_counters.
  - now left.
  - intros before b after E. now destruct before.
Qed.

(** The batches on disk for good stay the first ones. *)
Definition in_range (p : promise) : Prop := let '(B, n, _) := p in (n <= length B)%nat.
Definition settled (p : promise) : list (list StoredRow) := let '(B, n, _) := p in take n B.

Lemma kept_with_unforced B n b : kept_with B n b false = n.
Proof. now destruct b. Qed.

Lemma with_batch_settled B n b forced :
  (n <= length B)%nat -> (kept_with B n b forced <= length (with_batch B b))%nat /\ take n B `prefix_of` take (kept_with B n b forced) (with_batch B b).
Proof.
  intros Hn. destruct b as [|r b]; [easy|]. cbn [kept_with with_batch]. rewrite length_app. cbn [length]. destruct forced.
  - split; [lia|]. rewrite (take_ge (B ++ _)) by (rewrite length_app; cbn; lia). transitivity B; [apply prefix_take|now exists [r :: b]].
  - split; [lia|]. now rewrite take_app_le.
Qed.

Lemma promises_settled policy op ok p p' : in_range p -> promises policy op ok p p' -> in_range p' /\ settled p `prefix_of` settled p'.
Proof.
  intros Hr Hp. destruct Hp as [io B n p|io B n p|io ok B n p|io ok B n p|rows io B n new|rows io B n part Hi|rows io B n|rows io B n p|rows io B n p part Hi|io B n p|io B n p|io B n p|remove ok B n p|fp io B n p|fp io B n p];
    cbn [in_range settled] in *; try easy; try (now apply with_batch_settled).
  - split; [easy|]. rewrite (take_ge B (length B)) by easy. apply prefix_take.
  - pose proof (with_batch_settled B n (untaken (concat B) rows) false Hr) as Hb. now rewrite kept_with_unforced in Hb.
  - pose proof (with_batch_settled B n p false Hr) as Hb. now rewrite kept_with_unforced in Hb.
  - destruct (bool_decide _); [easy|]. split; [easy|]. rewrite (take_ge B (length B)) by easy. apply prefix_take.
Qed.

Lemma promised_settled policy e p p' : in_range p -> promised policy e p p' -> in_range p' /\ settled p `prefix_of` settled p'.
Proof.
  intros Hr Hp. destruct Hp as [op ok st st' Hp|op ok st B n p Hp|B n p|B n k Hk|B n|B n]; cbn [in_range settled] in *; try easy.
  - exact (promises_settled _ _ _ _ _ Hr Hp).
  - exact (promises_settled _ _ _ _ _ Hr Hp).
  - rewrite length_take, take_take. split; [lia|]. replace (k `min` k)%nat with k by lia.
    replace (take n B) with (take n (take k B)); [apply prefix_take|]. rewrite take_take. f_equal. lia.
Qed.

Lemma promised_all_settled policy start events p :
  in_range start -> promised_all policy start events p -> in_range p /\ settled start `prefix_of` settled p.
Proof.
  intros Hr Hp. induction Hp as [|events p e p' _ [IH1 IH2] He]; [easy|]. destruct (promised_settled _ _ _ _ IH1 He) as [H3 H4].
  split; [easy|]. now transitivity (settled p).
Qed.

Lemma start_promised c stream policy events st :
  consistent (map durable_row stream) -> Forall (fun r => stored_row_wf r = true) stream -> config_ok c ->
  history c stream (Stopped (no_disk policy)) events st ->
  exists p, promised_all (opt_wal_sync (cfg_options c)) ([], O, []) events p /\ incl (snd p) (map durable_row stream) /\ keeps_promise c st p.
Proof.
  intros Hc Hwf Hcfg Hh. apply (history_promised stream c (Stopped (no_disk policy)) ([], O, []) events st Hc Hwf Hcfg); [easy| |easy].
  split; [easy|]. now apply no_disk_ok.
Qed.

(** ** Properties *)

(** C1. A table survives its process and its machine.  Start from an empty directory and let a table be
    opened, take batches in order or staged, flush, merge, reclaim and checkpoint, with filesystem calls
    failing anywhere; be killed in the middle of any of these; lose the power, and with it any part of
    the log that was not synchronized; be opened again, or fail to.  Then the history is one of the
    specification, whose state is the list of batches taken, how many of them are on disk for good, and
    the changes staged: a kill leaves the batch that was under way taken whole or not at all, a loss of
    power takes only batches at the end that were not on disk for good, and opening changes nothing.
    And a scan of the running table returns for every key the latest change of those batches, unless it
    is a delete. *)
Theorem table_survives_restarts c stream policy events s :
  consistent (map durable_row stream) -> Forall (fun r => stored_row_wf r = true) stream -> config_ok c ->
  history c stream (Stopped (no_disk policy)) events (Running s) ->
  exists B n pending rows, promised_all (opt_wal_sync (cfg_options c)) ([], O, []) events (B, n, pending) /\
    scan (snapshot s) = Ok rows /\ key_ascending rows /\ applied_version s = spec_applied (concat B) /\
    forall r, In r (map durable_row rows) <-> visible (row_key r) (concat B) = Some r.
Proof.
  intros Hc Hwf Hcfg Hh. destruct (start_promised _ _ _ _ _ Hc Hwf Hcfg Hh) as ([[B n] pending] & Hp & _ & _ & Hl).
  destruct (refines_scan _ _ _ (live_refines _ _ _ _ Hl)) as (rows & P1 & P2 & P3). exists B, n, pending, rows. split; [easy|]. split; [easy|].
  split; [easy|]. split; [exact (live_applied _ _ _ _ Hl)|easy].
Qed.

(** C2. What a checkpoint has seen is never lost.  Whatever the table goes through after a checkpoint
    that succeeded, kills and losses of power included, a later scan is of the changes the table had
    taken then and of newer ones: no row of the checkpoint is gone unless a change above every version
    taken at the checkpoint replaced it. *)
Theorem checkpoint_outlives_power_loss c stream policy events s failpoint ok s1 later s2 :
  consistent (map durable_row stream) -> Forall (fun r => stored_row_wf r = true) stream -> config_ok c -> opt_wal_sync (cfg_options c) <> Off ->
  history c stream (Stopped (no_disk policy)) events (Running s) -> checkpoint failpoint ok s = (Ok tt, s1) ->
  history c stream (Running s1) later (Running s2) ->
  exists taken more rows rows', scan (snapshot s) = Ok rows /\ scan (snapshot s2) = Ok rows' /\
    (forall r, In r (map durable_row rows) <-> visible (row_key r) taken = Some r) /\
    (forall r, In r (map durable_row rows') <-> visible (row_key r) (taken ++ more) = Some r) /\
    (forall r, In r more -> spec_applied taken < row_version r).
Proof.
  intros Hc Hwf Hcfg Hpol Hh Hck Hlater. destruct (start_promised _ _ _ _ _ Hc Hwf Hcfg Hh) as ([[B n] pending] & _ & Hi & Ec & Hl).
  pose proof (wp_run _ _ _ _ _ _ (checkpoint_live failpoint ok s B n pending Hl) Hck) as (Ec1 & Hl1).
  unfold ts_options in Hl1. rewrite Ec, bool_decide_false in Hl1 by easy.
  destruct (history_promised stream c (Running s1) (B, length B, pending) later (Running s2) Hc Hwf Hcfg Hi) as ([[B2 n2] pending2] & Hp & _ & _ & Hl2);
    [split; [congruence|easy]|easy|].
  apply promised_all_settled in Hp as [Hr Hpre]; [|cbn; lia]. cbn [settled in_range] in *. rewrite (take_ge B) in Hpre by easy.
  assert (Hpre' : B `prefix_of` B2) by (transitivity (take n2 B2); [easy|apply prefix_take]). destruct Hpre' as [rest E].
  destruct (refines_scan _ _ _ (live_refines _ _ _ _ Hl)) as (rows & P1 & _ & P3). destruct (refines_scan _ _ _ (live_refines _ _ _ _ Hl2)) as (rows' & P1' & _ & P3').
  exists (concat B), (concat rest), rows, rows'. split; [easy|]. split; [easy|]. split; [easy|]. rewrite <- concat_app, <- E. split; [easy|]. intros r Hin.
  assert (Ho : batches_ordered B2) by (destruct Hl2 as (rowss & stagedss & j & Hl2); apply (li_ordered _ _ _ _ _ _ _ Hl2)).
  pose proof (ordered_drop B2 (length B) r Ho) as Hlt. rewrite E, drop_app_length, take_app_length in Hlt. now apply Hlt.
Qed.


(** C36. Whatever a table goes through, what it holds stays of the types the code gives it: its versions,
    sequences and counters fit their 64 bits, its rows are ones the formats can store, and its manifest
    is well formed, of the table's schema, with identifiers that were never used left to give. *)
Theorem history_stays_typed c stream policy events s :
  consistent (map durable_row stream) -> Forall (fun r => stored_row_wf r = true) stream -> config_ok c ->
  history c stream (Stopped (no_disk policy)) events (Running s) ->
  typed (ts_config s) (ts_memtable s) (ts_commit_version s) (ts_last_sequence s) (ts_manifest s) /\
  manifest_wf (ts_manifest s) = true /\ ids_follow (ts_manifest s) = true.
Proof.
  intros Hc Hwf Hcfg Hh. destruct (start_promised _ _ _ _ _ Hc Hwf Hcfg Hh) as ([[B n] pending] & _ & _ & _ & rowss & stagedss & j & Hl).
  pose proof (ro_store _ _ _ _ _ (li_replica _ _ _ _ _ _ _ Hl)) as Hok. pose proof (so_typed _ _ _ Hok) as Ht. split; [easy|].
  exact (manifest_sound _ _ _ _ _ _ _ _ _ _ _ _ Ht (so_files _ _ _ Hok)).
Qed.

End reopen.

(** ** Witnesses *)

Module ReopenExamples.
Import StoreExamples.
#[local] Existing Instance WalExamples.example_checksum.
#[local] Existing Instance SegmentExamples.no_sketches.
#[local] Existing Instance Memtable.layout64.

Definition config : TableConfig := ts_config new_store.

Lemma config_good : config_ok config.
Proof. split; [split; [exact MergeExamples.schema_good|now vm_compute]|now repeat split|easy]. Qed.

Definition opening_io : open_io := {|
  oi_lock := true; oi_init := true; oi_read := true; oi_cut_tail := true; oi_collapse := published; oi_pinned := [];
  oi_remove := fun _ => true; oi_sync := true; oi_truncate := reset; oi_reset := reset; oi_upgrade := published |}.

(** What is done to the table; a loss of power leaves of the log only what was synchronized. *)
Inductive action : Type := Do (op : operation) | Kill (op : operation) | Halt | Cut | Open.

Definition steadyb (op : operation) : bool :=
  let flush io := pio_sync_directory (fi_publish io) && fi_after_manifest io in
  let compact io := pio_sync_directory (ci_publish io) in
  let stage io := flush (sg_flush io) && pio_sync_directory (sg_reserve io) in
  let staged io := pio_sync_directory (sp_publish io) && compact (sp_compact io) in
  match op with
  | Flush io => flush io
  | Compact io => compact io
  | Ingest _ io => io_set_len (in_append io) && (flush (st_flush (in_settle io)) && compact (st_compact (in_settle io))) && stage (in_stage io) && staged (in_staged io)
  | Stage _ io => stage io
  | Publish io => staged io
  | _ => true
  end.

Definition killableb (op : operation) : bool :=
  match op with
  | Ingest _ io => pio_sync_directory (sp_publish (in_staged io))
  | Publish io => pio_sync_directory (sp_publish io)
  | _ => true
  end.

Definition readyb (op : operation) (s : TableStore) : bool :=
  ReplicaExamples.allowedb op s && (len (wal_bytes (dk_wal (ts_disk s))) <? 2 ^ 62).

Definition act (a : action) (st : system) : option (event * system) :=
  match a, st with
  | Do op, Running s => if readyb op s && steadyb op then Some (Performed op (fst (perform op s)), Running (snd (perform op s))) else None
  | Kill op, Running s => if readyb op s && killableb op then Some (Killed op (fst (perform op s)), Stopped (ts_disk (snd (perform op s)))) else None
  | Halt, Running s => Some (Halted, Stopped (ts_disk s))
  | Cut, Stopped d =>
      let n := wal_synced (dk_wal d) in
      if n <=? len (wal_bytes (dk_wal d)) then Some (PowerLost, Stopped (with_log (cut n (dk_wal d)) d)) else None
  | Open, Stopped d =>
      match open_with_wal config opening_io d with
      | (Ok s, _) => Some (Opened, Running s)
      | (Err _, d) => Some (OpenFailed, Stopped d)
      end
  | _, _ => None
  end.

Fixpoint play (actions : list action) (st : system) : option (list event * system) :=
  match actions with
  | [] => Some ([], st)
  | a :: actions => '(e, st) ← act a st; '(events, st) ← play actions st; Some (e :: events, st)
  end.

Lemma steadyb_steady op : steadyb op = true -> steady op.
Proof.
  unfold steady, steadyb, steady_ingest, steady_settle, steady_stage, steady_staged, steady_flush, synced.
  destruct op; rewrite ?andb_true_iff; intuition.
Qed.

Lemma killableb_killable op : killableb op = true -> killable op.
Proof. destruct op; cbn; try easy; now left. Qed.

Lemma readyb_ready op s : readyb op s = true -> allowed ReplicaExamples.stream op s /\ roomy op s.
Proof. intros [Ha%ReplicaExamples.allowedb_allowed Hr%Z.ltb_lt]%andb_true_iff. split; [easy|]. now destruct op. Qed.

Lemma act_moves a st e st' : act a st = Some (e, st') -> moves config ReplicaExamples.stream st e st'.
Proof.
  destruct a as [op|op| | |], st as [s|d]; cbn [act]; try easy.
  - destruct (readyb op s) eqn:Er; [|easy]. destruct (steadyb op) eqn:Es; [|easy]. intros [= <- <-]. apply readyb_ready in Er as [Ha Hr].
    apply move_perform; [easy..|now apply steadyb_steady|apply surjective_pairing].
  - destruct (readyb op s) eqn:Er; [|easy]. destruct (killableb op) eqn:Es; [|easy]. intros [= <- <-]. apply readyb_ready in Er as [Ha Hr].
    apply move_kill; [easy..|now apply killableb_killable|apply surjective_pairing].
  - intros [= <- <-]. constructor.
  - destruct (Z.leb_spec (wal_synced (dk_wal d)) (len (wal_bytes (dk_wal d)))); [|easy]. intros [= <- <-]. constructor. lia.
  - destruct (open_with_wal config opening_io d) as [[s|err] d'] eqn:Eo; intros [= <- <-].
    + exact (move_open _ _ _ _ _ _ Eo).
    + exact (move_open_fails _ _ _ _ _ _ Eo).
Qed.

Lemma play_history actions start before st events st' :
  history config ReplicaExamples.stream start before st -> play actions st = Some (events, st') ->
  history config ReplicaExamples.stream start (before ++ events) st'.
Proof.
  revert before st events; induction actions as [|a actions IH]; intros before st events Hh; cbn [play]; [intros [= <- <-]; now rewrite app_nil_r|].
  unfold mbind, option_bind. destruct (act a st) as [[e st1]|] eqn:Ea; [|easy]. destruct (play actions st1) as [[es st2]|] eqn:Ep; [|easy].
  intros [= <- <-]. apply act_moves in Ea. replace (before ++ e :: es) with ((before ++ [e]) ++ es) by now rewrite <- app_assoc.
  apply (IH _ st1); [|easy]. now apply (history_next _ _ _ before st).
Qed.

Definition empty : system := Stopped (no_disk Always).

(** The record is in the file and could not be synchronized; the process dies. *)
Definition unsynced_ingest : ingest_io := {|
  in_append := {| io_failpoint := true; io_seek := true; io_write := None; io_sync_data := false; io_set_len := false; io_seek_back := true; io_sync_all := true |};
  in_settle := in_settle ingesting; in_stage := in_stage ingesting; in_staged := in_staged ingesting |}.

Definition second_dies : operation := Ingest [note 2 2 98; erased 2 3; note 3 4 99] unsynced_ingest.

(** A batch, a flush, a batch the process dies in, a loss of power, and the batch again. *)
Definition ordeal : list action :=
  [Open; Do ReplicaExamples.first; Do (Flush flushing); Kill second_dies; Cut; Open; Do ReplicaExamples.second].

Definition played (start : system) (actions : list action) : list event * system := default ([], start) (play actions start).
Definition events (start : system) (actions : list action) : list event := fst (played start actions).
Definition running (start : system) (actions : list action) : TableStore :=
  match snd (played start actions) with Running s => s | Stopped d => unopened config d end.
Definition stopped (start : system) (actions : list action) : Disk :=
  match snd (played start actions) with Running s => ts_disk s | Stopped d => d end.

Definition runs (start : system) (actions : list action) : bool := match play actions start with Some (_, Running _) => true | _ => false end.
Definition stops (start : system) (actions : list action) : bool := match play actions start with Some (_, Stopped _) => true | _ => false end.

Lemma played_running start actions :
  runs start actions = true -> history config ReplicaExamples.stream start (events start actions) (Running (running start actions)).
Proof.
  unfold runs, events, running, played. destruct (play actions start) as [[es [s|d]]|] eqn:E; try easy. intros _. cbn.
  exact (play_history actions start [] start es (Running s) (history_start _ _ _) E).
Qed.

Lemma played_stopped start actions :
  stops start actions = true -> history config ReplicaExamples.stream start (events start actions) (Stopped (stopped start actions)).
Proof.
  unfold stops, events, stopped, played. destruct (play actions start) as [[es [s|d]]|] eqn:E; try easy. intros _. cbn.
  exact (play_history actions start [] start es (Stopped d) (history_start _ _ _) E).
Qed.

Lemma ordeal_runs : runs empty ordeal = true.
Proof. vm_compute. reflexivity. Qed.

Lemma table_survives_restarts_witness :
  exists B n pending rows, promised_all Always ([], O, []) (events empty ordeal) (B, n, pending) /\
    scan (snapshot (running empty ordeal)) = Ok rows /\ rows = [note 1 1 97; note 3 4 99] /\ spec_applied (concat B) = 4.
Proof.
  destruct (table_survives_restarts config ReplicaExamples.stream Always (events empty ordeal) (running empty ordeal) ReplicaExamples.stream_consistent
    ReplicaExamples.stream_wf config_good (played_running empty ordeal ordeal_runs)) as (B & n & pending & rows & Hp & Hr & _ & Ha & _).
  exists B, n, pending, rows. split; [exact Hp|]. split; [exact Hr|]. split.
  - assert (E : scan (snapshot (running empty ordeal)) = Ok [note 1 1 97; note 3 4 99]) by (vm_compute; reflexivity). rewrite E in Hr. now injection Hr.
  - rewrite <- Ha. vm_compute. reflexivity.
Defined.

(** A batch and a checkpoint; then the process dies in another batch, and the power is lost. *)
Definition checkpointed : list action := [Open; Do ReplicaExamples.first].
Definition synced_table : TableStore := snd (checkpoint true true (running empty checkpointed)).
Definition mishap : list action := [Kill second_dies; Cut; Open].
Definition checkpoints (s : TableStore) : bool := match fst (checkpoint true true s) with Ok _ => true | Err _ => false end.

Lemma checkpoint_done s : checkpoints s = true -> checkpoint true true s = (Ok tt, snd (checkpoint true true s)).
Proof. unfold checkpoints. now destruct (checkpoint true true s) as [[[]|e] s']. Qed.

Lemma checkpointed_runs : runs empty checkpointed = true /\ runs (Running synced_table) mishap = true /\ checkpoints (running empty checkpointed) = true.
Proof. vm_compute. repeat split; reflexivity. Qed.

Lemma config_synced : opt_wal_sync (cfg_options config) <> Off.
Proof. easy. Qed.

Lemma checkpoint_outlives_power_loss_witness :
  exists taken more rows rows', scan (snapshot (running empty checkpointed)) = Ok rows /\ scan (snapshot (running (Running synced_table) mishap)) = Ok rows' /\
    (forall r, In r (map durable_row rows) <-> visible (row_key r) taken = Some r) /\
    (forall r, In r (map durable_row rows') <-> visible (row_key r) (taken ++ more) = Some r).
Proof.
  destruct checkpointed_runs as (H1 & H2 & H3).
  destruct (checkpoint_outlives_power_loss config ReplicaExamples.stream Always (events empty checkpointed) (running empty checkpointed) true true synced_table
    (events (Running synced_table) mishap) (running (Running synced_table) mishap) ReplicaExamples.stream_consistent ReplicaExamples.stream_wf config_good config_synced (played_running empty checkpointed H1)
    (checkpoint_done _ H3) (played_running (Running synced_table) mishap H2)) as (taken & more & rows & rows' & P1 & P2 & P3 & P4 & _).
  exists taken, more, rows, rows'. exact (conj P1 (conj P2 (conj P3 P4))).
Defined.

(** A flush, and a batch the process dies in. *)
Definition interrupted : list action := [Open; Do ReplicaExamples.first; Do (Flush flushing); Kill second_dies].

Definition distinctb (d : Disk) : bool :=
  match manifest_load (manifest_file d) (cfg_schema config) with
  | Ok m => match duplicates (dk_segments d) (span_order (man_segments m)) with Ok [] => true | _ => false end
  | Err _ => false
  end.

Lemma distinctb_opens d : distinctb d = true -> opens_plainly config d opening_io.
Proof.
  intros Hd. split; [now split|]. split; [easy|]. intros m Hm. unfold on_disk in Hm. unfold distinctb in Hd. rewrite Hm in Hd.
  now destruct (duplicates _ _) as [[]|].
Qed.

Lemma interrupted_stops : stops empty interrupted = true /\ distinctb (stopped empty interrupted) = true.
Proof. vm_compute. split; reflexivity. Qed.


Lemma history_stays_typed_witness : manifest_wf (ts_manifest (running empty ordeal)) = true /\ ts_last_sequence (running empty ordeal) = 2.
Proof.
  destruct (history_stays_typed config ReplicaExamples.stream Always (events empty ordeal) (running empty ordeal) ReplicaExamples.stream_consistent
    ReplicaExamples.stream_wf config_good (played_running empty ordeal ordeal_runs)) as (_ & Hm & _).
  split; [exact Hm|]. vm_compute. reflexivity.
Defined.

(** A batch of the log that the process died in is replayed, and not synchronized; the same batch sent
    again is accepted without a write. *)
Definition resent : list action := [Open; Do ReplicaExamples.first; Kill second_dies; Open; Do ReplicaExamples.second].


(** Ten bytes of the record are written, and neither the rest nor the file's old length. *)
Definition torn_ingest : ingest_io := {|
  in_append := {| io_failpoint := true; io_seek := true; io_write := Some 10; io_sync_data := true; io_set_len := false; io_seek_back := true; io_sync_all := true |};
  in_settle := in_settle ingesting; in_stage := in_stage ingesting; in_staged := in_staged ingesting |}.

Definition torn : TableStore := snd (perform (Ingest [note 2 2 98; erased 2 3; note 3 4 99] torn_ingest) (running empty checkpointed)).


End ReopenExamples.
