(* ===== verification/Packets.v ===== *)
(** * Packet framing ([src/crates/pintail-protocol/src/packet.rs])

    [PacketReader] and [PacketWriter] over a transport, and the length-encoded values.
    A transport is the bytes the peer sends with a plan of how they arrive: each read
    takes the next entry, which says how many bytes are ready or which error the read
    reports.  A sink is the bytes the peer received, with a plan of which writes fail.
    [framed] is the format on the wire; the writer produces it and the reader undoes it
    however the bytes arrive. *)

From Stdlib Require Import ZArith Lia String.
From stdpp Require Import prelude list.
From coqutil Require Import Byte.
From S2P Require Import Prelude.
From S2P Require Import Types.

#[local] Open Scope Z_scope.

(** [&l[..z]] and [&l[z..]] of a slice, the bounds cut to its length. *)
Definition front {A} (z : Z) (l : list A) : list A := take (Z.to_nat z) l.
Definition back {A} (z : Z) (l : list A) : list A := drop (Z.to_nat z) l.

(** ** Input and output *)

(** [std::io::ErrorKind], the kinds this crate creates, and every other by its number. *)
Inductive io_kind : Type :=
| UnexpectedEof
| InvalidData
| PermissionDenied
| OtherKind (code : Z).

Record io_error : Type := io_err { io_error_kind : io_kind; io_error_text : String.string }.

(** Code that reads or writes: a state and an [io::Result]. *)
Definition Io (S A : Type) : Type := S -> result io_error A * S.

#[export] Instance Io_ret {S} : MRet (Io S) := fun A a s => (Ok a, s).
#[export] Instance Io_bind {S} : MBind (Io S) := fun A B f m s =>
  match m s with
  | (Ok a, s') => f a s'
  | (Err e, s') => (Err e, s')
  end.

Definition io_fail {S A} (e : io_error) : Io S A := fun s => (Err e, s).

(** A part of the state, read and changed. *)
Definition io_get {S A} (f : S -> A) : Io S A := fun s => (Ok (f s), s).
Definition io_modify {S} (f : S -> S) : Io S unit := fun s => (Ok tt, f s).

(** [m] on a component of a larger state. *)
Definition zoom {S T A} (get : T -> S) (put : S -> T -> T) (m : Io S A) : Io T A :=
  fun t => let '(r, s) := m (get t) in (r, put s t).

(** How one read of the transport goes: at most [S n] bytes are ready, or it fails. *)
Inductive arrival : Type :=
| Arrives (n : nat)
| Breaks (e : io_error).

Record Transport : Type := { incoming : list byte; arrivals : list arrival }.

(** [AsyncReadExt::read] into a buffer of [room] bytes; no bytes is end of stream.  Once
    the plan is used up every byte is ready. *)
Definition read (room : Z) : Io Transport (list byte) := fun t =>
  let deliver (k : nat) (plan : list arrival) :=
    let n := Nat.min k (Z.to_nat room) in
    (Ok (take n (incoming t)), {| incoming := drop n (incoming t); arrivals := plan |}) in
  match arrivals t with
  | [] => deliver (length (incoming t)) []
  | Arrives k :: plan => deliver (S k) plan
  | Breaks e :: plan => (Err e, {| incoming := incoming t; arrivals := plan |})
  end.

Definition early_eof : io_error := io_err UnexpectedEof "early eof".

(** [AsyncReadExt::read_exact]: reads until [need] bytes have come; each read brings one
    at least, so [need] rounds are enough. *)
Fixpoint read_exact_loop (fuel : nat) (need : Z) : Io Transport (list byte) :=
  match fuel with
  | O => mret []
  | S fuel =>
      if need <=? 0 then mret []
      else
        bs ← read need;
        match bs with
        | [] => io_fail early_eof
        | _ => rest ← read_exact_loop fuel (need - len bs); mret (bs ++ rest)
        end
  end.

Definition read_exact (need : Z) : Io Transport (list byte) := read_exact_loop (Z.to_nat need) need.

(** How one write to the sink goes: all of it, or its first [n] bytes and an error. *)
Inductive acceptance : Type :=
| Accepts
| Refuses (n : nat) (e : io_error).

Record Sink : Type := { written : list byte; acceptances : list acceptance }.

(** [AsyncWriteExt::write_all]. *)
Definition write_all (bs : list byte) : Io Sink unit := fun s =>
  match acceptances s with
  | Refuses n e :: plan => (Err e, {| written := written s ++ take n bs; acceptances := plan |})
  | Accepts :: plan => (Ok tt, {| written := written s ++ bs; acceptances := plan |})
  | [] => (Ok tt, {| written := written s ++ bs; acceptances := [] |})
  end.

(** [AsyncWriteExt::flush] of the stream itself. *)
Definition flush_inner : Io Sink unit := write_all [].

(** ** Reading packets *)

Definition MAX_PAYLOAD : Z := 16777215.
Definition READ_AHEAD : Z := 1024.

Record PacketReader : Type := {
  reader_inner : Transport;
  reader_sequence : Z;
  reader_buffer : list byte;
  reader_start : Z;
  reader_end : Z;
  reader_read_ahead : bool
}.

Definition reader_new (inner : Transport) : PacketReader := {|
  reader_inner := inner; reader_sequence := 0; reader_buffer := [];
  reader_start := 0; reader_end := 0; reader_read_ahead := false |}.

Definition reader_set_sequence (sequence : Z) (r : PacketReader) : PacketReader := {|
  reader_inner := reader_inner r; reader_sequence := sequence; reader_buffer := reader_buffer r;
  reader_start := reader_start r; reader_end := reader_end r; reader_read_ahead := reader_read_ahead r |}.

Definition set_read_ahead (read_ahead : bool) (r : PacketReader) : PacketReader := {|
  reader_inner := reader_inner r; reader_sequence := reader_sequence r; reader_buffer := reader_buffer r;
  reader_start := reader_start r; reader_end := reader_end r; reader_read_ahead := read_ahead |}.

(** The buffer and its bounds replaced. *)
Definition with_window (r : PacketReader) (inner : Transport) (buffer : list byte) (start end_ : Z) : PacketReader := {|
  reader_inner := inner; reader_sequence := reader_sequence r; reader_buffer := buffer;
  reader_start := start; reader_end := end_; reader_read_ahead := reader_read_ahead r |}.

Definition has_buffered (r : PacketReader) : bool := reader_start r <? reader_end r.

(** [Vec::resize(n, 0)] to a length no shorter than the present one. *)
Definition grow (n : Z) (bs : list byte) : list byte := bs ++ repeat (byte.of_Z 0) (Z.to_nat (n - len bs)).

(** [buffer[at..at + bs.len()].copy_from_slice(bs)]. *)
Definition overwrite (buffer : list byte) (at_ : Z) (bs : list byte) : list byte :=
  front at_ buffer ++ bs ++ back (at_ + len bs) buffer.

Definition prime (bytes : list byte) (r : PacketReader) : PacketReader :=
  let '(start, end0) := if has_buffered r then (reader_start r, reader_end r) else (0, 0) in
  let end_ := end0 + len bytes in
  let buffer := if len (reader_buffer r) <? end_ then grow end_ (reader_buffer r) else reader_buffer r in
  with_window r (reader_inner r) (overwrite buffer end0 bytes) start end_.

Definition fill : Io PacketReader Z := fun r =>
  let buffer := if len (reader_buffer r) <? READ_AHEAD then grow READ_AHEAD (reader_buffer r) else reader_buffer r in
  match read (len buffer) (reader_inner r) with
  | (Err e, inner) => (Err e, with_window r inner buffer 0 0)
  | (Ok bs, inner) => (Ok (len bs), with_window r inner (overwrite buffer 0 bs) 0 (len bs))
  end.

Definition wait_for_packet : Io PacketReader bool := fun r =>
  if has_buffered r then (Ok true, r)
  else if reader_read_ahead r then (n ← fill; mret (0 <? n)) r
  else
    match read 1 (reader_inner r) with
    | (Err e, inner) => (Err e, with_window r inner (reader_buffer r) (reader_start r) (reader_end r))
    | (Ok bs, inner) =>
        let r := with_window r inner (reader_buffer r) (reader_start r) (reader_end r) in
        if len bs =? 0 then (Ok false, r) else (Ok true, prime bs r)
    end.

(** [take_buffered] into a buffer of [room] bytes: the bytes moved. *)
Definition take_buffered (room : Z) (r : PacketReader) : list byte * PacketReader :=
  let take_ := Z.min (reader_end r - reader_start r) room in
  (front take_ (back (reader_start r) (reader_buffer r)),
   with_window r (reader_inner r) (reader_buffer r) (reader_start r + take_) (reader_end r)).

(** The [while] loop of [read_exact_primed] with what has been filled; a round that goes
    on adds a byte at least, so [need] rounds are enough. *)
Fixpoint read_exact_primed_loop (fuel : nat) (need : Z) (filled : list byte) : Io PacketReader (list byte) :=
  match fuel with
  | O => mret filled
  | S fuel => fun r =>
      if len filled <? need then
        if negb (reader_read_ahead r) || (READ_AHEAD <=? need - len filled) then
          match read_exact (need - len filled) (reader_inner r) with
          | (Err e, inner) => (Err e, with_window r inner (reader_buffer r) (reader_start r) (reader_end r))
          | (Ok bs, inner) => (Ok (filled ++ bs), with_window r inner (reader_buffer r) (reader_start r) (reader_end r))
          end
        else
          (arrived ← fill;
           if arrived =? 0 then io_fail early_eof
           else fun r =>
             let '(bs, r) := take_buffered (need - len filled) r in
             read_exact_primed_loop fuel need (filled ++ bs) r) r
      else (Ok filled, r)
  end.

Definition read_exact_primed (need : Z) : Io PacketReader (list byte) := fun r =>
  let '(filled, r) := take_buffered need r in
  read_exact_primed_loop (S (Z.to_nat need)) need filled r.

(** The length a header announces, and the byte at an index of it. *)
Definition header_byte (header : list byte) (i : nat) : Z := byte.unsigned (nth i header (byte.of_Z 0)).
Definition header_length (header : list byte) : Z :=
  Z.lor (Z.lor (header_byte header 0) (Z.shiftl (header_byte header 1) 8)) (Z.shiftl (header_byte header 2) 16).

Definition split_eof : io_error := io_err UnexpectedEof "connection closed inside a split packet".

Definition is_eof (e : io_error) : bool := match io_error_kind e with UnexpectedEof => true | _ => false end.

(** The loop of [next_payload] with what has been joined so far. *)
Fixpoint next_payload_loop (fuel : nat) (payload : list byte) : Io PacketReader (option (list byte)) :=
  match fuel with
  | O => io_fail early_eof
  | S fuel => fun r =>
      match read_exact_primed 4 r with
      | (Err e, r) =>
          if is_eof e then
            match payload with [] => (Ok None, r) | _ => (Err split_eof, r) end
          else (Err e, r)
      | (Ok header, r) =>
          let length := header_length header in
          let r := reader_set_sequence (wrap_add 8 (header_byte header 3) 1) r in
          (body ← read_exact_primed length;
           if length <? MAX_PAYLOAD then mret (Some (payload ++ body))
           else next_payload_loop fuel (payload ++ body)) r
      end
  end.

(** The bytes a reader has still to give: those it holds, then those to come. *)
Definition buffered (r : PacketReader) : list byte :=
  front (reader_end r - reader_start r) (back (reader_start r) (reader_buffer r)).
Definition pending (r : PacketReader) : list byte := buffered r ++ incoming (reader_inner r).

(** Each packet joined takes its header from the pending bytes. *)
Definition next_payload : Io PacketReader (option (list byte)) := fun r =>
  next_payload_loop (S (length (pending r))) [] r.

(** [PacketReader::into_inner]. *)
Definition reader_into_inner (r : PacketReader) : Transport * Z := (reader_inner r, reader_sequence r).

(** ** Writing packets *)

Definition WRITE_BUFFER_HIGH_WATER : Z := 64 * 1024.

Record PacketWriter : Type := {
  writer_inner : Sink;
  writer_sequence : Z;
  writer_buffer : list byte
}.

Definition writer_new (inner : Sink) : PacketWriter :=
  {| writer_inner := inner; writer_sequence := 0; writer_buffer := [] |}.

Definition writer_set_sequence (sequence : Z) (w : PacketWriter) : PacketWriter :=
  {| writer_inner := writer_inner w; writer_sequence := sequence; writer_buffer := writer_buffer w |}.

Definition with_buffer (buffer : list byte) (w : PacketWriter) : PacketWriter :=
  {| writer_inner := writer_inner w; writer_sequence := writer_sequence w; writer_buffer := buffer |}.

Definition with_sink (inner : Sink) (w : PacketWriter) : PacketWriter :=
  {| writer_inner := inner; writer_sequence := writer_sequence w; writer_buffer := writer_buffer w |}.

Definition to_stream {A} (m : Io Sink A) : Io PacketWriter A := zoom writer_inner with_sink m.

Definition extend_buffer (bs : list byte) : Io PacketWriter unit :=
  io_modify (fun w => with_buffer (writer_buffer w ++ bs) w).

Definition advance_sequence : Io PacketWriter unit :=
  io_modify (fun w => writer_set_sequence (wrap_add 8 (writer_sequence w) 1) w).

Definition write_buffered : Io PacketWriter unit :=
  buffer ← io_get writer_buffer;
  match buffer with
  | [] => mret tt
  | _ => _ ← to_stream (write_all buffer); io_modify (with_buffer [])
  end.

(** Header and body of one packet, and the number moved on. *)
Definition write_packet (take_ : Z) (chunk : list byte) : Io PacketWriter unit :=
  sequence ← io_get writer_sequence;
  _ ← extend_buffer (to_le 3 take_ ++ [byte.of_Z sequence]);
  _ ← (if WRITE_BUFFER_HIGH_WATER <=? len chunk then
         _ ← write_buffered; to_stream (write_all chunk)
       else
         _ ← extend_buffer chunk;
         buffer ← io_get writer_buffer;
         if WRITE_BUFFER_HIGH_WATER <=? len buffer then write_buffered else mret tt);
  advance_sequence.

(** The loop of [write_payload] from [offset]; a round that goes on moves the offset. *)
Fixpoint write_payload_loop (fuel : nat) (payload : list byte) (offset : Z) : Io PacketWriter unit :=
  match fuel with
  | O => mret tt
  | S fuel =>
      let take_ := Z.min (sat_sub (len payload) offset) MAX_PAYLOAD in
      let chunk := front take_ (back offset payload) in
      _ ← write_packet take_ chunk;
      let offset := offset + take_ in
      if take_ <? MAX_PAYLOAD then mret tt
      else if offset =? len payload then
        sequence ← io_get writer_sequence;
        _ ← extend_buffer (to_le 3 0 ++ [byte.of_Z sequence]);
        advance_sequence
      else write_payload_loop fuel payload offset
  end.

Definition write_payload (payload : list byte) : Io PacketWriter unit :=
  write_payload_loop (S (length payload)) payload 0.

Definition flush : Io PacketWriter unit := _ ← write_buffered; to_stream flush_inner.

(** [PacketWriter::into_inner]. *)
Definition writer_into_inner : Io PacketWriter (Sink * Z) :=
  _ ← write_buffered; io_get (fun w => (writer_inner w, writer_sequence w)).

(** ** Length-encoded values *)

Definition length_encoded_integer (bytes : list byte) : option (option Z * Z) :=
  match bytes with
  | [] => None
  | first :: _ =>
      let value := byte.unsigned first in
      if value =? 251 then Some (None, 1)
      else if value <=? 250 then Some (Some value, 1)
      else if value =? 252 then
        match get_range bytes 1 3 with Some raw => Some (Some (from_le raw), 3) | None => None end
      else if value =? 253 then
        match get_range bytes 1 4 with Some raw => Some (Some (from_le raw), 4) | None => None end
      else
        match get_range bytes 1 9 with Some raw => Some (Some (from_le raw), 9) | None => None end
  end.

Definition put_length_encoded_integer (output : list byte) (value : Z) : list byte :=
  if value <=? 250 then output ++ [byte.of_Z value]
  else if value <=? 65535 then output ++ [byte.of_Z 252] ++ to_le 2 value
  else if value <=? 16777215 then output ++ [byte.of_Z 253] ++ to_le 3 value
  else output ++ [byte.of_Z 254] ++ to_le 8 value.

Definition put_length_encoded_bytes (output value : list byte) : list byte :=
  put_length_encoded_integer output (len value) ++ value.

(** [consumed + length] wraps at the width of [usize], as it does in a release build. *)
Definition length_encoded_bytes (bytes : list byte) : option (option (list byte) * Z) :=
  match length_encoded_integer bytes with
  | None => None
  | Some (None, consumed) => Some (None, consumed)
  | Some (Some length, consumed) =>
      match get_range bytes consumed (wrap_add 64 consumed length) with
      | None => None
      | Some value => Some (Some value, wrap_add 64 consumed length)
      end
  end.

(** ** The format on the wire *)

Definition packet (sequence : Z) (body : list byte) : list byte :=
  to_le 3 (len body) ++ [byte.of_Z sequence] ++ body.

Definition next_sequence (sequence : Z) : Z := wrap_add 8 sequence 1.

(** [framed seq payload bs seq']: [bs] are the packets of [payload] numbered from [seq],
    and [seq'] is the number after them.  A full packet is always followed by another. *)
Inductive framed : Z -> list byte -> list byte -> Z -> Prop :=
| framed_last sequence body :
    len body < MAX_PAYLOAD -> framed sequence body (packet sequence body) (next_sequence sequence)
| framed_more sequence body payload bs after :
    len body = MAX_PAYLOAD -> framed (next_sequence sequence) payload bs after ->
    framed sequence (body ++ payload) (packet sequence body ++ bs) after.

(** Several payloads one after the other. *)
Inductive framed_all : Z -> list (list byte) -> list byte -> Z -> Prop :=
| framed_none sequence : framed_all sequence [] [] sequence
| framed_cons sequence payload bs middle payloads bss after :
    framed sequence payload bs middle -> framed_all middle payloads bss after ->
    framed_all sequence (payload :: payloads) (bs ++ bss) after.

(** What the bytes of a stream that then ends hold at their front. *)
Inductive stream_front : Type :=
| Payload (payload : list byte) (sequence : Z) (rest : list byte)
| Closed
| Cut (e : io_error).

(** [joins acc bs o]: after the continuations [acc], the bytes [bs] hold [o]. *)
Inductive joins : list byte -> list byte -> stream_front -> Prop :=
| joins_last acc sequence body rest :
    0 <= sequence < 256 -> len body < MAX_PAYLOAD ->
    joins acc (packet sequence body ++ rest) (Payload (acc ++ body) (next_sequence sequence) rest)
| joins_more acc sequence body rest o :
    0 <= sequence < 256 -> len body = MAX_PAYLOAD -> joins (acc ++ body) rest o ->
    joins acc (packet sequence body ++ rest) o
| joins_closed bs : len bs < 4 -> joins [] bs Closed
| joins_cut_header acc bs : acc <> [] -> len bs < 4 -> joins acc bs (Cut split_eof)
| joins_cut_body acc sequence n part :
    0 <= sequence < 256 -> len part < n <= MAX_PAYLOAD ->
    joins acc (to_le 3 n ++ [byte.of_Z sequence] ++ part) (Cut early_eof).

(** ** Lemmas on the transport *)

Definition arrives (a : arrival) : Prop := match a with Arrives _ => True | Breaks _ => False end.

(** No read of the transport fails. *)
Definition steady (t : Transport) : Prop := Forall arrives (arrivals t).

Lemma front_back {A} z (l : list A) : front z l ++ back z l = l.
Proof. apply take_drop. Qed.

Lemma len_front {A} z (l : list A) : 0 <= z -> len (front z l) = Z.min z (len l).
Proof. intros. unfold len, front. rewrite length_take. lia. Qed.

Lemma len_back {A} z (l : list A) : 0 <= z -> len (back z l) = Z.max 0 (len l - z).
Proof. intros. unfold len, back. rewrite length_drop. lia. Qed.

Lemma front_app {A} (a b : list A) z : z = len a -> front z (a ++ b) = a.
Proof. intros ->. unfold front, len. rewrite Nat2Z.id. apply take_app_length. Qed.

Lemma back_app {A} (a b : list A) z : z = len a -> back z (a ++ b) = b.
Proof. intros ->. unfold back, len. rewrite Nat2Z.id. apply drop_app_length. Qed.

Lemma front_app_more {A} (a b : list A) z : len a <= z -> front z (a ++ b) = a ++ front (z - len a) b.
Proof.
  unfold front, len. intros. rewrite take_app_ge by lia. do 2 f_equal. lia.
Qed.

Lemma back_app_more {A} (a b : list A) z : len a <= z -> back z (a ++ b) = back (z - len a) b.
Proof. unfold back, len. intros. rewrite drop_app_ge by lia. f_equal. lia. Qed.

Lemma front_app_less {A} (a b : list A) z : z <= len a -> front z (a ++ b) = front z a.
Proof. unfold front, len. intros. apply take_app_le. lia. Qed.

Lemma back_app_less {A} (a b : list A) z : z <= len a -> back z (a ++ b) = back z a ++ b.
Proof. unfold back, len. intros. apply drop_app_le. lia. Qed.

Lemma back_all {A} (l : list A) z : len l <= z -> back z l = [].
Proof. unfold back, len. intros. apply drop_ge. lia. Qed.

Lemma back_nil {A} z : back z (@nil A) = [].
Proof. apply drop_nil. Qed.

Lemma front_all {A} (l : list A) z : len l <= z -> front z l = l.
Proof. unfold front, len. intros. apply take_ge. lia. Qed.

Lemma len_zero {A} (l : list A) : len l = 0 -> l = [].
Proof. destruct l; [easy|]. intros; len_lia. Qed.

(** A read gives the next bytes, none only at the end; one that fails takes nothing. *)
Lemma read_cases room t : 1 <= room ->
  match read room t with
  | (Ok bs, t') => incoming t = bs ++ incoming t' /\ len bs <= room /\ (bs = [] -> incoming t = [])
  | (Err _, t') => incoming t' = incoming t
  end.
Proof.
  intros Hr. unfold read.
  assert (D : forall k, (0 < k)%nat \/ incoming t = [] -> let n := Nat.min k (Z.to_nat room) in
    incoming t = take n (incoming t) ++ drop n (incoming t) /\ len (take n (incoming t)) <= room /\ (take n (incoming t) = [] -> incoming t = [])).
  { intros k Hk n. split; [symmetry; apply take_drop|]. split; [unfold len; rewrite length_take; lia|].
    intros E. destruct Hk; [|easy]. apply (f_equal (@length byte)) in E. rewrite length_take in E.
    destruct (incoming t); [easy|cbn in E; lia]. }
  destruct (arrivals t) as [|[k|e] plan]; [apply D|apply D|easy]; [|left; lia].
  destruct (incoming t); [now right|left; cbn; lia].
Qed.

Lemma read_steady room t :
  steady t -> 1 <= room -> exists bs t', read room t = (Ok bs, t') /\ steady t' /\
    incoming t = bs ++ incoming t' /\ len bs <= room /\ (bs = [] -> incoming t = []).
Proof.
  intros Hs Hr. pose proof (read_cases room t Hr) as C.
  assert (exists bs t', read room t = (Ok bs, t') /\ steady t') as (bs & t' & E & Hs').
  { unfold read, steady in *. destruct (arrivals t) as [|[k|e] plan]; [|inv Hs..]; easy || eauto. }
  rewrite E in C. eauto.
Qed.

Lemma read_exact_loop_steady fuel need t :
  steady t -> 0 <= need <= Z.of_nat fuel -> exists t', steady t' /\ incoming t' = back need (incoming t) /\
    read_exact_loop fuel need t =
      (if need <=? len (incoming t) then Ok (front need (incoming t)) else Err early_eof, t').
Proof.
  revert need t; induction fuel as [|fuel IH]; intros need t Hs Hn; cbn [read_exact_loop].
  { exists t. replace need with 0 by lia. pose proof (len_nonneg (incoming t)). zcases; [easy|lia]. }
  pose proof (len_nonneg (incoming t)). destruct (Z.leb_spec need 0).
  { exists t. replace need with 0 by lia. zcases; [easy|lia]. }
  destruct (read_steady need t Hs) as (bs & t' & E & Hs' & Ein & Hle & Hnil); [lia|].
  unfold mbind, Io_bind. rewrite E. destruct bs as [|b bs].
  - rewrite (Hnil eq_refl) in *. exists t'. split; [easy|]. destruct (incoming t'); [|easy].
    split; [now rewrite back_all by (rewrite len_nil; lia)|]. rewrite len_nil. now zcases; [lia|].
  - set (x := b :: bs) in *. assert (1 <= len x) by (unfold x; len_lia).
    destruct (IH (need - len x) t' Hs') as (t'' & Hs'' & Ein'' & E''); [lia|].
    exists t''. split; [easy|]. rewrite Ein, E''. rewrite back_app_more, len_app by lia. split; [easy|].
    rewrite front_app_more by lia. zcases; first [easy|lia].
Qed.

Lemma read_exact_steady need t :
  steady t -> 0 <= need -> exists t', steady t' /\ incoming t' = back need (incoming t) /\
    read_exact need t = (if need <=? len (incoming t) then Ok (front need (incoming t)) else Err early_eof, t').
Proof. intros. apply read_exact_loop_steady; [easy|lia]. Qed.

(** ** Lemmas on the reader *)

(** The window lies in the buffer, and the number is a byte. *)
Definition reader_ok (r : PacketReader) : Prop :=
  0 <= reader_start r <= reader_end r /\ reader_end r <= len (reader_buffer r) /\ 0 <= reader_sequence r < 256.

(** What reading leaves alone. *)
Definition same_mode (r r' : PacketReader) : Prop :=
  reader_sequence r' = reader_sequence r /\ reader_read_ahead r' = reader_read_ahead r.

Lemma buffered_window r inner buffer s e :
  buffered (with_window r inner buffer s e) = front (e - s) (back s buffer).
Proof. reflexivity. Qed.

Lemma len_buffered r : reader_ok r -> len (buffered r) = reader_end r - reader_start r.
Proof. intros (H1 & H2 & _). unfold buffered. rewrite len_front, len_back; lia. Qed.

Lemma has_buffered_spec r : reader_ok r -> has_buffered r = negb (len (buffered r) =? 0).
Proof. intros Hr. rewrite len_buffered by easy. destruct Hr as (H1 & _). unfold has_buffered. zcases; cbn; easy || lia. Qed.

Lemma len_grow n bs : len bs <= n -> len (grow n bs) = n.
Proof. intros. unfold grow. rewrite len_app. unfold len at 2. rewrite repeat_length. lia. Qed.

Lemma len_overwrite buffer at_ bs :
  0 <= at_ -> at_ + len bs <= len buffer -> len (overwrite buffer at_ bs) = len buffer.
Proof.
  intros. unfold overwrite.
  pose proof (len_nonneg bs). rewrite !len_app, len_front, len_back by lia. lia.
Qed.

Lemma back_overwrite buffer at_ bs s :
  0 <= s <= at_ -> at_ + len bs <= len buffer ->
  front (at_ + len bs - s) (back s (overwrite buffer at_ bs)) = front (at_ - s) (back s buffer) ++ bs.
Proof.
  intros Hs Hl. pose proof (len_nonneg bs). unfold overwrite.
  rewrite back_app_less by (rewrite len_front; lia).
  assert (E : back s (front at_ buffer) = front (at_ - s) (back s buffer)).
  { unfold back, front. rewrite skipn_firstn_comm. f_equal. lia. }
  assert (El : len (front (at_ - s) (back s buffer)) = at_ - s) by (rewrite len_front, len_back; lia).
  rewrite E, front_app_more by lia. f_equal. apply front_app. lia.
Qed.

(** Priming appends to the bytes held. *)
Lemma prime_spec bs r : reader_ok r ->
  reader_ok (prime bs r) /\ same_mode r (prime bs r) /\ buffered (prime bs r) = buffered r ++ bs /\
  reader_inner (prime bs r) = reader_inner r.
Proof.
  intros Hr. pose proof (len_nonneg bs) as Hbs. pose proof (has_buffered_spec r Hr) as Hb. unfold prime.
  destruct (has_buffered r) eqn:E.
  - destruct Hr as (H1 & H2 & H3). set (buffer := if _ <? _ then _ else _).
    assert (L : reader_end r + len bs <= len buffer /\ front (reader_end r) buffer = front (reader_end r) (reader_buffer r)).
    { unfold buffer. destruct (Z.ltb_spec (len (reader_buffer r)) (reader_end r + len bs)); [|easy].
      split; [rewrite len_grow; lia|]. unfold grow. now apply front_app_less. }
    destruct L as [L Ef]. split; [|split; [easy|split; [|easy]]].
    + unfold reader_ok; cbn. rewrite len_overwrite by lia. lia.
    + rewrite buffered_window, back_overwrite by lia. f_equal. unfold buffered.
      unfold front, back in *. apply (f_equal (drop (Z.to_nat (reader_start r)))) in Ef.
      rewrite !skipn_firstn_comm in Ef. now replace (Z.to_nat (reader_end r - reader_start r))
        with (Z.to_nat (reader_end r) - Z.to_nat (reader_start r))%nat by lia.
  - symmetry in Hb. apply negb_false_iff, Z.eqb_eq, len_zero in Hb. rewrite Hb. destruct Hr as (H1 & H2 & H3).
    set (buffer := if _ <? _ then _ else _). cbn [app].
    assert (L : 0 + len bs <= len buffer) by (unfold buffer; destruct (Z.ltb_spec (len (reader_buffer r)) (0 + len bs)); [rewrite len_grow; lia|lia]).
    split; [|split; [easy|split; [|easy]]].
    + unfold reader_ok; cbn [with_window reader_start reader_end reader_buffer reader_sequence]. rewrite len_overwrite by lia. lia.
    + rewrite buffered_window, back_overwrite by lia. easy.
Qed.

Lemma take_buffered_spec room r : reader_ok r -> 0 <= room -> exists r',
  take_buffered room r = (front room (buffered r), r') /\ reader_ok r' /\ same_mode r r' /\
  reader_inner r' = reader_inner r /\ buffered r' = back room (buffered r).
Proof.
  intros Hr Hroom. eexists. split; [unfold take_buffered; apply f_equal2; [|reflexivity]|].
  - unfold buffered, front. rewrite take_take. f_equal. destruct Hr. lia.
  - destruct Hr as (H1 & H2 & H3). split; [unfold reader_ok; cbn; lia|]. split; [easy|]. split; [easy|].
    rewrite buffered_window. unfold buffered, front, back. rewrite skipn_firstn_comm, drop_drop.
    destruct (Z.le_gt_cases (reader_end r - reader_start r) room); [|f_equal; [lia|]; f_equal; lia].
    replace (Z.to_nat _) with O by lia. replace (_ - _)%nat with O by lia. easy.
Qed.

(** A fill of a drained buffer gives the next bytes, none only at the end. *)
Lemma fill_spec r : reader_ok r -> steady (reader_inner r) -> exists bs r',
  fill r = (Ok (len bs), r') /\ reader_ok r' /\ same_mode r r' /\ steady (reader_inner r') /\
  buffered r' = bs /\ incoming (reader_inner r) = bs ++ incoming (reader_inner r') /\
  (bs = [] -> incoming (reader_inner r) = []).
Proof.
  intros Hr Hs. unfold fill. set (buffer := if _ <? _ then _ else _).
  assert (L : READ_AHEAD <= len buffer).
  { unfold buffer. destruct (Z.ltb_spec (len (reader_buffer r)) READ_AHEAD); [rewrite len_grow; lia|lia]. }
  change READ_AHEAD with 1024 in L.
  destruct (read_steady (len buffer) (reader_inner r) Hs) as (bs & t' & E & Hs' & Ein & Hle & Hnil); [lia|].
  exists bs. rewrite E. eexists. split; [reflexivity|]. pose proof (len_nonneg bs). destruct Hr as (H1 & H2 & H3).
  split; [unfold reader_ok; cbn [with_window reader_start reader_end reader_buffer reader_sequence]; rewrite len_overwrite by lia; lia|].
  split; [easy|]. split; [easy|]. split; [|split; easy].
  rewrite buffered_window. replace (len bs - 0) with (0 + len bs - 0) by lia. rewrite back_overwrite by lia. easy.
Qed.

(** What reading exactly [need] bytes gives of the bytes pending. *)
Definition read_result (need : Z) (bs : list byte) : result io_error (list byte) :=
  if need <=? len bs then Ok (front need bs) else Err early_eof.

Lemma read_exact_primed_loop_spec fuel need filled r :
  reader_ok r -> steady (reader_inner r) -> (len filled < need -> buffered r = []) -> len filled <= need < len filled + Z.of_nat fuel ->
  exists r', read_exact_primed_loop fuel need filled r = (read_result need (filled ++ pending r), r') /\
    reader_ok r' /\ same_mode r r' /\ steady (reader_inner r') /\ pending r' = back need (filled ++ pending r) /\
    (reader_read_ahead r = false -> buffered r' = buffered r).
Proof.
  unfold read_result. revert filled r; induction fuel as [|fuel IH]; intros filled r Hr Hs Hb Hn; [lia|]. cbn [read_exact_primed_loop].
  destruct (Z.ltb_spec (len filled) need) as [Hlt|Hge].
  2:{ assert (E : need = len filled) by lia. exists r. rewrite (front_app _ _ _ E), (back_app _ _ _ E), len_app.
      pose proof (len_nonneg (pending r)). zcases; [easy|lia]. }
  specialize (Hb Hlt). unfold pending. rewrite Hb. cbn [app].
  destruct (negb (reader_read_ahead r) || (READ_AHEAD <=? need - len filled)) eqn:Em.
  - destruct (read_exact_steady (need - len filled) (reader_inner r) Hs) as (t' & Hs' & Ein & E); [lia|]. rewrite E.
    exists (with_window r t' (reader_buffer r) (reader_start r) (reader_end r)).
    split; [|split; [exact Hr|split; [easy|split; [exact Hs'|split; [|easy]]]]].
    + rewrite len_app, front_app_more by lia. zcases; first [easy|lia].
    + rewrite back_app_more by lia. rewrite <- Ein. change (buffered r ++ incoming t' = incoming t'). now rewrite Hb.
  - destruct (fill_spec r Hr Hs) as (bs & r1 & E & Hr1 & [Hm1 Hm2] & Hs1 & Eb1 & Ein1 & Hnil).
    unfold mbind, Io_bind. rewrite E. pose proof (len_nonneg bs). destruct (Z.eqb_spec (len bs) 0) as [E0|E0].
    + apply len_zero in E0 as ->. rewrite (Hnil eq_refl) in *. rewrite app_nil_r. exists r1. rewrite (proj2 (Z.leb_gt need (len filled))) by lia. split; [easy|].
      split; [easy|]. split; [easy|]. split; [easy|]. split; [|now intros Ha; rewrite Ha in Em].
      rewrite Eb1. destruct (incoming (reader_inner r1)); [|easy]. cbn. symmetry. apply back_all. lia.
    + destruct (take_buffered_spec (need - len filled) r1 Hr1) as (r2 & E2 & Hr2 & [Hm3 Hm4] & Ei2 & Eb2); [lia|].
      rewrite E2. cbv beta iota. rewrite Eb1 in *. assert (Hs2 : steady (reader_inner r2)) by now rewrite Ei2.
      assert (Hf : len (front (need - len filled) bs) = Z.min (need - len filled) (len bs)) by (apply len_front; lia).
      destruct (IH (filled ++ front (need - len filled) bs) r2 Hr2 Hs2) as (r3 & E3 & Hr3 & [Hm5 Hm6] & Hs3 & Ep3 & _).
      { rewrite len_app. intros. rewrite Eb2. apply back_all. lia. }
      { rewrite len_app. lia. }
      assert (Ep : (filled ++ front (need - len filled) bs) ++ pending r2 = filled ++ incoming (reader_inner r)).
      { unfold pending. rewrite Eb2, Ei2, Ein1, <- !app_assoc. f_equal. rewrite app_assoc, front_back. easy. }
      rewrite Ep in *. exists r3. repeat (split; [easy|]). split; [split; congruence|]. split; [easy|]. split; [easy|].
      now intros Ha; rewrite Ha in Em.
Qed.

Lemma read_exact_primed_spec need r :
  reader_ok r -> steady (reader_inner r) -> 0 <= need ->
  exists r', read_exact_primed need r = (read_result need (pending r), r') /\
    reader_ok r' /\ same_mode r r' /\ steady (reader_inner r') /\ pending r' = back need (pending r) /\
    (reader_read_ahead r = false -> buffered r' = back need (buffered r)).
Proof.
  intros Hr Hs Hn. unfold read_exact_primed.
  destruct (take_buffered_spec need r Hr Hn) as (r1 & E1 & Hr1 & [Hm1 Hm2] & Ei1 & Eb1). rewrite E1. cbv beta iota.
  destruct (read_exact_primed_loop_spec (S (Z.to_nat need)) need (front need (buffered r)) r1) as (r2 & E2 & Hr2 & [Hm3 Hm4] & Hs2 & Ep2 & Hb2).
  - easy.
  - now rewrite Ei1.
  - rewrite len_front by easy. intros. rewrite Eb1. apply back_all. lia.
  - rewrite len_front by easy. pose proof (len_nonneg (buffered r)). lia.
  - assert (Ep : front need (buffered r) ++ pending r1 = pending r).
    { unfold pending. now rewrite Eb1, Ei1, app_assoc, front_back. }
    rewrite Ep in *. exists r2. repeat (split; [easy|]). split; [split; congruence|]. split; [easy|]. split; [easy|].
    intros Ha. rewrite Hb2 by congruence. easy.
Qed.

(** ** Reading payloads *)

Lemma byte_of_unsigned b : byte.of_Z (byte.unsigned b) = b.
Proof. apply byte.unsigned_inj. rewrite byte.unsigned_of_Z. unfold byte.wrap. apply Z.mod_small, byte.unsigned_range. Qed.

Lemma byte_unsigned_of z : 0 <= z < 256 -> byte.unsigned (byte.of_Z z) = z.
Proof. intros. rewrite byte.unsigned_of_Z. unfold byte.wrap. now apply Z.mod_small. Qed.

Lemma header_length_le a b c d : header_length [a; b; c; d] = from_le [a; b; c].
Proof.
  unfold header_length, header_byte, from_le. cbn [nth]. unfold LittleEndianList.le_combine.
  rewrite Z.shiftl_0_l, Z.lor_0_r, Z.shiftl_lor, Z.shiftl_shiftl, Z.lor_assoc by lia. easy.
Qed.

Lemma header_parts h : len h = 4 ->
  h = to_le 3 (header_length h) ++ [byte.of_Z (header_byte h 3)] /\
  0 <= header_length h <= MAX_PAYLOAD /\ 0 <= header_byte h 3 < 256.
Proof.
  destruct h as [|a [|b [|c [|d [|e h]]]]]; intros L; try len_lia. rewrite header_length_le.
  pose proof (from_le_range [a; b; c]) as R. change (2 ^ (8 * len [a; b; c])) with 16777216 in R.
  rewrite to_from_le by easy. unfold header_byte. cbn [nth]. rewrite byte_of_unsigned. unfold MAX_PAYLOAD.
  pose proof (byte.unsigned_range d). change (2 ^ 8) with 256 in *. repeat split; easy || lia.
Qed.

Lemma header_of n sequence : 0 <= n <= MAX_PAYLOAD -> 0 <= sequence < 256 ->
  header_length (to_le 3 n ++ [byte.of_Z sequence]) = n /\ header_byte (to_le 3 n ++ [byte.of_Z sequence]) 3 = sequence.
Proof.
  intros Hn Hs. unfold MAX_PAYLOAD in Hn. pose proof (from_to_le 3 n) as E. change (2 ^ (8 * Z.of_nat 3)) with 16777216 in E.
  rewrite Z.mod_small in E by lia. pose proof (len_to_le 3 n) as L. destruct (to_le 3 n) as [|a [|b [|c [|d l]]]]; try len_lia.
  cbn [app]. rewrite header_length_le. split; [easy|]. unfold header_byte. cbn [nth]. now apply byte_unsigned_of.
Qed.

(** What the caller of [next_payload] is told. *)
Definition front_result (o : stream_front) : result io_error (option (list byte)) :=
  match o with Payload payload _ _ => Ok (Some payload) | Closed => Ok None | Cut e => Err e end.

(** What is then pending, and the number of the next packet. *)
Definition front_leaves (o : stream_front) (r : PacketReader) : Prop :=
  match o with
  | Payload _ sequence rest => pending r = rest /\ reader_sequence r = sequence
  | _ => pending r = []
  end.

(** One packet read: its header, then the bytes it announces. *)
Lemma read_header r n sequence rest :
  reader_ok r -> steady (reader_inner r) -> 0 <= n <= MAX_PAYLOAD -> 0 <= sequence < 256 ->
  pending r = to_le 3 n ++ [byte.of_Z sequence] ++ rest ->
  exists r', read_exact_primed 4 r = (Ok (to_le 3 n ++ [byte.of_Z sequence]), r') /\
    reader_ok r' /\ same_mode r r' /\ steady (reader_inner r') /\ pending r' = rest /\
    (reader_read_ahead r = false -> buffered r = [] -> buffered r' = []).
Proof.
  intros Hr Hs Hn Hq Ep. destruct (read_exact_primed_spec 4 r Hr Hs) as (r' & E & Hr' & Hm & Hs' & Ep' & Hb); [lia|].
  exists r'. rewrite E, Ep'. unfold read_result. rewrite Ep, app_assoc.
  assert (L : 4 = len (to_le 3 n ++ [byte.of_Z sequence])) by now rewrite len_app, len_to_le.
  pose proof (len_nonneg rest). clear Ep. generalize dependent (to_le 3 n ++ [byte.of_Z sequence]). intros h L.
  rewrite (front_app h rest 4 L), (back_app h rest 4 L), (proj2 (Z.leb_le 4 (len (h ++ rest)))) by (rewrite len_app; lia). repeat (split; [easy|]). intros Ha E0. rewrite Hb, E0 by easy. apply back_nil.
Qed.

Lemma reader_ok_sequence r sequence : reader_ok r -> 0 <= sequence < 256 -> reader_ok (reader_set_sequence sequence r).
Proof. unfold reader_ok. cbn. tauto. Qed.

Lemma next_sequence_range s : 0 <= next_sequence s < 256.
Proof. unfold next_sequence, wrap_add. apply Z.mod_pos_bound. lia. Qed.

Definition settled (o : stream_front) (fuel : nat) (acc : list byte) (r : PacketReader) : Prop :=
  exists r', next_payload_loop fuel acc r = (front_result o, r') /\ reader_ok r' /\ steady (reader_inner r') /\
    reader_read_ahead r' = reader_read_ahead r /\ front_leaves o r' /\
    (reader_read_ahead r = false -> buffered r = [] -> buffered r' = []).

(** A whole packet at the front, then what the loop does after it. *)
Lemma next_payload_packet fuel acc r sequence body rest o :
  reader_ok r -> steady (reader_inner r) -> 0 <= sequence < 256 -> len body <= MAX_PAYLOAD ->
  pending r = packet sequence body ++ rest ->
  (forall r', reader_ok r' -> steady (reader_inner r') -> reader_read_ahead r' = reader_read_ahead r -> pending r' = rest ->
     reader_sequence r' = next_sequence sequence -> 
     (if len body <? MAX_PAYLOAD then o = Payload (acc ++ body) (next_sequence sequence) rest else settled o fuel (acc ++ body) r')) ->
  settled o (S fuel) acc r.
Proof.
  intros Hr Hs Hq Hn Ep Hk. pose proof (len_nonneg body).
  destruct (read_header r (len body) sequence (body ++ rest) Hr Hs) as (r1 & E1 & Hr1 & [Hm1 Hm2] & Hs1 & Ep1 & Hb1); [lia|easy| |].
  { rewrite Ep. unfold packet. now rewrite <- !app_assoc. }
  destruct (header_of (len body) sequence) as [El Eq]; [lia|easy|].
  set (r2 := reader_set_sequence (wrap_add 8 sequence 1) r1).
  destruct (read_exact_primed_spec (len body) r2) as (r3 & E3 & Hr3 & [Hm3 Hm4] & Hs3 & Ep3 & Hb3); [|easy|lia|].
  { apply reader_ok_sequence; [easy|apply next_sequence_range]. }
  change (reader_read_ahead r3 = reader_read_ahead r1) in Hm4. assert (E2 : pending r2 = body ++ rest) by exact Ep1.
  rewrite E2, (back_app _ _ _ eq_refl) in Ep3. unfold read_result in E3. rewrite E2, (front_app _ _ _ eq_refl), len_app in E3.
  pose proof (len_nonneg rest). rewrite (proj2 (Z.leb_le (len body) _)) in E3 by lia.
  specialize (Hk r3 Hr3 Hs3). rewrite Hm4 in Hk. specialize (Hk Hm2 Ep3 Hm3).
  assert (Hb : reader_read_ahead r = false -> buffered r = [] -> buffered r3 = []).
  { intros Ha E0. specialize (Hb1 Ha E0). rewrite Hb3 by (cbn; congruence). change (buffered r2) with (buffered r1). rewrite Hb1. apply back_nil. }
  unfold settled. cbn [next_payload_loop]. rewrite E1, El, Eq. fold r2. cbv zeta beta iota. unfold mbind, Io_bind. rewrite E3.
  destruct (len body <? MAX_PAYLOAD).
  - subst o. exists r3. repeat (split; [easy|]). split; [congruence|]. split; easy.
  - destruct Hk as (r4 & E4 & Hr4 & Hs4 & Ha4 & Hl4 & Hb4). exists r4. repeat (split; [easy|]). split; [congruence|]. split; [easy|].
    intros Ha E0. apply Hb4; [congruence|auto].
Qed.

(** The loop gives what the pending bytes hold, with a round for each packet. *)
Lemma next_payload_loop_joins acc bs o : joins acc bs o -> forall fuel r,
  reader_ok r -> steady (reader_inner r) -> pending r = bs -> (length bs < fuel)%nat -> settled o fuel acc r.
Proof.
  induction 1 as [acc sequence body rest Hq Hl|acc sequence body rest o Hq Hl _ IH|bs Hl|acc bs Ha Hl|acc sequence n part Hq Hn];
    intros [|fuel] r Hr Hs Ep Hf; try lia.
  - apply (next_payload_packet fuel acc r sequence body rest); [easy..|lia|exact Ep|]. intros. rewrite (proj2 (Z.ltb_lt _ _) Hl). easy.
  - apply (next_payload_packet fuel acc r sequence body rest); [easy..|lia|exact Ep|]. intros r' Hr' Hs' _ Ep' _. rewrite Hl, Z.ltb_irrefl.
    apply IH; [easy..|]. unfold packet in Hf. rewrite !length_app in Hf. cbn in Hf. lia.
  - destruct (read_exact_primed_spec 4 r Hr Hs) as (r' & E & Hr' & [_ Hm] & Hs' & Ep' & Hb); [lia|].
    unfold read_result in E. rewrite Ep, (proj2 (Z.leb_gt 4 _)) in E by lia. unfold settled. cbn [next_payload_loop]. rewrite E.
    exists r'. repeat (split; [easy|]). split; [cbn; rewrite Ep', Ep; apply back_all; lia|].
    intros Hra E0. rewrite Hb, E0 by easy. apply back_nil.
  - destruct (read_exact_primed_spec 4 r Hr Hs) as (r' & E & Hr' & [_ Hm] & Hs' & Ep' & Hb); [lia|].
    unfold read_result in E. rewrite Ep, (proj2 (Z.leb_gt 4 _)) in E by lia. unfold settled. cbn [next_payload_loop]. rewrite E.
    destruct acc; [easy|]. exists r'. repeat (split; [easy|]). split; [cbn; rewrite Ep', Ep; apply back_all; lia|].
    intros Hra E0. rewrite Hb, E0 by easy. apply back_nil.
  - pose proof (len_nonneg part). destruct (read_header r n sequence part Hr Hs) as (r1 & E1 & Hr1 & [Hm1 Hm2] & Hs1 & Ep1 & Hb1); [lia|easy..|].
    destruct (header_of n sequence) as [El Eq]; [lia|easy|]. set (r2 := reader_set_sequence (wrap_add 8 sequence 1) r1).
    destruct (read_exact_primed_spec n r2) as (r3 & E3 & Hr3 & [Hm3 Hm4] & Hs3 & Ep3 & Hb3); [|easy|lia|].
    { apply reader_ok_sequence; [easy|apply next_sequence_range]. }
    change (pending r2) with (pending r1) in *. rewrite Ep1 in *. unfold read_result in E3. rewrite (proj2 (Z.leb_gt n _)) in E3 by lia.
    unfold settled. cbn [next_payload_loop]. rewrite E1, El, Eq. fold r2. cbv zeta beta iota. unfold mbind, Io_bind. rewrite E3.
    exists r3. repeat (split; [easy|]). split; [cbn in *; congruence|]. split; [cbn; rewrite Ep3; apply back_all; lia|].
    intros Hra E0. specialize (Hb1 Hra E0). rewrite Hb3 by (cbn; congruence). change (buffered r2) with (buffered r1). rewrite Hb1. apply back_nil.
Qed.

(** ** What reading promises *)

Lemma joins_total n acc bs : (length bs < n)%nat -> exists o, joins acc bs o.
Proof.
  revert acc bs; induction n as [|n IH]; intros acc bs Hn; [lia|]. destruct (Z.lt_ge_cases (len bs) 4) as [Hl|Hl].
  { destruct acc; eexists; [now apply joins_closed|now apply joins_cut_header]. }
  destruct (header_parts (front 4 bs)) as (Eh & Hlen & Hq); [rewrite len_front; lia|].
  set (h := front 4 bs) in *. set (k := header_length h) in *. set (sequence := header_byte h 3) in *.
  assert (Eb : bs = to_le 3 k ++ [byte.of_Z sequence] ++ back 4 bs) by (rewrite app_assoc, <- Eh; symmetry; apply front_back).
  destruct (Z.lt_ge_cases (len (back 4 bs)) k) as [Hk|Hk].
  { exists (Cut early_eof). rewrite Eb. now apply joins_cut_body. }
  assert (Ek : len (front k (back 4 bs)) = k) by (rewrite len_front; lia).
  assert (Ep : bs = packet sequence (front k (back 4 bs)) ++ back k (back 4 bs)).
  { unfold packet. rewrite Ek, <- !app_assoc, front_back. exact Eb. }
  clear Eb Eh Hk. clearbody k sequence. clear h. revert Ek Ep. generalize (front k (back 4 bs)), (back k (back 4 bs)). intros body rest Ek ->.
  destruct (Z.lt_ge_cases k MAX_PAYLOAD).
  - eexists. apply joins_last; [easy|lia].
  - destruct (IH (acc ++ body) rest) as [o Ho].
    { unfold packet in Hn. rewrite !length_app in Hn. cbn in Hn. lia. }
    exists o. apply joins_more; [easy|lia|easy].
Qed.

Lemma next_payload_joins r o : reader_ok r -> steady (reader_inner r) -> joins [] (pending r) o ->
  exists r', next_payload r = (front_result o, r') /\ reader_ok r' /\ steady (reader_inner r') /\
    reader_read_ahead r' = reader_read_ahead r /\ front_leaves o r' /\
    (reader_read_ahead r = false -> buffered r = [] -> buffered r' = []).
Proof. intros Hr Hs Ho. apply (next_payload_loop_joins _ _ _ Ho); [easy..|lia]. Qed.

Lemma framed_joins sequence payload bs after rest : framed sequence payload bs after -> 0 <= sequence < 256 ->
  forall acc, joins acc (bs ++ rest) (Payload (acc ++ payload) after rest).
Proof.
  induction 1 as [sequence body Hl|sequence body payload bs after Hl Hf IH]; intros Hq acc; [now apply joins_last|].
  rewrite <- app_assoc. apply joins_more; [easy..|]. rewrite app_assoc. apply IH, next_sequence_range.
Qed.

(** Reads of several payloads in a row. *)
Fixpoint read_payloads (n : nat) : Io PacketReader (list (option (list byte))) :=
  match n with
  | O => mret []
  | S n => p ← next_payload; ps ← read_payloads n; mret (p :: ps)
  end.

Lemma framed_all_read sequence payloads bs after : framed_all sequence payloads bs after -> 0 <= sequence < 256 ->
  forall r rest, reader_ok r -> steady (reader_inner r) -> reader_sequence r = sequence -> pending r = bs ++ rest ->
  exists r', read_payloads (length payloads) r = (Ok (map Some payloads), r') /\ reader_ok r' /\ steady (reader_inner r') /\
    pending r' = rest /\ reader_sequence r' = after.
Proof.
  induction 1 as [sequence|sequence payload bs middle payloads bss after Hf _ IH]; intros Hq r rest Hr Hs Eq Ep.
  { now exists r. }
  rewrite <- app_assoc in Ep. pose proof (framed_joins _ _ _ _ (bss ++ rest) Hf Hq []) as Hj. rewrite <- Ep in Hj.
  destruct (next_payload_joins r _ Hr Hs Hj) as (r1 & E1 & Hr1 & Hs1 & _ & [Ep1 Eq1] & _).
  destruct (IH ltac:(rewrite <- Eq1; apply Hr1) r1 rest Hr1 Hs1 Eq1 Ep1) as (r2 & E2 & Hr2 & Hs2 & Ep2 & Eq2).
  exists r2. cbn [length read_payloads map]. unfold mbind, Io_bind. rewrite E1. cbn [front_result]. now rewrite E2.
Qed.

Lemma wait_for_packet_spec r : reader_ok r ->
  let '(result, r') := wait_for_packet r in
  reader_ok r' /\ same_mode r r' /\ pending r' = pending r /\
  forall b, result = Ok b -> b = negb (len (pending r) =? 0) /\ b = has_buffered r'.
Proof.
  intros Hr. unfold wait_for_packet. pose proof (has_buffered_spec r Hr) as Hb.
  destruct (has_buffered r) eqn:E.
  { repeat (split; [easy|]). intros b [= <-]. split; [|easy]. symmetry in Hb. apply negb_true_iff, Z.eqb_neq in Hb.
    unfold pending. rewrite len_app. pose proof (len_nonneg (buffered r)). pose proof (len_nonneg (incoming (reader_inner r))). zcases; easy || lia. }
  symmetry in Hb. apply negb_false_iff, Z.eqb_eq, len_zero in Hb. unfold pending. rewrite Hb. cbn [app].
  destruct (reader_read_ahead r) eqn:Ea.
  - unfold mbind, Io_bind, fill. set (buffer := if _ <? _ then _ else _).
    assert (L : 1024 <= len buffer).
    { unfold buffer, READ_AHEAD. destruct (Z.ltb_spec (len (reader_buffer r)) 1024); [rewrite len_grow; lia|lia]. }
    pose proof (read_cases (len buffer) (reader_inner r)) as C. destruct (read _ _) as [[bs|e] t']; specialize (C ltac:(lia)).
    + destruct C as (Ein & Hle & Hnil). pose proof (len_nonneg bs). destruct Hr as (H1 & H2 & H3).
      set (r' := with_window r t' (overwrite buffer 0 bs) 0 (len bs)).
      assert (Hr' : reader_ok r').
      { unfold reader_ok, r'. cbn [with_window reader_start reader_end reader_buffer reader_sequence]. rewrite len_overwrite by lia. lia. }
      assert (Eb : buffered r' = bs).
      { unfold r'. rewrite buffered_window. replace (len bs - 0) with (0 + len bs - 0) by lia. now rewrite back_overwrite by lia. }
      split; [easy|]. split; [easy|]. rewrite Eb, Ein. split; [easy|]. intros b [= <-].
      rewrite has_buffered_spec, Eb, len_app by easy. pose proof (len_nonneg (incoming t')).
      destruct bs as [|x bs]; [|rewrite len_cons; pose proof (len_nonneg bs); split; zcases; easy || lia].
      specialize (Hnil eq_refl). rewrite Hnil in Ein. cbn in Ein. now rewrite <- Ein.
    + destruct Hr as (H1 & H2 & H3). split; [unfold reader_ok; cbn [with_window reader_start reader_end reader_buffer reader_sequence]; lia|].
      split; [easy|]. split; [now rewrite buffered_window; cbn; rewrite C|easy].
  - pose proof (read_cases 1 (reader_inner r)) as C. destruct (read _ _) as [[bs|e] t']; specialize (C ltac:(lia)).
    + destruct C as (Ein & Hle & Hnil). set (r1 := with_window _ _ _ _ _). assert (Hr1 : reader_ok r1) by exact Hr.
      assert (Eb1 : buffered r1 = []) by exact Hb. destruct (Z.eqb_spec (len bs) 0) as [E0|E0].
      * apply len_zero in E0 as ->. specialize (Hnil eq_refl). rewrite Hnil in *. cbn in Ein. repeat (split; [easy|]).
        split; [now rewrite Eb1; cbn; rewrite <- Ein|]. intros b [= <-]. now rewrite has_buffered_spec, Eb1.
      * destruct (prime_spec bs r1 Hr1) as (Hr2 & Hm2 & Eb2 & Ei2). split; [easy|]. split; [easy|].
        rewrite Eb2, Ei2, Eb1. split; [easy|]. intros b [= <-]. rewrite has_buffered_spec, Eb2, Eb1, Ein, len_app by easy. cbn [app].
        pose proof (len_nonneg bs). pose proof (len_nonneg (incoming t')). split; zcases; easy || lia.
    + repeat (split; [easy|]). split; [|easy]. change (buffered r ++ incoming t' = incoming (reader_inner r)). now rewrite Hb, C.
Qed.

(** ** Running code that may fail *)

(** [runs m s Q E]: from [s], [m] ends in [Q] when it succeeds and in [E] when it fails. *)
Definition runs {S A} (m : Io S A) (s : S) (Q : A -> S -> Prop) (E : io_error -> S -> Prop) : Prop :=
  match m s with (Ok a, s') => Q a s' | (Err e, s') => E e s' end.

Lemma runs_bind {S A B} (m : Io S A) (f : A -> Io S B) s Q E :
  runs m s (fun a s' => runs (f a) s' Q E) E -> runs (m ≫= f) s Q E.
Proof. unfold runs, mbind, Io_bind. destruct (m s) as [[a|e] s']; easy. Qed.

Lemma runs_ret {S A} (a : A) (s : S) (Q : A -> S -> Prop) E : Q a s -> runs (mret a) s Q E.
Proof. easy. Qed.

Lemma runs_get {S A} (f : S -> A) s (Q : A -> S -> Prop) E : Q (f s) s -> runs (io_get f) s Q E.
Proof. easy. Qed.

Lemma runs_modify {S} (f : S -> S) s (Q : unit -> S -> Prop) E : Q tt (f s) -> runs (io_modify f) s Q E.
Proof. easy. Qed.

Lemma runs_weaken {S A} (m : Io S A) s (Q Q' : A -> S -> Prop) (E E' : io_error -> S -> Prop) :
  runs m s Q E -> (forall a s', Q a s' -> Q' a s') -> (forall e s', E e s' -> E' e s') -> runs m s Q' E'.
Proof. unfold runs. destruct (m s) as [[a|e] s']; auto. Qed.

Lemma runs_ok {S A} (m : Io S A) s Q E a s' : runs m s Q E -> m s = (Ok a, s') -> Q a s'.
Proof. unfold runs. intros H E0. now rewrite E0 in H. Qed.

(** ** Writing payloads *)

(** Everything written so far: what the peer has, then what is held back. *)
Definition wire (w : PacketWriter) : list byte := written (writer_inner w) ++ writer_buffer w.

(** What a failed write leaves: the peer has a part of [bs]. *)
Definition sent_part (bs : list byte) (w : PacketWriter) : Prop := written (writer_inner w) `prefix_of` bs.

Lemma sent_more bs more w : sent_part bs w -> sent_part (bs ++ more) w.
Proof. apply prefix_app_r. Qed.

Lemma write_all_runs bs w : writer_buffer w = [] ->
  runs (to_stream (write_all bs)) w
    (fun _ w' => wire w' = wire w ++ bs /\ writer_sequence w' = writer_sequence w /\ writer_buffer w' = [])
    (fun _ w' => sent_part (wire w ++ bs) w').
Proof.
  intros E. unfold runs, to_stream, zoom, write_all, wire, sent_part. rewrite E.
  destruct (acceptances (writer_inner w)) as [|[|n e] plan]; cbn; rewrite ?E, ?app_nil_r; [easy..|].
  exists (drop n bs). now rewrite <- app_assoc, take_drop.
Qed.

Lemma write_buffered_runs w :
  runs write_buffered w
    (fun _ w' => wire w' = wire w /\ writer_sequence w' = writer_sequence w /\ writer_buffer w' = [])
    (fun _ w' => sent_part (wire w) w').
Proof.
  unfold write_buffered. apply runs_bind, runs_get. destruct (writer_buffer w) as [|b bs] eqn:E; [now apply runs_ret|].
  rewrite <- E. apply runs_bind. unfold runs at 1, to_stream, zoom, write_all, wire, sent_part.
  destruct (acceptances (writer_inner w)) as [|[|n e] plan]; cbn [fst snd].
  1-2: apply runs_modify; cbn; now rewrite app_nil_r.
  exists (drop n (writer_buffer w)). cbn. now rewrite <- app_assoc, take_drop.
Qed.

Lemma extend_buffer_runs bs w (Q : unit -> PacketWriter -> Prop) E :
  (forall w', wire w' = wire w ++ bs -> writer_sequence w' = writer_sequence w -> writer_buffer w' = writer_buffer w ++ bs -> Q tt w') ->
  runs (extend_buffer bs) w Q E.
Proof. intros H. apply runs_modify, H; [|easy..]. unfold wire. cbn. apply app_assoc. Qed.

Lemma advance_runs w (Q : unit -> PacketWriter -> Prop) E :
  (forall w', wire w' = wire w -> writer_sequence w' = next_sequence (writer_sequence w) -> writer_buffer w' = writer_buffer w -> Q tt w') ->
  runs advance_sequence w Q E.
Proof. intros H. now apply runs_modify, H. Qed.

Lemma write_packet_runs chunk w :
  runs (write_packet (len chunk) chunk) w
    (fun _ w' => wire w' = wire w ++ packet (writer_sequence w) chunk /\ writer_sequence w' = next_sequence (writer_sequence w) /\
       len (writer_buffer w') < WRITE_BUFFER_HIGH_WATER /\ (WRITE_BUFFER_HIGH_WATER <= len chunk -> writer_buffer w' = []))
    (fun _ w' => sent_part (wire w ++ packet (writer_sequence w) chunk) w').
Proof.
  unfold write_packet, packet. apply runs_bind, runs_get, runs_bind, extend_buffer_runs. intros w1 E1 S1 B1.
  rewrite !app_assoc, <- (app_assoc (wire w)), <- E1, <- S1.
  assert (H0 : 0 < WRITE_BUFFER_HIGH_WATER) by easy.
  apply runs_bind. destruct (Z.leb_spec WRITE_BUFFER_HIGH_WATER (len chunk)).
  - apply runs_bind. eapply runs_weaken; [apply write_buffered_runs| |intros; now apply sent_more].
    intros _ w2 (E2 & S2 & B2). rewrite <- E2. eapply runs_weaken; [now apply write_all_runs| |easy].
    intros _ w3 (E3 & S3 & B3). apply advance_runs. intros w4 E4 S4 B4. rewrite E4, B4, B3, S4, S3, S2. cbn. easy.
  - apply runs_bind, extend_buffer_runs. intros w2 E2 S2 B2. rewrite <- E2, <- S2. apply runs_bind, runs_get.
    destruct (Z.leb_spec WRITE_BUFFER_HIGH_WATER (len (writer_buffer w2))).
    + eapply runs_weaken; [apply write_buffered_runs| |easy]. intros _ w3 (E3 & S3 & B3).
      apply advance_runs. intros w4 E4 S4 B4. rewrite E4, B4, B3, S4, S3. cbn. easy.
    + apply runs_ret, advance_runs. intros w3 E3 S3 B3. rewrite B3. repeat (split; [easy|]). lia.
Qed.

Lemma framed_total n sequence payload : (length payload < n)%nat -> exists bs after, framed sequence payload bs after.
Proof.
  revert sequence payload; induction n as [|n IH]; intros sequence payload Hn; [lia|].
  destruct (Z.lt_ge_cases (len payload) MAX_PAYLOAD); [eexists _, _; now apply framed_last|].
  assert (L : len (front MAX_PAYLOAD payload) = MAX_PAYLOAD) by (rewrite len_front; unfold MAX_PAYLOAD in *; lia).
  pose proof (front_back MAX_PAYLOAD payload) as E. revert L E. generalize (front MAX_PAYLOAD payload), (back MAX_PAYLOAD payload).
  intros body rest L <-. destruct (IH (next_sequence sequence) rest) as (bs & after & Hf).
  { rewrite length_app in Hn. unfold len, MAX_PAYLOAD in L. lia. }
  eexists _, _. exact (framed_more _ _ _ _ _ L Hf).
Qed.

(** The packets of a payload are those of its first chunk and of the others. *)
Lemma framed_chunk sequence payload bs after : framed sequence payload bs after ->
  if len payload <? MAX_PAYLOAD then bs = packet sequence payload /\ after = next_sequence sequence
  else exists rest, bs = packet sequence (front MAX_PAYLOAD payload) ++ rest /\
         framed (next_sequence sequence) (back MAX_PAYLOAD payload) rest after.
Proof.
  destruct 1 as [sequence body Hl|sequence body payload bs after Hl Hf].
  - now rewrite (proj2 (Z.ltb_lt _ _) Hl).
  - rewrite len_app. pose proof (len_nonneg payload). rewrite (proj2 (Z.ltb_ge (len body + len payload) MAX_PAYLOAD)) by lia.
    exists bs. now rewrite front_app, back_app.
Qed.

Lemma write_payload_loop_runs fuel payload offset w bs after :
  0 <= offset <= len payload -> len payload - offset < Z.of_nat fuel ->
  framed (writer_sequence w) (back offset payload) bs after ->
  runs (write_payload_loop fuel payload offset) w
    (fun _ w' => wire w' = wire w ++ bs /\ writer_sequence w' = after /\ len (writer_buffer w') < WRITE_BUFFER_HIGH_WATER)
    (fun _ w' => sent_part (wire w ++ bs) w').
Proof.
  revert offset w bs after; induction fuel as [|fuel IH]; intros offset w bs after Ho Hf Hfr; [lia|]. cbn [write_payload_loop].
  assert (Lb : len (back offset payload) = len payload - offset) by (rewrite len_back; lia).
  replace (sat_sub (len payload) offset) with (len (back offset payload)) by (unfold sat_sub; lia).
  apply framed_chunk in Hfr. apply runs_bind. destruct (Z.ltb_spec (len (back offset payload)) MAX_PAYLOAD) as [Hlt|Hge].
  - destruct Hfr as [-> ->]. rewrite Z.min_l by lia. rewrite front_all by lia.
    eapply runs_weaken; [apply write_packet_runs| |easy]. intros _ w1 (E1 & S1 & B1 & _).
    rewrite (proj2 (Z.ltb_lt _ _) Hlt). now apply runs_ret.
  - destruct Hfr as (rest & -> & Hfr). rewrite Z.min_r by lia. set (chunk := front MAX_PAYLOAD (back offset payload)) in *.
    assert (Lc : MAX_PAYLOAD = len chunk) by (unfold chunk; rewrite len_front; unfold MAX_PAYLOAD in *; lia).
    rewrite Lc at 1. rewrite app_assoc.
    eapply runs_weaken; [apply write_packet_runs| |intros; now apply sent_more]. intros _ w1 (E1 & S1 & B1 & D1).
    rewrite <- E1, Z.ltb_irrefl. specialize (D1 ltac:(rewrite <- Lc; easy)).
    assert (Eb : back MAX_PAYLOAD (back offset payload) = back (offset + MAX_PAYLOAD) payload).
    { unfold back, MAX_PAYLOAD in *. rewrite drop_drop. f_equal. lia. }
    rewrite Eb, <- S1 in Hfr. destruct (Z.eqb_spec (offset + MAX_PAYLOAD) (len payload)) as [E|E].
    + apply framed_chunk in Hfr. rewrite back_all in Hfr by lia. destruct Hfr as [-> ->]. cbn [len length Z.of_nat Z.ltb] in *.
      apply runs_bind, runs_get, runs_bind, extend_buffer_runs. intros w2 E2 S2 B2. apply advance_runs. intros w3 E3 S3 B3.
      rewrite E3, E2, S3, S2, B3, B2, D1. split; [unfold packet; now rewrite app_nil_r|]. split; [easy|]. now rewrite len_app, len_nil, len_app, len_to_le.
    + apply IH; [..|easy]; unfold MAX_PAYLOAD in *; lia.
Qed.

Lemma write_payload_runs payload w bs after : framed (writer_sequence w) payload bs after ->
  runs (write_payload payload) w
    (fun _ w' => wire w' = wire w ++ bs /\ writer_sequence w' = after /\ len (writer_buffer w') < WRITE_BUFFER_HIGH_WATER)
    (fun _ w' => sent_part (wire w ++ bs) w').
Proof.
  intros Hf. apply write_payload_loop_runs; [pose proof (len_nonneg payload); lia|unfold len; lia|easy].
Qed.

Lemma flush_runs w :
  runs flush w
    (fun _ w' => written (writer_inner w') = wire w /\ writer_sequence w' = writer_sequence w /\ writer_buffer w' = [])
    (fun _ w' => sent_part (wire w) w').
Proof.
  unfold flush. apply runs_bind. eapply runs_weaken; [apply write_buffered_runs| |easy]. intros _ w1 (E1 & S1 & B1).
  eapply runs_weaken; [now apply write_all_runs| |].
  - cbn. intros _ w2 (E2 & S2 & B2). unfold wire in E2 at 1. rewrite B2, !app_nil_r in E2. now rewrite E2, E1, S2, S1.
  - cbn. intros e w2. now rewrite app_nil_r, E1.
Qed.

(** ** Reading keeps the mode, whatever the stream does *)

Definition keeps_mode {A} (m : Io PacketReader A) : Prop := forall r, reader_read_ahead (snd (m r)) = reader_read_ahead r.

Lemma keeps_mode_bind {A B} (m : Io PacketReader A) (f : A -> Io PacketReader B) :
  keeps_mode m -> (forall a, keeps_mode (f a)) -> keeps_mode (m ≫= f).
Proof.
  intros Hm Hf r. unfold mbind, Io_bind. specialize (Hm r). destruct (m r) as [[a|e] r']; cbn in *; [|easy]. now rewrite Hf.
Qed.

Lemma fill_mode : keeps_mode fill.
Proof. intros r. unfold fill. cbv zeta. now destruct (read _ (reader_inner r)) as [[bs|e] inner]. Qed.

Lemma read_exact_primed_loop_mode fuel need : forall filled, keeps_mode (read_exact_primed_loop fuel need filled).
Proof.
  induction fuel as [|fuel IH]; intros filled r; cbn [read_exact_primed_loop]; [easy|]. destruct (len filled <? need); [|easy].
  destruct (_ || _); [now destruct (read_exact _ (reader_inner r)) as [[bs|e] inner]|].
  apply keeps_mode_bind; [apply fill_mode|]. intros arrived r'. destruct (arrived =? 0); [easy|]. unfold take_buffered. now rewrite IH.
Qed.

Lemma read_exact_primed_mode need : keeps_mode (read_exact_primed need).
Proof. intros r. unfold read_exact_primed, take_buffered. now rewrite read_exact_primed_loop_mode. Qed.

Lemma next_payload_loop_mode fuel : forall payload, keeps_mode (next_payload_loop fuel payload).
Proof.
  induction fuel as [|fuel IH]; intros payload r; cbn [next_payload_loop]; [easy|]. pose proof (read_exact_primed_mode 4 r) as Hm.
  destruct (read_exact_primed 4 r) as [[header|e] r1]; cbn [snd] in Hm.
  - rewrite <- Hm. set (r2 := reader_set_sequence _ r1). change (reader_read_ahead r1) with (reader_read_ahead r2).
    apply keeps_mode_bind; [apply read_exact_primed_mode|]. intros body r3. destruct (header_length header <? MAX_PAYLOAD); [easy|apply IH].
  - destruct (is_eof e); [|easy]. now destruct payload.
Qed.

Lemma next_payload_mode : keeps_mode next_payload.
Proof. intros r. apply next_payload_loop_mode. Qed.

(** ** Lemmas on length-encoded values *)

Lemma put_length_encoded_integer_app output value :
  put_length_encoded_integer output value = output ++ put_length_encoded_integer [] value.
Proof. unfold put_length_encoded_integer. now repeat case_match. Qed.

Lemma put_length_encoded_bytes_app output value :
  put_length_encoded_bytes output value = output ++ put_length_encoded_bytes [] value.
Proof. unfold put_length_encoded_bytes. now rewrite put_length_encoded_integer_app, app_assoc. Qed.

Lemma get_range_tail {A} (x : A) (l post : list A) e : e = 1 + len l -> get_range (x :: l ++ post) 1 e = Some l.
Proof. intros ->. apply (get_range_app [x] l post); easy. Qed.

Lemma length_encoded_integer_put value rest : is_u64 value = true ->
  length_encoded_integer (put_length_encoded_integer [] value ++ rest) =
    Some (Some value, len (put_length_encoded_integer [] value)) /\
  1 <= len (put_length_encoded_integer [] value) <= 9.
Proof.
  intros Hv%in_unsigned_spec. unfold put_length_encoded_integer.
  assert (W : forall n tag bytes, byte.unsigned tag = n -> 251 < n -> len bytes <= 8 ->
    length_encoded_integer (tag :: bytes ++ rest) =
      (if n =? 252 then match get_range (tag :: bytes ++ rest) 1 3 with Some raw => Some (Some (from_le raw), 3) | None => None end
       else if n =? 253 then match get_range (tag :: bytes ++ rest) 1 4 with Some raw => Some (Some (from_le raw), 4) | None => None end
       else match get_range (tag :: bytes ++ rest) 1 9 with Some raw => Some (Some (from_le raw), 9) | None => None end)).
  { intros n tag bytes <- Hn _. cbn [length_encoded_integer app]. cbv zeta.
    rewrite (proj2 (Z.eqb_neq (byte.unsigned tag) 251)), (proj2 (Z.leb_gt (byte.unsigned tag) 250)) by lia. reflexivity. }
  destruct (Z.leb_spec value 250); [|destruct (Z.leb_spec value 65535); [|destruct (Z.leb_spec value 16777215)]].
  - cbn [app length_encoded_integer]. cbv zeta. rewrite byte_unsigned_of by lia.
    rewrite (proj2 (Z.eqb_neq value 251)), (proj2 (Z.leb_le value 250)) by lia. easy.
  - cbn [app]. rewrite (W 252) by (easy || (rewrite len_to_le; lia)). cbn [Z.eqb Pos.eqb].
    rewrite get_range_tail, from_to_le, Z.mod_small by (lia || now rewrite len_to_le). now rewrite len_cons, len_to_le.
  - cbn [app]. rewrite (W 253) by (easy || (rewrite len_to_le; lia)). cbn [Z.eqb Pos.eqb].
    rewrite get_range_tail, from_to_le, Z.mod_small by (lia || now rewrite len_to_le). now rewrite len_cons, len_to_le.
  - cbn [app]. rewrite (W 254) by (easy || (rewrite len_to_le; lia)). cbn [Z.eqb Pos.eqb].
    rewrite get_range_tail, from_to_le, Z.mod_small by (lia || now rewrite len_to_le). now rewrite len_cons, len_to_le.
Qed.

Lemma length_encoded_bytes_put value rest : len value < 2 ^ 63 ->
  length_encoded_bytes (put_length_encoded_bytes [] value ++ rest) = Some (Some value, len (put_length_encoded_bytes [] value)).
Proof.
  intros Hv. unfold length_encoded_bytes, put_length_encoded_bytes. rewrite <- app_assoc. pose proof (len_nonneg value).
  destruct (length_encoded_integer_put (len value) (value ++ rest)) as [-> Hc].
  { apply in_unsigned_spec. lia. }
  set (k := put_length_encoded_integer [] (len value)) in *. rewrite len_app.
  replace (wrap_add 64 (len k) (len value)) with (len k + len value) by (unfold wrap_add; rewrite Z.mod_small; lia).
  now rewrite get_range_app.
Qed.

(** What is read is a part of the input with the length announced; a sum that wraps reads nothing. *)
Lemma length_encoded_integer_bounds bytes v n : length_encoded_integer bytes = Some (v, n) ->
  1 <= n <= 9 /\ n <= len bytes /\ match v with Some v => 0 <= v < 2 ^ 64 | None => True end.
Proof.
  destruct bytes as [|b bytes]; [easy|]. cbn [length_encoded_integer]. cbv zeta.
  assert (G : forall e o, 2 <= e <= 9 -> match get_range (b :: bytes) 1 e with Some raw => Some (Some (from_le raw), e) | None => None end = o ->
    forall v n, o = Some (v, n) -> 1 <= n <= 9 /\ n <= len (b :: bytes) /\ match v with Some v => 0 <= v < 2 ^ 64 | None => True end).
  { intros e o He <- v' n'. destruct (get_range _ _ _) as [raw|] eqn:E; [|easy]. intros [= <- <-].
    apply get_range_Some in E as (pre & post & E & Lp & Lr). split; [lia|].
    split; [rewrite E, !len_app; pose proof (len_nonneg post); lia|]. pose proof (from_le_range raw).
    assert (2 ^ (8 * len raw) <= 2 ^ 64) by (apply Z.pow_le_mono_r; lia). lia. }
  pose proof (byte.unsigned_range b). pose proof (len_nonneg bytes).
  destruct (Z.eqb_spec (byte.unsigned b) 251); [intros [= <- <-]; rewrite len_cons; repeat split; lia|].
  destruct (Z.leb_spec (byte.unsigned b) 250); [intros [= <- <-]; rewrite len_cons; repeat split; lia|].
  destruct (byte.unsigned b =? 252); [now apply (G 3)|]. destruct (byte.unsigned b =? 253); [now apply (G 4)|now apply (G 9)].
Qed.

Lemma length_encoded_bytes_sound bytes value n : length_encoded_bytes bytes = Some (Some value, n) ->
  exists prefix rest, bytes = prefix ++ value ++ rest /\ n = len prefix + len value /\
    length_encoded_integer bytes = Some (Some (len value), len prefix).
Proof.
  unfold length_encoded_bytes. destruct (length_encoded_integer bytes) as [[[v|] c]|] eqn:E; try easy.
  destruct (length_encoded_integer_bounds _ _ _ E) as (Hc & Hl & Hv).
  destruct (get_range _ _ _) as [x|] eqn:G; [|easy]. intros [= -> <-].
  apply get_range_Some in G as (pre & post & G & Lp & Lx). pose proof (len_nonneg value).
  assert (W : wrap_add 64 c v = c + v).
  { unfold wrap_add in *. destruct (Z.lt_ge_cases (c + v) (2 ^ 64)); [now apply Z.mod_small; lia|exfalso].
    assert ((c + v) mod 2 ^ 64 = c + v - 2 ^ 64); [|lia]. symmetry. apply (Z.mod_unique _ _ 1); lia. }
  rewrite W in *. exists pre, post. split; [easy|]. split; [lia|]. do 2 f_equal; [f_equal; lia|easy].
Qed.

(** ** Payloads written and read *)

Fixpoint write_payloads (payloads : list (list byte)) : Io PacketWriter unit :=
  match payloads with
  | [] => mret tt
  | payload :: payloads => _ ← write_payload payload; write_payloads payloads
  end.

Lemma framed_all_total sequence payloads : exists bs after, framed_all sequence payloads bs after.
Proof.
  revert sequence; induction payloads as [|p payloads IH]; intros sequence; [eexists _, _; apply framed_none|].
  destruct (framed_total (S (length p)) sequence p) as (bs & middle & Hf); [lia|]. destruct (IH middle) as (bss & after & Ha).
  eexists _, _. exact (framed_cons _ _ _ _ _ _ _ Hf Ha).
Qed.

Lemma write_payloads_runs sequence payloads bs after : framed_all sequence payloads bs after -> forall w, writer_sequence w = sequence ->
  runs (write_payloads payloads) w
    (fun _ w' => wire w' = wire w ++ bs /\ writer_sequence w' = after) (fun _ w' => sent_part (wire w ++ bs) w').
Proof.
  induction 1 as [sequence|sequence payload bs middle payloads bss after Hf _ IH]; intros w Eq.
  { apply runs_ret. now rewrite app_nil_r. }
  cbn [write_payloads]. apply runs_bind. rewrite app_assoc. rewrite <- Eq in Hf.
  eapply runs_weaken; [apply (write_payload_runs _ _ _ _ Hf)| |intros; now apply sent_more]. intros _ w1 (E1 & S1 & _).
  rewrite <- E1. now apply IH.
Qed.

(** C17. The payloads a writer sends are the payloads a reader gets, in order and whole, and
    then the close: whatever their sizes, split at the largest packet or not, however the
    bytes arrive, with or without reading ahead, and whatever part of them was already
    held.  Both sides end at the same sequence number. *)
Theorem packets_roundtrip payloads plan w w' r :
  write_payloads payloads (writer_new {| written := []; acceptances := plan |}) = (Ok tt, w) -> flush w = (Ok tt, w') ->
  reader_ok r -> steady (reader_inner r) -> reader_sequence r = 0 -> pending r = written (writer_inner w') ->
  exists r', read_payloads (length payloads) r = (Ok (map Some payloads), r') /\
    fst (next_payload r') = Ok None /\ reader_sequence r' = writer_sequence w'.
Proof.
  intros Ew Ef Hr Hs Eq Ep. destruct (framed_all_total 0 payloads) as (bs & after & Ha).
  destruct (runs_ok _ _ _ _ _ _ (write_payloads_runs _ _ _ _ Ha (writer_new {| written := []; acceptances := plan |}) eq_refl) Ew) as [E1 S1].
  destruct (runs_ok _ _ _ _ _ _ (flush_runs w) Ef) as (E2 & S2 & _). rewrite E2, E1 in Ep. cbn in Ep.
  rewrite <- (app_nil_r bs) in Ep. destruct (framed_all_read _ _ _ _ Ha ltac:(lia) r [] Hr Hs Eq Ep) as (r1 & E3 & Hr1 & Hs1 & Ep1 & Eq1).
  exists r1. split; [easy|]. split; [|congruence].
  destruct (next_payload_joins r1 Closed Hr1 Hs1) as (r2 & E4 & _); [rewrite Ep1; now apply joins_closed|]. now rewrite E4.
Qed.

Definition example_reader : PacketReader :=
  prime [byte.of_Z 2; byte.of_Z 0] (set_read_ahead true
    (reader_new {| incoming := map byte.of_Z [0; 0; 7; 8; 0; 0; 0; 1]; arrivals := [Arrives 0; Arrives 2] |})).

Lemma packets_roundtrip_witness : exists r',
  read_payloads 2 example_reader = (Ok [Some (map byte.of_Z [7; 8]); Some []], r') /\ fst (next_payload r') = Ok None /\ reader_sequence r' = 2.
Proof.
  apply (packets_roundtrip [map byte.of_Z [7; 8]; []] [Accepts]
    {| writer_inner := {| written := []; acceptances := [Accepts] |}; writer_sequence := 2; writer_buffer := map byte.of_Z [2; 0; 0; 0; 7; 8; 0; 0; 0; 1] |}
    {| writer_inner := {| written := map byte.of_Z [2; 0; 0; 0; 7; 8; 0; 0; 0; 1]; acceptances := [] |}; writer_sequence := 2; writer_buffer := [] |}).
  - vm_compute. reflexivity.
  - vm_compute. reflexivity.
  - vm_compute. intuition discriminate.
  - repeat constructor.
  - reflexivity.
  - vm_compute. reflexivity.
Defined.

(** What [next_payload] gives depends only on the bytes that come, never on how they
    arrive or on reading ahead: the payload at their front joined from its packets, the
    close, or the error of a stream cut inside a packet; and some case always applies. *)
Theorem payload_read_exactly r : reader_ok r -> steady (reader_inner r) ->
  (exists o, joins [] (pending r) o) /\
  forall o, joins [] (pending r) o -> exists r', next_payload r = (front_result o, r') /\ reader_ok r' /\ front_leaves o r'.
Proof.
  intros Hr Hs. split; [apply (joins_total (S (length (pending r)))); lia|].
  intros o Ho. destruct (next_payload_joins r o Hr Hs Ho) as (r' & E & Hr' & _ & _ & Hl & _). now exists r'.
Qed.

Lemma payload_read_exactly_witness :
  exists r', next_payload example_reader = (Ok (Some (map byte.of_Z [7; 8])), r') /\ reader_ok r' /\
    (pending r' = map byte.of_Z [0; 0; 0; 1] /\ reader_sequence r' = 1).
Proof.
  destruct (payload_read_exactly example_reader) as [_ P].
  - vm_compute. intuition discriminate.
  - repeat constructor.
  - apply (P (Payload (map byte.of_Z [7; 8]) 1 (map byte.of_Z [0; 0; 0; 1]))).
    apply (joins_last [] 0 (map byte.of_Z [7; 8]) (map byte.of_Z [0; 0; 0; 1])); vm_compute; intuition discriminate.
Defined.

(** Before reading ahead is allowed a reader takes no byte past the payload it returns, so
    the stream handed back for a TLS upgrade starts with the next protocol's first byte. *)
Theorem upgrade_loses_nothing r payload sequence rest :
  reader_ok r -> steady (reader_inner r) -> reader_read_ahead r = false -> has_buffered r = false ->
  joins [] (pending r) (Payload payload sequence rest) ->
  exists r' t, next_payload r = (Ok (Some payload), r') /\ has_buffered r' = false /\
    reader_into_inner r' = (t, sequence) /\ incoming t = rest.
Proof.
  intros Hr Hs Ha Hb Hj. destruct (next_payload_joins r _ Hr Hs Hj) as (r' & E & Hr' & _ & _ & [Ep Eq] & Hbuf).
  rewrite has_buffered_spec in Hb by easy. apply negb_false_iff, Z.eqb_eq, len_zero in Hb. specialize (Hbuf Ha Hb).
  exists r', (reader_inner r'). split; [easy|]. split; [now rewrite has_buffered_spec, Hbuf by easy|].
  unfold reader_into_inner. split; [now rewrite Eq|]. unfold pending in Ep. now rewrite Hbuf in Ep.
Qed.

Lemma upgrade_loses_nothing_witness : exists r' t,
  next_payload (reader_new {| incoming := map byte.of_Z [1; 0; 0; 1; 9; 22; 3]; arrivals := [] |}) = (Ok (Some [byte.of_Z 9]), r') /\
  has_buffered r' = false /\ reader_into_inner r' = (t, 2) /\ incoming t = map byte.of_Z [22; 3].
Proof.
  apply (upgrade_loses_nothing (reader_new {| incoming := map byte.of_Z [1; 0; 0; 1; 9; 22; 3]; arrivals := [] |})).
  - vm_compute. intuition discriminate.
  - constructor.
  - reflexivity.
  - reflexivity.
  - apply (joins_last [] 1 [byte.of_Z 9] (map byte.of_Z [22; 3])); vm_compute; intuition discriminate.
Defined.

(** Waiting for a packet keeps every byte, also when the transport fails, and answers
    whether one is there; an answer of [true] means its first byte is held. *)
Theorem waiting_consumes_nothing r : reader_ok r ->
  let '(answer, r') := wait_for_packet r in
  reader_ok r' /\ pending r' = pending r /\ reader_sequence r' = reader_sequence r /\
  forall b, answer = Ok b -> b = negb (len (pending r) =? 0) /\ b = has_buffered r'.
Proof.
  intros Hr. pose proof (wait_for_packet_spec r Hr) as H. destruct (wait_for_packet r) as [answer r'].
  destruct H as (H1 & [H2 _] & H3 & H4). auto.
Qed.

Lemma waiting_consumes_nothing_witness :
  let '(answer, r') := wait_for_packet (reader_new {| incoming := [byte.of_Z 1]; arrivals := [] |}) in
  reader_ok r' /\ pending r' = [byte.of_Z 1] /\ reader_sequence r' = 0 /\ forall b, answer = Ok b -> b = true /\ b = has_buffered r'.
Proof. apply (waiting_consumes_nothing (reader_new {| incoming := [byte.of_Z 1]; arrivals := [] |})). vm_compute. intuition discriminate. Defined.

(** A stream that ends inside a header reads as a clean close, the same as one that ends
    between packets, although the documentation says a truncated header is reported. *)
Theorem cut_header_reads_as_close r : reader_ok r -> steady (reader_inner r) -> len (pending r) < 4 ->
  exists r', next_payload r = (Ok None, r') /\ pending r' = [].
Proof.
  intros Hr Hs Hl. destruct (next_payload_joins r Closed Hr Hs) as (r' & E & _ & _ & _ & Hp & _); [now apply joins_closed|]. now exists r'.
Qed.

Lemma cut_header_reads_as_close_witness : exists r',
  next_payload (reader_new {| incoming := map byte.of_Z [9; 0; 0]; arrivals := [] |}) = (Ok None, r') /\ pending r' = [].
Proof.
  apply (cut_header_reads_as_close (reader_new {| incoming := map byte.of_Z [9; 0; 0]; arrivals := [] |})).
  - vm_compute. intuition discriminate.
  - constructor.
  - reflexivity.
Defined.

(** Writing a payload sends its packets: when every write is accepted they follow what was
    written before, the rest of a response waits in a buffer below the high-water mark, and
    when a write fails the peer has received nothing but a part of them. *)
Theorem payload_written_in_packets payload w : exists bs after, framed (writer_sequence w) payload bs after /\
  match write_payload payload w with
  | (Ok _, w') => wire w' = wire w ++ bs /\ writer_sequence w' = after /\ len (writer_buffer w') < WRITE_BUFFER_HIGH_WATER
  | (Err _, w') => written (writer_inner w') `prefix_of` wire w ++ bs
  end.
Proof.
  destruct (framed_total (S (length payload)) (writer_sequence w) payload) as (bs & after & Hf); [lia|]. exists bs, after.
  split; [easy|]. apply (write_payload_runs payload w bs after Hf).
Qed.

(** Length-encoded values read back: an integer of any width and a byte string of any
    length a slice can have, with the bytes consumed; and a byte string that is read is a
    part of the input of the length its prefix says, also when the sum of lengths wraps. *)
Theorem length_encoded_exact :
  (forall value rest, is_u64 value = true ->
     length_encoded_integer (put_length_encoded_integer [] value ++ rest) = Some (Some value, len (put_length_encoded_integer [] value))) /\
  (forall value rest, len value < 2 ^ 63 ->
     length_encoded_bytes (put_length_encoded_bytes [] value ++ rest) = Some (Some value, len (put_length_encoded_bytes [] value))) /\
  (forall bytes value n, length_encoded_bytes bytes = Some (Some value, n) ->
     exists prefix rest, bytes = prefix ++ value ++ rest /\ n = len prefix + len value /\
       length_encoded_integer bytes = Some (Some (len value), len prefix)).
Proof.
  split; [intros; now apply length_encoded_integer_put|]. split; [apply length_encoded_bytes_put|apply length_encoded_bytes_sound].
Qed.

Lemma length_encoded_exact_witness :
  length_encoded_integer (put_length_encoded_integer [] 300 ++ []) = Some (Some 300, 3).
Proof. destruct length_encoded_exact as [P _]. apply (P 300 []). reflexivity. Defined.
