(* ===== verification/Messages.v ===== *)
(** * Messages of the client protocol ([src/crates/pintail-protocol/src])

    Flags, column types and error codes ([types.rs]), the handshake and its password
    checks ([handshake.rs]), commands ([command.rs]) and the packets of results
    ([resultset.rs]), as payloads.  The other side of each exchange is written down as a
    client reads or writes it by the documented layout: [read_greeting],
    [client_response], [command_bytes], [read_text_row], [read_binary_row],
    [read_column] and [client_sees]; the theorems state that the two sides agree.  The
    digests are those of the sha1 and sha2 crates, a class here. *)

From Stdlib Require Import ZArith Lia String.
From stdpp Require Import prelude list.
From coqutil Require Import Byte.
From S2P Require Import Prelude.
From S2P Require Import Types.
From S2P Require Import Text.
From S2P Require Import Packets.

#[local] Open Scope Z_scope.

(** ** Flags *)

Definition CapabilityFlags : Type := Z.

Definition CLIENT_LONG_PASSWORD : CapabilityFlags := 0x00000001.
Definition CLIENT_LONG_FLAG : CapabilityFlags := 0x00000004.
Definition CLIENT_CONNECT_WITH_DB : CapabilityFlags := 0x00000008.
Definition CLIENT_IGNORE_SPACE : CapabilityFlags := 0x00000100.
Definition CLIENT_PROTOCOL_41 : CapabilityFlags := 0x00000200.
Definition CLIENT_SSL : CapabilityFlags := 0x00000800.
Definition CLIENT_SECURE_CONNECTION : CapabilityFlags := 0x00008000.
Definition CLIENT_MULTI_STATEMENTS : CapabilityFlags := 0x00010000.
Definition CLIENT_MULTI_RESULTS : CapabilityFlags := 0x00020000.
Definition CLIENT_PLUGIN_AUTH : CapabilityFlags := 0x00080000.
Definition CLIENT_CONNECT_ATTRS : CapabilityFlags := 0x00100000.
Definition CLIENT_PLUGIN_AUTH_LENENC_CLIENT_DATA : CapabilityFlags := 0x00200000.
Definition CLIENT_SESSION_TRACK : CapabilityFlags := 0x00800000.
Definition CLIENT_DEPRECATE_EOF : CapabilityFlags := 0x01000000.

(** [contains] of the flag types. *)
Definition contains (flags other : Z) : bool := Z.land flags other =? other.

Definition StatusFlags : Type := Z.

Definition SERVER_STATUS_IN_TRANS : StatusFlags := 0x0001.
Definition SERVER_STATUS_AUTOCOMMIT : StatusFlags := 0x0002.
Definition SERVER_MORE_RESULTS_EXISTS : StatusFlags := 0x0008.
Definition SERVER_SESSION_STATE_CHANGED : StatusFlags := 0x4000.

(** ** Columns *)

Inductive ColumnType : Type :=
| MysqlTypeNewdecimal | MysqlTypeEnum | MysqlTypeTiny | MysqlTypeShort | MysqlTypeLong
| MysqlTypeFloat | MysqlTypeDouble | MysqlTypeNull | MysqlTypeTimestamp | MysqlTypeLonglong
| MysqlTypeDate | MysqlTypeTime | MysqlTypeDatetime | MysqlTypeYear | MysqlTypeVarchar
| MysqlTypeBit | MysqlTypeJson | MysqlTypeVarString | MysqlTypeString | MysqlTypeBlob
| MysqlTypeLongBlob | MysqlTypeMediumBlob | MysqlTypeGeometry.

(** [coltype as u8]. *)
Definition column_type_tag (t : ColumnType) : Z :=
  match t with
  | MysqlTypeNewdecimal => 0xf6 | MysqlTypeEnum => 0xf7 | MysqlTypeTiny => 0x01 | MysqlTypeShort => 0x02
  | MysqlTypeLong => 0x03 | MysqlTypeFloat => 0x04 | MysqlTypeDouble => 0x05 | MysqlTypeNull => 0x06
  | MysqlTypeTimestamp => 0x07 | MysqlTypeLonglong => 0x08 | MysqlTypeDate => 0x0a | MysqlTypeTime => 0x0b
  | MysqlTypeDatetime => 0x0c | MysqlTypeYear => 0x0d | MysqlTypeVarchar => 0x0f | MysqlTypeBit => 0x10
  | MysqlTypeJson => 0xf5 | MysqlTypeVarString => 0xfd | MysqlTypeString => 0xfe | MysqlTypeBlob => 0xfc
  | MysqlTypeLongBlob => 0xfb | MysqlTypeMediumBlob => 0xfa | MysqlTypeGeometry => 0xff
  end.

Definition ColumnFlags : Type := Z.

Definition NOT_NULL_FLAG : ColumnFlags := 0x0001.
Definition PRI_KEY_FLAG : ColumnFlags := 0x0002.
Definition UNIQUE_KEY_FLAG : ColumnFlags := 0x0004.
Definition UNSIGNED_FLAG : ColumnFlags := 0x0020.
Definition BINARY_FLAG : ColumnFlags := 0x0080.
Definition AUTO_INCREMENT_FLAG : ColumnFlags := 0x0200.

(** [ColumnFlags::set]; [!flag] on sixteen bits. *)
Definition column_flags_set (flags flag : ColumnFlags) (value : bool) : ColumnFlags :=
  if value then Z.lor flags flag else Z.land flags (Z.lxor flag 0xffff).

(** [Column] of the protocol. *)
Record ResultColumn : Type := {
  rc_schema : str;
  rc_table : str;
  rc_org_table : str;
  rc_column : str;
  rc_org_column : str;
  rc_encoded_names : option (list (list byte));
  rc_column_length : Z;
  rc_character_set : Z;
  rc_decimals : Z;
  rc_coltype : ColumnType;
  rc_colflags : ColumnFlags
}.

(** [names] in protocol order. *)
Definition column_names (c : ResultColumn) : list str :=
  [rc_schema c; rc_table c; rc_org_table c; rc_column c; rc_org_column c].

Definition encode_names (encode : str -> list byte) (c : ResultColumn) : ResultColumn := {|
  rc_schema := rc_schema c; rc_table := rc_table c; rc_org_table := rc_org_table c;
  rc_column := rc_column c; rc_org_column := rc_org_column c;
  rc_encoded_names := Some (map encode (column_names c));
  rc_column_length := rc_column_length c; rc_character_set := rc_character_set c;
  rc_decimals := rc_decimals c; rc_coltype := rc_coltype c; rc_colflags := rc_colflags c |}.

Definition result_column_new (column : str) (coltype : ColumnType) : ResultColumn := {|
  rc_schema := []; rc_table := []; rc_org_table := []; rc_column := column; rc_org_column := [];
  rc_encoded_names := None; rc_column_length := 0; rc_character_set := 63; rc_decimals := 0;
  rc_coltype := coltype; rc_colflags := 0 |}.

(** ** Error codes *)

Inductive ErrorKind : Type :=
| ErAccessDeniedError | ErBadDbError | ErParseError | ErNoSuchTable | ErSyntaxError | ErAborting
| ErTooManyRows | ErWrongNumberOfColumnsInSelect | ErQueryInterrupted | ErUnknownComError
| ErOptionPreventsStatement | ErDbaccessDeniedError | ErWrongArguments | ErUnknownStmtHandler
| ErConCountError | ErUnknownError | ErNonUniqError | ErBadFieldError | ErWrongFieldWithGroup
| ErDataOutOfRange | ErWrongParamcountToNativeFct | ErInvalidGroupFuncUse | ErTableExistsError
| ErDupEntry | ErBadNullError | ErDataTooLong | ErMaxPreparedStmtCountReached | ErSubqueryNo1Row
| ErInvalidJsonPath | ErInvalidBitwiseOperandsSize | ErInvalidBitwiseAggregateOperandsSize
| ErCannotConvertString | ErCantAggregate2Collations | ErCantAggregateNCollations | ErNotSupportedYet
| ErGisDifferentSrids | ErGisInvalidData | ErUnexpectedGeometryType | ErLongitudeOutOfRange
| ErLatitudeOutOfRange | ErOnlyDefinedForGeographic | ErVariableIsReadonly.

(** [ErrorKind::code]. *)
Definition error_code (kind : ErrorKind) : Z :=
  match kind with
  | ErAccessDeniedError => 1045 | ErBadDbError => 1049 | ErParseError => 1064 | ErNoSuchTable => 1146
  | ErSyntaxError => 1149 | ErAborting => 1152 | ErTooManyRows => 1172
  | ErWrongNumberOfColumnsInSelect => 1222 | ErQueryInterrupted => 1317 | ErUnknownComError => 1047
  | ErOptionPreventsStatement => 1290 | ErDbaccessDeniedError => 1044 | ErWrongArguments => 1210
  | ErUnknownStmtHandler => 1243 | ErConCountError => 1040 | ErUnknownError => 1105
  | ErNonUniqError => 1052 | ErBadFieldError => 1054 | ErWrongFieldWithGroup => 1055
  | ErDataOutOfRange => 1690 | ErWrongParamcountToNativeFct => 1582 | ErInvalidGroupFuncUse => 1111
  | ErTableExistsError => 1050 | ErDupEntry => 1062 | ErBadNullError => 1048 | ErDataTooLong => 1406
  | ErMaxPreparedStmtCountReached => 1461 | ErSubqueryNo1Row => 1242 | ErInvalidJsonPath => 3143
  | ErInvalidBitwiseOperandsSize => 3513 | ErInvalidBitwiseAggregateOperandsSize => 3514
  | ErCannotConvertString => 3854 | ErCantAggregate2Collations => 1267
  | ErCantAggregateNCollations => 1271 | ErNotSupportedYet => 1235 | ErGisDifferentSrids => 3033
  | ErGisInvalidData => 3037 | ErUnexpectedGeometryType => 3516 | ErLongitudeOutOfRange => 3616
  | ErLatitudeOutOfRange => 3617 | ErOnlyDefinedForGeographic => 3726 | ErVariableIsReadonly => 1621
  end.

Definition sql_state (kind : ErrorKind) : list byte :=
  match kind with
  | ErAccessDeniedError | ErDbaccessDeniedError => ascii "28000"
  | ErBadDbError | ErParseError | ErWrongParamcountToNativeFct | ErSyntaxError
  | ErOptionPreventsStatement | ErWrongFieldWithGroup | ErMaxPreparedStmtCountReached
  | ErInvalidJsonPath | ErNotSupportedYet | ErTooManyRows => ascii "42000"
  | ErGisInvalidData => ascii "22023"
  | ErUnexpectedGeometryType => ascii "22S01"
  | ErLongitudeOutOfRange | ErLatitudeOutOfRange => ascii "22S03"
  | ErOnlyDefinedForGeographic => ascii "22S00"
  | ErNoSuchTable => ascii "42S02"
  | ErTableExistsError => ascii "42S01"
  | ErBadFieldError => ascii "42S22"
  | ErNonUniqError | ErDupEntry | ErBadNullError => ascii "23000"
  | ErDataOutOfRange => ascii "22003"
  | ErDataTooLong => ascii "22001"
  | ErSubqueryNo1Row | ErWrongNumberOfColumnsInSelect => ascii "21000"
  | ErAborting | ErUnknownComError => ascii "08S01"
  | ErConCountError => ascii "08004"
  | ErQueryInterrupted => ascii "70100"
  | ErWrongArguments | ErVariableIsReadonly | ErUnknownStmtHandler | ErUnknownError
  | ErInvalidGroupFuncUse | ErInvalidBitwiseOperandsSize | ErInvalidBitwiseAggregateOperandsSize
  | ErGisDifferentSrids | ErCantAggregate2Collations | ErCantAggregateNCollations
  | ErCannotConvertString => ascii "HY000"
  end.

(** ** The handshake *)

Definition SCRAMBLE_SIZE : Z := 20.

Record Handshake : Type := {
  hs_server_version : str;
  hs_connection_id : Z;
  hs_scramble : list byte;
  hs_capabilities : CapabilityFlags;
  hs_character_set : Z;
  hs_auth_plugin : str
}.

Definition zero : byte := byte.of_Z 0.

Definition handshake_encode (h : Handshake) : list byte :=
  let capabilities := to_le 4 (hs_capabilities h) in
  [byte.of_Z 10] ++ hs_server_version h ++ [zero]
  ++ to_le 4 (hs_connection_id h)
  ++ front 8 (hs_scramble h) ++ [zero]
  ++ front 2 capabilities ++ [byte.of_Z (hs_character_set h)]
  ++ map byte.of_Z [0x02; 0x00] ++ back 2 capabilities
  ++ [byte.of_Z (SCRAMBLE_SIZE + 1)] ++ replicate 10 zero
  ++ back 8 (hs_scramble h) ++ [zero]
  ++ hs_auth_plugin h ++ [zero].

Record HandshakeResponse : Type := {
  hr_capabilities : CapabilityFlags;
  hr_character_set : Z;
  hr_username : list byte;
  hr_auth_response : list byte;
  hr_database : option (list byte);
  hr_auth_plugin : option (list byte)
}.

(** [iter().position(|byte| *byte == 0)] with the bytes before it and those after: what a
    NUL-terminated string leaves. *)
Definition until_nul (bs : list byte) : option (list byte * list byte) := split_once (fun b => byte_eqb b zero) bs.

(** The bytes up to the first NUL, all of them when there is none. *)
Definition before_nul (bs : list byte) : list byte := match until_nul bs with Some (s, _) => s | None => bs end.

(** [payload.get(from..)]. *)
Definition get_from {A} (l : list A) (from : Z) : option (list A) := get_range l from (len l).

(** The auth response, length-encoded when the client said so, and the bytes consumed. *)
Definition parse_auth_response (capabilities : CapabilityFlags) (rest : list byte) : option (list byte * Z) :=
  if contains capabilities CLIENT_PLUGIN_AUTH_LENENC_CLIENT_DATA then
    '(value, consumed) ← length_encoded_bytes rest;
    Some (default [] value, consumed)
  else
    b ← head rest;
    let length := byte.unsigned b in
    value ← get_range rest 1 (1 + length);
    Some (value, 1 + length).

Definition handshake_response_parse (payload : list byte) : option HandshakeResponse :=
  raw ← get_range payload 0 4;
  let capabilities := from_le raw in
  cs ← payload !! 8%nat;
  rest ← get_from payload 32;
  '(username, rest) ← until_nul rest;
  '(auth_response, consumed) ← parse_auth_response capabilities rest;
  let rest := get_from rest consumed in
  '(database, rest) ←
    (if contains capabilities CLIENT_CONNECT_WITH_DB then
       rest ← rest;
       '(s, rest) ← until_nul rest;
       Some (Some s, Some rest)
     else Some (None, rest));
  let auth_plugin :=
    if contains capabilities CLIENT_PLUGIN_AUTH then rest ← rest; Some (before_nul rest) else None in
  Some {| hr_capabilities := capabilities; hr_character_set := byte.unsigned cs; hr_username := username;
          hr_auth_response := auth_response; hr_database := database; hr_auth_plugin := auth_plugin |}.

Definition is_ssl_request (payload : list byte) : bool :=
  (len payload <=? 32) &&
  match get_range payload 0 4 with Some raw => contains (from_le raw) CLIENT_SSL | None => false end.

Definition put_auth_response (output response : list byte) : list byte := put_length_encoded_bytes output response.

(** ** Passwords *)

(** The digests of the sha1 and sha2 crates; the only thing used of them is their size. *)
Class Digests : Type := {
  sha1 : list byte -> list byte;
  sha256 : list byte -> list byte;
  sha1_len : forall bs, len (sha1 bs) = 20;
  sha256_len : forall bs, len (sha256 bs) = 32
}.

Definition byte_xor (a b : byte) : byte := byte.of_Z (Z.lxor (byte.unsigned a) (byte.unsigned b)).

(** [zip] and [^]: as long as the shorter side. *)
Definition xor_bytes (a b : list byte) : list byte := zip_with byte_xor a b.

Definition verify_native_password `{Digests} (response scramble stored_double_sha1 : list byte) : bool :=
  if negb (len response =? SCRAMBLE_SIZE) || negb (len stored_double_sha1 =? SCRAMBLE_SIZE) then false
  else
    let mixed := sha1 (scramble ++ stored_double_sha1) in
    let recovered := xor_bytes response mixed in
    bytes_eqb (sha1 recovered) stored_double_sha1.

Definition verify_caching_sha2 `{Digests} (response scramble stored_double_sha256 : list byte) : bool :=
  if negb (len response =? 32) || negb (len stored_double_sha256 =? 32) then false
  else
    let mixed := sha256 (stored_double_sha256 ++ scramble) in
    let recovered := xor_bytes response mixed in
    bytes_eqb (sha256 recovered) stored_double_sha256.

(** ** Commands *)

Inductive Command : Type :=
| Query (sql : list byte)
| Prepare (sql : list byte)
| Execute (statement : Z) (body : list byte)
| SendLongData (statement parameter : Z) (data : list byte)
| CloseStatement (statement : Z)
| ResetStatement (statement : Z)
| InitDb (database : list byte)
| FieldList (body : list byte)
| SetOption (option : Z)
| Ping
| Quit
| ResetConnection
| ChangeUser (username auth_response database : list byte)
| Unknown (code : Z).

Definition parse_send_long_data (body : list byte) : option Command :=
  statement ← get_range body 0 4;
  parameter ← get_range body 4 6;
  Some (SendLongData (from_le statement) (from_le parameter) (default [] (get_from body 6))).

Definition parse_change_user (body : list byte) : option Command :=
  '(username, rest) ← until_nul body;
  '(auth_response, consumed) ← length_encoded_bytes rest;
  rest ← get_from rest consumed;
  Some (ChangeUser username (default [] auth_response) (before_nul rest)).

Definition command_parse (payload : list byte) : Command :=
  match payload with
  | [] => Unknown 0
  | b :: body =>
      let code := byte.unsigned b in
      let statement_handle := match get_range body 0 4 with Some raw => Some (from_le raw) | None => None end in
      if code =? 0x01 then Quit
      else if code =? 0x02 then InitDb body
      else if code =? 0x03 then Query body
      else if code =? 0x04 then FieldList body
      else if code =? 0x0e then Ping
      else if code =? 0x11 then default (Unknown code) (parse_change_user body)
      else if code =? 0x16 then Prepare body
      else if code =? 0x17 then
        match statement_handle with
        | Some statement => Execute statement (default [] (get_from body 4))
        | None => Unknown code
        end
      else if code =? 0x18 then default (Unknown code) (parse_send_long_data body)
      else if code =? 0x19 then match statement_handle with Some statement => CloseStatement statement | None => Unknown code end
      else if code =? 0x1a then match statement_handle with Some statement => ResetStatement statement | None => Unknown code end
      else if (code =? 0x1b) && (len body =? 2) then SetOption (from_le body)
      else if code =? 0x1f then ResetConnection
      else Unknown code
  end.

(** ** Packets of a result *)

Definition OK_HEADER : byte := byte.of_Z 0x00.
Definition EOF_HEADER : byte := byte.of_Z 0xfe.
Definition ERR_HEADER : byte := byte.of_Z 0xff.
Definition TEXT_NULL : byte := byte.of_Z 0xfb.

Record OkPacket : Type := {
  ok_affected_rows : Z;
  ok_last_insert_id : Z;
  ok_status : StatusFlags;
  ok_warnings : Z
}.

Definition ok_default : OkPacket := {| ok_affected_rows := 0; ok_last_insert_id := 0; ok_status := 0; ok_warnings := 0 |}.

Definition ok_with_status (status : StatusFlags) (packet : OkPacket) : OkPacket := {|
  ok_affected_rows := ok_affected_rows packet; ok_last_insert_id := ok_last_insert_id packet;
  ok_status := Z.lor (ok_status packet) status; ok_warnings := ok_warnings packet |}.

Definition encode_ok (packet : OkPacket) (info : str) : list byte :=
  let payload := put_length_encoded_integer [OK_HEADER] (ok_affected_rows packet) in
  let payload := put_length_encoded_integer payload (ok_last_insert_id packet) in
  payload ++ to_le 2 (ok_status packet) ++ to_le 2 (ok_warnings packet) ++ info.

(** One tracked system variable. *)
Definition session_change (state : list byte) (change : str * str) : list byte :=
  let data := put_length_encoded_bytes [] (fst change) in
  let data := put_length_encoded_bytes data (snd change) in
  put_length_encoded_bytes (state ++ [zero]) data.

Definition encode_ok_with_session (packet : OkPacket) (info : str) (capabilities : CapabilityFlags)
    (changes : list (str * str)) : list byte :=
  if negb (contains capabilities CLIENT_SESSION_TRACK) then encode_ok packet info
  else
    let packet := match changes with [] => packet | _ => ok_with_status SERVER_SESSION_STATE_CHANGED packet end in
    let payload := put_length_encoded_bytes (encode_ok packet []) info in
    match changes with
    | [] => payload
    | _ => put_length_encoded_bytes payload (foldl session_change [] changes)
    end.

Definition encode_error (kind : ErrorKind) (message : str) : list byte :=
  [ERR_HEADER] ++ to_le 2 (error_code kind) ++ ascii "#" ++ sql_state kind ++ message.

Definition encode_eof (capabilities : CapabilityFlags) (status : StatusFlags) (warnings : Z) : list byte :=
  if contains capabilities CLIENT_DEPRECATE_EOF then
    put_length_encoded_integer (put_length_encoded_integer [EOF_HEADER] 0) 0 ++ to_le 2 status ++ to_le 2 warnings
  else [EOF_HEADER] ++ to_le 2 warnings ++ to_le 2 status.

(** [encoded_names] has five entries when it is there, one for each name. *)
Definition wire_names (c : ResultColumn) : list (list byte) :=
  match rc_encoded_names c with Some encoded => encoded | None => column_names c end.

Definition encode_column_definition (c : ResultColumn) : list byte :=
  foldl put_length_encoded_bytes (put_length_encoded_bytes [] (ascii "def")) (wire_names c)
  ++ [byte.of_Z 0x0c]
  ++ to_le 2 (rc_character_set c) ++ to_le 4 (rc_column_length c)
  ++ [byte.of_Z (column_type_tag (rc_coltype c))] ++ to_le 2 (rc_colflags c)
  ++ [byte.of_Z (rc_decimals c)] ++ [zero; zero].

Record EncodedRows : Type := { er_bytes : list byte; er_ends : list Z }.

Definition rows_new : EncodedRows := {| er_bytes := []; er_ends := [] |}.
Definition rows_len (rows : EncodedRows) : Z := len (er_ends rows).
Definition rows_is_empty (rows : EncodedRows) : bool := match er_ends rows with [] => true | _ => false end.
Definition resident_bytes (rows : EncodedRows) : Z :=
  sat_add 64 (len (er_bytes rows)) (sat_mul 64 (len (er_ends rows)) 8).

(** The slices [iter] gives from [start]; an end before its start or past the buffer panics. *)
Fixpoint rows_from (bytes : list byte) (start : Z) (ends : list Z) : option (list (list byte)) :=
  match ends with
  | [] => Some []
  | end_ :: ends => row ← get_range bytes start end_; rows ← rows_from bytes end_ ends; Some (row :: rows)
  end.

Definition rows_iter (rows : EncodedRows) : option (list (list byte)) := rows_from (er_bytes rows) 0 (er_ends rows).

Definition push_bytes (bs : list byte) (rows : EncodedRows) : EncodedRows :=
  {| er_bytes := er_bytes rows ++ bs; er_ends := er_ends rows |}.

(** The row ends where the bytes are: [Drop] of [TextRow], and the end of a binary row. *)
Definition end_row (rows : EncodedRows) : EncodedRows :=
  {| er_bytes := er_bytes rows; er_ends := er_ends rows ++ [len (er_bytes rows)] |}.

(** A cell of a text row, as [TextRow] has a method for each. *)
Inductive TextCell : Type :=
| CellNull
| CellBytes (value : list byte)
| CellSigned (value : Z)
| CellUnsigned (value : Z).

Definition text_row_bytes (value : list byte) (rows : EncodedRows) : EncodedRows :=
  {| er_bytes := put_length_encoded_bytes (er_bytes rows) value; er_ends := er_ends rows |}.

(** The digits of a number into the back of a buffer of [room] bytes; [None] when they do
    not fit, a panic in the code. *)
Fixpoint digits_loop (room : nat) (value : Z) (written : list byte) : option (list byte) :=
  match room with
  | O => None
  | S room =>
      let written := digit_byte (value mod 10) :: written in
      let value := value / 10 in
      if value =? 0 then Some written else digits_loop room value written
  end.

Definition digits (value : Z) (negative : bool) : option (list byte) :=
  text ← digits_loop 21 value [];
  if negative then (if 21 <=? len text then None else Some (minus_byte :: text)) else Some text.

Definition text_cell (rows : EncodedRows) (cell : TextCell) : option EncodedRows :=
  match cell with
  | CellNull => Some (push_bytes [TEXT_NULL] rows)
  | CellBytes value => Some (text_row_bytes value rows)
  | CellSigned value => text ← digits (Z.abs value) (value <? 0); Some (text_row_bytes text rows)
  | CellUnsigned value => text ← digits value false; Some (text_row_bytes text rows)
  end.

Fixpoint text_cells (rows : EncodedRows) (cells : list TextCell) : option EncodedRows :=
  match cells with
  | [] => Some rows
  | cell :: cells => rows ← text_cell rows cell; text_cells rows cells
  end.

(** A row from [text_row] to the drop of its writer. *)
Definition text_row (cells : list TextCell) (rows : EncodedRows) : option EncodedRows :=
  rows ← text_cells rows cells; Some (end_row rows).

Definition null_bitmap_len (columns reserved_bits : Z) : Z := (columns + reserved_bits + 7) / 8.

Definition RESERVED_BITS : Z := 2.

(** [bytes[at] |= 1 << bit]. *)
Definition set_bit (bytes : list byte) (at_ bit : Z) : list byte :=
  alter (fun b => byte.of_Z (Z.lor (byte.unsigned b) (Z.shiftl 1 bit))) (Z.to_nat at_) bytes.

Definition push_binary_value (bitmap_start : Z) (st : Z * list byte) (value : option (list byte)) : Z * list byte :=
  let '(index, bytes) := st in
  (index + 1,
   match value with
   | None => let bit := index + RESERVED_BITS in set_bit bytes (bitmap_start + bit / 8) (bit mod 8)
   | Some bs => bytes ++ bs
   end).

Definition push_binary_row (values : list (option (list byte))) (rows : EncodedRows) : EncodedRows :=
  let bytes := er_bytes rows ++ [zero] in
  let bitmap_start := len bytes in
  let bytes := bytes ++ replicate (Z.to_nat (null_bitmap_len (len values) RESERVED_BITS)) zero in
  let '(_, bytes) := foldl (push_binary_value bitmap_start) (0, bytes) values in
  end_row {| er_bytes := bytes; er_ends := er_ends rows |}.

Definition parameter_null_flags (bitmap : list byte) (parameters : Z) : list bool :=
  map (fun index =>
         match bitmap !! Z.to_nat (Z.of_nat index / 8) with
         | Some b => negb (Z.land (byte.unsigned b) (Z.shiftl 1 (Z.of_nat index mod 8)) =? 0)
         | None => false
         end) (seq 0 (Z.to_nat parameters)).

(** ** The other side of the protocol *)

(** [n] bytes taken from the front. *)
Definition chop (n : Z) (bs : list byte) : option (list byte * list byte) :=
  if n <=? len bs then Some (front n bs, back n bs) else None.

(** A client reads the greeting by the layout of [HandshakeV10]: the scramble in two parts
    and the capabilities in two halves. *)
Definition read_greeting (bs : list byte) : option Handshake :=
  '(_, bs) ← chop 1 bs;
  '(version, bs) ← until_nul bs;
  '(id, bs) ← chop 4 bs;
  '(part1, bs) ← chop 8 bs;
  '(_, bs) ← chop 1 bs;
  '(low, bs) ← chop 2 bs;
  '(charset, bs) ← chop 1 bs;
  '(_, bs) ← chop 2 bs;
  '(high, bs) ← chop 2 bs;
  '(auth_len, bs) ← chop 1 bs;
  '(_, bs) ← chop 10 bs;
  '(part2, bs) ← chop (from_le auth_len - 8 - 1) bs;
  '(_, bs) ← chop 1 bs;
  '(plugin, _) ← until_nul bs;
  Some {| hs_server_version := version; hs_connection_id := from_le id; hs_scramble := part1 ++ part2;
          hs_capabilities := from_le (low ++ high); hs_character_set := from_le charset; hs_auth_plugin := plugin |}.

(** No NUL, as a terminated string needs. *)
Definition no_nul (bs : list byte) : bool := free (fun b => byte_eqb b zero) bs.

Definition handshake_wf (h : Handshake) : bool :=
  no_nul (hs_server_version h) && is_u32 (hs_connection_id h) && (len (hs_scramble h) =? SCRAMBLE_SIZE)
  && is_u32 (hs_capabilities h) && is_u8 (hs_character_set h) && no_nul (hs_auth_plugin h).

(** A client's answer by the layout of [HandshakeResponse41], [attributes] after it. *)
Definition client_response (r : HandshakeResponse) (max_packet reserved attributes : list byte) : list byte :=
  to_le 4 (hr_capabilities r) ++ max_packet ++ [byte.of_Z (hr_character_set r)] ++ reserved
  ++ hr_username r ++ [zero]
  ++ (if contains (hr_capabilities r) CLIENT_PLUGIN_AUTH_LENENC_CLIENT_DATA
      then put_length_encoded_bytes [] (hr_auth_response r)
      else [byte.of_Z (len (hr_auth_response r))] ++ hr_auth_response r)
  ++ match hr_database r with Some d => d ++ [zero] | None => [] end
  ++ match hr_auth_plugin r with Some p => p ++ [zero] | None => [] end
  ++ attributes.

Definition response_wf (r : HandshakeResponse) : bool :=
  is_u32 (hr_capabilities r) && is_u8 (hr_character_set r) && no_nul (hr_username r)
  && (if contains (hr_capabilities r) CLIENT_PLUGIN_AUTH_LENENC_CLIENT_DATA
      then len (hr_auth_response r) <? 2 ^ 63 else len (hr_auth_response r) <? 256)
  && eqb (contains (hr_capabilities r) CLIENT_CONNECT_WITH_DB)
         match hr_database r with Some d => true | None => false end
  && eqb (contains (hr_capabilities r) CLIENT_PLUGIN_AUTH)
         match hr_auth_plugin r with Some p => true | None => false end
  && match hr_database r with Some d => no_nul d | None => true end
  && match hr_auth_plugin r with Some p => no_nul p | None => true end.

(** The payload of a command, [rest] what a client may add that the server ignores. *)
Definition command_bytes (c : Command) (rest : list byte) : list byte :=
  let tagged code body := byte.of_Z code :: body in
  match c with
  | Quit => tagged 0x01 rest
  | InitDb database => tagged 0x02 database
  | Query sql => tagged 0x03 sql
  | FieldList body => tagged 0x04 body
  | Ping => tagged 0x0e rest
  | ChangeUser username auth_response database =>
      tagged 0x11 (username ++ [zero] ++ put_length_encoded_bytes [] auth_response ++ database ++ [zero] ++ rest)
  | Prepare sql => tagged 0x16 sql
  | Execute statement body => tagged 0x17 (to_le 4 statement ++ body)
  | SendLongData statement parameter data => tagged 0x18 (to_le 4 statement ++ to_le 2 parameter ++ data)
  | CloseStatement statement => tagged 0x19 (to_le 4 statement ++ rest)
  | ResetStatement statement => tagged 0x1a (to_le 4 statement ++ rest)
  | SetOption option => tagged 0x1b (to_le 2 option)
  | ResetConnection => tagged 0x1f rest
  | Unknown code => tagged code []
  end.

(** The codes no command of the protocol crate has. *)
Definition known_codes : list Z := [0x01; 0x02; 0x03; 0x04; 0x0e; 0x11; 0x16; 0x17; 0x18; 0x19; 0x1a; 0x1b; 0x1f].

Definition command_wf (c : Command) : bool :=
  match c with
  | ChangeUser username auth_response database =>
      no_nul username && (len auth_response <? 2 ^ 63) && no_nul database
  | Execute statement _ | CloseStatement statement | ResetStatement statement => is_u32 statement
  | SendLongData statement parameter _ => is_u32 statement && is_u16 parameter
  | SetOption option => is_u16 option
  | Unknown code => is_u8 code && negb (existsb (Z.eqb code) known_codes)
  | _ => true
  end.

(** The cells of a text row of [n] columns: each a length-encoded string or NULL. *)
Fixpoint read_text_row (n : nat) (payload : list byte) : option (list (option (list byte))) :=
  match n with
  | O => match payload with [] => Some [] | _ => None end
  | S n =>
      '(value, consumed) ← length_encoded_bytes payload;
      values ← read_text_row n (back consumed payload);
      Some (value :: values)
  end.

(** What a cell shows. *)
Definition cell_text (cell : TextCell) : option (list byte) :=
  match cell with
  | CellNull => None
  | CellBytes value => Some value
  | CellSigned value => Some ((if value <? 0 then [minus_byte] else []) ++ dec_text (Z.abs value))
  | CellUnsigned value => Some (dec_text value)
  end.

Definition cell_wf (cell : TextCell) : bool :=
  match cell with
  | CellNull => true
  | CellBytes value => len value <? 2 ^ 63
  | CellSigned value => is_i64 value
  | CellUnsigned value => is_u64 value
  end.

(** The flag a bitmap holds for a column, two bits before the first one. *)
Definition bitmap_flag (bitmap : list byte) (bit : Z) : bool :=
  Z.testbit (byte.unsigned (nth (Z.to_nat (bit / 8)) bitmap zero)) (bit mod 8).

(** A binary row of [n] columns: which are NULL, and the bytes of the others. *)
Definition read_binary_row (n : Z) (payload : list byte) : option (list bool * list byte) :=
  '(_, bs) ← chop 1 payload;
  '(bitmap, bs) ← chop (null_bitmap_len n RESERVED_BITS) bs;
  Some (map (fun i => bitmap_flag bitmap (Z.of_nat i + RESERVED_BITS)) (seq 0 (Z.to_nat n)), bs).

(** [n] length-encoded strings. *)
Fixpoint read_strings (n : nat) (bs : list byte) : option (list (list byte) * list byte) :=
  match n with
  | O => Some ([], bs)
  | S n =>
      '(value, consumed) ← length_encoded_bytes bs;
      '(values, rest) ← read_strings n (back consumed bs);
      Some (default [] value :: values, rest)
  end.

(** A column definition: catalog and names, then charset, length, type tag, flags and decimals. *)
Definition read_column (payload : list byte) : option (list (list byte) * (Z * Z * Z * Z * Z)) :=
  '(names, bs) ← read_strings 6 payload;
  '(_, bs) ← chop 1 bs;
  '(charset, bs) ← chop 2 bs;
  '(length, bs) ← chop 4 bs;
  '(tag, bs) ← chop 1 bs;
  '(flags, bs) ← chop 2 bs;
  '(decimals, bs) ← chop 1 bs;
  Some (tail names, (from_le charset, from_le length, from_le tag, from_le flags, from_le decimals)).

Definition result_column_wf (c : ResultColumn) : bool :=
  (len (wire_names c) =? 5) && forallb (fun s => len s <? 2 ^ 63) (wire_names c)
  && is_u16 (rc_character_set c) && is_u32 (rc_column_length c) && is_u16 (rc_colflags c) && is_u8 (rc_decimals c).

(** What a client takes a payload for while it reads rows: an error, the end of the rows,
    or a row.  The marker of the end is also the prefix of a string of 16 MiB, so the
    length of the payload decides. *)
Inductive client_view : Type := SeesError | SeesEnd | SeesRow.

Definition client_sees (capabilities : CapabilityFlags) (payload : list byte) : client_view :=
  match payload with
  | [] => SeesRow
  | b :: _ =>
      if byte_eqb b ERR_HEADER then SeesError
      else if byte_eqb b EOF_HEADER
              && (len payload <? (if contains capabilities CLIENT_DEPRECATE_EOF then MAX_PAYLOAD else 9)) then SeesEnd
      else SeesRow
  end.

(** ** Lemmas on slices and terminated strings *)

Lemma chop_app n a b : n = len a -> chop n (a ++ b) = Some (a, b).
Proof.
  intros ->. unfold chop. rewrite len_app, (front_app a b _ eq_refl), (back_app a b _ eq_refl).
  pose proof (len_nonneg b). now rewrite (proj2 (Z.leb_le _ _)) by lia.
Qed.

Lemma until_nul_app s rest : no_nul s = true -> until_nul (s ++ [zero] ++ rest) = Some (s, rest).
Proof. intros H. now apply split_once_at. Qed.

Lemma until_nul_end s : no_nul s = true -> until_nul (s ++ [zero]) = Some (s, []).
Proof. apply (until_nul_app s []). Qed.

Lemma before_nul_app s rest : no_nul s = true -> before_nul (s ++ [zero] ++ rest) = s.
Proof. intros H. unfold before_nul. now rewrite until_nul_app. Qed.

Lemma get_range_front {A} (a b : list A) n : n = len a -> get_range (a ++ b) 0 n = Some a.
Proof. intros ->. now apply (get_range_app [] a b). Qed.

Lemma get_from_app {A} (a b : list A) n : n = len a -> get_from (a ++ b) n = Some b.
Proof.
  intros ->. unfold get_from. rewrite <- (app_nil_r b) at 1. apply get_range_app; [easy|now rewrite len_app].
Qed.

Lemma from_le_one z : 0 <= z < 256 -> from_le [byte.of_Z z] = z.
Proof. intros. change [byte.of_Z z] with (to_le 1 z). rewrite from_to_le. now apply Z.mod_small. Qed.

Lemma from_to_le_small n z : in_unsigned (8 * Z.of_nat n) z = true -> from_le (to_le n z) = z.
Proof. intros H%in_unsigned_spec. rewrite from_to_le. now apply Z.mod_small. Qed.

Lemma greeting_read h : handshake_wf h = true -> read_greeting (handshake_encode h) = Some h.
Proof.
  unfold handshake_wf. intros H. apply andb_prop in H as [H Hp]. apply andb_prop in H as [H Hc]. apply andb_prop in H as [H Hf].
  apply andb_prop in H as [H Hs%Z.eqb_eq]. apply andb_prop in H as [Hv Hi]. unfold SCRAMBLE_SIZE in Hs.
  unfold read_greeting, handshake_encode. destruct h as [version id scramble capabilities charset plugin].
  cbn [hs_server_version hs_connection_id hs_scramble hs_capabilities hs_character_set hs_auth_plugin] in *.
  assert (L1 : 8 = len (front 8 scramble)) by (rewrite len_front; lia).
  assert (L2 : 12 = len (back 8 scramble)) by (rewrite len_back; lia).
  pose proof (len_to_le 4 capabilities) as L3.
  assert (L4 : 2 = len (front 2 (to_le 4 capabilities))) by (rewrite len_front; lia).
  assert (L5 : 2 = len (back 2 (to_le 4 capabilities))) by (rewrite len_back; lia).
  apply in_unsigned_spec in Hc.
  repeat (first [rewrite chop_app by first [assumption|reflexivity|now rewrite len_to_le]
                |rewrite until_nul_app by assumption|rewrite until_nul_end by assumption
                |change (from_le [byte.of_Z (SCRAMBLE_SIZE + 1)] - 8 - 1) with 12]; cbn [mbind option_bind]).
  rewrite !front_back, from_le_one, !from_to_le_small by easy. reflexivity.
Qed.

(** ** Lemmas on logins and commands *)

(** Fields read one after the other from bytes built by appending them. *)
Ltac read_fields :=
  repeat (first [rewrite get_range_front by first [assumption|reflexivity|now rewrite len_to_le]
                |rewrite until_nul_app by assumption|rewrite before_nul_app by assumption
                |rewrite until_nul_end by assumption
                |rewrite get_from_app by first [assumption|reflexivity|now rewrite len_to_le]
                |rewrite length_encoded_bytes_put by assumption]; cbn [mbind option_bind default]).

Lemma response_fields r max_packet reserved attributes : len max_packet = 4 -> len reserved = 23 ->
  exists tail, client_response r max_packet reserved attributes = to_le 4 (hr_capabilities r) ++ tail /\
    client_response r max_packet reserved attributes !! 8%nat = Some (byte.of_Z (hr_character_set r)) /\
    32 < len (client_response r max_packet reserved attributes) /\
    get_from (client_response r max_packet reserved attributes) 32 =
      Some (hr_username r ++ [zero]
        ++ (if contains (hr_capabilities r) CLIENT_PLUGIN_AUTH_LENENC_CLIENT_DATA
            then put_length_encoded_bytes [] (hr_auth_response r)
            else [byte.of_Z (len (hr_auth_response r))] ++ hr_auth_response r)
        ++ match hr_database r with Some d => d ++ [zero] | None => [] end
        ++ match hr_auth_plugin r with Some p => p ++ [zero] | None => [] end ++ attributes).
Proof.
  intros Lm Lr. unfold client_response. set (rest := hr_username r ++ _). eexists. split; [reflexivity|]. split; [|split].
  - pose proof (len_to_le 4 (hr_capabilities r)) as L4. unfold len in L4, Lm.
    rewrite lookup_app_r, lookup_app_r by lia. replace (8 - _ - length max_packet)%nat with O by lia. easy.
  - rewrite !len_app, len_to_le, Lm, Lr. unfold rest. rewrite !len_app. change (len [byte.of_Z _]) with 1. change (len [zero]) with 1.
    pose proof (len_nonneg (hr_username r)). pose proof (len_nonneg attributes).
    repeat match goal with |- context [len ?l] => lazymatch goal with H : 0 <= len l |- _ => fail | _ => pose proof (len_nonneg l) end end. lia.
  - rewrite !app_assoc. apply get_from_app. rewrite !len_app, len_to_le, Lm, Lr. easy.
Qed.

Lemma auth_field r rest : 
  (if contains (hr_capabilities r) CLIENT_PLUGIN_AUTH_LENENC_CLIENT_DATA
   then len (hr_auth_response r) <? 2 ^ 63 else len (hr_auth_response r) <? 256) = true ->
  exists bs, (if contains (hr_capabilities r) CLIENT_PLUGIN_AUTH_LENENC_CLIENT_DATA
     then put_length_encoded_bytes [] (hr_auth_response r)
     else [byte.of_Z (len (hr_auth_response r))] ++ hr_auth_response r) = bs /\
  parse_auth_response (hr_capabilities r) (bs ++ rest) = Some (hr_auth_response r, len bs).
Proof.
  intros H. unfold parse_auth_response. destruct (contains _ _); apply Z.ltb_lt in H; eexists; (split; [reflexivity|]).
  - rewrite length_encoded_bytes_put by easy. easy.
  - pose proof (len_nonneg (hr_auth_response r)). cbn [app head mbind option_bind]. cbv zeta. rewrite byte_unsigned_of by lia.
    rewrite get_range_tail by easy. cbn [mbind option_bind]. now rewrite len_cons.
Qed.

Lemma response_parsed r max_packet reserved attributes :
  response_wf r = true -> len max_packet = 4 -> len reserved = 23 ->
  handshake_response_parse (client_response r max_packet reserved attributes) = Some r.
Proof.
  unfold response_wf. intros H Lm Lr. apply andb_prop in H as [H Hnp]. apply andb_prop in H as [H Hnd].
  apply andb_prop in H as [H Hp%eqb_prop]. apply andb_prop in H as [H Hd%eqb_prop]. apply andb_prop in H as [H Ha].
  apply andb_prop in H as [H Hu]. apply andb_prop in H as [Hf Hc]. apply in_unsigned_spec in Hc.
  destruct (response_fields r max_packet reserved attributes Lm Lr) as (tail & E1 & E2 & _ & E3).
  set (payload := client_response _ _ _ _) in *. clearbody payload.
  unfold handshake_response_parse. rewrite E2, E3, E1. clear E1 E2 E3. rewrite get_range_front by now rewrite len_to_le.
  cbn [mbind option_bind]. cbv zeta. rewrite from_to_le_small, byte_unsigned_of by easy. rewrite until_nul_app by easy. cbn [mbind option_bind].
  destruct (auth_field r (match hr_database r with Some d => d ++ [zero] | None => [] end
    ++ match hr_auth_plugin r with Some p => p ++ [zero] | None => [] end ++ attributes) Ha) as (bs & -> & ->). cbn [mbind option_bind].
  rewrite get_from_app by easy. rewrite Hd, Hp. destruct r as [f c u a [d|] [p|]]; cbn [hr_database hr_auth_plugin] in *;
    cbn [mbind option_bind app]; rewrite <- ?app_assoc; read_fields; reflexivity.
Qed.

Lemma full_response_is_no_ssl_request r max_packet reserved attributes :
  len max_packet = 4 -> len reserved = 23 -> is_ssl_request (client_response r max_packet reserved attributes) = false.
Proof.
  intros Lm Lr. destruct (response_fields r max_packet reserved attributes Lm Lr) as (_ & _ & _ & L & _). unfold is_ssl_request.
  now rewrite (proj2 (Z.leb_gt _ _)).
Qed.

(** The short request for an upgrade: capabilities and nothing else. *)
Lemma ssl_request_parsed capabilities rest : is_u32 capabilities = true -> contains capabilities CLIENT_SSL = true -> len rest = 28 ->
  is_ssl_request (to_le 4 capabilities ++ rest) = true /\ handshake_response_parse (to_le 4 capabilities ++ rest) = None.
Proof.
  intros Hc Hs Lr. unfold is_ssl_request, handshake_response_parse. rewrite get_range_front by now rewrite len_to_le.
  rewrite from_to_le_small, Hs by easy. assert (L : len (to_le 4 capabilities ++ rest) = 32) by now rewrite len_app, len_to_le, Lr.
  rewrite L. split; [easy|]. cbn [mbind option_bind]. cbv zeta.
  destruct (lookup_lt_is_Some_2 (to_le 4 capabilities ++ rest) 8) as [x ->]; [unfold len in L; lia|]. cbn [mbind option_bind].
  rewrite <- (app_nil_r (to_le 4 capabilities ++ rest)). rewrite get_from_app by easy. easy.
Qed.

Lemma command_roundtrip c rest : command_wf c = true -> command_parse (command_bytes c rest) = c.
Proof.
  intros Hw. unfold command_bytes. cbv zeta.
  destruct c; cbn [command_wf] in Hw; cbn [command_parse]; cbv zeta;
    first [rewrite byte_unsigned_of by lia; cbn [Z.eqb Pos.eqb andb] | idtac].
  all: try reflexivity.
  - rewrite get_range_front by now rewrite len_to_le. rewrite get_from_app, from_to_le_small by (easy || now rewrite len_to_le). easy.
  - apply andb_prop in Hw as [H1 H2]. unfold parse_send_long_data. rewrite get_range_front by now rewrite len_to_le. cbn [mbind option_bind].
    rewrite get_range_app by now rewrite ?len_to_le. cbn [mbind option_bind]. rewrite app_assoc, get_from_app by now rewrite len_app, !len_to_le.
    now rewrite !from_to_le_small.
  - rewrite get_range_front by now rewrite len_to_le. now rewrite from_to_le_small.
  - rewrite get_range_front by now rewrite len_to_le. now rewrite from_to_le_small.
  - rewrite len_to_le, from_to_le_small by easy. easy.
  - apply andb_prop in Hw as [Hw Hd]. apply andb_prop in Hw as [Hu Ha%Z.ltb_lt]. unfold parse_change_user. read_fields. easy.
  - apply andb_prop in Hw as [Hc Hn]. apply in_unsigned_spec in Hc. rewrite byte_unsigned_of by easy.
    apply negb_true_iff in Hn. cbn [existsb known_codes] in Hn.
    repeat (apply orb_false_elim in Hn; destruct Hn as [-> Hn]). easy.
Qed.

(** ** Lemmas on passwords *)

Lemma byte_xor_twice a b : byte_xor (byte_xor a b) b = a.
Proof.
  apply byte.unsigned_inj. unfold byte_xor. rewrite !byte.unsigned_of_Z. unfold byte.wrap.
  pose proof (byte.unsigned_range a). rewrite <- (Z.mod_small (byte.unsigned a) (2 ^ 8)) at 2 by easy.
  rewrite <- !Z.land_ones by lia. apply Z.bits_inj'. intros n _. rewrite !Z.land_spec, !Z.lxor_spec, Z.land_spec, Z.lxor_spec.
  now destruct (Z.testbit (byte.unsigned a) n), (Z.testbit (byte.unsigned b) n), (Z.testbit (Z.ones 8) n).
Qed.

Lemma xor_bytes_twice a b : len a = len b -> xor_bytes (xor_bytes a b) b = a.
Proof.
  revert b; induction a as [|x a IH]; intros [|y b] L; [easy..|]. rewrite !len_cons in L. cbn. rewrite byte_xor_twice. f_equal. apply IH. lia.
Qed.

Lemma len_xor_bytes a b : len a = len b -> len (xor_bytes a b) = len a.
Proof. unfold len, xor_bytes. rewrite length_zip_with. lia. Qed.

Lemma bytes_eqb_spec a b : bytes_eqb a b = true <-> a = b.
Proof. apply bool_decide_eq_true. Qed.

(** A check of the shape both plugins have: the response hides a preimage of what is stored. *)
Lemma response_hides (digest : list byte -> list byte) size response mixed stored :
  len stored = size -> len mixed = size -> (forall bs, len (digest bs) = size) ->
  (if negb (len response =? size) || negb (len stored =? size) then false else bytes_eqb (digest (xor_bytes response mixed)) stored) = true <->
  exists secret, len secret = size /\ digest secret = stored /\ response = xor_bytes secret mixed.
Proof.
  intros Ls Lm Ld. rewrite Ls, Z.eqb_refl. destruct (Z.eqb_spec (len response) size) as [E|E]; cbn [negb orb].
  - rewrite bytes_eqb_spec. split.
    + intros <-. exists (xor_bytes response mixed). rewrite len_xor_bytes, xor_bytes_twice by lia. auto.
    + intros (secret & L & <- & ->). rewrite xor_bytes_twice by lia. easy.
  - split; [easy|]. intros (secret & L & _ & ->). rewrite len_xor_bytes in E; lia.
Qed.

(** ** Lemmas on rows *)

Lemma digits_loop_text room fuel value written :
  0 <= value < 10 ^ Z.of_nat room -> 0 <= value < 2 ^ Z.of_nat fuel -> (0 < room)%nat -> (0 < fuel)%nat ->
  digits_loop room value written = Some (dec_text_aux fuel value written).
Proof.
  revert fuel value written; induction room as [|room IH]; intros [|fuel] value written Hr Hf; [lia..|]. intros _ _.
  cbn [digits_loop dec_text_aux]. cbv zeta. rewrite Nat2Z.inj_succ, Z.pow_succ_r in Hr, Hf by lia.
  destruct (Z.ltb_spec value 10).
  - rewrite Z.div_small, Z.mod_small by lia. easy.
  - assert (1 <= value / 10) by (apply Z.div_le_lower_bound; lia). rewrite (proj2 (Z.eqb_neq _ _)) by lia. apply IH.
    + split; [lia|]. apply Z.div_lt_upper_bound; lia.
    + split; [lia|]. apply Z.div_lt_upper_bound; lia.
    + destruct room; [cbn in Hr; lia|lia].
    + destruct fuel; [cbn in Hf; lia|lia].
Qed.

(** No integer of 64 bits needs more than the 21 bytes of the buffer, sign included. *)
Lemma digits_unsigned value : is_u64 value = true -> digits value false = Some (dec_text value) /\ len (dec_text value) <= 20.
Proof.
  intros Hv%in_unsigned_spec. split; [|apply dec_text_len; lia]. unfold digits.
  assert (Hl : 0 <= value < 2 ^ Z.of_nat (S (Z.to_nat (Z.log2 value)))).
  { split; [lia|]. rewrite Nat2Z.inj_succ, Z2Nat.id by apply Z.log2_nonneg.
    destruct (Z.eq_dec value 0) as [->|]; [cbn; lia|]. apply Z.log2_spec. lia. }
  rewrite (digits_loop_text 21 (S (Z.to_nat (Z.log2 value)))) by first [easy|lia]. easy.
Qed.

Lemma digits_signed value : is_i64 value = true ->
  digits (Z.abs value) (value <? 0) = Some ((if value <? 0 then [minus_byte] else []) ++ dec_text (Z.abs value)) /\
  len (dec_text (Z.abs value)) <= 20.
Proof.
  intros Hv%in_signed_spec. change (2 ^ (64 - 1)) with (2 ^ 63) in Hv.
  assert (Hu : is_u64 (Z.abs value) = true) by (apply in_unsigned_spec; lia).
  destruct (digits_unsigned (Z.abs value) Hu) as [E L]. split; [|easy]. destruct (value <? 0) eqn:Es; [|exact E].
  unfold digits in *. destruct (digits_loop 21 (Z.abs value) []) as [text|]; [|easy]. cbn [mbind option_bind] in *.
  injection E as ->. now rewrite (proj2 (Z.leb_gt _ _)) by lia.
Qed.

(** The bytes of one cell. *)
Definition cell_bytes (cell : TextCell) : list byte :=
  match cell_text cell with None => [TEXT_NULL] | Some text => put_length_encoded_bytes [] text end.

Lemma text_cell_spec rows cell : cell_wf cell = true ->
  text_cell rows cell = Some (push_bytes (cell_bytes cell) rows) /\
  match cell_text cell with Some text => len text < 2 ^ 63 | None => True end.
Proof.
  unfold cell_bytes, push_bytes. destruct cell as [|value|value|value]; cbn [cell_wf cell_text text_cell].
  - easy.
  - intros H%Z.ltb_lt. split; [|easy]. unfold text_row_bytes. now rewrite put_length_encoded_bytes_app.
  - intros H. destruct (digits_signed value H) as [-> L]. cbn [mbind option_bind]. unfold text_row_bytes. rewrite put_length_encoded_bytes_app.
    split; [easy|]. rewrite len_app. destruct (value <? 0); [change (len [minus_byte]) with 1|rewrite len_nil]; lia.
  - intros H. destruct (digits_unsigned value H) as [-> L]. cbn [mbind option_bind]. unfold text_row_bytes. rewrite put_length_encoded_bytes_app.
    split; [easy|lia].
Qed.

Lemma text_cells_spec cells rows : forallb cell_wf cells = true ->
  text_cells rows cells = Some (push_bytes (concat (map cell_bytes cells)) rows).
Proof.
  revert rows; induction cells as [|cell cells IH]; intros rows; cbn [forallb text_cells map concat].
  { intros _. unfold push_bytes. rewrite app_nil_r. now destruct rows. }
  intros [H1 H2]%andb_prop. destruct (text_cell_spec rows cell H1) as [-> _]. cbn [mbind option_bind]. rewrite IH by easy.
  unfold push_bytes. cbn [er_bytes er_ends]. now rewrite app_assoc.
Qed.

Lemma length_encoded_null rest : length_encoded_bytes ([TEXT_NULL] ++ rest) = Some (None, 1).
Proof. reflexivity. Qed.

Lemma text_cells_read cells : forallb cell_wf cells = true ->
  read_text_row (length cells) (concat (map cell_bytes cells)) = Some (map cell_text cells).
Proof.
  induction cells as [|cell cells IH]; cbn [forallb length read_text_row map concat]; [easy|]. intros [H1 H2]%andb_prop. specialize (IH H2).
  destruct (text_cell_spec rows_new cell H1) as [_ L].
  assert (Eb : cell_bytes cell = match cell_text cell with None => [TEXT_NULL] | Some text => put_length_encoded_bytes [] text end) by reflexivity.
  rewrite Eb. destruct (cell_text cell) as [text|].
  - rewrite length_encoded_bytes_put by easy. cbn [mbind option_bind]. rewrite back_app by easy. now rewrite IH.
  - rewrite length_encoded_null. cbn [mbind option_bind]. rewrite back_app by easy. now rewrite IH.
Qed.

(** Where the rows of a buffer end. *)
Fixpoint ends_from (start : Z) (payloads : list (list byte)) : list Z :=
  match payloads with
  | [] => []
  | payload :: payloads => (start + len payload) :: ends_from (start + len payload) payloads
  end.

(** The buffer holds these rows and nothing else. *)
Definition holds (rows : EncodedRows) (payloads : list (list byte)) : Prop :=
  er_bytes rows = concat payloads /\ er_ends rows = ends_from 0 payloads.

Lemma ends_from_snoc start payloads payload :
  ends_from start (payloads ++ [payload]) = ends_from start payloads ++ [start + len (concat payloads) + len payload].
Proof.
  revert start; induction payloads as [|p payloads IH]; intros start; cbn [ends_from app concat].
  - rewrite len_nil. do 2 f_equal. lia.
  - rewrite IH, len_app. cbn [app]. do 3 f_equal. lia.
Qed.

Lemma rows_from_ends pre payloads :
  rows_from (pre ++ concat payloads) (len pre) (ends_from (len pre) payloads) = Some payloads.
Proof.
  revert pre; induction payloads as [|p payloads IH]; intros pre; cbn [ends_from rows_from concat]; [easy|].
  rewrite get_range_app by easy. cbn [mbind option_bind]. specialize (IH (pre ++ p)). rewrite len_app, <- app_assoc in IH. now rewrite IH.
Qed.

Lemma holds_iter rows payloads : holds rows payloads -> rows_iter rows = Some payloads.
Proof. intros [E1 E2]. unfold rows_iter. rewrite E1, E2. apply (rows_from_ends [] payloads). Qed.

Lemma holds_end rows payloads payload : holds rows payloads -> holds (end_row (push_bytes payload rows)) (payloads ++ [payload]).
Proof.
  intros [E1 E2]. unfold holds, end_row, push_bytes. cbn. rewrite E1, E2, concat_app, ends_from_snoc, len_app. cbn. now rewrite app_nil_r.
Qed.

(** ** Lemmas on bitmaps *)

Lemma set_bit_flag bitmap at_ bit j :
  0 <= at_ < len bitmap -> 0 <= bit < 8 -> 0 <= j ->
  bitmap_flag (set_bit bitmap at_ bit) j = bitmap_flag bitmap j || (j =? 8 * at_ + bit).
Proof.
  intros Ha Hb Hj. unfold bitmap_flag, set_bit. rewrite !nth_lookup.
  assert (Hq : 0 <= j / 8 /\ 0 <= j mod 8 < 8 /\ j = 8 * (j / 8) + j mod 8) by dlia. destruct Hq as (Hq & Hm & Ej).
  destruct (Z.eq_dec (j / 8) at_) as [E|E].
  - rewrite E, list_lookup_alter_eq. destruct (lookup_lt_is_Some_2 bitmap (Z.to_nat at_)) as [b ->]; [unfold len in Ha; lia|].
    cbn [fmap option_fmap option_map from_option id]. rewrite byte.unsigned_of_Z. unfold byte.wrap. rewrite Z.mod_pow2_bits_low by lia.
    rewrite Z.lor_spec, Z.shiftl_1_l, Z.pow2_bits_eqb by lia. f_equal. zcases; easy || lia.
  - rewrite list_lookup_alter_ne by lia. rewrite (proj2 (Z.eqb_neq j _)) by lia. now rewrite orb_false_r.
Qed.

Lemma len_set_bit bitmap at_ bit : len (set_bit bitmap at_ bit) = len bitmap.
Proof. unfold len, set_bit. now rewrite length_alter. Qed.

Lemma set_bit_inside pre bitmap post at_ bit : 0 <= at_ < len bitmap ->
  set_bit (pre ++ bitmap ++ post) (len pre + at_) bit = pre ++ set_bit bitmap at_ bit ++ post.
Proof.
  intros Ha. unfold set_bit. replace (Z.to_nat (len pre + at_)) with (length pre + Z.to_nat at_)%nat by (unfold len; lia).
  rewrite alter_app_r, alter_app_l; [easy|]. unfold len in Ha. lia.
Qed.

(** The bytes of the values that are there. *)
Definition present (values : list (option (list byte))) : list byte := concat (map (default []) values).

(** Whether the value at [i] is NULL. *)
Definition null_at (values : list (option (list byte))) (i : Z) : bool :=
  (0 <=? i) && match values !! Z.to_nat i with Some None => true | _ => false end.

Lemma null_at_cons value values i : 0 <= i ->
  null_at (value :: values) i = if i =? 0 then (match value with None => true | Some _ => false end) else null_at values (i - 1).
Proof.
  intros Hi. unfold null_at. rewrite (proj2 (Z.leb_le 0 i)) by easy. destruct (Z.eqb_spec i 0) as [->|].
  - cbn. now destruct value.
  - rewrite (proj2 (Z.leb_le 0 (i - 1))) by lia. replace (Z.to_nat i) with (S (Z.to_nat (i - 1))) by lia. easy.
Qed.

Lemma push_binary_values pre values : forall index bitmap post,
  0 <= index -> index + len values + RESERVED_BITS <= 8 * len bitmap ->
  exists bitmap', foldl (push_binary_value (len pre)) (index, pre ++ bitmap ++ post) values =
      (index + len values, pre ++ bitmap' ++ post ++ present values) /\ len bitmap' = len bitmap /\
    forall j, 0 <= j -> bitmap_flag bitmap' j = bitmap_flag bitmap j || null_at values (j - RESERVED_BITS - index).
Proof.
  unfold RESERVED_BITS. induction values as [|value values IH]; intros index bitmap post Hi Hl; cbn [foldl].
  { exists bitmap. unfold present. cbn. rewrite app_nil_r, len_nil, Z.add_0_r. repeat (split; [easy|]). intros j Hj.
    unfold null_at. now rewrite lookup_nil, andb_false_r, orb_false_r. }
  rewrite len_cons in *. pose proof (len_nonneg values). cbn [push_binary_value]. unfold RESERVED_BITS. destruct value as [bs|].
  - replace ((pre ++ bitmap ++ post) ++ bs) with (pre ++ bitmap ++ (post ++ bs)) by now rewrite !app_assoc.
    destruct (IH (index + 1) bitmap (post ++ bs)) as (bitmap' & E & L & F); [lia..|]. exists bitmap'.
    rewrite E. split; [f_equal; [lia|]; unfold present; cbn; now rewrite !app_assoc|]. split; [easy|]. intros j Hj. rewrite F by easy. f_equal.
    destruct (Z.le_gt_cases 0 (j - 2 - index)).
    + rewrite null_at_cons by easy. destruct (Z.eqb_spec (j - 2 - index) 0); [|f_equal; lia].
      unfold null_at. now rewrite (proj2 (Z.leb_gt _ _)) by lia.
    + unfold null_at. now rewrite !(proj2 (Z.leb_gt _ _)) by lia.
  - assert (Hq : 0 <= (index + 2) / 8 < len bitmap /\ 0 <= (index + 2) mod 8 < 8) by dlia.
    rewrite set_bit_inside by easy. set (bitmap1 := set_bit bitmap ((index + 2) / 8) ((index + 2) mod 8)).
    assert (L1 : len bitmap1 = len bitmap) by apply len_set_bit.
    destruct (IH (index + 1) bitmap1 post) as (bitmap' & E & L & F); [lia..|]. exists bitmap'.
    rewrite E. split; [f_equal; lia|]. split; [lia|]. intros j Hj. rewrite F by easy. unfold bitmap1. rewrite set_bit_flag by easy.
    replace (8 * ((index + 2) / 8) + (index + 2) mod 8) with (index + 2) by dlia. rewrite <- orb_assoc. f_equal.
    destruct (Z.le_gt_cases 0 (j - 2 - index)).
    + rewrite null_at_cons by easy. destruct (Z.eqb_spec (j - 2 - index) 0), (Z.eqb_spec j (index + 2)); cbn [orb]; first [easy|lia|f_equal; lia].
    + rewrite (proj2 (Z.eqb_neq _ _)) by lia. unfold null_at. now rewrite !(proj2 (Z.leb_gt _ _)) by lia.
Qed.

Lemma bitmap_flag_zeros n bit : bitmap_flag (replicate n zero) bit = false.
Proof.
  unfold bitmap_flag. rewrite nth_lookup. destruct (replicate n zero !! _) as [b|] eqn:E; [|apply Z.bits_0].
  apply lookup_replicate in E as [-> _]. apply Z.bits_0.
Qed.

Lemma null_bitmap_covers n reserved : 0 <= n -> 0 <= reserved ->
  0 <= null_bitmap_len n reserved /\ n + reserved <= 8 * null_bitmap_len n reserved.
Proof. intros. unfold null_bitmap_len. dlia. Qed.

Definition is_null {A} (value : option A) : bool := match value with None => true | Some _ => false end.

Lemma null_flags_all values : map (fun i => null_at values (Z.of_nat i)) (seq 0 (length values)) = map is_null values.
Proof.
  apply list_eq. intros i. rewrite !list_lookup_fmap. destruct (Nat.lt_ge_cases i (length values)) as [H|H].
  - rewrite lookup_seq_lt by easy. destruct (lookup_lt_is_Some_2 values i H) as [v E]. rewrite E. cbn. f_equal.
    unfold null_at. rewrite (proj2 (Z.leb_le 0 _)), Nat2Z.id by lia. cbn. rewrite E. now destruct v.
  - rewrite (lookup_ge_None_2 values) by easy. rewrite lookup_seq_ge by easy. easy.
Qed.

Lemma binary_row_spec values rows payloads : holds rows payloads -> exists payload,
  holds (push_binary_row values rows) (payloads ++ [payload]) /\ head payload = Some zero /\
  read_binary_row (len values) payload = Some (map is_null values, present values).
Proof.
  intros Hh. pose proof (len_nonneg values). destruct (null_bitmap_covers (len values) RESERVED_BITS) as [H0 Hc]; [easy..|].
  unfold push_binary_row. set (k := null_bitmap_len (len values) RESERVED_BITS) in *. set (bitmap := replicate (Z.to_nat k) zero).
  assert (Lb : len bitmap = k) by (unfold bitmap; rewrite len_replicate; lia).
  destruct (push_binary_values (er_bytes rows ++ [zero]) values 0 bitmap []) as (bitmap' & E & L & F); [easy|lia|].
  rewrite app_nil_r in E. rewrite E. cbn [app]. rewrite <- app_assoc. exists ([zero] ++ bitmap' ++ present values).
  split; [apply (holds_end rows payloads _ Hh)|]. split; [easy|].
  unfold read_binary_row. rewrite chop_app by easy. cbn [mbind option_bind]. rewrite chop_app by (fold k; lia). cbn [mbind option_bind].
  do 2 f_equal. rewrite <- null_flags_all. unfold len. rewrite Nat2Z.id. apply map_ext. intros i. rewrite F by (unfold RESERVED_BITS; lia).
  unfold bitmap. rewrite bitmap_flag_zeros. cbn [orb]. f_equal. lia.
Qed.

Lemma mask_bit b k : 0 <= k -> negb (Z.land b (Z.shiftl 1 k) =? 0) = Z.testbit b k.
Proof.
  intros Hk. rewrite Z.shiftl_1_l. destruct (Z.testbit b k) eqn:E.
  - destruct (Z.eqb_spec (Z.land b (2 ^ k)) 0) as [E0|]; [|easy]. apply (f_equal (fun z => Z.testbit z k)) in E0.
    rewrite Z.land_spec, E, Z.pow2_bits_true, Z.bits_0 in E0 by easy. easy.
  - replace (Z.land b (2 ^ k)) with 0; [easy|]. symmetry. apply Z.bits_inj'. intros n Hn. rewrite Z.land_spec, Z.bits_0, Z.pow2_bits_eqb by easy.
    destruct (Z.eqb_spec k n) as [->|]; [now rewrite E|apply andb_false_r].
Qed.

(** The flags of parameters, which reserve no bits. *)
Lemma parameter_flags bitmap n :
  parameter_null_flags bitmap n = map (fun i => bitmap_flag bitmap (Z.of_nat i)) (seq 0 (Z.to_nat n)).
Proof.
  unfold parameter_null_flags. apply map_ext. intros i. unfold bitmap_flag. rewrite nth_lookup.
  destruct (bitmap !! _) as [b|]; [|symmetry; apply Z.bits_0]. apply mask_bit. dlia.
Qed.

(** ** Lemmas on column definitions and terminators *)

Lemma put_strings acc names : foldl put_length_encoded_bytes acc names = acc ++ concat (map (put_length_encoded_bytes []) names).
Proof.
  revert acc; induction names as [|s names IH]; intros acc; cbn [foldl map concat]; [now rewrite app_nil_r|].
  now rewrite IH, put_length_encoded_bytes_app, app_assoc.
Qed.

Lemma read_strings_put names rest : forallb (fun s => len s <? 2 ^ 63) names = true ->
  read_strings (length names) (concat (map (put_length_encoded_bytes []) names) ++ rest) = Some (names, rest).
Proof.
  induction names as [|s names IH]; cbn [forallb length read_strings map concat]; [easy|]. intros [H1%Z.ltb_lt H2]%andb_prop.
  rewrite <- app_assoc, length_encoded_bytes_put by easy. cbn [mbind option_bind]. rewrite back_app by easy. now rewrite IH.
Qed.

Lemma column_read c : result_column_wf c = true ->
  read_column (encode_column_definition c) =
    Some (wire_names c, (rc_character_set c, rc_column_length c, column_type_tag (rc_coltype c), rc_colflags c, rc_decimals c)).
Proof.
  unfold result_column_wf. intros H. apply andb_prop in H as [H Hd]. apply andb_prop in H as [H Hf]. apply andb_prop in H as [H Hl].
  apply andb_prop in H as [H Hc]. apply andb_prop in H as [H5%Z.eqb_eq Hn]. unfold read_column, encode_column_definition.
  rewrite put_strings. change (put_length_encoded_bytes [] (ascii "def")) with (concat (map (put_length_encoded_bytes []) [ascii "def"])).
  rewrite <- concat_app, <- map_app. replace 6%nat with (length ([ascii "def"] ++ wire_names c)) by (unfold len in H5; cbn; lia).
  rewrite read_strings_put by (cbn [forallb app]; rewrite Hn; easy). cbn [mbind option_bind].
  repeat (first [rewrite chop_app by first [reflexivity|now rewrite len_to_le]]; cbn [mbind option_bind]). cbn [tail app].
  apply in_unsigned_spec in Hd. rewrite !from_to_le_small, !from_le_one by first [easy|now destruct (rc_coltype c)]. easy.
Qed.

Lemma put_integer_head value : 0 <= value -> exists b bs, put_length_encoded_integer [] value = b :: bs /\
  byte_eqb b ERR_HEADER = false /\ (byte_eqb b EOF_HEADER = true -> MAX_PAYLOAD < value).
Proof.
  intros Hv. unfold put_length_encoded_integer.
  destruct (Z.leb_spec value 250); [|destruct (Z.leb_spec value 65535); [|destruct (Z.leb_spec value 16777215)]]; cbn [app]; eexists _, _;
    (split; [reflexivity|]); [|easy|easy|split; [easy|unfold MAX_PAYLOAD; lia]].
  unfold byte_eqb. rewrite byte_unsigned_of by lia. change (byte.unsigned ERR_HEADER) with 255. change (byte.unsigned EOF_HEADER) with 254.
  rewrite !(proj2 (Z.eqb_neq _ _)) by lia. easy.
Qed.

Lemma text_row_seen capabilities cells : forallb cell_wf cells = true ->
  client_sees capabilities (concat (map cell_bytes cells)) = SeesRow.
Proof.
  destruct cells as [|cell cells]; [easy|]. cbn [forallb map concat]. intros [_ _]%andb_prop. unfold cell_bytes at 1.
  destruct (cell_text cell) as [text|]; [|easy]. pose proof (len_nonneg text). unfold put_length_encoded_bytes.
  destruct (put_integer_head (len text)) as (b & bs & E & E1 & E2); [easy|]. rewrite E. cbn [app client_sees]. rewrite E1.
  destruct (byte_eqb b EOF_HEADER); [|easy]. specialize (E2 eq_refl). cbn [andb]. rewrite (proj2 (Z.ltb_ge _ _)); [easy|].
  rewrite len_cons, !len_app. pose proof (len_nonneg bs). pose proof (len_nonneg (concat (map cell_bytes cells))).
  unfold MAX_PAYLOAD in *. destruct (contains _ _); lia.
Qed.

Lemma eof_seen capabilities status warnings : client_sees capabilities (encode_eof capabilities status warnings) = SeesEnd.
Proof.
  unfold encode_eof, client_sees. destruct (contains capabilities CLIENT_DEPRECATE_EOF); cbn [app put_length_encoded_integer Z.leb Z.compare];
    repeat rewrite ?len_cons, ?len_app, ?len_to_le; reflexivity.
Qed.

Lemma error_seen capabilities kind message : client_sees capabilities (encode_error kind message) = SeesError.
Proof. reflexivity. Qed.

Lemma zero_seen capabilities payload : head payload = Some zero -> client_sees capabilities payload = SeesRow.
Proof. destruct payload; [easy|]. intros [= ->]. reflexivity. Qed.

(** ** What the messages promise *)

(** The handshake is read as it was meant, both ways: a client that rejoins the scramble and
    the capabilities gets every field of the greeting; the server gets every field of a
    client's response, in each of its optional forms, and never takes it for a TLS request;
    and a bare TLS request is told apart and never parsed as a login. *)
Theorem handshake_understood :
  (forall h, handshake_wf h = true -> read_greeting (handshake_encode h) = Some h) /\
  (forall r max_packet reserved attributes, response_wf r = true -> len max_packet = 4 -> len reserved = 23 ->
     handshake_response_parse (client_response r max_packet reserved attributes) = Some r /\
     is_ssl_request (client_response r max_packet reserved attributes) = false) /\
  (forall capabilities rest, is_u32 capabilities = true -> contains capabilities CLIENT_SSL = true -> len rest = 28 ->
     is_ssl_request (to_le 4 capabilities ++ rest) = true /\ handshake_response_parse (to_le 4 capabilities ++ rest) = None).
Proof.
  split; [apply greeting_read|]. split; [|apply ssl_request_parsed].
  intros. split; [now apply response_parsed|now apply full_response_is_no_ssl_request].
Qed.

Definition example_response : HandshakeResponse := {|
  hr_capabilities := Z.lor CLIENT_CONNECT_WITH_DB CLIENT_PLUGIN_AUTH; hr_character_set := 45; hr_username := ascii "ann";
  hr_auth_response := map byte.of_Z [1; 2; 3]; hr_database := Some (ascii "shop"); hr_auth_plugin := Some (ascii "mysql_native_password") |}.

Lemma handshake_understood_witness :
  handshake_response_parse (client_response example_response (replicate 4 zero) (replicate 23 zero) []) = Some example_response.
Proof. destruct handshake_understood as (_ & P & _). apply P; reflexivity. Defined.

Lemma command_unknown payload code : command_parse payload = Unknown code ->
  code = match payload with [] => 0 | b :: _ => byte.unsigned b end.
Proof.
  destruct payload as [|b body]; cbn [command_parse]; [now intros [= <-]|]. cbv zeta.
  assert (N : forall o c, default (Unknown c) o = Unknown code -> (forall x, o = Some x -> x <> Unknown code) -> code = c).
  { intros [x|] c; cbn; [intros -> H; now destruct (H _ eq_refl)|now intros [= ->]]. }
  repeat match goal with |- context [if ?b then _ else _] => destruct b eqn:?; [try easy|] end; try (now intros [= <-]).
  - intros H. apply (N _ _ H). intros x. unfold parse_change_user. destruct (until_nul body) as [[u r]|]; cbn [mbind option_bind]; [|easy].
    destruct (length_encoded_bytes r) as [[a k]|]; cbn [mbind option_bind]; [|easy]. destruct (get_from r k); cbn [mbind option_bind]; [|easy].
    now intros [= <-].
  - destruct (get_range body 0 4); [easy|now intros [= <-]].
  - intros H. apply (N _ _ H). intros x. unfold parse_send_long_data. destruct (get_range body 0 4); cbn [mbind option_bind]; [|easy].
    destruct (get_range body 4 6); cbn [mbind option_bind]; [|easy]. now intros [= <-].
  - destruct (get_range body 0 4); [easy|now intros [= <-]].
  - destruct (get_range body 0 4); [easy|now intros [= <-]].
Qed.

(** Every command a client can send parses back to itself, with whatever it appends after
    the parts that matter; anything else, a truncated body included, is an unknown command
    under its own code, so that the connection can answer it. *)
Theorem commands_understood :
  (forall c rest, command_wf c = true -> command_parse (command_bytes c rest) = c) /\
  (forall payload code, command_parse payload = Unknown code -> code = match payload with [] => 0 | b :: _ => byte.unsigned b end).
Proof. split; [apply command_roundtrip|apply command_unknown]. Qed.

Lemma commands_understood_witness :
  command_parse (command_bytes (ChangeUser (ascii "ann") [byte.of_Z 7] (ascii "shop")) [byte.of_Z 45]) = ChangeUser (ascii "ann") [byte.of_Z 7] (ascii "shop").
Proof. destruct commands_understood as [P _]. apply P. reflexivity. Defined.

Section passwords.
Context `{Digests}.

(** A response is accepted exactly when it hides a preimage of the stored hash under the
    digest of the scramble and that hash, as both plugins define it: the right password is
    always accepted, and an accepted response proves knowledge of a preimage. *)
Theorem passwords_checked scramble stored1 stored256 : len stored1 = 20 -> len stored256 = 32 ->
  (forall response, verify_native_password response scramble stored1 = true <->
     exists secret, len secret = 20 /\ sha1 secret = stored1 /\ response = xor_bytes secret (sha1 (scramble ++ stored1))) /\
  (forall response, verify_caching_sha2 response scramble stored256 = true <->
     exists secret, len secret = 32 /\ sha256 secret = stored256 /\ response = xor_bytes secret (sha256 (stored256 ++ scramble))).
Proof.
  intros L1 L2. split; intros response; apply response_hides; auto using sha1_len, sha256_len.
Qed.

End passwords.

(** Digests of the right sizes. *)
Definition example_digests : Digests := {|
  sha1 := fun bs => to_le 20 (from_le bs + 1); sha256 := fun bs => to_le 32 (from_le bs + 1);
  sha1_len := fun bs => len_to_le 20 (from_le bs + 1); sha256_len := fun bs => len_to_le 32 (from_le bs + 1) |}.

Lemma passwords_checked_witness :
  @verify_native_password example_digests (xor_bytes (to_le 20 41) (@sha1 example_digests (to_le 20 9 ++ to_le 20 42))) (to_le 20 9) (to_le 20 42) = true.
Proof.
  destruct (@passwords_checked example_digests (to_le 20 9) (to_le 20 42) (to_le 32 42)) as [P _]; [reflexivity..|].
  apply P. exists (to_le 20 41). vm_compute. auto.
Defined.

(** Rows of a result. *)
Fixpoint text_rows (rows : EncodedRows) (cells : list (list TextCell)) : option EncodedRows :=
  match cells with
  | [] => Some rows
  | row :: cells => rows ← text_row row rows; text_rows rows cells
  end.

Lemma text_rows_spec cells : forall rows payloads, holds rows payloads -> forallb (forallb cell_wf) cells = true ->
  exists rows', text_rows rows cells = Some rows' /\ holds rows' (payloads ++ map (fun row => concat (map cell_bytes row)) cells).
Proof.
  induction cells as [|row cells IH]; intros rows payloads Hh; cbn [forallb text_rows map]; [exists rows; now rewrite app_nil_r|].
  intros [H1 H2]%andb_prop. unfold text_row. rewrite text_cells_spec by easy. cbn [mbind option_bind].
  destruct (IH _ _ (holds_end rows payloads (concat (map cell_bytes row)) Hh) H2) as (rows' & E & Hh'). exists rows'.
  split; [exact E|]. now rewrite <- app_assoc in Hh'.
Qed.

(** Text rows come back cell by cell: building them never panics, whatever the 64-bit
    integers, the buffer gives back each row by itself, a client reads its cells as they
    were, NULL apart from the empty string, and takes none of them for the end of the
    result or for an error. *)
Theorem text_rows_read_back capabilities cells : forallb (forallb cell_wf) cells = true ->
  exists rows payloads, text_rows rows_new cells = Some rows /\ rows_iter rows = Some payloads /\
    Forall2 (fun row payload => read_text_row (length row) payload = Some (map cell_text row) /\
                                client_sees capabilities payload = SeesRow) cells payloads.
Proof.
  intros Hw. destruct (text_rows_spec cells rows_new [] (conj eq_refl eq_refl) Hw) as (rows & E & Hh).
  exists rows, (map (fun row => concat (map cell_bytes row)) cells). split; [easy|]. split; [now apply holds_iter|].
  rewrite Forall2_fmap_r. clear - Hw. induction cells as [|row cells IH]; [constructor|]. cbn [forallb] in Hw. apply andb_prop in Hw as [H1 H2].
  constructor; [|auto]. split; [now apply text_cells_read|now apply text_row_seen].
Qed.

Lemma text_rows_read_back_witness : exists rows payloads,
  text_rows rows_new [[CellSigned (-9223372036854775808); CellNull]; [CellBytes []; CellUnsigned 18446744073709551615]] = Some rows /\
  rows_iter rows = Some payloads /\
  Forall2 (fun row payload => read_text_row (length row) payload = Some (map cell_text row) /\ client_sees 0 payload = SeesRow)
    [[CellSigned (-9223372036854775808); CellNull]; [CellBytes []; CellUnsigned 18446744073709551615]] payloads.
Proof.
  apply (text_rows_read_back 0 [[CellSigned (-9223372036854775808); CellNull]; [CellBytes []; CellUnsigned 18446744073709551615]]). reflexivity.
Defined.

(** A binary row comes back: the bitmap a client reads with its two reserved bits marks
    exactly the NULL columns, the bytes after it are those of the other columns in order,
    and the rows before it are untouched. *)
Theorem binary_row_read_back capabilities values rows payloads : holds rows payloads -> exists payload,
  rows_iter (push_binary_row values rows) = Some (payloads ++ [payload]) /\
  read_binary_row (len values) payload = Some (map is_null values, present values) /\
  client_sees capabilities payload = SeesRow.
Proof.
  intros Hh. destruct (binary_row_spec values rows payloads Hh) as (payload & Hh' & Hz & Hr). exists payload.
  split; [now apply holds_iter|]. split; [easy|now apply zero_seen].
Qed.

Lemma binary_row_read_back_witness : exists payload,
  rows_iter (push_binary_row [None; Some [byte.of_Z 5]; None] rows_new) = Some [payload] /\
  read_binary_row 3 payload = Some ([true; false; true], [byte.of_Z 5]) /\ client_sees 0 payload = SeesRow.
Proof. apply (binary_row_read_back 0 [None; Some [byte.of_Z 5]; None] rows_new []). split; reflexivity. Defined.

(** The terminator a server sends is the one its client expects, by the capability both
    agreed on, and an error is an error. *)
Theorem terminators_seen capabilities status warnings kind message :
  client_sees capabilities (encode_eof capabilities status warnings) = SeesEnd /\
  client_sees capabilities (encode_error kind message) = SeesError.
Proof. split; [apply eof_seen|apply error_seen]. Qed.

(** A client reads every field of a column definition: its five names, in the encoding of
    the connection when there is one, and the real character set, length, type, flags and
    decimals. *)
Theorem column_definition_read_back c : result_column_wf c = true ->
  read_column (encode_column_definition c) =
    Some (wire_names c, (rc_character_set c, rc_column_length c, column_type_tag (rc_coltype c), rc_colflags c, rc_decimals c)).
Proof. apply column_read. Qed.

Lemma column_definition_read_back_witness :
  read_column (encode_column_definition (result_column_new (ascii "total") MysqlTypeNewdecimal)) =
    Some ([[]; []; []; ascii "total"; []], (63, 0, 0xf6, 0, 0)).
Proof. apply (column_definition_read_back (result_column_new (ascii "total") MysqlTypeNewdecimal)). reflexivity. Defined.
