(* ===== verification/Parameters.v ===== *)
(** * Binary parameters and values ([src/crates/pintail-protocol/src/value.rs])

    Decoding of the parameters of [COM_STMT_EXECUTE], and the binary encoders of result
    values.  A float is its bit pattern.  Hours of a [TIME] are computed in 32 bits as a
    release build does. *)

From Stdlib Require Import ZArith Lia String.
From stdpp Require Import prelude list.
From coqutil Require Import Byte.
From S2P Require Import Prelude.
From S2P Require Import Types.
From S2P Require Import Text.
From S2P Require Import Packets.
From S2P Require Import Messages.

#[local] Open Scope Z_scope.

Record ParameterType : Type := { pt_column_type : Z; pt_unsigned : bool }.

Inductive BinaryValue : Type :=
| BNull
| BInt (value : Z)
| BUInt (value : Z)
| BFloat (bits : Z)
| BDouble (bits : Z)
| BBytes (value : list byte)
| BDateTime (text : str)
| BTime (text : str).

(** [as_chunks::<2>]. *)
Fixpoint parameter_types (raw : list byte) : list ParameterType :=
  match raw with
  | tag :: flags :: raw =>
      {| pt_column_type := byte.unsigned tag; pt_unsigned := negb (Z.land (byte.unsigned flags) 0x80 =? 0) |}
      :: parameter_types raw
  | _ => []
  end.

(** [count.checked_mul(2)] on [usize]. *)
Definition parse_parameter_types (body : list byte) (count : Z) : option (list ParameterType * Z) :=
  if 2 ^ 64 <=? count * 2 then None
  else
    let needed := count * 2 in
    raw ← get_range body 0 needed;
    Some (parameter_types raw, needed).

(** [raw[i]] of a slice of known length. *)
Definition at_ (raw : list byte) (i : nat) : Z := byte.unsigned (nth i raw zero).
Definition le_at (raw : list byte) (i n : nat) : Z := from_le (take n (drop i raw)).

Definition date_text (raw : list byte) : str :=
  dec_padded 4 (le_at raw 0 2) ++ ascii "-" ++ dec_padded 2 (at_ raw 2) ++ ascii "-" ++ dec_padded 2 (at_ raw 3).

Definition clock_text (raw : list byte) (i : nat) : str :=
  dec_padded 2 (at_ raw i) ++ ascii ":" ++ dec_padded 2 (at_ raw (S i)) ++ ascii ":" ++ dec_padded 2 (at_ raw (S (S i))).

Definition decode_datetime (body : list byte) : option (BinaryValue * Z) :=
  b ← head body;
  let length := byte.unsigned b in
  raw ← get_range body 1 (1 + length);
  rendered ←
    (if length =? 0 then Some (ascii "0000-00-00")
     else if length =? 4 then Some (date_text raw)
     else if length =? 7 then Some (date_text raw ++ ascii " " ++ clock_text raw 4)
     else if length =? 11 then
       Some (date_text raw ++ ascii " " ++ clock_text raw 4 ++ ascii "." ++ dec_padded 6 (le_at raw 7 4))
     else None);
  Some (BDateTime rendered, 1 + length).

(** [u32::from(raw[5]) + days * 24], in 32 bits. *)
Definition time_hours (raw : list byte) : Z := wrap_add 32 (at_ raw 5) ((le_at raw 1 4 * 24) mod 2 ^ 32).

Definition time_text (raw : list byte) : str :=
  (if negb (at_ raw 0 =? 0) then ascii "-" else [])
  ++ dec_padded 2 (time_hours raw) ++ ascii ":" ++ dec_padded 2 (at_ raw 6) ++ ascii ":" ++ dec_padded 2 (at_ raw 7).

Definition decode_time (body : list byte) : option (BinaryValue * Z) :=
  b ← head body;
  let length := byte.unsigned b in
  raw ← get_range body 1 (1 + length);
  rendered ←
    (if length =? 0 then Some (ascii "00:00:00")
     else if length =? 8 then Some (time_text raw)
     else if length =? 12 then Some (time_text raw ++ ascii "." ++ dec_padded 6 (le_at raw 8 4))
     else None);
  Some (BTime rendered, 1 + length).

(** A fixed-width integer, signed or not. *)
Definition decode_integer (width : nat) (unsigned_ : bool) (body : list byte) : option (BinaryValue * Z) :=
  raw ← get_range body 0 (Z.of_nat width);
  Some (if unsigned_ then BUInt (from_le raw) else BInt (signed (8 * Z.of_nat width) (from_le raw)), Z.of_nat width).

Definition decode_binary_value (parameter : ParameterType) (body : list byte) : option (BinaryValue * Z) :=
  let tag := pt_column_type parameter in
  let is_ t := tag =? column_type_tag t in
  if is_ MysqlTypeNull then Some (BNull, 0)
  else if is_ MysqlTypeTiny then decode_integer 1 (pt_unsigned parameter) body
  else if is_ MysqlTypeShort || is_ MysqlTypeYear then decode_integer 2 (pt_unsigned parameter) body
  else if is_ MysqlTypeLong then decode_integer 4 (pt_unsigned parameter) body
  else if is_ MysqlTypeLonglong then decode_integer 8 (pt_unsigned parameter) body
  else if is_ MysqlTypeFloat then raw ← get_range body 0 4; Some (BFloat (from_le raw), 4)
  else if is_ MysqlTypeDouble then raw ← get_range body 0 8; Some (BDouble (from_le raw), 8)
  else if is_ MysqlTypeDate || is_ MysqlTypeDatetime || is_ MysqlTypeTimestamp then decode_datetime body
  else if is_ MysqlTypeTime then decode_time body
  else
    '(value, consumed) ← length_encoded_bytes body;
    Some (match value with Some bytes => BBytes bytes | None => BNull end, consumed).

(** The loop over the parameters from [cursor]. *)
Fixpoint decode_values (body : list byte) (cursor : Z) (nulls : list bool) (types : list ParameterType) : option (list BinaryValue) :=
  match types with
  | [] => Some []
  | parameter :: types =>
      let '(null, nulls) := match nulls with b :: nulls => (b, nulls) | [] => (false, []) end in
      if null : bool then values ← decode_values body cursor nulls types; Some (BNull :: values)
      else
        rest ← get_from body cursor;
        '(value, consumed) ← decode_binary_value parameter rest;
        values ← decode_values body (cursor + consumed) nulls types;
        Some (value :: values)
  end.

Definition decode_execute_parameters (body : list byte) (parameters : Z) (remembered : option (list ParameterType))
    : option (list BinaryValue * list ParameterType) :=
  if parameters =? 0 then Some ([], [])
  else
    let bitmap_len := null_bitmap_len parameters 0 in
    bitmap ← get_range body 5 (5 + bitmap_len);
    let nulls := parameter_null_flags bitmap parameters in
    let cursor := 5 + bitmap_len in
    flag ← body !! Z.to_nat cursor;
    let cursor := cursor + 1 in
    '(types, cursor) ←
      (if byte.unsigned flag =? 1 then
         rest ← get_from body cursor;
         '(types, consumed) ← parse_parameter_types rest parameters;
         Some (types, cursor + consumed)
       else types ← remembered; Some (types, cursor));
    if negb (len types =? parameters) then None
    else
      values ← decode_values body cursor nulls types;
      Some (values, types).

(** ** Encoding result values *)

Inductive IntWidth : Type := WTiny | WShort | WLong | WLongLong.

Definition int_bytes (width : IntWidth) : nat :=
  match width with WTiny => 1 | WShort => 2 | WLong => 4 | WLongLong => 8 end.

(** The first bytes of the eight of the value. *)
Definition encode_binary_int (value : Z) (width : IntWidth) : list byte := take (int_bytes width) (to_le 8 value).

Definition nonzero (micros : option Z) : option Z :=
  match micros with Some m => if m =? 0 then None else Some m | None => None end.

Definition encode_binary_datetime (year month day : Z) (time : option (Z * Z * Z * option Z)) : list byte :=
  match time with
  | None =>
      if (year =? 0) && (month =? 0) && (day =? 0) then [zero]
      else [byte.of_Z 4] ++ to_le 2 year ++ [byte.of_Z month; byte.of_Z day]
  | Some (hour, minute, second, micros) =>
      let micros := nonzero micros in
      [byte.of_Z (match micros with Some _ => 11 | None => 7 end)]
      ++ to_le 2 year ++ [byte.of_Z month; byte.of_Z day; byte.of_Z hour; byte.of_Z minute; byte.of_Z second]
      ++ match micros with Some m => to_le 4 m | None => [] end
  end.

Definition encode_binary_time (negative : bool) (days hour minute second : Z) (micros : option Z) : list byte :=
  let micros := nonzero micros in
  if negb negative && (days =? 0) && (hour =? 0) && (minute =? 0) && (second =? 0)
     && match micros with None => true | Some _ => false end then [zero]
  else
    [byte.of_Z (match micros with Some _ => 12 | None => 8 end)]
    ++ [byte.of_Z (if negative then 1 else 0)] ++ to_le 4 days
    ++ [byte.of_Z hour; byte.of_Z minute; byte.of_Z second]
    ++ match micros with Some m => to_le 4 m | None => [] end.

(** ** What a client binds *)

Inductive ClientValue : Type :=
| CvNull
| CvInt (value : Z)
| CvUInt (value : Z)
| CvFloat (bits : Z)
| CvDouble (bits : Z)
| CvBytes (value : list byte)
| CvDatetime (year month day : Z) (time : option (Z * Z * Z * option Z))
| CvTime (negative : bool) (days hour minute second : Z) (micros : option Z).

(** The width of the integer a type tag carries. *)
Definition tag_width (tag : Z) : option IntWidth :=
  if tag =? column_type_tag MysqlTypeTiny then Some WTiny
  else if (tag =? column_type_tag MysqlTypeShort) || (tag =? column_type_tag MysqlTypeYear) then Some WShort
  else if tag =? column_type_tag MysqlTypeLong then Some WLong
  else if tag =? column_type_tag MysqlTypeLonglong then Some WLongLong
  else None.

Definition tag_dated (tag : Z) : bool :=
  (tag =? column_type_tag MysqlTypeDate) || (tag =? column_type_tag MysqlTypeDatetime) || (tag =? column_type_tag MysqlTypeTimestamp).

(** A tag whose values are length-encoded strings. *)
Definition tag_text (tag : Z) : bool :=
  negb (tag =? column_type_tag MysqlTypeNull) && match tag_width tag with None => true | Some _ => false end
  && negb (tag =? column_type_tag MysqlTypeFloat) && negb (tag =? column_type_tag MysqlTypeDouble)
  && negb (tag_dated tag) && negb (tag =? column_type_tag MysqlTypeTime).

Definition optional_u32 (micros : option Z) : bool := match micros with Some m => is_u32 m | None => true end.

(** The value fits the type it is bound with. *)
Definition bound (t : ParameterType) (v : ClientValue) : bool :=
  let tag := pt_column_type t in
  match v with
  | CvNull => true
  | CvInt value =>
      negb (pt_unsigned t) && match tag_width tag with Some w => in_signed (8 * Z.of_nat (int_bytes w)) value | None => false end
  | CvUInt value =>
      pt_unsigned t && match tag_width tag with Some w => in_unsigned (8 * Z.of_nat (int_bytes w)) value | None => false end
  | CvFloat bits => (tag =? column_type_tag MysqlTypeFloat) && is_u32 bits
  | CvDouble bits => (tag =? column_type_tag MysqlTypeDouble) && is_u64 bits
  | CvBytes value => tag_text tag && (len value <? 2 ^ 63)
  | CvDatetime year month day time =>
      tag_dated tag && is_u16 year && is_u8 month && is_u8 day
      && match time with
         | Some (hour, minute, second, micros) => is_u8 hour && is_u8 minute && is_u8 second && optional_u32 micros
         | None => true
         end
  | CvTime negative days hour minute second micros =>
      (tag =? column_type_tag MysqlTypeTime) && is_u32 days && is_u8 hour && is_u8 minute && is_u8 second && optional_u32 micros
      && (hour + days * 24 <? 2 ^ 32)
  end.

(** Its bytes in the body of an execute. *)
Definition client_bytes (t : ParameterType) (v : ClientValue) : list byte :=
  match v with
  | CvNull => []
  | CvInt value | CvUInt value =>
      match tag_width (pt_column_type t) with Some w => encode_binary_int value w | None => [] end
  | CvFloat bits => to_le 4 bits
  | CvDouble bits => to_le 8 bits
  | CvBytes value => put_length_encoded_bytes [] value
  | CvDatetime year month day time => encode_binary_datetime year month day time
  | CvTime negative days hour minute second micros => encode_binary_time negative days hour minute second micros
  end.

Definition fraction_text (micros : option Z) : str := match nonzero micros with Some m => ascii "." ++ dec_padded 6 m | None => [] end.

(** What the engine is given for it. *)
Definition shown (v : ClientValue) : BinaryValue :=
  match v with
  | CvNull => BNull
  | CvInt value => BInt value
  | CvUInt value => BUInt value
  | CvFloat bits => BFloat bits
  | CvDouble bits => BDouble bits
  | CvBytes value => BBytes value
  | CvDatetime year month day time =>
      BDateTime (dec_padded 4 year ++ ascii "-" ++ dec_padded 2 month ++ ascii "-" ++ dec_padded 2 day ++
        match time with
        | Some (hour, minute, second, micros) =>
            ascii " " ++ dec_padded 2 hour ++ ascii ":" ++ dec_padded 2 minute ++ ascii ":" ++ dec_padded 2 second ++ fraction_text micros
        | None => []
        end)
  | CvTime negative days hour minute second micros =>
      BTime ((if negative then ascii "-" else []) ++ dec_padded 2 (hour + days * 24) ++ ascii ":" ++ dec_padded 2 minute
        ++ ascii ":" ++ dec_padded 2 second ++ fraction_text micros)
  end.

(** ** Lemmas on values *)

Lemma take_to_le n m z : (n <= m)%nat -> take n (to_le m z) = to_le n z.
Proof.
  unfold to_le. revert m z; induction n as [|n IH]; intros [|m] z Hn; [easy..|]. 
  change (byte.of_Z z :: take n (LittleEndianList.le_split m (Z.shiftr z 8)) = byte.of_Z z :: LittleEndianList.le_split n (Z.shiftr z 8)).
  f_equal. apply IH. lia.
Qed.

Lemma binary_int value w : encode_binary_int value w = to_le (int_bytes w) value.
Proof. unfold encode_binary_int. apply take_to_le. destruct w; cbn; lia. Qed.

(** A type tag, by the branch of the decoder it takes. *)
Lemma decode_by_tag t body :
  decode_binary_value t body =
    let tag := pt_column_type t in
    match tag_width tag with
    | Some w => decode_integer (int_bytes w) (pt_unsigned t) body
    | None =>
        if tag =? column_type_tag MysqlTypeNull then Some (BNull, 0)
        else if tag =? column_type_tag MysqlTypeFloat then raw ← get_range body 0 4; Some (BFloat (from_le raw), 4)
        else if tag =? column_type_tag MysqlTypeDouble then raw ← get_range body 0 8; Some (BDouble (from_le raw), 8)
        else if tag_dated tag then decode_datetime body
        else if tag =? column_type_tag MysqlTypeTime then decode_time body
        else
          '(value, consumed) ← length_encoded_bytes body;
          Some (match value with Some bytes => BBytes bytes | None => BNull end, consumed)
    end.
Proof.
  unfold decode_binary_value, tag_width, tag_dated. cbv zeta. set (tag := pt_column_type t). clearbody tag.
  destruct (Z.eqb_spec tag (column_type_tag MysqlTypeNull)) as [->|_]; [easy|].
  destruct (tag =? column_type_tag MysqlTypeTiny); [easy|].
  destruct ((tag =? column_type_tag MysqlTypeShort) || (tag =? column_type_tag MysqlTypeYear)); [easy|].
  destruct (tag =? column_type_tag MysqlTypeLong); [easy|]. now destruct (tag =? column_type_tag MysqlTypeLonglong).
Qed.

Lemma integer_read t value w rest : tag_width (pt_column_type t) = Some w ->
  (if pt_unsigned t then in_unsigned (8 * Z.of_nat (int_bytes w)) value else in_signed (8 * Z.of_nat (int_bytes w)) value) = true ->
  decode_binary_value t (encode_binary_int value w ++ rest) =
    Some (if pt_unsigned t then BUInt value else BInt value, len (encode_binary_int value w)).
Proof.
  intros Et Hv. rewrite decode_by_tag. cbv zeta. rewrite Et, binary_int. unfold decode_integer.
  rewrite get_range_front by now rewrite len_to_le. cbn [mbind option_bind]. rewrite len_to_le. do 2 f_equal.
  destruct (pt_unsigned t); f_equal; [now apply from_to_le_small|]. rewrite from_to_le. apply signed_mod; [destruct w; cbn; lia|easy].
Qed.

(** A value whose first byte is the length of the rest. *)
Lemma sized_range n raw rest : 0 <= n < 256 -> len raw = n ->
  head ([byte.of_Z n] ++ raw ++ rest) = Some (byte.of_Z n) /\
  get_range ([byte.of_Z n] ++ raw ++ rest) 1 (1 + byte.unsigned (byte.of_Z n)) = Some raw /\ byte.unsigned (byte.of_Z n) = n.
Proof. intros Hn L. rewrite byte_unsigned_of by easy. split; [easy|]. split; [|easy]. apply get_range_app; [easy|now rewrite L]. Qed.

Lemma from_le_two year : is_u16 year = true -> exists a b, to_le 2 year = [a; b] /\ from_le [a; b] = year.
Proof.
  intros H. pose proof (from_to_le_small 2 year H) as E. pose proof (len_to_le 2 year) as L.
  destruct (to_le 2 year) as [|a [|b [|c l]]]; try len_lia. eauto.
Qed.

Lemma from_le_four z : is_u32 z = true -> exists a b c d, to_le 4 z = [a; b; c; d] /\ from_le [a; b; c; d] = z.
Proof.
  intros H. pose proof (from_to_le_small 4 z H) as E. pose proof (len_to_le 4 z) as L.
  destruct (to_le 4 z) as [|a [|b [|c [|d [|e l]]]]]; try len_lia. eauto 6.
Qed.

Lemma nonzero_u32 micros m : optional_u32 micros = true -> nonzero micros = Some m -> is_u32 m = true.
Proof. destruct micros as [x|]; cbn; [|easy]. destruct (x =? 0); [easy|]. now intros ? [= ->]. Qed.

(** One decoding step for a value that starts with its length. *)
Ltac sized n raw rest :=
  let H1 := fresh in let H2 := fresh in let H3 := fresh in
  destruct (sized_range n raw rest) as (H1 & H2 & H3); [lia|easy|];
  cbn [app] in H1, H2 |- *; rewrite H1; cbn [mbind option_bind]; cbv zeta; rewrite H2, H3; clear H1 H2 H3;
  cbn [mbind option_bind Z.eqb Pos.eqb].

Lemma datetime_read year month day time rest :
  is_u16 year = true -> is_u8 month = true -> is_u8 day = true ->
  match time with
  | Some (hour, minute, second, micros) => is_u8 hour && is_u8 minute && is_u8 second && optional_u32 micros
  | None => true
  end = true ->
  decode_datetime (encode_binary_datetime year month day time ++ rest) =
    Some (shown (CvDatetime year month day time), len (encode_binary_datetime year month day time)).
Proof.
  intros Hy Hm Hd Ht. apply in_unsigned_spec in Hm, Hd. destruct (from_le_two year Hy) as (a & b & Ey & Fy).
  unfold decode_datetime, encode_binary_datetime, shown. destruct time as [[[[hour minute] second] micros]|].
  - apply andb_prop in Ht as [Ht Hu]. apply andb_prop in Ht as [Ht Hs]. apply andb_prop in Ht as [Hh Hmi]. apply in_unsigned_spec in Hh, Hmi, Hs.
    unfold fraction_text. rewrite Ey. destruct (nonzero micros) as [z|] eqn:Ez.
    + destruct (from_le_four z (nonzero_u32 _ _ Hu Ez)) as (c1 & c2 & c3 & c4 & Ec & Fc). rewrite Ec.
      sized 11 [a; b; byte.of_Z month; byte.of_Z day; byte.of_Z hour; byte.of_Z minute; byte.of_Z second; c1; c2; c3; c4] rest.
      unfold date_text, clock_text, at_, le_at. cbn [nth take drop]. rewrite !byte_unsigned_of, Fy, Fc by lia. now rewrite <- !app_assoc.
    + sized 7 [a; b; byte.of_Z month; byte.of_Z day; byte.of_Z hour; byte.of_Z minute; byte.of_Z second] rest.
      unfold date_text, clock_text, at_, le_at. cbn [nth take drop]. rewrite !byte_unsigned_of, Fy, app_nil_r by lia. now rewrite <- !app_assoc.
  - rewrite app_nil_r. destruct ((year =? 0) && (month =? 0) && (day =? 0)) eqn:E0.
    + apply andb_prop in E0 as [E0 ->%Z.eqb_eq]. apply andb_prop in E0 as [->%Z.eqb_eq ->%Z.eqb_eq].
      change zero with (byte.of_Z 0). sized 0 (@nil byte) rest. reflexivity.
    + rewrite Ey. sized 4 [a; b; byte.of_Z month; byte.of_Z day] rest.
      unfold date_text, at_, le_at. cbn [nth take drop]. now rewrite !byte_unsigned_of, Fy by lia.
Qed.

Lemma time_read negative days hour minute second micros rest :
  is_u32 days = true -> is_u8 hour = true -> is_u8 minute = true -> is_u8 second = true -> optional_u32 micros = true ->
  hour + days * 24 < 2 ^ 32 ->
  decode_time (encode_binary_time negative days hour minute second micros ++ rest) =
    Some (shown (CvTime negative days hour minute second micros), len (encode_binary_time negative days hour minute second micros)).
Proof.
  intros Hd Hh Hmi Hs Hu Hw. pose proof Hd as Hdr. apply in_unsigned_spec in Hdr, Hh, Hmi, Hs.
  destruct (from_le_four days Hd) as (a & b & c & d & Ed & Fd). unfold decode_time, encode_binary_time, shown. cbv zeta.
  assert (Ht : forall raw, raw = [byte.of_Z (if negative then 1 else 0); a; b; c; d; byte.of_Z hour; byte.of_Z minute; byte.of_Z second] -> forall more,
    time_text (raw ++ more) = (if negative then ascii "-" else []) ++ dec_padded 2 (hour + days * 24) ++ ascii ":" ++ dec_padded 2 minute ++ ascii ":" ++ dec_padded 2 second).
  { intros raw -> more. unfold time_text, time_hours, at_, le_at. cbn [nth take drop app]. rewrite !byte_unsigned_of, Fd by (destruct negative; lia).
    rewrite (Z.mod_small (days * 24)) by lia. unfold wrap_add. rewrite Z.mod_small by lia. now destruct negative. }
  destruct (_ && _) eqn:E0.
  - repeat match goal with H : _ && _ = true |- _ => apply andb_prop in H; destruct H end. zbool. clear Fd Ht. subst.
    unfold fraction_text. destruct (nonzero micros); [easy|]. change zero with (byte.of_Z 0). sized 0 (@nil byte) rest. reflexivity.
  - rewrite Ed. unfold fraction_text. destruct (nonzero micros) as [z|] eqn:Ez.
    + destruct (from_le_four z (nonzero_u32 _ _ Hu Ez)) as (c1 & c2 & c3 & c4 & Ec & Fc). rewrite Ec.
      sized 12 [byte.of_Z (if negative then 1 else 0); a; b; c; d; byte.of_Z hour; byte.of_Z minute; byte.of_Z second; c1; c2; c3; c4] rest.
      pose proof (Ht _ eq_refl [c1; c2; c3; c4]) as Et. cbn [app] in Et. rewrite Et. unfold le_at. cbn [drop take]. rewrite Fc. now rewrite <- !app_assoc.
    + sized 8 [byte.of_Z (if negative then 1 else 0); a; b; c; d; byte.of_Z hour; byte.of_Z minute; byte.of_Z second] rest.
      pose proof (Ht _ eq_refl []) as Et. cbn [app] in Et. rewrite Et. now rewrite app_nil_r.
Qed.

Lemma dated_tag tag : tag_dated tag = true -> tag_width tag = None /\ (tag =? column_type_tag MysqlTypeNull) = false /\
  (tag =? column_type_tag MysqlTypeFloat) = false /\ (tag =? column_type_tag MysqlTypeDouble) = false.
Proof. unfold tag_dated. intros H. apply orb_prop in H as [[H|H]%orb_prop|H]; apply Z.eqb_eq in H as ->; easy. Qed.

Lemma value_read t v rest : bound t v = true -> v <> CvNull ->
  decode_binary_value t (client_bytes t v ++ rest) = Some (shown v, len (client_bytes t v)).
Proof.
  intros Hb Hn. destruct v as [|value|value|bits|bits|value|year month day time|negative days hour minute second micros];
    cbn [bound client_bytes] in *; [easy|..].
  - apply andb_prop in Hb as [Hu%negb_true_iff Hb]. destruct (tag_width _) as [w|] eqn:Et; [|easy].
    rewrite (integer_read t value w) by (easy || now rewrite Hu). now rewrite Hu.
  - apply andb_prop in Hb as [Hu Hb]. destruct (tag_width _) as [w|] eqn:Et; [|easy].
    rewrite (integer_read t value w) by (easy || now rewrite Hu). now rewrite Hu.
  - apply andb_prop in Hb as [Et%Z.eqb_eq Hb]. rewrite decode_by_tag, Et. cbn -[get_range to_le from_le].
    rewrite get_range_front by now rewrite len_to_le. cbn [mbind option_bind]. now rewrite from_to_le_small, len_to_le.
  - apply andb_prop in Hb as [Et%Z.eqb_eq Hb]. rewrite decode_by_tag, Et. cbn -[get_range to_le from_le].
    rewrite get_range_front by now rewrite len_to_le. cbn [mbind option_bind]. now rewrite from_to_le_small, len_to_le.
  - apply andb_prop in Hb as [Ht Hl%Z.ltb_lt]. unfold tag_text in Ht. repeat match goal with H : _ && _ = true |- _ => apply andb_prop in H; destruct H end.
    rewrite decode_by_tag. cbv zeta. destruct (tag_width _); [easy|].
    repeat match goal with H : negb _ = true |- _ => apply negb_true_iff in H; rewrite H; clear H end.
    now rewrite length_encoded_bytes_put.
  - apply andb_prop in Hb as [Hb Ht]. apply andb_prop in Hb as [Hb Hd]. apply andb_prop in Hb as [Hb Hm]. apply andb_prop in Hb as [Ed Hy].
    rewrite decode_by_tag. cbv zeta. destruct (dated_tag _ Ed) as (-> & -> & -> & ->). rewrite Ed. now apply datetime_read.
  - repeat match goal with H : _ && _ = true |- _ => apply andb_prop in H; destruct H end.
    match goal with H : (_ =? _) = true |- _ => apply Z.eqb_eq in H; rename H into Et end.
    match goal with H : (_ <? _) = true |- _ => apply Z.ltb_lt in H end.
    rewrite decode_by_tag, Et. cbn -[decode_time encode_binary_time app shown]. now apply time_read.
Qed.

(** ** Truncated bodies *)

Lemma get_range_cut {A} (l : list A) s e k : 0 <= k < e -> get_range (front k l) s e = None.
Proof. intros H. apply get_range_None. intros [_ G]. rewrite len_front in G by lia. lia. Qed.

Lemma get_range_kept {A} (l : list A) s e k : e <= k -> k <= len l -> get_range (front k l) s e = get_range l s e.
Proof.
  intros H1 H2. destruct (Z.le_gt_cases 0 s) as [Hs|Hs].
  2:{ rewrite !(proj2 (get_range_None _ _ _)) by lia. easy. }
  destruct (Z.le_gt_cases s e) as [Hse|Hse].
  2:{ rewrite !(proj2 (get_range_None _ _ _)) by lia. easy. }
  unfold get_range. rewrite len_front by lia. replace (Z.min k (len l)) with k by lia.
  rewrite !(proj2 (Z.leb_le _ _)) by lia. cbn [andb]. f_equal. unfold front. rewrite skipn_firstn_comm, take_take. f_equal. lia.
Qed.

Lemma head_kept {A} (l : list A) k : 1 <= k -> head (front k l) = head l.
Proof. intros. unfold front. destruct l; [now rewrite take_nil|]. now destruct (Z.to_nat k) eqn:E; [lia|]. Qed.

Lemma front_zero {A} (l : list A) : front 0 l = [].
Proof. reflexivity. Qed.

Lemma lenenc_integer_cut bytes v n k : length_encoded_integer bytes = Some (v, n) -> 0 <= k <= len bytes ->
  length_encoded_integer (front k bytes) = if n <=? k then Some (v, n) else None.
Proof.
  intros E Hk. destruct (length_encoded_integer_bounds _ _ _ E) as (Hn & Hl & _). destruct bytes as [|b bytes]; [easy|].
  destruct (Z.eq_dec k 0) as [->|Hk0]; [now rewrite (proj2 (Z.leb_gt _ _)) by lia|].
  assert (Eh : exists r, front k (b :: bytes) = b :: r).
  { unfold front. destruct (Z.to_nat k) eqn:Ek; [lia|]. cbn. eauto. }
  destruct Eh as [r Er]. rewrite Er. cbn [length_encoded_integer] in E |- *. cbv zeta in *. rewrite <- Er.
  destruct (_ =? 251). { injection E as <- <-. now rewrite (proj2 (Z.leb_le _ _)) by lia. }
  destruct (_ <=? 250). { injection E as <- <-. now rewrite (proj2 (Z.leb_le _ _)) by lia. }
  assert (G : forall e, 2 <= e -> match get_range (b :: bytes) 1 e with Some raw => Some (Some (from_le raw), e) | None => None end = Some (v, n) ->
    match get_range (front k (b :: bytes)) 1 e with Some raw => Some (Some (from_le raw), e) | None => None end = if n <=? k then Some (v, n) else None).
  { intros e He Ee. assert (n = e) as -> by (destruct (get_range (b :: bytes) 1 e); [now injection Ee|easy]).
    destruct (Z.leb_spec e k); [now rewrite get_range_kept by lia|now rewrite get_range_cut by lia]. }
  destruct (_ =? 252); [now apply G|]. destruct (_ =? 253); [now apply G|now apply G].
Qed.

Lemma lenenc_bytes_cut bytes v n k : length_encoded_bytes bytes = Some (v, n) -> 0 <= k < n -> length_encoded_bytes (front k bytes) = None.
Proof.
  unfold length_encoded_bytes. destruct (length_encoded_integer bytes) as [[[m|] c]|] eqn:E; [| |easy].
  - destruct (length_encoded_integer_bounds _ _ _ E) as (Hc & Hl & Hm). destruct (get_range bytes _ _) eqn:G; [|easy]. intros [= <- <-] Hk.
    apply get_range_Some in G as (pre & post & Eb & Lp & Lx). pose proof (len_nonneg post). pose proof (len_nonneg l).
    rewrite (lenenc_integer_cut _ _ _ k E) by (rewrite Eb, !len_app in *; lia).
    destruct (c <=? k); [|easy]. now rewrite get_range_cut.
  - destruct (length_encoded_integer_bounds _ _ _ E) as (Hc & Hl & _). intros [= <- <-] Hk. rewrite (lenenc_integer_cut _ _ _ k E) by lia.
    now rewrite (proj2 (Z.leb_gt _ _)) by lia.
Qed.

Lemma value_cut t body v n k : decode_binary_value t body = Some (v, n) -> 0 <= k < n -> decode_binary_value t (front k body) = None.
Proof.
  rewrite !decode_by_tag. cbv zeta. intros E Hk.
  assert (S : forall f : list byte -> byte -> option str, forall mk : str -> BinaryValue,
    (b ← head body; raw ← get_range body 1 (1 + byte.unsigned b); rendered ← f raw b; Some (mk rendered, 1 + byte.unsigned b)) = Some (v, n) ->
    (b ← head (front k body); raw ← get_range (front k body) 1 (1 + byte.unsigned b); rendered ← f raw b; Some (mk rendered, 1 + byte.unsigned b)) = None).
  { intros f mk Ef. destruct (Z.eq_dec k 0) as [->|]; [easy|]. rewrite head_kept by lia. destruct (head body) as [b|]; [|easy]. cbn [mbind option_bind] in *.
    destruct (get_range body 1 _); [|easy]. cbn [mbind option_bind] in Ef. destruct (f _ _); [|easy]. injection Ef as _ <-. now rewrite get_range_cut. }
  destruct (tag_width _) as [w|].
  { unfold decode_integer in *. destruct (get_range body 0 _); [|easy]. injection E as _ <-. now rewrite get_range_cut. }
  destruct (_ =? column_type_tag MysqlTypeNull); [injection E as _ <-; lia|].
  destruct (_ =? column_type_tag MysqlTypeFloat); [destruct (get_range body 0 4); [|easy]; injection E as _ <-; now rewrite get_range_cut|].
  destruct (_ =? column_type_tag MysqlTypeDouble); [destruct (get_range body 0 8); [|easy]; injection E as _ <-; now rewrite get_range_cut|].
  destruct (tag_dated _); [exact (S _ BDateTime E)|]. destruct (_ =? column_type_tag MysqlTypeTime); [exact (S _ BTime E)|].
  destruct (length_encoded_bytes body) as [[x c]|] eqn:El; [|easy]. cbn [mbind option_bind] in E. injection E as _ <-.
  now rewrite (lenenc_bytes_cut _ _ _ _ El).
Qed.

(** ** Bodies of an execute *)

Definition is_cv_null (v : ClientValue) : bool := match v with CvNull => true | _ => false end.

(** Parameters bound with their types. *)
Definition Bound : Type := list (ParameterType * ClientValue).
Definition all_bound (ps : Bound) : bool := forallb (fun p => bound (fst p) (snd p)) ps.
Definition values_bytes (ps : Bound) : list byte := concat (map (fun p => client_bytes (fst p) (snd p)) ps).
Definition nulls_of (ps : Bound) : list bool := map (fun p => is_cv_null (snd p)) ps.
Definition shown_all (ps : Bound) : list BinaryValue := map (fun p => shown (snd p)) ps.

Definition type_bytes (t : ParameterType) : list byte :=
  [byte.of_Z (pt_column_type t); byte.of_Z (if pt_unsigned t then 0x80 else 0)].
Definition types_bytes (ts : list ParameterType) : list byte := concat (map type_bytes ts).
Definition types_wf (ts : list ParameterType) : bool := forallb (fun t => is_u8 (pt_column_type t)) ts.

(** The body by the layout of the protocol: flags and iteration count, bitmap, the flag that
    tells whether types follow, the types, the values that are not NULL. *)
Definition execute_body (flags bitmap : list byte) (rebind : bool) (ps : Bound) : list byte :=
  flags ++ bitmap ++ [byte.of_Z (if rebind then 1 else 0)]
  ++ (if rebind then types_bytes (map fst ps) else []) ++ values_bytes ps.

(** The bitmap marks the NULL parameters. *)
Definition marks (bitmap : list byte) (ps : Bound) : Prop :=
  len bitmap = null_bitmap_len (len ps) 0 /\ map (fun i => bitmap_flag bitmap (Z.of_nat i)) (seq 0 (length ps)) = nulls_of ps.

Lemma decode_values_read ps : forall pre rest, all_bound ps = true ->
  decode_values (pre ++ values_bytes ps ++ rest) (len pre) (nulls_of ps) (map fst ps) = Some (shown_all ps).
Proof.
  induction ps as [|[t v] ps IH]; intros pre rest; [easy|].
  unfold all_bound, values_bytes, nulls_of, shown_all. cbn [forallb map concat fst snd decode_values]. intros [H1 H2]%andb_prop.
  destruct (is_cv_null v) eqn:En.
  - destruct v; try easy. cbn [client_bytes app]. specialize (IH pre rest H2). unfold values_bytes, nulls_of in IH. now rewrite IH.
  - rewrite get_from_app by easy. cbn [mbind option_bind]. rewrite <- app_assoc, value_read by (easy || now destruct v). cbn [mbind option_bind].
    specialize (IH (pre ++ client_bytes t v) rest H2). unfold values_bytes, nulls_of in IH. rewrite len_app, <- app_assoc in IH. now rewrite IH.
Qed.

Lemma decode_values_cut ps : forall pre k, all_bound ps = true -> len pre <= k < len (pre ++ values_bytes ps) ->
  decode_values (front k (pre ++ values_bytes ps)) (len pre) (nulls_of ps) (map fst ps) = None.
Proof.
  induction ps as [|[t v] ps IH]; intros pre k.
  { unfold values_bytes. cbn. intros _. rewrite app_nil_r. lia. }
  unfold all_bound, values_bytes, nulls_of. cbn [forallb map concat fst snd decode_values]. intros [H1 H2]%andb_prop Hk.
  destruct (is_cv_null v) eqn:En.
  - destruct v; try easy. cbn [client_bytes app] in *. specialize (IH pre k H2 Hk). unfold values_bytes, nulls_of in IH. now rewrite IH.
  - assert (Hv : v <> CvNull) by now destruct v. set (a := client_bytes t v) in *. fold (values_bytes ps) in *. rewrite !len_app in Hk.
    rewrite front_app_more, get_from_app by lia. cbn [mbind option_bind]. destruct (Z.lt_ge_cases (k - len pre) (len a)) as [Hj|Hj].
    + rewrite front_app_less by lia. pose proof (value_read t v [] H1 Hv) as E. rewrite app_nil_r in E. fold a in E. now rewrite (value_cut _ _ _ _ (k - len pre) E) by lia.
    + rewrite front_app_more by lia. rewrite (value_read t v _ H1 Hv). cbn [mbind option_bind]. fold a.
      specialize (IH (pre ++ a) k H2). rewrite len_app, <- app_assoc, !len_app in IH. specialize (IH ltac:(lia)).
      rewrite front_app_more, front_app_more in IH by lia. unfold nulls_of in IH. now rewrite IH.
Qed.

Lemma parameter_types_read ts : types_wf ts = true -> parameter_types (types_bytes ts) = ts.
Proof.
  unfold types_bytes. induction ts as [|[tag u] ts IH]; [easy|]. cbn [types_wf forallb map concat type_bytes app parameter_types pt_column_type pt_unsigned].
  intros [H1%in_unsigned_spec H2]%andb_prop. rewrite IH, byte_unsigned_of by easy. destruct u; reflexivity.
Qed.

Lemma len_types_bytes ts : len (types_bytes ts) = 2 * len ts.
Proof. unfold types_bytes. induction ts as [|t ts IH]; [easy|]. cbn [map concat]. rewrite len_app, IH, len_cons. change (len (type_bytes t)) with 2. lia. Qed.

Lemma lookup_at {A} (pre : list A) x post z : z = len pre -> (pre ++ [x] ++ post) !! Z.to_nat z = Some x.
Proof. intros ->. unfold len. rewrite Nat2Z.id. now apply list_lookup_middle. Qed.

Lemma execute_read flags bitmap rebind ps remembered :
  0 < len ps < 2 ^ 63 -> len flags = 5 -> marks bitmap ps -> all_bound ps = true -> types_wf (map fst ps) = true ->
  (rebind = false -> remembered = Some (map fst ps)) ->
  decode_execute_parameters (execute_body flags bitmap rebind ps) (len ps) remembered = Some (shown_all ps, map fst ps).
Proof.
  intros Hn Lf [Lb Hm] Hb Ht Hr. unfold decode_execute_parameters, execute_body. rewrite (proj2 (Z.eqb_neq _ _)) by lia. cbv zeta.
  rewrite get_range_app by lia. cbn [mbind option_bind]. rewrite parameter_flags.
  replace (Z.to_nat (len ps)) with (length ps) by (unfold len; lia). rewrite Hm.
  rewrite app_assoc, lookup_at by (rewrite len_app; lia). cbn [mbind option_bind]. destruct rebind.
  - change (byte.unsigned (byte.of_Z 1) =? 1) with true. cbv iota. rewrite (app_assoc (flags ++ bitmap)), get_from_app by (rewrite !len_app; change (len [byte.of_Z 1]) with 1; lia).
    cbn [mbind option_bind]. unfold parse_parameter_types. rewrite (proj2 (Z.leb_gt _ _)) by lia. cbv zeta.
    assert (L : len ps * 2 = len (types_bytes (map fst ps))) by (rewrite len_types_bytes, len_map; lia).
    rewrite get_range_front by easy. cbn [mbind option_bind]. rewrite parameter_types_read, len_map, Z.eqb_refl by easy. cbn [negb].
    rewrite app_assoc, <- (app_nil_r (values_bytes ps)).
    replace (5 + null_bitmap_len (len ps) 0 + 1 + len ps * 2) with (len (((flags ++ bitmap) ++ [byte.of_Z 1]) ++ types_bytes (map fst ps)))
      by (rewrite !len_app; change (len [byte.of_Z 1]) with 1; lia).
    now rewrite decode_values_read.
  - change (byte.unsigned (byte.of_Z 0) =? 1) with false. cbv iota. rewrite Hr by easy. cbn [mbind option_bind]. rewrite len_map, Z.eqb_refl. cbn [negb].
    cbn [app]. change (byte.of_Z 0 :: values_bytes ps) with ([byte.of_Z 0] ++ values_bytes ps). rewrite app_assoc, <- (app_nil_r (values_bytes ps)).
    replace (5 + null_bitmap_len (len ps) 0 + 1) with (len ((flags ++ bitmap) ++ [byte.of_Z 0])) by (rewrite !len_app; change (len [byte.of_Z 0]) with 1; lia).
    now rewrite decode_values_read.
Qed.

Lemma lookup_cut {A} (l : list A) k z : 0 <= k <= z -> front k l !! Z.to_nat z = None.
Proof. intros H. apply lookup_ge_None. unfold front. rewrite length_take. lia. Qed.

(** A prefix that holds the bitmap and the flag. *)
Lemma execute_start flags bitmap x rest n remembered k :
  0 < n -> len flags = 5 -> len bitmap = null_bitmap_len n 0 -> 5 + len bitmap < k ->
  decode_execute_parameters (front k (flags ++ bitmap ++ [x] ++ rest)) n remembered =
    let nulls := parameter_null_flags bitmap n in
    let body := ((flags ++ bitmap) ++ [x]) ++ front (k - (5 + len bitmap + 1)) rest in
    '(types, cursor) ←
      (if byte.unsigned x =? 1 then
         '(types, consumed) ← parse_parameter_types (front (k - (5 + len bitmap + 1)) rest) n;
         Some (types, 5 + len bitmap + 1 + consumed)
       else types ← remembered; Some (types, 5 + len bitmap + 1));
    if negb (len types =? n) then None else values ← decode_values body cursor nulls types; Some (values, types).
Proof.
  intros Hn Lf Lb Hk. pose proof (len_nonneg bitmap). assert (L : len ((flags ++ bitmap) ++ [x]) = 5 + len bitmap + 1) by (rewrite !len_app, Lf; easy).
  unfold decode_execute_parameters. rewrite (proj2 (Z.eqb_neq _ _)) by lia. cbv zeta.
  rewrite (app_assoc flags), (app_assoc (flags ++ bitmap)), front_app_more, L, <- Lb by lia. set (tail := front _ rest). rewrite <- !(app_assoc flags).
  rewrite <- !app_assoc, get_range_app by lia. cbn [mbind option_bind].
  rewrite (app_assoc flags), lookup_at by (rewrite len_app; lia). cbn [mbind option_bind].
  rewrite (app_assoc (flags ++ bitmap)), get_from_app by lia. cbn [mbind option_bind]. now destruct (byte.unsigned x =? 1).
Qed.

Lemma execute_cut flags bitmap rebind ps remembered k :
  0 < len ps < 2 ^ 63 -> len flags = 5 -> marks bitmap ps -> all_bound ps = true -> types_wf (map fst ps) = true ->
  (rebind = false -> remembered = Some (map fst ps)) ->
  0 <= k < len (execute_body flags bitmap rebind ps) ->
  decode_execute_parameters (front k (execute_body flags bitmap rebind ps)) (len ps) remembered = None.
Proof.
  intros Hn Lf [Lb Hm] Hb Ht Hr Hk. pose proof (len_nonneg bitmap). destruct (Z.lt_ge_cases (5 + len bitmap) k) as [H5|H5].
  2:{ unfold decode_execute_parameters. rewrite (proj2 (Z.eqb_neq _ _)) by lia. cbv zeta. destruct (get_range _ _ _) eqn:E; [|easy].
      cbn [mbind option_bind]. now rewrite lookup_cut by lia. }
  unfold execute_body in *. rewrite execute_start by easy. cbv zeta.
  assert (En : parameter_null_flags bitmap (len ps) = nulls_of ps).
  { rewrite parameter_flags, <- Hm. do 2 f_equal. unfold len. lia. }
  rewrite En. clear En. set (pre := (flags ++ bitmap) ++ [byte.of_Z (if rebind then 1 else 0)]).
  assert (Lp : len pre = 5 + len bitmap + 1) by (unfold pre; rewrite !len_app, Lf; easy).
  set (rest := (if rebind then types_bytes (map fst ps) else []) ++ values_bytes ps) in *.
  assert (Lr : k < len pre + len rest).
  { rewrite (app_assoc flags), (app_assoc (flags ++ bitmap)) in Hk. fold pre in Hk. rewrite len_app in Hk. lia. }
  rewrite <- Lp. set (j := k - len pre). subst rest. destruct rebind.
  - change (byte.unsigned (byte.of_Z 1) =? 1) with true. cbv iota. unfold parse_parameter_types. rewrite (proj2 (Z.leb_gt _ _)) by lia. cbv zeta.
    assert (L : len ps * 2 = len (types_bytes (map fst ps))) by (rewrite len_types_bytes, len_map; lia). rewrite len_app in Lr.
    destruct (Z.lt_ge_cases j (len ps * 2)); [now rewrite get_range_cut by lia|].
    rewrite front_app_more, get_range_front by lia. cbn [mbind option_bind].
    rewrite parameter_types_read, len_map, Z.eqb_refl by easy. cbn [negb].
    pose proof (decode_values_cut ps (pre ++ types_bytes (map fst ps)) k Hb) as C. rewrite !len_app, front_app_more, len_app, <- L in C by (rewrite len_app; lia).
    specialize (C ltac:(lia)). rewrite <- L, app_assoc. replace (j - len ps * 2) with (k - (len pre + len ps * 2)) by lia. now rewrite C.
  - change (byte.unsigned (byte.of_Z 0) =? 1) with false. cbv iota. rewrite Hr by easy. cbn [mbind option_bind app] in *. rewrite len_map, Z.eqb_refl. cbn [negb].
    pose proof (decode_values_cut ps pre k Hb) as C. rewrite !len_app, front_app_more in C by lia. specialize (C ltac:(lia)). fold j in C. now rewrite C.
Qed.

(** ** What binding parameters promises *)

(** C18. The parameters a client binds are those the statement is executed with: NULLs by the
    bitmap, integers by width and signedness, floats by their bits, strings byte for byte,
    dates and times as their text, however many there are, whether the types come with the
    body or are those remembered; and every proper prefix of such a body is refused. *)
Theorem parameters_bound_exactly flags bitmap rebind ps remembered :
  0 < len ps < 2 ^ 63 -> len flags = 5 -> marks bitmap ps -> all_bound ps = true -> types_wf (map fst ps) = true ->
  (rebind = false -> remembered = Some (map fst ps)) ->
  decode_execute_parameters (execute_body flags bitmap rebind ps) (len ps) remembered = Some (shown_all ps, map fst ps) /\
  forall k, 0 <= k < len (execute_body flags bitmap rebind ps) ->
    decode_execute_parameters (front k (execute_body flags bitmap rebind ps)) (len ps) remembered = None.
Proof. intros. split; [now apply execute_read|]. intros. now apply execute_cut. Qed.

Definition example_bound : Bound :=
  [({| pt_column_type := 8; pt_unsigned := false |}, CvInt (-7)); ({| pt_column_type := 0xfe; pt_unsigned := false |}, CvNull);
   ({| pt_column_type := 0x0b; pt_unsigned := false |}, CvTime true 2 3 4 5 (Some 1000))].

Lemma parameters_bound_exactly_witness :
  decode_execute_parameters (execute_body (replicate 5 zero) [byte.of_Z 2] true example_bound) 3 None =
    Some ([BInt (-7); BNull; BTime (ascii "-51:04:05.001000")], map fst example_bound) /\
  forall k, 0 <= k < 34 -> decode_execute_parameters (front k (execute_body (replicate 5 zero) [byte.of_Z 2] true example_bound)) 3 None = None.
Proof.
  apply (parameters_bound_exactly (replicate 5 zero) [byte.of_Z 2] true example_bound None).
  - vm_compute. split; reflexivity.
  - reflexivity.
  - split; vm_compute; reflexivity.
  - vm_compute. reflexivity.
  - vm_compute. reflexivity.
  - discriminate.
Defined.

(** Result values decode to what was encoded, at the length that was written. *)
Theorem binary_values_read_back t v rest : bound t v = true -> v <> CvNull ->
  decode_binary_value t (client_bytes t v ++ rest) = Some (shown v, len (client_bytes t v)).
Proof. apply value_read. Qed.

Lemma binary_values_read_back_witness :
  decode_binary_value {| pt_column_type := 0x0c; pt_unsigned := false |}
    (client_bytes {| pt_column_type := 0x0c; pt_unsigned := false |} (CvDatetime 2024 1 15 (Some (10, 30, 45, Some 1000))) ++ []) =
    Some (BDateTime (ascii "2024-01-15 10:30:45.001000"), 12).
Proof.
  apply (binary_values_read_back {| pt_column_type := 0x0c; pt_unsigned := false |} (CvDatetime 2024 1 15 (Some (10, 30, 45, Some 1000))) []);
    [reflexivity|discriminate].
Defined.

(** The day count of a [TIME] parameter is multiplied in 32 bits: a count that no valid
    [TIME] has wraps and comes out as a plausible small time instead of being refused. *)
Theorem time_days_wrap :
  decode_time (encode_binary_time false 178956971 0 0 0 None) = Some (BTime (ascii "08:00:00"), 9).
Proof. vm_compute. reflexivity. Qed.

(** A midnight is sent in seven bytes although four carry every field that is not zero. *)
Theorem midnight_not_shortest : len (encode_binary_datetime 2024 1 15 (Some (0, 0, 0, None))) = 8 /\
  len (encode_binary_datetime 2024 1 15 None) = 5.
Proof. split; reflexivity. Qed.
