(* ===== verification/Statements.v ===== *)
(** * Statement boundaries ([src/crates/pintail-sql/src])

    Where one statement of a text request ends: the flags of the SQL mode that change how
    text is read ([mode.rs]), the part of a comment that is executed ([lib.rs]) and the scan
    for the first statement ([request.rs]).  [request] says what the scan should find, as a
    grammar of lexemes with no positions in it; [statements_split] states that the scan
    finds exactly that. *)

From Stdlib Require Import ZArith Lia String.
From stdpp Require Import prelude list.
From coqutil Require Import Byte.
From S2P Require Import Prelude.
From S2P Require Import Types.
From S2P Require Import Text.

#[local] Open Scope Z_scope.

(** ** Bytes *)

(** [u8::is_ascii_whitespace]: space, tab, line feed, form feed, carriage return. *)
Definition is_ascii_whitespace (b : byte) : bool :=
  let u := byte.unsigned b in (u =? 32) || (u =? 9) || (u =? 10) || (u =? 12) || (u =? 13).

Definition newline : byte := byte.of_Z 10.
Definition semicolon : byte := byte.of_Z 59.
Definition hash : byte := byte.of_Z 35.
Definition slash : byte := byte.of_Z 47.
Definition star : byte := byte.of_Z 42.
Definition bang : byte := byte.of_Z 33.
Definition backslash : byte := byte.of_Z 92.
Definition single_quote : byte := byte.of_Z 39.
Definition double_quote : byte := byte.of_Z 34.
Definition backtick : byte := byte.of_Z 96.
Definition comma : byte := byte.of_Z 44.

(** [u8::to_ascii_lowercase]. *)
Definition to_ascii_lowercase (b : byte) : byte :=
  if byte_in 65 90 b then byte.of_Z (byte.unsigned b + 32) else b.
Definition eq_ignore_ascii_case (a b : list byte) : bool :=
  bytes_eqb (map to_ascii_lowercase a) (map to_ascii_lowercase b).

(** ** The SQL mode *)

(** The fields of [ParseMode]. *)
Inductive mode_flag : Type :=
| ansi_quotes | real_as_float | permissive_grouping | pipes_as_concat | no_backslash_escapes
| no_unsigned_subtraction | ignore_space | high_not_precedence | no_zero_date | no_zero_in_date
| allow_invalid_dates | strict | time_truncate_fractional.

#[export] Instance mode_flag_dec : EqDecision mode_flag.
Proof. solve_decision. Defined.

Definition ParseMode : Type := mode_flag -> bool.

(** [mode.flag = value]. *)
Definition set_flag (flag : mode_flag) (value : bool) (mode : ParseMode) : ParseMode :=
  fun f => if decide (f = flag) then value else mode f.

Definition no_flags : ParseMode := set_flag permissive_grouping true (fun _ => false).

(** One member of the list. *)
Definition mode_member (mode : ParseMode) (member : list byte) : ParseMode :=
  let member := trim member in
  let named (name : string) := eq_ignore_ascii_case member (ascii name) in
  if named "ANSI"%string then
    set_flag ignore_space true (set_flag pipes_as_concat true (set_flag permissive_grouping false
      (set_flag real_as_float true (set_flag ansi_quotes true mode))))
  else if named "ANSI_QUOTES"%string then set_flag ansi_quotes true mode
  else if named "REAL_AS_FLOAT"%string then set_flag real_as_float true mode
  else if named "ONLY_FULL_GROUP_BY"%string then set_flag permissive_grouping false mode
  else if named "PIPES_AS_CONCAT"%string then set_flag pipes_as_concat true mode
  else if named "NO_BACKSLASH_ESCAPES"%string then set_flag no_backslash_escapes true mode
  else if named "NO_UNSIGNED_SUBTRACTION"%string then set_flag no_unsigned_subtraction true mode
  else if named "IGNORE_SPACE"%string then set_flag ignore_space true mode
  else if named "HIGH_NOT_PRECEDENCE"%string then set_flag high_not_precedence true mode
  else if named "NO_ZERO_DATE"%string then set_flag no_zero_date true mode
  else if named "NO_ZERO_IN_DATE"%string then set_flag no_zero_in_date true mode
  else if named "ALLOW_INVALID_DATES"%string then set_flag allow_invalid_dates true mode
  else if named "STRICT_TRANS_TABLES"%string || named "STRICT_ALL_TABLES"%string || named "TRADITIONAL"%string then set_flag strict true mode
  else if named "TIME_TRUNCATE_FRACTIONAL"%string then set_flag time_truncate_fractional true mode
  else mode.

Definition from_sql_mode (value : list byte) : ParseMode := foldl mode_member no_flags (split_all (byte_eqb comma) value).

Definition DEFAULT_SQL_MODE : list byte :=
  ascii "ONLY_FULL_GROUP_BY,STRICT_TRANS_TABLES,NO_ZERO_IN_DATE,NO_ZERO_DATE,ERROR_FOR_DIVISION_BY_ZERO,NO_ENGINE_SUBSTITUTION".

Definition default_mode : ParseMode := from_sql_mode DEFAULT_SQL_MODE.

Definition copies_temporals_by_reading (mode : ParseMode) : bool :=
  mode no_zero_date || mode no_zero_in_date || mode allow_invalid_dates.

(** ** Comments that are executed *)

(** [body.get(..n).is_some_and(|digits| digits.iter().all(u8::is_ascii_digit))]. *)
Definition starts_with_digits (n : Z) (body : list byte) : bool :=
  match get_range body 0 n with Some digits => forallb is_digit digits | None => false end.

(** The whitespace after a sixth digit, [b' ' | b'\t'..=b'\r']. *)
Definition ends_version (b : byte) : bool := (byte.unsigned b =? 32) || byte_in 9 13 b.

Definition version_digits (body : list byte) : nat :=
  if starts_with_digits 5 body then
    if starts_with_digits 6 body && match body !! 6%nat with Some b => ends_version b | None => false end then 6%nat else 5%nat
  else 0%nat.

Definition executable_comment_body (comment : list byte) : option (list byte) :=
  match comment with
  | b :: body =>
      if byte_eqb b bang then
        let prefix := version_digits body in
        if digits_value (take prefix body) <=? 80400 then Some (drop prefix body) else None
      else None
  | [] => None
  end.

(** ** The scan *)

(** [while at < sql.len() && sql[at] != b'\n' { at += 1; }]. *)
Fixpoint skip_line (fuel : nat) (sql : list byte) (at_ : nat) : nat :=
  match fuel with
  | O => at_
  | S fuel => match sql !! at_ with Some b => if byte_eqb b newline then at_ else skip_line fuel sql (S at_) | None => at_ end
  end.

(** [while at + 1 < sql.len() && &sql[at..at + 2] != b"*/" { at += 1; }]. *)
Fixpoint find_comment_end (fuel : nat) (sql : list byte) (at_ : nat) : nat :=
  match fuel with
  | O => at_
  | S fuel =>
      match sql !! at_, sql !! S at_ with
      | Some a, Some b => if byte_eqb a star && byte_eqb b slash then at_ else find_comment_end fuel sql (S at_)
      | _, _ => at_
      end
  end.

(** A backslash escapes the next byte inside this quote. *)
Definition escapes (mode : ParseMode) (quote : byte) : bool :=
  negb (mode no_backslash_escapes) && negb (byte_eqb quote backtick) && negb (byte_eqb quote double_quote && mode ansi_quotes).

(** The loop inside a quoted text, from the byte after the quote. *)
Fixpoint skip_quoted (fuel : nat) (mode : ParseMode) (quote : byte) (sql : list byte) (at_ : nat) : nat :=
  match fuel with
  | O => at_
  | S fuel =>
      match sql !! at_ with
      | None => at_
      | Some b =>
          if byte_eqb b backslash && escapes mode quote then skip_quoted fuel mode quote sql (Nat.min (at_ + 2) (length sql))
          else if byte_eqb b quote then
            match sql !! S at_ with
            | Some c => if byte_eqb c quote then skip_quoted fuel mode quote sql (at_ + 2) else S at_
            | None => S at_
            end
          else skip_quoted fuel mode quote sql (S at_)
      end
  end.

Definition is_quote (b : byte) : bool := byte_eqb b single_quote || byte_eqb b double_quote || byte_eqb b backtick.

(** [sql.get(at + 1) == Some(&b'-') && sql.get(at + 2).is_none_or(u8::is_ascii_whitespace)]. *)
Definition dashes_follow (sql : list byte) (at_ : nat) : bool :=
  match sql !! S at_ with Some b => byte_eqb b minus_byte | None => false end &&
  match sql !! (at_ + 2)%nat with Some b => is_ascii_whitespace b | None => true end.

(** A comment body whose executed part is more than white space. *)
Definition comment_significant (body : list byte) : bool :=
  match executable_comment_body body with Some body => existsb (fun b => negb (is_ascii_whitespace b)) body | None => false end.

(** The loop of [first_statement]; every round moves on by a byte at least. *)
Fixpoint statement_loop (fuel : nat) (mode : ParseMode) (sql : list byte) (at_ start : nat) (significant : bool)
    : option (list byte * list byte) :=
  match fuel with
  | O => None
  | S fuel =>
      match sql !! at_ with
      | None => if significant then Some (drop start sql, []) else None
      | Some b =>
          if is_ascii_whitespace b then statement_loop fuel mode sql (S at_) start significant
          else if byte_eqb b semicolon then
            if significant then Some (drop start (take at_ sql), drop (S at_) sql)
            else statement_loop fuel mode sql (S at_) (S at_) significant
          else if byte_eqb b hash then statement_loop fuel mode sql (skip_line (length sql) sql at_) start significant
          else if byte_eqb b minus_byte && dashes_follow sql at_ then
            statement_loop fuel mode sql (skip_line (length sql) sql at_) start significant
          else if byte_eqb b slash && match sql !! S at_ with Some c => byte_eqb c star | None => false end then
            let body_start := (at_ + 2)%nat in
            let close := find_comment_end (length sql) sql body_start in
            if (length sql <=? close + 1)%nat then Some (drop start sql, [])
            else
              statement_loop fuel mode sql (close + 2) start
                (significant || comment_significant (drop body_start (take close sql)))
          else if is_quote b then
            statement_loop fuel mode sql (skip_quoted (length sql) mode b sql (S at_)) start true
          else statement_loop fuel mode sql (S at_) start true
      end
  end.

Definition first_statement (sql : list byte) (mode : ParseMode) : option (list byte * list byte) :=
  statement_loop (S (length sql)) mode sql 0 0 false.

(** The scan of a connection, under its session's mode; [None] is a session lock that is lost. *)
Definition session_first_statement (sql_mode : option (list byte)) (sql : list byte) : option (list byte * list byte) :=
  first_statement sql match sql_mode with Some value => from_sql_mode value | None => default_mode end.

(** ** What a request holds *)

(** The text between two quotes: a doubled quote and, where it escapes, a backslash with
    the byte after it stand for one character each. *)
Inductive quoted (mode : ParseMode) (quote : byte) : list byte -> Prop :=
| quoted_nil : quoted mode quote []
| quoted_escape b body : escapes mode quote = true -> quoted mode quote body -> quoted mode quote (backslash :: b :: body)
| quoted_double body : quoted mode quote body -> quoted mode quote (quote :: quote :: body)
| quoted_plain b body : b <> quote -> (b = backslash -> escapes mode quote = false) ->
    quoted mode quote body -> quoted mode quote (b :: body).

(** The text after a quote that is never closed. *)
Inductive left_open (mode : ParseMode) (quote : byte) : list byte -> Prop :=
| open_end body : quoted mode quote body -> left_open mode quote body
| open_escape body : quoted mode quote body -> escapes mode quote = true -> left_open mode quote (body ++ [backslash]).

(** The body holds the end of a comment. *)
Fixpoint has_close (body : list byte) : bool :=
  match body with
  | a :: (b :: _) as rest => (byte_eqb a star && byte_eqb b slash) || has_close rest
  | _ => false
  end.

Definition starts_with (p : byte -> Prop) (rest : list byte) : Prop := match rest with [] => False | b :: _ => p b end.
Definition ends_or (p : byte -> Prop) (rest : list byte) : Prop := match rest with [] => True | b :: _ => p b end.

#[export] Instance starts_with_dec p `{!forall b, Decision (p b)} rest : Decision (starts_with p rest).
Proof. destruct rest as [|b rest]; cbn; apply _. Defined.
#[export] Instance ends_or_dec p `{!forall b, Decision (p b)} rest : Decision (ends_or p rest).
Proof. destruct rest as [|b rest]; cbn; apply _. Defined.

(** A byte that is a lexeme of its own before [rest]. *)
Definition ordinary (b : byte) (rest : list byte) : Prop :=
  is_ascii_whitespace b = false /\ b <> semicolon /\ b <> hash /\ is_quote b = false /\
  ~ (b = slash /\ starts_with (eq star) rest) /\
  ~ (b = minus_byte /\ exists rest', rest = minus_byte :: rest' /\ ends_or (fun c => is_ascii_whitespace c = true) rest').

(** [lexeme mode text rest significant]: before [rest] the bytes [text] are one lexeme, and
    [significant] if they make a statement that is not empty. *)
Inductive lexeme (mode : ParseMode) : list byte -> list byte -> bool -> Prop :=
| lex_space b rest : is_ascii_whitespace b = true -> lexeme mode [b] rest false
| lex_hash body rest : Forall (fun b => b <> newline) body -> ends_or (eq newline) rest -> lexeme mode (hash :: body) rest false
| lex_dashes body rest : Forall (fun b => b <> newline) body -> ends_or (eq newline) rest ->
    ends_or (fun b => is_ascii_whitespace b = true) (body ++ rest) -> lexeme mode (minus_byte :: minus_byte :: body) rest false
| lex_comment body rest : has_close body = false ->
    lexeme mode (slash :: star :: body ++ [star; slash]) rest (comment_significant body)
| lex_quoted quote body rest : is_quote quote = true -> quoted mode quote body -> ends_or (fun b => b <> quote) rest ->
    lexeme mode (quote :: body ++ [quote]) rest true
| lex_left_open quote body : is_quote quote = true -> left_open mode quote body -> lexeme mode (quote :: body) [] true
| lex_ordinary b rest : ordinary b rest -> lexeme mode [b] rest true.

Inductive lexemes (mode : ParseMode) : list byte -> list byte -> bool -> Prop :=
| lexemes_nil rest : lexemes mode [] rest false
| lexemes_snoc text one rest significant s :
    lexemes mode text (one ++ rest) significant -> lexeme mode one rest s -> lexemes mode (text ++ one) rest (significant || s).

(** The first statement of a request and what follows it: empty statements are passed over,
    the statement ends at a semicolon that is a lexeme, at the end, or at the end of a
    comment that is never closed. *)
Inductive request (mode : ParseMode) : list byte -> option (list byte * list byte) -> Prop :=
| request_none text : lexemes mode text [] false -> request mode text None
| request_last text : lexemes mode text [] true -> request mode text (Some (text, []))
| request_first text tail : lexemes mode text (semicolon :: tail) true -> request mode (text ++ semicolon :: tail) (Some (text, tail))
| request_skip text rest o : lexemes mode text (semicolon :: rest) false -> request mode rest o ->
    request mode (text ++ semicolon :: rest) o
| request_open text body significant : lexemes mode text (slash :: star :: body) significant -> has_close body = false ->
    request mode (text ++ slash :: star :: body) (Some (text ++ slash :: star :: body, [])).

(** ** The scan finds it *)

(** Lengths of concatenations. *)
Ltac lens := repeat first [rewrite length_app in * | progress cbn [length] in *]; lia.

Lemma byte_eqb_neq a b : a <> b -> byte_eqb a b = false.
Proof. intros Hn. destruct (byte_eqb a b) eqn:E; [now apply byte_eqb_spec in E|easy]. Qed.

Lemma at_next {A} (pre : list A) x rest : (pre ++ x :: rest) !! S (length pre) = rest !! 0%nat.
Proof. rewrite lookup_app_r by lia. now replace (S (length pre) - length pre)%nat with 1%nat by lia. Qed.

Lemma at_plus {A} (pre : list A) rest n : (pre ++ rest) !! (length pre + n)%nat = rest !! n.
Proof. rewrite lookup_app_r by lia. f_equal. lia. Qed.

Lemma at_front {A} (pre : list A) rest : (pre ++ rest) !! length pre = rest !! 0%nat.
Proof. rewrite lookup_app_r by lia. f_equal. lia. Qed.

Lemma snoc_front {A} (pre : list A) x rest : pre ++ x :: rest = (pre ++ [x]) ++ rest.
Proof. now rewrite <- app_assoc. Qed.

Lemma length_snoc {A} (pre : list A) x : length (pre ++ [x]) = S (length pre).
Proof. rewrite length_app. cbn. lia. Qed.

Lemma skip_line_to body rest : Forall (fun b => b <> newline) body -> ends_or (eq newline) rest ->
  forall fuel pre, (length body <= fuel)%nat -> skip_line fuel (pre ++ body ++ rest) (length pre) = (length pre + length body)%nat.
Proof.
  intros Hb Hr. induction Hb as [|b body Hn _ IH]; intros fuel pre Hf.
  - destruct fuel as [|fuel]; cbn [skip_line length app]; [lia|]. rewrite at_front. destruct rest as [|c rest]; cbn; [lia|].
    cbn in Hr. subst c. rewrite byte_eqb_refl. lia.
  - destruct fuel as [|fuel]; cbn in Hf; [lia|]. cbn [skip_line app]. rewrite at_front. cbn. rewrite byte_eqb_neq by easy.
    rewrite snoc_front, <- (length_snoc pre b), IH by lia. rewrite length_snoc. lia.
Qed.

Lemma find_comment_end_to rest : forall body fuel pre, has_close body = false -> (length body <= fuel)%nat ->
  find_comment_end fuel (pre ++ body ++ star :: slash :: rest) (length pre) = (length pre + length body)%nat.
Proof.
  induction body as [|b body IH]; intros fuel pre Hc Hf.
  - destruct fuel as [|fuel]; cbn [find_comment_end length app]; [lia|]. rewrite at_front, at_next. cbn [lookup list_lookup]. rewrite !byte_eqb_refl. cbn [andb]. lia.
  - destruct fuel as [|fuel]; cbn in Hf; [lia|]. cbn [find_comment_end app]. rewrite at_front, at_next.
    assert (E : exists c, (body ++ star :: slash :: rest) !! 0%nat = Some c /\ byte_eqb b star && byte_eqb c slash = false).
    { destruct body as [|c body]; cbn; eexists; (split; [reflexivity|]); [now rewrite andb_false_r|].
      cbn [has_close] in Hc. now apply orb_false_iff in Hc as [Hc _]. }
    destruct E as (c & Ec & En). cbn. cbn in Ec. rewrite Ec, En.
    rewrite snoc_front, <- (length_snoc pre b), IH; [rewrite length_snoc; lia| |lia].
    destruct body; [easy|]. now apply orb_false_iff in Hc as [_ Hc].
Qed.

Lemma find_comment_end_open : forall body fuel pre, has_close body = false -> (length body <= fuel)%nat ->
  (length (pre ++ body) <= find_comment_end fuel (pre ++ body) (length pre) + 1)%nat.
Proof.
  induction body as [|b body IH]; intros fuel pre Hc Hf.
  - rewrite app_nil_r. destruct fuel as [|fuel]; cbn [find_comment_end]; [lia|]. rewrite lookup_ge_None_2 by lia. lia.
  - destruct fuel as [|fuel]; cbn in Hf; [lia|]. cbn [find_comment_end]. rewrite at_front, at_next. cbn [lookup list_lookup].
    destruct body as [|c body]; cbn [lookup list_lookup]; [lens|].
    cbn [has_close] in Hc. apply orb_false_iff in Hc as [-> Hc]. rewrite snoc_front, <- (length_snoc pre b). apply IH; [easy|]. cbn in *. lia.
Qed.

Lemma quote_not_backslash quote : is_quote quote = true -> byte_eqb quote backslash = false.
Proof.
  unfold is_quote. rewrite !orb_true_iff. intros [[->%byte_eqb_spec| ->%byte_eqb_spec]| ->%byte_eqb_spec]; reflexivity.
Qed.

Lemma skip_quoted_over mode quote body : is_quote quote = true -> quoted mode quote body ->
  forall fuel pre rest, (length body <= fuel)%nat -> exists fuel', (fuel <= fuel' + length body)%nat /\
    skip_quoted fuel mode quote (pre ++ body ++ rest) (length pre) =
      skip_quoted fuel' mode quote (pre ++ body ++ rest) (length (pre ++ body)).
Proof.
  intros Hq%quote_not_backslash Hb.
  induction Hb as [|b body He _ IH|body _ IH|b body Hn He _ IH]; intros fuel pre rest Hf; cbn [length] in *.
  - exists fuel. rewrite app_nil_r. split; [lia|easy].
  - destruct fuel as [|fuel]; [lia|]. cbn [skip_quoted app]. rewrite at_front. cbn [lookup list_lookup]. rewrite byte_eqb_refl, He. cbn [andb].
    replace (Nat.min _ _) with (length (pre ++ [backslash; b])) by lens.
    destruct (IH fuel (pre ++ [backslash; b]) rest) as (fuel' & Hf' & E); [lia|]. exists fuel'. split; [lia|]. rewrite <- !app_assoc in E. exact E.
  - destruct fuel as [|fuel]; [lia|]. cbn [skip_quoted app]. rewrite at_front, at_next. cbn [lookup list_lookup]. rewrite Hq, byte_eqb_refl. cbn [andb].
    replace (length pre + 2)%nat with (length (pre ++ [quote; quote])) by lens.
    destruct (IH fuel (pre ++ [quote; quote]) rest) as (fuel' & Hf' & E); [lia|]. exists fuel'. split; [lia|]. rewrite <- !app_assoc in E. exact E.
  - destruct fuel as [|fuel]; [lia|]. cbn [skip_quoted app]. rewrite at_front. cbn [lookup list_lookup].
    replace (byte_eqb b backslash && escapes mode quote) with false.
    2:{ symmetry. destruct (byte_eqb b backslash) eqn:Eb; [|easy]. apply byte_eqb_spec in Eb. now rewrite He. }
    rewrite byte_eqb_neq by easy. rewrite <- (length_snoc pre b).
    destruct (IH fuel (pre ++ [b]) rest) as (fuel' & Hf' & E); [lia|]. exists fuel'. split; [lia|]. rewrite <- !app_assoc in E. exact E.
Qed.

Lemma skip_quoted_closed mode quote body rest fuel pre : is_quote quote = true -> quoted mode quote body ->
  ends_or (fun b => b <> quote) rest -> (length body < fuel)%nat ->
  skip_quoted fuel mode quote (pre ++ body ++ quote :: rest) (length pre) = length (pre ++ body ++ [quote]).
Proof.
  intros Hq Hb Hr Hf. destruct (skip_quoted_over mode quote body Hq Hb fuel pre (quote :: rest)) as (fuel' & Hf' & ->); [lia|].
  destruct fuel' as [|fuel']; [lia|]. cbn [skip_quoted]. rewrite (app_assoc pre body), at_front, at_next. cbn [lookup list_lookup].
  rewrite (quote_not_backslash _ Hq), byte_eqb_refl. cbn [andb]. replace (length (pre ++ body ++ [quote])) with (S (length (pre ++ body))).
  2:{ lens. }
  destruct rest as [|c rest]; [easy|]. cbn. cbn in Hr. now rewrite byte_eqb_neq.
Qed.

Lemma skip_quoted_open mode quote body fuel pre : is_quote quote = true -> left_open mode quote body -> (length body <= fuel)%nat ->
  skip_quoted fuel mode quote (pre ++ body) (length pre) = length (pre ++ body).
Proof.
  intros Hq [? Hb|? Hb He] Hf.
  - destruct (skip_quoted_over mode quote body0 Hq Hb fuel pre []) as (fuel' & Hf' & E); [lia|]. rewrite app_nil_r in E. rewrite E.
    destruct fuel' as [|fuel']; cbn [skip_quoted]; [easy|]. now rewrite lookup_ge_None_2 by lia.
  - rewrite length_app in Hf. cbn in Hf. destruct (skip_quoted_over mode quote body0 Hq Hb fuel pre [backslash]) as (fuel' & Hf' & ->); [lia|].
    destruct fuel' as [|fuel']; [lia|]. cbn [skip_quoted]. rewrite app_assoc, at_front. cbn [lookup list_lookup]. rewrite byte_eqb_refl, He. cbn [andb].
    replace (Nat.min _ _) with (length ((pre ++ body0) ++ [backslash])) by lens.
    destruct fuel' as [|fuel']; cbn [skip_quoted]; [easy|]. now rewrite lookup_ge_None_2 by lia.
Qed.

Lemma take_drop_middle_eq {A} (lead text rest : list A) :
  drop (length lead) (take (length (lead ++ text)) (lead ++ text ++ rest)) = text.
Proof. rewrite app_assoc, take_app_length, drop_app_length. reflexivity. Qed.

Lemma quote_head quote : is_quote quote = true -> is_ascii_whitespace quote = false /\ byte_eqb quote semicolon = false /\
  byte_eqb quote hash = false /\ byte_eqb quote minus_byte = false /\ byte_eqb quote slash = false.
Proof.
  unfold is_quote. rewrite !orb_true_iff. intros [[->%byte_eqb_spec| ->%byte_eqb_spec]| ->%byte_eqb_spec]; easy.
Qed.

(** One round of the loop passes over one lexeme. *)
Lemma lexeme_run mode one rest s : lexeme mode one rest s -> forall fuel pre start significant,
  statement_loop (S fuel) mode (pre ++ one ++ rest) (length pre) start significant =
    statement_loop fuel mode (pre ++ one ++ rest) (length (pre ++ one)) start (significant || s).
Proof.
  intros Hl fuel pre start significant.
  destruct Hl as [b rest Hb|body rest Hb Hr|body rest Hb Hr Hw|body rest Hc|quote body rest Hq Hb Hr|quote body Hq Hb|b rest (Hs & Hsemi & Hh & Hq & Hsl & Hd)];
    cbn [statement_loop app]; rewrite at_front; cbn [lookup list_lookup].
  - rewrite Hb, orb_false_r, length_snoc. reflexivity.
  - cbn. rewrite orb_false_r. f_equal. rewrite (skip_line_to (hash :: body) rest).
    + now rewrite length_app.
    + now constructor.
    + easy.
    + lens.
  - cbn. rewrite orb_false_r.
    assert (E : dashes_follow (pre ++ minus_byte :: minus_byte :: body ++ rest) (length pre) = true).
    { unfold dashes_follow. rewrite at_next, at_plus. cbn [lookup list_lookup]. rewrite byte_eqb_refl. cbn [andb].
      destruct (body ++ rest); easy. }
    rewrite E. f_equal. rewrite (skip_line_to (minus_byte :: minus_byte :: body) rest).
    + now rewrite length_app.
    + now repeat constructor.
    + easy.
    + lens.
  - cbn. rewrite at_next. cbn [lookup list_lookup]. rewrite byte_eqb_refl.
    replace (length pre + 2)%nat with (length (pre ++ [slash; star])) by lens.
    replace (pre ++ slash :: star :: (body ++ [star; slash]) ++ rest) with ((pre ++ [slash; star]) ++ body ++ star :: slash :: rest).
    2:{ rewrite <- !app_assoc. cbn. reflexivity. }
    rewrite find_comment_end_to by (easy || lens).
    rewrite <- length_app, take_drop_middle_eq. destruct (Nat.leb_spec (length ((pre ++ [slash; star]) ++ body ++ star :: slash :: rest)) (length ((pre ++ [slash; star]) ++ body) + 1)) as [Hle|_].
    { lens. }
    f_equal. lens.
  - destruct (quote_head quote Hq) as (-> & -> & -> & -> & ->). cbn [andb]. rewrite Hq, orb_true_r. f_equal.
    replace (pre ++ quote :: (body ++ [quote]) ++ rest) with ((pre ++ [quote]) ++ body ++ quote :: rest) by now rewrite <- !app_assoc.
    rewrite <- (length_snoc pre quote), skip_quoted_closed by (easy || lens). now rewrite <- app_assoc.
  - destruct (quote_head quote Hq) as (-> & -> & -> & -> & ->). cbn [andb]. rewrite Hq, orb_true_r, app_nil_r. f_equal.
    rewrite snoc_front, <- (length_snoc pre quote), skip_quoted_open by (easy || lens). reflexivity.
  - rewrite Hs, !byte_eqb_neq, Hq, at_next, orb_true_r, length_snoc by easy.
    replace (byte_eqb b minus_byte && _) with false.
    2:{ symmetry. apply andb_false_iff. destruct (byte_eqb b minus_byte) eqn:Eb; [right|now left]. apply byte_eqb_spec in Eb.
        unfold dashes_follow. rewrite at_next, at_plus. apply not_true_iff_false. intros [H1 H2]%andb_prop. apply Hd. split; [easy|].
        destruct rest as [|c rest]; [easy|]. apply byte_eqb_spec in H1 as ->. exists rest. split; [easy|]. now destruct rest. }
    replace (byte_eqb b slash && _) with false; [easy|]. symmetry. apply andb_false_iff. destruct (byte_eqb b slash) eqn:Eb; [right|now left].
    apply byte_eqb_spec in Eb. apply not_true_iff_false. intros H1. apply Hsl. split; [easy|]. destruct rest as [|c rest]; [easy|].
    cbn in *. symmetry. now apply byte_eqb_spec.
Qed.

Lemma lexeme_nonempty mode one rest s : lexeme mode one rest s -> (1 <= length one)%nat.
Proof. intros []; cbn; lia. Qed.

Lemma lexemes_run mode text rest s : lexemes mode text rest s -> forall fuel lead start, (length text <= fuel)%nat ->
  exists fuel', (fuel <= fuel' + length text)%nat /\
    statement_loop fuel mode (lead ++ text ++ rest) (length lead) start false =
      statement_loop fuel' mode (lead ++ text ++ rest) (length (lead ++ text)) start s.
Proof.
  induction 1 as [rest|text one rest significant s _ IH Hl]; intros fuel lead start Hf.
  - exists fuel. rewrite app_nil_r. split; [lia|easy].
  - pose proof (lexeme_nonempty _ _ _ _ Hl). destruct (IH fuel lead start) as (fuel' & Hf' & E); [lens|].
    destruct fuel' as [|fuel']; [lens|]. exists fuel'. split; [lens|]. rewrite <- app_assoc, E, (app_assoc lead text), (lexeme_run _ _ _ _ Hl).
    now rewrite <- !app_assoc.
Qed.

Lemma semicolon_head : is_ascii_whitespace semicolon = false /\ byte_eqb semicolon semicolon = true.
Proof. easy. Qed.

(** The loop computes what the grammar says. *)
Lemma request_run mode sql o : request mode sql o -> forall lead fuel, (length sql < fuel)%nat ->
  statement_loop fuel mode (lead ++ sql) (length lead) (length lead) false = o.
Proof.
  induction 1 as [text Hl|text Hl|text tail Hl|text rest o Hl _ IH|text body s Hl Hc]; intros lead fuel Hf.
  1,2: destruct (lexemes_run _ _ _ _ Hl fuel lead (length lead)) as (fuel' & Hf' & E); [lens|]; rewrite app_nil_r in E; rewrite E;
    destruct fuel' as [|fuel']; [lens|]; cbn [statement_loop]; rewrite lookup_ge_None_2 by lia; now rewrite ?drop_app_length.
  - destruct (lexemes_run _ _ _ _ Hl fuel lead (length lead)) as (fuel' & Hf' & ->); [lens|]. destruct fuel' as [|fuel']; [lens|].
    cbn [statement_loop]. rewrite (app_assoc lead text), at_front. cbn [lookup list_lookup]. change (is_ascii_whitespace semicolon) with false.
    rewrite byte_eqb_refl. rewrite take_app_length, drop_app_length, snoc_front, <- (length_snoc _ semicolon), drop_app_length. easy.
  - destruct (lexemes_run _ _ _ _ Hl fuel lead (length lead)) as (fuel' & Hf' & ->); [lens|]. destruct fuel' as [|fuel']; [lens|].
    cbn [statement_loop]. rewrite (app_assoc lead text), at_front. cbn [lookup list_lookup]. change (is_ascii_whitespace semicolon) with false.
    rewrite byte_eqb_refl. rewrite snoc_front, <- (length_snoc _ semicolon). apply IH. lens.
  - destruct (lexemes_run _ _ _ _ Hl fuel lead (length lead)) as (fuel' & Hf' & ->); [lens|]. destruct fuel' as [|fuel']; [lens|].
    cbn [statement_loop]. rewrite (app_assoc lead text), at_front, at_next. cbn [lookup list_lookup].
    change (is_ascii_whitespace slash) with false. change (byte_eqb slash semicolon) with false. change (byte_eqb slash hash) with false.
    change (byte_eqb slash minus_byte) with false. rewrite !byte_eqb_refl. cbn [andb].
    replace ((lead ++ text) ++ slash :: star :: body) with (((lead ++ text) ++ [slash; star]) ++ body) by now rewrite <- !app_assoc.
    replace (length (lead ++ text) + 2)%nat with (length ((lead ++ text) ++ [slash; star])) by lens.
    pose proof (find_comment_end_open body (length (((lead ++ text) ++ [slash; star]) ++ body)) ((lead ++ text) ++ [slash; star]) Hc ltac:(lens)) as Hle.
    apply Nat.leb_le in Hle. rewrite Hle. rewrite <- !app_assoc, drop_app_length. easy.
Qed.

(** ** Every request holds one *)

Lemma quoted_total mode quote : is_quote quote = true -> forall n text, (length text < n)%nat ->
  (exists body rest, text = body ++ quote :: rest /\ quoted mode quote body /\ ends_or (fun b => b <> quote) rest) \/ left_open mode quote text.
Proof.
  intros Hq. induction n as [|n IH]; intros text Hl; [lia|]. destruct text as [|b text]; [right; constructor; constructor|]. cbn in Hl.
  assert (G : forall text', (length text' < n)%nat -> forall front, (forall body, quoted mode quote body -> quoted mode quote (front ++ body)) ->
    (exists body rest, front ++ text' = body ++ quote :: rest /\ quoted mode quote body /\ ends_or (fun b => b <> quote) rest) \/ left_open mode quote (front ++ text')).
  { intros text' Hl' front Hfr. destruct (IH text' Hl') as [(body & rest & -> & Hb & Hr)|[body Hb|body Hb He]].
    - left. exists (front ++ body), rest. rewrite <- app_assoc. split; [easy|]. split; [now apply Hfr|easy].
    - right. apply open_end. now apply Hfr.
    - right. rewrite app_assoc. apply open_escape; [now apply Hfr|easy]. }
  destruct (decide (b = backslash /\ escapes mode quote = true)) as [[-> He]|Hb].
  - destruct text as [|c text]; [right; apply (open_escape _ _ []); [constructor|easy]|].
    cbn in Hl. apply (G text ltac:(lia) [backslash; c]). intros body Hbody. now apply quoted_escape.
  - destruct (decide (b = quote)) as [->|Hn].
    + destruct text as [|c text]; [left; exists [], []; split; [easy|]; split; [constructor|easy]|].
      destruct (decide (c = quote)) as [->|Hc].
      * cbn in Hl. apply (G text ltac:(lia) [quote; quote]). intros body Hbody. now apply quoted_double.
      * left. exists [], (c :: text). split; [easy|]. split; [constructor|easy].
    + apply (G text ltac:(lia) [b]). intros body Hbody. apply quoted_plain; [easy| |easy].
      intros ->. destruct (escapes mode quote); [|easy]. now destruct Hb.
Qed.

Lemma line_total text : exists body rest, text = body ++ rest /\ Forall (fun b => b <> newline) body /\ ends_or (eq newline) rest.
Proof.
  induction text as [|b text (body & rest & -> & Hb & Hr)]; [now exists [], []|]. destruct (decide (b = newline)) as [->|Hn].
  - exists [], (newline :: body ++ rest). easy.
  - exists (b :: body), rest. split; [easy|]. split; [now constructor|easy].
Qed.

Lemma comment_total text : has_close text = true -> exists body rest, text = body ++ star :: slash :: rest /\ has_close body = false.
Proof.
  induction text as [|a text IH]; [easy|]. destruct text as [|b text]; [easy|]. cbn [has_close].
  destruct (byte_eqb a star && byte_eqb b slash) eqn:E.
  - intros _. apply andb_prop in E as [->%byte_eqb_spec ->%byte_eqb_spec]. now exists [], text.
  - cbn [orb]. intros Ht. destruct (IH Ht) as (body & rest & Eb & Hc). exists (a :: body), rest. rewrite Eb. split; [easy|].
    destruct body as [|c body]; [easy|]. cbn in Eb. injection Eb as <- _. cbn [has_close] in *. now rewrite E.
Qed.

Lemma lexeme_total mode b rest : b <> semicolon -> (b = slash -> forall body, rest = star :: body -> has_close body = true) ->
  exists one rest' s, b :: rest = one ++ rest' /\ lexeme mode one rest' s.
Proof.
  intros Hsemi Hopen. destruct (is_ascii_whitespace b) eqn:Hs; [exists [b], rest, false; split; [easy|now constructor]|].
  destruct (decide (b = hash)) as [->|Hh].
  { destruct (line_total rest) as (body & rest' & -> & Hb & Hr). exists (hash :: body), rest', false. split; [easy|now constructor]. }
  destruct (is_quote b) eqn:Hq.
  { destruct (quoted_total mode b Hq _ rest (Nat.lt_succ_diag_r _)) as [(body & rest' & -> & Hb & Hr)|Ho].
    - exists (b :: body ++ [b]), rest', true. split; [cbn; now rewrite <- app_assoc|now constructor].
    - exists (b :: rest), [], true. split; [now rewrite app_nil_r|now constructor]. }
  destruct (decide (b = slash /\ starts_with (eq star) rest)) as [[-> Hst]|Hsl].
  { destruct rest as [|c rest]; [easy|]. cbn in Hst. subst c. destruct (comment_total rest (Hopen eq_refl _ eq_refl)) as (body & rest' & -> & Hc).
    exists (slash :: star :: body ++ [star; slash]), rest', (comment_significant body). split; [cbn; now rewrite <- app_assoc|now constructor]. }
  destruct (decide (b = minus_byte /\ starts_with (eq minus_byte) rest /\ ends_or (fun c => is_ascii_whitespace c = true) (tl rest))) as [(-> & Hd & Hw)|Hm].
  { destruct rest as [|c rest]; [easy|]. cbn in Hd, Hw. subst c. destruct (line_total rest) as (body & rest' & -> & Hb & Hr).
    exists (minus_byte :: minus_byte :: body), rest', false. split; [easy|now constructor]. }
  exists [b], rest, true. split; [easy|]. constructor. split_and!; try easy. intros (-> & rest' & -> & Hw). now destruct Hm.
Qed.

Lemma request_total mode : forall n text rest s, (length rest < n)%nat -> lexemes mode text rest s -> exists o, request mode (text ++ rest) o.
Proof.
  induction n as [|n IH]; intros text rest s Hn Hl; [lia|]. destruct rest as [|b rest].
  { rewrite app_nil_r. destruct s; eexists; [now apply request_last|now apply request_none]. }
  cbn in Hn. destruct (decide (b = semicolon)) as [->|Hsemi].
  { destruct s; [eexists; now apply request_first|]. destruct (IH [] rest false ltac:(lia) ltac:(constructor)) as [o Ho].
    exists o. now apply request_skip. }
  destruct (decide (b = slash /\ starts_with (eq star) rest /\ has_close (tl rest) = false)) as [(-> & Hst & Hc)|Hopen].
  { destruct rest as [|c body]; [easy|]. cbn in Hst, Hc. subst c. eexists. now apply (request_open mode text body s). }
  destruct (lexeme_total mode b rest Hsemi) as (one & rest' & s' & E & Ho).
  { intros -> body ->. destruct (has_close body) eqn:Hc; [easy|]. now destruct Hopen. }
  pose proof (lexeme_nonempty _ _ _ _ Ho). rewrite E in *. rewrite app_assoc. apply (IH _ rest' (s || s')).
  - apply (f_equal length) in E. lens.
  - now constructor.
Qed.

Lemma first_statement_request mode sql o : request mode sql o <-> first_statement sql mode = o.
Proof.
  split.
  - intros Hr. apply (request_run mode sql o Hr []). lia.
  - intros <-. destruct (request_total mode _ [] sql false (Nat.lt_succ_diag_r _)) as [o Ho]; [constructor|].
    cbn in Ho. pose proof (request_run mode sql o Ho [] _ (Nat.lt_succ_diag_r _)) as E. unfold first_statement. cbn [app length] in E. now rewrite E.
Qed.

Lemma significant_nonempty mode text rest : lexemes mode text rest true -> text <> [].
Proof.
  intros Hl. remember true as s eqn:E. destruct Hl as [|text one rest significant s Hl Ho]; [easy|].
  apply lexeme_nonempty in Ho. destruct one; [cbn in Ho; lia|]. now destruct text.
Qed.

(** The statement is a part of the request, and so is what follows the semicolon after it. *)
Lemma request_parts mode sql o : request mode sql o -> forall statement tail, o = Some (statement, tail) ->
  statement <> [] /\ exists lead, sql = lead ++ statement ++ semicolon :: tail \/ (sql = lead ++ statement /\ tail = []).
Proof.
  induction 1 as [text Hl|text Hl|text tail Hl|text rest o Hl _ IH|text body s Hl Hc]; intros statement tail' E.
  - easy.
  - injection E as <- <-. split; [eapply significant_nonempty, Hl|]. exists []. now right.
  - injection E as <- <-. split; [eapply significant_nonempty, Hl|]. exists []. now left.
  - destruct (IH _ _ E) as (Hs & lead & Hlead). split; [easy|]. exists (text ++ semicolon :: lead).
    destruct Hlead as [->|[-> ->]]; [left|right; split; [|easy]]; now rewrite <- app_assoc.
  - injection E as <- <-. split; [now destruct text|]. exists []. now right.
Qed.

Lemma first_statement_parts sql mode statement tail : first_statement sql mode = Some (statement, tail) ->
  statement <> [] /\ exists lead, sql = lead ++ statement ++ semicolon :: tail \/ (sql = lead ++ statement /\ tail = []).
Proof. intros E. apply first_statement_request in E. now apply (request_parts _ _ _ E). Qed.

(** The rest of a request is shorter than the request. *)
Lemma first_statement_shorter sql mode statement tail : first_statement sql mode = Some (statement, tail) -> (length tail < length sql)%nat.
Proof.
  intros E. destruct (first_statement_parts _ _ _ _ E) as (Hs & lead & [->|[-> ->]]); [lens|].
  destruct statement; [easy|]. lens.
Qed.

(** ** The flags of a mode *)

(** The members that turn a flag; [permissive_grouping] is turned off, the others on. *)
Definition flag_names (flag : mode_flag) : list string :=
  match flag with
  | ansi_quotes => ["ANSI"; "ANSI_QUOTES"]
  | real_as_float => ["ANSI"; "REAL_AS_FLOAT"]
  | permissive_grouping => ["ANSI"; "ONLY_FULL_GROUP_BY"]
  | pipes_as_concat => ["ANSI"; "PIPES_AS_CONCAT"]
  | no_backslash_escapes => ["NO_BACKSLASH_ESCAPES"]
  | no_unsigned_subtraction => ["NO_UNSIGNED_SUBTRACTION"]
  | ignore_space => ["ANSI"; "IGNORE_SPACE"]
  | high_not_precedence => ["HIGH_NOT_PRECEDENCE"]
  | no_zero_date => ["NO_ZERO_DATE"]
  | no_zero_in_date => ["NO_ZERO_IN_DATE"]
  | allow_invalid_dates => ["ALLOW_INVALID_DATES"]
  | strict => ["STRICT_TRANS_TABLES"; "STRICT_ALL_TABLES"; "TRADITIONAL"]
  | time_truncate_fractional => ["TIME_TRUNCATE_FRACTIONAL"]
  end%string.

(** A member, its white space and its case apart, is one of the names. *)
Definition turns (flag : mode_flag) (member : list byte) : bool :=
  existsb (fun name => eq_ignore_ascii_case (trim member) (ascii name)) (flag_names flag).

Definition is_inverted (flag : mode_flag) : bool := bool_decide (flag = permissive_grouping).

Lemma mode_member_flag mode member flag :
  mode_member mode member flag = if turns flag member then negb (is_inverted flag) else mode flag.
Proof.
  unfold mode_member, turns, eq_ignore_ascii_case, bytes_eqb. set (name := map to_ascii_lowercase (trim member)). clearbody name. cbv zeta.
  repeat match goal with
  | |- context [if bool_decide (name = map _ (ascii ?s)) then _ else _] =>
      let E := fresh "E" in destruct (bool_decide (name = map to_ascii_lowercase (ascii s))) eqn:E;
      [apply bool_decide_eq_true in E; subst name; destruct flag; vm_compute; reflexivity|]
  end.
  match goal with |- context [if ?a || ?b || ?c then _ else _] =>
    destruct a eqn:Ea; [|destruct b eqn:Eb; [|destruct c eqn:Ec]]; cbn [orb] end.
  1-3: match goal with E : bool_decide (?n = _) = true |- _ => apply bool_decide_eq_true in E; subst n; destruct flag; vm_compute; reflexivity end.
  destruct flag; cbn [flag_names existsb]; repeat match goal with E : ?x = false |- context [?x] => rewrite E end; reflexivity.
Qed.

Lemma mode_members_flag flag members : forall mode,
  foldl mode_member mode members flag = if existsb (turns flag) members then negb (is_inverted flag) else mode flag.
Proof.
  induction members as [|member members IH]; intros mode; cbn [foldl existsb]; [easy|]. rewrite IH, mode_member_flag.
  now destruct (turns flag member), (existsb (turns flag) members).
Qed.

(** ** Literals *)

(** A text written as a literal: quotes doubled, and backslashes where they escape. *)
Definition literal_bytes (mode : ParseMode) (quote : byte) (text : list byte) : list byte :=
  flat_map (fun b => if byte_eqb b quote || (byte_eqb b backslash && escapes mode quote) then [b; b] else [b]) text.

Definition literal (mode : ParseMode) (quote : byte) (text : list byte) : list byte :=
  quote :: literal_bytes mode quote text ++ [quote].

Lemma literal_quoted mode quote text : is_quote quote = true -> quoted mode quote (literal_bytes mode quote text).
Proof.
  intros Hq. induction text as [|b text IH]; cbn [literal_bytes flat_map]; [constructor|]. fold (literal_bytes mode quote text).
  destruct (byte_eqb b quote) eqn:Eb; [apply byte_eqb_spec in Eb as ->; now apply quoted_double|].
  assert (Hn : b <> quote) by (intros ->; now rewrite byte_eqb_refl in Eb). cbn [orb].
  destruct (byte_eqb b backslash) eqn:Es; cbn [andb app].
  - apply byte_eqb_spec in Es as ->. destruct (escapes mode quote) eqn:He; [now apply quoted_escape|now apply quoted_plain].
  - apply quoted_plain; [easy| |easy]. intros ->. now rewrite byte_eqb_refl in Es.
Qed.

Lemma word_lexemes mode word rest : Forall (fun b => forall rest, ordinary b rest) word -> word <> [] -> lexemes mode word rest true.
Proof.
  revert rest. induction word as [|b word IH] using rev_ind; intros rest Hw Hn; [easy|]. apply Forall_app in Hw as [Hw [Hb _]%Forall_cons].
  destruct (decide (word = [])) as [->|Hne].
  - apply (lexemes_snoc mode [] [b] rest false true); [constructor|now constructor].
  - rewrite <- (orb_true_r true). apply lexemes_snoc; [now apply IH|now constructor].
Qed.

Definition select : list byte := ascii "SELECT".

Lemma select_lexemes mode rest : lexemes mode (select ++ [space_byte]) rest true.
Proof.
  apply (lexemes_snoc mode select [space_byte] rest true false); [|now constructor]. apply word_lexemes; [|easy].
  repeat constructor; try (intros [E _]; discriminate E); easy.
Qed.

(** ** Properties *)

(** C19. The scan for a statement finds what the grammar of lexemes says and nothing else: the
    statement ends at the first semicolon that no quote and no comment shields, empty
    statements are passed over, and an unclosed quote or comment runs to the end.  What it
    returns is a nonempty part of the request with the bytes after the semicolon. *)
Theorem statements_split mode sql :
  (forall o, request mode sql o <-> first_statement sql mode = o) /\
  match first_statement sql mode with
  | Some (statement, tail) =>
      statement <> [] /\ (length tail < length sql)%nat /\
      exists lead, sql = lead ++ statement ++ semicolon :: tail \/ (sql = lead ++ statement /\ tail = [])
  | None => True
  end.
Proof.
  split; [intros o; apply first_statement_request|]. destruct (first_statement sql mode) as [[statement tail]|] eqn:E; [|easy].
  destruct (first_statement_parts _ _ _ _ E) as [Hs Hl]. split; [easy|]. split; [now apply (first_statement_shorter _ _ _ _ E)|easy].
Qed.

(** Whatever bytes a text holds, written as a literal of any of the three quotes it stays
    inside one statement, under every SQL mode: no semicolon, quote, backslash or comment
    mark in it ends the statement. *)
Theorem literals_stay_whole mode quote text tail : is_quote quote = true ->
  first_statement ((select ++ [space_byte]) ++ literal mode quote text ++ semicolon :: tail) mode =
    Some ((select ++ [space_byte]) ++ literal mode quote text, tail).
Proof.
  intros Hq. apply first_statement_request. rewrite app_assoc. apply request_first.
  apply (lexemes_snoc mode _ _ _ true true); [apply select_lexemes|]. apply lex_quoted; [easy|now apply literal_quoted|].
  cbn. intros <-. discriminate Hq.
Qed.

Lemma literals_stay_whole_witness :
  first_statement (ascii "SELECT 'it''s;\\'; SELECT 2" ) default_mode = Some (ascii "SELECT 'it''s;\\'", ascii " SELECT 2").
Proof. exact (literals_stay_whole default_mode single_quote (ascii "it's;\") (ascii " SELECT 2") eq_refl). Defined.

(** A flag of the SQL mode is turned exactly when a member of the comma-separated list, its
    white space and letter case apart, is one of the names that turn it. *)
Theorem modes_read_exactly value flag :
  from_sql_mode value flag =
    if existsb (turns flag) (split_all (byte_eqb comma) value) then negb (is_inverted flag) else is_inverted flag.
Proof.
  unfold from_sql_mode. rewrite mode_members_flag. destruct (existsb _ _); [easy|]. unfold no_flags, set_flag, is_inverted.
  now destruct flag.
Qed.
