(* ===== verification/Connection.v ===== *)
(** * Serving one client ([src/crates/pintail-protocol/src/server.rs])

    [Connection]: the handshake, and the command loop over the packets of [Packets] and the
    messages of [Messages].  What the server does with a command is behind the trait
    [Handler], a class here over the handler's state; [dropped] is the state it is left in
    when the future of a query is dropped.  A race against the disconnect watch ends as the
    next entry of a plan says: the handler finished first ([None]), or the watch did.

    The second half is the same connection without packets: [reply] gives the payloads a
    command is answered with.  [serve_one] refines it for every transport, and a client that
    reads those payloads by the protocol stays in step with the server. *)

From Stdlib Require Import ZArith Lia String.
From stdpp Require Import prelude list.
From coqutil Require Import Byte.
From S2P Require Import Prelude.
From S2P Require Import Types.
From S2P Require Import Text.
From S2P Require Import Statements.
From S2P Require Import Packets.
From S2P Require Import Messages.

#[local] Open Scope Z_scope.

Definition server_capabilities : CapabilityFlags :=
  foldl Z.lor CLIENT_LONG_PASSWORD
    [CLIENT_LONG_FLAG; CLIENT_IGNORE_SPACE; CLIENT_PROTOCOL_41; CLIENT_SECURE_CONNECTION; CLIENT_CONNECT_WITH_DB;
     CLIENT_PLUGIN_AUTH; CLIENT_PLUGIN_AUTH_LENENC_CLIENT_DATA; CLIENT_CONNECT_ATTRS; CLIENT_SESSION_TRACK;
     CLIENT_DEPRECATE_EOF; CLIENT_MULTI_STATEMENTS; CLIENT_MULTI_RESULTS].

(** ** Responses *)

Record ResultSet : Type := {
  rs_columns : list ResultColumn;
  rs_rows : EncodedRows;
  rs_binary : bool
}.

Inductive RowChunk : Type :=
| ChunkRows (rows : EncodedRows)
| ChunkDone
| ChunkFailed (kind : ErrorKind) (message : str).

(** The channel of a stream as the messages it will bring; at their end it is closed. *)
Record RowStream : Type := { st_columns : list ResultColumn; st_chunks : list RowChunk }.

Inductive Response : Type :=
| RespRows (result : ResultSet)
| RespStream (stream : RowStream)
| RespOk (packet : OkPacket) (info : str)
| RespError (kind : ErrorKind) (message : str).

Record PreparedStatement : Type := {
  ps_id : Z;
  ps_parameters : list ResultColumn;
  ps_columns : list ResultColumn
}.

Inductive WatchOutcome : Type :=
| Disconnected
| Primed (bytes : list byte).

Inductive Wait : Type := WaitCommand | WaitPeerClosed | WaitIdle.

Inductive InitialResponse : Type :=
| InitialFull (response : HandshakeResponse)
| InitialSsl.

(** ** The handler *)

Class Handler (H : Type) : Type := {
  take_session_changes : H -> list (str * str) * H;
  server_version : H -> str;
  connection_id : H -> Z;
  auth_plugin : H -> str;
  authenticate : HandshakeResponse -> list byte -> H -> bool * H;
  full_auth_public_key : H -> option (list byte);
  decrypt_full_auth_password : H -> list byte -> option (list byte);
  authenticate_cleartext : list byte -> list byte -> H -> bool * H;
  query : list byte -> H -> Response * H;
  first_statement : H -> list byte -> option (list byte * list byte);
  prepare : list byte -> H -> result (ErrorKind * str) PreparedStatement * H;
  execute : Z -> list byte -> H -> Response * H;
  send_long_data : Z -> Z -> list byte -> H -> H;
  close_statement : Z -> H -> H;
  reset_statement : Z -> H -> bool * H;
  reset_connection : H -> H;
  change_user : list byte -> list byte -> list byte -> H -> bool * H;
  init_database : list byte -> H -> result (ErrorKind * str) unit * H;
  finish_stream : bool -> H -> H;
  dropped : H -> H
}.

(** What the query loop relies on: the rest of a request after a statement is shorter. *)
Class LawfulHandler (H : Type) `{Handler H} : Prop := {
  first_statement_shortens : forall (h : H) sql statement tail,
    first_statement h sql = Some (statement, tail) -> (length tail < length sql)%nat
}.

(** ** The connection *)

Record Connection : Type := {
  c_reader : PacketReader;
  c_writer : PacketWriter;
  c_capabilities : CapabilityFlags;
  c_watch_ended : bool
}.

Definition connection_new (reader : Transport) (writer : Sink) : Connection := {|
  c_reader := reader_new reader; c_writer := writer_new writer; c_capabilities := 0; c_watch_ended := false |}.

Definition new_at_sequence (reader : Transport) (writer : Sink) (read_sequence write_sequence : Z) : Connection := {|
  c_reader := reader_set_sequence read_sequence (reader_new reader);
  c_writer := writer_set_sequence write_sequence (writer_new writer);
  c_capabilities := 0; c_watch_ended := false |}.

Definition with_reader (r : PacketReader) (c : Connection) : Connection := {|
  c_reader := r; c_writer := c_writer c; c_capabilities := c_capabilities c; c_watch_ended := c_watch_ended c |}.
Definition with_writer (w : PacketWriter) (c : Connection) : Connection := {|
  c_reader := c_reader c; c_writer := w; c_capabilities := c_capabilities c; c_watch_ended := c_watch_ended c |}.
Definition with_capabilities (capabilities : CapabilityFlags) (c : Connection) : Connection := {|
  c_reader := c_reader c; c_writer := c_writer c; c_capabilities := capabilities; c_watch_ended := c_watch_ended c |}.
Definition with_watch_ended (ended : bool) (c : Connection) : Connection := {|
  c_reader := c_reader c; c_writer := c_writer c; c_capabilities := c_capabilities c; c_watch_ended := ended |}.

(** [Connection::into_parts]. *)
Definition into_parts (c : Connection) : result io_error (Transport * Sink * Z * Z) * Connection :=
  let '(reader, read_sequence) := reader_into_inner (c_reader c) in
  match writer_into_inner (c_writer c) with
  | (Ok (writer, write_sequence), w) => (Ok (reader, writer, read_sequence, write_sequence), with_writer w c)
  | (Err e, w) => (Err e, with_writer w c)
  end.

(** [await_command]; [expired] says whether the deadline passed before anything came. *)
Definition await_command (expired : bool) : Io Connection Wait := fun c =>
  if expired then (Ok WaitIdle, c)
  else
    let '(answer, r) := wait_for_packet (c_reader c) in
    (match answer with
     | Ok true => Ok WaitCommand
     | Ok false => Ok WaitPeerClosed
     | Err e => Err e
     end, with_reader r c).

(** ** A connection and its handler *)

Section serving.
Context {H : Type} `{Handler H}.

(** The connection, the handler, and how the coming races end. *)
Record World : Type := { conn : Connection; hand : H; races : list (option WatchOutcome) }.

Definition with_conn (c : Connection) (w : World) : World := {| conn := c; hand := hand w; races := races w |}.
Definition with_hand (h : H) (w : World) : World := {| conn := conn w; hand := h; races := races w |}.

Definition on_reader {A} (m : Io PacketReader A) : Io World A :=
  zoom (fun w => c_reader (conn w)) (fun r w => with_conn (with_reader r (conn w)) w) m.
Definition on_writer {A} (m : Io PacketWriter A) : Io World A :=
  zoom (fun w => c_writer (conn w)) (fun x w => with_conn (with_writer x (conn w)) w) m.

(** A call of the handler. *)
Definition call {A} (f : H -> A * H) : Io World A := fun w => let '(a, h) := f (hand w) in (Ok a, with_hand h w).
Definition call_ (f : H -> H) : Io World unit := call (fun h => (tt, f h)).

Definition capabilities : Io World CapabilityFlags := io_get (fun w => c_capabilities (conn w)).

(** [self.writer.set_sequence(self.reader.sequence())]. *)
Definition follow_sequence : Io World unit :=
  io_modify (fun w => with_conn (with_writer (writer_set_sequence (reader_sequence (c_reader (conn w))) (c_writer (conn w))) (conn w)) w).

Definition send (payload : list byte) : Io World unit := on_writer (write_payload payload).
Definition flush_writer : Io World unit := on_writer flush.

(** ** Logging in *)

Definition send_greeting (scramble : list byte) (extra_capabilities : CapabilityFlags) : Io World unit :=
  h ← io_get hand;
  let greeting := {|
    hs_server_version := server_version h; hs_connection_id := connection_id h; hs_scramble := scramble;
    hs_capabilities := Z.lor server_capabilities extra_capabilities; hs_character_set := 255; hs_auth_plugin := auth_plugin h |} in
  _ ← on_writer (io_modify (writer_set_sequence 0));
  _ ← send (handshake_encode greeting);
  flush_writer.

Definition read_initial_response : Io World InitialResponse :=
  next ← on_reader next_payload;
  match next with
  | None => io_fail (io_err UnexpectedEof "no response")
  | Some payload =>
      if is_ssl_request payload then mret InitialSsl
      else
        match handshake_response_parse payload with
        | None => io_fail (io_err InvalidData "malformed handshake response")
        | Some response =>
            _ ← io_modify (fun w => with_conn (with_capabilities (hr_capabilities response) (conn w)) w);
            mret (InitialFull response)
        end
  end.

(** [*byte ^= scramble[index % scramble.len()]] along the bytes. *)
Definition unmask (scramble bytes : list byte) : list byte :=
  match scramble with
  | [] => bytes
  | _ => imap (fun index b => byte_xor b (nth (index mod length scramble)%nat scramble zero)) bytes
  end.

(** [if password.last() == Some(&0) { password.pop(); }]. *)
Definition drop_nul (password : list byte) : list byte :=
  match last password with
  | Some b => if byte_eqb b zero then removelast password else password
  | None => password
  end.

Definition full_authentication_password (scramble : list byte) : Io World (option (list byte)) :=
  _ ← follow_sequence;
  _ ← send (map byte.of_Z [0x01; 0x04]);
  _ ← flush_writer;
  next ← on_reader next_payload;
  match next with
  | None => mret None
  | Some payload =>
      if bytes_eqb payload [byte.of_Z 0x02] then
        h ← io_get hand;
        match full_auth_public_key h with
        | None => mret None
        | Some pem =>
            _ ← follow_sequence;
            _ ← send (byte.of_Z 0x01 :: pem);
            _ ← flush_writer;
            next ← on_reader next_payload;
            match next with
            | None => mret None
            | Some encrypted =>
                h ← io_get hand;
                match decrypt_full_auth_password h encrypted with
                | None => mret None
                | Some decrypted => mret (Some (drop_nul (unmask scramble decrypted)))
                end
            end
        end
      else mret (Some (drop_nul payload))
  end.

(** The login is accepted: an OK, and commands may be read ahead. *)
Definition accept_login (response : HandshakeResponse) : Io World HandshakeResponse :=
  _ ← follow_sequence;
  _ ← send (encode_ok ok_default []);
  _ ← flush_writer;
  _ ← on_reader (io_modify (set_read_ahead true));
  mret response.

Definition deny_login : Io World HandshakeResponse :=
  _ ← follow_sequence;
  _ ← send (encode_error ErAccessDeniedError (ascii "access denied"));
  _ ← flush_writer;
  io_fail (io_err PermissionDenied "authentication failed").

Definition is_caching_sha2 (response : HandshakeResponse) : bool :=
  match hr_auth_plugin response with Some plugin => bytes_eqb plugin (ascii "caching_sha2_password") | None => false end.

Definition complete_authentication (response : HandshakeResponse) (scramble : list byte) : Io World HandshakeResponse :=
  accepted ← call (authenticate response scramble);
  if accepted : bool then accept_login response
  else
    if is_caching_sha2 response then
      password ← full_authentication_password scramble;
      match password with
      | None => deny_login
      | Some password =>
          accepted ← call (authenticate_cleartext (hr_username response) password);
          if accepted : bool then accept_login response else deny_login
      end
    else deny_login.

Definition handshake (scramble : list byte) : Io World HandshakeResponse :=
  _ ← send_greeting scramble 0;
  initial ← read_initial_response;
  match initial with
  | InitialFull response => complete_authentication response scramble
  | InitialSsl => io_fail (io_err InvalidData "client requested TLS; use read_initial_response and into_parts")
  end.

(** ** Writing replies *)

Definition write_ok : Io World unit := _ ← send (encode_ok ok_default []); flush_writer.

Definition write_eof : Io World unit :=
  caps ← capabilities; _ ← send (encode_eof caps 0 0); flush_writer.

Definition write_error (kind : ErrorKind) (message : str) : Io World unit :=
  _ ← send (encode_error kind message); flush_writer.

Fixpoint send_all (payloads : list (list byte)) : Io World unit :=
  match payloads with
  | [] => mret tt
  | payload :: payloads => _ ← send payload; send_all payloads
  end.

(** The slices of a buffer of rows; [holds] of every buffer a handler builds makes them exist. *)
Definition row_payloads (rows : EncodedRows) : list (list byte) := default [] (rows_iter rows).

Definition write_result_header (columns : list ResultColumn) : Io World unit :=
  _ ← send (put_length_encoded_integer [] (len columns));
  _ ← send_all (map encode_column_definition columns);
  caps ← capabilities;
  if negb (contains caps CLIENT_DEPRECATE_EOF) then send (encode_eof caps 0 0) else mret tt.

Fixpoint write_chunks (chunks : list RowChunk) (status : StatusFlags) : Io World bool :=
  match chunks with
  | ChunkRows rows :: chunks => _ ← send_all (row_payloads rows); _ ← flush_writer; write_chunks chunks status
  | ChunkDone :: _ =>
      caps ← capabilities; _ ← send (encode_eof caps status 0); _ ← flush_writer; mret true
  | ChunkFailed kind message :: _ => _ ← write_error kind message; mret false
  | [] => _ ← write_error ErUnknownError (ascii "the query stopped before its result was complete"); mret false
  end.

Definition write_row_stream (stream : RowStream) (status : StatusFlags) : Io World bool :=
  _ ← write_result_header (st_columns stream);
  _ ← flush_writer;
  write_chunks (st_chunks stream) status.

Definition write_response_status (response : Response) (status : StatusFlags) (changes : list (str * str)) : Io World bool :=
  match response with
  | RespOk packet info =>
      caps ← capabilities;
      _ ← send (encode_ok_with_session (ok_with_status status packet) info caps changes);
      _ ← flush_writer;
      mret true
  | RespError kind message => _ ← write_error kind message; mret false
  | RespRows result =>
      _ ← write_result_header (rs_columns result);
      _ ← send_all (row_payloads (rs_rows result));
      caps ← capabilities;
      _ ← send (encode_eof caps status 0);
      _ ← flush_writer;
      mret true
  | RespStream stream => write_row_stream stream status
  end.

(** [finish_stream] runs whether or not the stream could be written. *)
Definition write_finished (response : Response) (status : StatusFlags) (changes : list (str * str)) : Io World bool := fun w =>
  let '(written, w) := write_response_status response status changes w in
  (written,
   match response with
   | RespStream _ => with_hand (finish_stream match written with Ok _ => true | Err _ => false end (hand w)) w
   | _ => w
   end).

Definition session_changes (response : Response) : Io World (list (str * str)) :=
  match response with RespOk _ _ => call take_session_changes | _ => mret [] end.

Definition write_handled (response : Response) (status : StatusFlags) : Io World bool :=
  changes ← session_changes response;
  write_finished response status changes.

(** A count in sixteen bits, the largest when it does not fit. *)
Definition u16_or_max (n : Z) : Z := if n <=? 65535 then n else 65535.

(** Definitions, and the EOF after them that an old client expects. *)
Definition write_definitions (columns : list ResultColumn) : Io World unit :=
  _ ← send_all (map encode_column_definition columns);
  caps ← capabilities;
  match columns with
  | [] => mret tt
  | _ => if negb (contains caps CLIENT_DEPRECATE_EOF) then send (encode_eof caps 0 0) else mret tt
  end.

Definition prepare_header (statement : PreparedStatement) : list byte :=
  [zero] ++ to_le 4 (ps_id statement) ++ to_le 2 (u16_or_max (len (ps_columns statement)))
  ++ to_le 2 (u16_or_max (len (ps_parameters statement))) ++ [zero] ++ to_le 2 0.

Definition write_prepare_response (statement : PreparedStatement) : Io World unit :=
  _ ← send (prepare_header statement);
  _ ← write_definitions (ps_parameters statement);
  _ ← write_definitions (ps_columns statement);
  flush_writer.

(** ** Serving commands *)

(** [race]: how it ends is the next entry of the plan. *)
Definition race (f : H -> Response * H) : Io World (option Response) := fun w =>
  let '(outcome, plan) := match races w with outcome :: plan => (outcome, plan) | [] => (None, []) end in
  let w := {| conn := conn w; hand := hand w; races := plan |} in
  match outcome with
  | Some Disconnected => (Ok None, with_hand (dropped (hand w)) (with_conn (with_watch_ended true (conn w)) w))
  | Some (Primed bytes) =>
      (response ← call f; mret (Some response)) (with_conn (with_reader (prime bytes (c_reader (conn w))) (conn w)) w)
  | None => (response ← call f; mret (Some response)) w
  end.

(** A handler call, raced when there is a watch. *)
Definition run_handler (watch : bool) (f : H -> Response * H) : Io World (option Response) :=
  if watch then race f else (response ← call f; mret (Some response)).

(** The loop of [serve_query]; each round goes on with a shorter request. *)
Fixpoint serve_query_loop (fuel : nat) (multi watch : bool) (remaining : list byte) : Io World bool :=
  match fuel with
  | O => mret true
  | S fuel =>
      h ← io_get hand;
      let '(statement, tail) := default (remaining, []) (first_statement h remaining) in
      if negb multi && match first_statement h tail with Some _ => true | None => false end then
        _ ← write_error ErParseError (ascii "multiple statements were not enabled by this client");
        mret true
      else
        response ← run_handler watch (query statement);
        match response with
        | None => mret false
        | Some response =>
            h ← io_get hand;
            let follows := multi && match first_statement h tail with Some _ => true | None => false end in
            let status := if follows then SERVER_MORE_RESULTS_EXISTS else 0 in
            completed ← write_handled response status;
            if completed && follows then serve_query_loop fuel multi watch tail else mret true
        end
  end.

Definition serve_query (watch : bool) (sql : list byte) : Io World bool :=
  caps ← capabilities;
  serve_query_loop (S (length sql)) (contains caps CLIENT_MULTI_STATEMENTS) watch sql.

Definition serve_command (watch : bool) (command : Command) : Io World bool :=
  match command with
  | Quit => mret false
  | Ping => _ ← write_ok; mret true
  | InitDb database =>
      answer ← call (init_database database);
      _ ← match answer with Ok _ => write_ok | Err (kind, message) => write_error kind message end;
      mret true
  | Query sql =>
      goes_on ← serve_query watch sql;
      mret goes_on
  | SetOption option =>
      if option =? 0 then
        _ ← io_modify (fun w => with_conn (with_capabilities (Z.lor (c_capabilities (conn w)) CLIENT_MULTI_STATEMENTS) (conn w)) w);
        _ ← write_eof;
        mret true
      else if option =? 1 then
        _ ← io_modify (fun w => with_conn (with_capabilities
              (Z.land (c_capabilities (conn w)) (Z.lxor CLIENT_MULTI_STATEMENTS 0xffffffff)) (conn w)) w);
        _ ← write_eof;
        mret true
      else
        _ ← write_error ErWrongArguments (ascii "unknown multi-statement option");
        mret true
  | Prepare sql =>
      answer ← call (prepare sql);
      _ ← match answer with Ok statement => write_prepare_response statement | Err (kind, message) => write_error kind message end;
      mret true
  | Execute statement body =>
      response ← run_handler watch (execute statement body);
      match response with
      | None => mret false
      | Some response => _ ← write_handled response 0; mret true
      end
  | CloseStatement statement => _ ← call_ (close_statement statement); mret true
  | ResetStatement statement =>
      known ← call (reset_statement statement);
      _ ← (if known : bool then write_ok else write_error ErUnknownError (ascii "unknown statement"));
      mret true
  | FieldList _ => _ ← write_eof; mret true
  | SendLongData statement parameter data => _ ← call_ (send_long_data statement parameter data); mret true
  | ResetConnection => _ ← call_ reset_connection; _ ← write_ok; mret true
  | ChangeUser username auth_response database =>
      changed ← call (change_user username auth_response database);
      _ ← (if changed : bool then write_ok else write_error ErAccessDeniedError (ascii "access denied"));
      mret true
  | Unknown code =>
      _ ← write_error ErUnknownComError (ascii "unknown command " ++ dec_text code);
      mret true
  end.

(** [serve_one_inner]: a command is raced only when nothing follows it in the buffer. *)
Definition serve_one_inner (watch : bool) : Io World bool :=
  next ← on_reader next_payload;
  match next with
  | None => mret false
  | Some payload =>
      r ← io_get (fun w => c_reader (conn w));
      let watch := watch && negb (has_buffered r) in
      _ ← follow_sequence;
      serve_command watch (command_parse payload)
  end.

Definition serve_one : Io World bool := serve_one_inner false.
Definition serve_one_with_disconnect_watch : Io World bool := serve_one_inner true.

(** ** The dialogue without packets *)

(** What a command can change: the handler, the capabilities, the plan of the races, the
    bytes held for the next command, and whether the watch ended the connection. *)
Record Session : Type := {
  s_hand : H;
  s_capabilities : CapabilityFlags;
  s_races : list (option WatchOutcome);
  s_held : list byte;
  s_ended : bool
}.

(** The payloads a step says, its answer, and the session after it. *)
Definition Dialogue (A : Type) : Type := Session -> list (list byte) * A * Session.

Definition say (payloads : list (list byte)) : Dialogue unit := fun s => (payloads, tt, s).

#[local] Instance Dialogue_ret : MRet Dialogue := fun A a s => ([], a, s).
#[local] Instance Dialogue_bind : MBind Dialogue := fun A B f m s =>
  let '(said, a, s) := m s in let '(more, b, s) := f a s in (said ++ more, b, s).

Definition ask {A} (f : H -> A * H) : Dialogue A := fun s =>
  let '(a, h) := f (s_hand s) in
  ([], a, {| s_hand := h; s_capabilities := s_capabilities s; s_races := s_races s; s_held := s_held s; s_ended := s_ended s |}).

Definition peek {A} (f : Session -> A) : Dialogue A := fun s => ([], f s, s).

(** The column count and definitions, and the EOF after them for an old client. *)
Definition header_payloads (caps : CapabilityFlags) (columns : list ResultColumn) : list (list byte) :=
  put_length_encoded_integer [] (len columns) :: map encode_column_definition columns
  ++ (if contains caps CLIENT_DEPRECATE_EOF then [] else [encode_eof caps 0 0]).

(** The payloads of a stream after its header, and whether it ended well. *)
Fixpoint chunk_payloads (caps : CapabilityFlags) (status : StatusFlags) (chunks : list RowChunk) : list (list byte) * bool :=
  match chunks with
  | ChunkRows rows :: chunks =>
      let '(payloads, done) := chunk_payloads caps status chunks in (row_payloads rows ++ payloads, done)
  | ChunkDone :: _ => ([encode_eof caps status 0], true)
  | ChunkFailed kind message :: _ => ([encode_error kind message], false)
  | [] => ([encode_error ErUnknownError (ascii "the query stopped before its result was complete")], false)
  end.

(** The payloads of a response, and whether it ended without an error. *)
Definition response_payloads (caps : CapabilityFlags) (response : Response) (status : StatusFlags) (changes : list (str * str))
    : list (list byte) * bool :=
  match response with
  | RespOk packet info => ([encode_ok_with_session (ok_with_status status packet) info caps changes], true)
  | RespError kind message => ([encode_error kind message], false)
  | RespRows result =>
      (header_payloads caps (rs_columns result) ++ row_payloads (rs_rows result) ++ [encode_eof caps status 0], true)
  | RespStream stream =>
      let '(payloads, done) := chunk_payloads caps status (st_chunks stream) in
      (header_payloads caps (st_columns stream) ++ payloads, done)
  end.

Definition say_handled (response : Response) (status : StatusFlags) : Dialogue bool :=
  changes ← match response with RespOk _ _ => ask take_session_changes | _ => mret [] end;
  caps ← peek s_capabilities;
  let '(payloads, done) := response_payloads caps response status changes in
  _ ← say payloads;
  _ ← match response with RespStream _ => ask (fun h => (tt, finish_stream true h)) | _ => mret tt end;
  mret done.

(** A handler call that the watch may end or put bytes into. *)
Definition ask_watched (watch : bool) (f : H -> Response * H) : Dialogue (option Response) := fun s =>
  let '(outcome, plan) :=
    if watch then match s_races s with outcome :: plan => (outcome, plan) | [] => (None, []) end else (None, s_races s) in
  match outcome with
  | Some Disconnected =>
      ([], None, {| s_hand := dropped (s_hand s); s_capabilities := s_capabilities s; s_races := plan; s_held := s_held s; s_ended := true |})
  | _ =>
      let held := match outcome with Some (Primed bytes) => s_held s ++ bytes | _ => s_held s end in
      let '(response, h) := f (s_hand s) in
      ([], Some response, {| s_hand := h; s_capabilities := s_capabilities s; s_races := plan; s_held := held; s_ended := s_ended s |})
  end.

Fixpoint say_query (fuel : nat) (multi watch : bool) (remaining : list byte) : Dialogue bool :=
  match fuel with
  | O => mret true
  | S fuel =>
      h ← peek s_hand;
      let '(statement, tail) := default (remaining, []) (first_statement h remaining) in
      if negb multi && match first_statement h tail with Some _ => true | None => false end then
        _ ← say [encode_error ErParseError (ascii "multiple statements were not enabled by this client")];
        mret true
      else
        response ← ask_watched watch (query statement);
        match response with
        | None => mret false
        | Some response =>
            h ← peek s_hand;
            let follows := multi && match first_statement h tail with Some _ => true | None => false end in
            completed ← say_handled response (if follows then SERVER_MORE_RESULTS_EXISTS else 0);
            if completed && follows then say_query fuel multi watch tail else mret true
        end
  end.

(** Definitions of a prepared statement. *)
Definition definition_payloads (caps : CapabilityFlags) (columns : list ResultColumn) : list (list byte) :=
  map encode_column_definition columns
  ++ match columns with [] => [] | _ => if contains caps CLIENT_DEPRECATE_EOF then [] else [encode_eof caps 0 0] end.

Definition prepare_payloads (caps : CapabilityFlags) (statement : PreparedStatement) : list (list byte) :=
  prepare_header statement :: definition_payloads caps (ps_parameters statement) ++ definition_payloads caps (ps_columns statement).

Definition set_capabilities (f : CapabilityFlags -> CapabilityFlags) : Dialogue unit := fun s =>
  ([], tt, {| s_hand := s_hand s; s_capabilities := f (s_capabilities s); s_races := s_races s; s_held := s_held s; s_ended := s_ended s |}).

Definition ok_payload : list byte := encode_ok ok_default [].

Definition say_eof : Dialogue unit := caps ← peek s_capabilities; say [encode_eof caps 0 0].

(** The reply to a command; the answer is whether the connection goes on. *)
Definition reply (watch : bool) (command : Command) : Dialogue bool :=
  match command with
  | Quit => mret false
  | Ping => _ ← say [ok_payload]; mret true
  | InitDb database =>
      answer ← ask (init_database database);
      _ ← say [match answer with Ok _ => ok_payload | Err (kind, message) => encode_error kind message end];
      mret true
  | Query sql =>
      caps ← peek s_capabilities;
      say_query (S (length sql)) (contains caps CLIENT_MULTI_STATEMENTS) watch sql
  | SetOption option =>
      if option =? 0 then _ ← set_capabilities (fun caps => Z.lor caps CLIENT_MULTI_STATEMENTS); _ ← say_eof; mret true
      else if option =? 1 then
        _ ← set_capabilities (fun caps => Z.land caps (Z.lxor CLIENT_MULTI_STATEMENTS 0xffffffff)); _ ← say_eof; mret true
      else _ ← say [encode_error ErWrongArguments (ascii "unknown multi-statement option")]; mret true
  | Prepare sql =>
      answer ← ask (prepare sql);
      caps ← peek s_capabilities;
      _ ← say match answer with Ok statement => prepare_payloads caps statement | Err (kind, message) => [encode_error kind message] end;
      mret true
  | Execute statement body =>
      response ← ask_watched watch (execute statement body);
      match response with
      | None => mret false
      | Some response => _ ← say_handled response 0; mret true
      end
  | CloseStatement statement => _ ← ask (fun h => (tt, close_statement statement h)); mret true
  | ResetStatement statement =>
      known ← ask (reset_statement statement);
      _ ← say [if known : bool then ok_payload else encode_error ErUnknownError (ascii "unknown statement")];
      mret true
  | FieldList _ => _ ← say_eof; mret true
  | SendLongData statement parameter data => _ ← ask (fun h => (tt, send_long_data statement parameter data h)); mret true
  | ResetConnection => _ ← ask (fun h => (tt, reset_connection h)); _ ← say [ok_payload]; mret true
  | ChangeUser username auth_response database =>
      changed ← ask (change_user username auth_response database);
      _ ← say [if changed : bool then ok_payload else encode_error ErAccessDeniedError (ascii "access denied")];
      mret true
  | Unknown code => _ ← say [encode_error ErUnknownComError (ascii "unknown command " ++ dec_text code)]; mret true
  end.

(** ** The connection follows the dialogue *)

Definition session (w : World) : Session := {|
  s_hand := hand w; s_capabilities := c_capabilities (conn w); s_races := races w;
  s_held := buffered (c_reader (conn w)); s_ended := c_watch_ended (conn w) |}.

(** The reader as a command leaves it: only the bytes it holds may have grown. *)
Definition reader_kept (w w' : World) : Prop :=
  reader_ok (c_reader (conn w')) /\ reader_inner (c_reader (conn w')) = reader_inner (c_reader (conn w)) /\
  same_mode (c_reader (conn w)) (c_reader (conn w')).

Definition out (w : World) : PacketWriter := c_writer (conn w).
Definition flushed (b : bool) (w : World) : Prop := b = true -> writer_buffer (out w) = [].

(** [follows b m d b']: from a state that is flushed if [b], the code [m] sends the payloads
    of [d] in packets, numbered on from where the writer is, and reaches its session, flushed
    if [b']; when a write fails the peer has a part of those bytes and nothing else. *)
Definition follows {A} (b : bool) (m : Io World A) (d : Dialogue A) (b' : bool) : Prop := forall w,
  reader_ok (c_reader (conn w)) -> flushed b w ->
  let '(payloads, a, s) := d (session w) in
  forall bs after, framed_all (writer_sequence (out w)) payloads bs after ->
  runs m w
    (fun a' w' => a' = a /\ session w' = s /\ reader_kept w w' /\ flushed b' w' /\
       wire (out w') = wire (out w) ++ bs /\ writer_sequence (out w') = after)
    (fun _ w' => sent_part (wire (out w) ++ bs) (out w')).

Lemma reader_kept_same w w' : reader_ok (c_reader (conn w)) -> c_reader (conn w') = c_reader (conn w) -> reader_kept w w'.
Proof. intros Hr E. unfold reader_kept, same_mode. rewrite E. auto. Qed.

Lemma reader_kept_refl w : reader_ok (c_reader (conn w)) -> reader_kept w w.
Proof. intros. now apply reader_kept_same. Qed.

Lemma reader_kept_trans w1 w2 w3 : reader_kept w1 w2 -> reader_kept w2 w3 -> reader_kept w1 w3.
Proof. unfold reader_kept, same_mode. intros (? & ? & ? & ?) (? & ? & ? & ?). split; [easy|]. split; [congruence|]. split; congruence. Qed.

Lemma framed_all_app sequence ps1 ps2 bs after : framed_all sequence (ps1 ++ ps2) bs after ->
  exists bs1 middle bs2, bs = bs1 ++ bs2 /\ framed_all sequence ps1 bs1 middle /\ framed_all middle ps2 bs2 after.
Proof.
  revert sequence bs after; induction ps1 as [|p ps1 IH]; intros sequence bs after; cbn [app].
  { intros Hf. exists [], sequence, bs. repeat split; [constructor|easy]. }
  intros Hf. inv Hf. match goal with H : framed_all _ (ps1 ++ ps2) _ _ |- _ => destruct (IH _ _ _ H) as (bs1 & middle' & bs2 & -> & H1 & H2) end.
  eexists _, _, _. split; [apply app_assoc|]. split; [econstructor; eassumption|easy].
Qed.

Lemma follows_bind {A B} b b' b'' (m : Io World A) (d : Dialogue A) (f : A -> Io World B) (g : A -> Dialogue B) :
  follows b m d b' -> (forall a, follows b' (f a) (g a) b'') -> follows b (m ≫= f) (d ≫= g) b''.
Proof.
  intros Hm Hf w Hr Hb. unfold mbind at 1, Dialogue_bind. specialize (Hm w Hr Hb). destruct (d (session w)) as [[said a] s].
  destruct (g a s) as [[more c] s'] eqn:Eg. intros bs after Hfr. apply framed_all_app in Hfr as (bs1 & middle & bs2 & -> & H1 & H2).
  apply runs_bind. rewrite app_assoc. eapply runs_weaken; [apply (Hm _ _ H1)| |intros; now apply sent_more].
  cbn. intros a' w1 (-> & Es & Hk & Hfl & Ew & Eq). specialize (Hf a w1 (proj1 Hk) Hfl). rewrite Es, Eg in Hf. rewrite <- Ew, <- Eq in *.
  eapply runs_weaken; [apply (Hf _ _ H2)| |easy]. cbn. intros c' w2 (-> & Es2 & Hk2 & Hfl2 & Ew2 & Eq2).
  split_and!; [easy|easy|now apply (reader_kept_trans w w1)|easy..].
Qed.

(** A step that says nothing. *)
Lemma follows_silent {A} b b' (m : Io World A) (d : Dialogue A) :
  (forall w, reader_ok (c_reader (conn w)) -> flushed b w -> exists a w', m w = (Ok a, w') /\ d (session w) = ([], a, session w') /\
     reader_kept w w' /\ flushed b' w' /\ wire (out w') = wire (out w) /\ writer_sequence (out w') = writer_sequence (out w)) ->
  follows b m d b'.
Proof.
  intros Hm w Hr Hb. destruct (Hm w Hr Hb) as (a & w' & E & Ed & Hk & Hfl & Ew & Eq). rewrite Ed. intros bs after Hfr. inv Hfr.
  unfold runs. rewrite E, app_nil_r. split_and!; easy.
Qed.

Lemma follows_ret {A} b (a : A) : follows b (mret a) (mret a) b.
Proof. apply follows_silent. intros w Hr Hb. exists a, w. split_and!; auto using reader_kept_refl. Qed.

Lemma follows_peek {A} b (f : World -> A) (g : Session -> A) : (forall w, f w = g (session w)) -> follows b (io_get f) (peek g) b.
Proof.
  intros E. apply follows_silent. intros w Hr Hb. exists (f w), w. unfold peek. rewrite E. split_and!; auto using reader_kept_refl.
  unfold io_get. now rewrite E.
Qed.

Lemma follows_capabilities b : follows b capabilities (peek s_capabilities) b.
Proof. now apply follows_peek. Qed.

Lemma follows_hand b : follows b (io_get hand) (peek s_hand) b.
Proof. now apply follows_peek. Qed.

Lemma follows_call {A} b (f : H -> A * H) : follows b (call f) (ask f) b.
Proof.
  apply follows_silent. intros w Hr Hb. unfold call, ask. cbn [session s_hand]. destruct (f (hand w)) as [a h].
  exists a, (with_hand h w). split_and!; auto. now apply reader_kept_same.
Qed.

Lemma follows_send b payload : follows b (send payload) (say [payload]) false.
Proof.
  intros w Hr _. cbn. intros bs after Hfr. inv Hfr. match goal with H : framed_all _ [] _ _ |- _ => inv H end. rewrite app_nil_r.
  match goal with H : framed _ payload _ _ |- _ => pose proof (write_payload_runs payload (out w) _ _ H) as Hw end.
  unfold runs, send, on_writer, zoom, out in *. destruct (write_payload payload _) as [[[]|e] w1]; cbn; [|easy].
  destruct Hw as (E1 & E2 & _). split_and!; easy.
Qed.

Lemma follows_flush b : follows b flush_writer (say []) true.
Proof.
  intros w Hr _. cbn. intros bs after Hfr. inv Hfr. rewrite app_nil_r. pose proof (flush_runs (out w)) as Hw.
  unfold runs, flush_writer, on_writer, zoom, out in *. destruct (flush _) as [[[]|e] w1]; cbn; [|easy].
  destruct Hw as (E1 & E2 & E3). split_and!; try easy. unfold wire at 1. now rewrite E3, app_nil_r.
Qed.

Lemma follows_eq {A} b (m : Io World A) (d d' : Dialogue A) b' : (forall s, d s = d' s) -> follows b m d b' -> follows b m d' b'.
Proof. intros E Hf w Hr Hb. specialize (Hf w Hr Hb). now rewrite E in Hf. Qed.

Lemma follows_pre {A} b (m : Io World A) (d : Dialogue A) b' : follows false m d b' -> follows b m d b'.
Proof. intros Hf w Hr _. now apply Hf. Qed.

Lemma follows_post {A} b (m : Io World A) (d : Dialogue A) b' : follows b m d b' -> follows b m d false.
Proof.
  intros Hf w Hr Hb. specialize (Hf w Hr Hb). destruct (d (session w)) as [[ps a] s]. intros bs after Hfr.
  eapply runs_weaken; [apply (Hf _ _ Hfr)| |easy]. cbn. intros a' w' (? & ? & ? & Hfl & ? & ?). split_and!; easy.
Qed.

Lemma dialogue_bind_ret {A} (m : Dialogue A) s : (a ← m; mret a) s = m s.
Proof. unfold mbind, Dialogue_bind. destruct (m s) as [[ps a] s']. cbn. now rewrite app_nil_r. Qed.

Lemma follows_said b payload : follows b (_ ← send payload; flush_writer) (say [payload]) true.
Proof.
  apply (follows_eq _ _ (_ ← say [payload]; say [])); [reflexivity|].
  eapply follows_bind; [apply follows_send|intros _; apply follows_flush].
Qed.

Lemma follows_send_all b payloads : follows b (send_all payloads) (say payloads) false.
Proof.
  revert b; induction payloads as [|p payloads IH]; intros b; cbn [send_all].
  - apply (follows_post _ _ _ b). apply (follows_eq _ _ (mret tt)); [reflexivity|apply follows_ret].
  - apply (follows_eq _ _ (_ ← say [p]; say payloads)); [reflexivity|].
    eapply follows_bind; [apply follows_send|intros _; apply IH].
Qed.

Lemma follows_header b columns :
  follows b (write_result_header columns) (caps ← peek s_capabilities; say (header_payloads caps columns)) false.
Proof.
  apply (follows_eq _ _ (_ ← say [put_length_encoded_integer [] (len columns)]; _ ← say (map encode_column_definition columns);
    caps ← peek s_capabilities; say (if contains caps CLIENT_DEPRECATE_EOF then [] else [encode_eof caps 0 0]))); [reflexivity|].
  eapply follows_bind; [apply follows_send|intros _]. eapply follows_bind; [apply follows_send_all|intros _].
  eapply follows_bind; [apply follows_capabilities|intros caps]. destruct (contains caps CLIENT_DEPRECATE_EOF); cbn [negb].
  - apply (follows_eq _ _ (mret tt)); [reflexivity|apply follows_ret].
  - apply follows_send.
Qed.

(** Payloads that depend on the capabilities, and whether they end well. *)
Definition say_and {A} (f : CapabilityFlags -> list (list byte) * A) : Dialogue A :=
  caps ← peek s_capabilities; let '(payloads, a) := f caps in _ ← say payloads; mret a.

Lemma say_and_eq {A} (f : CapabilityFlags -> list (list byte) * A) s :
  say_and f s = (fst (f (s_capabilities s)), snd (f (s_capabilities s)), s).
Proof. unfold say_and, mbind, Dialogue_bind, peek, say. destruct (f _) as [ps a]. cbn. now rewrite app_nil_r. Qed.

Lemma follows_error b kind message : follows b (_ ← write_error kind message; mret false) (say_and (fun _ => ([encode_error kind message], false))) true.
Proof.
  apply (follows_eq _ _ (_ ← say [encode_error kind message]; mret false)); [intros s; now rewrite say_and_eq|].
  eapply follows_bind; [apply follows_said|intros _; apply follows_ret].
Qed.

Lemma follows_end b status :
  follows b (caps ← capabilities; _ ← send (encode_eof caps status 0); _ ← flush_writer; mret true)
    (say_and (fun caps => ([encode_eof caps status 0], true))) true.
Proof.
  apply (follows_eq _ _ (caps ← peek s_capabilities; _ ← say [encode_eof caps status 0]; _ ← say []; mret true)); [intros s; now rewrite say_and_eq|].
  eapply follows_bind; [apply follows_capabilities|intros caps]. eapply follows_bind; [apply follows_send|intros _].
  eapply follows_bind; [apply follows_flush|intros _; apply follows_ret].
Qed.

Lemma follows_chunks b status chunks :
  follows b (write_chunks chunks status) (say_and (fun caps => chunk_payloads caps status chunks)) true.
Proof.
  revert b; induction chunks as [|[rows| |kind message] chunks IH]; intros b; cbn [write_chunks chunk_payloads].
  - apply follows_error.
  - apply (follows_eq _ _ (_ ← say (row_payloads rows); _ ← say []; say_and (fun caps => chunk_payloads caps status chunks))).
    + intros s. rewrite say_and_eq. unfold mbind, Dialogue_bind, say. rewrite say_and_eq. cbn.
      now destruct (chunk_payloads (s_capabilities s) status chunks).
    + eapply follows_bind; [apply follows_send_all|intros _]. eapply follows_bind; [apply follows_flush|intros _; apply IH].
  - apply follows_end.
  - apply follows_error.
Qed.

Lemma follows_response b response status changes :
  follows b (write_response_status response status changes) (say_and (fun caps => response_payloads caps response status changes)) true.
Proof.
  destruct response as [result|stream|packet info|kind message]; cbn [write_response_status response_payloads].
  - apply (follows_eq _ _ (_ ← (caps ← peek s_capabilities; say (header_payloads caps (rs_columns result))); _ ← say (row_payloads (rs_rows result));
      say_and (fun caps => ([encode_eof caps status 0], true)))).
    + intros s. rewrite say_and_eq. unfold mbind, Dialogue_bind, peek, say. rewrite say_and_eq. easy.
    + eapply follows_bind; [apply follows_header|intros _]. eapply follows_bind; [apply follows_send_all|intros _; apply follows_end].
  - apply (follows_eq _ _ (_ ← (caps ← peek s_capabilities; say (header_payloads caps (st_columns stream))); _ ← say [];
      say_and (fun caps => chunk_payloads caps status (st_chunks stream)))).
    + intros s. rewrite say_and_eq. unfold mbind, Dialogue_bind, peek, say. rewrite say_and_eq. cbn.
      now destruct (chunk_payloads (s_capabilities s) status (st_chunks stream)).
    + eapply follows_bind; [apply follows_header|intros _]. eapply follows_bind; [apply follows_flush|intros _; apply follows_chunks].
  - apply (follows_eq _ _ (caps ← peek s_capabilities; _ ← say [encode_ok_with_session (ok_with_status status packet) info caps changes]; _ ← say []; mret true));
      [intros s; now rewrite say_and_eq|].
    eapply follows_bind; [apply follows_capabilities|intros caps]. eapply follows_bind; [apply follows_send|intros _].
    eapply follows_bind; [apply follows_flush|intros _; apply follows_ret].
  - apply follows_error.
Qed.

Lemma follows_handled b response status : follows b (write_handled response status) (say_handled response status) true.
Proof.
  unfold write_handled, say_handled. eapply (follows_bind b b).
  { unfold session_changes. destruct response; first [apply follows_ret|apply follows_call]. }
  intros changes w Hr Hb. pose proof (follows_response b response status changes w Hr Hb) as Hf. rewrite say_and_eq in Hf. cbn [session s_capabilities] in Hf.
  unfold mbind, Dialogue_bind, peek, say. cbn [session s_capabilities]. destruct (response_payloads _ response status changes) as [ps done]. cbn [fst snd] in Hf.
  assert (Hfin : forall s, (match response with RespStream _ => ask (fun h => (tt, finish_stream true h)) | _ => mret tt end) s =
    ([], tt, match response with
             | RespStream _ => {| s_hand := finish_stream true (s_hand s); s_capabilities := s_capabilities s; s_races := s_races s; s_held := s_held s; s_ended := s_ended s |}
             | _ => s end)) by (intros; now destruct response).
  rewrite Hfin. cbn. rewrite !app_nil_r. intros bs after Hfr. specialize (Hf bs after Hfr). unfold runs in *. unfold write_finished.
  destruct (write_response_status response status changes w) as [[x|e] w']; [|now destruct response].
  destruct Hf as (-> & Es & Hk & Hfl & Ew & Eq). destruct response; try (split_and!; easy).
  split_and!; try easy. injection Es as E1 E2 E3 E4 E5. unfold session. cbn. congruence.
Qed.

Lemma follows_watched b watch (f : H -> Response * H) : follows b (run_handler watch f) (ask_watched watch f) b.
Proof.
  assert (Hc : forall w, reader_ok (c_reader (conn w)) -> flushed b w -> exists a w', (response ← call f; mret (Some response)) w = (Ok a, w') /\
    (let '(response, h) := f (hand w) in ([], Some response, {| s_hand := h; s_capabilities := c_capabilities (conn w); s_races := races w;
       s_held := buffered (c_reader (conn w)); s_ended := c_watch_ended (conn w) |})) = ([] : list (list byte), a, session w') /\
    reader_kept w w' /\ flushed b w' /\ wire (out w') = wire (out w) /\ writer_sequence (out w') = writer_sequence (out w)).
  { intros w Hr Hb. unfold mbind, Io_bind, call. destruct (f (hand w)) as [response h]. exists (Some response), (with_hand h w). split_and!; try easy. }
  apply follows_silent. intros w Hr Hb. unfold run_handler, ask_watched. cbn [session s_hand s_capabilities s_races s_held s_ended].
  destruct watch; [|now apply Hc]. unfold race. destruct (races w) as [|[[|bytes]|] plan] eqn:Er.
  - specialize (Hc {| conn := conn w; hand := hand w; races := [] |} Hr Hb). exact Hc.
  - eexists _, _. split; [reflexivity|]. split_and!; easy.
  - destruct (prime_spec bytes (c_reader (conn w)) Hr) as (Hr1 & Hm1 & Eb1 & Ei1).
    specialize (Hc (with_conn (with_reader (prime bytes (c_reader (conn w))) (conn w)) {| conn := conn w; hand := hand w; races := plan |}) Hr1 Hb).
    destruct Hc as (a & w' & E & Ed & Hk & Hfl & Ew & Eq). exists a, w'. split; [exact E|]. cbn in Ed. rewrite <- Ed.
    split; [rewrite Eb1; now destruct (f (hand w))|]. split_and!; try easy. refine (reader_kept_trans _ _ _ _ Hk). exact (conj Hr1 (conj Ei1 Hm1)).
  - specialize (Hc {| conn := conn w; hand := hand w; races := plan |} Hr Hb). exact Hc.
Qed.

Lemma follows_then {A} b b' b'' (m : Io World unit) (d : Dialogue unit) (f : Io World A) (g : Dialogue A) :
  follows b m d b' -> follows b' f g b'' -> follows b (_ ← m; f) (_ ← d; g) b''.
Proof. intros Hm Hf. eapply follows_bind; [exact Hm|intros _; exact Hf]. Qed.

Lemma follows_query fuel multi watch : forall remaining, follows true (serve_query_loop fuel multi watch remaining) (say_query fuel multi watch remaining) true.
Proof.
  induction fuel as [|fuel IH]; intros remaining; cbn [serve_query_loop say_query]; [apply follows_ret|].
  eapply follows_bind; [apply follows_hand|intros h]. destruct (default (remaining, []) (first_statement h remaining)) as [statement tail].
  destruct (negb multi && _).
  { apply (follows_then _ true); [apply follows_said|apply follows_ret]. }
  eapply follows_bind; [apply follows_watched|intros [response|]; [|apply follows_ret]].
  eapply follows_bind; [apply follows_hand|intros h']. eapply follows_bind; [apply follows_handled|intros completed].
  destruct (completed && _); [apply IH|apply follows_ret].
Qed.

Lemma follows_definitions b columns :
  follows b (write_definitions columns) (caps ← peek s_capabilities; say (definition_payloads caps columns)) false.
Proof.
  apply (follows_eq _ _ (_ ← say (map encode_column_definition columns); caps ← peek s_capabilities;
    say match columns with [] => [] | _ => if contains caps CLIENT_DEPRECATE_EOF then [] else [encode_eof caps 0 0] end)); [reflexivity|].
  eapply follows_bind; [apply follows_send_all|intros _]. eapply follows_bind; [apply follows_capabilities|intros caps].
  assert (Hn : follows false (mret tt) (say []) false) by (apply (follows_eq _ _ (mret tt)); [reflexivity|apply follows_ret]).
  destruct columns; [exact Hn|]. destruct (contains caps CLIENT_DEPRECATE_EOF); cbn [negb]; [exact Hn|apply follows_send].
Qed.

Lemma follows_prepared b statement :
  follows b (write_prepare_response statement) (caps ← peek s_capabilities; say (prepare_payloads caps statement)) true.
Proof.
  apply (follows_eq _ _ (_ ← say [prepare_header statement]; _ ← (caps ← peek s_capabilities; say (definition_payloads caps (ps_parameters statement)));
    _ ← (caps ← peek s_capabilities; say (definition_payloads caps (ps_columns statement))); say [])).
  { intros s. unfold mbind, Dialogue_bind, peek, say, prepare_payloads. cbn. now rewrite app_nil_r. }
  eapply follows_bind; [apply follows_send|intros _]. eapply follows_bind; [apply follows_definitions|intros _].
  eapply follows_bind; [apply follows_definitions|intros _; apply follows_flush].
Qed.

Lemma follows_set_capabilities b f :
  follows b (io_modify (fun w => with_conn (with_capabilities (f (c_capabilities (conn w))) (conn w)) w)) (set_capabilities f) b.
Proof. apply follows_silent. intros w Hr Hb. eexists tt, _. split; [reflexivity|]. split_and!; easy. Qed.

Lemma follows_eof b : follows b write_eof say_eof true.
Proof. eapply follows_bind; [apply follows_capabilities|intros caps; apply follows_said]. Qed.

Lemma follows_ok b : follows b write_ok (say [ok_payload]) true.
Proof. apply follows_said. Qed.

Lemma follows_command watch command : follows true (serve_command watch command) (reply watch command) true.
Proof.
  destruct command; cbn [serve_command reply].
  - apply (follows_eq _ _ (goes_on ← (caps ← peek s_capabilities; say_query (S (length sql)) (contains caps CLIENT_MULTI_STATEMENTS) watch sql); mret goes_on)).
    { intros s. apply dialogue_bind_ret. }
    eapply follows_bind; [|intros; apply follows_ret]. eapply follows_bind; [apply follows_capabilities|intros caps; apply follows_query].
  - eapply follows_bind; [apply follows_call|intros [statement|[kind message]]].
    + apply (follows_eq _ _ (_ ← (caps ← peek s_capabilities; say (prepare_payloads caps statement)); mret true)); [reflexivity|].
      apply (follows_then _ true); [apply follows_prepared|apply follows_ret].
    + apply (follows_eq _ _ (_ ← say [encode_error kind message]; mret true)); [reflexivity|].
      apply (follows_then _ true); [apply follows_said|apply follows_ret].
  - eapply follows_bind; [apply follows_watched|intros [response|]; [|apply follows_ret]].
    eapply follows_bind; [apply follows_handled|intros; apply follows_ret].
  - eapply follows_bind; [apply follows_call|intros; apply follows_ret].
  - eapply follows_bind; [apply follows_call|intros; apply follows_ret].
  - eapply follows_bind; [apply follows_call|intros [|]]; (apply (follows_then _ true); [apply follows_said|apply follows_ret]).
  - eapply follows_bind; [apply follows_call|intros [[]|[kind message]]]; (apply (follows_then _ true); [apply follows_said|apply follows_ret]).
  - apply (follows_then _ true); [apply follows_eof|apply follows_ret].
  - destruct (option =? 0); [|destruct (option =? 1)].
    + eapply follows_then; [apply follows_set_capabilities|]. apply (follows_then _ true); [apply follows_eof|apply follows_ret].
    + eapply follows_then; [apply (follows_set_capabilities _ (fun caps => Z.land caps _))|]. apply (follows_then _ true); [apply follows_eof|apply follows_ret].
    + apply (follows_then _ true); [apply follows_said|apply follows_ret].
  - apply (follows_then _ true); [apply follows_ok|apply follows_ret].
  - apply follows_ret.
  - eapply follows_bind; [apply follows_call|intros _]. apply (follows_then _ true); [apply follows_ok|apply follows_ret].
  - eapply follows_bind; [apply follows_call|intros [|]]; (apply (follows_then _ true); [apply follows_said|apply follows_ret]).
  - apply (follows_then _ true); [apply follows_said|apply follows_ret].
Qed.

(** ** Serving one command *)

(** The session once the command has been read, [held] what came with it. *)
Definition session_holding (w : World) (held : list byte) : Session := {|
  s_hand := hand w; s_capabilities := c_capabilities (conn w); s_races := races w; s_held := held; s_ended := c_watch_ended (conn w) |}.

Lemma serve_payload watch w payload sequence rest :
  reader_ok (c_reader (conn w)) -> steady (reader_inner (c_reader (conn w))) -> writer_buffer (out w) = [] ->
  joins [] (pending (c_reader (conn w))) (Payload payload sequence rest) ->
  exists held coming, rest = held ++ coming /\
    let '(payloads, goes_on, s) := reply (watch && (len held =? 0)) (command_parse payload) (session_holding w held) in
    forall bs after, framed_all sequence payloads bs after ->
    runs (serve_one_inner watch) w
      (fun a w' => a = goes_on /\ session w' = s /\ reader_ok (c_reader (conn w')) /\ steady (reader_inner (c_reader (conn w'))) /\
         incoming (reader_inner (c_reader (conn w'))) = coming /\ writer_buffer (out w') = [] /\
         written (writer_inner (out w')) = written (writer_inner (out w)) ++ bs /\ writer_sequence (out w') = after)
      (fun _ w' => written (writer_inner (out w')) `prefix_of` written (writer_inner (out w)) ++ bs).
Proof.
  intros Hr Hs Hb Hj. destruct (next_payload_joins _ _ Hr Hs Hj) as (r & E & Hr1 & Hs1 & _ & [Ep Eq] & _).
  set (w1 := with_conn (with_reader r (conn w)) w). set (w2 := with_conn (with_writer (writer_set_sequence (reader_sequence r) (out w)) (conn w1)) w1).
  exists (buffered r), (incoming (reader_inner r)). split; [now rewrite <- Ep|].
  assert (Hw : has_buffered r = negb (len (buffered r) =? 0)) by now apply has_buffered_spec.
  pose proof (follows_command (watch && (len (buffered r) =? 0)) (command_parse payload) w2 Hr1) as Hf.
  change (session w2) with (session_holding w (buffered r)) in Hf. specialize (Hf ltac:(intros _; exact Hb)).
  destruct (reply _ _ _) as [[payloads goes_on] s]. intros bs after Hfr. rewrite <- Eq in Hfr. specialize (Hf bs after Hfr).
  assert (Ew : wire (out w2) = written (writer_inner (out w))) by (unfold wire; cbn; fold (out w); now rewrite Hb, app_nil_r).
  unfold serve_one_inner. apply runs_bind. unfold runs at 1, on_reader, zoom. rewrite E. cbn [front_result]. fold w1.
  apply runs_bind, runs_get, runs_bind, runs_modify. fold (out w1). change (with_conn _ w1) with w2. cbn [w1 with_conn conn with_reader c_reader].
  rewrite Hw, negb_involutive. rewrite Ew in Hf. eapply runs_weaken; [exact Hf| |easy]. cbn beta.
  intros a w' (-> & Es & (Hr' & Ei' & _) & Hfl & Ew' & Eq'). specialize (Hfl eq_refl). unfold wire in Ew'. rewrite Hfl, app_nil_r in Ew'.
  rewrite Ei'. split_and!; easy.
Qed.

Lemma serve_nothing watch w o : reader_ok (c_reader (conn w)) -> steady (reader_inner (c_reader (conn w))) ->
  joins [] (pending (c_reader (conn w))) o -> match o with Payload _ _ _ => False | _ => True end ->
  exists w', serve_one_inner watch w = (match o with Cut e => Err e | _ => Ok false end, w') /\ out w' = out w /\ hand w' = hand w.
Proof.
  intros Hr Hs Hj Ho. destruct (next_payload_joins _ _ Hr Hs Hj) as (r & E & _).
  exists (with_conn (with_reader r (conn w)) w). unfold serve_one_inner, mbind, Io_bind, on_reader, zoom. rewrite E. now destruct o.
Qed.

(** ** The query loop ends *)

Lemma io_bind_ext {S A B} (m : Io S A) (f g : A -> Io S B) s :
  (forall a s', m s = (Ok a, s') -> f a s' = g a s') -> (m ≫= f) s = (m ≫= g) s.
Proof. intros E. unfold mbind, Io_bind. destruct (m s) as [[a|e] s'] eqn:Em; [now apply E|easy]. Qed.

Lemma query_fuel `{!LawfulHandler H} n multi watch : forall fuel remaining w, (length remaining < n)%nat -> (length remaining < fuel)%nat ->
  serve_query_loop n multi watch remaining w = serve_query_loop fuel multi watch remaining w.
Proof.
  induction n as [|n IH]; intros [|fuel] remaining w Hn Hf; [lia..|]. cbn [serve_query_loop].
  apply io_bind_ext. intros h w0 E0. destruct (first_statement h remaining) as [[statement tail]|] eqn:E1; cbn [from_option id]; cbv beta iota.
  - assert (L : (length tail < length remaining)%nat) by (eapply first_statement_shortens; exact E1).
    match goal with |- context [if ?b then _ else _] => destruct b end; [easy|].
    apply io_bind_ext. intros [response|] w1 _; [|easy]. apply io_bind_ext. intros h1 w2 _. apply io_bind_ext. intros completed w3 _.
    match goal with |- context [if ?b then _ else _] => destruct b end; [apply IH; lia|easy].
  - match goal with |- context [if ?b then _ else _] => destruct b end; [easy|].
    apply io_bind_ext. intros [response|] w1 _; [|easy]. apply io_bind_ext. intros h1 w2 _.
    destruct (first_statement h1 []) as [[statement tail]|] eqn:E2; [apply first_statement_shortens in E2; cbn in E2; lia|].
    apply io_bind_ext. intros completed w3 _. now rewrite andb_false_r, andb_false_r.
Qed.

(** ** A client that reads the reply *)

Inductive ClientResult : Type :=
| GotOk
| GotError
| GotRows (columns : Z) (rows : list (list byte))
| GotCut (columns : Z) (rows : list (list byte)).

(** The status in an OK packet: after two length-encoded integers. *)
Definition ok_packet_status (payload : list byte) : option Z :=
  '(_, consumed) ← length_encoded_integer (back 1 payload);
  let rest := back (1 + consumed) payload in
  '(_, consumed) ← length_encoded_integer rest;
  '(status, _) ← chop 2 (back consumed rest);
  Some (from_le status).

(** The status in the packet that ends rows, by the form the client agreed on. *)
Definition end_status (caps : CapabilityFlags) (payload : list byte) : option Z :=
  if contains caps CLIENT_DEPRECATE_EOF then ok_packet_status payload
  else '(status, _) ← chop 2 (back 3 payload); Some (from_le status).

Definition announces_more (status : Z) : bool := contains status SERVER_MORE_RESULTS_EXISTS.

(** Rows up to the packet that ends them: the rows, the status unless an error ended them. *)
Fixpoint client_rows (caps : CapabilityFlags) (payloads : list (list byte)) : option (list (list byte) * option Z * list (list byte)) :=
  match payloads with
  | [] => None
  | payload :: payloads =>
      match client_sees caps payload with
      | SeesEnd => status ← end_status caps payload; Some ([], Some status, payloads)
      | SeesError => Some ([], None, payloads)
      | SeesRow => '(rows, status, rest) ← client_rows caps payloads; Some (payload :: rows, status, rest)
      end
  end.

(** One result: an OK, an error, or a column count, as many definitions, the EOF after them
    unless it was deprecated, and rows.  The flag says whether another result follows. *)
Definition client_result (caps : CapabilityFlags) (payloads : list (list byte)) : option (ClientResult * bool * list (list byte)) :=
  match payloads with
  | (b :: _) as payload :: rest =>
      if byte_eqb b OK_HEADER then status ← ok_packet_status payload; Some (GotOk, announces_more status, rest)
      else if byte_eqb b ERR_HEADER then Some (GotError, false, rest)
      else
        match length_encoded_integer payload with
        | Some (Some columns, _) =>
            if len rest <? columns then None
            else
              let after := back columns rest in
              let after :=
                if contains caps CLIENT_DEPRECATE_EOF then Some after
                else match after with p :: after => match client_sees caps p with SeesEnd => Some after | _ => None end | [] => None end in
              after ← after;
              '(rows, status, rest) ← client_rows caps after;
              Some match status with
                   | Some status => (GotRows columns rows, announces_more status, rest)
                   | None => (GotCut columns rows, false, rest)
                   end
        | _ => None
        end
  | _ => None
  end.

(** Results as long as another one is announced. *)
Fixpoint client_results (fuel : nat) (caps : CapabilityFlags) (payloads : list (list byte)) : option (list ClientResult * list (list byte)) :=
  match fuel with
  | O => None
  | S fuel =>
      '(result, more, rest) ← client_result caps payloads;
      if more : bool then '(results, rest) ← client_results fuel caps rest; Some (result :: results, rest)
      else Some ([result], rest)
  end.

(** A response a client can read: at least one column, rows that are rows, and an OK whose
    own status does not announce another result. *)
Definition columns_readable (columns : list ResultColumn) : Prop := 0 < len columns < 2 ^ 63.
Definition rows_readable (caps : CapabilityFlags) (rows : EncodedRows) : Prop :=
  Forall (fun payload => client_sees caps payload = SeesRow) (row_payloads rows).

Definition response_readable (caps : CapabilityFlags) (response : Response) : Prop :=
  match response with
  | RespOk packet _ =>
      is_u64 (ok_affected_rows packet) = true /\ is_u64 (ok_last_insert_id packet) = true /\
      is_u16 (ok_status packet) = true /\ announces_more (ok_status packet) = false
  | RespError _ _ => True
  | RespRows result => columns_readable (rs_columns result) /\ rows_readable caps (rs_rows result)
  | RespStream stream =>
      columns_readable (st_columns stream) /\
      Forall (fun chunk => match chunk with ChunkRows rows => rows_readable caps rows | _ => True end) (st_chunks stream)
  end.

Definition is_status (status : Z) : Prop := status = 0 \/ status = SERVER_MORE_RESULTS_EXISTS.

Lemma more_bit status : announces_more status = Z.testbit status 3.
Proof.
  unfold announces_more, contains, SERVER_MORE_RESULTS_EXISTS. change 8 with (2 ^ 3). destruct (Z.testbit status 3) eqn:E.
  - apply Z.eqb_eq, Z.bits_inj'. intros n Hn. rewrite Z.land_spec, Z.pow2_bits_eqb by easy. destruct (Z.eqb_spec 3 n) as [<-|]; [now rewrite E|apply andb_false_r].
  - apply Z.eqb_neq. intros G. apply (f_equal (fun z => Z.testbit z 3)) in G. rewrite Z.land_spec, E in G. easy.
Qed.

Lemma ok_status_read x a b status rest : is_u64 a = true -> is_u64 b = true -> is_u16 status = true ->
  ok_packet_status ([x] ++ put_length_encoded_integer [] a ++ put_length_encoded_integer [] b ++ to_le 2 status ++ rest) = Some status.
Proof.
  intros Ha Hb Hs. unfold ok_packet_status. rewrite (back_app [x]) by easy.
  destruct (length_encoded_integer_put a (put_length_encoded_integer [] b ++ to_le 2 status ++ rest) Ha) as [-> _]. cbn [mbind option_bind]. cbv zeta.
  rewrite (app_assoc [x]), back_app by (rewrite len_app; easy).
  destruct (length_encoded_integer_put b (to_le 2 status ++ rest) Hb) as [-> _]. cbn [mbind option_bind].
  rewrite back_app by easy. rewrite chop_app by now rewrite len_to_le. cbn [mbind option_bind]. now rewrite from_to_le_small.
Qed.

Lemma encode_ok_shape packet info :
  encode_ok packet info = [OK_HEADER] ++ put_length_encoded_integer [] (ok_affected_rows packet) ++ put_length_encoded_integer [] (ok_last_insert_id packet)
    ++ to_le 2 (ok_status packet) ++ to_le 2 (ok_warnings packet) ++ info.
Proof.
  unfold encode_ok. cbv zeta. rewrite (put_length_encoded_integer_app (put_length_encoded_integer _ _)), (put_length_encoded_integer_app [OK_HEADER]). now rewrite <- !app_assoc.
Qed.

Lemma status_u16 status : is_status status -> is_u16 status = true.
Proof. now intros [->| ->]. Qed.

Lemma lor_u16 a b : is_u16 a = true -> is_u16 b = true -> is_u16 (Z.lor a b) = true.
Proof.
  intros Ha Hb. apply in_unsigned_spec in Ha, Hb. apply in_unsigned_spec. split; [apply Z.lor_nonneg; lia|].
  destruct (Z.eq_dec (Z.lor a b) 0) as [->|]; [easy|]. apply Z.log2_lt_pow2; [pose proof (Z.lor_nonneg a b); lia|].
  rewrite Z.log2_lor by lia. apply Z.max_lub_lt.
  - destruct (Z.eq_dec a 0) as [->|]; [easy|]. apply Z.log2_lt_pow2; lia.
  - destruct (Z.eq_dec b 0) as [->|]; [easy|]. apply Z.log2_lt_pow2; lia.
Qed.

Lemma ok_read caps packet info changes status rest :
  response_readable caps (RespOk packet info) -> is_status status ->
  client_result caps (encode_ok_with_session (ok_with_status status packet) info caps changes :: rest) = Some (GotOk, announces_more status, rest).
Proof.
  intros (Ha & Hl & Hs & Hm) Hst. rewrite more_bit in *.
  assert (G : forall packet' tail, ok_affected_rows packet' = ok_affected_rows packet -> ok_last_insert_id packet' = ok_last_insert_id packet ->
    is_u16 (ok_status packet') = true -> Z.testbit (ok_status packet') 3 = Z.testbit status 3 ->
    client_result caps ((encode_ok packet' [] ++ tail) :: rest) = Some (GotOk, Z.testbit status 3, rest)).
  { intros packet' tail E1 E2 E3 E4. rewrite encode_ok_shape, <- !app_assoc, E1, E2. cbn [app]. set (x := put_length_encoded_integer [] _ ++ _).
    unfold client_result. change (byte_eqb OK_HEADER OK_HEADER) with true. cbv iota. change (OK_HEADER :: x) with ([OK_HEADER] ++ x). unfold x.
    rewrite ok_status_read by easy. cbn [mbind option_bind]. now rewrite more_bit, E4. }
  assert (U1 : is_u16 (Z.lor (ok_status packet) status) = true) by (apply lor_u16; [easy|now apply status_u16]).
  assert (E0 : Z.testbit (Z.lor (ok_status packet) status) 3 = Z.testbit status 3) by (rewrite Z.lor_spec, Hm; easy).
  unfold encode_ok_with_session. destruct (negb (contains caps CLIENT_SESSION_TRACK)).
  - replace (encode_ok (ok_with_status status packet) info) with (encode_ok (ok_with_status status packet) [] ++ info); [now apply G|].
    rewrite !encode_ok_shape, <- !app_assoc. easy.
  - cbv zeta. rewrite put_length_encoded_bytes_app. destruct changes as [|c changes]; [now apply G|].
    rewrite put_length_encoded_bytes_app, <- app_assoc. apply G; try easy.
    + apply lor_u16; easy.
    + cbn [ok_with_status ok_status]. rewrite Z.lor_spec, E0. apply orb_false_r.
Qed.

Lemma end_read caps status payloads : is_status status ->
  client_rows caps (encode_eof caps status 0 :: payloads) = Some ([], Some status, payloads).
Proof.
  intros Hs. cbn [client_rows]. rewrite eof_seen. unfold end_status, encode_eof. destruct (contains caps CLIENT_DEPRECATE_EOF).
  - rewrite (put_length_encoded_integer_app (put_length_encoded_integer _ _)), (put_length_encoded_integer_app [EOF_HEADER]), <- !app_assoc.
    rewrite ok_status_read by first [easy|now apply status_u16]. easy.
  - rewrite app_assoc, back_app by now rewrite len_app, len_to_le. rewrite <- (app_nil_r (to_le 2 status)), chop_app by now rewrite len_to_le.
    cbn [mbind option_bind]. now rewrite from_to_le_small by now apply status_u16.
Qed.

Lemma rows_read caps rows status payloads rest :
  Forall (fun payload => client_sees caps payload = SeesRow) rows -> forall more, client_rows caps payloads = Some (more, status, rest) ->
  client_rows caps (rows ++ payloads) = Some (rows ++ more, status, rest).
Proof.
  intros Hr more E. induction Hr as [|row rows Hrow _ IH]; [easy|]. cbn [app client_rows]. now rewrite Hrow, IH.
Qed.

Lemma count_head n : 0 < n < 2 ^ 63 -> exists b bs, put_length_encoded_integer [] n = b :: bs /\
  byte_eqb b OK_HEADER = false /\ byte_eqb b ERR_HEADER = false.
Proof.
  intros Hn. destruct (put_integer_head n) as (b & bs & E & E1 & _); [lia|]. exists b, bs. split_and!; try easy. unfold put_length_encoded_integer in E.
  destruct (Z.leb_spec n 250); [|destruct (Z.leb_spec n 65535); [|destruct (Z.leb_spec n 16777215)]]; cbn [app] in E; injection E as <- _; try easy.
  unfold byte_eqb. rewrite byte_unsigned_of by lia. apply Z.eqb_neq. change (byte.unsigned OK_HEADER) with 0. lia.
Qed.

Lemma header_read caps columns payloads rows status rest : columns_readable columns ->
  client_rows caps payloads = Some (rows, status, rest) ->
  client_result caps (header_payloads caps columns ++ payloads) =
    Some (match status with Some status => (GotRows (len columns) rows, announces_more status, rest) | None => (GotCut (len columns) rows, false, rest) end).
Proof.
  intros Hc Hr. unfold header_payloads. cbn [app]. destruct (count_head (len columns) Hc) as (b & bs & E & E1 & E2). rewrite E.
  pose proof (len_nonneg columns) as Hl. unfold columns_readable in Hc.
  destruct (length_encoded_integer_put (len columns) []) as [Ei _]; [apply in_unsigned_spec; lia|]. rewrite app_nil_r, E in Ei.
  unfold client_result. rewrite E1, E2, Ei, <- app_assoc.
  assert (Ec : len columns = len (map encode_column_definition columns)) by now rewrite len_map.
  set (tail := (if contains caps CLIENT_DEPRECATE_EOF then [] else [encode_eof caps 0 0]) ++ payloads). pose proof (len_nonneg tail).
  rewrite (back_app _ tail _ Ec), len_app, len_map, (proj2 (Z.ltb_ge (len columns + len tail) (len columns))) by lia. unfold tail.
  destruct (contains caps CLIENT_DEPRECATE_EOF) eqn:Ed; cbn [app]; [|rewrite eof_seen]; cbn [mbind option_bind]; rewrite Hr; now destruct status.
Qed.

Lemma chunks_read caps status rest chunks : is_status status ->
  Forall (fun chunk => match chunk with ChunkRows rows => rows_readable caps rows | _ => True end) chunks ->
  let '(payloads, done) := chunk_payloads caps status chunks in
  exists rows, client_rows caps (payloads ++ rest) = Some (rows, if done then Some status else None, rest).
Proof.
  intros Hs Hf. induction Hf as [|chunk chunks Hc _ IH]; cbn [chunk_payloads]; [now exists []|].
  destruct chunk as [rows| |kind message]; [|exists []; now apply end_read|now exists []].
  destruct (chunk_payloads caps status chunks) as [payloads done]. destruct IH as [more E]. exists (row_payloads rows ++ more).
  rewrite <- app_assoc. now apply rows_read.
Qed.

(** A whole response is one result, which announces another exactly when it ended well and its status says so. *)
Lemma response_read caps response status changes rest : response_readable caps response -> is_status status ->
  let '(payloads, done) := response_payloads caps response status changes in
  exists result, client_result caps (payloads ++ rest) = Some (result, done && announces_more status, rest) /\ payloads <> [].
Proof.
  intros Hr Hs. destruct response as [result|stream|packet info|kind message]; cbn [response_payloads].
  - destruct Hr as [Hc Hrows]. eexists. split; [|discriminate].
    rewrite <- !app_assoc. cbn [app].
    rewrite (header_read _ _ _ _ _ _ Hc (rows_read _ _ _ _ _ Hrows _ (end_read caps status rest Hs))). reflexivity.
  - destruct Hr as [Hc Hchunks]. pose proof (chunks_read caps status rest _ Hs Hchunks) as Hk.
    destruct (chunk_payloads caps status (st_chunks stream)) as [payloads done]. destruct Hk as [rows E].
    destruct done; eexists; (split; [rewrite <- app_assoc; rewrite (header_read _ _ _ _ _ _ Hc E); reflexivity|discriminate]).
  - exists GotOk. split; [now apply ok_read|easy].
  - exists GotError. split; easy.
Qed.

(** ** The client stays in step *)

(** Every answer of the handler can be read by this client. *)
Definition answers_readable (caps : CapabilityFlags) : Prop :=
  forall h sql, response_readable caps (fst (query sql h)).

Lemma dialogue_bind_eq {A B} (m : Dialogue A) (f : A -> Dialogue B) s ps a s' : m s = (ps, a, s') ->
  (m ≫= f) s = (ps ++ fst (fst (f a s')), snd (fst (f a s')), snd (f a s')).
Proof. intros E. unfold mbind, Dialogue_bind. rewrite E. now destruct (f a s') as [[? ?] ?]. Qed.

Lemma ask_said {A} (f : H -> A * H) s : exists a s', ask f s = ([], a, s') /\ s_capabilities s' = s_capabilities s.
Proof. unfold ask. destruct (f (s_hand s)) as [a h]. eexists _, _. split; reflexivity. Qed.

Lemma say_handled_said response status s :
  exists changes s', s_capabilities s' = s_capabilities s /\
    let said := response_payloads (s_capabilities s) response status changes in say_handled response status s = (fst said, snd said, s').
Proof.
  assert (Hc : exists changes s1, match response with RespOk _ _ => ask take_session_changes | _ => mret [] end s = ([], changes, s1) /\
    s_capabilities s1 = s_capabilities s) by (destruct response; [eexists _, s; easy..|apply ask_said|eexists _, s; easy]).
  destruct Hc as (changes & s1 & E & Ec). unfold say_handled. exists changes. rewrite (dialogue_bind_eq _ _ _ _ _ _ E). cbn [app].
  rewrite (dialogue_bind_eq (peek s_capabilities) _ s1 [] (s_capabilities s1) s1) by easy. cbn [app fst snd]. rewrite Ec.
  destruct (response_payloads (s_capabilities s) response status changes) as [payloads done].
  rewrite (dialogue_bind_eq (say payloads) _ s1 payloads tt s1) by easy. cbn [fst snd].
  assert (Hf : exists s2, match response with RespStream _ => ask (fun h => (tt, finish_stream true h)) | _ => mret tt end s1 = ([], tt, s2) /\
    s_capabilities s2 = s_capabilities s1) by (destruct response; [exists s1; easy|eexists; split; reflexivity|exists s1; easy..]).
  destruct Hf as (s2 & Ef & Ec2). rewrite (dialogue_bind_eq _ _ _ _ _ _ Ef). cbn. exists s2. rewrite app_nil_r, Ec2. easy.
Qed.

Lemma ask_watched_said watch f s :
  exists a s', ask_watched watch f s = ([], a, s') /\ s_capabilities s' = s_capabilities s /\
    match a with Some response => response = fst (f (s_hand s)) | None => True end.
Proof.
  unfold ask_watched. destruct (if watch then _ else _) as [[[|bytes]|] plan].
  - eexists None, _. split; [reflexivity|]. easy.
  - destruct (f (s_hand s)) as [response h]. eexists (Some response), _. split; [reflexivity|]. easy.
  - destruct (f (s_hand s)) as [response h]. eexists (Some response), _. split; [reflexivity|]. easy.
Qed.

Lemma query_in_step `{!LawfulHandler H} multi watch : forall fuel remaining s n payloads s',
  answers_readable (s_capabilities s) -> (length remaining < fuel)%nat -> (length remaining < n)%nat ->
  say_query fuel multi watch remaining s = (payloads, true, s') ->
  exists results, client_results n (s_capabilities s) payloads = Some (results, []).
Proof.
  induction fuel as [|fuel IH]; intros remaining s [|n] payloads s' Hq Hf Hn; [lia..|]. cbn [say_query].
  rewrite (dialogue_bind_eq (peek s_hand) _ s [] (s_hand s) s) by easy. cbn [app].
  assert (Ht : exists statement tail, default (remaining, []) (first_statement (s_hand s) remaining) = (statement, tail) /\
    ((length tail < length remaining)%nat \/ tail = [])).
  { destruct (first_statement (s_hand s) remaining) as [[statement tail]|] eqn:E; cbn; eexists _, _; (split; [reflexivity|]); [left|now right].
    eapply first_statement_shortens. exact E. }
  destruct Ht as (statement & tail & -> & Htail). destruct (negb multi && _).
  { cbn. intros [= <- _]. exists [GotError]. reflexivity. }
  destruct (ask_watched_said watch (query statement) s) as (a & s1 & Ea & Ec1 & Er). rewrite (dialogue_bind_eq _ _ _ _ _ _ Ea). cbn [app].
  destruct a as [response|]; [|cbn; discriminate]. rewrite (dialogue_bind_eq (peek s_hand) _ s1 [] (s_hand s1) s1) by easy. cbn [app fst snd].
  set (follows_ := multi && _). set (status := if follows_ then SERVER_MORE_RESULTS_EXISTS else 0).
  destruct (say_handled_said response status s1) as (changes & s2 & Ec2 & Eh). rewrite (dialogue_bind_eq _ _ _ _ _ _ Eh). cbn [fst snd].
  assert (Hs : is_status status) by (unfold status; destruct follows_; [now right|now left]).
  assert (Hr : response_readable (s_capabilities s1) response) by (rewrite Ec1, Er; apply Hq).
  pose proof (response_read (s_capabilities s1) response status changes) as Hrd.
  destruct (response_payloads (s_capabilities s1) response status changes) as [ps done]. cbn [fst snd]. rewrite <- Ec1.
  destruct (done && follows_) eqn:Ed.
  - apply andb_prop in Ed as [-> Ef]. destruct (say_query fuel multi watch tail s2) as [[more goes] s3] eqn:E3. cbn [fst snd].
    intros [= <- -> <-]. assert (Hlt : (length tail < length remaining)%nat).
    { destruct Htail as [|Et]; [easy|]. subst tail. unfold follows_ in Ef. apply andb_prop in Ef as [_ Ef].
      destruct (first_statement (s_hand s1) []) as [[x y]|] eqn:E; [apply first_statement_shortens in E; cbn in E; lia|easy]. }
    destruct (IH tail s2 n more s3) as [results Eres]; [rewrite Ec2, Ec1; easy|lia|lia|easy|].
    destruct (Hrd more Hr Hs) as (result & Erd & _). exists (result :: results). cbn [client_results]. rewrite Erd. cbn [mbind option_bind].
    unfold status. rewrite Ef. cbn [andb announces_more contains]. rewrite Ec2 in Eres. now rewrite Eres.
  - cbn [mret Dialogue_ret fst snd]. intros [= <- <-]. destruct (Hrd [] Hr Hs) as (result & Erd & _). exists [result]. cbn [client_results]. rewrite Erd.
    cbn [mbind option_bind]. replace (done && announces_more status) with false; [easy|]. unfold status. destruct done, follows_; easy.
Qed.

Lemma framed_all_payloads bs : forall sequence payloads after, framed_all sequence payloads bs after -> forall r,
  0 <= sequence < 256 -> reader_ok r -> steady (reader_inner r) -> reader_sequence r = sequence -> pending r = bs ->
  exists r', read_payloads (length payloads) r = (Ok (map Some payloads), r') /\ pending r' = [] /\ reader_sequence r' = after.
Proof.
  intros sequence payloads after Hf r Hs Hr Hst Eq Ep. rewrite <- (app_nil_r bs) in Ep.
  destruct (framed_all_read _ _ _ _ Hf Hs r [] Hr Hst Eq Ep) as (r' & E & _ & _ & Ep' & Eq'). eauto.
Qed.

(** ** Who gets in *)

Definition mode_of (w : World) : bool := reader_read_ahead (c_reader (conn w)).

(** Steps that change neither the mode of the reader nor the handler. *)
Definition quiet {A} (m : Io World A) : Prop := forall w, mode_of (snd (m w)) = mode_of w /\ hand (snd (m w)) = hand w.

Lemma quiet_bind {A B} (m : Io World A) (f : A -> Io World B) : quiet m -> (forall a, quiet (f a)) -> quiet (m ≫= f).
Proof.
  intros Hm Hf w. unfold mbind, Io_bind. specialize (Hm w). destruct (m w) as [[a|e] w']; cbn in *; [|easy].
  destruct (Hf a w') as [-> ->]. exact Hm.
Qed.

Lemma quiet_follow : quiet follow_sequence.
Proof. easy. Qed.

Lemma quiet_writer {A} (m : Io PacketWriter A) : quiet (on_writer m).
Proof. intros w. unfold on_writer, zoom. now destruct (m _) as [a x]. Qed.

Lemma quiet_next : quiet (on_reader next_payload).
Proof.
  intros w. unfold on_reader, zoom. pose proof (next_payload_mode (c_reader (conn w))) as Hm. now destruct (next_payload _) as [a r].
Qed.

Lemma quiet_get {A} (f : World -> A) : quiet (io_get f).
Proof. easy. Qed.

Lemma quiet_ret {A} (a : A) : quiet (mret a).
Proof. easy. Qed.

Lemma quiet_fail {A} e : quiet (io_fail e : Io World A).
Proof. easy. Qed.

Lemma quiet_said payload : quiet (_ ← follow_sequence; _ ← send payload; flush_writer).
Proof. apply quiet_bind; [apply quiet_follow|intros _]. apply quiet_bind; [apply quiet_writer|intros _; apply quiet_writer]. Qed.

Lemma runs_quiet {A} (m : Io World A) w : quiet m ->
  runs m w (fun _ w' => mode_of w' = mode_of w /\ hand w' = hand w) (fun _ w' => mode_of w' = mode_of w).
Proof. intros Hm. specialize (Hm w). unfold runs. destruct (m w) as [[a|e] w']; cbn in *; easy. Qed.

(** A password the client sent, in the clear or under the server's key. *)
Definition password_sent (scramble : list byte) (h : H) (password : list byte) : Prop := exists sent,
  password = drop_nul sent \/
  exists decrypted, decrypt_full_auth_password h sent = Some decrypted /\ password = drop_nul (unmask scramble decrypted).

(** The handler took the response, or the password of the full exchange. *)
Definition vouched (response : HandshakeResponse) (scramble : list byte) (h : H) : Prop :=
  fst (authenticate response scramble h) = true \/
  let h' := snd (authenticate response scramble h) in
  is_caching_sha2 response = true /\
  exists password, password_sent scramble h' password /\ fst (authenticate_cleartext (hr_username response) password h') = true.

Lemma full_authentication_runs scramble w :
  runs (full_authentication_password scramble) w
    (fun password w' => (match password with Some password => password_sent scramble (hand w) password | None => True end) /\
       mode_of w' = mode_of w /\ hand w' = hand w)
    (fun _ w' => mode_of w' = mode_of w).
Proof.
  unfold full_authentication_password.
  do 3 (apply runs_bind; eapply runs_weaken; [apply runs_quiet; solve [apply quiet_follow|apply quiet_writer]| |easy..];
    cbn beta; let w' := fresh "w" in intros _ w' [<- <-]; clear w; rename w' into w).
  apply runs_bind. eapply runs_weaken; [apply runs_quiet, quiet_next| |easy]. cbn beta. intros [payload|] w' [<- <-]; [|now apply runs_ret].
  destruct (bytes_eqb payload _); [|apply runs_ret; split; [now exists payload; left|easy]].
  apply runs_bind, runs_get. destruct (full_auth_public_key (hand w')) as [pem|]; [|now apply runs_ret].
  do 3 (apply runs_bind; eapply runs_weaken; [apply runs_quiet; solve [apply quiet_follow|apply quiet_writer]| |easy..];
    cbn beta; let w1 := fresh "w" in intros _ w1 [<- <-]; clear w'; rename w1 into w').
  apply runs_bind. eapply runs_weaken; [apply runs_quiet, quiet_next| |easy]. cbn beta. intros [encrypted|] w1 [<- <-]; [|now apply runs_ret].
  apply runs_bind, runs_get. destruct (decrypt_full_auth_password (hand w1) encrypted) as [decrypted|] eqn:E; [|now apply runs_ret].
  apply runs_ret. split; [|easy]. exists encrypted. right. now exists decrypted.
Qed.

Lemma accept_login_runs response w :
  runs (accept_login response) w (fun r w' => r = response /\ mode_of w' = true) (fun _ w' => mode_of w' = mode_of w).
Proof.
  unfold accept_login.
  do 3 (apply runs_bind; eapply runs_weaken; [apply runs_quiet; solve [apply quiet_follow|apply quiet_writer]| |easy..];
    cbn beta; let w' := fresh "w" in intros _ w' [<- _]; clear w; rename w' into w).
  easy.
Qed.

Lemma deny_login_runs w : runs deny_login w (fun _ _ => False) (fun _ w' => mode_of w' = mode_of w).
Proof.
  unfold deny_login.
  do 3 (apply runs_bind; eapply runs_weaken; [apply runs_quiet; solve [apply quiet_follow|apply quiet_writer]| |easy..];
    cbn beta; let w' := fresh "w" in intros _ w' [<- _]; clear w; rename w' into w).
  easy.
Qed.

Lemma login_runs response scramble w :
  runs (complete_authentication response scramble) w
    (fun r w' => r = response /\ vouched response scramble (hand w) /\ mode_of w' = true)
    (fun _ w' => mode_of w' = mode_of w).
Proof.
  unfold complete_authentication. apply runs_bind. unfold runs at 1, call. unfold vouched.
  destruct (authenticate response scramble (hand w)) as [accepted h] eqn:E. cbn [fst snd].
  change (mode_of w) with (mode_of (with_hand h w)). set (w1 := with_hand h w). change h with (hand w1).
  destruct accepted.
  { eapply runs_weaken; [apply accept_login_runs| |easy]. intros r w' [-> Hm]. split; [easy|]. split; [now left|easy]. }
  destruct (is_caching_sha2 response); [|eapply runs_weaken; [apply deny_login_runs| |]; easy].
  apply runs_bind. eapply runs_weaken; [apply full_authentication_runs| |easy]. cbn beta. intros [password|] w2 (Hp & <- & Eh).
  2:{ eapply runs_weaken; [apply deny_login_runs| |]; easy. }
  apply runs_bind. unfold runs at 1, call. rewrite Eh.
  destruct (authenticate_cleartext (hr_username response) password (hand w1)) as [[|] h2] eqn:E2.
  - change (mode_of w2) with (mode_of (with_hand h2 w2)). eapply runs_weaken; [apply accept_login_runs| |easy].
    intros r w' [-> Hm]. split; [easy|]. split; [|easy]. right. split; [easy|]. exists password. rewrite E2. easy.
  - change (mode_of w2) with (mode_of (with_hand h2 w2)). eapply runs_weaken; [apply deny_login_runs| |]; easy.
Qed.

(** The reply of a login that one look at the response decides. *)
Lemma login_said payload (m : Io World HandshakeResponse) w bs after :
  reader_ok (c_reader (conn w)) -> writer_buffer (out w) = [] -> framed_all (reader_sequence (c_reader (conn w))) [payload] bs after ->
  (forall w', out (snd (m w')) = out w') ->
  runs (_ ← follow_sequence; _ ← send payload; _ ← flush_writer; m) w
    (fun _ w' => written (writer_inner (out w')) = written (writer_inner (out w)) ++ bs)
    (fun _ w' => written (writer_inner (out w')) `prefix_of` written (writer_inner (out w)) ++ bs).
Proof.
  intros Hr Hb Hf Hm. apply runs_bind, runs_modify. set (w1 := with_conn _ w).
  assert (Ew : wire (out w1) = written (writer_inner (out w))) by (unfold wire; cbn; fold (out w); now rewrite Hb, app_nil_r).
  pose proof (follows_said true payload w1 Hr ltac:(intros _; exact Hb) bs after Hf) as Hs. rewrite Ew in Hs.
  unfold runs in *. unfold mbind, Io_bind in *. destruct (send payload w1) as [[[]|e] w2]; [|exact Hs].
  destruct (flush_writer w2) as [[[]|e] w3]; [|exact Hs]. destruct Hs as (_ & _ & _ & Hfl & Ew3 & _). specialize (Hfl eq_refl).
  unfold wire in Ew3. rewrite Hfl, app_nil_r in Ew3. specialize (Hm w3). destruct (m w3) as [[a|e] w4]; cbn in Hm; now rewrite Hm, Ew3.
Qed.

(** ** No command is left without its answer *)

(** The commands the protocol does not answer. *)
Definition silent (command : Command) : bool :=
  match command with Quit | CloseStatement _ | SendLongData _ _ _ => true | _ => false end.

Lemma response_said caps response status changes : fst (response_payloads caps response status changes) <> [].
Proof. destruct response as [result|stream|packet info|kind message]; cbn; [easy| |easy..]. now destruct (chunk_payloads _ _ _). Qed.

Lemma handled_said response status s : fst (fst (say_handled response status s)) <> [].
Proof. destruct (say_handled_said response status s) as (changes & s' & _ & ->). apply response_said. Qed.

Lemma app_said {A} (l1 l2 : list A) : l1 <> [] -> l1 ++ l2 <> [].
Proof. now destruct l1. Qed.

Lemma query_said fuel multi watch sql s : snd (fst (say_query (S fuel) multi watch sql s)) = true ->
  fst (fst (say_query (S fuel) multi watch sql s)) <> [].
Proof.
  cbn [say_query]. rewrite (dialogue_bind_eq (peek s_hand) _ s [] (s_hand s) s) by easy. cbn [app fst snd].
  destruct (default _ _) as [statement tail]. destruct (negb multi && _); [easy|].
  destruct (ask_watched_said watch (query statement) s) as (a & s1 & Ea & _). rewrite (dialogue_bind_eq _ _ _ _ _ _ Ea). cbn [app fst snd].
  destruct a as [response|]; [|easy]. intros _. rewrite (dialogue_bind_eq (peek s_hand) _ s1 [] (s_hand s1) s1) by easy. cbn [app fst snd].
  set (status := if multi && _ then _ else _). destruct (say_handled response status s1) as [[said done] s2] eqn:E.
  rewrite (dialogue_bind_eq _ _ _ _ _ _ E). cbn [fst snd]. apply app_said. pose proof (handled_said response status s1) as Hs. now rewrite E in Hs.
Qed.

Lemma execute_said watch f s : let '(payloads, goes_on, _) := (response ← ask_watched watch f;
    match response with None => mret false | Some response => _ ← say_handled response 0; mret true end) s in
  goes_on = true -> payloads <> [].
Proof.
  destruct (ask_watched_said watch f s) as (a & s1 & Ea & _). rewrite (dialogue_bind_eq _ _ _ _ _ _ Ea). cbn [app].
  destruct a as [response|]; [|easy]. destruct (say_handled response 0 s1) as [[said done] s2] eqn:E.
  rewrite (dialogue_bind_eq _ _ _ _ _ _ E). cbn [fst snd]. intros _. apply app_said. pose proof (handled_said response 0 s1) as Hs. now rewrite E in Hs.
Qed.

(** ** Properties *)

(** What serving one command does, by what the stream holds at its front. *)
Definition served (watch : bool) (w : World) (o : stream_front) : Prop :=
  match o with
  | Payload payload sequence rest =>
      exists held coming, rest = held ++ coming /\
        let '(payloads, goes_on, s) := reply (watch && (len held =? 0)) (command_parse payload) (session_holding w held) in
        forall bs after, framed_all sequence payloads bs after ->
        runs (serve_one_inner watch) w
          (fun a w' => a = goes_on /\ session w' = s /\ reader_ok (c_reader (conn w')) /\ steady (reader_inner (c_reader (conn w'))) /\
             incoming (reader_inner (c_reader (conn w'))) = coming /\ writer_buffer (out w') = [] /\
             written (writer_inner (out w')) = written (writer_inner (out w)) ++ bs /\ writer_sequence (out w') = after)
          (fun _ w' => written (writer_inner (out w')) `prefix_of` written (writer_inner (out w)) ++ bs)
  | Closed => exists w', serve_one_inner watch w = (Ok false, w') /\ out w' = out w /\ hand w' = hand w
  | Cut e => exists w', serve_one_inner watch w = (Err e, w') /\ out w' = out w /\ hand w' = hand w
  end.


(** The packets of [bytes], read from [sequence] on, are these results and nothing after them. *)
Definition client_reads (caps : CapabilityFlags) (sequence : Z) (bytes : list byte) (results : list ClientResult) : Prop :=
  forall r, reader_ok r -> steady (reader_inner r) -> reader_sequence r = sequence -> pending r = bytes ->
  exists payloads r' fuel, read_payloads (length payloads) r = (Ok (map Some payloads), r') /\ pending r' = [] /\
    client_results fuel caps payloads = Some (results, []).

(** C15. A client that sends a text query and reads results for as long as they announce another
    one ends exactly where the server stopped writing: no byte is left over and none is
    missing, whether the request held one statement or several, and whether or not one of
    them failed. *)
Theorem client_stays_in_step `{!LawfulHandler H} watch w sql sequence rest w' :
  answers_readable (c_capabilities (conn w)) ->
  reader_ok (c_reader (conn w)) -> steady (reader_inner (c_reader (conn w))) -> writer_buffer (out w) = [] ->
  joins [] (pending (c_reader (conn w))) (Payload (byte.of_Z 3 :: sql) sequence rest) ->
  serve_one_inner watch w = (Ok true, w') ->
  exists bs results, written (writer_inner (out w')) = written (writer_inner (out w)) ++ bs /\
    client_reads (c_capabilities (conn w)) sequence bs results.
Proof.
  intros Ha Hr Hs Hb Hj E. destruct (next_payload_joins _ _ Hr Hs Hj) as (r & _ & Hr1 & _ & _ & [_ Eq] & _).
  assert (Hq : 0 <= sequence < 256) by (rewrite <- Eq; apply Hr1).
  destruct (serve_payload watch w _ sequence rest Hr Hs Hb Hj) as (held & coming & _ & Hp). set (s0 := session_holding w held) in *.
  change (command_parse (byte.of_Z 3 :: sql)) with (Query sql) in Hp.
  destruct (reply _ _ _) as [[payloads goes_on] s] eqn:Er. destruct (framed_all_total sequence payloads) as (bs & after & Hf).
  specialize (Hp bs after Hf). apply (runs_ok _ _ _ _ _ _ Hp) in E as (Eg & _ & _ & _ & _ & _ & Ew & _). subst goes_on.
  cbn [reply] in Er. rewrite (dialogue_bind_eq (peek s_capabilities) _ s0 [] (s_capabilities s0) s0) in Er by easy. cbn [app] in Er.
  destruct (say_query _ _ _ _ _) as [[said a] s1] eqn:Eq2. cbn [fst snd] in Er. injection Er as -> -> ->.
  destruct (query_in_step _ _ _ _ s0 (S (length sql)) _ _ Ha (Nat.lt_succ_diag_r _) (Nat.lt_succ_diag_r _) Eq2) as [results Eres].
  exists bs, results. split; [easy|]. intros r' Hr' Hs' Eq' Ep'.
  destruct (framed_all_payloads bs _ _ _ Hf r' Hq Hr' Hs' Eq' Ep') as (r2 & E2 & Ep2 & _). exists payloads, r2, (S (length sql)). easy.
Qed.

(** The rounds the query loop is given are enough: any larger number gives the same run. *)
Theorem query_loop_ends `{!LawfulHandler H} watch sql w fuel : (length sql < fuel)%nat ->
  serve_query watch sql w = serve_query_loop fuel (contains (c_capabilities (conn w)) CLIENT_MULTI_STATEMENTS) watch sql w.
Proof. intros Hf. unfold serve_query, mbind, Io_bind, capabilities, io_get. apply query_fuel; lia. Qed.


(** Every command the connection goes on after is answered by a payload at least, except the
    three the protocol leaves unanswered, which say nothing; so a client that waits for an
    answer exactly when the protocol has one never waits in vain. *)
Theorem commands_answered watch command s :
  let '(payloads, goes_on, _) := reply watch command s in
  if silent command then payloads = [] else goes_on = true -> payloads <> [].
Proof.
  destruct command as [sql|sql|statement body|statement parameter data|statement|statement|database|body|option| | | |username auth database|code];
    cbn [silent reply]; try easy.
  - rewrite (dialogue_bind_eq (peek s_capabilities) _ s [] (s_capabilities s) s) by easy. cbn [app].
    pose proof (query_said (length sql) (contains (s_capabilities s) CLIENT_MULTI_STATEMENTS) watch sql s) as Hq. now destruct (say_query _ _ _ _ _) as [[? ?] ?].
  - destruct (ask_said (prepare sql) s) as (answer & s1 & E & _). rewrite (dialogue_bind_eq _ _ _ _ _ _ E). cbn. now destruct answer as [statement|[kind message]].
  - apply execute_said.
  - destruct (ask_said (reset_statement statement) s) as (answer & s1 & E & _). now rewrite (dialogue_bind_eq _ _ _ _ _ _ E).
  - destruct (ask_said (init_database database) s) as (answer & s1 & E & _). now rewrite (dialogue_bind_eq _ _ _ _ _ _ E).
  - destruct (option =? 0); [easy|]. now destruct (option =? 1).
  - destruct (ask_said (change_user username auth database) s) as (answer & s1 & E & _). now rewrite (dialogue_bind_eq _ _ _ _ _ _ E).
Qed.

(** A client that asks for TLS is handed over whole: its request is recognised, the stream
    that is taken back starts with the first byte of the TLS handshake, nothing is left
    unsent, and the connection made of the two halves numbers packets on from both sides. *)
Theorem tls_upgrade_in_step w payload sequence rest :
  reader_ok (c_reader (conn w)) -> steady (reader_inner (c_reader (conn w))) ->
  mode_of w = false -> has_buffered (c_reader (conn w)) = false -> writer_buffer (out w) = [] ->
  joins [] (pending (c_reader (conn w))) (Payload payload sequence rest) -> is_ssl_request payload = true ->
  exists w' t, read_initial_response w = (Ok InitialSsl, w') /\
    into_parts (conn w') = (Ok (t, writer_inner (out w), sequence, writer_sequence (out w)), conn w') /\
    incoming t = rest /\
    let c := new_at_sequence t (writer_inner (out w)) sequence (writer_sequence (out w)) in
    pending (c_reader c) = rest /\ reader_sequence (c_reader c) = sequence /\ wire (c_writer c) = wire (out w) /\
    writer_sequence (c_writer c) = writer_sequence (out w).
Proof.
  intros Hr Hs Hm Hbuf Hb Hj Hssl. destruct (next_payload_joins _ _ Hr Hs Hj) as (r & E & Hr1 & _ & _ & [Ep Eq] & Hk).
  rewrite has_buffered_spec in Hbuf by easy. apply negb_false_iff, Z.eqb_eq, len_zero in Hbuf. specialize (Hk Hm Hbuf).
  exists (with_conn (with_reader r (conn w)) w), (reader_inner r). split.
  { unfold read_initial_response, mbind, Io_bind, on_reader, zoom. rewrite E. cbn [front_result]. now rewrite Hssl. }
  assert (Ei : incoming (reader_inner r) = rest) by (unfold pending in Ep; now rewrite Hk in Ep).
  split; [|split; [easy|]].
  - assert (Ew : writer_into_inner (out w) = (Ok (writer_inner (out w), writer_sequence (out w)), out w)).
    { unfold writer_into_inner, write_buffered, mbind, Io_bind, io_get. now rewrite Hb. }
    unfold into_parts, reader_into_inner. cbn [conn with_conn with_reader c_reader c_writer]. fold (out w). rewrite Ew, Eq. reflexivity.
  - unfold wire, pending, buffered. cbn. rewrite Hb, Ei. easy.
Qed.

End serving.

Arguments World : clear implicits.

(** ** A handler to serve *)

(** A handler that notes the statements it runs and fails at [BAD]; it finds statements the
    way the server's own handler does. *)
Record Script : Type := { ran : list (list byte); script_mode : option (list byte) }.

Definition noted (sql : list byte) (h : Script) : Script := {| ran := ran h ++ [sql]; script_mode := script_mode h |}.

#[export] Instance script_handler : Handler Script := {
  take_session_changes h := ([], h);
  server_version _ := ascii "8.4.0";
  connection_id _ := 7;
  auth_plugin _ := ascii "mysql_native_password";
  authenticate response _ h := (bytes_eqb (hr_auth_response response) (ascii "proof"), h);
  full_auth_public_key _ := None;
  decrypt_full_auth_password _ _ := None;
  authenticate_cleartext _ _ h := (false, h);
  query sql h :=
    (if bytes_eqb (trim sql) (ascii "BAD") then RespError ErParseError (ascii "bad") else RespOk ok_default [], noted sql h);
  first_statement h sql := session_first_statement (script_mode h) sql;
  prepare _ h := (Err (ErUnknownError, ascii "none"), h);
  execute _ _ h := (RespError ErUnknownError (ascii "none"), h);
  send_long_data _ _ _ h := h;
  close_statement _ h := h;
  reset_statement _ h := (false, h);
  reset_connection h := h;
  change_user _ _ _ h := (false, h);
  init_database _ h := (Ok tt, h);
  finish_stream _ h := h;
  dropped h := h
}.

#[export] Instance script_lawful : LawfulHandler Script.
Proof. constructor. intros h sql statement tail E. exact (first_statement_shorter _ _ _ _ E). Qed.

Lemma script_readable caps : answers_readable (H := Script) caps.
Proof. intros h sql. unfold query, script_handler. cbn [fst]. destruct (bytes_eqb (trim sql) (ascii "BAD")); [exact I|]. split_and!; vm_compute; reflexivity. Qed.

(** A connection that has logged in, with [bytes] to come one at a time. *)
Definition script_world (caps : CapabilityFlags) (bytes : list byte) : World Script := {|
  conn := with_capabilities caps (connection_new {| incoming := bytes; arrivals := repeat (Arrives 1) (length bytes) |} {| written := []; acceptances := [] |});
  hand := {| ran := []; script_mode := Some DEFAULT_SQL_MODE |}; races := [] |}.

(** A payload in one packet of number 0. *)
Definition in_packet (payload : list byte) : list byte := to_le 3 (len payload) ++ [byte.of_Z 0] ++ payload.

Definition two_statements : list byte := byte.of_Z 3 :: ascii "SET @a=';'; BAD; SELECT 1".

Lemma script_joins caps payload rest : len payload < MAX_PAYLOAD ->
  joins [] (pending (c_reader (conn (script_world caps (in_packet payload ++ rest))))) (Payload payload 1 rest).
Proof. intros Hl. pose proof (joins_last [] 0 payload rest) as Hj. unfold in_packet. rewrite <- !app_assoc. apply Hj; [lia|easy]. Qed.

Lemma script_steady caps bytes : steady (reader_inner (c_reader (conn (script_world caps bytes)))).
Proof. cbn. induction bytes as [|b bytes IH]; cbn; constructor; easy. Qed.


Lemma client_stays_in_step_witness :
  let w := script_world CLIENT_MULTI_STATEMENTS (in_packet two_statements ++ []) in
  let w' := snd (serve_one_inner false w) in
  ran (hand w') = [ascii "SET @a=';'"; ascii " BAD"] /\
  exists bs results, written (writer_inner (out w')) = written (writer_inner (out w)) ++ bs /\
    client_reads (c_capabilities (conn w)) 1 bs results.
Proof.
  intros w w'. split; [vm_compute; reflexivity|].
  apply (client_stays_in_step false w (tl two_statements) 1 [] w').
  - apply script_readable.
  - easy.
  - apply script_steady.
  - reflexivity.
  - now apply (script_joins CLIENT_MULTI_STATEMENTS two_statements []).
  - vm_compute. reflexivity.
Defined.

Lemma query_loop_ends_witness :
  let w := script_world 0 [] in
  serve_query false (ascii "SELECT 1") w = serve_query_loop 100 false false (ascii "SELECT 1") w.
Proof. intros w. apply (query_loop_ends false (ascii "SELECT 1") w 100). cbn. lia. Defined.

(** The response of a client whose proof the script takes. *)
Definition script_response (proof : list byte) : HandshakeResponse := {|
  hr_capabilities := 0; hr_character_set := 255; hr_username := ascii "u"; hr_auth_response := proof;
  hr_database := None; hr_auth_plugin := None |}.


(** A client that asks for TLS: the 32 bytes of its request, then a TLS record. *)
Definition ssl_request : list byte := to_le 4 (Z.lor CLIENT_PROTOCOL_41 CLIENT_SSL) ++ to_le 4 MAX_PAYLOAD ++ [byte.of_Z 255] ++ repeat (byte.of_Z 0) 23.

Lemma tls_upgrade_in_step_witness :
  let hello := map byte.of_Z [22; 3; 1] in
  let w := script_world 0 (in_packet ssl_request ++ hello) in
  exists w' t, read_initial_response w = (Ok InitialSsl, w') /\
    into_parts (conn w') = (Ok (t, writer_inner (out w), 1, writer_sequence (out w)), conn w') /\ incoming t = hello.
Proof.
  intros hello w. assert (Hj : joins [] (pending (c_reader (conn w))) (Payload ssl_request 1 hello)) by (apply (script_joins 0 ssl_request hello); vm_compute; reflexivity).
  assert (Hssl : is_ssl_request ssl_request = true) by (vm_compute; reflexivity).
  destruct (tls_upgrade_in_step w ssl_request 1 hello) as (w' & t & E1 & E2 & E3 & _);
    [easy|apply script_steady|reflexivity|reflexivity|reflexivity|exact Hj|exact Hssl|].
  exists w', t. split; [exact E1|]. split; [exact E2|exact E3].
Defined.
