(* ===== verification/Binlog.v ===== *)
(** * Replication positions and event headers ([src/crates/pintail-cdc/src])

    The set of transactions a replica has applied ([gtid.rs]) and the check of a
    transaction-payload header before the library decodes it ([event.rs]).  A set of
    transaction ids keeps, for each source, its intervals merged; [canonical] states what
    is kept and [has_id] what the set means.  The theorems show that the intervals are
    exactly the ids put in, in a form the ids alone determine, and that the text of a set
    reads back as the set. *)

From Stdlib Require Import ZArith Lia String Sorting.Sorted Sorting.Permutation.
From stdpp Require Import prelude list.
From coqutil Require Import Byte.
From S2P Require Import Prelude.
From S2P Require Import Types.
From S2P Require Import Text.
From S2P Require Import Statements.

#[local] Open Scope Z_scope.

(** ** Errors *)

(** What the messages of [CdcError] say here. *)
Inductive GtidError : Type :=
| EmptySid
| NoIntervals (sid : list byte)
| TaggedNoIntervals (sid : list byte)
| BadNumber (interval : list byte)
| BadInterval (interval : list byte)
| ZeroSequence.

(** ** Sets of transaction ids *)

Definition Interval : Type := Z * Z.

(** [entries : BTreeMap<String, Vec<(u64, u64)>>]. *)
Definition MysqlGtidSet : Type := list (list byte * list Interval).

Definition gtid_default : MysqlGtidSet := [].

(** The order of pairs of integers. *)
Definition interval_leb (a b : Interval) : bool := (fst a <? fst b) || ((fst a =? fst b) && (snd a <=? snd b)).

Fixpoint insert_by_order (i : Interval) (l : list Interval) : list Interval :=
  match l with
  | [] => [i]
  | j :: l' => if interval_leb i j then i :: l else j :: insert_by_order i l'
  end.

(** [sort_unstable]: equal pairs cannot be told apart. *)
Definition sort_unstable (l : list Interval) : list Interval := foldr insert_by_order [] l.

(** One round of the merge, [merged] with its last interval first. *)
Definition merge_round (merged : list Interval) (i : Interval) : list Interval :=
  let '(start, end_) := i in
  match merged with
  | (first, previous_end) :: rest =>
      if start <=? sat_add 64 previous_end 1 then (first, Z.max previous_end end_) :: rest else (start, end_) :: merged
  | [] => [(start, end_)]
  end.

Definition insert_interval (key : list byte) (start end_ : Z) (set : MysqlGtidSet) : MysqlGtidSet :=
  let intervals := default [] (omap_get key set) in
  let merged := foldl merge_round [] (sort_unstable (intervals ++ [(start, end_)])) in
  omap_insert key (rev merged) set.

(** [parse::<u64>]: an optional plus, then digits, within the range. *)
Definition parse_u64 (bs : list byte) : option Z :=
  let ds := match bs with b :: r => if byte_eqb b plus_byte then r else bs | [] => [] end in
  match ds with
  | [] => None
  | _ => if all_digits ds then if is_u64 (digits_value ds) then Some (digits_value ds) else None else None
  end.

Definition parse_interval (value : list byte) : result GtidError Interval :=
  let '(start, end_) := default (value, value) (split_once (byte_eqb minus_byte) value) in
  match parse_u64 start with
  | None => Err (BadNumber value)
  | Some start =>
      match parse_u64 end_ with
      | None => Err (BadNumber value)
      | Some end_ => if (start =? 0) || (end_ <? start) then Err (BadInterval value) else Ok (start, end_)
      end
  end.

(** The loop over the intervals of one source. *)
Fixpoint insert_all (key : list byte) (intervals : list (list byte)) (set : MysqlGtidSet) : result GtidError MysqlGtidSet :=
  match intervals with
  | [] => Ok set
  | interval :: intervals =>
      match parse_interval interval with
      | Err e => Err e
      | Ok (start, end_) => insert_all key intervals (insert_interval key start end_ set)
      end
  end.

Definition starts_with_digit (bs : list byte) : bool := match bs with b :: _ => is_digit b | [] => false end.

(** One source of the list. *)
Definition parse_sid (raw_sid : list byte) (set : MysqlGtidSet) : result GtidError MysqlGtidSet :=
  match split_all (byte_eqb colon_byte) raw_sid with
  | [] => Err EmptySid
  | [uuid] => Err (NoIntervals raw_sid)
  | uuid :: first :: parts =>
      if starts_with_digit first then insert_all uuid (first :: parts) set
      else
        match parts with
        | [] => Err (TaggedNoIntervals raw_sid)
        | interval :: parts => insert_all (uuid ++ [colon_byte] ++ first) (interval :: parts) set
        end
  end.

Fixpoint parse_sids (sids : list (list byte)) (set : MysqlGtidSet) : result GtidError MysqlGtidSet :=
  match sids with
  | [] => Ok set
  | sid :: sids => match parse_sid sid set with Err e => Err e | Ok set => parse_sids sids set end
  end.

Definition is_nonempty (bs : list byte) : bool := match bs with [] => false | _ => true end.

(** [MysqlGtidSet::parse]. *)
Definition gtid_parse (value : list byte) : result GtidError MysqlGtidSet :=
  parse_sids (List.filter is_nonempty (map trim (split_all (byte_eqb comma) value))) gtid_default.

(** [{byte:02x}]. *)
Definition hex_digit (d : Z) : byte := if d <? 10 then byte.of_Z (48 + d) else byte.of_Z (87 + d).
Definition hex_byte (b : byte) : list byte := [hex_digit (byte.unsigned b / 16); hex_digit (byte.unsigned b mod 16)].

Fixpoint format_uuid_from (index : Z) (bytes : list byte) : list byte :=
  match bytes with
  | [] => []
  | b :: bytes =>
      (if (index =? 4) || (index =? 6) || (index =? 8) || (index =? 10) then [minus_byte] else []) ++
      hex_byte b ++ format_uuid_from (index + 1) bytes
  end.
Definition format_uuid (bytes : list byte) : list byte := format_uuid_from 0 bytes.

Definition add_event (sid : list byte) (tag : option (list byte)) (sequence : Z) (set : MysqlGtidSet) : result GtidError MysqlGtidSet :=
  if sequence =? 0 then Err ZeroSequence
  else
    let key := format_uuid sid ++ match tag with Some tag => [colon_byte] ++ tag | None => [] end in
    Ok (insert_interval key sequence sequence set).

Definition format_interval (i : Interval) : list byte :=
  let '(start, end_) := i in
  [colon_byte] ++ dec_text start ++ (if end_ =? start then [] else [minus_byte] ++ dec_text end_).

Definition format_entry (key : list byte) (intervals : list Interval) : list byte := key ++ flat_map format_interval intervals.

(** [Display]: the entries with commas between them. *)
Fixpoint gtid_text (set : MysqlGtidSet) : list byte :=
  match set with
  | [] => []
  | [(key, intervals)] => format_entry key intervals
  | (key, intervals) :: set => format_entry key intervals ++ [comma] ++ gtid_text set
  end.

(** [to_sids], [sid] the library's reading of one entry. *)
Fixpoint to_sids {Sid} (sid : list byte -> option Sid) (set : MysqlGtidSet) : result (list byte) (list Sid) :=
  match set with
  | [] => Ok []
  | (key, intervals) :: set =>
      let value := format_entry key intervals in
      match sid value with
      | None => Err value
      | Some s => match to_sids sid set with Ok rest => Ok (s :: rest) | Err e => Err e end
      end
  end.

(** ** Transaction-payload headers *)

Definition ZSTD : Z := 0.
Definition NO_COMPRESSION : Z := 255.

(** The [n] bytes after the first as an integer, with what follows them. *)
Definition read_le (n : nat) (rest : list byte) : option (Z * list byte) :=
  match get_range rest 0 (Z.of_nat n) with Some bytes => Some (from_le bytes, drop n rest) | None => None end.

Definition read_length_encoded (cursor : list byte) : option (Z * list byte) :=
  match cursor with
  | [] => None
  | first :: rest =>
      let first := byte.unsigned first in
      if first =? 0xfb then None
      else if first =? 0xfc then read_le 2 rest
      else if first =? 0xfd then read_le 3 rest
      else if first =? 0xfe then read_le 8 rest
      else Some (first, rest)
  end.

Inductive HeaderError : Type := FieldId (value : Z) | CompressionType (value : Z).

(** The loop over the fields of a header; a round that goes on takes three integers. *)
Fixpoint check_fields (fuel : nat) (cursor : list byte) : result HeaderError unit :=
  match fuel with
  | O => Ok tt
  | S fuel =>
      match read_length_encoded cursor with
      | None => Ok tt
      | Some (field, cursor) =>
          if negb (is_u8 field) then Err (FieldId field)
          else if (field =? 1) || (field =? 3) then
            match read_length_encoded cursor with
            | None => Ok tt
            | Some (_, cursor) => match read_length_encoded cursor with None => Ok tt | Some (_, cursor) => check_fields fuel cursor end
            end
          else if field =? 2 then
            match read_length_encoded cursor with
            | None => Ok tt
            | Some (_, cursor) =>
                match read_length_encoded cursor with
                | None => Ok tt
                | Some (algorithm, cursor) =>
                    if negb (algorithm =? ZSTD) && negb (algorithm =? NO_COMPRESSION) then Err (CompressionType algorithm)
                    else check_fields fuel cursor
                end
            end
          else Ok tt
      end
  end.

(** [check_transaction_payload_header]; the position only names the event in the message. *)
Definition check_transaction_payload_header (data : list byte) : result HeaderError unit := check_fields (S (length data)) data.

(** ** What a set means *)

Definition in_interval (n : Z) (i : Interval) : Prop := fst i <= n <= snd i.
Definition covered (l : list Interval) (n : Z) : Prop := Exists (in_interval n) l.

(** The transaction [n] of the source [key] is in the set. *)
Definition has_id (set : MysqlGtidSet) (key : list byte) (n : Z) : Prop :=
  exists intervals, omap_get key set = Some intervals /\ covered intervals n.

Definition valid_interval (i : Interval) : Prop := 1 <= fst i /\ fst i <= snd i < 2 ^ 64.

(** A gap of at least one id between an interval and every later one. *)
Definition apart (a b : Interval) : Prop := snd a + 1 < fst b.
Definition separated (l : list Interval) : Prop := Forall valid_interval l /\ StronglySorted apart l.

(** Sources in order, each with an interval at least, the intervals apart. *)
Definition canonical (set : MysqlGtidSet) : Prop :=
  omap_sorted set /\ Forall (fun entry => snd entry <> [] /\ separated (snd entry)) set.

(** ** Merging intervals *)

Definition starts_after (z : Z) (l : list Interval) : Prop := Forall (fun i => z <= fst i) l.

Lemma insert_by_order_perm i l : Permutation (insert_by_order i l) (i :: l).
Proof.
  induction l as [|j l IH]; cbn [insert_by_order]; [easy|]. destruct (interval_leb i j); [easy|].
  apply (perm_trans (perm_skip j IH)), perm_swap.
Qed.

Lemma sort_unstable_perm l : Permutation (sort_unstable l) l.
Proof. induction l as [|i l IH]; cbn; [easy|]. exact (perm_trans (insert_by_order_perm _ _) (perm_skip i IH)). Qed.

Definition by_start (a b : Interval) : Prop := fst a <= fst b.

Lemma interval_leb_start a b : if interval_leb a b then by_start a b else by_start b a.
Proof.
  unfold interval_leb, by_start. destruct (Z.ltb_spec (fst a) (fst b)); [cbn; lia|]. destruct (Z.eqb_spec (fst a) (fst b)); [|cbn; lia].
  cbn. destruct (snd a <=? snd b); lia.
Qed.

Lemma insert_by_order_sorted i l : StronglySorted by_start l -> StronglySorted by_start (insert_by_order i l).
Proof.
  induction 1 as [|j l Hs IH Hj]; cbn [insert_by_order]; [repeat constructor|]. pose proof (interval_leb_start i j) as Ho.
  destruct (interval_leb i j).
  - constructor; [now constructor|]. constructor; [easy|]. eapply Forall_impl; [exact Hj|]. unfold by_start in *. cbn. intros k Hk. lia.
  - constructor; [easy|]. apply (Permutation_Forall (Permutation_sym (insert_by_order_perm i l))). now constructor.
Qed.

Lemma sort_unstable_sorted l : StronglySorted by_start (sort_unstable l).
Proof. induction l as [|i l IH]; cbn; [constructor|now apply insert_by_order_sorted]. Qed.

(** The merge from an interval on. *)
Fixpoint merge_from (i : Interval) (l : list Interval) : list Interval :=
  match l with
  | [] => [i]
  | j :: l => if fst j <=? sat_add 64 (snd i) 1 then merge_from (fst i, Z.max (snd i) (snd j)) l else i :: merge_from j l
  end.

Lemma merge_rounds l : forall i rest, rev (foldl merge_round (i :: rest) l) = rev rest ++ merge_from i l.
Proof.
  induction l as [|[s e] l IH]; intros [ps pe] rest; [reflexivity|]. cbn [foldl merge_round merge_from fst snd].
  destruct (s <=? sat_add 64 pe 1); rewrite IH; [easy|]. cbn [rev]. now rewrite <- app_assoc.
Qed.

Lemma merge_from_spec l : forall i, valid_interval i -> Forall valid_interval l -> StronglySorted by_start (i :: l) ->
  Forall valid_interval (merge_from i l) /\ StronglySorted apart (merge_from i l) /\ starts_after (fst i) (merge_from i l) /\
  forall n, covered (merge_from i l) n <-> covered (i :: l) n.
Proof.
  induction l as [|j l IH]; intros i Hi Hl Hs; cbn [merge_from].
  { split; [constructor; [exact Hi|constructor]|]. split; [repeat constructor|]. split; [constructor; [lia|constructor]|easy]. }
  apply Forall_cons in Hl as [Hj Hl]. inversion_clear Hs as [|? ? Hs' Hij]. apply Forall_cons in Hij as [Hij Hil]. unfold by_start in Hij.
  destruct Hi as [Hi1 Hi2], Hj as [Hj1 Hj2]. unfold sat_add. destruct (Z.leb_spec (fst j) (Z.min (2 ^ 64 - 1) (snd i + 1))) as [Hle|Hgt].
  - destruct (IH (fst i, Z.max (snd i) (snd j))) as (H1 & H2 & H3 & H4).
    + split; cbn; lia.
    + easy.
    + constructor; [now inversion_clear Hs'|exact Hil].
    + split_and!; [easy..|]. intros n. rewrite H4. unfold covered. rewrite !Exists_cons. unfold in_interval. cbn [fst snd].
      split; [intros [H|H]|intros [H|[H|H]]]; try tauto; [|left; lia|left; lia].
      destruct (Z.le_gt_cases n (snd i)); [left; lia|right; left; lia].
  - destruct (IH j) as (H1 & H2 & H3 & H4); [easy..|]. split_and!.
    + now constructor.
    + constructor; [easy|]. eapply Forall_impl; [exact H3|]. unfold apart. cbn. lia.
    + constructor; [lia|]. eapply Forall_impl; [exact H3|]. cbn. lia.
    + intros n. unfold covered in *. rewrite !Exists_cons, H4, Exists_cons. easy.
Qed.

Lemma covered_perm l l' n : Permutation l l' -> covered l n <-> covered l' n.
Proof. intros Hp. unfold covered. rewrite !Exists_exists. now setoid_rewrite Hp. Qed.

(** Merging keeps the ids and puts the intervals apart. *)
Lemma merge_spec l : Forall valid_interval l -> l <> [] ->
  let merged := rev (foldl merge_round [] (sort_unstable l)) in
  merged <> [] /\ separated merged /\ forall n, covered merged n <-> covered l n.
Proof.
  intros Hl Hn. cbv zeta. pose proof (sort_unstable_perm l) as Hp. pose proof (sort_unstable_sorted l) as Hs.
  assert (Hv : Forall valid_interval (sort_unstable l)) by apply (Permutation_Forall (Permutation_sym Hp) Hl).
  destruct (sort_unstable l) as [|i l'] eqn:E; [now apply Permutation_nil in Hp|]. cbn [foldl]. destruct i as [s e]. cbn [merge_round].
  rewrite merge_rounds. cbn [rev app]. apply Forall_cons in Hv as [Hi Hv].
  destruct (merge_from_spec l' (s, e) Hi Hv Hs) as (H1 & H2 & _ & H4). split_and!; [|now split|intros n; rewrite H4; now apply covered_perm].
  intros Hm. assert (Hc : covered ((s, e) :: l') s) by (constructor; destruct Hi as [Hi1 Hi2]; unfold in_interval; cbn in *; lia).
  apply H4 in Hc. rewrite Hm in Hc. now apply Exists_nil in Hc.
Qed.

(** ** One form for each set *)

Lemma covered_after z l n : starts_after z l -> covered l n -> z <= n.
Proof. intros Hs Hc. apply Exists_exists in Hc as (i & Hi & Hn). eapply Forall_forall in Hs; [|exact Hi]. unfold in_interval in Hn. cbn in Hs. lia. Qed.

Lemma separated_cons i l : separated (i :: l) -> valid_interval i /\ separated l /\ starts_after (snd i + 2) l.
Proof.
  intros [Hv Hs]. apply Forall_cons in Hv as [Hi Hv]. inversion_clear Hs as [|? ? Hs' Ha]. split_and!; [easy|now split|].
  eapply Forall_impl; [exact Ha|]. unfold apart. cbn. lia.
Qed.

(** Of two lists with the same ids the first interval ends no later in one than in the other. *)
Lemma separated_head i l j l' : separated (i :: l) -> separated (j :: l') -> (forall n, covered (i :: l) n -> covered (j :: l') n) ->
  fst j <= fst i /\ (fst i = fst j -> snd i <= snd j).
Proof.
  intros Hi Hj Hc. apply separated_cons in Hi as ([Hi1 Hi2] & _ & _), Hj as ([Hj1 Hj2] & _ & Ha).
  assert (Hin : forall n, in_interval n i -> in_interval n j \/ snd j + 2 <= n).
  { intros n Hn. specialize (Hc n ltac:(now constructor)). apply Exists_cons in Hc as [Hc|Hc]; [now left|right]. now apply (covered_after _ _ _ Ha). }
  unfold in_interval in Hin. split.
  - destruct (Hin (fst i)) as [H|H]; [lia|lia|lia].
  - intros E. destruct (Z.le_gt_cases (snd i) (snd j)) as [|Hgt]; [easy|]. destruct (Hin (snd j + 1)); lia.
Qed.

Lemma separated_unique : forall l l', separated l -> separated l' -> (forall n, covered l n <-> covered l' n) -> l = l'.
Proof.
  assert (Hnil : forall i l, separated (i :: l) -> ~ (forall n, covered (i :: l) n <-> covered [] n)).
  { intros i l Hs Hc. apply separated_cons in Hs as ([Hi1 Hi2] & _). assert (covered [] (fst i)) as He by (apply Hc; constructor; unfold in_interval; lia).
    now apply Exists_nil in He. }
  induction l as [|i l IH]; intros [|j l'] Hi Hj Hc; [easy|exfalso; apply (Hnil _ _ Hj); intros n; symmetry; apply Hc|now destruct (Hnil _ _ Hi Hc)|].
  destruct (separated_head i l j l' Hi Hj ltac:(intros n; apply Hc)) as [A1 A2].
  destruct (separated_head j l' i l Hj Hi ltac:(intros n; apply Hc)) as [B1 B2].
  assert (E : i = j) by (destruct i, j; cbn in *; f_equal; lia). subst j. f_equal.
  apply separated_cons in Hi as (Hv & Hi & Ha), Hj as (_ & Hj & Hb). apply IH; [easy..|]. intros n.
  assert (Hx : forall l1 l2, starts_after (snd i + 2) l1 -> (covered (i :: l1) n -> covered (i :: l2) n) -> covered l1 n -> covered l2 n).
  { intros l1 l2 H1 H2 H3. assert (covered (i :: l2) n) as H4 by (apply H2; now constructor). apply Exists_cons in H4 as [H4|H4]; [|easy].
    apply (covered_after _ _ _ H1) in H3. unfold in_interval in H4. lia. }
  split; apply Hx; try easy; apply Hc.
Qed.

(** ** Sets *)

Lemma canonical_get set key l : canonical set -> omap_get key set = Some l -> l <> [] /\ separated l.
Proof.
  intros [_ Hf] E. apply omap_get_In in E. rewrite List.Forall_forall in Hf. exact (Hf (key, l) E).
Qed.

Lemma separated_inhabited l : l <> [] -> separated l -> exists n, covered l n.
Proof. destruct l as [|i l]; [easy|]. intros _ ([Hi1 Hi2] & _)%separated_cons. exists (fst i). constructor. unfold in_interval. lia. Qed.

(** The ids alone determine a set. *)
Lemma canonical_unique a b : canonical a -> canonical b -> (forall key n, has_id a key n <-> has_id b key n) -> a = b.
Proof.
  intros Ha Hb Hi. apply omap_ext; [apply Ha|apply Hb|]. intros key.
  assert (Hsome : forall x y l, canonical x -> canonical y -> (forall n, has_id x key n <-> has_id y key n) ->
    omap_get key x = Some l -> omap_get key y = Some l).
  { intros x y l Hx Hy Hxy E. destruct (canonical_get _ _ _ Hx E) as [Hl1 Hl2]. destruct (separated_inhabited l Hl1 Hl2) as [n Hn].
    destruct (proj1 (Hxy n)) as (l' & E' & _); [now exists l|]. destruct (canonical_get _ _ _ Hy E') as [_ Hl2']. rewrite E'. f_equal.
    apply separated_unique; [easy..|]. intros m. specialize (Hxy m). unfold has_id in Hxy. rewrite E, E' in Hxy.
    split; intros Hm; [destruct (proj2 Hxy) as (? & [= <-] & ?)|destruct (proj1 Hxy) as (? & [= <-] & ?)]; eauto. }
  destruct (omap_get key a) as [l|] eqn:E1; [symmetry; now apply (Hsome a b)|].
  destruct (omap_get key b) as [l|] eqn:E2; [|easy]. rewrite (Hsome b a l) in E1; [easy..| |easy]. intros n. now rewrite Hi.
Qed.

Lemma canonical_default : canonical gtid_default.
Proof. split; constructor. Qed.

Lemma omap_insert_Forall (P : list byte * list Interval -> Prop) key l set : P (key, l) -> Forall P set -> Forall P (omap_insert key l set).
Proof. intros Hk. rewrite !List.Forall_forall. intros Hf x [->|Hx]%omap_insert_In; auto. Qed.

Lemma insert_interval_spec key start end_ set : canonical set -> valid_interval (start, end_) ->
  canonical (insert_interval key start end_ set) /\
  forall k n, has_id (insert_interval key start end_ set) k n <-> has_id set k n \/ (k = key /\ start <= n <= end_).
Proof.
  intros Hc Hv. unfold insert_interval. set (old := default [] (omap_get key set)).
  assert (Ho : Forall valid_interval old).
  { unfold old. destruct (omap_get key set) as [l|] eqn:E; [|constructor]. apply (canonical_get _ _ _ Hc E). }
  destruct (merge_spec (old ++ [(start, end_)])) as (H1 & H2 & H3); [apply Forall_app; split; [exact Ho|constructor; [exact Hv|constructor]]|now destruct old|].
  set (merged := rev _) in *. split.
  { destruct Hc as [Hs Hf]. split; [now apply omap_insert_sorted|]. now apply omap_insert_Forall. }
  intros k n. unfold has_id. rewrite omap_get_insert. destruct (cmp k key) eqn:Ek.
  - apply cmp_eq in Ek as ->. transitivity (covered merged n); [split; [now intros (? & [= <-] & ?)|eauto]|].
    rewrite H3. unfold covered. rewrite Exists_app, Exists_cons, Exists_nil. unfold in_interval. cbn [fst snd].
    unfold old. destruct (omap_get key set) as [l|]; cbn [default from_option id].
    + split; [intros [H|[H|[]]]; [left; eauto|now right]|intros [(? & [= <-] & ?)|[_ H]]; [now left|right; now left]].
    + split; [intros [H|[H|[]]]; [now apply Exists_nil in H|now right]|intros [(? & [=] & ?)|[_ H]]; right; now left].
  - split; [now left|intros [H|[-> _]]; [easy|now rewrite cmp_refl in Ek]].
  - split; [now left|intros [H|[-> _]]; [easy|now rewrite cmp_refl in Ek]].
Qed.

(** Several intervals put in one after another. *)
Definition insert_many (key : list byte) (l : list Interval) (set : MysqlGtidSet) : MysqlGtidSet :=
  foldl (fun set i => insert_interval key (fst i) (snd i) set) set l.

Lemma insert_many_spec key l : forall set, canonical set -> Forall valid_interval l ->
  canonical (insert_many key l set) /\ forall k n, has_id (insert_many key l set) k n <-> has_id set k n \/ (k = key /\ covered l n).
Proof.
  induction l as [|[s e] l IH]; intros set Hc Hl; cbn [insert_many foldl].
  - split; [easy|]. intros k n. unfold covered. rewrite Exists_nil. tauto.
  - apply Forall_cons in Hl as [Hi Hl]. destruct (insert_interval_spec key s e set Hc Hi) as [H1 H2].
    destruct (IH _ H1 Hl) as [H3 H4]. split; [easy|]. intros k n. fold (insert_many key l (insert_interval key s e set)). cbn [fst snd].
    rewrite H4, H2. unfold covered. rewrite Exists_cons. unfold in_interval. cbn [fst snd]. tauto.
Qed.

(** ** Reading what was written *)

Definition interval_text (i : Interval) : list byte :=
  dec_text (fst i) ++ (if snd i =? fst i then [] else [minus_byte] ++ dec_text (snd i)).

Lemma format_interval_eq i : format_interval i = colon_byte :: interval_text i.
Proof. now destruct i. Qed.

Lemma digits_free b ds : is_digit b = false -> all_digits ds = true -> free (byte_eqb b) ds = true.
Proof.
  intros Hb. apply digits_all. intros c Hc. apply negb_true_iff. destruct (byte_eqb b c) eqn:E; [|easy]. apply byte_eqb_spec in E. congruence.
Qed.

Lemma parse_u64_dec z : 0 <= z < 2 ^ 64 -> parse_u64 (dec_text z) = Some z.
Proof.
  intros Hz. destruct (dec_text z) as [|b r] eqn:E; [pose proof (dec_text_nonempty z ltac:(lia)) as Hn; now rewrite E in Hn|].
  pose proof (dec_text_digits z ltac:(lia)) as Hd. pose proof (dec_text_value z ltac:(lia)) as Hv. rewrite E in Hd, Hv. unfold parse_u64.
  pose proof Hd as Hb. cbn [all_digits forallb] in Hb. apply andb_prop in Hb as [Hb%digit_bounds _].
  replace (byte_eqb b plus_byte) with false; [|symmetry; apply Z.eqb_neq; change (byte.unsigned plus_byte) with 43; lia].
  rewrite Hd, Hv. replace (is_u64 z) with true; [easy|]. symmetry. now apply in_unsigned_spec.
Qed.

Lemma parse_interval_text i : valid_interval i -> parse_interval (interval_text i) = Ok i.
Proof.
  destruct i as [s e]. intros [H1 H2]. cbn [fst snd] in *. unfold parse_interval, interval_text. cbn [fst snd].
  assert (Hf : free (byte_eqb minus_byte) (dec_text s) = true) by (apply digits_free; [easy|apply dec_text_digits; lia]).
  destruct (Z.eqb_spec e s) as [->|Hn].
  - rewrite app_nil_r, split_once_free by easy. cbn [default from_option id]. rewrite parse_u64_dec by lia.
    destruct (Z.eqb_spec s 0); [lia|]. now destruct (Z.ltb_spec s s); [lia|].
  - cbn [app]. rewrite split_once_at by easy. cbn [default from_option id]. rewrite !parse_u64_dec by lia.
    destruct (Z.eqb_spec s 0); [lia|]. now destruct (Z.ltb_spec e s); [lia|].
Qed.

Lemma insert_all_texts key l : forall set, Forall valid_interval l -> insert_all key (map interval_text l) set = Ok (insert_many key l set).
Proof.
  induction l as [|i l IH]; intros set Hl; [easy|]. apply Forall_cons in Hl as [Hi Hl]. cbn [map insert_all]. rewrite parse_interval_text by easy.
  destruct i as [s e]. now rewrite IH.
Qed.

Lemma forallb_app_true {A} (p : A -> bool) l1 l2 : forallb p (l1 ++ l2) = true <-> forallb p l1 = true /\ forallb p l2 = true.
Proof. rewrite forallb_app. apply andb_true_iff. Qed.

Lemma interval_text_bytes (p : byte -> bool) i : (forall b, is_digit b = true -> p b = true) -> p minus_byte = true -> valid_interval i ->
  forallb p (interval_text i) = true.
Proof.
  intros Hp Hm [H1 H2]. unfold interval_text. apply forallb_app_true. split; [apply digits_all; [easy|apply dec_text_digits; lia]|].
  destruct (snd i =? fst i); [easy|]. cbn. rewrite Hm. apply digits_all; [easy|apply dec_text_digits; lia].
Qed.

Lemma digit_not b c : is_digit c = true -> is_digit b = false -> negb (byte_eqb b c) = true.
Proof. intros Hc Hb. apply negb_true_iff. destruct (byte_eqb b c) eqn:E; [|easy]. apply byte_eqb_spec in E. congruence. Qed.

Lemma interval_text_free b i : is_digit b = false -> b <> minus_byte -> valid_interval i -> free (byte_eqb b) (interval_text i) = true.
Proof.
  intros Hb Hm Hi. apply interval_text_bytes; [intros c Hc; now apply digit_not| |easy]. apply negb_true_iff. now apply byte_eqb_neq.
Qed.

Lemma split_intervals l : Forall valid_interval l -> forall key, free (byte_eqb colon_byte) key = true ->
  split_all (byte_eqb colon_byte) (key ++ flat_map format_interval l) = key :: map interval_text l.
Proof.
  induction 1 as [|i l Hi _ IH]; intros key Hk; cbn [flat_map map]; [now rewrite app_nil_r, split_all_free|].
  rewrite format_interval_eq. cbn [app]. rewrite split_all_at by (easy || apply byte_eqb_refl). f_equal. apply IH. now apply interval_text_free.
Qed.

(** A source that can be written in a list: a uuid, or a uuid and a tag that does not start
    like a number. *)
Definition key_wf (key : list byte) : Prop :=
  forallb plain key = true /\ free (byte_eqb comma) key = true /\
  exists uuid tag, free (byte_eqb colon_byte) uuid = true /\
    (key = uuid \/ (key = uuid ++ colon_byte :: tag /\ free (byte_eqb colon_byte) tag = true /\ starts_with_digit tag = false)).

Lemma starts_text i : valid_interval i -> starts_with_digit (interval_text i) = true.
Proof.
  intros [H1 H2]. unfold interval_text. pose proof (dec_text_digits (fst i) ltac:(lia)) as Hd. pose proof (dec_text_nonempty (fst i) ltac:(lia)) as Hn.
  destruct (dec_text (fst i)) as [|b r]; [easy|]. cbn in *. now apply andb_prop in Hd as [Hd _].
Qed.

Lemma parse_sid_entry key l set : key_wf key -> Forall valid_interval l -> l <> [] ->
  parse_sid (format_entry key l) set = Ok (insert_many key l set).
Proof.
  intros (_ & _ & uuid & tag & Hu & Hk) Hl Hn. unfold parse_sid, format_entry. destruct l as [|i l]; [easy|]. clear Hn.
  destruct Hk as [->|(-> & Ht & Hd)].
  - rewrite split_intervals by easy. cbn [map]. inversion_clear Hl as [|? ? Hi Hl']. rewrite starts_text by easy.
    apply (insert_all_texts uuid (i :: l)). now constructor.
  - rewrite <- app_assoc. cbn [app]. rewrite split_all_at by (easy || apply byte_eqb_refl). rewrite split_intervals by easy. rewrite Hd. cbn [map].
    apply (insert_all_texts (uuid ++ colon_byte :: tag) (i :: l)). exact Hl.
Qed.

Definition entry_text (entry : list byte * list Interval) : list byte := format_entry (fst entry) (snd entry).
Definition entry_wf (entry : list byte * list Interval) : Prop := key_wf (fst entry) /\ snd entry <> [] /\ separated (snd entry).

Lemma entry_bytes (p : byte -> bool) entry : (forall b, is_digit b = true -> p b = true) -> p minus_byte = true -> p colon_byte = true ->
  forallb p (fst entry) = true -> Forall valid_interval (snd entry) -> forallb p (entry_text entry) = true.
Proof.
  intros Hp Hm Hc Hk Hl. unfold entry_text, format_entry. apply forallb_app_true. split; [easy|].
  induction Hl as [|i l Hi _ IH]; [easy|]. cbn [flat_map]. apply forallb_app_true. split; [|easy]. rewrite format_interval_eq. cbn.
  rewrite Hc. now apply interval_text_bytes.
Qed.

Lemma entry_text_spec entry : entry_wf entry ->
  free (byte_eqb comma) (entry_text entry) = true /\ trim (entry_text entry) = entry_text entry /\ is_nonempty (entry_text entry) = true.
Proof.
  intros ((Hp & Hf & _) & Hn & [Hv _]). split_and!.
  - apply entry_bytes; try easy. intros b Hb. now apply digit_not.
  - apply trim_plain. apply entry_bytes; try easy. intros b Hb%digit_bounds. unfold plain, byte_in. apply andb_true_intro. split; apply Z.leb_le; lia.
  - unfold entry_text, format_entry. destruct (snd entry) as [|i l]; [easy|]. cbn [flat_map]. rewrite format_interval_eq. now destruct (fst entry).
Qed.

Lemma split_entries set : Forall entry_wf set -> set <> [] -> split_all (byte_eqb comma) (gtid_text set) = map entry_text set.
Proof.
  induction 1 as [|[key l] set He Hs IH]; intros Hn; [easy|]. destruct (entry_text_spec _ He) as (Hf & _ & _).
  change (format_entry key l) with (entry_text (key, l)) in *. cbn [map gtid_text]. destruct set as [|entry set]; [now apply split_all_free|].
  change (format_entry key l) with (entry_text (key, l)). cbn [app]. rewrite split_all_at by (easy || apply byte_eqb_refl). now rewrite IH.
Qed.

Lemma listed_entries set : Forall entry_wf set ->
  List.filter is_nonempty (map trim (split_all (byte_eqb comma) (gtid_text set))) = map entry_text set.
Proof.
  intros Hs. destruct (decide (set = [])) as [->|Hn]; [easy|]. rewrite split_entries by easy. clear Hn.
  induction Hs as [|entry set He _ IH]; [easy|]. destruct (entry_text_spec _ He) as (_ & Ht & Hne). cbn [map List.filter]. rewrite Ht, Hne. now f_equal.
Qed.

Lemma parse_sids_entries l : Forall entry_wf l -> forall set, canonical set ->
  exists set', parse_sids (map entry_text l) set = Ok set' /\ canonical set' /\
    forall k n, has_id set' k n <-> has_id set k n \/ Exists (fun entry => k = fst entry /\ covered (snd entry) n) l.
Proof.
  induction 1 as [|entry l (Hk & Hn & Hs) _ IH]; intros set Hc; cbn [map parse_sids].
  - exists set. split; [easy|]. split; [easy|]. intros k n. rewrite Exists_nil. tauto.
  - unfold entry_text at 1. rewrite parse_sid_entry by (easy || apply Hs).
    destruct (insert_many_spec (fst entry) (snd entry) set Hc) as [H1 H2]; [apply Hs|]. destruct (IH _ H1) as (set' & E & H3 & H4).
    exists set'. split; [easy|]. split; [easy|]. intros k n. rewrite H4, H2, Exists_cons. tauto.
Qed.

Lemma has_id_entries set k n : omap_sorted set -> has_id set k n <-> Exists (fun entry => k = fst entry /\ covered (snd entry) n) set.
Proof.
  intros Hs. unfold has_id. rewrite List.Exists_exists. split.
  - intros (l & E & Hc). apply omap_get_In in E. now exists (k, l).
  - intros ([k' l] & Hin & -> & Hc). exists l. split; [|easy]. now apply omap_In_get.
Qed.

(** ** Parsing in general *)

Lemma parse_interval_valid value i : parse_interval value = Ok i -> valid_interval i.
Proof.
  unfold parse_interval. destruct (default _ _) as [a b].
  assert (Hp : forall bs z, parse_u64 bs = Some z -> 0 <= z < 2 ^ 64).
  { intros bs z. unfold parse_u64. destruct (match bs with [] => [] | _ => _ end); [easy|]. destruct (all_digits _); [|easy].
    destruct (is_u64 _) eqn:E; [|easy]. intros [= <-]. now apply in_unsigned_spec in E. }
  destruct (parse_u64 a) as [s|] eqn:Es; [|easy]. destruct (parse_u64 b) as [e|] eqn:Ee; [|easy]. apply Hp in Es, Ee.
  destruct (Z.eqb_spec s 0); [easy|]. destruct (Z.ltb_spec e s); [easy|]. intros [= <-]. split; cbn; lia.
Qed.

Lemma insert_all_canonical key texts : forall set set', canonical set -> insert_all key texts set = Ok set' -> canonical set'.
Proof.
  induction texts as [|text texts IH]; intros set set' Hc; cbn [insert_all]; [now intros [= <-]|].
  destruct (parse_interval text) as [[s e]|] eqn:E; [|easy]. apply IH. now apply insert_interval_spec; [|apply parse_interval_valid in E].
Qed.

Lemma parse_sids_canonical sids : forall set set', canonical set -> parse_sids sids set = Ok set' -> canonical set'.
Proof.
  induction sids as [|sid sids IH]; intros set set' Hc; cbn [parse_sids]; [now intros [= <-]|].
  destruct (parse_sid sid set) as [set1|] eqn:E; [|easy]. apply IH. unfold parse_sid in E.
  destruct (split_all _ sid) as [|uuid [|first parts]]; [easy..|]. destruct (starts_with_digit first); [now apply insert_all_canonical in E|].
  destruct parts as [|interval parts]; [easy|]. now apply insert_all_canonical in E.
Qed.

(** ** Headers the library cannot represent *)

(** A field of a size, or of a compression the library knows, and what follows it. *)
Definition passes (data rest : list byte) : Prop := exists field length value d1 d2,
  read_length_encoded data = Some (field, d1) /\ read_length_encoded d1 = Some (length, d2) /\ read_length_encoded d2 = Some (value, rest) /\
  (field = 1 \/ field = 3 \/ (field = 2 /\ (value = ZSTD \/ value = NO_COMPRESSION))).

(** After fields that pass comes one the library's conversions would abort on. *)
Inductive unrepresentable : list byte -> HeaderError -> Prop :=
| bad_field data field rest : read_length_encoded data = Some (field, rest) -> 255 < field -> unrepresentable data (FieldId field)
| bad_compression data length algorithm d1 d2 d3 :
    read_length_encoded data = Some (2, d1) -> read_length_encoded d1 = Some (length, d2) -> read_length_encoded d2 = Some (algorithm, d3) ->
    algorithm <> ZSTD -> algorithm <> NO_COMPRESSION -> unrepresentable data (CompressionType algorithm)
| bad_later data rest e : passes data rest -> unrepresentable rest e -> unrepresentable data e.

Lemma read_le_shorter n rest value rest' : read_le n rest = Some (value, rest') -> 0 <= value /\ (length rest' <= length rest)%nat.
Proof.
  unfold read_le. destruct (get_range _ _ _) as [bytes|]; [|easy]. intros [= <- <-]. rewrite length_drop. split; [apply from_le_range|lia].
Qed.

Lemma read_length_encoded_shorter cursor value rest : read_length_encoded cursor = Some (value, rest) ->
  0 <= value /\ (length rest < length cursor)%nat.
Proof.
  destruct cursor as [|b cursor]; [easy|]. cbn [read_length_encoded length]. cbv zeta. pose proof (byte.unsigned_range b).
  repeat match goal with |- context [if ?c then _ else _] => destruct c end; [easy|..|intros [= <- <-]; split; lia];
    intros [? ?]%read_le_shorter; lia.
Qed.

Lemma check_fields_sound fuel : forall data e, check_fields fuel data = Err e -> unrepresentable data e.
Proof.
  induction fuel as [|fuel IH]; intros data e; cbn [check_fields]; [easy|].
  destruct (read_length_encoded data) as [[field d1]|] eqn:E0; [|easy]. pose proof (read_length_encoded_shorter _ _ _ E0) as [Hp0 _].
  destruct (is_u8 field) eqn:Hu8; cbn [negb].
  2:{ intros [= <-]. eapply bad_field; [exact E0|]. destruct (Z.lt_ge_cases 255 field); [easy|].
      assert (is_u8 field = true) by (apply in_unsigned_spec; lia). congruence. }
  destruct ((field =? 1) || (field =? 3)) eqn:E13; [|destruct (Z.eqb_spec field 2) as [->|]; [|easy]];
    (destruct (read_length_encoded d1) as [[length d2]|] eqn:E1; [|easy]); (destruct (read_length_encoded d2) as [[value d3]|] eqn:E2; [|easy]).
  - intros Hc. apply (bad_later data d3); [|now apply IH]. exists field, length, value, d1, d2. rewrite orb_true_iff, !Z.eqb_eq in E13. tauto.
  - destruct (Z.eqb_spec value ZSTD) as [->|H1]; [|destruct (Z.eqb_spec value NO_COMPRESSION) as [->|H2]]; cbn [negb andb].
    1,2: intros Hc; apply (bad_later data d3); [eexists _, _, _, _, _; split_and!; eauto|now apply IH].
    intros [= <-]. now apply (bad_compression data length value d1 d2 d3).
Qed.

Lemma check_fields_complete data e : unrepresentable data e -> forall fuel, (length data < fuel)%nat -> check_fields fuel data = Err e.
Proof.
  induction 1 as [data field rest E Hb|data l algorithm d1 d2 d3 E0 E1 E2 H1 H2|data rest e (field & l & value & d1 & d2 & E0 & E1 & E2 & Hk) _ IH];
    intros [|fuel] Hf; [lia| |lia| |lia|]; cbn [check_fields].
  - rewrite E. replace (is_u8 field) with false; [easy|]. symmetry. apply not_true_iff_false. intros Hu%in_unsigned_spec. lia.
  - rewrite E0. cbn. rewrite E1, E2. rewrite (proj2 (Z.eqb_neq algorithm ZSTD)), (proj2 (Z.eqb_neq algorithm NO_COMPRESSION)) by easy. easy.
  - rewrite E0, E1, E2. apply read_length_encoded_shorter in E0 as [_ L0], E1 as [_ L1], E2 as [_ L2].
    destruct Hk as [->|[->|[-> [->| ->]]]]; cbn; apply IH; lia.
Qed.

(** ** Properties *)

(** C20. The ids of a set are exactly those put in: an interval adds its own ids to one source
    and touches no other, and the set stays in the one form its ids determine (sources in
    order, intervals apart and merged), so the order in which ids arrive leaves no trace. *)
Theorem gtid_sets_exact key start end_ set : canonical set -> valid_interval (start, end_) ->
  canonical (insert_interval key start end_ set) /\
  (forall k n, has_id (insert_interval key start end_ set) k n <-> has_id set k n \/ (k = key /\ start <= n <= end_)) /\
  forall other, canonical other ->
    (forall k n, has_id other k n <-> has_id set k n \/ (k = key /\ start <= n <= end_)) -> other = insert_interval key start end_ set.
Proof.
  intros Hc Hv. destruct (insert_interval_spec key start end_ set Hc Hv) as [H1 H2]. split_and!; [easy..|].
  intros other Ho Hi. apply canonical_unique; [easy..|]. intros k n. now rewrite Hi, H2.
Qed.

Definition source_a : list byte := format_uuid (repeat (byte.of_Z 0xaa) 16).

(** The set of the text "...:1-3:5". *)
Definition example_set : MysqlGtidSet := [(source_a, [(1, 3); (5, 5)])].

Lemma example_set_canonical : canonical example_set.
Proof.
  split; [repeat constructor|]. constructor; [|constructor]. split; [easy|]. split; [|repeat constructor; easy].
  repeat constructor; cbn; lia.
Qed.

Lemma gtid_sets_exact_witness : canonical (insert_interval source_a 4 4 example_set) /\ insert_interval source_a 4 4 example_set = [(source_a, [(1, 5)])] /\
  has_id (insert_interval source_a 4 4 example_set) source_a 4.
Proof.
  destruct (gtid_sets_exact source_a 4 4 example_set example_set_canonical ltac:(split; cbn; lia)) as (H1 & H2 & _).
  split; [exact H1|]. split; [vm_compute; reflexivity|]. apply H2. right. split; [reflexivity|lia].
Defined.

(** C21. A set written as text and read again is the same set, for every set in canonical form
    whose sources are uuids with or without a tag; whatever text is read, the set that comes
    out is in canonical form. *)
Theorem gtid_text_roundtrip set : canonical set -> Forall (fun entry => key_wf (fst entry)) set ->
  gtid_parse (gtid_text set) = Ok set /\ forall text set', gtid_parse text = Ok set' -> canonical set'.
Proof.
  intros Hc Hk. split; [|intros text set'; apply parse_sids_canonical, canonical_default].
  assert (Hw : Forall entry_wf set).
  { destruct Hc as [_ Hf]. rewrite !List.Forall_forall in *. intros entry Hin. split; [now apply Hk|now apply Hf]. }
  unfold gtid_parse. rewrite listed_entries by easy. destruct (parse_sids_entries set Hw gtid_default canonical_default) as (set' & -> & Hc' & Hi).
  f_equal. apply canonical_unique; [easy..|]. intros k n. rewrite Hi, (has_id_entries set) by apply Hc. split; [intros [(? & [=] & _)|H]; exact H|now right].
Qed.

Definition tagged_set : MysqlGtidSet := example_set ++ [(source_a ++ ascii ":blue", [(7, 2 ^ 64 - 1)])].

Lemma gtid_text_roundtrip_witness : gtid_parse (gtid_text tagged_set) = Ok tagged_set.
Proof.
  apply gtid_text_roundtrip.
  - split; [repeat constructor; easy|]. constructor; [exact (List.Forall_inv (proj2 example_set_canonical))|]. constructor; [|constructor].
    split; [easy|]. split; repeat constructor; cbn; lia.
  - constructor; [|constructor; [|constructor]]; (split; [vm_compute; reflexivity|]); (split; [vm_compute; reflexivity|]); exists source_a, (ascii "blue");
      (split; [vm_compute; reflexivity|]); [now left|right]. split_and!; vm_compute; reflexivity.
Defined.

(** Recording an event adds its id to the source that wrote it, and that id only; the id
    zero, which no committed transaction has, is refused. *)
Theorem events_recorded sid tag sequence set : canonical set -> is_u64 sequence = true ->
  match add_event sid tag sequence set with
  | Ok set' =>
      0 < sequence /\ canonical set' /\
      forall k n, has_id set' k n <-> has_id set k n \/ (k = format_uuid sid ++ match tag with Some tag => [colon_byte] ++ tag | None => [] end /\ n = sequence)
  | Err e => e = ZeroSequence /\ sequence = 0
  end.
Proof.
  intros Hc Hu%in_unsigned_spec. unfold add_event. destruct (Z.eqb_spec sequence 0) as [Hz|Hz]; [easy|].
  destruct (insert_interval_spec (format_uuid sid ++ match tag with Some tag => [colon_byte] ++ tag | None => [] end) sequence sequence set Hc) as [H1 H2].
  { split; cbn; lia. }
  split; [lia|]. split; [easy|]. intros k n. rewrite H2. split; (intros [H|[-> H]]; [now left|right]); (split; [easy|lia]).
Qed.

Lemma events_recorded_witness :
  match add_event (repeat (byte.of_Z 0xaa) 16) None 4 example_set with Ok set' => canonical set' /\ has_id set' source_a 4 | Err _ => False end.
Proof.
  pose proof (events_recorded (repeat (byte.of_Z 0xaa) 16) None 4 example_set example_set_canonical eq_refl) as H.
  destruct (add_event _ None 4 example_set) as [set'|e] eqn:E; [|discriminate E]. destruct H as (_ & Hc & Hi). split; [exact Hc|].
  apply Hi. right. split; reflexivity.
Defined.

(** The check of a transaction-payload header refuses exactly the headers whose field id or
    compression type the library would abort on, with that value, wherever in the header it
    stands, and leaves every other header to the library. *)
Theorem payload_headers_screened data e : check_transaction_payload_header data = Err e <-> unrepresentable data e.
Proof. split; [apply check_fields_sound|]. intros Hu. apply check_fields_complete; [easy|lia]. Qed.
