(* ===== verification/Placement.v ===== *)
(** * Placing row images on a schema ([src/crates/pintail-cdc/src/decoder.rs])

    The columns of a binlog row image and those of the schema a replica tracks agree by
    position, by the ordinals the probe recorded, by name, or, when the image names
    nothing, by type where the types leave one way only.  A table map is what the binlog
    library reads from its event: how many columns it has, their names when it carries
    them, and their types. *)

From Stdlib Require Import ZArith Lia String Sorting.Sorted.
From stdpp Require Import prelude list.
From coqutil Require Import Byte.
From S2P Require Import Prelude.
From S2P Require Import Types.
From S2P Require Import Text.
From S2P Require Import Statements.

#[local] Open Scope Z_scope.

(** ** Source tables *)

(** The fields of [SourceColumn] the decoders read. *)
Record SourceColumn : Type := {
  sc_name : list byte;
  sc_mysql_data_type : list byte;
  sc_mysql_column_type : list byte;
  sc_pintail_type : DataType;
  sc_nullable : bool;
  sc_character_set : option (list byte);
  sc_ordinal : Z
}.

Record SourceTable : Type := {
  tbl_name : list byte;
  tbl_columns : list SourceColumn;
  tbl_key_mode : KeyMode;
  tbl_key_columns : list (list byte);
  tbl_source_column_count : Z
}.

(** The column types of the binlog. *)
Inductive BinlogType : Type :=
| MYSQL_TYPE_TINY | MYSQL_TYPE_SHORT | MYSQL_TYPE_INT24 | MYSQL_TYPE_LONG | MYSQL_TYPE_LONGLONG
| MYSQL_TYPE_FLOAT | MYSQL_TYPE_DOUBLE | MYSQL_TYPE_NEWDECIMAL | MYSQL_TYPE_YEAR | MYSQL_TYPE_DATE
| MYSQL_TYPE_NEWDATE | MYSQL_TYPE_TIME2 | MYSQL_TYPE_DATETIME2 | MYSQL_TYPE_TIMESTAMP2 | MYSQL_TYPE_STRING
| MYSQL_TYPE_VARCHAR | MYSQL_TYPE_VAR_STRING | MYSQL_TYPE_TINY_BLOB | MYSQL_TYPE_MEDIUM_BLOB
| MYSQL_TYPE_LONG_BLOB | MYSQL_TYPE_BLOB | MYSQL_TYPE_ENUM | MYSQL_TYPE_SET | MYSQL_TYPE_JSON
| MYSQL_TYPE_BIT | MYSQL_TYPE_GEOMETRY | MYSQL_TYPE_OTHER (code : Z).

#[export] Instance BinlogType_dec : EqDecision BinlogType.
Proof. solve_decision. Defined.

Definition to_lower (bs : list byte) : list byte := map to_ascii_lowercase bs.

(** [matches!(s, "a" | "b" | ...)]. *)
Definition one_of (names : list string) (s : list byte) : bool := existsb (fun name => bytes_eqb s (ascii name)) names.

(** The first entry whose names hold [s]. *)
Fixpoint by_name {A} (table : list (list string * A)) (s : list byte) : option A :=
  match table with
  | [] => None
  | (names, a) :: table => if one_of names s then Some a else by_name table s
  end.

Definition binlog_column_type (column : SourceColumn) : option BinlogType :=
  by_name [
    (["tinyint"], MYSQL_TYPE_TINY);
    (["smallint"], MYSQL_TYPE_SHORT);
    (["mediumint"], MYSQL_TYPE_INT24);
    (["int"; "integer"], MYSQL_TYPE_LONG);
    (["bigint"], MYSQL_TYPE_LONGLONG);
    (["float"], MYSQL_TYPE_FLOAT);
    (["double"; "real"], MYSQL_TYPE_DOUBLE);
    (["decimal"; "numeric"], MYSQL_TYPE_NEWDECIMAL);
    (["year"], MYSQL_TYPE_YEAR);
    (["date"], MYSQL_TYPE_DATE);
    (["time"], MYSQL_TYPE_TIME2);
    (["datetime"], MYSQL_TYPE_DATETIME2);
    (["timestamp"], MYSQL_TYPE_TIMESTAMP2);
    (["char"; "binary"], MYSQL_TYPE_STRING);
    (["varchar"; "varbinary"], MYSQL_TYPE_VARCHAR);
    (["tinytext"; "tinyblob"; "text"; "blob"; "mediumtext"; "mediumblob"; "longtext"; "longblob"], MYSQL_TYPE_BLOB);
    (["enum"], MYSQL_TYPE_ENUM);
    (["set"], MYSQL_TYPE_SET);
    (["json"], MYSQL_TYPE_JSON);
    (["bit"], MYSQL_TYPE_BIT);
    (["geometry"; "point"; "linestring"; "polygon"; "multipoint"; "multilinestring"; "multipolygon"; "geometrycollection"], MYSQL_TYPE_GEOMETRY)
  ]%string (to_lower (sc_mysql_data_type column)).

(** ** Placement by type *)

(** [ways[taken][1..]], [above] being [ways[taken - 1]] and [skipped] the entry before. *)
Fixpoint next_row (kind : BinlogType) (schema : list BinlogType) (above : list Z) (skipped : Z) : list Z :=
  match schema, above with
  | offered :: schema, matched :: above =>
      let entry := Z.min (sat_add 8 skipped (if decide (kind = offered) then matched else 0)) 2 in
      entry :: next_row kind schema above entry
  | _, _ => []
  end.

Fixpoint rows_from (image schema : list BinlogType) (row : list Z) : list (list Z) :=
  row :: match image with [] => [] | kind :: image => rows_from image schema (0 :: next_row kind schema row 0) end.

Definition ways_table (image schema : list BinlogType) : list (list Z) := rows_from image schema (repeat 1 (S (length schema))).

Definition ways_at (ways : list (list Z)) (taken offered : nat) : Z := nth offered (nth taken ways []) 0.

(** [while ways[taken][offered - 1] == ways[taken][offered] { offered -= 1; }]; [None] is the
    underflow at 0. *)
Fixpoint skip_back (ways : list (list Z)) (taken offered : nat) : option nat :=
  match offered with
  | O => None
  | S before => if ways_at ways taken before =? ways_at ways taken offered then skip_back ways taken before else Some before
  end.

Fixpoint walk_back (ways : list (list Z)) (taken offered : nat) (placement : list nat) : option (list nat) :=
  match taken with
  | O => Some placement
  | S t => match skip_back ways taken offered with Some before => walk_back ways t before (before :: placement) | None => None end
  end.

Definition embed_by_type (image schema : list BinlogType) : option (list nat) :=
  if (length schema <? length image)%nat then None
  else
    let ways := ways_table image schema in
    if negb (ways_at ways (length image) (length schema) =? 1) then None
    else walk_back ways (length image) (length schema) [].

(** ** Placement by ordinal *)

(** The loop over the schema's columns, [index] that of the next one. *)
Fixpoint place_ordinals (index : nat) (columns : list SourceColumn) (placement : list (option nat)) : option (list (option nat)) :=
  match columns with
  | [] => Some placement
  | column :: columns =>
      if sc_ordinal column <? 1 then None
      else
        let ordinal := Z.to_nat (sc_ordinal column - 1) in
        match placement !! ordinal with
        | Some None => place_ordinals (S index) columns (<[ordinal := Some index]> placement)
        | _ => None
        end
  end.

Definition ordinal_placement (table : SourceTable) (image_columns : Z) : option (list (option nat)) :=
  let declared := tbl_source_column_count table in
  if (declared =? 0) || negb (declared =? image_columns) then None
  else place_ordinals 0 (tbl_columns table) (repeat None (Z.to_nat declared)).

(** ** Alignment *)

Inductive RowAlignment : Type :=
| Positional
| ByName (image_to_schema : list (option nat)).

Inductive UnknownColumn : Type := RejectUnknown | IgnoreUnknown.

(** What is read of a table map: the width, the names its metadata holds, the types. *)
Record TableMap : Type := {
  tm_columns_count : Z;
  tm_names : result (list byte) (list (list byte));
  tm_column_type : nat -> option BinlogType
}.

(** What the messages of [CdcError] say here. *)
Inductive PlaceError : Type :=
| BadMetadata (error : list byte)
| NoOnePlacement
| NotTracked (column : list byte)
| AbsentNotNull (column : list byte)
| AbsentKey (column : list byte).

(** [iter().position(..)]. *)
Fixpoint position {A} (p : A -> bool) (l : list A) : option nat :=
  match l with
  | [] => None
  | x :: l => if p x then Some 0%nat else option_map S (position p l)
  end.

Definition column_named (name : list byte) (column : SourceColumn) : bool := eq_ignore_ascii_case (sc_name column) name.

(** [collect::<Option<Vec<_>>>()]. *)
Fixpoint all_some {A} (l : list (option A)) : option (list A) :=
  match l with
  | [] => Some []
  | None :: _ => None
  | Some a :: l => match all_some l with Some rest => Some (a :: rest) | None => None end
  end.

Definition type_placement (table : SourceTable) (map_ : TableMap) : option (list nat) :=
  image ← all_some (map (tm_column_type map_) (seq 0 (Z.to_nat (tm_columns_count map_))));
  schema ← all_some (map binlog_column_type (tbl_columns table));
  embed_by_type image schema.

Definition is_key_column (table : SourceTable) (column : SourceColumn) : bool :=
  existsb (fun key => eq_ignore_ascii_case key (sc_name column)) (tbl_key_columns table).

(** The first column the image lacks and cannot go without. *)
Fixpoint absent_column (table : SourceTable) (image_to_schema : list (option nat)) (index : nat) (columns : list SourceColumn) : option PlaceError :=
  match columns with
  | [] => None
  | column :: columns =>
      if existsb (fun target => bool_decide (target = Some index)) image_to_schema then absent_column table image_to_schema (S index) columns
      else if negb (sc_nullable column) then Some (AbsentNotNull (sc_name column))
      else if is_key_column table column then Some (AbsentKey (sc_name column))
      else absent_column table image_to_schema (S index) columns
  end.

(** [names.iter().zip(&image_to_schema).find_map(..)]. *)
Fixpoint orphan (names : list (list byte)) (image_to_schema : list (option nat)) : option (list byte) :=
  match names, image_to_schema with
  | name :: names, target :: image_to_schema => match target with None => Some name | Some _ => orphan names image_to_schema end
  | _, _ => None
  end.

(** [RowAlignment::resolve]. *)
Definition resolve (table : SourceTable) (map_ : TableMap) (unknown : UnknownColumn) : result PlaceError RowAlignment :=
  let image_columns := tm_columns_count map_ in
  if image_columns =? len (tbl_columns table) then Ok Positional
  else
    match ordinal_placement table image_columns with
    | Some image_to_schema => Ok (ByName image_to_schema)
    | None =>
        match tm_names map_ with
        | Err error => Err (BadMetadata error)
        | Ok names =>
            let placed :=
              if len names =? image_columns then Some (map (fun name => position (column_named name) (tbl_columns table)) names)
              else option_map (map Some) (type_placement table map_) in
            match placed with
            | None => Err NoOnePlacement
            | Some image_to_schema =>
                let orphaned := match unknown with RejectUnknown => orphan names image_to_schema | IgnoreUnknown => None end in
                match orphaned with
                | Some name => Err (NotTracked name)
                | None =>
                    match absent_column table image_to_schema 0 (tbl_columns table) with
                    | Some error => Err error
                    | None => Ok (ByName image_to_schema)
                    end
                end
            end
        end
    end.

(** The ordinals whose bits are set, of the first [columns] bits. *)
Definition image_ordinals (bits : list bool) (columns : nat) : list nat :=
  omap (fun '(ordinal, present) => if present : bool then Some ordinal else None) (imap (fun i b => (i, b)) (take columns bits)).

(** ** The ways an image embeds *)

(** The image's columns at increasing positions of the schema, the types agreeing. *)
Definition embeds (image schema : list BinlogType) (placement : list nat) : Prop :=
  Forall2 (fun kind j => schema !! j = Some kind) image placement /\ StronglySorted lt placement.

(** All of them, from the last columns of both. *)
Fixpoint embeddings_rev (image schema : list BinlogType) {struct schema} : list (list nat) :=
  match image with
  | [] => [[]]
  | kind :: image' =>
      match schema with
      | [] => []
      | offered :: schema =>
          embeddings_rev image schema ++
          (if decide (kind = offered) then map (fun p => p ++ [length schema]) (embeddings_rev image' schema) else [])
      end
  end.

Definition ways (image schema : list BinlogType) : Z := Z.min (Z.of_nat (length (embeddings_rev image schema))) 2.

Lemma ways_nil schema : ways [] schema = 1.
Proof. now destruct schema. Qed.

Lemma ways_step kind image offered schema :
  ways (kind :: image) (offered :: schema) =
    Z.min (sat_add 8 (ways (kind :: image) schema) (if decide (kind = offered) then ways image schema else 0)) 2.
Proof.
  unfold ways, sat_add. cbn [embeddings_rev]. rewrite length_app. destruct (decide (kind = offered)); rewrite ?length_map; cbn [length]; lia.
Qed.

(** The entries of a row, from those of the row above. *)
Lemma next_row_spec kind image : forall schema passed above,
  (length schema < length above)%nat -> (forall k, (k <= length schema)%nat -> nth k above 0 = ways image (rev (take k schema) ++ passed)) ->
  length (next_row kind schema above (ways (kind :: image) passed)) = length schema /\
  forall k, (k < length schema)%nat ->
    nth k (next_row kind schema above (ways (kind :: image) passed)) 0 = ways (kind :: image) (rev (take (S k) schema) ++ passed).
Proof.
  induction schema as [|offered schema IH]; intros passed above Hl Ha; [easy|]. destruct above as [|matched above]; [cbn in Hl; lia|].
  cbn [next_row]. pose proof (Ha 0%nat ltac:(cbn; lia)) as H0. cbn in H0. rewrite H0. rewrite <- ways_step.
  destruct (IH (offered :: passed) above) as [IH1 IH2]; [cbn in Hl; lia| |].
  { intros k Hk. specialize (Ha (S k) ltac:(cbn; lia)). cbn in Ha. rewrite Ha. now rewrite <- app_assoc. }
  split; [cbn; now rewrite IH1|]. intros [|k] Hk; [reflexivity|]. cbn in Hk. cbn [nth]. rewrite IH2 by lia. cbn. now rewrite <- !app_assoc.
Qed.

(** A row holds the ways of a part of the image in every part of the schema. *)
Definition row_of (image schema : list BinlogType) (row : list Z) : Prop :=
  length row = S (length schema) /\ forall j, (j <= length schema)%nat -> nth j row 0 = ways image (rev (take j schema)).

Lemma first_row schema : row_of [] schema (repeat 1 (S (length schema))).
Proof. split; [apply repeat_length|]. intros j Hj. rewrite ways_nil. rewrite nth_repeat_lt by lia. reflexivity. Qed.

Lemma following_row kind image schema row : row_of image schema row -> row_of (kind :: image) schema (0 :: next_row kind schema row 0).
Proof.
  intros [Hl Hr]. destruct (next_row_spec kind image schema [] row) as [H1 H2]; [lia|intros k Hk; rewrite app_nil_r; now apply Hr|].
  change (ways (kind :: image) []) with 0 in *. split; [cbn; now rewrite H1|]. intros [|j] Hj; [reflexivity|]. cbn [nth].
  rewrite H2 by lia. now rewrite app_nil_r.
Qed.

Lemma rows_from_spec schema : forall image before row taken, row_of before schema row -> (taken <= length image)%nat ->
  row_of (rev (take taken image) ++ before) schema (nth taken (rows_from image schema row) []).
Proof.
  induction image as [|kind image IH]; intros before row taken Hr Ht.
  - cbn in Ht. now replace taken with 0%nat by lia.
  - cbn [rows_from]. destruct taken as [|taken]; [exact Hr|]. cbn [nth take rev]. rewrite <- app_assoc. cbn [app].
    apply IH; [now apply following_row|cbn in Ht; lia].
Qed.

Lemma ways_at_spec image schema taken offered : (taken <= length image)%nat -> (offered <= length schema)%nat ->
  ways_at (ways_table image schema) taken offered = ways (rev (take taken image)) (rev (take offered schema)).
Proof.
  intros Ht Ho. unfold ways_at, ways_table. destruct (rows_from_spec schema image [] _ taken (first_row schema) Ht) as [_ Hr].
  rewrite app_nil_r in Hr. now apply Hr.
Qed.

(** ** The walk finds the one there is *)

Lemma take_S_rev {A} (l : list A) n x : l !! n = Some x -> rev (take (S n) l) = x :: rev (take n l).
Proof. intros E. erewrite take_S_r by exact E. now rewrite rev_app_distr. Qed.

Lemma ways_zero image schema : ways image schema = 0 <-> embeddings_rev image schema = [].
Proof. unfold ways. destruct (embeddings_rev image schema); cbn [length]; split; intros; [easy|lia|lia|easy]. Qed.

Lemma ways_one image schema : ways image schema = 1 <-> exists p, embeddings_rev image schema = [p].
Proof.
  unfold ways. destruct (embeddings_rev image schema) as [|p [|q l]]; cbn [length]; split; intros H; try lia.
  - now destruct H.
  - now exists p.
  - now destruct H.
Qed.

Lemma skip_back_spec image schema taken kind : image !! taken = Some kind -> forall offered p, (offered <= length schema)%nat ->
  embeddings_rev (rev (take (S taken) image)) (rev (take offered schema)) = [p] ->
  exists before q, skip_back (ways_table image schema) (S taken) offered = Some before /\ (before < offered)%nat /\
    embeddings_rev (rev (take taken image)) (rev (take before schema)) = [q] /\ p = q ++ [before].
Proof.
  intros Hk. assert (Ht : (S taken <= length image)%nat) by (apply lookup_lt_Some in Hk; lia).
  induction offered as [|before IH]; intros p Ho Hp.
  { rewrite (take_S_rev _ _ _ Hk) in Hp. discriminate Hp. }
  destruct (lookup_lt_is_Some_2 schema before ltac:(lia)) as [offered Eo]. cbn [skip_back].
  rewrite !ways_at_spec by lia. rewrite (proj2 (ways_one (rev (take (S taken) image)) (rev (take (S before) schema)))) by (now exists p).
  rewrite (take_S_rev schema before offered Eo), (take_S_rev image taken kind Hk) in *. cbn [embeddings_rev] in Hp.
  destruct (Z.eqb_spec (ways (kind :: rev (take taken image)) (rev (take before schema))) 1) as [E1|E1].
  - apply ways_one in E1 as [q Eq]. rewrite Eq in Hp. cbn [app] in Hp. injection Hp as -> _.
    destruct (IH p ltac:(lia) Eq) as (b & r & H1 & H2 & H3). exists b, r. split; [easy|]. split; [lia|easy].
  - exists before. destruct (embeddings_rev (kind :: rev (take taken image)) (rev (take before schema))) as [|q l] eqn:Eq.
    + cbn [app] in Hp. destruct (decide (kind = offered)); [|easy].
      destruct (embeddings_rev (rev (take taken image)) (rev (take before schema))) as [|r [|r' l]]; [easy| |easy]. cbn in Hp. injection Hp as <-.
      exists r. split; [easy|]. split; [lia|]. split; [easy|]. f_equal. rewrite length_rev, length_take. f_equal. lia.
    + destruct l as [|q' l]; [exfalso; apply E1, ways_one; now exists q|]. apply (f_equal length) in Hp. rewrite length_app in Hp. cbn in Hp. lia.
Qed.

Lemma walk_back_spec image schema : forall taken offered p acc, (taken <= length image)%nat -> (offered <= length schema)%nat ->
  embeddings_rev (rev (take taken image)) (rev (take offered schema)) = [p] ->
  walk_back (ways_table image schema) taken offered acc = Some (p ++ acc).
Proof.
  induction taken as [|taken IH]; intros offered p acc Ht Ho Hp; cbn [walk_back].
  - cbn in Hp. destruct (rev (take offered schema)); injection Hp as <-; reflexivity.
  - destruct (lookup_lt_is_Some_2 image taken ltac:(lia)) as [kind Ek].
    destruct (skip_back_spec image schema taken kind Ek offered p Ho Hp) as (before & q & -> & Hb & Hq & ->).
    rewrite (IH before q (before :: acc)) by (lia || easy). now rewrite <- app_assoc.
Qed.

(** ** The embeddings are all there are *)

Lemma Forall2_snoc_l {A B} (P : A -> B -> Prop) l x k : Forall2 P (l ++ [x]) k -> exists k' y, k = k' ++ [y] /\ Forall2 P l k' /\ P x y.
Proof.
  intros (k1 & k2 & H1 & H2 & ->)%Forall2_app_inv_l. inversion H2 as [|? y ? ? Hp Hn]; subst. inversion Hn; subst. now exists k1, y.
Qed.

Lemma sorted_snoc l x : StronglySorted lt (l ++ [x]) <-> StronglySorted lt l /\ Forall (fun y => (y < x)%nat) l.
Proof.
  induction l as [|y l IH]; cbn [app].
  - split; [intros _; split; constructor|intros _; repeat constructor].
  - split.
    + intros H. inversion_clear H as [|? ? Hs Hf]. apply IH in Hs as [Hs Hx]. apply Forall_app in Hf as [Hf Hy%List.Forall_inv].
      split; [now constructor|now constructor].
    + intros [Hs Hf]. inversion_clear Hs as [|? ? Hs' Hy]. apply Forall_cons in Hf as [Hyx Hf]. constructor; [now apply IH|].
      apply Forall_app. split; [easy|]. now constructor.
Qed.

Lemma sorted_below p : forall n, StronglySorted lt p -> Forall (fun j => (j < n)%nat) p -> (length p <= n)%nat.
Proof.
  induction p as [|x p IH] using rev_ind; intros n Hs Hb; [cbn; lia|]. apply sorted_snoc in Hs as [Hs Hx]. apply Forall_app in Hb as [_ Hb%List.Forall_inv].
  specialize (IH x Hs Hx). rewrite length_app. cbn. lia.
Qed.

Lemma embeds_below image schema p : embeds image schema p -> Forall (fun j => (j < length schema)%nat) p.
Proof. intros [H _]. induction H as [|kind j image p Hj _ IH]; constructor; [now apply lookup_lt_Some in Hj|easy]. Qed.

Lemma embeds_more image schema offered p : Forall (fun j => (j < length schema)%nat) p ->
  embeds image (schema ++ [offered]) p <-> embeds image schema p.
Proof.
  intros Hb. unfold embeds. apply and_iff_compat_r. split; intros H; induction H as [|kind j image p Hj _ IH]; constructor;
    apply Forall_cons in Hb as [Hjb Hb]; try (now apply IH); [now rewrite lookup_app_l in Hj|now rewrite lookup_app_l].
Qed.

Lemma embeddings_spec : forall schema image p, p ∈ embeddings_rev image schema <-> embeds (rev image) (rev schema) p.
Proof.
  induction schema as [|offered schema IH]; intros image p.
  - destruct image as [|kind image]; cbn [embeddings_rev rev].
    + rewrite list_elem_of_singleton. split; [intros ->; split; constructor|]. intros [H _]. now inversion H.
    + split; [easy|]. intros [(k & y & -> & _ & Hy)%Forall2_snoc_l _]. discriminate Hy.
  - destruct image as [|kind image]; cbn [embeddings_rev rev].
    { rewrite list_elem_of_singleton. split; [intros ->; split; constructor|]. intros [H _]. now inversion H. }
    rewrite elem_of_app, IH. cbn [rev]. split.
    + intros [He|Hm]; [apply embeds_more; [eapply embeds_below, He|exact He]|]. destruct (decide (kind = offered)) as [->|]; [|easy].
      apply list_elem_of_fmap in Hm as (q & -> & Hq%IH). pose proof (embeds_below _ _ _ Hq) as Hb. destruct (proj2 (embeds_more _ _ offered _ Hb) Hq) as [H1 H2].
      split; [apply Forall2_app; [exact H1|constructor; [|constructor]]|apply sorted_snoc; split; [easy|now rewrite length_rev in Hb]].
      rewrite lookup_app_r, length_rev, Nat.sub_diag by (rewrite length_rev; lia). reflexivity.
    + intros He. pose proof He as [(q & j & -> & Hq & Hj)%Forall2_snoc_l Hs]. apply sorted_snoc in Hs as [Hs Hlt].
      destruct (decide (j = length schema)) as [->|Hne].
      * right. rewrite lookup_app_r, length_rev, Nat.sub_diag in Hj by (rewrite length_rev; lia). cbn in Hj. injection Hj as ->.
        rewrite decide_True by easy. apply list_elem_of_fmap. exists q. split; [easy|]. apply IH.
        apply (embeds_more _ _ kind); [now rewrite length_rev|easy].
      * left. apply (embeds_more _ _ offered); [|exact He]. apply lookup_lt_Some in Hj. rewrite length_app, length_rev in Hj. cbn in Hj.
        rewrite length_rev. apply Forall_app. split; [|constructor; [lia|constructor]]. eapply Forall_impl; [exact Hlt|]. cbn. lia.
Qed.

Lemma embeddings_NoDup : forall schema image, NoDup (embeddings_rev image schema).
Proof.
  induction schema as [|offered schema IH]; intros [|kind image]; cbn [embeddings_rev]; [apply NoDup_singleton|constructor|apply NoDup_singleton|].
  apply NoDup_app. split; [apply IH|]. split.
  - intros p Hp%embeddings_spec Hm. destruct (decide (kind = offered)); [|easy]. apply list_elem_of_fmap in Hm as (q & -> & _).
    apply embeds_below, Forall_app in Hp as [_ Hp%List.Forall_inv]. rewrite length_rev in Hp. lia.
  - destruct (decide (kind = offered)); [|constructor]. apply NoDup_fmap_2; [|apply IH]. intros a b E. now apply app_inj_tail in E as [-> _].
Qed.

Lemma embed_by_type_spec image schema p :
  embed_by_type image schema = Some p <-> embeds image schema p /\ forall q, embeds image schema q -> q = p.
Proof.
  assert (Hall : forall q, q ∈ embeddings_rev (rev image) (rev schema) <-> embeds image schema q).
  { intros q. rewrite embeddings_spec. now rewrite !rev_involutive. }
  unfold embed_by_type. rewrite ways_at_spec, !firstn_all by lia. split.
  - destruct (length schema <? length image)%nat; [easy|]. destruct (Z.eqb_spec (ways (rev image) (rev schema)) 1) as [Ew|]; [|easy].
    apply ways_one in Ew as [q Eq]. cbn [negb]. rewrite (walk_back_spec image schema _ _ q []) by (lia || now rewrite !firstn_all).
    rewrite app_nil_r. intros [= ->]. rewrite Eq in Hall. split; [apply Hall; now left|]. intros r Hr%Hall. now apply list_elem_of_singleton in Hr.
  - intros [He Hone]. assert (Eq : embeddings_rev (rev image) (rev schema) = [p]).
    { pose proof (embeddings_NoDup (rev schema) (rev image)) as Hn. apply Hall in He.
      destruct (embeddings_rev (rev image) (rev schema)) as [|q l]; [easy|]. assert (q = p) as -> by (apply Hone, Hall; now left).
      destruct l as [|r l]; [easy|]. assert (r = p) as -> by (apply Hone, Hall; right; now left). apply NoDup_cons in Hn as [Hn _]. destruct Hn. now left. }
    rewrite (proj2 (ways_one _ _)) by now exists p. cbn [Z.eqb Pos.eqb negb].
    rewrite (walk_back_spec image schema _ _ p []) by (lia || now rewrite !firstn_all). rewrite app_nil_r.
    destruct (Nat.ltb_spec (length schema) (length image)) as [Hlt|]; [|easy]. exfalso.
    pose proof (embeds_below _ _ _ He) as Hb. destruct He as [Hf Hs]. apply Forall2_length in Hf. pose proof (sorted_below _ _ Hs Hb). lia.
Qed.

(** ** Placement by ordinal is exact *)

(** The slot a column asks for. *)
Definition slot_of (column : SourceColumn) : nat := Z.to_nat (sc_ordinal column - 1).

Lemma place_ordinals_spec : forall columns index placement placement', place_ordinals index columns placement = Some placement' ->
  length placement' = length placement /\
  forall slot i, placement' !! slot = Some (Some i) <->
    placement !! slot = Some (Some i) \/
    exists column, (index <= i)%nat /\ columns !! (i - index)%nat = Some column /\ 1 <= sc_ordinal column /\ slot = slot_of column.
Proof.
  induction columns as [|column columns IH]; intros index placement placement'; cbn [place_ordinals].
  { intros [= <-]. split; [easy|]. intros slot i. split; [now left|]. now intros [H|(? & _ & ? & _)]. }
  destruct (Z.ltb_spec (sc_ordinal column) 1) as [|Ho]; [easy|]. fold (slot_of column).
  destruct (placement !! slot_of column) as [[|]|] eqn:Es; [easy| |easy]. intros E. apply IH in E as [Hl Hs].
  rewrite length_insert in Hl. split; [easy|]. intros slot i. rewrite Hs. clear Hs IH.
  assert (Hlt : (slot_of column < length placement)%nat) by now apply lookup_lt_Some in Es.
  assert (Htail : (exists c, (index <= i)%nat /\ (column :: columns) !! (i - index)%nat = Some c /\ 1 <= sc_ordinal c /\ slot = slot_of c) <->
    (i = index /\ slot = slot_of column) \/ exists c, (S index <= i)%nat /\ columns !! (i - S index)%nat = Some c /\ 1 <= sc_ordinal c /\ slot = slot_of c).
  { split.
    - intros (c & Hi & Hc & H1 & H2). destruct (decide (i = index)) as [->|]; [left; rewrite Nat.sub_diag in Hc; now injection Hc as ->|].
      right. exists c. split; [lia|]. replace (i - index)%nat with (S (i - S index)) in Hc by lia. easy.
    - intros [[-> ->]|(c & Hi & Hc & H)]; [exists column; rewrite Nat.sub_diag; easy|]. exists c. split; [lia|].
      replace (i - index)%nat with (S (i - S index)) by lia. easy. }
  rewrite Htail. destruct (decide (slot = slot_of column)) as [->|Hne].
  - rewrite list_lookup_insert_eq, Es by easy. split; [intros [[= ->]|H]; [right; now left|right; now right]|].
    intros [H|[[-> _]|H]]; [easy|now left|now right].
  - rewrite list_lookup_insert_ne by easy. split; [intros [H|H]; [now left|right; now right]|intros [H|[[_ H]|H]]; [now left|easy|now right]].
Qed.

Lemma ordinal_placement_spec table n placement : ordinal_placement table n = Some placement -> 0 <= n ->
  len placement = n /\
  forall slot i, placement !! slot = Some (Some i) <->
    exists column, tbl_columns table !! i = Some column /\ 1 <= sc_ordinal column /\ slot = slot_of column.
Proof.
  unfold ordinal_placement. destruct (_ || _) eqn:E; [easy|]. apply orb_false_iff in E as [_ E%negb_false_iff%Z.eqb_eq].
  intros (Hl & Hs)%place_ordinals_spec Hn. rewrite repeat_length in Hl. split; [unfold len; lia|]. intros slot i. rewrite Hs. split.
  - intros [Hr|(c & _ & Hc & H)]; [|rewrite Nat.sub_0_r in Hc; eauto]. exfalso. apply list_elem_of_lookup_2, list_elem_of_In, repeat_spec in Hr. easy.
  - intros (c & Hc & H). right. exists c. rewrite Nat.sub_0_r. split; [lia|easy].
Qed.

(** An ordinal placement puts every column of the schema somewhere. *)
Lemma place_ordinals_all columns : forall index placement placement', place_ordinals index columns placement = Some placement' ->
  Forall (fun column => 1 <= sc_ordinal column) columns.
Proof.
  induction columns as [|column columns IH]; intros index placement placement'; cbn [place_ordinals]; [constructor|].
  destruct (Z.ltb_spec (sc_ordinal column) 1) as [|Ho]; [easy|]. destruct (placement !! _) as [[|]|]; [easy| |easy]. intros E. constructor; [easy|]. eapply IH, E.
Qed.

(** ** Alignments are sound *)

Lemma position_spec {A} (p : A -> bool) l i : position p l = Some i -> exists x, l !! i = Some x /\ p x = true.
Proof.
  revert i. induction l as [|x l IH]; intros i; cbn [position]; [easy|]. destruct (p x) eqn:Ep; [intros [= <-]; now exists x|].
  destruct (position p l) as [j|]; [|easy]. intros [= <-]. now apply IH.
Qed.

Lemma all_some_length {A} (l : list (option A)) l' : all_some l = Some l' -> length l' = length l.
Proof.
  revert l'. induction l as [|[a|] l IH]; intros l'; cbn [all_some]; [now intros [= <-]| |easy].
  destruct (all_some l) as [rest|]; [|easy]. intros [= <-]. cbn. now rewrite (IH rest).
Qed.

Lemma absent_column_spec table targets : forall columns index, absent_column table targets index columns = None ->
  forall i column, columns !! i = Some column ->
  Some (index + i)%nat ∈ targets \/ (sc_nullable column = true /\ is_key_column table column = false).
Proof.
  induction columns as [|c columns IH]; intros index; cbn [absent_column]; [easy|].
  destruct (existsb _ targets) eqn:Ex.
  - intros E [|i] column Hc; cbn in Hc; [|rewrite Nat.add_succ_r; exact (IH (S index) E i column Hc)].
    injection Hc as <-. left. apply existsb_exists in Ex as (t & Ht & E2%bool_decide_eq_true). subst t. rewrite Nat.add_0_r. now apply list_elem_of_In.
  - destruct (sc_nullable c) eqn:En; cbn [negb]; [|easy]. destruct (is_key_column table c) eqn:Ek; [easy|].
    intros E [|i] column Hc; cbn in Hc; [|rewrite Nat.add_succ_r; exact (IH (S index) E i column Hc)]. injection Hc as <-. now right.
Qed.

(** What an alignment may rest on: one target for each column of the image, every target a
    column of the schema, and no column left out that is NOT NULL or in the key. *)
Definition alignment_sound (table : SourceTable) (image_columns : Z) (alignment : RowAlignment) : Prop :=
  match alignment with
  | Positional => image_columns = len (tbl_columns table)
  | ByName targets =>
      len targets = image_columns /\
      (forall i, Some i ∈ targets -> (i < length (tbl_columns table))%nat) /\
      forall i column, tbl_columns table !! i = Some column ->
        Some i ∈ targets \/ (sc_nullable column = true /\ is_key_column table column = false)
  end.

Lemma ordinal_alignment table n placement : 0 <= n -> ordinal_placement table n = Some placement -> alignment_sound table n (ByName placement).
Proof.
  intros Hn E. destruct (ordinal_placement_spec _ _ _ E Hn) as [Hl Hs]. cbn. split_and!; [easy|..].
  - intros i (slot & Hi)%list_elem_of_lookup. apply Hs in Hi as (column & Hc & _). now apply lookup_lt_Some in Hc.
  - intros i column Hc. left. unfold ordinal_placement in E. destruct (_ || _); [easy|]. apply place_ordinals_all in E.
    eapply list_elem_of_lookup_2, Hs. exists column. split_and!; [easy| |reflexivity]. exact (Forall_lookup_1 _ _ _ _ E Hc).
Qed.

Lemma placed_alignment table map_ names targets : 0 <= tm_columns_count map_ ->
  (if len names =? tm_columns_count map_ then Some (map (fun name => position (column_named name) (tbl_columns table)) names)
   else option_map (map Some) (type_placement table map_)) = Some targets ->
  len targets = tm_columns_count map_ /\ forall i, Some i ∈ targets -> (i < length (tbl_columns table))%nat.
Proof.
  intros Hn. destruct (Z.eqb_spec (len names) (tm_columns_count map_)) as [E|_].
  - intros [= <-]. split; [unfold len in *; now rewrite length_map|]. intros i (name & Hi & _)%list_elem_of_fmap.
    symmetry in Hi. apply position_spec in Hi as (x & Hx & _). now apply lookup_lt_Some in Hx.
  - unfold type_placement. destruct (all_some (map (tm_column_type map_) _)) as [image|] eqn:Ei; [|easy]. cbn [mbind option_bind].
    destruct (all_some (map binlog_column_type _)) as [schema|] eqn:Es; [|easy]. cbn [mbind option_bind].
    destruct (embed_by_type image schema) as [p|] eqn:Ep; [|easy]. intros [= <-]. apply embed_by_type_spec in Ep as [Hp _].
    apply all_some_length in Ei, Es. rewrite length_map in Ei, Es. rewrite length_seq in Ei. split.
    + destruct Hp as [Hf _]. apply Forall2_length in Hf. unfold len. rewrite length_map. lia.
    + intros i (j & [= ->] & Hj)%list_elem_of_fmap. apply embeds_below in Hp. rewrite List.Forall_forall in Hp. rewrite <- Es. apply Hp. now apply list_elem_of_In.
Qed.

(** ** Properties *)

(** C22. Row images that name nothing are placed by their column types exactly when the types
    leave one way: the placement found keeps the order and agrees in every type, no other
    placement does, and wherever there is one such placement it is found. *)
Theorem types_place_uniquely image schema p :
  embed_by_type image schema = Some p <-> embeds image schema p /\ forall q, embeds image schema q -> q = p.
Proof. apply embed_by_type_spec. Qed.

(** C23. An alignment that resolves has one target for each column of the image, names columns of
    the schema only, and leaves out no column that must have a value; the ordinals the probe
    recorded place each column in its own slot. *)
Theorem alignments_sound table map_ unknown alignment : 0 <= tm_columns_count map_ ->
  resolve table map_ unknown = Ok alignment -> alignment_sound table (tm_columns_count map_) alignment /\
  forall placement, ordinal_placement table (tm_columns_count map_) = Some placement ->
    forall slot i, placement !! slot = Some (Some i) <->
      exists column, tbl_columns table !! i = Some column /\ 1 <= sc_ordinal column /\ slot = slot_of column.
Proof.
  intros Hn E. split; [|intros placement Ep; now apply (ordinal_placement_spec _ _ _ Ep)]. revert E. unfold resolve.
  destruct (Z.eqb_spec (tm_columns_count map_) (len (tbl_columns table))) as [Hw|_]; [now intros [= <-]|].
  destruct (ordinal_placement table _) as [placement|] eqn:Ep; [intros [= <-]; now apply ordinal_alignment|].
  destruct (tm_names map_) as [names|]; [|easy]. cbv zeta.
  match goal with |- context [if len names =? ?c then ?a else ?b] => destruct (if len names =? c then a else b) as [targets|] eqn:Et; [|easy] end.
  apply placed_alignment in Et as [Hl Hi]; [|easy]. 
  match goal with |- context [match ?x with Some name => Err (NotTracked name) | None => _ end] => destruct x; [easy|] end.
  destruct (absent_column _ _ _ _) eqn:Ea; [easy|]. intros [= <-]. split_and!; [easy..|]. now apply (absent_column_spec _ _ _ 0).
Qed.

Definition example_column (name : string) (data_type : string) (nullable : bool) (ordinal : Z) : SourceColumn := {|
  sc_name := ascii name; sc_mysql_data_type := ascii data_type; sc_mysql_column_type := ascii data_type; sc_pintail_type := DInt64;
  sc_nullable := nullable; sc_character_set := None; sc_ordinal := ordinal |}.

(** A table that gained a nullable column in the middle, and an image from before that. *)
Definition example_table : SourceTable := {|
  tbl_name := ascii "t"; tbl_columns := [example_column "id" "bigint" false 0; example_column "note" "varchar" true 0; example_column "n" "int" false 0];
  tbl_key_mode := KMPrimary; tbl_key_columns := [ascii "ID"]; tbl_source_column_count := 0 |}.
Definition example_map : TableMap := {|
  tm_columns_count := 2; tm_names := Ok [];
  tm_column_type n := match n with 0 => Some MYSQL_TYPE_LONGLONG | 1 => Some MYSQL_TYPE_LONG | _ => None end%nat |}.

Lemma alignments_sound_witness :
  resolve example_table example_map RejectUnknown = Ok (ByName [Some 0; Some 2]%nat) /\
  alignment_sound example_table 2 (ByName [Some 0; Some 2]%nat).
Proof.
  split; [vm_compute; reflexivity|].
  apply (alignments_sound example_table example_map RejectUnknown); [easy|vm_compute; reflexivity].
Defined.
