(* ===== verification/Charset.v ===== *)
(** * Character sets ([src/crates/pintail-types/src/charset.rs])

    The conversions between text and the bytes of a character set.  A Rust string is the
    list of its characters here, each a Unicode scalar value; [encode_utf8] and
    [next_scalar] are its UTF-8 form.  [charsets_replace_only] states what a round trip
    through a character set does to any text, [charset_bytes_kept] that the single-byte
    sets keep every byte, and [prefixes_decoded] what is read of broken input. *)

From Stdlib Require Import ZArith Lia String.
From stdpp Require Import prelude list.
From coqutil Require Import Byte.
From S2P Require Import Prelude.
From S2P Require Import Types.
From S2P Require Import Text.
From S2P Require Import Statements.

#[local] Open Scope Z_scope.

(** ** Unicode *)

(** A [char]: any code point but the surrogates. *)
Definition is_scalar (c : Z) : bool := (0 <=? c) && (c <? 0x110000) && negb ((0xd800 <=? c) && (c <? 0xe000)).

(** [char::from_u32]. *)
Definition char_from_u32 (c : Z) : option Z := if is_scalar c then Some c else None.

(** [char::encode_utf8]. *)
Definition encode_utf8 (c : Z) : list byte :=
  map byte.of_Z
    (if c <? 0x80 then [c]
     else if c <? 0x800 then [0xc0 + c / 64; 0x80 + c mod 64]
     else if c <? 0x10000 then [0xe0 + c / 4096; 0x80 + c / 64 mod 64; 0x80 + c mod 64]
     else [0xf0 + c / 262144; 0x80 + c / 4096 mod 64; 0x80 + c / 64 mod 64; 0x80 + c mod 64]).

Definition utf8_of (text : list Z) : list byte := flat_map encode_utf8 text.

(** The bytes a second byte may be in, by the first one. *)
Definition second_ok (b0 b1 : Z) : bool :=
  if b0 =? 0xe0 then (0xa0 <=? b1) && (b1 <=? 0xbf)
  else if b0 =? 0xed then (0x80 <=? b1) && (b1 <=? 0x9f)
  else if b0 =? 0xf0 then (0x90 <=? b1) && (b1 <=? 0xbf)
  else if b0 =? 0xf4 then (0x80 <=? b1) && (b1 <=? 0x8f)
  else (0x80 <=? b1) && (b1 <=? 0xbf).
Definition continues (b : Z) : bool := (0x80 <=? b) && (b <=? 0xbf).

(** The first character of UTF-8 bytes, with the bytes after it. *)
Definition next_scalar (bytes : list byte) : option (Z * list byte) :=
  match bytes with
  | [] => None
  | b0 :: r0 =>
      let b0 := byte.unsigned b0 in
      if b0 <? 0x80 then Some (b0, r0)
      else if (b0 <? 0xc2) || (0xf4 <? b0) then None
      else
        match r0 with
        | [] => None
        | b1 :: r1 =>
            let b1 := byte.unsigned b1 in
            if negb (second_ok b0 b1) then None
            else if b0 <? 0xe0 then Some ((b0 - 0xc0) * 64 + (b1 - 0x80), r1)
            else
              match r1 with
              | [] => None
              | b2 :: r2 =>
                  let b2 := byte.unsigned b2 in
                  if negb (continues b2) then None
                  else if b0 <? 0xf0 then Some ((b0 - 0xe0) * 4096 + (b1 - 0x80) * 64 + (b2 - 0x80), r2)
                  else
                    match r2 with
                    | [] => None
                    | b3 :: r3 =>
                        let b3 := byte.unsigned b3 in
                        if negb (continues b3) then None
                        else Some ((b0 - 0xf0) * 262144 + (b1 - 0x80) * 4096 + (b2 - 0x80) * 64 + (b3 - 0x80), r3)
                    end
              end
        end
  end.

(** The characters before the first byte that is not UTF-8, and the bytes from it on. *)
Fixpoint scalars (fuel : nat) (bytes : list byte) : list Z * list byte :=
  match fuel with
  | O => ([], bytes)
  | S fuel =>
      match next_scalar bytes with
      | None => ([], bytes)
      | Some (c, rest) => let '(text, rest) := scalars fuel rest in (c :: text, rest)
      end
  end.

(** [str::from_utf8], as the characters of the string. *)
Definition from_utf8 (bytes : list byte) : option (list Z) :=
  let '(text, rest) := scalars (length bytes) bytes in match rest with [] => Some text | _ => None end.

(** [utf8_prefix]. *)
Definition utf8_prefix (bytes : list byte) : list byte :=
  let '(_, rest) := scalars (length bytes) bytes in take (length bytes - length rest) bytes.

(** ** UTF-16 *)

Definition encode_utf16 (c : Z) : list Z :=
  if c <? 0x10000 then [c] else [0xd800 + (c - 0x10000) / 1024; 0xdc00 + (c - 0x10000) mod 1024].

Definition is_high (u : Z) : bool := (0xd800 <=? u) && (u <? 0xdc00).
Definition is_low (u : Z) : bool := (0xdc00 <=? u) && (u <? 0xe000).

(** [char::decode_utf16]: [None] for a surrogate that has no partner. *)
Fixpoint decode_utf16 (units : list Z) : list (option Z) :=
  match units with
  | [] => []
  | u :: rest =>
      if is_high u then
        match rest with
        | v :: rest' => if is_low v then Some (0x10000 + (u - 0xd800) * 1024 + (v - 0xdc00)) :: decode_utf16 rest' else None :: decode_utf16 rest
        | [] => [None]
        end
      else if is_low u then None :: decode_utf16 rest
      else Some u :: decode_utf16 rest
  end.

(** [collect::<Option<_>>] and [map_while]. *)
Fixpoint collect {A} (l : list (option A)) : option (list A) :=
  match l with
  | [] => Some []
  | None :: _ => None
  | Some a :: l => match collect l with Some rest => Some (a :: rest) | None => None end
  end.
Fixpoint map_while {A} (l : list (option A)) : list A :=
  match l with Some a :: l => a :: map_while l | _ => [] end.

(** ** Tables *)

Definition LATIN1_EXTENDED : list Z := [
  0x20ac; 0x81; 0x201a; 0x192; 0x201e; 0x2026; 0x2020; 0x2021; 0x2c6; 0x2030; 0x160; 0x2039; 0x152; 0x8d; 0x17d; 0x8f;
  0x90; 0x2018; 0x2019; 0x201c; 0x201d; 0x2022; 0x2013; 0x2014; 0x2dc; 0x2122; 0x161; 0x203a; 0x153; 0x9d; 0x17e; 0x178].

Definition KOI8R_EXTENDED : list Z := [
  0x2500; 0x2502; 0x250c; 0x2510; 0x2514; 0x2518; 0x251c; 0x2524;
  0x252c; 0x2534; 0x253c; 0x2580; 0x2584; 0x2588; 0x258c; 0x2590;
  0x2591; 0x2592; 0x2593; 0x2320; 0x25a0; 0x2219; 0x221a; 0x2248;
  0x2264; 0x2265; 0xa0; 0x2321; 0xb0; 0xb2; 0xb7; 0xf7;
  0x2550; 0x2551; 0x2552; 0x451; 0x2553; 0x2554; 0x2555; 0x2556;
  0x2557; 0x2558; 0x2559; 0x255a; 0x255b; 0x255c; 0x255d; 0x255e;
  0x255f; 0x2560; 0x2561; 0x401; 0x2562; 0x2563; 0x2564; 0x2565;
  0x2566; 0x2567; 0x2568; 0x2569; 0x256a; 0x256b; 0x256c; 0xa9;
  0x44e; 0x430; 0x431; 0x446; 0x434; 0x435; 0x444; 0x433;
  0x445; 0x438; 0x439; 0x43a; 0x43b; 0x43c; 0x43d; 0x43e;
  0x43f; 0x44f; 0x440; 0x441; 0x442; 0x443; 0x436; 0x432;
  0x44c; 0x44b; 0x437; 0x448; 0x44d; 0x449; 0x447; 0x44a;
  0x42e; 0x410; 0x411; 0x426; 0x414; 0x415; 0x424; 0x413;
  0x425; 0x418; 0x419; 0x41a; 0x41b; 0x41c; 0x41d; 0x41e;
  0x41f; 0x42f; 0x420; 0x421; 0x422; 0x423; 0x416; 0x412;
  0x42c; 0x42b; 0x417; 0x428; 0x42d; 0x429; 0x427; 0x42a].

Definition LATIN2_EXTENDED : list Z := [
  0x80; 0x81; 0x82; 0x83; 0x84; 0x85; 0x86; 0x87;
  0x88; 0x89; 0x8a; 0x8b; 0x8c; 0x8d; 0x8e; 0x8f;
  0x90; 0x91; 0x92; 0x93; 0x94; 0x95; 0x96; 0x97;
  0x98; 0x99; 0x9a; 0x9b; 0x9c; 0x9d; 0x9e; 0x9f;
  0xa0; 0x104; 0x2d8; 0x141; 0xa4; 0x13d; 0x15a; 0xa7;
  0xa8; 0x160; 0x15e; 0x164; 0x179; 0xad; 0x17d; 0x17b;
  0xb0; 0x105; 0x2db; 0x142; 0xb4; 0x13e; 0x15b; 0x2c7;
  0xb8; 0x161; 0x15f; 0x165; 0x17a; 0x2dd; 0x17e; 0x17c;
  0x154; 0xc1; 0xc2; 0x102; 0xc4; 0x139; 0x106; 0xc7;
  0x10c; 0xc9; 0x118; 0xcb; 0x11a; 0xcd; 0xce; 0x10e;
  0x110; 0x143; 0x147; 0xd3; 0xd4; 0x150; 0xd6; 0xd7;
  0x158; 0x16e; 0xda; 0x170; 0xdc; 0xdd; 0x162; 0xdf;
  0x155; 0xe1; 0xe2; 0x103; 0xe4; 0x13a; 0x107; 0xe7;
  0x10d; 0xe9; 0x119; 0xeb; 0x11b; 0xed; 0xee; 0x10f;
  0x111; 0x144; 0x148; 0xf3; 0xf4; 0x151; 0xf6; 0xf7;
  0x159; 0x16f; 0xfa; 0x171; 0xfc; 0xfd; 0x163; 0x2d9].

Definition LATIN2_UPPER : list Z := [
  0x00; 0x01; 0x02; 0x03; 0x04; 0x05; 0x06; 0x07; 0x08; 0x09; 0x0a; 0x0b; 0x0c; 0x0d; 0x0e; 0x0f;
  0x10; 0x11; 0x12; 0x13; 0x14; 0x15; 0x16; 0x17; 0x18; 0x19; 0x1a; 0x1b; 0x1c; 0x1d; 0x1e; 0x1f;
  0x20; 0x21; 0x22; 0x23; 0x24; 0x25; 0x26; 0x27; 0x28; 0x29; 0x2a; 0x2b; 0x2c; 0x2d; 0x2e; 0x2f;
  0x30; 0x31; 0x32; 0x33; 0x34; 0x35; 0x36; 0x37; 0x38; 0x39; 0x3a; 0x3b; 0x3c; 0x3d; 0x3e; 0x3f;
  0x40; 0x41; 0x42; 0x43; 0x44; 0x45; 0x46; 0x47; 0x48; 0x49; 0x4a; 0x4b; 0x4c; 0x4d; 0x4e; 0x4f;
  0x50; 0x51; 0x52; 0x53; 0x54; 0x55; 0x56; 0x57; 0x58; 0x59; 0x5a; 0x5b; 0x5c; 0x5d; 0x5e; 0x5f;
  0x60; 0x41; 0x42; 0x43; 0x44; 0x45; 0x46; 0x47; 0x48; 0x49; 0x4a; 0x4b; 0x4c; 0x4d; 0x4e; 0x4f;
  0x50; 0x51; 0x52; 0x53; 0x54; 0x55; 0x56; 0x57; 0x58; 0x59; 0x5a; 0x7b; 0x7c; 0x7d; 0x7e; 0x7f;
  0x80; 0x81; 0x82; 0x83; 0x84; 0x85; 0x86; 0x87; 0x88; 0x89; 0x8a; 0x8b; 0x8c; 0x8d; 0x8e; 0x8f;
  0x90; 0x91; 0x92; 0x93; 0x94; 0x95; 0x96; 0x97; 0x98; 0x99; 0x9a; 0x9b; 0x9c; 0x9d; 0x9e; 0x9f;
  0xa0; 0xa1; 0xa2; 0xa3; 0xa4; 0xa5; 0xa6; 0xa7; 0xa8; 0xa9; 0xaa; 0xab; 0xac; 0xad; 0xae; 0xaf;
  0xb0; 0xa1; 0xb2; 0xa3; 0xb4; 0xa5; 0xa6; 0xb7; 0xb8; 0xa9; 0xaa; 0xab; 0xac; 0xbd; 0xae; 0xaf;
  0xc0; 0xc1; 0xc2; 0xc3; 0xc4; 0xc5; 0xc6; 0xc7; 0xc8; 0xc9; 0xca; 0xcb; 0xcc; 0xcd; 0xce; 0xcf;
  0xd0; 0xd1; 0xd2; 0xd3; 0xd4; 0xd5; 0xd6; 0xd7; 0xd8; 0xd9; 0xda; 0xdb; 0xdc; 0xdd; 0xde; 0xdf;
  0xc0; 0xc1; 0xc2; 0xc3; 0xc4; 0xc5; 0xc6; 0xc7; 0xc8; 0xc9; 0xca; 0xcb; 0xcc; 0xcd; 0xce; 0xcf;
  0xd0; 0xd1; 0xd2; 0xd3; 0xd4; 0xd5; 0xd6; 0xf7; 0xd8; 0xd9; 0xda; 0xdb; 0xdc; 0xdd; 0xde; 0xff].

Definition LATIN2_LOWER : list Z := [
  0x00; 0x01; 0x02; 0x03; 0x04; 0x05; 0x06; 0x07; 0x08; 0x09; 0x0a; 0x0b; 0x0c; 0x0d; 0x0e; 0x0f;
  0x10; 0x11; 0x12; 0x13; 0x14; 0x15; 0x16; 0x17; 0x18; 0x19; 0x1a; 0x1b; 0x1c; 0x1d; 0x1e; 0x1f;
  0x20; 0x21; 0x22; 0x23; 0x24; 0x25; 0x26; 0x27; 0x28; 0x29; 0x2a; 0x2b; 0x2c; 0x2d; 0x2e; 0x2f;
  0x30; 0x31; 0x32; 0x33; 0x34; 0x35; 0x36; 0x37; 0x38; 0x39; 0x3a; 0x3b; 0x3c; 0x3d; 0x3e; 0x3f;
  0x40; 0x61; 0x62; 0x63; 0x64; 0x65; 0x66; 0x67; 0x68; 0x69; 0x6a; 0x6b; 0x6c; 0x6d; 0x6e; 0x6f;
  0x70; 0x71; 0x72; 0x73; 0x74; 0x75; 0x76; 0x77; 0x78; 0x79; 0x7a; 0x5b; 0x5c; 0x5d; 0x5e; 0x5f;
  0x60; 0x61; 0x62; 0x63; 0x64; 0x65; 0x66; 0x67; 0x68; 0x69; 0x6a; 0x6b; 0x6c; 0x6d; 0x6e; 0x6f;
  0x70; 0x71; 0x72; 0x73; 0x74; 0x75; 0x76; 0x77; 0x78; 0x79; 0x7a; 0x7b; 0x7c; 0x7d; 0x7e; 0x7f;
  0x80; 0x81; 0x82; 0x83; 0x84; 0x85; 0x86; 0x87; 0x88; 0x89; 0x8a; 0x8b; 0x8c; 0x8d; 0x8e; 0x8f;
  0x90; 0x91; 0x92; 0x93; 0x94; 0x95; 0x96; 0x97; 0x98; 0x99; 0x9a; 0x9b; 0x9c; 0x9d; 0x9e; 0x9f;
  0xa0; 0xb1; 0xa2; 0xb3; 0xa4; 0xb5; 0xb6; 0xa7; 0xa8; 0xb9; 0xba; 0xbb; 0xbc; 0xad; 0xbe; 0xbf;
  0xb0; 0xb1; 0xb2; 0xb3; 0xb4; 0xb5; 0xb6; 0xb7; 0xb8; 0xb9; 0xba; 0xbb; 0xbc; 0xbd; 0xbe; 0xbf;
  0xe0; 0xe1; 0xe2; 0xe3; 0xe4; 0xe5; 0xe6; 0xe7; 0xe8; 0xe9; 0xea; 0xeb; 0xec; 0xed; 0xee; 0xef;
  0xf0; 0xf1; 0xf2; 0xf3; 0xf4; 0xf5; 0xf6; 0xd7; 0xf8; 0xf9; 0xfa; 0xfb; 0xfc; 0xfd; 0xfe; 0xdf;
  0xe0; 0xe1; 0xe2; 0xe3; 0xe4; 0xe5; 0xe6; 0xe7; 0xe8; 0xe9; 0xea; 0xeb; 0xec; 0xed; 0xee; 0xef;
  0xf0; 0xf1; 0xf2; 0xf3; 0xf4; 0xf5; 0xf6; 0xf7; 0xf8; 0xf9; 0xfa; 0xfb; 0xfc; 0xfd; 0xfe; 0xff].

(** ** Character sets *)

Inductive CharacterSet : Type :=
| Utf8Mb4 | Latin1 | Latin2 | Tis620 | Koi8R | Utf8Mb3 | Ucs2 | Utf16 | Utf16Le | Utf32.

#[export] Instance CharacterSet_dec : EqDecision CharacterSet.
Proof. solve_decision. Defined.

Definition charset_from_name (name : list byte) : option CharacterSet :=
  let name := map to_ascii_lowercase name in
  let is_ (s : string) := bytes_eqb name (ascii s) in
  if is_ "utf8mb4"%string then Some Utf8Mb4
  else if is_ "latin1"%string then Some Latin1
  else if is_ "latin2"%string then Some Latin2
  else if is_ "tis620"%string then Some Tis620
  else if is_ "koi8r"%string then Some Koi8R
  else if is_ "utf8"%string || is_ "utf8mb3"%string then Some Utf8Mb3
  else if is_ "ucs2"%string then Some Ucs2
  else if is_ "utf16"%string then Some Utf16
  else if is_ "utf16le"%string then Some Utf16Le
  else if is_ "utf32"%string then Some Utf32
  else None.

Definition default_collation (cs : CharacterSet) : list byte :=
  ascii match cs with
  | Utf8Mb4 => "utf8mb4_0900_ai_ci" | Latin1 => "latin1_swedish_ci" | Latin2 => "latin2_general_ci"
  | Tis620 => "tis620_thai_ci" | Koi8R => "koi8r_general_ci" | Utf8Mb3 => "utf8mb3_general_ci"
  | Ucs2 => "ucs2_general_ci" | Utf16 => "utf16_general_ci" | Utf16Le => "utf16le_general_ci"
  | Utf32 => "utf32_general_ci"
  end%string.

Definition minimum_width (cs : CharacterSet) : nat :=
  match cs with
  | Utf8Mb4 | Utf8Mb3 | Latin1 | Latin2 | Tis620 | Koi8R => 1
  | Ucs2 | Utf16 | Utf16Le => 2
  | Utf32 => 4
  end%nat.

Definition to_ascii_uppercase (b : byte) : byte := if byte_in 97 122 b then byte.of_Z (byte.unsigned b - 32) else b.

Definition single_byte_case (cs : CharacterSet) (bytes : list byte) (upper : bool) : option (list byte) :=
  match cs with
  | Tis620 => Some (map (fun b => if upper then to_ascii_uppercase b else to_ascii_lowercase b) bytes)
  | Latin2 =>
      let mapping := if upper then LATIN2_UPPER else LATIN2_LOWER in
      Some (map (fun b => byte.of_Z (nth (Z.to_nat (byte.unsigned b)) mapping 0)) bytes)
  | _ => None
  end.

(** ** Single bytes *)

Definition latin1_character (b : byte) : Z :=
  let u := byte.unsigned b in if (0x80 <=? u) && (u <=? 0x9f) then nth (Z.to_nat (u - 0x80)) LATIN1_EXTENDED 0 else u.

(** The place of a character in a table, counted from [from]. *)
Fixpoint find_at (c : Z) (table : list Z) (from : Z) : option Z :=
  match table with
  | [] => None
  | x :: table => if x =? c then Some from else find_at c table (from + 1)
  end.

Definition latin1_byte (c : Z) : option Z :=
  if ((0 <=? c) && (c <=? 0x7f)) || ((0xa0 <=? c) && (c <=? 0xff)) then Some c else find_at c LATIN1_EXTENDED 0x80.

Definition koi8r_character (b : byte) : Z :=
  let u := byte.unsigned b in if u <? 128 then u else nth (Z.to_nat (u - 128)) KOI8R_EXTENDED 0.

Definition latin2_character (b : byte) : Z :=
  let u := byte.unsigned b in if u <? 128 then u else nth (Z.to_nat (u - 128)) LATIN2_EXTENDED 0.

Definition tis620_character (b : byte) : Z :=
  let u := byte.unsigned b in
  if u <=? 0x9f then u
  else if ((0xa1 <=? u) && (u <=? 0xda)) || ((0xdf <=? u) && (u <=? 0xfb)) then u + 0x0d60
  else 0xfffd.

Definition question : Z := 63.

Definition tis620_byte (c : Z) : Z :=
  if c =? 0xfffd then 0xff
  else if (0 <=? c) && (c <=? 0x9f) then c
  else if ((0x0e01 <=? c) && (c <=? 0x0e3a)) || ((0x0e3f <=? c) && (c <=? 0x0e5b)) then c - 0x0d60
  else question.

(** ** Encoding and decoding *)

(** The bytes of one character. *)
Definition encode_char (cs : CharacterSet) (c : Z) : list byte :=
  let c := match cs with Ucs2 | Utf8Mb3 => if 0xffff <? c then question else c | _ => c end in
  match cs with
  | Latin1 => [byte.of_Z (default question (latin1_byte c))]
  | Tis620 => [byte.of_Z (tis620_byte c)]
  | Latin2 => [byte.of_Z (if c <? 128 then c else default question (find_at c LATIN2_EXTENDED 128))]
  | Koi8R => [byte.of_Z (if c <? 128 then c else default question (find_at c KOI8R_EXTENDED 128))]
  | Utf8Mb4 | Utf8Mb3 => encode_utf8 c
  | Ucs2 | Utf16 => flat_map (fun u => rev (to_le 2 u)) (encode_utf16 c)
  | Utf16Le => flat_map (fun u => to_le 2 u) (encode_utf16 c)
  | Utf32 => rev (to_le 4 c)
  end.

Definition encode (cs : CharacterSet) (text : list Z) : list byte := flat_map (encode_char cs) text.

(** [as_chunks::<2>().0] and [as_chunks::<4>().0]. *)
Fixpoint pairs (bytes : list byte) : list (list byte) :=
  match bytes with a :: b :: rest => [a; b] :: pairs rest | _ => [] end.
Fixpoint quads (bytes : list byte) : list (list byte) :=
  match bytes with a :: b :: c :: d :: rest => [a; b; c; d] :: quads rest | _ => [] end.

Definition code_units (cs : CharacterSet) (bytes : list byte) : list Z :=
  map (fun pair => from_le (match cs with Utf16Le => pair | _ => rev pair end)) (pairs bytes).

Definition is_multiple_of (n : Z) (bytes : list byte) : bool := len bytes mod n =? 0.

Definition decode (cs : CharacterSet) (bytes : list byte) : option (list Z) :=
  match cs with
  | Latin1 => Some (map latin1_character bytes)
  | Koi8R => Some (map koi8r_character bytes)
  | Latin2 => Some (map latin2_character bytes)
  | Tis620 => Some (map tis620_character bytes)
  | Utf8Mb4 => from_utf8 bytes
  | Utf8Mb3 => match from_utf8 bytes with Some text => if existsb (fun c => 0xffff <? c) text then None else Some text | None => None end
  | Ucs2 => if is_multiple_of 2 bytes then collect (map char_from_u32 (code_units cs bytes)) else None
  | Utf16 | Utf16Le => if is_multiple_of 2 bytes then collect (decode_utf16 (code_units cs bytes)) else None
  | Utf32 => if is_multiple_of 4 bytes then collect (map (fun part => char_from_u32 (from_le (rev part))) (quads bytes)) else None
  end.

(** [take_while]. *)
Fixpoint take_while {A} (p : A -> bool) (l : list A) : list A :=
  match l with x :: l => if p x then x :: take_while p l else [] | [] => [] end.

Definition decode_prefix (cs : CharacterSet) (bytes : list byte) : list Z :=
  match cs with
  | Latin1 => map latin1_character bytes
  | Koi8R => map koi8r_character bytes
  | Latin2 => map latin2_character bytes
  | Tis620 => map tis620_character bytes
  | Utf8Mb4 => default [] (from_utf8 (utf8_prefix bytes))
  | Utf8Mb3 => take_while (fun c => c <=? 0xffff) (default [] (from_utf8 (utf8_prefix bytes)))
  | Ucs2 => map_while (map char_from_u32 (code_units cs bytes))
  | Utf16 | Utf16Le => map_while (decode_utf16 (code_units cs bytes))
  | Utf32 => map_while (map (fun part => char_from_u32 (from_le (rev part))) (quads bytes))
  end.

(** [converted_bytes]. *)
Definition converted_bytes (cs : CharacterSet) (bytes : list byte) : option (list byte) :=
  let width := minimum_width cs in
  let padding := ((width - length bytes mod width) mod width)%nat in
  let bytes := repeat (byte.of_Z 0) padding ++ bytes in
  if negb (bool_decide (cs = Ucs2)) && match decode cs bytes with None => true | Some _ => false end then None else Some bytes.

(** ** UTF-8 reads back *)

Lemma byte_val z : 0 <= z < 256 -> byte.unsigned (byte.of_Z z) = z.
Proof. intros Hz. rewrite byte.unsigned_of_Z. unfold byte.wrap. now apply Z.mod_small. Qed.

Lemma byte_same b z : byte.unsigned b = z -> b = byte.of_Z z.
Proof. intros <-. symmetry. apply byte.of_Z_unsigned. Qed.

Ltac div_lia := Z.div_mod_to_equations; lia.

(** Comparisons of a goal that the ranges decide. *)
Ltac decide_ltb := repeat match goal with
  | |- context [?a <? ?b] => first [rewrite (proj2 (Z.ltb_lt a b)) by div_lia|rewrite (proj2 (Z.ltb_ge a b)) by div_lia]
  | |- context [?a <=? ?b] => first [rewrite (proj2 (Z.leb_le a b)) by div_lia|rewrite (proj2 (Z.leb_gt a b)) by div_lia]
  | |- context [?a =? ?b] => first [rewrite (proj2 (Z.eqb_eq a b)) by div_lia|rewrite (proj2 (Z.eqb_neq a b)) by div_lia]
  end; cbn [andb orb negb].

Lemma is_scalar_spec c : is_scalar c = true <-> (0 <= c < 0xd800 \/ 0xe000 <= c < 0x110000).
Proof.
  unfold is_scalar. rewrite !andb_true_iff, negb_true_iff, andb_false_iff, Z.leb_le, Z.ltb_lt, Z.leb_gt, Z.ltb_ge. lia.
Qed.

Lemma second_ok_spec b0 b1 : 0xc2 <= b0 <= 0xf4 ->
  second_ok b0 b1 = true <-> 0x80 <= b1 <= 0xbf /\ (b0 = 0xe0 -> 0xa0 <= b1) /\ (b0 = 0xed -> b1 <= 0x9f) /\ (b0 = 0xf0 -> 0x90 <= b1) /\ (b0 = 0xf4 -> b1 <= 0x8f).
Proof.
  intros Hb. unfold second_ok.
  destruct (Z.eqb_spec b0 0xe0); [|destruct (Z.eqb_spec b0 0xed); [|destruct (Z.eqb_spec b0 0xf0); [|destruct (Z.eqb_spec b0 0xf4)]]];
    rewrite andb_true_iff, !Z.leb_le; lia.
Qed.

Lemma continues_spec b : continues b = true <-> 0x80 <= b <= 0xbf.
Proof. unfold continues. rewrite andb_true_iff, !Z.leb_le. lia. Qed.

Lemma next_scalar_encode c rest : is_scalar c = true -> next_scalar (encode_utf8 c ++ rest) = Some (c, rest).
Proof.
  intros Hc%is_scalar_spec. unfold encode_utf8.
  destruct (Z.ltb_spec c 0x80); [|destruct (Z.ltb_spec c 0x800); [|destruct (Z.ltb_spec c 0x10000)]]; cbn [map app next_scalar]; cbv zeta;
    rewrite !byte_val by div_lia.
  - now decide_ltb.
  - rewrite (proj2 (second_ok_spec (0xc0 + c / 64) (0x80 + c mod 64) ltac:(div_lia))) by div_lia. decide_ltb. do 2 f_equal. div_lia.
  - rewrite (proj2 (second_ok_spec (0xe0 + c / 4096) (0x80 + c / 64 mod 64) ltac:(div_lia))) by div_lia.
    rewrite (proj2 (continues_spec (0x80 + c mod 64))) by div_lia. decide_ltb. do 2 f_equal. div_lia.
  - rewrite (proj2 (second_ok_spec (0xf0 + c / 262144) (0x80 + c / 4096 mod 64) ltac:(div_lia))) by div_lia.
    rewrite (proj2 (continues_spec (0x80 + c mod 64))), (proj2 (continues_spec (0x80 + c / 64 mod 64))) by div_lia. decide_ltb. do 2 f_equal. div_lia.
Qed.

Lemma bytes_val b z : byte.unsigned b = z -> byte.of_Z z = b.
Proof. intros <-. apply byte.of_Z_unsigned. Qed.

Lemma next_scalar_sound bytes c rest : next_scalar bytes = Some (c, rest) -> is_scalar c = true /\ bytes = encode_utf8 c ++ rest.
Proof.
  destruct bytes as [|b0 r0]; [easy|]. cbn [next_scalar]. cbv zeta. pose proof (byte.unsigned_range b0) as R0. rewrite is_scalar_spec. unfold encode_utf8.
  destruct (Z.ltb_spec (byte.unsigned b0) 0x80).
  { intros [= <- <-]. split; [lia|]. decide_ltb. cbn [map app]. now rewrite byte.of_Z_unsigned. }
  destruct (Z.ltb_spec (byte.unsigned b0) 0xc2); [easy|]. destruct (Z.ltb_spec 0xf4 (byte.unsigned b0)); [easy|]. cbn [orb].
  destruct r0 as [|b1 r1]; [easy|]. pose proof (byte.unsigned_range b1) as R1.
  destruct (second_ok _ _) eqn:E1; [|easy]. apply second_ok_spec in E1; [|lia]. cbn [negb]. destruct E1 as (S1 & S2 & S3 & S4 & S5).
  destruct (Z.ltb_spec (byte.unsigned b0) 0xe0).
  { intros [= <- <-]. split; [lia|]. decide_ltb. cbn [map app]. rewrite (bytes_val b0), (bytes_val b1) by div_lia. easy. }
  destruct r1 as [|b2 r2]; [easy|]. pose proof (byte.unsigned_range b2) as R2. destruct (continues (byte.unsigned b2)) eqn:E2; [|easy].
  apply continues_spec in E2. cbn [negb]. destruct (Z.ltb_spec (byte.unsigned b0) 0xf0).
  { intros [= <- <-]. split; [lia|]. decide_ltb. cbn [map app]. rewrite (bytes_val b0), (bytes_val b1), (bytes_val b2) by div_lia. easy. }
  destruct r2 as [|b3 r3]; [easy|]. pose proof (byte.unsigned_range b3) as R3. destruct (continues (byte.unsigned b3)) eqn:E3; [|easy].
  apply continues_spec in E3. cbn [negb]. intros [= <- <-]. split; [lia|]. decide_ltb. cbn [map app].
  rewrite (bytes_val b0), (bytes_val b1), (bytes_val b2), (bytes_val b3) by div_lia. easy.
Qed.

Definition all_scalars (text : list Z) : Prop := Forall (fun c => is_scalar c = true) text.

Lemma encode_utf8_nonempty c : (1 <= length (encode_utf8 c))%nat.
Proof. unfold encode_utf8. rewrite length_map. repeat case_match; cbn; lia. Qed.

Lemma scalars_text text rest : all_scalars text -> next_scalar rest = None -> forall fuel, (length text <= fuel)%nat ->
  scalars fuel (utf8_of text ++ rest) = (text, rest).
Proof.
  intros Ht Hr. induction Ht as [|c text Hc _ IH]; intros fuel Hf; cbn [utf8_of flat_map app].
  - destruct fuel; cbn [scalars]; [easy|]. now rewrite Hr.
  - destruct fuel as [|fuel]; [cbn in Hf; lia|]. cbn [scalars]. rewrite <- app_assoc, next_scalar_encode by easy. fold (utf8_of text). rewrite IH; [easy|cbn in Hf; lia].
Qed.

Lemma scalars_sound fuel : forall bytes text rest, scalars fuel bytes = (text, rest) -> (length bytes <= fuel)%nat ->
  bytes = utf8_of text ++ rest /\ all_scalars text /\ next_scalar rest = None.
Proof.
  induction fuel as [|fuel IH]; intros bytes text rest; cbn [scalars].
  { intros [= <- <-] Hl. destruct bytes; [|cbn in Hl; lia]. split_and!; [easy|constructor|easy]. }
  destruct (next_scalar bytes) as [[c r]|] eqn:E; [|intros [= <- <-] _; split_and!; [easy|constructor|easy]].
  destruct (scalars fuel r) as [text' rest'] eqn:Es. intros [= <- <-] Hl. apply next_scalar_sound in E as [Hc ->].
  pose proof (encode_utf8_nonempty c). rewrite length_app in Hl. destruct (IH _ _ _ Es ltac:(lia)) as (-> & Ht & Hn).
  split_and!; [cbn; now rewrite app_assoc|now constructor|easy].
Qed.

Lemma utf8_length text : (length text <= length (utf8_of text))%nat.
Proof. induction text as [|c text IH]; cbn; [lia|]. rewrite length_app. pose proof (encode_utf8_nonempty c). fold (utf8_of text). lia. Qed.

Lemma from_utf8_text text : all_scalars text -> from_utf8 (utf8_of text) = Some text.
Proof.
  intros Ht. unfold from_utf8. pose proof (scalars_text text [] Ht eq_refl (length (utf8_of text)) (utf8_length text)) as E.
  rewrite app_nil_r in E. now rewrite E.
Qed.

Lemma from_utf8_sound bytes text : from_utf8 bytes = Some text -> bytes = utf8_of text /\ all_scalars text.
Proof.
  unfold from_utf8. destruct (scalars (length bytes) bytes) as [t rest] eqn:E. destruct rest; [|easy]. intros [= <-].
  destruct (scalars_sound _ _ _ _ E (Nat.le_refl _)) as (-> & Ht & _). now rewrite app_nil_r.
Qed.

(** The characters of the longest prefix that is UTF-8, and what stops it. *)
Lemma utf8_prefix_text bytes : exists text rest, bytes = utf8_of text ++ rest /\ all_scalars text /\ next_scalar rest = None /\
  utf8_prefix bytes = utf8_of text /\ from_utf8 (utf8_prefix bytes) = Some text.
Proof.
  unfold utf8_prefix. destruct (scalars (length bytes) bytes) as [text rest] eqn:E. destruct (scalars_sound _ _ _ _ E (Nat.le_refl _)) as (Eb & Ht & Hn).
  exists text, rest. assert (Ep : take (length bytes - length rest) bytes = utf8_of text).
  { rewrite Eb, length_app, take_app_length'; [easy|lia]. }
  rewrite Ep. split_and!; [easy..|]. now apply from_utf8_text.
Qed.

(** ** UTF-16 and UTF-32 read back *)

Lemma decode_utf16_encode c units : is_scalar c = true -> decode_utf16 (encode_utf16 c ++ units) = Some c :: decode_utf16 units.
Proof.
  intros Hc%is_scalar_spec. unfold encode_utf16. destruct (Z.ltb_spec c 0x10000); cbn [app decode_utf16]; unfold is_high, is_low.
  - destruct Hc; [now decide_ltb|]. decide_ltb. destruct (Z.ltb_spec c 0xdc00); [lia|]. destruct (Z.ltb_spec c 0xe000); [lia|]. easy.
  - decide_ltb. do 2 f_equal. div_lia.
Qed.

Lemma encode_utf16_units c : is_scalar c = true -> Forall (fun u => 0 <= u < 2 ^ 16) (encode_utf16 c).
Proof. intros Hc%is_scalar_spec. unfold encode_utf16. destruct (Z.ltb_spec c 0x10000); repeat constructor; div_lia. Qed.

Lemma to_le_2 u : exists a b, to_le 2 u = [a; b].
Proof. eexists _, _. reflexivity. Qed.

Lemma code_units_of cs units : Forall (fun u => 0 <= u < 2 ^ 16) units ->
  code_units cs (flat_map (fun u => match cs with Utf16Le => to_le 2 u | _ => rev (to_le 2 u) end) units) = units.
Proof.
  intros Hu. unfold code_units. induction Hu as [|u units Hu _ IH]; [easy|]. cbn [flat_map].
  assert (E : from_le (to_le 2 u) = u) by (rewrite from_to_le; now apply Z.mod_small).
  destruct (to_le_2 u) as (a & b & Eu). rewrite Eu in *. destruct cs; cbn [rev app pairs map]; rewrite IH, E; reflexivity.
Qed.

Lemma code_units_text cs text : (cs = Ucs2 \/ cs = Utf16 \/ cs = Utf16Le) -> all_scalars text -> (cs = Ucs2 -> Forall (fun c => c <= 0xffff) text) ->
  code_units cs (encode cs text) = flat_map encode_utf16 text /\ is_multiple_of 2 (encode cs text) = true.
Proof.
  intros Hcs Ht Hb.
  assert (E : encode cs text = flat_map (fun u => match cs with Utf16Le => to_le 2 u | _ => rev (to_le 2 u) end) (flat_map encode_utf16 text)).
  { unfold encode. induction Ht as [|c text Hc _ IH]; [easy|]. cbn [flat_map]. rewrite flat_map_app, IH; [f_equal|intros Ec; specialize (Hb Ec); now inversion Hb].
    unfold encode_char. destruct Hcs as [->|[->| ->]]; [|easy..]. specialize (Hb eq_refl). apply Forall_cons in Hb as [Hb _].
    now rewrite (proj2 (Z.ltb_ge 0xffff c)) by lia. }
  assert (Hu : Forall (fun u => 0 <= u < 2 ^ 16) (flat_map encode_utf16 text)).
  { clear -Ht. induction Ht as [|c text Hc _ IH]; [constructor|]. cbn [flat_map]. apply Forall_app. split; [now apply encode_utf16_units|easy]. }
  rewrite E. split; [now apply code_units_of|]. clear. unfold is_multiple_of. apply Z.eqb_eq.
  induction (flat_map encode_utf16 text) as [|u units IH]; [easy|]. cbn [flat_map]. rewrite len_app. destruct (to_le_2 u) as (a & b & ->).
  replace (len (match cs with Utf16Le => [a; b] | _ => rev [a; b] end)) with 2 by now destruct cs. div_lia.
Qed.

Lemma collect_some {A} (l : list A) : collect (map Some l) = Some l.
Proof. induction l as [|x l IH]; cbn; [easy|]. now rewrite IH. Qed.

Lemma decode_utf16_text text : all_scalars text -> decode_utf16 (flat_map encode_utf16 text) = map Some text.
Proof. induction 1 as [|c text Hc _ IH]; [easy|]. cbn [flat_map map]. now rewrite decode_utf16_encode, IH by easy. Qed.

Lemma units_are_chars text : Forall (fun c => c <= 0xffff) text -> flat_map encode_utf16 text = text.
Proof. induction 1 as [|c text Hc _ IH]; [easy|]. cbn [flat_map]. unfold encode_utf16 at 1. rewrite (proj2 (Z.ltb_lt c 0x10000)) by lia. now rewrite IH. Qed.

Lemma chars_checked text : all_scalars text -> map char_from_u32 text = map Some text.
Proof. induction 1 as [|c text Hc _ IH]; [easy|]. cbn. unfold char_from_u32 at 1. now rewrite Hc, IH. Qed.

Lemma to_le_4 u : exists a b c d, to_le 4 u = [a; b; c; d].
Proof. eexists _, _, _, _. reflexivity. Qed.

Lemma utf32_text text : all_scalars text ->
  decode Utf32 (encode Utf32 text) = Some text.
Proof.
  intros Ht. unfold decode. replace (is_multiple_of 4 (encode Utf32 text)) with true.
  - rewrite <- (collect_some text). f_equal. unfold encode. induction Ht as [|c text Hc _ IH]; [easy|]. cbn [flat_map encode_char].
    assert (E : from_le (to_le 4 c) = c) by (apply is_scalar_spec in Hc; rewrite from_to_le; apply Z.mod_small; lia).
    destruct (to_le_4 c) as (a & b & d & e & Ec). rewrite Ec in *. cbn [rev app quads map]. unfold char_from_u32 at 1. now rewrite E, Hc, IH.
  - symmetry. apply Z.eqb_eq. unfold encode. clear Ht. induction text as [|c text IH]; [easy|]. cbn [flat_map encode_char]. rewrite len_app.
    destruct (to_le_4 c) as (a & b & d & e & ->). change (len (rev [a; b; d; e])) with 4. div_lia.
Qed.

(** ** Single-byte sets *)

Definition all_bytes : list byte := map (fun n => byte.of_Z (Z.of_nat n)) (seq 0 256).

Lemma all_bytes_all b : In b all_bytes.
Proof.
  apply in_map_iff. exists (Z.to_nat (byte.unsigned b)). pose proof (byte.unsigned_range b). rewrite Z2Nat.id by lia.
  split; [apply byte.of_Z_unsigned|]. apply in_seq. lia.
Qed.

Lemma forall_bytes (p : byte -> bool) : forallb p all_bytes = true -> forall b, p b = true.
Proof. intros H b. exact (proj1 (forallb_forall p all_bytes) H b (all_bytes_all b)). Qed.

(** The character of one byte, in the sets that have one for each. *)
Definition character (cs : CharacterSet) : byte -> Z :=
  match cs with Latin1 => latin1_character | Latin2 => latin2_character | Koi8R => koi8r_character | _ => tis620_character end.
Definition single_byte (cs : CharacterSet) : bool := match cs with Latin1 | Latin2 | Koi8R | Tis620 => true | _ => false end.

(** The characters a set has bytes for. *)
Definition representable (cs : CharacterSet) (c : Z) : bool :=
  match cs with
  | Utf8Mb4 | Utf16 | Utf16Le | Utf32 => true
  | Utf8Mb3 | Ucs2 => c <=? 0xffff
  | Latin1 | Latin2 | Koi8R | Tis620 => existsb (fun b => character cs b =? c) all_bytes
  end.

(** What a round trip makes of a character. *)
Definition replaced (cs : CharacterSet) (c : Z) : Z := if representable cs c then c else question.

Lemma find_at_sound c table : forall from i, find_at c table from = Some i -> from <= i < from + len table /\ nth (Z.to_nat (i - from)) table 0 = c.
Proof.
  induction table as [|x table IH]; intros from i; cbn [find_at]; [easy|]. destruct (Z.eqb_spec x c) as [->|].
  - intros [= <-]. rewrite len_cons. pose proof (len_nonneg table). split; [lia|]. now rewrite Z.sub_diag.
  - intros (Hi & Hn)%IH. rewrite len_cons. split; [lia|]. replace (Z.to_nat (i - from)) with (S (Z.to_nat (i - (from + 1)))) by lia. exact Hn.
Qed.

Definition bytes_agree (cs : CharacterSet) : bool :=
  forallb (fun b => match encode_char cs (character cs b) with [b'] => character cs b' =? character cs b | _ => false end) all_bytes.

(** A byte of an encoded character is the byte of that character, or a question mark. *)
Lemma single_byte_char cs c : single_byte cs = true -> is_scalar c = true -> exists b, encode_char cs c = [b] /\ (character cs b = c \/ b = byte.of_Z question).
Proof.
  intros Hs Hc%is_scalar_spec. destruct cs; try easy; cbn [encode_char character].
  - eexists. split; [reflexivity|]. unfold latin1_byte, latin1_character.
    destruct (((0 <=? c) && (c <=? 0x7f)) || ((0xa0 <=? c) && (c <=? 0xff))) eqn:E.
    + left. cbn [default from_option id]. rewrite orb_true_iff, !andb_true_iff, !Z.leb_le in E. rewrite byte_val by lia.
      destruct (Z.leb_spec 0x80 c); [|easy]. destruct (Z.leb_spec c 0x9f); [lia|easy].
    + destruct (find_at c LATIN1_EXTENDED 0x80) as [i|] eqn:Ei; [|now right]. left. cbn [default from_option id].
      apply find_at_sound in Ei as [Hi Hn]. change (len LATIN1_EXTENDED) with 32 in Hi. rewrite byte_val by lia. now decide_ltb.
  - eexists. split; [reflexivity|]. unfold latin2_character. destruct (Z.ltb_spec c 128); [left; rewrite byte_val by lia; now decide_ltb|].
    destruct (find_at c LATIN2_EXTENDED 128) as [i|] eqn:Ei; [|now right]. left. cbn [default from_option id].
    apply find_at_sound in Ei as [Hi Hn]. change (len LATIN2_EXTENDED) with 128 in Hi. rewrite byte_val by lia. now decide_ltb.
  - eexists. split; [reflexivity|]. unfold tis620_byte, tis620_character. destruct (Z.eqb_spec c 0xfffd) as [->|]; [now left|].
    destruct (Z.leb_spec 0 c); [|lia]. cbn [andb]. destruct (Z.leb_spec c 0x9f); [left; rewrite byte_val by lia; now decide_ltb|].
    destruct (((0x0e01 <=? c) && (c <=? 0x0e3a)) || ((0x0e3f <=? c) && (c <=? 0x0e5b))) eqn:E; [|now right].
    left. rewrite orb_true_iff, !andb_true_iff, !Z.leb_le in E. rewrite byte_val by lia. decide_ltb.
    destruct (Z.leb_spec (c - 0x0d60) 0xda); [|decide_ltb; lia]. decide_ltb. lia.
  - eexists. split; [reflexivity|]. unfold koi8r_character. destruct (Z.ltb_spec c 128); [left; rewrite byte_val by lia; now decide_ltb|].
    destruct (find_at c KOI8R_EXTENDED 128) as [i|] eqn:Ei; [|now right]. left. cbn [default from_option id].
    apply find_at_sound in Ei as [Hi Hn]. change (len KOI8R_EXTENDED) with 128 in Hi. rewrite byte_val by lia. now decide_ltb.
Qed.

Lemma single_byte_agree cs : single_byte cs = true -> bytes_agree cs = true.
Proof. destruct cs; try easy; intros _; vm_compute; reflexivity. Qed.

Lemma single_byte_replaced cs c : single_byte cs = true -> is_scalar c = true ->
  exists b, encode_char cs c = [b] /\ character cs b = replaced cs c.
Proof.
  intros Hs Hc. destruct (single_byte_char cs c Hs Hc) as (b & E & Hb). exists b. split; [easy|]. unfold replaced.
  assert (Er : representable cs c = existsb (fun b => character cs b =? c) all_bytes) by now destruct cs. rewrite Er.
  destruct (existsb _ all_bytes) eqn:Ex.
  - apply existsb_exists in Ex as (b' & _ & E'%Z.eqb_eq). pose proof (forall_bytes _ (single_byte_agree cs Hs) b') as Ha. cbn beta in Ha.
    rewrite E', E in Ha. now apply Z.eqb_eq in Ha.
  - destruct Hb as [Hb|Hb]; [|subst b; destruct cs; try easy; vm_compute; reflexivity]. exfalso.
    assert (existsb (fun b => character cs b =? c) all_bytes = true); [|congruence]. apply existsb_exists. exists b. split; [apply all_bytes_all|now apply Z.eqb_eq].
Qed.

Lemma single_byte_text cs text : single_byte cs = true -> all_scalars text ->
  map (character cs) (encode cs text) = map (replaced cs) text.
Proof.
  intros Hs. unfold encode. induction 1 as [|c text Hc _ IH]; [easy|]. cbn [flat_map map]. rewrite map_app, IH.
  destruct (single_byte_replaced cs c Hs Hc) as (b & -> & Hb). cbn. now rewrite Hb.
Qed.

Lemma decode_single cs bytes : single_byte cs = true -> decode cs bytes = Some (map (character cs) bytes).
Proof. now destruct cs. Qed.

(** ** The sets that replace what lies above the basic plane *)

Lemma replaced_scalar cs c : is_scalar c = true -> is_scalar (replaced cs c) = true.
Proof. intros Hc. unfold replaced. now destruct (representable cs c). Qed.

Lemma replaced_scalars cs text : all_scalars text -> all_scalars (map (replaced cs) text).
Proof. induction 1; constructor; [now apply replaced_scalar|easy]. Qed.

Lemma replaced_basic cs text : cs = Utf8Mb3 \/ cs = Ucs2 -> Forall (fun c => c <= 0xffff) (map (replaced cs) text).
Proof.
  intros Hcs. induction text as [|c text IH]; constructor; [|easy]. unfold replaced.
  destruct Hcs as [->| ->]; cbn [representable]; destruct (Z.leb_spec c 0xffff); cbn; unfold question; lia.
Qed.

(** Such a set encodes a character as its replacement. *)
Lemma encode_replaced cs text : cs = Utf8Mb3 \/ cs = Ucs2 -> encode cs text = encode cs (map (replaced cs) text).
Proof.
  intros Hcs. unfold encode. induction text as [|c text IH]; [easy|]. cbn [flat_map map]. rewrite IH. f_equal. unfold replaced.
  destruct Hcs as [->| ->]; cbn [representable]; destruct (Z.leb_spec c 0xffff) as [|Hgt]; try easy; cbn [encode_char];
    rewrite (proj2 (Z.ltb_lt 0xffff c)) by lia; reflexivity.
Qed.

Lemma encode_utf8mb3 text : Forall (fun c => c <= 0xffff) text -> encode Utf8Mb3 text = utf8_of text.
Proof.
  unfold encode, utf8_of. induction 1 as [|c text Hc _ IH]; [easy|]. cbn [flat_map encode_char]. rewrite (proj2 (Z.ltb_ge 0xffff c)) by lia. now rewrite IH.
Qed.

Lemma no_high text : Forall (fun c => c <= 0xffff) text -> existsb (fun c => 0xffff <? c) text = false.
Proof. induction 1 as [|c text Hc _ IH]; [easy|]. cbn. now rewrite (proj2 (Z.ltb_ge 0xffff c)), IH by lia. Qed.

Lemma replaced_same cs text : (forall c, representable cs c = true) -> map (replaced cs) text = text.
Proof. intros H. induction text as [|c text IH]; [easy|]. cbn. unfold replaced at 1. now rewrite H, IH. Qed.

Lemma decode_encode cs text : all_scalars text -> decode cs (encode cs text) = Some (map (replaced cs) text).
Proof.
  intros Ht. destruct (single_byte cs) eqn:Hs; [rewrite decode_single by easy; f_equal; now apply single_byte_text|].
  destruct cs; try easy.
  - rewrite replaced_same by easy. apply from_utf8_text, Ht.
  - rewrite encode_replaced by now left. assert (Hb := replaced_basic Utf8Mb3 text (or_introl eq_refl)). cbn [decode].
    rewrite encode_utf8mb3, from_utf8_text, no_high by (easy || now apply replaced_scalars). easy.
  - rewrite encode_replaced by now right. assert (Hb := replaced_basic Ucs2 text (or_intror eq_refl)). assert (Hr := replaced_scalars Ucs2 text Ht).
    destruct (code_units_text Ucs2 (map (replaced Ucs2) text)) as [E1 E2]; [now left|easy|easy|]. cbn [decode]. rewrite E2, E1, units_are_chars by easy.
    rewrite chars_checked by easy. apply collect_some.
  - rewrite replaced_same by easy. destruct (code_units_text Utf16 text) as [E1 E2]; [now right; left|easy|easy|]. cbn [decode].
    rewrite E2, E1, decode_utf16_text by easy. apply collect_some.
  - rewrite replaced_same by easy. destruct (code_units_text Utf16Le text) as [E1 E2]; [now right; right|easy|easy|]. cbn [decode].
    rewrite E2, E1, decode_utf16_text by easy. apply collect_some.
  - rewrite replaced_same by easy. now apply utf32_text.
Qed.

(** ** Broken input *)

Lemma map_while_collect {A} (l : list (option A)) t : collect l = Some t -> map_while l = t.
Proof.
  revert t. induction l as [|[a|] l IH]; intros t; cbn [collect map_while]; [now intros [= <-]| |easy].
  destruct (collect l) as [rest|]; [|easy]. intros [= <-]. now rewrite (IH rest).
Qed.

Lemma map_while_take {A} (l : list (option A)) : collect (take (length (map_while l)) l) = Some (map_while l).
Proof. induction l as [|[a|] l IH]; cbn; [easy| |easy]. now rewrite IH. Qed.

Lemma take_while_all {A} (p : A -> bool) l : forallb p l = true -> take_while p l = l.
Proof. induction l as [|x l IH]; cbn; [easy|]. intros [-> H]%andb_prop. now rewrite IH. Qed.

Lemma take_while_prefix {A} (p : A -> bool) l : exists rest, l = take_while p l ++ rest /\ forallb p (take_while p l) = true.
Proof.
  induction l as [|x l (rest & E & Hp)]; cbn; [now exists []|]. destruct (p x) eqn:Ep; [|now exists (x :: l)].
  exists rest. cbn. rewrite Ep. split; [now f_equal|easy].
Qed.

Lemma pairs_take n : forall bytes, (n <= length (pairs bytes))%nat -> pairs (take (2 * n) bytes) = take n (pairs bytes) /\ length (take (2 * n) bytes) = (2 * n)%nat.
Proof.
  induction n as [|n IH]; intros bytes Hn; [easy|]. destruct bytes as [|a [|b bytes]]; [cbn in Hn; lia..|]. cbn [pairs length] in Hn.
  replace (2 * S n)%nat with (S (S (2 * n))) by lia. cbn [take pairs length]. destruct (IH bytes ltac:(lia)) as [-> ->]. easy.
Qed.

Lemma quads_take n : forall bytes, (n <= length (quads bytes))%nat -> quads (take (4 * n) bytes) = take n (quads bytes) /\ length (take (4 * n) bytes) = (4 * n)%nat.
Proof.
  induction n as [|n IH]; intros bytes Hn; [easy|]. destruct bytes as [|a [|b [|c [|d bytes]]]]; [cbn in Hn; lia..|]. cbn [quads length] in Hn.
  replace (4 * S n)%nat with (S (S (S (S (4 * n))))) by lia. cbn [take quads length]. destruct (IH bytes ltac:(lia)) as [-> ->]. easy.
Qed.

Lemma map_while_length {A} (l : list (option A)) : (length (map_while l) <= length l)%nat.
Proof. induction l as [|[a|] l IH]; cbn; lia. Qed.

(** The units of the characters before the first that has none. *)
Lemma utf16_take : forall n units, (length units < n)%nat -> exists k, (k <= length units)%nat /\
  collect (decode_utf16 (take k units)) = Some (map_while (decode_utf16 units)).
Proof.
  induction n as [|n IH]; intros units Hn; [lia|]. destruct units as [|u rest]; [now exists 0%nat|]. cbn [decode_utf16].
  destruct (is_high u) eqn:Eh.
  - destruct rest as [|v rest']; [exists 0%nat; split; [lia|easy]|]. destruct (is_low v) eqn:El; [|exists 0%nat; split; [lia|easy]].
    destruct (IH rest') as (k & Hk & E); [cbn in Hn; lia|]. exists (S (S k)). split; [cbn; lia|]. cbn [take decode_utf16]. rewrite Eh, El. cbn. now rewrite E.
  - destruct (is_low u) eqn:El; [exists 0%nat; split; [lia|easy]|]. destruct (IH rest) as (k & Hk & E); [cbn in Hn; lia|].
    exists (S k). split; [cbn; lia|]. cbn [take decode_utf16]. rewrite Eh, El. cbn. now rewrite E.
Qed.

Lemma units_take cs k bytes : (k <= length (code_units cs bytes))%nat ->
  code_units cs (take (2 * k) bytes) = take k (code_units cs bytes) /\ is_multiple_of 2 (take (2 * k) bytes) = true /\ (2 * k <= length bytes)%nat.
Proof.
  unfold code_units. rewrite length_map. intros Hk. destruct (pairs_take k bytes Hk) as [E1 E2]. rewrite E1. split_and!.
  - symmetry. apply firstn_map.
  - apply Z.eqb_eq. unfold len. rewrite E2. div_lia.
  - rewrite length_take in E2. lia.
Qed.

Lemma basic_chars text : existsb (fun c => 0xffff <? c) text = false -> forallb (fun c => c <=? 0xffff) text = true.
Proof.
  induction text as [|c text IH]; [easy|]. cbn. intros [Hc%Z.ltb_ge Ht]%orb_false_iff. rewrite IH by easy. now rewrite (proj2 (Z.leb_le c 0xffff)).
Qed.

Lemma basic_chars_back text : forallb (fun c => c <=? 0xffff) text = true -> existsb (fun c => 0xffff <? c) text = false.
Proof.
  induction text as [|c text IH]; [easy|]. cbn. intros [Hc%Z.leb_le Ht]%andb_prop. rewrite IH by easy. now rewrite (proj2 (Z.ltb_ge 0xffff c)).
Qed.

Lemma utf8_of_app a b : utf8_of (a ++ b) = utf8_of a ++ utf8_of b.
Proof. apply flat_map_app. Qed.

(** What is decoded of any bytes is what some of their first bytes hold. *)
Lemma decode_prefix_sound cs bytes : exists n, (n <= length bytes)%nat /\ decode cs (take n bytes) = Some (decode_prefix cs bytes).
Proof.
  destruct (single_byte cs) eqn:Hs; [exists (length bytes); split; [lia|]; rewrite firstn_all; now destruct cs|].
  destruct (utf8_prefix_text bytes) as (text & rest & Eb & Ht & _ & Ep & Ef). destruct cs; try easy; cbn [decode decode_prefix].
  - exists (length (utf8_of text)). rewrite Ef. cbn [default from_option id]. rewrite Eb, length_app, take_app_length. split; [lia|]. now apply from_utf8_text.
  - rewrite Ef. cbn [default from_option id]. destruct (take_while_prefix (fun c => c <=? 0xffff) text) as (more & Et & Hp).
    set (kept := take_while _ text) in *. exists (length (utf8_of kept)). rewrite Eb, Et, utf8_of_app, <- app_assoc, take_app_length, !length_app.
    split; [lia|]. assert (Hk : all_scalars kept) by (unfold all_scalars in Ht; rewrite Et in Ht; now apply Forall_app in Ht).
    rewrite from_utf8_text by easy. now rewrite basic_chars_back.
  - set (l := map char_from_u32 (code_units Ucs2 bytes)). pose proof (map_while_length l) as Hl. unfold l at 2 in Hl. rewrite length_map in Hl.
    destruct (units_take Ucs2 _ bytes Hl) as (E1 & E2 & Hn). exists (2 * length (map_while l))%nat. split; [easy|]. rewrite E2, E1.
    rewrite <- firstn_map. apply map_while_take.
  - destruct (utf16_take _ (code_units Utf16 bytes) (Nat.lt_succ_diag_r _)) as (k & Hk & E). destruct (units_take Utf16 k bytes Hk) as (E1 & E2 & Hn).
    exists (2 * k)%nat. split; [easy|]. now rewrite E2, E1.
  - destruct (utf16_take _ (code_units Utf16Le bytes) (Nat.lt_succ_diag_r _)) as (k & Hk & E). destruct (units_take Utf16Le k bytes Hk) as (E1 & E2 & Hn).
    exists (2 * k)%nat. split; [easy|]. now rewrite E2, E1.
  - set (l := map (fun part => char_from_u32 (from_le (rev part))) (quads bytes)). pose proof (map_while_length l) as Hl. unfold l at 2 in Hl. rewrite length_map in Hl.
    destruct (quads_take _ bytes Hl) as (E1 & E2). exists (4 * length (map_while l))%nat. rewrite length_take in E2. split; [lia|].
    replace (is_multiple_of 4 _) with true; [|symmetry; apply Z.eqb_eq; unfold len; rewrite length_take, E2; div_lia].
    rewrite E1, <- firstn_map. apply map_while_take.
Qed.

Lemma decode_prefix_whole cs bytes text : decode cs bytes = Some text -> decode_prefix cs bytes = text.
Proof.
  destruct cs; cbn [decode decode_prefix]; try (now intros [= <-]).
  - intros E. destruct (from_utf8_sound _ _ E) as [-> Ht]. destruct (utf8_prefix_text (utf8_of text)) as (t & rest & Eb & Ht' & Hn & _ & ->). cbn.
    rewrite Eb in E. unfold from_utf8 in E. rewrite scalars_text in E; [|easy|easy|rewrite length_app; pose proof (utf8_length t); lia].
    destruct rest; [now injection E|easy].
  - destruct (from_utf8 bytes) as [t|] eqn:E; [|easy]. destruct (existsb _ t) eqn:Ex; [easy|]. intros [= <-].
    destruct (utf8_prefix_text bytes) as (t' & rest & Eb & Ht' & Hn & _ & ->). cbn.
    rewrite Eb in E. unfold from_utf8 in E. rewrite scalars_text in E; [|easy|easy|rewrite length_app; pose proof (utf8_length t'); lia].
    destruct rest; [|easy]. injection E as ->. apply take_while_all. now apply basic_chars.
  - destruct (is_multiple_of 2 bytes); [|easy]. apply map_while_collect.
  - destruct (is_multiple_of 2 bytes); [|easy]. apply map_while_collect.
  - destruct (is_multiple_of 2 bytes); [|easy]. apply map_while_collect.
  - destruct (is_multiple_of 4 bytes); [|easy]. apply map_while_collect.
Qed.

(** ** Properties *)

(** C26. Whatever text is written in a character set and read again, each character comes back
    as itself when the set has it and as a question mark when it does not; nothing else is
    lost, and what was written can always be read. *)
Theorem charsets_replace_only cs text : all_scalars text -> decode cs (encode cs text) = Some (map (replaced cs) text).
Proof. apply decode_encode. Qed.

Lemma charsets_replace_only_witness : decode Latin1 (encode Latin1 [0x20ac; 0xe9; 0x1f42c]) = Some [0x20ac; 0xe9; question].
Proof. apply (charsets_replace_only Latin1 [0x20ac; 0xe9; 0x1f42c]). repeat constructor. Defined.

(** The bytes of a Latin 1, Latin 2 or KOI8-R text survive being read and written again,
    whatever bytes they are. *)
Theorem charset_bytes_kept cs bytes : single_byte cs = true -> cs <> Tis620 ->
  exists text, decode cs bytes = Some text /\ encode cs text = bytes.
Proof.
  intros Hs Ht. exists (map (character cs) bytes). split; [now apply decode_single|].
  assert (Hb : forall b, encode_char cs (character cs b) = [b]).
  { intros b. apply (bool_decide_eq_true_1 _). revert b. apply forall_bytes. destruct cs; try easy; vm_compute; reflexivity. }
  unfold encode. induction bytes as [|b bytes IH]; [easy|]. cbn [map flat_map]. now rewrite Hb, IH.
Qed.

Lemma charset_bytes_kept_witness : exists text, decode Koi8R (map byte.of_Z [0xf2; 0x9a; 0x41]) = Some text /\ encode Koi8R text = map byte.of_Z [0xf2; 0x9a; 0x41].
Proof. apply charset_bytes_kept; [reflexivity|discriminate]. Defined.

(** Of broken bytes a character set reads the characters of some of the first bytes, all of
    them when nothing is broken. *)
Theorem prefixes_decoded cs bytes :
  (exists n, (n <= length bytes)%nat /\ decode cs (take n bytes) = Some (decode_prefix cs bytes)) /\
  match decode cs bytes with Some text => decode_prefix cs bytes = text | None => True end.
Proof.
  split; [apply decode_prefix_sound|]. destruct (decode cs bytes) as [text|] eqn:E; [|easy]. now apply decode_prefix_whole.
Qed.

(** Bytes converted to text are the same bytes after zeros that fill up the first character,
    a whole number of characters, and readable in the set, or as code units in UCS-2. *)
Theorem conversions_aligned cs bytes converted : converted_bytes cs bytes = Some converted ->
  (exists n, (n < minimum_width cs)%nat /\ converted = repeat (byte.of_Z 0) n ++ bytes) /\
  (length converted mod minimum_width cs = 0)%nat /\ (cs = Ucs2 \/ exists text, decode cs converted = Some text).
Proof.
  unfold converted_bytes. set (width := minimum_width cs). assert (Hw : (0 < width)%nat) by (unfold width; destruct cs; cbn; lia).
  set (padding := ((width - length bytes mod width) mod width)%nat). assert (Hp : (padding < width)%nat) by (apply Nat.mod_upper_bound; lia).
  destruct (negb _ && _) eqn:E; [easy|]. intros [= <-]. split; [now exists padding|]. split.
  - rewrite length_app, repeat_length. unfold padding. pose proof (Nat.mod_upper_bound (length bytes) width ltac:(lia)).
    rewrite Nat.Div0.add_mod_idemp_l. rewrite (Nat.div_mod_eq (length bytes) width) at 2.
    replace (width - length bytes mod width + (width * (length bytes / width) + length bytes mod width))%nat with ((S (length bytes / width)) * width)%nat by lia.
    apply Nat.Div0.mod_mul.
  - destruct (decide (cs = Ucs2)) as [->|Hn]; [now left|right]. rewrite bool_decide_eq_false_2 in E by easy. cbn in E.
    destruct (decode cs _) as [text|]; [now exists text|easy].
Qed.

Lemma conversions_aligned_witness : exists converted, converted_bytes Utf16 [byte.of_Z 0x41] = Some converted /\ (length converted mod minimum_width Utf16 = 0)%nat.
Proof.
  exists (map byte.of_Z [0; 0x41]). assert (E : converted_bytes Utf16 [byte.of_Z 0x41] = Some (map byte.of_Z [0; 0x41])) by (vm_compute; reflexivity).
  split; [exact E|]. exact (proj1 (proj2 (conversions_aligned Utf16 [byte.of_Z 0x41] _ E))).
Defined.
