(* ===== verification/Json.v ===== *)
(** * JSON documents ([src/crates/pintail-types/src/json.rs])

    The text of a JSON column: a document is read with its numbers as they are written and
    printed the way MySQL prints it.  Strings and numbers are read and printed by serde_json,
    a class here with the laws its documentation gives: a printed string is a string token
    that reads back, and a number printed as a double reads back as that double.  The parser
    works on the bytes from its position on.  [documents_settle] states that printing puts
    a document in a form that reads and prints as itself. *)

From Stdlib Require Import ZArith Lia String Sorting.Sorted Sorting.Permutation.
From stdpp Require Import prelude list.
From coqutil Require Import Byte.
From S2P Require Import Prelude.
From S2P Require Import Types.
From S2P Require Import Text.
From S2P Require Import Statements.

#[local] Open Scope Z_scope.

(** ** The JSON library *)

Class JsonLibrary : Type := {
  (** [from_str::<String>] of a token. *)
  string_read : list byte -> option (list byte);
  (** [Value::String(text).to_string()]. *)
  string_text : list byte -> list byte;
  (** [from_str::<Number>]: its [f64] when it is one, and its text. *)
  number_read : list byte -> option (option Z * list byte);
  (** [Float64::mysql_text], from the bits. *)
  mysql_text : Z -> list byte
}.

(** ** Documents *)

Inductive Node : Type :=
| Literal (text : list byte)
| NString (text : list byte)
| NArray (items : list Node)
| NObject (members : list (list byte * Node)).

(** [serde_json::Value]; a number is the double it holds, if it is one, and its text. *)
Inductive JsonValue : Type :=
| JNull
| JBool (b : bool)
| JNumber (float : option Z) (text : list byte)
| JString (text : list byte)
| JArray (items : list JsonValue)
| JObject (members : list (list byte * JsonValue)).

(** What the messages of the parser say, the offset apart. *)
Inductive JsonError : Type :=
| TooDeep | UnexpectedCharacter | UnexpectedEnd | ExpectedItemEnd | ExpectedKey | ExpectedColon | ExpectedMemberEnd
| UnterminatedString | InvalidString | InvalidNumber | TrailingCharacters | OutOfRounds.

Definition MAX_DEPTH : nat := 100.

Definition is_json_white (b : byte) : bool :=
  let u := byte.unsigned b in (u =? 32) || (u =? 9) || (u =? 10) || (u =? 13).

Fixpoint whitespace (rest : list byte) : list byte :=
  match rest with b :: r => if is_json_white b then whitespace r else rest | [] => [] end.

Definition brace_open : byte := byte.of_Z 123.
Definition brace_close : byte := byte.of_Z 125.
Definition bracket_open : byte := byte.of_Z 91.
Definition bracket_close : byte := byte.of_Z 93.

Section parsing.
Context `{JsonLibrary}.

(** The bytes of a string up to its closing quote, and those after it. *)
Fixpoint scan_string (rest : list byte) : option (list byte * list byte) :=
  match rest with
  | [] => None
  | b :: r =>
      if byte_eqb b double_quote then Some ([], r)
      else if byte_eqb b backslash then
        match r with
        | [] => None
        | c :: r => match scan_string r with Some (body, r) => Some (b :: c :: body, r) | None => None end
        end
      else match scan_string r with Some (body, r) => Some (b :: body, r) | None => None end
  end.

(** [Parser::string], from the byte after the opening quote. *)
Definition parse_string (rest : list byte) : result JsonError (list byte * list byte) :=
  match scan_string rest with
  | None => Err UnterminatedString
  | Some (body, r) =>
      match string_read (double_quote :: body ++ [double_quote]) with
      | Some s => Ok (s, r)
      | None => Err InvalidString
      end
  end.

Definition is_number_byte (b : byte) : bool :=
  is_digit b || byte_eqb b minus_byte || byte_eqb b plus_byte || byte_eqb b dot_byte ||
  byte_eqb b (byte.of_Z 101) || byte_eqb b (byte.of_Z 69).

Fixpoint number_token (rest : list byte) : list byte * list byte :=
  match rest with
  | b :: r => if is_number_byte b then let '(token, r) := number_token r in (b :: token, r) else ([], rest)
  | [] => ([], [])
  end.

Definition has_exponent (token : list byte) : bool :=
  existsb (fun b => byte_eqb b (byte.of_Z 101) || byte_eqb b (byte.of_Z 69)) token.

Definition double_text (bits : Z) : list byte :=
  let text := mysql_text bits in
  if existsb (fun b => byte_eqb b dot_byte || byte_eqb b (byte.of_Z 101)) text then text else text ++ ascii ".0".

(** The literal a number token becomes. *)
Definition number_literal (token : list byte) : option (list byte) :=
  match number_read token with
  | None => None
  | Some (float, text) => Some (if has_exponent token then match float with Some bits => double_text bits | None => text end else token)
  end.

Definition parse_number (rest : list byte) : result JsonError (Node * list byte) :=
  let '(token, r) := number_token rest in
  match number_literal token with Some text => Ok (Literal text, r) | None => Err InvalidNumber end.

(** [starts_with]. *)
Fixpoint strip_word (word rest : list byte) : option (list byte) :=
  match word, rest with
  | [], _ => Some rest
  | w :: word, b :: rest => if byte_eqb w b then strip_word word rest else None
  | _ :: _, [] => None
  end.

Definition parse_word (rest : list byte) : result JsonError (Node * list byte) :=
  match strip_word (ascii "null") rest with
  | Some r => Ok (Literal (ascii "null"), r)
  | None =>
      match strip_word (ascii "true") rest with
      | Some r => Ok (Literal (ascii "true"), r)
      | None => match strip_word (ascii "false") rest with Some r => Ok (Literal (ascii "false"), r) | None => Err UnexpectedCharacter end
      end
  end.

(** The order of object keys: by length, then by bytes. *)
Definition member_cmp (a b : list byte) : comparison :=
  match Nat.compare (length a) (length b) with Eq => cmp a b | c => c end.

Fixpoint insert_member {A} (m : list byte * A) (members : list (list byte * A)) : list (list byte * A) :=
  match members with
  | [] => [m]
  | m' :: rest => match member_cmp (fst m) (fst m') with Gt => m' :: insert_member m rest | _ => m :: members end
  end.

(** [sort_by], stable. *)
Definition sort_members {A} (members : list (list byte * A)) : list (list byte * A) := foldr insert_member [] members.

(** A repeated key keeps its last value, at its first place. *)
Fixpoint put_member (key : list byte) (value : Node) (members : list (list byte * Node)) : list (list byte * Node) :=
  match members with
  | [] => [(key, value)]
  | (k, v) :: rest => if bytes_eqb k key then (k, value) :: rest else (k, v) :: put_member key value rest
  end.

(** [Parser::value] and the loops of [array] and [object]; every call but the first is
    behind a byte that was taken, so the length of the text is enough. *)
Fixpoint parse_value (fuel : nat) (depth : nat) (rest : list byte) : result JsonError (Node * list byte) :=
  match fuel with
  | O => Err OutOfRounds
  | S fuel =>
      if (MAX_DEPTH <? depth)%nat then Err TooDeep
      else
        match whitespace rest with
        | [] => Err UnexpectedEnd
        | b :: r =>
            if byte_eqb b brace_open then
              match whitespace r with
              | c :: r' => if byte_eqb c brace_close then Ok (NObject [], r') else parse_members fuel depth [] (whitespace r)
              | [] => parse_members fuel depth [] []
              end
            else if byte_eqb b bracket_open then
              match whitespace r with
              | c :: r' => if byte_eqb c bracket_close then Ok (NArray [], r') else parse_items fuel depth [] (whitespace r)
              | [] => parse_items fuel depth [] []
              end
            else if byte_eqb b double_quote then
              match parse_string r with Ok (s, r) => Ok (NString s, r) | Err e => Err e end
            else if byte_eqb b minus_byte || is_digit b then parse_number (b :: r)
            else parse_word (b :: r)
        end
  end
with parse_items (fuel : nat) (depth : nat) (items : list Node) (rest : list byte) : result JsonError (Node * list byte) :=
  match fuel with
  | O => Err OutOfRounds
  | S fuel =>
      match parse_value fuel (S depth) rest with
      | Err e => Err e
      | Ok (item, r) =>
          match whitespace r with
          | b :: r =>
              if byte_eqb b comma then parse_items fuel depth (items ++ [item]) r
              else if byte_eqb b bracket_close then Ok (NArray (items ++ [item]), r)
              else Err ExpectedItemEnd
          | [] => Err ExpectedItemEnd
          end
      end
  end
with parse_members (fuel : nat) (depth : nat) (members : list (list byte * Node)) (rest : list byte) : result JsonError (Node * list byte) :=
  match fuel with
  | O => Err OutOfRounds
  | S fuel =>
      match whitespace rest with
      | q :: r =>
          if negb (byte_eqb q double_quote) then Err ExpectedKey
          else
            match parse_string r with
            | Err e => Err e
            | Ok (key, r) =>
                match whitespace r with
                | c :: r =>
                    if negb (byte_eqb c colon_byte) then Err ExpectedColon
                    else
                      match parse_value fuel (S depth) r with
                      | Err e => Err e
                      | Ok (value, r) =>
                          let members := put_member key value members in
                          match whitespace r with
                          | b :: r =>
                              if byte_eqb b comma then parse_members fuel depth members r
                              else if byte_eqb b brace_close then Ok (NObject (sort_members members), r)
                              else Err ExpectedMemberEnd
                          | [] => Err ExpectedMemberEnd
                          end
                      end
                | [] => Err ExpectedColon
                end
            end
      | [] => Err ExpectedKey
      end
  end.

(** ** Printing *)

Definition separator : list byte := ascii ", ".

(** [Node::write]. *)
Fixpoint write (node : Node) : list byte :=
  match node with
  | Literal text => text
  | NString text => string_text text
  | NArray items =>
      [bracket_open] ++
      (fix go (first : bool) (items : list Node) : list byte :=
         match items with [] => [] | item :: items => (if first then [] else separator) ++ write item ++ go false items end) true items ++
      [bracket_close]
  | NObject members =>
      [brace_open] ++
      (fix go (first : bool) (members : list (list byte * Node)) : list byte :=
         match members with
         | [] => []
         | (key, value) :: members => (if first then [] else separator) ++ string_text key ++ ascii ": " ++ write value ++ go false members
         end) true members ++
      [brace_close]
  end.

(** [mysql_json_document_text]; each round of the parser takes a byte or ends. *)
Definition mysql_json_document_text (text : list byte) : result JsonError (list byte) :=
  match parse_value (2 * length text + 2) 0 text with
  | Err e => Err e
  | Ok (document, rest) => match whitespace rest with [] => Ok (write document) | _ => Err TrailingCharacters end
  end.

(** ** The library's laws *)

(** A token that starts like a number, is made of its bytes and prints as itself. *)
Definition settled (text : list byte) : Prop :=
  match text with b :: _ => byte_eqb b minus_byte || is_digit b = true | [] => False end /\
  forallb is_number_byte text = true /\ number_literal text = Some text.

(** The bytes between the quotes of a string token. *)
Inductive string_body : list byte -> Prop :=
| body_nil : string_body []
| body_plain b body : byte_eqb b double_quote = false -> byte_eqb b backslash = false -> string_body body -> string_body (b :: body)
| body_escape b body : string_body body -> string_body (backslash :: b :: body).

Class LawfulJson : Prop := {
  string_reads_back : forall text, string_read (string_text text) = Some text;
  string_token : forall text, exists body, string_text text = double_quote :: body ++ [double_quote] /\ string_body body;
  number_settles : forall token float text, number_read token = Some (float, text) -> has_exponent token = true ->
    settled match float with Some bits => double_text bits | None => text end
}.

(** ** Documents in the form they are printed in *)

Definition literal_ok (text : list byte) : Prop :=
  text = ascii "null" \/ text = ascii "true" \/ text = ascii "false" \/ settled text.

Definition member_lt (a b : list byte) : Prop := member_cmp a b = Lt.

(** Literals that print as themselves, object keys in order, and no nesting that is refused. *)
Inductive node_ok : nat -> Node -> Prop :=
| ok_literal depth text : (depth <= MAX_DEPTH)%nat -> literal_ok text -> node_ok depth (Literal text)
| ok_string depth text : (depth <= MAX_DEPTH)%nat -> node_ok depth (NString text)
| ok_array depth items : (depth <= MAX_DEPTH)%nat -> Forall (node_ok (S depth)) items -> node_ok depth (NArray items)
| ok_object depth members : (depth <= MAX_DEPTH)%nat -> Forall (fun m => node_ok (S depth) (snd m)) members ->
    StronglySorted member_lt (map fst members) -> node_ok depth (NObject members).

Fixpoint write_items (first : bool) (items : list Node) : list byte :=
  match items with [] => [] | item :: items => (if first then [] else separator) ++ write item ++ write_items false items end.
Fixpoint write_members (first : bool) (members : list (list byte * Node)) : list byte :=
  match members with
  | [] => []
  | (key, value) :: members => (if first then [] else separator) ++ string_text key ++ ascii ": " ++ write value ++ write_members false members
  end.

Lemma write_array items : write (NArray items) = [bracket_open] ++ write_items true items ++ [bracket_close].
Proof. reflexivity. Qed.

Lemma write_object members : write (NObject members) = [brace_open] ++ write_members true members ++ [brace_close].
Proof. reflexivity. Qed.

(** ** The parser ends *)

Lemma whitespace_length rest : (length (whitespace rest) <= length rest)%nat.
Proof. induction rest as [|b rest IH]; cbn [whitespace]; [lia|]. destruct (is_json_white b); cbn [length]; lia. Qed.

Lemma scan_string_length : forall n rest body r, (length rest < n)%nat -> scan_string rest = Some (body, r) -> (length r < length rest)%nat.
Proof.
  induction n as [|n IH]; intros rest body r Hn; [lia|]. destruct rest as [|b rest]; cbn [scan_string]; [easy|]. cbn in Hn.
  destruct (byte_eqb b double_quote); [intros [= _ <-]; cbn; lia|]. destruct (byte_eqb b backslash).
  - destruct rest as [|c rest]; [easy|]. cbn in Hn. destruct (scan_string rest) as [[body' r']|] eqn:E; [|easy]. intros [= _ <-]. apply IH in E; cbn; lia.
  - destruct (scan_string rest) as [[body' r']|] eqn:E; [|easy]. intros [= _ <-]. apply IH in E; cbn; lia.
Qed.

Lemma parse_string_length rest text r : parse_string rest = Ok (text, r) -> (length r < length rest)%nat.
Proof.
  unfold parse_string. destruct (scan_string rest) as [[body r']|] eqn:E; [|easy]. destruct (string_read _); [|easy]. intros [= _ <-].
  exact (scan_string_length _ _ _ _ (Nat.lt_succ_diag_r _) E).
Qed.

Lemma number_token_length rest token r : number_token rest = (token, r) -> rest = token ++ r /\ forallb is_number_byte token = true.
Proof.
  revert token r. induction rest as [|b rest IH]; intros token r; cbn [number_token]; [now intros [= <- <-]|].
  destruct (is_number_byte b) eqn:Eb; [|now intros [= <- <-]]. destruct (number_token rest) as [t r'] eqn:E. intros [= <- <-].
  destruct (IH _ _ eq_refl) as [-> Ht]. cbn. now rewrite Eb.
Qed.

Lemma parse_number_length b rest node r : is_number_byte b = true -> parse_number (b :: rest) = Ok (node, r) -> (length r < length (b :: rest))%nat.
Proof.
  intros Hb. unfold parse_number. cbn [number_token]. rewrite Hb. destruct (number_token rest) as [t r'] eqn:E. apply number_token_length in E as [-> _].
  destruct (number_literal _); [|easy]. intros [= _ <-]. cbn. rewrite length_app. lia.
Qed.

Lemma strip_word_length word rest r : strip_word word rest = Some r -> rest = word ++ r.
Proof.
  revert rest. induction word as [|w word IH]; intros rest; cbn [strip_word]; [now intros [= <-]|]. destruct rest as [|b rest]; [easy|].
  destruct (byte_eqb w b) eqn:E; [|easy]. apply byte_eqb_spec in E as ->. intros Hr. now rewrite (IH rest Hr).
Qed.

Lemma parse_word_length rest node r : parse_word rest = Ok (node, r) -> (length r < length rest)%nat.
Proof.
  unfold parse_word.
  destruct (strip_word (ascii "null") rest) eqn:E1; [|destruct (strip_word (ascii "true") rest) eqn:E2; [|destruct (strip_word (ascii "false") rest) eqn:E3; [|easy]]];
    intros [= _ <-]; match goal with E : strip_word _ _ = Some _ |- _ => apply strip_word_length in E; subst rest end; rewrite length_app; cbn; lia.
Qed.

Lemma minus_or_digit b : byte_eqb b minus_byte || is_digit b = true -> is_number_byte b = true.
Proof. unfold is_number_byte. rewrite !orb_true_iff. tauto. Qed.

(** A round that ends leaves less than it was given, and no round is the last one allowed. *)
Definition ends_short (rest : list byte) (answer : result JsonError (Node * list byte)) : Prop :=
  match answer with Ok (_, r) => (length r < length rest)%nat | Err e => e <> OutOfRounds end.

Lemma ends_short_le rest rest' answer : (length rest <= length rest')%nat -> ends_short rest answer -> ends_short rest' answer.
Proof. intros Hl. destruct answer as [[node r]|e]; cbn; [lia|easy]. Qed.

Lemma parse_string_short rest : match parse_string rest with Ok (_, r) => (length r < length rest)%nat | Err e => e <> OutOfRounds end.
Proof.
  destruct (parse_string rest) as [[text r]|e] eqn:E; [now apply parse_string_length in E|]. unfold parse_string in E.
  destruct (scan_string rest) as [[body r]|]; [destruct (string_read _); [easy|]|]; now injection E as <-.
Qed.

Lemma parse_scalar_short b rest : byte_eqb b minus_byte || is_digit b = true -> ends_short (b :: rest) (parse_number (b :: rest)).
Proof.
  intros Hb%minus_or_digit. destruct (parse_number (b :: rest)) as [[node r]|e] eqn:E; [now apply parse_number_length in E|]. unfold parse_number in E.
  destruct (number_token (b :: rest)). destruct (number_literal _); [easy|]. now injection E as <-.
Qed.

Lemma parse_word_short rest : ends_short rest (parse_word rest).
Proof.
  destruct (parse_word rest) as [[node r]|e] eqn:E; [now apply parse_word_length in E|]. unfold parse_word in E.
  destruct (strip_word _ rest); [easy|]. destruct (strip_word _ rest); [easy|]. destruct (strip_word _ rest); [easy|]. now injection E as <-.
Qed.

Lemma parse_ends fuel :
  (forall depth rest, (2 * length rest + 1 <= fuel)%nat -> ends_short rest (parse_value fuel depth rest)) /\
  (forall depth items rest, (2 * length rest + 2 <= fuel)%nat -> ends_short rest (parse_items fuel depth items rest)) /\
  (forall depth members rest, (2 * length rest + 2 <= fuel)%nat -> ends_short rest (parse_members fuel depth members rest)).
Proof.
  induction fuel as [|fuel (IHv & IHi & IHm)]; [split_and!; intros; lia|]. split_and!.
  - intros depth rest Hf. cbn [parse_value]. destruct (MAX_DEPTH <? depth)%nat; [easy|]. pose proof (whitespace_length rest) as Hw.
    destruct (whitespace rest) as [|b r]; [easy|]. cbn [length] in Hw. apply (ends_short_le (b :: r)); [cbn; lia|].
    pose proof (whitespace_length r) as Hr.
    destruct (byte_eqb b brace_open); [|destruct (byte_eqb b bracket_open); [|destruct (byte_eqb b double_quote)]].
    + destruct (whitespace r) as [|c r'] eqn:Er; [apply (ends_short_le []); [cbn; lia|]; apply IHm; cbn; lia|]. cbn [length] in Hr.
      destruct (byte_eqb c brace_close); [cbn; lia|]. apply (ends_short_le (c :: r')); [cbn; lia|]. apply IHm. cbn. lia.
    + destruct (whitespace r) as [|c r'] eqn:Er; [apply (ends_short_le []); [cbn; lia|]; apply IHi; cbn; lia|]. cbn [length] in Hr.
      destruct (byte_eqb c bracket_close); [cbn; lia|]. apply (ends_short_le (c :: r')); [cbn; lia|]. apply IHi. cbn. lia.
    + pose proof (parse_string_short r) as Hs. destruct (parse_string r) as [[s r']|e]; [cbn; lia|exact Hs].
    + destruct (byte_eqb b minus_byte || is_digit b) eqn:Ed; [now apply parse_scalar_short|apply parse_word_short].
  - intros depth items rest Hf. cbn [parse_items]. pose proof (IHv (S depth) rest ltac:(lia)) as Hv.
    destruct (parse_value fuel (S depth) rest) as [[item r]|e]; [|exact Hv]. cbn in Hv. pose proof (whitespace_length r) as Hw.
    destruct (whitespace r) as [|b r']; [easy|]. cbn [length] in Hw. destruct (byte_eqb b comma).
    + apply (ends_short_le r'); [lia|]. apply IHi. lia.
    + destruct (byte_eqb b bracket_close); [cbn; lia|easy].
  - intros depth members rest Hf. cbn [parse_members]. pose proof (whitespace_length rest) as Hw.
    destruct (whitespace rest) as [|q r]; [easy|]. cbn [length] in Hw. destruct (byte_eqb q double_quote); cbn [negb]; [|easy].
    pose proof (parse_string_short r) as Hs. destruct (parse_string r) as [[key r1]|e]; [|exact Hs].
    pose proof (whitespace_length r1) as Hw1. destruct (whitespace r1) as [|c r2]; [easy|]. cbn [length] in Hw1.
    destruct (byte_eqb c colon_byte); cbn [negb]; [|easy]. pose proof (IHv (S depth) r2 ltac:(lia)) as Hv.
    destruct (parse_value fuel (S depth) r2) as [[value r3]|e]; [|exact Hv]. cbn in Hv. pose proof (whitespace_length r3) as Hw3.
    destruct (whitespace r3) as [|b r4]; [easy|]. cbn [length] in Hw3. destruct (byte_eqb b comma).
    + apply (ends_short_le r4); [lia|]. apply IHm. lia.
    + destruct (byte_eqb b brace_close); [cbn; lia|easy].
Qed.

(** ** Keys in order *)

Lemma member_cmp_eq a b : member_cmp a b = Eq <-> a = b.
Proof.
  unfold member_cmp. destruct (Nat.compare_spec (length a) (length b)); [apply cmp_eq|split; [easy|intros ->; lia]..].
Qed.

Lemma member_cmp_flip a b : member_cmp a b = Gt <-> member_cmp b a = Lt.
Proof.
  unfold member_cmp. rewrite (Nat.compare_antisym (length a) (length b)). destruct (Nat.compare (length a) (length b)); [apply (cmp_gt_lt a b)|easy..].
Qed.

Lemma member_lt_trans a b c : member_lt a b -> member_lt b c -> member_lt a c.
Proof.
  unfold member_lt, member_cmp. destruct (Nat.compare_spec (length a) (length b)), (Nat.compare_spec (length b) (length c)), (Nat.compare_spec (length a) (length c));
    try easy; try lia. apply cmp_lt_trans.
Qed.

Lemma insert_member_perm {A} (m : list byte * A) members : Permutation (insert_member m members) (m :: members).
Proof.
  induction members as [|m' members IH]; cbn [insert_member]; [easy|]. destruct (member_cmp (fst m) (fst m')); [easy..|].
  exact (perm_trans (perm_skip _ IH) (perm_swap _ _ _)).
Qed.

Lemma insert_member_sorted {A} (m : list byte * A) members : StronglySorted member_lt (map fst members) -> fst m ∉ map fst members ->
  StronglySorted member_lt (map fst (insert_member m members)).
Proof.
  induction members as [|m' members IH]; cbn [insert_member map]; intros Hs Hn; [repeat constructor|]. inversion_clear Hs as [|? ? Hs' Hm].
  destruct (member_cmp (fst m) (fst m')) eqn:E.
  - apply member_cmp_eq in E. destruct Hn. rewrite E. now left.
  - cbn [map]. constructor; [now constructor|]. constructor; [exact E|]. eapply Forall_impl; [exact Hm|]. intros k Hk. now apply (member_lt_trans _ (fst m')).
  - cbn [map]. constructor; [apply IH; [easy|intros Hin; apply Hn; now right]|].
    apply (Permutation_Forall (Permutation_sym (Permutation_map fst (insert_member_perm m members)))). constructor; [now apply member_cmp_flip|easy].
Qed.

Lemma sort_members_perm {A} (members : list (list byte * A)) : Permutation (sort_members members) members.
Proof. induction members as [|m members IH]; [easy|]. exact (perm_trans (insert_member_perm m _) (perm_skip _ IH)). Qed.

Lemma sort_members_sorted {A} (members : list (list byte * A)) : NoDup (map fst members) -> StronglySorted member_lt (map fst (sort_members members)).
Proof.
  induction members as [|m members IH]; [constructor|]. cbn [map]. intros [Hm Hn]%NoDup_cons. apply insert_member_sorted; [now apply IH|].
  fold (sort_members members). intros Hin. apply Hm. apply list_elem_of_In. apply (Permutation_in _ (Permutation_map fst (sort_members_perm members))). now apply list_elem_of_In.
Qed.

Lemma sort_members_id {A} (members : list (list byte * A)) : StronglySorted member_lt (map fst members) -> sort_members members = members.
Proof.
  induction members as [|m members IH]; [easy|]. cbn [map]. intros Hs. inversion_clear Hs as [|? ? Hs' Hm]. cbn [sort_members foldr]. fold (sort_members members).
  rewrite IH by easy. destruct members as [|m' members]; [easy|]. cbn [insert_member]. cbn [map] in Hm. inversion_clear Hm as [|? ? E _]. unfold member_lt in E. now rewrite E.
Qed.

Lemma put_member_fresh key value members : key ∉ map fst members -> put_member key value members = members ++ [(key, value)].
Proof.
  induction members as [|[k v] members IH]; cbn [put_member map app]; [easy|]. intros Hn. unfold bytes_eqb.
  rewrite bool_decide_eq_false_2 by (intros ->; apply Hn; now left). rewrite IH; [easy|]. intros Hin. apply Hn. now right.
Qed.

Lemma put_member_keys key value members : NoDup (map fst members) -> NoDup (map fst (put_member key value members)) /\
  forall k, k ∈ map fst (put_member key value members) -> k = key \/ k ∈ map fst members.
Proof.
  induction members as [|[k v] members IH]; cbn [put_member map]; intros Hn.
  - split; [apply NoDup_singleton|]. intros k Hk%list_elem_of_singleton. now left.
  - unfold bytes_eqb. destruct (bool_decide (k = key)) eqn:E; cbn [map]; [split; [easy|now right]|]. apply bool_decide_eq_false in E.
    apply NoDup_cons in Hn as [Hk Hn]. destruct (IH Hn) as [H1 H2]. split.
    + apply NoDup_cons. split; [|easy]. cbn. now intros [->|]%H2.
    + intros k' [->|Hk']%elem_of_cons; [right; now left|]. apply H2 in Hk' as [->|]; [now left|right; now right].
Qed.

Lemma put_member_values (P : Node -> Prop) key value members : P value -> Forall (fun m => P (snd m)) members ->
  Forall (fun m => P (snd m)) (put_member key value members).
Proof.
  intros Hv. induction 1 as [|[k v] members Hm Hms IH]; cbn [put_member]; [now constructor|]. destruct (bytes_eqb k key); now constructor.
Qed.

(** ** What is read is in printed form *)

Context `{!LawfulJson}.

Lemma number_settled b rest node r : byte_eqb b minus_byte || is_digit b = true -> parse_number (b :: rest) = Ok (node, r) ->
  exists text, node = Literal text /\ settled text.
Proof.
  intros Hb. unfold parse_number. destruct (number_token (b :: rest)) as [token r'] eqn:Et. destruct (number_literal token) as [text|] eqn:El; [|easy].
  intros [= <- <-]. exists text. split; [easy|]. unfold number_literal in El. destruct (number_read token) as [[float text']|] eqn:En; [|easy].
  destruct (has_exponent token) eqn:Ee; injection El as <-; [exact (number_settles _ _ _ En Ee)|].
  cbn [number_token] in Et. rewrite (minus_or_digit _ Hb) in Et. destruct (number_token rest) as [token' r''] eqn:Et'. injection Et as <- <-.
  apply number_token_length in Et' as [_ Hn]. split_and!; [exact Hb| |].
  - cbn [forallb]. now rewrite (minus_or_digit _ Hb), Hn.
  - unfold number_literal. now rewrite En, Ee.
Qed.

Lemma word_ok rest node r : parse_word rest = Ok (node, r) -> exists text, node = Literal text /\ literal_ok text.
Proof.
  unfold parse_word, literal_ok. destruct (strip_word _ rest); [intros [= <- _]; eauto|].
  destruct (strip_word _ rest); [intros [= <- _]; eauto|]. destruct (strip_word _ rest); [intros [= <- _]; eauto 6|easy].
Qed.

Lemma parsed_ok fuel :
  (forall depth rest node r, parse_value fuel depth rest = Ok (node, r) -> node_ok depth node) /\
  (forall depth items rest node r, (depth <= MAX_DEPTH)%nat -> Forall (node_ok (S depth)) items ->
     parse_items fuel depth items rest = Ok (node, r) -> node_ok depth node) /\
  (forall depth members rest node r, (depth <= MAX_DEPTH)%nat -> Forall (fun m => node_ok (S depth) (snd m)) members -> NoDup (map fst members) ->
     parse_members fuel depth members rest = Ok (node, r) -> node_ok depth node).
Proof.
  induction fuel as [|fuel (IHv & IHi & IHm)]; [easy|]. split_and!.
  - intros depth rest node r. cbn [parse_value]. destruct (Nat.ltb_spec MAX_DEPTH depth) as [|Hd]; [easy|].
    destruct (whitespace rest) as [|b r']; [easy|].
    destruct (byte_eqb b brace_open); [|destruct (byte_eqb b bracket_open); [|destruct (byte_eqb b double_quote)]].
    + assert (He : node_ok depth (NObject [])) by (constructor; [exact Hd|constructor..]). destruct (whitespace r') as [|c r'']; [apply IHm; [easy|constructor..]|].
      destruct (byte_eqb c brace_close); [now intros [= <- _]|apply IHm; [easy|constructor..]].
    + assert (He : node_ok depth (NArray [])) by (constructor; [exact Hd|constructor..]). destruct (whitespace r') as [|c r'']; [apply IHi; [easy|constructor]|].
      destruct (byte_eqb c bracket_close); [now intros [= <- _]|apply IHi; [easy|constructor]].
    + destruct (parse_string r') as [[s r'']|]; [intros [= <- _]; now constructor|easy].
    + destruct (byte_eqb b minus_byte || is_digit b) eqn:Ed.
      * intros (text & -> & Ht)%(number_settled _ _ _ _ Ed). constructor; [easy|]. now right; right; right.
      * intros (text & -> & Ht)%word_ok. now constructor.
  - intros depth items rest node r Hd Hi. cbn [parse_items]. destruct (parse_value fuel (S depth) rest) as [[item r1]|e] eqn:Ev; [|easy]. apply IHv in Ev.
    assert (Hi' : Forall (node_ok (S depth)) (items ++ [item])) by (apply Forall_app; split; [easy|now constructor]).
    destruct (whitespace r1) as [|b r2]; [easy|]. destruct (byte_eqb b comma); [now apply IHi|]. destruct (byte_eqb b bracket_close); [|easy].
    intros [= <- _]. now constructor.
  - intros depth members rest node r Hd Hm Hk. cbn [parse_members]. destruct (whitespace rest) as [|q r1]; [easy|]. destruct (negb _); [easy|].
    destruct (parse_string r1) as [[key r2]|e]; [|easy]. destruct (whitespace r2) as [|c r3]; [easy|]. destruct (negb _); [easy|].
    destruct (parse_value fuel (S depth) r3) as [[value r4]|e] eqn:Ev; [|easy]. apply IHv in Ev.
    apply (put_member_values _ key value) in Hm; [|exact Ev]. destruct (put_member_keys key value members Hk) as [Hk' _].
    destruct (whitespace r4) as [|b r5]; [easy|]. destruct (byte_eqb b comma); [now apply IHm|]. destruct (byte_eqb b brace_close); [|easy].
    intros [= <- _]. constructor; [easy| |now apply sort_members_sorted].
    exact (Permutation_Forall (Permutation_sym (sort_members_perm _)) Hm).
Qed.

(** ** What is printed reads back *)

Lemma scan_string_body body rest : string_body body -> scan_string (body ++ double_quote :: rest) = Some (body, rest).
Proof.
  induction 1 as [|b body Hq Hb _ IH|b body _ IH]; cbn [app scan_string]; [now rewrite byte_eqb_refl|now rewrite Hq, Hb, IH|].
  change (byte_eqb backslash double_quote) with false. rewrite byte_eqb_refl. cbv iota. now rewrite IH.
Qed.

Lemma parse_string_text text rest : exists body, string_text text = double_quote :: body /\ parse_string (body ++ rest) = Ok (text, rest).
Proof.
  destruct (string_token text) as (body & E & Hb). exists (body ++ [double_quote]). split; [easy|]. unfold parse_string.
  rewrite <- app_assoc. cbn [app]. rewrite (scan_string_body _ _ Hb), <- E, string_reads_back. reflexivity.
Qed.

Lemma strip_word_self word rest : strip_word word (word ++ rest) = Some rest.
Proof. induction word as [|b word IH]; cbn; [easy|]. now rewrite byte_eqb_refl. Qed.

(** What may follow a number. *)
Definition after_number (rest : list byte) : Prop := match rest with b :: _ => is_number_byte b = false | [] => True end.

Lemma number_token_back text rest : forallb is_number_byte text = true -> after_number rest -> number_token (text ++ rest) = (text, rest).
Proof.
  intros Ht Hr. induction text as [|b text IH]; cbn [app number_token].
  - destruct rest as [|b rest]; [easy|]. cbn [number_token]. cbn in Hr. now rewrite Hr.
  - cbn [forallb] in Ht. apply andb_prop in Ht as [Hb Ht]. now rewrite Hb, IH.
Qed.

(** The byte a value starts with. *)
Lemma write_head depth node : node_ok depth node -> exists b w, write node = b :: w /\ is_json_white b = false /\ byte_eqb b bracket_close = false.
Proof.
  intros Hn. destruct Hn as [depth text _ Hl|depth text _|depth items _ _|depth members _ _ _]; cbn [write].
  - destruct Hl as [->|[->|[->|(Hb & _ & _)]]]; [eexists _, _; now split_and!..|]. destruct text as [|b text]; [easy|]. exists b, text. split; [easy|].
    destruct (is_json_white b) eqn:Ew; [|split; [easy|]; destruct (byte_eqb b bracket_close) eqn:E; [now apply byte_eqb_spec in E as ->|easy]]. exfalso. revert Hb Ew. clear.
    unfold is_json_white, is_digit, byte_in. destruct (byte_eqb b minus_byte) eqn:E; [now apply byte_eqb_spec in E as ->|]. cbn [orb]. lia.
  - destruct (string_token text) as (body & -> & _). eexists _, _. now split_and!.
  - eexists _, _. now split_and!.
  - eexists _, _. now split_and!.
Qed.


Lemma space_before fuel depth rest : parse_value fuel depth (space_byte :: rest) = parse_value fuel depth rest /\
  (forall items, parse_items fuel depth items (space_byte :: rest) = parse_items fuel depth items rest) /\
  (forall members, parse_members fuel depth members (space_byte :: rest) = parse_members fuel depth members rest).
Proof. destruct fuel as [|[|fuel]]; now split_and!. Qed.

Lemma write_items_next item items : write_items false (item :: items) = comma :: space_byte :: write_items true (item :: items).
Proof. reflexivity. Qed.

Lemma write_members_next m members : write_members false (m :: members) = comma :: space_byte :: write_members true (m :: members).
Proof. now destruct m. Qed.

Lemma items_follow items rest : after_number (write_items false items ++ bracket_close :: rest).
Proof. now destruct items. Qed.

Lemma members_follow members rest : after_number (write_members false members ++ brace_close :: rest).
Proof. now destruct members as [|[k v] members]. Qed.

(** The reading of printed values, of printed items and of printed members, with [fuel] rounds. *)
Definition values_back (fuel : nat) : Prop := forall depth node rest, node_ok depth node -> after_number rest ->
  (2 * length (write node ++ rest) + 1 <= fuel)%nat -> parse_value fuel depth (write node ++ rest) = Ok (node, rest).
Definition items_back (fuel : nat) : Prop := forall depth items item todo rest, Forall (node_ok (S depth)) (item :: todo) ->
  (2 * length (write_items true (item :: todo) ++ bracket_close :: rest) + 2 <= fuel)%nat ->
  parse_items fuel depth items (write_items true (item :: todo) ++ bracket_close :: rest) = Ok (NArray (items ++ item :: todo), rest).
Definition members_back (fuel : nat) : Prop := forall depth members m todo rest, Forall (fun m => node_ok (S depth) (snd m)) (m :: todo) ->
  NoDup (map fst (members ++ m :: todo)) -> (2 * length (write_members true (m :: todo) ++ brace_close :: rest) + 2 <= fuel)%nat ->
  parse_members fuel depth members (write_members true (m :: todo) ++ brace_close :: rest) = Ok (NObject (sort_members (members ++ m :: todo)), rest).

Lemma items_step fuel : values_back fuel -> items_back fuel -> items_back (S fuel).
Proof.
  intros IHv IHi depth items item todo rest Hok Hf. inversion_clear Hok as [|? ? Hi Ht]. cbn [write_items app] in Hf |- *. rewrite <- app_assoc in Hf |- *.
  cbn [parse_items]. rewrite IHv; [|exact Hi|apply items_follow|lia]. destruct todo as [|item' todo]; [now cbn|].
  rewrite write_items_next in Hf |- *. cbn [app whitespace]. change (is_json_white comma) with false. cbv iota. rewrite byte_eqb_refl.
  rewrite (proj1 (proj2 (space_before _ _ _))), IHi; [now rewrite <- app_assoc|exact Ht|].
  cbn [app length] in Hf. rewrite length_app in Hf. cbn [length] in Hf. lia.
Qed.

Lemma members_step fuel : values_back fuel -> members_back fuel -> members_back (S fuel).
Proof.
  intros IHv IHm depth members [key value] todo rest Hok Hn Hf. inversion_clear Hok as [|? ? Hv Ht]. cbn [write_members app snd] in *.
  destruct (parse_string_text key (ascii ": " ++ write value ++ write_members false todo ++ brace_close :: rest)) as (body & E & Hs). rewrite E in Hf |- *.
  repeat rewrite <- app_assoc in Hf. repeat rewrite <- app_assoc. cbn [app] in Hf |- *. cbn [parse_members whitespace]. change (is_json_white double_quote) with false. cbv iota.
  rewrite byte_eqb_refl. cbn [negb]. rewrite Hs. change (ascii ": ") with [colon_byte; space_byte] in *. cbn [app whitespace]. change (is_json_white colon_byte) with false. cbv iota.
  rewrite byte_eqb_refl. cbn [negb]. cbn [app length] in Hf. rewrite length_app in Hf. cbn [length] in Hf.
  rewrite (proj1 (space_before _ _ _)), IHv; [|exact Hv|apply members_follow|lia].
  assert (Hk : key ∉ map fst members) by (rewrite map_app in Hn; apply NoDup_app in Hn as (_ & Hd & _); intros Hin; apply (Hd key Hin); now left).
  rewrite (put_member_fresh _ _ _ Hk). destruct todo as [|m' todo]; [now cbn|].
  rewrite write_members_next in Hf |- *. cbn [app whitespace]. change (is_json_white comma) with false. cbv iota. rewrite byte_eqb_refl.
  rewrite (proj2 (proj2 (space_before _ _ _))), IHm; [now rewrite <- app_assoc|exact Ht|now rewrite <- app_assoc|].
  rewrite length_app in Hf. cbn [app length] in Hf. lia.
Qed.

Lemma member_lt_nodup keys : StronglySorted member_lt keys -> NoDup keys.
Proof.
  induction 1 as [|k keys _ IH Hk]; [constructor|]. apply NoDup_cons. split; [|easy]. intros Hin. rewrite Forall_forall in Hk. specialize (Hk k Hin).
  unfold member_lt in Hk. now rewrite (proj2 (member_cmp_eq k k) eq_refl) in Hk.
Qed.

Lemma literal_back fuel depth text rest : (depth <= MAX_DEPTH)%nat -> literal_ok text -> after_number rest ->
  parse_value (S fuel) depth (text ++ rest) = Ok (Literal text, rest).
Proof.
  intros Hd Hl Hr. cbn [parse_value]. rewrite (proj2 (Nat.ltb_ge _ _) Hd).
  destruct Hl as [->|[->|[->|(Hb & Hn & Hs)]]]; [reflexivity..|].
  destruct text as [|b text]; [easy|]. assert (Hw : whitespace ((b :: text) ++ rest) = (b :: text) ++ rest).
  { cbn [app whitespace]. destruct (is_json_white b) eqn:Ew; [|easy]. exfalso. revert Hb Ew. clear.
    unfold is_json_white, is_digit, byte_in. destruct (byte_eqb b minus_byte) eqn:E; [now apply byte_eqb_spec in E as ->|]. cbn [orb]. lia. }
  rewrite Hw. cbn [app]. assert (Hx : forall x, byte_eqb x minus_byte || is_digit x = false -> byte_eqb b x = false).
  { intros x Hx. destruct (byte_eqb b x) eqn:E; [|easy]. apply byte_eqb_spec in E as ->. now rewrite Hx in Hb. }
  rewrite (Hx brace_open eq_refl), (Hx bracket_open eq_refl), (Hx double_quote eq_refl), Hb. unfold parse_number.
  change (b :: text ++ rest) with ((b :: text) ++ rest). now rewrite number_token_back, Hs.
Qed.

Lemma values_step fuel : items_back fuel -> members_back fuel -> values_back (S fuel).
Proof.
  intros IHi IHm depth node rest Hok Hr Hf. destruct Hok as [depth text Hd Hl|depth text Hd|depth items Hd Hi|depth members Hd Hm Hk]; [now apply literal_back|..].
  - cbn [write]. destruct (parse_string_text text rest) as (body & -> & Hs). cbn [parse_value app whitespace]. rewrite (proj2 (Nat.ltb_ge _ _) Hd).
    change (is_json_white double_quote) with false. cbn. now rewrite Hs.
  - rewrite write_array in Hf |- *. cbn [app parse_value whitespace]. rewrite (proj2 (Nat.ltb_ge _ _) Hd). rewrite <- app_assoc in Hf |- *.
    change (is_json_white bracket_open) with false. cbv iota. change (byte_eqb bracket_open brace_open) with false. rewrite byte_eqb_refl. cbv iota.
    destruct items as [|item items]; [reflexivity|]. destruct (write_head _ _ (Forall_inv Hi)) as (b & w & E & Hw & Hb).
    assert (Hx : exists w', write_items true (item :: items) ++ [bracket_close] ++ rest = b :: w') by (cbn [write_items app]; rewrite E; now eexists).
    destruct Hx as (w' & Hx). cbn [app] in Hx, Hf |- *. rewrite Hx. cbn [whitespace]. rewrite Hw, Hb, <- Hx. apply (IHi depth []); [exact Hi|].
    repeat rewrite <- app_assoc in Hf. cbn [app length] in Hf. lia.
  - rewrite write_object in Hf |- *. cbn [app parse_value whitespace]. rewrite (proj2 (Nat.ltb_ge _ _) Hd). rewrite <- app_assoc in Hf |- *.
    change (is_json_white brace_open) with false. cbv iota. rewrite byte_eqb_refl.
    destruct members as [|[key value] members]; [reflexivity|]. destruct (string_token key) as (body & E & _).
    assert (Hx : exists w', write_members true ((key, value) :: members) ++ [brace_close] ++ rest = double_quote :: w') by (cbn [write_members app]; rewrite E; now eexists).
    destruct Hx as (w' & Hx). cbn [app] in Hx, Hf |- *. rewrite Hx. cbn [whitespace]. change (is_json_white double_quote) with false.
    change (byte_eqb double_quote brace_close) with false. cbv iota. rewrite <- Hx.
    rewrite (IHm depth []); [cbn [app]; now rewrite sort_members_id|exact Hm|now apply member_lt_nodup|].
    repeat rewrite <- app_assoc in Hf. cbn [app length] in Hf. lia.
Qed.

Lemma written_back fuel : values_back fuel /\ items_back fuel /\ members_back fuel.
Proof.
  induction fuel as [|fuel (IHv & IHi & IHm)]; [unfold values_back, items_back, members_back; split_and!; intros; exfalso; lia|]. split_and!; [now apply values_step|now apply items_step|now apply members_step].
Qed.


(** ** Parsed values *)

(** The double a number holds, if it does, and the text of the number otherwise. *)
Definition number_text (float : option Z) (text : list byte) : list byte :=
  match float with Some bits => double_text bits | None => text end.

Fixpoint join_members (first : bool) (members : list (list byte * list byte)) : list byte :=
  match members with
  | [] => []
  | (key, text) :: members => (if first then [] else separator) ++ string_text key ++ ascii ": " ++ text ++ join_members false members
  end.

Fixpoint join_items (first : bool) (items : list (list byte)) : list byte :=
  match items with [] => [] | text :: items => (if first then [] else separator) ++ text ++ join_items false items end.

(** The keys are sorted before the members are printed; they are a map's, so the members
    are sorted by them here with their texts. *)
Fixpoint mysql_json_text (value : JsonValue) : list byte :=
  match value with
  | JArray items => [bracket_open] ++ join_items true (map mysql_json_text items) ++ [bracket_close]
  | JObject members =>
      [brace_open] ++ join_members true (sort_members (map (fun m => (fst m, mysql_json_text (snd m))) members)) ++ [brace_close]
  | JNumber float text => number_text float text
  | JNull => ascii "null"
  | JBool b => if b then ascii "true" else ascii "false"
  | JString text => string_text text
  end.

(** The document a value is. *)
Fixpoint document_of (value : JsonValue) : Node :=
  match value with
  | JArray items => NArray (map document_of items)
  | JObject members => NObject (sort_members (map (fun m => (fst m, document_of (snd m))) members))
  | JNumber float text => Literal (number_text float text)
  | JNull => Literal (ascii "null")
  | JBool b => Literal (if b then ascii "true" else ascii "false")
  | JString text => NString text
  end.

(** Numbers that print as themselves, distinct keys, and no nesting that is refused. *)
Inductive value_ok : nat -> JsonValue -> Prop :=
| vok_null depth : (depth <= MAX_DEPTH)%nat -> value_ok depth JNull
| vok_bool depth b : (depth <= MAX_DEPTH)%nat -> value_ok depth (JBool b)
| vok_number depth float text : (depth <= MAX_DEPTH)%nat -> settled (number_text float text) -> value_ok depth (JNumber float text)
| vok_string depth text : (depth <= MAX_DEPTH)%nat -> value_ok depth (JString text)
| vok_array depth items : (depth <= MAX_DEPTH)%nat -> Forall (value_ok (S depth)) items -> value_ok depth (JArray items)
| vok_object depth members : (depth <= MAX_DEPTH)%nat -> Forall (fun m => value_ok (S depth) (snd m)) members ->
    NoDup (map fst members) -> value_ok depth (JObject members).

Lemma insert_member_map {A B} (f : A -> B) m members :
  insert_member (fst m, f (snd m)) (map (fun m => (fst m, f (snd m))) members) = map (fun m => (fst m, f (snd m))) (insert_member m members).
Proof.
  induction members as [|m' members IH]; cbn [insert_member map fst snd]; [easy|]. destruct (member_cmp (fst m) (fst m')); cbn [map]; [easy..|]. now rewrite IH.
Qed.

Lemma sort_members_map {A B} (f : A -> B) members :
  sort_members (map (fun m => (fst m, f (snd m))) members) = map (fun m => (fst m, f (snd m))) (sort_members members).
Proof.
  induction members as [|m members IH]; [easy|]. cbn [map sort_members foldr]. fold (sort_members members).
  fold (sort_members (map (fun m => (fst m, f (snd m))) members)). rewrite IH. apply insert_member_map.
Qed.

Lemma join_members_write members : forall first, join_members first (map (fun m => (fst m, write (snd m))) members) = write_members first members.
Proof. induction members as [|[k v] members IH]; intros first; cbn [map fst snd join_members write_members]; [easy|]. now rewrite IH. Qed.

Lemma join_items_write items : forall first, join_items first (map write items) = write_items first items.
Proof. induction items as [|v items IH]; intros first; cbn [map join_items write_items]; [easy|]. now rewrite IH. Qed.

Lemma value_ind_nested (P : JsonValue -> Prop) : P JNull -> (forall b, P (JBool b)) -> (forall f t, P (JNumber f t)) -> (forall t, P (JString t)) ->
  (forall items, Forall P items -> P (JArray items)) -> (forall members, Forall (fun m => P (snd m)) members -> P (JObject members)) -> forall v, P v.
Proof.
  intros H1 H2 H3 H4 H5 H6. fix IH 1. intros [|b|f t|t|items|members]; [easy..| |].
  - apply H5. induction items as [|v items IHl]; constructor; [apply IH|exact IHl].
  - apply H6. induction members as [|[k v] members IHl]; constructor; [apply IH|exact IHl].
Qed.

Lemma mysql_json_text_document value : mysql_json_text value = write (document_of value).
Proof.
  induction value as [| | | |items IH|members IH] using value_ind_nested; [easy..| |].
  - cbn [mysql_json_text document_of]. rewrite write_array, <- join_items_write, map_map. f_equal. f_equal. f_equal.
    apply map_ext_Forall. exact IH.
  - cbn [mysql_json_text document_of]. rewrite write_object, <- join_members_write, <- sort_members_map, map_map. f_equal. f_equal. f_equal. f_equal.
    apply map_ext_Forall. eapply Forall_impl; [exact IH|]. intros m Hm. cbn [fst snd]. now rewrite Hm.
Qed.

Lemma document_of_ok value : forall depth, value_ok depth value -> node_ok depth (document_of value).
Proof.
  induction value as [|b|f t|t|items IH|members IH] using value_ind_nested; intros depth Hv; inversion_clear Hv; cbn [document_of]; constructor; try easy.
  - now left.
  - destruct b; [right; now left|right; right; now left].
  - now right; right; right.
  - apply Forall_map, Forall_forall. intros v Hin.
    match goal with Hf : Forall _ _ |- _ => rewrite Forall_forall in IH, Hf; now apply IH, Hf end.
  - apply (Permutation_Forall (Permutation_sym (sort_members_perm _))). apply Forall_map, Forall_forall. intros v Hin.
    match goal with Hf : Forall _ _ |- _ => rewrite Forall_forall in IH, Hf; now apply IH, Hf end.
  - apply sort_members_sorted. now rewrite map_map.
Qed.

(** A parsed value and its document have one text: what
    [mysql_json_text] prints of a value with distinct keys, [mysql_json_document_text] reads
    and prints again. *)
Theorem value_text_is_document_text value : value_ok 0 value ->
  mysql_json_document_text (mysql_json_text value) = Ok (mysql_json_text value).
Proof.
  intros Hv%document_of_ok. rewrite mysql_json_text_document. unfold mysql_json_document_text.
  pose proof (proj1 (written_back (2 * length (write (document_of value)) + 2)) 0%nat (document_of value) [] Hv I) as Hb.
  rewrite app_nil_r in Hb. now rewrite Hb by lia.
Qed.

End parsing.

(** ** A small library *)

(** Escapes for the quote and the backslash, numbers without an exponent, and one with. *)
Fixpoint escape (text : list byte) : list byte :=
  match text with
  | [] => []
  | b :: text => if byte_eqb b double_quote || byte_eqb b backslash then backslash :: b :: escape text else b :: escape text
  end.

Fixpoint unescape (body : list byte) : list byte :=
  match body with
  | b :: (c :: body') as rest => if byte_eqb b backslash then c :: unescape body' else b :: unescape rest
  | _ => body
  end.

Definition sample_number_read (token : list byte) : option (option Z * list byte) :=
  if bytes_eqb token (ascii "1e2") then Some (Some 100, token)
  else if has_exponent token then None
  else match token with [] => None | _ => if forallb is_number_byte token then Some (None, token) else None end.

#[local] Instance sample_json : JsonLibrary := {|
  string_read token := match token with
                       | q :: rest => match scan_string rest with Some (body, []) => Some (unescape body) | _ => None end
                       | [] => None
                       end;
  string_text text := double_quote :: escape text ++ [double_quote];
  number_read := sample_number_read;
  mysql_text := dec_text
|}.

Lemma escape_body text : string_body (escape text).
Proof.
  induction text as [|b text IH]; cbn [escape]; [constructor|]. destruct (byte_eqb b double_quote) eqn:Eq; [now constructor|].
  destruct (byte_eqb b backslash) eqn:Eb; now constructor.
Qed.

Lemma unescape_escape text : unescape (escape text) = text.
Proof.
  induction text as [|b text IH]; [easy|]. cbn [escape]. destruct (byte_eqb b double_quote || byte_eqb b backslash) eqn:E.
  - cbn [unescape]. rewrite byte_eqb_refl. now f_equal.
  - apply orb_false_elim in E as [_ Eb]. destruct (escape text) as [|c rest] eqn:Ec; cbn [unescape]; [now rewrite <- IH|]. rewrite Eb. now f_equal.
Qed.

#[local] Instance sample_lawful : LawfulJson.
Proof.
  split.
  - intros text. cbn. rewrite (scan_string_body _ _ (escape_body text)). now rewrite unescape_escape.
  - intros text. exists (escape text). split; [easy|apply escape_body].
  - intros token float text. cbn. unfold sample_number_read. destruct (bytes_eqb token (ascii "1e2")); [intros [= <- <-] _|].
    + now split_and!.
    + intros H He. now rewrite He in H.
Qed.

(** A document's text, with its quotes. *)
Definition quoted_text (text : string) : list byte :=
  map (fun b => if byte_eqb b (byte.of_Z 39) then double_quote else b) (ascii text).


Lemma value_text_is_document_text_witness :
  mysql_json_text (JObject [(ascii "bb", JArray [JNumber (Some 100) []; JNull]); (ascii "a", JString (ascii "x"))]) = quoted_text "{'a': 'x', 'bb': [100.0, null]}" /\
  mysql_json_document_text (mysql_json_text (JObject [(ascii "bb", JArray [JNumber (Some 100) []; JNull]); (ascii "a", JString (ascii "x"))])) =
    Ok (mysql_json_text (JObject [(ascii "bb", JArray [JNumber (Some 100) []; JNull]); (ascii "a", JString (ascii "x"))])).
Proof.
  split; [vm_compute; reflexivity|]. apply value_text_is_document_text.
  constructor; [unfold MAX_DEPTH; lia| |vm_compute; apply (bool_decide_unpack _); vm_compute; exact I].
  constructor; [|constructor; [constructor; unfold MAX_DEPTH; lia|constructor]]. constructor; [unfold MAX_DEPTH; lia|].
  constructor; [|constructor; [constructor; unfold MAX_DEPTH; lia|constructor]]. constructor; [unfold MAX_DEPTH; lia|now split_and!].
Defined.

(** A document nested one level past the hundred that MySQL allows is read;
    the next level is refused. *)
Theorem nesting_bound_is_one_more `{JsonLibrary} :
  mysql_json_document_text (repeat bracket_open 101 ++ repeat bracket_close 101) = Ok (repeat bracket_open 101 ++ repeat bracket_close 101) /\
  mysql_json_document_text (repeat bracket_open 102 ++ repeat bracket_close 102) = Err TooDeep.
Proof. split; vm_compute; reflexivity. Qed.
