(* ===== verification/RowValues.v ===== *)
(** * The values of a row image ([src/crates/pintail-cdc/src/rowimage.rs])

    The packed forms a rows event writes values in, and the text or number each is stored
    as: decimals in groups of nine digits, dates and times packed in big-endian integers,
    integers of one to eight bytes.  Arithmetic is kept at the width the code gives it.
    The theorems read each form back from the packing MySQL documents for it. *)

From Stdlib Require Import ZArith Lia String.
From stdpp Require Import prelude list.
From coqutil Require Import Byte LittleEndianList.
From S2P Require Import Prelude.
From S2P Require Import Types.
From S2P Require Import Text.

#[local] Open Scope Z_scope.

Definition GROUP_DIGITS : nat := 9.
Definition PARTIAL_GROUP_BYTES : list nat := [0; 1; 1; 2; 2; 3; 3; 4; 4; 4]%nat.
Definition partial_bytes (digits : nat) : nat := nth digits PARTIAL_GROUP_BYTES 0%nat.

(** [POWERS_OF_TEN[n]]. *)
Definition power_of_ten (n : nat) : Z := 10 ^ Z.of_nat n.

(** The integer type a stored integer is checked against. *)
Inductive IntegerTarget : Type :=
| ToBoolean
| ToSigned (data_type : DataType)
| ToUnsigned (data_type : DataType).

(** ** Integers of bytes *)

(** [(value << 8) | byte] on a [u64]. *)
Definition shift_in (value : Z) (b : byte) : Z := (value * 256) mod 2 ^ 64 + byte.unsigned b.

Definition unsigned_bytes (bytes : list byte) (big_endian : bool) : Z :=
  foldl shift_in 0 (if big_endian then bytes else rev bytes).

Definition high_bit (b : byte) : bool := 128 <=? byte.unsigned b.

(** [i64::from_be_bytes] of the bytes behind their sign. *)
Definition signed_big_endian (bytes : list byte) : Z :=
  let negative := match bytes with b :: _ => high_bit b | [] => false end in
  signed 64 (unsigned_bytes (replicate (8 - length bytes) (byte.of_Z (if negative then 255 else 0)) ++ bytes) true).

(** ** Digits *)

Definition digit_at (value : Z) (position : nat) : byte := digit_byte ((value / power_of_ten position) mod 10).

Fixpoint push_digits (text : list byte) (value : Z) (width : nat) : list byte :=
  match width with O => text | S position => push_digits (text ++ [digit_at value position]) value position end.

(** [while width < 10 && value >= POWERS_OF_TEN[width]]. *)
Fixpoint number_width (fuel : nat) (width : nat) (value : Z) : nat :=
  match fuel with
  | O => width
  | S fuel => if (width <? 10)%nat && (power_of_ten width <=? value) then number_width fuel (S width) value else width
  end.

Definition push_number (text : list byte) (value : Z) : list byte :=
  let width := number_width 10 1 value in
  if (width =? 10)%nat then push_digits (text ++ [digit_byte (value / 1000000000)]) value 9
  else push_digits text value width.

(** ** Packed decimals *)

(** The bytes of one group, from [index] on, without the sign's flips. *)
Fixpoint group_bytes (raw : list byte) (flip : Z) (position index : nat) (length : nat) (value : Z) : option Z :=
  match length with
  | O => Some value
  | S length =>
      match raw !! index with
      | None => None
      | Some b =>
          let b := Z.lxor (Z.lxor (byte.unsigned b) flip) (if (index =? 0)%nat then 128 else 0) in
          if (index =? position)%nat && (128 <=? b) then None
          else group_bytes raw flip position (S index) length ((value * 256) mod 2 ^ 32 + b)
      end
  end.

Definition group (raw : list byte) (flip : Z) (position length digits : nat) : option (Z * nat) :=
  match group_bytes raw flip position position length 0 with
  | Some value => if value <? power_of_ten digits then Some (value, (position + length)%nat) else None
  | None => None
  end.

(** [write_integer], with [started]. *)
Definition write_integer (text : list byte) (started : bool) (value : Z) : list byte * bool :=
  if started then (push_digits text value GROUP_DIGITS, true)
  else if value =? 0 then (text, false)
  else (push_number text value, true).

Fixpoint integer_groups (raw : list byte) (flip : Z) (count position : nat) (text : list byte) (started : bool) : option (nat * list byte * bool) :=
  match count with
  | O => Some (position, text, started)
  | S count =>
      match group raw flip position 4 GROUP_DIGITS with
      | None => None
      | Some (value, position) => let '(text, started) := write_integer text started value in integer_groups raw flip count position text started
      end
  end.

Fixpoint fraction_groups (raw : list byte) (flip : Z) (count position : nat) (text : list byte) : option (nat * list byte) :=
  match count with
  | O => Some (position, text)
  | S count =>
      match group raw flip position 4 GROUP_DIGITS with
      | None => None
      | Some (value, position) => fraction_groups raw flip count position (push_digits text value GROUP_DIGITS)
      end
  end.

(** The integer digits, the leading partial group first. *)
Definition decimal_integer (raw : list byte) (flip : Z) (integer_digits : nat) (text : list byte) : option (nat * list byte * bool) :=
  let leading := (integer_digits mod GROUP_DIGITS)%nat in
  let count := (integer_digits / GROUP_DIGITS)%nat in
  if (0 <? leading)%nat then
    match group raw flip 0 (partial_bytes leading) leading with
    | None => None
    | Some (value, position) => let '(text, started) := write_integer text false value in integer_groups raw flip count position text started
    end
  else integer_groups raw flip count 0 text false.

Definition decimal_fraction (raw : list byte) (flip : Z) (scale position : nat) (text : list byte) : option (list byte) :=
  let trailing := (scale mod GROUP_DIGITS)%nat in
  match fraction_groups raw flip (scale / GROUP_DIGITS) position text with
  | None => None
  | Some (position, text) =>
      if (0 <? trailing)%nat then
        match group raw flip position (partial_bytes trailing) trailing with
        | None => None
        | Some (value, _) => Some (push_digits text value trailing)
        end
      else Some text
  end.

(** A scale past the precision makes [integer_digits] wrap around, and the groups then run
    past the end of the bytes. *)
Definition decimal_text (raw : list byte) (precision scale : nat) : option (list byte) :=
  match raw with
  | [] => None
  | first :: _ =>
      let negative := negb (high_bit first) in
      let flip := if negative then 255 else 0 in
      if (precision <? scale)%nat then None
      else
        match decimal_integer raw flip (precision - scale) (if negative then [minus_byte] else []) with
        | None => None
        | Some (position, text, started) =>
            if negb started && (scale =? 0)%nat then Some (ascii "0")
            else
              let text := if started then text else text ++ [zero_byte] in
              let text := if (0 <? scale)%nat then text ++ [dot_byte] else text in
              decimal_fraction raw flip scale position text
        end
  end.

Definition decimal_size (precision scale : nat) : nat :=
  let integer_digits := (precision - scale)%nat in
  (integer_digits / GROUP_DIGITS * 4 + partial_bytes (integer_digits mod GROUP_DIGITS) +
   scale / GROUP_DIGITS * 4 + partial_bytes (scale mod GROUP_DIGITS))%nat.

(** ** Dates and times *)

Definition push_fraction (text : list byte) (micros fsp : Z) : list byte :=
  if fsp =? 0 then text
  else
    let digits := Z.to_nat (Z.min fsp 6) in
    push_digits (text ++ [dot_byte]) (micros / power_of_ten (6 - digits)) digits.

Record Moment : Type := {
  m_year : Z; m_month : Z; m_day : Z; m_hour : Z; m_minute : Z; m_second : Z
}.

Definition datetime_value (parts : Moment) (micros fsp : Z) : Value :=
  let '{| m_year := year; m_month := month; m_day := day; m_hour := hour; m_minute := minute; m_second := second |} := parts in
  if (year =? 0) && (month =? 0) && (day =? 0) then
    VUtf8 (ascii "0000-00-00 00:00:00" ++ (if 0 <? fsp then dot_byte :: replicate (Z.to_nat fsp) zero_byte else []))
  else if (9999 <? year) || (12 <? month) || (31 <? day) || (24 <=? hour) || (60 <=? minute) || (60 <=? second) || (1000000 <=? micros)
  then VNull
  else
    let text := push_digits [] year 4 ++ [minus_byte] in
    let text := push_digits text month 2 ++ [minus_byte] in
    let text := push_digits text day 2 ++ [space_byte] in
    let text := push_digits text hour 2 ++ [colon_byte] in
    let text := push_digits text minute 2 ++ [colon_byte] in
    let text := push_digits text second 2 in
    VUtf8 (push_fraction text micros fsp).

Definition fraction_bytes (precision : Z) : nat :=
  if (precision =? 1) || (precision =? 2) then 1%nat
  else if (precision =? 3) || (precision =? 4) then 2%nat
  else if (precision =? 5) || (precision =? 6) then 3%nat
  else 0%nat.

Definition fraction_micros (bytes : list byte) : Z :=
  match length bytes with
  | 1%nat => signed_big_endian bytes * 10000
  | 2%nat => signed_big_endian bytes * 100
  | 3%nat => signed_big_endian bytes
  | _ => 0
  end.

(** [split_at_checked]. *)
Definition split_at_checked (n : nat) (raw : list byte) : option (list byte * list byte) :=
  if (n <=? length raw)%nat then Some (take n raw, drop n raw) else None.

(** A sum or product of [i64], which wraps. *)
Definition wrap_i64 (z : Z) : Z := signed 64 (z mod 2 ^ 64).

(** [i64::abs]. *)
Definition abs_i64 (z : Z) : Z := wrap_i64 (Z.abs z).

(** [u32::try_from]. *)
Definition u32_part (z : Z) : option Z := if is_u32 z then Some z else None.

(** The parts of the packed integer. *)
Definition unpack_datetime (packed fsp : Z) : option Value :=
  let micros := Z.rem packed (2 ^ 24) in
  let clock_and_date := Z.shiftr packed 24 in
  let date := Z.shiftr clock_and_date 17 in
  let year_month := Z.shiftr date 5 in
  let clock := Z.rem clock_and_date (2 ^ 17) in
  year ← u32_part (Z.quot year_month 13);
  month ← u32_part (Z.rem year_month 13);
  day ← u32_part (Z.rem date (2 ^ 5));
  hour ← u32_part (Z.shiftr clock 12);
  minute ← u32_part (Z.rem (Z.shiftr clock 6) (2 ^ 6));
  second ← u32_part (Z.rem clock (2 ^ 6));
  micros ← u32_part micros;
  Some (datetime_value {| m_year := year; m_month := month; m_day := day; m_hour := hour; m_minute := minute; m_second := second |} micros fsp).

Definition packed_datetime (raw : list byte) (fsp : Z) : option Value :=
  match split_at_checked 5 raw with
  | None => None
  | Some (whole, fraction) =>
      let whole := unsigned_bytes whole true - 0x8000000000 in
      unpack_datetime (abs_i64 (wrap_i64 (whole * 2 ^ 24 + fraction_micros fraction))) fsp
  end.

(** [chrono::DateTime::<Utc>::from_timestamp]. *)
Class Calendar : Type := { from_timestamp : Z -> option Moment }.

Definition zero_moment : Moment := {| m_year := 0; m_month := 0; m_day := 0; m_hour := 0; m_minute := 0; m_second := 0 |}.

Definition epoch_timestamp `{Calendar} (raw : list byte) (fsp : Z) : option Value :=
  '(whole, fraction) ← split_at_checked 4 raw;
  let seconds := signed 32 (unsigned_bytes whole true) in
  micros ← u32_part (fraction_micros fraction);
  if 1000000 <=? micros then None
  else if seconds =? 0 then Some (datetime_value zero_moment 0 fsp)
  else
    moment ← from_timestamp seconds;
    if is_u16 (m_year moment) then Some (datetime_value moment micros fsp) else None.

Definition packed_date (raw : list byte) : option Value :=
  packed ← u32_part (unsigned_bytes raw false);
  let year := Z.shiftr packed 9 in
  let month := Z.land (Z.shiftr packed 5) 15 in
  let day := Z.land packed 31 in
  if (year =? 0) && (month =? 0) && (day =? 0) then Some (VUtf8 (ascii "0000-00-00"))
  else if (9999 <? year) || (12 <? month) || (31 <? day) then Some VNull
  else
    let text := push_digits [] year 4 ++ [minus_byte] in
    let text := push_digits text month 2 ++ [minus_byte] in
    Some (VUtf8 (push_digits text day 2)).

(** ** Stored integers *)

(** [Result<i64, u64>]: a value read, or one kept unsigned. *)
Inductive ReadInteger : Type := ReadSigned (i : Z) | ReadUnsigned (u : Z).

(** [i8::try_from(value).is_ok()] and the like, by the declared type. *)
Definition signed_fits (data_type : DataType) (value : Z) : bool :=
  match data_type with
  | DInt8 => in_signed 8 value
  | DInt16 => in_signed 16 value
  | DInt32 => in_signed 32 value
  | _ => true
  end.

Definition unsigned_fits (data_type : DataType) (value : Z) : bool :=
  match data_type with
  | DUInt8 => is_u8 value
  | DUInt16 => is_u16 value
  | DUInt32 => is_u32 value
  | DYear => (value =? 0) || ((1901 <=? value) && (value <=? 2155))
  | _ => true
  end.

Definition read_integer (raw : list byte) (unsigned_in_map : bool) (declared_width : option nat) : ReadInteger :=
  let negative := negb unsigned_in_map && match last raw with Some b => high_bit b | None => false end in
  let wide := raw ++ replicate (8 - length raw) (byte.of_Z (if negative then 255 else 0)) in
  let bits := from_le wide in
  let read := if negative then ReadSigned (signed 64 bits) else if is_i64 bits then ReadSigned bits else ReadUnsigned bits in
  match read, declared_width with
  | ReadSigned _, Some width => ReadUnsigned (from_le (take width wide ++ replicate (8 - width) (byte.of_Z 0)))
  | read, _ => read
  end.

Definition integer_value (raw : list byte) (unsigned_in_map : bool) (declared_width : option nat) (target : IntegerTarget) : option Value :=
  let read := read_integer raw unsigned_in_map declared_width in
  match target with
  | ToBoolean => Some (VBoolean match read with ReadSigned i => negb (i =? 0) | ReadUnsigned u => negb (u =? 0) end)
  | ToSigned data_type =>
      value ← match read with ReadSigned i => Some i | ReadUnsigned u => if is_i64 u then Some u else None end;
      if signed_fits data_type value then Some (VInt64 value) else None
  | ToUnsigned data_type =>
      value ← match read with ReadSigned i => if is_u64 i then Some i else None | ReadUnsigned u => Some u end;
      if unsigned_fits data_type value then Some (VUInt64 value) else None
  end.

(** ** Bytes and their integers *)

Lemma from_le_byte b : from_le [b] = byte.unsigned b.
Proof. unfold from_le, LittleEndianList.le_combine. now rewrite Z.shiftl_0_l, Z.lor_0_r. Qed.

Lemma foldl_shift w bs : forall v k, 0 <= v < 2 ^ (8 * Z.of_nat k) -> 8 * Z.of_nat (k + length bs) <= w ->
  foldl (fun value b => (value * 256) mod 2 ^ w + byte.unsigned b) v bs = v * 2 ^ (8 * len bs) + from_le (rev bs).
Proof.
  induction bs as [|b bs IH]; intros v k Hv Hw; [cbn [foldl]; change (len (@nil byte)) with 0; rewrite Z.mul_0_r, Z.pow_0_r; change (from_le (rev [])) with 0; lia|]. cbn [foldl length] in *.
  assert (Hk : 2 ^ (8 * Z.of_nat (S k)) = 256 * 2 ^ (8 * Z.of_nat k)).
  { replace (8 * Z.of_nat (S k)) with (8 + 8 * Z.of_nat k) by lia. rewrite Z.pow_add_r by lia. reflexivity. }
  assert (Hm : 2 ^ (8 * Z.of_nat (S k)) <= 2 ^ w) by (apply Z.pow_le_mono_r; lia).
  pose proof (byte.unsigned_range b) as Hb. rewrite Z.mod_small by lia. rewrite (IH _ (S k)) by lia.
  cbn [rev]. rewrite from_le_app. replace (len (rev bs)) with (len bs) by (unfold len; now rewrite length_rev).
  replace (8 * len (b :: bs)) with (8 + 8 * len bs) by (rewrite len_cons; lia). rewrite Z.pow_add_r by (pose proof (len_nonneg bs); lia).
  rewrite from_le_byte. change (2 ^ 8) with 256. ring.
Qed.

Lemma unsigned_big bs : (length bs <= 8)%nat -> unsigned_bytes bs true = from_le (rev bs).
Proof. intros Hl. unfold unsigned_bytes. change shift_in with (fun value b => (value * 256) mod 2 ^ 64 + byte.unsigned b). rewrite (foldl_shift 64 bs 0 0) by (cbn; lia). lia. Qed.

Lemma unsigned_little bs : (length bs <= 8)%nat -> unsigned_bytes bs false = from_le bs.
Proof.
  intros Hl. change (unsigned_bytes bs false) with (unsigned_bytes (rev bs) true). rewrite unsigned_big by now rewrite length_rev. now rewrite rev_involutive.
Qed.

(** The big-endian bytes of an integer. *)
Definition to_be (n : nat) (z : Z) : list byte := rev (to_le n z).

Lemma length_to_be n z : length (to_be n z) = n.
Proof. unfold to_be. rewrite length_rev. pose proof (len_to_le n z). unfold len in *. lia. Qed.

Lemma unsigned_to_be n z : (n <= 8)%nat -> 0 <= z < 2 ^ (8 * Z.of_nat n) -> unsigned_bytes (to_be n z) true = z.
Proof. intros Hn Hz. rewrite unsigned_big by now rewrite length_to_be. unfold to_be. rewrite rev_involutive, from_to_le. now apply Z.mod_small. Qed.

(** The top bit of the first byte. *)
Lemma high_bit_be b bs : high_bit b = (2 ^ (8 * len bs + 7) <=? from_le (rev (b :: bs))).
Proof.
  cbn [rev]. rewrite from_le_app. rewrite from_le_byte.
  replace (len (rev bs)) with (len bs) by (unfold len; now rewrite length_rev). pose proof (from_le_range (rev bs)) as Hr.
  replace (len (rev bs)) with (len bs) in Hr by (unfold len; now rewrite length_rev). pose proof (len_nonneg bs).
  rewrite Z.pow_add_r by lia. change (2 ^ 7) with 128. set (p := 2 ^ (8 * len bs)) in *. unfold high_bit.
  destruct (Z.leb_spec 128 (byte.unsigned b)), (Z.leb_spec (p * 128) (from_le (rev bs) + p * byte.unsigned b)); nia.
Qed.

Lemma from_le_ones n : from_le (replicate n (byte.of_Z 255)) = 2 ^ (8 * Z.of_nat n) - 1.
Proof.
  induction n as [|n IH]; [reflexivity|]. change (replicate (S n) (byte.of_Z 255)) with ([byte.of_Z 255] ++ replicate n (byte.of_Z 255)).
  rewrite from_le_app, IH, from_le_byte. change (byte.unsigned (byte.of_Z 255)) with 255. change (8 * len [byte.of_Z 255]) with 8.
  replace (8 * Z.of_nat (S n)) with (8 + 8 * Z.of_nat n) by lia. rewrite Z.pow_add_r by lia. change (2 ^ 8) with 256. ring.
Qed.

Lemma rev_replicate {A} n (x : A) : rev (replicate n x) = replicate n x.
Proof.
  induction n as [|n IH]; [reflexivity|]. cbn [replicate rev]. rewrite IH. clear IH. induction n as [|n IH]; [reflexivity|]. cbn [replicate app]. now rewrite IH.
Qed.

(** A value extended with its sign to eight bytes, from its own width. *)
Lemma sign_extended n x : (1 <= n <= 8)%nat -> 0 <= x < 2 ^ (8 * Z.of_nat n) ->
  signed 64 (x + 2 ^ (8 * Z.of_nat n) * from_le (replicate (8 - n) (byte.of_Z (if 2 ^ (8 * Z.of_nat n - 1) <=? x then 255 else 0)))) =
  signed (8 * Z.of_nat n) x.
Proof.
  intros Hn Hx. unfold signed. assert (Hp : 2 ^ (8 * Z.of_nat n) = 2 * 2 ^ (8 * Z.of_nat n - 1)) by (rewrite <- Z.pow_succ_r by lia; f_equal; lia).
  assert (Hm : 2 ^ (8 * Z.of_nat n - 1) <= 2 ^ (64 - 1)) by (apply Z.pow_le_mono_r; lia).
  destruct (Z.leb_spec (2 ^ (8 * Z.of_nat n - 1)) x).
  - rewrite from_le_ones, Z.mul_sub_distr_l, <- Z.pow_add_r by lia. replace (8 * Z.of_nat n + 8 * Z.of_nat (8 - n)) with 64 by lia.
    change (2 ^ 64) with (2 * 2 ^ (64 - 1)) in *. destruct (Z.ltb_spec x (2 ^ (8 * Z.of_nat n - 1))); [lia|].
    destruct (Z.ltb_spec (x + (2 * 2 ^ (64 - 1) - 2 ^ (8 * Z.of_nat n) * 1)) (2 ^ (64 - 1))); lia.
  - change (byte.of_Z 0) with Byte.x00. rewrite from_le_zeros, Z.mul_0_r, Z.add_0_r.
    destruct (Z.ltb_spec x (2 ^ (8 * Z.of_nat n - 1))); [|lia]. destruct (Z.ltb_spec x (2 ^ (64 - 1))); lia.
Qed.

Lemma signed_be bs : (1 <= length bs <= 8)%nat -> signed_big_endian bs = signed (8 * len bs) (from_le (rev bs)).
Proof.
  intros Hl. destruct bs as [|b bs]; [cbn in Hl; lia|]. unfold signed_big_endian. cbv beta iota zeta. rewrite (high_bit_be b bs).
  rewrite unsigned_big by (rewrite length_app, length_replicate; cbn in *; lia). rewrite rev_app_distr, from_le_app, rev_replicate.
  pose proof (from_le_range (rev (b :: bs))) as Hr. set (l := b :: bs) in *. replace (8 * len bs + 7) with (8 * len l - 1) by (unfold l; rewrite len_cons; lia).
  replace (len (rev l)) with (len l) in * by (unfold len; now rewrite length_rev). now apply (sign_extended (length l)).
Qed.

Lemma signed_to_be n z : (1 <= n <= 8)%nat -> in_signed (8 * Z.of_nat n) z = true -> signed_big_endian (to_be n z) = z.
Proof.
  intros Hn Hz. rewrite signed_be by now rewrite length_to_be. unfold to_be. rewrite rev_involutive, from_to_le.
  replace (len (rev (to_le n z))) with (Z.of_nat n) by (unfold len; fold (to_be n z); now rewrite length_to_be). apply signed_mod; [lia|easy].
Qed.

(** ** Digits *)

Lemma push_digits_spec ds : forall text k, all_digits ds = true -> 0 <= k -> push_digits text (k * 10 ^ len ds + digits_value ds) (length ds) = text ++ ds.
Proof.
  induction ds as [|d ds IH]; intros text k Hd Hk; [cbn; now rewrite app_nil_r|]. cbn [all_digits forallb] in Hd. apply andb_prop in Hd as [Hd Hds].
  cbn [length push_digits]. rewrite digits_value_cons. pose proof (digits_value_range ds Hds) as Hr. apply is_digit_spec in Hd as Hb.
  assert (Ep : 10 ^ len (d :: ds) = 10 * 10 ^ len ds) by (rewrite len_cons, (Z.add_comm 1), Z.pow_add_r by (pose proof (len_nonneg ds); lia); lia).
  rewrite Ep. assert (Ev : digit_at (k * (10 * 10 ^ len ds) + (digit_of d * 10 ^ len ds + digits_value ds)) (length ds) = d).
  { unfold digit_at, power_of_ten. fold (len ds).
    replace (k * (10 * 10 ^ len ds) + (digit_of d * 10 ^ len ds + digits_value ds)) with (digits_value ds + (k * 10 + digit_of d) * 10 ^ len ds) by ring.
    rewrite Z.div_add, (Z.div_small (digits_value ds)) by lia. rewrite Z.add_0_l, Z.add_comm, Z.mod_add, Z.mod_small by lia. now apply digit_byte_of. }
  rewrite Ev. replace (k * (10 * 10 ^ len ds) + (digit_of d * 10 ^ len ds + digits_value ds)) with ((k * 10 + digit_of d) * 10 ^ len ds + digits_value ds) by ring.
  rewrite IH; [now rewrite <- app_assoc|exact Hds|lia].
Qed.

Lemma push_digits_text text ds : all_digits ds = true -> push_digits text (digits_value ds) (length ds) = text ++ ds.
Proof. intros Hd. pose proof (push_digits_spec ds text 0 Hd) as H. rewrite Z.mul_0_l, Z.add_0_l in H. now apply H. Qed.

Lemma push_digits_padded text value (width : nat) : (1 <= width)%nat -> 0 <= value < 10 ^ Z.of_nat width ->
  push_digits text value width = text ++ dec_padded (Z.of_nat width) value.
Proof.
  intros Hw Hv. destruct (dec_padded_spec (Z.of_nat width) value) as (Hd & E & Hl); [lia..|].
  pose proof (push_digits_text text _ Hd) as Hp. rewrite E in Hp. unfold len in Hl. replace (length (dec_padded (Z.of_nat width) value)) with width in Hp by lia. exact Hp.
Qed.

Lemma number_width_spec fuel : forall width value, (1 <= width <= 10)%nat -> (10 <= width + fuel)%nat -> (width = 1%nat \/ power_of_ten (width - 1) <= value) ->
  let w := number_width fuel width value in (1 <= w <= 10)%nat /\ (w = 1%nat \/ power_of_ten (w - 1) <= value) /\ (w = 10%nat \/ value < power_of_ten w).
Proof.
  induction fuel as [|fuel IH]; intros width value Hw Hf Hl; cbn [number_width]; [split_and!; [lia..|easy|left; lia]|].
  destruct (Nat.ltb_spec width 10); cbn [andb]; [|split_and!; [lia..|easy|left; lia]].
  destruct (Z.leb_spec (power_of_ten width) value); [|split_and!; [lia..|easy|now right]].
  apply IH; [lia..|]. right. now replace (S width - 1)%nat with width by lia.
Qed.

Lemma push_number_text text value : 0 <= value < 10 ^ 10 -> push_number text value = text ++ dec_text value.
Proof.
  intros Hv. unfold push_number. destruct (number_width_spec 10 1 value) as (Hw & Hl & Hu); [lia..|now left|].
  set (w := number_width 10 1 value) in *. clearbody w. destruct (dec_text_spec value) as (Hd & E & H1 & H0 & Hp); [lia|].
  assert (Hlen : length (dec_text value) = w).
  { destruct (Z.eq_dec value 0) as [->|Hz].
    - destruct Hl as [->|Hl]; [reflexivity|]. exfalso. unfold power_of_ten in Hl. pose proof (Z.pow_pos_nonneg 10 (Z.of_nat (w - 1))). lia.
    - specialize (Hp ltac:(lia)). assert (len (dec_text value) = Z.of_nat w); [|unfold len in *; lia].
      assert (value < 10 ^ Z.of_nat w) by (destruct Hu as [->|]; [lia|easy]).
      assert (10 ^ (Z.of_nat w - 1) <= value).
      { destruct Hl as [->|Hl]; [cbn; lia|]. unfold power_of_ten in Hl. now replace (Z.of_nat w - 1) with (Z.of_nat (w - 1)) by lia. }
      assert (len (dec_text value) - 1 < Z.of_nat w) by (apply (Z.pow_lt_mono_r_iff 10); lia).
      assert (Z.of_nat w - 1 < len (dec_text value)) by (apply (Z.pow_lt_mono_r_iff 10); lia). lia. }
  destruct (Nat.eqb_spec w 10) as [Ew|].
  - destruct (dec_text value) as [|d ds] eqn:Et; [cbn in Hlen; lia|]. cbn [all_digits forallb] in Hd. apply andb_prop in Hd as [Hd Hds].
    assert (Hds9 : length ds = 9%nat) by (cbn in Hlen; lia). rewrite digits_value_cons in E. replace (len ds) with 9 in E by (unfold len; lia).
    pose proof (digits_value_range ds Hds) as Hr. replace (len ds) with 9 in Hr by (unfold len; lia).
    replace (value / 1000000000) with (digit_of d) by (apply (Z.div_unique _ _ _ (digits_value ds)); lia). rewrite (digit_byte_of _ Hd).
    pose proof (push_digits_spec ds (text ++ [d]) (digit_of d) Hds) as Hs. replace (len ds) with 9 in Hs by (unfold len; lia). rewrite E, Hds9 in Hs.
    apply is_digit_spec in Hd. rewrite Hs by lia. now rewrite <- app_assoc.
  - pose proof (push_digits_text text _ Hd) as Hs. now rewrite E, Hlen in Hs.
Qed.

(** ** Leading zeros *)

Fixpoint strip_zeros (ds : list byte) : list byte :=
  match ds with d :: rest => if byte_eqb d zero_byte then strip_zeros rest else ds | [] => [] end.

Definition nonempty (bs : list byte) : bool := match bs with [] => false | _ => true end.

Lemma strip_zeros_app a b : strip_zeros (a ++ b) = if nonempty (strip_zeros a) then strip_zeros a ++ b else strip_zeros b.
Proof. induction a as [|d a IH]; cbn [app strip_zeros]; [easy|]. destruct (byte_eqb d zero_byte); [exact IH|reflexivity]. Qed.

Lemma strip_zeros_spec ds : all_digits ds = true -> all_digits (strip_zeros ds) = true /\ digits_value (strip_zeros ds) = digits_value ds /\
  (digits_value ds = 0 -> strip_zeros ds = []) /\ (0 < digits_value ds -> 10 ^ (len (strip_zeros ds) - 1) <= digits_value ds).
Proof.
  induction ds as [|d ds IH]; [easy|]. intros Hd. cbn [strip_zeros]. destruct (byte_eqb d zero_byte) eqn:E.
  - apply byte_eqb_spec in E as ->. cbn [all_digits forallb] in Hd. apply andb_prop in Hd as [_ Hd]. rewrite digits_value_cons.
    change (digit_of zero_byte) with 0. rewrite Z.mul_0_l, Z.add_0_l. now apply IH.
  - split; [easy|]. split; [easy|]. cbn [all_digits forallb] in Hd. apply andb_prop in Hd as [Hb Hd]. pose proof (digits_value_range ds Hd).
    rewrite digits_value_cons. apply is_digit_spec in Hb as Hb'. assert (digit_of d <> 0).
    { intros Hz. apply digit_byte_of in Hb. rewrite Hz in Hb. rewrite <- Hb in E. now rewrite byte_eqb_refl in E. }
    pose proof (Z.pow_pos_nonneg 10 (len ds) ltac:(lia) (len_nonneg ds)). rewrite len_cons. replace (1 + len ds - 1) with (len ds) by lia. split; intros; nia.
Qed.

Lemma strip_zeros_number ds : all_digits ds = true -> digits_value ds <> 0 -> strip_zeros ds = dec_text (digits_value ds).
Proof.
  intros Hd Hz. destruct (strip_zeros_spec ds Hd) as (H1 & H2 & _ & H3). pose proof (digits_value_range ds Hd).
  destruct (dec_text_spec (digits_value ds)) as (G1 & G2 & _ & _ & G3); [lia|]. specialize (G3 ltac:(lia)). specialize (H3 ltac:(lia)).
  pose proof (digits_value_range _ H1) as Hr. rewrite H2 in Hr. apply digits_value_inj; [easy..| |lia]. set (a := len (strip_zeros ds)) in *. set (b := len (dec_text (digits_value ds))) in *.
  assert (0 <= a) by apply len_nonneg. assert (0 <= b) by apply len_nonneg.
  assert (a - 1 < b) by (apply (Z.pow_lt_mono_r_iff 10); lia). assert (b - 1 < a) by (apply (Z.pow_lt_mono_r_iff 10); lia). lia.
Qed.

(** ** The packing of decimals *)

(** Nine digits to four bytes, a group after another. *)
Fixpoint pack_groups (count : nat) (ds : list byte) : list byte :=
  match count with O => [] | S count => to_be 4 (digits_value (take 9 ds)) ++ pack_groups count (drop 9 ds) end.

Definition pack_integer (ds : list byte) : list byte :=
  let leading := (length ds mod 9)%nat in
  to_be (partial_bytes leading) (digits_value (take leading ds)) ++ pack_groups (length ds / 9) (drop leading ds).

Definition pack_fraction (ds : list byte) : list byte :=
  let whole := (9 * (length ds / 9))%nat in
  pack_groups (length ds / 9) ds ++ to_be (partial_bytes (length ds mod 9)) (digits_value (drop whole ds)).

Definition mask (flip : Z) (i : nat) (b : byte) : byte :=
  byte.of_Z (Z.lxor (Z.lxor (byte.unsigned b) flip) (if (i =? 0)%nat then 128 else 0)).

(** [decimal2bin]: the groups of the integer digits and of the fraction, all bits inverted
    below zero, the sign bit inverted always. *)
Definition pack_decimal (negative : bool) (whole fraction : list byte) : list byte :=
  imap (mask (if negative then 255 else 0)) (pack_integer whole ++ pack_fraction fraction).

(** The text of a decimal: no leading zeros, every digit of the fraction. *)
Definition decimal_of (negative : bool) (whole fraction : list byte) : list byte :=
  if negb (nonempty (strip_zeros whole)) && negb (nonempty fraction) then ascii "0"
  else (if negative then [minus_byte] else []) ++ (if nonempty (strip_zeros whole) then strip_zeros whole else [zero_byte]) ++
       (if nonempty fraction then dot_byte :: fraction else []).

Definition flip_ok (flip : Z) : Prop := flip = 0 \/ flip = 255.

Lemma mask_range flip i b : flip_ok flip ->
  byte.unsigned (mask flip i b) = Z.lxor (Z.lxor (byte.unsigned b) flip) (if (i =? 0)%nat then 128 else 0).
Proof. unfold mask. intros [->| ->]; destruct (i =? 0)%nat; now destruct b. Qed.

Lemma unmask flip i b : flip_ok flip -> Z.lxor (Z.lxor (byte.unsigned (mask flip i b)) flip) (if (i =? 0)%nat then 128 else 0) = byte.unsigned b.
Proof. intros Hf. rewrite mask_range by easy. destruct Hf as [->| ->]; destruct (i =? 0)%nat; now destruct b. Qed.

Lemma group_bytes_read flip bs : flip_ok flip -> forall pre post position value, (position <= length pre)%nat ->
  (position = length pre -> match bs with b :: _ => high_bit b = false | [] => True end) ->
  group_bytes (imap (mask flip) (pre ++ bs ++ post)) flip position (length pre) (length bs) value =
  Some (foldl (fun value b => (value * 256) mod 2 ^ 32 + byte.unsigned b) value bs).
Proof.
  intros Hf. induction bs as [|b bs IH]; intros pre post position value Hp Hh; [easy|]. cbn [length group_bytes foldl].
  rewrite list_lookup_imap, lookup_app_r, Nat.sub_diag by lia. cbn [app lookup list_lookup fmap option_fmap option_map]. rewrite unmask by easy.
  destruct ((length pre =? position)%nat && (128 <=? byte.unsigned b)) eqn:E.
  - apply andb_prop in E as [E1 E2]. apply Nat.eqb_eq in E1. specialize (Hh (eq_sym E1)). unfold high_bit in Hh. congruence.
  - replace (pre ++ b :: bs ++ post) with ((pre ++ [b]) ++ bs ++ post) by now rewrite <- app_assoc.
    replace (S (length pre)) with (length (pre ++ [b])) by (rewrite length_app; cbn; lia). apply IH; rewrite length_app; cbn [length]; [lia|intros; lia].
Qed.

(** The first byte of a group, whose top bit is the sign's. *)
Definition head_clear (bs : list byte) : Prop := match bs with b :: _ => high_bit b = false | [] => False end.

Lemma to_be_head n v : (1 <= n)%nat -> 0 <= v < 2 ^ (8 * Z.of_nat n - 1) -> head_clear (to_be n v).
Proof.
  intros Hn Hv. assert (Hw : 2 ^ (8 * Z.of_nat n - 1) <= 2 ^ (8 * Z.of_nat n)) by (apply Z.pow_le_mono_r; lia).
  pose proof (length_to_be n v) as Hl. destruct (to_be n v) as [|b bs] eqn:E; [cbn in Hl; lia|]. cbn [head_clear]. rewrite (high_bit_be b bs), <- E. unfold to_be.
  rewrite rev_involutive, from_to_le, Z.mod_small by lia. apply Z.leb_gt. cbn [length] in Hl. replace (8 * len bs + 7) with (8 * Z.of_nat n - 1) by (unfold len; lia). lia.
Qed.

Lemma group_read flip pre post n digits v : flip_ok flip -> (1 <= n <= 4)%nat -> 0 <= v < power_of_ten digits -> power_of_ten digits <= 2 ^ (8 * Z.of_nat n - 1) ->
  group (imap (mask flip) (pre ++ to_be n v ++ post)) flip (length pre) n digits = Some (v, (length pre + n)%nat).
Proof.
  intros Hf Hn Hv Hp. unfold group. assert (Hw : 2 ^ (8 * Z.of_nat n - 1) <= 2 ^ (8 * Z.of_nat n)) by (apply Z.pow_le_mono_r; lia).
  rewrite <- (length_to_be n v) at 2. rewrite group_bytes_read; [|easy|lia|].
  - rewrite (foldl_shift 32 _ 0 0) by (rewrite ?length_to_be; cbn; lia). unfold to_be. rewrite rev_involutive, from_to_le, Z.mul_0_l, Z.add_0_l, Z.mod_small by lia.
    destruct (Z.ltb_spec v (power_of_ten digits)); [easy|lia].
  - intros _. pose proof (to_be_head n v) as Hh. destruct (to_be n v); [easy|]. apply Hh; lia.
Qed.

Lemma partial_enough d : (1 <= d <= 8)%nat -> (1 <= partial_bytes d <= 4)%nat /\ power_of_ten d <= 2 ^ (8 * Z.of_nat (partial_bytes d) - 1).
Proof. intros Hd. do 9 (destruct d as [|d]; [first [lia | split; [cbn; lia|now vm_compute]]|]). lia. Qed.

Lemma all_digits_split n ds : all_digits ds = true -> all_digits (take n ds) = true /\ all_digits (drop n ds) = true.
Proof. intros Hd. rewrite <- (take_drop n ds), all_digits_app in Hd. now apply andb_prop in Hd. Qed.

Lemma group_value ds n : all_digits ds = true -> length ds = n -> 0 <= digits_value ds < power_of_ten n.
Proof. intros Hd <-. exact (digits_value_range ds Hd). Qed.

Lemma write_integer_step sign done ds : all_digits ds = true -> (length ds <= 9)%nat -> (nonempty (strip_zeros done) = true -> length ds = 9%nat) ->
  write_integer (sign ++ strip_zeros done) (nonempty (strip_zeros done)) (digits_value ds) =
  (sign ++ strip_zeros (done ++ ds), nonempty (strip_zeros (done ++ ds))).
Proof.
  intros Hd Hl H9. rewrite strip_zeros_app. unfold write_integer. destruct (nonempty (strip_zeros done)) eqn:En.
  - pose proof (push_digits_text (sign ++ strip_zeros done) ds Hd) as Hp. rewrite (H9 eq_refl) in Hp. unfold GROUP_DIGITS. rewrite Hp, <- app_assoc. now destruct (strip_zeros done).
  - assert (Ez : strip_zeros done = []) by now destruct (strip_zeros done). rewrite Ez, app_nil_r.
    destruct (Z.eqb_spec (digits_value ds) 0) as [E|E].
    + destruct (strip_zeros_spec ds Hd) as (_ & _ & H0 & _). rewrite (H0 E). now rewrite app_nil_r.
    + pose proof (group_value ds _ Hd eq_refl) as Hv. assert (power_of_ten (length ds) <= 10 ^ 9) by (unfold power_of_ten; apply Z.pow_le_mono_r; lia).
      rewrite push_number_text by lia. rewrite (strip_zeros_number ds Hd E). destruct (dec_text_spec (digits_value ds)) as (_ & _ & Hn & _); [lia|].
      now destruct (dec_text (digits_value ds)).
Qed.

Lemma length_pack_groups count : forall ds, length (pack_groups count ds) = (4 * count)%nat.
Proof. induction count as [|count IH]; intros ds; cbn [pack_groups]; [easy|]. rewrite length_app, length_to_be, IH. lia. Qed.

(** The whole groups, the next of them at the end of [pre]. *)
Lemma whole_group_read flip pre ds rest : flip_ok flip -> all_digits ds = true -> (9 <= length ds)%nat ->
  group (imap (mask flip) (pre ++ to_be 4 (digits_value (take 9 ds)) ++ rest)) flip (length pre) 4 GROUP_DIGITS =
  Some (digits_value (take 9 ds), length (pre ++ to_be 4 (digits_value (take 9 ds)))).
Proof.
  intros Hf Hd Hl. rewrite length_app, length_to_be. apply group_read; [easy|lia| |now vm_compute].
  apply group_value; [now apply all_digits_split|]. rewrite length_take. unfold GROUP_DIGITS. lia.
Qed.

Lemma integer_groups_read flip sign count : flip_ok flip -> forall ds done pre post, all_digits ds = true -> length ds = (9 * count)%nat ->
  integer_groups (imap (mask flip) (pre ++ pack_groups count ds ++ post)) flip count (length pre) (sign ++ strip_zeros done) (nonempty (strip_zeros done)) =
  Some (length (pre ++ pack_groups count ds), sign ++ strip_zeros (done ++ ds), nonempty (strip_zeros (done ++ ds))).
Proof.
  intros Hf. induction count as [|count IH]; intros ds done pre post Hd Hl.
  - assert (ds = []) as -> by (destruct ds; [easy|cbn in Hl; lia]). cbn [pack_groups integer_groups]. now rewrite !app_nil_r.
  - cbn [pack_groups integer_groups]. rewrite <- app_assoc, whole_group_read by (easy || lia).
    destruct (all_digits_split 9 ds Hd) as [H1 H2]. assert (L1 : length (take 9 ds) = 9%nat) by (rewrite length_take; lia).
    rewrite write_integer_step by (easy || lia). rewrite (app_assoc pre), IH by (easy || (rewrite length_drop; lia)).
    now rewrite <- !app_assoc, take_drop.
Qed.

Lemma fraction_groups_read flip count : flip_ok flip -> forall ds text pre post, all_digits ds = true -> (9 * count <= length ds)%nat ->
  fraction_groups (imap (mask flip) (pre ++ pack_groups count ds ++ post)) flip count (length pre) text =
  Some (length (pre ++ pack_groups count ds), text ++ take (9 * count) ds).
Proof.
  intros Hf. induction count as [|count IH]; intros ds text pre post Hd Hl.
  - cbn [pack_groups fraction_groups]. rewrite !app_nil_r. reflexivity.
  - cbn [pack_groups fraction_groups]. rewrite <- app_assoc, whole_group_read by (easy || lia).
    destruct (all_digits_split 9 ds Hd) as [H1 H2]. assert (L1 : length (take 9 ds) = 9%nat) by (rewrite length_take; lia).
    pose proof (push_digits_text text _ H1) as Hp. rewrite L1 in Hp. unfold GROUP_DIGITS. rewrite Hp, (app_assoc pre), IH by (easy || (rewrite length_drop; lia)).
    rewrite <- !app_assoc. f_equal. f_equal. f_equal. replace (9 * S count)%nat with (9 + 9 * count)%nat by lia. now rewrite <- take_take_drop.
Qed.

Lemma decimal_integer_read flip sign ds post : flip_ok flip -> all_digits ds = true ->
  decimal_integer (imap (mask flip) (pack_integer ds ++ post)) flip (length ds) sign =
  Some (length (pack_integer ds), sign ++ strip_zeros ds, nonempty (strip_zeros ds)).
Proof.
  intros Hf Hd. unfold decimal_integer, pack_integer, GROUP_DIGITS. pose proof (Nat.div_mod (length ds) 9 ltac:(lia)) as Em.
  pose proof (Nat.mod_upper_bound (length ds) 9 ltac:(lia)) as Hb. set (leading := (length ds mod 9)%nat) in *. set (count := (length ds / 9)%nat) in *.
  destruct (all_digits_split leading ds Hd) as [H1 H2]. assert (L1 : length (take leading ds) = leading) by (rewrite length_take; lia).
  assert (L2 : length (drop leading ds) = (9 * count)%nat) by (rewrite length_drop; lia).
  destruct (Nat.ltb_spec 0 leading) as [Hpos|Hz].
  - destruct (partial_enough leading ltac:(lia)) as [Hp1 Hp2]. rewrite <- app_assoc.
    pose proof (group_read flip [] (pack_groups count (drop leading ds) ++ post) _ leading _ Hf Hp1 (group_value _ _ H1 L1) Hp2) as Hg. cbn [app length Nat.add] in Hg. rewrite Hg.
    pose proof (write_integer_step sign [] (take leading ds) H1 ltac:(lia) ltac:(easy)) as Hw. cbn [strip_zeros nonempty app] in Hw. rewrite app_nil_r in Hw. rewrite Hw.
    rewrite <- (length_to_be (partial_bytes leading) (digits_value (take leading ds))) at 2. rewrite integer_groups_read by easy. now rewrite take_drop.
  - assert (leading = 0%nat) as E by lia. rewrite E in *. cbn [partial_bytes nth PARTIAL_GROUP_BYTES take drop] in *. change (to_be 0 (digits_value [])) with (@nil byte). cbn [app].
    pose proof (integer_groups_read flip sign count Hf ds [] [] post Hd L2) as Hg. cbn [app length strip_zeros nonempty] in Hg. now rewrite app_nil_r in Hg.
Qed.

Lemma decimal_fraction_read flip ds pre text : flip_ok flip -> all_digits ds = true ->
  decimal_fraction (imap (mask flip) (pre ++ pack_fraction ds)) flip (length ds) (length pre) text = Some (text ++ ds).
Proof.
  intros Hf Hd. unfold decimal_fraction, pack_fraction, GROUP_DIGITS. pose proof (Nat.div_mod (length ds) 9 ltac:(lia)) as Em.
  pose proof (Nat.mod_upper_bound (length ds) 9 ltac:(lia)) as Hb. set (trailing := (length ds mod 9)%nat) in *. set (count := (length ds / 9)%nat) in *.
  rewrite fraction_groups_read by (easy || lia). destruct (all_digits_split (9 * count) ds Hd) as [_ H2].
  assert (L2 : length (drop (9 * count) ds) = trailing) by (rewrite length_drop; lia).
  destruct (Nat.ltb_spec 0 trailing) as [Hpos|Hz].
  - destruct (partial_enough trailing ltac:(lia)) as [Hp1 Hp2].
    pose proof (group_read flip (pre ++ pack_groups count ds) [] _ trailing _ Hf Hp1 (group_value _ _ H2 L2) Hp2) as Hg. rewrite app_nil_r, <- app_assoc in Hg. rewrite Hg.
    pose proof (push_digits_text (text ++ take (9 * count) ds) _ H2) as Hp. rewrite L2 in Hp. now rewrite Hp, <- app_assoc, take_drop.
  - rewrite take_ge by lia. reflexivity.
Qed.

Lemma head_clear_app a b : head_clear a -> head_clear (a ++ b).
Proof. now destruct a. Qed.

Lemma group_head ds d : all_digits ds = true -> length ds = d -> (1 <= d <= 8)%nat -> head_clear (to_be (partial_bytes d) (digits_value ds)).
Proof. intros Hd Hl Hr. destruct (partial_enough d Hr) as [Hp1 Hp2]. apply to_be_head; [lia|]. pose proof (group_value _ _ Hd Hl). lia. Qed.

Lemma whole_groups_head count ds : all_digits ds = true -> (1 <= count)%nat -> (9 * count <= length ds)%nat -> head_clear (pack_groups count ds).
Proof.
  intros Hd Hc Hl. destruct count as [|count]; [lia|]. cbn [pack_groups]. apply head_clear_app, to_be_head; [lia|].
  destruct (all_digits_split 9 ds Hd) as [H1 _]. pose proof (group_value (take 9 ds) 9 H1 ltac:(rewrite length_take; lia)) as Hv.
  change (power_of_ten 9) with 1000000000 in Hv. change (2 ^ (8 * Z.of_nat 4 - 1)) with 2147483648. lia.
Qed.

Lemma decimal_head whole fraction : all_digits whole = true -> all_digits fraction = true -> whole ++ fraction <> [] ->
  head_clear (pack_integer whole ++ pack_fraction fraction).
Proof.
  intros Hw Hf Hn. pose proof (Nat.div_mod (length whole) 9 ltac:(lia)) as Ew. pose proof (Nat.div_mod (length fraction) 9 ltac:(lia)) as Ef.
  pose proof (Nat.mod_upper_bound (length whole) 9 ltac:(lia)). pose proof (Nat.mod_upper_bound (length fraction) 9 ltac:(lia)).
  destruct (Nat.eq_dec (length whole mod 9) 0)%nat as [Hz|Hz].
  - destruct (Nat.eq_dec (length whole / 9) 0)%nat as [Hc|Hc].
    + assert (whole = []) as -> by (apply length_zero_iff_nil; lia). unfold pack_fraction. cbn [pack_integer length app].
      change (pack_integer []) with (@nil byte). cbn [app]. destruct (Nat.eq_dec (length fraction / 9) 0)%nat as [Hd|Hd].
      * rewrite Hd. cbn [pack_groups app Nat.mul]. apply (group_head (drop 0 fraction)); [easy|rewrite length_drop; lia|].
        destruct fraction; [easy|cbn [length] in *; lia].
      * apply head_clear_app, whole_groups_head; [easy|lia..].
    + unfold pack_integer. rewrite Hz. change (to_be (partial_bytes 0) _) with (@nil byte). cbn [app]. rewrite drop_0. apply head_clear_app, whole_groups_head; [easy|lia..].
  - unfold pack_integer. rewrite <- app_assoc. apply head_clear_app. destruct (all_digits_split (length whole mod 9)%nat whole Hw) as [H1 _].
    apply group_head; [easy|rewrite length_take; lia|lia].
Qed.

Lemma sign_read (negative : bool) body rest : head_clear body -> imap (mask (if negative then 255 else 0)) body = rest ->
  match rest with first :: _ => negb (high_bit first) = negative | [] => False end.
Proof.
  intros Hh <-. destruct body as [|b body]; [easy|]. rewrite imap_cons. cbn [head_clear] in Hh. unfold high_bit in *. revert Hh. destruct negative, b; easy.
Qed.

(** C24. Decimals are read exactly: the bytes MySQL packs a decimal of the
    declared precision and scale into become its sign, its integer digits without leading
    zeros and every digit of its fraction. *)
Theorem packed_decimals_read negative whole fraction : all_digits whole = true -> all_digits fraction = true -> whole ++ fraction <> [] ->
  decimal_text (pack_decimal negative whole fraction) (length whole + length fraction) (length fraction) = Some (decimal_of negative whole fraction).
Proof.
  intros Hw Hf Hn. unfold decimal_text, pack_decimal. pose proof (decimal_head _ _ Hw Hf Hn) as Hh.
  destruct (imap (mask (if negative then 255 else 0)) (pack_integer whole ++ pack_fraction fraction)) as [|first raw] eqn:E; [now apply (sign_read negative _ _ Hh) in E|].
  rewrite (sign_read negative _ _ Hh E), <- E. clear first raw E. cbv zeta.
  set (flip := if negative then 255 else 0). assert (Hfl : flip_ok flip) by (unfold flip_ok, flip; destruct negative; auto).
  destruct (Nat.ltb_spec (length whole + length fraction) (length fraction)); [lia|]. replace (length whole + length fraction - length fraction)%nat with (length whole) by lia.
  rewrite decimal_integer_read by easy. unfold decimal_of. destruct fraction as [|d fraction].
  - cbn [length Nat.eqb nonempty negb andb Nat.ltb Nat.leb]. destruct (nonempty (strip_zeros whole)) eqn:En; cbn [negb andb]; [|reflexivity].
    pose proof (decimal_fraction_read flip [] (pack_integer whole) ((if negative then [minus_byte] else []) ++ strip_zeros whole) Hfl eq_refl) as Hr. rewrite <- app_assoc in Hr. exact Hr.
  - change (negb (nonempty (d :: fraction))) with false. change (length (d :: fraction) =? 0)%nat with false. rewrite ?andb_false_r.
    change (0 <? length (d :: fraction))%nat with true. cbv iota. rewrite decimal_fraction_read by easy.
    cbn [nonempty]. destruct (strip_zeros whole) as [|z zs]; cbn [nonempty]; repeat rewrite <- app_assoc; now destruct negative.
Qed.

Lemma packed_decimals_read_witness :
  pack_decimal true (ascii "01234567890") (ascii "1200") = map byte.of_Z [0x7e; 0xf2; 0x04; 0xc7; 0x2d; 0xfb; 0x4f] /\
  decimal_text (pack_decimal true (ascii "01234567890") (ascii "1200")) 15 4 = Some (ascii "-1234567890.1200").
Proof.
  split; [vm_compute; reflexivity|].
  apply (packed_decimals_read true (ascii "01234567890") (ascii "1200")); [vm_compute; reflexivity..|discriminate].
Defined.

(** ** The packing of dates and times *)

(** The unit the bytes of a fraction count in. *)
Definition fraction_unit (precision : Z) : Z :=
  match fraction_bytes precision with 1%nat => 10000 | 2%nat => 100 | 3%nat => 1 | _ => 1000000 end.

Definition pack_fraction_of_second (precision micros : Z) : list byte := to_be (fraction_bytes precision) (micros / fraction_unit precision).

(** What is left of the microseconds at a precision. *)
Definition kept_micros (precision micros : Z) : Z :=
  match fraction_bytes precision with O => 0 | _ => micros / fraction_unit precision * fraction_unit precision end.

(** [my_datetime_packed_to_binary] of the parts' packed form. *)
Definition packed_parts (m : Moment) : Z :=
  ((m_year m * 13 + m_month m) * 2 ^ 5 + m_day m) * 2 ^ 17 + m_hour m * 2 ^ 12 + m_minute m * 2 ^ 6 + m_second m.

Definition pack_datetime (m : Moment) (precision micros : Z) : list byte :=
  to_be 5 (packed_parts m + 0x8000000000) ++ pack_fraction_of_second precision micros.

(** The parts the storage format holds. *)
Definition storable (m : Moment) : Prop :=
  0 <= m_year m <= 9999 /\ 0 <= m_month m <= 12 /\ 0 <= m_day m <= 31 /\ 0 <= m_hour m < 24 /\ 0 <= m_minute m < 60 /\ 0 <= m_second m < 60.

Lemma fraction_read precision micros : 0 <= micros < 1000000 ->
  fraction_micros (pack_fraction_of_second precision micros) = kept_micros precision micros /\ 0 <= kept_micros precision micros <= micros.
Proof.
  intros Hm. unfold fraction_micros, pack_fraction_of_second, kept_micros, fraction_unit. rewrite length_to_be.
  assert (Hf : fraction_bytes precision = 0%nat \/ fraction_bytes precision = 1%nat \/ fraction_bytes precision = 2%nat \/ fraction_bytes precision = 3%nat).
  { unfold fraction_bytes. destruct (_ || _); [auto|]. destruct (_ || _); [auto|]. destruct (_ || _); auto. }
  destruct Hf as [->|[->|[->| ->]]]; [lia|..].
  - pose proof (Z.div_mod micros 10000 ltac:(lia)). pose proof (Z.mod_pos_bound micros 10000 ltac:(lia)).
    rewrite signed_to_be; [lia|lia|]. apply in_signed_spec. cbn. lia.
  - pose proof (Z.div_mod micros 100 ltac:(lia)). pose proof (Z.mod_pos_bound micros 100 ltac:(lia)).
    rewrite signed_to_be; [lia|lia|]. apply in_signed_spec. cbn. lia.
  - rewrite Z.div_1_r, Z.mul_1_r. rewrite signed_to_be; [lia|lia|]. apply in_signed_spec. cbn. lia.
Qed.

Lemma parts_range m : storable m -> 0 <= packed_parts m < 2 ^ 39.
Proof. intros (Hy & Hm & Hd & Hh & Hi & Hs). unfold packed_parts. lia. Qed.

Lemma u32_part_some z : 0 <= z < 2 ^ 32 -> u32_part z = Some z.
Proof. intros Hz. unfold u32_part, is_u32. now rewrite (proj2 (in_unsigned_spec 32 z) Hz). Qed.

(** A number of a quotient and a remainder, taken apart. *)
Lemma apart a b k : 0 <= k -> 0 <= a -> 0 <= b < 2 ^ k -> Z.shiftr (a * 2 ^ k + b) k = a /\ Z.rem (a * 2 ^ k + b) (2 ^ k) = b.
Proof.
  intros Hk Ha Hb. rewrite Z.shiftr_div_pow2 by lia. rewrite Z.rem_mod_nonneg by nia. split; [symmetry; apply (Z.div_unique _ _ _ b); lia|].
  symmetry. apply (Z.mod_unique _ _ a); lia.
Qed.

(** The parts of a packed date and time, by shifts and remainders. *)
Lemma parts_apart m : storable m ->
  let date := Z.shiftr (packed_parts m) 17 in
  let clock := Z.rem (packed_parts m) (2 ^ 17) in
  Z.quot (Z.shiftr date 5) 13 = m_year m /\ Z.rem (Z.shiftr date 5) 13 = m_month m /\ Z.rem date (2 ^ 5) = m_day m /\
  Z.shiftr clock 12 = m_hour m /\ Z.rem (Z.shiftr clock 6) (2 ^ 6) = m_minute m /\ Z.rem clock (2 ^ 6) = m_second m.
Proof.
  destruct m as [y mo d h mi s]. unfold storable, packed_parts. cbn [m_year m_month m_day m_hour m_minute m_second]. intros (Hy & Hmo & Hd & Hh & Hi & Hs).
  assert (Hclock : 0 <= h * 2 ^ 12 + (mi * 2 ^ 6 + s) < 2 ^ 17) by (clear Hy Hmo Hd; change (2 ^ 12) with 4096; change (2 ^ 6) with 64; change (2 ^ 17) with 131072; lia).
  assert (Hminute : 0 <= mi * 2 ^ 6 + s < 2 ^ 12) by (clear - Hi Hs; change (2 ^ 6) with 64; change (2 ^ 12) with 4096; lia).
  assert (Hsecond : 0 <= s < 2 ^ 6) by (clear - Hs; change (2 ^ 6) with 64; lia). assert (Hmin : 0 <= mi < 2 ^ 6) by (clear - Hi; change (2 ^ 6) with 64; lia).
  assert (Hday : 0 <= d < 2 ^ 5) by (clear - Hd; change (2 ^ 5) with 32; lia). assert (Hdate : 0 <= y * 13 + mo) by (clear - Hy Hmo; lia).
  assert (Hwhole : 0 <= (y * 13 + mo) * 2 ^ 5 + d) by (clear - Hdate Hday; change (2 ^ 5) with 32 in *; lia).
  replace (((y * 13 + mo) * 2 ^ 5 + d) * 2 ^ 17 + h * 2 ^ 12 + mi * 2 ^ 6 + s) with (((y * 13 + mo) * 2 ^ 5 + d) * 2 ^ 17 + (h * 2 ^ 12 + (mi * 2 ^ 6 + s))) by ring.
  cbv zeta. destruct (apart _ _ 17 ltac:(easy) Hwhole Hclock) as [-> ->]. destruct (apart _ _ 5 ltac:(easy) Hdate Hday) as [-> ->].
  destruct (apart h _ 12 ltac:(easy) (proj1 Hh) Hminute) as [-> _].
  replace (h * 2 ^ 12 + (mi * 2 ^ 6 + s)) with ((h * 2 ^ 6 + mi) * 2 ^ 6 + s) by ring.
  assert (Hhm : 0 <= h * 2 ^ 6 + mi) by (clear - Hh Hi; change (2 ^ 6) with 64; lia). destruct (apart _ _ 6 ltac:(easy) Hhm Hsecond) as [-> ->].
  destruct (apart h mi 6 ltac:(easy) (proj1 Hh) Hmin) as [_ ->]. rewrite Z.quot_div_nonneg, Z.rem_mod_nonneg by (clear - Hdate; lia).
  split; [symmetry; apply (Z.div_unique _ _ _ mo); clear - Hmo; lia|]. split; [symmetry; apply (Z.mod_unique _ _ y); clear - Hmo; lia|]. now split_and!.
Qed.

Lemma packed_i64 p k : 0 <= p < 2 ^ 39 -> 0 <= k < 2 ^ 24 -> abs_i64 (wrap_i64 (p * 2 ^ 24 + k)) = p * 2 ^ 24 + k.
Proof.
  intros Hp Hk. assert (Hr : 0 <= p * 2 ^ 24 + k < 2 ^ 63) by (change (2 ^ 63) with (2 ^ 39 * 2 ^ 24); nia).
  assert (Hw : forall z, 0 <= z < 2 ^ 63 -> wrap_i64 z = z).
  { intros z Hz. unfold wrap_i64, signed. change (2 ^ 64) with (2 * 2 ^ 63) in *. rewrite Z.mod_small by lia. change (2 ^ (64 - 1)) with (2 ^ 63). destruct (Z.ltb_spec z (2 ^ 63)); lia. }
  unfold abs_i64. rewrite (Hw (p * 2 ^ 24 + k)) by exact Hr. rewrite Z.abs_eq by (clear - Hr; lia). now apply Hw.
Qed.

Lemma split_at_app n a b : length a = n -> split_at_checked n (a ++ b) = Some (a, b).
Proof.
  intros <-. unfold split_at_checked. rewrite take_app_length, drop_app_length. destruct (Nat.leb_spec (length a) (length (a ++ b))) as [|Hl]; [easy|].
  rewrite length_app in Hl. lia.
Qed.

Lemma unpack_parts m k fsp : storable m -> 0 <= k < 2 ^ 24 -> unpack_datetime (packed_parts m * 2 ^ 24 + k) fsp = Some (datetime_value m k fsp).
Proof.
  intros Hs Hk. unfold unpack_datetime. destruct (apart (packed_parts m) k 24 ltac:(easy) (proj1 (parts_range m Hs)) Hk) as [-> ->].
  destruct (parts_apart m Hs) as (-> & -> & -> & -> & -> & ->). destruct Hs as (Hy & Hmo & Hd & Hh & Hi & Hse). change (2 ^ 24) with 16777216 in Hk.
  rewrite !u32_part_some by (change (2 ^ 32) with 4294967296; lia). now destruct m.
Qed.

(** C25. A date and time is read as the parts that were packed, with the
    microseconds the column's precision keeps. *)
Theorem packed_datetimes_read m precision micros fsp : storable m -> 0 <= micros < 1000000 ->
  packed_datetime (pack_datetime m precision micros) fsp = Some (datetime_value m (kept_micros precision micros) fsp).
Proof.
  intros Hs Hm. pose proof (parts_range m Hs) as Hp. destruct (fraction_read precision micros Hm) as [Ef Hk].
  assert (Hk' : 0 <= kept_micros precision micros < 2 ^ 24) by (change (2 ^ 24) with 16777216; lia).
  unfold packed_datetime, pack_datetime. rewrite (split_at_app 5) by apply length_to_be. cbv zeta.
  rewrite unsigned_to_be, Ef, Z.add_simpl_r, (packed_i64 _ _ Hp Hk'); [now apply unpack_parts|lia|].
  change (2 ^ (8 * Z.of_nat 5)) with (2 ^ 39 + 0x8000000000). lia.
Qed.

(** [YEAR * 512 + MONTH * 32 + DAY] in three little-endian bytes. *)
Definition pack_date (year month day : Z) : list byte := to_le 3 (year * 512 + month * 32 + day).

Definition date_value (year month day : Z) : Value :=
  VUtf8 (dec_padded 4 year ++ [minus_byte] ++ dec_padded 2 month ++ [minus_byte] ++ dec_padded 2 day).

(** A date is stored as the text of the year, month and day that were
    packed, the all-zero date included. *)
Theorem packed_dates_read year month day : 0 <= year <= 9999 -> 0 <= month <= 12 -> 0 <= day <= 31 ->
  packed_date (pack_date year month day) = Some (date_value year month day).
Proof.
  intros Hy Hm Hd. unfold packed_date, pack_date, date_value. pose proof (len_to_le 3 (year * 512 + month * 32 + day)) as Hl.
  rewrite unsigned_little by (unfold len in Hl; lia). rewrite from_to_le, Z.mod_small by (cbn; lia). rewrite u32_part_some by lia. cbn [mbind option_bind].
  assert (E1 : Z.shiftr (year * 512 + month * 32 + day) 9 = year).
  { rewrite Z.shiftr_div_pow2 by lia. symmetry. apply (Z.div_unique _ _ _ (month * 32 + day)); lia. }
  assert (E2 : Z.land (Z.shiftr (year * 512 + month * 32 + day) 5) 15 = month).
  { rewrite Z.shiftr_div_pow2 by lia. replace ((year * 512 + month * 32 + day) / 2 ^ 5) with (year * 16 + month) by (apply (Z.div_unique _ _ _ day); lia).
    change 15 with (Z.ones 4). rewrite Z.land_ones by lia. symmetry. apply (Z.mod_unique _ _ year); lia. }
  assert (E3 : Z.land (year * 512 + month * 32 + day) 31 = day).
  { change 31 with (Z.ones 5). rewrite Z.land_ones by lia. symmetry. apply (Z.mod_unique _ _ (year * 16 + month)); lia. }
  rewrite E1, E2, E3. destruct ((year =? 0) && (month =? 0) && (day =? 0)) eqn:Ez.
  - assert (year = 0 /\ month = 0 /\ day = 0) as (-> & -> & ->) by lia. reflexivity.
  - destruct ((9999 <? year) || (12 <? month) || (31 <? day)) eqn:Er; [lia|].
    rewrite !push_digits_padded by (lia || (cbn; lia)). now rewrite <- !app_assoc.
Qed.

(** ** Integers *)

Lemma last_high raw : (1 <= length raw)%nat -> match last raw with Some b => high_bit b | None => false end = (2 ^ (8 * len raw - 1) <=? from_le raw).
Proof.
  intros Hl. rewrite <- (rev_involutive raw). destruct (rev raw) as [|b bs] eqn:E.
  - apply (f_equal (@length byte)) in E. rewrite length_rev in E. cbn in E. lia.
  - cbn [rev]. rewrite last_snoc, (high_bit_be b bs). cbn [rev]. f_equal. f_equal. unfold len. rewrite length_app, length_rev. cbn [length]. lia.
Qed.

Lemma wide_bits raw n b : from_le (raw ++ replicate n b) = from_le raw + 2 ^ (8 * len raw) * from_le (replicate n b).
Proof. apply from_le_app. Qed.

(** What the bytes read as, before the declared width is applied. *)
Lemma read_plain raw unsigned_in_map : (1 <= length raw <= 8)%nat ->
  read_integer raw unsigned_in_map None =
    if negb unsigned_in_map && (2 ^ (8 * len raw - 1) <=? from_le raw) then ReadSigned (signed (8 * len raw) (from_le raw))
    else if is_i64 (from_le raw) then ReadSigned (from_le raw) else ReadUnsigned (from_le raw).
Proof.
  intros Hl. unfold read_integer. rewrite last_high by lia. pose proof (from_le_range raw) as Hr.
  destruct (negb unsigned_in_map && (2 ^ (8 * len raw - 1) <=? from_le raw)) eqn:En; rewrite wide_bits.
  - apply andb_prop in En as [_ En]. pose proof (sign_extended (length raw) (from_le raw) Hl Hr) as Hs. fold (len raw) in Hs. rewrite En in Hs. now rewrite Hs.
  - change (byte.of_Z 0) with Byte.x00. rewrite from_le_zeros, Z.mul_0_r, Z.add_0_r. now destruct (is_i64 (from_le raw)).
Qed.

Lemma read_declared raw unsigned_in_map : (1 <= length raw <= 8)%nat ->
  read_integer raw unsigned_in_map (Some (length raw)) = ReadUnsigned (from_le raw).
Proof.
  intros Hl. unfold read_integer. rewrite take_app_length.
  assert (Hz : forall n, from_le (raw ++ replicate n (byte.of_Z 0)) = from_le raw).
  { intros n. change (byte.of_Z 0) with Byte.x00. rewrite wide_bits, from_le_zeros. lia. }
  destruct (negb unsigned_in_map && _); rewrite ?Hz; [reflexivity|]. now destruct (is_i64 (from_le raw)).
Qed.

(** Integers of every width are read as they were written: with their
    sign for a signed column, and for a column declared unsigned as unsigned whether or not
    the table map says so.  A value outside the declared type is left to the general
    decoder. *)
Theorem stored_integers_read (w : nat) v t : (1 <= w <= 8)%nat ->
  (in_signed (8 * Z.of_nat w) v = true ->
   integer_value (to_le w v) false None (ToSigned t) = if signed_fits t v then Some (VInt64 v) else None) /\
  (in_unsigned (8 * Z.of_nat w) v = true -> forall unsigned_in_map,
   integer_value (to_le w v) unsigned_in_map (Some w) (ToUnsigned t) = if unsigned_fits t v then Some (VUInt64 v) else None).
Proof.
  intros Hw. assert (Hl : length (to_le w v) = w) by (pose proof (len_to_le w v); unfold len in *; lia).
  assert (Hlen : len (to_le w v) = Z.of_nat w) by apply len_to_le. split.
  - intros Hv. unfold integer_value. rewrite read_plain by lia. rewrite Hlen. pose proof (from_to_le w v) as E.
    assert (Es : signed (8 * Z.of_nat w) (from_le (to_le w v)) = v) by (rewrite E; apply signed_mod; [lia|easy]).
    rewrite Es. cbn [negb andb]. destruct (Z.leb_spec (2 ^ (8 * Z.of_nat w - 1)) (from_le (to_le w v))) as [|Hp]; [reflexivity|].
    assert (Ev : from_le (to_le w v) = v) by (rewrite <- Es at 2; unfold signed; destruct (Z.ltb_spec (from_le (to_le w v)) (2 ^ (8 * Z.of_nat w - 1))); lia).
    rewrite Ev in *. assert (H64 : is_i64 v = true).
    { apply in_signed_spec. apply in_signed_spec in Hv. assert (2 ^ (8 * Z.of_nat w - 1) <= 2 ^ (64 - 1)) by (apply Z.pow_le_mono_r; lia). lia. }
    now rewrite H64.
  - intros Hv um. unfold integer_value. replace (Some w) with (Some (length (to_le w v))) by now rewrite Hl. rewrite read_declared by lia.
    apply in_unsigned_spec in Hv. rewrite from_to_le, Z.mod_small by lia. reflexivity.
Qed.

Lemma stored_integers_read_witness :
  integer_value (to_le 3 (-2)) false None (ToSigned DInt32) = Some (VInt64 (-2)) /\
  integer_value (to_le 4 4294967295) false (Some 4%nat) (ToUnsigned DUInt32) = Some (VUInt64 4294967295).
Proof.
  split.
  - apply (proj1 (stored_integers_read 3 (-2) DInt32 ltac:(lia))). reflexivity.
  - apply (proj2 (stored_integers_read 4 4294967295 DUInt32 ltac:(lia))). reflexivity.
Defined.

Definition sample_moment : Moment := {| m_year := 2024; m_month := 2; m_day := 30; m_hour := 23; m_minute := 59; m_second := 58 |}.

Lemma packed_datetimes_read_witness :
  packed_datetime (pack_datetime sample_moment 3 123456) 3 = Some (VUtf8 (ascii "2024-02-30 23:59:58.123")).
Proof.
  rewrite packed_datetimes_read; [vm_compute; reflexivity| |lia]. unfold storable, sample_moment. cbn. lia.
Defined.

Lemma packed_dates_read_witness : packed_date (pack_date 2024 2 30) = Some (VUtf8 (ascii "2024-02-30")).
Proof. rewrite packed_dates_read by lia. vm_compute. reflexivity. Defined.

(** The all-zero bytes of a date and time are outside the range of the arithmetic: the
    packed integer is the least [i64], which has no absolute value.  Wrapped around, the
    parts are negative, and the reader declines. *)
Lemma zero_image_declined fsp : packed_datetime (replicate 5 (byte.of_Z 0)) fsp = None /\ - 0x8000000000 * 2 ^ 24 = - 2 ^ 63.
Proof. split; reflexivity. Qed.
